(* ===== verification/_CoqProject ===== *)
-Q . S2P
Prelude.v
Word.v
Slice.v
FreeList.v
SortedMap.v
CapKind.v
Capability.v
CapTable.v
CapSystem.v
BpfOpcode.v
BpfInsn.v
BpfEncode.v
Tnum.v
TnumSound.v
TnumRange.v
BpfScalar.v
BpfInterp.v
BpfRefine.v
ScalarSound.v
ScalarOps.v
ScalarInterp.v
BpfMachine.v
BpfKfunc.v
BpfIr.v
BpfLiveness.v
BpfBlocks.v
BpfCfg.v
BpfDom.v
BpfGraph.v
BpfDomTree.v
BpfDominators.v
BpfRegions.v
BpfWiden.v
BpfScc.v
BpfBuild.v
BpfLive.v
BpfState.v
BpfAnalysis.v
BpfVerify.v
BpfStateSound.v
BpfStackSound.v
BpfTriple.v
BpfArithSound.v
BpfAccessSound.v
BpfStepSound.v
BpfFixpoint.v
BpfTopo.v
BpfVerified.v
BpfTotal.v
TimerWheel.v
TimerWheelSound.v
Buddy.v
BuddyOps.v
BuddyRange.v
BuddyHeap.v
Lz4.v
Lz4Format.v
Lz4Encode.v
Zpool.v
ZpoolSound.v
RamDisk.v
RegionIndex.v
RegionTree.v
RegionUpdate.v
RegionSearch.v
RegionMap.v
RegionSpec.v
IpcRing.v
IpcRingSound.v
IpcMpscRing.v
IpcMpscSound.v
IpcMpscSpec.v
RcuQsbr.v
RcuSystem.v
RcuSound.v
RcuSpec.v
RcuHazard.v
RcuHazardSound.v
RcuVariants.v
