(* ===== verification/Prelude.v ===== *)
(** * Verification of narf

    narf is a kernel in Rust.  This development models eight of its parts as
    executable functions, taken from the source operation by operation, and
    proves what each part promises.  Paths below are relative to [src/].

    ** The parts and how they interact

    - Capabilities ([capabilities/src/lib.rs]) are the kernel's authority
      tokens.  A token names an entry of a global object table and carries the
      epoch the object had when it was minted; revocation bumps the epoch.
      Tasks hold tokens in tables, which system-call dispatch consults.
    - The BPF tool chain lets a user load programs into the kernel.  An
      instruction set with its encoder and decoder ([bpf/isa]) feeds a verifier
      ([bpf/verifier]).  The verifier builds a control-flow graph with
      dominators and widening points ([ir.rs]), computes live registers
      ([liveness.rs]), and runs every subprogram to a fixpoint
      ([fixpoint.rs]) over abstract states ([state.rs]) whose numbers are a
      tristate number with a signed interval ([domain.rs]); kernel functions
      are known by their descriptors ([kfunc.rs]).  [lib.rs] holds the entry
      point [verify].  A reference interpreter in the same crate
      ([interp.rs]) fixes what instructions mean.
    - The buddy allocator ([memory/src/buddy.rs]) owns the physical frames of
      one memory node, and everything else is allocated from it.
    - The timer wheel ([time/src/timer_wheel.rs]) holds sleeping tasks and the
      cached earliest deadline; in interrupt context it hands due wakers to
      the deferred-wake queue ([lib/src/deferred_wake.rs]) of the processor,
      which the idle loop drains.

    - Compressed memory: a RAM disk ([memory/src/compressed_ramdisk.rs]) keeps
      its pages in a pool ([zpool.rs]) that stores them through an LZ4 codec
      ([compress.rs]).
    - The region index ([memory/src/region_index.rs]) is the ordered map of an
      address space's regions, an AVL tree in an arena.
    - The rings of the IPC layer ([ipc/src/lib.rs], [ipc/src/mpsc_ring.rs])
      carry messages between tasks, with one or with many producers.
    - Deferred reclamation ([rcu/src]) lets readers follow shared pointers
      without locks.  A writer retires what it unlinks; the destructor runs
      once every processor has reported a quiescent state ([qsbr.rs], with the
      pointer cells of [lib.rs]) or once no hazard slot names it
      ([hazard.rs]).  Scopes whose readers may sleep ([sleepable.rs]) are
      entered with a capability.

    The parts share no state but for the three layers of compressed memory, the
    wheel with its queue, and the object table that a sleepable scope consults.  A capability guards the loading of a program and
    the mapping of frames, but those call sites are not modelled.

    ** Files

    - [Prelude]: Rust's [Result] and [Option] operators, the tactics, the
      generic lemmas.  [Word]: machine integers of width [w] as integers below
      [2^w], wrap-around, signed reading, bits, carries and borrows.
    - [CapKind]: the kind registry ([CapKind], [KIND_NAMES], [parse_kind]).
      [Capability]: rights and their lattice, slots and their 128-bit image
      (with [cas128] of [arch/src/x86_64/asm.rs]), the object table, and
      [Cap]'s operations.  [CapTable]: task tables, transfer, lookup.
      [CapSystem]: the state machine made of all of them.
    - [BpfOpcode], [BpfInsn]: [bpf/isa/src/opcode.rs] and [insn.rs], constants,
      instruction words, the decoder.  [BpfEncode]: [encode.rs] and the round
      trips.
    - [Tnum], [BpfScalar]: [Tnum] and [Scalar] of [bpf/verifier/src/domain.rs].
      [BpfInterp]: [interp.rs], the machine and its run loop.  [BpfRefine]:
      the predicates and scalar refinement of [fixpoint.rs].
      [TnumSound], [TnumRange], [ScalarSound], [ScalarOps], [ScalarInterp]:
      what the abstract values denote, the soundness of every operation and
      that it keeps values well formed.  [BpfMachine]: the memory and the
      totality of the interpreter.
    - [BpfIr], [BpfDom], [BpfWiden]: [Ir::build] of [ir.rs]: decoding, edges,
      blocks, subprograms and call graph; dominators and back edges;
      components and widening points.  [BpfLiveness]: [liveness.rs] and
      that its backward dataflow ends with the least solution.
      [BpfBlocks], [BpfCfg]: the graph follows execution.  [BpfGraph],
      [BpfDomTree], [BpfDominators], [BpfRegions]: walks, the depth-first
      searches and the dominator algorithm.  [BpfScc]: components and nested
      cycles.  [BpfBuild]: the theorems about whole built programs.
      [BpfLive]: what liveness means for runs.
    - [BpfKfunc], [BpfState]: [kfunc.rs] and [state.rs].  [BpfAnalysis]: the
      transfer functions, calls and branch refinement of [fixpoint.rs].
      [BpfVerify]: its worklist, call order and report, and [verify].
      [BpfStateSound], [BpfStackSound]: which machines a state describes;
      joins, widening, inclusion and the stack.  [BpfTriple]: a program logic
      for the analysis monad.  [BpfArithSound], [BpfAccessSound],
      [BpfStepSound]: every transfer function against the interpreter.
      [BpfFixpoint]: the worklist and what a step does not depend on.
      [BpfTopo]: the call order.  [BpfVerified]: soundness of [verify]
      and the programs that show its limits.  [BpfTotal]: when it panics.
    - [TimerWheel]: the wheel and the queue.  [TimerWheelSound]: their state
      machine and its theorems.
    - [Buddy]: [BuddyZone] and its operations.  [BuddyOps]: zones as bags of
      blocks, the frames they cover, and the effect of donation, allocation
      and free.  [BuddyRange]: range removal and
      rebalancing.  [BuddyHeap]: the allocator over time.
    - [Slice]: byte buffers written in place.  [FreeList]: free lists threaded
      through an array.  [SortedMap]: ordered maps as sorted association lists.
    - [Lz4]: encoder and decoder.  [Lz4Format]: the block format as a relation.
      [Lz4Encode]: both against the format.  [Zpool]: the pool and the RAM
      disk.  [ZpoolSound], [RamDisk]: their theorems.
    - [RegionIndex]: the arena, the tree and its operations.  [RegionTree]:
      which trees an arena holds.  [RegionUpdate], [RegionSearch]: insertion
      and removal, queries and iterators.  [RegionMap]: the index as a
      map and the sorted build.  [RegionSpec]: the theorems.
    - [IpcRing], [IpcRingSound]: the ring with one producer.  [IpcMpscRing],
      [IpcMpscSound], [IpcMpscSpec]: the ring with many.
    - [RcuQsbr]: quiescent-state reclamation, one step function per function of
      the source, and the pointer cells.  [RcuSystem]: the processors, their
      frames, guards and interrupts, and where each allocation is.
      [RcuSound]: the invariant.  [RcuSpec]: the theorems and the runs.
      [RcuHazard], [RcuHazardSound]: hazard pointers.
      [RcuVariants]: sleepable scopes, the batched reclaimer, epoch pins.

    ** How the code is modelled

    Integers keep their width through [wrap] and [swrap]; a release build is
    modelled, in which arithmetic wraps and shift amounts are taken modulo the
    width.  A value that would make the source panic is [None] in an [option],
    and the theorems say when it does not occur.  Errors are values of
    [Result].  Shared state (the object table, the zone, the machine, the
    wheel, what the verifier has recorded) is passed explicitly; the object
    table, the zone and the wheel are only touched under a lock, so each
    operation is one atomic step, split where the source drops the lock.  The
    verifier's methods are computations in a monad with state, errors and
    panics.  Indices of instructions, blocks and subprograms are natural
    numbers, and the sentinels [NONE] and [NO_REF] are [None].  The wake of a
    task, which is other code, is a parameter that may register again.  In
    [Buddy] frame numbers are unbounded integers, since they stay below 2^52.

    Whether the heap grants a reservation is an argument of the operation that
    makes it (in [Zpool], [RegionIndex]), so that theorems hold for every
    answer.  The rings take no lock around a send or a receive: there each
    atomic access, each access to a payload and each critical section of a
    waker lock is one step, a method is a sequence of program points, and the
    theorems are about every interleaving.  Steps interleave in program order:
    an index is published with release and read with acquire, and wakers change
    hands under a lock, so a weaker memory shows no other outcome.  What was
    sent, claimed and received is recorded beside the ring and read by no step.
    The retag of a payload ([Retag::retag]) is an argument.

    Reclamation is modelled in the same way.  A processor is a stack of frames,
    one for each function under way; a section with interrupts masked is one
    step, and between two steps an interrupt or a destructor may pin, load,
    publish and retire.  Lists linked through the retired nodes are lists, an
    allocation is a number that is not used again, a guard records what was
    loaded under it, and what was freed is recorded beside the state.  The
    theorems on use after free are about processors that keep a discipline: in
    [RcuSystem] ([strict]) they pin and retire only while they take part in the
    grace periods, and a pointer cell is dropped only while no live guard holds
    what it points to; in [RcuHazard] no retirement reaches the list between the
    snapshot of a scan and its walk.  Runs show that the code does not keep
    them of itself.  The slots of the hazard domain are read and written in
    program order, which the orderings of the source do not guarantee.

    ** What the theorems show

    - Capabilities: every reachable capability and table entry is authentic;
      rights never grow without minting; revocation invalidates every copy
      and table entry and stays effective for [2^32 - 3] steps; the 32-bit
      epoch comes round, and a revoked capability is live again, after
      [2^32] revocations and their multiples and at no count between; installs never overwrite a slot; a transferred capability is
      usable by its receiver and no further; kind names are a bijection.
    - Instruction set: decoding inverts encoding on whole programs of the
      instructions the encoding has ([decoded_ok]); decoding is canonical and
      stays inside the program; some values of the instruction type have no
      valid encoding.
    - Abstract domain: [member] and [smember] say which words an abstract
      value denotes.  Bitwise tnum operations, meets, inclusion and
      [normalize] are exact; joins of tnums are least; every other operation
      contains the interpreter's result, including division by zero and the
      widening; branch refinement is sound on both edges.
    - Interpreter: it is total and its stack is a memory.
    - Control-flow graph: building it never panics, every step of a run
      follows an edge, the dominators are exact, every cycle has a widening
      point, and the dataflow returns the least solution; registers that are
      not live do not influence a run.
    - Verifier: transfer functions keep states well formed and simulate the
      interpreter on every instruction it has; joins and widenings cover both sides; when the worklist is
      empty the states are closed under the edges; so a program [verify]
      accepts never touches memory outside its frame and context, reads an
      uninitialised byte or leaves the program.  One assumption of the code is
      a hypothesis there, computed from the states ([null_tests_safe]): at a
      test against zero the pointer's address is not zero.  A program shows
      that the verifier does not establish it.  The call order is exact.  The
      verifier panics exactly when its run comes to an instruction whose
      transfer function panics, which happens only in a state with an empty
      abstract value, and a program shows that it can.
    - Timer wheel: due sleepers are woken exactly once, whatever is registered
      meanwhile; the cached deadline is never late; stale handles are
      harmless.
    - Buddy allocator: over any sequence of operations no frame is handed out
      or listed twice and the counters are exact; every operation moves
      exactly the frames it says; failures are complete; lists fit the
      capacity reserved for them; the overlap check decides overlap.
    - Compressed memory: the encoder returns, within its documented bound, a
      valid block whose value is the input; the decoder accepts exactly the
      valid blocks that fit; decoding inverts encoding.  The pool is a map from
      handles to pages and the disk an array of pages, whatever the heap
      answers, with exact counters.
    - Region index: it is an ordered map for every query, update and iterator;
      after a reservation the announced insertions do not panic; the sorted
      build equals insertion one by one.
    - Rings: both are bounded queues in every interleaving; slots have one
      owner; a pending receiver (and with one producer a pending sender) has
      its waker in place or is about to be woken; with many producers [Closed]
      means drained.  Runs show three faults: with one producer [Closed] can be
      reported before the ring is drained; with many, a pending sender can lose
      its wakeup, and a ring of capacity one loses messages.
    - Reclamation: under the discipline nothing a live guard has loaded is
      freed, and a wait that reports its grace period elapsed outlives every
      guard that was live when it began.  Without it every allocation is still
      in exactly one place, a non-empty worker queue has a wake on its way, and
      no function is stuck.  A scan of the hazard domain frees exactly what no
      slot names; a sleepable wait reports [Drained] exactly when it found no
      one inside.  Runs show three uses after free: by a reader on an idle
      processor, by a drop of a pointer cell while a guard holds what it points
      to, and by a scan that missed a late retirement.

    ** Bounds and fuel

    Loops of the source that are not structural carry a measure that is
    enough for every run: [normalize] has the source's own round limit,
    [mul] takes one step per bit, the buddy loops one per order, frame or
    list entry (the specifications of the loops have the bound as a
    hypothesis and the callers establish it), and [run] has the fuel argument
    of the source, with the trap the source returns when it runs out.  Of the
    graph of [n] blocks or instructions: the decoding pass has a step per
    slot, a depth-first search one per block and edge, [intersect] [2 n],
    [compute_idoms] [n (n + 1) + 1] rounds, [dominates] [n + 1], the nested
    widening points [n + 1] rounds, the backward dataflow [32 n + 1] rounds
    (each changes one of the 32 mask bits of an instruction), the call order
    one step per subprogram; that each is enough is part of the theorems on
    totality.  The worklist has the round budget of the source, with the
    error the source returns.  The timer loops have a step per slot or batch.
    The LZ4 decoder has a step per byte of the block and one more, the match
    search [66] per byte of the input; searches and visits of the region index
    have one step more than the arena has slots; dropping a ring one more than
    its capacity.  The theorems on the ring with many producers are about runs
    with fewer than [2^63] messages and handles, where sequence numbers do not
    come round, and a capacity of at least two.  The functions of [RcuQsbr] and
    [RcuHazard] need no fuel, since they are sequences of steps; the count of
    stalled processors has one step per bit of its mask.  The runs are those in
    which the 64-bit epoch and the counts of readers do not come round
    ([in_width]).

    ** Not modelled

    The JIT and the BPF runtime; the frame allocator above the zone, slab,
    page tables, reclaim; the unbounded, broadcast and shared-memory rings and
    the scheduler; and the drivers, file systems, network, graphics and
    user space, which are mostly device and memory effects.  Of the buddy
    allocator the audit feature and the
    capacity of vectors are left out, of the wheel the test reset, of [rcu] the
    diagnostic counters and the choice of a variant ([policy.rs]).  A read or a
    write of several blocks of the RAM disk is one step, although the source
    takes its lock once for each page.  The
    interpreter has no maps, kernel functions, calls or atomics, and no context
    with a pointer field, so soundness is about runs up to such an instruction
    and about contexts of numbers.

    ** Plan

    Next, in this order: the broadcast ring of [ipc] and the event bus as step
    relations; the pure accounting of the
    scheduler ([eevdf], [budget]); the bitmap and intrusive lists of [lib]; the
    address-space identifiers of [memory]. *)

From Stdlib Require Export ZArith Lia Bool Btauto.
From stdpp Require Export base numbers decidable.
From stdpp Require Export list.

#[global] Open Scope Z_scope.
Set Default Goal Selector "!".

(** * Rust's [Result] and its [?] operator *)

Inductive Result (T E : Type) : Type :=
| Ok (t : T)
| Err (e : E).

Arguments Ok {T E} t.
Arguments Err {T E} e.

Declare Scope narf_scope.
Delimit Scope narf_scope with narf.
#[global] Open Scope narf_scope.

(** [let? x := r in k] is [let x = r?; k]. *)
Notation "'let?' x := r 'in' k" :=
  (match r with Ok x => k | Err e => Err e end)
  (at level 10, x pattern, r at level 100, k at level 200) : narf_scope.

(** [let* x := o in k] is the same operator on [Option]. *)
Notation "'let*' x := o 'in' k" :=
  (match o with Some x => k | None => None end)
  (at level 10, x pattern, o at level 100, k at level 200) : narf_scope.

(** [o.ok_or(e)]. *)
Definition ok_or {T E} (o : option T) (e : E) : Result T E :=
  match o with Some t => Ok t | None => Err e end.

Definition is_ok {T E} (r : Result T E) : bool :=
  match r with Ok _ => true | Err _ => false end.

(** [r.unwrap_or(d)] on [Option]. *)
Definition unwrap_or {T} (o : option T) (d : T) : T :=
  match o with Some t => t | None => d end.

Lemma ok_or_Ok {T E} (o : option T) (e : E) t : ok_or o e = Ok t <-> o = Some t.
Proof. destruct o; simpl; split; congruence. Qed.

(** * Tactics *)

(** Case analysis on every boolean integer test of the goal or of a
    hypothesis, leaving the propositions it decides. *)
Ltac destruct_test b :=
  lazymatch b with
  | ?x <? ?y => destruct (Z.ltb_spec x y)
  | ?x <=? ?y => destruct (Z.leb_spec x y)
  | ?x =? ?y => destruct (Z.eqb_spec x y)
  | negb ?c => destruct_test c
  | ?c && ?d => destruct_test c
  | ?c || ?d => destruct_test c
  end.

Ltac tests :=
  repeat match goal with
  | |- context [if ?b then _ else _] => destruct_test b; simpl negb; simpl andb; simpl orb
  | H : context [if ?b then _ else _] |- _ =>
      destruct_test b; simpl negb in H; simpl andb in H; simpl orb in H
  end.

(** Turn boolean hypotheses and goals about integers into propositions. *)
Ltac reflect :=
  repeat match goal with
  | H : (_ <? _) = true |- _ => apply Z.ltb_lt in H
  | H : (_ <? _) = false |- _ => apply Z.ltb_ge in H
  | H : (_ <=? _) = true |- _ => apply Z.leb_le in H
  | H : (_ <=? _) = false |- _ => apply Z.leb_gt in H
  | H : (_ =? _) = true |- _ => apply Z.eqb_eq in H
  | H : (_ =? _) = false |- _ => apply Z.eqb_neq in H
  | H : (_ && _) = true |- _ => apply andb_true_iff in H; destruct H
  | H : (_ || _) = false |- _ => apply orb_false_iff in H; destruct H
  | H : negb _ = true |- _ => apply negb_true_iff in H
  | H : negb _ = false |- _ => apply negb_false_iff in H
  end.
