(* ===== verification/Word.v ===== *)
(** Machine integers.

    A Rust [uN] is a [Z] in [[0, 2^N)] and an [iN] a [Z] in
    [[-2^(N-1), 2^(N-1))].  [wrap] and [swrap] are the two's-complement
    truncations an [as] cast or a [wrapping_*] operation performs; the
    bit-level lemmas describe every operation of the sources by
    [Z.testbit], and the [bits] tactic proves equalities of words bit by
    bit. *)

From S2P Require Import Prelude.

Definition wrap (w z : Z) : Z := z mod 2 ^ w.

Definition swrap (w z : Z) : Z :=
  let m := wrap w z in if m <? 2 ^ (w - 1) then m else m - 2 ^ w.

Abbreviation u8 := (wrap 8).
Abbreviation u16 := (wrap 16).
Abbreviation u32 := (wrap 32).
Abbreviation u64 := (wrap 64).
Abbreviation as_i16 := (swrap 16).
Abbreviation as_i32 := (swrap 32).
Abbreviation as_i64 := (swrap 64).

Definition is_u (w z : Z) : Prop := 0 <= z < 2 ^ w.
Definition is_i (w z : Z) : Prop := - 2 ^ (w - 1) <= z < 2 ^ (w - 1).

Abbreviation U64_MAX := 18446744073709551615.
Abbreviation I64_MIN := (-9223372036854775808).
Abbreviation I64_MAX := 9223372036854775807.
Abbreviation U32_MAX := 4294967295.

(** [!x], [x << n] and [x >> n] on an unsigned word. *)
Definition wnot (w x : Z) : Z := wrap w (Z.lnot x).
Definition wshl (w x n : Z) : Z := wrap w (Z.shiftl x n).

Abbreviation u64_not := (wnot 64).
Abbreviation u64_shl := (wshl 64).

Arguments wrap : simpl never.
Arguments swrap : simpl never.
Arguments wnot : simpl never.
Arguments wshl : simpl never.

(** * Ranges *)

Section Ranges.
Context (w : Z) (Hw : 0 < w).

Lemma pow2_pos : 0 < 2 ^ w.
Proof using Hw. apply Z.pow_pos_nonneg; lia. Qed.

Lemma pow2_half : 2 ^ w = 2 * 2 ^ (w - 1).
Proof using Hw. rewrite <- Z.pow_succ_r by lia. f_equal. lia. Qed.

Lemma half_pos : 0 < 2 ^ (w - 1).
Proof using Hw. apply Z.pow_pos_nonneg; lia. Qed.

Lemma wrap_range z : is_u w (wrap w z).
Proof using Hw. apply Z.mod_pos_bound, pow2_pos. Qed.

Lemma swrap_range z : is_i w (swrap w z).
Proof using Hw.
  pose proof (wrap_range z) as H. pose proof pow2_half. unfold is_u, is_i, swrap in *.
  tests; lia.
Qed.

Lemma wrap_small z : is_u w z -> wrap w z = z.
Proof using Type. apply Z.mod_small. Qed.

Lemma wrap_wrap z : wrap w (wrap w z) = wrap w z.
Proof using Hw. apply wrap_small, wrap_range. Qed.

Lemma wrap_swrap z : wrap w (swrap w z) = wrap w z.
Proof using Hw.
  unfold swrap, wrap. pose proof pow2_pos. tests.
  - apply Z.mod_mod. lia.
  - replace (z mod 2 ^ w - 2 ^ w) with (z mod 2 ^ w + (-1) * 2 ^ w) by lia.
    rewrite Z_mod_plus_full. apply Z.mod_mod. lia.
Qed.

Lemma swrap_wrap z : swrap w (wrap w z) = swrap w z.
Proof using Hw. unfold swrap. rewrite wrap_wrap. reflexivity. Qed.

Lemma swrap_small z : is_i w z -> swrap w z = z.
Proof using Hw.
  intros Hz. unfold is_i in Hz. pose proof pow2_half as Hh. pose proof pow2_pos.
  unfold swrap, wrap. destruct (Z.ltb_spec z 0).
  - assert (E : z mod 2 ^ w = z + 2 ^ w).
    { symmetry. apply Z.mod_unique with (q := -1); lia. }
    rewrite E. tests; lia.
  - rewrite Z.mod_small by lia. tests; lia.
Qed.

Lemma swrap_unsigned z : 0 <= z < 2 ^ (w - 1) -> swrap w z = z.
Proof using Hw. intros. apply swrap_small. unfold is_i. pose proof half_pos. lia. Qed.

Lemma swrap_high z : 2 ^ (w - 1) <= z < 2 ^ w -> swrap w z = z - 2 ^ w.
Proof using Hw.
  intros. unfold swrap. rewrite wrap_small by (unfold is_u; pose proof half_pos; lia).
  tests; lia.
Qed.

(** The signed and unsigned readings of a word differ by a multiple of [2^w]. *)
Lemma swrap_eq_mod z : exists k, swrap w z = z + k * 2 ^ w.
Proof using Hw.
  pose proof pow2_pos. unfold swrap, wrap. pose proof (Z.div_mod z (2 ^ w)). tests.
  - exists (- (z / 2 ^ w)). lia.
  - exists (- (z / 2 ^ w) - 1). lia.
Qed.

Lemma wrap_eq_mod z : exists k, wrap w z = z + k * 2 ^ w.
Proof using Hw.
  pose proof pow2_pos. unfold wrap. pose proof (Z.div_mod z (2 ^ w)).
  exists (- (z / 2 ^ w)). lia.
Qed.

Lemma wrap_add_mul z k : wrap w (z + k * 2 ^ w) = wrap w z.
Proof using Type. apply Z_mod_plus_full. Qed.

Lemma swrap_add_mul z k : swrap w (z + k * 2 ^ w) = swrap w z.
Proof using Type. unfold swrap. rewrite wrap_add_mul. reflexivity. Qed.
End Ranges.

Lemma is_u_mono w w' z : 0 <= w <= w' -> is_u w z -> is_u w' z.
Proof. unfold is_u. intros Hw Hz. pose proof (Z.pow_le_mono_r 2 w w'). lia. Qed.

(** Range facts, for side conditions. *)
Create HintDb word.
#[export] Hint Resolve wrap_range swrap_range : word.
#[export] Hint Extern 1 (0 < _) => lia : word.
#[export] Hint Extern 1 (0 <= _) => lia : word.

(** * Bits *)

Lemma testbit_wrap w z i : 0 <= w -> Z.testbit (wrap w z) i = (i <? w) && Z.testbit z i.
Proof.
  intros. unfold wrap. destruct (Z.ltb_spec i w); simpl.
  - destruct (Z.ltb_spec i 0).
    + rewrite !Z.testbit_neg_r by lia. reflexivity.
    + apply Z.mod_pow2_bits_low. lia.
  - apply Z.mod_pow2_bits_high. lia.
Qed.

Lemma testbit_high w z i : 0 <= w -> is_u w z -> w <= i -> Z.testbit z i = false.
Proof.
  intros Hw Hz Hi. rewrite <- (Z.mod_small z (2 ^ w)) by exact Hz.
  apply Z.mod_pow2_bits_high. lia.
Qed.

Lemma is_u_testbit w z :
  0 <= w -> 0 <= z -> (forall i, w <= i -> Z.testbit z i = false) -> is_u w z.
Proof.
  intros Hw Hz Hb. unfold is_u. split; [lia |].
  enough (E : wrap w z = z).
  { rewrite <- E. apply Z.mod_pos_bound, Z.pow_pos_nonneg; lia. }
  apply Z.bits_inj'. intros i Hi. rewrite testbit_wrap by lia.
  destruct (Z.ltb_spec i w); simpl; [reflexivity |]. rewrite Hb by lia. reflexivity.
Qed.

(** Subtracting [2^w] from a [w]-bit word sets every bit above it. *)
Lemma testbit_sub_pow2 w z i :
  0 <= w -> is_u w z -> 0 <= i -> Z.testbit (z - 2 ^ w) i = (w <=? i) || Z.testbit z i.
Proof.
  intros Hw Hz Hi.
  assert (D : Z.land z (Z.shiftl (-1) w) = 0).
  { apply Z.bits_inj'. intros n Hn. rewrite Z.land_spec, Z.bits_0, Z.shiftl_spec by lia.
    destruct (Z.ltb_spec n w).
    - rewrite (Z.testbit_neg_r (-1)) by lia. apply andb_false_r.
    - rewrite (testbit_high w z n) by (lia || exact Hz). reflexivity. }
  replace (z - 2 ^ w) with (Z.lor z (Z.shiftl (-1) w)).
  - rewrite Z.lor_spec, Z.shiftl_spec by lia. destruct (Z.leb_spec w i); simpl.
    + rewrite Z.bits_m1 by lia. apply orb_true_r.
    + rewrite (Z.testbit_neg_r (-1)) by lia. apply orb_false_r.
  - rewrite <- Z.lxor_lor, <- Z.add_nocarry_lxor by exact D.
    rewrite Z.shiftl_mul_pow2 by lia. lia.
Qed.

(** A word is non-negative as a signed integer exactly when its top bit is clear. *)
Lemma testbit_top w z : 0 < w -> is_u w z -> Z.testbit z (w - 1) = (2 ^ (w - 1) <=? z).
Proof.
  intros Hw Hz. pose proof (pow2_half w Hw). pose proof (half_pos w Hw). unfold is_u in Hz.
  rewrite Z.testbit_eqb by lia. destruct (Z.leb_spec (2 ^ (w - 1)) z).
  - replace (z / 2 ^ (w - 1)) with 1; [reflexivity |].
    apply Z.div_unique with (r := z - 2 ^ (w - 1)); lia.
  - rewrite Z.div_small by lia. reflexivity.
Qed.

(** Sign extension repeats bit [w - 1]. *)
Lemma testbit_swrap w z i :
  0 < w -> 0 <= i -> Z.testbit (swrap w z) i = Z.testbit z (Z.min i (w - 1)).
Proof.
  intros Hw Hi. unfold swrap. pose proof (wrap_range w Hw z) as R.
  pose proof (testbit_top w _ Hw R) as T. rewrite testbit_wrap in T by lia.
  destruct (Z.ltb_spec (w - 1) w); [simpl in T | lia].
  destruct (Z.ltb_spec (wrap w z) (2 ^ (w - 1))) as [L | L];
    destruct (Z.leb_spec (2 ^ (w - 1)) (wrap w z)); try lia.
  - rewrite testbit_wrap by lia. destruct (Z.ltb_spec i w); simpl.
    + rewrite Z.min_l by lia. reflexivity.
    + rewrite Z.min_r by lia. congruence.
  - rewrite testbit_sub_pow2, testbit_wrap by (lia || exact R).
    destruct (Z.leb_spec w i); simpl.
    + rewrite Z.min_r by lia. congruence.
    + rewrite (proj2 (Z.ltb_lt i w)), Z.min_l by lia. reflexivity.
Qed.

Lemma testbit_wnot w x i :
  0 <= w -> 0 <= i -> Z.testbit (wnot w x) i = (i <? w) && negb (Z.testbit x i).
Proof. intros. unfold wnot. rewrite testbit_wrap, Z.lnot_spec by lia. reflexivity. Qed.

Lemma testbit_wshl w x n i :
  0 <= w -> 0 <= i -> Z.testbit (wshl w x n) i = (i <? w) && Z.testbit x (i - n).
Proof. intros. unfold wshl. rewrite testbit_wrap, Z.shiftl_spec by lia. reflexivity. Qed.

Lemma wnot_range w x : 0 < w -> is_u w (wnot w x).
Proof. intros. apply wrap_range. lia. Qed.

Lemma wshl_range w x n : 0 < w -> is_u w (wshl w x n).
Proof. intros. apply wrap_range. lia. Qed.

Lemma land_range w x y : 0 <= w -> is_u w x -> is_u w (Z.land x y).
Proof.
  intros Hw Hx. apply is_u_testbit; [lia | |].
  - apply Z.land_nonneg. unfold is_u in Hx. lia.
  - intros i Hi. rewrite Z.land_spec, (testbit_high w x i) by (lia || exact Hx). reflexivity.
Qed.

Lemma land_range_r w x y : 0 <= w -> is_u w y -> is_u w (Z.land x y).
Proof. intros. rewrite Z.land_comm. by apply land_range. Qed.

Lemma lor_range w x y : 0 <= w -> is_u w x -> is_u w y -> is_u w (Z.lor x y).
Proof.
  intros Hw Hx Hy. apply is_u_testbit; [lia | |].
  - apply Z.lor_nonneg. unfold is_u in *. lia.
  - intros i Hi. rewrite Z.lor_spec, (testbit_high w x i), (testbit_high w y i)
      by (lia || assumption). reflexivity.
Qed.

Lemma lxor_range w x y : 0 <= w -> is_u w x -> is_u w y -> is_u w (Z.lxor x y).
Proof.
  intros Hw Hx Hy. apply is_u_testbit; [lia | |].
  - apply Z.lxor_nonneg. unfold is_u in *. lia.
  - intros i Hi. rewrite Z.lxor_spec, (testbit_high w x i), (testbit_high w y i)
      by (lia || assumption). reflexivity.
Qed.

Lemma shiftr_range w x n : 0 <= w -> 0 <= n -> is_u w x -> is_u w (Z.shiftr x n).
Proof.
  intros Hw Hn Hx. apply is_u_testbit; [lia | |].
  - apply Z.shiftr_nonneg. unfold is_u in Hx. lia.
  - intros i Hi. rewrite Z.shiftr_spec, (testbit_high w x) by (lia || exact Hx). reflexivity.
Qed.

#[export] Hint Resolve wnot_range wshl_range land_range land_range_r lor_range lxor_range shiftr_range : word.

(** Words are equal when their low [w] bits are. *)
Lemma word_ext w x y :
  0 <= w -> is_u w x -> is_u w y ->
  (forall i, 0 <= i < w -> Z.testbit x i = Z.testbit y i) -> x = y.
Proof.
  intros Hw Hx Hy H. apply Z.bits_inj'. intros i Hi. destruct (Z.ltb_spec i w).
  - apply H. lia.
  - rewrite !(testbit_high w) by (lia || assumption). reflexivity.
Qed.

(** A bitwise subset is numerically smaller. *)
Lemma subset_le a b :
  0 <= b -> 0 <= a ->
  (forall i, 0 <= i -> Z.testbit a i = true -> Z.testbit b i = true) -> a <= b.
Proof.
  intros Hb Ha H. replace b with (a + Z.ldiff b a).
  - enough (0 <= Z.ldiff b a) by lia. apply Z.ldiff_nonneg. lia.
  - rewrite Z.add_nocarry_lxor.
    + apply Z.bits_inj'. intros i Hi. rewrite Z.lxor_spec, Z.ldiff_spec.
      specialize (H i Hi). destruct (Z.testbit a i), (Z.testbit b i); auto. discriminate H; auto.
    + apply Z.bits_inj'. intros i Hi. rewrite Z.land_spec, Z.ldiff_spec, Z.bits_0. btauto.
Qed.

(** Rewriting of [Z.testbit] through the word operations. *)
Create Rewrite HintDb bits.
#[export] Hint Rewrite Z.land_spec Z.lor_spec Z.lxor_spec Z.ldiff_spec Z.bits_0 : bits.
#[export] Hint Rewrite testbit_wnot testbit_wshl testbit_wrap Z.shiftr_spec Z.shiftl_spec
  using lia : bits.

(** * Carries and borrows

    Bit [i] of a sum is the sum of the bits with the carry out of the bits
    below, and likewise for a difference. *)

Definition carry (i a b : Z) : bool := 2 ^ i <=? wrap i a + wrap i b.

Definition borrow (i a b : Z) : bool := wrap i a <? wrap i b.

Lemma testbit_odd a i : 0 <= i -> Z.testbit a i = Z.odd (a / 2 ^ i).
Proof. intros Hi. rewrite <- Z.shiftr_div_pow2, <- Z.bit0_odd, Z.shiftr_spec by lia. done. Qed.

Lemma testbit_add a b i :
  0 <= i -> Z.testbit (a + b) i = xorb (xorb (Z.testbit a i) (Z.testbit b i)) (carry i a b).
Proof.
  intros Hi. rewrite !testbit_odd by exact Hi. unfold carry, wrap.
  pose proof (Z.pow_pos_nonneg 2 i ltac:(lia) Hi) as P. set (m := 2 ^ i) in *.
  pose proof (Z.mod_pos_bound a m P). pose proof (Z.mod_pos_bound b m P).
  pose proof (Z.div_mod a m ltac:(lia)). pose proof (Z.div_mod b m ltac:(lia)).
  destruct (Z.leb_spec m (a mod m + b mod m)).
  - replace ((a + b) / m) with (a / m + b / m + 1)
      by (apply (Z.div_unique_pos _ _ _ (a mod m + b mod m - m)); lia).
    rewrite !Z.odd_add. reflexivity.
  - replace ((a + b) / m) with (a / m + b / m)
      by (apply (Z.div_unique_pos _ _ _ (a mod m + b mod m)); lia).
    rewrite Z.odd_add. by rewrite xorb_false_r.
Qed.

Lemma testbit_sub a b i :
  0 <= i -> Z.testbit (a - b) i = xorb (xorb (Z.testbit a i) (Z.testbit b i)) (borrow i a b).
Proof.
  intros Hi. rewrite !testbit_odd by exact Hi. unfold borrow, wrap.
  pose proof (Z.pow_pos_nonneg 2 i ltac:(lia) Hi) as P. set (m := 2 ^ i) in *.
  pose proof (Z.mod_pos_bound a m P). pose proof (Z.mod_pos_bound b m P).
  pose proof (Z.div_mod a m ltac:(lia)). pose proof (Z.div_mod b m ltac:(lia)).
  destruct (Z.ltb_spec (a mod m) (b mod m)).
  - replace ((a - b) / m) with (a / m - b / m - 1)
      by (apply (Z.div_unique_pos _ _ _ (a mod m - b mod m + m)); lia).
    rewrite !Z.odd_sub. reflexivity.
  - replace ((a - b) / m) with (a / m - b / m)
      by (apply (Z.div_unique_pos _ _ _ (a mod m - b mod m)); lia).
    rewrite Z.odd_sub. by rewrite xorb_false_r.
Qed.

(** [wrap] is monotone for bitwise inclusion. *)
Lemma wrap_subset i a b :
  0 <= i ->
  (forall j, 0 <= j < i -> Z.testbit a j = true -> Z.testbit b j = true) -> wrap i a <= wrap i b.
Proof.
  intros Hi H.
  pose proof (Z.mod_pos_bound a (2 ^ i) ltac:(apply Z.pow_pos_nonneg; lia)).
  pose proof (Z.mod_pos_bound b (2 ^ i) ltac:(apply Z.pow_pos_nonneg; lia)).
  apply subset_le; [unfold wrap; lia | unfold wrap; lia |].
  intros j Hj. rewrite !testbit_wrap by lia. destruct (Z.ltb_spec j i); simpl; [| done].
  apply H. lia.
Qed.

Lemma carry_mono i a b a' b' :
  wrap i a <= wrap i a' -> wrap i b <= wrap i b' -> carry i a b = true -> carry i a' b' = true.
Proof. unfold carry. rewrite !Z.leb_le. lia. Qed.

Lemma borrow_mono i a b a' b' :
  wrap i a' <= wrap i a -> wrap i b <= wrap i b' -> borrow i a b = true -> borrow i a' b' = true.
Proof. unfold borrow. rewrite !Z.ltb_lt. lia. Qed.

(** Disjoint words add up to their union. *)
Lemma add_disjoint a b : Z.land a b = 0 -> a + b = Z.lor a b.
Proof. intros H. rewrite Z.add_nocarry_lxor by exact H. by apply Z.lxor_lor. Qed.

Lemma word_subset_le w a b :
  0 < w -> is_u w a -> is_u w b ->
  (forall i, 0 <= i < w -> Z.testbit a i = true -> Z.testbit b i = true) -> a <= b.
Proof.
  intros Hw Ha Hb H. rewrite <- (wrap_small w a), <- (wrap_small w b) by done.
  by apply wrap_subset; [lia |].
Qed.

Lemma wrap_add w x y : wrap w (wrap w x + wrap w y) = wrap w (x + y).
Proof. unfold wrap. symmetry. apply Zplus_mod. Qed.

Lemma wrap_add_l w x y : wrap w (wrap w x + y) = wrap w (x + y).
Proof. unfold wrap. apply Zplus_mod_idemp_l. Qed.

Lemma wrap_sub_l w x y : wrap w (wrap w x - y) = wrap w (x - y).
Proof. unfold wrap. apply Zminus_mod_idemp_l. Qed.

Lemma wrap_mul w x y : wrap w (wrap w x * wrap w y) = wrap w (x * y).
Proof. unfold wrap. symmetry. apply Zmult_mod. Qed.

(** * Signed values as words *)

Lemma wrap_negative w a : 0 < w -> - 2 ^ (w - 1) <= a < 0 -> wrap w a = a + 2 ^ w.
Proof.
  intros Hw Ha. pose proof (pow2_half w Hw). pose proof (half_pos w Hw).
  rewrite <- (wrap_add_mul w a 1), Z.mul_1_l. apply wrap_small. unfold is_u. lia.
Qed.

Lemma wrap_nonneg w a : 0 < w -> 0 <= a < 2 ^ (w - 1) -> wrap w a = a.
Proof. intros Hw Ha. pose proof (pow2_half w Hw). apply wrap_small. unfold is_u. lia. Qed.

(** The cast to unsigned is monotone on each side of zero. *)
Lemma wrap_mono w a b :
  0 < w -> is_i w a -> is_i w b -> a <= b -> 0 <= a \/ b < 0 -> wrap w a <= wrap w b.
Proof.
  intros Hw Ha Hb L [S | S]; unfold is_i in *.
  - rewrite !wrap_nonneg by lia. lia.
  - rewrite !wrap_negative by lia. lia.
Qed.

Lemma wrap_swrap_id w v : 0 < w -> is_u w v -> wrap w (swrap w v) = v.
Proof. intros Hw Hv. rewrite wrap_swrap by exact Hw. by apply wrap_small. Qed.

Lemma swrap_wrap_id w v : 0 < w -> is_i w v -> swrap w (wrap w v) = v.
Proof. intros Hw Hv. rewrite swrap_wrap by exact Hw. by apply swrap_small. Qed.

(** * Little-endian bytes *)

(** [to_le_bytes] and [from_le_bytes]. *)
Fixpoint le_bytes (n : nat) (v : Z) : list Z :=
  match n with
  | O => []
  | S n => u8 v :: le_bytes n (Z.shiftr v 8)
  end.

Fixpoint le_value (bs : list Z) : Z :=
  match bs with
  | [] => 0
  | b :: bs => b + 256 * le_value bs
  end.

Lemma le_value_range bs :
  Forall (is_u 8) bs -> 0 <= le_value bs < 2 ^ (8 * Z.of_nat (length bs)).
Proof.
  induction 1 as [| b bs Hb _ IH]; simpl le_value; [simpl; lia |].
  replace (8 * Z.of_nat (length (b :: bs))) with (8 + 8 * Z.of_nat (length bs)) by (simpl length; lia).
  rewrite Z.pow_add_r by lia. unfold is_u in Hb. lia.
Qed.

Lemma le_bytes_range n v : Forall (is_u 8) (le_bytes n v) /\ length (le_bytes n v) = n.
Proof.
  revert v. induction n as [| n IH]; intros v; [by split |]. destruct (IH (Z.shiftr v 8)) as [F L].
  simpl. split; [constructor; [apply wrap_range; lia | exact F] | by rewrite L].
Qed.

Lemma le_value_bytes n v : le_value (le_bytes n v) = v mod 2 ^ (8 * Z.of_nat n).
Proof.
  revert v. induction n as [| n IH]; intros v.
  { simpl. by rewrite Z.mod_1_r. }
  cbn [le_bytes le_value]. rewrite IH. unfold wrap. rewrite Z.shiftr_div_pow2 by lia.
  replace (8 * Z.of_nat (S n)) with (8 + 8 * Z.of_nat n) by lia.
  rewrite Z.pow_add_r, Z.rem_mul_r by lia. reflexivity.
Qed.

Lemma le_value_inj xs ys :
  Forall (is_u 8) xs -> Forall (is_u 8) ys -> length xs = length ys -> le_value xs = le_value ys -> xs = ys.
Proof.
  intros Hx. revert ys. induction Hx as [| x xs Bx _ IH]; intros [| y ys] Hy; try done.
  inversion Hy as [| ? ? By Fy]; subst. simpl. intros [= L] E. unfold is_u in *.
  assert (x = y) as -> by lia. f_equal. apply IH; auto. lia.
Qed.
