(* ===== verification/Slice.v ===== *)
(** Slices: indexing and range copies of [&[T]] and [&mut [T]] with the bounds
    checks Rust inserts.  An index is a [usize]; [None] is the panic of an index
    or a range out of bounds. *)

From S2P Require Import Prelude.

(** [v.len()]. *)
Definition zlen {A} (l : list A) : Z := Z.of_nat (length l).

(** [v[i]]. *)
Definition get_at {A} (l : list A) (i : Z) : option A :=
  if 0 <=? i then l !! Z.to_nat i else None.

(** [v[i] = x]. *)
Definition set_at {A} (l : list A) (i : Z) (x : A) : option (list A) :=
  if (0 <=? i) && (i <? zlen l) then Some (<[Z.to_nat i := x]> l) else None.

(** [v[i..i + n]]; [None] when the range leaves the slice. *)
Definition slice {A} (l : list A) (i n : Z) : option (list A) :=
  if i + n <=? Z.of_nat (length l) then Some (take (Z.to_nat n) (drop (Z.to_nat i) l)) else None.

(** [v[i..i + n].copy_from_slice(src)], with [src] of length [n]. *)
Definition write_slice {A} (l : list A) (i : Z) (src : list A) : option (list A) :=
  if i + Z.of_nat (length src) <=? Z.of_nat (length l)
  then Some (take (Z.to_nat i) l ++ src ++ drop (Z.to_nat i + length src) l) else None.

(** * Reads and writes *)

Lemma slice_some {A} (l : list A) i n :
  0 <= i -> 0 <= n -> i + n <= Z.of_nat (length l) ->
  slice l i n = Some (take (Z.to_nat n) (drop (Z.to_nat i) l)).
Proof. intros. unfold slice. by rewrite (proj2 (Z.leb_le _ _)). Qed.

Lemma write_slice_some {A} (l : list A) i src :
  0 <= i -> i + Z.of_nat (length src) <= Z.of_nat (length l) ->
  exists l', write_slice l i src = Some l' /\ length l' = length l /\
    (forall j, l' !! j = if decide (Z.to_nat i <= j < Z.to_nat i + length src)%nat
                         then src !! (j - Z.to_nat i)%nat else l !! j).
Proof.
  intros Hi L. unfold write_slice. rewrite (proj2 (Z.leb_le _ _)) by exact L.
  eexists. split; [reflexivity |]. split.
  - rewrite !length_app, length_take, length_drop. lia.
  - intros j. destruct (decide _) as [D | D].
    + rewrite lookup_app_r, lookup_app_l by (rewrite length_take; lia). f_equal. rewrite length_take. lia.
    + destruct (Nat.lt_ge_cases j (Z.to_nat i)).
      * rewrite lookup_app_l by (rewrite length_take; lia). by apply lookup_take_lt.
      * rewrite lookup_app_r by (rewrite length_take; lia).
        rewrite lookup_app_r by (rewrite length_take; lia). rewrite lookup_drop. f_equal. rewrite length_take. lia.
Qed.

Lemma write_slice_forall {A} (P : A -> Prop) (l : list A) i src l' :
  Forall P l -> Forall P src -> write_slice l i src = Some l' -> Forall P l'.
Proof.
  unfold write_slice. intros Hl Hs. case_match; [| done]. intros [= <-].
  rewrite !Forall_app. auto using Forall_take, Forall_drop.
Qed.

Lemma lookup_slice {A} (l : list A) i n k :
  take n (drop i l) !! k = if decide (k < n)%nat then l !! (i + k)%nat else None.
Proof.
  destruct (decide (k < n)%nat); [by rewrite lookup_take_lt, lookup_drop | by rewrite lookup_take_ge by lia].
Qed.

Lemma write_slice_read {A} (l l' : list A) i src :
  0 <= i -> write_slice l i src = Some l' -> slice l' i (Z.of_nat (length src)) = Some src.
Proof.
  intros Hi E. assert (L : i + Z.of_nat (length src) <= Z.of_nat (length l)).
  { unfold write_slice in E. destruct (Z.leb_spec (i + Z.of_nat (length src)) (Z.of_nat (length l))); done. }
  destruct (write_slice_some l i src Hi L) as (l'' & E' & L' & K). rewrite E in E'. injection E' as <-.
  rewrite slice_some, Nat2Z.id by lia. f_equal. apply list_eq. intros k. rewrite lookup_slice.
  destruct (decide (k < length src)%nat).
  - rewrite K, decide_True by lia. f_equal. lia.
  - symmetry. apply lookup_ge_None_2. lia.
Qed.

Lemma write_slice_frame {A} (l l' : list A) i src i' n' :
  0 <= i -> 0 <= i' -> 0 <= n' -> write_slice l i src = Some l' ->
  i' + n' <= i \/ i + Z.of_nat (length src) <= i' -> slice l' i' n' = slice l i' n'.
Proof.
  intros Hi Hi' Hn' E D. assert (L : i + Z.of_nat (length src) <= Z.of_nat (length l)).
  { unfold write_slice in E. destruct (Z.leb_spec (i + Z.of_nat (length src)) (Z.of_nat (length l))); done. }
  destruct (write_slice_some l i src Hi L) as (l'' & E' & L' & K). rewrite E in E'. injection E' as <-.
  unfold slice. rewrite L'. case_match; [| done]. f_equal. apply list_eq. intros k.
  rewrite !lookup_slice. destruct (decide _); [| done]. rewrite K, decide_False; [done | lia].
Qed.

Lemma zlen_app {A} (l k : list A) : zlen (l ++ k) = zlen l + zlen k.
Proof. unfold zlen. rewrite length_app. lia. Qed.

Lemma zlen_nonneg {A} (l : list A) : 0 <= zlen l.
Proof. unfold zlen. lia. Qed.

Lemma zlen_cons {A} (x : A) l : zlen (x :: l) = 1 + zlen l.
Proof. unfold zlen. simpl. lia. Qed.

Lemma get_at_some {A} (l : list A) i : 0 <= i < zlen l -> exists x, get_at l i = Some x /\ l !! Z.to_nat i = Some x.
Proof.
  unfold zlen, get_at. intros H. rewrite (proj2 (Z.leb_le 0 i)) by lia.
  destruct (lookup_lt_is_Some_2 l (Z.to_nat i)) as [x E]; [lia |]. eauto.
Qed.

Lemma get_at_nat {A} (l : list A) (n : nat) : get_at l (Z.of_nat n) = l !! n.
Proof. unfold get_at. rewrite (proj2 (Z.leb_le 0 _)) by lia. by rewrite Nat2Z.id. Qed.

Lemma get_at_lookup {A} (l : list A) i : 0 <= i -> get_at l i = l !! Z.to_nat i.
Proof. intros. unfold get_at. by rewrite (proj2 (Z.leb_le 0 i)). Qed.

Lemma get_at_inv {A} (l : list A) i x : get_at l i = Some x -> 0 <= i < zlen l /\ l !! Z.to_nat i = Some x.
Proof.
  unfold get_at, zlen. destruct (Z.leb_spec 0 i); [| done]. intros E. pose proof (lookup_lt_Some _ _ _ E). split; [lia | done].
Qed.

Lemma set_at_some {A} (l : list A) i x : 0 <= i < zlen l -> set_at l i x = Some (<[Z.to_nat i := x]> l).
Proof. intros. unfold set_at. by rewrite (proj2 (Z.leb_le 0 i)), (proj2 (Z.ltb_lt i _)) by lia. Qed.

Lemma slice_inv {A} (l : list A) i n r : 0 <= i -> 0 <= n -> slice l i n = Some r ->
  i + n <= zlen l /\ r = take (Z.to_nat n) (drop (Z.to_nat i) l) /\ zlen r = n.
Proof.
  unfold slice, zlen. intros Hi Hn. destruct (Z.leb_spec (i + n) (Z.of_nat (length l))); [| done]. intros [= <-].
  split_and!; [done | done |]. rewrite length_take, length_drop. lia.
Qed.

Lemma get_app_r {A} (pre : list A) x post : get_at (pre ++ x :: post) (zlen pre) = Some x.
Proof. unfold zlen. rewrite get_at_nat, lookup_app_r, Nat.sub_diag by lia. done. Qed.

Lemma zlen_replicate {A} n (x : A) : zlen (replicate n x) = Z.of_nat n.
Proof. unfold zlen. by rewrite length_replicate. Qed.

Lemma split_zlen {A} (l : list A) n : 0 <= n <= zlen l -> exists l1 l2, l = l1 ++ l2 /\ zlen l1 = n.
Proof.
  intros H. exists (take (Z.to_nat n) l), (drop (Z.to_nat n) l). split; [by rewrite take_drop |].
  unfold zlen in *. rewrite length_take. lia.
Qed.

Lemma slice_app {A} (pre mid post : list A) : slice (pre ++ mid ++ post) (zlen pre) (zlen mid) = Some mid.
Proof.
  unfold slice, zlen. rewrite (proj2 (Z.leb_le _ _)) by (rewrite !length_app; lia).
  by rewrite !Nat2Z.id, drop_app_length, take_app_length.
Qed.

(** Appends to the right. *)
Ltac norm_app := cbn [app]; repeat (rewrite <- app_assoc; cbn [app]).

(** * A buffer filled from the front *)

(** The first bytes of [buf] are [bs]. *)
Definition filled {A} (buf bs : list A) : Prop := exists rest, buf = bs ++ rest.

Lemma filled_nil {A} (buf : list A) : filled buf [].
Proof. by exists buf. Qed.

Lemma filled_take {A} (buf bs : list A) : filled buf bs <-> take (length bs) buf = bs.
Proof.
  split.
  - intros [rest ->]. by rewrite take_app_length.
  - intros E. exists (drop (length bs) buf). rewrite <- E at 1. by rewrite take_drop.
Qed.

Lemma filled_app_l {A} (buf bs cs : list A) : filled buf (bs ++ cs) -> filled buf bs.
Proof. intros [rest ->]. exists (cs ++ rest). by rewrite app_assoc. Qed.

Lemma filled_zlen {A} (buf bs : list A) : filled buf bs -> zlen bs <= zlen buf.
Proof. intros [rest ->]. rewrite zlen_app. pose proof (zlen_nonneg rest). lia. Qed.

(** Appending one element writes at the length filled so far. *)
Lemma filled_set {A} (buf bs : list A) x :
  filled buf bs -> zlen bs < zlen buf ->
  exists buf', set_at buf (zlen bs) x = Some buf' /\ zlen buf' = zlen buf /\ filled buf' (bs ++ [x]) /\
    drop (S (length bs)) buf' = drop (S (length bs)) buf.
Proof.
  intros [rest ->] L. rewrite zlen_app in *. rewrite set_at_some by (rewrite zlen_app; unfold zlen in *; lia).
  unfold zlen at 1. rewrite Nat2Z.id. destruct rest as [| y rest]; [unfold zlen in L; simpl in L; lia |].
  eexists. split; [reflexivity |]. split_and!.
  - unfold zlen. rewrite length_insert, length_app. lia.
  - exists rest. rewrite <- (Nat.add_0_r (length bs)), insert_app_r. by rewrite <- app_assoc.
  - rewrite <- (Nat.add_0_r (length bs)) at 2. rewrite insert_app_r. simpl.
    by rewrite !drop_app_ge, Nat.sub_succ_l, Nat.sub_diag by lia.
Qed.

(** A write inside the part filled so far. *)
Lemma filled_update {A} (buf bs cs : list A) x y :
  filled buf (bs ++ x :: cs) ->
  get_at buf (zlen bs) = Some x /\
  exists buf', set_at buf (zlen bs) y = Some buf' /\ zlen buf' = zlen buf /\ filled buf' (bs ++ y :: cs) /\
    drop (length (bs ++ x :: cs)) buf' = drop (length (bs ++ x :: cs)) buf.
Proof.
  intros [rest ->]. rewrite <- app_assoc. simpl. split.
  { unfold zlen. rewrite get_at_nat, lookup_app_r, Nat.sub_diag by lia. done. }
  rewrite set_at_some by (rewrite zlen_app, zlen_cons; pose proof (zlen_nonneg bs); pose proof (zlen_nonneg (cs ++ rest)); lia).
  unfold zlen at 1. rewrite Nat2Z.id. eexists. split; [reflexivity |].
  rewrite <- (Nat.add_0_r (length bs)) at 1 2 3. rewrite insert_app_r. simpl. split_and!.
  - by rewrite !zlen_app, !zlen_cons.
  - exists rest. by rewrite <- app_assoc.
  - rewrite !(app_comm_cons cs rest), !(app_assoc bs). rewrite (drop_app_length (bs ++ x :: cs)).
    rewrite drop_app_length'; [done |]. by rewrite !length_app.
Qed.

(** Appending a run of elements. *)
Lemma filled_write {A} (buf bs src : list A) :
  filled buf bs -> zlen bs + zlen src <= zlen buf ->
  exists buf', write_slice buf (zlen bs) src = Some buf' /\ zlen buf' = zlen buf /\ filled buf' (bs ++ src) /\
    drop (length (bs ++ src)) buf' = drop (length (bs ++ src)) buf.
Proof.
  intros [rest ->] L. unfold write_slice. fold (zlen src). fold (zlen (bs ++ rest)). rewrite (proj2 (Z.leb_le _ _)) by exact L.
  replace (Z.to_nat (zlen bs)) with (length bs) by (unfold zlen; lia). rewrite take_app_length.
  eexists. split; [reflexivity |]. split_and!.
  - rewrite !zlen_app in *. unfold zlen in *. rewrite length_drop, length_app. lia.
  - eexists. by rewrite app_assoc.
  - rewrite (app_assoc bs src), drop_app_length. by rewrite length_app.
Qed.
