(* ===== verification/FreeList.v ===== *)
(** Intrusive free lists: the vacant slots of an arena, linked through the slots
    themselves.  The page pool and the region index keep one each; what a slot
    is, and how a vacant one names the next, is a parameter. *)

From S2P Require Import Prelude.

Section FreeList.
Context {A : Type} (vacancy : A -> option (option nat)).
Implicit Types (slots : list A) (head : option nat) (fl : list nat).

Fixpoint chain slots head fl : Prop :=
  match fl with
  | [] => head = None
  | i :: fl => head = Some i /\ exists a next, slots !! i = Some a /\ vacancy a = Some next /\ chain slots next fl
  end.

(** [fl] lists the vacant slots, each once, in the order of the links. *)
Definition free_list slots head fl : Prop :=
  chain slots head fl /\ NoDup fl /\
  forall i, i ∈ fl <-> exists a next, slots !! i = Some a /\ vacancy a = Some next.

Lemma chain_frame slots slots' head fl :
  chain slots head fl -> (forall i, i ∈ fl -> slots' !! i = slots !! i) -> chain slots' head fl.
Proof.
  revert head. induction fl as [| i fl IH]; intros head; simpl; [done |]. intros (-> & a & next & E & Va & C) F. split; [done |].
  exists a, next. rewrite F by constructor. split_and!; [done | done |]. apply IH; [done |]. intros j Hj. apply F. by constructor.
Qed.

(** The list depends on the slots only through their vacancy. *)
Lemma free_list_ext slots slots' head fl :
  (forall i, slots' !! i ≫= vacancy = slots !! i ≫= vacancy) -> free_list slots head fl -> free_list slots' head fl.
Proof.
  intros X (C & Nd & F).
  assert (Y : forall (s : list A) i next, (exists a, s !! i = Some a /\ vacancy a = Some next) <-> (s !! i ≫= vacancy = Some next)).
  { intros s i next. destruct (s !! i) as [a |]; simpl; split; [by intros (? & [= ->] & ?) | eauto | by intros (? & ? & ?) | done]. }
  split_and!; [| done |].
  - clear Nd F. revert head C. induction fl as [| i fl IH]; intros head; simpl; [done |]. intros (-> & a & next & E & Va & C). split; [done |].
    destruct (proj2 (Y slots' i next)) as (b & Eb & Vb); [rewrite X; apply Y; eauto |]. exists b, next. auto.
  - intros i. rewrite F. split; intros (a & next & E & Va); [destruct (proj2 (Y slots' i next)) as (b & Eb & Vb) | destruct (proj2 (Y slots i next)) as (b & Eb & Vb)];
      [rewrite X; apply Y; eauto | eauto | rewrite <- X; apply Y; eauto | eauto].
Qed.

Lemma free_list_nil : free_list [] None [].
Proof. split_and!; [done | constructor |]. intros i. split; [intros H; by apply elem_of_nil in H | by intros (? & ? & ? & _)]. Qed.

Lemma free_list_none slots fl : free_list slots None fl -> fl = [].
Proof. intros (C & _). by destruct fl; [| destruct C]. Qed.

(** The head is taken. *)
Lemma free_list_pop slots head fl i a :
  free_list slots head fl -> head = Some i -> vacancy a = None ->
  exists b next fl', fl = i :: fl' /\ slots !! i = Some b /\ vacancy b = Some next /\ free_list (<[i := a]> slots) next fl'.
Proof.
  intros (C & Nd & F) -> Va. destruct fl as [| j fl]; [done |]. destruct C as ([= <-] & b & next & E & Vb & C).
  apply NoDup_cons in Nd as [Ni Nd]. exists b, next, fl. pose proof (lookup_lt_Some _ _ _ E).
  split_and!; [done | done | done |]. split_and!; [| done |].
  - eapply chain_frame; [exact C |]. intros j Hj. apply list_lookup_insert_ne. by intros ->.
  - intros j. destruct (decide (j = i)) as [-> | N].
    + rewrite list_lookup_insert_eq by done. split; [done |]. intros (c & nx & [= <-] & Vc). congruence.
    + rewrite list_lookup_insert_ne by done. rewrite <- F, elem_of_cons. split; [by right | by intros [-> | ?]].
Qed.

(** A slot in use is retired and becomes the head. *)
Lemma free_list_push slots head fl i a b :
  free_list slots head fl -> slots !! i = Some a -> vacancy a = None -> vacancy b = Some head ->
  free_list (<[i := b]> slots) (Some i) (i :: fl).
Proof.
  intros (C & Nd & F) E Va Vb. pose proof (lookup_lt_Some _ _ _ E).
  assert (Ni : i ∉ fl) by (rewrite F; intros (c & nx & Ec & Vc); congruence). split_and!.
  - simpl. split; [done |]. exists b, head. split_and!; [by apply list_lookup_insert_eq | done |].
    eapply chain_frame; [exact C |]. intros j Hj. apply list_lookup_insert_ne. by intros ->.
  - by constructor.
  - intros j. rewrite elem_of_cons. destruct (decide (j = i)) as [-> | N].
    + rewrite list_lookup_insert_eq by done. split; [eauto | by left].
    + rewrite list_lookup_insert_ne by done. rewrite <- F. split; [by intros [? | ?] | by right].
Qed.

(** A slot in use replaced by another, or appended, leaves the list. *)
Lemma free_list_insert slots head fl i a b :
  free_list slots head fl -> slots !! i = Some a -> vacancy a = None -> vacancy b = None -> free_list (<[i := b]> slots) head fl.
Proof.
  intros (C & Nd & F) E Va Vb. pose proof (lookup_lt_Some _ _ _ E).
  assert (Ni : i ∉ fl) by (rewrite F; intros (c & nx & Ec & Vc); congruence). split_and!; [| done |].
  - eapply chain_frame; [exact C |]. intros j Hj. apply list_lookup_insert_ne. by intros ->.
  - intros j. destruct (decide (j = i)) as [-> | N].
    + rewrite list_lookup_insert_eq by done. split; [done |]. intros (c & nx & [= <-] & Vc). congruence.
    + by rewrite list_lookup_insert_ne.
Qed.

Lemma free_list_append slots head fl a : free_list slots head fl -> vacancy a = None -> free_list (slots ++ [a]) head fl.
Proof.
  intros (C & Nd & F) Va. split_and!; [| done |].
  - eapply chain_frame; [exact C |]. intros j Hj. apply F in Hj as (b & nx & E & _). apply lookup_app_l. by eapply lookup_lt_Some.
  - intros j. rewrite F. split; intros (b & nx & E & Vb); exists b, nx; split; try done; [by apply lookup_app_l_Some |].
    apply lookup_app_Some in E as [E | [_ E]]; [done |]. apply list_lookup_singleton_Some in E as [_ <-]. congruence.
Qed.
End FreeList.
