(* ===== verification/SortedMap.v ===== *)
(** Association lists in strictly increasing key order: the map an ordered index
    promises to be. *)

From stdpp Require Import sorting.
From S2P Require Import Prelude.

Section SortedMap.
Context {V : Type}.
Implicit Types l : list (Z * V).

Definition key_lt (a b : Z * V) : Prop := fst a < fst b.

Definition key_sorted l : Prop := StronglySorted key_lt l.

Fixpoint assoc (k : Z) l : option V :=
  match l with [] => None | (k', v) :: l => if k =? k' then Some v else assoc k l end.

Fixpoint assoc_put (k : Z) (v : V) l : list (Z * V) :=
  match l with
  | [] => [(k, v)]
  | (k', v') :: l' => if k <? k' then (k, v) :: l else if k =? k' then (k, v) :: l' else (k', v') :: assoc_put k v l'
  end.

Fixpoint assoc_del (k : Z) l : list (Z * V) :=
  match l with [] => [] | (k', v) :: l => if k =? k' then l else (k', v) :: assoc_del k l end.

(** All keys of [l] are below, or above, [k]. *)
Definition all_below (k : Z) l : Prop := Forall (fun p => fst p < k) l.
Definition all_above (k : Z) l : Prop := Forall (fun p => k < fst p) l.

Lemma sorted_mid l k v r :
  key_sorted (l ++ (k, v) :: r) <-> key_sorted l /\ key_sorted r /\ all_below k l /\ all_above k r.
Proof.
  unfold key_sorted, all_below, all_above, key_lt. induction l as [| a l IH]; simpl.
  - split.
    + intros S. inversion S; subst. split_and!; [constructor | done | constructor | done].
    + intros (_ & ? & _ & ?). by constructor.
  - split.
    + intros S. inversion S as [| ? ? S' F]; subst. apply IH in S' as (Sl & Sr & Bl & Ar). rewrite Forall_app, Forall_cons in F. destruct F as (Fl & Fk & Fr). simpl in *.
      split_and!; [by constructor | done | by constructor | done].
    + intros (S & Sr & B & A). inversion S; inversion B; subst. constructor; [by apply IH |]. rewrite Forall_app, Forall_cons. split_and!; [done | done |].
      eapply Forall_impl; [exact A |]. simpl. intros; lia.
Qed.

Lemma assoc_below k l : all_below k l -> assoc k l = None.
Proof. induction 1 as [| [k' v] l H _ IH]; [done |]. simpl in *. by rewrite (proj2 (Z.eqb_neq _ _)) by lia. Qed.

Lemma assoc_above k l : all_above k l -> assoc k l = None.
Proof. induction 1 as [| [k' v] l H _ IH]; [done |]. simpl in *. by rewrite (proj2 (Z.eqb_neq _ _)) by lia. Qed.

Lemma below_trans k k' l : all_below k l -> k <= k' -> all_below k' l.
Proof. intros H L. eapply Forall_impl; [exact H |]. simpl. intros; lia. Qed.

Lemma above_trans k k' l : all_above k l -> k' <= k -> all_above k' l.
Proof. intros H L. eapply Forall_impl; [exact H |]. simpl. intros; lia. Qed.

Lemma assoc_app k l x : assoc k (l ++ x) = match assoc k l with Some v => Some v | None => assoc k x end.
Proof. induction l as [| [k' v] l IH]; simpl; [done |]. destruct (k =? k'); [done | exact IH]. Qed.

(** The operations go to one side of a node. *)
Lemma assoc_mid k l kj vj r : key_sorted (l ++ (kj, vj) :: r) ->
  assoc k (l ++ (kj, vj) :: r) = match k ?= kj with Lt => assoc k l | Gt => assoc k r | Eq => Some vj end.
Proof.
  intros S. apply sorted_mid in S as (_ & _ & B & A). rewrite assoc_app. simpl. destruct (Z.compare_spec k kj) as [-> | G | G].
  - by rewrite assoc_below, Z.eqb_refl.
  - rewrite (proj2 (Z.eqb_neq _ _)) by lia. rewrite (assoc_above k r) by (apply (above_trans kj); [exact A | lia]). by destruct (assoc k l).
  - rewrite (proj2 (Z.eqb_neq _ _)) by lia. rewrite (assoc_below k l) by (apply (below_trans kj); [exact B | lia]). done.
Qed.

Lemma put_left k v l kj vj r : k < kj -> assoc_put k v (l ++ (kj, vj) :: r) = assoc_put k v l ++ (kj, vj) :: r.
Proof.
  intros L. induction l as [| [k' v'] l IH]; simpl; [by rewrite (proj2 (Z.ltb_lt _ _)) by lia |].
  case_match; [done |]. case_match; [done |]. simpl. by rewrite IH.
Qed.

Lemma put_right k v l kj vj r : all_below kj l -> kj < k -> assoc_put k v (l ++ (kj, vj) :: r) = l ++ (kj, vj) :: assoc_put k v r.
Proof.
  intros B L. induction B as [| [k' v'] l H _ IH]; simpl in *.
  - by rewrite (proj2 (Z.ltb_ge _ _)), (proj2 (Z.eqb_neq _ _)) by lia.
  - rewrite (proj2 (Z.ltb_ge _ _)), (proj2 (Z.eqb_neq _ _)) by lia. by rewrite IH.
Qed.

Lemma put_mid k v l vj r : all_below k l -> assoc_put k v (l ++ (k, vj) :: r) = l ++ (k, v) :: r.
Proof.
  induction 1 as [| [k' v'] l H _ IH]; simpl in *; [by rewrite Z.ltb_irrefl, Z.eqb_refl |].
  rewrite (proj2 (Z.ltb_ge _ _)), (proj2 (Z.eqb_neq _ _)) by lia. by rewrite IH.
Qed.

Lemma del_absent k l : assoc k l = None -> assoc_del k l = l.
Proof. induction l as [| [k' v] l IH]; simpl; [done |]. destruct (k =? k'); [done |]. intros E. by rewrite IH. Qed.

Lemma del_app k l r : assoc_del k (l ++ r) = match assoc k l with Some _ => assoc_del k l ++ r | None => l ++ assoc_del k r end.
Proof. induction l as [| [k' v] l IH]; simpl; [done |]. destruct (k =? k'); [done |]. rewrite IH. by destruct (assoc k l). Qed.

Lemma del_mid k l kj vj r : key_sorted (l ++ (kj, vj) :: r) ->
  assoc_del k (l ++ (kj, vj) :: r) =
    match k ?= kj with Lt => assoc_del k l ++ (kj, vj) :: r | Gt => l ++ (kj, vj) :: assoc_del k r | Eq => l ++ r end.
Proof.
  intros S. apply sorted_mid in S as (_ & _ & B & A). rewrite del_app. simpl. destruct (Z.compare_spec k kj) as [-> | G | G].
  - by rewrite assoc_below, Z.eqb_refl.
  - destruct (assoc k l) eqn:E; [done |]. rewrite (proj2 (Z.eqb_neq _ _)) by lia. rewrite !del_absent; [done | done |]. apply assoc_above. apply (above_trans kj); [exact A | lia].
  - rewrite assoc_below by (apply (below_trans kj); [exact B | lia]). by rewrite (proj2 (Z.eqb_neq _ _)) by lia.
Qed.

Lemma put_forall (P : Z * V -> Prop) k v l : P (k, v) -> Forall P l -> Forall P (assoc_put k v l).
Proof. intros Pk. induction 1 as [| [k' v'] l H F IH]; simpl; [by constructor |]. case_match; [by repeat constructor |]. case_match; by constructor. Qed.

Lemma del_forall (P : Z * V -> Prop) k l : Forall P l -> Forall P (assoc_del k l).
Proof. induction 1 as [| [k' v'] l H F IH]; simpl; [constructor |]. case_match; [done | by constructor]. Qed.

Lemma put_sorted k v l : key_sorted l -> key_sorted (assoc_put k v l).
Proof.
  induction 1 as [| [k' v'] l S IH F]; simpl; [repeat constructor |]. destruct (Z.ltb_spec k k'); [| destruct (Z.eqb_spec k k') as [-> |]].
  - constructor; [by constructor |]. constructor; [done |]. eapply Forall_impl; [exact F |]. unfold key_lt. simpl. intros; lia.
  - by constructor.
  - constructor; [exact IH |]. apply put_forall; [unfold key_lt; simpl; lia | done].
Qed.

Lemma del_sorted k l : key_sorted l -> key_sorted (assoc_del k l).
Proof. induction 1 as [| [k' v'] l S IH F]; simpl; [constructor |]. case_match; [done |]. constructor; [exact IH | by apply del_forall]. Qed.

Lemma filter_sorted g l : key_sorted l -> key_sorted (List.filter g l).
Proof.
  induction 1 as [| p l S IH F]; simpl; [constructor |]. destruct (g p); [| exact IH]. constructor; [exact IH |].
  apply Forall_forall. intros x Hx. apply list_elem_of_In, filter_In in Hx as [Hx _]. apply list_elem_of_In in Hx. by apply (proj1 (Forall_forall _ _) F).
Qed.

Lemma assoc_put_spec k v k' l : assoc k' (assoc_put k v l) = if k' =? k then Some v else assoc k' l.
Proof.
  induction l as [| [kj vj] l IH]; simpl; [by case_match |]. destruct (Z.ltb_spec k kj); simpl; [by case_match |].
  destruct (Z.eqb_spec k kj) as [-> |]; simpl; [by case_match |]. rewrite IH. destruct (Z.eqb_spec k' kj), (Z.eqb_spec k' k); congruence.
Qed.

Lemma assoc_del_spec k k' l : key_sorted l -> assoc k' (assoc_del k l) = if k' =? k then None else assoc k' l.
Proof.
  induction 1 as [| [kj vj] l S IH F]; simpl; [by case_match |]. destruct (Z.eqb_spec k kj) as [-> |].
  - destruct (Z.eqb_spec k' kj) as [-> |]; [| done]. apply assoc_above. eapply Forall_impl; [exact F |]. unfold key_lt. simpl. done.
  - simpl. rewrite IH. destruct (Z.eqb_spec k' kj), (Z.eqb_spec k' k); congruence.
Qed.

Lemma put_length k v l : assoc k l = None -> length (assoc_put k v l) = S (length l).
Proof. induction l as [| [kj vj] l IH]; simpl; [done |]. destruct (Z.eqb_spec k kj); [done |]. intros E. destruct (k <? kj); [done |]. simpl. by rewrite IH. Qed.

Lemma del_length k l v : assoc k l = Some v -> S (length (assoc_del k l)) = length l.
Proof. induction l as [| [kj vj] l IH]; simpl; [done |]. destruct (k =? kj); [by intros | ]. intros E. simpl. by rewrite IH. Qed.
End SortedMap.
