(* ===== verification/CapKind.v ===== *)
(** Capability kinds: the [CapKind] registry of [capabilities/src/lib.rs].

    The enum with its discriminants, the [KIND_NAMES] table and the two
    linear searches over it, [parse_kind] and [kind_name]. *)

From stdpp Require Import strings.
From S2P Require Import Prelude.

Inductive CapKind : Type :=
| BusDevice
| BusDeviceP2pDma
| BusReconfigureAcs
| BusRegistry
| BlockDevice
| BlockDeviceBackend
| BlockIoQueueOwn
| Namespace
| NetIface
| StackInstall
| NetfilterAdmin
| FileNode
| DirNode
| MountPoint
| FsInstance
| Ring
| RingPair
| Endpoint
| Domain
| DmaBuffer
| SharedRegion
| Jit
| Probe
| TraceRing
| Recorder
| Pmu
| HwCrypto
| HwTrace
| Debugger
| Diagnostics
| Watchpoint
| Key
| KeyMgr
| Rng
| Tpm
| Spdm
| Task
| CpuAffinity
| CpuLifecycle
| CpuBudget
| FreqHint
| Power
| Timer
| DevicePm
| Governor
| PmBus
| SleepableReader
| Scmi
| Process
| Driver
| FbScanout
| AudioStream
| I3cBus
| Pwm
| Firmware
| FirmwareRegistry
| Bluetooth
| UsbPd
| CpuTelemetry
| TopicRegistry
| EventPublisher
| EventSubscriber
| MemAlloc
| HeapBackend
| Pager
| SchedPolicy
| DonationPolicy
| StealStrategy
| IoScheduler
| CongestionControl
| IdleGovernor
| EventSink
| BpfProgLoad
| BpfAttach
| BpfMap
| BpfArena
| BpfStructOps.

(** [kind as u32]. *)
Definition kind_u32 (k : CapKind) : Z :=
  match k with
  | BusDevice => 0x0001
  | BusDeviceP2pDma => 0x0002
  | BusReconfigureAcs => 0x0003
  | BusRegistry => 0x0004
  | BlockDevice => 0x0010
  | BlockDeviceBackend => 0x0011
  | BlockIoQueueOwn => 0x0012
  | Namespace => 0x0013
  | NetIface => 0x0020
  | StackInstall => 0x0021
  | NetfilterAdmin => 0x0022
  | FileNode => 0x0030
  | DirNode => 0x0031
  | MountPoint => 0x0032
  | FsInstance => 0x0033
  | Ring => 0x0040
  | RingPair => 0x0041
  | Endpoint => 0x0042
  | Domain => 0x0050
  | DmaBuffer => 0x0051
  | SharedRegion => 0x0052
  | Jit => 0x0053
  | Probe => 0x0060
  | TraceRing => 0x0061
  | Recorder => 0x0062
  | Pmu => 0x0063
  | HwCrypto => 0x0064
  | HwTrace => 0x0065
  | Debugger => 0x0066
  | Diagnostics => 0x0067
  | Watchpoint => 0x0068
  | Key => 0x0070
  | KeyMgr => 0x0071
  | Rng => 0x0072
  | Tpm => 0x0073
  | Spdm => 0x0074
  | Task => 0x0080
  | CpuAffinity => 0x0081
  | CpuLifecycle => 0x0082
  | CpuBudget => 0x0083
  | FreqHint => 0x0084
  | Power => 0x0085
  | Timer => 0x0086
  | DevicePm => 0x0087
  | Governor => 0x0088
  | PmBus => 0x0089
  | SleepableReader => 0x0090
  | Scmi => 0x0091
  | Process => 0x00a0
  | Driver => 0x00a1
  | FbScanout => 0x00b0
  | AudioStream => 0x00c0
  | I3cBus => 0x00d0
  | Pwm => 0x00d1
  | Firmware => 0x00e0
  | FirmwareRegistry => 0x00e1
  | Bluetooth => 0x00f0
  | UsbPd => 0x00f1
  | CpuTelemetry => 0x00f2
  | TopicRegistry => 0x0100
  | EventPublisher => 0x0101
  | EventSubscriber => 0x0102
  | MemAlloc => 0x0200
  | HeapBackend => 0x0201
  | Pager => 0x0202
  | SchedPolicy => 0x0203
  | DonationPolicy => 0x0204
  | StealStrategy => 0x0205
  | IoScheduler => 0x0206
  | CongestionControl => 0x0207
  | IdleGovernor => 0x0208
  | EventSink => 0x0209
  | BpfProgLoad => 0x0300
  | BpfAttach => 0x0301
  | BpfMap => 0x0302
  | BpfArena => 0x0303
  | BpfStructOps => 0x0304
  end.

Definition KIND_NAMES : list (string * CapKind) :=
  [ ("BusDevice", BusDevice);
    ("BusDeviceP2pDma", BusDeviceP2pDma);
    ("BusReconfigureAcs", BusReconfigureAcs);
    ("BusRegistry", BusRegistry);
    ("BlockDevice", BlockDevice);
    ("BlockDeviceBackend", BlockDeviceBackend);
    ("BlockIoQueueOwn", BlockIoQueueOwn);
    ("Namespace", Namespace);
    ("NetIface", NetIface);
    ("StackInstall", StackInstall);
    ("NetfilterAdmin", NetfilterAdmin);
    ("FileNode", FileNode);
    ("DirNode", DirNode);
    ("MountPoint", MountPoint);
    ("FsInstance", FsInstance);
    ("Ring", Ring);
    ("RingPair", RingPair);
    ("Endpoint", Endpoint);
    ("Domain", Domain);
    ("DmaBuffer", DmaBuffer);
    ("SharedRegion", SharedRegion);
    ("Jit", Jit);
    ("Probe", Probe);
    ("TraceRing", TraceRing);
    ("Recorder", Recorder);
    ("Pmu", Pmu);
    ("HwCrypto", HwCrypto);
    ("HwTrace", HwTrace);
    ("Debugger", Debugger);
    ("Diagnostics", Diagnostics);
    ("Watchpoint", Watchpoint);
    ("Key", Key);
    ("KeyMgr", KeyMgr);
    ("Rng", Rng);
    ("Tpm", Tpm);
    ("Spdm", Spdm);
    ("Task", Task);
    ("CpuAffinity", CpuAffinity);
    ("CpuLifecycle", CpuLifecycle);
    ("CpuBudget", CpuBudget);
    ("FreqHint", FreqHint);
    ("Power", Power);
    ("Timer", Timer);
    ("DevicePm", DevicePm);
    ("Governor", Governor);
    ("PmBus", PmBus);
    ("SleepableReader", SleepableReader);
    ("Scmi", Scmi);
    ("Process", Process);
    ("Driver", Driver);
    ("FbScanout", FbScanout);
    ("AudioStream", AudioStream);
    ("I3cBus", I3cBus);
    ("Pwm", Pwm);
    ("Firmware", Firmware);
    ("FirmwareRegistry", FirmwareRegistry);
    ("Bluetooth", Bluetooth);
    ("UsbPd", UsbPd);
    ("CpuTelemetry", CpuTelemetry);
    ("TopicRegistry", TopicRegistry);
    ("EventPublisher", EventPublisher);
    ("EventSubscriber", EventSubscriber);
    ("MemAlloc", MemAlloc);
    ("HeapBackend", HeapBackend);
    ("Pager", Pager);
    ("SchedPolicy", SchedPolicy);
    ("DonationPolicy", DonationPolicy);
    ("StealStrategy", StealStrategy);
    ("IoScheduler", IoScheduler);
    ("CongestionControl", CongestionControl);
    ("IdleGovernor", IdleGovernor);
    ("EventSink", EventSink);
    ("BpfProgLoad", BpfProgLoad);
    ("BpfAttach", BpfAttach);
    ("BpfMap", BpfMap);
    ("BpfArena", BpfArena);
    ("BpfStructOps", BpfStructOps) ]%string.

(** [kind_u32] has a left inverse, so no two kinds share a discriminant. *)
Definition kind_of_u32 (n : Z) : option CapKind :=
  snd <$> List.find (fun e : string * CapKind => kind_u32 e.2 =? n) KIND_NAMES.

Lemma kind_of_u32_kind_u32 k : kind_of_u32 (kind_u32 k) = Some k.
Proof. destruct k; reflexivity. Qed.

#[export] Instance kind_u32_inj : Inj (=) (=) kind_u32.
Proof.
  intros k1 k2 E. apply (f_equal kind_of_u32) in E.
  rewrite !kind_of_u32_kind_u32 in E. congruence.
Qed.

#[export] Instance CapKind_eq_dec : EqDecision CapKind.
Proof.
  intros k1 k2. destruct (decide (kind_u32 k1 = kind_u32 k2)) as [E | E].
  - left. by apply kind_u32_inj.
  - right. by intros ->.
Defined.

Inductive UnknownKind : Type := UnknownKindErr.

(** [for (k_name, k) in KIND_NAMES { if k_name == name { return Ok(k) } }]. *)
Fixpoint parse_kind_in (table : list (string * CapKind)) (name : string)
    : Result CapKind UnknownKind :=
  match table with
  | [] => Err UnknownKindErr
  | (k_name, k) :: rest => if decide (k_name = name) then Ok k else parse_kind_in rest name
  end.

Definition parse_kind (name : string) : Result CapKind UnknownKind :=
  parse_kind_in KIND_NAMES name.

Fixpoint kind_name_in (table : list (string * CapKind)) (kind : CapKind) : string :=
  match table with
  | [] => "Unknown"%string
  | (name, k) :: rest => if decide (k = kind) then name else kind_name_in rest kind
  end.

Definition kind_name (kind : CapKind) : string := kind_name_in KIND_NAMES kind.

(** A successful parse returns an entry of the table. *)
Lemma parse_kind_in_sound table name k :
  parse_kind_in table name = Ok k -> (name, k) ∈ table.
Proof.
  induction table as [| [n k'] rest IH]; simpl; [discriminate |].
  case_decide; intros E.
  - simplify_eq. left.
  - right. auto.
Qed.

(** Every entry of the table is the one [kind_name] reports for its kind. *)
Lemma kind_name_entries : Forall (fun e => kind_name e.2 = e.1) KIND_NAMES.
Proof. repeat constructor. Qed.


(** The kind registry is a bijection between kinds and their names:
    every kind has a name (never the "Unknown" fallback), parsing that name
    gives the kind back, a name that parses is the name of the kind it
    parses to, and no two kinds share a wire discriminant. *)
Lemma kind_registry_bijective :
  (forall k, parse_kind (kind_name k) = Ok k) /\
  (forall name k, parse_kind name = Ok k -> kind_name k = name) /\
  (forall k1 k2, kind_u32 k1 = kind_u32 k2 -> k1 = k2).
Proof.
  split; [| split].
  - intros k. destruct k; reflexivity.
  - intros name k H%parse_kind_in_sound.
    exact (proj1 (Forall_forall _ _) kind_name_entries _ H).
  - intros k1 k2. apply kind_u32_inj.
Qed.
