(* ===== verification/Capability.v ===== *)
(** Capability tokens: rights, slots, the object table and [Cap<T, R>]
    ([capabilities/src/lib.rs], up to [CapTable]).

    The global object table is threaded explicitly.  A capability type
    parameter [T : CapType] is represented by its [T::KIND]. *)

From S2P Require Import Prelude Word CapKind.

(** * Rights *)

Inductive Rights : Type := Read | Write | Grant | Spend | Invoke | Create.

#[export] Instance Rights_eq_dec : EqDecision Rights.
Proof. solve_decision. Defined.

Definition BITS (r : Rights) : Z :=
  match r with
  | Read => 0x1
  | Write => 0x2
  | Grant => 0x4
  | Spend => 0x8
  | Invoke => 0x10
  | Create => 0x20
  end.

(** The [SubsetOf] lattice, one constructor per [impl SubsetOf<R> for R2]:
    [SubsetOf R R2] lets a holder of [R] derive [R2]. *)
Inductive SubsetOf : Rights -> Rights -> Prop :=
| subset_refl R : SubsetOf R R
| read_of_grant : SubsetOf Grant Read
| write_of_grant : SubsetOf Grant Write
| spend_of_grant : SubsetOf Grant Spend
| invoke_of_grant : SubsetOf Grant Invoke
| read_of_write : SubsetOf Write Read
| read_of_invoke : SubsetOf Invoke Read
| read_of_spend : SubsetOf Spend Read.

Existing Class SubsetOf.
#[export] Existing Instances subset_refl read_of_grant write_of_grant spend_of_grant
  invoke_of_grant read_of_write read_of_invoke read_of_spend.
#[export] Hint Constructors SubsetOf : core.

(** * Slots *)

Record CapSlot : Type := mk_slot {
  generation : Z;
  index : Z;
  rights : Z;
  type_tag : Z
}.

#[export] Instance CapSlot_eq_dec : EqDecision CapSlot.
Proof. solve_decision. Defined.

Definition EMPTY : CapSlot := mk_slot 0 0 0 0.

Definition is_empty (s : CapSlot) : bool :=
  (s.(generation) =? 0) && (s.(index) =? 0) && (s.(rights) =? 0) && (s.(type_tag) =? 0).

(** Every field is a [u32]. *)
Definition slot_u32 (s : CapSlot) : Prop :=
  is_u 32 s.(generation) /\ is_u 32 s.(index) /\ is_u 32 s.(rights) /\ is_u 32 s.(type_tag).

(** The [transmute]s to and from [u128]: a [repr(C)] struct of four [u32]s
    on a little-endian machine puts the first field in the low bits. *)
Definition as_u128 (s : CapSlot) : Z :=
  Z.lor s.(generation)
    (Z.lor (Z.shiftl s.(index) 32)
       (Z.lor (Z.shiftl s.(rights) 64) (Z.shiftl s.(type_tag) 96))).

Definition from_u128 (v : Z) : CapSlot :=
  mk_slot (u32 v) (u32 (Z.shiftr v 32)) (u32 (Z.shiftr v 64)) (u32 (Z.shiftr v 96)).

(** The 128-bit compare-and-swap instruction on the word [mem] at [ptr]:
    the result and the word left in memory. *)
Definition cas128 (mem old new : Z) : Result Z Z * Z :=
  if mem =? old then (Ok mem, new) else (Err mem, mem).

Definition atomic_cas (mem : Z) (old new : CapSlot) : Result CapSlot CapSlot * Z :=
  match cas128 mem (as_u128 old) (as_u128 new) with
  | (Ok v, mem') => (Ok (from_u128 v), mem')
  | (Err v, mem') => (Err (from_u128 v), mem')
  end.

Definition atomic_load (mem : Z) : CapSlot * Z :=
  match cas128 mem 0 0 with
  | (Ok _, mem') => (EMPTY, mem')
  | (Err v, mem') => (from_u128 v, mem')
  end.

Inductive CapError : Type :=
| Revoked
| DomainMismatch
| TypeMismatch
| RightsTooWeak
| CapTableFull
| ObjectMismatch.

(** * The object table *)

Module object_table.
Record Entry : Type := mk_entry { epoch : Z; kind : CapKind }.

(** [TABLE]: the vector behind the spin lock. *)
Abbreviation table := (list Entry).

Definition register (t : table) (k : CapKind) : (Z * Z) * table :=
  let index := u32 (Z.of_nat (length t)) in
  ((index, 1), t ++ [mk_entry 1 k]).

Definition current_epoch (t : table) (index : Z) : option Z :=
  epoch <$> t !! Z.to_nat index.

Definition epoch_and_kind (t : table) (index : Z) : option (Z * CapKind) :=
  (fun e => (e.(epoch), e.(kind))) <$> t !! Z.to_nat index.

(** [fetch_add] wraps; so does the [+ 1] of the returned value in a build
    without overflow checks. *)
Definition bump_epoch (t : table) (index : Z) : option Z * table :=
  match t !! Z.to_nat index with
  | Some e =>
      (Some (u32 (e.(epoch) + 1)),
       <[Z.to_nat index := mk_entry (u32 (e.(epoch) + 1)) e.(kind)]> t)
  | None => (None, t)
  end.

Definition kind_at (t : table) (index : Z) : option CapKind :=
  kind <$> t !! Z.to_nat index.

Definition len (t : table) : nat := length t.
End object_table.

Import object_table.

(** * [Cap<T, R>] *)

Record Cap (T : CapKind) (R : Rights) : Type := mint { slot : CapSlot }.
Arguments mint {T R} slot.
Arguments slot {T R} c.

(** [CapOp::execute]: an operation on a capability. *)
Definition CapOp (T : CapKind) (R : Rights) (Output : Type) : Type :=
  Cap T R -> Result Output CapError.

Definition NoopOp {T R} : CapOp T R unit := fun _ => Ok tt.

Definition check_live {T R} (t : table) (c : Cap T R) : Result unit CapError :=
  match current_epoch t c.(slot).(index) with
  | Some e => if e =? c.(slot).(generation) then Ok tt else Err Revoked
  | None => Err Revoked
  end.

Definition is_live {T R} (t : table) (c : Cap T R) : bool := is_ok (check_live t c).

Definition invoke {T R Output} (t : table) (c : Cap T R) (op : CapOp T R Output)
    : Result Output CapError :=
  let? (epoch, kind) := ok_or (epoch_and_kind t c.(slot).(index)) Revoked in
  if negb (epoch =? c.(slot).(generation)) then Err Revoked
  else if decide (kind <> T) then Err TypeMismatch
  else if negb (c.(slot).(type_tag) =? kind_u32 T) then Err TypeMismatch
  else if negb (Z.land c.(slot).(rights) (BITS R) =? BITS R) then Err RightsTooWeak
  else op c.

Definition revoke {T R} (t : table) (c : Cap T R) : table :=
  snd (bump_epoch t c.(slot).(index)).

Definition derive {T R} (R2 : Rights) {H : SubsetOf R R2} (t : table) (c : Cap T R)
    : Result (Cap T R2) CapError :=
  let? _ := check_live t c in
  Ok (mint (mk_slot c.(slot).(generation) c.(slot).(index) (BITS R2) c.(slot).(type_tag))).

Definition bootstrap (T : CapKind) (R : Rights) (t : table) : Cap T R * table :=
  let '((index, generation), t') := register t T in
  (mint (mk_slot generation index (BITS R) (kind_u32 T)), t').

Definition bootstrap_with {C : CapKind} (T : CapKind) (R : Rights) (t : table)
    (creator : Cap C Create) : Result (Cap T R) CapError * table :=
  match check_live t creator with
  | Err e => (Err e, t)
  | Ok _ =>
      if negb (creator.(slot).(type_tag) =? kind_u32 Task) then (Err TypeMismatch, t)
      else if Z.land creator.(slot).(rights) (BITS Create) =? 0 then (Err RightsTooWeak, t)
      else
        let '((index, generation), t') := register t T in
        (Ok (mint (mk_slot generation index (BITS R) (kind_u32 T))), t')
  end.

(** * The rights lattice *)

#[export] Instance SubsetOf_preorder : PreOrder SubsetOf.
Proof. split; [intros R; constructor |]. intros R1 R2 R3 [] H; inversion H; auto. Qed.

#[export] Instance SubsetOf_antisym : AntiSymm (=) SubsetOf.
Proof. intros R1 R2 [] H; inversion H; auto. Qed.

Lemma create_from_create R : SubsetOf R Create -> R = Create.
Proof. inversion 1; auto. Qed.

Lemma create_to_create R : SubsetOf Create R -> R = Create.
Proof. inversion 1; auto. Qed.

Lemma BITS_inj R1 R2 : BITS R1 = BITS R2 -> R1 = R2.
Proof. destruct R1, R2; simpl; congruence. Qed.

(** * Slots and their 128-bit image *)

(** A 32-bit field at bit offset [n]. *)
Lemma testbit_field x n i :
  is_u 32 x -> 0 <= n -> 0 <= i ->
  Z.testbit (Z.shiftl x n) i = (n <=? i) && (i <? n + 32) && Z.testbit x (i - n).
Proof.
  intros Hx Hn Hi. rewrite Z.shiftl_spec by lia.
  destruct (Z.leb_spec n i); simpl.
  - destruct (Z.ltb_spec i (n + 32)); simpl; [reflexivity |].
    apply (testbit_high 32); [lia | exact Hx | lia].
  - apply Z.testbit_neg_r. lia.
Qed.

Lemma testbit_as_u128 s i :
  slot_u32 s -> 0 <= i ->
  Z.testbit (as_u128 s) i =
    if i <? 32 then Z.testbit s.(generation) i
    else if i <? 64 then Z.testbit s.(index) (i - 32)
    else if i <? 96 then Z.testbit s.(rights) (i - 64)
    else (i <? 128) && Z.testbit s.(type_tag) (i - 96).
Proof.
  intros (Hg & Hi & Hr & Ht) Hpos. unfold as_u128. rewrite !Z.lor_spec, !testbit_field by (auto; lia).
  repeat match goal with |- context [?a <=? i] => destruct (Z.leb_spec a i) end;
  repeat match goal with |- context [i <? ?a] => destruct (Z.ltb_spec i a) end; try lia;
  simpl; rewrite ?orb_false_r, ?andb_true_r; try reflexivity;
  rewrite (testbit_high 32 s.(generation)) by (auto; lia); reflexivity.
Qed.

Lemma from_as_u128 s : slot_u32 s -> from_u128 (as_u128 s) = s.
Proof.
  intros Hs. pose proof Hs as (Hg & Hi & Hr & Ht).
  destruct s as [g ix r tg]; simpl in *. unfold from_u128.
  f_equal; apply (word_ext 32); auto with word; intros i Hb; rewrite testbit_wrap by lia;
    rewrite (proj2 (Z.ltb_lt i 32)) by lia; simpl; rewrite ?Z.shiftr_spec by lia;
    rewrite testbit_as_u128 by (auto; lia); tests; try lia; simpl;
    rewrite ?(proj2 (Z.ltb_lt (i + 96) 128)) by lia; simpl; f_equal; lia.
Qed.

Lemma from_u128_slot v : slot_u32 (from_u128 v).
Proof. unfold slot_u32, from_u128; simpl. auto 10 with word. Qed.

Lemma as_from_u128 v : is_u 128 v -> as_u128 (from_u128 v) = v.
Proof.
  intros Hv. apply Z.bits_inj'. intros i Hi.
  rewrite testbit_as_u128 by (apply from_u128_slot || lia). unfold from_u128; simpl.
  tests; rewrite testbit_wrap, ?Z.shiftr_spec, ?Z.sub_add by lia;
    try (rewrite (proj2 (Z.ltb_lt _ 32)) by lia; reflexivity).
  destruct (Z.ltb_spec i 128); simpl.
  - rewrite (proj2 (Z.ltb_lt _ 32)) by lia. reflexivity.
  - symmetry. apply (testbit_high 128); [lia | exact Hv | lia].
Qed.

(** * The object table *)

Lemma lookup_register t k (i : nat) :
  snd (register t k) !! i = if decide (i = length t) then Some (mk_entry 1 k) else t !! i.
Proof.
  simpl. case_decide as E.
  - subst. rewrite lookup_app_r, Nat.sub_diag by lia. reflexivity.
  - destruct (decide (i < length t)%nat).
    + by rewrite lookup_app_l.
    + rewrite (lookup_ge_None_2 t) by lia. apply lookup_ge_None_2. rewrite length_app. simpl. lia.
Qed.

Lemma length_register t k : length (snd (register t k)) = S (length t).
Proof. simpl. rewrite length_app. simpl. lia. Qed.

Lemma lookup_bump t i (j : nat) :
  snd (bump_epoch t i) !! j =
    if decide (j = Z.to_nat i)
    then (fun e => mk_entry (u32 (e.(epoch) + 1)) e.(kind)) <$> t !! j else t !! j.
Proof.
  unfold bump_epoch. destruct (t !! Z.to_nat i) as [e |] eqn:E; simpl.
  - case_decide.
    + subst. rewrite E, list_lookup_insert_eq by (eapply lookup_lt_Some; eauto). reflexivity.
    + by rewrite list_lookup_insert_ne.
  - case_decide; [subst; by rewrite E | reflexivity].
Qed.

Lemma length_bump t i : length (snd (bump_epoch t i)) = length t.
Proof. unfold bump_epoch. destruct (t !! _); simpl; [apply length_insert | reflexivity]. Qed.

Lemma u32_succ_ne e : is_u 32 e -> u32 (e + 1) <> e.
Proof.
  unfold is_u. intros H. destruct (Z.eq_dec e U32_MAX) as [-> | N]; [by vm_compute |].
  rewrite wrap_small by (unfold is_u; lia). lia.
Qed.

Lemma check_live_iff {T R} t (c : Cap T R) :
  check_live t c = Ok tt <-> current_epoch t c.(slot).(index) = Some c.(slot).(generation).
Proof.
  unfold check_live. destruct (current_epoch _ _) as [e |]; [| split; congruence].
  destruct (Z.eqb_spec e c.(slot).(generation)); split; congruence.
Qed.

Lemma check_live_cases {T R} t (c : Cap T R) :
  check_live t c = Ok tt \/ check_live t c = Err Revoked.
Proof. unfold check_live. destruct (current_epoch _ _); tests; auto. Qed.

Lemma current_epoch_bump t i j :
  0 <= i -> 0 <= j ->
  current_epoch (snd (bump_epoch t i)) j =
    if decide (j = i) then (fun e => u32 (e + 1)) <$> current_epoch t j else current_epoch t j.
Proof.
  intros Hi Hj. unfold current_epoch. rewrite lookup_bump.
  destruct (decide (j = i)) as [-> | N].
  - rewrite decide_True by reflexivity. by destruct (t !! _).
  - rewrite decide_False by lia. reflexivity.
Qed.

(** The epochs of a table are [u32]s. *)
Definition table_u32 (t : table) : Prop := Forall (fun e => is_u 32 e.(epoch)) t.

Lemma current_epoch_u32 t i e : table_u32 t -> current_epoch t i = Some e -> is_u 32 e.
Proof.
  unfold current_epoch. intros Ht H. apply fmap_Some in H as (en & E & ->).
  exact (Forall_lookup_1 _ _ _ _ Ht E).
Qed.

Lemma bump_u32 t i : table_u32 t -> table_u32 (snd (bump_epoch t i)).
Proof.
  intros Ht. apply Forall_lookup_2. intros j e E. rewrite lookup_bump in E.
  case_decide; [| exact (Forall_lookup_1 _ _ _ _ Ht E)].
  apply fmap_Some in E as (e' & _ & ->). simpl. auto with word.
Qed.

Lemma register_u32 t k : table_u32 t -> table_u32 (snd (register t k)).
Proof.
  intros Ht. apply Forall_app. split; [exact Ht |]. repeat constructor; simpl; lia.
Qed.

(** What the checks of [invoke] amount to. *)
Lemma invoke_Ok {T R Output} t (c : Cap T R) (op : CapOp T R Output) v :
  invoke t c op = Ok v ->
  epoch_and_kind t c.(slot).(index) = Some (c.(slot).(generation), T) /\
  c.(slot).(type_tag) = kind_u32 T /\
  Z.land c.(slot).(rights) (BITS R) = BITS R /\
  op c = Ok v.
Proof.
  unfold invoke. destruct (epoch_and_kind _ _) as [[e k] |] eqn:E; simpl; [| discriminate].
  destruct (Z.eqb_spec e c.(slot).(generation)) as [-> |]; simpl; [| discriminate].
  case_decide as K; [discriminate |]. subst k.
  destruct (Z.eqb_spec c.(slot).(type_tag) (kind_u32 T)); simpl; [| discriminate].
  destruct (Z.eqb_spec (Z.land c.(slot).(rights) (BITS R)) (BITS R)); simpl; [| discriminate].
  auto.
Qed.

(** The epoch after [n] bumps. *)
Lemma current_epoch_bumps n t i e :
  0 <= i -> current_epoch t i = Some e -> is_u 32 e ->
  current_epoch (Nat.iter n (fun t => snd (bump_epoch t i)) t) i = Some (u32 (e + Z.of_nat n)).
Proof.
  intros Hi E He. induction n as [| n IH].
  - change (Nat.iter 0 _ t) with t. rewrite Z.add_0_r, wrap_small by exact He. exact E.
  - rewrite Nat.iter_succ, current_epoch_bump, decide_True, IH by auto. simpl.
    f_equal. unfold wrap. rewrite Zplus_mod_idemp_l. f_equal. lia.
Qed.

(** * Properties of the capability core *)

(** Revocation.  Bumping the epoch of a capability's object makes every
    capability to that object that was live report [Revoked], and leaves
    every capability to another object exactly as it was. *)
Lemma revoke_invalidates_object {T R} (t : table) (c : Cap T R) :
  table_u32 t -> 0 <= c.(slot).(index) ->
  forall T' R' (c' : Cap T' R'), 0 <= c'.(slot).(index) ->
    (c'.(slot).(index) = c.(slot).(index) -> check_live t c' = Ok tt ->
       check_live (revoke t c) c' = Err Revoked) /\
    (c'.(slot).(index) <> c.(slot).(index) ->
       check_live (revoke t c) c' = check_live t c').
Proof.
  intros Ht Hc T' R' c' Hc'. unfold revoke. split.
  - intros E L. destruct (check_live_cases (snd (bump_epoch t (index (slot c)))) c') as [D | D];
      [exfalso | exact D].
    apply check_live_iff in L. apply check_live_iff in D.
    rewrite current_epoch_bump, decide_True, L in D by auto. simpl in D.
    apply (u32_succ_ne (generation (slot c'))); [| congruence].
    exact (current_epoch_u32 _ _ _ Ht L).
  - intros N. unfold check_live. rewrite current_epoch_bump, decide_False by auto. reflexivity.
Qed.

(** A number added to a 32-bit word gives the word back exactly when it is a
    multiple of [2^32]. *)
Lemma u32_add_same e n : is_u 32 e -> (u32 (e + n) = e <-> n mod 2 ^ 32 = 0).
Proof.
  intros He. assert (is_u 32 e) as E by exact He. unfold is_u in E. unfold wrap. split; intros H.
  - pose proof (Z.div_mod (e + n) (2 ^ 32) ltac:(lia)) as D. rewrite H in D.
    replace n with ((e + n) / 2 ^ 32 * 2 ^ 32) by lia. apply Z.mod_mul. lia.
  - rewrite <- Zplus_mod_idemp_r, H, Z.add_0_r. apply Z.mod_small. exact E.
Qed.

(** C40: the epoch counter is 32 bits wide and nothing stops a holder of a
    stale copy from revoking again.  From a state in which the capability is
    live, [n] revocations through it bring the object's epoch to the
    capability's generation plus [n] modulo [2^32]; the capability is then
    [Revoked] for every [n] that is not a multiple of [2^32], and live again
    for every [n] that is. *)
Theorem revoke_wraps_around {T R} (t : table) (c : Cap T R) (n : nat) :
  table_u32 t -> 0 <= c.(slot).(index) -> check_live t c = Ok tt ->
  let t' := Nat.iter n (fun t => revoke t c) t in
  current_epoch t' c.(slot).(index) = Some (u32 (c.(slot).(generation) + Z.of_nat n)) /\
  check_live t' c = if Z.of_nat n mod 2 ^ 32 =? 0 then Ok tt else Err Revoked.
Proof.
  intros Ht Hc L t'. apply check_live_iff in L. pose proof (current_epoch_u32 _ _ _ Ht L) as G.
  assert (current_epoch t' (index (slot c)) = Some (u32 (generation (slot c) + Z.of_nat n))) as E by exact (current_epoch_bumps _ _ _ _ Hc L G).
  split; [exact E |]. unfold check_live. rewrite E. pose proof (u32_add_same _ (Z.of_nat n) G) as S.
  destruct (Z.eqb_spec (u32 (generation (slot c) + Z.of_nat n)) (generation (slot c))), (Z.eqb_spec (Z.of_nat n mod 2 ^ 32) 0); tauto.
Qed.

(** Revoked after one revocation, live after [2^32]. *)
Lemma revoke_wraps_around_witness :
  let '(c, t) := bootstrap Task Write [] in
  check_live (Nat.iter 1 (fun t => revoke t c) t) c = Err Revoked /\
  check_live (Nat.iter (Z.to_nat (2 ^ 32)) (fun t => revoke t c) t) c = Ok tt.
Proof.
  assert (table_u32 (snd (bootstrap Task Write []))) as Ht by (repeat constructor; simpl; lia).
  split.
  - apply (revoke_wraps_around (snd (bootstrap Task Write [])) (fst (bootstrap Task Write [])) 1); [exact Ht | vm_compute; congruence | reflexivity].
  - destruct (revoke_wraps_around (snd (bootstrap Task Write [])) (fst (bootstrap Task Write [])) (Z.to_nat (2 ^ 32)) Ht) as [_ E];
      [vm_compute; congruence | reflexivity |].
    rewrite Z2Nat.id in E by lia. exact E.
Defined.

(** The 128-bit image of a slot.  [from_u128] and [as_u128] are inverse
    bijections between slots of [u32] fields and [u128] words; [atomic_load]
    returns the slot in memory and writes nothing back; [atomic_cas] swaps
    exactly when the slot in memory equals the expected one. *)
Lemma slot_u128_atomics :
  (forall s, slot_u32 s -> from_u128 (as_u128 s) = s) /\
  (forall v, is_u 128 v -> slot_u32 (from_u128 v) /\ as_u128 (from_u128 v) = v) /\
  (forall mem, is_u 128 mem -> atomic_load mem = (from_u128 mem, mem)) /\
  (forall cur old new, slot_u32 cur -> slot_u32 old -> slot_u32 new ->
     atomic_cas (as_u128 cur) old new =
       if decide (cur = old) then (Ok old, as_u128 new) else (Err cur, as_u128 cur)).
Proof.
  split; [exact from_as_u128 | split; [| split]].
  - intros v Hv. split; [apply from_u128_slot | apply as_from_u128, Hv].
  - intros mem _. unfold atomic_load, cas128. destruct (Z.eqb_spec mem 0) as [-> |]; reflexivity.
  - intros cur old new Hc Ho Hn. unfold atomic_cas, cas128.
    destruct (Z.eqb_spec (as_u128 cur) (as_u128 old)) as [E | N].
    + apply (f_equal from_u128) in E. rewrite !from_as_u128 in E by assumption. subst old.
      rewrite from_as_u128, decide_True by auto. reflexivity.
    + rewrite from_as_u128, decide_False by (auto; congruence). reflexivity.
Qed.
