(* ===== verification/CapTable.v ===== *)
(** Per-task capability tables: [CapTable] and [Cap<T, Grant>::transfer]
    ([capabilities/src/lib.rs]).

    A table is a vector of slots with two monotonic install cursors.  The
    installing operations return [None] where the source would panic on a
    vector index out of bounds; [table_wf] is the invariant under which they
    never do. *)

From S2P Require Import Prelude Word CapKind Capability.
Import object_table.

Record CapTable : Type := mk_table {
  slots : list CapSlot;
  next_bootstrap : nat;
  next_general : nat
}.

Definition INITIAL_SLOTS : nat := 256.
Definition MAX_SLOTS : nat := Z.to_nat 131072.
Definition RESERVED_SLOTS : nat := 16.

Lemma MAX_SLOTS_val : Z.of_nat MAX_SLOTS = 131072.
Proof. apply Z2Nat.id. lia. Qed.

#[global] Opaque MAX_SLOTS.

Definition new : CapTable :=
  mk_table (replicate INITIAL_SLOTS EMPTY) 0 RESERVED_SLOTS.

Definition capacity (ct : CapTable) : nat := length ct.(slots).

(** [v[i] = x], which panics out of bounds. *)
Definition vec_set {A} (v : list A) (i : nat) (x : A) : option (list A) :=
  if decide (i < length v)%nat then Some (<[i := x]> v) else None.

Definition install_bootstrap {T R} (t : table) (ct : CapTable) (cap : Cap T R)
    : option (Result Z CapError * CapTable) :=
  match check_live t cap with
  | Err e => Some (Err e, ct)
  | Ok _ =>
      if negb (cap.(slot).(type_tag) =? kind_u32 T) then Some (Err TypeMismatch, ct)
      else if decide (RESERVED_SLOTS <= ct.(next_bootstrap))%nat then Some (Err CapTableFull, ct)
      else
        let at_ := ct.(next_bootstrap) in
        let* slots' := vec_set ct.(slots) at_ cap.(slot) in
        Some (Ok (u32 (Z.of_nat at_)), mk_table slots' (at_ + 1) ct.(next_general))
  end.

(** The growth step of [install_general]: double, up to the hard cap. *)
Definition grow (ct : CapTable) : Result CapTable CapError :=
  if decide (ct.(next_general) = length ct.(slots)) then
    if decide (MAX_SLOTS <= length ct.(slots))%nat then Err CapTableFull
    else
      let new_len := Nat.min (length ct.(slots) * 2) MAX_SLOTS in
      Ok (mk_table (resize new_len EMPTY ct.(slots)) ct.(next_bootstrap) ct.(next_general))
  else Ok ct.

Definition install_general (ct : CapTable) (s : CapSlot)
    : option (Result Z CapError * CapTable) :=
  match grow ct with
  | Err e => Some (Err e, ct)
  | Ok ct =>
      let at_ := ct.(next_general) in
      let* slots' := vec_set ct.(slots) at_ s in
      Some (Ok (u32 (Z.of_nat at_)), mk_table slots' ct.(next_bootstrap) (at_ + 1))
  end.

Definition lookup_slot (t : table) (ct : CapTable) (presented : CapSlot)
    : Result CapSlot CapError :=
  let? entry := ok_or (ct.(slots) !! Z.to_nat presented.(index)) Revoked in
  if is_empty entry then Err Revoked
  else if negb (presented.(type_tag) =? entry.(type_tag)) then Err TypeMismatch
  else if negb (presented.(generation) =? entry.(generation)) then Err Revoked
  else
    let? _ := (match current_epoch t entry.(index) with
               | Some e => if e =? entry.(generation) then Ok tt else Err Revoked
               | None => Err Revoked
               end) in
    if negb (Z.land presented.(rights) (wnot 32 entry.(rights)) =? 0) then Err RightsTooWeak
    else Ok entry.

Definition install_transfer (ct : CapTable) (grant_entry cap_entry : CapSlot)
    : option (Result Z CapError * CapTable) :=
  if Z.land grant_entry.(rights) (BITS Grant) =? 0 then Some (Err RightsTooWeak, ct)
  else if negb (grant_entry.(index) =? cap_entry.(index)) then Some (Err ObjectMismatch, ct)
  else if negb (grant_entry.(type_tag) =? cap_entry.(type_tag)) then Some (Err TypeMismatch, ct)
  else install_general ct cap_entry.

(** [Cap<T, Grant>::transfer]. *)
Definition transfer {T R} (t : table) (grant : Cap T Grant) (cap : Cap T R) (target : CapTable)
    : option (Result Z CapError * CapTable) :=
  match check_live t grant with
  | Err e => Some (Err e, target)
  | Ok _ =>
      match check_live t cap with
      | Err e => Some (Err e, target)
      | Ok _ =>
          if negb (grant.(slot).(index) =? cap.(slot).(index)) then Some (Err ObjectMismatch, target)
          else if negb (cap.(slot).(type_tag) =? kind_u32 T) then Some (Err TypeMismatch, target)
          else install_general target cap.(slot)
      end
  end.

(** * Invariant *)

(** The cursors stay in their regions and every position a cursor has not
    reached yet is empty. *)
Record table_wf (ct : CapTable) : Prop := {
  wf_initial : (INITIAL_SLOTS <= length ct.(slots))%nat;
  wf_max : (length ct.(slots) <= MAX_SLOTS)%nat;
  wf_bootstrap : (ct.(next_bootstrap) <= RESERVED_SLOTS)%nat;
  wf_general : (RESERVED_SLOTS <= ct.(next_general) <= length ct.(slots))%nat;
  wf_bootstrap_empty : forall i, (ct.(next_bootstrap) <= i < RESERVED_SLOTS)%nat ->
    ct.(slots) !! i = Some EMPTY;
  wf_general_empty : forall i, (ct.(next_general) <= i < length ct.(slots))%nat ->
    ct.(slots) !! i = Some EMPTY
}.

Lemma new_wf : table_wf new.
Proof.
  assert (H : forall i, (i < 256)%nat -> slots new !! i = Some EMPTY)
    by (intros; by apply lookup_replicate_2).
  split; cbn [new slots next_bootstrap next_general]; rewrite ?length_replicate;
    unfold INITIAL_SLOTS, RESERVED_SLOTS; pose proof MAX_SLOTS_val; intros; try lia; apply H; lia.
Qed.

Lemma vec_set_Some {A} (v : list A) i x :
  (i < length v)%nat -> vec_set v i x = Some (<[i := x]> v).
Proof. intros. unfold vec_set. by rewrite decide_True. Qed.

(** The update shared by every install: position [i] of the table is written
    and the cursors move to [nb] and [ng]. *)
Definition installed (ct ct' : CapTable) (i : nat) (s : CapSlot) : Prop :=
  ct'.(slots) !! i = Some s /\
  (length ct.(slots) <= length ct'.(slots))%nat /\
  forall j e, j <> i -> ct.(slots) !! j = Some e -> ct'.(slots) !! j = Some e.

Lemma grow_spec ct :
  table_wf ct ->
  match grow ct with
  | Err e => e = CapTableFull /\ ct.(next_general) = MAX_SLOTS
  | Ok ct' =>
      table_wf ct' /\ (ct'.(next_general) < length ct'.(slots))%nat /\
      ct'.(next_general) = ct.(next_general) /\ ct'.(next_bootstrap) = ct.(next_bootstrap) /\
      (length ct.(slots) <= length ct'.(slots))%nat /\
      forall j e, ct.(slots) !! j = Some e -> ct'.(slots) !! j = Some e
  end.
Proof.
  intros [W1 W2 W3 W4 W5 W6]. unfold grow. case_decide as E.
  - case_decide as F; [split; [done | lia] |]. unfold INITIAL_SLOTS in *.
    set (n := Nat.min (length (slots ct) * 2) MAX_SLOTS).
    assert (L : length (resize n EMPTY (slots ct)) = n) by apply length_resize.
    assert (K : forall j e, slots ct !! j = Some e -> resize n EMPTY (slots ct) !! j = Some e).
    { intros j e He. pose proof (lookup_lt_Some _ _ _ He).
      rewrite lookup_resize by lia. done. }
    split; [| repeat split; simpl; rewrite ?L; try assumption; lia].
    split; simpl; rewrite ?L; unfold INITIAL_SLOTS; try lia.
    + intros i Hi. apply K, W5. lia.
    + intros i Hi. apply lookup_resize_new; lia.
  - split; [by split |]. repeat split; try done. lia.
Qed.

Lemma install_general_spec ct s :
  table_wf ct ->
  if decide (ct.(next_general) = MAX_SLOTS)
  then install_general ct s = Some (Err CapTableFull, ct)
  else exists ct',
    install_general ct s = Some (Ok (Z.of_nat ct.(next_general)), ct') /\
    table_wf ct' /\ installed ct ct' ct.(next_general) s /\
    ct'.(next_general) = S ct.(next_general) /\ ct'.(next_bootstrap) = ct.(next_bootstrap).
Proof.
  intros W. pose proof (grow_spec ct W) as G. unfold install_general.
  destruct (grow ct) as [ct1 | e] eqn:E.
  - destruct G as ([V1 V2 V3 V4 V5 V6] & L & N & B & Len & Old).
    pose proof MAX_SLOTS_val. rewrite decide_False by lia.
    rewrite vec_set_Some by lia. simpl. eexists. split; [| split; [| split; [| split]]].
    + rewrite N, wrap_small; [reflexivity |]. unfold is_u. lia.
    + split; simpl; rewrite ?length_insert; try assumption; try lia;
        intros i Hi; rewrite list_lookup_insert_ne by lia; [apply V5 | apply V6]; lia.
    + rewrite <- N. split; [| split]; simpl.
      * by apply list_lookup_insert_eq.
      * rewrite length_insert. lia.
      * intros j e Hj He. rewrite list_lookup_insert_ne by done. by apply Old.
    + simpl. lia.
    + done.
  - destruct G as [-> ->]. by rewrite decide_True.
Qed.

Lemma install_bootstrap_spec {T R} t ct (cap : Cap T R) :
  table_wf ct -> check_live t cap = Ok tt -> cap.(slot).(type_tag) = kind_u32 T ->
  if decide (ct.(next_bootstrap) = RESERVED_SLOTS)
  then install_bootstrap t ct cap = Some (Err CapTableFull, ct)
  else exists ct',
    install_bootstrap t ct cap = Some (Ok (Z.of_nat ct.(next_bootstrap)), ct') /\
    table_wf ct' /\ installed ct ct' ct.(next_bootstrap) cap.(slot) /\
    ct'.(next_bootstrap) = S ct.(next_bootstrap) /\ ct'.(next_general) = ct.(next_general).
Proof.
  intros [V1 V2 V3 V4 V5 V6] L K. unfold install_bootstrap. rewrite L, K, Z.eqb_refl. simpl.
  unfold INITIAL_SLOTS, RESERVED_SLOTS in *. case_decide as F.
  - rewrite decide_True by lia. done.
  - rewrite decide_False by lia. rewrite vec_set_Some by lia. simpl.
    eexists. split; [| split; [| split; [| split]]].
    + rewrite wrap_small; [reflexivity |]. unfold is_u. lia.
    + split; simpl; rewrite ?length_insert; try assumption; unfold RESERVED_SLOTS; try lia;
        intros i Hi; rewrite list_lookup_insert_ne by lia; [apply V5 | apply V6]; lia.
    + split; [| split]; simpl.
      * apply list_lookup_insert_eq. lia.
      * rewrite length_insert. lia.
      * intros j e Hj He. by rewrite list_lookup_insert_ne.
    + simpl. lia.
    + done.
Qed.

Lemma lookup_slot_Ok t ct p e :
  lookup_slot t ct p = Ok e <->
  ct.(slots) !! Z.to_nat p.(index) = Some e /\ is_empty e = false /\
  p.(type_tag) = e.(type_tag) /\ p.(generation) = e.(generation) /\
  current_epoch t e.(index) = Some e.(generation) /\
  Z.land p.(rights) (wnot 32 e.(rights)) = 0.
Proof.
  unfold lookup_slot. destruct (slots ct !! _) as [en |]; simpl; [| intuition congruence].
  destruct (is_empty en) eqn:Em; [intuition congruence |].
  destruct (Z.eqb_spec p.(type_tag) en.(type_tag)); simpl; [| intuition congruence].
  destruct (Z.eqb_spec p.(generation) en.(generation)); simpl; [| intuition congruence].
  destruct (current_epoch t en.(index)) as [ep |] eqn:Ep; [| intuition congruence].
  destruct (Z.eqb_spec ep en.(generation)); simpl; [| intuition congruence].
  destruct (Z.eqb_spec (Z.land p.(rights) (wnot 32 en.(rights))) 0); simpl; intuition congruence.
Qed.

(** The rights test of [lookup] is bit inclusion. *)
Lemma rights_subset p e :
  is_u 32 p -> Z.land p (wnot 32 e) = 0 <->
  forall i, 0 <= i -> Z.testbit p i = true -> Z.testbit e i = true.
Proof.
  intros Hp. split.
  - intros H i Hi Pi. apply (f_equal (fun z => Z.testbit z i)) in H.
    rewrite Z.land_spec, testbit_wnot, Z.bits_0, Pi in H by lia.
    destruct (Z.ltb_spec i 32); simpl in H; [by destruct (Z.testbit e i) |].
    rewrite (testbit_high 32 p i) in Pi by (auto; lia). discriminate.
  - intros H. apply Z.bits_inj'. intros i Hi.
    rewrite Z.land_spec, testbit_wnot, Z.bits_0 by lia. specialize (H i Hi).
    destruct (Z.testbit p i); simpl; [rewrite H by done; simpl; btauto | done].
Qed.

(** What an install into the general region may do to a table: refuse and
    leave it alone, or write one fresh position. *)
Definition install_post (ct : CapTable) (s : CapSlot) (out : option (Result Z CapError * CapTable))
    : Prop :=
  exists r ct', out = Some (r, ct') /\ table_wf ct' /\
    match r with
    | Err err => ct' = ct /\ (err = CapTableFull -> ct.(next_general) = MAX_SLOTS)
    | Ok n => exists i : nat, n = Z.of_nat i /\ i = ct.(next_general) /\
        (RESERVED_SLOTS <= i < MAX_SLOTS)%nat /\
        ct.(slots) !! i ∈ [None; Some EMPTY] /\ installed ct ct' i s
    end.

Lemma install_refused ct s err :
  table_wf ct -> err <> CapTableFull -> install_post ct s (Some (Err err, ct)).
Proof. intros W N. exists (Err err), ct. split; [done |]. split; [done |]. by split. Qed.

Lemma install_general_post ct s : table_wf ct -> install_post ct s (install_general ct s).
Proof.
  intros W. pose proof (install_general_spec ct s W) as I. case_decide as D.
  - exists (Err CapTableFull), ct. auto.
  - destruct I as (ct' & I & W' & Ins & _). do 2 eexists. split; [exact I |]. split; [exact W' |].
    exists (next_general ct). split; [done |]. split; [done |].
    destruct W. split; [lia |]. split; [| exact Ins]. apply list_elem_of_In. simpl.
    destruct (decide (next_general ct < length (slots ct))%nat).
    + right; left. symmetry. auto with lia.
    + left. symmetry. apply lookup_ge_None_2. lia.
Qed.

(** * Properties *)

(** table installs.  On a well-formed table neither a Grant-gated
    [transfer] nor the ABI's [install_transfer] can panic: each either
    refuses and leaves the table untouched, or writes the capability at a
    position of the general region that was never used, returns that
    position, keeps every other entry and keeps the table well formed.
    [CapTableFull] is returned only when all 131072 slots are used. *)
Lemma transfer_installs_fresh_slot {T R} (t : table) (grant : Cap T Grant) (cap : Cap T R)
    (g e : CapSlot) (target : CapTable) :
  table_wf target ->
  install_post target cap.(slot) (transfer t grant cap target) /\
  install_post target e (install_transfer target g e).
Proof.
  intros W. pose proof (fun s => install_general_post target s W) as G. split.
  - unfold transfer. destruct (check_live_cases t grant) as [-> | ->]; [| by apply install_refused].
    destruct (check_live_cases t cap) as [-> | ->]; [| by apply install_refused].
    destruct (negb _); [by apply install_refused |].
    destruct (negb _); [by apply install_refused | apply G].
  - unfold install_transfer. destruct (_ =? 0); [by apply install_refused |].
    destruct (negb _); [by apply install_refused |].
    destruct (negb _); [by apply install_refused | apply G].
Qed.

Example transfer_installs_fresh_slot_witness :
  let '(c, t) := bootstrap Task Grant [] in
  install_post new c.(slot) (transfer t c c new) /\
  install_post new c.(slot) (install_transfer new c.(slot) c.(slot)).
Proof.
  refine (transfer_installs_fresh_slot (snd (bootstrap Task Grant []))
    (fst (bootstrap Task Grant [])) (fst (bootstrap Task Grant []))
    (slot (fst (bootstrap Task Grant []))) (slot (fst (bootstrap Task Grant []))) new new_wf).
Defined.

Lemma kind_u32_nonzero k : kind_u32 k <> 0.
Proof. by destruct k. Qed.

Lemma is_empty_tag s : s.(type_tag) <> 0 -> is_empty s = false.
Proof.
  intros H. unfold is_empty. apply Z.eqb_neq in H. rewrite H. by rewrite !andb_false_r.
Qed.

(** What a successful [transfer] has checked and done. *)
Lemma transfer_Ok {T R} t (grant : Cap T Grant) (cap : Cap T R) target n target' :
  transfer t grant cap target = Some (Ok n, target') ->
  check_live t grant = Ok tt /\ check_live t cap = Ok tt /\
  grant.(slot).(index) = cap.(slot).(index) /\ cap.(slot).(type_tag) = kind_u32 T /\
  install_general target cap.(slot) = Some (Ok n, target').
Proof.
  unfold transfer. destruct (check_live_cases t grant) as [-> | ->]; [| congruence].
  destruct (check_live_cases t cap) as [-> | ->]; [| congruence].
  destruct (Z.eqb_spec grant.(slot).(index) cap.(slot).(index)); simpl; [| congruence].
  destruct (Z.eqb_spec cap.(slot).(type_tag) (kind_u32 T)); simpl; [| congruence]. auto.
Qed.

(** a transferred capability is usable by its receiver, and no further.
    After a successful [transfer] returned slot number [n], presenting [n]
    with the capability's generation and tag and with rights [p] resolves to
    the transferred slot when [p] is within the transferred rights, and is
    refused with [RightsTooWeak] otherwise. *)
Lemma transfer_then_lookup {T R} (t : table) (grant : Cap T Grant) (cap : Cap T R)
    (target target' : CapTable) (n p : Z) :
  table_wf target -> is_u 32 p ->
  transfer t grant cap target = Some (Ok n, target') ->
  let presented := mk_slot cap.(slot).(generation) n p cap.(slot).(type_tag) in
  lookup_slot t target' presented =
    if decide (Z.land p (wnot 32 cap.(slot).(rights)) = 0) then Ok cap.(slot)
    else Err RightsTooWeak.
Proof.
  intros W Hp (_ & L & _ & K & I)%transfer_Ok presented.
  destruct (install_general_post target cap.(slot) W) as (r & ct' & I' & _ & Post).
  rewrite I in I'. injection I' as <- <-. destruct Post as (i & -> & _ & _ & _ & At & _).
  apply check_live_iff in L. unfold lookup_slot, presented. simpl. rewrite Nat2Z.id, At. simpl.
  rewrite is_empty_tag by (rewrite K; apply kind_u32_nonzero).
  rewrite Z.eqb_refl. simpl. rewrite Z.eqb_refl. simpl. rewrite L, Z.eqb_refl.
  destruct (Z.eqb_spec (Z.land p (wnot 32 (rights (slot cap)))) 0); simpl;
    [rewrite decide_True | rewrite decide_False]; auto.
Qed.

Example transfer_then_lookup_witness :
  let '(c, t) := bootstrap Task Grant [] in
  exists n ct', transfer t c c new = Some (Ok n, ct') /\
    lookup_slot t ct' (mk_slot 1 n (BITS Grant) (kind_u32 Task)) = Ok c.(slot) /\
    lookup_slot t ct' (mk_slot 1 n (BITS Create) (kind_u32 Task)) = Err RightsTooWeak.
Proof.
  set (c := fst (bootstrap Task Grant [])). set (t := snd (bootstrap Task Grant [])).
  assert (H : exists ct', transfer t c c new = Some (Ok 16, ct')) by (eexists; reflexivity).
  destruct H as [ct' H]. exists 16, ct'. split; [exact H | split].
  - refine (eq_trans (transfer_then_lookup t c c new ct' 16 (BITS Grant) new_wf _ H) _);
      [unfold is_u; simpl; lia | reflexivity].
  - refine (eq_trans (transfer_then_lookup t c c new ct' 16 (BITS Create) new_wf _ H) _);
      [unfold is_u; simpl; lia | reflexivity].
Defined.

(** Revocation reaches every table.  An entry that dispatch would
    resolve stops resolving, with [Revoked], as soon as any capability to the
    same object is revoked; presented slots whose entry names another object
    are not affected. *)
Lemma revoke_invalidates_table_entries {T R} (t : table) (c : Cap T R) (ct : CapTable) :
  table_u32 t -> 0 <= c.(slot).(index) ->
  forall p e, lookup_slot t ct p = Ok e -> 0 <= e.(index) ->
    lookup_slot (revoke t c) ct p =
      if decide (e.(index) = c.(slot).(index)) then Err Revoked else Ok e.
Proof.
  intros Ht Hc p e (A & Em & Ty & G & L & Ri)%lookup_slot_Ok He.
  unfold lookup_slot, revoke. rewrite A. simpl. rewrite Em, Ty, Z.eqb_refl, G, Z.eqb_refl. simpl.
  rewrite current_epoch_bump by auto. case_decide as D; rewrite L; simpl.
  - rewrite (proj2 (Z.eqb_neq _ _)); [done |]. apply u32_succ_ne.
    exact (current_epoch_u32 _ _ _ Ht L).
  - rewrite Z.eqb_refl, Ri. done.
Qed.
