(* ===== verification/CapSystem.v ===== *)
(** The capability system as a transition system.

    The state is the object table, the capabilities held by kernel code and
    the per-task tables; the steps are the public entry points of
    [capabilities/src/lib.rs].  The invariant is that every slot anywhere in
    the system is authentic, and the theorems are the system-wide promises:
    no check of [invoke] but the epoch check can fail for a capability
    obtained through the API, rights never grow, and revocation is
    permanent as long as the 32-bit epoch does not wrap. *)

From stdpp Require Import gmap relations.
From S2P Require Import Prelude Word CapKind Capability CapTable.
Import object_table.

(** A capability value with its type parameters. *)
Record held : Type := mk_held { h_kind : CapKind; h_right : Rights; h_slot : CapSlot }.

Definition held_of {T R} (c : Cap T R) : held := mk_held T R c.(slot).

Definition cap_of (h : held) : Cap h.(h_kind) h.(h_right) := mint h.(h_slot).

Record sys : Type := mk_sys {
  objs : table;
  caps : list held;
  tables : gmap Z CapTable
}.

(** Steps that create an object: the two mints.  [register] truncates the
    length of the table to 32 bits, so the object count is bounded here. *)
Inductive mint_step : sys -> sys -> Prop :=
| step_bootstrap s T R :
    Z.of_nat (length s.(objs)) < 2 ^ 32 ->
    mint_step s
      (let '(c, t') := bootstrap T R s.(objs) in
       mk_sys t' (held_of c :: s.(caps)) s.(tables))
| step_bootstrap_with s T R C (creator : Cap C Create) c t' :
    Z.of_nat (length s.(objs)) < 2 ^ 32 ->
    held_of creator ∈ s.(caps) ->
    bootstrap_with T R s.(objs) creator = (Ok c, t') ->
    mint_step s (mk_sys t' (held_of c :: s.(caps)) s.(tables)).

(** Steps that only move or weaken authority that already exists. *)
Inductive use_step : sys -> sys -> Prop :=
| step_derive s T R (c : Cap T R) R2 (H : SubsetOf R R2) c2 :
    held_of c ∈ s.(caps) ->
    derive R2 s.(objs) c = Ok c2 ->
    use_step s (mk_sys s.(objs) (held_of c2 :: s.(caps)) s.(tables))
| step_revoke s T R (c : Cap T R) :
    held_of c ∈ s.(caps) ->
    use_step s (mk_sys (revoke s.(objs) c) s.(caps) s.(tables))
| step_new_task s task :
    s.(tables) !! task = None ->
    use_step s (mk_sys s.(objs) s.(caps) (<[task := new]> s.(tables)))
| step_install_bootstrap s task ct ct' r T R (c : Cap T R) :
    held_of c ∈ s.(caps) -> s.(tables) !! task = Some ct ->
    install_bootstrap s.(objs) ct c = Some (r, ct') ->
    use_step s (mk_sys s.(objs) s.(caps) (<[task := ct']> s.(tables)))
| step_transfer s task ct ct' r T R (g : Cap T Grant) (c : Cap T R) :
    held_of g ∈ s.(caps) -> held_of c ∈ s.(caps) -> s.(tables) !! task = Some ct ->
    transfer s.(objs) g c ct = Some (r, ct') ->
    use_step s (mk_sys s.(objs) s.(caps) (<[task := ct']> s.(tables)))
| step_abi_transfer s from ct_from to ct ct' r p_grant p_cap g c :
    s.(tables) !! from = Some ct_from -> s.(tables) !! to = Some ct ->
    lookup_slot s.(objs) ct_from p_grant = Ok g ->
    lookup_slot s.(objs) ct_from p_cap = Ok c ->
    install_transfer ct g c = Some (r, ct') ->
    use_step s (mk_sys s.(objs) s.(caps) (<[to := ct']> s.(tables))).

Definition step (s s' : sys) : Prop := mint_step s s' \/ use_step s s'.

Definition init : sys := mk_sys [] [] ∅.

(** * The invariant *)

(** A slot the kernel minted: it names a registered object of its kind, with
    the rights of [R] and the generation every object starts with. *)
Record authentic (t : table) (T : CapKind) (R : Rights) (s : CapSlot) : Prop := {
  auth_gen : s.(generation) = 1;
  auth_index : 0 <= s.(index) < Z.of_nat (length t);
  auth_kind : kind_at t s.(index) = Some T;
  auth_rights : s.(rights) = BITS R;
  auth_tag : s.(type_tag) = kind_u32 T
}.

Definition entry_ok (t : table) (s : CapSlot) : Prop :=
  s = EMPTY \/ exists T R, authentic t T R s.

Record sys_inv (s : sys) : Prop := {
  inv_epochs : table_u32 s.(objs);
  inv_caps : Forall (fun h => authentic s.(objs) h.(h_kind) h.(h_right) h.(h_slot)) s.(caps);
  inv_wf : map_Forall (fun _ ct => table_wf ct) s.(tables);
  inv_entries : map_Forall (fun _ ct => Forall (entry_ok s.(objs)) ct.(slots)) s.(tables)
}.

(** Object tables only grow, and objects keep their kind. *)
Definition kinds_le (t t' : table) : Prop :=
  forall i : nat, forall e, t !! i = Some e -> exists e', t' !! i = Some e' /\ e'.(kind) = e.(kind).

Lemma kinds_le_register t k : kinds_le t (snd (register t k)).
Proof.
  intros i e E. exists e. split; [| done]. rewrite lookup_register, decide_False; [done |].
  apply lookup_lt_Some in E. lia.
Qed.

Lemma kinds_le_bump t i : kinds_le t (snd (bump_epoch t i)).
Proof. intros j e E. rewrite lookup_bump, E. case_decide; eexists; by split. Qed.

Lemma kinds_le_length t t' : kinds_le t t' -> (length t <= length t')%nat.
Proof.
  intros H. destruct (decide (length t <= length t')%nat) as [| N]; [done |].
  destruct (lookup_lt_is_Some_2 t (length t')) as [e E]; [lia |].
  destruct (H _ _ E) as (e' & E' & _). apply lookup_lt_Some in E'. lia.
Qed.

Lemma authentic_mono t t' T R s : kinds_le t t' -> authentic t T R s -> authentic t' T R s.
Proof.
  intros K [G I Kd Ri Ta]. split; auto.
  - pose proof (kinds_le_length _ _ K). lia.
  - unfold kind_at in *. apply fmap_Some in Kd as (e & E & ->).
    destruct (K _ _ E) as (e' & E' & Kd). by rewrite E', <- Kd.
Qed.

Lemma entry_ok_mono t t' s : kinds_le t t' -> entry_ok t s -> entry_ok t' s.
Proof. intros K [-> | (T & R & A)]; [by left | right; eauto using authentic_mono]. Qed.

(** The invariant survives a growth of the object table. *)
Lemma inv_grow s t' cs :
  sys_inv s -> kinds_le s.(objs) t' -> table_u32 t' ->
  Forall (fun h => authentic t' h.(h_kind) h.(h_right) h.(h_slot)) cs ->
  sys_inv (mk_sys t' (cs ++ s.(caps)) s.(tables)).
Proof.
  intros [E C W En] K U N. split; simpl; auto.
  - apply Forall_app. split; [done |]. eapply Forall_impl; [exact C |].
    intros h. by apply authentic_mono.
  - intros task ct Hct. eapply Forall_impl; [exact (En _ _ Hct) |].
    intros x. by apply entry_ok_mono.
Qed.

Lemma inv_set_table s task ct :
  sys_inv s -> table_wf ct -> Forall (entry_ok s.(objs)) ct.(slots) ->
  sys_inv (mk_sys s.(objs) s.(caps) (<[task := ct]> s.(tables))).
Proof. intros [E C W En] Hw He. split; simpl; auto; by apply map_Forall_insert_2. Qed.

Lemma bootstrap_authentic T R t :
  Z.of_nat (length t) < 2 ^ 32 ->
  authentic (snd (bootstrap T R t)) T R (slot (fst (bootstrap T R t))).
Proof.
  intros L. simpl. rewrite wrap_small by (unfold is_u; lia). split; simpl; auto.
  - rewrite length_app. simpl. lia.
  - unfold kind_at. rewrite Nat2Z.id, lookup_app_r, Nat.sub_diag by lia. done.
Qed.

Lemma bootstrap_with_Ok {C} T R t (creator : Cap C Create) c t' :
  bootstrap_with T R t creator = (Ok c, t') ->
  check_live t creator = Ok tt /\ creator.(slot).(type_tag) = kind_u32 Task /\
  Z.land creator.(slot).(rights) (BITS Create) <> 0 /\ bootstrap T R t = (c, t').
Proof.
  unfold bootstrap_with. destruct (check_live_cases t creator) as [L | L]; rewrite L;
    [| by intros [=]].
  destruct (Z.eqb_spec (type_tag (slot creator)) (kind_u32 Task)); cbn [negb];
    [| by intros [=]].
  destruct (Z.eqb_spec (Z.land (rights (slot creator)) (BITS Create)) 0); [by intros [=] |].
  intros E. by simplify_eq/=.
Qed.

Lemma derive_Ok {T R} R2 (H : SubsetOf R R2) t (c : Cap T R) c2 :
  derive R2 t c = Ok c2 ->
  check_live t c = Ok tt /\
  c2.(slot) = mk_slot c.(slot).(generation) c.(slot).(index) (BITS R2) c.(slot).(type_tag).
Proof.
  unfold derive. destruct (check_live_cases t c) as [-> | ->]; [| congruence].
  intros E. by simplify_eq/=.
Qed.

Lemma held_authentic {T R} s (c : Cap T R) :
  sys_inv s -> held_of c ∈ s.(caps) -> authentic s.(objs) T R c.(slot).
Proof. intros I H. exact (proj1 (Forall_forall _ _) (inv_caps s I) _ H). Qed.

(** A table entry that changed was installed from [s]. *)
Lemma installed_entries (P : CapSlot -> Prop) ct ct' i s :
  P EMPTY -> P s -> installed ct ct' i s -> table_wf ct' ->
  (forall j, (length ct.(slots) <= j < length ct'.(slots))%nat -> j <> i ->
     ct'.(slots) !! j = Some EMPTY) ->
  Forall P ct.(slots) -> Forall P ct'.(slots).
Proof.
  intros P0 Ps (At & _ & Old) _ New F. apply Forall_lookup_2. intros j e E.
  destruct (decide (j = i)) as [-> | N]; [by simplify_eq |].
  destruct (decide (j < length (slots ct))%nat) as [L | L].
  - destruct (lookup_lt_is_Some_2 _ _ L) as [e0 E0]. rewrite (Old _ _ N E0) in E.
    simplify_eq. exact (Forall_lookup_1 _ _ _ _ F E0).
  - rewrite New in E; [by simplify_eq | | done]. apply lookup_lt_Some in E. lia.
Qed.

(** Every install, successful or not, leaves only entries that were there,
    empty slots and the installed capability. *)
Lemma install_general_entries (P : CapSlot -> Prop) ct s r ct' :
  table_wf ct -> P EMPTY -> (forall n, r = Ok n -> P s) -> Forall P ct.(slots) ->
  install_general ct s = Some (r, ct') -> Forall P ct'.(slots).
Proof.
  intros W P0 Ps F I. pose proof (install_general_spec ct s W) as Sp. case_decide as D.
  - rewrite Sp in I. by simplify_eq.
  - destruct Sp as (c' & I' & W' & Ins & N & _). rewrite I' in I. simplify_eq.
    eapply installed_entries; [exact P0 | by eapply Ps | exact Ins | exact W' | | exact F].
    intros j Hj Hne. apply (wf_general_empty _ W'). destruct W. lia.
Qed.

Lemma install_bootstrap_entries (P : CapSlot -> Prop) {T R} t ct (c : Cap T R) r ct' :
  table_wf ct -> P EMPTY -> P c.(slot) -> Forall P ct.(slots) ->
  install_bootstrap t ct c = Some (r, ct') -> table_wf ct' /\ Forall P ct'.(slots).
Proof.
  intros W P0 Ps F I.
  destruct (check_live_cases t c) as [L | L];
    [| unfold install_bootstrap in I; rewrite L in I; by simplify_eq].
  destruct (decide (c.(slot).(type_tag) = kind_u32 T)) as [K | K].
  - pose proof (install_bootstrap_spec t ct c W L K) as Sp. case_decide as D.
    + rewrite Sp in I. by simplify_eq.
    + destruct Sp as (c' & I' & W' & Ins & _ & G). rewrite I' in I. simplify_eq.
      split; [done |]. eapply installed_entries; eauto. intros j Hj Hne.
      apply (wf_general_empty _ W'). rewrite G. destruct W. lia.
  - unfold install_bootstrap in I. rewrite L, (proj2 (Z.eqb_neq _ _) K) in I. by simplify_eq/=.
Qed.

Lemma install_general_wf ct s r ct' :
  table_wf ct -> install_general ct s = Some (r, ct') -> table_wf ct'.
Proof.
  intros W I. destruct (install_general_post ct s W) as (r0 & c0 & E & W0 & _).
  rewrite I in E. by simplify_eq.
Qed.

(** The two transfers end in the same install or change nothing. *)
Lemma transfer_cases {T R} t (g : Cap T Grant) (c : Cap T R) ct r ct' :
  transfer t g c ct = Some (r, ct') -> ct' = ct \/ install_general ct c.(slot) = Some (r, ct').
Proof.
  unfold transfer. destruct (check_live t g); [| left; by simplify_eq].
  destruct (check_live t c); [| left; by simplify_eq].
  destruct (negb _); [left; by simplify_eq |]. destruct (negb _); [left; by simplify_eq | by right].
Qed.

Lemma install_transfer_cases ct g c r ct' :
  install_transfer ct g c = Some (r, ct') -> ct' = ct \/ install_general ct c = Some (r, ct').
Proof.
  unfold install_transfer. destruct (_ =? 0); [left; by simplify_eq |].
  destruct (negb _); [left; by simplify_eq |]. destruct (negb _); [left; by simplify_eq | by right].
Qed.

Lemma mint_step_inv s s' : sys_inv s -> mint_step s s' -> sys_inv s'.
Proof.
  assert (B : forall s T R, Z.of_nat (length s.(objs)) < 2 ^ 32 -> sys_inv s ->
    sys_inv (mk_sys (snd (bootstrap T R s.(objs)))
               (held_of (fst (bootstrap T R s.(objs))) :: s.(caps)) s.(tables))).
  { intros s0 T R L I. apply (inv_grow s0 _ [_] I).
    - apply (kinds_le_register s0.(objs) T).
    - apply (register_u32 s0.(objs) T), I.
    - constructor; [by apply bootstrap_authentic | constructor]. }
  intros I St. revert I.
  destruct St as [s0 T R L | s0 T R C creator c t' L H E]; intros I.
  - exact (B s0 T R L I).
  - apply bootstrap_with_Ok in E as (_ & _ & _ & E). pose proof (B s0 T R L I) as X.
    rewrite E in X. exact X.
Qed.

Lemma use_step_inv s s' : sys_inv s -> use_step s s' -> sys_inv s'.
Proof.
  intros I St. revert I.
  destruct St as [s0 T R c R2 H c2 Hc D | s0 T R c Hc | s0 task N
    | s0 task ct ct' r T R c Hc Ht In | s0 task ct ct' r T R g c Hg Hc Ht Tr
    | s0 from cf to ct ct' r pg pc g c Hf Ht Lg Lc In]; intros I.
  - apply derive_Ok in D as [_ D]. apply (inv_grow s0 _ [_] I).
    + intros i e E. by exists e.
    + apply I.
    + constructor; [| constructor]. simpl. rewrite D.
      destruct (held_authentic _ _ I Hc). by split.
  - apply (inv_grow s0 _ [] I); [apply kinds_le_bump | apply bump_u32, I | constructor].
  - apply inv_set_table; [done | apply new_wf |]. apply Forall_replicate. by left.
  - pose proof (inv_wf _ I _ _ Ht) as W. pose proof (inv_entries _ I _ _ Ht) as En.
    destruct (install_bootstrap_entries (entry_ok s0.(objs)) s0.(objs) ct c r ct' W)
      as [W' F]; auto; [by left | right; eauto using held_authentic |]. by apply inv_set_table.
  - pose proof (inv_wf _ I _ _ Ht) as W. pose proof (inv_entries _ I _ _ Ht) as En.
    destruct (transfer_cases _ _ _ _ _ _ Tr) as [-> | G]; [by apply inv_set_table |].
    apply inv_set_table; [done | by eapply install_general_wf |].
    eapply install_general_entries; eauto; [by left | right; eauto using held_authentic].
  - pose proof (inv_wf _ I _ _ Ht) as W. pose proof (inv_entries _ I _ _ Ht) as En.
    destruct (install_transfer_cases _ _ _ _ _ In) as [-> | G]; [by apply inv_set_table |].
    apply inv_set_table; [done | by eapply install_general_wf |].
    eapply install_general_entries; eauto; [by left |]. intros _ _.
    apply lookup_slot_Ok in Lc as (A & _).
    exact (Forall_lookup_1 _ _ _ _ (inv_entries _ I _ _ Hf) A).
Qed.

Lemma init_inv : sys_inv init.
Proof. split; simpl; try apply map_Forall_empty; constructor. Qed.

Lemma reachable_inv s : rtc step init s -> sys_inv s.
Proof.
  intros H. revert H. apply (rtc_ind_r (fun s => sys_inv s)); [exact init_inv |].
  intros x y _ [M | U] I; eauto using mint_step_inv, use_step_inv.
Qed.

(** * Rights never grow *)

(** Where the authority in a later state came from: a capability [h] of the
    earlier state over the same object whose right covers it. *)
Definition derived_from (s : sys) (i : Z) (R : Rights) : Prop :=
  exists h, h ∈ s.(caps) /\ h.(h_slot).(index) = i /\ SubsetOf h.(h_right) R.

Definition entry_from (s : sys) (e : CapSlot) : Prop :=
  e = EMPTY \/
  (exists task ct, s.(tables) !! task = Some ct /\ e ∈ ct.(slots)) \/
  (exists R, e.(rights) = BITS R /\ derived_from s e.(index) R).

Record no_gain (s s' : sys) : Prop := {
  ng_caps : forall h, h ∈ s'.(caps) -> derived_from s h.(h_slot).(index) h.(h_right);
  ng_entries : map_Forall (fun _ ct => Forall (entry_from s) ct.(slots)) s'.(tables)
}.

Lemma no_gain_refl s : no_gain s s.
Proof.
  split.
  - intros h H. by exists h.
  - intros task ct E. apply Forall_forall. intros e He. right; left. eauto.
Qed.

Lemma derived_from_trans s s' i R :
  no_gain s s' -> derived_from s' i R -> derived_from s i R.
Proof.
  intros N (h & Hh & <- & Sub). destruct (ng_caps _ _ N _ Hh) as (h0 & H0 & E & Sub0).
  exists h0. split; [done |]. split; [done |]. by transitivity (h_right h).
Qed.

Lemma held_derived {T R} s (c : Cap T R) :
  held_of c ∈ s.(caps) -> derived_from s c.(slot).(index) R.
Proof. intros H. by exists (held_of c). Qed.

Lemma entry_from_held {T R} s0 s (c : Cap T R) :
  sys_inv s -> no_gain s0 s -> held_of c ∈ s.(caps) -> entry_from s0 c.(slot).
Proof.
  intros I N H. right; right. exists R. split.
  - apply (auth_rights _ _ _ _ (held_authentic s c I H)).
  - eapply derived_from_trans; [done |]. by apply held_derived.
Qed.

Lemma no_gain_set_table s0 s task ct :
  no_gain s0 s -> Forall (entry_from s0) ct.(slots) ->
  no_gain s0 (mk_sys s.(objs) s.(caps) (<[task := ct]> s.(tables))).
Proof. intros [C E] F. split; simpl; [done | by apply map_Forall_insert_2]. Qed.

Lemma use_step_no_gain s0 s s' : sys_inv s -> no_gain s0 s -> use_step s s' -> no_gain s0 s'.
Proof.
  intros I N St. revert I N.
  destruct St as [s T R c R2 H c2 Hc D | s T R c Hc | s task Nt
    | s task ct ct' r T R c Hc Ht In | s task ct ct' r T R g c Hg Hc Ht Tr
    | s from cf to ct ct' r pg pc g c Hf Ht Lg Lc In]; intros I N.
  - apply derive_Ok in D as [_ D]. split; [| apply N]. simpl. intros h [-> | Hh]%elem_of_cons.
    + simpl. rewrite D. simpl. eapply derived_from_trans; [done |].
      exists (held_of c). done.
    + by apply (ng_caps _ _ N).
  - split; apply N.
  - apply no_gain_set_table; [done |]. apply Forall_replicate. by left.
  - pose proof (ng_entries _ _ N _ _ Ht) as En. pose proof (inv_wf _ I _ _ Ht) as W.
    apply no_gain_set_table; [done |].
    eapply install_bootstrap_entries; eauto; [by left | by eapply entry_from_held].
  - pose proof (ng_entries _ _ N _ _ Ht) as En. pose proof (inv_wf _ I _ _ Ht) as W.
    destruct (transfer_cases _ _ _ _ _ _ Tr) as [-> | G]; [by apply no_gain_set_table |].
    apply no_gain_set_table; [done |].
    eapply install_general_entries; eauto; [by left | by intros; eapply entry_from_held].
  - pose proof (ng_entries _ _ N _ _ Ht) as En. pose proof (inv_wf _ I _ _ Ht) as W.
    destruct (install_transfer_cases _ _ _ _ _ In) as [-> | G]; [by apply no_gain_set_table |].
    apply no_gain_set_table; [done |].
    eapply install_general_entries; eauto; [by left |]. intros _ _.
    apply lookup_slot_Ok in Lc as (A & _).
    exact (Forall_lookup_1 _ _ _ _ (ng_entries _ _ N _ _ Hf) A).
Qed.

(** * Epochs along a run *)

Lemma step_epoch s s' i e :
  sys_inv s -> step s s' -> 0 <= i -> current_epoch s.(objs) i = Some e ->
  current_epoch s'.(objs) i ∈ [Some e; Some (u32 (e + 1))].
Proof.
  intros I St Hi E. apply list_elem_of_In.
  assert (Reg : forall k, current_epoch (snd (register s.(objs) k)) i = Some e).
  { intros k. unfold current_epoch in *. apply fmap_Some in E as (en & E & ->).
    rewrite lookup_register, decide_False, E; [done |]. apply lookup_lt_Some in E. lia. }
  destruct St as [M | U].
  - left. destruct M as [s T R L | s T R C creator c t' L H B]; simpl.
    + symmetry. apply (Reg T).
    + apply bootstrap_with_Ok in B as (_ & _ & _ & B).
      pose proof (Reg T) as X. change (snd (register s.(objs) T)) with (snd (bootstrap T R s.(objs))) in X.
      rewrite B in X. done.
  - destruct U; simpl; auto.
    assert (0 <= index (slot c)).
    { pose proof (auth_index _ _ _ _ (held_authentic s c I H)). lia. }
    unfold revoke. rewrite current_epoch_bump by done. case_decide as D; [| auto].
    rewrite E. simpl. auto.
Qed.

Lemma step_inv s s' : sys_inv s -> step s s' -> sys_inv s'.
Proof. intros I [M | U]; eauto using mint_step_inv, use_step_inv. Qed.

Lemma nsteps_epoch n s s' i e :
  sys_inv s -> nsteps step n s s' -> 0 <= i -> current_epoch s.(objs) i = Some e ->
  1 < e -> e + Z.of_nat n < 2 ^ 32 ->
  sys_inv s' /\ exists e', current_epoch s'.(objs) i = Some e' /\ 1 < e' <= e + Z.of_nat n.
Proof.
  intros I St Hi. revert e I. induction St as [s | n s s1 s' St1 St IH]; intros e I E L B.
  - split; [done |]. exists e. split; [done | lia].
  - pose proof (step_epoch _ _ _ _ I St1 Hi E) as X. apply list_elem_of_In in X.
    pose proof (step_inv _ _ I St1) as I1. destruct X as [X | [X | []]].
    + destruct (IH e I1) as (I' & e' & E' & B'); [done | lia | lia |].
      split; [done |]. exists e'. split; [done | lia].
    + rewrite wrap_small in X by (unfold is_u; lia).
      destruct (IH (e + 1) I1) as (I' & e' & E' & B'); [done | lia | lia |].
      split; [done |]. exists e'. split; [done | lia].
Qed.

(** * A concrete run, for the witnesses *)

Definition demo_cap : Cap Task Grant := fst (bootstrap Task Grant []).

Definition demo : sys :=
  mk_sys (snd (bootstrap Task Grant [])) [held_of demo_cap] ∅.

Definition demo_revoked : sys := mk_sys (revoke demo.(objs) demo_cap) demo.(caps) ∅.

Lemma demo_reachable : rtc step init demo.
Proof. eapply rtc_l; [left; exact (step_bootstrap init Task Grant eq_refl) | apply rtc_refl]. Qed.

Lemma demo_held : held_of demo_cap ∈ demo.(caps).
Proof. left. Qed.

(** * Properties *)

(** Authenticity.  In every reachable state, each capability held by the
    kernel and each non-empty entry of each task table names a registered
    object of the kind its tag claims, carries exactly the bits of one
    right, and every table is well formed. *)
Lemma reachable_slots_authentic (s : sys) : rtc step init s -> sys_inv s.
Proof. apply reachable_inv. Qed.

Example reachable_slots_authentic_witness : sys_inv demo.
Proof. exact (reachable_slots_authentic demo demo_reachable). Defined.

(** [invoke] on a capability obtained through the API runs the operation
    exactly when the capability is live, and otherwise reports [Revoked]:
    the kind, tag and rights checks only ever stop forged slots. *)
Lemma invoke_fails_only_when_revoked (s : sys) {T R Output}
    (c : Cap T R) (op : CapOp T R Output) :
  rtc step init s -> held_of c ∈ s.(caps) ->
  invoke s.(objs) c op = if is_live s.(objs) c then op c else Err Revoked.
Proof.
  intros Hr Hc. pose proof (held_authentic s c (reachable_inv s Hr) Hc) as [G I K Ri Ta].
  unfold is_live, check_live, invoke, epoch_and_kind, current_epoch, kind_at in *.
  destruct (objs s !! Z.to_nat (index (slot c))) as [e |]; simpl in *; [| done].
  simplify_eq. destruct (Z.eqb_spec (epoch e) (generation (slot c))); simpl; [| done].
  rewrite decide_False by auto. rewrite Ta, Z.eqb_refl, Ri. simpl.
  by rewrite Z.land_diag, Z.eqb_refl.
Qed.

Example invoke_fails_only_when_revoked_witness :
  invoke demo.(objs) demo_cap NoopOp = Ok tt.
Proof.
  exact (invoke_fails_only_when_revoked demo demo_cap NoopOp demo_reachable demo_held).
Defined.

(** C23: no privilege escalation.  As long as nothing new is minted, every
    capability held later over an object has a right that some capability
    held before over the same object already covered in the [SubsetOf]
    lattice, and every table entry is empty, an entry that was already in a
    table, or carries such a right.  In particular [Create] can only come
    from [Create]. *)
Theorem no_privilege_escalation (s s' : sys) :
  rtc step init s -> rtc use_step s s' ->
  no_gain s s' /\
  forall h, h ∈ s'.(caps) -> h.(h_right) = Create ->
    exists h0, h0 ∈ s.(caps) /\ h0.(h_slot).(index) = h.(h_slot).(index) /\
      h0.(h_right) = Create.
Proof.
  intros Hr Hu. assert (N : no_gain s s').
  { pose proof (reachable_inv s Hr) as I. revert Hu. apply (rtc_ind_r (fun s' => no_gain s s')).
    - apply no_gain_refl.
    - intros x y Hx Hy Ng. eapply use_step_no_gain; [| done | done].
      clear -I Hx. induction Hx as [| ? ? ? U _ IH]; [done |]. eauto using use_step_inv. }
  split; [done |]. intros h Hh E. destruct (ng_caps _ _ N h Hh) as (h0 & H0 & Ix & Sub).
  rewrite E in Sub. exists h0. split; [done |]. split; [done |]. by apply create_from_create.
Qed.

Example no_privilege_escalation_witness :
  no_gain demo demo_revoked /\ (held_of demo_cap).(h_right) <> Create.
Proof.
  split; [| discriminate].
  refine (proj1 (no_privilege_escalation demo demo_revoked demo_reachable _)).
  eapply rtc_l; [exact (step_revoke demo Task Grant demo_cap demo_held) | apply rtc_refl].
Defined.

(** C24: revocation is permanent.  Once an object has been revoked through a
    live capability to it, every capability to that object held in any state reached
    within the next [2^32 - 3] steps, however it was obtained, fails its
    liveness check, and no task table resolves an entry for the object. *)
Theorem revocation_is_permanent (s s' : sys) {T R} (c : Cap T R) (n : nat) :
  rtc step init s -> held_of c ∈ s.(caps) -> check_live s.(objs) c = Ok tt ->
  nsteps step n (mk_sys (revoke s.(objs) c) s.(caps) s.(tables)) s' ->
  2 + Z.of_nat n < 2 ^ 32 ->
  (forall T' R' (c' : Cap T' R'), held_of c' ∈ s'.(caps) ->
     c'.(slot).(index) = c.(slot).(index) -> check_live s'.(objs) c' = Err Revoked) /\
  (forall task ct p e, s'.(tables) !! task = Some ct ->
     lookup_slot s'.(objs) ct p = Ok e -> e.(index) <> c.(slot).(index)).
Proof.
  intros Hr Hc L St B. pose proof (reachable_inv s Hr) as I.
  pose proof (held_authentic s c I Hc) as [G Ix _ _ _].
  apply check_live_iff in L. rewrite G in L.
  pose proof (use_step_inv _ _ I (step_revoke s T R c Hc)) as I1.
  destruct (nsteps_epoch n _ s' (index (slot c)) 2 I1 St) as (I' & e & E & Be); try lia.
  { simpl. unfold revoke. rewrite current_epoch_bump, decide_True, L by lia. done. }
  split.
  - intros T' R' c' Hc' Ei. destruct (check_live_cases s'.(objs) c') as [D | D]; [| done].
    apply check_live_iff in D. rewrite Ei, E in D.
    pose proof (auth_gen _ _ _ _ (held_authentic s' c' I' Hc')). simplify_eq. lia.
  - intros task ct p en Ht (A & Em & _ & _ & Ep & _)%lookup_slot_Ok Ei.
    rewrite Ei, E in Ep. simplify_eq.
    destruct (Forall_lookup_1 _ _ _ _ (inv_entries _ I' _ _ Ht) A) as [-> | (T' & R' & Au)];
      [done |]. pose proof (auth_gen _ _ _ _ Au). lia.
Qed.

Example revocation_is_permanent_witness :
  check_live demo.(objs) demo_cap = Ok tt /\ check_live demo_revoked.(objs) demo_cap = Err Revoked.
Proof.
  split; [reflexivity |].
  refine (proj1 (revocation_is_permanent demo demo_revoked demo_cap 0 demo_reachable demo_held
    eq_refl _ _) Task Grant demo_cap demo_held eq_refl); [constructor | lia].
Defined.
