(* ===== verification/BpfOpcode.v ===== *)
(** BPF opcode constants and operand enums ([bpf/isa/src/opcode.rs]).

    The raw encoding constants under their source names, and the enums with
    their conversions to and from the encoding.  A [match] on constants is
    the chain of comparisons it stands for.  Every enum keeps its
    constructors in a module of its name, so that they read as in the
    source ([AluOp.Add], [CondOp.Eq]). *)

From S2P Require Import Prelude Word.

Definition CLASS_MASK : Z := 0x07.
Definition OP_MASK : Z := 0xf0.
Definition SRC_MASK : Z := 0x08.
Definition SIZE_MASK : Z := 0x18.
Definition MODE_MASK : Z := 0xe0.
Definition CLASS_LD : Z := 0x00.
Definition CLASS_LDX : Z := 0x01.
Definition CLASS_ST : Z := 0x02.
Definition CLASS_STX : Z := 0x03.
Definition CLASS_ALU : Z := 0x04.
Definition CLASS_JMP : Z := 0x05.
Definition CLASS_JMP32 : Z := 0x06.
Definition CLASS_ALU64 : Z := 0x07.
Definition SRC_K : Z := 0x00.
Definition SRC_X : Z := 0x08.
Definition SIZE_W : Z := 0x00.
Definition SIZE_H : Z := 0x08.
Definition SIZE_B : Z := 0x10.
Definition SIZE_DW : Z := 0x18.
Definition MODE_IMM : Z := 0x00.
Definition MODE_ABS : Z := 0x20.
Definition MODE_IND : Z := 0x40.
Definition MODE_MEM : Z := 0x60.
Definition MODE_MEMSX : Z := 0x80.
Definition MODE_ATOMIC : Z := 0xc0.
Definition ALU_ADD : Z := 0x00.
Definition ALU_SUB : Z := 0x10.
Definition ALU_MUL : Z := 0x20.
Definition ALU_DIV : Z := 0x30.
Definition ALU_OR : Z := 0x40.
Definition ALU_AND : Z := 0x50.
Definition ALU_LSH : Z := 0x60.
Definition ALU_RSH : Z := 0x70.
Definition ALU_NEG : Z := 0x80.
Definition ALU_MOD : Z := 0x90.
Definition ALU_XOR : Z := 0xa0.
Definition ALU_MOV : Z := 0xb0.
Definition ALU_ARSH : Z := 0xc0.
Definition ALU_END : Z := 0xd0.
Definition JMP_JA : Z := 0x00.
Definition JMP_JEQ : Z := 0x10.
Definition JMP_JGT : Z := 0x20.
Definition JMP_JGE : Z := 0x30.
Definition JMP_JSET : Z := 0x40.
Definition JMP_JNE : Z := 0x50.
Definition JMP_JSGT : Z := 0x60.
Definition JMP_JSGE : Z := 0x70.
Definition JMP_CALL : Z := 0x80.
Definition JMP_EXIT : Z := 0x90.
Definition JMP_JLT : Z := 0xa0.
Definition JMP_JLE : Z := 0xb0.
Definition JMP_JSLT : Z := 0xc0.
Definition JMP_JSLE : Z := 0xd0.
Definition JMP_JCOND : Z := 0xe0.
Definition JCOND_MAY_GOTO : Z := 0.
Definition ATOMIC_FETCH : Z := 0x01.
Definition ATOMIC_ADD : Z := 0x00.
Definition ATOMIC_OR : Z := 0x40.
Definition ATOMIC_AND : Z := 0x50.
Definition ATOMIC_XOR : Z := 0xa0.
Definition ATOMIC_XCHG : Z := Z.lor 0xe0 ATOMIC_FETCH.
Definition ATOMIC_CMPXCHG : Z := Z.lor 0xf0 ATOMIC_FETCH.
Definition ATOMIC_LOAD_ACQ : Z := 0x100.
Definition ATOMIC_STORE_REL : Z := 0x110.
Definition OFF_SIGNED : Z := 1.
Definition OFF_ADDR_SPACE_CAST : Z := 1.
Definition PSEUDO_IMM64 : Z := 0.
Definition PSEUDO_MAP_FD : Z := 1.
Definition PSEUDO_MAP_VALUE : Z := 2.
Definition PSEUDO_BTF_ID : Z := 3.
Definition PSEUDO_FUNC : Z := 4.
Definition PSEUDO_MAP_IDX : Z := 5.
Definition PSEUDO_MAP_IDX_VALUE : Z := 6.
Definition CALL_HELPER : Z := 0.
Definition CALL_PSEUDO : Z := 1.
Definition CALL_KFUNC : Z := 2.
Definition NUM_REGS : Z := 11.
Definition INSN_SIZE : Z := 8.

Module Class.
Inductive Class : Type := Ld | Ldx | St | Stx | Alu | Jmp | Jmp32 | Alu64.
End Class.
Abbreviation Class := Class.Class.

#[export] Instance Class_eq_dec : EqDecision Class.
Proof. solve_decision. Defined.

Definition class_from_code (code : Z) : Class :=
  let k := Z.land code CLASS_MASK in
  if k =? CLASS_LD then Class.Ld
  else if k =? CLASS_LDX then Class.Ldx
  else if k =? CLASS_ST then Class.St
  else if k =? CLASS_STX then Class.Stx
  else if k =? CLASS_ALU then Class.Alu
  else if k =? CLASS_JMP then Class.Jmp
  else if k =? CLASS_JMP32 then Class.Jmp32
  else Class.Alu64.

Definition class_to_code (c : Class) : Z :=
  match c with
  | Class.Ld => CLASS_LD
  | Class.Ldx => CLASS_LDX
  | Class.St => CLASS_ST
  | Class.Stx => CLASS_STX
  | Class.Alu => CLASS_ALU
  | Class.Jmp => CLASS_JMP
  | Class.Jmp32 => CLASS_JMP32
  | Class.Alu64 => CLASS_ALU64
  end.

Definition is_alu (c : Class) : bool :=
  match c with Class.Alu | Class.Alu64 => true | _ => false end.

Definition is_jmp (c : Class) : bool :=
  match c with Class.Jmp | Class.Jmp32 => true | _ => false end.

Definition is_wide (c : Class) : bool :=
  match c with Class.Alu64 | Class.Jmp => true | _ => false end.

Module Size.
Inductive Size : Type := B | H | W | Dw.
End Size.
Abbreviation Size := Size.Size.

#[export] Instance Size_eq_dec : EqDecision Size.
Proof. solve_decision. Defined.

Definition size_from_code (code : Z) : Size :=
  let k := Z.land code SIZE_MASK in
  if k =? SIZE_W then Size.W
  else if k =? SIZE_H then Size.H
  else if k =? SIZE_B then Size.B
  else Size.Dw.

Definition size_to_code (s : Size) : Z :=
  match s with
  | Size.W => SIZE_W
  | Size.H => SIZE_H
  | Size.B => SIZE_B
  | Size.Dw => SIZE_DW
  end.

Definition size_bytes (s : Size) : Z :=
  match s with Size.B => 1 | Size.H => 2 | Size.W => 4 | Size.Dw => 8 end.

Definition size_bits (s : Size) : Z := size_bytes s * 8.

(** [Reg]: a register number, below [NUM_REGS] by construction ([reg_ok]). *)
Record Reg : Type := mk_reg { reg_index : Z }.

#[export] Instance Reg_eq_dec : EqDecision Reg.
Proof. solve_decision. Defined.

Definition reg_ok (r : Reg) : Prop := 0 <= r.(reg_index) < NUM_REGS.

Definition R0 : Reg := mk_reg 0.
Definition R1 : Reg := mk_reg 1.
Definition R10 : Reg := mk_reg 10.

Definition reg_new (n : Z) : option Reg :=
  if n <? NUM_REGS then Some (mk_reg n) else None.

(** [Reg::as_usize]. *)
Definition reg_usize (r : Reg) : nat := Z.to_nat r.(reg_index).

Definition is_frame_ptr (r : Reg) : bool := r.(reg_index) =? 10.

Module Source.
Inductive Source : Type :=
| Imm (i : Z)
| Reg (r : Reg).
End Source.
Abbreviation Source := Source.Source.

Module ByteOrder.
Inductive ByteOrder : Type := Little | Big | Swap.
End ByteOrder.
Abbreviation ByteOrder := ByteOrder.ByteOrder.

Module AluOp.
Inductive AluOp : Type := Add | Sub | Mul | Or | And | Lsh | Rsh | Xor | Arsh.
End AluOp.
Abbreviation AluOp := AluOp.AluOp.

Definition alu_to_code (op : AluOp) : Z :=
  match op with
  | AluOp.Add => ALU_ADD
  | AluOp.Sub => ALU_SUB
  | AluOp.Mul => ALU_MUL
  | AluOp.Or => ALU_OR
  | AluOp.And => ALU_AND
  | AluOp.Lsh => ALU_LSH
  | AluOp.Rsh => ALU_RSH
  | AluOp.Xor => ALU_XOR
  | AluOp.Arsh => ALU_ARSH
  end.

Module CondOp.
Inductive CondOp : Type := Eq | Ne | Gt | Ge | Lt | Le | Sgt | Sge | Slt | Sle | Set_.
End CondOp.
Abbreviation CondOp := CondOp.CondOp.

Definition cond_to_code (op : CondOp) : Z :=
  match op with
  | CondOp.Eq => JMP_JEQ
  | CondOp.Ne => JMP_JNE
  | CondOp.Gt => JMP_JGT
  | CondOp.Ge => JMP_JGE
  | CondOp.Lt => JMP_JLT
  | CondOp.Le => JMP_JLE
  | CondOp.Sgt => JMP_JSGT
  | CondOp.Sge => JMP_JSGE
  | CondOp.Slt => JMP_JSLT
  | CondOp.Sle => JMP_JSLE
  | CondOp.Set_ => JMP_JSET
  end.

Module AtomicOp.
Inductive AtomicOp : Type :=
| Add (fetch : bool)
| Or (fetch : bool)
| And (fetch : bool)
| Xor (fetch : bool)
| Xchg
| Cmpxchg
| LoadAcquire
| StoreRelease.
End AtomicOp.
Abbreviation AtomicOp := AtomicOp.AtomicOp.

Definition atomic_to_imm (op : AtomicOp) : Z :=
  match op with
  | AtomicOp.Add fetch => Z.lor ATOMIC_ADD (if fetch then ATOMIC_FETCH else 0)
  | AtomicOp.Or fetch => Z.lor ATOMIC_OR (if fetch then ATOMIC_FETCH else 0)
  | AtomicOp.And fetch => Z.lor ATOMIC_AND (if fetch then ATOMIC_FETCH else 0)
  | AtomicOp.Xor fetch => Z.lor ATOMIC_XOR (if fetch then ATOMIC_FETCH else 0)
  | AtomicOp.Xchg => ATOMIC_XCHG
  | AtomicOp.Cmpxchg => ATOMIC_CMPXCHG
  | AtomicOp.LoadAcquire => ATOMIC_LOAD_ACQ
  | AtomicOp.StoreRelease => ATOMIC_STORE_REL
  end.

(** [imm & !ATOMIC_FETCH] is [Z.ldiff]: on an [i32] the complement of a
    constant is its two's complement. *)
Definition atomic_from_imm (imm : Z) : option AtomicOp :=
  let fetch := negb (Z.land imm ATOMIC_FETCH =? 0) in
  if imm =? ATOMIC_XCHG then Some AtomicOp.Xchg
  else if imm =? ATOMIC_CMPXCHG then Some AtomicOp.Cmpxchg
  else if imm =? ATOMIC_LOAD_ACQ then Some AtomicOp.LoadAcquire
  else if imm =? ATOMIC_STORE_REL then Some AtomicOp.StoreRelease
  else
    let base := Z.ldiff imm ATOMIC_FETCH in
    if base =? ATOMIC_ADD then Some (AtomicOp.Add fetch)
    else if base =? ATOMIC_OR then Some (AtomicOp.Or fetch)
    else if base =? ATOMIC_AND then Some (AtomicOp.And fetch)
    else if base =? ATOMIC_XOR then Some (AtomicOp.Xor fetch)
    else None.

Definition writes_src (op : AtomicOp) : bool :=
  match op with
  | AtomicOp.Add fetch | AtomicOp.Or fetch | AtomicOp.And fetch | AtomicOp.Xor fetch => fetch
  | AtomicOp.Xchg | AtomicOp.LoadAcquire => true
  | AtomicOp.Cmpxchg | AtomicOp.StoreRelease => false
  end.

(** * Round trips of the enums *)

Lemma class_roundtrip c : class_from_code (class_to_code c) = c.
Proof. by destruct c. Qed.

Lemma size_roundtrip s : size_from_code (size_to_code s) = s.
Proof. by destruct s. Qed.

Lemma atomic_roundtrip op : atomic_from_imm (atomic_to_imm op) = Some op.
Proof. by destruct op as [[] | [] | [] | [] | | | |]. Qed.

(** Every immediate [atomic_from_imm] accepts is the encoding of its result. *)
Lemma atomic_from_imm_sound imm op : atomic_from_imm imm = Some op -> atomic_to_imm op = imm.
Proof.
  unfold atomic_from_imm.
  destruct (Z.eqb_spec imm ATOMIC_XCHG) as [-> |]; [by intros [= <-] |].
  destruct (Z.eqb_spec imm ATOMIC_CMPXCHG) as [-> |]; [by intros [= <-] |].
  destruct (Z.eqb_spec imm ATOMIC_LOAD_ACQ) as [-> |]; [by intros [= <-] |].
  destruct (Z.eqb_spec imm ATOMIC_STORE_REL) as [-> |]; [by intros [= <-] |].
  assert (S : imm = Z.lor (Z.ldiff imm 1) (if negb (Z.land imm 1 =? 0) then 1 else 0)).
  { rewrite <- (Z.lor_ldiff_and imm 1) at 1. f_equal. change 1 with (Z.ones 1) at 1.
    rewrite Z.land_ones by lia. change (Z.land imm 1) with (Z.land imm (Z.ones 1)).
    rewrite Z.land_ones by lia. pose proof (Z.mod_pos_bound imm (2 ^ 1)).
    destruct (Z.eqb_spec (imm mod 2 ^ 1) 0); simpl; lia. }
  change ATOMIC_FETCH with 1. set (f := negb (Z.land imm 1 =? 0)) in *.
  destruct (Z.eqb_spec (Z.ldiff imm 1) ATOMIC_ADD) as [E |];
    [| destruct (Z.eqb_spec (Z.ldiff imm 1) ATOMIC_OR) as [E |];
    [| destruct (Z.eqb_spec (Z.ldiff imm 1) ATOMIC_AND) as [E |];
    [| destruct (Z.eqb_spec (Z.ldiff imm 1) ATOMIC_XOR) as [E |]; [| discriminate]]]];
    intros [= <-]; rewrite S, E; destruct f; reflexivity.
Qed.
