(* ===== verification/BpfInsn.v ===== *)
(** The BPF instruction word and its decoder ([bpf/isa/src/insn.rs]).

    [decode] indexes the program slice, which panics past its end: the model
    returns [None] there.  Otherwise it returns the decoded form with the
    number of slots consumed, or a [DecodeError]. *)

From S2P Require Import Prelude Word BpfOpcode.

Record Insn : Type := mk_insn { code : Z; regs : Z; off : Z; imm : Z }.

(** The field types: [u8], [u8], [i16], [i32]. *)
Record insn_ok (i : Insn) : Prop := {
  ok_code : is_u 8 i.(code);
  ok_regs : is_u 8 i.(regs);
  ok_off : is_i 16 i.(off);
  ok_imm : is_i 32 i.(imm)
}.

Definition dst_raw (i : Insn) : Z := Z.land i.(regs) 0x0F.

Definition src_raw (i : Insn) : Z := Z.shiftr i.(regs) 4.

Definition pack_regs (dst src : Z) : Z := Z.lor (Z.land dst 0x0F) (wshl 8 src 4).

Definition insn_class (i : Insn) : Class := class_from_code i.(code).

(** [Insn::from_bytes] takes an array of eight bytes; [None] is a list of
    another length. *)
Definition from_bytes (b : list Z) : option Insn :=
  match b with
  | [b0; b1; b2; b3; b4; b5; b6; b7] =>
      Some (mk_insn b0 b1 (as_i16 (le_value [b2; b3])) (as_i32 (le_value [b4; b5; b6; b7])))
  | _ => None
  end.

Definition to_bytes (i : Insn) : list Z :=
  i.(code) :: i.(regs) :: le_bytes 2 i.(off) ++ le_bytes 4 i.(imm).

Definition is_wide_imm (i : Insn) : bool :=
  i.(code) =? Z.lor (Z.lor CLASS_LD MODE_IMM) SIZE_DW.

Inductive DecodeError : Type :=
| BadRegister (r : Z)
| BadOp (c : Z)
| BadMode (c : Z)
| BadOff (o : Z)
| BadImm (i : Z)
| TruncatedImm64
| MalformedImm64
| HelperCall (i : Z)
| LegacyPacketLoad.

Module Imm64.
Inductive Imm64 : Type :=
| Value (v : Z)
| MapFd (fd : Z)
| MapValue (fd value_offset : Z)
| BtfId (id : Z)
| SubprogAddr (o : Z)
| MapIdx (idx : Z)
| MapIdxValue (idx value_offset : Z).
End Imm64.
Abbreviation Imm64 := Imm64.Imm64.

Module CallTarget.
Inductive CallTarget : Type :=
| Subprog (o : Z)
| Kfunc (id : Z).
End CallTarget.
Abbreviation CallTarget := CallTarget.CallTarget.

Module Decoded.
Inductive Decoded : Type :=
| Alu (wide : bool) (op : AluOp) (dst : Reg) (src : Source)
| Neg (wide : bool) (dst : Reg)
| Mov (wide : bool) (dst : Reg) (src : Source) (sign_extend : option Z)
| Div (wide signed : bool) (dst : Reg) (src : Source)
| Mod (wide signed : bool) (dst : Reg) (src : Source)
| End_ (dst : Reg) (order : ByteOrder) (width : Z)
| AddrSpaceCast (dst src : Reg) (dst_as src_as : Z)
| Load (size : Size) (sign_extend : bool) (dst src : Reg) (off : Z)
| Store (size : Size) (dst : Reg) (off : Z) (src : Source)
| Atomic (size : Size) (op : AtomicOp) (dst src : Reg) (off : Z)
| LoadImm64 (dst : Reg) (value : Imm64)
| Jump (off : Z)
| JumpCond (wide : bool) (op : CondOp) (dst : Reg) (src : Source) (off : Z)
| MayGoto (off : Z)
| Call (t : CallTarget)
| Exit.
End Decoded.
Abbreviation Decoded := Decoded.Decoded.

(** The closures [src_reg] and [source] of [decode]. *)
Definition src_reg (insn : Insn) : Result Reg DecodeError :=
  ok_or (reg_new (src_raw insn)) (BadRegister (src_raw insn)).

Definition source (i : Insn) : Result Source DecodeError :=
  if Z.land i.(code) SRC_MASK =? SRC_X then
    let? r := ok_or (reg_new (src_raw i)) (BadRegister (src_raw i)) in
    Ok (Source.Reg r)
  else Ok (Source.Imm i.(imm)).

(** The arms of [decode]'s match on the class.  Each returns the decoded
    form and its width, like the early [return]s of the source. *)
Definition one (d : Decoded) : Result (Decoded * nat) DecodeError := Ok (d, 1%nat).

Definition decode_alu (insn : Insn) (wide : bool) (dst : Reg)
    : Result (Decoded * nat) DecodeError :=
  let code := insn.(code) in
  let op := Z.land code OP_MASK in
  let alu o := let? src := source insn in one (Decoded.Alu wide o dst src) in
  if op =? ALU_ADD then alu AluOp.Add
  else if op =? ALU_SUB then alu AluOp.Sub
  else if op =? ALU_MUL then alu AluOp.Mul
  else if op =? ALU_OR then alu AluOp.Or
  else if op =? ALU_AND then alu AluOp.And
  else if op =? ALU_LSH then alu AluOp.Lsh
  else if op =? ALU_RSH then alu AluOp.Rsh
  else if op =? ALU_XOR then alu AluOp.Xor
  else if op =? ALU_ARSH then alu AluOp.Arsh
  else if op =? ALU_NEG then
    if negb (Z.land code SRC_MASK =? SRC_K) || negb (insn.(imm) =? 0) || negb (insn.(off) =? 0)
    then Err (BadOp code)
    else one (Decoded.Neg wide dst)
  else if (op =? ALU_DIV) || (op =? ALU_MOD) then
    let? signed := (if insn.(off) =? 0 then Ok false
                    else if insn.(off) =? OFF_SIGNED then Ok true
                    else Err (BadOff insn.(off))) in
    let? src := source insn in
    if op =? ALU_DIV then one (Decoded.Div wide signed dst src)
    else one (Decoded.Mod wide signed dst src)
  else if op =? ALU_MOV then
    if wide && (Z.land code SRC_MASK =? SRC_X) && (insn.(off) =? OFF_ADDR_SPACE_CAST) then
      let imm := u32 insn.(imm) in
      let? src := src_reg insn in
      one (Decoded.AddrSpaceCast dst src (u16 (Z.shiftr imm 16)) (u16 imm))
    else
      let? sign_extend := (if insn.(off) =? 0 then Ok None
                           else if (insn.(off) =? 8) || (insn.(off) =? 16)
                           then Ok (Some (u8 insn.(off)))
                           else if insn.(off) =? 32 then Ok (Some 32)
                           else Err (BadOff insn.(off))) in
      let? src := source insn in
      one (Decoded.Mov wide dst src sign_extend)
  else if op =? ALU_END then
    let? order := (if wide then
                     if negb (Z.land code SRC_MASK =? SRC_K) then Err (BadOp code)
                     else Ok ByteOrder.Swap
                   else if Z.land code SRC_MASK =? SRC_K then Ok ByteOrder.Little
                   else Ok ByteOrder.Big) in
    let? width := (if (insn.(imm) =? 16) || (insn.(imm) =? 32) || (insn.(imm) =? 64)
                   then Ok (u8 insn.(imm)) else Err (BadImm insn.(imm))) in
    one (Decoded.End_ dst order width)
  else Err (BadOp op).

(** The inner match of the conditional jumps. *)
Definition cond_of_code (op : Z) : Result CondOp DecodeError :=
  if op =? JMP_JEQ then Ok CondOp.Eq
  else if op =? JMP_JNE then Ok CondOp.Ne
  else if op =? JMP_JGT then Ok CondOp.Gt
  else if op =? JMP_JGE then Ok CondOp.Ge
  else if op =? JMP_JLT then Ok CondOp.Lt
  else if op =? JMP_JLE then Ok CondOp.Le
  else if op =? JMP_JSGT then Ok CondOp.Sgt
  else if op =? JMP_JSGE then Ok CondOp.Sge
  else if op =? JMP_JSLT then Ok CondOp.Slt
  else if op =? JMP_JSLE then Ok CondOp.Sle
  else if op =? JMP_JSET then Ok CondOp.Set_
  else Err (BadOp op).

Definition decode_jmp (insn : Insn) (wide : bool) (dst : Reg)
    : Result (Decoded * nat) DecodeError :=
  let code := insn.(code) in
  let op := Z.land code OP_MASK in
  if op =? JMP_JA then
    if wide then
      if negb (insn.(imm) =? 0) then Err (BadImm insn.(imm))
      else one (Decoded.Jump insn.(off))
    else
      if negb (insn.(off) =? 0) then Err (BadOff insn.(off))
      else one (Decoded.Jump insn.(imm))
  else if (op =? JMP_CALL) && wide then
    let s := src_raw insn in
    if s =? CALL_PSEUDO then one (Decoded.Call (CallTarget.Subprog insn.(imm)))
    else if s =? CALL_KFUNC then one (Decoded.Call (CallTarget.Kfunc insn.(imm)))
    else if s =? CALL_HELPER then Err (HelperCall insn.(imm))
    else Err (BadRegister s)
  else if (op =? JMP_EXIT) && wide then
    if negb (insn.(regs) =? 0) || negb (insn.(off) =? 0) || negb (insn.(imm) =? 0)
    then Err (BadOp code)
    else one Decoded.Exit
  else if (op =? JMP_JCOND) && wide then
    if insn.(imm) =? JCOND_MAY_GOTO then one (Decoded.MayGoto insn.(off))
    else Err (BadImm insn.(imm))
  else
    let? cond := cond_of_code op in
    let? src := source insn in
    one (Decoded.JumpCond wide cond dst src insn.(off)).

Definition decode_ldx (insn : Insn) (dst : Reg) : Result (Decoded * nat) DecodeError :=
  let code := insn.(code) in
  let mode := Z.land code MODE_MASK in
  let? sign_extend := (if mode =? MODE_MEM then Ok false
                       else if mode =? MODE_MEMSX then Ok true
                       else Err (BadMode mode)) in
  let size := size_from_code code in
  if sign_extend && bool_decide (size = Size.Dw) then Err (BadMode MODE_MEMSX)
  else
    let? src := src_reg insn in
    one (Decoded.Load size sign_extend dst src insn.(off)).

Definition decode_st (insn : Insn) (dst : Reg) : Result (Decoded * nat) DecodeError :=
  let code := insn.(code) in
  if negb (Z.land code MODE_MASK =? MODE_MEM) then Err (BadMode (Z.land code MODE_MASK))
  else one (Decoded.Store (size_from_code code) dst insn.(off) (Source.Imm insn.(imm))).

Definition decode_stx (insn : Insn) (dst : Reg) : Result (Decoded * nat) DecodeError :=
  let code := insn.(code) in
  let mode := Z.land code MODE_MASK in
  if mode =? MODE_MEM then
    let? src := src_reg insn in
    one (Decoded.Store (size_from_code code) dst insn.(off) (Source.Reg src))
  else if mode =? MODE_ATOMIC then
    let? op := ok_or (atomic_from_imm insn.(imm)) (BadImm insn.(imm)) in
    let size := size_from_code code in
    if match size with Size.W | Size.Dw => false | _ => true end
    then Err (BadMode (Z.land code SIZE_MASK))
    else
      let? src := src_reg insn in
      one (Decoded.Atomic size op dst src insn.(off))
  else Err (BadMode mode).

Definition decode_imm64 (insn next : Insn) (dst : Reg) : Result (Decoded * nat) DecodeError :=
  if negb (next.(code) =? 0) || negb (next.(regs) =? 0) || negb (next.(off) =? 0)
  then Err MalformedImm64
  else
    let lo := u32 insn.(imm) in
    let hi := u32 next.(imm) in
    let s := src_raw insn in
    let no_hi v := if negb (next.(imm) =? 0) then Err MalformedImm64 else Ok v in
    let? value := (if s =? PSEUDO_IMM64 then Ok (Imm64.Value (Z.lor (u64_shl hi 32) lo))
                   else if s =? PSEUDO_MAP_FD then no_hi (Imm64.MapFd insn.(imm))
                   else if s =? PSEUDO_MAP_VALUE then Ok (Imm64.MapValue insn.(imm) next.(imm))
                   else if s =? PSEUDO_BTF_ID then no_hi (Imm64.BtfId insn.(imm))
                   else if s =? PSEUDO_FUNC then no_hi (Imm64.SubprogAddr insn.(imm))
                   else if s =? PSEUDO_MAP_IDX then no_hi (Imm64.MapIdx insn.(imm))
                   else if s =? PSEUDO_MAP_IDX_VALUE
                   then Ok (Imm64.MapIdxValue insn.(imm) next.(imm))
                   else Err (BadRegister s)) in
    Ok (Decoded.LoadImm64 dst value, 2%nat).

Definition decode_ld (insn : Insn) (next : option Insn) (dst : Reg)
    : Result (Decoded * nat) DecodeError :=
  let code := insn.(code) in
  let mode := Z.land code MODE_MASK in
  if mode =? MODE_IMM then
    if bool_decide (size_from_code code <> Size.Dw) then Err (BadMode (Z.land code SIZE_MASK))
    else
      let? next := ok_or next TruncatedImm64 in
      decode_imm64 insn next dst
  else if (mode =? MODE_ABS) || (mode =? MODE_IND) then Err LegacyPacketLoad
  else Err (BadMode mode).

(** The body of [decode], given the slot at [index] and the one after it. *)
Definition decode_insn (insn : Insn) (next : option Insn)
    : Result (Decoded * nat) DecodeError :=
  let? dst := ok_or (reg_new (dst_raw insn)) (BadRegister (dst_raw insn)) in
  let class := class_from_code insn.(code) in
  match class with
  | Class.Alu | Class.Alu64 => decode_alu insn (bool_decide (class = Class.Alu64)) dst
  | Class.Jmp | Class.Jmp32 => decode_jmp insn (bool_decide (class = Class.Jmp)) dst
  | Class.Ldx => decode_ldx insn dst
  | Class.St => decode_st insn dst
  | Class.Stx => decode_stx insn dst
  | Class.Ld => decode_ld insn next dst
  end.

Definition decode (prog : list Insn) (index : nat)
    : option (Result (Decoded * nat) DecodeError) :=
  let* insn := prog !! index in
  Some (decode_insn insn (prog !! S index)).

(** [chunks_exact(INSN_SIZE).map(from_bytes)]. *)
Fixpoint chunks (n : nat) (bytes : list Z) : list Insn :=
  match n with
  | O => []
  | S n =>
      match from_bytes (take (Z.to_nat INSN_SIZE) bytes) with
      | Some i => i :: chunks n (drop (Z.to_nat INSN_SIZE) bytes)
      | None => []
      end
  end.

Definition slots_from_bytes (bytes : list Z) : option (list Insn) :=
  let len := Z.of_nat (length bytes) in
  if negb (len mod INSN_SIZE =? 0) then None
  else Some (chunks (Z.to_nat (len / INSN_SIZE)) bytes).
