(* ===== verification/BpfEncode.v ===== *)
(** Encoding of BPF instructions ([bpf/isa/src/encode.rs]) and the round
    trip with the decoder.

    [decoded_ok] is the set of instructions the encoding can express; every
    result of [decode] is in it, and [decode] inverts [encode] on it. *)

From S2P Require Import Prelude Word BpfOpcode BpfInsn.

Record Encoded : Type := mk_encoded { e_slots : Insn * Insn; e_len : nat }.

(** [&self.slots[..self.len]]. *)
Definition slots_of (e : Encoded) : list Insn :=
  take e.(e_len) [fst e.(e_slots); snd e.(e_slots)].

Definition enc_one (code dst src off imm : Z) : Encoded :=
  mk_encoded (mk_insn code (pack_regs dst src) off imm, mk_insn 0 0 0 0) 1.

Definition enc_two (dst pseudo lo hi : Z) : Encoded :=
  mk_encoded (mk_insn (Z.lor (Z.lor CLASS_LD MODE_IMM) SIZE_DW) (pack_regs dst pseudo) 0 lo,
              mk_insn 0 0 0 hi) 2.

Definition split_source (src : Source) : Z * Z * Z :=
  match src with
  | Source.Imm i => (SRC_K, 0, i)
  | Source.Reg r => (SRC_X, r.(reg_index), 0)
  end.

Definition alu_class (wide : bool) : Z := if wide then CLASS_ALU64 else CLASS_ALU.

Definition encode (d : Decoded) : Encoded :=
  match d with
  | Decoded.Alu wide op dst src =>
      let '(sbit, sreg, imm) := split_source src in
      enc_one (Z.lor (Z.lor (alu_class wide) (alu_to_code op)) sbit) dst.(reg_index) sreg 0 imm
  | Decoded.Neg wide dst =>
      enc_one (Z.lor (Z.lor (alu_class wide) ALU_NEG) SRC_K) dst.(reg_index) 0 0 0
  | Decoded.Mov wide dst src sign_extend =>
      let '(sbit, sreg, imm) := split_source src in
      let off := unwrap_or sign_extend 0 in
      enc_one (Z.lor (Z.lor (alu_class wide) ALU_MOV) sbit) dst.(reg_index) sreg off imm
  | Decoded.Div wide signed dst src | Decoded.Mod wide signed dst src =>
      let '(sbit, sreg, imm) := split_source src in
      let op := match d with Decoded.Div _ _ _ _ => ALU_DIV | _ => ALU_MOD end in
      let off := if signed then OFF_SIGNED else 0 in
      enc_one (Z.lor (Z.lor (alu_class wide) op) sbit) dst.(reg_index) sreg off imm
  | Decoded.End_ dst order width =>
      let '(class, sbit) :=
        match order with
        | ByteOrder.Little => (CLASS_ALU, SRC_K)
        | ByteOrder.Big => (CLASS_ALU, SRC_X)
        | ByteOrder.Swap => (CLASS_ALU64, SRC_K)
        end in
      enc_one (Z.lor (Z.lor class ALU_END) sbit) dst.(reg_index) 0 0 width
  | Decoded.AddrSpaceCast dst src dst_as src_as =>
      let imm := as_i32 (Z.lor (wshl 32 dst_as 16) src_as) in
      enc_one (Z.lor (Z.lor CLASS_ALU64 ALU_MOV) SRC_X) dst.(reg_index) src.(reg_index)
        OFF_ADDR_SPACE_CAST imm
  | Decoded.Load size sign_extend dst src off =>
      let mode := if sign_extend then MODE_MEMSX else MODE_MEM in
      enc_one (Z.lor (Z.lor CLASS_LDX mode) (size_to_code size)) dst.(reg_index) src.(reg_index)
        off 0
  | Decoded.Store size dst off src =>
      match src with
      | Source.Imm imm =>
          enc_one (Z.lor (Z.lor CLASS_ST MODE_MEM) (size_to_code size)) dst.(reg_index) 0 off imm
      | Source.Reg r =>
          enc_one (Z.lor (Z.lor CLASS_STX MODE_MEM) (size_to_code size)) dst.(reg_index)
            r.(reg_index) off 0
      end
  | Decoded.Atomic size op dst src off =>
      enc_one (Z.lor (Z.lor CLASS_STX MODE_ATOMIC) (size_to_code size)) dst.(reg_index)
        src.(reg_index) off (atomic_to_imm op)
  | Decoded.LoadImm64 dst value =>
      let d := dst.(reg_index) in
      match value with
      | Imm64.Value v =>
          enc_two d PSEUDO_IMM64 (as_i32 (Z.land v 0xFFFFFFFF)) (as_i32 (Z.shiftr v 32))
      | Imm64.MapFd fd => enc_two d PSEUDO_MAP_FD fd 0
      | Imm64.MapValue fd value_offset => enc_two d PSEUDO_MAP_VALUE fd value_offset
      | Imm64.BtfId id => enc_two d PSEUDO_BTF_ID id 0
      | Imm64.SubprogAddr o => enc_two d PSEUDO_FUNC o 0
      | Imm64.MapIdx i => enc_two d PSEUDO_MAP_IDX i 0
      | Imm64.MapIdxValue idx value_offset => enc_two d PSEUDO_MAP_IDX_VALUE idx value_offset
      end
  | Decoded.Jump off =>
      (* [i16::try_from(off)] *)
      if (-32768 <=? off) && (off <=? 32767) then enc_one (Z.lor CLASS_JMP JMP_JA) 0 0 off 0
      else enc_one (Z.lor CLASS_JMP32 JMP_JA) 0 0 0 off
  | Decoded.JumpCond wide op dst src off =>
      let '(sbit, sreg, imm) := split_source src in
      let class := if wide then CLASS_JMP else CLASS_JMP32 in
      enc_one (Z.lor (Z.lor class (cond_to_code op)) sbit) dst.(reg_index) sreg off imm
  | Decoded.MayGoto off => enc_one (Z.lor CLASS_JMP JMP_JCOND) 0 0 off JCOND_MAY_GOTO
  | Decoded.Call t =>
      match t with
      | CallTarget.Subprog o => enc_one (Z.lor CLASS_JMP JMP_CALL) 0 CALL_PSEUDO 0 o
      | CallTarget.Kfunc id => enc_one (Z.lor CLASS_JMP JMP_CALL) 0 CALL_KFUNC 0 id
      end
  | Decoded.Exit => enc_one (Z.lor CLASS_JMP JMP_EXIT) 0 0 0 0
  end.

(** * Well-formed instructions *)

Definition source_ok (s : Source) : Prop :=
  match s with Source.Imm i => is_i 32 i | Source.Reg r => reg_ok r end.

Definition imm64_ok (v : Imm64) : Prop :=
  match v with
  | Imm64.Value v => is_u 64 v
  | Imm64.MapFd i | Imm64.BtfId i | Imm64.SubprogAddr i | Imm64.MapIdx i => is_i 32 i
  | Imm64.MapValue i j | Imm64.MapIdxValue i j => is_i 32 i /\ is_i 32 j
  end.

(** The field types of [Decoded], and the combinations the encoding has. *)
Definition decoded_ok (d : Decoded) : Prop :=
  match d with
  | Decoded.Alu _ _ dst src => reg_ok dst /\ source_ok src
  | Decoded.Neg _ dst => reg_ok dst
  | Decoded.Mov _ dst src se =>
      reg_ok dst /\ source_ok src /\ se ∈ [None; Some 8; Some 16; Some 32]
  | Decoded.Div _ _ dst src | Decoded.Mod _ _ dst src => reg_ok dst /\ source_ok src
  | Decoded.End_ dst _ width => reg_ok dst /\ width ∈ [16; 32; 64]
  | Decoded.AddrSpaceCast dst src a b => reg_ok dst /\ reg_ok src /\ is_u 16 a /\ is_u 16 b
  | Decoded.Load size se dst src off =>
      reg_ok dst /\ reg_ok src /\ is_i 16 off /\ ~ (se = true /\ size = Size.Dw)
  | Decoded.Store _ dst off src => reg_ok dst /\ is_i 16 off /\ source_ok src
  | Decoded.Atomic size _ dst src off =>
      reg_ok dst /\ reg_ok src /\ is_i 16 off /\ (size = Size.W \/ size = Size.Dw)
  | Decoded.LoadImm64 dst v => reg_ok dst /\ imm64_ok v
  | Decoded.Jump off => is_i 32 off
  | Decoded.JumpCond _ _ dst src off => reg_ok dst /\ source_ok src /\ is_i 16 off
  | Decoded.MayGoto off => is_i 16 off
  | Decoded.Call (CallTarget.Subprog i) | Decoded.Call (CallTarget.Kfunc i) => is_i 32 i
  | Decoded.Exit => True
  end.

(** * Packed registers *)

Lemma testbit_nibble d i : 0 <= d < 16 -> 4 <= i -> Z.testbit d i = false.
Proof. intros. apply (testbit_high 4); [lia | exact H | lia]. Qed.

Lemma dst_raw_pack c d s o m : 0 <= d < 16 -> 0 <= s < 16 ->
  dst_raw (mk_insn c (pack_regs d s) o m) = d.
Proof.
  intros Hd Hs. unfold dst_raw, pack_regs. simpl. apply Z.bits_inj'. intros i Hi.
  change 15 with (Z.ones 4). autorewrite with bits. rewrite Z.testbit_ones_nonneg by lia.
  destruct (Z.ltb_spec i 4); simpl.
  - rewrite (Z.testbit_neg_r s) by lia. rewrite andb_false_r. btauto.
  - rewrite (testbit_nibble d i) by lia. btauto.
Qed.

Lemma src_raw_pack c d s o m : 0 <= d < 16 -> 0 <= s < 16 ->
  src_raw (mk_insn c (pack_regs d s) o m) = s.
Proof.
  intros Hd Hs. unfold src_raw, pack_regs. simpl. apply Z.bits_inj'. intros i Hi.
  change 15 with (Z.ones 4). autorewrite with bits. rewrite Z.testbit_ones_nonneg by lia.
  rewrite (testbit_nibble d (i + 4)) by lia. rewrite Z.add_simpl_r. simpl.
  destruct (Z.ltb_spec (i + 4) 8); simpl; [done |].
  symmetry. apply testbit_nibble; lia.
Qed.

Lemma reg_new_index r : reg_ok r -> reg_new r.(reg_index) = Some r.
Proof.
  unfold reg_ok, reg_new. intros H. destruct (Z.ltb_spec (reg_index r) NUM_REGS); [| lia].
  by destruct r.
Qed.

Lemma reg_ok_nibble r : reg_ok r -> 0 <= r.(reg_index) < 16.
Proof. unfold reg_ok, NUM_REGS. lia. Qed.

#[local] Hint Resolve reg_ok_nibble : core.

Section Fields.
Context (c d o m : Z) (r : Reg) (Hd : 0 <= d < 16).

Lemma src_reg_pack : reg_ok r -> src_reg (mk_insn c (pack_regs d r.(reg_index)) o m) = Ok r.
Proof using Hd.
  intros Hr. unfold src_reg. rewrite src_raw_pack by auto. by rewrite reg_new_index.
Qed.

Lemma source_reg : reg_ok r -> Z.land c SRC_MASK = SRC_X ->
  source (mk_insn c (pack_regs d r.(reg_index)) o m) = Ok (Source.Reg r).
Proof using Hd.
  intros Hr Hc. unfold source. simpl. rewrite Hc. simpl.
  rewrite src_raw_pack by auto. by rewrite reg_new_index.
Qed.

Lemma source_imm s : Z.land c SRC_MASK = SRC_K ->
  source (mk_insn c (pack_regs d s) o m) = Ok (Source.Imm m).
Proof using Type. intros Hc. unfold source. simpl. by rewrite Hc. Qed.
End Fields.

(** [source] reads back what [split_source] wrote. *)
Lemma source_split c d o src sbit sreg m :
  source_ok src -> 0 <= d < 16 -> split_source src = (sbit, sreg, m) -> Z.land c SRC_MASK = sbit ->
  source (mk_insn c (pack_regs d sreg) o m) = Ok src.
Proof.
  intros Hs Hd. destruct src as [i | r]; simpl in *; intros [= <- <- <-] Hc.
  - by apply source_imm.
  - by apply source_reg.
Qed.

(** Decoding at the position of one or two freshly encoded slots. *)
Lemma decode_at pre e rest :
  (0 < e.(e_len))%nat ->
  decode (pre ++ slots_of e ++ rest) (length pre) =
    Some (decode_insn (fst e.(e_slots))
            (if decide (e.(e_len) = 1)%nat then rest !! 0%nat else Some (snd e.(e_slots)))).
Proof.
  intros H. unfold decode. rewrite !(lookup_app_r pre), Nat.sub_diag by lia. replace (S (length pre) - length pre)%nat with 1%nat by lia.
  destruct e as [[i j] [| [| [| n]]]]; simpl in *; try lia; unfold slots_of; simpl; done.
Qed.

Ltac nibble := solve [auto | split; [vm_compute; congruence | vm_compute; reflexivity]].

(** Evaluate the decoder on an instruction whose opcode is a constant. *)
Ltac run_decode :=
  unfold enc_one, enc_two; cbn [e_slots fst snd];
  match goal with
  | |- context [mk_insn ?c (pack_regs _ _) _ _] =>
      let c' := eval vm_compute in c in change c with c'
  end;
  unfold decode_insn;
  rewrite dst_raw_pack by nibble;
  match goal with
  | |- context [reg_new (reg_index ?r)] => rewrite (reg_new_index r) by auto
  | |- context [reg_new ?n] => change (reg_new n) with (Some (mk_reg n))
  end;
  cbv -[reg_index source src_reg src_raw decode_imm64 pack_regs wrap swrap wshl Z.lor Z.shiftr lookup].

Lemma decode_encode_alu wide op dst src next :
  reg_ok dst -> source_ok src ->
  decode_insn (fst (e_slots (encode (Decoded.Alu wide op dst src)))) next =
    Ok (Decoded.Alu wide op dst src, 1%nat).
Proof.
  intros Hd Hs. destruct src as [i | r], wide, op; cbn [encode split_source alu_class alu_to_code];
    run_decode; first [rewrite source_imm by reflexivity | rewrite source_reg by auto]; reflexivity.
Qed.

Lemma decode_encode_jmp wide op dst src off next :
  reg_ok dst -> source_ok src ->
  decode_insn (fst (e_slots (encode (Decoded.JumpCond wide op dst src off)))) next =
    Ok (Decoded.JumpCond wide op dst src off, 1%nat).
Proof.
  intros Hd Hs. destruct src as [i | r], wide, op; cbn [encode split_source cond_to_code];
    run_decode; first [rewrite source_imm by reflexivity | rewrite source_reg by auto]; reflexivity.
Qed.

Lemma decode_encode_divmod wide signed dst src next :
  reg_ok dst -> source_ok src ->
  decode_insn (fst (e_slots (encode (Decoded.Div wide signed dst src)))) next =
    Ok (Decoded.Div wide signed dst src, 1%nat) /\
  decode_insn (fst (e_slots (encode (Decoded.Mod wide signed dst src)))) next =
    Ok (Decoded.Mod wide signed dst src, 1%nat).
Proof.
  intros Hd Hs. split; destruct src as [i | r], wide, signed;
    cbn [encode split_source alu_class]; run_decode;
    first [rewrite source_imm by reflexivity | rewrite source_reg by auto]; reflexivity.
Qed.

Lemma decode_encode_mov wide dst src se next :
  reg_ok dst -> source_ok src -> se ∈ [None; Some 8; Some 16; Some 32] ->
  decode_insn (fst (e_slots (encode (Decoded.Mov wide dst src se)))) next =
    Ok (Decoded.Mov wide dst src se, 1%nat).
Proof.
  intros Hd Hs Hse. apply list_elem_of_In in Hse.
  destruct Hse as [<- | [<- | [<- | [<- | []]]]]; destruct src as [i | r], wide;
    cbn [encode split_source alu_class unwrap_or]; run_decode;
    first [rewrite source_imm by reflexivity | rewrite source_reg by auto]; reflexivity.
Qed.

(** The two halves an address-space cast packs into its immediate. *)
Lemma addr_space_halves a b :
  is_u 16 a -> is_u 16 b ->
  u16 (Z.shiftr (u32 (as_i32 (Z.lor (wshl 32 a 16) b))) 16) = a /\
  u16 (u32 (as_i32 (Z.lor (wshl 32 a 16) b))) = b.
Proof.
  intros Ha Hb. rewrite wrap_swrap by lia.
  split; apply (word_ext 16); auto with word; try lia; intros i Hi; autorewrite with bits;
    rewrite ?(proj2 (Z.ltb_lt i 16)), ?(proj2 (Z.ltb_lt i 32)) by lia; simpl.
  - rewrite (proj2 (Z.ltb_lt (i + 16) 32)) by lia. simpl. rewrite (testbit_high 16 b) by (auto; lia).
    rewrite orb_false_r. f_equal. lia.
  - rewrite (Z.testbit_neg_r a) by lia. done.
Qed.

(** The two halves of a wide immediate. *)
Lemma imm64_halves v :
  is_u 64 v ->
  Z.lor (u64_shl (u32 (as_i32 (Z.shiftr v 32))) 32) (u32 (as_i32 (Z.land v 0xFFFFFFFF))) = v.
Proof.
  intros Hv. rewrite !wrap_swrap by lia. change 0xFFFFFFFF with (Z.ones 32).
  apply (word_ext 64); [lia | | exact Hv |].
  { apply lor_range; [lia | by apply wshl_range |].
    apply (is_u_mono 32 64); [lia | by apply wrap_range]. }
  intros i Hi. autorewrite with bits. rewrite (proj2 (Z.ltb_lt i 64)) by lia.
  rewrite Z.testbit_ones_nonneg by lia. destruct (Z.ltb_spec i 32); simpl.
  - rewrite (Z.testbit_neg_r _ (i - 32)) by lia. btauto.
  - rewrite (proj2 (Z.ltb_lt (i - 32) 32)), Z.shiftr_spec, Z.sub_add, orb_false_r by lia. done.
Qed.

(** What the decoder makes of the two slots of a wide immediate. *)
Lemma decode_enc_two dst pseudo lo hi :
  reg_ok dst -> 0 <= pseudo < 16 ->
  let e := enc_two dst.(reg_index) pseudo lo hi in
  decode_insn (fst (e_slots e)) (Some (snd (e_slots e))) =
    decode_imm64 (fst (e_slots e)) (snd (e_slots e)) dst.
Proof. intros Hd Hp. cbv zeta. run_decode. reflexivity. Qed.

Lemma decode_encode_imm64 dst v :
  reg_ok dst -> imm64_ok v ->
  decode_insn (fst (e_slots (encode (Decoded.LoadImm64 dst v))))
    (Some (snd (e_slots (encode (Decoded.LoadImm64 dst v))))) =
    Ok (Decoded.LoadImm64 dst v, 2%nat).
Proof.
  intros Hd Hv. destruct v; cbn [encode]; rewrite decode_enc_two by (auto; nibble);
    unfold decode_imm64, enc_two; cbn [e_slots fst snd code regs off imm];
    rewrite src_raw_pack by nibble; try reflexivity.
  cbn -[u64_shl wrap swrap Z.lor Z.land Z.shiftr]. by rewrite imm64_halves.
Qed.

Lemma encode_len d : e_len (encode d) = match d with Decoded.LoadImm64 _ _ => 2 | _ => 1 end%nat.
Proof.
  destruct d; simpl; try reflexivity;
    repeat first [case_match; simpl; try reflexivity | reflexivity].
Qed.

Lemma decode_insn_encode d next :
  decoded_ok d ->
  decode_insn (fst (e_slots (encode d)))
    (if decide (e_len (encode d) = 1)%nat then next else Some (snd (e_slots (encode d)))) =
    Ok (d, e_len (encode d)).
Proof.
  intros Hd. rewrite !encode_len. destruct d; cbn [decoded_ok] in Hd;
    try rewrite decide_True by reflexivity.
  - by apply decode_encode_alu; apply Hd.
  - destruct wide; cbn [encode alu_class]; run_decode; reflexivity.
  - by apply decode_encode_mov; apply Hd.
  - by apply decode_encode_divmod; apply Hd.
  - by apply decode_encode_divmod; apply Hd.
  - destruct Hd as [Hd Hw]. apply list_elem_of_In in Hw.
    destruct Hw as [<- | [<- | [<- | []]]]; destruct order; cbn [encode]; run_decode; reflexivity.
  - destruct Hd as (Hd & Hs & Ha & Hb). cbn [encode]; run_decode. rewrite src_reg_pack by auto.
    destruct (addr_space_halves dst_as src_as Ha Hb) as [-> ->]. reflexivity.
  - destruct Hd as (Hd & Hs & Ho & Hn).
    destruct size, sign_extend; try (exfalso; by apply Hn); cbn [encode size_to_code];
      run_decode; rewrite src_reg_pack by auto; reflexivity.
  - destruct Hd as (Hd & Ho & Hs). destruct src, size; cbn [encode size_to_code]; run_decode;
      rewrite ?src_reg_pack by auto; reflexivity.
  - destruct Hd as (Hd & Hs & Ho & Hz).
    destruct Hz as [-> | ->]; destruct op as [[] | [] | [] | [] | | | |];
      cbn [encode size_to_code atomic_to_imm]; run_decode; rewrite src_reg_pack by auto; reflexivity.
  - apply decode_encode_imm64; apply Hd.
  - cbn [encode]. unfold is_i in Hd. destruct (_ && _); run_decode; reflexivity.
  - apply decode_encode_jmp; apply Hd.
  - cbn [encode]; run_decode; reflexivity.
  - destruct t; cbn [encode]; run_decode; rewrite src_raw_pack by nibble; reflexivity.
  - reflexivity.
Qed.

(** * What the decoder accepts *)

Lemma reg_new_ok n r : 0 <= n -> reg_new n = Some r -> reg_ok r /\ r.(reg_index) = n.
Proof. unfold reg_new, reg_ok. intros Hn. tests; intros [= <-]. simpl. lia. Qed.

Section Accepted.
Context (insn : Insn) (Hi : insn_ok insn).

Lemma dst_raw_nonneg : 0 <= dst_raw insn.
Proof using Type. apply Z.land_nonneg. right. lia. Qed.

Lemma src_raw_nonneg : 0 <= src_raw insn.
Proof using Hi. apply Z.shiftr_nonneg. apply (ok_regs insn Hi). Qed.

Lemma src_reg_ok r : src_reg insn = Ok r -> reg_ok r.
Proof using Hi.
  intros H. apply ok_or_Ok in H. apply (reg_new_ok (src_raw insn)); [apply src_raw_nonneg | exact H].
Qed.

Lemma source_is_ok s : source insn = Ok s -> source_ok s.
Proof using Hi.
  unfold source. case_match.
  - case_match eqn:E; [| discriminate]. intros [= <-]. by apply src_reg_ok.
  - intros [= <-]. apply (ok_imm insn Hi).
Qed.

(** The decoded form is encodable, and the width is that of its encoding. *)
Definition accepted (res : Result (Decoded * nat) DecodeError) : Prop :=
  match res with
  | Ok (d, n) => decoded_ok d /\ n = e_len (encode d)
  | Err _ => True
  end.

#[local] Hint Resolve src_reg_ok source_is_ok ok_off ok_imm : core.
#[local] Hint Extern 1 (is_u _ (wrap _ _)) => apply wrap_range; lia : core.

Lemma accepted_one d : decoded_ok d -> (forall r v, d <> Decoded.LoadImm64 r v) -> accepted (one d).
Proof using Type. intros Hd Hn. split; [done |]. rewrite encode_len. destruct d; try done. by destruct (Hn dst value). Qed.

Ltac arm :=
  repeat (case_match; try exact I); simplify_eq;
  (apply accepted_one; [simpl | intros ? ?; discriminate]); reflect; split_and?; eauto.

Lemma mov_width_ok o :
  (o =? 8) || (o =? 16) = true -> Some (u8 o) ∈ [None; Some 8; Some 16; Some 32].
Proof using Type.
  intros [H | H]%orb_true_iff; apply Z.eqb_eq in H; subst o; apply (bool_decide_eq_true_1 _); reflexivity.
Qed.

Lemma end_width_ok w :
  (w =? 16) || (w =? 32) || (w =? 64) = true -> u8 w ∈ [16; 32; 64].
Proof using Type.
  intros [[H | H]%orb_true_iff | H]%orb_true_iff; apply Z.eqb_eq in H; subst w;
    apply (bool_decide_eq_true_1 _); reflexivity.
Qed.

#[local] Hint Resolve mov_width_ok end_width_ok : core.
#[local] Hint Extern 1 (_ ∈ _) => apply (bool_decide_eq_true_1 _); reflexivity : core.

Lemma decode_alu_accepted wide dst : reg_ok dst -> accepted (decode_alu insn wide dst).
Proof using Hi. intros Hd. unfold decode_alu. arm. Qed.

Lemma decode_jmp_accepted wide dst : reg_ok dst -> accepted (decode_jmp insn wide dst).
Proof using Hi.
  intros Hd. unfold decode_jmp. arm.
  pose proof (ok_off insn Hi) as Ho. unfold is_i in *. lia.
Qed.

Lemma decode_mem_accepted dst :
  reg_ok dst ->
  accepted (decode_ldx insn dst) /\ accepted (decode_st insn dst) /\ accepted (decode_stx insn dst).
Proof using Hi.
  intros Hd. unfold decode_ldx, decode_st, decode_stx.
  split; [| split]; arm; try (intros [? E]; rewrite E in *); done.
Qed.

Lemma decode_ld_accepted next dst :
  reg_ok dst -> (forall i, next = Some i -> insn_ok i) -> accepted (decode_ld insn next dst).
Proof using Hi.
  intros Hd Hn. unfold decode_ld, decode_imm64. repeat (case_match; try exact I); simplify_eq/=;
    rewrite ?encode_len; split_and?; eauto.
  1: apply lor_range; [lia | by apply wshl_range |].
  1: apply (is_u_mono 32 64); [lia | by apply wrap_range].
  all: apply ok_imm, Hn; by eapply ok_or_Ok.
Qed.

Lemma decode_insn_accepted next :
  (forall i, next = Some i -> insn_ok i) -> accepted (decode_insn insn next).
Proof using Hi.
  intros Hn. unfold decode_insn.
  destruct (ok_or _ _) as [dst | e] eqn:E; [| exact I]. apply ok_or_Ok in E.
  destruct (reg_new_ok _ _ dst_raw_nonneg E) as [Hd _].
  destruct (decode_mem_accepted dst Hd) as (? & ? & ?).
  case_match; auto using decode_alu_accepted, decode_jmp_accepted, decode_ld_accepted.
Qed.
End Accepted.

(** * Encoded words are instruction words *)

Lemma pack_regs_range d s : is_u 8 (pack_regs d s).
Proof.
  apply lor_range; [lia | | by apply wshl_range].
  apply land_range_r; [lia | unfold is_u; lia].
Qed.

Lemma enc_one_ok c d s o m :
  is_u 8 c -> 0 <= d < 16 -> is_i 16 o -> is_i 32 m -> Forall insn_ok (slots_of (enc_one c d s o m)).
Proof.
  intros Hc Hd Ho Hm. constructor; [| constructor].
  split; simpl; auto. apply pack_regs_range.
Qed.

Lemma enc_two_ok d s lo hi :
  0 <= d < 16 -> is_i 32 lo -> is_i 32 hi -> Forall insn_ok (slots_of (enc_two d s lo hi)).
Proof.
  intros Hd Hl Hh. repeat constructor; simpl; try apply pack_regs_range; try done; try lia;
    apply Hl || apply Hh.
Qed.

Ltac byte := solve [split; vm_compute; congruence].

Lemma split_source_ok s sbit sreg m :
  source_ok s -> split_source s = (sbit, sreg, m) -> is_u 8 sbit /\ is_i 32 m.
Proof. destruct s; intros Hs [= <- <- <-]; split; try exact Hs; byte. Qed.

Lemma lor_u8 a b : is_u 8 a -> is_u 8 b -> is_u 8 (Z.lor a b).
Proof. by apply lor_range. Qed.

Lemma alu_class_u8 w : is_u 8 (alu_class w).
Proof. destruct w; byte. Qed.

Lemma alu_to_code_u8 op : is_u 8 (alu_to_code op).
Proof. destruct op; byte. Qed.

Lemma cond_to_code_u8 op : is_u 8 (cond_to_code op).
Proof. destruct op; byte. Qed.

Lemma size_to_code_u8 s : is_u 8 (size_to_code s).
Proof. destruct s; byte. Qed.

Lemma atomic_to_imm_i32 op : is_i 32 (atomic_to_imm op).
Proof. destruct op as [[] | [] | [] | [] | | | |]; byte. Qed.

Create HintDb enc.
#[local] Hint Resolve enc_one_ok enc_two_ok lor_u8 alu_class_u8 alu_to_code_u8 cond_to_code_u8
  size_to_code_u8 atomic_to_imm_i32 reg_ok_nibble : enc.
#[local] Hint Extern 1 (is_i _ (swrap _ _)) => apply swrap_range; lia : enc.
#[local] Hint Extern 3 (is_u _ _) => byte : enc.
#[local] Hint Extern 3 (is_i _ _) => byte : enc.
#[local] Hint Extern 3 (_ <= _ < _) => byte : enc.

Lemma encode_words d : decoded_ok d -> Forall insn_ok (slots_of (encode d)).
Proof.
  destruct d; cbn [decoded_ok encode]; intros Hd; destruct_and?;
    repeat match goal with
    | H : source_ok ?s |- context [split_source ?s] =>
        destruct (split_source s) as [[sbit sreg] m] eqn:E;
        apply (split_source_ok _ _ _ _ H) in E; destruct E; clear H
    end; auto 7 with enc;
    repeat match goal with
    | H : _ ∈ _ |- _ => apply list_elem_of_In in H; simpl in H;
        repeat (destruct H as [<- | H]); [.. | destruct H]
    end; try (repeat case_match; simplify_eq/=; destruct_and?; auto 7 with enc; fail).
  destruct ((-32768 <=? off) && (off <=? 32767)) eqn:E; reflect; auto with enc.
  apply enc_one_ok; auto with enc. unfold is_i. lia.
Qed.

(** * Byte images *)

Lemma bytes_roundtrip i : insn_ok i -> from_bytes (to_bytes i) = Some i.
Proof.
  intros [Hc Hr Ho Hm]. destruct i as [c r o m]. cbn [code regs off imm] in *.
  pose proof (le_value_bytes 2 o) as E2. pose proof (le_value_bytes 4 m) as E4.
  cbn [le_bytes] in E2, E4. cbn [to_bytes code regs off imm le_bytes app from_bytes].
  rewrite E2, E4. change (8 * Z.of_nat 2) with 16. change (8 * Z.of_nat 4) with 32.
  fold (wrap 16 o) (wrap 32 m). by rewrite !swrap_wrap, !swrap_small by (lia || done).
Qed.

Lemma chunks_images p : Forall insn_ok p -> chunks (length p) (flat_map to_bytes p) = p.
Proof.
  induction 1 as [| i p Hi Hp IH]; [done |]. cbn [length flat_map chunks].
  change (Z.to_nat INSN_SIZE) with (length (to_bytes i)).
  rewrite take_app_length, drop_app_length, bytes_roundtrip, IH by done. done.
Qed.

Lemma images_length p : length (flat_map to_bytes p) = (8 * length p)%nat.
Proof. induction p as [| i p IH]; [done |]. cbn [flat_map length]. rewrite length_app, IH. simpl. lia. Qed.

Lemma slots_images p : Forall insn_ok p -> slots_from_bytes (flat_map to_bytes p) = Some p.
Proof.
  intros Hp. unfold slots_from_bytes. rewrite images_length, Nat2Z.inj_mul.
  change INSN_SIZE with 8. change (Z.of_nat 8) with 8. rewrite Z.mul_comm, Z.mod_mul, Z.div_mul by lia.
  simpl. by rewrite Nat2Z.id, chunks_images.
Qed.

(** * Programs *)

(** The slots of a program, one instruction after the other. *)
Definition assemble (ds : list Decoded) : list Insn := flat_map (fun d => slots_of (encode d)) ds.

Lemma slots_length d : length (slots_of (encode d)) = e_len (encode d).
Proof. unfold slots_of. rewrite encode_len. by destruct d. Qed.

Lemma assemble_words ds : Forall decoded_ok ds -> Forall insn_ok (assemble ds).
Proof.
  induction 1 as [| d ds Hd _ IH]; [constructor |]. apply Forall_app. auto using encode_words.
Qed.

Lemma assemble_split ds k d :
  ds !! k = Some d ->
  assemble ds = assemble (take k ds) ++ slots_of (encode d) ++ assemble (drop (S k) ds).
Proof.
  intros Hk. rewrite <- (take_drop_middle ds k d Hk) at 1. unfold assemble.
  by rewrite flat_map_app.
Qed.

Lemma decode_encoded pre d rest :
  decoded_ok d ->
  decode (pre ++ slots_of (encode d) ++ rest) (length pre) =
    Some (Ok (d, length (slots_of (encode d)))).
Proof.
  intros Hd. rewrite decode_at, decode_insn_encode, slots_length; [done | exact Hd |].
  rewrite encode_len. destruct d; lia.
Qed.

(** C25: the decoder inverts the encoder on whole programs of instructions that
    are [decoded_ok]: registers 0 to 10, immediates and offsets in the ranges of
    their fields, and only combinations the encoding has, so 32- and 64-bit
    atomics, byte swaps of width 16, 32 or 64, no sign-extending 64-bit load and
    no sign-extending move but of 8, 16 or 32 bits.  The byte image of such a
    program parses back to its slots, and at the slot where the k-th instruction
    starts, [decode] returns that instruction and the number of slots it takes,
    whatever surrounds it.  Without the condition this fails: see
    [encode_not_total]. *)
Theorem program_roundtrip ds k d :
  Forall decoded_ok ds -> ds !! k = Some d ->
  slots_from_bytes (flat_map to_bytes (assemble ds)) = Some (assemble ds) /\
  decode (assemble ds) (length (assemble (take k ds))) =
    Some (Ok (d, length (slots_of (encode d)))).
Proof.
  intros Hds Hk. split; [by apply slots_images, assemble_words |].
  rewrite (assemble_split ds k d Hk) at 1. apply decode_encoded.
  by apply (Forall_lookup_1 _ _ _ _ Hds Hk).
Qed.

Lemma program_roundtrip_witness :
  let ds := [Decoded.LoadImm64 R1 (Imm64.Value 0x123456789abcdef0);
             Decoded.JumpCond true CondOp.Sgt R1 (Source.Imm (-7)) (-3); Decoded.Exit] in
  slots_from_bytes (flat_map to_bytes (assemble ds)) = Some (assemble ds) /\
  decode (assemble ds) 2 =
    Some (Ok (Decoded.JumpCond true CondOp.Sgt R1 (Source.Imm (-7)) (-3), 1%nat)).
Proof.
  intros ds. apply (program_roundtrip ds 1).
  - repeat constructor; simpl; repeat split; vm_compute; congruence.
  - reflexivity.
Defined.

Lemma decode_insn_last w d n : decode_insn w None = Ok (d, n) -> n = 1%nat.
Proof.
  unfold decode_insn, decode_alu, decode_jmp, decode_ldx, decode_st, decode_stx, decode_ld, one.
  intros H. repeat (case_match; try discriminate); simplify_eq/=; try done.
Qed.

Lemma decode_shape prog i d n :
  Forall insn_ok prog -> decode prog i = Some (Ok (d, n)) ->
  decoded_ok d /\ (i + n <= length prog)%nat /\ n = e_len (encode d) /\ (1 <= n <= 2)%nat.
Proof.
  intros Hp Hdec. unfold decode in Hdec. destruct (prog !! i) as [w |] eqn:Hw; [| discriminate].
  injection Hdec as Hdec.
  pose proof (decode_insn_accepted w (Forall_lookup_1 _ _ _ _ Hp Hw) (prog !! S i)
    (fun j Hj => Forall_lookup_1 _ _ _ _ Hp Hj)) as A.
  rewrite Hdec in A. destruct A as [Hd ->].
  assert (L : (1 <= e_len (encode d) <= 2)%nat) by (rewrite encode_len; destruct d; lia).
  split_and!; try done; try lia. pose proof (lookup_lt_Some _ _ _ Hw).
  destruct (prog !! S i) as [w' |] eqn:Hw'; [apply lookup_lt_Some in Hw'; lia |].
  apply decode_insn_last in Hdec. lia.
Qed.

(** what the decoder accepts is encodable, and re-encoding is canonical.
    On instruction words of the declared field widths, a successful [decode]
    at slot [i] returns a well-formed instruction, consumes exactly the slots
    its encoding takes (so it never runs past the program), and the
    re-encoded slots are again instruction words that decode to the same
    instruction. *)
Lemma decode_canonical prog i d n :
  Forall insn_ok prog -> decode prog i = Some (Ok (d, n)) ->
  decoded_ok d /\ (i + n <= length prog)%nat /\ (1 <= n <= 2)%nat /\
  Forall insn_ok (slots_of (encode d)) /\
  decode (slots_of (encode d)) 0 = Some (Ok (d, n)).
Proof.
  intros Hp Hdec. destruct (decode_shape prog i d n Hp Hdec) as (Hd & L & -> & Hn).
  pose proof (decode_encoded [] d [] Hd) as R. simpl in R. rewrite app_nil_r, slots_length in R.
  split_and!; auto using encode_words; lia.
Qed.

Lemma decode_canonical_witness :
  let prog := [mk_insn 0x18 1 0 (-1); mk_insn 0 0 0 7; mk_insn 0x95 0 0 0] in
  decoded_ok (Decoded.LoadImm64 R1 (Imm64.Value 0x7ffffffff)) /\ (0 + 2 <= 3)%nat /\
  (1 <= 2 <= 2)%nat /\
  Forall insn_ok (slots_of (encode (Decoded.LoadImm64 R1 (Imm64.Value 0x7ffffffff)))) /\
  decode (slots_of (encode (Decoded.LoadImm64 R1 (Imm64.Value 0x7ffffffff)))) 0 =
    Some (Ok (Decoded.LoadImm64 R1 (Imm64.Value 0x7ffffffff), 2%nat)).
Proof.
  intros prog. apply (decode_canonical prog 0).
  - repeat constructor; vm_compute; congruence.
  - vm_compute. reflexivity.
Defined.

(** Not every [Decoded] value is a valid instruction.  Values with a
    shape outside [decoded_ok] encode to words the decoder rejects, or reads
    as another instruction: a sign-extending double-word load, a byte-wide
    atomic, a byte swap of an unsupported width, and a [Mov] whose
    sign-extension width is the address-space-cast marker. *)
Lemma encode_not_total :
  decode (slots_of (encode (Decoded.Load Size.Dw true R0 R1 0))) 0 =
    Some (Err (BadMode MODE_MEMSX)) /\
  decode (slots_of (encode (Decoded.Atomic Size.B AtomicOp.Xchg R0 R1 0))) 0 =
    Some (Err (BadMode SIZE_B)) /\
  decode (slots_of (encode (Decoded.End_ R0 ByteOrder.Big 8))) 0 = Some (Err (BadImm 8)) /\
  decode (slots_of (encode (Decoded.Mov true R0 (Source.Reg R1) (Some 1)))) 0 =
    Some (Ok (Decoded.AddrSpaceCast R0 R1 0 0, 1%nat)).
Proof. repeat split; vm_compute; reflexivity. Qed.
