(* ===== verification/Tnum.v ===== *)
(** Tristate numbers: the bit-level half of the BPF verifier's value domain
    ([Tnum] of [bpf/verifier/src/domain.rs]).

    A tnum denotes the set of 64-bit words that agree with [value] on every
    bit outside [mask].  The operations are translated as they are written;
    the theorems state what each of them does to the set it denotes. *)

From S2P Require Import Prelude Word.

Record Tnum : Type := mk_tnum { value : Z; mask : Z }.

#[export] Instance Tnum_eq_dec : EqDecision Tnum.
Proof. solve_decision. Defined.

Definition SIGN : Z := 2 ^ 63.

(** [u64::leading_zeros]. *)
Definition leading_zeros (x : Z) : Z := if x =? 0 then 64 else 63 - Z.log2 x.

Module tnum.
Definition UNKNOWN : Tnum := mk_tnum 0 U64_MAX.

Definition ZERO : Tnum := mk_tnum 0 0.

Definition constant (v : Z) : Tnum := mk_tnum v 0.

Definition is_const (t : Tnum) : bool := t.(mask) =? 0.

Definition contains (t : Tnum) (v : Z) : bool := Z.land v (u64_not t.(mask)) =? t.(value).

Definition unsigned_bounds (t : Tnum) : Z * Z := (t.(value), Z.lor t.(value) t.(mask)).

Definition signed_bounds (t : Tnum) : Z * Z :=
  let can_be_neg := negb (Z.land (Z.lor t.(value) t.(mask)) SIGN =? 0) in
  let can_be_pos := Z.land t.(value) SIGN =? 0 in
  let lo := if can_be_neg then as_i64 (Z.lor t.(value) SIGN) else as_i64 t.(value) in
  let hi := if can_be_pos then as_i64 (Z.land (Z.lor t.(value) t.(mask)) (u64_not SIGN))
            else as_i64 (Z.lor t.(value) t.(mask)) in
  (lo, hi).

Definition from_unsigned_range (lo hi : Z) : Tnum :=
  if hi <? lo then UNKNOWN
  else
    let differing := Z.lxor lo hi in
    if differing =? 0 then constant lo
    else
      let bits := 64 - leading_zeros differing in
      if 64 <=? bits then UNKNOWN
      else
        let delta := u64_shl 1 bits - 1 in
        mk_tnum (Z.land hi (u64_not delta)) delta.

Definition join (a b : Tnum) : Tnum :=
  let mu := Z.lor (Z.lor a.(mask) b.(mask)) (Z.lxor a.(value) b.(value)) in
  mk_tnum (Z.land a.(value) (u64_not mu)) mu.

Definition meet (a b : Tnum) : option Tnum :=
  if negb (Z.land (Z.lxor a.(value) b.(value)) (u64_not (Z.lor a.(mask) b.(mask))) =? 0)
  then None
  else
    let mu := Z.land a.(mask) b.(mask) in
    Some (mk_tnum (Z.land (Z.lor a.(value) b.(value)) (u64_not mu)) mu).

Definition is_subset_of (a b : Tnum) : bool :=
  (Z.land a.(mask) (u64_not b.(mask)) =? 0) &&
  (Z.land (Z.lxor a.(value) b.(value)) (u64_not b.(mask)) =? 0).

Definition add (a b : Tnum) : Tnum :=
  let sm := u64 (a.(mask) + b.(mask)) in
  let sv := u64 (a.(value) + b.(value)) in
  let sigma := u64 (sm + sv) in
  let chi := Z.lxor sigma sv in
  let mu := Z.lor (Z.lor chi a.(mask)) b.(mask) in
  mk_tnum (Z.land sv (u64_not mu)) mu.

Definition sub (a b : Tnum) : Tnum :=
  let dv := u64 (a.(value) - b.(value)) in
  let alpha := u64 (dv + a.(mask)) in
  let beta := u64 (dv - b.(mask)) in
  let chi := Z.lxor alpha beta in
  let mu := Z.lor (Z.lor chi a.(mask)) b.(mask) in
  mk_tnum (Z.land dv (u64_not mu)) mu.

Definition and (a b : Tnum) : Tnum :=
  let alpha := Z.lor a.(value) a.(mask) in
  let beta := Z.lor b.(value) b.(mask) in
  let v := Z.land a.(value) b.(value) in
  mk_tnum v (Z.land (Z.land alpha beta) (u64_not v)).

Definition or (a b : Tnum) : Tnum :=
  let v := Z.lor a.(value) b.(value) in
  let mu := Z.lor a.(mask) b.(mask) in
  mk_tnum v (Z.land mu (u64_not v)).

Definition xor (a b : Tnum) : Tnum :=
  let v := Z.lxor a.(value) b.(value) in
  let mu := Z.lor a.(mask) b.(mask) in
  mk_tnum (Z.land v (u64_not mu)) mu.

Definition shl (t : Tnum) (n : Z) : Tnum :=
  if 64 <=? n then ZERO else mk_tnum (u64_shl t.(value) n) (u64_shl t.(mask) n).

Definition shr (t : Tnum) (n : Z) : Tnum :=
  if 64 <=? n then ZERO else mk_tnum (Z.shiftr t.(value) n) (Z.shiftr t.(mask) n).

Definition sar (t : Tnum) (n : Z) : Tnum :=
  let n := if 64 <=? n then 63 else n in
  mk_tnum (u64 (Z.shiftr (as_i64 t.(value)) n)) (u64 (Z.shiftr (as_i64 t.(mask)) n)).

(** The loop of [mul]: at most [steps] more iterations. *)
Fixpoint mul_loop (steps : nat) (acc a b : Tnum) : Tnum :=
  match steps with
  | O => acc
  | S steps =>
      if negb (Z.lor a.(value) a.(mask) =? 0) then
        let acc :=
          if negb (Z.land a.(value) 1 =? 0) then add acc b
          else if negb (Z.land a.(mask) 1 =? 0)
          then add acc (mk_tnum 0 (Z.lor b.(value) b.(mask)))
          else acc in
        mul_loop steps acc (shr a 1) (shl b 1)
      else acc
  end.

Definition mul (a b : Tnum) : Tnum := mul_loop 64 ZERO a b.

Definition zero_extend (t : Tnum) (bits : Z) : Tnum :=
  if 64 <=? bits then t
  else
    let keep := u64_shl 1 bits - 1 in
    mk_tnum (Z.land t.(value) keep) (Z.land t.(mask) keep).

(** [shift] is 64 when [bits] is 0; the release build reduces the amount of a
    shift modulo the width. *)
Definition sign_extend (t : Tnum) (bits : Z) : Tnum :=
  if 64 <=? bits then t
  else
    let shift := (64 - bits) mod 64 in
    mk_tnum (u64 (Z.shiftr (as_i64 (u64_shl t.(value) shift)) shift))
            (u64 (Z.shiftr (as_i64 (u64_shl t.(mask) shift)) shift)).
End tnum.
