(* ===== verification/TnumSound.v ===== *)
(** The sets the tristate numbers denote, and what the operations of
    [Tnum] do to them. *)

From S2P Require Import Prelude Word Tnum.
Import tnum.

(** The invariant the source states: an unknown bit is 0 in [value]. *)
Record wf (t : Tnum) : Prop := {
  wf_value : is_u 64 t.(value);
  wf_mask : is_u 64 t.(mask);
  wf_disjoint : Z.land t.(value) t.(mask) = 0
}.

#[export] Hint Resolve wf_value wf_mask : word.

Lemma wf_at t i : wf t -> Z.testbit t.(mask) i = true -> Z.testbit t.(value) i = false.
Proof.
  intros [_ _ H] E. apply (f_equal (fun z => Z.testbit z i)) in H.
  rewrite Z.land_spec, Z.bits_0, E, andb_true_r in H. exact H.
Qed.

Lemma wf_intro v m :
  is_u 64 v -> is_u 64 m ->
  (forall i, 0 <= i < 64 -> Z.testbit m i = true -> Z.testbit v i = false) -> wf (mk_tnum v m).
Proof.
  intros Hv Hm H. split; simpl; auto. apply (word_ext 64); auto with word; [unfold is_u; lia |].
  intros i Hi. autorewrite with bits. specialize (H i Hi).
  destruct (Z.testbit m i); [by rewrite H | btauto].
Qed.

(** Membership, bit by bit. *)
Lemma contains_bits t v :
  wf t ->
  contains t v = true <->
  forall i, 0 <= i < 64 -> Z.testbit t.(mask) i = false -> Z.testbit v i = Z.testbit t.(value) i.
Proof.
  intros W. unfold contains. rewrite Z.eqb_eq. split.
  - intros <- i Hi Hm. autorewrite with bits. rewrite Hm, (proj2 (Z.ltb_lt i 64)) by lia. simpl. btauto.
  - intros H. apply (word_ext 64); auto with word.
    intros i Hi. autorewrite with bits. rewrite (proj2 (Z.ltb_lt i 64)) by lia. simpl.
    destruct (Z.testbit (mask t) i) eqn:E; simpl.
    + rewrite (wf_at t i W E). btauto.
    + rewrite andb_true_r. auto.
Qed.

(** Bit-level goals: introduce bit [i], bring the hypotheses to it, and
    decide the boolean identity. *)
Ltac at_bit i Hi :=
  repeat match goal with
  | W : wf ?t, C : contains ?t ?v = true |- _ =>
      lazymatch goal with
      | _ : Z.testbit (mask t) i = false -> Z.testbit v i = Z.testbit (value t) i |- _ => fail
      | _ => pose proof (proj1 (contains_bits t v W) C i Hi)
      end
  end;
  repeat match goal with
  | W : wf ?t |- _ =>
      lazymatch goal with
      | _ : Z.testbit (mask t) i = true -> Z.testbit (value t) i = false |- _ => fail
      | _ => pose proof (wf_at t i W)
      end
  end.

Ltac decide_bits i :=
  repeat match goal with
  | |- context [Z.testbit ?x i] => destruct (Z.testbit x i)
  | H : context [Z.testbit ?x i] |- _ => destruct (Z.testbit x i)
  end; simpl in *; intuition congruence.

Ltac solve_bits i Hi :=
  at_bit i Hi; cbn [value mask and or xor join] in *; autorewrite with bits in *;
  rewrite ?(proj2 (Z.ltb_lt i 64)) in * by lia; decide_bits i.

Lemma wf_mk v m : is_u 64 v -> is_u 64 m -> wf (mk_tnum (Z.land v (u64_not m)) m).
Proof. intros Hv Hm. apply wf_intro; auto with word. intros i Hi. solve_bits i Hi. Qed.

Lemma wf_ZERO : wf ZERO.
Proof. by split. Qed.

Lemma wf_UNKNOWN : wf UNKNOWN.
Proof. by split. Qed.

Lemma wf_constant v : is_u 64 v -> wf (constant v).
Proof. intros H. split; simpl; [exact H | done | apply Z.land_0_r]. Qed.

#[export] Hint Resolve wf_mk wf_ZERO wf_UNKNOWN wf_constant : word.

Section Binary.
Context (a b : Tnum) (Wa : wf a) (Wb : wf b).

Lemma wf_join : wf (join a b).
Proof using Wa Wb. apply wf_mk; auto with word. Qed.

Lemma wf_add : wf (add a b).
Proof using Wa Wb. apply wf_mk; auto 6 with word. Qed.

Lemma wf_sub : wf (sub a b).
Proof using Wa Wb. apply wf_mk; auto 6 with word. Qed.

Lemma wf_and : wf (and a b).
Proof using Wa Wb. apply wf_intro; auto 7 with word. intros i Hi. solve_bits i Hi. Qed.

Lemma wf_or : wf (or a b).
Proof using Wa Wb. apply wf_intro; auto 7 with word. intros i Hi. solve_bits i Hi. Qed.

Lemma wf_xor : wf (xor a b).
Proof using Wa Wb. apply wf_mk; auto 6 with word. Qed.

Lemma wf_meet t : meet a b = Some t -> wf t.
Proof using Wa Wb. unfold meet. case_match; [done |]. intros [= <-]. apply wf_mk; auto 6 with word. Qed.
End Binary.

#[export] Hint Resolve wf_join wf_add wf_sub wf_and wf_or wf_xor : word.

(** * Constants and the top element *)

Lemma contains_constant c v : is_u 64 c -> is_u 64 v -> contains (constant c) v = true <-> v = c.
Proof.
  intros Hc Hv. rewrite contains_bits by auto with word. split; [| by intros ->].
  intros H. apply (word_ext 64); auto; [lia |]. intros i Hi. apply H; [exact Hi | apply Z.bits_0].
Qed.

Lemma contains_UNKNOWN v : contains UNKNOWN v = true.
Proof.
  apply contains_bits; [auto with word |]. intros i Hi. simpl.
  change U64_MAX with (Z.ones 64). rewrite Z.testbit_ones_nonneg by lia.
  rewrite (proj2 (Z.ltb_lt i 64)) by lia. done.
Qed.

(** A non-empty set: [value] is always a member. *)
Lemma contains_value t : wf t -> contains t t.(value) = true.
Proof. intros W. by apply contains_bits. Qed.

Lemma contains_lor t : wf t -> contains t (Z.lor t.(value) t.(mask)) = true.
Proof.
  intros W. apply contains_bits; [exact W |]. intros i Hi Hm. autorewrite with bits. rewrite Hm. btauto.
Qed.

Lemma contains_le t v :
  wf t -> is_u 64 v -> contains t v = true -> t.(value) <= v <= Z.lor t.(value) t.(mask).
Proof.
  intros W Hv C. split; apply (word_subset_le 64); auto with word; intros i Hi; solve_bits i Hi.
Qed.

(** The members are [value] plus a sub-word of [mask]; the lemmas below are
    about the words below bit [i]. *)
Lemma contains_wrap_le t v i :
  wf t -> contains t v = true -> 0 <= i <= 64 ->
  wrap i t.(value) <= wrap i v /\ wrap i v <= wrap i (t.(value) + t.(mask)).
Proof.
  intros W C Hi. rewrite (add_disjoint _ _ (wf_disjoint t W)).
  split; apply wrap_subset; try lia; intros j Hj; assert (Hj' : 0 <= j < 64) by lia; solve_bits j Hj'.
Qed.

(** * Bitwise operations are exact *)

(** A member of [t] chosen by the bits of [z] where [t] leaves them open. *)
Definition pick (t : Tnum) (z : Z) : Z := Z.lor t.(value) (Z.land t.(mask) z).

Lemma pick_range t z : wf t -> is_u 64 (pick t z).
Proof. intros W. unfold pick. auto with word. Qed.

Lemma contains_pick t z : wf t -> contains t (pick t z) = true.
Proof. intros W. apply contains_bits; [exact W |]. unfold pick. intros i Hi. solve_bits i Hi. Qed.

Section Exact.
Context (a b : Tnum) (Wa : wf a) (Wb : wf b).

Ltac tnum_bits := apply contains_bits; [auto with word |]; intros i Hi; solve_bits i Hi.

Lemma tnum_and_sound x y : contains a x = true -> contains b y = true -> contains (and a b) (Z.land x y) = true.
Proof using Wa Wb. intros Ca Cb. tnum_bits. Qed.

Lemma tnum_or_sound x y : contains a x = true -> contains b y = true -> contains (or a b) (Z.lor x y) = true.
Proof using Wa Wb. intros Ca Cb. tnum_bits. Qed.

Lemma tnum_xor_sound x y : contains a x = true -> contains b y = true -> contains (xor a b) (Z.lxor x y) = true.
Proof using Wa Wb. intros Ca Cb. tnum_bits. Qed.

Lemma and_complete z :
  is_u 64 z -> contains (and a b) z = true -> Z.land (pick a z) (pick b z) = z.
Proof using Wa Wb.
  intros Hz C. pose proof (wf_and a b Wa Wb) as Wc. apply (word_ext 64); auto using pick_range with word.
  intros i Hi. unfold pick. solve_bits i Hi.
Qed.

Lemma or_complete z :
  is_u 64 z -> contains (or a b) z = true -> Z.lor (pick a z) (pick b z) = z.
Proof using Wa Wb.
  intros Hz C. pose proof (wf_or a b Wa Wb) as Wc. apply (word_ext 64); auto using pick_range with word.
  intros i Hi. unfold pick. solve_bits i Hi.
Qed.

Lemma xor_complete z :
  is_u 64 z -> contains (xor a b) z = true ->
  let x := pick a (Z.lxor z b.(value)) in Z.lxor x (pick b (Z.lxor z x)) = z.
Proof using Wa Wb.
  intros Hz C. cbv zeta. pose proof (wf_xor a b Wa Wb) as Wc.
  apply (word_ext 64); auto using pick_range with word.
  intros i Hi. unfold pick. solve_bits i Hi.
Qed.
End Exact.

(** * The lattice *)

Section Lattice.
Context (a b : Tnum) (Wa : wf a) (Wb : wf b).

Lemma subset_bits :
  is_subset_of a b = true <->
  forall i, 0 <= i < 64 -> Z.testbit b.(mask) i = false ->
    Z.testbit a.(mask) i = false /\ Z.testbit a.(value) i = Z.testbit b.(value) i.
Proof using Wa Wb.
  unfold is_subset_of. rewrite andb_true_iff, !Z.eqb_eq. split.
  - intros [H1 H2] i Hi Hm.
    apply (f_equal (fun z => Z.testbit z i)) in H1, H2. solve_bits i Hi.
  - intros H. split; apply (word_ext 64); auto with word; try (unfold is_u; lia);
      intros i Hi; specialize (H i Hi); solve_bits i Hi.
Qed.

(** The subset test decides inclusion of the denoted sets. *)
Lemma subset_spec :
  is_subset_of a b = true <->
  forall v, is_u 64 v -> contains a v = true -> contains b v = true.
Proof using Wa Wb.
  rewrite subset_bits. split.
  - intros H v Hv C. apply contains_bits; [exact Wb |]. intros i Hi Hm.
    specialize (H i Hi Hm). solve_bits i Hi.
  - intros H i Hi Hm.
    pose proof (H _ (wf_value a Wa) (contains_value a Wa)) as C1.
    assert (C2 : contains b (Z.lor (value a) (mask a)) = true)
      by (apply H; [| by apply contains_lor]; auto with word).
    solve_bits i Hi.
Qed.

End Lattice.

Section Bounds.
Context (a b : Tnum) (Wa : wf a) (Wb : wf b).

Lemma join_least t :
  wf t -> is_subset_of (join a b) t = true <-> is_subset_of a t = true /\ is_subset_of b t = true.
Proof using Wa Wb.
  intros Wt. pose proof (wf_join a b Wa Wb) as Wj. rewrite !subset_bits by auto. split.
  - intros H. split; intros i Hi Hm; specialize (H i Hi Hm); solve_bits i Hi.
  - intros [H1 H2] i Hi Hm; specialize (H1 i Hi Hm); specialize (H2 i Hi Hm); solve_bits i Hi.
Qed.

Lemma join_sound v :
  is_u 64 v -> contains a v = true \/ contains b v = true -> contains (join a b) v = true.
Proof using Wa Wb.
  intros Hv C. pose proof (wf_join a b Wa Wb) as Wj.
  destruct (proj1 (join_least (join a b) Wj)) as [Sa Sb]; [by apply subset_spec |].
  destruct C as [C | C]; [by apply (subset_spec a _) | by apply (subset_spec b _)].
Qed.

Lemma meet_sound v :
  is_u 64 v ->
  contains a v = true /\ contains b v = true <-> exists t, meet a b = Some t /\ contains t v = true.
Proof using Wa Wb.
  intros Hv. unfold meet. rewrite (if_negb).
  destruct (Z.eqb_spec (Z.land (Z.lxor (value a) (value b)) (u64_not (Z.lor (mask a) (mask b)))) 0) as [E | E].
  - assert (W : wf (mk_tnum (Z.land (Z.lor (value a) (value b)) (u64_not (Z.land (mask a) (mask b))))
        (Z.land (mask a) (mask b)))) by auto 7 with word.
    assert (H : forall i, 0 <= i < 64 -> Z.testbit (mask a) i = false -> Z.testbit (mask b) i = false ->
        Z.testbit (value a) i = Z.testbit (value b) i).
    { intros i Hi. apply (f_equal (fun z => Z.testbit z i)) in E. solve_bits i Hi. }
    split.
    + intros [Ca Cb]. eexists. split; [reflexivity |]. apply contains_bits; [exact W |].
      intros i Hi. solve_bits i Hi.
    + intros (t & [= <-] & C).
      split; apply contains_bits; auto; intros i Hi; specialize (H i Hi); solve_bits i Hi.
  - split; [| by intros (t & [=] & _)]. intros [Ca Cb]. destruct E.
    apply (word_ext 64); auto 6 with word; [unfold is_u; lia |].
    intros i Hi. solve_bits i Hi.
Qed.
End Bounds.

(** * Arithmetic *)

(** The largest member is [value + mask]. *)
Lemma testbit_max t i : wf t -> Z.testbit (t.(value) + t.(mask)) i = Z.testbit (Z.lor t.(value) t.(mask)) i.
Proof. intros W. by rewrite (add_disjoint _ _ (wf_disjoint t W)). Qed.

Section Arith.
Context (a b : Tnum) (Wa : wf a) (Wb : wf b).
Context (x y : Z) (Ca : contains a x = true) (Cb : contains b y = true).

(** The carry into a bit of [x + y] lies between the carries of the least and
    of the greatest members; where those agree the bit is known. *)
Lemma tnum_add_sound : contains (add a b) (u64 (x + y)) = true.
Proof using Wa Wb Ca Cb.
  apply contains_bits; [auto with word |]. intros i Hi. unfold add. cbn [value mask].
  rewrite wrap_add. replace (mask a + mask b + (value a + value b))
    with ((value a + mask a) + (value b + mask b)) by lia.
  autorewrite with bits. rewrite (proj2 (Z.ltb_lt i 64)) by lia. cbn [andb].
  rewrite (testbit_add (value a + mask a)), (testbit_add (value a) (value b)), (testbit_add x y),
    !testbit_max by (lia || done).
  destruct (contains_wrap_le a x i Wa Ca) as [La Ua]; [lia |].
  destruct (contains_wrap_le b y i Wb Cb) as [Lb Ub]; [lia |].
  pose proof (carry_mono i _ _ _ _ La Lb). pose proof (carry_mono i _ _ _ _ Ua Ub).
  destruct (carry i x y), (carry i (value a) (value b)),
    (carry i (value a + mask a) (value b + mask b)); try (intuition discriminate);
    clear - Wa Wb Ca Cb Hi; solve_bits i Hi.
Qed.

Lemma tnum_sub_sound : contains (sub a b) (u64 (x - y)) = true.
Proof using Wa Wb Ca Cb.
  apply contains_bits; [auto with word |]. intros i Hi. unfold sub. cbn [value mask].
  rewrite wrap_add_l, wrap_sub_l.
  replace (value a - value b + mask a) with ((value a + mask a) - value b) by lia.
  replace (value a - value b - mask b) with (value a - (value b + mask b)) by lia.
  autorewrite with bits. rewrite (proj2 (Z.ltb_lt i 64)) by lia. cbn [andb].
  rewrite (testbit_sub (value a + mask a)), (testbit_sub (value a) (value b)), (testbit_sub x y),
    (testbit_sub (value a)), !testbit_max by (lia || done).
  destruct (contains_wrap_le a x i Wa Ca) as [La Ua]; [lia |].
  destruct (contains_wrap_le b y i Wb Cb) as [Lb Ub]; [lia |].
  pose proof (borrow_mono i (value a + mask a) (value b) x y). pose proof (borrow_mono i x y (value a) (value b + mask b)).
  pose proof (borrow_mono i (value a + mask a) (value b) (value a) (value b)).
  pose proof (borrow_mono i (value a) (value b) (value a) (value b + mask b)).
  destruct (borrow i x y), (borrow i (value a) (value b)),
    (borrow i (value a + mask a) (value b)), (borrow i (value a) (value b + mask b));
    try (exfalso; intuition (try discriminate; try lia); fail);
    clear - Wa Wb Ca Cb Hi; solve_bits i Hi.
Qed.
End Arith.
