(* ===== verification/TnumRange.v ===== *)
(** Tristate numbers, continued: shifts and extensions, multiplication,
    bounds and ranges, and the contract of the whole component. *)

From S2P Require Import Prelude Word Tnum TnumSound.
Import tnum.

(** * Shifts and extensions *)

(** Membership only looks at the low 64 bits. *)
Lemma contains_u64 t v : wf t -> contains t (u64 v) = contains t v.
Proof.
  intros W. apply Bool.eq_true_iff_eq. rewrite !contains_bits by exact W.
  split; intros H i Hi Hm; specialize (H i Hi Hm);
    rewrite testbit_wrap, (proj2 (Z.ltb_lt i 64)) in * by lia; exact H.
Qed.

(** The word whose bit [i] is bit [f i] of [v], or 0 where [f] has none. *)
Definition moves (f : Z -> option Z) (g : Z -> Z) : Prop :=
  forall v, is_u 64 v -> is_u 64 (g v) /\
    forall i, 0 <= i < 64 ->
      Z.testbit (g v) i = match f i with Some j => Z.testbit v j | None => false end.

(** An operation that moves the bits of both components moves the members. *)
Lemma moves_sound f g t v :
  (forall i j, 0 <= i < 64 -> f i = Some j -> 0 <= j < 64) ->
  moves f g -> wf t -> is_u 64 v ->
  wf (mk_tnum (g t.(value)) (g t.(mask))) /\
  (contains t v = true -> contains (mk_tnum (g t.(value)) (g t.(mask))) (g v) = true).
Proof.
  intros Hf M W Hv. destruct (M _ (wf_value t W)) as [Rv Bv], (M _ (wf_mask t W)) as [Rm Bm],
    (M v Hv) as [_ Bx].
  assert (W' : wf (mk_tnum (g t.(value)) (g t.(mask)))).
  { apply wf_intro; auto. intros i Hi. rewrite Bv, Bm by exact Hi.
    destruct (f i) as [j |]; [apply (wf_at t j W) | done]. }
  split; [exact W' |]. intros C. apply contains_bits; [exact W' |]. intros i Hi. cbn [value mask].
  rewrite Bv, Bm, Bx by exact Hi. specialize (Hf i). destruct (f i) as [j |]; [| done].
  apply (proj1 (contains_bits t v W) C). eauto.
Qed.

Definition shl_src (n i : Z) : option Z := if i <? n then None else Some (i - n).
Definition shr_src (n i : Z) : option Z := if i + n <? 64 then Some (i + n) else None.
Definition sar_src (n i : Z) : option Z := Some (Z.min (i + n) 63).
Definition zext_src (n i : Z) : option Z := if i <? n then Some i else None.
Definition sext_src (n i : Z) : option Z := Some (if i <? n then i else n - 1).

Lemma moves_shl n : 0 <= n < 64 -> moves (shl_src n) (fun v => u64_shl v n).
Proof.
  intros Hn v Hv. split; [auto with word |]. intros i Hi. autorewrite with bits. unfold shl_src.
  rewrite (proj2 (Z.ltb_lt i 64)) by lia. destruct (Z.ltb_spec i n); [| done].
  by rewrite Z.testbit_neg_r by lia.
Qed.

Lemma moves_shr n : 0 <= n < 64 -> moves (shr_src n) (fun v => Z.shiftr v n).
Proof.
  intros Hn v Hv. split; [auto with word |]. intros i Hi. autorewrite with bits. unfold shr_src.
  destruct (Z.ltb_spec (i + n) 64); [done |]. by apply (testbit_high 64).
Qed.

Lemma moves_sar n : 0 <= n < 64 -> moves (sar_src n) (fun v => u64 (Z.shiftr (as_i64 v) n)).
Proof.
  intros Hn v Hv. split; [auto with word |]. intros i Hi. autorewrite with bits.
  rewrite (proj2 (Z.ltb_lt i 64)), testbit_swrap by lia. done.
Qed.

Lemma keep_bits n i : 0 <= n < 64 -> 0 <= i < 64 -> Z.testbit (u64_shl 1 n - 1) i = (i <? n).
Proof.
  intros Hn Hi. unfold wshl. rewrite Z.shiftl_1_l.
  assert (R : is_u 64 (2 ^ n)) by (split; [apply Z.pow_nonneg; lia | apply Z.pow_lt_mono_r; lia]).
  rewrite wrap_small by (lia || exact R).
  replace (2 ^ n - 1) with (Z.ones n) by (rewrite Z.ones_equiv; lia).
  by rewrite Z.testbit_ones_nonneg by lia.
Qed.

Lemma moves_zext n :
  0 <= n < 64 -> moves (zext_src n) (fun v => Z.land v (u64_shl 1 n - 1)).
Proof.
  intros Hn v Hv. split; [auto with word |]. intros i Hi. autorewrite with bits.
  rewrite keep_bits by lia. unfold zext_src. destruct (i <? n); btauto.
Qed.

Lemma moves_sext n :
  0 < n < 64 ->
  moves (sext_src n) (fun v => u64 (Z.shiftr (as_i64 (u64_shl v ((64 - n) mod 64))) ((64 - n) mod 64))).
Proof.
  intros Hn v Hv. split; [auto with word |]. intros i Hi. rewrite Z.mod_small by lia.
  autorewrite with bits. rewrite (proj2 (Z.ltb_lt i 64)), testbit_swrap by lia.
  autorewrite with bits. rewrite (proj2 (Z.ltb_lt (Z.min (i + (64 - n)) (64 - 1)) 64)) by lia.
  unfold sext_src. cbn [andb]. f_equal. destruct (Z.ltb_spec i n); lia.
Qed.

(** The two shifts of a sign extension, as a cast. *)
Lemma sext_word n v :
  0 < n < 64 -> is_u 64 v ->
  u64 (Z.shiftr (as_i64 (u64_shl v ((64 - n) mod 64))) ((64 - n) mod 64)) = u64 (swrap n v).
Proof.
  intros Hn Hv. destruct (moves_sext n Hn v Hv) as [R B].
  apply (word_ext 64); auto with word. intros i Hi. rewrite B by exact Hi.
  rewrite testbit_wrap, (proj2 (Z.ltb_lt i 64)), testbit_swrap by lia.
  unfold sext_src. cbn [andb]. f_equal. destruct (Z.ltb_spec i n); lia.
Qed.

Section Shifts.
Context (t : Tnum) (v : Z) (W : wf t) (Hv : is_u 64 v).

Lemma shl_spec n :
  0 <= n -> wf (shl t n) /\ (contains t v = true -> contains (shl t n) (u64_shl v n) = true).
Proof using W Hv.
  intros Hn. unfold shl. destruct (Z.leb_spec 64 n).
  - split; [auto with word |]. intros _. replace (u64_shl v n) with 0; [done |].
    symmetry. apply (word_ext 64); auto with word; [unfold is_u; lia |].
    intros i Hi. autorewrite with bits. rewrite (Z.testbit_neg_r v) by lia. btauto.
  - apply (moves_sound (shl_src n) (fun z => u64_shl z n) t v); auto using moves_shl.
    unfold shl_src. intros i j Hi. destruct (Z.ltb_spec i n); intros [= <-]; lia.
Qed.

Lemma shr_spec n :
  0 <= n -> wf (shr t n) /\ (contains t v = true -> contains (shr t n) (Z.shiftr v n) = true).
Proof using W Hv.
  intros Hn. unfold shr. destruct (Z.leb_spec 64 n).
  - split; [auto with word |]. intros _. replace (Z.shiftr v n) with 0; [done |].
    symmetry. apply (word_ext 64); auto with word; [unfold is_u; lia |].
    intros i Hi. autorewrite with bits. apply (testbit_high 64); [lia | exact Hv | lia].
  - apply (moves_sound (shr_src n) (fun z => Z.shiftr z n) t v); auto using moves_shr.
    unfold shr_src. intros i j Hi. destruct (Z.ltb_spec (i + n) 64); intros [= <-]; lia.
Qed.

(** Amounts of 64 and more shift by 63. *)
Lemma sar_spec n :
  0 <= n ->
  wf (sar t n) /\
  (contains t v = true -> contains (sar t n) (u64 (Z.shiftr (as_i64 v) (Z.min n 63))) = true).
Proof using W Hv.
  intros Hn. unfold sar. replace (if 64 <=? n then 63 else n) with (Z.min n 63)
    by (destruct (Z.leb_spec 64 n); lia).
  apply (moves_sound (sar_src (Z.min n 63)) (fun z => u64 (Z.shiftr (as_i64 z) (Z.min n 63))) t v);
    auto.
  - unfold sar_src. intros i j Hi [= <-]. lia.
  - apply moves_sar. lia.
Qed.

Lemma zero_extend_spec n :
  0 <= n -> wf (zero_extend t n) /\ (contains t v = true -> contains (zero_extend t n) (wrap n v) = true).
Proof using W Hv.
  intros Hn. unfold zero_extend. destruct (Z.leb_spec 64 n).
  - by rewrite wrap_small by (lia || apply (is_u_mono 64 n); done || lia).
  - replace (wrap n v) with (Z.land v (u64_shl 1 n - 1)).
    + apply (moves_sound (zext_src n) (fun z => Z.land z (u64_shl 1 n - 1)) t v); auto using moves_zext.
      unfold zext_src. intros i j Hi. destruct (Z.ltb_spec i n); intros [= <-]; lia.
    + apply Z.bits_inj'. intros i Hi. autorewrite with bits. destruct (Z.ltb_spec i 64).
      * rewrite keep_bits by lia. btauto.
      * rewrite (testbit_high 64 v) by (lia || exact Hv). btauto.
Qed.

Lemma sign_extend_spec n :
  0 < n ->
  wf (sign_extend t n) /\
  (contains t v = true -> contains (sign_extend t n) (u64 (swrap n v)) = true).
Proof using W Hv.
  intros Hn. unfold sign_extend. destruct (Z.leb_spec 64 n).
  - split; [exact W |]. intros C. rewrite contains_u64 by exact W.
    apply contains_bits; [exact W |]. intros i Hi Hm. rewrite testbit_swrap, Z.min_l by lia.
    by apply (proj1 (contains_bits t v W) C).
  - rewrite <- sext_word by (lia || exact Hv).
    refine (moves_sound (sext_src n)
      (fun z => u64 (Z.shiftr (as_i64 (u64_shl z ((64 - n) mod 64))) ((64 - n) mod 64))) t v _ _ W Hv).
    + unfold sext_src. intros i j Hi [= <-]. destruct (Z.ltb_spec i n); lia.
    + apply moves_sext. lia.
Qed.
End Shifts.

(** * Multiplication *)

Lemma contains_scaled b y :
  wf b -> contains b y = true ->
  wf (mk_tnum 0 (Z.lor b.(value) b.(mask))) /\
  contains (mk_tnum 0 (Z.lor b.(value) b.(mask))) y = true /\
  contains (mk_tnum 0 (Z.lor b.(value) b.(mask))) 0 = true.
Proof.
  intros W C. assert (W' : wf (mk_tnum 0 (Z.lor b.(value) b.(mask)))).
  { apply wf_intro; auto with word; [unfold is_u; lia |]. intros. apply Z.bits_0. }
  split; [exact W' |].
  split; (apply contains_bits; [exact W' |]); intros i Hi; solve_bits i Hi.
Qed.

(** One iteration: the low bit of the multiplier decides what is added. *)
Lemma mul_step acc a b p x y :
  wf acc -> wf a -> wf b -> contains acc p = true -> contains a x = true -> contains b y = true ->
  let acc' :=
    if negb (Z.land a.(value) 1 =? 0) then add acc b
    else if negb (Z.land a.(mask) 1 =? 0)
    then add acc (mk_tnum 0 (Z.lor b.(value) b.(mask))) else acc in
  wf acc' /\ contains acc' (p + Z.b2z (Z.testbit x 0) * y) = true.
Proof.
  intros Wc Wa Wb Cc Ca Cb.
  assert (B : forall z, Z.land z 1 = Z.b2z (Z.testbit z 0)).
  { intros z. change 1 with (Z.ones 1) at 1. rewrite Z.land_ones by lia.
    rewrite Z.bit0_mod. reflexivity. }
  destruct (contains_scaled b y Wb Cb) as (Ws & Cs & C0).
  pose proof (proj1 (contains_bits a x Wa) Ca 0 ltac:(lia)) as H. pose proof (wf_at a 0 Wa) as D.
  rewrite !B. destruct (Z.testbit (value a) 0) eqn:Ev; cbn [Z.b2z Z.eqb negb].
  - destruct (Z.testbit (mask a) 0); [by discriminate D |]. rewrite H by done. cbn [Z.b2z].
    rewrite Z.mul_1_l. split; [auto with word |]. rewrite <- contains_u64 by auto with word.
    by apply tnum_add_sound.
  - destruct (Z.testbit (mask a) 0) eqn:Em; cbn [Z.b2z Z.eqb negb].
    + split; [auto with word |]. rewrite <- contains_u64 by auto with word.
      apply tnum_add_sound; auto. destruct (Z.testbit x 0); [by rewrite Z.mul_1_l | exact C0].
    + rewrite H by done. by rewrite Z.add_0_r.
Qed.

Lemma mul_loop_sound steps acc a b p x y :
  wf acc -> wf a -> wf b -> is_u 64 x -> is_u 64 y ->
  contains acc p = true -> contains a x = true -> contains b y = true ->
  Z.lor a.(value) a.(mask) < 2 ^ Z.of_nat steps ->
  wf (mul_loop steps acc a b) /\ contains (mul_loop steps acc a b) (p + x * y) = true.
Proof.
  revert acc a b p x y. induction steps as [| steps IH]; intros acc a b p x y Wc Wa Wb Hx Hy Cc Ca Cb L.
  - pose proof (contains_le a x Wa Hx Ca). pose proof (wf_value a Wa).
    replace x with 0 by (unfold is_u in *; simpl in L; lia). by rewrite Z.add_0_r.
  - cbn [mul_loop]. destruct (Z.eqb_spec (Z.lor (value a) (mask a)) 0) as [E | E]; cbn [negb].
    { pose proof (contains_le a x Wa Hx Ca). pose proof (wf_value a Wa).
      replace x with 0 by (unfold is_u in *; lia). by rewrite Z.add_0_r. }
    destruct (mul_step acc a b p x y Wc Wa Wb Cc Ca Cb) as [Wc' Cc'].
    destruct (shr_spec a x Wa Hx 1 ltac:(lia)) as [Wa' Ca'].
    destruct (shl_spec b y Wb Hy 1 ltac:(lia)) as [Wb' Cb'].
    set (acc' := if negb (Z.land (value a) 1 =? 0) then _ else _) in *.
    destruct (IH acc' (shr a 1) (shl b 1) (p + Z.b2z (Z.testbit x 0) * y) (Z.shiftr x 1) (u64_shl y 1))
      as [W' C']; auto with word.
    { cbn [shr Z.leb value mask Z.compare Pos.compare Pos.compare_cont].
      rewrite <- Z.shiftr_lor, Z.shiftr_div_pow2 by lia. apply Z.div_lt_upper_bound; [lia |].
      rewrite Nat2Z.inj_succ, Z.pow_succ_r in L; lia. }
    split; [exact W' |]. rewrite <- contains_u64 in C' |- * by exact W'.
    destruct (wrap_eq_mod 64 eq_refl (Z.shiftl y 1)) as [k Ek]. unfold wshl in C'. rewrite Ek in C'.
    rewrite <- (wrap_add_mul 64 (p + x * y) (Z.shiftr x 1 * k)).
    replace (p + x * y + Z.shiftr x 1 * k * 2 ^ 64)
      with (p + Z.b2z (Z.testbit x 0) * y + Z.shiftr x 1 * (Z.shiftl y 1 + k * 2 ^ 64)); [exact C' |].
    rewrite Z.shiftl_mul_pow2, <- Z.div2_spec by lia. pose proof (Z.div2_odd x) as O.
    rewrite Z.bit0_odd. nia.
Qed.

Lemma mul_spec a b x y :
  wf a -> wf b -> is_u 64 x -> is_u 64 y -> contains a x = true -> contains b y = true ->
  wf (mul a b) /\ contains (mul a b) (u64 (x * y)) = true.
Proof.
  intros Wa Wb Hx Hy Ca Cb.
  destruct (mul_loop_sound 64 ZERO a b 0 x y) as [W C]; auto with word.
  { assert (is_u 64 (Z.lor (value a) (mask a))) by auto with word. unfold is_u in *. lia. }
  split; [exact W |]. rewrite contains_u64 by exact W. exact C.
Qed.

(** * Bounds *)

Lemma unsigned_bounds_spec t v :
  wf t -> is_u 64 v -> contains t v = true ->
  fst (unsigned_bounds t) <= v <= snd (unsigned_bounds t).
Proof. apply contains_le. Qed.

Lemma land_SIGN z : is_u 64 z -> (Z.land z SIGN =? 0) = negb (Z.testbit z 63).
Proof.
  intros Hz. destruct (Z.testbit z 63) eqn:E; simpl.
  - apply Z.eqb_neq. intros H. apply (f_equal (fun z => Z.testbit z 63)) in H.
    by rewrite Z.land_spec, E in H.
  - apply Z.eqb_eq. apply Z.bits_inj'. intros i Hi. autorewrite with bits. unfold SIGN.
    destruct (Z.eq_dec i 63) as [-> |]; [by rewrite E |].
    rewrite Z.pow2_bits_false by lia. btauto.
Qed.

Lemma as_i64_sign v :
  is_u 64 v -> as_i64 v = if Z.testbit v 63 then v - 2 ^ 64 else v.
Proof.
  intros Hv. pose proof (testbit_top 64 v ltac:(lia) Hv) as T. change (64 - 1) with 63 in T. rewrite T.
  destruct (Z.leb_spec (2 ^ 63) v); [apply swrap_high | apply swrap_unsigned]; unfold is_u in Hv; lia.
Qed.

(** The order of two signed words, from their bits. *)
Lemma signed_le a b :
  is_u 64 a -> is_u 64 b ->
  (Z.testbit b 63 = true -> Z.testbit a 63 = true) ->
  (Z.testbit a 63 = Z.testbit b 63 ->
   forall i, 0 <= i < 64 -> Z.testbit a i = true -> Z.testbit b i = true) ->
  as_i64 a <= as_i64 b.
Proof.
  intros Ha Hb S L. rewrite !as_i64_sign by assumption.
  destruct (Z.testbit a 63), (Z.testbit b 63); try by discriminate S.
  - enough (a <= b) by lia. apply (word_subset_le 64); auto. lia.
  - unfold is_u in *. lia.
  - apply (word_subset_le 64); auto. lia.
Qed.

Lemma testbit_SIGN i : 0 <= i < 64 -> Z.testbit SIGN i = (i =? 63).
Proof. intros Hi. unfold SIGN. rewrite Z.pow2_bits_eqb by lia. by rewrite Z.eqb_sym. Qed.

Lemma SIGN_range : is_u 64 SIGN.
Proof. by split. Qed.

#[local] Hint Resolve SIGN_range : word.

(** The two words [signed_bounds] casts. *)
Definition signed_lo (t : Tnum) : Z :=
  if Z.testbit t.(value) 63 || Z.testbit t.(mask) 63 then Z.lor t.(value) SIGN else t.(value).

Definition signed_hi (t : Tnum) : Z :=
  if negb (Z.testbit t.(value) 63) then Z.land (Z.lor t.(value) t.(mask)) (u64_not SIGN)
  else Z.lor t.(value) t.(mask).

Lemma signed_bounds_words t :
  wf t -> signed_bounds t = (as_i64 (signed_lo t), as_i64 (signed_hi t)).
Proof.
  intros W. unfold signed_bounds, signed_lo, signed_hi. rewrite !land_SIGN by auto with word.
  rewrite Z.lor_spec, negb_involutive. f_equal; by case_match.
Qed.

Lemma signed_words_range t : wf t -> is_u 64 (signed_lo t) /\ is_u 64 (signed_hi t).
Proof. intros W. unfold signed_lo, signed_hi. split; case_match; auto 6 with word. Qed.

Lemma signed_lo_bits t i :
  wf t -> 0 <= i < 64 ->
  Z.testbit (signed_lo t) i = Z.testbit t.(value) i || ((i =? 63) && Z.testbit t.(mask) i).
Proof.
  intros W Hi. unfold signed_lo. pose proof (testbit_SIGN i Hi) as S.
  destruct (Z.eqb_spec i 63) as [-> | N];
    destruct (Z.testbit (value t) 63) eqn:Ev, (Z.testbit (mask t) 63) eqn:Em; cbn [orb];
    autorewrite with bits; rewrite ?S, ?Ev, ?Em; btauto.
Qed.

Lemma signed_hi_bits t i :
  wf t -> 0 <= i < 64 ->
  Z.testbit (signed_hi t) i = Z.testbit t.(value) i || (negb (i =? 63) && Z.testbit t.(mask) i).
Proof.
  intros W Hi. unfold signed_hi. pose proof (testbit_SIGN i Hi) as S. pose proof (wf_at t i W) as D.
  destruct (Z.eqb_spec i 63) as [-> | N];
    destruct (Z.testbit (value t) 63) eqn:Ev; cbn [orb negb];
    autorewrite with bits; rewrite ?S, ?Ev, ?(proj2 (Z.ltb_lt _ 64)) by lia; cbn [andb orb negb]; try btauto.
Qed.

Ltac sign_bit := assert (H63 : 0 <= 63 < 64) by lia; solve_bits 63 H63.

(** The signed bounds are attained, and bound every member. *)
Lemma signed_bounds_spec t :
  wf t ->
  let '(lo, hi) := signed_bounds t in
  is_i 64 lo /\ is_i 64 hi /\ contains t (u64 lo) = true /\ contains t (u64 hi) = true /\
  forall v, is_u 64 v -> contains t v = true -> lo <= as_i64 v <= hi.
Proof.
  intros W. rewrite signed_bounds_words by exact W. destruct (signed_words_range t W) as [Rl Rh].
  rewrite !wrap_swrap, !contains_u64, !contains_bits by (lia || exact W).
  split_and!; auto with word.
  - intros i Hi Hm. rewrite signed_lo_bits, Hm by auto. btauto.
  - intros i Hi Hm. rewrite signed_hi_bits, Hm by auto. btauto.
  - intros v Hv C. split; apply signed_le; auto.
    + rewrite signed_lo_bits by (lia || done). change (63 =? 63) with true. sign_bit.
    + intros E i Hi. rewrite signed_lo_bits by (lia || done).
      destruct (Z.eqb_spec i 63) as [-> |]; [| solve_bits i Hi].
      rewrite signed_lo_bits in E by (lia || done). change (63 =? 63) with true in E. by rewrite E.
    + rewrite signed_hi_bits by (lia || done). change (63 =? 63) with true. sign_bit.
    + intros E i Hi. rewrite signed_hi_bits by (lia || done).
      destruct (Z.eqb_spec i 63) as [-> |]; [| solve_bits i Hi].
      rewrite signed_hi_bits in E by (lia || done). change (63 =? 63) with true in E. by rewrite E.
Qed.

(** * Ranges *)

Lemma shiftr_step a n :
  0 <= n -> Z.shiftr a n = 2 * Z.shiftr a (n + 1) + Z.b2z (Z.testbit a n).
Proof.
  intros Hn. rewrite <- Z.shiftr_shiftr, <- Z.div2_spec by lia.
  rewrite (Z.div2_odd (Z.shiftr a n)) at 1. by rewrite <- Z.bit0_odd, Z.shiftr_spec by lia.
Qed.

Lemma shiftr_mono a b n : 0 <= n -> a <= b -> Z.shiftr a n <= Z.shiftr b n.
Proof. intros. rewrite !Z.shiftr_div_pow2 by lia. apply Z.div_le_mono; [apply Z.pow_pos_nonneg |]; lia. Qed.

(** Words that agree above bit [n], with [n] their highest difference. *)
Lemma range_bits lo hi n :
  is_u 64 lo -> is_u 64 hi -> lo < hi -> n = Z.log2 (Z.lxor lo hi) ->
  0 <= n < 64 /\ Z.shiftr lo (n + 1) = Z.shiftr hi (n + 1) /\
  Z.testbit lo n = false /\ Z.testbit hi n = true.
Proof.
  intros Hl Hh L ->. set (d := Z.lxor lo hi).
  assert (Rd : is_u 64 d) by (unfold d; auto with word).
  assert (D : d <> 0) by (unfold d; rewrite Z.lxor_eq_0_iff; lia).
  assert (N : 0 <= Z.log2 d < 64).
  { split; [apply Z.log2_nonneg |]. apply Z.log2_lt_pow2; unfold is_u in Rd; lia. }
  assert (P : Z.shiftr lo (Z.log2 d + 1) = Z.shiftr hi (Z.log2 d + 1)).
  { apply Z.bits_inj'. intros i Hi. rewrite !Z.shiftr_spec by lia.
    assert (H : Z.testbit d (i + (Z.log2 d + 1)) = false)
      by (apply Z.bits_above_log2; unfold is_u in Rd; lia).
    unfold d in H at 1. rewrite Z.lxor_spec in H. by apply xorb_eq. }
  split; [exact N |]. split; [exact P |].
  assert (T : Z.testbit d (Z.log2 d) = true) by (apply Z.bit_log2; unfold is_u in Rd; lia).
  unfold d in T at 1. rewrite Z.lxor_spec in T.
  destruct (Z.testbit lo (Z.log2 d)) eqn:El, (Z.testbit hi (Z.log2 d)) eqn:Eh; try done.
  pose proof (shiftr_mono lo hi (Z.log2 d) ltac:(lia) ltac:(lia)) as M.
  rewrite !(shiftr_step _ (Z.log2 d)), P, El, Eh in M by lia. simpl Z.b2z in M. lia.
Qed.

(** What [from_unsigned_range] computes when the ends differ. *)
Lemma from_unsigned_range_eq lo hi n :
  is_u 64 lo -> is_u 64 hi -> lo < hi -> n = Z.log2 (Z.lxor lo hi) ->
  from_unsigned_range lo hi =
    if 64 <=? n + 1 then UNKNOWN
    else mk_tnum (Z.land hi (u64_not (u64_shl 1 (n + 1) - 1))) (u64_shl 1 (n + 1) - 1).
Proof.
  intros Hl Hh L ->. unfold from_unsigned_range, leading_zeros.
  rewrite (proj2 (Z.ltb_ge hi lo)) by lia.
  destruct (Z.eqb_spec (Z.lxor lo hi) 0) as [E | E]; [apply Z.lxor_eq in E; lia |].
  by replace (64 - (63 - Z.log2 (Z.lxor lo hi))) with (Z.log2 (Z.lxor lo hi) + 1) by lia.
Qed.

Lemma delta_range n : 0 <= n < 64 -> is_u 64 (u64_shl 1 n - 1).
Proof.
  intros Hn. unfold wshl. rewrite Z.shiftl_1_l.
  assert (R : 0 < 2 ^ n < 2 ^ 64) by (split; [apply Z.pow_pos_nonneg | apply Z.pow_lt_mono_r]; lia).
  rewrite wrap_small; unfold is_u; lia.
Qed.

Lemma wf_from_unsigned_range lo hi : is_u 64 lo -> is_u 64 hi -> wf (from_unsigned_range lo hi).
Proof.
  intros Hl Hh. unfold from_unsigned_range, leading_zeros.
  destruct (hi <? lo); [auto with word |]. destruct (_ =? 0); [auto with word |].
  destruct (Z.leb_spec 64 (64 - (63 - Z.log2 (Z.lxor lo hi)))); [auto with word |].
  apply wf_mk; [exact Hh |]. apply delta_range. pose proof (Z.log2_nonneg (Z.lxor lo hi)). lia.
Qed.

Lemma from_unsigned_range_sound lo hi v :
  is_u 64 lo -> is_u 64 hi -> lo <= v <= hi -> contains (from_unsigned_range lo hi) v = true.
Proof.
  intros Hl Hh Hv. destruct (Z.eq_dec lo hi) as [<- | N].
  { replace v with lo by lia. unfold from_unsigned_range. rewrite Z.ltb_irrefl, Z.lxor_nilpotent. simpl.
    by apply contains_constant. }
  pose proof (wf_from_unsigned_range lo hi Hl Hh) as W.
  destruct (range_bits lo hi _ Hl Hh ltac:(lia) eq_refl) as (Hn & P & _).
  rewrite (from_unsigned_range_eq lo hi _) in * by (eauto || lia).
  set (n := Z.log2 (Z.lxor lo hi)) in *. destruct (Z.leb_spec 64 (n + 1)); [apply contains_UNKNOWN |].
  assert (Pv : Z.shiftr v (n + 1) = Z.shiftr hi (n + 1)).
  { pose proof (shiftr_mono lo v (n + 1)). pose proof (shiftr_mono v hi (n + 1)). lia. }
  apply contains_bits; [exact W |]. cbn [value mask]. intros i Hi. autorewrite with bits.
  rewrite keep_bits, (proj2 (Z.ltb_lt i 64)) by lia. destruct (Z.ltb_spec i (n + 1)); [done |]. intros _.
  apply (f_equal (fun z => Z.testbit z (i - (n + 1)))) in Pv. rewrite !Z.shiftr_spec in Pv by lia.
  rewrite !Z.sub_add in Pv. rewrite Pv. btauto.
Qed.

(** Two neighbours in the range differ in every bit up to the highest
    difference of its ends. *)
Lemma range_neighbours lo hi n :
  is_u 64 lo -> is_u 64 hi -> lo < hi -> n = Z.log2 (Z.lxor lo hi) ->
  exists m, lo <= m - 1 /\ m <= hi /\
    forall i, 0 <= i <= n -> Z.testbit (m - 1) i = negb (Z.testbit m i).
Proof.
  intros Hl Hh L E. destruct (range_bits lo hi n Hl Hh L E) as (Hn & P & El & Eh).
  assert (S : Z.shiftr lo n + 1 = Z.shiftr hi n)
    by (rewrite !(shiftr_step _ n), P, El, Eh by lia; simpl Z.b2z; lia).
  exists (Z.shiftr hi n * 2 ^ n). rewrite !Z.shiftr_div_pow2 in * by lia.
  assert (0 < 2 ^ n) by (apply Z.pow_pos_nonneg; lia).
  pose proof (Z.div_mod lo (2 ^ n)). pose proof (Z.mod_pos_bound lo (2 ^ n)).
  pose proof (Z.div_mod hi (2 ^ n)). pose proof (Z.mod_pos_bound hi (2 ^ n)).
  split; [nia |]. split; [nia |]. intros i Hi. rewrite testbit_sub by lia.
  assert (M : wrap i (hi / 2 ^ n * 2 ^ n) = 0).
  { unfold wrap. replace n with (n - i + i) at 2 by lia. rewrite Z.pow_add_r, Z.mul_assoc by lia.
    apply Z.mod_mul, Z.pow_nonzero; lia. }
  unfold borrow. rewrite M. destruct (Z.eq_dec i 0) as [-> | Ni].
  - change (wrap 0 1) with 0. change (Z.testbit 1 0) with true. rewrite Z.ltb_irrefl. btauto.
  - rewrite wrap_small by (split; [lia | apply Z.pow_gt_1; lia]).
    rewrite (testbit_high 1 1 i) by (unfold is_u; lia). change (0 <? 1) with true. btauto.
Qed.

Lemma from_unsigned_range_tight lo hi t :
  is_u 64 lo -> is_u 64 hi -> lo <= hi -> wf t ->
  (forall v, lo <= v <= hi -> contains t v = true) ->
  is_subset_of (from_unsigned_range lo hi) t = true.
Proof.
  intros Hl Hh L Wt C. pose proof (wf_from_unsigned_range lo hi Hl Hh) as W.
  apply subset_bits; auto. pose proof (C hi ltac:(lia)) as Ch.
  destruct (Z.eq_dec lo hi) as [<- | N].
  { unfold from_unsigned_range. rewrite Z.ltb_irrefl, Z.lxor_nilpotent. simpl.
    intros i Hi Hm. rewrite Z.bits_0. split; [done |]. clear W. solve_bits i Hi. }
  rewrite (from_unsigned_range_eq lo hi _) in * by (eauto || lia).
  destruct (range_bits lo hi _ Hl Hh ltac:(lia) eq_refl) as (Hn & _).
  destruct (range_neighbours lo hi _ Hl Hh ltac:(lia) eq_refl) as (m & Lm & Um & Bm).
  set (n := Z.log2 (Z.lxor lo hi)) in *. intros i Hi Hm.
  assert (Hni : n < i).
  { destruct (Z.ltb_spec n i) as [| Ge]; [done |].
    pose proof (proj1 (contains_bits t _ Wt) (C m ltac:(lia)) i Hi Hm) as E1.
    pose proof (proj1 (contains_bits t _ Wt) (C (m - 1) ltac:(lia)) i Hi Hm) as E2.
    rewrite Bm, E1 in E2 by lia. by destruct (Z.testbit (value t) i). }
  rewrite (proj2 (Z.leb_gt 64 (n + 1))) by lia. cbn [value mask]. autorewrite with bits.
  rewrite keep_bits, (proj2 (Z.ltb_lt i 64)), (proj2 (Z.ltb_ge i (n + 1))) by lia.
  split; [done |]. rewrite <- (proj1 (contains_bits t _ Wt) Ch i Hi Hm). btauto.
Qed.

(** * The contract of the domain *)

(** The words a tnum denotes. *)
Definition member (t : Tnum) (v : Z) : Prop := is_u 64 v /\ contains t v = true.

Lemma member_value t : wf t -> member t t.(value).
Proof. intros W. split; [apply W | by apply contains_value]. Qed.

(** The bitwise operations are exact.  [and], [or] and [xor] of two
    well-formed tnums are well-formed and denote exactly the set of results
    of the operation on a member of each: nothing is missed and nothing is
    added. *)
Lemma bitwise_exact a b :
  wf a -> wf b ->
  (wf (and a b) /\ wf (or a b) /\ wf (xor a b)) /\
  forall z,
    (member (and a b) z <-> exists x y, member a x /\ member b y /\ z = Z.land x y) /\
    (member (or a b) z <-> exists x y, member a x /\ member b y /\ z = Z.lor x y) /\
    (member (xor a b) z <-> exists x y, member a x /\ member b y /\ z = Z.lxor x y).
Proof.
  intros Wa Wb. split; [auto with word |]. intros z. split_and!; split.
  - intros [Hz C]. exists (pick a z), (pick b z).
    unfold member; rewrite and_complete; auto using pick_range, contains_pick.
  - intros (x & y & [Hx Cx] & [Hy Cy] & ->). split; [auto with word | by apply tnum_and_sound].
  - intros [Hz C]. exists (pick a z), (pick b z).
    unfold member; rewrite or_complete; auto using pick_range, contains_pick.
  - intros (x & y & [Hx Cx] & [Hy Cy] & ->). split; [auto with word | by apply tnum_or_sound].
  - intros [Hz C]. set (x := pick a (Z.lxor z b.(value))). exists x, (pick b (Z.lxor z x)).
    unfold member, x; rewrite xor_complete; auto using pick_range, contains_pick.
  - intros (x & y & [Hx Cx] & [Hy Cy] & ->). split; [auto with word | by apply tnum_xor_sound].
Qed.

(** The arithmetic operations are sound.  The wrapping sum, difference
    and product of members are members of [add], [sub] and [mul], which are
    well-formed. *)
Lemma arith_sound a b x y :
  wf a -> wf b -> member a x -> member b y ->
  (wf (add a b) /\ wf (sub a b) /\ wf (mul a b)) /\
  member (add a b) (u64 (x + y)) /\
  member (sub a b) (u64 (x - y)) /\
  member (mul a b) (u64 (x * y)).
Proof.
  intros Wa Wb [Hx Cx] [Hy Cy]. destruct (mul_spec a b x y) as [Wm Cm]; auto.
  unfold member. split_and!; auto using tnum_add_sound, tnum_sub_sound with word.
Qed.

(** The shifts and extensions are sound, for any amount the operation
    is defined on: shifting or extending a member gives a member of the
    shifted or extended tnum. *)
Lemma shift_sound t v n :
  wf t -> member t v -> 0 <= n ->
  member (shl t n) (u64_shl v n) /\
  member (shr t n) (Z.shiftr v n) /\
  member (sar t n) (u64 (Z.shiftr (as_i64 v) (Z.min n 63))) /\
  contains (zero_extend t n) (wrap n v) = true /\
  (0 < n -> member (sign_extend t n) (u64 (swrap n v))).
Proof.
  intros W [Hv C] Hn. unfold member.
  destruct (shl_spec t v W Hv n Hn), (shr_spec t v W Hv n Hn), (sar_spec t v W Hv n Hn),
    (zero_extend_spec t v W Hv n Hn).
  split_and!; auto with word. intros Hn'. destruct (sign_extend_spec t v W Hv n Hn'). auto with word.
Qed.

(** The operations of tnums are right.  [and], [or] and [xor] denote
    exactly the results of the operation on members; [add], [sub] and [mul]
    contain the wrapping sums, differences and products of members; the shifts
    and extensions, for any amount they are defined on, contain the shifted and
    extended members; and all of them stay well-formed. *)
Lemma tnum_ops_sound a b :
  wf a -> wf b ->
  (wf (and a b) /\ wf (or a b) /\ wf (xor a b) /\ wf (add a b) /\ wf (sub a b) /\ wf (mul a b)) /\
  (forall z,
    (member (and a b) z <-> exists x y, member a x /\ member b y /\ z = Z.land x y) /\
    (member (or a b) z <-> exists x y, member a x /\ member b y /\ z = Z.lor x y) /\
    (member (xor a b) z <-> exists x y, member a x /\ member b y /\ z = Z.lxor x y)) /\
  (forall x y, member a x -> member b y ->
    member (add a b) (u64 (x + y)) /\ member (sub a b) (u64 (x - y)) /\ member (mul a b) (u64 (x * y))) /\
  forall x n, member a x -> 0 <= n ->
    member (shl a n) (u64_shl x n) /\ member (shr a n) (Z.shiftr x n) /\
    member (sar a n) (u64 (Z.shiftr (as_i64 x) (Z.min n 63))) /\
    contains (zero_extend a n) (wrap n x) = true /\
    (0 < n -> member (sign_extend a n) (u64 (swrap n x))).
Proof.
  intros Wa Wb. destruct (bitwise_exact a b Wa Wb) as [(? & ? & ?) X].
  destruct (arith_sound a b a.(value) b.(value) Wa Wb) as [(? & ? & ?) _]; auto using member_value.
  split; [done |]. split; [exact X |]. split.
  - intros x y Hx Hy. by destruct (arith_sound a b x y Wa Wb Hx Hy).
  - intros x n Hx Hn. by apply shift_sound.
Qed.

Lemma tnum_ops_sound_witness :
  member (mul (mk_tnum 8 5) (mk_tnum 1 6)) (u64 (13 * 3)) /\
  member (sar (mk_tnum 8 5) 2) (u64 (Z.shiftr (as_i64 13) 2)).
Proof.
  destruct (tnum_ops_sound (mk_tnum 8 5) (mk_tnum 1 6)) as (_ & _ & A & S); [by split | by split |].
  split; [apply A; by split | apply S; [by split | lia]].
Defined.

(** the lattice operations are what they claim to be.  [is_subset_of]
    decides inclusion of the denoted sets, [join] is the least tnum above
    both arguments, and [meet] is the exact intersection, [None] only when
    it is empty. *)
Lemma tnum_lattice a b :
  wf a -> wf b ->
  (is_subset_of a b = true <-> forall v, member a v -> member b v) /\
  (wf (join a b) /\ forall t, wf t ->
     is_subset_of (join a b) t = true <-> is_subset_of a t = true /\ is_subset_of b t = true) /\
  match meet a b with
  | Some t => wf t /\ forall v, member t v <-> member a v /\ member b v
  | None => forall v, ~ (member a v /\ member b v)
  end.
Proof.
  intros Wa Wb. unfold member. split; [| split].
  - rewrite subset_spec by assumption. split; intros H v.
    + intros [Hv C]. auto.
    + intros Hv C. by apply H.
  - split; [auto with word | auto using join_least].
  - destruct (meet a b) as [t |] eqn:E.
    + split; [exact (wf_meet a b Wa Wb t E) |]. intros v. pose proof (meet_sound a b Wa Wb v) as M. rewrite E in M. split.
      * intros [Hv C]. destruct (proj2 (M Hv)); eauto.
      * intros [[Hv Ca] [_ Cb]]. destruct (proj1 (M Hv)) as (t' & [= <-] & C); auto.
    + intros v [[Hv Ca] [_ Cb]]. destruct (proj1 (meet_sound a b Wa Wb v Hv)) as (t & E' & _); [done |].
      congruence.
Qed.

Lemma tnum_lattice_witness :
  is_subset_of (mk_tnum 8 1) (mk_tnum 8 5) = true <->
  forall v, member (mk_tnum 8 1) v -> member (mk_tnum 8 5) v.
Proof. apply (tnum_lattice (mk_tnum 8 1) (mk_tnum 8 5)); by split. Defined.

(** ranges and bounds are tight.  [from_unsigned_range] contains every
    word of the range and is contained in every tnum that does; the unsigned
    and signed bounds of a tnum bound its members and are themselves
    members. *)
Lemma tnum_bounds_tight lo hi t :
  is_u 64 lo -> is_u 64 hi -> lo <= hi -> wf t ->
  (forall v, lo <= v <= hi -> member (from_unsigned_range lo hi) v) /\
  ((forall v, lo <= v <= hi -> member t v) -> is_subset_of (from_unsigned_range lo hi) t = true) /\
  (let '(ulo, uhi) := unsigned_bounds t in
   member t ulo /\ member t uhi /\ forall v, member t v -> ulo <= v <= uhi) /\
  (let '(slo, shi) := signed_bounds t in
   member t (u64 slo) /\ member t (u64 shi) /\ forall v, member t v -> slo <= as_i64 v <= shi).
Proof.
  intros Hl Hh L W. split; [| split; [| split]].
  - intros v Hv. split; [unfold is_u in *; lia | by apply from_unsigned_range_sound].
  - intros C. apply from_unsigned_range_tight; auto. intros v Hv. by apply C.
  - split; [by apply member_value |]. split; [split; auto using contains_lor with word |].
    intros v [Hv C]. by apply contains_le.
  - pose proof (signed_bounds_spec t W) as S. destruct (signed_bounds t) as [slo shi].
    destruct S as (? & ? & ? & ? & B). unfold member. split_and!; auto with word.
    intros v [Hv C]. auto.
Qed.

Lemma tnum_bounds_tight_witness :
  (forall v, 3 <= v <= 9 -> member (from_unsigned_range 3 9) v) /\
  ((forall v, 3 <= v <= 9 -> member UNKNOWN v) -> is_subset_of (from_unsigned_range 3 9) UNKNOWN = true).
Proof.
  destruct (tnum_bounds_tight 3 9 UNKNOWN) as (A & B & _); by split || lia.
Defined.
