(* ===== verification/BpfScalar.v ===== *)
(** The scalar values of the BPF verifier ([Scalar] of
    [bpf/verifier/src/domain.rs]): a tristate number reduced against a signed
    interval, with the lattice operations, the refinements from branch
    conditions and the transfer functions, and the concrete corner-case
    arithmetic the file keeps beside them.

    Machine arithmetic follows the release profile: casts and shifts wrap, and
    a shift amount is reduced modulo the width.  Division by zero panics in
    every profile; the only division whose divisor is not tested, in [udiv],
    returns [None] there. *)

From S2P Require Import Prelude Word BpfOpcode BpfInsn Tnum.

(** [x << n] and [-x] on [i64]. *)
Definition i64_shl (x n : Z) : Z := as_i64 (Z.shiftl x (n mod 64)).
Definition i64_neg (x : Z) : Z := as_i64 (- x).

(** * Concrete corner cases *)

(** Rust's [/] and [%] on signed integers truncate towards zero. *)
Definition concrete_sdiv (a b : Z) : Z :=
  if b =? 0 then 0
  else if (a =? I64_MIN) && (b =? -1) then I64_MIN
  else Z.quot a b.

Definition concrete_smod (a b : Z) : Z :=
  if b =? 0 then a
  else if (a =? I64_MIN) && (b =? -1) then 0
  else Z.rem a b.

Definition I32_MIN : Z := -2147483648.

Definition concrete_sdiv32 (a b : Z) : Z :=
  if b =? 0 then 0
  else if (a =? I32_MIN) && (b =? -1) then I32_MIN
  else Z.quot a b.

Definition concrete_smod32 (a b : Z) : Z :=
  if b =? 0 then a
  else if (a =? I32_MIN) && (b =? -1) then 0
  else Z.rem a b.

Definition concrete_udiv (a b : Z) : Z := if b =? 0 then 0 else a / b.

Definition concrete_umod (a b : Z) : Z := if b =? 0 then a else a mod b.

(** [swap_bytes] on an [n]-byte word. *)
Definition swap_bytes (n : nat) (v : Z) : Z := le_value (reverse (le_bytes n v)).

Definition concrete_bswap (v width : Z) : Z :=
  if width =? 16 then swap_bytes 2 (u16 v)
  else if width =? 32 then swap_bytes 4 (u32 v)
  else swap_bytes 8 v.

(** * Interval arithmetic

    The source computes in [i128], where none of these overflows. *)

Definition interval_add (alo ahi blo bhi : Z) : Z * Z :=
  let lo := alo + blo in
  let hi := ahi + bhi in
  if (I64_MIN <=? lo) && (hi <=? I64_MAX) then (as_i64 lo, as_i64 hi) else (I64_MIN, I64_MAX).

Definition interval_neg (lo hi : Z) : Z * Z :=
  let nlo := - hi in
  let nhi := - lo in
  if (I64_MIN <=? nlo) && (nhi <=? I64_MAX) then (as_i64 nlo, as_i64 nhi) else (I64_MIN, I64_MAX).

Definition interval_mul (alo ahi blo bhi : Z) : Z * Z :=
  let c0 := alo * blo in
  let c1 := alo * bhi in
  let c2 := ahi * blo in
  let c3 := ahi * bhi in
  let lo := Z.min (Z.min (Z.min c0 c1) c2) c3 in
  let hi := Z.max (Z.max (Z.max c0 c1) c2) c3 in
  if (I64_MIN <=? lo) && (hi <=? I64_MAX) then (as_i64 lo, as_i64 hi) else (I64_MIN, I64_MAX).

Record Scalar : Type := mk_scalar { tn : Tnum; min : Z; max : Z }.

#[export] Instance Scalar_eq_dec : EqDecision Scalar.
Proof. solve_decision. Defined.

Module scalar.
Definition UNKNOWN : Scalar := mk_scalar tnum.UNKNOWN I64_MIN I64_MAX.

Definition constant (v : Z) : Scalar := mk_scalar (tnum.constant (u64 v)) v v.

Definition unsigned_bits (bits : Z) : Scalar :=
  if 64 <=? bits then UNKNOWN
  else
    let hi := u64_shl 1 bits - 1 in
    mk_scalar (mk_tnum 0 hi) 0 (as_i64 hi).

Definition contains (s : Scalar) (v : Z) : bool :=
  tnum.contains s.(tn) v && (s.(min) <=? as_i64 v) && (as_i64 v <=? s.(max)).

Definition as_const (s : Scalar) : option Z :=
  if tnum.is_const s.(tn) then Some (as_i64 s.(tn).(value))
  else if s.(min) =? s.(max) then Some s.(min)
  else None.

Definition unsigned_bounds (s : Scalar) : Z * Z :=
  let straddles_zero := (s.(min) <? 0) && (0 <=? s.(max)) in
  let '(ilo, ihi) := if straddles_zero then (0, U64_MAX) else (u64 s.(min), u64 s.(max)) in
  let '(tlo, thi) := tnum.unsigned_bounds s.(tn) in
  (Z.max ilo tlo, Z.min ihi thi).

(** The tnum an interval implies, in [normalize] and in [widen]. *)
Definition hull (lo hi : Z) : Tnum :=
  if (0 <=? lo) || (hi <? 0) then tnum.from_unsigned_range (u64 lo) (u64 hi) else tnum.UNKNOWN.

(** One round of [normalize]. *)
Definition normalize_round (s : Scalar) : option Scalar :=
  if s.(max) <? s.(min) then None
  else
    let '(tlo, thi) := tnum.signed_bounds s.(tn) in
    let lo := Z.max s.(min) tlo in
    let hi := Z.min s.(max) thi in
    if hi <? lo then None
    else
      let derived := hull lo hi in
      let* t := tnum.meet s.(tn) derived in
      Some (mk_scalar t lo hi).

Fixpoint normalize_loop (rounds : nat) (s : Scalar) : option Scalar :=
  match rounds with
  | O => Some s
  | S rounds =>
      let* s' := normalize_round s in
      if decide (s' = s) then Some s' else normalize_loop rounds s'
  end.

Definition normalize (s : Scalar) : option Scalar :=
  let* s := normalize_loop 3 s in
  if s.(max) <? s.(min) then None else Some s.

Definition normalized (s : Scalar) : Scalar := unwrap_or (normalize s) s.

Definition signed_bits (bits : Z) : Scalar :=
  if (bits =? 0) || (64 <=? bits) then UNKNOWN
  else
    let lo := i64_neg (i64_shl 1 (bits - 1)) in
    let hi := as_i64 (i64_shl 1 (bits - 1) - 1) in
    normalized (mk_scalar (tnum.sign_extend tnum.UNKNOWN bits) lo hi).

Definition zext32 (s : Scalar) : Scalar :=
  let t := tnum.zero_extend s.(tn) 32 in
  if Z.shiftr (u64 s.(min)) 32 =? Z.shiftr (u64 s.(max)) 32 then
    let lo := Z.land (u64 s.(min)) 0xffffffff in
    let hi := Z.land (u64 s.(max)) 0xffffffff in
    let t := match tnum.meet t (tnum.from_unsigned_range lo hi) with Some m => m | None => t end in
    normalized (mk_scalar t (as_i64 lo) (as_i64 hi))
  else
    let '(lo, hi) := tnum.unsigned_bounds t in
    normalized (mk_scalar t (as_i64 lo) (as_i64 hi)).

Definition HALF : Z := 2 ^ 31.
Definition FULL : Z := 2 ^ 32.

Definition sext32 (s : Scalar) : Scalar :=
  let z := zext32 s in
  let '(lo, hi) := unsigned_bounds z in
  let '(lo', hi') :=
    if hi <? HALF then (as_i64 lo, as_i64 hi)
    else if HALF <=? lo then (as_i64 (as_i64 lo - FULL), as_i64 (as_i64 hi - FULL))
    else (i64_neg (i64_shl 1 31), as_i64 (i64_shl 1 31 - 1)) in
  normalized (mk_scalar (tnum.sign_extend z.(tn) 32) lo' hi').

Definition sign_extend (s : Scalar) (bits : Z) : Scalar :=
  if 64 <=? bits then s
  else
    let t := tnum.sign_extend (tnum.zero_extend s.(tn) bits) bits in
    normalized (mk_scalar t (i64_neg (i64_shl 1 (bits - 1))) (as_i64 (i64_shl 1 (bits - 1) - 1))).

(** ** Lattice operations *)

Definition join (a b : Scalar) : Scalar :=
  normalized (mk_scalar (tnum.join a.(tn) b.(tn)) (Z.min a.(min) b.(min)) (Z.max a.(max) b.(max))).

Definition meet (a b : Scalar) : option Scalar :=
  let* t := tnum.meet a.(tn) b.(tn) in
  normalize (mk_scalar t (Z.max a.(min) b.(min)) (Z.min a.(max) b.(max))).

Definition is_subset_of (a b : Scalar) : bool :=
  (b.(min) <=? a.(min)) && (a.(max) <=? b.(max)) && tnum.is_subset_of a.(tn) b.(tn).

(** [iter().find(p)]. *)
Fixpoint find (p : Z -> bool) (l : list Z) : option Z :=
  match l with
  | [] => None
  | t :: l => if p t then Some t else find p l
  end.

Definition widen (a next : Scalar) (thresholds : list Z) : Scalar :=
  let widened_below := next.(min) <? a.(min) in
  let widened_above := a.(max) <? next.(max) in
  let lo := if next.(min) <? a.(min)
            then unwrap_or (find (fun t => t <=? next.(min)) (reverse thresholds)) I64_MIN
            else a.(min) in
  let hi := if a.(max) <? next.(max)
            then unwrap_or (find (fun t => next.(max) <=? t) thresholds) I64_MAX
            else a.(max) in
  let t := tnum.join a.(tn) next.(tn) in
  let t := if widened_below || widened_above then tnum.join t (hull lo hi) else t in
  normalized (mk_scalar t lo hi).

(** ** Refinement from branch conditions *)

Definition refine_signed_min (s : Scalar) (c : Z) : option Scalar :=
  normalize (mk_scalar s.(tn) (Z.max s.(min) c) s.(max)).

Definition refine_signed_max (s : Scalar) (c : Z) : option Scalar :=
  normalize (mk_scalar s.(tn) s.(min) (Z.min s.(max) c)).

Definition refine_unsigned_max (s : Scalar) (c : Z) : option Scalar :=
  if c <? SIGN then
    let* t := tnum.meet s.(tn) (tnum.from_unsigned_range 0 c) in
    normalize (mk_scalar t (Z.max s.(min) 0) (Z.min s.(max) (as_i64 c)))
  else if s.(max) <? 0 then
    normalize (mk_scalar s.(tn) s.(min) (Z.min s.(max) (as_i64 c)))
  else normalize s.

Definition refine_unsigned_min (s : Scalar) (c : Z) : option Scalar :=
  if c =? 0 then Some s
  else if SIGN <=? c then
    normalize (mk_scalar s.(tn) (Z.max s.(min) (as_i64 c)) (Z.min s.(max) (-1)))
  else if 0 <=? s.(min) then
    normalize (mk_scalar s.(tn) (Z.max s.(min) (as_i64 c)) s.(max))
  else normalize s.

Definition refine_eq (s other : Scalar) : option Scalar := meet s other.

(** [checked_add(1)] and [checked_sub(1)] on [i64]. *)
Definition checked_succ (c : Z) : option Z := if c =? I64_MAX then None else Some (c + 1).
Definition checked_pred (c : Z) : option Z := if c =? I64_MIN then None else Some (c - 1).

Definition refine_ne (s other : Scalar) : option Scalar :=
  match as_const other with
  | None => Some s
  | Some c =>
      if (s.(min) =? s.(max)) && (s.(min) =? c) then None
      else
        let* lo := (if s.(min) =? c then checked_succ c else Some s.(min)) in
        let* hi := (if s.(max) =? c then checked_pred c else Some s.(max)) in
        normalize (mk_scalar s.(tn) lo hi)
  end.

Definition refine_bits_clear (s other : Scalar) : option Scalar :=
  match as_const other with
  | None => Some s
  | Some c =>
      let* t := tnum.meet s.(tn) (mk_tnum 0 (u64_not (u64 c))) in
      normalize (mk_scalar t s.(min) s.(max))
  end.

Definition refine_bits_set (s other : Scalar) : option Scalar :=
  match as_const other with
  | None => Some s
  | Some c =>
      let could_be_set := Z.land (Z.lor s.(tn).(value) s.(tn).(mask)) (u64 c) in
      if could_be_set =? 0 then None else Some s
  end.

(** ** Transfer functions *)

Definition add (a b : Scalar) : Scalar :=
  let '(lo, hi) := interval_add a.(min) a.(max) b.(min) b.(max) in
  normalized (mk_scalar (tnum.add a.(tn) b.(tn)) lo hi).

Definition sub (a b : Scalar) : Scalar :=
  let '(nlo, nhi) := interval_neg b.(min) b.(max) in
  let '(lo, hi) := interval_add a.(min) a.(max) nlo nhi in
  normalized (mk_scalar (tnum.sub a.(tn) b.(tn)) lo hi).

Definition mul (a b : Scalar) : Scalar :=
  let '(lo, hi) := interval_mul a.(min) a.(max) b.(min) b.(max) in
  normalized (mk_scalar (tnum.mul a.(tn) b.(tn)) lo hi).

Definition neg (a : Scalar) : Scalar :=
  let '(lo, hi) := interval_neg a.(min) a.(max) in
  normalized (mk_scalar (tnum.sub tnum.ZERO a.(tn)) lo hi).

Definition and (a b : Scalar) : Scalar :=
  normalized (mk_scalar (tnum.and a.(tn) b.(tn)) I64_MIN I64_MAX).

Definition or (a b : Scalar) : Scalar :=
  normalized (mk_scalar (tnum.or a.(tn) b.(tn)) I64_MIN I64_MAX).

Definition xor (a b : Scalar) : Scalar :=
  normalized (mk_scalar (tnum.xor a.(tn) b.(tn)) I64_MIN I64_MAX).

Definition shift_amount (s : Scalar) (m : Z) : option Z :=
  let* c := as_const s in
  Some (Z.land (u32 (u64 c)) m).

Definition shl (a b : Scalar) : Scalar :=
  match shift_amount b 63 with
  | None => UNKNOWN
  | Some n =>
      let '(lo, hi) :=
        if (0 <=? a.(min)) && (u64 a.(max) <=? Z.shiftr (u64 I64_MAX) n)
        then (i64_shl a.(min) n, i64_shl a.(max) n) else (I64_MIN, I64_MAX) in
      normalized (mk_scalar (tnum.shl a.(tn) n) lo hi)
  end.

Definition shr (a b : Scalar) : Scalar :=
  match shift_amount b 63 with
  | None => UNKNOWN
  | Some n =>
      if n =? 0 then a
      else
        let '(lo, hi) :=
          if 0 <=? a.(min) then (Z.shiftr a.(min) n, Z.shiftr a.(max) n)
          else (0, as_i64 (Z.shiftr U64_MAX n)) in
        normalized (mk_scalar (tnum.shr a.(tn) n) lo hi)
  end.

Definition sar (a b : Scalar) : Scalar :=
  match shift_amount b 63 with
  | None => UNKNOWN
  | Some n =>
      normalized (mk_scalar (tnum.sar a.(tn) n) (Z.shiftr a.(min) n) (Z.shiftr a.(max) n))
  end.

Definition from_unsigned_range (lo hi : Z) : Scalar :=
  if hi <? lo then UNKNOWN
  else
    let t := tnum.from_unsigned_range lo hi in
    let straddles_sign := (lo <=? u64 I64_MAX) && (u64 I64_MAX <? hi) in
    let '(lo', hi') := if straddles_sign then (I64_MIN, I64_MAX) else (as_i64 lo, as_i64 hi) in
    normalized (mk_scalar t lo' hi').

(** [None] when the division by [bhi] panics. *)
Definition udiv (a b : Scalar) : option Scalar :=
  let '(alo, ahi) := unsigned_bounds a in
  let '(blo, bhi) := unsigned_bounds b in
  let hi := if bhi =? 0 then 0 else if blo =? 0 then ahi else ahi / blo in
  let* lo := (if blo =? 0 then Some 0 else if bhi =? 0 then None else Some (alo / bhi)) in
  Some (from_unsigned_range lo hi).

Definition umod (a b : Scalar) : Scalar :=
  let '(_, ahi) := unsigned_bounds a in
  let '(blo, bhi) := unsigned_bounds b in
  let hi := if blo =? 0 then ahi else Z.min ahi (Z.max 0 (bhi - 1)) in
  from_unsigned_range 0 hi.

Definition sdiv (a b : Scalar) : Scalar :=
  match as_const a, as_const b with
  | Some a, Some b => constant (concrete_sdiv a b)
  | _, _ => UNKNOWN
  end.

Definition smod (a b : Scalar) : Scalar :=
  match as_const a, as_const b with
  | Some a, Some b => constant (concrete_smod a b)
  | _, _ => UNKNOWN
  end.

Definition bswap (a : Scalar) (width : Z) : Scalar :=
  match as_const a with
  | Some v => constant (as_i64 (concrete_bswap (u64 v) width))
  | None =>
      if width =? 16 then unsigned_bits 16
      else if width =? 32 then unsigned_bits 32
      else UNKNOWN
  end.

(** ** Instruction-level transfers *)

Definition alu (a : Scalar) (op : AluOp) (wide : bool) (b : Scalar) : Scalar :=
  if wide then
    match op with
    | AluOp.Add => add a b
    | AluOp.Sub => sub a b
    | AluOp.Mul => mul a b
    | AluOp.Or => or a b
    | AluOp.And => and a b
    | AluOp.Xor => xor a b
    | AluOp.Lsh => shl a b
    | AluOp.Rsh => shr a b
    | AluOp.Arsh => sar a b
    end
  else
    let self := a in
    let a := zext32 self in
    let b := zext32 b in
    let amount := and b (constant 31) in
    match op with
    | AluOp.Add => zext32 (add a b)
    | AluOp.Sub => zext32 (sub a b)
    | AluOp.Mul => zext32 (mul a b)
    | AluOp.Or => or a b
    | AluOp.And => and a b
    | AluOp.Xor => xor a b
    | AluOp.Lsh => zext32 (shl a amount)
    | AluOp.Rsh => shr a amount
    | AluOp.Arsh => zext32 (sar (sext32 self) amount)
    end.

Definition div_op (a : Scalar) (wide signed : bool) (b : Scalar) : option Scalar :=
  match wide, signed with
  | true, false => udiv a b
  | true, true => Some (sdiv a b)
  | false, false => let* q := udiv (zext32 a) (zext32 b) in Some (zext32 q)
  | false, true =>
      Some match as_const (sext32 a), as_const (sext32 b) with
           | Some a, Some b => constant (u32 (concrete_sdiv32 (as_i32 a) (as_i32 b)))
           | _, _ => unsigned_bits 32
           end
  end.

Definition mod_op (a : Scalar) (wide signed : bool) (b : Scalar) : Scalar :=
  match wide, signed with
  | true, false => umod a b
  | true, true => smod a b
  | false, false => zext32 (umod (zext32 a) (zext32 b))
  | false, true =>
      match as_const (sext32 a), as_const (sext32 b) with
      | Some a, Some b => constant (u32 (concrete_smod32 (as_i32 a) (as_i32 b)))
      | _, _ => unsigned_bits 32
      end
  end.

Definition neg_op (a : Scalar) (wide : bool) : Scalar :=
  if wide then neg a else zext32 (neg (zext32 a)).

Definition mov_op (a : Scalar) (wide : bool) (se : option Z) : Scalar :=
  match se, wide with
  | None, true => a
  | None, false => zext32 a
  | Some bits, true => sign_extend a bits
  | Some bits, false => zext32 (sign_extend a bits)
  end.

Definition end_op (a : Scalar) (order : ByteOrder) (width : Z) : Scalar :=
  match order with
  | ByteOrder.Little =>
      if width =? 16 then and (zext32 a) (constant 0xffff)
      else if width =? 32 then zext32 a
      else a
  | ByteOrder.Big | ByteOrder.Swap => bswap a width
  end.
End scalar.
