(* ===== verification/BpfInterp.v ===== *)
(** The reference interpreter of BPF programs
    ([bpf/verifier/src/interp.rs]): the concrete semantics the verifier's
    transfer functions are measured against.

    [None] is a panic (an index out of range); [interp_total] shows there is
    none on the machines the interpreter builds.  The machine's [fuel] is the
    measure of the main loop. *)

From S2P Require Import Prelude Word Slice BpfOpcode BpfInsn BpfEncode BpfScalar.

(** [MAX_STACK_BYTES] of the verifier. *)
Definition MAX_STACK_BYTES : Z := 16 * 1024.
Definition STACK_BYTES : Z := MAX_STACK_BYTES.
Definition CTX_BASE : Z := 2 ^ 32.

Inductive Trap : Type := BadAccess | UninitRead | BadPc | Unsupported | OutOfFuel.

Record Machine : Type := mk_machine {
  m_regs : list Z;
  m_stack : list Z;
  m_ctx : list Z;
  m_defined : list bool;
  m_fuel : Z
}.

Module interp.
Definition new : Machine :=
  mk_machine (<[10%nat := STACK_BYTES]> (replicate 11 0))
    (replicate (Z.to_nat STACK_BYTES) 0) [] (replicate (Z.to_nat STACK_BYTES) false) (2 ^ 20).

Definition with_ctx (words : list Z) : Machine :=
  let m := new in
  mk_machine (<[1%nat := CTX_BASE]> m.(m_regs)) m.(m_stack) (flat_map (le_bytes 8) words)
    m.(m_defined) m.(m_fuel).

(** The outer [option] is the source's; a context access never panics. *)
Definition ctx_load (m : Machine) (addr : Z) (size : Size) : option (Result Z Trap) :=
  if addr <? CTX_BASE then None
  else
    let off := addr - CTX_BASE in
    let n := size_bytes size in
    Some (if (off + n <? 2 ^ 64) && (off + n <=? Z.of_nat (length m.(m_ctx)))
          then Ok (le_value (take (Z.to_nat n) (drop (Z.to_nat off) m.(m_ctx))))
          else Err BadAccess).

Definition slot (addr : Z) (size : Size) : Result Z Trap :=
  let base := as_i64 (as_i64 addr - STACK_BYTES) in
  let idx := as_i64 (STACK_BYTES + base) in
  if (idx <? 0) || (STACK_BYTES <? idx + size_bytes size) then Err BadAccess
  else Ok idx.

Definition load (m : Machine) (addr : Z) (size : Size) : option (Result Z Trap) :=
  match ctx_load m addr size with
  | Some v => Some v
  | None =>
      match slot addr size with
      | Err t => Some (Err t)
      | Ok i =>
          let n := size_bytes size in
          let* ds := slice m.(m_defined) i n in
          if negb (forallb (fun d => d) ds) then Some (Err UninitRead)
          else
            let* buf := slice m.(m_stack) i n in
            Some (Ok (le_value buf))
      end
  end.

(** The machine is unchanged when the store traps. *)
Definition store (m : Machine) (addr : Z) (size : Size) (v : Z) : option (Result Machine Trap) :=
  if CTX_BASE <=? addr then Some (Err BadAccess)
  else
    match slot addr size with
    | Err t => Some (Err t)
    | Ok i =>
        let n := size_bytes size in
        let bytes := le_bytes 8 v in
        let* stack := write_slice m.(m_stack) i (take (Z.to_nat n) bytes) in
        let* defined := write_slice m.(m_defined) i (replicate (Z.to_nat n) true) in
        Some (Ok (mk_machine m.(m_regs) stack m.(m_ctx) defined m.(m_fuel)))
    end.

Definition alu (op : AluOp) (wide : bool) (dst src : Z) : Z :=
  if wide then
    match op with
    | AluOp.Add => u64 (dst + src)
    | AluOp.Sub => u64 (dst - src)
    | AluOp.Mul => u64 (dst * src)
    | AluOp.Or => Z.lor dst src
    | AluOp.And => Z.land dst src
    | AluOp.Xor => Z.lxor dst src
    | AluOp.Lsh => u64_shl dst (Z.land src 63)
    | AluOp.Rsh => Z.shiftr dst (Z.land src 63)
    | AluOp.Arsh => u64 (Z.shiftr (as_i64 dst) (Z.land src 63))
    end
  else
    let a := u32 dst in
    let b := u32 src in
    match op with
    | AluOp.Add => u32 (a + b)
    | AluOp.Sub => u32 (a - b)
    | AluOp.Mul => u32 (a * b)
    | AluOp.Or => Z.lor a b
    | AluOp.And => Z.land a b
    | AluOp.Xor => Z.lxor a b
    | AluOp.Lsh => wshl 32 a (Z.land b 31)
    | AluOp.Rsh => Z.shiftr a (Z.land b 31)
    | AluOp.Arsh => u32 (Z.shiftr (as_i32 a) (Z.land b 31))
    end.

Definition div (wide signed : bool) (dst src : Z) : Z :=
  match wide, signed with
  | true, false => concrete_udiv dst src
  | true, true => u64 (concrete_sdiv (as_i64 dst) (as_i64 src))
  | false, false => u32 (concrete_udiv (u32 dst) (u32 src))
  | false, true => u32 (concrete_sdiv32 (as_i32 (u32 dst)) (as_i32 (u32 src)))
  end.

Definition rem (wide signed : bool) (dst src : Z) : Z :=
  match wide, signed with
  | true, false => concrete_umod dst src
  | true, true => u64 (concrete_smod (as_i64 dst) (as_i64 src))
  | false, false => u32 (concrete_umod (u32 dst) (u32 src))
  | false, true => u32 (concrete_smod32 (as_i32 (u32 dst)) (as_i32 (u32 src)))
  end.

Definition end_ (order : ByteOrder) (width dst : Z) : Z :=
  let truncated := if width =? 16 then u16 dst else if width =? 32 then u32 dst else dst in
  match order with
  | ByteOrder.Little => truncated
  | ByteOrder.Big | ByteOrder.Swap => concrete_bswap dst width
  end.

Definition cond (op : CondOp) (wide : bool) (a b : Z) : bool :=
  if wide then
    match op with
    | CondOp.Eq => a =? b
    | CondOp.Ne => negb (a =? b)
    | CondOp.Gt => b <? a
    | CondOp.Ge => b <=? a
    | CondOp.Lt => a <? b
    | CondOp.Le => a <=? b
    | CondOp.Sgt => as_i64 b <? as_i64 a
    | CondOp.Sge => as_i64 b <=? as_i64 a
    | CondOp.Slt => as_i64 a <? as_i64 b
    | CondOp.Sle => as_i64 a <=? as_i64 b
    | CondOp.Set_ => negb (Z.land a b =? 0)
    end
  else
    let '(a, b) := (u32 a, u32 b) in
    match op with
    | CondOp.Eq => a =? b
    | CondOp.Ne => negb (a =? b)
    | CondOp.Gt => b <? a
    | CondOp.Ge => b <=? a
    | CondOp.Lt => a <? b
    | CondOp.Le => a <=? b
    | CondOp.Sgt => as_i32 b <? as_i32 a
    | CondOp.Sge => as_i32 b <=? as_i32 a
    | CondOp.Slt => as_i32 a <? as_i32 b
    | CondOp.Sle => as_i32 a <=? as_i32 b
    | CondOp.Set_ => negb (Z.land a b =? 0)
    end.

Definition sext (v bits : Z) : Z :=
  if 64 <=? bits then v
  else
    let shift := (64 - bits) mod 64 in
    u64 (Z.shiftr (as_i64 (u64_shl v shift)) shift).

(** The values the [Neg] and [Mov] arms of [run] assign. *)
Definition neg (wide : bool) (d : Z) : Z :=
  if wide then u64 (as_i64 (- as_i64 d)) else u32 (- u32 d).

Definition mov (wide : bool) (sign_extend : option Z) (s : Z) : Z :=
  match sign_extend, wide with
  | Some bits, true => sext s bits
  | Some bits, false => u32 (sext s bits)
  | None, true => s
  | None, false => u32 s
  end.

(** ** The main loop *)

(** [m.regs[r]] and [m.regs[r] = v]. *)
Definition get_reg (m : Machine) (r : Reg) : option Z := m.(m_regs) !! reg_usize r.

Definition set_reg (m : Machine) (r : Reg) (v : Z) : option Machine :=
  let* _ := get_reg m r in
  Some (mk_machine (<[reg_usize r := v]> m.(m_regs)) m.(m_stack) m.(m_ctx) m.(m_defined) m.(m_fuel)).

(** The closure [val]. *)
Definition val (m : Machine) (s : Source) (wide : bool) : option Z :=
  match s with
  | Source.Reg r => get_reg m r
  | Source.Imm i => Some (if wide then u64 i else u32 i)
  end.

(** What one iteration does: go on at a new [pc], or return. *)
Inductive Flow : Type :=
| Continue (pc : Z) (m : Machine)
| Return (r : Result Z Trap) (m : Machine).

Definition goto (next off : Z) : Z := u64 (next + off).

(** The body of the match on the decoded instruction. *)
Definition exec (op : Decoded) (next : Z) (m : Machine) : option Flow :=
  let assign dst v := let* m := set_reg m dst v in Some (Continue next m) in
  match op with
  | Decoded.Alu wide a dst src =>
      let* s := val m src wide in
      let* d := get_reg m dst in
      assign dst (alu a wide d s)
  | Decoded.Neg wide dst =>
      let* d := get_reg m dst in
      assign dst (neg wide d)
  | Decoded.Mov wide dst src sign_extend =>
      let* s := val m src wide in
      assign dst (mov wide sign_extend s)
  | Decoded.Div wide signed dst src =>
      let* s := val m src wide in
      let* d := get_reg m dst in
      assign dst (div wide signed d s)
  | Decoded.Mod wide signed dst src =>
      let* s := val m src wide in
      let* d := get_reg m dst in
      assign dst (rem wide signed d s)
  | Decoded.End_ dst order width =>
      let* d := get_reg m dst in
      assign dst (end_ order width d)
  | Decoded.Load size sign_extend dst src off =>
      let* base := get_reg m src in
      let addr := u64 (base + u64 off) in
      let* r := load m addr size in
      match r with
      | Err t => Some (Return (Err t) m)
      | Ok v => assign dst (if sign_extend then sext v (size_bits size) else v)
      end
  | Decoded.Store size dst off src =>
      let* base := get_reg m dst in
      let addr := u64 (base + u64 off) in
      let* v := val m src true in
      let* r := store m addr size v in
      match r with
      | Err t => Some (Return (Err t) m)
      | Ok m => Some (Continue next m)
      end
  | Decoded.LoadImm64 dst (Imm64.Value v) => assign dst v
  | Decoded.Jump off => Some (Continue (goto next off) m)
  | Decoded.JumpCond wide c dst src off =>
      let* s := val m src wide in
      let* d := get_reg m dst in
      Some (Continue (if cond c wide d s then goto next off else next) m)
  | Decoded.Exit =>
      let* r0 := get_reg m R0 in
      Some (Return (Ok r0) m)
  | _ => Some (Return (Err Unsupported) m)
  end.

(** One iteration, after the fuel has been charged. *)
Definition iter (prog : list Insn) (pc : Z) (m : Machine) : option Flow :=
  if Z.of_nat (length prog) <=? pc then Some (Return (Err BadPc) m)
  else
    let* d := decode prog (Z.to_nat pc) in
    match d with
    | Err _ => Some (Return (Err Unsupported) m)
    | Ok (op, width) => exec op (pc + Z.of_nat width) m
    end.

Definition charge (m : Machine) : Machine :=
  mk_machine m.(m_regs) m.(m_stack) m.(m_ctx) m.(m_defined) (m.(m_fuel) - 1).

(** The loop; [n] is the remaining fuel. *)
Fixpoint run_loop (n : nat) (prog : list Insn) (pc : Z) (m : Machine)
    : option (Result Z Trap * Machine) :=
  match n with
  | O => Some (Err OutOfFuel, m)
  | S n =>
      let* f := iter prog pc (charge m) in
      match f with
      | Return r m => Some (r, m)
      | Continue pc m => run_loop n prog pc m
      end
  end.

Definition run (prog : list Insn) (m : Machine) : option (Result Z Trap * Machine) :=
  run_loop (Z.to_nat m.(m_fuel)) prog 0 m.
End interp.
