(* ===== verification/BpfRefine.v ===== *)
(** Branch refinement of scalar operands: [Pred] and the scalar part of
    [Analysis::refine] in [bpf/verifier/src/fixpoint.rs].

    The rest of [refine] (null tests, the bounds of a dynamic region, and the
    state that results) is in [BpfAnalysis]. *)

From S2P Require Import Prelude Word BpfOpcode Tnum BpfScalar.

Module Pred.
Inductive Pred : Type := Eq | Ne | Gt | Ge | Lt | Le | Sgt | Sge | Slt | Sle | Set_ | NotSet.

Definition of_cond (op : CondOp) : Pred :=
  match op with
  | CondOp.Eq => Eq
  | CondOp.Ne => Ne
  | CondOp.Gt => Gt
  | CondOp.Ge => Ge
  | CondOp.Lt => Lt
  | CondOp.Le => Le
  | CondOp.Sgt => Sgt
  | CondOp.Sge => Sge
  | CondOp.Slt => Slt
  | CondOp.Sle => Sle
  | CondOp.Set_ => Set_
  end.

Definition negate (p : Pred) : Pred :=
  match p with
  | Eq => Ne
  | Ne => Eq
  | Gt => Le
  | Ge => Lt
  | Lt => Ge
  | Le => Gt
  | Sgt => Sle
  | Sge => Slt
  | Slt => Sge
  | Sle => Sgt
  | Set_ => NotSet
  | NotSet => Set_
  end.

Definition swap_operands (p : Pred) : Pred :=
  match p with
  | Eq => Eq
  | Ne => Ne
  | Gt => Lt
  | Ge => Le
  | Lt => Gt
  | Le => Ge
  | Sgt => Slt
  | Sge => Sle
  | Slt => Sgt
  | Sle => Sge
  | Set_ => Set_
  | NotSet => NotSet
  end.

Definition is_unsigned (p : Pred) : bool :=
  match p with
  | Eq | Ne | Gt | Ge | Lt | Le | Set_ | NotSet => true
  | Sgt | Sge | Slt | Sle => false
  end.
End Pred.
Abbreviation Pred := Pred.Pred.

(** [saturating_add(1)] and [saturating_sub(1)] on [u64] and on [i64]. *)
Definition sat_inc (c : Z) : Z := Z.min U64_MAX (c + 1).
Definition sat_dec (c : Z) : Z := Z.max 0 (c - 1).
Definition ssat_inc (c : Z) : Z := Z.min I64_MAX (c + 1).
Definition ssat_dec (c : Z) : Z := Z.max I64_MIN (c - 1).

Definition refinable (wide : bool) (pred : Pred) (v : Scalar) : bool :=
  wide || ((0 <=? v.(min)) &&
           (v.(max) <=? if Pred.is_unsigned pred then 0xffffffff else 0x7fffffff)).

(** The scalar operands on one edge of a branch; [None] when the edge is
    infeasible. *)
Definition refine_scalars (wide : bool) (pred : Pred) (a b : Scalar) : option (Scalar * Scalar) :=
  if negb (refinable wide pred a) || negb (refinable wide pred b) then Some (a, b)
  else
    let '(au0, au1) := scalar.unsigned_bounds a in
    let '(bu0, bu1) := scalar.unsigned_bounds b in
    let '(na, nb) :=
      match pred with
      | Pred.Eq => (scalar.refine_eq a b, scalar.refine_eq b a)
      | Pred.Ne => (scalar.refine_ne a b, scalar.refine_ne b a)
      | Pred.Gt => (scalar.refine_unsigned_min a (sat_inc bu0),
                    scalar.refine_unsigned_max b (sat_dec au1))
      | Pred.Ge => (scalar.refine_unsigned_min a bu0, scalar.refine_unsigned_max b au1)
      | Pred.Lt => (scalar.refine_unsigned_max a (sat_dec bu1),
                    scalar.refine_unsigned_min b (sat_inc au0))
      | Pred.Le => (scalar.refine_unsigned_max a bu1, scalar.refine_unsigned_min b au0)
      | Pred.Sgt => (scalar.refine_signed_min a (ssat_inc b.(min)),
                     scalar.refine_signed_max b (ssat_dec a.(max)))
      | Pred.Sge => (scalar.refine_signed_min a b.(min), scalar.refine_signed_max b a.(max))
      | Pred.Slt => (scalar.refine_signed_max a (ssat_dec b.(max)),
                     scalar.refine_signed_min b (ssat_inc a.(min)))
      | Pred.Sle => (scalar.refine_signed_max a b.(max), scalar.refine_signed_min b a.(min))
      | Pred.Set_ => (scalar.refine_bits_set a b, Some b)
      | Pred.NotSet => (scalar.refine_bits_clear a b, Some b)
      end in
    let* na := na in
    let* nb := nb in
    Some (na, nb).
