(* ===== verification/ScalarSound.v ===== *)
(** Scalars as sets of words: what [normalize], the lattice operations and
    the refinements do to the set a scalar denotes. *)

From S2P Require Import Prelude Word BpfOpcode Tnum TnumSound TnumRange BpfScalar.
Import scalar.

Record swf (s : Scalar) : Prop := {
  swf_tn : wf s.(tn);
  swf_min : is_i 64 s.(min);
  swf_max : is_i 64 s.(max)
}.

#[export] Hint Resolve swf_tn swf_min swf_max : word.

(** The words a scalar denotes. *)
Definition smember (s : Scalar) (v : Z) : Prop := is_u 64 v /\ contains s v = true.

Lemma smember_iff s v : smember s v <-> member s.(tn) v /\ s.(min) <= as_i64 v <= s.(max).
Proof. unfold smember, member, contains. rewrite !andb_true_iff, !Z.leb_le. tauto. Qed.

Lemma is_i_max w a b : is_i w a -> is_i w b -> is_i w (Z.max a b).
Proof. unfold is_i. lia. Qed.

Lemma is_i_min w a b : is_i w a -> is_i w b -> is_i w (Z.min a b).
Proof. unfold is_i. lia. Qed.

#[export] Hint Resolve is_i_max is_i_min : word.
#[export] Hint Extern 1 (is_i 64 Z0) => split; vm_compute; congruence : word.
#[export] Hint Extern 1 (is_i 64 (Zpos _)) => split; vm_compute; congruence : word.
#[export] Hint Extern 1 (is_i 64 (Zneg _)) => split; vm_compute; congruence : word.

(** * The interval's tnum *)

Lemma hull_spec lo hi :
  is_i 64 lo -> is_i 64 hi ->
  wf (hull lo hi) /\
  forall v, is_u 64 v -> lo <= as_i64 v <= hi -> tnum.contains (hull lo hi) v = true.
Proof.
  intros Hl Hh. unfold hull. destruct ((0 <=? lo) || (hi <? 0)) eqn:E.
  - split; [apply wf_from_unsigned_range; auto with word |]. intros v Hv B.
    assert (S : 0 <= lo \/ hi < 0) by (apply orb_true_iff in E as [E | E]; reflect; auto).
    pose proof (swrap_range 64 eq_refl v).
    rewrite <- (wrap_swrap_id 64 v) by (lia || done).
    apply from_unsigned_range_sound; auto with word.
    split; apply wrap_mono; auto with word; lia.
  - split; [auto with word |]. intros. apply contains_UNKNOWN.
Qed.

(** * Normalisation changes no set *)

(** The result of an operation that may find the set empty. *)
Definition denotes (o : option Scalar) (P : Z -> Prop) : Prop :=
  match o with
  | Some s => swf s /\ forall v, smember s v <-> P v
  | None => forall v, ~ P v
  end.

Lemma denotes_weaken o (P Q : Z -> Prop) :
  denotes o P -> (forall v, P v <-> Q v) -> denotes o Q.
Proof. destruct o; simpl; intros H E; [split; [apply H |] |]; intros v; rewrite <- E; apply H. Qed.

Lemma normalize_round_spec s : swf s -> denotes (normalize_round s) (smember s).
Proof.
  intros [Wt Hl Hh]. unfold normalize_round. destruct (Z.ltb_spec (max s) (min s)) as [L | L].
  { intros v. rewrite smember_iff. lia. }
  pose proof (signed_bounds_spec (tn s) Wt) as S. destruct (tnum.signed_bounds (tn s)) as [tlo thi].
  destruct S as (Rl & Rh & _ & _ & B).
  assert (M : forall v, smember s v -> Z.max (min s) tlo <= as_i64 v <= Z.min (max s) thi).
  { intros v [[Hv C] I]%smember_iff. specialize (B v Hv C). lia. }
  set (lo := Z.max (min s) tlo) in *. set (hi := Z.min (max s) thi) in *.
  destruct (Z.ltb_spec hi lo) as [L' | L']; [intros v Hv; specialize (M v Hv); lia |].
  destruct (hull_spec lo hi) as [Wh Ch]; [unfold lo; auto with word | unfold hi; auto with word |].
  pose proof (meet_sound (tn s) (hull lo hi) Wt Wh) as X.
  destruct (tnum.meet (tn s) (hull lo hi)) as [t |] eqn:E.
  - split.
    + split; simpl; [by apply (wf_meet _ _ Wt Wh) | unfold lo | unfold hi]; auto with word.
    + intros v. rewrite !smember_iff. unfold member. cbn [tn min max]. split.
      * intros [[Hv C] I]. destruct (proj2 (X v Hv)) as [C1 _]; [eauto |]. split; [done | lia].
      * intros [[Hv C] I]. assert (M' := M v ltac:(apply smember_iff; done)).
        destruct (proj1 (X v Hv)) as (t' & [= <-] & C'); [auto |]. done.
  - intros v Hm. pose proof (M v Hm) as M'. apply smember_iff in Hm as [[Hv C] I].
    destruct (proj1 (X v Hv)) as (t' & [=] & _). auto.
Qed.

Lemma normalize_loop_spec n s : swf s -> denotes (normalize_loop n s) (smember s).
Proof.
  revert s. induction n as [| n IH]; intros s W; [by split |]. simpl.
  pose proof (normalize_round_spec s W) as R.
  destruct (normalize_round s) as [s' |]; [| exact R]. destruct R as [W' R].
  destruct (decide (s' = s)); [done |]. by apply (denotes_weaken _ (smember s')); [apply IH |].
Qed.

Lemma normalize_spec s : swf s -> denotes (normalize s) (smember s).
Proof.
  intros W. unfold normalize. pose proof (normalize_loop_spec 3 s W) as R.
  destruct (normalize_loop 3 s) as [s' |]; [| exact R].
  destruct (Z.ltb_spec (max s') (min s')) as [L |]; [| exact R].
  destruct R as [_ R]. intros v Hv. apply R, smember_iff in Hv. lia.
Qed.

Lemma normalized_spec s : swf s -> swf (normalized s) /\ forall v, smember (normalized s) v <-> smember s v.
Proof.
  intros W. unfold normalized. pose proof (normalize_spec s W) as R.
  destruct (normalize s) as [s' |]; [exact R | done].
Qed.

(** Normalisation only tightens the interval. *)
Lemma normalize_round_shrinks s s' :
  normalize_round s = Some s' -> s.(min) <= s'.(min) /\ s'.(max) <= s.(max).
Proof.
  unfold normalize_round. intros H. repeat case_match; simplify_eq/=. lia.
Qed.

Lemma normalize_loop_shrinks n s s' :
  normalize_loop n s = Some s' -> s.(min) <= s'.(min) /\ s'.(max) <= s.(max).
Proof.
  revert s. induction n as [| n IH]; intros s; simpl; [intros [= <-]; lia |].
  destruct (normalize_round s) as [r |] eqn:E; [| done]. apply normalize_round_shrinks in E.
  destruct (decide (r = s)); [intros [= <-]; exact E |]. intros L. apply IH in L. lia.
Qed.

Lemma normalized_shrinks s : s.(min) <= (normalized s).(min) /\ (normalized s).(max) <= s.(max).
Proof.
  unfold normalized, normalize. destruct (normalize_loop 3 s) as [r |] eqn:E; simpl; [| lia].
  apply normalize_loop_shrinks in E. case_match; simpl; lia.
Qed.

(** The shape every operation ends in. *)
Lemma normalized_mk t lo hi :
  wf t -> is_i 64 lo -> is_i 64 hi ->
  swf (normalized (mk_scalar t lo hi)) /\
  forall v, smember (normalized (mk_scalar t lo hi)) v <-> member t v /\ lo <= as_i64 v <= hi.
Proof.
  intros Wt Hl Hh. destruct (normalized_spec (mk_scalar t lo hi)) as [W E]; [by split |].
  split; [exact W |]. intros v. by rewrite E, smember_iff.
Qed.

Lemma normalize_mk t lo hi :
  wf t -> is_i 64 lo -> is_i 64 hi ->
  denotes (normalize (mk_scalar t lo hi)) (fun v => member t v /\ lo <= as_i64 v <= hi).
Proof.
  intros Wt Hl Hh. apply (denotes_weaken _ (smember (mk_scalar t lo hi))); [| apply smember_iff].
  by apply normalize_spec.
Qed.

(** Following a [meet] of tnums. *)
Lemma normalize_meet t u lo hi :
  wf t -> wf u -> is_i 64 lo -> is_i 64 hi ->
  denotes (let* m := tnum.meet t u in normalize (mk_scalar m lo hi))
    (fun v => (member t v /\ member u v) /\ lo <= as_i64 v <= hi).
Proof.
  intros Wt Wu Hl Hh. pose proof (meet_sound t u Wt Wu) as X. unfold member.
  destruct (tnum.meet t u) as [m |] eqn:E.
  - pose proof (wf_meet t u Wt Wu m E) as Wm.
    apply (denotes_weaken _ _ _ (normalize_mk m lo hi Wm Hl Hh)). intros v. unfold member. split.
    + intros [[Hv C] B]. destruct (proj2 (X v Hv)); [eauto |]. auto.
    + intros [[[Hv C] [_ C']] B]. destruct (proj1 (X v Hv)) as (t' & [= <-] & ?); auto.
  - intros v [[[Hv C] [_ C']] B]. destruct (proj1 (X v Hv)) as (t' & [=] & ?); auto.
Qed.

Lemma as_const_spec s c :
  swf s -> as_const s = Some c -> is_i 64 c /\ forall v, smember s v -> v = u64 c.
Proof.
  intros [Wt Hl Hh]. unfold as_const, tnum.is_const.
  destruct (Z.eqb_spec (mask (tn s)) 0) as [E | E].
  - intros [= <-]. split; [auto with word |]. intros v [[Hv C] _]%smember_iff.
    rewrite wrap_swrap_id by auto with word. apply contains_le in C; auto. rewrite E, Z.lor_0_r in C. lia.
  - destruct (Z.eqb_spec (min s) (max s)) as [E' | E']; [| done]. intros [= <-]. split; [done |].
    intros v [[Hv C] B]%smember_iff. rewrite <- (wrap_swrap_id 64 v) by (lia || done). f_equal. lia.
Qed.

(** * Lattice operations *)

Section Lattice.
Context (a b : Scalar) (Wa : swf a) (Wb : swf b).

Lemma join_spec :
  swf (join a b) /\ forall v, smember a v \/ smember b v -> smember (join a b) v.
Proof using Wa Wb.
  destruct (normalized_mk (tnum.join a.(tn) b.(tn)) (Z.min a.(min) b.(min)) (Z.max a.(max) b.(max)))
    as [W E]; auto with word.
  split; [exact W |]. intros v H. apply E. rewrite !smember_iff in H. unfold member in *.
  assert (Hv : is_u 64 v) by tauto. split; [split; [exact Hv |] | lia].
  apply join_sound; auto with word. tauto.
Qed.

Lemma meet_spec : denotes (meet a b) (fun v => smember a v /\ smember b v).
Proof using Wa Wb.
  eapply denotes_weaken; [apply normalize_meet; auto with word |].
  intros v. rewrite !smember_iff. intuition lia.
Qed.

Lemma subset_sound v : is_subset_of a b = true -> smember a v -> smember b v.
Proof using Wa Wb.
  unfold is_subset_of. rewrite !andb_true_iff, !Z.leb_le, !smember_iff. intros [[L1 L2] S] [[Hv C] B].
  split; [| lia]. split; [exact Hv |]. by apply (subset_spec a.(tn)); auto with word.
Qed.
End Lattice.

Lemma find_spec p l t : find p l = Some t -> t ∈ l /\ p t = true.
Proof.
  induction l as [| x l IH]; simpl; [done |]. destruct (p x) eqn:E.
  - intros [= <-]. split; [constructor | exact E].
  - intros H. destruct (IH H). split; [by constructor | done].
Qed.

(** The threshold search falls back on the extreme value, so it never fails. *)
Lemma widen_below l c :
  Forall (is_i 64) l -> is_i 64 c ->
  let r := unwrap_or (find (fun t => t <=? c) (reverse l)) I64_MIN in is_i 64 r /\ r <= c.
Proof.
  intros Hl Hc. destruct (find _ _) as [t |] eqn:E; simpl.
  - apply find_spec in E as [In E]. apply Z.leb_le in E. split; [| exact E].
    rewrite elem_of_reverse in In. by apply (proj1 (Forall_forall _ _) Hl).
  - split; [auto with word | unfold is_i in Hc; lia].
Qed.

Lemma widen_above l c :
  Forall (is_i 64) l -> is_i 64 c ->
  let r := unwrap_or (find (fun t => c <=? t) l) I64_MAX in is_i 64 r /\ c <= r.
Proof.
  intros Hl Hc. destruct (find _ _) as [t |] eqn:E; simpl.
  - apply find_spec in E as [In E]. apply Z.leb_le in E. split; [| exact E].
    by apply (proj1 (Forall_forall _ _) Hl).
  - split; [auto with word | unfold is_i in Hc; lia].
Qed.

Lemma widen_spec a next l :
  swf a -> swf next -> Forall (is_i 64) l ->
  swf (widen a next l) /\ forall v, smember a v \/ smember next v -> smember (widen a next l) v.
Proof.
  intros Wa Wn Hl. unfold widen.
  pose proof (widen_below l (min next) Hl (swf_min next Wn)) as [Rb Lb].
  pose proof (widen_above l (max next) Hl (swf_max next Wn)) as [Ra La].
  set (lo := if min next <? min a then _ else _). set (hi := if max a <? max next then _ else _).
  assert (Rl : is_i 64 lo /\ lo <= min a /\ lo <= min next).
  { subst lo. destruct (Z.ltb_spec (min next) (min a)); split; auto with word; lia. }
  assert (Rh : is_i 64 hi /\ max a <= hi /\ max next <= hi).
  { subst hi. destruct (Z.ltb_spec (max a) (max next)); split; auto with word; lia. }
  clearbody lo hi. destruct Rl as (Rl & Ll & Ll'), Rh as (Rh & Lh & Lh').
  destruct (hull_spec lo hi Rl Rh) as [Wh Ch].
  pose proof (wf_join (tn a) (tn next) (swf_tn a Wa) (swf_tn next Wn)) as Wj.
  set (t := if (min next <? min a) || (max a <? max next) then _ else _).
  assert (T : wf t /\ forall v, tnum.contains (tnum.join (tn a) (tn next)) v = true -> is_u 64 v -> tnum.contains t v = true).
  { subst t. destruct (_ || _); split; auto with word. intros v C Hv. apply join_sound; auto. }
  destruct T as [Wt Ct]. clearbody t.
  destruct (normalized_mk t lo hi Wt Rl Rh) as [W E].
  split; [exact W |]. intros v H. apply E. rewrite !smember_iff in H. unfold member in *.
  assert (Hv : is_u 64 v) by tauto. split; [split; [exact Hv |] | lia].
  apply Ct; [| exact Hv]. apply join_sound; auto with word. tauto.
Qed.

(** * Refinement *)

(** [o] keeps every member of [s] that satisfies [P], adds none, and is
    [None] only when there is none to keep. *)
Definition refines (o : option Scalar) (s : Scalar) (P : Z -> Prop) : Prop :=
  match o with
  | Some s' =>
      swf s' /\ (forall v, smember s v -> P v -> smember s' v) /\ (forall v, smember s' v -> smember s v)
  | None => forall v, smember s v -> ~ P v
  end.

Lemma denotes_refines o s (P Q : Z -> Prop) :
  denotes o Q -> (forall v, smember s v -> P v -> Q v) -> (forall v, Q v -> smember s v) -> refines o s P.
Proof.
  destruct o as [s' |]; simpl.
  - intros [W E] H1 H2. split; [exact W |]. split; intros v; rewrite E; auto.
  - intros E H1 H2 v Hv HP. apply (E v). auto.
Qed.

Lemma refines_keep s P : swf s -> refines (Some s) s P.
Proof. intros W. split; auto. Qed.

(** Moving an endpoint off an excluded value. *)
Lemma succ_bound m c :
  is_i 64 m -> is_i 64 c ->
  match (if m =? c then checked_succ c else Some m) with
  | Some lo => is_i 64 lo /\ m <= lo /\ forall z, m <= z -> z <> c -> lo <= z
  | None => forall z, is_i 64 z -> m <= z -> z = c
  end.
Proof.
  intros Hm Hc. unfold checked_succ, is_i in *. destruct (Z.eqb_spec m c) as [-> |].
  - destruct (Z.eqb_spec c I64_MAX); repeat split; intros; lia.
  - repeat split; intros; lia.
Qed.

Lemma pred_bound m c :
  is_i 64 m -> is_i 64 c ->
  match (if m =? c then checked_pred c else Some m) with
  | Some hi => is_i 64 hi /\ hi <= m /\ forall z, z <= m -> z <> c -> z <= hi
  | None => forall z, is_i 64 z -> z <= m -> z = c
  end.
Proof.
  intros Hm Hc. unfold checked_pred, is_i in *. destruct (Z.eqb_spec m c) as [-> |].
  - destruct (Z.eqb_spec c I64_MIN); repeat split; intros; lia.
  - repeat split; intros; lia.
Qed.

(** The word with the bits of [c] clear. *)
Lemma member_clear c v :
  is_u 64 c -> is_u 64 v -> member (mk_tnum 0 (u64_not c)) v <-> Z.land v c = 0.
Proof.
  intros Hc Hv. assert (Wm : wf (mk_tnum 0 (u64_not c))).
  { apply wf_intro; auto with word; [unfold is_u; lia |]. intros. apply Z.bits_0. }
  unfold member. rewrite contains_bits by exact Wm. cbn [value mask]. split.
  - intros [_ H]. apply (word_ext 64); auto with word; [unfold is_u; lia |].
    intros i Hi. specialize (H i Hi). autorewrite with bits in *.
    rewrite (proj2 (Z.ltb_lt i 64)) in H by lia. decide_bits i.
  - intros H. split; [exact Hv |]. intros i Hi Hm.
    apply (f_equal (fun z => Z.testbit z i)) in H. autorewrite with bits in *.
    rewrite (proj2 (Z.ltb_lt i 64)) in Hm by lia. decide_bits i.
Qed.

Section Refine.
Context (s : Scalar) (W : swf s).

Lemma refine_signed_min_spec c : is_i 64 c -> refines (refine_signed_min s c) s (fun v => c <= as_i64 v).
Proof using W.
  intros Hc. eapply denotes_refines; [apply normalize_mk; auto with word | |];
    intros v; rewrite smember_iff; intuition lia.
Qed.

Lemma refine_signed_max_spec c : is_i 64 c -> refines (refine_signed_max s c) s (fun v => as_i64 v <= c).
Proof using W.
  intros Hc. eapply denotes_refines; [apply normalize_mk; auto with word | |];
    intros v; rewrite smember_iff; intuition lia.
Qed.

(** The signed reading of a word, by the half it lies in. *)
Lemma as_i64_cases v :
  is_u 64 v ->
  (v < SIGN /\ as_i64 v = v /\ 0 <= as_i64 v) \/ (SIGN <= v /\ as_i64 v = v - 2 ^ 64 /\ as_i64 v < 0).
Proof using Type.
  intros Hv. unfold SIGN, is_u in *. destruct (Z.ltb_spec v (2 ^ 63)) as [L | L].
  - left. rewrite swrap_unsigned by (simpl; lia). lia.
  - right. rewrite swrap_high by (simpl; lia). lia.
Qed.

Lemma refine_unsigned_max_spec c : is_u 64 c -> refines (refine_unsigned_max s c) s (fun v => v <= c).
Proof using W.
  intros Hc. unfold refine_unsigned_max. destruct (as_i64_cases c Hc) as [(L & E & P) | (L & E & P)].
  - rewrite (proj2 (Z.ltb_lt c SIGN)) by exact L.
    eapply denotes_refines; [apply normalize_meet; auto with word |  |].
    + apply wf_from_unsigned_range; [unfold is_u; lia | exact Hc].
    + intros v [M B]%smember_iff Lv. assert (Hv : is_u 64 v) by apply M.
      destruct (as_i64_cases v Hv) as [(? & ? & ?) | (? & ? & ?)]; [| lia].
      split; [split; [exact M |] | lia]. split; [exact Hv |].
      apply from_unsigned_range_sound; auto; unfold is_u in *; lia.
    + intros v [[M _] B]. apply smember_iff. split; [exact M | lia].
  - rewrite (proj2 (Z.ltb_ge c SIGN)) by exact L. destruct (Z.ltb_spec (max s) 0) as [N | N].
    + eapply denotes_refines; [apply normalize_mk; auto with word | |]; intros v.
      * intros [M B]%smember_iff Lv. destruct (as_i64_cases v (proj1 M)) as [(? & ? & ?) | (? & ? & ?)]; [lia |].
        split; [exact M | lia].
      * rewrite smember_iff. intuition lia.
    + eapply denotes_refines; [apply normalize_spec; auto | |]; auto.
Qed.

Lemma refine_unsigned_min_spec c : is_u 64 c -> refines (refine_unsigned_min s c) s (fun v => c <= v).
Proof using W.
  intros Hc. unfold refine_unsigned_min. destruct (Z.eqb_spec c 0); [by apply refines_keep |].
  destruct (as_i64_cases c Hc) as [(L & E & P) | (L & E & P)].
  - rewrite (proj2 (Z.leb_gt SIGN c)) by exact L. destruct (Z.leb_spec 0 (min s)) as [N | N].
    + eapply denotes_refines; [apply normalize_mk; auto with word | |]; intros v.
      * intros [M B]%smember_iff Lv. destruct (as_i64_cases v (proj1 M)) as [(? & ? & ?) | (? & ? & ?)]; [| lia].
        split; [exact M | lia].
      * rewrite smember_iff. intuition lia.
    + eapply denotes_refines; [apply normalize_spec; auto | |]; auto.
  - rewrite (proj2 (Z.leb_le SIGN c)) by exact L.
    eapply denotes_refines; [apply normalize_mk; auto with word | |]; intros v.
    + intros [M B]%smember_iff Lv. destruct (as_i64_cases v (proj1 M)) as [(? & ? & ?) | (? & ? & ?)]; [lia |].
      split; [exact M | lia].
    + rewrite smember_iff. intuition lia.
Qed.

Context (other : Scalar) (Wo : swf other).

Lemma refine_eq_spec : refines (refine_eq s other) s (smember other).
Proof using W Wo. eapply denotes_refines; [by apply meet_spec | |]; cbv beta; tauto. Qed.

Lemma refine_ne_spec : refines (refine_ne s other) s (fun v => exists y, smember other y /\ v <> y).
Proof using W Wo.
  unfold refine_ne. destruct (as_const other) as [c |] eqn:Ec; [| by apply refines_keep].
  destruct (as_const_spec other c Wo Ec) as [Hc Uc].
  assert (N : forall v, smember s v -> (exists y, smember other y /\ v <> y) -> as_i64 v <> c).
  { intros v [Hv _] (y & Hy & Ne) <-. apply Ne. rewrite (Uc y Hy). by rewrite wrap_swrap_id by (lia || done). }
  destruct ((min s =? max s) && (min s =? c)) eqn:E1.
  { reflect. intros v Hv HP. apply (N v Hv HP). apply smember_iff in Hv. lia. }
  pose proof (succ_bound (min s) c (swf_min s W) Hc) as L.
  pose proof (pred_bound (max s) c (swf_max s W) Hc) as H.
  assert (R : forall v, is_i 64 (as_i64 v)) by auto with word.
  destruct (if min s =? c then checked_succ c else Some (min s)) as [lo |].
  2:{ intros v Hv HP. apply (N v Hv HP). apply smember_iff in Hv. apply L; auto; lia. }
  destruct (if max s =? c then checked_pred c else Some (max s)) as [hi |].
  2:{ intros v Hv HP. apply (N v Hv HP). apply smember_iff in Hv. apply H; auto; lia. }
  destruct L as (Rl & Ll & L), H as (Rh & Lh & H).
  eapply denotes_refines; [apply normalize_mk; auto with word | |]; intros v.
  - intros Hv HP. pose proof (N v Hv HP). apply smember_iff in Hv as [M B].
    split; [exact M |]. split; [apply L | apply H]; lia.
  - rewrite smember_iff. intuition lia.
Qed.

Lemma refine_bits_clear_spec :
  refines (refine_bits_clear s other) s (fun v => exists y, smember other y /\ Z.land v y = 0).
Proof using W Wo.
  unfold refine_bits_clear. destruct (as_const other) as [c |] eqn:Ec; [| by apply refines_keep].
  destruct (as_const_spec other c Wo Ec) as [Hc Uc].
  assert (Ru : is_u 64 (u64 c)) by auto with word.
  eapply denotes_refines; [apply normalize_meet; auto with word | |].
  - apply wf_intro; auto with word; [unfold is_u; lia |]. intros. apply Z.bits_0.
  - intros v Hv (y & Hy & E). pose proof (Uc y Hy). subst y. apply smember_iff in Hv as [M B].
    split; [| exact B]. split; [exact M |]. apply member_clear; auto. apply M.
  - intros v [[M _] B]. by apply smember_iff.
Qed.

Lemma refine_bits_set_spec :
  refines (refine_bits_set s other) s (fun v => exists y, smember other y /\ Z.land v y <> 0).
Proof using W Wo.
  unfold refine_bits_set. destruct (as_const other) as [c |] eqn:Ec; [| by apply refines_keep].
  destruct (as_const_spec other c Wo Ec) as [Hc Uc].
  destruct (Z.eqb_spec (Z.land (Z.lor (value (tn s)) (mask (tn s))) (u64 c)) 0) as [E | E];
    [| by apply refines_keep].
  intros v Hv (y & Hy & Ne). pose proof (Uc y Hy). subst y. apply smember_iff in Hv as [[Hv C] _].
  apply Ne. pose proof (swf_tn s W) as Wt.
  apply (word_ext 64); auto with word; [unfold is_u; lia |].
  intros i Hi. apply (f_equal (fun z => Z.testbit z i)) in E. solve_bits i Hi.
Qed.
End Refine.

(** * The contract of the lattice *)

(** [normalize] changes representations, never sets.  On a well-formed
    scalar it returns [None] only when the scalar denotes no word, and
    otherwise a well-formed scalar that denotes exactly the same words. *)
Lemma normalize_exact s :
  swf s ->
  match normalize s with
  | Some s' => swf s' /\ forall v, smember s' v <-> smember s v
  | None => forall v, ~ smember s v
  end.
Proof. apply normalize_spec. Qed.

Lemma normalize_exact_witness :
  match normalize (mk_scalar (mk_tnum 0 255) (-5) 100) with
  | Some s' => swf s' /\ forall v, smember s' v <-> smember (mk_scalar (mk_tnum 0 255) (-5) 100) v
  | None => forall v, ~ smember (mk_scalar (mk_tnum 0 255) (-5) 100) v
  end.
Proof. apply (normalize_exact (mk_scalar (mk_tnum 0 255) (-5) 100)). by repeat split. Defined.

(** the lattice operations are sound.  [join] and [widen] cover both
    arguments whatever the thresholds, [meet] is the exact intersection, and
    a positive [is_subset_of] is an inclusion. *)
Lemma lattice_sound a b l :
  swf a -> swf b -> Forall (is_i 64) l ->
  (forall v, smember a v \/ smember b v -> smember (join a b) v /\ smember (widen a b l) v) /\
  (match meet a b with
   | Some m => swf m /\ forall v, smember m v <-> smember a v /\ smember b v
   | None => forall v, ~ (smember a v /\ smember b v)
   end) /\
  (is_subset_of a b = true -> forall v, smember a v -> smember b v).
Proof.
  intros Wa Wb Hl. destruct (join_spec a b Wa Wb) as [_ J], (widen_spec a b l Wa Wb Hl) as [_ Wd].
  split; [auto |]. split; [by apply meet_spec |]. intros S v. by apply subset_sound.
Qed.

Lemma lattice_sound_witness :
  smember (join (constant 5) (constant 9)) 9 /\ smember (widen (constant 5) (constant 9) [0; 64]) 9.
Proof.
  apply (lattice_sound (constant 5) (constant 9) [0; 64]); [by repeat split | by repeat split | |].
  - repeat constructor; vm_compute; congruence.
  - right. by repeat split.
Defined.
