(* ===== verification/ScalarOps.v ===== *)
(** The transfer functions of the scalar domain against the concrete
    operations of the interpreter. *)

From S2P Require Import Prelude Word BpfOpcode BpfInsn Tnum TnumSound TnumRange.
From S2P Require Import BpfScalar ScalarSound.
Import scalar.

(** An abstract operation covers a concrete one. *)
Definition sound1 (f : Scalar -> Scalar) (g : Z -> Z) : Prop :=
  forall a, swf a -> swf (f a) /\ forall x, smember a x -> smember (f a) (g x).

Definition sound2 (f : Scalar -> Scalar -> Scalar) (g : Z -> Z -> Z) : Prop :=
  forall a b, swf a -> swf b ->
    swf (f a b) /\ forall x y, smember a x -> smember b y -> smember (f a b) (g x y).

(** Build a sound result from its two components. *)
Lemma normalized_sound t lo hi :
  wf t -> is_i 64 lo -> is_i 64 hi ->
  swf (normalized (mk_scalar t lo hi)) /\
  forall v, is_u 64 v -> tnum.contains t v = true -> lo <= as_i64 v <= hi ->
    smember (normalized (mk_scalar t lo hi)) v.
Proof.
  intros Wt Hl Hh. destruct (normalized_mk t lo hi Wt Hl Hh) as [W E]. split; [exact W |].
  intros v Hv C B. by apply E.
Qed.

Lemma smember_u64 s v : smember s v -> is_u 64 v.
Proof. by intros [H _]. Qed.

Lemma smember_bounds s v : smember s v -> s.(min) <= as_i64 v <= s.(max).
Proof. by intros [_ H]%smember_iff. Qed.

Lemma smember_tn s v : smember s v -> tnum.contains s.(tn) v = true.
Proof. by intros [[_ H] _]%smember_iff. Qed.

#[export] Hint Resolve smember_u64 smember_tn : word.

Lemma i64_neg_range x : is_i 64 (i64_neg x).
Proof. unfold i64_neg. auto with word. Qed.

Lemma i64_shl_range x n : is_i 64 (i64_shl x n).
Proof. unfold i64_shl. auto with word. Qed.

#[export] Hint Resolve i64_neg_range i64_shl_range : word.

(** * Constants and full ranges *)

Lemma swf_UNKNOWN : swf UNKNOWN.
Proof. split; simpl; auto with word. Qed.

Lemma as_i64_range v : I64_MIN <= as_i64 v <= I64_MAX.
Proof. pose proof (swrap_range 64 eq_refl v) as H. unfold is_i in H. simpl in H. lia. Qed.

Lemma smember_UNKNOWN v : is_u 64 v -> smember UNKNOWN v.
Proof.
  intros Hv. apply smember_iff. split; [split; [exact Hv | apply contains_UNKNOWN] |].
  apply as_i64_range.
Qed.

Lemma swf_constant c : is_i 64 c -> swf (constant c).
Proof. intros Hc. split; simpl; auto with word. Qed.

Lemma smember_constant c : is_i 64 c -> smember (constant c) (u64 c).
Proof.
  intros Hc. apply smember_iff. split.
  - split; [auto with word |]. apply contains_constant; auto with word.
  - simpl. rewrite swrap_wrap_id by (lia || done). lia.
Qed.

#[export] Hint Resolve swf_UNKNOWN smember_UNKNOWN swf_constant smember_constant : word.

Lemma keep_value n : 0 <= n < 64 -> u64_shl 1 n - 1 = 2 ^ n - 1.
Proof.
  intros Hn. unfold wshl. rewrite Z.shiftl_1_l, wrap_small; [done |].
  split; [apply Z.pow_nonneg; lia | apply Z.pow_lt_mono_r; lia].
Qed.

Lemma unsigned_bits_spec n :
  0 <= n < 64 -> swf (unsigned_bits n) /\ forall v, 0 <= v < 2 ^ n -> smember (unsigned_bits n) v.
Proof.
  intros Hn. unfold unsigned_bits. rewrite (proj2 (Z.leb_gt 64 n)) by lia. cbv zeta.
  pose proof (delta_range n Hn) as R. assert (P : 2 ^ n <= 2 ^ 63) by (apply Z.pow_le_mono_r; lia).
  assert (W : wf (mk_tnum 0 (u64_shl 1 n - 1))).
  { apply wf_intro; auto; [unfold is_u; lia |]. intros. apply Z.bits_0. }
  split; [split; simpl; auto with word |]. intros v Hv.
  assert (Hv' : is_u 64 v) by (unfold is_u; lia). apply smember_iff. split.
  - split; [exact Hv' |]. apply contains_bits; [exact W |]. cbn [tn value mask]. intros i Hi.
    rewrite keep_bits by lia. destruct (Z.ltb_spec i n); [done |]. intros _. rewrite Z.bits_0.
    apply (testbit_high n); [lia | exact Hv | lia].
  - cbn [min max]. rewrite keep_value by lia. rewrite !swrap_unsigned by (simpl; lia). lia.
Qed.

(** * Unsigned bounds *)

Lemma unsigned_bounds_sound s v :
  swf s -> smember s v ->
  let '(lo, hi) := unsigned_bounds s in 0 <= lo /\ lo <= v <= hi /\ is_u 64 lo /\ is_u 64 hi.
Proof.
  intros W Hm. pose proof (smember_bounds s v Hm) as B. pose proof (smember_u64 s v Hm) as Hv.
  pose proof (contains_le (tn s) v (swf_tn s W) Hv (smember_tn s v Hm)) as T.
  pose proof (swrap_range 64 eq_refl v) as R. pose proof (swf_min s W). pose proof (swf_max s W).
  assert (I : let '(ilo, ihi) := if (min s <? 0) && (0 <=? max s) then (0, U64_MAX)
      else (u64 (min s), u64 (max s)) in 0 <= ilo <= v /\ v <= ihi).
  { destruct ((min s <? 0) && (0 <=? max s)) eqn:E; [unfold is_u in Hv; lia |].
    assert (S : 0 <= min s \/ max s < 0).
    { apply andb_false_iff in E as [E | E]; reflect; auto. }
    pose proof (wrap_range 64 eq_refl (min s)) as P. unfold is_u in P. rewrite <- (wrap_swrap_id 64 v) by (lia || done).
    split; [split; [lia |] |]; apply wrap_mono; auto with word; lia. }
  unfold unsigned_bounds, tnum.unsigned_bounds. destruct (if _ && _ then _ else _) as [ilo ihi].
  assert (is_u 64 (Z.lor (value (tn s)) (mask (tn s)))) by (pose proof (swf_tn s W); auto with word).
  pose proof (wf_value (tn s) (swf_tn s W)). unfold is_u in *. lia.
Qed.

Lemma from_unsigned_range_spec lo hi :
  is_u 64 lo -> is_u 64 hi ->
  swf (from_unsigned_range lo hi) /\ forall v, lo <= v <= hi -> smember (from_unsigned_range lo hi) v.
Proof.
  intros Hl Hh. unfold from_unsigned_range. destruct (Z.ltb_spec hi lo); [split; [auto with word | lia] |].
  change (u64 I64_MAX) with I64_MAX.
  set (p := if (lo <=? I64_MAX) && (I64_MAX <? hi) then _ else _).
  assert (P : is_i 64 (fst p) /\ is_i 64 (snd p) /\ forall v, lo <= v <= hi -> fst p <= as_i64 v <= snd p).
  { subst p. destruct ((lo <=? I64_MAX) && (I64_MAX <? hi)) eqn:E; simpl.
    - split_and!; auto with word. intros v _. apply as_i64_range.
    - split_and!; auto with word. intros v Hv.
      assert (S : I64_MAX < lo \/ hi <= I64_MAX).
      { apply andb_false_iff in E as [E | E]; reflect; auto. }
      assert (Hv' : is_u 64 v) by (unfold is_u in *; lia).
      pose proof (as_i64_cases v Hv'). pose proof (as_i64_cases lo Hl). pose proof (as_i64_cases hi Hh).
      unfold SIGN in *. lia. }
  destruct p as [lo' hi']. destruct P as (Rl & Rh & B). simpl in *.
  destruct (normalized_sound (tnum.from_unsigned_range lo hi) lo' hi') as [W S]; auto using wf_from_unsigned_range.
  split; [exact W |]. intros v Hv. apply S; auto using from_unsigned_range_sound. unfold is_u in *. lia.
Qed.

(** * Subregister views *)

Lemma land_u32 v : Z.land v 0xffffffff = u32 v.
Proof. change 0xffffffff with (Z.ones 32). by rewrite Z.land_ones by lia. Qed.

(** Words between two words with the same high half share it. *)
Lemma u32_between lo v hi :
  Z.shiftr lo 32 = Z.shiftr hi 32 -> lo <= v <= hi -> u32 lo <= u32 v <= u32 hi.
Proof.
  intros E B. pose proof (shiftr_mono lo v 32) as L. pose proof (shiftr_mono v hi 32) as U.
  assert (E' : Z.shiftr v 32 = Z.shiftr lo 32) by lia. rewrite !Z.shiftr_div_pow2 in * by lia.
  unfold wrap. rewrite !Z.mod_eq by lia. rewrite <- E, E'. lia.
Qed.

Lemma u32_small v : as_i64 (u32 v) = u32 v /\ 0 <= u32 v < 2 ^ 32.
Proof.
  pose proof (wrap_range 32 eq_refl v) as R. unfold is_u in R.
  split; [| exact R]. apply swrap_unsigned; [lia |]. simpl in *. lia.
Qed.

Lemma zext32_same_half s v :
  swf s -> smember s v -> Z.shiftr (u64 s.(min)) 32 = Z.shiftr (u64 s.(max)) 32 ->
  u32 (u64 s.(min)) <= u32 v <= u32 (u64 s.(max)).
Proof.
  intros W Hm E. pose proof (smember_bounds s v Hm) as B. pose proof (smember_u64 s v Hm) as Hv.
  pose proof (swf_min s W) as R1. pose proof (swf_max s W) as R2. pose proof (swrap_range 64 eq_refl v) as R.
  assert (S : 0 <= min s \/ max s < 0).
  { destruct (Z.ltb_spec (min s) 0) as [N |]; [| lia]. destruct (Z.ltb_spec (max s) 0) as [| P]; [lia |].
    exfalso. unfold is_i in R1, R2. change (2 ^ (64 - 1)) with (2 ^ 63) in *.
    rewrite (wrap_negative 64 (min s)), (wrap_nonneg 64 (max s)) in E by (change (2 ^ (64 - 1)) with (2 ^ 63); lia).
    rewrite !Z.shiftr_div_pow2 in E by lia. Z.to_euclidean_division_equations. lia. }
  apply u32_between; [exact E |]. rewrite <- (wrap_swrap_id 64 v) by (lia || done).
  split; apply wrap_mono; auto; lia.
Qed.

(** The largest word of a zero-extended tnum. *)
Lemma zero_extend_max t : wf t -> wf (tnum.zero_extend t 32) /\
  0 <= value (tnum.zero_extend t 32) /\
  Z.lor (value (tnum.zero_extend t 32)) (mask (tnum.zero_extend t 32)) < 2 ^ 32.
Proof.
  intros Wt. destruct (zero_extend_spec t 0 Wt ltac:(unfold is_u; lia) 32 ltac:(lia)) as [Wz _].
  split; [exact Wz |]. split; [apply (wf_value _ Wz) |].
  assert (R : is_u 32 (Z.lor (value (tnum.zero_extend t 32)) (mask (tnum.zero_extend t 32)))).
  { simpl. change (u64_shl 1 32 - 1) with 0xffffffff. rewrite !land_u32.
    apply lor_range; [lia | |]; apply wrap_range; lia. }
  apply R.
Qed.

Lemma zext32_sound : sound1 zext32 u32.
Proof.
  intros s W. unfold zext32. pose proof (swf_tn s W) as Wt.
  destruct (zero_extend_max (tn s) Wt) as (Wz & Lz & Uz).
  assert (Cz : forall v, smember s v -> tnum.contains (tnum.zero_extend (tn s) 32) (u32 v) = true).
  { intros v Hm. apply zero_extend_spec; [exact Wt | eauto with word | lia | eauto with word]. }
  assert (Hu : forall v, is_u 64 (u32 v)) by (intros; apply (is_u_mono 32); [lia | auto with word]).
  set (t := tnum.zero_extend (tn s) 32) in *. clearbody t. rewrite !land_u32.
  destruct (Z.eqb_spec (Z.shiftr (u64 (min s)) 32) (Z.shiftr (u64 (max s)) 32)) as [E | E].
  - set (lo := u32 (u64 (min s))). set (hi := u32 (u64 (max s))).
    pose proof (wf_from_unsigned_range lo hi (Hu _) (Hu _)) as Wr.
    pose proof (meet_sound t _ Wz Wr) as X.
    assert (B : forall v, smember s v -> lo <= u32 v <= hi) by (intros v Hm; by apply zext32_same_half).
    set (m := match tnum.meet t _ with Some m => m | None => t end).
    assert (M : wf m /\ forall v, smember s v -> tnum.contains m (u32 v) = true).
    { subst m. destruct (tnum.meet t _) as [m |] eqn:Em; [| auto].
      split; [exact (wf_meet t _ Wz Wr m Em) |]. intros v Hm.
      destruct (proj1 (X (u32 v) (Hu v))) as (m' & [= <-] & C); [| exact C].
      split; [auto |]. apply from_unsigned_range_sound; auto; apply Hu. }
    destruct M as [Wm Cm]. clearbody m.
    destruct (normalized_sound m (as_i64 lo) (as_i64 hi)) as [W' S]; auto with word.
    split; [exact W' |]. intros v Hm. apply S; auto. subst lo hi. rewrite !(proj1 (u32_small _)). auto.
  - unfold tnum.unsigned_bounds.
    destruct (normalized_sound t (as_i64 (value t)) (as_i64 (Z.lor (value t) (mask t)))) as [W' S];
      auto with word.
    split; [exact W' |]. intros v Hm. apply S; auto.
    pose proof (contains_le t (u32 v) Wz (Hu v) (Cz v Hm)).
    rewrite (proj1 (u32_small v)), !swrap_unsigned by (lia || (simpl; lia)). lia.
Qed.

(** The interval of a zero-extended value. *)
Lemma zext32_interval s : swf s -> 0 <= (zext32 s).(min) /\ (zext32 s).(max) < 2 ^ 32.
Proof.
  intros W. destruct (zero_extend_max (tn s) (swf_tn s W)) as (Wz & Lz & Uz). unfold zext32.
  set (t := tnum.zero_extend (tn s) 32) in *. clearbody t. rewrite !land_u32. case_match.
  - match goal with |- context [normalized ?x] => pose proof (normalized_shrinks x) as N end.
    cbn [min max] in N. pose proof (u32_small (u64 (min s))). pose proof (u32_small (u64 (max s))). lia.
  - unfold tnum.unsigned_bounds.
    match goal with |- context [normalized ?x] => pose proof (normalized_shrinks x) as N end.
    cbn [min max] in N. pose proof (contains_le t (value t) Wz (wf_value t Wz) (contains_value t Wz)).
    pose proof (swrap_unsigned 64 eq_refl (value t) ltac:(simpl; lia)).
    pose proof (swrap_unsigned 64 eq_refl (Z.lor (value t) (mask t)) ltac:(simpl; lia)). lia.
Qed.

(** The signed reading of the low half. *)
Lemma u32_sign v :
  (u32 v < 2 ^ 31 /\ swrap 32 (u32 v) = u32 v) \/ (2 ^ 31 <= u32 v /\ swrap 32 (u32 v) = u32 v - 2 ^ 32).
Proof.
  pose proof (u32_small v) as [_ R]. destruct (Z.ltb_spec (u32 v) (2 ^ 31)).
  - left. split; [done |]. apply swrap_unsigned; simpl; lia.
  - right. split; [done |]. apply swrap_high; simpl; lia.
Qed.

Lemma zext32_hi z w :
  swf z -> smember z w -> 0 <= z.(min) /\ z.(max) < 2 ^ 32 -> snd (unsigned_bounds z) < 2 ^ 32.
Proof.
  intros Wz Hm I. pose proof (smember_bounds z w Hm). unfold unsigned_bounds.
  rewrite (proj2 (Z.ltb_ge (min z) 0)) by lia. cbn [andb tnum.unsigned_bounds snd fst].
  rewrite (wrap_nonneg 64 (max z)) by (simpl; lia). simpl. lia.
Qed.

Lemma sext32_sound : sound1 sext32 (fun v => u64 (swrap 32 v)).
Proof.
  intros s W. unfold sext32. destruct (zext32_sound s W) as [Wz Sz].
  pose proof (zext32_interval s W) as I. set (z := zext32 s) in *. clearbody z.
  pose proof (swf_tn z Wz) as Wt.
  destruct (sign_extend_spec (tn z) 0 Wt ltac:(unfold is_u; lia) 32 ltac:(lia)) as [We _].
  destruct (unsigned_bounds z) as [lo hi] eqn:Eb.
  set (p := if hi <? HALF then _ else _).
  assert (P : is_i 64 (fst p) /\ is_i 64 (snd p) /\
    forall v, smember s v -> fst p <= as_i64 (u64 (swrap 32 v)) <= snd p).
  { subst p. split; [repeat case_match; simpl; auto with word |].
    split; [repeat case_match; simpl; auto with word |].
    intros v Hm. pose proof (unsigned_bounds_sound z (u32 v) Wz (Sz v Hm)) as B. rewrite Eb in B.
    pose proof (u32_small v) as [_ R]. rewrite <- (swrap_wrap 32 eq_refl v).
    pose proof (u32_sign v) as U. pose proof (swrap_range 32 eq_refl (u32 v)) as Ri.
    pose proof (zext32_hi z (u32 v) Wz (Sz v Hm) I) as H. rewrite Eb in H. simpl in H.
    rewrite swrap_wrap_id by (lia || (unfold is_i in *; simpl in *; lia)).
    unfold HALF, FULL. destruct (Z.ltb_spec hi (2 ^ 31)); [| destruct (Z.leb_spec (2 ^ 31) lo)]; simpl fst; simpl snd.
    - rewrite !swrap_unsigned by (simpl; lia). lia.
    - rewrite (swrap_unsigned 64 eq_refl lo), (swrap_unsigned 64 eq_refl hi) by (simpl; lia).
      rewrite (swrap_small 64 eq_refl (lo - 2 ^ 32)), (swrap_small 64 eq_refl (hi - 2 ^ 32))
        by (unfold is_i; simpl; lia). lia.
    - change (i64_neg (i64_shl 1 31)) with (- 2 ^ 31). change (as_i64 (i64_shl 1 31 - 1)) with (2 ^ 31 - 1).
      unfold is_i in Ri. simpl in Ri. lia. }
  destruct p as [lo' hi']. destruct P as (Rl & Rh & B). cbn [fst snd] in *.
  destruct (normalized_sound (tnum.sign_extend (tn z) 32) lo' hi') as [W' S]; auto.
  split; [exact W' |]. intros v Hm. apply S; auto with word.
  rewrite <- (swrap_wrap 32 eq_refl v).
  apply sign_extend_spec; [exact Wt | eauto with word | lia | eauto with word].
Qed.

(** Signed results that fit the word. *)
Lemma as_i64_u64 z : is_i 64 z -> as_i64 (u64 z) = z.
Proof. intros. by apply swrap_wrap_id. Qed.

Lemma is_i_mono w w' z : 0 < w <= w' -> is_i w z -> is_i w' z.
Proof.
  intros Hw Hz. unfold is_i in *. assert (2 ^ (w - 1) <= 2 ^ (w' - 1)) by (apply Z.pow_le_mono_r; lia). lia.
Qed.

Lemma i64_shl_one n : 0 <= n < 63 -> i64_shl 1 n = 2 ^ n.
Proof.
  intros Hn. unfold i64_shl. rewrite Z.mod_small, Z.shiftl_1_l by lia. apply swrap_unsigned; [lia |].
  split; [apply Z.pow_nonneg; lia | apply Z.pow_lt_mono_r; lia].
Qed.

Lemma sign_extend_sound bits :
  0 < bits < 64 -> sound1 (fun s => sign_extend s bits) (fun v => u64 (swrap bits v)).
Proof.
  intros Hb s W. unfold sign_extend. rewrite (proj2 (Z.leb_gt 64 bits)) by lia. cbv zeta.
  pose proof (swf_tn s W) as Wt. assert (Z0 : is_u 64 0) by (unfold is_u; lia).
  destruct (zero_extend_spec (tn s) 0 Wt Z0 bits ltac:(lia)) as [Wz _].
  destruct (sign_extend_spec _ 0 Wz Z0 bits ltac:(lia)) as [We _].
  destruct (normalized_sound (tnum.sign_extend (tnum.zero_extend (tn s) bits) bits)
    (i64_neg (i64_shl 1 (bits - 1))) (as_i64 (i64_shl 1 (bits - 1) - 1))) as [W' S]; auto with word.
  split; [exact W' |]. intros v Hm.
  assert (P : 0 < 2 ^ (bits - 1) <= 2 ^ 62)
    by (split; [apply Z.pow_pos_nonneg; lia | apply Z.pow_le_mono_r; lia]).
  assert (Hv : is_u 64 (wrap bits v)) by (apply (is_u_mono bits); [lia | apply wrap_range; lia]).
  pose proof (swrap_range bits ltac:(lia) v) as R. apply S; auto with word.
  - rewrite <- (swrap_wrap bits ltac:(lia) v).
    apply sign_extend_spec; [exact Wz | exact Hv | lia |].
    apply zero_extend_spec; [exact Wt | eauto with word | lia | eauto with word].
  - rewrite as_i64_u64 by (apply (is_i_mono bits); [lia | exact R]).
    rewrite i64_shl_one by lia. unfold i64_neg.
    rewrite (swrap_small 64 eq_refl (- 2 ^ (bits - 1))), (swrap_small 64 eq_refl (2 ^ (bits - 1) - 1))
      by (unfold is_i; change (2 ^ (64 - 1)) with (2 ^ 63); lia).
    unfold is_i in R. lia.
Qed.

(** * Arithmetic *)

(** What the interval helpers promise: bounds for the wrapped result. *)
Definition bounds_for (p : Z * Z) (r : Z) : Prop := fst p <= as_i64 r <= snd p.

Lemma clamp_spec lo hi :
  let p := if (I64_MIN <=? lo) && (hi <=? I64_MAX) then (as_i64 lo, as_i64 hi) else (I64_MIN, I64_MAX) in
  is_i 64 (fst p) /\ is_i 64 (snd p) /\ forall r, lo <= r <= hi -> bounds_for p r.
Proof.
  cbv zeta. unfold bounds_for. destruct ((I64_MIN <=? lo) && (hi <=? I64_MAX)) eqn:E; cbn [fst snd].
  - reflect. split_and!; auto with word. intros r Hr.
    rewrite !swrap_small by (lia || (unfold is_i; simpl; lia)). exact Hr.
  - split_and!; auto with word. intros. apply as_i64_range.
Qed.

Lemma interval_add_spec alo ahi blo bhi :
  let p := interval_add alo ahi blo bhi in
  is_i 64 (fst p) /\ is_i 64 (snd p) /\
  forall x y, alo <= x <= ahi -> blo <= y <= bhi -> bounds_for p (x + y).
Proof.
  destruct (clamp_spec (alo + blo) (ahi + bhi)) as (? & ? & C). split_and!; auto.
  intros x y Hx Hy. apply C. lia.
Qed.

Lemma interval_neg_spec lo hi :
  let p := interval_neg lo hi in
  is_i 64 (fst p) /\ is_i 64 (snd p) /\ forall x, lo <= x <= hi -> bounds_for p (- x).
Proof.
  destruct (clamp_spec (- hi) (- lo)) as (? & ? & C). split_and!; auto.
  intros x Hx. apply C. lia.
Qed.

Lemma corner_bounds alo ahi blo bhi x y :
  alo <= x <= ahi -> blo <= y <= bhi ->
  Z.min (Z.min (Z.min (alo * blo) (alo * bhi)) (ahi * blo)) (ahi * bhi) <= x * y <=
  Z.max (Z.max (Z.max (alo * blo) (alo * bhi)) (ahi * blo)) (ahi * bhi).
Proof.
  intros Hx Hy.
  assert (E : forall c, Z.min (c * blo) (c * bhi) <= c * y <= Z.max (c * blo) (c * bhi)).
  { intros c. destruct (Z.le_gt_cases 0 c); nia. }
  pose proof (E alo). pose proof (E ahi).
  assert (Z.min (alo * y) (ahi * y) <= x * y <= Z.max (alo * y) (ahi * y)).
  { destruct (Z.le_gt_cases 0 y); nia. }
  lia.
Qed.

Lemma interval_mul_spec alo ahi blo bhi :
  let p := interval_mul alo ahi blo bhi in
  is_i 64 (fst p) /\ is_i 64 (snd p) /\
  forall x y, alo <= x <= ahi -> blo <= y <= bhi -> bounds_for p (x * y).
Proof.
  unfold interval_mul. cbv zeta.
  edestruct clamp_spec as (R1 & R2 & C). split; [exact R1 |]. split; [exact R2 |].
  intros x y Hx Hy. apply C. by apply corner_bounds.
Qed.

(** Congruences that let the signed and unsigned readings be exchanged. *)
Lemma swrap_congr w x y k : x = y + k * 2 ^ w -> swrap w x = swrap w y.
Proof. intros ->. apply swrap_add_mul. Qed.

Lemma as_i64_add x y : as_i64 (u64 (x + y)) = as_i64 (as_i64 x + as_i64 y).
Proof.
  rewrite swrap_wrap by lia. destruct (swrap_eq_mod 64 eq_refl x) as [j ->].
  destruct (swrap_eq_mod 64 eq_refl y) as [k ->]. symmetry. apply (swrap_congr _ _ _ (j + k)). lia.
Qed.

Lemma as_i64_sub x y : as_i64 (u64 (x - y)) = as_i64 (as_i64 x + as_i64 (- as_i64 y)).
Proof.
  rewrite swrap_wrap by lia. destruct (swrap_eq_mod 64 eq_refl x) as [j ->].
  destruct (swrap_eq_mod 64 eq_refl (- as_i64 y)) as [l ->].
  destruct (swrap_eq_mod 64 eq_refl y) as [k ->]. symmetry. apply (swrap_congr _ _ _ (j - k + l)). lia.
Qed.

Lemma as_i64_mul x y : as_i64 (u64 (x * y)) = as_i64 (as_i64 x * as_i64 y).
Proof.
  rewrite swrap_wrap by lia. destruct (swrap_eq_mod 64 eq_refl x) as [j ->].
  destruct (swrap_eq_mod 64 eq_refl y) as [k ->]. symmetry.
  apply (swrap_congr _ _ _ (x * k + j * y + j * k * 2 ^ 64)). lia.
Qed.

Lemma add_sound : sound2 add (fun x y => u64 (x + y)).
Proof.
  intros a b Wa Wb. unfold add.
  pose proof (interval_add_spec (min a) (max a) (min b) (max b)) as I. destruct (interval_add _ _ _ _) as [lo hi].
  destruct I as (Rl & Rh & B).
  destruct (normalized_sound (tnum.add (tn a) (tn b)) lo hi) as [W S]; auto with word.
  split; [exact W |]. intros x y Hx Hy. apply S; auto with word.
  - apply tnum_add_sound; auto with word.
  - rewrite as_i64_add. apply (B (as_i64 x) (as_i64 y)); by apply smember_bounds.
Qed.

Lemma sub_sound : sound2 sub (fun x y => u64 (x - y)).
Proof.
  intros a b Wa Wb. unfold sub.
  pose proof (interval_neg_spec (min b) (max b)) as N. destruct (interval_neg _ _) as [nlo nhi].
  destruct N as (_ & _ & N).
  pose proof (interval_add_spec (min a) (max a) nlo nhi) as I. destruct (interval_add _ _ _ _) as [lo hi].
  destruct I as (Rl & Rh & B).
  destruct (normalized_sound (tnum.sub (tn a) (tn b)) lo hi) as [W S]; auto with word.
  split; [exact W |]. intros x y Hx Hy. apply S; auto with word.
  - apply tnum_sub_sound; auto with word.
  - rewrite as_i64_sub. apply (B (as_i64 x) (as_i64 (- as_i64 y))); [by apply smember_bounds |].
    apply N. by apply smember_bounds.
Qed.

Lemma mul_sound : sound2 mul (fun x y => u64 (x * y)).
Proof.
  intros a b Wa Wb. unfold mul.
  pose proof (interval_mul_spec (min a) (max a) (min b) (max b)) as I. destruct (interval_mul _ _ _ _) as [lo hi].
  destruct I as (Rl & Rh & B).
  assert (Wm : wf (tnum.mul (tn a) (tn b))).
  { pose proof (swf_tn a Wa). pose proof (swf_tn b Wb).
    apply (mul_spec (tn a) (tn b) (value (tn a)) (value (tn b))); auto using contains_value with word. }
  destruct (normalized_sound (tnum.mul (tn a) (tn b)) lo hi) as [W S]; auto with word.
  split; [exact W |]. intros x y Hx Hy. apply S; auto with word.
  - apply mul_spec; eauto with word.
  - rewrite as_i64_mul. apply (B (as_i64 x) (as_i64 y)); by apply smember_bounds.
Qed.

Lemma neg_sound : sound1 neg (fun x => u64 (- x)).
Proof.
  intros a Wa. unfold neg.
  pose proof (interval_neg_spec (min a) (max a)) as N. destruct (interval_neg _ _) as [lo hi].
  destruct N as (Rl & Rh & N).
  destruct (normalized_sound (tnum.sub tnum.ZERO (tn a)) lo hi) as [W S]; auto with word.
  split; [exact W |]. intros x Hx. apply S; auto with word.
  - change (- x) with (0 - x). apply tnum_sub_sound; auto with word.
  - change (- x) with (0 - x). rewrite as_i64_sub. change (as_i64 0) with 0. rewrite Z.add_0_l.
    rewrite (swrap_small 64 eq_refl (as_i64 (- as_i64 x))) by auto with word.
    apply (N (as_i64 x)). by apply smember_bounds.
Qed.

Lemma bitwise_sound t v : wf t -> is_u 64 v -> tnum.contains t v = true ->
  smember (normalized (mk_scalar t I64_MIN I64_MAX)) v.
Proof.
  intros Wt Hv C. apply normalized_sound; auto with word. apply as_i64_range.
Qed.

Lemma and_sound : sound2 and Z.land.
Proof.
  intros a b Wa Wb. split; [apply normalized_sound; auto with word |].
  intros x y Hx Hy. pose proof (smember_u64 a x Hx). pose proof (smember_u64 b y Hy).
  apply bitwise_sound; auto with word.
  apply tnum_and_sound; auto with word.
Qed.

Lemma or_sound : sound2 or Z.lor.
Proof.
  intros a b Wa Wb. split; [apply normalized_sound; auto with word |].
  intros x y Hx Hy. pose proof (smember_u64 a x Hx). pose proof (smember_u64 b y Hy).
  apply bitwise_sound; auto with word.
  apply tnum_or_sound; auto with word.
Qed.

Lemma xor_sound : sound2 xor Z.lxor.
Proof.
  intros a b Wa Wb. split; [apply normalized_sound; auto with word |].
  intros x y Hx Hy. pose proof (smember_u64 a x Hx). pose proof (smember_u64 b y Hy).
  apply bitwise_sound; auto with word.
  apply tnum_xor_sound; auto with word.
Qed.

(** * Shifts *)

Lemma land63 n y : Z.land (u32 y) 63 = Z.land y 63 /\ 0 <= Z.land y 63 < 64 /\ Z.land (Z.land y n) 63 = Z.land (Z.land y 63) n.
Proof.
  split; [| split].
  - change 63 with (Z.ones 6). rewrite !Z.land_ones by lia. unfold wrap.
    change (2 ^ 32) with (2 ^ 6 * 2 ^ 26). rewrite Z.rem_mul_r by lia.
    rewrite Z.add_mod, Z.mul_comm, Z.mod_mul, Z.add_0_r, !Z.mod_mod by lia. done.
  - change 63 with (Z.ones 6). rewrite Z.land_ones by lia. apply Z.mod_pos_bound. lia.
  - rewrite <- !Z.land_assoc. f_equal. apply Z.land_comm.
Qed.

Lemma shift_amount_spec b n y :
  swf b -> smember b y -> shift_amount b 63 = Some n -> n = Z.land y 63 /\ 0 <= n < 64.
Proof.
  intros W Hy. unfold shift_amount. destruct (as_const b) as [c |] eqn:E; [| done]. intros [= <-].
  destruct (as_const_spec b c W E) as [_ U]. rewrite <- (U y Hy).
  destruct (land63 0 y) as (-> & R & _). auto.
Qed.

Lemma shift_amount_range b n : shift_amount b 63 = Some n -> 0 <= n < 64.
Proof.
  unfold shift_amount. destruct (as_const b) as [c |]; [| done]. intros [= <-].
  destruct (land63 0 (u64 c)) as (-> & R & _). exact R.
Qed.

Lemma shiftr_is_i z n : is_i 64 z -> 0 <= n -> is_i 64 (Z.shiftr z n).
Proof.
  intros Hz Hn. unfold is_i in *. rewrite Z.shiftr_div_pow2 by lia.
  assert (P : 0 < 2 ^ n) by (apply Z.pow_pos_nonneg; lia).
  split; [apply Z.div_le_lower_bound | apply Z.div_lt_upper_bound]; nia.
Qed.

Lemma shiftl_mul x n : 0 <= n -> Z.shiftl x n = x * 2 ^ n.
Proof. intros. by apply Z.shiftl_mul_pow2. Qed.

(** The interval of a left shift that cannot reach the sign bit. *)
Lemma shl_interval lo hi n x :
  0 <= lo -> lo <= as_i64 x <= hi -> is_i 64 hi -> is_u 64 x -> 0 <= n < 64 ->
  u64 hi <= Z.shiftr (u64 I64_MAX) n ->
  i64_shl lo n <= as_i64 (u64_shl x n) <= i64_shl hi n.
Proof.
  intros L B Hh Hx Hn U. change (u64 I64_MAX) with I64_MAX in U.
  assert (P : 0 < 2 ^ n) by (apply Z.pow_pos_nonneg; lia).
  rewrite wrap_nonneg in U by (unfold is_i in Hh; lia). rewrite Z.shiftr_div_pow2 in U by lia.
  assert (H : hi * 2 ^ n <= I64_MAX).
  { pose proof (Z.mul_div_le I64_MAX (2 ^ n) P). nia. }
  assert (E : as_i64 x = x) by (destruct (as_i64_cases x Hx) as [(_ & ? & _) | (_ & _ & ?)]; lia).
  rewrite E in B. unfold i64_shl, wshl. rewrite Z.mod_small, !shiftl_mul, swrap_wrap by lia.
  rewrite !swrap_unsigned by (simpl; nia). nia.
Qed.

Lemma shl_sound : sound2 shl (fun x y => u64_shl x (Z.land y 63)).
Proof.
  intros a b Wa Wb. unfold shl. destruct (shift_amount b 63) as [n |] eqn:En.
  2:{ split; [auto with word |]. intros. apply smember_UNKNOWN. auto with word. }
  pose proof (swf_tn a Wa) as Wt. assert (Z0 : is_u 64 0) by (unfold is_u; lia).
  pose proof (shift_amount_range b n En) as Hn.
  destruct (shl_spec (tn a) 0 Wt Z0 n ltac:(lia)) as [Ws _].
  set (p := if (0 <=? min a) && _ then _ else _).
  assert (P : is_i 64 (fst p) /\ is_i 64 (snd p) /\
    forall x, smember a x -> fst p <= as_i64 (u64_shl x n) <= snd p).
  { subst p. destruct ((0 <=? min a) && _) eqn:E; cbn [fst snd]; split_and!; auto with word; intros x Hx.
    - reflect. apply shl_interval; eauto with word. by apply smember_bounds.
    - apply as_i64_range. }
  destruct p as [lo hi]. destruct P as (Rl & Rh & B).
  destruct (normalized_sound (tnum.shl (tn a) n) lo hi) as [W S]; auto.
  split; [exact W |]. intros x y Hx Hy. destruct (shift_amount_spec b n y Wb Hy En) as [<- _].
  apply S; auto with word. apply shl_spec; eauto with word.
Qed.

Lemma shiftr_range_pos x n : is_u 64 x -> 0 < n -> 0 <= Z.shiftr x n < 2 ^ 63.
Proof.
  intros Hx Hn. unfold is_u in Hx. split; [apply Z.shiftr_nonneg; lia |].
  replace n with (1 + (n - 1)) by lia. rewrite <- Z.shiftr_shiftr by lia.
  apply Z.le_lt_trans with (Z.shiftr x 1).
  - rewrite (Z.shiftr_div_pow2 (Z.shiftr x 1)) by lia. apply Z.div_le_upper_bound; [apply Z.pow_pos_nonneg; lia |].
    assert (0 < 2 ^ (n - 1)) by (apply Z.pow_pos_nonneg; lia). assert (0 <= Z.shiftr x 1) by (apply Z.shiftr_nonneg; lia). nia.
  - rewrite Z.shiftr_div_pow2 by lia. apply Z.div_lt_upper_bound; lia.
Qed.

Lemma shr_interval s n x :
  swf s -> smember s x -> 0 < n < 64 ->
  let p := if 0 <=? s.(min) then (Z.shiftr s.(min) n, Z.shiftr s.(max) n)
           else (0, as_i64 (Z.shiftr U64_MAX n)) in
  bounds_for p (Z.shiftr x n).
Proof.
  intros W Hm Hn p. subst p. pose proof (smember_bounds s x Hm) as B. pose proof (smember_u64 s x Hm) as Hx.
  pose proof (shiftr_range_pos x n Hx ltac:(lia)) as R. unfold bounds_for.
  rewrite (swrap_unsigned 64 eq_refl (Z.shiftr x n)) by (simpl; lia).
  destruct (Z.leb_spec 0 (min s)); cbn [fst snd].
  - destruct (as_i64_cases x Hx) as [(_ & E & _) | (_ & _ & ?)]; [| lia]. rewrite E in B.
    split; apply shiftr_mono; lia.
  - pose proof (shiftr_range_pos U64_MAX n ltac:(unfold is_u; lia) ltac:(lia)).
    rewrite swrap_unsigned by (simpl; lia). split; [lia |]. apply shiftr_mono; unfold is_u in Hx; lia.
Qed.

Lemma shr_sound : sound2 shr (fun x y => Z.shiftr x (Z.land y 63)).
Proof.
  intros a b Wa Wb. unfold shr. destruct (shift_amount b 63) as [n |] eqn:En.
  2:{ split; [auto with word |]. intros x y Hx Hy. apply smember_UNKNOWN.
      apply shiftr_range; eauto with word. by apply (land63 0). }
  destruct (Z.eqb_spec n 0) as [-> | Nz].
  { split; [exact Wa |]. intros x y Hx Hy. destruct (shift_amount_spec b 0 y Wb Hy En) as [<- _]. exact Hx. }
  pose proof (shift_amount_range b n En) as Hn. assert (Z0 : is_u 64 0) by (unfold is_u; lia).
  pose proof (swf_tn a Wa) as Wt. destruct (shr_spec (tn a) 0 Wt Z0 n ltac:(lia)) as [Ws _].
  assert (B : forall x, smember a x -> _) by (intros x Hx; apply (shr_interval a n x Wa Hx ltac:(lia))).
  cbv zeta in B. set (p := if 0 <=? min a then _ else _) in *.
  assert (P : is_i 64 (fst p) /\ is_i 64 (snd p)).
  { subst p. destruct (0 <=? min a); simpl; split; auto with word; apply shiftr_is_i; auto with word; lia. }
  destruct p as [lo hi]. destruct P as (Rl & Rh).
  destruct (normalized_sound (tnum.shr (tn a) n) lo hi) as [W S]; auto.
  split; [exact W |]. intros x y Hx Hy. destruct (shift_amount_spec b n y Wb Hy En) as [<- _].
  apply S; [apply shiftr_range; eauto with word; lia | apply shr_spec; eauto with word; lia | by apply B].
Qed.

Lemma sar_sound : sound2 sar (fun x y => u64 (Z.shiftr (as_i64 x) (Z.land y 63))).
Proof.
  intros a b Wa Wb. unfold sar. destruct (shift_amount b 63) as [n |] eqn:En.
  2:{ split; [auto with word |]. intros. apply smember_UNKNOWN. auto with word. }
  pose proof (shift_amount_range b n En) as Hn. assert (Z0 : is_u 64 0) by (unfold is_u; lia).
  pose proof (swf_tn a Wa) as Wt. destruct (sar_spec (tn a) 0 Wt Z0 n ltac:(lia)) as [Ws _].
  destruct (normalized_sound (tnum.sar (tn a) n) (Z.shiftr (min a) n) (Z.shiftr (max a) n)) as [W S];
    [exact Ws | apply shiftr_is_i; auto with word; lia | apply shiftr_is_i; auto with word; lia |].
  split; [exact W |]. intros x y Hx Hy. destruct (shift_amount_spec b n y Wb Hy En) as [<- _].
  pose proof (smember_bounds a x Hx) as B. apply S; auto with word.
  - destruct (sar_spec (tn a) x Wt (smember_u64 a x Hx) n ltac:(lia)) as [_ C].
    rewrite Z.min_l in C by lia. auto with word.
  - rewrite as_i64_u64 by (apply shiftr_is_i; auto with word; lia). split; apply shiftr_mono; lia.
Qed.
