(* ===== verification/ScalarInterp.v ===== *)
(** The instruction-level transfer functions ([alu], [div_op], [mod_op],
    [neg_op], [mov_op], [end_op]) and the branch refinement of the fixpoint
    engine, against the interpreter.  They keep scalars well formed, also those
    that denote no word. *)

From S2P Require Import Prelude Word BpfOpcode BpfInsn BpfEncode Tnum TnumSound TnumRange BpfScalar BpfInterp BpfRefine ScalarSound ScalarOps.

Import scalar.

(** * Division *)

Lemma udiv_sound a b x y :
  swf a -> swf b -> smember a x -> smember b y ->
  exists q, udiv a b = Some q /\ swf q /\ smember q (concrete_udiv x y).
Proof.
  intros Wa Wb Hx Hy. unfold udiv, concrete_udiv.
  pose proof (unsigned_bounds_sound a x Wa Hx) as A. pose proof (unsigned_bounds_sound b y Wb Hy) as B.
  destruct (unsigned_bounds a) as [alo ahi], (unsigned_bounds b) as [blo bhi].
  destruct A as (A0 & A & Ra & Ra'), B as (B0 & B & Rb & Rb').
  assert (D : forall d, 0 < d -> is_u 64 (alo / d) /\ is_u 64 (ahi / d)).
  { intros d Hd. unfold is_u in *.
    split; (split; [apply Z.div_pos; lia | apply Z.div_lt_upper_bound; nia]). }
  destruct (Z.eqb_spec blo 0) as [E0 | N0].
  - destruct (from_unsigned_range_spec 0 (if bhi =? 0 then 0 else ahi)) as [W S];
      [unfold is_u; lia | case_match; auto; unfold is_u; lia |].
    eexists. split; [reflexivity |]. split; [exact W |]. apply S.
    destruct (Z.eqb_spec y 0); [destruct (bhi =? 0); unfold is_u in *; lia |].
    rewrite (proj2 (Z.eqb_neq bhi 0)) by lia.
    split; [apply Z.div_pos; lia |]. transitivity x; [apply Z.div_le_upper_bound; nia | lia].
  - rewrite (proj2 (Z.eqb_neq bhi 0)), (proj2 (Z.eqb_neq y 0)) by lia.
    destruct (from_unsigned_range_spec (alo / bhi) (ahi / blo)) as [W S]; [apply D; lia | apply D; lia |].
    eexists. split; [reflexivity |]. split; [exact W |]. apply S. split.
    + transitivity (alo / y); [apply Z.div_le_compat_l; lia | apply Z.div_le_mono; lia].
    + transitivity (ahi / y); [apply Z.div_le_mono; lia | apply Z.div_le_compat_l; lia].
Qed.

Lemma umod_sound a b x y :
  swf a -> swf b -> smember a x -> smember b y ->
  swf (umod a b) /\ smember (umod a b) (concrete_umod x y).
Proof.
  intros Wa Wb Hx Hy. unfold umod, concrete_umod.
  pose proof (unsigned_bounds_sound a x Wa Hx) as A. pose proof (unsigned_bounds_sound b y Wb Hy) as B.
  destruct (unsigned_bounds a) as [alo ahi], (unsigned_bounds b) as [blo bhi].
  destruct A as (A0 & A & Ra & Ra'), B as (B0 & B & Rb & Rb').
  destruct (from_unsigned_range_spec 0 (if blo =? 0 then ahi else Z.min ahi (Z.max 0 (bhi - 1)))) as [W S];
    [unfold is_u; lia | case_match; unfold is_u in *; lia |].
  split; [exact W |]. apply S. destruct (Z.eqb_spec y 0).
  - rewrite (proj2 (Z.eqb_eq blo 0)) by lia. lia.
  - pose proof (Z.mod_pos_bound x y ltac:(lia)). pose proof (Z.mod_le x y ltac:(lia) ltac:(lia)).
    case_match; lia.
Qed.

Lemma quot_range w a b : 0 < w -> is_i w a -> b <> 0 -> ~ (a = - 2 ^ (w - 1) /\ b = -1) -> is_i w (Z.quot a b).
Proof.
  intros Hw Ha Hb N. pose proof (half_pos w Hw). unfold is_i in *.
  destruct (Z.eq_dec b 1) as [-> | N1]; [rewrite Z.quot_1_r; lia |].
  destruct (Z.eq_dec b (-1)) as [-> | N2].
  - change (-1) with (- (1)). rewrite Z.quot_opp_r, Z.quot_1_r by lia. lia.
  - assert (Q : Z.abs (Z.quot a b) * 2 <= Z.abs a).
    { pose proof (Z.quot_abs a b Hb) as E. rewrite <- E.
      pose proof (Z.mul_quot_le (Z.abs a) (Z.abs b) ltac:(lia) ltac:(lia)).
      pose proof (Z.quot_pos (Z.abs a) (Z.abs b) ltac:(lia) ltac:(lia)). nia. }
    lia.
Qed.

Lemma rem_range w a b : 0 < w -> is_i w a -> b <> 0 -> is_i w (Z.rem a b).
Proof.
  intros Hw Ha Hb. unfold is_i in *.
  destruct (Z.le_gt_cases 0 a).
  - pose proof (Z.rem_nonneg a b Hb H). pose proof (Z.rem_le a (Z.abs b) ltac:(lia) ltac:(lia)).
    rewrite Z.rem_abs_r in * by lia. lia.
  - pose proof (Z.rem_nonpos a b Hb ltac:(lia)). pose proof (Z.rem_le (- a) (Z.abs b) ltac:(lia) ltac:(lia)) as L.
    rewrite Z.rem_abs_r, Z.rem_opp_l in L by lia. lia.
Qed.

Lemma concrete_sdiv_range a b : is_i 64 a -> is_i 64 (concrete_sdiv a b).
Proof.
  intros Ha. unfold concrete_sdiv. destruct (Z.eqb_spec b 0); [auto with word |].
  destruct ((a =? I64_MIN) && (b =? -1)) eqn:E; [auto with word |]. apply quot_range; auto; [lia |].
  apply andb_false_iff in E. intros [-> ->]. by destruct E.
Qed.

Lemma concrete_smod_range a b : is_i 64 a -> is_i 64 (concrete_smod a b).
Proof.
  intros Ha. unfold concrete_smod. destruct (Z.eqb_spec b 0); [exact Ha |].
  case_match; [auto with word |]. by apply rem_range.
Qed.

(** A binary operation known only on constants. *)
Lemma const_op_sound (f : Z -> Z -> Z) a b x y :
  (forall a b, is_i 64 a -> is_i 64 (f a b)) -> swf a -> swf b -> smember a x -> smember b y ->
  let r := match as_const a, as_const b with
           | Some a, Some b => constant (f a b)
           | _, _ => UNKNOWN
           end in
  swf r /\ smember r (u64 (f (as_i64 x) (as_i64 y))).
Proof.
  intros R Wa Wb Hx Hy r. subst r.
  destruct (as_const a) as [c |] eqn:Ea; [| split; auto with word].
  destruct (as_const b) as [d |] eqn:Eb; [| split; auto with word].
  destruct (as_const_spec a c Wa Ea) as [Hc Uc], (as_const_spec b d Wb Eb) as [Hd Ud].
  rewrite (Uc x Hx), (Ud y Hy), !as_i64_u64 by assumption. split; auto with word.
Qed.

Lemma const_op32_sound (f : Z -> Z -> Z) a b x y :
  swf a -> swf b -> smember a x -> smember b y ->
  let r := match as_const (sext32 a), as_const (sext32 b) with
           | Some a, Some b => constant (u32 (f (as_i32 a) (as_i32 b)))
           | _, _ => unsigned_bits 32
           end in
  swf r /\ smember r (u32 (f (as_i32 (u32 x)) (as_i32 (u32 y)))).
Proof.
  intros Wa Wb Hx Hy r. subst r. destruct (sext32_sound a Wa) as [Wa' Sa], (sext32_sound b Wb) as [Wb' Sb].
  destruct (unsigned_bits_spec 32 ltac:(lia)) as [Wu Su].
  pose proof (u32_small (f (as_i32 (u32 x)) (as_i32 (u32 y)))) as [_ R].
  destruct (as_const (sext32 a)) as [c |] eqn:Ea; [| split; auto].
  destruct (as_const (sext32 b)) as [d |] eqn:Eb; [| split; auto].
  destruct (as_const_spec _ c Wa' Ea) as [Hc Uc], (as_const_spec _ d Wb' Eb) as [Hd Ud].
  specialize (Uc _ (Sa x Hx)). specialize (Ud _ (Sb y Hy)).
  assert (E : forall z k, is_i 64 k -> u64 (swrap 32 z) = u64 k -> as_i32 k = as_i32 (u32 z)).
  { intros z k Hk E. apply (f_equal as_i64) in E. rewrite !as_i64_u64 in E; auto.
    - rewrite <- E, swrap_wrap by lia. apply swrap_small; auto with word.
    - apply (is_i_mono 32); [lia | auto with word]. }
  rewrite (E x c), (E y d) by assumption. set (r := u32 (f _ _)) in *.
  assert (Hr : is_i 64 r) by (unfold is_i; simpl; lia). split; [auto with word |].
  rewrite <- (wrap_nonneg 64 r) at 2 by (simpl; lia). auto with word.
Qed.

(** * Byte swaps *)

Lemma swap_bytes_range n v : 0 <= swap_bytes n v < 2 ^ (8 * Z.of_nat n).
Proof.
  destruct (le_bytes_range n v) as [F L]. unfold swap_bytes.
  pose proof (le_value_range (reverse (le_bytes n v))) as R. rewrite length_reverse, L in R.
  apply R. by apply Forall_reverse.
Qed.

Lemma concrete_bswap_range x width : is_u 64 (concrete_bswap x width).
Proof.
  unfold concrete_bswap. pose proof (swap_bytes_range 2 (u16 x)). pose proof (swap_bytes_range 4 (u32 x)).
  pose proof (swap_bytes_range 8 x). repeat case_match; unfold is_u; simpl in *; lia.
Qed.

Lemma bswap_sound width : sound1 (fun a => bswap a width) (fun x => concrete_bswap x width).
Proof.
  intros a W. unfold bswap. destruct (as_const a) as [c |] eqn:Ec.
  - destruct (as_const_spec a c W Ec) as [Hc Uc]. split; [auto with word |]. intros x Hx.
    rewrite <- (Uc x Hx). pose proof (concrete_bswap_range x width) as R.
    rewrite <- (wrap_swrap_id 64 (concrete_bswap x width)) at 2 by (lia || done). auto with word.
  - destruct (unsigned_bits_spec 16 ltac:(lia)), (unsigned_bits_spec 32 ltac:(lia)).
    split; [repeat case_match; auto with word |]. intros x Hx.
    pose proof (concrete_bswap_range x width) as R. unfold concrete_bswap in *.
    pose proof (swap_bytes_range 2 (u16 x)). pose proof (swap_bytes_range 4 (u32 x)).
    destruct (width =? 16); [auto |]. destruct (width =? 32); [auto |]. auto with word.
Qed.

(** * Instructions *)

Lemma u32_u64 z : u32 (u64 z) = u32 z.
Proof.
  destruct (wrap_eq_mod 64 eq_refl z) as [k ->].
  replace (z + k * 2 ^ 64) with (z + (k * 2 ^ 32) * 2 ^ 32) by lia. apply wrap_add_mul.
Qed.

Lemma land_mask31 y : Z.land (Z.land (u32 y) 31) 63 = Z.land (u32 y) 31.
Proof. by rewrite <- Z.land_assoc. Qed.

Lemma alu_wide_sound op : sound2 (fun a b => alu a op true b) (interp.alu op true).
Proof.
  destruct op; [apply add_sound | apply sub_sound | apply mul_sound | apply or_sound | apply and_sound
    | apply shl_sound | apply shr_sound | apply xor_sound | apply sar_sound].
Qed.

(** The amount of a 32-bit shift. *)
Lemma amount_sound b y :
  swf b -> smember b y ->
  swf (and (zext32 b) (constant 31)) /\ smember (and (zext32 b) (constant 31)) (Z.land (u32 y) 31).
Proof.
  intros W Hy. destruct (zext32_sound b W) as [Wz Sz].
  assert (R : is_i 64 31) by auto with word.
  destruct (and_sound (zext32 b) (constant 31) Wz (swf_constant 31 R)) as [Wa Sa].
  split; [exact Wa |]. apply Sa; [auto |]. exact (smember_constant 31 R).
Qed.

Lemma alu_narrow_sound a b op x y :
  swf a -> swf b -> smember a x -> smember b y ->
  swf (alu a op false b) /\ smember (alu a op false b) (interp.alu op false x y).
Proof.
  intros Wa Wb Hx Hy. destruct (zext32_sound a Wa) as [Wa' Sa], (zext32_sound b Wb) as [Wb' Sb].
  destruct (amount_sound b y Wb Hy) as [Wn Sn]. specialize (Sa x Hx). specialize (Sb y Hy).
  destruct op; cbn [alu interp.alu].
  - destruct (add_sound _ _ Wa' Wb') as [W S]. destruct (zext32_sound _ W) as [W' S'].
    split; [exact W' |]. rewrite <- u32_u64. auto.
  - destruct (sub_sound _ _ Wa' Wb') as [W S]. destruct (zext32_sound _ W) as [W' S'].
    split; [exact W' |]. rewrite <- u32_u64. auto.
  - destruct (mul_sound _ _ Wa' Wb') as [W S]. destruct (zext32_sound _ W) as [W' S'].
    split; [exact W' |]. rewrite <- u32_u64. auto.
  - destruct (or_sound _ _ Wa' Wb'); auto.
  - destruct (and_sound _ _ Wa' Wb'); auto.
  - destruct (shl_sound _ _ Wa' Wn) as [W S]. destruct (zext32_sound _ W) as [W' S'].
    split; [exact W' |]. specialize (S' _ (S _ _ Sa Sn)). rewrite land_mask31 in S'.
    unfold wshl in *. by rewrite u32_u64 in S'.
  - destruct (shr_sound _ _ Wa' Wn) as [W S]. split; [exact W |]. specialize (S _ _ Sa Sn).
    by rewrite land_mask31 in S.
  - destruct (xor_sound _ _ Wa' Wb'); auto.
  - destruct (sext32_sound a Wa) as [We Se]. destruct (sar_sound _ _ We Wn) as [W S].
    destruct (zext32_sound _ W) as [W' S']. split; [exact W' |].
    specialize (S' _ (S _ _ (Se x Hx) Sn)).
    rewrite land_mask31, u32_u64, as_i64_u64 in S'; [by rewrite swrap_wrap by lia |].
    apply (is_i_mono 32); [lia | auto with word].
Qed.


Lemma sext_swrap v bits : 0 < bits -> is_u 64 v -> interp.sext v bits = if 64 <=? bits then v else u64 (swrap bits v).
Proof.
  intros Hb Hv. unfold interp.sext. destruct (Z.leb_spec 64 bits); [done |]. apply sext_word; [lia | exact Hv].
Qed.

Lemma sext_sound bits : 0 < bits -> sound1 (fun a => sign_extend a bits) (fun v => interp.sext v bits).
Proof.
  intros Hb a W. destruct (Z.ltb_spec bits 64) as [L | L].
  - destruct (sign_extend_sound bits ltac:(lia) a W) as [W' S]. split; [exact W' |]. intros x Hx.
    rewrite sext_swrap, (proj2 (Z.leb_gt 64 bits)) by (lia || eauto with word). auto.
  - unfold sign_extend. rewrite (proj2 (Z.leb_le 64 bits)) by lia. split; [exact W |]. intros x Hx.
    rewrite sext_swrap, (proj2 (Z.leb_le 64 bits)) by (lia || eauto with word). exact Hx.
Qed.

Lemma neg_wide x : u64 (as_i64 (- as_i64 x)) = u64 (- x).
Proof.
  rewrite wrap_swrap by lia. destruct (swrap_eq_mod 64 eq_refl x) as [k ->].
  replace (- (x + k * 2 ^ 64)) with (- x + (- k) * 2 ^ 64) by lia. apply wrap_add_mul.
Qed.

Lemma neg_op_sound wide : sound1 (fun a => neg_op a wide) (interp.neg wide).
Proof.
  intros a W. destruct wide; cbn [neg_op interp.neg].
  - destruct (neg_sound a W) as [W' S]. split; [exact W' |]. intros x Hx. rewrite neg_wide. auto.
  - destruct (zext32_sound a W) as [W1 S1]. destruct (neg_sound _ W1) as [W2 S2].
    destruct (zext32_sound _ W2) as [W3 S3]. split; [exact W3 |]. intros x Hx. rewrite <- u32_u64. auto.
Qed.

Lemma mov_op_sound wide se :
  (forall bits, se = Some bits -> 0 < bits) -> sound1 (fun a => mov_op a wide se) (interp.mov wide se).
Proof.
  intros Hse a W. destruct (zext32_sound a W) as [W1 S1].
  destruct se as [bits |]; [| destruct wide; [by split | by split]].
  destruct (sext_sound bits (Hse bits eq_refl) a W) as [W2 S2]. destruct wide; [by split |].
  destruct (zext32_sound _ W2) as [W3 S3]. split; [exact W3 |]. intros x Hx. apply S3. by apply S2.
Qed.

Lemma land_u16 v : Z.land (u32 v) 0xffff = u16 v.
Proof.
  change 0xffff with (Z.ones 16). apply Z.bits_inj'. intros i Hi. autorewrite with bits.
  rewrite Z.testbit_ones_nonneg by lia. destruct (Z.ltb_spec i 16); [| btauto].
  rewrite (proj2 (Z.ltb_lt i 32)) by lia. btauto.
Qed.

Lemma end_op_sound order width :
  sound1 (fun a => end_op a order width) (interp.end_ order width).
Proof.
  intros a W. destruct (zext32_sound a W) as [W1 S1].
  assert (R : is_i 64 0xffff) by auto with word.
  destruct order; cbn [end_op interp.end_]; [| by apply bswap_sound | by apply bswap_sound].
  destruct (width =? 16); [| destruct (width =? 32); by split].
  destruct (and_sound _ _ W1 (swf_constant 0xffff R)) as [W2 S2]. split; [exact W2 |]. intros x Hx.
  rewrite <- land_u16. apply S2; [auto |]. exact (smember_constant 0xffff R).
Qed.

(** * Branches *)

(** What a predicate says of two words, in the width of the comparison. *)
Definition holds (p : Pred) (wide : bool) (x y : Z) : bool :=
  match p with
  | Pred.Eq => interp.cond CondOp.Eq wide x y
  | Pred.Ne => interp.cond CondOp.Ne wide x y
  | Pred.Gt => interp.cond CondOp.Gt wide x y
  | Pred.Ge => interp.cond CondOp.Ge wide x y
  | Pred.Lt => interp.cond CondOp.Lt wide x y
  | Pred.Le => interp.cond CondOp.Le wide x y
  | Pred.Sgt => interp.cond CondOp.Sgt wide x y
  | Pred.Sge => interp.cond CondOp.Sge wide x y
  | Pred.Slt => interp.cond CondOp.Slt wide x y
  | Pred.Sle => interp.cond CondOp.Sle wide x y
  | Pred.Set_ => interp.cond CondOp.Set_ wide x y
  | Pred.NotSet => negb (interp.cond CondOp.Set_ wide x y)
  end.

Lemma holds_of op wide x y : holds (Pred.of_cond op) wide x y = interp.cond op wide x y.
Proof. by destruct op. Qed.

Lemma holds_negate p wide x y : holds (Pred.negate p) wide x y = negb (holds p wide x y).
Proof.
  destruct p, wide; cbn [Pred.negate holds interp.cond]; rewrite ?negb_involutive; try done;
    symmetry; apply Z.leb_antisym || apply Z.ltb_antisym || idtac.
  all: rewrite ?Z.leb_antisym, ?negb_involutive; done.
Qed.

(** Values a 32-bit comparison may be reflected from compare alike in both
    widths. *)
Lemma refinable_value wide p s x :
  swf s -> smember s x -> refinable wide p s = true ->
  wide = false -> u32 x = x /\ (Pred.is_unsigned p = false -> as_i32 x = as_i64 x).
Proof.
  intros W Hm R ->. pose proof (smember_bounds s x Hm) as B. pose proof (smember_u64 s x Hm) as Hx.
  unfold refinable in R. cbn [orb] in R. reflect.
  destruct (as_i64_cases x Hx) as [(_ & E & _) | (_ & _ & ?)]; [| lia]. rewrite E in *. split.
  - apply wrap_small. unfold is_u. destruct (Pred.is_unsigned p); lia.
  - intros U. rewrite U in *. apply swrap_unsigned; simpl; lia.
Qed.

Lemma holds_widen wide p a b x y :
  swf a -> swf b -> smember a x -> smember b y ->
  refinable wide p a = true -> refinable wide p b = true -> holds p wide x y = holds p true x y.
Proof.
  intros Wa Wb Hx Hy Ra Rb. destruct wide; [done |].
  destruct (refinable_value false p a x Wa Hx Ra eq_refl) as [Ex Sx].
  destruct (refinable_value false p b y Wb Hy Rb eq_refl) as [Ey Sy].
  destruct p; cbn [holds interp.cond]; rewrite Ex, Ey; try done; by rewrite Sx, Sy.
Qed.

Lemma refines_hit o s (P : Z -> Prop) x :
  refines o s P -> smember s x -> P x ->
  exists s', o = Some s' /\ swf s' /\ smember s' x /\ forall v, smember s' v -> smember s v.
Proof.
  intros R Hx HP. destruct o as [s' |]; [| by destruct (R x Hx HP)].
  destruct R as (W & K & L). exists s'. auto.
Qed.

(** The operands of an edge whose predicate holds. *)
Definition kept (o : option (Scalar * Scalar)) (a b : Scalar) (x y : Z) : Prop :=
  exists na nb, o = Some (na, nb) /\ swf na /\ swf nb /\ smember na x /\ smember nb y /\
    (forall v, smember na v -> smember a v) /\ (forall v, smember nb v -> smember b v).

Lemma kept_pair oa ob a b x y (P Q : Z -> Prop) :
  refines oa a P -> refines ob b Q -> smember a x -> smember b y -> P x -> Q y ->
  kept (let* na := oa in let* nb := ob in Some (na, nb)) a b x y.
Proof.
  intros Ra Rb Hx Hy HP HQ.
  destruct (refines_hit _ _ _ _ Ra Hx HP) as (na & -> & Wna & Ma & La).
  destruct (refines_hit _ _ _ _ Rb Hy HQ) as (nb & -> & Wnb & Mb & Lb).
  exists na, nb. auto 10.
Qed.

Lemma kept_left oa a b x y (P : Z -> Prop) :
  refines oa a P -> swf b -> smember a x -> smember b y -> P x ->
  kept (let* na := oa in Some (na, b)) a b x y.
Proof.
  intros Ra Wb Hx Hy HP. destruct (refines_hit _ _ _ _ Ra Hx HP) as (na & -> & Wna & Ma & La).
  exists na, b. auto 10.
Qed.

Lemma sat_range c : is_u 64 c -> is_u 64 (sat_inc c) /\ is_u 64 (sat_dec c).
Proof. unfold is_u, sat_inc, sat_dec. lia. Qed.

Lemma ssat_range c : is_i 64 c -> is_i 64 (ssat_inc c) /\ is_i 64 (ssat_dec c).
Proof. unfold is_i, ssat_inc, ssat_dec. simpl. lia. Qed.

Lemma refine_scalars_sound wide p a b x y :
  swf a -> swf b -> smember a x -> smember b y -> holds p wide x y = true ->
  kept (refine_scalars wide p a b) a b x y.
Proof.
  intros Wa Wb Hx Hy H. unfold refine_scalars.
  destruct (refinable wide p a) eqn:Ra; [| exists a, b; auto 10].
  destruct (refinable wide p b) eqn:Rb; [| exists a, b; auto 10]. cbn [negb orb].
  rewrite (holds_widen wide p a b x y) in H by assumption. clear Ra Rb wide.
  pose proof (unsigned_bounds_sound a x Wa Hx) as A. pose proof (unsigned_bounds_sound b y Wb Hy) as B.
  destruct (unsigned_bounds a) as [au0 au1], (unsigned_bounds b) as [bu0 bu1].
  destruct A as (_ & A & Ra0 & Ra1), B as (_ & B & Rb0 & Rb1).
  pose proof (smember_bounds a x Hx) as SA. pose proof (smember_bounds b y Hy) as SB.
  pose proof (smember_u64 a x Hx) as Ux. pose proof (smember_u64 b y Hy) as Uy.
  pose proof (as_i64_range x) as Ix. pose proof (as_i64_range y) as Iy.
  pose proof (sat_range _ Ra0). pose proof (sat_range _ Ra1). pose proof (sat_range _ Rb0).
  pose proof (sat_range _ Rb1). pose proof (ssat_range _ (swf_min a Wa)). pose proof (ssat_range _ (swf_max a Wa)).
  pose proof (ssat_range _ (swf_min b Wb)). pose proof (ssat_range _ (swf_max b Wb)).
  unfold is_u in Ux, Uy.
  destruct p; cbn [holds interp.cond] in H; reflect;
    first [eapply kept_left; [| exact Wb | exact Hx | exact Hy |]
          | eapply kept_pair; [| | exact Hx | exact Hy | |]];
    first [ apply refine_eq_spec; assumption | apply refine_ne_spec; assumption
          | apply refine_unsigned_min_spec; tauto | apply refine_unsigned_max_spec; tauto
          | apply refine_signed_min_spec; auto with word; tauto
          | apply refine_signed_max_spec; auto with word; tauto
          | apply refine_bits_set_spec; assumption | apply refine_bits_clear_spec; assumption
          | idtac ]; cbv beta; unfold sat_inc, sat_dec, ssat_inc, ssat_dec; try lia; subst; eauto.
Qed.

(** * The contract of the transfer functions *)

(** C4: the ALU transfer function is sound.  For every operation and either
    width, if the operands are members of the abstract operands then the
    result the interpreter computes is a member of the abstract result. *)
Theorem alu_sound op wide a b x y :
  swf a -> swf b -> smember a x -> smember b y ->
  swf (alu a op wide b) /\ smember (alu a op wide b) (interp.alu op wide x y).
Proof.
  intros Wa Wb Hx Hy. destruct wide; [| by apply alu_narrow_sound].
  destruct (alu_wide_sound op a b Wa Wb); auto.
Qed.

Lemma alu_sound_witness :
  smember (alu (unsigned_bits 8) AluOp.Arsh false (constant 3)) (interp.alu AluOp.Arsh false 200 3).
Proof.
  apply (alu_sound AluOp.Arsh false (unsigned_bits 8) (constant 3) 200 3).
  - apply unsigned_bits_spec. lia.
  - apply swf_constant. split; vm_compute; congruence.
  - apply unsigned_bits_spec; lia.
  - split; [unfold is_u; lia | vm_compute; reflexivity].
Defined.

(** Division and modulo are sound and do not panic.  For either width
    and signedness the abstract quotient exists and covers the interpreter's
    quotient, zero divisors and the overflowing quotient included, and so
    does the abstract remainder. *)
Lemma div_mod_sound wide signed a b x y :
  swf a -> swf b -> smember a x -> smember b y ->
  (exists q, div_op a wide signed b = Some q /\ swf q /\ smember q (interp.div wide signed x y)) /\
  swf (mod_op a wide signed b) /\ smember (mod_op a wide signed b) (interp.rem wide signed x y).
Proof.
  intros Wa Wb Hx Hy. destruct (zext32_sound a Wa) as [Wa' Sa], (zext32_sound b Wb) as [Wb' Sb].
  destruct wide, signed; cbn [div_op mod_op interp.div interp.rem].
  - split; [eexists; split; [reflexivity |] |]; apply const_op_sound;
      auto using concrete_sdiv_range, concrete_smod_range.
  - split; [by apply udiv_sound | by apply umod_sound].
  - split; [eexists; split; [reflexivity |] |]; by apply const_op32_sound.
  - destruct (udiv_sound _ _ _ _ Wa' Wb' (Sa x Hx) (Sb y Hy)) as (q & -> & Wq & Mq).
    destruct (umod_sound _ _ _ _ Wa' Wb' (Sa x Hx) (Sb y Hy)) as [Wm Mm].
    destruct (zext32_sound _ Wq), (zext32_sound _ Wm). split; [eexists; split; [reflexivity |] |]; auto.
Qed.

Lemma div_mod_sound_witness :
  exists q, div_op (unsigned_bits 8) true false (unsigned_bits 2) = Some q /\ swf q /\
    smember q (interp.div true false 200 0).
Proof.
  apply (div_mod_sound true false (unsigned_bits 8) (unsigned_bits 2) 200 0);
    apply unsigned_bits_spec; lia.
Defined.

(** Negation, moves and byte-order conversions are sound in every width:
    the interpreter's result on a member is a member of the abstract result.
    The sign-extension width of a move is positive, as the decoder
    guarantees. *)
Lemma unary_sound a x wide se order width :
  swf a -> smember a x -> (forall bits, se = Some bits -> 0 < bits) ->
  smember (neg_op a wide) (interp.neg wide x) /\
  smember (mov_op a wide se) (interp.mov wide se x) /\
  smember (end_op a order width) (interp.end_ order width x).
Proof.
  intros W Hx Hse. split; [by apply neg_op_sound |].
  split; [by apply mov_op_sound | by apply end_op_sound].
Qed.

Lemma unary_sound_witness :
  smember (neg_op (unsigned_bits 8) false) (interp.neg false 5) /\
  smember (mov_op (unsigned_bits 8) false (Some 8)) (interp.mov false (Some 8) 5) /\
  smember (end_op (unsigned_bits 8) ByteOrder.Big 16) (interp.end_ ByteOrder.Big 16 5).
Proof.
  apply (unary_sound (unsigned_bits 8) 5 false (Some 8) ByteOrder.Big 16);
    [apply unsigned_bits_spec; lia | apply unsigned_bits_spec; lia | by intros bits [= <-]].
Defined.

(** C5: branch refinement is sound on both edges.  On the edge the
    interpreter takes, the refined operands exist, still contain the values
    compared, and contain nothing the operands did not.  In particular an
    edge reported infeasible is never taken. *)
Theorem branch_sound op wide a b x y :
  swf a -> swf b -> smember a x -> smember b y ->
  let p := if interp.cond op wide x y then Pred.of_cond op else Pred.negate (Pred.of_cond op) in
  kept (refine_scalars wide p a b) a b x y.
Proof.
  intros Wa Wb Hx Hy p. apply refine_scalars_sound; auto. subst p.
  destruct (interp.cond op wide x y) eqn:E; rewrite ?holds_negate, holds_of, E; done.
Qed.

Lemma branch_sound_witness :
  kept (refine_scalars true Pred.Lt (unsigned_bits 8) (constant 64)) (unsigned_bits 8) (constant 64) 9 64.
Proof.
  apply (branch_sound CondOp.Lt true (unsigned_bits 8) (constant 64) 9 64).
  - apply unsigned_bits_spec. lia.
  - apply swf_constant. split; vm_compute; congruence.
  - apply unsigned_bits_spec; lia.
  - split; [unfold is_u; lia | vm_compute; reflexivity].
Defined.

Import scalar.

Create HintDb swf.

#[export] Hint Resolve swf_UNKNOWN swf_constant : swf.
#[export] Hint Extern 1 (is_i 64 _) => solve [auto with word] : swf.

(** One and two operands. *)
Lemma sound1_wf f g a : sound1 f g -> swf a -> swf (f a).
Proof. intros S W. apply (S a W). Qed.

Lemma sound2_wf f g a b : sound2 f g -> swf a -> swf b -> swf (f a b).
Proof. intros S Wa Wb. apply (S a b Wa Wb). Qed.

Lemma zext32_wf a : swf a -> swf (zext32 a).
Proof. apply (sound1_wf _ _ a zext32_sound). Qed.

Lemma sext32_wf a : swf a -> swf (sext32 a).
Proof. apply (sound1_wf _ _ a sext32_sound). Qed.

Lemma add_wf a b : swf a -> swf b -> swf (add a b).
Proof. apply (sound2_wf _ _ a b add_sound). Qed.

Lemma sub_wf a b : swf a -> swf b -> swf (sub a b).
Proof. apply (sound2_wf _ _ a b sub_sound). Qed.

Lemma unsigned_bits_wf n : 0 <= n -> swf (unsigned_bits n).
Proof.
  intros Hn. destruct (Z.leb_spec 64 n) as [L | L]; [| by apply unsigned_bits_spec].
  unfold unsigned_bits. rewrite (proj2 (Z.leb_le _ _)) by lia. apply swf_UNKNOWN.
Qed.

#[export] Hint Resolve zext32_wf sext32_wf add_wf sub_wf : swf.

Lemma alu_wf a op wide b : swf a -> swf b -> swf (alu a op wide b).
Proof.
  intros Wa Wb. destruct wide; [apply (sound2_wf _ _ a b (alu_wide_sound op) Wa Wb) |].
  assert (Wn : swf (and (zext32 b) (constant 31))) by (apply (sound2_wf _ _ _ _ and_sound); auto with swf).
  assert (Wa' : swf (zext32 a)) by auto with swf. assert (Wb' : swf (zext32 b)) by auto with swf.
  destruct op; cbn [alu].
  - auto with swf.
  - auto with swf.
  - apply zext32_wf, (sound2_wf _ _ _ _ mul_sound Wa' Wb').
  - apply (sound2_wf _ _ _ _ or_sound Wa' Wb').
  - apply (sound2_wf _ _ _ _ and_sound Wa' Wb').
  - apply zext32_wf, (sound2_wf _ _ _ _ shl_sound Wa' Wn).
  - apply (sound2_wf _ _ _ _ shr_sound Wa' Wn).
  - apply (sound2_wf _ _ _ _ xor_sound Wa' Wb').
  - apply zext32_wf, (sound2_wf _ _ _ _ sar_sound (sext32_wf a Wa) Wn).
Qed.

(** * Division *)

Lemma unsigned_bounds_range s : swf s -> is_u 64 (unsigned_bounds s).1 /\ is_u 64 (unsigned_bounds s).2.
Proof.
  intros W. unfold unsigned_bounds, tnum.unsigned_bounds.
  assert (is_u 64 (Z.lor (value (tn s)) (mask (tn s)))) by (pose proof (swf_tn s W); auto with word).
  pose proof (wf_value (tn s) (swf_tn s W)). pose proof (wrap_range 64 eq_refl (min s)). pose proof (wrap_range 64 eq_refl (max s)).
  destruct (_ && _); simpl; unfold is_u in *; lia.
Qed.

Lemma quotient_range a d : is_u 64 a -> 0 < d -> is_u 64 (a / d).
Proof. unfold is_u. intros Ha Hd. split; [apply Z.div_pos; lia | apply Z.div_lt_upper_bound; nia]. Qed.

Lemma udiv_wf a b q : swf a -> swf b -> udiv a b = Some q -> swf q.
Proof.
  intros Wa Wb. unfold udiv. destruct (unsigned_bounds_range a Wa) as [A0 A1], (unsigned_bounds_range b Wb) as [B0 B1].
  destruct (unsigned_bounds a) as [alo ahi], (unsigned_bounds b) as [blo bhi]. simpl in *.
  assert (Hi : is_u 64 (if bhi =? 0 then 0 else if blo =? 0 then ahi else ahi / blo)).
  { destruct (Z.eqb_spec bhi 0); [split; vm_compute; congruence |]. destruct (Z.eqb_spec blo 0); [exact A1 |].
    apply quotient_range; [exact A1 | unfold is_u in *; lia]. }
  destruct (Z.eqb_spec blo 0); [| destruct (Z.eqb_spec bhi 0); [done |]]; intros [= <-]; (apply from_unsigned_range_spec; [| exact Hi]).
  - split; vm_compute; congruence.
  - apply quotient_range; [exact A0 | unfold is_u in *; lia].
Qed.

Lemma umod_wf a b : swf a -> swf b -> swf (umod a b).
Proof.
  intros Wa Wb. unfold umod. destruct (unsigned_bounds_range a Wa) as [A0 A1], (unsigned_bounds_range b Wb) as [B0 B1].
  destruct (unsigned_bounds a) as [alo ahi], (unsigned_bounds b) as [blo bhi]. simpl in *.
  apply from_unsigned_range_spec; [split; vm_compute; congruence |]. case_match; unfold is_u in *; lia.
Qed.

Lemma const_op32_wf (f : Z -> Z -> Z) (a b : option Z) :
  swf (match a, b with Some a, Some b => constant (u32 (f (as_i32 a) (as_i32 b))) | _, _ => unsigned_bits 32 end).
Proof.
  destruct a, b; try (apply unsigned_bits_wf; lia). apply swf_constant.
  match goal with |- is_i 64 (u32 ?z) => pose proof (u32_small z) as [_ R] end. unfold is_i. simpl. lia.
Qed.

Lemma const_op_wf (f : Z -> Z -> Z) a b :
  (forall a b, is_i 64 a -> is_i 64 (f a b)) -> swf a ->
  swf (match as_const a, as_const b with Some a, Some b => constant (f a b) | _, _ => UNKNOWN end).
Proof.
  intros R Wa. destruct (as_const a) as [c |] eqn:Ea; [| auto with swf]. destruct (as_const b); [| auto with swf].
  destruct (as_const_spec a c Wa Ea). auto with swf.
Qed.

Lemma swf_some x q : swf x -> Some x = Some q -> swf q.
Proof. by intros W [= <-]. Qed.

Lemma div_op_wf a wide signed b q : swf a -> swf b -> div_op a wide signed b = Some q -> swf q.
Proof.
  intros Wa Wb. destruct wide, signed; cbn [div_op].
  - exact (swf_some _ q (const_op_wf concrete_sdiv a b concrete_sdiv_range Wa)).
  - exact (udiv_wf a b q Wa Wb).
  - exact (swf_some _ q (const_op32_wf concrete_sdiv32 (as_const (sext32 a)) (as_const (sext32 b)))).
  - destruct (udiv (zext32 a) (zext32 b)) as [r |] eqn:E; [| discriminate]. 
    exact (swf_some _ q (zext32_wf r (udiv_wf _ _ r (zext32_wf a Wa) (zext32_wf b Wb) E))).
Qed.

Lemma mod_op_wf a wide signed b : swf a -> swf b -> swf (mod_op a wide signed b).
Proof.
  intros Wa Wb. destruct wide, signed; cbn [mod_op].
  - exact (const_op_wf concrete_smod a b concrete_smod_range Wa).
  - exact (umod_wf a b Wa Wb).
  - exact (const_op32_wf concrete_smod32 (as_const (sext32 a)) (as_const (sext32 b))).
  - exact (zext32_wf _ (umod_wf _ _ (zext32_wf a Wa) (zext32_wf b Wb))).
Qed.

(** * Branches *)

Lemma refines_wf o s P n : refines o s P -> o = Some n -> swf n.
Proof. intros R ->. apply R. Qed.

Lemma refine_scalars_wf wide p a b na nb :
  swf a -> swf b -> refine_scalars wide p a b = Some (na, nb) -> swf na /\ swf nb.
Proof.
  intros Wa Wb. unfold refine_scalars. destruct (_ || _); [by intros [= <- <-] |].
  destruct (unsigned_bounds_range a Wa) as [A0 A1], (unsigned_bounds_range b Wb) as [B0 B1].
  destruct (unsigned_bounds a) as [au0 au1], (unsigned_bounds b) as [bu0 bu1]. simpl in A0, A1, B0, B1.
  pose proof (sat_range _ A0). pose proof (sat_range _ A1). pose proof (sat_range _ B0). pose proof (sat_range _ B1).
  pose proof (ssat_range _ (swf_min a Wa)). pose proof (ssat_range _ (swf_max a Wa)).
  pose proof (ssat_range _ (swf_min b Wb)). pose proof (ssat_range _ (swf_max b Wb)).
  assert (K : forall oa ob P Q, refines oa a P -> refines ob b Q ->
    (let* x := oa in let* y := ob in Some (x, y)) = Some (na, nb) -> swf na /\ swf nb).
  { intros [x |] [y |] P Q Ra Rb; try done. intros [= <- <-]. split; [apply Ra | apply Rb]. }
  assert (L : forall oa P, refines oa a P -> (let* x := oa in Some (x, b)) = Some (na, nb) -> swf na /\ swf nb).
  { intros [x |] P Ra; try done. intros [= <- <-]. split; [apply Ra | done]. }
  destruct p; first [eapply L | eapply K];
    first [ apply refine_eq_spec; assumption | apply refine_ne_spec; assumption
          | apply refine_unsigned_min_spec; tauto | apply refine_unsigned_max_spec; tauto
          | apply refine_signed_min_spec; auto with word; tauto
          | apply refine_signed_max_spec; auto with word; tauto
          | apply refine_bits_set_spec; assumption | apply refine_bits_clear_spec; assumption ].
Qed.
