(* ===== verification/BpfMachine.v ===== *)
(** The interpreter as a machine: its state invariant, totality, and the
    behaviour of the stack as a memory. *)

From S2P Require Import Prelude Word Slice BpfOpcode BpfInsn BpfEncode BpfScalar Tnum TnumSound TnumRange.
From S2P Require Import ScalarSound ScalarOps BpfInterp BpfRefine ScalarInterp.
Import interp.

(** The field types of [Machine], and the lengths its constructors give. *)
Record machine_ok (m : Machine) : Prop := {
  ok_regs_len : length m.(m_regs) = 11%nat;
  ok_m_regs : Forall (is_u 64) m.(m_regs);
  ok_stack_len : Z.of_nat (length m.(m_stack)) = STACK_BYTES;
  ok_stack : Forall (is_u 8) m.(m_stack);
  ok_ctx : Forall (is_u 8) m.(m_ctx);
  ok_defined_len : Z.of_nat (length m.(m_defined)) = STACK_BYTES
}.

Lemma size_bytes_range s : 1 <= size_bytes s <= 8.
Proof. destruct s; simpl; lia. Qed.

(** * The stack *)

Lemma slot_spec addr size :
  is_u 64 addr ->
  slot addr size =
    if (addr + size_bytes size <=? STACK_BYTES) then Ok addr else Err BadAccess.
Proof.
  intros Ha. unfold slot. pose proof (size_bytes_range size).
  assert (E : as_i64 (STACK_BYTES + as_i64 (as_i64 addr - STACK_BYTES)) = as_i64 addr).
  { destruct (swrap_eq_mod 64 eq_refl (as_i64 addr - STACK_BYTES)) as [k ->].
    replace (STACK_BYTES + (as_i64 addr - STACK_BYTES + k * 2 ^ 64)) with (as_i64 addr + k * 2 ^ 64) by lia.
    rewrite swrap_add_mul. apply swrap_small; auto with word. }
  rewrite E. unfold STACK_BYTES, MAX_STACK_BYTES in *.
  destruct (as_i64_cases addr Ha) as [(L & -> & P) | (L & -> & P)]; unfold SIGN, is_u in *.
  - rewrite (proj2 (Z.ltb_ge addr 0)) by lia. simpl orb.
    destruct (Z.leb_spec (addr + size_bytes size) (16 * 1024)); destruct (Z.ltb_spec (16 * 1024) (addr + size_bytes size)); done || lia.
  - rewrite (proj2 (Z.ltb_lt (addr - 2 ^ 64) 0)) by lia. simpl orb.
    rewrite (proj2 (Z.leb_gt (addr + size_bytes size) (16 * 1024))) by lia. done.
Qed.

Lemma le_value_take n bs :
  Forall (is_u 8) bs -> 0 <= n <= 8 -> is_u 64 (le_value (take (Z.to_nat n) bs)).
Proof.
  intros F Hn. pose proof (le_value_range (take (Z.to_nat n) bs) (Forall_take _ _ _ F)) as R.
  rewrite length_take in R. unfold is_u. split; [lia |].
  eapply Z.lt_le_trans; [apply R |]. apply Z.pow_le_mono_r; lia.
Qed.

Section Access.
Context (m : Machine) (Hm : machine_ok m).

Lemma load_total addr size :
  is_u 64 addr -> exists r, load m addr size = Some r /\ forall v, r = Ok v -> is_u 64 v.
Proof using Hm.
  intros Ha. unfold load, ctx_load. pose proof (size_bytes_range size).
  destruct (Z.ltb_spec addr CTX_BASE) as [L | L].
  - rewrite slot_spec by exact Ha. destruct (Z.leb_spec (addr + size_bytes size) STACK_BYTES) as [B | B].
    2:{ eexists. split; [reflexivity | done]. }
    unfold is_u in Ha. rewrite !slice_some by (rewrite ?ok_defined_len, ?ok_stack_len by exact Hm; lia).
    case_match; (eexists; split; [reflexivity |]); [done |]. intros v [= <-].
    apply le_value_take; [apply Forall_drop, (ok_stack m Hm) | lia].
  - eexists. split; [reflexivity |]. intros v. case_match; [| done]. intros [= <-].
    apply le_value_take; [apply Forall_drop, (ok_ctx m Hm) | lia].
Qed.

Lemma take_le_bytes n v : 0 <= n <= 8 ->
  Forall (is_u 8) (take (Z.to_nat n) (le_bytes 8 v)) /\ length (take (Z.to_nat n) (le_bytes 8 v)) = Z.to_nat n.
Proof using Type.
  intros Hn. destruct (le_bytes_range 8 v) as [F L]. split; [by apply Forall_take |].
  rewrite length_take, L. lia.
Qed.

Lemma store_total addr size v :
  is_u 64 addr -> exists r, store m addr size v = Some r /\ forall m', r = Ok m' -> machine_ok m'.
Proof using Hm.
  intros Ha. unfold store. pose proof (size_bytes_range size) as S.
  destruct (Z.leb_spec CTX_BASE addr); [eexists; split; [reflexivity | done] |].
  rewrite slot_spec by exact Ha. destruct (Z.leb_spec (addr + size_bytes size) STACK_BYTES) as [B | B].
  2:{ eexists. split; [reflexivity | done]. }
  unfold is_u in Ha. destruct (take_le_bytes (size_bytes size) v ltac:(lia)) as [F L].
  pose proof (ok_stack_len m Hm). pose proof (ok_defined_len m Hm).
  destruct (write_slice_some (m_stack m) addr (take (Z.to_nat (size_bytes size)) (le_bytes 8 v)))
    as (st & Es & Ls & _); [lia | rewrite L; lia |].
  destruct (write_slice_some (m_defined m) addr (replicate (Z.to_nat (size_bytes size)) true))
    as (df & Ed & Ld & _); [lia | rewrite length_replicate; lia |].
  rewrite Es, Ed. eexists. split; [reflexivity |]. intros m' [= <-].
  destruct Hm as [? ? ? ? ? ?]. split; simpl; auto; try lia.
  by apply (write_slice_forall _ _ _ _ _ ok_stack0 F Es).
Qed.
End Access.

(** * Stack reads and writes *)

Lemma take_le_bytes_eq n k v : (n <= k)%nat -> take n (le_bytes k v) = le_bytes n v.
Proof.
  revert k v. induction n as [| n IH]; intros k v L; [done |].
  destruct k as [| k]; [lia |]. simpl. by rewrite IH by lia.
Qed.

(** What a successful store wrote. *)
Lemma store_inv m addr size v m' :
  is_u 64 addr -> store m addr size v = Some (Ok m') ->
  addr < CTX_BASE /\ addr + size_bytes size <= STACK_BYTES /\ m'.(m_ctx) = m.(m_ctx) /\
  write_slice m.(m_stack) addr (le_bytes (Z.to_nat (size_bytes size)) v) = Some m'.(m_stack) /\
  write_slice m.(m_defined) addr (replicate (Z.to_nat (size_bytes size)) true) = Some m'.(m_defined).
Proof.
  intros Ha. unfold store. destruct (Z.leb_spec CTX_BASE addr); [done |].
  pose proof (size_bytes_range size). rewrite slot_spec by exact Ha.
  destruct (Z.leb_spec (addr + size_bytes size) STACK_BYTES); [| done].
  rewrite take_le_bytes_eq by lia.
  destruct (write_slice (m_stack m) _ _) as [st |]; [| done].
  destruct (write_slice (m_defined m) _ _) as [df |]; [| done]. by intros [= <-].
Qed.

Lemma forallb_replicate n : forallb (fun d => d) (replicate n true) = true.
Proof. induction n; done. Qed.

(** The stack is a memory.  After a successful store, a load of the same
    width at the same address returns the stored value truncated to the
    width, and a load whose bytes do not overlap the store (of the context, or
    elsewhere on the stack) returns what it returned before. *)
Lemma store_then_load m addr size v m' addr' size' :
  is_u 64 addr -> is_u 64 addr' -> store m addr size v = Some (Ok m') ->
  load m' addr size = Some (Ok (wrap (size_bits size) v)) /\
  (addr' + size_bytes size' <= addr \/ addr + size_bytes size <= addr' ->
   load m' addr' size' = load m addr' size').
Proof.
  intros Ha Ha' St. destruct (store_inv m addr size v m' Ha St) as (L & B & Ec & Es & Ed).
  pose proof (size_bytes_range size) as S. pose proof (size_bytes_range size') as S'.
  unfold is_u in Ha. destruct (le_bytes_range (Z.to_nat (size_bytes size)) v) as [_ Ln]. split.
  - unfold load, ctx_load. rewrite (proj2 (Z.ltb_lt _ _)) by exact L.
    rewrite slot_spec, (proj2 (Z.leb_le _ _)) by (exact B || unfold is_u; lia).
    apply write_slice_read in Es, Ed; try lia. rewrite length_replicate, Z2Nat.id in Ed by lia.
    rewrite Ln, Z2Nat.id in Es by lia. rewrite Es, Ed, forallb_replicate. cbn [negb].
    rewrite le_value_bytes. rewrite Z2Nat.id by lia. unfold wrap, size_bits. by rewrite (Z.mul_comm 8).
  - intros D. unfold load, ctx_load. rewrite Ec. destruct (addr' <? CTX_BASE); [| done].
    rewrite slot_spec by exact Ha'. destruct (addr' + size_bytes size' <=? STACK_BYTES); [| done].
    unfold is_u in Ha'.
    rewrite (write_slice_frame _ _ addr _ addr' (size_bytes size') ltac:(lia) ltac:(lia) ltac:(lia) Es)
      by (rewrite Ln; lia).
    by rewrite (write_slice_frame _ _ addr _ addr' (size_bytes size') ltac:(lia) ltac:(lia) ltac:(lia) Ed)
      by (rewrite length_replicate; lia).
Qed.

Lemma store_then_load_witness :
  match store new 100 Size.W 4294967303 with
  | Some (Ok m') => load m' 100 Size.W = Some (Ok (wrap (size_bits Size.W) 4294967303))
  | _ => False
  end.
Proof.
  destruct (store new 100 Size.W 4294967303) as [[m' | t] |] eqn:E.
  - apply (store_then_load new 100 Size.W 4294967303 m' 200 Size.B); [by split | by split | exact E].
  - vm_compute in E. discriminate E.
  - vm_compute in E. discriminate E.
Defined.

(** * Totality *)

Lemma get_reg_total m r : machine_ok m -> reg_ok r -> exists v, get_reg m r = Some v /\ is_u 64 v.
Proof.
  intros Hm Hr. unfold get_reg, reg_usize, reg_ok, NUM_REGS in *.
  destruct (lookup_lt_is_Some_2 (m_regs m) (Z.to_nat (reg_index r))) as [v E].
  { rewrite (ok_regs_len m Hm). lia. }
  exists v. split; [exact E |]. by apply (Forall_lookup_1 _ _ _ _ (ok_m_regs m Hm) E).
Qed.

Lemma set_reg_total m r v :
  machine_ok m -> reg_ok r -> is_u 64 v -> exists m', set_reg m r v = Some m' /\ machine_ok m'.
Proof.
  intros Hm Hr Hv. unfold set_reg. destruct (get_reg_total m r Hm Hr) as (w & -> & _).
  eexists. split; [reflexivity |]. destruct Hm as [? ? ? ? ? ?]. split; simpl; auto.
  - by rewrite length_insert.
  - by apply Forall_insert.
Qed.

Lemma val_total m s wide : machine_ok m -> source_ok s -> exists v, val m s wide = Some v /\ is_u 64 v.
Proof.
  intros Hm Hs. destruct s as [i | r]; simpl in *; [| by apply get_reg_total].
  eexists. split; [reflexivity |]. destruct wide; [auto with word |].
  apply (is_u_mono 32); [lia | auto with word].
Qed.

(** One iteration keeps the invariant and never panics. *)
Definition flow_ok (f : Flow) : Prop :=
  match f with
  | Continue pc m => 0 <= pc /\ machine_ok m
  | Return r m => machine_ok m /\ forall v, r = Ok v -> is_u 64 v
  end.

(** Results are words: each operation maps members of the top element to a
    member of some scalar. *)
Lemma u32_is_u64 z : is_u 64 (u32 z).
Proof. apply (is_u_mono 32); [lia | auto with word]. Qed.

#[local] Hint Resolve u32_is_u64 swf_UNKNOWN smember_UNKNOWN : word.

Section Words.
Context (x y : Z) (Hx : is_u 64 x) (Hy : is_u 64 y).

Lemma alu_word op wide : is_u 64 (interp.alu op wide x y).
Proof using Hx Hy.
  destruct wide.
  - destruct (alu_wide_sound op scalar.UNKNOWN scalar.UNKNOWN swf_UNKNOWN swf_UNKNOWN) as [_ S].
    eapply smember_u64, S; auto with word.
  - eapply smember_u64, (alu_narrow_sound scalar.UNKNOWN scalar.UNKNOWN); auto with word.
Qed.

Lemma div_word wide signed : is_u 64 (interp.div wide signed x y).
Proof using Hx Hy.
  destruct wide, signed; simpl; auto with word.
  destruct (udiv_sound scalar.UNKNOWN scalar.UNKNOWN x y) as (q & _ & _ & M); auto with word.
  by apply smember_u64 in M.
Qed.

Lemma rem_word wide signed : is_u 64 (interp.rem wide signed x y).
Proof using Hx Hy.
  destruct wide, signed; simpl; auto with word.
  destruct (umod_sound scalar.UNKNOWN scalar.UNKNOWN x y) as [_ M]; auto with word.
  by apply smember_u64 in M.
Qed.

Lemma unary_words wide order width se :
  (forall bits, se = Some bits -> 0 < bits) ->
  is_u 64 (interp.neg wide x) /\ is_u 64 (interp.mov wide se x) /\ is_u 64 (interp.end_ order width x).
Proof using Hx.
  intros Hse. pose proof swf_UNKNOWN as W. pose proof (smember_UNKNOWN x Hx) as M. split_and!.
  - eapply smember_u64, (neg_op_sound wide _ W), M.
  - eapply smember_u64, (mov_op_sound wide se Hse _ W), M.
  - eapply smember_u64, (end_op_sound order width _ W), M.
Qed.

Lemma sext_word_u64 bits : 0 < bits -> is_u 64 (interp.sext x bits).
Proof using Hx.
  intros Hb. rewrite sext_swrap by assumption. case_match; auto with word.
Qed.
End Words.

Ltac reg_step :=
  match goal with
  | |- context [val ?m ?s ?w] => let v := fresh "v" in let E := fresh in let R := fresh in
      destruct (val_total m s w) as (v & E & R); [assumption | assumption |]; rewrite E
  | |- context [get_reg ?m ?r] => let v := fresh "v" in let E := fresh in let R := fresh in
      destruct (get_reg_total m r) as (v & E & R); [assumption | assumption |]; rewrite E
  end.

Lemma assign_total m next dst v :
  machine_ok m -> reg_ok dst -> is_u 64 v -> 0 <= next ->
  exists f, (let* m := set_reg m dst v in Some (Continue next m)) = Some f /\ flow_ok f.
Proof.
  intros Hm Hd Hv Hn. destruct (set_reg_total m dst v Hm Hd Hv) as (m' & -> & Hm'). by eexists.
Qed.

Lemma mov_width_pos se :
  se ∈ [None; Some 8; Some 16; Some 32] -> forall bits, se = Some bits -> 0 < bits.
Proof.
  intros H bits ->. apply list_elem_of_In in H. simpl in H.
  destruct H as [[=] | [[= <-] | [[= <-] | [[= <-] | []]]]]; lia.
Qed.

Lemma load_step m addr size next dst se :
  machine_ok m -> is_u 64 addr -> reg_ok dst -> 0 <= next ->
  exists f,
    (let* r := load m addr size in
     match r with
     | Err t => Some (Return (Err t) m)
     | Ok v => let* m := set_reg m dst (if se : bool then sext v (size_bits size) else v) in
               Some (Continue next m)
     end) = Some f /\ flow_ok f.
Proof.
  intros Hm Ha Hd Hn. destruct (load_total m Hm addr size Ha) as ([v | t] & -> & R).
  - apply assign_total; auto. destruct se; auto. apply sext_word_u64; [auto | by destruct size].
  - eexists. split; [reflexivity |]. by split.
Qed.

Lemma store_step m addr size v next :
  machine_ok m -> is_u 64 addr -> 0 <= next ->
  exists f,
    (let* r := store m addr size v in
     match r with
     | Err t => Some (Return (Err t) m)
     | Ok m => Some (Continue next m)
     end) = Some f /\ flow_ok f.
Proof.
  intros Hm Ha Hn. destruct (store_total m Hm addr size v Ha) as ([m' | t] & -> & R);
    (eexists; split; [reflexivity |]).
  - split; auto.
  - by split.
Qed.

Lemma goto_nonneg next off : 0 <= goto next off.
Proof. apply (wrap_range 64). lia. Qed.

Lemma exec_total op next m :
  machine_ok m -> decoded_ok op -> 0 <= next -> exists f, exec op next m = Some f /\ flow_ok f.
Proof.
  intros Hm Hd Hn.
  assert (St : forall t, exists f, Some (Return (Err t) m) = Some f /\ flow_ok f).
  { intros t. eexists. split; [reflexivity |]. by split. }
  destruct op; cbn [decoded_ok] in Hd; destruct_and?; cbn [exec]; try apply St;
    repeat reg_step.
  - apply assign_total; auto using alu_word.
  - apply assign_total; auto. by apply (unary_words v ltac:(assumption) wide ByteOrder.Little 0 None).
  - apply assign_total; auto.
    apply (unary_words v ltac:(assumption) wide ByteOrder.Little 0 sign_extend). by apply mov_width_pos.
  - apply assign_total; auto using div_word.
  - apply assign_total; auto using rem_word.
  - apply assign_total; auto. by apply (unary_words v ltac:(assumption) true order width None).
  - apply load_step; auto with word.
  - apply store_step; auto with word.
  - destruct value; try apply St. by apply assign_total.
  - eexists. split; [reflexivity |]. split; [apply goto_nonneg | done].
  - eexists. split; [reflexivity |]. split; [| done]. case_match; [apply goto_nonneg | done].
  - destruct (get_reg_total m R0 Hm) as (v & -> & R); [done |].
    eexists. split; [reflexivity |]. split; [done |]. by intros w [= <-].
Qed.

Lemma charge_ok m : machine_ok m -> machine_ok (charge m).
Proof. by intros [? ? ? ? ? ?]. Qed.

Lemma iter_total prog pc m :
  Forall insn_ok prog -> machine_ok m -> 0 <= pc -> exists f, iter prog pc m = Some f /\ flow_ok f.
Proof.
  intros Hp Hm Hpc. unfold iter.
  assert (St : forall t, exists f, Some (Return (Err t) m) = Some f /\ flow_ok f).
  { intros t. eexists. split; [reflexivity |]. by split. }
  destruct (Z.leb_spec (Z.of_nat (length prog)) pc) as [L | L]; [apply St |]. unfold decode.
  destruct (lookup_lt_is_Some_2 prog (Z.to_nat pc)) as [w Ew]; [lia |]. rewrite Ew.
  pose proof (decode_insn_accepted w (Forall_lookup_1 _ _ _ _ Hp Ew) (prog !! S (Z.to_nat pc))
    (fun j Hj => Forall_lookup_1 _ _ _ _ Hp Hj)) as A.
  destruct (decode_insn w _) as [[op n] | e]; [| apply St]. destruct A as [Hop _].
  apply exec_total; auto. lia.
Qed.

Lemma run_loop_total n prog pc m :
  Forall insn_ok prog -> machine_ok m -> 0 <= pc ->
  exists r m', run_loop n prog pc m = Some (r, m') /\ machine_ok m' /\ forall v, r = Ok v -> is_u 64 v.
Proof.
  intros Hp. revert pc m. induction n as [| n IH]; intros pc m Hm Hpc; simpl; [by eexists _, _ |].
  destruct (iter_total prog pc (charge m) Hp (charge_ok m Hm) Hpc) as ([pc' m' | r m'] & -> & F).
  - destruct F. by apply IH.
  - destruct F. by eexists _, _.
Qed.

Lemma stack_len {A} (x : A) : Z.of_nat (length (replicate (Z.to_nat STACK_BYTES) x)) = STACK_BYTES.
Proof. rewrite length_replicate, Z2Nat.id; [reflexivity | discriminate]. Qed.

Lemma new_ok : machine_ok new.
Proof.
  split; cbn [new m_regs m_stack m_ctx m_defined]; try apply stack_len.
  - reflexivity.
  - repeat constructor; vm_compute; congruence.
  - apply Forall_replicate. by split.
  - constructor.
Qed.

Lemma with_ctx_ok words : machine_ok (with_ctx words).
Proof.
  destruct new_ok. split; cbn [with_ctx m_regs m_stack m_ctx m_defined]; auto.
  - repeat constructor; vm_compute; congruence.
  - induction words as [| w words IH]; [constructor |]. apply Forall_app. split; [| exact IH].
    apply le_bytes_range.
Qed.

(** The interpreter is total.  On any program of well-formed words and
    any machine of the declared shape, [run] returns without panicking, within
    its fuel: a word, or one of the five traps.  The machine it leaves has
    the same shape. *)
Lemma interp_total prog m :
  Forall insn_ok prog -> machine_ok m ->
  exists r m', run prog m = Some (r, m') /\ machine_ok m' /\ forall v, r = Ok v -> is_u 64 v.
Proof. intros Hp Hm. by apply run_loop_total. Qed.

Lemma interp_total_witness :
  exists r m', run (assemble [Decoded.Mov true R0 (Source.Imm 7) None; Decoded.Exit]) (with_ctx [1; 2])
    = Some (r, m') /\ machine_ok m' /\ forall v, r = Ok v -> is_u 64 v.
Proof.
  apply interp_total; [| apply with_ctx_ok].
  repeat constructor; vm_compute; congruence.
Defined.
