(* ===== verification/BpfKfunc.v ===== *)
(** The vocabulary of kernel functions ([bpf/verifier/src/kfunc.rs]): validity
    domains, types of arguments and returns, and the descriptors from which
    the verifier takes everything it knows about a kernel function. *)

From Stdlib Require Import String Ascii.
From S2P Require Import Prelude Word BpfOpcode.

(** * Validity domains *)

Module ValidityDomain.
Inductive ValidityDomain : Type := NonPreemptible | RcuRead | SleepableRcuRead | Owned | Static.

#[global] Instance eq_dec : EqDecision ValidityDomain.
Proof. solve_decision. Defined.

Definition survives_await (d : ValidityDomain) : bool :=
  match d with
  | NonPreemptible | RcuRead => false
  | SleepableRcuRead | Owned | Static => true
  end.

Definition requires_release (d : ValidityDomain) : bool :=
  match d with Owned => true | _ => false end.
End ValidityDomain.
Abbreviation ValidityDomain := ValidityDomain.ValidityDomain.

(** * Type keys: a 32-bit hash of a name, [NONE] for no key *)

Definition TypeKey : Type := Z.

Module type_key.
Fixpoint fnv1a32 (s : string) (hash : Z) : Z :=
  match s with
  | EmptyString => hash
  | String c s => fnv1a32 s (u32 (Z.lxor hash (Z.of_N (N_of_ascii c)) * 0x01000193))
  end.

Definition fnv1a32_nonzero (s : string) : Z :=
  let hash := fnv1a32 s 0x811C9DC5 in
  if hash =? 0 then 1 else hash.

Definition NONE : TypeKey := 0.
Definition is_some (k : TypeKey) : bool := negb (k =? 0).
End type_key.

Definition MAP_HANDLE_TYPE_NAME : string := "narf_bpf_map".
Definition MAP_HANDLE_TYPE_KEY : TypeKey := type_key.fnv1a32_nonzero MAP_HANDLE_TYPE_NAME.

(** * Types *)

Module PtrKind.
Inductive PtrKind : Type := Object | TraceObject | Mem | MemEnd | Arena | Ctx | MapValue | LockGuard.

#[global] Instance eq_dec : EqDecision PtrKind.
Proof. solve_decision. Defined.
End PtrKind.
Abbreviation PtrKind := PtrKind.PtrKind.

Module TypeKind.
Inductive TypeKind : Type :=
| Scalar (bits : Z) (signed : bool)
| Ptr (kind : PtrKind) (key : TypeKey)
| Void.

Definition is_scalar (k : TypeKind) : bool := match k with Scalar _ _ => true | _ => false end.

(** [matches!(k, TypeKind::Ptr { kind, .. })]. *)
Definition is_ptr (kind : PtrKind) (k : TypeKind) : bool :=
  match k with Ptr kind' _ => bool_decide (kind' = kind) | _ => false end.

(** [matches!(k, TypeKind::Ptr { kind, key: TypeKey::NONE })]. *)
Definition is_untyped (kind : PtrKind) (k : TypeKind) : bool :=
  match k with Ptr kind' key => bool_decide (kind' = kind) && (key =? type_key.NONE) | _ => false end.
End TypeKind.
Abbreviation TypeKind := TypeKind.TypeKind.

(** * Flags *)

Definition ArgFlags : Type := Z.

Module arg_flags.
Definition NONE : ArgFlags := 0.
Definition NULLABLE : ArgFlags := Z.shiftl 1 0.
Definition UNINIT : ArgFlags := Z.shiftl 1 1.
Definition SIZED_BY_NEXT : ArgFlags := Z.shiftl 1 2.
Definition CONST : ArgFlags := Z.shiftl 1 3.
Definition READONLY : ArgFlags := Z.shiftl 1 4.
Definition ANY_TRACE_OBJECT : ArgFlags := Z.shiftl 1 5.
Definition OBJECT_FIELD_OFFSET : ArgFlags := Z.shiftl 1 6.

Definition with_ (a b : ArgFlags) : ArgFlags := Z.lor a b.
Definition contains (a b : ArgFlags) : bool := Z.land a b =? b.
End arg_flags.

(** * Descriptors *)

Record ArgDesc : Type := mk_arg { a_kind : TypeKind; a_domain : ValidityDomain; a_flags : ArgFlags }.

Module arg_desc.
Definition SCALAR64 : ArgDesc := mk_arg (TypeKind.Scalar 64 false) ValidityDomain.Static arg_flags.NONE.
Definition VOID : ArgDesc := mk_arg TypeKind.Void ValidityDomain.Static arg_flags.NONE.

Definition has (a : ArgDesc) (f : ArgFlags) : bool := arg_flags.contains a.(a_flags) f.

(** Whether a value of this type is acquired when returned and released when
    passed. *)
Definition consumes_in_arg_position (a : ArgDesc) : bool :=
  match a.(a_kind) with
  | TypeKind.Ptr PtrKind.LockGuard _ => true
  | TypeKind.Ptr (PtrKind.Object | PtrKind.Mem) _ => ValidityDomain.requires_release a.(a_domain)
  | _ => false
  end.
End arg_desc.

Module Context.
Inductive Context : Type := Atomic | Sleepable.

#[global] Instance eq_dec : EqDecision Context.
Proof. solve_decision. Defined.

Definition permits (self required : Context) : bool :=
  match self, required with
  | Sleepable, _ | Atomic, Atomic => true
  | Atomic, Sleepable => false
  end.
End Context.
Abbreviation Context := Context.Context.

Record KfuncDesc : Type := mk_kfunc {
  k_id : Z;
  k_name : string;
  k_addr : Z;
  k_args : list ArgDesc;
  k_ret : ArgDesc;
  may_suspend : bool;
  k_context : Context
}.

Definition MAX_KFUNC_ARGS : nat := 5.

Module KfuncError.
Inductive KfuncError : Type :=
| TooManyArgs (n : nat)
| NullAddress
| SuspendingAtomicShim
| MissingSizeArg (i : nat)
| ScalarWithDomain (i : nat)
| ConstOnNonScalar (i : nat)
| AnyTraceObjectOnWrongType (i : nat)
| FieldOffsetOnWrongType (i : nat)
| UnpairedTraceObject (i : nat)
| UnpairedFieldOffset (i : nat)
| VoidArgument (i : nat)
| SleepableLockGuard
| UntypedLockGuard
| NonNullableLockGuard
| TraceObjectReturn
| SleepableLockGuardArg (i : nat)
| UntypedLockGuardArg (i : nat)
| BadScalarWidth (at_ : Z) (bits : Z)
| AcquiredMemWithoutConstSize.
End KfuncError.
Abbreviation KfuncError := KfuncError.KfuncError.

Module kfunc.
(** The width check; [at] is [usize::MAX] for a return. *)
Definition validate_type (a : ArgDesc) (at_ : Z) : Result unit KfuncError :=
  match a.(a_kind) with
  | TypeKind.Scalar bits _ =>
      if (bits =? 8) || (bits =? 16) || (bits =? 32) || (bits =? 64) then Ok tt
      else Err (KfuncError.BadScalarWidth at_ bits)
  | _ => Ok tt
  end.

(** [if c { return Err(e) }] followed by [k]. *)
Definition reject {A} (c : bool) (e : KfuncError) (k : Result A KfuncError) : Result A KfuncError :=
  if c then Err e else k.

(** One iteration over the arguments; [next] is the argument that follows. *)
Definition validate_arg (a : ArgDesc) (i : nat) (next : option ArgDesc) : Result unit KfuncError :=
  let? _ := validate_type a (Z.of_nat i) in
  reject (arg_desc.has a arg_flags.SIZED_BY_NEXT &&
          negb (match next with Some n => TypeKind.is_scalar n.(a_kind) | None => false end))
    (KfuncError.MissingSizeArg i)
  (reject (TypeKind.is_scalar a.(a_kind) && bool_decide (a.(a_domain) <> ValidityDomain.Static))
    (KfuncError.ScalarWithDomain i)
  (reject (match a.(a_kind) with TypeKind.Void => true | _ => false end) (KfuncError.VoidArgument i)
  (reject (TypeKind.is_untyped PtrKind.LockGuard a.(a_kind)) (KfuncError.UntypedLockGuardArg i)
  (reject (arg_desc.has a arg_flags.CONST && negb (TypeKind.is_scalar a.(a_kind))) (KfuncError.ConstOnNonScalar i)
  (reject (arg_desc.has a arg_flags.ANY_TRACE_OBJECT && negb (TypeKind.is_untyped PtrKind.TraceObject a.(a_kind)))
    (KfuncError.AnyTraceObjectOnWrongType i)
  (reject (arg_desc.has a arg_flags.OBJECT_FIELD_OFFSET &&
           (negb (arg_desc.has a arg_flags.CONST) || negb (TypeKind.is_scalar a.(a_kind))))
    (KfuncError.FieldOffsetOnWrongType i)
  (reject (TypeKind.is_ptr PtrKind.LockGuard a.(a_kind) && ValidityDomain.survives_await a.(a_domain))
    (KfuncError.SleepableLockGuardArg i)
  (Ok tt)))))))).

Fixpoint validate_args (i : nat) (args : list ArgDesc) : Result unit KfuncError :=
  match args with
  | [] => Ok tt
  | a :: args =>
      let? _ := validate_arg a i (head args) in
      validate_args (S i) args
  end.

(** How many arguments carry a flag. *)
Definition count (f : ArgFlags) (args : list ArgDesc) : nat :=
  length (filter (fun a => arg_desc.has a f = true) args).

(** Every generic trace object is followed by exactly one field offset. *)
Fixpoint pair_objects (i : nat) (args : list ArgDesc) : Result unit KfuncError :=
  match args with
  | [] => Ok tt
  | a :: args =>
      reject (arg_desc.has a arg_flags.ANY_TRACE_OBJECT &&
              negb (count arg_flags.OBJECT_FIELD_OFFSET args =? 1)%nat) (KfuncError.UnpairedTraceObject i)
      (pair_objects (S i) args)
  end.

(** Every field offset follows exactly one generic trace object and one sized
    region. *)
Fixpoint pair_fields (before args : list ArgDesc) : Result unit KfuncError :=
  match args with
  | [] => Ok tt
  | a :: args =>
      reject (arg_desc.has a arg_flags.OBJECT_FIELD_OFFSET &&
              (negb (count arg_flags.ANY_TRACE_OBJECT before =? 1)%nat ||
               negb (count arg_flags.SIZED_BY_NEXT before =? 1)%nat))
        (KfuncError.UnpairedFieldOffset (length before))
      (pair_fields (before ++ [a]) args)
  end.

Definition validate (d : KfuncDesc) : Result unit KfuncError :=
  let ret := d.(k_ret) in
  let is_guard := TypeKind.is_ptr PtrKind.LockGuard ret.(a_kind) in
  reject (MAX_KFUNC_ARGS <? length d.(k_args))%nat (KfuncError.TooManyArgs (length d.(k_args)))
  (reject (d.(k_addr) =? 0) KfuncError.NullAddress
  (reject (d.(may_suspend) && bool_decide (d.(k_context) <> Context.Sleepable)) KfuncError.SuspendingAtomicShim
  (let? _ := validate_type ret U64_MAX in
  reject (TypeKind.is_ptr PtrKind.TraceObject ret.(a_kind)) KfuncError.TraceObjectReturn
  (reject (TypeKind.is_untyped PtrKind.LockGuard ret.(a_kind)) KfuncError.UntypedLockGuard
  (reject (is_guard && negb (arg_desc.has ret arg_flags.NULLABLE)) KfuncError.NonNullableLockGuard
  (let? _ := validate_args 0 d.(k_args) in
   let? _ := pair_objects 0 d.(k_args) in
   let? _ := pair_fields [] d.(k_args) in
  reject (is_guard && ValidityDomain.survives_await ret.(a_domain)) KfuncError.SleepableLockGuard
  (reject (TypeKind.is_ptr PtrKind.Mem ret.(a_kind) && arg_desc.consumes_in_arg_position ret &&
           negb (count arg_flags.CONST d.(k_args) =? 1)%nat) KfuncError.AcquiredMemWithoutConstSize
  (Ok tt)))))))).
End kfunc.
