(* ===== verification/BpfIr.v ===== *)
(** The intermediate form of the BPF verifier ([bpf/verifier/src/ir.rs]):
    decoding into instructions, resolved control flow, basic blocks and
    subprograms, and the registers each instruction reads and writes.

    Slots, instruction and block indices are natural numbers.  A program has
    at most [MAX_INSNS] = 2^16 slots when it is loaded ([bpf/src/prog.rs]), so
    the source's casts to [u32] keep every index and the sentinel [NONE] is
    never one of them: it is [None] here.  An [option] around a [Result] is a
    panic (an index out of range).

    [build_cfg] is [Ir::build] up to its fifth pass.  The later passes, which
    fill the traversal order, the dominators, the back edges and the component
    numbers and mark widening points, are in [BpfDom] and [BpfWiden]. *)

From Stdlib Require Import String.
From stdpp Require Import sorting.
From S2P Require Import Prelude Word BpfOpcode BpfInsn BpfKfunc.

Record IrInsn : Type := mk_ir_insn { ir_op : Decoded; ir_slot : nat; ir_width : nat }.

Definition next_slot (i : IrInsn) : nat := (i.(ir_slot) + i.(ir_width))%nat.

Record Block : Type := mk_block {
  b_start : nat;
  b_end : nat;
  b_succs : list nat;
  b_preds : list nat;
  b_subprog : option nat;
  b_idom : option nat;
  b_rpo : option nat;
  b_scc : option nat;
  widen_here : bool
}.

Record Subprog : Type := mk_subprog {
  entry_slot : nat;
  entry_block : nat;
  sp_rpo : list nat;
  callees : list nat
}.

Record Ir : Type := mk_ir {
  insns : list IrInsn;
  ir_of_slot : list (option nat);
  blocks : list Block;
  block_of : list (option nat);
  subprogs : list Subprog;
  back_edges : list (nat * nat);
  thresholds : list Z
}.

(** Why verification fails; [build] returns the decoding errors and those
    about control flow. *)
Module VerifyError.
Inductive VerifyError : Type :=
| Decode (at_ : nat) (err : DecodeError)
| Empty
| FallsOffEnd (at_ : nat)
| BadTarget (at_ : nat) (target : Z)
| BadCtxField (field : nat) (err : KfuncError)
| BadObjectDescriptor (object : nat)
| CrossSubprogEdge (at_ target : nat)
| UninitRegister (at_ : nat) (reg : Z)
| WriteToFramePointer (at_ : nat)
| OutOfBounds (at_ : nat)
| UnknownKfunc (at_ : nat) (id : Z)
| KfuncSignature (at_ arg : nat) (expected : ArgDesc)
| ContextMismatch (at_ : nat) (required actual : Context)
| PointerCrossesAwait (at_ : nat) (reg : Z) (domain : ValidityDomain)
| LeakedReference (at_ : nat) (reg : Z)
| ReleaseOfUnacquired (at_ : nat) (reg : Z)
| TooManyLocks (at_ : nat)
| NotAPointer (at_ : nat) (reg : Z)
| PointerArithmetic (at_ : nat) (reg : Z)
| PossiblyNull (at_ : nat) (reg : Z)
| WriteToReadOnly (at_ : nat)
| UninitStack (at_ : nat) (off : Z)
| Recursion (at_ : nat)
| StackTooDeep (needed limit : Z)
| CallDepth (needed limit : Z)
| Kfunc (err : KfuncError)
| OpaqueDeref (at_ : nat) (reg : Z)
| TypedFieldMismatch (at_ : nat) (reg : Z)
| ArenaOutOfWindow (at_ : nat) (reg : Z)
| FixpointDiverged (subprog : nat) (rounds : Z)
| UnknownMap (at_ : nat) (fd : Z)
| MapValueOffset (at_ : nat) (off size : Z)
| BadAddrSpaceCast (at_ : nat) (dst_as src_as : Z)
| NotImplemented (what : string).
End VerifyError.
Abbreviation VerifyError := VerifyError.VerifyError.

Module ir.
(** ** Pass 1: decode *)

(** The loop; every iteration consumes at least one slot. *)
Fixpoint decode_pass (fuel : nat) (prog : list Insn) (slot : nat) (ir : list IrInsn)
    (ios : list (option nat)) : option (Result (list IrInsn * list (option nat) * nat) VerifyError) :=
  match fuel with
  | O => Some (Ok (ir, ios, slot))
  | S fuel =>
      if (slot <? length prog)%nat then
        let* d := decode prog slot in
        match d with
        | Err err => Some (Err (VerifyError.Decode slot err))
        | Ok (op, width) =>
            decode_pass fuel prog (slot + width) (ir ++ [mk_ir_insn op slot width])
              (<[slot := Some (length ir)]> ios)
        end
      else Some (Ok (ir, ios, slot))
  end.

(** ** Pass 2: control flow, in slots *)

Section Resolve.
Context (len : nat) (ios : list (option nat)).

(** The closures [branch] and [fallthrough]. *)
Definition branch (insn : IrInsn) (off : Z) : Result nat VerifyError :=
  let t := Z.of_nat (next_slot insn) + off in
  if (t <? 0) || (Z.of_nat len <=? t) || bool_decide (ios !! Z.to_nat t = Some None)
  then Err (VerifyError.BadTarget insn.(ir_slot) t)
  else Ok (Z.to_nat t).

Definition fallthrough (insn : IrInsn) : Result nat VerifyError :=
  if (len <=? next_slot insn)%nat then Err (VerifyError.FallsOffEnd insn.(ir_slot))
  else Ok (next_slot insn).

(** The constants of the instructions in the last arm. *)
Definition threshold (op : Decoded) : list Z :=
  match op with
  | Decoded.Alu _ _ _ (Source.Imm imm) | Decoded.Mov _ _ (Source.Imm imm) _ => [imm]
  | Decoded.LoadImm64 _ (Imm64.Value v) => [as_i64 v]
  | _ => []
  end.

(** One iteration: the successors, the subprogram entries and the thresholds
    it pushes. *)
Definition resolve (insn : IrInsn) : Result (list nat * list nat * list Z) VerifyError :=
  match insn.(ir_op) with
  | Decoded.Exit => Ok ([], [], [])
  | Decoded.Jump off =>
      let? t := branch insn off in
      Ok ([t], [], [])
  | Decoded.JumpCond _ _ _ src off =>
      let? t := branch insn off in
      let? f := fallthrough insn in
      Ok ([t; f], [], match src with Source.Imm imm => [imm] | Source.Reg _ => [] end)
  | Decoded.MayGoto off =>
      let? t := branch insn off in
      let? f := fallthrough insn in
      Ok ([t; f], [], [])
  | Decoded.Call (CallTarget.Subprog off) | Decoded.LoadImm64 _ (Imm64.SubprogAddr off) =>
      let? entry := branch insn off in
      let? f := fallthrough insn in
      Ok ([f], [entry], [])
  | op =>
      let? f := fallthrough insn in
      Ok ([f], [], threshold op)
  end.

Fixpoint resolve_all (l : list IrInsn) : Result (list (list nat) * list nat * list Z) VerifyError :=
  match l with
  | [] => Ok ([], [], [])
  | insn :: l =>
      let? (succs, entries, ths) := resolve insn in
      let? (succs', entries', ths') := resolve_all l in
      Ok (succs :: succs', entries ++ entries', ths ++ ths')
  end.
End Resolve.

(** [Vec::dedup]: of equal neighbours one stays. *)
Fixpoint dedup {A} `{EqDecision A} (l : list A) : list A :=
  match l with
  | x :: l' =>
      match l' with
      | y :: _ => if decide (x = y) then dedup l' else x :: dedup l'
      | [] => [x]
      end
  | [] => []
  end.

(** [sort_unstable] on numbers: equal ones cannot be told apart. *)
Definition sort_nat (l : list nat) : list nat := merge_sort Nat.le l.

Definition sort_Z (l : list Z) : list Z := merge_sort Z.le l.

(** ** Pass 2b: edges stay in their subprogram *)

(** [partition_point(|&e| e <= slot)] on a sorted list. *)
Fixpoint partition_point (entries : list nat) (slot : nat) : nat :=
  match entries with
  | e :: l => if (e <=? slot)%nat then S (partition_point l slot) else O
  | [] => O
  end.

Definition enclosing (entries : list nat) (len slot : nat) : option (nat * nat) :=
  match partition_point entries slot with
  | O => None
  | S idx =>
      let* lo := entries !! idx in
      Some (lo, default len (entries !! S idx))
  end.

Fixpoint confine_succs (at_ lo hi : nat) (succs : list nat) : Result unit VerifyError :=
  match succs with
  | [] => Ok tt
  | t :: succs =>
      if (t <? lo)%nat || (hi <=? t)%nat then Err (VerifyError.CrossSubprogEdge at_ t)
      else confine_succs at_ lo hi succs
  end.

Fixpoint confine (entries : list nat) (len : nat) (l : list (IrInsn * list nat))
    : option (Result unit VerifyError) :=
  match l with
  | [] => Some (Ok tt)
  | (insn, succs) :: l =>
      let* (lo, hi) := enclosing entries len insn.(ir_slot) in
      match confine_succs insn.(ir_slot) lo hi succs with
      | Err e => Some (Err e)
      | Ok _ => confine entries len l
      end
  end.

(** ** Pass 3: leaders *)

(** [ir_of_slot[s] as usize]; the sentinel is no index. *)
Definition index_of (ios : list (option nat)) (s : nat) : option nat :=
  let* o := ios !! s in o.

Definition set_leader (leaders : list bool) (i : nat) : option (list bool) :=
  let* _ := leaders !! i in
  Some (<[i := true]> leaders).

Fixpoint lead_slots (ios : list (option nat)) (slots : list nat) (leaders : list bool)
    : option (list bool) :=
  match slots with
  | [] => Some leaders
  | s :: slots =>
      let* i := index_of ios s in
      let* leaders := set_leader leaders i in
      lead_slots ios slots leaders
  end.

Definition straight_line (insn : IrInsn) (succs : list nat) : bool :=
  bool_decide (succs = [next_slot insn]).

Fixpoint lead_flow (ios : list (option nat)) (n i : nat) (l : list (IrInsn * list nat))
    (leaders : list bool) : option (list bool) :=
  match l with
  | [] => Some leaders
  | (insn, succs) :: l =>
      if straight_line insn succs then lead_flow ios n (S i) l leaders
      else
        let leaders := if (S i <? n)%nat then <[S i := true]> leaders else leaders in
        let* leaders := lead_slots ios succs leaders in
        lead_flow ios n (S i) l leaders
  end.

(** ** Pass 4: blocks *)

Definition set_end (b : Block) (e : nat) : Block :=
  mk_block b.(b_start) e b.(b_succs) b.(b_preds) b.(b_subprog) b.(b_idom) b.(b_rpo) b.(b_scc) b.(widen_here).

(** [blocks.last_mut()]. *)
Fixpoint close_last (bs : list Block) (e : nat) : list Block :=
  match bs with
  | [] => []
  | [b] => [set_end b e]
  | b :: bs => b :: close_last bs e
  end.

(** The loop over [leaders], the flags from index [i] on. *)
Fixpoint make_blocks (n i : nat) (leaders : list bool) (bs : list Block) (bo : list (option nat))
    : list Block * list (option nat) :=
  match leaders with
  | [] => (bs, bo)
  | l :: leaders =>
      let bs := if l then close_last bs i ++ [mk_block i n [] [] None None None None false] else bs in
      make_blocks n (S i) leaders bs (bo ++ [Some (length bs - 1)%nat])
  end.

Definition set_succs (b : Block) (l : list nat) : Block :=
  mk_block b.(b_start) b.(b_end) l b.(b_preds) b.(b_subprog) b.(b_idom) b.(b_rpo) b.(b_scc) b.(widen_here).

Definition add_pred (b : Block) (p : nat) : Block :=
  mk_block b.(b_start) b.(b_end) b.(b_succs) (b.(b_preds) ++ [p]) b.(b_subprog) b.(b_idom) b.(b_rpo) b.(b_scc) b.(widen_here).

(** [f(&mut v[i])]; [None] out of range. *)
Definition modify {A} (l : list A) (i : nat) (f : A -> A) : option (list A) :=
  let* x := l !! i in
  Some (<[i := f x]> l).

Fixpoint add_preds (bi : nat) (succs : list nat) (bs : list Block) : option (list Block) :=
  match succs with
  | [] => Some bs
  | s :: succs =>
      let* bs := modify bs s (fun b => add_pred b bi) in
      add_preds bi succs bs
  end.

(** The successors of block [bi], with the predecessors they gain. *)
Definition link_block (ios : list (option nat)) (bo : list (option nat)) (succ_slots : list (list nat))
    (bs : list Block) (bi : nat) : option (list Block) :=
  let* b := bs !! bi in
  let* slots := succ_slots !! (b.(b_end) - 1)%nat in
  let* succs := mapM (fun s => let* i := index_of ios s in index_of bo i) slots in
  let* bs := add_preds bi succs bs in
  modify bs bi (fun b => set_succs b succs).

Fixpoint link_blocks (ios bo : list (option nat)) (succ_slots : list (list nat)) (bis : list nat)
    (bs : list Block) : option (list Block) :=
  match bis with
  | [] => Some bs
  | bi :: bis =>
      let* bs := link_block ios bo succ_slots bs bi in
      link_blocks ios bo succ_slots bis bs
  end.

Definition dedup_block (b : Block) : Block :=
  mk_block b.(b_start) b.(b_end) (dedup b.(b_succs)) (dedup (sort_nat b.(b_preds)))
    b.(b_subprog) b.(b_idom) b.(b_rpo) b.(b_scc) b.(widen_here).

(** ** Pass 5: subprograms *)

Definition set_subprog (b : Block) (si : nat) : Block :=
  mk_block b.(b_start) b.(b_end) b.(b_succs) b.(b_preds) (Some si) b.(b_idom) b.(b_rpo) b.(b_scc) b.(widen_here).

Definition make_subprog (ios bo : list (option nat)) (entry : nat) : option Subprog :=
  let* i := index_of ios entry in
  let* b := index_of bo i in
  Some (mk_subprog entry b [] []).

(** [blocks[block_of[i]].subprog = si] for the indices of one subprogram. *)
Fixpoint label_range (bo : list (option nat)) (si : nat) (ixs : list nat) (bs : list Block)
    : option (list Block) :=
  match ixs with
  | [] => Some bs
  | i :: ixs =>
      let* b := index_of bo i in
      let* bs := modify bs b (fun b => set_subprog b si) in
      label_range bo si ixs bs
  end.

Fixpoint label_subprogs (ios bo : list (option nat)) (n si : nat) (entries : list nat) (bs : list Block)
    : option (list Block) :=
  match entries with
  | [] => Some bs
  | e :: entries =>
      let* lo := index_of ios e in
      let* hi := match entries with [] => Some n | e' :: _ => index_of ios e' end in
      let* bs := label_range bo si (seq lo (hi - lo)) bs in
      label_subprogs ios bo n (S si) entries bs
  end.

(** [binary_search(&target).unwrap_or(0)]. *)
Definition search (entries : list nat) (target : nat) : nat :=
  default O (fst <$> list_find (fun e => e = target) entries).

Definition add_callee (sp : Subprog) (c : nat) : Subprog :=
  mk_subprog sp.(entry_slot) sp.(entry_block) sp.(sp_rpo) (sp.(callees) ++ [c]).

(** The call graph, over the instructions from index [i] on. *)
Fixpoint call_graph (bo : list (option nat)) (bs : list Block) (entries : list nat) (i : nat)
    (l : list IrInsn) (sps : list Subprog) : option (list Subprog) :=
  match l with
  | [] => Some sps
  | insn :: l =>
      match insn.(ir_op) with
      | Decoded.Call (CallTarget.Subprog off) =>
          let callee := search entries (Z.to_nat (Z.of_nat (next_slot insn) + off)) in
          let* b := index_of bo i in
          let* blk := bs !! b in
          let* caller := blk.(b_subprog) in
          let* sps := modify sps caller (fun sp => add_callee sp callee) in
          call_graph bo bs entries (S i) l sps
      | _ => call_graph bo bs entries (S i) l sps
      end
  end.

Definition dedup_subprog (sp : Subprog) : Subprog :=
  mk_subprog sp.(entry_slot) sp.(entry_block) sp.(sp_rpo) (dedup (sort_nat sp.(callees))).

(** ** The passes together *)

Definition build_blocks (prog : list Insn) (l : list IrInsn) (ios : list (option nat))
    (succ_slots : list (list nat)) (entries : list nat) : option (list Block * list (option nat)) :=
  let n := length l in
  let* leaders := lead_slots ios entries (<[0%nat := true]> (replicate n false)) in
  let* leaders := lead_flow ios n 0 (zip l succ_slots) leaders in
  let '(bs, bo) := make_blocks n 0 leaders [] [] in
  let* bs := link_blocks ios bo succ_slots (seq 0 (length bs)) bs in
  Some (dedup_block <$> bs, bo).

Definition build_cfg (prog : list Insn) : option (Result Ir VerifyError) :=
  if bool_decide (prog = []) then Some (Err VerifyError.Empty)
  else
    let* d := decode_pass (length prog) prog 0 [] (replicate (length prog) None) in
    match d with
    | Err e => Some (Err e)
    | Ok (l, ios, slot) =>
        if negb (slot =? length prog)%nat
        then Some (Err (VerifyError.Decode (length prog - 1) TruncatedImm64))
        else
          match resolve_all (length prog) ios l with
          | Err e => Some (Err e)
          | Ok (succ_slots, entries, ths) =>
              let entries := dedup (sort_nat (0%nat :: entries)) in
              let* c := confine entries (length prog) (zip l succ_slots) in
              match c with
              | Err e => Some (Err e)
              | Ok _ =>
                  let* (bs, bo) := build_blocks prog l ios succ_slots entries in
                  let* sps := mapM (make_subprog ios bo) entries in
                  let* bs := label_subprogs ios bo (length l) 0 entries bs in
                  let* sps := call_graph bo bs entries 0 l sps in
                  let ths := dedup (sort_Z (ths ++ [0; -1; - 2 ^ 31; 2 ^ 31 - 1; 2 ^ 32 - 1])) in
                  Some (Ok (mk_ir l ios bs bo (dedup_subprog <$> sps) [] ths))
              end
          end
    end.
End ir.

(** * Reads and writes *)

Record DefUse : Type := mk_def_use { defs : Z; uses : Z; address : bool; condition : bool }.

Module def_use.
Definition new : DefUse := mk_def_use 0 0 false false.

Definition def (d : DefUse) (r : Reg) : DefUse :=
  mk_def_use (Z.lor d.(defs) (wshl 16 1 r.(reg_index))) d.(uses) d.(address) d.(condition).

Definition use_ (d : DefUse) (r : Reg) : DefUse :=
  mk_def_use d.(defs) (Z.lor d.(uses) (wshl 16 1 r.(reg_index))) d.(address) d.(condition).

Definition use_src (d : DefUse) (s : Source) : DefUse :=
  match s with Source.Reg r => use_ d r | Source.Imm _ => d end.

Definition set_address (d : DefUse) : DefUse := mk_def_use d.(defs) d.(uses) true d.(condition).

Definition set_condition (d : DefUse) : DefUse := mk_def_use d.(defs) d.(uses) d.(address) true.

(** [Ir::defs]. *)
Definition of_op (op : Decoded) : DefUse :=
  let d := new in
  match op with
  | Decoded.Alu _ _ dst src | Decoded.Div _ _ dst src | Decoded.Mod _ _ dst src =>
      use_src (use_ (def d dst) dst) src
  | Decoded.Neg _ dst | Decoded.End_ dst _ _ => use_ (def d dst) dst
  | Decoded.Mov _ dst src _ => use_src (def d dst) src
  | Decoded.AddrSpaceCast dst src _ _ => use_ (def d dst) src
  | Decoded.Load _ _ dst src _ => set_address (use_ (def d dst) src)
  | Decoded.Store _ dst _ src => set_address (use_src (use_ d dst) src)
  | Decoded.Atomic _ op dst src _ =>
      let d := set_address (use_ (use_ d dst) src) in
      let d := if writes_src op then def d src else d in
      match op with AtomicOp.Cmpxchg => def (use_ d R0) R0 | _ => d end
  | Decoded.LoadImm64 dst _ => def d dst
  | Decoded.JumpCond _ _ dst src _ => set_condition (use_src (use_ d dst) src)
  | Decoded.Jump _ | Decoded.MayGoto _ => d
  | Decoded.Call _ =>
      let d := foldl (fun d r => use_ d (mk_reg r)) d [1; 2; 3; 4; 5] in
      foldl (fun d r => def d (mk_reg r)) d [0; 1; 2; 3; 4; 5]
  | Decoded.Exit => use_ d R0
  end.
End def_use.
