(* ===== verification/BpfLiveness.v ===== *)
(** Liveness and precision of registers ([bpf/verifier/src/liveness.rs]): two
    instances of one backward dataflow over the graph of [BpfIr], which
    terminates with the least solution of its equations.

    Register sets are 16-bit masks.  [None] is an index out of range. *)

From S2P Require Import Prelude Word BpfOpcode BpfInsn BpfIr.

Record Masks : Type := mk_masks { before : list Z; after : list Z }.

Module liveness.
Definition before_has (m : Masks) (i : nat) (r : Z) : option bool :=
  let* x := m.(before) !! i in
  Some (negb (Z.land x (wshl 16 1 r) =? 0)).

Definition after_has (m : Masks) (i : nat) (r : Z) : option bool :=
  let* x := m.(after) !! i in
  Some (negb (Z.land x (wshl 16 1 r) =? 0)).

Definition successors (ir : Ir) (i : nat) : option (list nat) :=
  let* bi := ir.index_of ir.(block_of) i in
  let* b := ir.(blocks) !! bi in
  if (S i <? b.(b_end))%nat then Some [S i]
  else mapM (fun s => b_start <$> ir.(blocks) !! s) b.(b_succs).

(** The union of [before] over the successors. *)
Fixpoint union (before : list Z) (ss : list nat) (out : Z) : option Z :=
  match ss with
  | [] => Some out
  | s :: ss =>
      let* b := before !! s in
      union before ss (Z.lor out b)
  end.

(** The new [before] of an instruction, from its [after]. *)
Definition transfer (du : DefUse) (seed : bool) (out : Z) : Z :=
  let new_before := Z.land out (wnot 16 du.(defs)) in
  if seed || negb (Z.land du.(defs) out =? 0) then Z.lor new_before du.(uses) else new_before.

(** One iteration of the inner loop; the flag is [changed]. *)
Definition visit (ir : Ir) (seed : nat -> bool) (i : nat) (st : Masks * bool) : option (Masks * bool) :=
  let '(m, changed) := st in
  let* ss := successors ir i in
  let* out := union m.(before) ss 0 in
  let* insn := ir.(insns) !! i in
  let new_before := transfer (def_use.of_op insn.(ir_op)) (seed i) out in
  let* old_after := m.(after) !! i in
  let* old_before := m.(before) !! i in
  if negb (out =? old_after) || negb (new_before =? old_before)
  then Some (mk_masks (<[i := new_before]> m.(before)) (<[i := out]> m.(after)), true)
  else Some (m, changed).

(** The inner loop, over the indices below [n] from the top. *)
Fixpoint sweep (ir : Ir) (seed : nat -> bool) (n : nat) (st : Masks * bool) : option (Masks * bool) :=
  match n with
  | O => Some st
  | S i =>
      let* st := visit ir seed i st in
      sweep ir seed i st
  end.

(** The outer loop: sweeps until one changes nothing. *)
Fixpoint rounds (fuel : nat) (ir : Ir) (seed : nat -> bool) (m : Masks) : option Masks :=
  match fuel with
  | O => None
  | S fuel =>
      let* (m, changed) := sweep ir seed (length ir.(insns)) (m, false) in
      if changed : bool then rounds fuel ir seed m else Some m
  end.

(** Every round but the last adds one of 16 bits to one of [2 n] masks. *)
Definition backward (ir : Ir) (seed : nat -> bool) : option Masks :=
  let n := length ir.(insns) in
  rounds (S (32 * n)) ir seed (mk_masks (replicate n 0) (replicate n 0)).

Definition liveness (ir : Ir) : option Masks := backward ir (fun _ => true).

Definition seeds (ir : Ir) (i : nat) : bool :=
  match ir.(insns) !! i with
  | Some insn =>
      let du := def_use.of_op insn.(ir_op) in
      du.(address) || du.(condition) || match insn.(ir_op) with Decoded.Call _ => true | _ => false end
  | None => false
  end.

Definition precision (ir : Ir) : option Masks := backward ir (seeds ir).
End liveness.

Import ir liveness.

(** * Masks as sets of bits *)

Definition sub (x y : Z) : Prop := forall k, 0 <= k -> Z.testbit x k = true -> Z.testbit y k = true.

#[export] Instance sub_preorder : PreOrder sub.
Proof. split; [by intros x k |]. intros x y z H1 H2 k Hk Hx. auto. Qed.

Lemma sub_lor_l x y : sub x (Z.lor x y).
Proof. intros k Hk Hx. by rewrite Z.lor_spec, Hx. Qed.

Lemma sub_antisym x y : sub x y -> sub y x -> x = y.
Proof.
  intros H1 H2. apply Z.bits_inj'. intros k Hk.
  destruct (Z.testbit x k) eqn:Ex; [by rewrite (H1 k Hk Ex) |].
  destruct (Z.testbit y k) eqn:Ey; [| done]. by rewrite (H2 k Hk Ey) in Ex.
Qed.

Lemma land_nonzero_mono d x y : sub x y -> Z.land d x <> 0 -> Z.land d y <> 0.
Proof.
  intros H N E. apply N. apply Z.bits_inj'. intros k Hk. rewrite Z.bits_0, Z.land_spec.
  destruct (Z.testbit x k) eqn:Ex; [| by rewrite andb_false_r].
  apply (f_equal (fun z => Z.testbit z k)) in E. rewrite Z.land_spec, Z.bits_0, (H k Hk Ex) in E. by rewrite E.
Qed.

Lemma transfer_mono du s x y : sub x y -> sub (transfer du s x) (transfer du s y).
Proof.
  intros H k Hk. unfold transfer.
  assert (C : s || negb (Z.land (defs du) x =? 0) = true -> s || negb (Z.land (defs du) y =? 0) = true).
  { destruct s; [done |]. simpl. rewrite !negb_true_iff, !Z.eqb_neq. by apply land_nonzero_mono. }
  destruct (s || negb (Z.land (defs du) x =? 0)); [rewrite C by done | destruct (s || _)];
    rewrite ?Z.lor_spec, ?Z.land_spec; intros E; repeat (apply orb_true_iff in E as [E | E]);
    try (apply andb_true_iff in E as [E1 E2]; rewrite (H k Hk E1), E2; done); by rewrite E, orb_true_r.
Qed.

(** The number of bits of a 16-bit mask. *)
Definition weight (x : Z) : nat := length (filter (fun k => Z.testbit x k = true) (seqZ 0 16)).

Lemma filter_length_mono {A} (P Q : A -> Prop) `{!forall x, Decision (P x), !forall x, Decision (Q x)} l :
  (forall x, x ∈ l -> P x -> Q x) ->
  (length (filter P l) <= length (filter Q l))%nat /\
  ((exists x, x ∈ l /\ Q x /\ ~ P x) -> (length (filter P l) < length (filter Q l))%nat).
Proof.
  induction l as [| y l IH]; intros HPQ; [split; [done |]; intros (x & ?%not_elem_of_nil & _); done |].
  destruct IH as [IH1 IH2]; [intros x Hx; apply HPQ; by right |]. rewrite !filter_cons.
  pose proof (HPQ y ltac:(by left)) as Hy. split.
  - repeat case_decide; simpl; try lia; tauto.
  - intros (x & [-> | Hx]%elem_of_cons & HQ & HP).
    + repeat case_decide; simpl; try lia; tauto.
    + pose proof (IH2 (ex_intro _ x (conj Hx (conj HQ HP)))). repeat case_decide; simpl; try lia; tauto.
Qed.

Lemma weight_mono x y : sub x y -> (weight x <= weight y)%nat.
Proof. intros H. apply filter_length_mono. intros k [Hk _]%elem_of_seqZ. by apply H. Qed.

Lemma weight_strict x y : is_u 16 x -> is_u 16 y -> sub x y -> x <> y -> (weight x < weight y)%nat.
Proof.
  intros Hx Hy H N. apply filter_length_mono; [intros k [Hk _]%elem_of_seqZ; by apply H |].
  destruct (decide (Exists (fun k => Z.testbit y k = true /\ ~ Z.testbit x k = true) (seqZ 0 16))) as [E | E].
  { apply Exists_exists in E as (k & Hk & E). exists k. tauto. }
  exfalso. apply N, sub_antisym; [done |]. intros k Hk Ey. destruct (decide (k < 16)) as [L | L].
  - destruct (Z.testbit x k) eqn:Ex; [done |]. exfalso. apply E, Exists_exists. exists k.
    split; [apply elem_of_seqZ; lia | rewrite Ex; done].
  - rewrite (testbit_high 16 y) in Ey by (auto; lia). done.
Qed.

Lemma weight_bound x : (weight x <= 16)%nat.
Proof. unfold weight. etransitivity; [apply length_filter |]. by rewrite length_seqZ. Qed.

Fixpoint total (l : list Z) : nat :=
  match l with
  | [] => 0
  | x :: l => weight x + total l
  end.

Lemma total_insert l i x y : l !! i = Some y -> (total (<[i := x]> l) + weight y = total l + weight x)%nat.
Proof.
  revert i. induction l as [| z l IH]; intros [| i] H; try done.
  - injection H as ->. change (total (x :: l) + weight y = total (y :: l) + weight x)%nat. cbn [total]. lia.
  - specialize (IH i H). change (total (z :: <[i := x]> l) + weight y = total (z :: l) + weight x)%nat.
    cbn [total]. lia.
Qed.

Lemma total_bound l : (total l <= 16 * length l)%nat.
Proof. induction l as [| x l IH]; cbn [total length]; [lia |]. pose proof (weight_bound x). lia. Qed.

(** * The dataflow *)

Section Dataflow.
Context (ir : Ir) (seed : nat -> bool).
#[local] Abbreviation n := (length ir.(insns)).
Context (Hsucc : forall i, (i < n)%nat -> exists ss, successors ir i = Some ss /\ Forall (fun j => j < n)%nat ss).
Context (Hmask : forall i x, ir.(insns) !! i = Some x -> is_u 16 (def_use.of_op x.(ir_op)).(uses)).

(** The right-hand sides of the equations of instruction [i]. *)
Definition flow (m : Masks) (i : nat) : option (Z * Z) :=
  let* ss := successors ir i in
  let* out := union m.(before) ss 0 in
  let* insn := ir.(insns) !! i in
  Some (out, transfer (def_use.of_op insn.(ir_op)) (seed i) out).

Record wf (m : Masks) : Prop := {
  wf_before : length m.(before) = n;
  wf_after : length m.(after) = n;
  wf_before_u : Forall (is_u 16) m.(before);
  wf_after_u : Forall (is_u 16) m.(after)
}.

Definition mle (m m' : Masks) : Prop := Forall2 sub m.(before) m'.(before) /\ Forall2 sub m.(after) m'.(after).

#[local] Instance mle_preorder : PreOrder mle.
Proof using Type.
  split; [by intros m; split |]. intros a b c [? ?] [? ?]. split; by etransitivity.
Qed.

Lemma union_spec bs ss out :
  Forall (is_u 16) bs -> Forall (fun j => j < length bs)%nat ss -> is_u 16 out ->
  exists o, union bs ss out = Some o /\ is_u 16 o.
Proof using Type.
  intros Hb Hs. revert out. induction Hs as [| s ss Ls _ IH]; intros out Ho; simpl; [by exists out |].
  destruct (lookup_lt_is_Some_2 bs s Ls) as [b E]. rewrite E. apply IH. apply lor_range; [lia | done |].
  by apply (Forall_lookup_1 _ _ _ _ Hb E).
Qed.

Lemma union_mono bs bs' ss out out' o o' :
  Forall2 sub bs bs' -> sub out out' -> union bs ss out = Some o -> union bs' ss out' = Some o' -> sub o o'.
Proof using Type.
  intros Hb. revert out out'. induction ss as [| s ss IH]; intros out out' Ho; simpl; [by intros [= <-] [= <-] |].
  destruct (bs !! s) as [b |] eqn:E; [| done]. destruct (Forall2_lookup_l _ _ _ _ _ Hb E) as (b' & -> & Hs).
  apply IH. intros k Hk. rewrite !Z.lor_spec, !orb_true_iff. intros [? | ?]; [left | right]; auto.
Qed.

Lemma transfer_range x i out :
  ir.(insns) !! i = Some x -> is_u 16 out -> is_u 16 (transfer (def_use.of_op x.(ir_op)) (seed i) out).
Proof using Hmask.
  intros Hx Ho. unfold transfer. pose proof (Hmask i x Hx). assert (is_u 16 (Z.land out (wnot 16 (defs (def_use.of_op (ir_op x)))))).
  { apply land_range; [lia | done]. }
  destruct (_ || _); [apply lor_range; [lia | done | done] | done].
Qed.

Lemma flow_total m i : wf m -> (i < n)%nat -> exists o b, flow m i = Some (o, b) /\ is_u 16 o /\ is_u 16 b.
Proof using Hsucc Hmask.
  intros W Hi. unfold flow. destruct (Hsucc i Hi) as (ss & -> & Hs).
  destruct (union_spec m.(before) ss 0) as (o & -> & Ho); [apply W | by rewrite (wf_before _ W) | split; [lia | done] |].
  destruct (lookup_lt_is_Some_2 _ _ Hi) as [x Hx]. rewrite Hx. eexists _, _. split_and!; auto. by apply transfer_range.
Qed.

Lemma flow_mono m m' i o b o' b' :
  mle m m' -> flow m i = Some (o, b) -> flow m' i = Some (o', b') -> sub o o' /\ sub b b'.
Proof using Type.
  intros [Hb _]. unfold flow. destruct (successors ir i) as [ss |]; [| done].
  destruct (union (before m) ss 0) as [u |] eqn:E1; [| done]. destruct (union (before m') ss 0) as [u' |] eqn:E2; [| done].
  destruct (insns ir !! i) as [x |]; [| done]. intros [= <- <-] [= <- <-].
  assert (sub u u') by (by eapply union_mono). split; [done | by apply transfer_mono].
Qed.

(** The masks of instruction [i] are within [ob]. *)
Definition within (m : Masks) (i : nat) (ob : Z * Z) : Prop :=
  forall a b, m.(after) !! i = Some a -> m.(before) !! i = Some b -> sub a (fst ob) /\ sub b (snd ob).

(** Masks below their equations; and masks above them. *)
Definition inflating (m : Masks) : Prop := forall i ob, flow m i = Some ob -> within m i ob.

Definition post (m : Masks) : Prop :=
  wf m /\ forall i o b, flow m i = Some (o, b) ->
    exists a b', m.(after) !! i = Some a /\ m.(before) !! i = Some b' /\ sub o a /\ sub b b'.

(** Masks equal to their equations below [k]. *)
Definition solved (m : Masks) (k : nat) : Prop :=
  forall i, (i < k)%nat -> exists a b, m.(after) !! i = Some a /\ m.(before) !! i = Some b /\ flow m i = Some (a, b).

Definition measure (m : Masks) : nat := total m.(before) + total m.(after).

Lemma mle_set m i o b : wf m -> within m i (o, b) -> (i < n)%nat -> mle m (mk_masks (<[i := b]> m.(before)) (<[i := o]> m.(after))).
Proof using Type.
  intros W Hw Hi. destruct (lookup_lt_is_Some_2 m.(after) i) as [a Ha]; [by rewrite (wf_after _ W) |].
  destruct (lookup_lt_is_Some_2 m.(before) i) as [b0 Hb]; [by rewrite (wf_before _ W) |].
  destruct (Hw a b0 Ha Hb). split; apply Forall2_same_length_lookup; simpl; rewrite length_insert; (split; [done |]);
    intros k x y Hx Hy; (destruct (decide (k = i)) as [-> | N]; [rewrite list_lookup_insert_eq in Hy by (by apply lookup_lt_Some in Hx) |
      rewrite list_lookup_insert_ne in Hy by done]); by simplify_eq.
Qed.

(** Setting instruction [i] to its equations. *)
Lemma set_spec m i o b :
  wf m -> inflating m -> (i < n)%nat -> flow m i = Some (o, b) -> is_u 16 o -> is_u 16 b ->
  let m' := mk_masks (<[i := b]> m.(before)) (<[i := o]> m.(after)) in
  wf m' /\ inflating m' /\ mle m m' /\ forall P, post P -> mle m P -> mle m' P.
Proof using Hsucc Hmask.
  intros W If Hi E Ho Hb m'. pose proof (mle_set m i o b W (If i _ E) Hi) as Le.
  assert (W' : wf m').
  { split; simpl; rewrite ?length_insert; try apply W; apply Forall_insert; auto; apply W. }
  split_and!; auto.
  - intros j [o' b'] E' x y Hx Hy.
    assert (Lj : (j < n)%nat) by (apply lookup_lt_Some in Hx; by rewrite (wf_after _ W') in Hx).
    destruct (flow_total m j W Lj) as (o1 & b1 & E1 & _). destruct (flow_mono m m' j _ _ _ _ Le E1 E') as [S1 S2].
    simpl in *. destruct (decide (j = i)) as [-> | N].
    + rewrite list_lookup_insert_eq in Hx, Hy by (by rewrite ?(wf_after _ W), ?(wf_before _ W)). by simplify_eq.
    + rewrite list_lookup_insert_ne in Hx, Hy by done. destruct (If j _ E1 x y Hx Hy) as [? ?]. split; by etransitivity.
  - intros P [WP HP] LP. destruct (flow_total P i WP Hi) as (o1 & b1 & E1 & _).
    destruct (flow_mono m P i _ _ _ _ LP E E1) as [S1 S2]. destruct (HP i o1 b1 E1) as (a & b2 & Ha & Hb2 & S3 & S4).
    destruct LP as [LB LA]. split; simpl.
    + apply Forall2_same_length_lookup. split; [rewrite length_insert; by apply Forall2_length in LB |].
      intros k x y Hx Hy. destruct (decide (k = i)) as [-> | N].
      * rewrite list_lookup_insert_eq in Hx by (by rewrite (wf_before _ W)). simplify_eq. by etransitivity.
      * rewrite list_lookup_insert_ne in Hx by done. by apply (Forall2_lookup_lr _ _ _ _ _ _ LB Hx Hy).
    + apply Forall2_same_length_lookup. split; [rewrite length_insert; by apply Forall2_length in LA |].
      intros k x y Hx Hy. destruct (decide (k = i)) as [-> | N].
      * rewrite list_lookup_insert_eq in Hx by (by rewrite (wf_after _ W)). simplify_eq. by etransitivity.
      * rewrite list_lookup_insert_ne in Hx by done. by apply (Forall2_lookup_lr _ _ _ _ _ _ LA Hx Hy).
Qed.

(** What a part of a sweep does. *)
Definition grows (m m' : Masks) : Prop :=
  wf m' /\ inflating m' /\ mle m m' /\ (forall P, post P -> mle m P -> mle m' P) /\ (measure m <= measure m')%nat.

Lemma grows_refl m : wf m -> inflating m -> grows m m.
Proof using Type. intros W If. split_and!; auto. done. Qed.

Lemma grows_trans m1 m2 m3 : grows m1 m2 -> grows m2 m3 -> grows m1 m3.
Proof using Type.
  intros (_ & _ & L1 & P1 & M1) (W & If & L2 & P2 & M2). split_and!; auto; [by transitivity m2 | lia].
Qed.

Lemma set_measure m i o b a b0 :
  m.(after) !! i = Some a -> m.(before) !! i = Some b0 -> is_u 16 a -> is_u 16 b0 -> is_u 16 o -> is_u 16 b ->
  sub a o -> sub b0 b -> o <> a \/ b <> b0 ->
  (measure m < measure (mk_masks (<[i := b]> m.(before)) (<[i := o]> m.(after))))%nat.
Proof using Type.
  intros Ha Hb Ua Ub Uo Ub' S1 S2 N. unfold measure. cbn [before after].
  pose proof (total_insert _ _ o _ Ha). pose proof (total_insert _ _ b _ Hb).
  pose proof (weight_mono _ _ S1). pose proof (weight_mono _ _ S2).
  destruct N as [N | N].
  - pose proof (weight_strict a o Ua Uo S1 ltac:(congruence)). lia.
  - pose proof (weight_strict b0 b Ub Ub' S2 ltac:(congruence)). lia.
Qed.

Lemma visit_spec m c i :
  wf m -> inflating m -> (i < n)%nat ->
  exists m' c', visit ir seed i (m, c) = Some (m', c') /\ grows m m' /\
    ((m' = m /\ c' = c /\ exists a b, m.(after) !! i = Some a /\ m.(before) !! i = Some b /\ flow m i = Some (a, b)) \/
     (c' = true /\ (measure m < measure m')%nat)).
Proof using Hsucc Hmask.
  intros W If Hi. destruct (flow_total m i W Hi) as (o & b & E & Ho & Hb).
  destruct (lookup_lt_is_Some_2 m.(after) i) as [a Ha]; [by rewrite (wf_after _ W) |].
  destruct (lookup_lt_is_Some_2 m.(before) i) as [b0 Hb0]; [by rewrite (wf_before _ W) |].
  pose proof E as E'. unfold flow in E'. unfold visit. destruct (successors ir i) as [ss |]; [| done].
  destruct (union (before m) ss 0) as [out |]; [| done]. destruct (insns ir !! i) as [x |]; [| done].
  injection E' as -> ->. rewrite Ha, Hb0. destruct (negb (o =? a) || negb (b =? b0)) eqn:C.
  - destruct (set_spec m i o b W If Hi E Ho Hb) as (W' & If' & L' & P'). destruct (If i _ E a b0 Ha Hb0) as [S1 S2].
    assert (M : (measure m < measure (mk_masks (<[i := b]> m.(before)) (<[i := o]> m.(after))))%nat).
    { apply (set_measure m i o b a b0); auto; [apply (Forall_lookup_1 _ _ _ _ (wf_after_u _ W) Ha) |
        apply (Forall_lookup_1 _ _ _ _ (wf_before_u _ W) Hb0) |].
      apply orb_true_iff in C as [C | C]; apply negb_true_iff, Z.eqb_neq in C; auto. }
    eexists _, true. split; [done |]. split; [split_and!; auto; lia | by right].
  - apply orb_false_iff in C as [C1 C2]. apply negb_false_iff, Z.eqb_eq in C1, C2. subst o b.
    exists m, c. split_and!; [done | by apply grows_refl |]. left. split_and!; auto. by exists a, b0.
Qed.

Lemma sweep_spec k m c :
  wf m -> inflating m -> (k <= n)%nat ->
  exists m' c', sweep ir seed k (m, c) = Some (m', c') /\ grows m m' /\
    ((m' = m /\ c' = c /\ solved m k) \/ (c' = true /\ (measure m < measure m')%nat)).
Proof using Hsucc Hmask.
  revert m c. induction k as [| k IH]; intros m c W If Hk; cbn [sweep].
  { exists m, c. split_and!; [done | by apply grows_refl |]. left. split_and!; [done | done |]. intros i Hi. lia. }
  destruct (visit_spec m c k W If ltac:(lia)) as (m1 & c1 & -> & G1 & D1). pose proof G1 as (W1 & If1 & _).
  destruct (IH m1 c1 W1 If1 ltac:(lia)) as (m2 & c2 & -> & G2 & D2).
  exists m2, c2. split; [done |]. split; [by apply (grows_trans _ m1) |].
  destruct G2 as (_ & _ & _ & _ & Le2). destruct D1 as [(-> & -> & F) | [-> M1]].
  - destruct D2 as [(-> & -> & S) | [-> M2]]; [left | by right]. split_and!; [done | done |].
    intros i Hi. destruct (decide (i = k)) as [-> | N]; [done | apply S; lia].
  - right. destruct D2 as [(-> & -> & S) | [-> M2]]; split; try done; lia.
Qed.

Lemma measure_bound m : wf m -> (measure m <= 32 * n)%nat.
Proof using Type.
  intros W. unfold measure. pose proof (total_bound m.(before)) as H1. pose proof (total_bound m.(after)) as H2.
  rewrite (wf_before _ W) in H1. rewrite (wf_after _ W) in H2. lia.
Qed.

Lemma rounds_spec fuel m :
  wf m -> inflating m -> (32 * n < fuel + measure m)%nat ->
  exists m', rounds fuel ir seed m = Some m' /\ wf m' /\ solved m' n /\ forall P, post P -> mle m P -> mle m' P.
Proof using Hsucc Hmask.
  revert m. induction fuel as [| fuel IH]; intros m W If Hf; [pose proof (measure_bound m W); lia |].
  cbn [rounds]. destruct (sweep_spec n m false W If ltac:(lia)) as (m1 & c1 & -> & (W1 & If1 & L1 & P1 & M1) & D).
  destruct D as [(-> & -> & S) | [-> M]]; [by exists m |].
  destruct (IH m1 W1 If1 ltac:(lia)) as (m2 & -> & W2 & S2 & P2). exists m2. split_and!; auto.
Qed.

Lemma backward_spec :
  exists m, backward ir seed = Some m /\ wf m /\ solved m n /\ forall P, post P -> mle m P.
Proof using Hsucc Hmask.
  unfold backward. set (m0 := mk_masks (replicate n 0) (replicate n 0)).
  assert (W : wf m0) by (split; simpl; rewrite ?length_replicate; auto; apply Forall_replicate; (split; [lia | done])).
  assert (Z0 : forall x, sub 0 x) by (intros x k _; by rewrite Z.bits_0).
  destruct (rounds_spec (S (32 * n)) m0 W) as (m & E & Wm & S & P).
  - intros i ob _ a b [-> _]%lookup_replicate [-> _]%lookup_replicate. by split.
  - lia.
  - exists m. split_and!; auto. intros Q HQ. apply P; [done |]. destruct HQ as [WQ _].
    split; apply Forall2_same_length_lookup; simpl; rewrite length_replicate, ?(wf_before _ WQ), ?(wf_after _ WQ);
      (split; [done |]); intros k x y [-> _]%lookup_replicate _; apply Z0.
Qed.
End Dataflow.
