(* ===== verification/BpfBlocks.v ===== *)
(** The passes of [build_cfg] one by one: what each computes, and that none
    indexes out of range. *)

From stdpp Require Import sorting.
From S2P Require Import Prelude Word BpfOpcode BpfInsn BpfEncode BpfScalar BpfInterp BpfIr.
Import ir.

(** * Pass 1 *)

(** The instructions decoded so far: the slots below [slot], without gaps. *)
Record decoded_upto (prog : list Insn) (slot : nat) (l : list IrInsn) (ios : list (option nat)) : Prop := {
  du_len : length ios = length prog;
  du_insn k x : l !! k = Some x ->
    decode prog x.(ir_slot) = Some (Ok (x.(ir_op), x.(ir_width))) /\ ios !! x.(ir_slot) = Some (Some k) /\
    (x.(ir_slot) < slot)%nat;
  du_slot s k : ios !! s = Some (Some k) -> exists x, l !! k = Some x /\ x.(ir_slot) = s;
  du_next k x : l !! k = Some x -> next_slot x = from_option ir_slot slot (l !! S k);
  du_first : from_option ir_slot slot (l !! 0%nat) = 0%nat
}.

Lemma decoded_start prog : decoded_upto prog 0 [] (replicate (length prog) None).
Proof.
  split; try done; [by rewrite length_replicate |]. intros s k [E _]%lookup_replicate. done.
Qed.

Section Cfg.
Context (prog : list Insn) (Hprog : Forall insn_ok prog).

Lemma decoded_snoc slot l ios op w :
  decoded_upto prog slot l ios -> (slot < length prog)%nat -> decode prog slot = Some (Ok (op, w)) ->
  decoded_upto prog (slot + w) (l ++ [mk_ir_insn op slot w]) (<[slot := Some (length l)]> ios).
Proof using Hprog.
  intros [Hl Hi Hs Hn Hf] L D. destruct (decode_shape _ _ _ _ Hprog D) as (_ & _ & _ & Hw). split.
  - by rewrite length_insert.
  - intros k x [E | [Hk E]]%lookup_app_Some.
    + destruct (Hi k x E) as (D' & I' & L'). split_and!; [done | | lia]. by rewrite list_lookup_insert_ne by lia.
    + apply list_lookup_singleton_Some in E as [E <-]. cbn [ir_slot ir_op ir_width]. split_and!; [done | | lia].
      rewrite list_lookup_insert_eq by lia. do 2 f_equal. lia.
  - intros s k E. destruct (decide (s = slot)) as [-> | N].
    + rewrite list_lookup_insert_eq in E by lia. injection E as <-. eexists. by rewrite list_lookup_middle.
    + rewrite list_lookup_insert_ne in E by done. destruct (Hs s k E) as (x & Ex & Hx). exists x.
      split; [by apply lookup_app_l_Some | done].
  - intros k x [E | [Hk E]]%lookup_app_Some.
    + rewrite (Hn k x E). pose proof (lookup_lt_Some _ _ _ E).
      destruct (l !! S k) as [y |] eqn:Ey; [by rewrite (lookup_app_l_Some _ _ _ _ Ey) |].
      apply lookup_ge_None in Ey. rewrite lookup_app_r by lia. by replace (S k - length l)%nat with 0%nat by lia.
    + apply list_lookup_singleton_Some in E as [E <-]. rewrite lookup_ge_None_2; [done |].
      rewrite length_app. simpl. lia.
  - destruct l as [| x l]; simpl in *; done.
Qed.

Lemma decode_pass_spec fuel slot l ios :
  decoded_upto prog slot l ios -> (length prog <= fuel + slot)%nat ->
  exists r, decode_pass fuel prog slot l ios = Some r /\
    forall l' ios' slot', r = Ok (l', ios', slot') -> decoded_upto prog slot' l' ios' /\ (length prog <= slot')%nat.
Proof using Hprog.
  revert slot l ios. induction fuel as [| fuel IH]; intros slot l ios I L; simpl.
  { eexists. split; [reflexivity |]. intros l' ios' slot' [= <- <- <-]. split; [done | lia]. }
  destruct (Nat.ltb_spec slot (length prog)) as [B | B].
  2: { eexists. split; [reflexivity |]. intros l' ios' slot' [= <- <- <-]. split; [done | lia]. }
  destruct (decode prog slot) as [[[op w] | e] |] eqn:D.
  - apply IH; [by apply decoded_snoc |]. destruct (decode_shape _ _ _ _ Hprog D) as (_ & _ & _ & Hw). lia.
  - eexists. by split.
  - unfold decode in D. destruct (lookup_lt_is_Some_2 _ _ B) as [w Hw]. by rewrite Hw in D.
Qed.

(** * Pass 2 *)

Section Decoded.
Context (l : list IrInsn) (ios : list (option nat)) (I : decoded_upto prog (length prog) l ios).

(** A slot at which an instruction starts. *)
Definition starts (s : nat) : Prop := exists k, ios !! s = Some (Some k).

Lemma branch_starts insn off t : branch (length prog) ios insn off = Ok t -> starts t.
Proof using I.
  unfold branch. destruct (_ || _ || _) eqn:E; [done |]. intros [= <-].
  apply orb_false_iff in E as [E1 E3]. apply orb_false_iff in E1 as [E1 E2]. apply bool_decide_eq_false in E3.
  reflect. destruct (lookup_lt_is_Some_2 ios (Z.to_nat (Z.of_nat (next_slot insn) + off))) as [o Ho].
  { rewrite (du_len _ _ _ _ I). lia. }
  destruct o as [k |]; [by exists k | done].
Qed.

Lemma fallthrough_starts k insn t :
  l !! k = Some insn -> fallthrough (length prog) insn = Ok t -> t = next_slot insn /\ ios !! t = Some (Some (S k)).
Proof using I.
  intros Hk. unfold fallthrough. destruct (Nat.leb_spec (length prog) (next_slot insn)); [done |].
  intros [= <-]. split; [done |]. pose proof (du_next _ _ _ _ I k insn Hk) as N.
  destruct (l !! S k) as [y |] eqn:E; simpl in N; [| lia]. rewrite N. by apply (du_insn _ _ _ _ I).
Qed.

Ltac resolve_cases :=
  repeat match goal with
  | |- context [match branch ?n ?o ?i ?z with Ok _ => _ | Err _ => _ end] =>
      let E := fresh "B" in destruct (branch n o i z) eqn:E; [| discriminate]
  | |- context [match fallthrough ?n ?i with Ok _ => _ | Err _ => _ end] =>
      let E := fresh "F" in destruct (fallthrough n i) eqn:E; [| discriminate]
  end; intros [= <- <- <-].

Lemma resolve_starts k insn succs entries ths :
  l !! k = Some insn -> resolve (length prog) ios insn = Ok (succs, entries, ths) ->
  Forall starts succs /\ Forall starts entries.
Proof using I.
  intros Hk.
  assert (Fa : forall t, fallthrough (length prog) insn = Ok t -> starts t).
  { intros t Ht. exists (S k). by apply (fallthrough_starts k insn). }
  assert (Br : forall o t, branch (length prog) ios insn o = Ok t -> starts t) by eauto using branch_starts.
  unfold resolve.
  destruct (ir_op insn) as [| | | | | | | | | | ? [] | | | | [] |]; resolve_cases; split; repeat constructor; eauto.
Qed.

Lemma branch_goto insn off t :
  Z.of_nat (length prog) < 2 ^ 64 -> branch (length prog) ios insn off = Ok t ->
  interp.goto (Z.of_nat (next_slot insn)) off = Z.of_nat t.
Proof using Type.
  intros L. unfold branch. destruct (_ || _ || _) eqn:E; [done |]. intros [= <-].
  apply orb_false_iff in E as [E1 E3]. apply orb_false_iff in E1 as [E1 E2]. reflect.
  unfold interp.goto. rewrite wrap_small; [lia |]. unfold is_u. lia.
Qed.

Lemma exec_pc op next m pc' m' :
  interp.exec op next m = Some (interp.Continue pc' m') ->
  match op with
  | Decoded.Jump off => pc' = interp.goto next off
  | Decoded.JumpCond _ _ _ _ off => pc' = interp.goto next off \/ pc' = next
  | Decoded.Exit | Decoded.Call _ | Decoded.MayGoto _ => False
  | _ => pc' = next
  end.
Proof using Type.
  unfold interp.exec. destruct op as [| | | | | | | | | | ? [] | | | | |]; intros E;
    repeat (case_match; try discriminate); simplify_eq; auto.
Qed.

(** A step of the interpreter goes to one of the resolved successors. *)
Lemma resolve_step insn succs entries ths m pc' m' :
  resolve (length prog) ios insn = Ok (succs, entries, ths) ->
  Z.of_nat (length prog) < 2 ^ 64 ->
  interp.exec insn.(ir_op) (Z.of_nat (next_slot insn)) m = Some (interp.Continue pc' m') ->
  exists t, t ∈ succs /\ pc' = Z.of_nat t.
Proof using Type.
  intros R L E. apply exec_pc in E. revert R.
  assert (Fa : forall t, fallthrough (length prog) insn = Ok t -> Z.of_nat (next_slot insn) = Z.of_nat t).
  { intros t. unfold fallthrough. destruct (_ <=? _)%nat; [done |]. by intros [= <-]. }
  assert (Br : forall o t, branch (length prog) ios insn o = Ok t ->
            interp.goto (Z.of_nat (next_slot insn)) o = Z.of_nat t) by eauto using branch_goto.
  unfold resolve. destruct (ir_op insn) as [| | | | | | | | | | ? [] | | | | [] |]; try done; resolve_cases;
    try (eexists; split; [by left | rewrite E; eauto]).
  destruct E as [-> | ->]; [eexists; split; [by left | eauto] | eexists; split; [by right; left | eauto]].
Qed.

(** What [resolve_all] returns, instruction by instruction. *)
Lemma resolve_all_spec l1 succs entries ths :
  resolve_all (length prog) ios l1 = Ok (succs, entries, ths) ->
  length succs = length l1 /\
  (forall k insn, l1 !! k = Some insn -> exists ss es ts, succs !! k = Some ss /\
     resolve (length prog) ios insn = Ok (ss, es, ts)) /\
  (forall e, e ∈ entries -> exists k insn ss es ts, l1 !! k = Some insn /\
     resolve (length prog) ios insn = Ok (ss, es, ts) /\ e ∈ es).
Proof using Type.
  revert succs entries ths. induction l1 as [| insn l1 IH]; intros succs entries ths; simpl.
  { intros [= <- <- <-]. split_and!; [done | done | by intros e ?%not_elem_of_nil]. }
  destruct (resolve _ _ insn) as [[[ss es] ts] |] eqn:R; [| done].
  destruct (resolve_all _ _ l1) as [[[ss' es'] ts'] |]; [| done]. intros [= <- <- <-].
  destruct (IH _ _ _ eq_refl) as (H1 & H2 & H3). split_and!.
  - simpl. by rewrite H1.
  - intros [| k] x; simpl.
    + intros [= <-]. by exists ss, es, ts.
    + intros Hx. destruct (H2 k x Hx) as (a & b & c & E1 & E2). by exists a, b, c.
  - intros e [He | He]%elem_of_app.
    + by exists 0%nat, insn, ss, es, ts.
    + destruct (H3 e He) as (k & x & a & b & c & Hx). by exists (S k), x, a, b, c.
Qed.

(** * Pass 3 *)

Lemma starts_index s : starts s -> exists k, index_of ios s = Some k /\ (k < length l)%nat.
Proof using I.
  intros [k Hk]. exists k. unfold index_of. rewrite Hk. split; [done |].
  destruct (du_slot _ _ _ _ I s k Hk) as (x & Hx & _). by apply lookup_lt_Some in Hx.
Qed.

(** Flags only rise. *)
Definition rises (a b : list bool) : Prop :=
  length a = length b /\ forall i, a !! i = Some true -> b !! i = Some true.

#[local] Instance rises_preorder : PreOrder rises.
Proof using Type.
  split; [done |]. intros a b c [L1 R1] [L2 R2]. split; [congruence | auto].
Qed.

Lemma rises_insert a i : rises a (<[i := true]> a).
Proof using Type.
  split; [by rewrite length_insert |]. intros j Hj. destruct (decide (i = j)) as [-> | N].
  - apply list_lookup_insert_eq. by apply lookup_lt_Some in Hj.
  - by rewrite list_lookup_insert_ne.
Qed.

Lemma lead_slots_spec slots leaders :
  Forall starts slots -> length leaders = length l ->
  exists leaders', lead_slots ios slots leaders = Some leaders' /\ rises leaders leaders' /\
    forall s k, s ∈ slots -> index_of ios s = Some k -> leaders' !! k = Some true.
Proof using I.
  intros Hs. revert leaders. induction Hs as [| s slots Hs _ IH]; intros leaders Hl; simpl.
  { exists leaders. split_and!; [done | done | by intros s k ?%not_elem_of_nil]. }
  destruct (starts_index s Hs) as (k & Ek & Lk). rewrite Ek. unfold set_leader.
  destruct (lookup_lt_is_Some_2 leaders k) as [b ->]; [lia |].
  destruct (IH (<[k := true]> leaders)) as (leaders' & E & R & H); [by rewrite length_insert |].
  exists leaders'. split; [done |]. split; [by transitivity (<[k := true]> leaders); [apply rises_insert |] |].
  intros s' k' [-> | Hin]%elem_of_cons Ek'; [| by apply (H s')].
  rewrite Ek in Ek'. injection Ek' as <-. apply R, list_lookup_insert_eq. lia.
Qed.

Lemma lead_flow_spec n i l1 leaders :
  Forall (fun p => Forall starts (snd p)) l1 -> length leaders = length l -> n = length l ->
  exists leaders', lead_flow ios n i l1 leaders = Some leaders' /\ rises leaders leaders' /\
    forall k insn succs, l1 !! k = Some (insn, succs) -> straight_line insn succs = false ->
      ((S (i + k) < n)%nat -> leaders' !! S (i + k)%nat = Some true) /\
      forall s j, s ∈ succs -> index_of ios s = Some j -> leaders' !! j = Some true.
Proof using I.
  intros H Hl Hn. revert i leaders Hl. induction H as [| [insn succs] l1 Hs _ IH]; intros i leaders Hl; simpl.
  { by exists leaders. }
  destruct (straight_line insn succs) eqn:St.
  - destruct (IH (S i) leaders Hl) as (leaders' & E & R & H). exists leaders'. split_and!; [done | done |].
    intros [| k] x ss; simpl; [intros [= <- <-]; congruence |]. intros Hx Ns.
    replace (i + S k)%nat with (S i + k)%nat by lia. by apply (H k x ss).
  - set (ld := if (S i <? n)%nat then <[S i := true]> leaders else leaders).
    assert (R0 : rises leaders ld) by (unfold ld; destruct (S i <? n)%nat; [apply rises_insert | done]).
    destruct (lead_slots_spec succs ld Hs) as (ld1 & E1 & R1 & H1); [destruct R0; congruence |]. rewrite E1.
    destruct (IH (S i) ld1) as (leaders' & E & R & H); [destruct R0, R1; congruence |].
    exists leaders'. split; [done |]. split; [by transitivity ld; [| transitivity ld1] |].
    intros [| k] x ss; simpl.
    + intros [= <- <-] _. split; [| intros s j Hin Hj; by eapply R, H1]. intros Lt. rewrite Nat.add_0_r in *.
      apply R, R1. unfold ld. rewrite (proj2 (Nat.ltb_lt _ _) Lt). apply list_lookup_insert_eq. lia.
    + intros Hx Ns. replace (i + S k)%nat with (S i + k)%nat by lia. by apply (H k x ss).
Qed.
End Decoded.
End Cfg.

(** * Pass 4 *)

(** The list after a leader at [i]. *)
Definition opened (n i : nat) (bs : list Block) : list Block :=
  close_last bs i ++ [mk_block i n [] [] None None None None false].

Lemma close_last_snoc bs b e : close_last (bs ++ [b]) e = bs ++ [set_end b e].
Proof. induction bs as [| x bs IH]; [done |]. simpl. rewrite IH. by destruct bs. Qed.

Lemma close_last_length bs e : length (close_last bs e) = length bs.
Proof. destruct bs as [| b bs _] using rev_ind; [done |]. by rewrite close_last_snoc, !length_app. Qed.

Lemma opened_length n i bs : length (opened n i bs) = S (length bs).
Proof. unfold opened. rewrite length_app, close_last_length. simpl. lia. Qed.

Lemma opened_new n i bs : opened n i bs !! length bs = Some (mk_block i n [] [] None None None None false).
Proof. unfold opened. rewrite <- (close_last_length bs i). by rewrite list_lookup_middle. Qed.

Lemma opened_old n i bs k B :
  bs !! k = Some B ->
  exists B', opened n i bs !! k = Some B' /\ B'.(b_start) = B.(b_start) /\
    B'.(b_end) = if decide (S k = length bs) then i else B.(b_end).
Proof.
  intros Hk. pose proof (lookup_lt_Some _ _ _ Hk) as Lk. unfold opened.
  rewrite lookup_app_l by (by rewrite close_last_length).
  destruct bs as [| b bs _] using rev_ind; [done |]. rewrite close_last_snoc. rewrite length_app in *. simpl in *.
  case_decide as D.
  - assert (k = length bs) as -> by lia. rewrite list_lookup_middle in Hk by done. injection Hk as <-.
    exists (set_end b i). by rewrite list_lookup_middle.
  - rewrite lookup_app_l in Hk |- * by lia. by exists B.
Qed.

Lemma opened_inv n i bs k B' :
  opened n i bs !! k = Some B' ->
  (k = length bs /\ B' = mk_block i n [] [] None None None None false) \/
  exists B, bs !! k = Some B /\ B'.(b_start) = B.(b_start) /\
    B'.(b_end) = if decide (S k = length bs) then i else B.(b_end).
Proof.
  intros Hk. pose proof (lookup_lt_Some _ _ _ Hk) as Lk. rewrite opened_length in Lk.
  destruct (decide (k = length bs)) as [-> | N]; [left; rewrite opened_new in Hk; by injection Hk as <- |].
  destruct (lookup_lt_is_Some_2 bs k) as [B HB]; [lia |]. right. exists B.
  destruct (opened_old n i bs k B HB) as (B2 & H2 & E). rewrite Hk in H2. injection H2 as <-. done.
Qed.

Section Blocks.
Context (L : list bool) (H0 : L !! 0%nat = Some true).

(** The blocks of the first [i] instructions. *)
Record blocks_upto (i : nat) (bs : list Block) (bo : list (option nat)) : Prop := {
  bu_len : length bo = i;
  bu_in j o : bo !! j = Some o -> exists k B, o = Some k /\ bs !! k = Some B /\ (B.(b_start) <= j < B.(b_end))%nat;
  bu_flags k B j : bs !! k = Some B -> (B.(b_start) < j < B.(b_end))%nat -> (j < i)%nat -> L !! j = Some false;
  bu_end k B : bs !! k = Some B -> (B.(b_start) < B.(b_end) <= length L)%nat /\
    (B.(b_end) = length L \/ L !! B.(b_end) = Some true);
  bu_start k B : bs !! k = Some B -> (B.(b_start) < i)%nat;
  bu_last k B : bs !! k = Some B -> if decide (S k = length bs) then B.(b_end) = length L else (B.(b_end) <= i)%nat;
  bu_ne : (0 < i)%nat -> bs <> []
}.

Lemma blocks_flag_true i bs bo :
  blocks_upto i bs bo -> L !! i = Some true ->
  blocks_upto (S i) (opened (length L) i bs) (bo ++ [Some (length (opened (length L) i bs) - 1)%nat]).
Proof using Type.
  intros [Hl Hin Hf He Hs Hla Hne] Hi. pose proof (lookup_lt_Some _ _ _ Hi) as Li.
  pose proof (opened_length (length L) i bs) as Ln. split.
  - rewrite length_app, Hl. simpl. lia.
  - intros j o [E | [Ge E]]%lookup_app_Some.
    + destruct (Hin j o E) as (k & B & -> & Hk & Hj). destruct (opened_old (length L) i bs k B Hk) as (B' & HB' & Es & Ee).
      exists k, B'. pose proof (lookup_lt_Some _ _ _ E). split; [done |]. split; [done |]. rewrite Es, Ee. case_decide; lia.
    + apply list_lookup_singleton_Some in E as [E <-]. eexists (length bs), _.
      split; [f_equal; lia |]. split; [apply opened_new |]. simpl. lia.
  - intros k B' j HB' Hj Lj. destruct (opened_inv _ _ _ _ _ HB') as [[_ ->] | (B & Hk & Es & Ee)]; [simpl in Hj; lia |].
    rewrite Es, Ee in Hj. destruct (He k B Hk). specialize (Hla k B Hk). case_decide; apply (Hf k B); auto; lia.
  - intros k B' HB'. destruct (opened_inv _ _ _ _ _ HB') as [[_ ->] | (B & Hk & Es & Ee)]; [simpl; split; [lia | by left] |].
    destruct (He k B Hk) as [? ?]. pose proof (Hs k B Hk). rewrite Es, Ee. case_decide; [split; [lia | by right] | done].
  - intros k B' HB'. destruct (opened_inv _ _ _ _ _ HB') as [[_ ->] | (B & Hk & Es & Ee)]; [simpl; lia |]. pose proof (Hs k B Hk). lia.
  - intros k B' HB'. rewrite Ln. destruct (opened_inv _ _ _ _ _ HB') as [[-> ->] | (B & Hk & Es & Ee)]; [by rewrite decide_True |].
    pose proof (lookup_lt_Some _ _ _ Hk). specialize (Hla k B Hk). rewrite Ee. repeat case_decide; lia.
  - intros _ E. by rewrite E in Ln.
Qed.

Lemma blocks_flag_false i bs bo :
  blocks_upto i bs bo -> L !! i = Some false -> blocks_upto (S i) bs (bo ++ [Some (length bs - 1)%nat]).
Proof using H0.
  intros [Hl Hin Hf He Hs Hla Hne] Hi. pose proof (lookup_lt_Some _ _ _ Hi) as Li.
  assert (0 < i)%nat as Pi by (destruct i; [congruence | lia]). specialize (Hne Pi).
  assert (Hk : (length bs - 1 < length bs)%nat) by (destruct bs; [done | simpl; lia]).
  destruct (lookup_lt_is_Some_2 _ _ Hk) as [b Hb]. split; auto.
  - rewrite length_app, Hl. simpl. lia.
  - intros j o [E | [Ge E]]%lookup_app_Some; [by apply Hin |].
    apply list_lookup_singleton_Some in E as [E <-]. exists (length bs - 1)%nat, b. split; [done |]. split; [done |].
    pose proof (Hs _ _ Hb). specialize (Hla _ _ Hb). rewrite decide_True in Hla by lia. lia.
  - intros k B j HB Hj Lj. destruct (decide (j = i)) as [-> | N]; [done | apply (Hf k B); auto; lia].
  - intros k B HB. pose proof (Hs k B HB). lia.
  - intros k B HB. specialize (Hla k B HB). case_decide; lia.
Qed.

Lemma make_blocks_spec i flags bs bo :
  drop i L = flags -> blocks_upto i bs bo -> (i <= length L)%nat ->
  let '(bs', bo') := make_blocks (length L) i flags bs bo in blocks_upto (length L) bs' bo'.
Proof using H0.
  revert i bs bo. induction flags as [| b flags IH]; intros i bs bo D I Li; simpl.
  { apply (f_equal length) in D. rewrite length_drop in D. simpl in D. by replace (length L) with i by lia. }
  assert (Hi : L !! i = Some b) by (rewrite <- (Nat.add_0_r i), <- lookup_drop, D; done).
  assert (D' : drop (S i) L = flags) by (rewrite <- Nat.add_1_r, <- drop_drop, D; done).
  apply lookup_lt_Some in Hi as Li'. apply (IH (S i)); [done | | lia].
  destruct b; [by apply blocks_flag_true | by apply blocks_flag_false].
Qed.

Lemma blocks_upto_start : blocks_upto 0 [] [].
Proof using Type. split; try done; simpl; lia. Qed.

(** A leader starts its block. *)
Lemma leader_starts bs bo j k :
  blocks_upto (length L) bs bo -> L !! j = Some true -> bo !! j = Some (Some k) ->
  exists B, bs !! k = Some B /\ B.(b_start) = j.
Proof using Type.
  intros I Hj Hk. destruct (bu_in _ _ _ I j _ Hk) as (k' & B & [= <-] & HB & R). exists B. split; [done |].
  destruct (decide (b_start B = j)) as [| N]; [done |]. apply lookup_lt_Some in Hj as Lj.
  rewrite (bu_flags _ _ _ I k B j HB) in Hj by lia. done.
Qed.
End Blocks.

(** * Links *)

(** The same instructions and successors. *)
Definition same_block (b b' : Block) : Prop :=
  b'.(b_start) = b.(b_start) /\ b'.(b_end) = b.(b_end) /\ b'.(b_succs) = b.(b_succs).

#[export] Instance same_block_preorder : PreOrder same_block.
Proof. split; [done |]. intros a b c (? & ? & ?) (? & ? & ?). split_and!; congruence. Qed.

Definition same_blocks : relation (list Block) := Forall2 same_block.

Lemma modify_total {A} (l : list A) i f : (i < length l)%nat -> exists x, l !! i = Some x /\ modify l i f = Some (<[i := f x]> l).
Proof. intros Li. destruct (lookup_lt_is_Some_2 l i Li) as [x Hx]. exists x. unfold modify. by rewrite Hx. Qed.

Lemma same_modify bs i f :
  (forall b, same_block b (f b)) -> (i < length bs)%nat -> exists bs', modify bs i f = Some bs' /\ same_blocks bs bs'.
Proof.
  intros Hf Li. destruct (modify_total bs i f Li) as (x & Hx & ->). eexists. split; [done |].
  apply Forall2_same_length_lookup. split; [by rewrite length_insert |]. intros k a b Ha Hb.
  destruct (decide (k = i)) as [-> | N].
  - rewrite list_lookup_insert_eq in Hb by done. simplify_eq. done.
  - rewrite list_lookup_insert_ne in Hb by done. by simplify_eq.
Qed.

Lemma add_preds_total bi succs bs :
  Forall (fun s => s < length bs)%nat succs -> exists bs', add_preds bi succs bs = Some bs' /\ same_blocks bs bs'.
Proof.
  revert bs. induction succs as [| s succs IH]; intros bs H; simpl; [by exists bs |].
  apply Forall_cons in H as [Hs H].
  destruct (same_modify bs s (fun b => add_pred b bi)) as (bs1 & -> & S1); [done | done |].
  destruct (IH bs1) as (bs2 & -> & S2); [by rewrite <- (Forall2_length _ _ _ S1) |].
  exists bs2. split; [done |]. by transitivity bs1.
Qed.

Section Link.
Context (ios bo : list (option nat)) (succ_slots : list (list nat)).

(** The block that starts at slot [s]. *)
Definition block_at (s : nat) : option nat := let* i := index_of ios s in index_of bo i.

Lemma link_block_spec bs bi B slots succs :
  bs !! bi = Some B -> succ_slots !! (B.(b_end) - 1)%nat = Some slots -> mapM block_at slots = Some succs ->
  Forall (fun s => s < length bs)%nat succs ->
  exists bs', link_block ios bo succ_slots bs bi = Some bs' /\
    Forall2 (fun b b' => b'.(b_start) = b.(b_start) /\ b'.(b_end) = b.(b_end)) bs bs' /\
    (exists B', bs' !! bi = Some B' /\ B'.(b_succs) = succs) /\
    forall k b b', k <> bi -> bs !! k = Some b -> bs' !! k = Some b' -> b'.(b_succs) = b.(b_succs).
Proof using Type.
  intros HB Hs Hm Hf. unfold link_block. rewrite HB, Hs. fold block_at. rewrite Hm.
  destruct (add_preds_total bi succs bs Hf) as (bs1 & -> & S1).
  pose proof (Forall2_length _ _ _ S1) as L1. pose proof (lookup_lt_Some _ _ _ HB) as Lb.
  destruct (modify_total bs1 bi (fun b => set_succs b succs)) as (B1 & HB1 & ->); [lia |].
  eexists. split; [done |]. split; [| split].
  - apply Forall2_same_length_lookup. split; [by rewrite length_insert |]. intros k a b Ha Hb.
    destruct (decide (k = bi)) as [-> | N].
    + rewrite list_lookup_insert_eq in Hb by lia. simplify_eq. simpl.
      destruct (Forall2_lookup_lr _ _ _ _ _ _ S1 HB HB1) as (? & ? & ?). done.
    + rewrite list_lookup_insert_ne in Hb by done. destruct (Forall2_lookup_lr _ _ _ _ _ _ S1 Ha Hb) as (? & ? & ?). done.
  - eexists. rewrite list_lookup_insert_eq by lia. done.
  - intros k b b' N Ha Hb. rewrite list_lookup_insert_ne in Hb by done.
    by destruct (Forall2_lookup_lr _ _ _ _ _ _ S1 Ha Hb) as (? & ? & ?).
Qed.

(** The blocks a list of blocks becomes: successors from the last slot. *)
Definition linked (bis : list nat) (bs bs' : list Block) : Prop :=
  length bs' = length bs /\
  forall k b, bs !! k = Some b -> exists b', bs' !! k = Some b' /\ b'.(b_start) = b.(b_start) /\ b'.(b_end) = b.(b_end) /\
    if decide (k ∈ bis) then exists slots, succ_slots !! (b.(b_end) - 1)%nat = Some slots /\ mapM block_at slots = Some b'.(b_succs)
    else b'.(b_succs) = b.(b_succs).

Lemma link_blocks_spec bis bs :
  NoDup bis -> Forall (fun bi => bi < length bs)%nat bis ->
  (forall k b, bs !! k = Some b -> exists slots succs, succ_slots !! (b.(b_end) - 1)%nat = Some slots /\
     mapM block_at slots = Some succs /\ Forall (fun s => s < length bs)%nat succs) ->
  exists bs', link_blocks ios bo succ_slots bis bs = Some bs' /\ linked bis bs bs'.
Proof using Type.
  intros ND. revert bs. induction ND as [| bi bis Ni ND IH]; intros bs Hb Ht; simpl.
  { exists bs. split; [done |]. split; [done |]. intros k b Hk. exists b. rewrite decide_False by apply not_elem_of_nil. done. }
  apply Forall_cons in Hb as [Lb Hb]. destruct (lookup_lt_is_Some_2 bs bi Lb) as [B HB].
  destruct (Ht bi B HB) as (slots & succs & Hs & Hm & Hf).
  destruct (link_block_spec bs bi B slots succs HB Hs Hm Hf) as (bs1 & -> & S1 & (B1 & HB1 & E1) & K1).
  pose proof (Forall2_length _ _ _ S1) as L1.
  destruct (IH bs1) as (bs2 & -> & L2 & H2); [by rewrite <- L1 | |].
  { intros k b1 Hk. destruct (Forall2_lookup_r _ _ _ _ _ S1 Hk) as (b & Hk' & _ & ->). rewrite <- L1. by apply (Ht k). }
  exists bs2. split; [done |]. split; [lia |]. intros k b Hk.
  destruct (Forall2_lookup_l _ _ _ _ _ S1 Hk) as (b1 & Hk1 & Es & Ee).
  destruct (H2 k b1 Hk1) as (b2 & Hk2 & Es2 & Ee2 & C). exists b2. rewrite Es2, Ee2, Es, Ee. split_and!; try done.
  destruct (decide (k = bi)) as [-> | N].
  - rewrite decide_True by (by left). rewrite decide_False in C by done. simplify_eq. exists slots. by rewrite C.
  - rewrite (K1 k b b1) in C by done. rewrite Ee in C.
    destruct (decide (k ∈ bis)); [by rewrite decide_True by (by right) |].
    rewrite decide_False; [done |]. by rewrite elem_of_cons; intros [? | ?].
Qed.
End Link.

(** * Sorting *)

Lemma elem_of_dedup {A} `{EqDecision A} (x : A) l : x ∈ dedup l <-> x ∈ l.
Proof.
  induction l as [| y l IH]; [done |]. simpl. destruct l as [| z l]; [done |].
  destruct (decide (y = z)) as [-> | N].
  - rewrite IH. rewrite !elem_of_cons. tauto.
  - rewrite elem_of_cons, IH, (elem_of_cons (z :: l)). done.
Qed.

Lemma head_dedup {A} `{EqDecision A} (l : list A) : head (dedup l) = head l.
Proof.
  induction l as [| y l IH]; [done |]. simpl. destruct l as [| z l]; [done |].
  destruct (decide (y = z)) as [-> | N]; [by rewrite IH | done].
Qed.

(** The sorted list of entries starts at slot 0. *)
Lemma entries_head es : exists es', dedup (sort_nat (0%nat :: es)) = 0%nat :: es'.
Proof.
  set (s := sort_nat (0%nat :: es)).
  assert (P : s ≡ₚ 0%nat :: es) by apply merge_sort_Permutation.
  assert (So : Sorted Nat.le s) by (apply Sorted_merge_sort; intros ? ?; lia).
  assert (H : head (dedup s) = Some 0%nat).
  { rewrite head_dedup. destruct s as [| x s']; [by apply Permutation_nil_l in P |]. simpl. f_equal.
    apply Sorted_StronglySorted in So; [| intros ? ? ?; lia]. apply StronglySorted_inv in So as [_ F].
    assert (In0 : 0%nat ∈ x :: s') by (rewrite P; by left). apply elem_of_cons in In0 as [<- | In0]; [done |].
    rewrite Forall_forall in F. specialize (F _ In0). lia. }
  destruct (dedup s) as [| x s']; simpl in H; [done |]. injection H as ->. by exists s'.
Qed.

Lemma elem_of_entries e es : e ∈ dedup (sort_nat (0%nat :: es)) <-> e = 0%nat \/ e ∈ es.
Proof. rewrite elem_of_dedup. unfold sort_nat. rewrite merge_sort_Permutation. by rewrite elem_of_cons. Qed.

(** * Confinement *)

Lemma enclosing_total es len slot : exists p, enclosing (0%nat :: es) len slot = Some p.
Proof.
  unfold enclosing. simpl.
  assert (H : (partition_point es slot <= length es)%nat).
  { induction es as [| e es IH]; simpl; [lia |]. destruct (e <=? slot)%nat; lia. }
  destruct (lookup_lt_is_Some_2 (0%nat :: es) (partition_point es slot)) as [lo ->]; [simpl; lia |]. by eexists.
Qed.

Lemma confine_total es len l : exists r, confine (0%nat :: es) len l = Some r.
Proof.
  induction l as [| [insn succs] l IH]; cbn [confine]; [by eexists |].
  destruct (enclosing_total es len (ir_slot insn)) as [[lo hi] ->].
  destruct (confine_succs _ _ _ _); [exact IH | by eexists].
Qed.

Lemma entries_sorted es : StronglySorted lt (dedup (sort_nat (0%nat :: es))).
Proof.
  assert (S : StronglySorted Nat.le (sort_nat (0%nat :: es))) by apply (StronglySorted_merge_sort Nat.le).
  revert S. generalize (sort_nat (0%nat :: es)) as l. induction l as [| x l IH]; intros S; [constructor |].
  apply StronglySorted_inv in S as [S F]. destruct l as [| y l]; [repeat constructor |]. cbn [dedup].
  case_decide as E; [by apply IH |]. constructor; [by apply IH |]. apply Forall_forall. intros z Hz.
  change (z ∈ dedup (y :: l)) in Hz. rewrite elem_of_dedup in Hz. rewrite Forall_forall in F.
  assert (y <= z)%nat.
  { apply elem_of_cons in Hz as [-> | Hz]; [lia |]. apply StronglySorted_inv in S as [_ F']. rewrite Forall_forall in F'. by apply F'. }
  pose proof (F y ltac:(by left)). unfold Nat.le in *. lia.
Qed.

(** The number of entries at or below a slot. *)
Lemma partition_point_spec es s i e :
  StronglySorted lt es -> es !! i = Some e -> (e <= s)%nat <-> (i < partition_point es s)%nat.
Proof.
  intros So. revert i. induction So as [| x es So IH F]; intros i E; [done |]. simpl.
  destruct (Nat.leb_spec x s) as [L | L]; destruct i as [| i]; simpl in E; simplify_eq; try lia.
  - rewrite (IH i E). lia.
  - rewrite Forall_forall in F. pose proof (F e (list_elem_of_lookup_2 _ _ _ E)). lia.
Qed.

Lemma partition_point_le es s : (partition_point es s <= length es)%nat.
Proof. induction es as [| e es IH]; simpl; [lia |]. destruct (e <=? s)%nat; lia. Qed.

Lemma partition_point_entry es i e : StronglySorted lt es -> es !! i = Some e -> partition_point es e = S i.
Proof.
  intros So E. pose proof (proj1 (partition_point_spec es e i e So E) ltac:(lia)).
  destruct (es !! S i) as [e' |] eqn:E'.
  - pose proof (partition_point_spec es e (S i) e' So E') as P.
    assert (e < e')%nat; [| lia]. clear -So E E'. revert i E E'. induction So as [| x es So IH F]; intros i E E'; [done |].
    destruct i as [| i]; simpl in *; [simplify_eq | by eapply IH]. rewrite Forall_forall in F. by apply F, list_elem_of_lookup_2 with 0%nat.
  - apply lookup_ge_None in E'. pose proof (partition_point_le es e). lia.
Qed.

(** Confined edges keep to one side of every entry. *)
Lemma confine_spec es len l i insn slots t :
  StronglySorted lt es -> confine es len l = Some (Ok tt) -> l !! i = Some (insn, slots) -> t ∈ slots ->
  partition_point es t = partition_point es insn.(ir_slot).
Proof.
  intros So. revert i. induction l as [| [x sl] l IH]; intros i C E Ht; [done |]. cbn [confine] in C.
  destruct (enclosing es len (ir_slot x)) as [[lo hi] |] eqn:En; [| done].
  destruct (confine_succs _ _ _ _) as [[] |] eqn:Cs; [| done]. destruct i as [| i]; [| by apply (IH i)].
  simpl in E. injection E as -> ->. clear IH C. unfold enclosing in En.
  destruct (partition_point es (ir_slot insn)) as [| idx] eqn:P; [done |].
  destruct (es !! idx) as [lo' |] eqn:El; [| done]. simpl in En. injection En as -> <-.
  assert (R : (lo <= t)%nat /\ (t < default len (es !! S idx))%nat).
  { clear -Cs Ht. induction slots as [| u slots IH]; [by apply elem_of_nil in Ht |]. cbn [confine_succs] in Cs.
    destruct (Nat.ltb_spec u lo), (Nat.leb_spec (default len (es !! S idx)) u); try done.
    apply elem_of_cons in Ht as [-> | Ht]; [lia | by apply IH]. }
  pose proof (proj1 (partition_point_spec es t idx lo So El) (proj1 R)).
  destruct (es !! S idx) as [hi |] eqn:Eh; simpl in R.
  - pose proof (partition_point_spec es t (S idx) hi So Eh). lia.
  - apply lookup_ge_None in Eh. pose proof (partition_point_le es t). lia.
Qed.

(** * Labels *)

Section Label.
Context (ios bo : list (option nat)).

(** Block [k] has a subprogram below [n]. *)
Definition labelled (n : nat) (bs : list Block) (i : nat) : Prop :=
  exists k B c, index_of bo i = Some k /\ bs !! k = Some B /\ B.(b_subprog) = Some c /\ (c < n)%nat.

Definition placed (bs : list Block) (i : nat) : Prop :=
  exists k, index_of bo i = Some k /\ (k < length bs)%nat.

Lemma placed_same bs bs' i : same_blocks bs bs' -> placed bs i -> placed bs' i.
Proof using Type. intros S (k & E & L). exists k. by rewrite <- (Forall2_length _ _ _ S). Qed.

Lemma label_range_spec n si ixs bs :
  Forall (placed bs) ixs -> (si < n)%nat ->
  exists bs', label_range bo si ixs bs = Some bs' /\ same_blocks bs bs' /\
    (forall i, labelled n bs i -> labelled n bs' i) /\ forall i, i ∈ ixs -> labelled n bs' i.
Proof using Type.
  intros H Hn. revert bs H. induction ixs as [| i ixs IH]; intros bs H; simpl.
  { exists bs. split_and!; [done | done | done | by intros i ?%not_elem_of_nil]. }
  apply Forall_cons in H as [(k & Ek & Lk) H]. rewrite Ek.
  destruct (same_modify bs k (fun b => set_subprog b si)) as (bs1 & E1 & S1); [done | done |]. rewrite E1.
  destruct (IH bs1) as (bs2 & -> & S2 & K2 & A2); [eapply Forall_impl; [exact H |]; intros; by eapply placed_same |].
  unfold modify in E1. destruct (bs !! k) as [B |] eqn:HB; [| done]. injection E1 as <-.
  assert (K : forall j, labelled n bs j \/ index_of bo j = Some k -> labelled n (<[k := set_subprog B si]> bs) j).
  { intros j [(k' & B' & c & E' & HB' & Hc & Lc) | E'].
    - destruct (decide (k' = k)) as [-> | N]; [| exists k', B', c; by rewrite list_lookup_insert_ne].
      exists k, (set_subprog B si), si. by rewrite list_lookup_insert_eq.
    - exists k, (set_subprog B si), si. by rewrite list_lookup_insert_eq. }
  exists bs2. split_and!; [done | by transitivity (<[k := set_subprog B si]> bs) | auto |].
  intros j [-> | Hj]%elem_of_cons; auto.
Qed.

Lemma label_subprogs_spec N n si e es lo bs :
  Forall (fun s => exists k, index_of ios s = Some k) (e :: es) -> index_of ios e = Some lo ->
  (forall i, (i < n)%nat -> placed bs i) -> (forall s k, index_of ios s = Some k -> (k < n)%nat) ->
  (si + length (e :: es) = N)%nat ->
  exists bs', label_subprogs ios bo n si (e :: es) bs = Some bs' /\ same_blocks bs bs' /\
    (forall i, labelled N bs i -> labelled N bs' i) /\ forall i, (lo <= i < n)%nat -> labelled N bs' i.
Proof using Type.
  revert si e lo bs. induction es as [| e' es IH]; intros si e lo bs He El Hp Hi HN; cbn [label_subprogs]; rewrite El; simpl in HN.
  - destruct (label_range_spec N si (seq lo (n - lo)) bs) as (bs1 & -> & S1 & K1 & A1);
      [apply Forall_forall; intros i ?%elem_of_seq; apply Hp; lia | lia |].
    exists bs1. split_and!; auto. intros i Hr. apply A1, elem_of_seq. lia.
  - apply Forall_cons in He as [_ He]. pose proof He as [[hi Eh] _]%Forall_cons. rewrite Eh. pose proof (Hi _ _ Eh).
    destruct (label_range_spec N si (seq lo (hi - lo)) bs) as (bs1 & -> & S1 & K1 & A1);
      [apply Forall_forall; intros i ?%elem_of_seq; apply Hp; lia | lia |].
    destruct (IH (S si) e' hi bs1) as (bs2 & E2 & S2 & K2 & A2); [done | done | | done | simpl; lia |].
    { intros i Hr. eapply placed_same; eauto. }
    cbn [label_subprogs] in E2. rewrite Eh in E2. exists bs2. split; [exact E2 |]. split; [by transitivity bs1 |]. split; [auto |].
    intros i Hr. destruct (decide (hi <= i)%nat); [apply A2; lia |]. apply K2, A1, elem_of_seq. lia.
Qed.

Lemma call_graph_entries bs es i l sps sps' :
  call_graph bo bs es i l sps = Some sps' -> entry_block <$> sps' = entry_block <$> sps.
Proof using Type.
  revert i sps. induction l as [| insn l IH]; intros i sps; simpl; [by intros [= ->] |].
  destruct (ir_op insn) as [| | | | | | | | | | | | | | [off | id] |]; try apply IH.
  destruct (index_of bo i) as [b |]; [| done]. destruct (bs !! b) as [B |]; [| done]. simpl.
  destruct (b_subprog B) as [c |]; [| done]. simpl. unfold modify. destruct (sps !! c) as [sp |] eqn:E; [| done]. simpl.
  intros H. rewrite (IH _ _ H), list_fmap_insert. apply list_insert_id. by rewrite list_lookup_fmap, E.
Qed.

Lemma subprogs_entries bs es i l ens sps sps' :
  mapM (make_subprog ios bo) ens = Some sps -> call_graph bo bs es i l sps = Some sps' ->
  Forall2 (fun e sp => exists j, index_of ios e = Some j /\ index_of bo j = Some (dedup_subprog sp).(entry_block)) ens sps'.
Proof using Type.
  intros M C%call_graph_entries. apply mapM_Some in M. revert sps' C.
  induction M as [| e sp ens sps H _ IH]; intros sps' C; destruct sps' as [| sp' sps']; try done.
  simpl in C. injection C as E C. constructor; [| by apply IH]. unfold make_subprog in H.
  destruct (index_of ios e) as [j |]; [| done]. simpl in H. destruct (index_of bo j) as [b |] eqn:Eb; [| done].
  simpl in H. injection H as <-. exists j. simpl in *. by rewrite E.
Qed.

Lemma call_graph_total bs es i l sps :
  (forall k insn, l !! k = Some insn -> labelled (length sps) bs (i + k)) ->
  exists sps', call_graph bo bs es i l sps = Some sps'.
Proof using Type.
  revert i sps. induction l as [| insn l IH]; intros i sps H; simpl; [by eexists |].
  assert (H' : forall k x, l !! k = Some x -> labelled (length sps) bs (S i + k)).
  { intros k x Hx. replace (S i + k)%nat with (i + S k)%nat by lia. by apply (H (S k) x). }
  assert (Go : exists sps', call_graph bo bs es (S i) l sps = Some sps') by (by apply IH).
  destruct (ir_op insn) as [| | | | | | | | | | | | | | [off | id] |]; auto.
  destruct (H 0%nat insn eq_refl) as (k & B & c & Ek & HB & Hc & Lc). rewrite Nat.add_0_r in Ek. rewrite Ek, HB, Hc.
  destruct (modify_total sps c (fun sp => add_callee sp (search es (Z.to_nat (Z.of_nat (next_slot insn) + off)))) Lc) as (x & _ & ->).
  apply IH. intros j y Hy. rewrite length_insert. by apply (H' j y).
Qed.
End Label.
