(* ===== verification/BpfCfg.v ===== *)
(** The control-flow graph of the verifier against the interpreter: [build_cfg]
    does not panic, and every step of a run follows an edge of the graph. *)

From stdpp Require Import sorting.
From S2P Require Import Prelude Word BpfOpcode BpfInsn BpfEncode BpfScalar BpfInterp BpfIr BpfLiveness BpfBlocks.
Import ir.

(** * The graph *)

(** What the blocks say about the resolved successors of each instruction. *)
Record graph_ok (l : list IrInsn) (ios : list (option nat)) (succ_slots : list (list nat))
    (bs : list Block) (bo : list (option nat)) : Prop := {
  go_len : length bo = length l;
  go_in i : (i < length l)%nat -> exists k B, index_of bo i = Some k /\ bs !! k = Some B /\
    (B.(b_start) <= i < B.(b_end))%nat /\ (B.(b_end) <= length l)%nat;
  go_inner k B i insn : bs !! k = Some B -> (B.(b_start) <= i)%nat -> (S i < B.(b_end))%nat -> l !! i = Some insn ->
    succ_slots !! i = Some [next_slot insn];
  go_outer k B i slots : bs !! k = Some B -> S i = B.(b_end) -> succ_slots !! i = Some slots ->
    forall t, t ∈ slots -> exists j k' B', index_of ios t = Some j /\ index_of bo j = Some k' /\ k' ∈ B.(b_succs) /\ bs !! k' = Some B' /\ B'.(b_start) = j;
  go_target k B s : bs !! k = Some B -> s ∈ B.(b_succs) ->
    exists i slots t j B', S i = B.(b_end) /\ succ_slots !! i = Some slots /\ t ∈ slots /\ index_of ios t = Some j /\
      bs !! s = Some B' /\ B'.(b_start) = j;
  go_range k B : bs !! k = Some B -> (B.(b_start) < B.(b_end) <= length l)%nat
}.

Lemma go_succs l ios ss bs bo k B s :
  graph_ok l ios ss bs bo -> bs !! k = Some B -> s ∈ B.(b_succs) -> (s < length bs)%nat.
Proof. intros G HB Hs. destruct (go_target _ _ _ _ _ G k B s HB Hs) as (? & ? & ? & ? & B' & _ & _ & _ & _ & HB' & _). by eapply lookup_lt_Some. Qed.

Lemma graph_same l ios ss bs bs' bo : same_blocks bs bs' -> graph_ok l ios ss bs bo -> graph_ok l ios ss bs' bo.
Proof.
  intros S [G1 G2 G3 G4 G5 G6]. pose proof (Forall2_length _ _ _ S) as Ln. split; [done | | | | |].
  - intros i Hi. destruct (G2 i Hi) as (k & B & E & HB & R). destruct (Forall2_lookup_l _ _ _ _ _ S HB) as (B' & HB' & Es & Ee & _).
    exists k, B'. by rewrite Es, Ee.
  - intros k B' i insn HB'. destruct (Forall2_lookup_r _ _ _ _ _ S HB') as (B & HB & -> & -> & _). by apply (G3 k).
  - intros k B' i slots HB' Hi Hs t Ht. destruct (Forall2_lookup_r _ _ _ _ _ S HB') as (B & HB & _ & Ee & Eq).
    rewrite Ee in Hi. destruct (G4 k B i slots HB Hi Hs t Ht) as (j & k' & B2 & Ej & Ek & Hin & HB2 & Es).
    destruct (Forall2_lookup_l _ _ _ _ _ S HB2) as (B2' & HB2' & Es' & _). exists j, k', B2'. rewrite Eq, Es'. done.
  - intros k B' s HB'. destruct (Forall2_lookup_r _ _ _ _ _ S HB') as (B & HB & _ & -> & ->). intros Hs.
    destruct (G5 k B s HB Hs) as (i & slots & t & j & B2 & Ei & Hsl & Ht & Ej & HB2 & Es).
    destruct (Forall2_lookup_l _ _ _ _ _ S HB2) as (B2' & HB2' & Es' & _). exists i, slots, t, j, B2'. by rewrite Es'.
  - intros k B' HB'. destruct (Forall2_lookup_r _ _ _ _ _ S HB') as (B & HB & -> & -> & _). by apply (G6 k).
Qed.

Section Build.
Context (prog : list Insn) (Hprog : Forall insn_ok prog) (l : list IrInsn) (ios : list (option nat))
  (I : decoded_upto prog (length prog) l ios) (succ_slots : list (list nat))
  (Hlen : length succ_slots = length l) (Hstarts : Forall (Forall (starts ios)) succ_slots).

(** The flags of the third pass. *)
Definition leads (L : list bool) : Prop :=
  length L = length l /\ L !! 0%nat = Some true /\
  forall k insn succs, l !! k = Some insn -> succ_slots !! k = Some succs -> straight_line insn succs = false ->
    ((S k < length l)%nat -> L !! S k = Some true) /\
    forall s j, s ∈ succs -> index_of ios s = Some j -> L !! j = Some true.

Lemma leaders_spec es :
  Forall (starts ios) es -> l <> [] ->
  exists L0 L, lead_slots ios es (<[0%nat := true]> (replicate (length l) false)) = Some L0 /\
    lead_flow ios (length l) 0 (zip l succ_slots) L0 = Some L /\ leads L.
Proof using I Hlen Hstarts.
  intros He Hne. assert (0 < length l)%nat by (destruct l; [done | simpl; lia]).
  destruct (lead_slots_spec prog l ios I es (<[0%nat := true]> (replicate (length l) false))) as (L0 & E0 & R0 & _);
    [done | by rewrite length_insert, length_replicate |].
  destruct (lead_flow_spec prog l ios I (length l) 0 (zip l succ_slots) L0) as (L & E1 & R1 & H1); [| | done |].
  { apply Forall_lookup. intros k [insn succs] (_ & Hs)%lookup_zip_Some. simpl. by apply (Forall_lookup_1 _ _ _ _ Hstarts Hs). }
  { destruct R0 as [<- _]. by rewrite length_insert, length_replicate. }
  exists L0, L. split; [done |]. split; [done |]. split; [| split].
  - destruct R0 as [E _], R1 as [E' _]. by rewrite <- E', <- E, length_insert, length_replicate.
  - apply R1, R0. apply list_lookup_insert_eq. by rewrite length_replicate.
  - intros k insn succs Hk Hs. apply (H1 k insn succs). apply lookup_zip_Some. done.
Qed.

Lemma straight_inv insn succs : straight_line insn succs = true -> succs = [next_slot insn].
Proof using Type. unfold straight_line. by intros ?%bool_decide_eq_true. Qed.

(** The target of an edge leads its block. *)
Lemma target_block L bs bo s j :
  leads L -> blocks_upto L (length L) bs bo -> L !! j = Some true -> index_of ios s = Some j ->
  exists k B, block_at ios bo s = Some k /\ bs !! k = Some B /\ B.(b_start) = j /\ (k < length bs)%nat.
Proof using Type.
  intros (Ln & _) Hb Hj Es. pose proof (lookup_lt_Some _ _ _ Hj) as Lj. unfold block_at. rewrite Es. unfold index_of at 1.
  destruct (lookup_lt_is_Some_2 bo j) as [o Ho]; [by rewrite (bu_len _ _ _ _ Hb) |].
  destruct (bu_in _ _ _ _ Hb j o Ho) as (k & B & -> & HB & _). destruct (leader_starts _ _ _ _ _ Hb Hj Ho) as (B' & HB' & Hs).
  exists k, B'. rewrite Ho. split_and!; auto. by apply lookup_lt_Some in HB.
Qed.

(** The successors of the last instruction of a block lead their blocks. *)
Lemma outer_leads L bs bo k B slots t :
  leads L -> blocks_upto L (length L) bs bo -> bs !! k = Some B -> succ_slots !! (B.(b_end) - 1)%nat = Some slots ->
  t ∈ slots -> exists j, index_of ios t = Some j /\ L !! j = Some true.
Proof using I Hlen Hstarts.
  intros (Ln & H0 & Hl) Hb HB Hs Ht. destruct (bu_end _ _ _ _ Hb k B HB) as [Hr He].
  pose proof (Forall_lookup_1 _ _ _ _ Hstarts Hs) as Fs. rewrite Forall_forall in Fs.
  destruct (starts_index prog l ios I t (Fs _ Ht)) as (j & Ej & Lj). exists j. split; [done |].
  destruct (lookup_lt_is_Some_2 l (B.(b_end) - 1)%nat) as [insn Hi]; [lia |].
  destruct (straight_line insn slots) eqn:St; [| by eapply Hl].
  apply straight_inv in St as ->. apply list_elem_of_singleton in Ht as ->.
  destruct (Fs (next_slot insn) ltac:(by left)) as [j' Hj']. unfold index_of in Ej. rewrite Hj' in Ej. injection Ej as ->.
  destruct (du_slot _ _ _ _ I _ _ Hj') as (y & Hy & Ey).
  pose proof (du_next _ _ _ _ I _ _ Hi) as N. replace (S (B.(b_end) - 1))%nat with B.(b_end) in N by lia.
  destruct (l !! B.(b_end)) as [z |] eqn:Hz; simpl in N.
  - assert (j = B.(b_end)) as ->.
    { destruct (du_insn _ _ _ _ I _ _ Hy) as (_ & A1 & _). destruct (du_insn _ _ _ _ I _ _ Hz) as (_ & A2 & _). congruence. }
    apply lookup_lt_Some in Hz. destruct He as [He | He]; [lia | done].
  - destruct (du_insn _ _ _ _ I _ _ Hy) as (_ & _ & A). lia.
Qed.

Lemma mapM_total {A B} (f : A -> option B) (P : B -> Prop) l1 :
  (forall x, x ∈ l1 -> exists y, f x = Some y /\ P y) -> exists k, mapM f l1 = Some k /\ Forall P k.
Proof using Type.
  induction l1 as [| x l1 IH]; intros H; [by exists [] |].
  destruct (H x ltac:(by left)) as (y & Ey & Py). destruct IH as (k & Ek & Pk); [intros z Hz; apply H; by right |].
  exists (y :: k). split; [| by constructor]. apply mapM_Some. constructor; [done | by apply mapM_Some].
Qed.

Lemma linked_graph L bs bo bs' :
  leads L -> blocks_upto L (length L) bs bo -> linked ios bo succ_slots (seq 0 (length bs)) bs bs' ->
  graph_ok l ios succ_slots (dedup_block <$> bs') bo.
Proof using I Hlen Hstarts.
  intros HL Hb [Ln K].
  assert (K' : forall k b', bs' !! k = Some b' -> exists b slots, bs !! k = Some b /\ b'.(b_start) = b.(b_start) /\
            b'.(b_end) = b.(b_end) /\ succ_slots !! (b.(b_end) - 1)%nat = Some slots /\ mapM (block_at ios bo) slots = Some b'.(b_succs)).
  { intros k b' Hk. pose proof (lookup_lt_Some _ _ _ Hk) as Lk. rewrite Ln in Lk.
    destruct (lookup_lt_is_Some_2 bs k Lk) as [b Hb']. destruct (K k b Hb') as (b2 & Hk2 & Es & Ee & C).
    rewrite decide_True in C by (apply elem_of_seq; lia). destruct C as (slots & C1 & C2). exists b, slots. by simplify_eq. }
  pose proof HL as (LL & H0 & Hl). split.
  - rewrite (bu_len _ _ _ _ Hb). done.
  - intros i Hi. destruct (lookup_lt_is_Some_2 bo i) as [o Ho]; [rewrite (bu_len _ _ _ _ Hb); lia |].
    destruct (bu_in _ _ _ _ Hb i o Ho) as (k & B & -> & HB & R). destruct (K k B HB) as (B' & HB' & Es & Ee & _).
    exists k, (dedup_block B'). unfold index_of. rewrite Ho, list_lookup_fmap, HB'. simpl. rewrite Es, Ee.
    destruct (bu_end _ _ _ _ Hb k B HB) as [? _]. split_and!; auto; lia.
  - intros k B0 i insn HB0. rewrite list_lookup_fmap in HB0. apply fmap_Some in HB0 as (B' & HB' & ->). simpl.
    destruct (K' k B' HB') as (B & slots & HB & -> & -> & _). intros Hs Hi Hx.
    destruct (lookup_lt_is_Some_2 succ_slots i) as [ss Hss]; [rewrite Hlen; by apply lookup_lt_Some in Hx |].
    destruct (bu_end _ _ _ _ Hb k B HB) as [? _]. pose proof (bu_flags _ _ _ _ Hb k B (S i) HB ltac:(lia) ltac:(lia)) as Fl.
    destruct (straight_line insn ss) eqn:St; [by rewrite Hss, (straight_inv _ _ St) |].
    destruct (Hl i insn ss Hx Hss St) as [Q _]. rewrite Q in Fl by lia. done.
  - intros k B0 i slots HB0. rewrite list_lookup_fmap in HB0. apply fmap_Some in HB0 as (B' & HB' & ->). simpl.
    destruct (K' k B' HB') as (B & slots' & HB & _ & -> & Hs' & Hm). intros Hi Hs t Ht.
    replace (B.(b_end) - 1)%nat with i in Hs' by lia. simplify_eq.
    destruct (outer_leads L bs bo k B slots' t HL Hb HB) as (j & Ej & Lj); [by replace (B.(b_end) - 1)%nat with i by lia | done |].
    destruct (target_block L bs bo t j HL Hb Lj Ej) as (k' & B2 & Ek' & HB2 & Es2 & _).
    destruct (K k' B2 HB2) as (B3 & HB3 & Es3 & _). exists j, k', (dedup_block B3). rewrite list_lookup_fmap, HB3. simpl.
    split_and!; [done | unfold block_at in Ek'; by rewrite Ej in Ek' | | done | congruence]. apply elem_of_dedup. apply mapM_Some in Hm.
    apply list_elem_of_lookup in Ht as [p Hp]. destruct (Forall2_lookup_l _ _ _ _ _ Hm Hp) as (k2 & Hk2 & E2).
    rewrite Ek' in E2. injection E2 as ->. by apply list_elem_of_lookup_2 in Hk2.
  - intros k B0 s HB0. rewrite list_lookup_fmap in HB0. apply fmap_Some in HB0 as (B' & HB' & ->). simpl.
    rewrite elem_of_dedup. destruct (K' k B' HB') as (B & slots & HB & _ & -> & Hs & Hm). intros Hin.
    apply mapM_Some in Hm. apply list_elem_of_lookup in Hin as [p Hp].
    destruct (Forall2_lookup_r _ _ _ _ _ Hm Hp) as (t & Ht & Et). apply list_elem_of_lookup_2 in Ht.
    destruct (outer_leads L bs bo k B slots t HL Hb HB Hs Ht) as (j & Ej & Lj).
    destruct (target_block L bs bo t j HL Hb Lj Ej) as (k' & B2 & Ek' & HB2 & Es2 & Lk). rewrite Et in Ek'. injection Ek' as <-.
    destruct (K s B2 HB2) as (B3 & HB3 & Es3 & _). destruct (bu_end _ _ _ _ Hb k B HB) as [? _].
    exists (B.(b_end) - 1)%nat, slots, t, j, (dedup_block B3). rewrite list_lookup_fmap, HB3. simpl.
    split_and!; try done; [lia | congruence].
  - intros k B0 HB0. rewrite list_lookup_fmap in HB0. apply fmap_Some in HB0 as (B' & HB' & ->). simpl.
    destruct (K' k B' HB') as (B & slots & HB & -> & -> & _). destruct (bu_end _ _ _ _ Hb k B HB) as [? _]. lia.
Qed.

Lemma build_blocks_spec es :
  Forall (starts ios) es -> l <> [] ->
  exists bs bo, build_blocks prog l ios succ_slots es = Some (bs, bo) /\ graph_ok l ios succ_slots bs bo.
Proof using I Hlen Hstarts.
  intros He Hne. unfold build_blocks. destruct (leaders_spec es He Hne) as (L0 & L & -> & -> & HL).
  pose proof HL as (LL & H0 & _).
  pose proof (make_blocks_spec L H0 0 L [] [] eq_refl (blocks_upto_start L) ltac:(lia)) as M. rewrite LL in M.
  destruct (make_blocks (length l) 0 L [] []) as [bs bo]. rewrite <- LL in M.
  destruct (link_blocks_spec ios bo succ_slots (seq 0 (length bs)) bs) as (bs' & -> & K).
  - apply NoDup_seq.
  - apply Forall_forall. intros k ?%elem_of_seq. lia.
  - intros k B HB. destruct (bu_end _ _ _ _ M k B HB) as [Hr _].
    destruct (lookup_lt_is_Some_2 succ_slots (B.(b_end) - 1)%nat) as [slots Hs]; [lia |].
    destruct (mapM_total (block_at ios bo) (fun s => s < length bs)%nat slots) as (succs & Em & Fm); [| by exists slots, succs].
    intros t Ht. destruct (outer_leads L bs bo k B slots t HL M HB Hs Ht) as (j & Ej & Lj).
    destruct (target_block L bs bo t j HL M Lj Ej) as (k' & B2 & Ek' & _ & _ & Lk). by exists k'.
  - exists (dedup_block <$> bs'), bo. split; [done |]. by apply (linked_graph L bs bo).
Qed.
End Build.

(** * The whole build *)

(** The subprograms: their entries in order, and edges that stay between two
    of them. *)
Record regions (ir : Ir) (ss : list (list nat)) (es : list nat) : Prop := {
  rg_sorted : StronglySorted lt es;
  rg_confined i insn slots t : ir.(insns) !! i = Some insn -> ss !! i = Some slots -> t ∈ slots ->
    partition_point es t = partition_point es insn.(ir_slot);
  rg_entries : Forall2 (fun e sp => exists i, index_of ir.(ir_of_slot) e = Some i /\
    index_of ir.(block_of) i = Some sp.(entry_block)) es ir.(subprogs)
}.

(** What [build_cfg] returns: decoded instructions, with the resolved
    successors that the blocks agree with. *)
Record built (prog : list Insn) (ir : Ir) : Prop := {
  bt_decoded : decoded_upto prog (length prog) ir.(insns) ir.(ir_of_slot);
  bt_ne : ir.(insns) <> [];
  bt_graph : exists ss es, length ss = length ir.(insns) /\ Forall (Forall (starts ir.(ir_of_slot))) ss /\
    (forall k insn, ir.(insns) !! k = Some insn -> exists s es ts, ss !! k = Some s /\
       resolve (length prog) ir.(ir_of_slot) insn = Ok (s, es, ts)) /\
    graph_ok ir.(insns) ir.(ir_of_slot) ss ir.(blocks) ir.(block_of) /\ regions ir ss es
}.

Lemma starts_zero prog l ios : prog <> [] -> decoded_upto prog (length prog) l ios -> l <> [] /\ ios !! 0%nat = Some (Some 0%nat).
Proof.
  intros Hp I. pose proof (du_first _ _ _ _ I) as F. destruct l as [| x l]; simpl in F; [by destruct prog |].
  split; [done |]. rewrite <- F at 1. by apply (du_insn _ _ _ _ I 0%nat x).
Qed.

Section Whole.
Context (prog : list Insn) (Hprog : Forall insn_ok prog).

Lemma finish_total l ios succ_slots entries ths :
  prog <> [] -> decoded_upto prog (length prog) l ios ->
  resolve_all (length prog) ios l = Ok (succ_slots, entries, ths) ->
  confine (dedup (sort_nat (0%nat :: entries))) (length prog) (zip l succ_slots) = Some (Ok tt) ->
  exists bs bo sps bs' sps',
    build_blocks prog l ios succ_slots (dedup (sort_nat (0%nat :: entries))) = Some (bs, bo) /\
    mapM (make_subprog ios bo) (dedup (sort_nat (0%nat :: entries))) = Some sps /\
    label_subprogs ios bo (length l) 0 (dedup (sort_nat (0%nat :: entries))) bs = Some bs' /\
    call_graph bo bs' (dedup (sort_nat (0%nat :: entries))) 0 l sps = Some sps' /\
    forall th, built prog (mk_ir l ios bs' bo (dedup_subprog <$> sps') [] th).
Proof using Hprog.
  intros Hp I R Cf. destruct (starts_zero prog l ios Hp I) as [Hl Z]. destruct (resolve_all_spec prog ios _ _ _ _ R) as (Ln & Hss & Hes).
  assert (Fs : Forall (Forall (starts ios)) succ_slots).
  { apply Forall_lookup. intros k s Hk. destruct (lookup_lt_is_Some_2 l k) as [x Hx]; [rewrite <- Ln; by apply lookup_lt_Some in Hk |].
    destruct (Hss k x Hx) as (s' & es & ts & Hs' & Rx). rewrite Hk in Hs'. injection Hs' as <-. by apply (resolve_starts prog l ios I k x s es ts). }
  assert (Fe : Forall (starts ios) (dedup (sort_nat (0%nat :: entries)))).
  { apply Forall_forall. intros e [-> | He]%elem_of_entries; [by exists 0%nat |].
    destruct (Hes e He) as (k & x & s & es & ts & Hx & Rx & Hin).
    destruct (resolve_starts prog l ios I k x s es ts Hx Rx) as [_ F]. rewrite Forall_forall in F. auto. }
  destruct (build_blocks_spec prog l ios I succ_slots Ln Fs _ Fe Hl) as (bs & bo & Eb & G).
  assert (Pl : forall i, (i < length l)%nat -> placed bo bs i).
  { intros i Hi. destruct (go_in _ _ _ _ _ G i Hi) as (k & B & E & HB & _). exists k. split; [done | by apply lookup_lt_Some in HB]. }
  assert (Ix : forall s k, index_of ios s = Some k -> (k < length l)%nat).
  { intros s k E. unfold index_of in E. destruct (ios !! s) as [o |] eqn:Eo; [| done]. subst o.
    destruct (du_slot _ _ _ _ I s k Eo) as (x & Hx & _). by apply lookup_lt_Some in Hx. }
  destruct (mapM_total (make_subprog ios bo) (fun _ => True) (dedup (sort_nat (0%nat :: entries)))) as (sps & Em & _).
  { intros e He. rewrite Forall_forall in Fe. destruct (starts_index prog l ios I e (Fe e He)) as (k & Ek & Lk).
    unfold make_subprog. rewrite Ek. destruct (Pl k Lk) as (b & -> & _). by eexists. }
  assert (Es : length sps = length (dedup (sort_nat (0%nat :: entries)))) by (symmetry; by eapply length_mapM).
  destruct (entries_head entries) as [es' Eh]. rewrite Eh in *.
  destruct (label_subprogs_spec ios bo (length sps) (length l) 0 0 es' 0 bs) as (bs' & El & S & _ & Lb);
    [| by unfold index_of; rewrite Z | done | done | done |].
  { eapply Forall_impl; [exact Fe |]. intros s [k Hk]. exists k. unfold index_of. by rewrite Hk. }
  destruct (call_graph_total bo bs' (0%nat :: es') 0 l sps) as (sps' & Ec).
  { intros k x Hx. apply Lb. apply lookup_lt_Some in Hx. lia. }
  exists bs, bo, sps, bs', sps'. split_and!; auto. intros th. split; [done | done |]. exists succ_slots, (0%nat :: es').
  split_and!; auto; [by apply (graph_same _ _ _ bs) |].
  assert (So : StronglySorted lt (0%nat :: es')) by (rewrite <- Eh; apply entries_sorted). split; [done | |]; cbn [insns ir_of_slot block_of subprogs].
  - intros i x slots t Hx Hs Ht. eapply confine_spec; [done | done | | done]. by apply lookup_zip_Some.
  - apply Forall2_fmap_r. by eapply subprogs_entries.
Qed.

Lemma build_total : exists r, build_cfg prog = Some r /\ forall ir, r = Ok ir -> built prog ir.
Proof using Hprog.
  unfold build_cfg. case_bool_decide as Hp; [by eexists |].
  destruct (decode_pass_spec prog Hprog (length prog) 0 [] (replicate (length prog) None)) as (r & -> & Hr);
    [apply decoded_start | lia |].
  destruct r as [[[l ios] slot] | e]; [| by eexists]. destruct (Hr _ _ _ eq_refl) as [I _].
  destruct (Nat.eqb_spec slot (length prog)) as [-> | N]; [| by eexists]. cbn [negb].
  destruct (resolve_all (length prog) ios l) as [[[ss es] ths] | e] eqn:R; [| by eexists].
  cbv zeta. destruct (confine (dedup (sort_nat (0%nat :: es))) (length prog) (zip l ss)) as [c |] eqn:C.
  2: { destruct (entries_head es) as [es' Eh]. rewrite Eh in C.
       destruct (confine_total es' (length prog) (zip l ss)) as [c Ec]. congruence. }
  destruct c as [[] | e]; [| by eexists].
  destruct (finish_total l ios ss es ths Hp I R C) as (bs & bo & sps & bs' & sps' & E1 & E2 & E3 & E4 & B).
  rewrite E1, E2, E3, E4.
  eexists. split; [reflexivity |]. intros ir [= <-]. apply B.
Qed.
End Whole.

(** * Edges *)

Section Edges.
Context (prog : list Insn) (ir : Ir) (B : built prog ir).

Lemma index_insn s i :
  index_of ir.(ir_of_slot) s = Some i -> exists x, ir.(insns) !! i = Some x /\ x.(ir_slot) = s /\
    decode prog s = Some (Ok (x.(ir_op), x.(ir_width))).
Proof using B.
  intros E. unfold index_of in E. destruct (ir_of_slot ir !! s) as [o |] eqn:Eo; [| done]. subst o.
  destruct (du_slot _ _ _ _ (bt_decoded _ _ B) s i Eo) as (x & Hx & <-). exists x. split_and!; auto.
  by apply (du_insn _ _ _ _ (bt_decoded _ _ B) i x).
Qed.

Lemma successors_total i :
  (i < length ir.(insns))%nat ->
  exists ss, liveness.successors ir i = Some ss /\ Forall (fun j => j < length ir.(insns))%nat ss.
Proof using B.
  intros Hi. destruct (bt_graph _ _ B) as (sl & ens & _ & _ & _ & G & _). unfold liveness.successors.
  destruct (go_in _ _ _ _ _ G i Hi) as (k & b & -> & Hb & R & Le). rewrite Hb.
  destruct (Nat.ltb_spec (S i) (b_end b)); [eexists; split; [done |]; repeat constructor; lia |].
  apply mapM_total. intros s Hs. pose proof (go_succs _ _ _ _ _ _ _ _ G Hb Hs) as Ls.
  destruct (lookup_lt_is_Some_2 _ _ Ls) as [b' Hb']. rewrite Hb'. eexists. split; [done |].
  pose proof (go_range _ _ _ _ _ G s b' Hb'). lia.
Qed.

(** A step stays in its block, or goes to the start of a successor. *)
Lemma step_block pc i m pc' m' k b :
  Z.of_nat (length prog) < 2 ^ 64 ->
  index_of ir.(ir_of_slot) pc = Some i -> ir.(blocks) !! k = Some b -> (b.(b_start) <= i < b.(b_end))%nat ->
  interp.iter prog (Z.of_nat pc) m = Some (interp.Continue pc' m') ->
  exists t j, pc' = Z.of_nat t /\ index_of ir.(ir_of_slot) t = Some j /\
    ((S i < b.(b_end))%nat /\ j = S i \/
     S i = b.(b_end) /\ exists k' b', index_of ir.(block_of) j = Some k' /\ k' ∈ b.(b_succs) /\
       ir.(blocks) !! k' = Some b' /\ b'.(b_start) = j).
Proof using B.
  intros Hl Hi Hb Rg St. destruct (index_insn pc i Hi) as (x & Hx & Es & Ed).
  destruct (bt_graph _ _ B) as (sl & ens & Ln & Fs & Hr & G & _). destruct (Hr i x Hx) as (slots & es & ts & Hsl & R).
  unfold interp.iter in St. destruct (_ <=? _); [done |]. rewrite Nat2Z.id, Ed in St.
  replace (Z.of_nat pc + Z.of_nat (ir_width x)) with (Z.of_nat (next_slot x)) in St by (unfold next_slot; lia).
  destruct (resolve_step prog ir.(ir_of_slot) x slots es ts m pc' m' R Hl St) as (t & Ht & ->). exists t.
  pose proof (go_range _ _ _ _ _ G k b Hb) as Le.
  destruct (decide (S i < b_end b)%nat) as [Lt | Ge].
  - rewrite (go_inner _ _ _ _ _ G k b i x Hb (proj1 Rg) Lt Hx) in Hsl. injection Hsl as <-.
    apply list_elem_of_singleton in Ht as ->. exists (S i). split_and!; [done | | by left].
    destruct (lookup_lt_is_Some_2 ir.(insns) (S i)) as [y Hy]; [lia |].
    rewrite (du_next _ _ _ _ (bt_decoded _ _ B) i x Hx), Hy. simpl. unfold index_of.
    by rewrite (proj1 (proj2 (du_insn _ _ _ _ (bt_decoded _ _ B) (S i) y Hy))).
  - destruct (go_outer _ _ _ _ _ G k b i slots Hb ltac:(lia) Hsl t Ht) as (j & k' & b' & Ej & Ekj & Hin & Hb2 & Es').
    exists j. split_and!; [done | done |]. right. split; [lia |]. by exists k', b'.
Qed.

(** A step goes to an instruction, along an edge. *)
Lemma step_edge pc i m pc' m' :
  Z.of_nat (length prog) < 2 ^ 64 ->
  index_of ir.(ir_of_slot) pc = Some i -> interp.iter prog (Z.of_nat pc) m = Some (interp.Continue pc' m') ->
  exists t j ss, pc' = Z.of_nat t /\ index_of ir.(ir_of_slot) t = Some j /\
    liveness.successors ir i = Some ss /\ j ∈ ss.
Proof using B.
  intros Hl Hi St. destruct (index_insn pc i Hi) as (x & Hx & _). pose proof (lookup_lt_Some _ _ _ Hx) as Li.
  destruct (bt_graph _ _ B) as (sl & ens & _ & _ & _ & G & _). destruct (go_in _ _ _ _ _ G i Li) as (k & b & Ek & Hb & Rg & _).
  destruct (step_block pc i m pc' m' k b Hl Hi Hb Rg St) as (t & j & -> & Ej & C).
  destruct (successors_total i Li) as (ss & Ess & _). exists t, j, ss. split_and!; [done | done | done |].
  unfold liveness.successors in Ess. rewrite Ek, Hb in Ess.
  destruct C as [[Lt ->] | (E & k' & b' & _ & Hin & Hb' & <-)].
  - rewrite (proj2 (Nat.ltb_lt _ _) Lt) in Ess. injection Ess as <-. by left.
  - rewrite (proj2 (Nat.ltb_ge _ _)) in Ess by lia. apply mapM_Some in Ess. apply list_elem_of_lookup in Hin as [p Hp].
    destruct (Forall2_lookup_l _ _ _ _ _ Ess Hp) as (y & Hy & Ey). rewrite Hb' in Ey. injection Ey as <-.
    by apply list_elem_of_lookup_2 in Hy.
Qed.
End Edges.

(** * Runs *)

(** No instruction traps with [BadPc]; only the fetch does. *)
Lemma access_not_bad_pc m addr size v :
  interp.load m addr size <> Some (Err BadPc) /\ interp.store m addr size v <> Some (Err BadPc).
Proof.
  unfold interp.load, interp.ctx_load, interp.store, interp.slot.
  split; repeat (case_match; simplify_eq/=; try done).
Qed.

Lemma exec_not_bad_pc op next m r m' : interp.exec op next m = Some (interp.Return r m') -> r <> Err BadPc.
Proof.
  intros E ->. revert E. unfold interp.exec. pose proof (fun a s => proj1 (access_not_bad_pc m a s 0)) as Al.
  pose proof (fun a s v => proj2 (access_not_bad_pc m a s v)) as As.
  destruct op as [| | | | | | | | | | ? [] | | | | |]; intros E; repeat (case_match; simplify_eq/=);
    first [discriminate | eapply Al; eassumption | eapply As; eassumption].
Qed.

Lemma run_loop_inside prog ir n pc i m r m' :
  built prog ir -> Z.of_nat (length prog) < 2 ^ 64 -> index_of ir.(ir_of_slot) pc = Some i ->
  interp.run_loop n prog (Z.of_nat pc) m = Some (r, m') -> r <> Err BadPc.
Proof.
  intros B Hl. revert pc i m. induction n as [| n IH]; intros pc i m Hi; cbn [interp.run_loop]; [by intros [= <- _] |].
  destruct (interp.iter prog (Z.of_nat pc) (interp.charge m)) as [[pc' m1 | r1 m1] |] eqn:E; [| | done].
  - destruct (step_edge prog ir B pc i _ pc' m1 Hl Hi E) as (t & j & ss & -> & Hj & _). by apply (IH t j).
  - intros [= <- <-]. unfold interp.iter in E. destruct (index_insn prog ir B pc i Hi) as (x & _ & _ & D).
    assert (Lt : (pc < length prog)%nat).
    { unfold decode in D. destruct (prog !! pc) eqn:Ep; [by apply lookup_lt_Some in Ep | done]. }
    rewrite (proj2 (Z.leb_gt _ _)) in E by lia. rewrite Nat2Z.id, D in E. by apply exec_not_bad_pc in E.
Qed.

Lemma start_index prog ir : built prog ir -> index_of ir.(ir_of_slot) 0 = Some 0%nat.
Proof.
  intros B. pose proof (bt_decoded _ _ B) as D. pose proof (du_first _ _ _ _ D) as F.
  destruct (insns ir) as [| x l] eqn:E; [by destruct (bt_ne _ _ B) |].
  simpl in F. destruct (du_insn _ _ _ _ D 0%nat x eq_refl) as (_ & A & _). rewrite F in A. unfold index_of. by rewrite A.
Qed.
