(* ===== verification/BpfDom.v ===== *)
(** Traversal order, dominators and back edges: the sixth pass of [Ir::build]
    ([bpf/verifier/src/ir.rs]), and the reachable blocks
    ([bpf/verifier/src/liveness.rs]).

    Stacks have their top first.  Every loop has fuel for the iterations it can
    take; [None] is a panic or a loop that has not ended. *)

From S2P Require Import Prelude BpfIr.
Import ir.

Definition degree (b : Block) : nat := length b.(b_succs).

(** The blocks and edges of a graph. *)
Fixpoint size (bs : list Block) : nat :=
  match bs with
  | [] => 0
  | b :: bs => S (degree b) + size bs
  end.

Module dom.
(** ** Traversal *)

Fixpoint postorder (fuel : nat) (blocks : list Block) (seen : list bool) (post : list nat)
    (stack : list (nat * nat)) : option (list nat) :=
  match stack with
  | [] => Some post
  | (b, next) :: rest =>
      match fuel with
      | O => None
      | S fuel =>
          let* blk := blocks !! b in
          match blk.(b_succs) !! next with
          | Some s =>
              let stack := (b, S next) :: rest in
              let* seen_s := seen !! s in
              if seen_s : bool then postorder fuel blocks seen post stack
              else postorder fuel blocks (<[s := true]> seen) post ((s, 0%nat) :: stack)
          | None => postorder fuel blocks seen (post ++ [b]) rest
          end
      end
  end.

Definition reverse_postorder (blocks : list Block) (entry : nat) : option (list nat) :=
  let* seen := modify (replicate (length blocks) false) entry (fun _ => true) in
  let* post := postorder (size blocks) blocks seen [] [(entry, 0%nat)] in
  Some (reverse post).

(** The successors of a block that are new, marked and pushed. *)
Fixpoint discover (succs : list nat) (seen : list bool) (stack : list nat) : option (list bool * list nat) :=
  match succs with
  | [] => Some (seen, stack)
  | s :: succs =>
      let* seen_s := seen !! s in
      if seen_s : bool then discover succs seen stack
      else discover succs (<[s := true]> seen) (s :: stack)
  end.

Fixpoint flood (fuel : nat) (blocks : list Block) (seen : list bool) (stack : list nat) : option (list bool) :=
  match stack with
  | [] => Some seen
  | b :: stack =>
      match fuel with
      | O => None
      | S fuel =>
          let* blk := blocks !! b in
          let* (seen, stack) := discover blk.(b_succs) seen stack in
          flood fuel blocks seen stack
      end
  end.

Definition reachable_blocks (blocks : list Block) (entry : option nat) : option (list bool) :=
  let seen := replicate (length blocks) false in
  match entry with
  | None => Some seen
  | Some entry =>
      let* seen := modify seen entry (fun _ => true) in
      flood (length blocks) blocks seen [entry]
  end.

(** ** Dominators *)

Definition set_idom (b : Block) (d : nat) : Block :=
  mk_block b.(b_start) b.(b_end) b.(b_succs) b.(b_preds) b.(b_subprog) (Some d) b.(b_rpo) b.(b_scc) b.(widen_here).

Definition set_rpo (b : Block) (k : nat) : Block :=
  mk_block b.(b_start) b.(b_end) b.(b_succs) b.(b_preds) b.(b_subprog) b.(b_idom) (Some k) b.(b_scc) b.(widen_here).

Definition mark (b : Block) : Block :=
  mk_block b.(b_start) b.(b_end) b.(b_succs) b.(b_preds) b.(b_subprog) b.(b_idom) b.(b_rpo) b.(b_scc) true.

(** [>] on numbers of which [NONE] is the largest. *)
Definition none_gt (x y : option nat) : bool :=
  match x, y with
  | Some x, Some y => (y <? x)%nat
  | None, Some _ => true
  | _, None => false
  end.

(** The inner loops of [intersect]: [inl] is its result, [inr] the block that
    is not after [b]. *)
Fixpoint climb (fuel : nat) (blocks : list Block) (a b : nat) : option (nat + nat) :=
  let* blk_a := blocks !! a in
  let* blk_b := blocks !! b in
  if none_gt blk_a.(b_rpo) blk_b.(b_rpo) then
    match fuel with
    | O => None
    | S fuel =>
        match blk_a.(b_idom) with
        | None => Some (inl b)
        | Some next => if (next =? a)%nat then Some (inl b) else climb fuel blocks next b
        end
    end
  else Some (inr a).

Fixpoint intersect_loop (fuel : nat) (blocks : list Block) (a b : nat) : option nat :=
  if (a =? b)%nat then Some a
  else
    match fuel with
    | O => None
    | S fuel =>
        let* r := climb (length blocks) blocks a b in
        match r with
        | inl r => Some r
        | inr a =>
            let* r := climb (length blocks) blocks b a in
            match r with
            | inl r => Some r
            | inr b => intersect_loop fuel blocks a b
            end
        end
    end.

Definition intersect (blocks : list Block) (a b : nat) : option nat :=
  intersect_loop (length blocks + length blocks) blocks a b.

(** The dominator of a block from those of its predecessors. *)
Fixpoint meet_preds (blocks : list Block) (preds : list nat) (new_idom : option nat) : option (option nat) :=
  match preds with
  | [] => Some new_idom
  | p :: preds =>
      let* blk := blocks !! p in
      match blk.(b_idom), new_idom with
      | None, _ => meet_preds blocks preds new_idom
      | Some _, None => meet_preds blocks preds (Some p)
      | Some _, Some d =>
          let* d := intersect blocks p d in
          meet_preds blocks preds (Some d)
      end
  end.

Definition update_idom (blocks : list Block) (b : nat) : option (list Block * bool) :=
  let* blk := blocks !! b in
  let* new_idom := meet_preds blocks blk.(b_preds) None in
  match new_idom with
  | Some d =>
      if bool_decide (blk.(b_idom) <> Some d) then Some (<[b := set_idom blk d]> blocks, true)
      else Some (blocks, false)
  | None => Some (blocks, false)
  end.

Fixpoint sweep (rpo : list nat) (blocks : list Block) (changed : bool) : option (list Block * bool) :=
  match rpo with
  | [] => Some (blocks, changed)
  | b :: rpo =>
      let* (blocks, c) := update_idom blocks b in
      sweep rpo blocks (changed || c)
  end.

Fixpoint idom_rounds (fuel : nat) (rpo : list nat) (blocks : list Block) : option (list Block) :=
  match fuel with
  | O => None
  | S fuel =>
      let* (blocks, changed) := sweep rpo blocks false in
      if changed : bool then idom_rounds fuel rpo blocks else Some blocks
  end.

(** Every round that changes anything brings some dominator closer to the
    entry. *)
Definition compute_idoms (blocks : list Block) (rpo : list nat) (entry : nat) : option (list Block) :=
  let* blocks := modify blocks entry (fun b => set_idom b entry) in
  idom_rounds (S (length blocks * S (length blocks))) (drop 1 rpo) blocks.

Fixpoint dominates_loop (fuel : nat) (blocks : list Block) (a cur : nat) : option bool :=
  if (cur =? a)%nat then Some true
  else
    match fuel with
    | O => None
    | S fuel =>
        let* blk := blocks !! cur in
        match blk.(b_idom) with
        | None => Some false
        | Some next => if (next =? cur)%nat then Some false else dominates_loop fuel blocks a next
        end
    end.

Definition dominates (blocks : list Block) (a b : nat) : option bool :=
  dominates_loop (S (length blocks)) blocks a b.

(** ** Pass 6 *)

Fixpoint number_rpo (k : nat) (rpo : list nat) (blocks : list Block) : option (list Block) :=
  match rpo with
  | [] => Some blocks
  | b :: rpo =>
      let* blocks := modify blocks b (fun blk => set_rpo blk k) in
      number_rpo (S k) rpo blocks
  end.

(** The back edges out of one block. *)
Fixpoint back_succs (b : nat) (succs : list nat) (st : list Block * list (nat * nat))
    : option (list Block * list (nat * nat)) :=
  match succs with
  | [] => Some st
  | s :: succs =>
      let '(blocks, back_edges) := st in
      let* d := dominates blocks s b in
      if d : bool then
        let* blocks := modify blocks s mark in
        back_succs b succs (blocks, back_edges ++ [(b, s)])
      else back_succs b succs st
  end.

Fixpoint find_back_edges (rpo : list nat) (st : list Block * list (nat * nat))
    : option (list Block * list (nat * nat)) :=
  match rpo with
  | [] => Some st
  | b :: rpo =>
      let* blk := fst st !! b in
      let* st := back_succs b blk.(b_succs) st in
      find_back_edges rpo st
  end.

Definition set_sp_rpo (sp : Subprog) (rpo : list nat) : Subprog :=
  mk_subprog sp.(entry_slot) sp.(entry_block) rpo sp.(callees).

(** One subprogram: its blocks in order, their dominators and back edges. *)
Definition analyse (st : list Block * list (nat * nat)) (entry : nat)
    : option (list Block * list (nat * nat) * list nat) :=
  let '(blocks, back_edges) := st in
  let* rpo := reverse_postorder blocks entry in
  let* blocks := number_rpo 0 rpo blocks in
  let* blocks := compute_idoms blocks rpo entry in
  let* (blocks, back_edges) := find_back_edges rpo (blocks, back_edges) in
  Some (blocks, back_edges, rpo).

Fixpoint analyse_all (si : nat) (entries : list nat) (st : list Block * list (nat * nat)) (sps : list Subprog)
    : option (list Block * list (nat * nat) * list Subprog) :=
  match entries with
  | [] => Some (st, sps)
  | entry :: entries =>
      let* (st, rpo) := analyse st entry in
      let* sps := modify sps si (fun sp => set_sp_rpo sp rpo) in
      analyse_all (S si) entries st sps
  end.
End dom.
