(* ===== verification/BpfGraph.v ===== *)
(** The graph of the blocks: walks, the blocks a pass may only add to, and the
    measure of a depth-first search.

    The traversals of [BpfDom] visit exactly the blocks reachable from the entry,
    and in reverse postorder every block but the entry comes after one of its
    predecessors. *)

From stdpp Require Import sets relations.
From stdpp Require Import sets.
From S2P Require Import Prelude BpfIr BpfBlocks BpfDom.

Import ir.
#[local] Open Scope nat_scope.

(** * Passes that add to the blocks *)

(** The same block with more known about it: passes 6 to 7b keep its
    instructions and edges, and only add marks. *)
Record extends (b b' : Block) : Prop := {
  ext_start : b'.(b_start) = b.(b_start);
  ext_end : b'.(b_end) = b.(b_end);
  ext_succs : b'.(b_succs) = b.(b_succs);
  ext_preds : b'.(b_preds) = b.(b_preds);
  ext_subprog : b'.(b_subprog) = b.(b_subprog);
  ext_mark : b.(widen_here) = true -> b'.(widen_here) = true
}.

#[export] Instance extends_preorder : PreOrder extends.
Proof. split; [by split |]. intros a b c [] []. split; [congruence .. |]. auto. Qed.

Definition extended : relation (list Block) := Forall2 extends.

#[export] Instance extended_preorder : PreOrder extended.
Proof. apply _. Qed.

Lemma lookup_insert_cases {A} (l : list A) i x k y :
  <[i := x]> l !! k = Some y -> (k = i /\ y = x) \/ (k <> i /\ l !! k = Some y).
Proof. intros [(-> & -> & _) | [? ?]]%list_lookup_insert_Some; auto. Qed.

Lemma extended_insert bs i b b' : bs !! i = Some b -> extends b b' -> extended bs (<[i := b']> bs).
Proof.
  intros Eb H. apply Forall2_same_length_lookup. split; [by rewrite length_insert |].
  intros k x y Hx [[-> ->] | [_ Hy]]%lookup_insert_cases; by simplify_eq.
Qed.

Lemma extended_modify bs i f :
  (forall b, extends b (f b)) -> i < length bs -> exists b, bs !! i = Some b /\ modify bs i f = Some (<[i := f b]> bs) /\
    extended bs (<[i := f b]> bs).
Proof. intros H L. destruct (modify_total bs i f L) as (b & Eb & E). exists b. split_and!; [done .. |]. by eapply extended_insert. Qed.

Lemma extended_length bs bs' : extended bs bs' -> length bs' = length bs.
Proof. intros H. by rewrite (Forall2_length _ _ _ H). Qed.

(** From pass 7 on the dominators stay too. *)
Definition annotates (b b' : Block) : Prop := extends b b' /\ b'.(b_idom) = b.(b_idom).

#[export] Instance annotates_preorder : PreOrder annotates.
Proof. split; [by split |]. intros a b c [X1 I1] [X2 I2]. split; [by transitivity b | congruence]. Qed.

Definition annotated : relation (list Block) := Forall2 annotates.

#[export] Instance annotated_preorder : PreOrder annotated.
Proof. apply _. Qed.

Definition idom_at (bs : list Block) (v : nat) : option nat := bs !! v ≫= b_idom.

Lemma annotated_extended bs bs' : annotated bs bs' -> extended bs bs'.
Proof. intros X. eapply Forall2_impl; [done |]. by intros b b' []. Qed.

Lemma annotated_idom bs bs' v : annotated bs bs' -> idom_at bs' v = idom_at bs v.
Proof.
  intros X. unfold idom_at. destruct (bs !! v) as [b |] eqn:E.
  - destruct (Forall2_lookup_l _ _ _ _ _ X E) as (b' & -> & _ & H). done.
  - apply lookup_ge_None in E. rewrite (Forall2_length _ _ _ X) in E. apply lookup_ge_None in E. by rewrite E.
Qed.

Lemma annotated_length bs bs' : annotated bs bs' -> length bs' = length bs.
Proof. intros X. by apply extended_length, annotated_extended. Qed.

Lemma annotated_modify bs i f :
  (forall b, annotates b (f b)) -> i < length bs -> exists b, bs !! i = Some b /\ modify bs i f = Some (<[i := f b]> bs) /\
    annotated bs (<[i := f b]> bs).
Proof.
  intros H L. destruct (modify_total bs i f L) as (b & Eb & E). exists b. split_and!; [done .. |].
  apply Forall2_same_length_lookup. split; [by rewrite length_insert |].
  intros k x y Hx [[-> ->] | [_ Hy]]%lookup_insert_cases; by simplify_eq.
Qed.

(** * Edges *)

Definition in_range (bs : list Block) : Prop := forall v b w, bs !! v = Some b -> w ∈ b.(b_succs) -> w < length bs.

Definition preds_in (m : nat) (bs : list Block) : Prop := Forall (fun b => Forall (fun p => p < m) b.(b_preds)) bs.

Lemma in_range_extended bs bs' : extended bs bs' -> in_range bs -> in_range bs'.
Proof.
  intros W R v b' w E Hw. rewrite (extended_length _ _ W).
  destruct (Forall2_lookup_r _ _ _ _ _ W E) as (b & Eb & X). rewrite (ext_succs _ _ X) in Hw. by eapply R.
Qed.

Lemma preds_in_extended m bs bs' : extended bs bs' -> preds_in m bs -> preds_in m bs'.
Proof.
  unfold preds_in. induction 1 as [| b b' l l' X W IH]; intros P; inversion P; constructor; [| auto].
  by rewrite (ext_preds _ _ X).
Qed.

(** The blocks a walk from [v] enters, to its end [u]. *)
Inductive walk (bs : list Block) : nat -> list nat -> nat -> Prop :=
| walk_nil v : walk bs v [] v
| walk_cons v b w c u : bs !! v = Some b -> w ∈ b.(b_succs) -> walk bs w c u -> walk bs v (w :: c) u.

Lemma walk_snoc bs v c u b w : walk bs v c u -> bs !! u = Some b -> w ∈ b.(b_succs) -> walk bs v (c ++ [w]) w.
Proof. induction 1; intros Eb Hw; simpl; econstructor; eauto using walk. Qed.

Lemma walk_extended bs bs' v c u : extended bs bs' -> walk bs v c u -> walk bs' v c u.
Proof.
  intros W. induction 1 as [| v b w c u Eb Hw _ IH]; [constructor |].
  destruct (Forall2_lookup_l _ _ _ _ _ W Eb) as (b' & Eb' & X). econstructor; [done | | done].
  by rewrite (ext_succs _ _ X).
Qed.

(** * The cost of a search *)

Section Cost.
Context (bs : list Block).

Definition degree_at (v : nat) : nat := from_option degree 0 (bs !! v).

(** What entering the blocks not yet seen will cost. *)
Definition unseen (seen : list bool) : nat :=
  sum_list (zip_with (fun b (s : bool) => if s then 0 else S (degree b)) bs seen).

Definition pending (work : list (nat * nat)) : nat := sum_list ((fun p => S (degree_at p.1 - p.2)) <$> work).

Lemma unseen_enter seen w b :
  bs !! w = Some b -> seen !! w = Some false -> unseen seen = S (degree b) + unseen (<[w := true]> seen).
Proof.
  unfold unseen. generalize bs as l. intros l. revert seen w.
  induction l as [| b' l IH]; intros seen w Hb Hi; [done |]. destruct seen as [| i' seen]; [done |].
  destruct w as [| w]; simpl in *; simplify_eq; [done |]. rewrite (IH seen w) by done. lia.
Qed.

Lemma unseen_le seen : unseen seen <= size bs.
Proof.
  unfold unseen. generalize bs as l. intros l. revert seen.
  induction l as [| b l IH]; intros seen; [done |].
  destruct seen as [| [] seen]; simpl; [lia | |]; specialize (IH seen); lia.
Qed.

Lemma pending_cons v si rest : pending ((v, si) :: rest) = S (degree_at v - si) + pending rest.
Proof. done. Qed.

Lemma pending_advance v si b rest :
  bs !! v = Some b -> si < degree b -> S (pending ((v, S si) :: rest)) = pending ((v, si) :: rest).
Proof. intros E L. rewrite !pending_cons. unfold degree_at. rewrite E. simpl. lia. Qed.

(** Entering [w] from [v] costs no more than the edge. *)
Lemma cost_enter seen v si b rest w :
  bs !! v = Some b -> b.(b_succs) !! si = Some w -> seen !! w = Some false -> length seen = length bs ->
  S (unseen (<[w := true]> seen) + pending ((w, 0) :: (v, S si) :: rest)) = unseen seen + pending ((v, si) :: rest).
Proof.
  intros Eb Ew Es L. destruct (lookup_lt_is_Some_2 bs w) as [bw Ebw]; [rewrite <- L; by eapply lookup_lt_Some |].
  rewrite <- (pending_advance v si b) by (done || by eapply lookup_lt_Some).
  rewrite (unseen_enter _ w bw Ebw Es), (pending_cons w). unfold degree_at at 1. rewrite Ebw. simpl. lia.
Qed.

(** A search from one block fits in [size]. *)
Lemma cost_start seen r :
  r < length bs -> seen !! r = Some false -> unseen (<[r := true]> seen) + pending [(r, 0)] <= size bs.
Proof.
  intros Hr Es. pose proof (unseen_le seen). destruct (lookup_lt_is_Some_2 bs r Hr) as [b Eb].
  rewrite (unseen_enter _ r b Eb Es) in *. rewrite pending_cons. unfold degree_at, pending. rewrite Eb. simpl. lia.
Qed.
End Cost.

Import ir dom.
#[local] Open Scope nat_scope.

Section Traversal.
Context (bs : list Block) (R : in_range bs) (entry : nat) (Hentry : entry < length bs).

Definition reach (v : nat) : Prop := exists c, walk bs entry c v.

Definition succ (u v : nat) : Prop := exists b, bs !! u = Some b /\ v ∈ b.(b_succs).

Lemma reach_succ u v : reach u -> succ u v -> reach v.
Proof. intros [c W] (b & Eb & Hv). exists (c ++ [v]). by eapply walk_snoc. Qed.

Lemma reach_ind (P : nat -> Prop) : P entry -> (forall u v, reach u -> P u -> succ u v -> P v) -> forall v, reach v -> P v.
Proof.
  intros H0 HS v [c W]. assert (G : forall a c v, walk bs a c v -> reach a -> P a -> P v).
  { clear v c W. intros a c v. induction 1 as [| a b w c u Eb Hw _ IH]; [done |]. intros Ra Pa.
    assert (succ a w) by (by exists b). apply IH; [by eapply reach_succ | by eapply HS]. }
  eapply G; [done | exists []; constructor | done].
Qed.

Lemma succ_lt u v : succ u v -> v < length bs.
Proof. intros (b & Eb & Hv). by eapply R. Qed.

Lemma reach_lt v : reach v -> v < length bs.
Proof. apply (reach_ind (fun v => v < length bs)); [done |]. intros u w _ _. apply succ_lt. Qed.

(** ** Reverse postorder *)

(** Every open block but the entry was entered from the one below it. *)
Fixpoint entered (stack : list (nat * nat)) : Prop :=
  match stack with
  | [] => True
  | (v, _) :: rest =>
      match rest with
      | [] => v = entry
      | (p, _) :: _ => succ p v
      end /\ entered rest
  end.

Record dfs (seen : list bool) (rp : list nat) (stack : list (nat * nat)) : Prop := {
  dfs_len : length seen = length bs;
  dfs_seen v : seen !! v = Some true <-> v ∈ stack.*1 \/ v ∈ rp;
  dfs_nodup : NoDup (stack.*1 ++ rp);
  dfs_reach v : seen !! v = Some true -> reach v;
  dfs_stack v k : (v, k) ∈ stack -> exists b, bs !! v = Some b /\ k <= degree b /\
    forall i w, i < k -> b.(b_succs) !! i = Some w -> seen !! w = Some true;
  dfs_done v w : v ∈ rp -> succ v w -> seen !! w = Some true;
  dfs_entered : entered stack;
  dfs_order l1 v l2 : rp = l1 ++ v :: l2 -> v = entry \/ exists u, succ u v /\ (u ∈ l1 \/ u ∈ stack.*1);
  dfs_bottom : stack = [] -> exists l, rp = entry :: l;
}.

Lemma dfs_skip seen rp v k rest b w :
  dfs seen rp ((v, k) :: rest) -> bs !! v = Some b -> b.(b_succs) !! k = Some w -> seen !! w = Some true ->
  dfs seen rp ((v, S k) :: rest).
Proof.
  intros [] Eb Ew Es. split; try done.
  intros v' k' [E | H]%elem_of_cons; [| apply dfs_stack0; by right]. injection E as -> ->.
  destruct (dfs_stack0 v k) as (b' & Eb' & Lk & H); [by left |]. simplify_eq. exists b. split; [done |].
  split; [by apply lookup_lt_Some in Ew |]. intros i u Hi Eu.
  destruct (decide (i = k)) as [-> |]; [by simplify_eq | apply (H i); [lia | done]].
Qed.

Lemma dfs_push seen rp v k rest b w :
  dfs seen rp ((v, k) :: rest) -> bs !! v = Some b -> b.(b_succs) !! k = Some w -> seen !! w = Some false ->
  dfs (<[w := true]> seen) rp ((w, 0) :: (v, S k) :: rest).
Proof.
  intros [H1 H2 H3 H4 H5 H6 H7 H8 H9] Eb Ew Es.
  assert (S : succ v w) by (exists b; split; [done | by eapply list_elem_of_lookup_2]).
  assert (Lw : w < length seen) by (by eapply lookup_lt_Some).
  assert (M : forall u, <[w := true]> seen !! u = Some true <-> u = w \/ seen !! u = Some true).
  { intros u. rewrite list_lookup_insert_Some. destruct (decide (w = u)) as [-> |]; naive_solver. }
  assert (New : w ∉ ((v, k) :: rest).*1 ++ rp) by (rewrite elem_of_app, <- H2; congruence).
  split; try done.
  - by rewrite length_insert.
  - intros u. rewrite M, H2. simpl. rewrite !elem_of_cons. tauto.
  - by apply NoDup_cons.
  - intros u [-> | Hu]%M; [| by apply H4]. eapply reach_succ; [| done]. apply H4, H2. left. by left.
  - intros u j [E | [E | Hu]%elem_of_cons]%elem_of_cons.
    + injection E as -> ->. destruct (lookup_lt_is_Some_2 bs w) as [bw Ebw]; [by rewrite <- H1 |].
      exists bw. split; [done |]. split; [lia | intros; lia].
    + injection E as -> ->. destruct (H5 v k) as (b' & Eb' & Lk & H); [by left |]. simplify_eq. exists b. split; [done |].
      split; [by apply lookup_lt_Some in Ew |]. intros i u Hi Eu. apply M.
      destruct (decide (i = k)) as [-> |]; [simplify_eq; by left | right; apply (H i); [lia | done]].
    + destruct (H5 u j) as (b' & Eb' & Lk & H); [by right |]. exists b'. split_and!; [done | done |].
      intros i x Hi Ex. apply M. right. by apply (H i).
  - intros u x Hu Hx. apply M. right. by eapply H6.
  - intros l1 u l2 E. destruct (H8 l1 u l2 E) as [-> | (p & Hp & Q)]; [by left |]. right. exists p. split; [done |].
    destruct Q as [Q | Q]; [by left |]. right. by right.
Qed.

Lemma dfs_pop seen rp v k rest b :
  dfs seen rp ((v, k) :: rest) -> bs !! v = Some b -> b.(b_succs) !! k = None -> dfs seen (v :: rp) rest.
Proof.
  intros [H1 H2 H3 H4 H5 H6 H7 H8 H9] Eb Ew.
  assert (P : v = entry /\ rest = [] \/ exists p, succ p v /\ p ∈ rest.*1).
  { destruct H7 as [H7 _]. destruct rest as [| [p ?] rest]; [by left |]. right. exists p. split; [done | by left]. }
  split; try done.
  - intros u. rewrite H2. simpl. rewrite !elem_of_cons. tauto.
  - simpl in H3. rewrite <- Permutation_middle. done.
  - intros u j Hu. apply H5. by right.
  - intros u x [-> | Hu]%elem_of_cons Hx; [| by eapply H6]. destruct Hx as (b' & Eb' & Hx). simplify_eq.
    destruct (H5 v k) as (b2 & Eb2 & Lk & H); [by left |]. simplify_eq.
    apply list_elem_of_lookup in Hx as [i Ei]. apply (H i); [| done].
    apply lookup_ge_None in Ew. apply lookup_lt_Some in Ei. lia.
  - by destruct H7.
  - intros l1 u l2 E. destruct l1 as [| y l1]; injection E as <- E.
    + destruct P as [[-> _] | (p & Hp & Q)]; [by left |]. right. exists p. auto.
    + destruct (H8 l1 u l2 E) as [-> | (p & Hp & Q)]; [by left |]. right. exists p. split; [done |].
      destruct Q as [Q | Q]; [left; by right |]. simpl in Q. apply elem_of_cons in Q as [-> | Q]; [left; by left | by right].
  - intros ->. destruct P as [[-> _] | (p & _ & Q)]; [by exists rp | by apply elem_of_nil in Q].
Qed.

Lemma postorder_ok fuel seen post stack :
  dfs seen (reverse post) stack -> unseen bs seen + pending bs stack <= fuel ->
  exists post' seen', postorder fuel bs seen post stack = Some post' /\ dfs seen' (reverse post') [].
Proof.
  revert seen post stack. induction fuel as [| fuel IH]; intros seen post [| [v k] rest] I L; simpl; eauto.
  { rewrite pending_cons in L. lia. }
  destruct (dfs_stack _ _ _ I v k) as (b & Eb & Lk & _); [by left |]. rewrite Eb. simpl.
  destruct (b_succs b !! k) as [w |] eqn:Ew.
  - destruct (lookup_lt_is_Some_2 seen w) as [sw Es].
    { rewrite (dfs_len _ _ _ I). eapply R; [done | by eapply list_elem_of_lookup_2]. }
    rewrite Es. simpl. destruct sw; apply IH.
    + by eapply dfs_skip.
    + rewrite <- (pending_advance bs v k b) in L by (done || by eapply lookup_lt_Some). lia.
    + by eapply dfs_push.
    + rewrite <- (cost_enter bs seen v k b rest w) in L by (done || apply I). lia.
  - apply IH; [| rewrite pending_cons in L; lia]. rewrite reverse_snoc. by eapply dfs_pop.
Qed.

Lemma dfs_start : dfs (<[entry := true]> (replicate (length bs) false)) [] [(entry, 0)].
Proof.
  assert (M : forall v, <[entry := true]> (replicate (length bs) false) !! v = Some true <-> v = entry).
  { intros v. rewrite list_lookup_insert_Some, lookup_replicate, length_replicate. naive_solver. }
  split; try done.
  - by rewrite length_insert, length_replicate.
  - intros v. rewrite M. simpl. rewrite list_elem_of_singleton, elem_of_nil. tauto.
  - apply NoDup_singleton.
  - intros v ->%M. exists []. constructor.
  - intros v k [= -> ->]%list_elem_of_singleton. destruct (lookup_lt_is_Some_2 bs entry Hentry) as [b Eb].
    exists b. split_and!; [done | lia | intros; lia].
  - by intros v w ?%elem_of_nil.
  - intros l1 v l2 E. by destruct l1.
Qed.

Lemma reverse_postorder_spec :
  exists rpo, reverse_postorder bs entry = Some rpo /\ NoDup rpo /\ (exists l, rpo = entry :: l) /\
    (forall v, v ∈ rpo <-> reach v) /\
    (forall l1 v l2, rpo = l1 ++ v :: l2 -> v = entry \/ exists u, succ u v /\ u ∈ l1).
Proof.
  unfold reverse_postorder. set (s0 := replicate (length bs) false).
  assert (E0 : s0 !! entry = Some false) by (by apply lookup_replicate).
  destruct (modify_total s0 entry (fun _ => true)) as (x & _ & ->); [by unfold s0; rewrite length_replicate |]. simpl.
  destruct (postorder_ok (size bs) (<[entry := true]> s0) [] [(entry, 0)]) as (post & seen & -> & I).
  { apply dfs_start. }
  { by apply cost_start. }
  simpl. exists (reverse post). split; [done |]. split; [apply (dfs_nodup _ _ _ I) |]. split; [by apply (dfs_bottom _ _ _ I) |].
  destruct (dfs_bottom _ _ _ I eq_refl) as [l El]. split.
  - intros v. split; [intros Hv; apply (dfs_reach _ _ _ I); apply (dfs_seen _ _ _ I); by right |].
    intros Rv. assert (Q : seen !! v = Some true).
    { revert v Rv. apply (reach_ind (fun v => seen !! v = Some true)).
      - apply (dfs_seen _ _ _ I). right. rewrite El. by left.
      - intros u v _ Hu S. eapply (dfs_done _ _ _ I); [| done]. apply (dfs_seen _ _ _ I) in Hu as [Hu | Hu]; [| done].
        by apply elem_of_nil in Hu. }
    apply (dfs_seen _ _ _ I) in Q as [Q | Q]; [by apply elem_of_nil in Q | done].
  - intros l1 v l2 E. destruct (dfs_order _ _ _ I l1 v l2 E) as [-> | (u & S & [Q | Q])]; [by left | by right; exists u |].
    by apply elem_of_nil in Q.
Qed.
(** ** Reachable blocks *)

Definition unmet (seen : list bool) : nat := length (filter (fun s => s = false) seen).

Lemma unmet_insert seen w : seen !! w = Some false -> unmet seen = S (unmet (<[w := true]> seen)).
Proof.
  unfold unmet. revert w. induction seen as [| s seen IH]; intros w E; [done |].
  destruct w as [| w]; simpl in *; simplify_eq; rewrite !filter_cons.
  - rewrite (decide_True (P := false = false)) by done. by rewrite decide_False.
  - case_decide; simpl; by rewrite (IH w E).
Qed.

(** The blocks seen are those on the stack and those whose successors are seen. *)
Record flooded (seen : list bool) (stack : list nat) : Prop := {
  fl_len : length seen = length bs;
  fl_reach v : seen !! v = Some true -> reach v;
  fl_stack v : v ∈ stack -> seen !! v = Some true;
  fl_done v w : seen !! v = Some true -> (v ∉ stack) -> succ v w -> seen !! w = Some true
}.

Lemma discover_ok b succs seen stack :
  reach b -> (forall w, w ∈ succs -> succ b w) -> length seen = length bs ->
  exists seen' stack', discover succs seen stack = Some (seen', stack' ++ stack) /\
    length seen' = length bs /\ unmet seen' + length stack' = unmet seen /\
    (forall v, seen' !! v = Some true <-> seen !! v = Some true \/ v ∈ stack') /\
    (forall v, v ∈ stack' -> succ b v) /\ (forall w, w ∈ succs -> seen' !! w = Some true).
Proof.
  intros Rb. revert seen stack. induction succs as [| s succs IH]; intros seen stack Hs L; simpl.
  { exists seen, []. split_and!; [done | done | simpl; lia | | | ]; [intros v; rewrite elem_of_nil; tauto | | ]; by intros v ?%elem_of_nil. }
  assert (S : succ b s) by (apply Hs; by left).
  destruct (lookup_lt_is_Some_2 seen s) as [ss Es]; [rewrite L; by eapply succ_lt |]. rewrite Es. simpl.
  assert (Hs' : forall w, w ∈ succs -> succ b w) by (intros w Hw; apply Hs; by right). destruct ss.
  - destruct (IH seen stack Hs' L) as (seen' & st & E & L' & U & M & P & Q). exists seen', st. split_and!; try done.
    intros w [-> | Hw]%elem_of_cons; [apply M; by left | by apply Q].
  - destruct (IH (<[s := true]> seen) (s :: stack) Hs') as (seen' & st & E & L' & U & M & P & Q); [by rewrite length_insert |].
    exists seen', (st ++ [s]). rewrite <- app_assoc. split_and!; try done.
    + rewrite length_app, (unmet_insert _ _ Es). simpl. lia.
    + intros v. rewrite M, list_lookup_insert_Some, elem_of_app, list_elem_of_singleton.
      pose proof (lookup_lt_Some _ _ _ Es). destruct (decide (s = v)) as [-> |]; naive_solver.
    + intros v [Hv | ->%list_elem_of_singleton]%elem_of_app; [by apply P | done].
    + intros w [-> | Hw]%elem_of_cons; [| by apply Q]. apply M. left. apply list_lookup_insert_eq. by eapply lookup_lt_Some.
Qed.

Lemma flood_ok fuel seen stack :
  flooded seen stack -> unmet seen + length stack <= fuel ->
  exists seen', flood fuel bs seen stack = Some seen' /\ flooded seen' [] /\ (forall v, seen !! v = Some true -> seen' !! v = Some true).
Proof.
  revert seen stack. induction fuel as [| fuel IH]; intros seen [| b stack] I L; simpl in *; eauto; [lia |].
  pose proof (fl_reach _ _ I b (fl_stack _ _ I b ltac:(by left))) as Rb.
  destruct (lookup_lt_is_Some_2 bs b (reach_lt b Rb)) as [blk Eb]. rewrite Eb. simpl.
  destruct (discover_ok b blk.(b_succs) seen stack Rb) as (seen' & st & -> & L' & U & M & P & Q).
  { intros w Hw. by exists blk. }
  { apply (fl_len _ _ I). }
  simpl. destruct (IH seen' (st ++ stack)) as (seen2 & -> & I2 & Mono).
  - destruct I as [I1 I2 I3 I4]. split; [done | | |].
    + intros v [Hv | Hv]%M; [by apply I2 | eapply reach_succ; [done | by apply P]].
    + intros v [Hv | Hv]%elem_of_app; apply M; [by right | left; apply I3; by right].
    + intros v w [Hv | Hv]%M N; rewrite elem_of_app in N; [| by destruct N; left]. intros S.
      destruct (decide (v = b)) as [-> |].
      * destruct S as (blk' & E & Hw). simplify_eq. by apply Q.
      * apply M. left. eapply I4; [done | | done]. rewrite elem_of_cons. tauto.
  - rewrite length_app. lia.
  - exists seen2. split; [done |]. split; [done |]. intros v Hv. apply Mono, M. by left.
Qed.

Lemma reachable_blocks_spec :
  exists seen, reachable_blocks bs (Some entry) = Some seen /\ length seen = length bs /\
    forall v, seen !! v = Some true <-> reach v.
Proof.
  unfold reachable_blocks. set (s0 := replicate (length bs) false).
  assert (L0 : length s0 = length bs) by apply length_replicate.
  assert (E0 : s0 !! entry = Some false) by (by apply lookup_replicate).
  destruct (modify_total s0 entry (fun _ => true)) as (x & _ & ->); [by rewrite L0 |]. simpl.
  assert (M : forall v, <[entry := true]> s0 !! v = Some true <-> v = entry).
  { intros v. unfold s0. rewrite list_lookup_insert_Some, lookup_replicate, length_replicate. naive_solver. }
  destruct (flood_ok (length bs) (<[entry := true]> s0) [entry]) as (seen & -> & [I1 I2 I3 I4] & Mono).
  - split; [by rewrite length_insert | | |].
    + intros v ->%M. exists []. constructor.
    + intros v ->%list_elem_of_singleton. by apply M.
    + intros v w ->%M []. by left.
  - pose proof (unmet_insert _ _ E0). pose proof (length_filter (fun s => s = false) s0).
    unfold unmet in *. simpl. lia.
  - exists seen. split; [done |]. split; [done |]. intros v. split; [apply I2 |]. intros Rv. revert v Rv.
    apply (reach_ind (fun v => seen !! v = Some true)); [apply Mono; by apply M |].
    intros u v _ Hu S. eapply I4; [done | apply not_elem_of_nil | done].
Qed.
End Traversal.
