(* ===== verification/BpfDomTree.v ===== *)
(** Dominator trees, abstractly: what one visit of the iteration of Cooper,
    Harvey and Kennedy does to a partial tree, and what the tree is when a
    sweep changes nothing. *)

From stdpp Require Import sets.
From S2P Require Import Prelude.
#[local] Open Scope nat_scope.

Section Tree.
Context (e : nat) (pos : nat -> option nat) (preds : nat -> list nat).

(** [u] comes earlier in the traversal than [v]. *)
Definition before (u v : nat) : Prop := exists i j, pos u = Some i /\ pos v = Some j /\ i < j.

Definition upto (u v : nat) : Prop := u = v \/ before u v.

Context (pos_root : pos e = Some 0)
  (pos_inj : forall u v i, pos u = Some i -> pos v = Some i -> u = v)
  (pos_fwd : forall v, v <> e -> is_Some (pos v) -> exists u, u ∈ preds v /\ before u v).

Lemma before_irrefl v : ~ before v v.
Proof. intros (i & j & E1 & E2 & L). simplify_eq. lia. Qed.

#[local] Instance before_trans : Transitive before.
Proof. intros u v w (i & j & E1 & E2 & L) (i' & j' & E3 & E4 & L'). simplify_eq. exists i, j'. split_and!; [done .. | lia]. Qed.

Lemma upto_before u v w : upto u v -> before v w -> before u w.
Proof. intros [-> | H] H'; [done | by etransitivity]. Qed.

Lemma not_before_root v : ~ before v e.
Proof. intros (i & j & _ & E & L). simplify_eq. lia. Qed.

Lemma fwd_ind (P : nat -> Prop) : (forall v, (forall u, before u v -> P u) -> P v) -> forall v, P v.
Proof.
  intros H v. assert (G : forall k v, from_option id 0 (pos v) < k -> P v); [| apply (G (S (from_option id 0 (pos v)))); lia].
  clear v. induction k as [| k IH]; intros v L; [lia |]. apply H. intros u (i & j & E1 & E2 & L').
  apply IH. rewrite E1. rewrite E2 in L. simpl in *. lia.
Qed.

(** ** Trees *)

(** A partial map to parents: every parent is earlier and has one itself. *)
Record tree (D : nat -> option nat) : Prop := {
  tree_root : D e = Some e;
  tree_up v d : D v = Some d -> v <> e -> before d v /\ is_Some (D d)
}.

Inductive anc (D : nat -> option nat) (x : nat) : nat -> Prop :=
| anc_self : is_Some (D x) -> anc D x x
| anc_up v d : D v = Some d -> v <> e -> anc D x d -> anc D x v.

Lemma anc_def D x v : anc D x v -> is_Some (D x) /\ is_Some (D v).
Proof. induction 1 as [| v d E _ _ [IH _]]; [done |]. by rewrite E. Qed.

Lemma anc_upto D x v : tree D -> anc D x v -> upto x v.
Proof.
  intros T. induction 1 as [| v d E N _ IH]; [by left |]. right.
  destruct (tree_up _ T v d E N) as [B _]. by eapply upto_before.
Qed.

Lemma anc_trans D x y z : anc D x y -> anc D y z -> anc D x z.
Proof. intros H. induction 1; [done |]. by eapply anc_up. Qed.

Lemma anc_inv D x v : anc D x v -> x = v \/ exists d, D v = Some d /\ v <> e /\ anc D x d.
Proof. intros []; eauto. Qed.

(** [m] is where the paths to the root from all of [ps] meet. *)
Definition meets (D : nat -> option nat) (ps : nat -> Prop) (m : nat) : Prop :=
  forall x, anc D x m <-> forall p, ps p -> is_Some (D p) -> anc D x p.

(** ** The invariant of the iteration *)

(** A recomputed parent is not later than the one in place. *)
Definition bounded (D : nat -> option nat) : Prop :=
  forall c d x, c <> e -> D c = Some d -> (forall p, p ∈ preds c -> is_Some (D p) -> anc D x p) -> upto x d.

(** The parent lies on the path of every earlier predecessor. *)
Definition fwd_at (D : nat -> option nat) (c : nat) : Prop :=
  forall d f, D c = Some d -> f ∈ preds c -> before f c -> anc D d f.

(** Two sweeps, the second as far as [c]: the path of an earlier block, below
    one of its old ancestors, leads through that ancestor. *)
Lemma sweep_path D0 D c d f x :
  (forall v, v <> e -> fwd_at D0 v) -> (forall v, v <> e -> before v c -> fwd_at D v) ->
  tree D0 -> anc D0 d f -> before f c -> anc D x f -> upto x d -> anc D x d.
Proof.
  intros F0 F T0. revert d x. induction f as [f IH] using fwd_ind. intros d x A0 Bf A U.
  destruct (anc_inv _ _ _ A0) as [-> | (d1 & E1 & N & A1)]; [done |].
  assert (Bd : before d f) by (destruct (tree_up _ T0 f d1 E1 N); eapply upto_before; [by eapply anc_upto | done]).
  destruct (anc_inv _ _ _ A) as [-> | (m & Em & _ & Am)].
  { destruct (before_irrefl f). by eapply upto_before. }
  destruct (pos_fwd f N) as (g & Hg & Bg); [destruct Bf as (i & ? & -> & _); by eexists |].
  apply (IH g Bg); [| by etransitivity | | done].
  - eapply anc_trans; [done |]. by eapply F0.
  - eapply anc_trans; [done |]. by eapply F.
Qed.

(** ** One visit *)

Definition upd (D : nat -> option nat) (c m : nat) : nat -> option nat :=
  fun v => if decide (v = c) then Some m else D v.

Section Visit.
Context (D : nat -> option nat) (c m : nat) (T : tree D) (Nc : c <> e) (Bm : before m c) (Dm : is_Some (D m)).

Lemma upd_other v : v <> c -> upd D c m v = D v.
Proof. intros N. unfold upd. by rewrite decide_False. Qed.

Lemma upd_self : upd D c m c = Some m.
Proof. unfold upd. by rewrite decide_True. Qed.

Lemma upd_some v : is_Some (D v) -> is_Some (upd D c m v).
Proof. unfold upd. by case_decide. Qed.

Lemma upd_tree : tree (upd D c m).
Proof.
  split; [rewrite upd_other by done; apply tree_root; done |]. intros v d E N. unfold upd in E. case_decide as H.
  - injection E as <-. rewrite H. split; [done | by apply upd_some].
  - destruct (tree_up _ T v d E N). split; [done | by apply upd_some].
Qed.

(** Paths that avoid [c] are as before. *)
Lemma upd_avoid x v : ~ anc D c v -> anc D x v -> anc (upd D c m) x v.
Proof.
  intros N A. induction A as [S | v d E Ne A IH]; [by apply anc_self, upd_some |].
  apply (anc_up _ _ v d); [| done | apply IH; intros Q; apply N; by eapply anc_up].
  rewrite upd_other; [done |]. intros ->. apply N. apply anc_self. by rewrite E.
Qed.

Lemma upd_early x v : before v c -> anc D x v -> anc (upd D c m) x v.
Proof.
  intros B. apply upd_avoid. intros A%anc_upto; [| done]. apply (before_irrefl c). by eapply upto_before.
Qed.

Context (Hm : forall d, D c = Some d -> anc D m d).

(** Paths only get shorter. *)
Lemma upd_back x v : is_Some (D v) -> anc (upd D c m) x v -> anc D x v.
Proof.
  intros S A. induction A as [| v d E Ne A IH]; [by apply anc_self |].
  unfold upd in E. case_decide as H; [injection E as <- | destruct (tree_up _ T v d E Ne); eapply anc_up; eauto].
  rewrite H in *. destruct S as [d0 E0]. eapply anc_up; [done | done |]. eapply anc_trans; [by apply IH | by apply Hm].
Qed.

Context (Meet : meets D (fun p => p ∈ preds c) m).

Lemma upd_bounded : bounded D -> bounded (upd D c m).
Proof.
  intros W c' d x Ne E H.
  assert (H' : forall p, p ∈ preds c' -> is_Some (D p) -> anc D x p).
  { intros p Hp Sp. apply upd_back; [done |]. by apply H, upd_some. }
  unfold upd in E. case_decide as Q; [injection E as <-; rewrite Q in * | by eapply W]. eapply anc_upto; [done |]. by apply Meet.
Qed.

Lemma upd_fwd v : v = c \/ before v c /\ fwd_at D v -> (forall f, before f c -> is_Some (D f)) -> fwd_at (upd D c m) v.
Proof.
  intros H Pr d f E Hf Bf. destruct H as [-> | [Bv F]].
  - rewrite upd_self in E. injection E as <-. apply upd_early; [done |]. apply Meet; [| done | by apply Pr]. by apply anc_self.
  - rewrite upd_other in E by (intros ->; by apply (before_irrefl c)).
    apply upd_early; [by etransitivity | by eapply F].
Qed.
End Visit.

(** The paths of the predecessors of [c] meet at a block before [c]; it is on
    the path of the parent that [c] had. *)
Lemma visit_meet D0 D c m :
  tree D0 -> tree D -> (forall v, v <> e -> fwd_at D0 v) -> bounded D -> (forall v, v <> e -> before v c -> fwd_at D v) ->
  (forall v, before v c -> is_Some (D v)) -> D c = D0 c -> c <> e -> is_Some (pos c) ->
  meets D (fun p => p ∈ preds c) m -> is_Some (D m) ->
  before m c /\ forall d, D c = Some d -> anc D m d.
Proof.
  intros T0 T F0 W F Pr E Nc Sc M Sm. destruct (pos_fwd c Nc Sc) as (f & Hf & Bf).
  assert (Am : anc D m f) by (apply M; [by apply anc_self | done | by apply Pr]).
  split; [eapply upto_before; [by eapply anc_upto | done] |]. intros d Ed.
  eapply (sweep_path D0); try done; [eapply F0; [done | by rewrite <- E | done | done] |].
  eapply W; [done | done |]. apply M. by apply anc_self.
Qed.

(** ** Dominance *)

(** A relation with the laws of dominance, and a tree that does not jump over
    dominators. *)
Context (dom : nat -> nat -> Prop)
  (dom_root : forall x, dom x e -> x = e)
  (dom_pred : forall x c p, dom x c -> x <> c -> p ∈ preds c -> is_Some (pos p) -> dom x p).

Definition steps_over_none (D : nat -> option nat) : Prop :=
  forall v d x, v <> e -> D v = Some d -> dom x v -> x <> v -> dom x d.

Lemma dom_anc D x v : tree D -> steps_over_none D -> is_Some (D v) -> dom x v -> anc D x v.
Proof.
  intros T S. induction v as [v IH] using fwd_ind. intros [d Ed] Hd.
  destruct (decide (x = v)) as [-> | N]; [apply anc_self; by rewrite Ed |].
  destruct (decide (v = e)) as [-> | Ne]; [by apply dom_root in Hd |].
  destruct (tree_up _ T v d Ed Ne) as [B Sd]. eapply anc_up; [done | done |]. apply IH; [done | done | by eapply S].
Qed.

Lemma dom_down D m v x : tree D -> steps_over_none D -> anc D m v -> dom x v -> upto x m -> dom x m.
Proof.
  intros T S A. induction A as [| v d E N A IH]; [done |]. intros Hx U. apply IH; [| done].
  eapply S; [done | done | done |]. intros ->. apply (before_irrefl v). eapply upto_before; [done |].
  destruct (tree_up _ T v d E N) as [B _]. eapply upto_before; [by eapply anc_upto | done].
Qed.

Lemma upd_steps D c m :
  tree D -> steps_over_none D -> c <> e -> is_Some (pos c) -> (forall v, before v c -> is_Some (D v)) ->
  (forall v, is_Some (D v) -> is_Some (pos v)) ->
  meets D (fun p => p ∈ preds c) m -> is_Some (D m) -> steps_over_none (upd D c m).
Proof.
  intros T S Nc Sc Pr Dp M Sm v d x Ne E Hx N. unfold upd in E. case_decide; [simplify_eq | by eapply S].
  destruct (pos_fwd c Nc Sc) as (f & Hf & Bf).
  assert (A : forall p, p ∈ preds c -> is_Some (D p) -> anc D x p).
  { intros p Hp Sp. eapply dom_anc; [done | done | done |]. eapply dom_pred; eauto. }
  eapply (dom_down D d f); [done | done | apply M; [by apply anc_self | done | by apply Pr] | |].
  - eapply dom_pred; [done | done | done |]. by apply Dp, Pr.
  - eapply anc_upto; [done |]. by apply M.
Qed.

(** ** Maps that agree *)

#[export] Instance anc_proper : Proper (pointwise_relation nat eq ==> eq ==> eq ==> iff) anc.
Proof.
  assert (G : forall D D' x v, (forall u, D u = D' u) -> anc D x v -> anc D' x v).
  { intros D D' x v E. induction 1; [apply anc_self; by rewrite <- E | eapply anc_up; [by rewrite <- E | done | done]]. }
  intros D D' E x ? <- v ? <-. split; apply G; [done |]. intros u. by rewrite (E u).
Qed.

#[export] Instance tree_proper : Proper (pointwise_relation nat eq ==> iff) tree.
Proof.
  assert (G : forall D D', (forall u, D u = D' u) -> tree D -> tree D').
  { intros D D' E [T1 T2]. split; [by rewrite <- E |]. intros v d. rewrite <- !E. apply T2. }
  intros D D' E. split; apply G; [done |]. intros u. by rewrite (E u).
Qed.

#[export] Instance bounded_proper : Proper (pointwise_relation nat eq ==> iff) bounded.
Proof. intros D D' E. unfold bounded. by setoid_rewrite E. Qed.

#[export] Instance fwd_at_proper : Proper (pointwise_relation nat eq ==> eq ==> iff) fwd_at.
Proof. intros D D' E c ? <-. unfold fwd_at. by setoid_rewrite E. Qed.

#[export] Instance steps_proper : Proper (pointwise_relation nat eq ==> iff) steps_over_none.
Proof. intros D D' E. unfold steps_over_none. by setoid_rewrite E. Qed.
End Tree.
