(* ===== verification/BpfDominators.v ===== *)
(** The dominators of one subprogram: the iteration of [compute_idoms] ends,
    and its tree is dominance. *)

From stdpp Require Import sets.
From S2P Require Import Prelude BpfIr BpfBlocks BpfDom BpfGraph BpfDomTree.
Import ir dom.
#[local] Open Scope nat_scope.

(** The number of a block in a traversal. *)
Definition pos (rpo : list nat) (v : nat) : option nat := fst <$> list_find (fun u => u = v) rpo.

Lemma pos_Some rpo v i : NoDup rpo -> pos rpo v = Some i <-> rpo !! i = Some v.
Proof.
  intros N. unfold pos. rewrite fmap_Some. split.
  - intros ([j u] & (E & -> & _)%list_find_Some & ->). done.
  - intros E. exists (i, v). split; [| done]. apply list_find_Some. split_and!; [done | done |].
    intros j u Ej Lj ->. pose proof (NoDup_lookup _ _ _ _ N Ej E). lia.
Qed.

Lemma pos_elem rpo v : NoDup rpo -> is_Some (pos rpo v) <-> v ∈ rpo.
Proof.
  intros N. rewrite list_elem_of_lookup. split; intros [i E]; exists i; by apply pos_Some.
Qed.

Lemma before_app rpo l1 c l2 v : NoDup rpo -> rpo = l1 ++ c :: l2 -> before (pos rpo) v c <-> v ∈ l1.
Proof.
  intros N ->. assert (Ec : pos (l1 ++ c :: l2) c = Some (length l1)) by (apply pos_Some; [done | by apply list_lookup_middle]).
  split.
  - intros (i & j & Ei & Ej & L). simplify_eq. apply pos_Some in Ei; [| done].
    rewrite lookup_app_l in Ei by done. by eapply list_elem_of_lookup_2.
  - intros [i Ei]%list_elem_of_lookup. pose proof (lookup_lt_Some _ _ _ Ei). exists i, (length l1).
    split_and!; [| done | done]. apply pos_Some; [done |]. by rewrite lookup_app_l.
Qed.

Section Iteration.
Context (entry : nat) (tail : list nat).

Abbreviation rpo := (entry :: tail).

Context (preds : nat -> list nat) (dom : nat -> nat -> Prop) (ND : NoDup rpo)
  (Fwd : forall v, v <> entry -> v ∈ rpo -> exists u, u ∈ preds v /\ before (pos rpo) u v)
  (Root : forall x, dom x entry -> x = entry)
  (Pred : forall x c p, dom x c -> x <> c -> p ∈ preds c -> p ∈ rpo -> dom x p).

Abbreviation anc := (anc entry).
Abbreviation tree := (tree entry (pos rpo)).
Abbreviation before := (before (pos rpo)).
Abbreviation upto := (upto (pos rpo)).

(** The tree the blocks hold. *)
Definition D (bs : list Block) (v : nat) : option nat := if decide (v ∈ rpo) then idom_at bs v else None.

(** The blocks of the subprogram are numbered, and their predecessors that
    have a dominator belong to it. *)
Record shape (bs : list Block) : Prop := {
  sh_rpo v : v ∈ rpo -> exists b, bs !! v = Some b /\ b.(b_rpo) = pos rpo v /\ b.(b_preds) = preds v;
  sh_preds v p : v ∈ rpo -> p ∈ preds v -> p < length bs /\ (is_Some (idom_at bs p) -> p ∈ rpo)
}.

Lemma D_some bs v : is_Some (D bs v) -> v ∈ rpo.
Proof. unfold D. case_decide; [done |]. by intros []. Qed.

Lemma D_lookup bs v d : D bs v = Some d -> exists b, bs !! v = Some b /\ b.(b_idom) = Some d.
Proof. unfold D, idom_at. case_decide; [| done]. destruct (bs !! v) as [b |]; [| done]. simpl. eauto. Qed.

Lemma pos_entry : pos rpo entry = Some 0.
Proof. by apply pos_Some. Qed.

Lemma pos_inj u v i : pos rpo u = Some i -> pos rpo v = Some i -> u = v.
Proof. rewrite !pos_Some by done. congruence. Qed.

Lemma pos_lt v i : pos rpo v = Some i -> i < length rpo.
Proof. rewrite pos_Some by done. apply lookup_lt_Some. Qed.

(** ** Paths that meet *)

Definition num (v : nat) : nat := default 0 (pos rpo v).

Lemma num_before u v : u ∈ rpo -> v ∈ rpo -> before u v <-> num u < num v.
Proof.
  intros [i Ei]%pos_elem [j Ej]%pos_elem; [| done ..]. unfold num. rewrite Ei, Ej. simpl. split.
  - intros (i' & j' & E1 & E2 & L). congruence.
  - intros L. exists i, j. auto.
Qed.

Lemma D_gt bs a b :
  shape bs -> is_Some (D bs a) -> is_Some (D bs b) ->
  exists ba bb, bs !! a = Some ba /\ bs !! b = Some bb /\ none_gt ba.(b_rpo) bb.(b_rpo) = (num b <? num a).
Proof.
  intros Sh Ha%D_some Hb%D_some.
  destruct (sh_rpo _ Sh a Ha) as (ba & Ea & Ra & _), (sh_rpo _ Sh b Hb) as (bb & Eb & Rb & _).
  exists ba, bb. split_and!; [done | done |]. rewrite Ra, Rb. unfold num.
  apply pos_elem in Ha as [i ->], Hb as [j ->]; done.
Qed.

(** The parent of a block that is not the first. *)
Lemma D_parent bs a : tree (D bs) -> is_Some (D bs a) -> 0 < num a ->
  exists d, D bs a = Some d /\ a <> entry /\ d <> a /\ num d < num a /\ is_Some (D bs d).
Proof.
  intros T [d Ed] L. assert (Na : a <> entry) by (intros ->; unfold num in L; rewrite pos_entry in L; simpl in L; lia).
  destruct (tree_up _ _ _ T a d Ed Na) as [B Sd]. exists d.
  assert (num d < num a) by (apply num_before; [by eapply D_some | apply (D_some bs); by rewrite Ed | done]).
  split_and!; try done. intros ->. lia.
Qed.

Lemma climb_ok bs fuel a b :
  shape bs -> tree (D bs) -> is_Some (D bs a) -> is_Some (D bs b) -> num a <= fuel ->
  exists a', climb fuel bs a b = Some (inr a') /\ is_Some (D bs a') /\ num a' <= num b /\ num a' <= num a /\
    (num b < num a -> num a' < num a) /\
    forall x, anc (D bs) x a' /\ anc (D bs) x b <-> anc (D bs) x a /\ anc (D bs) x b.
Proof.
  intros Sh T. revert a. induction fuel as [| fuel IH]; intros a Sa Sb L; simpl;
    destruct (D_gt bs a b Sh Sa Sb) as (ba & bb & Ea & Eb & G); rewrite Ea, Eb; simpl; rewrite G; destruct (Nat.ltb_spec (num b) (num a)) as [H | H];
    try (exists a; split_and!; [done | done | lia | lia | lia | done]); [lia |].
  destruct (D_parent bs a T Sa) as (d & Ed & Na & Nd & Ld & Sd); [lia |].
  destruct (D_lookup _ _ _ Ed) as (ba' & Ea' & Ed'). simplify_eq. rewrite Ed'.
  destruct (Nat.eqb_spec d a); [done |].
  destruct (IH d Sd Sb) as (a' & -> & S' & L1 & L2 & _ & M); [lia |].
  exists a'. split_and!; [done | done | done | lia | lia |]. intros x. rewrite M. split; intros [A1 A2]; (split; [| done]).
  - by eapply anc_up.
  - destruct (anc_inv _ _ _ _ A1) as [-> | (d' & Ed2 & _ & A)]; [| by simplify_eq].
    exfalso. apply (anc_upto entry (pos rpo)) in A2; [| done]. destruct A2 as [-> | B]; [lia |].
    apply num_before in B; [lia | by eapply D_some ..].
Qed.

Lemma num_le bs v : length rpo <= length bs -> is_Some (D bs v) -> num v <= length bs.
Proof.
  intros Ln Hv%D_some. apply pos_elem in Hv as [i Ei]; [| done]. unfold num. rewrite Ei.
  apply pos_lt in Ei. simpl in *. lia.
Qed.

Lemma intersect_ok bs fuel a b :
  shape bs -> tree (D bs) -> length rpo <= length bs -> is_Some (D bs a) -> is_Some (D bs b) -> num a + num b <= fuel ->
  exists m, intersect_loop fuel bs a b = Some m /\ is_Some (D bs m) /\
    forall x, anc (D bs) x m <-> anc (D bs) x a /\ anc (D bs) x b.
Proof.
  intros Sh T Ln. revert a b.
  pose proof (fun v => num_le bs v Ln) as Nl. assert (Inj : forall u v, is_Some (D bs u) -> is_Some (D bs v) -> num u = num v -> u = v).
  { intros u v Hu%D_some Hv%D_some. unfold num. apply pos_elem in Hu as [i Ei], Hv as [j Ej]; [| done ..].
    rewrite Ei, Ej. simpl. intros ->. by eapply pos_inj. }
  induction fuel as [| fuel IH]; intros a b Sa Sb L; simpl; destruct (Nat.eqb_spec a b) as [<- | N];
    try (exists a; split_and!; [done | done | intros; tauto]).
  { destruct N. apply Inj; [done | done | lia]. }
  assert (num a <> num b) by (intros ?; by apply N, Inj).
  destruct (climb_ok bs (length bs) a b Sh T Sa Sb (Nl a Sa)) as (a1 & -> & Sa1 & L1 & L2 & L3 & M1). simpl.
  destruct (climb_ok bs (length bs) b a1 Sh T Sb Sa1 (Nl b Sb)) as (b1 & -> & Sb1 & L4 & L5 & L6 & M2). simpl.
  destruct (IH a1 b1 Sa1 Sb1) as (m & -> & Sm & M).
  { destruct (Nat.lt_ge_cases (num b) (num a)) as [Q | Q]; [specialize (L3 Q); lia |].
    destruct (Nat.lt_ge_cases (num a1) (num b)) as [Q' | Q']; [specialize (L6 Q'); lia | lia]. }
  exists m. split; [done |]. split; [done |]. intros x. rewrite M, <- M1. specialize (M2 x). tauto.
Qed.

(** One processed predecessor. *)
Lemma meet_one bs p acc :
  shape bs -> tree (D bs) -> length rpo <= length bs -> is_Some (D bs p) -> (forall d, acc = Some d -> is_Some (D bs d)) ->
  exists m, match acc with None => Some p | Some d => intersect bs p d end = Some m /\ is_Some (D bs m) /\
    forall x, anc (D bs) x m <-> (forall d0, acc = Some d0 -> anc (D bs) x d0) /\ anc (D bs) x p.
Proof.
  intros Sh T Ln Sp Ha. destruct acc as [d0 |].
  - destruct (intersect_ok bs (length bs + length bs) p d0 Sh T Ln Sp (Ha _ eq_refl)) as (m & E & Sm & M).
    { pose proof (num_le bs p Ln Sp). pose proof (num_le bs d0 Ln (Ha _ eq_refl)). lia. }
    exists m. split_and!; [done | done |]. intros x. rewrite M.
    split; [intros [? ?]; split; [by intros ? [= <-] | done] | intros [A ?]; split; [done | by apply A]].
  - exists p. split_and!; [done | done |]. intros x. split; [done | by intros [_ ?]].
Qed.

Lemma meet_preds_ok bs ps acc :
  shape bs -> tree (D bs) -> length rpo <= length bs ->
  (forall p, p ∈ ps -> p < length bs /\ (is_Some (idom_at bs p) -> p ∈ rpo)) ->
  (forall d, acc = Some d -> is_Some (D bs d)) ->
  exists r, meet_preds bs ps acc = Some r /\ (forall d, r = Some d -> is_Some (D bs d)) /\
    (r = None -> acc = None /\ forall p, p ∈ ps -> D bs p = None) /\
    forall d, r = Some d -> forall x, anc (D bs) x d <->
      (forall d0, acc = Some d0 -> anc (D bs) x d0) /\ (forall p, p ∈ ps -> is_Some (D bs p) -> anc (D bs) x p).
Proof.
  intros Sh T Ln. revert acc. induction ps as [| p ps IH]; intros acc Hp Ha; simpl.
  { exists acc. split_and!; [done | done | |].
    - intros E. split; [done |]. by intros p ?%elem_of_nil.
    - intros d -> x. split.
      + intros A. split; [by intros ? [= <-] | by intros p ?%elem_of_nil].
      + intros [A _]. by apply A. }
  assert (Hp' : forall q, q ∈ ps -> q < length bs /\ (is_Some (idom_at bs q) -> q ∈ rpo)) by (intros q Hq; apply Hp; by right).
  destruct (Hp p) as [Lp Rp]; [by left |]. destruct (lookup_lt_is_Some_2 bs p Lp) as [b Eb]. rewrite Eb. simpl.
  assert (Ip : idom_at bs p = b.(b_idom)) by (unfold idom_at; by rewrite Eb). rewrite Ip in Rp.
  assert (Dp : D bs p = b.(b_idom)).
  { unfold D. case_decide as Q; [done |]. destruct (b_idom b); [| done]. destruct Q. by apply Rp. }
  destruct (b_idom b) as [dp |].
  2: { destruct (IH acc Hp' Ha) as (r & -> & R1 & R2 & R3). exists r. split_and!; [done | done | |].
    - intros E. destruct (R2 E) as [? Q]. split; [done |]. intros q [-> | Hq]%elem_of_cons; auto.
    - intros d E x. rewrite (R3 d E x). split; intros [A1 A2]; (split; [done |]); intros q.
      + intros [-> | Hq]%elem_of_cons Sq; [rewrite Dp in Sq; by destruct Sq | auto].
      + intros Hq. apply A2. by right. }
  assert (Sp : is_Some (D bs p)) by (by rewrite Dp).
  destruct (meet_one bs p acc Sh T Ln Sp Ha) as (m & E & Sm & M).
  replace (match acc with None => _ | Some d => _ end) with (meet_preds bs ps (Some m)).
  2: { destruct acc; [by rewrite E | by injection E as ->]. }
  destruct (IH (Some m) Hp') as (r & -> & R1 & R2 & R3); [by intros ? [= <-] |]. exists r. split_and!; [done | done | by intros [? _]%R2 |].
  intros d Ed x. rewrite (R3 d Ed x). split.
  - intros [A1 A2]. apply M in A1 as [A1 A3]; [| done]. split; [done |]. intros q [-> | Hq]%elem_of_cons; auto.
  - intros [A1 A2]. split; [intros ? [= <-]; apply M; split; [done |]; apply A2; [by left | done] |].
    intros q Hq. apply A2. by right.
Qed.

(** ** One sweep *)

(** The state before block number [length l1] is visited, in a sweep that
    started with the tree [D0]. *)
Record visiting (D0 : nat -> option nat) (l1 : list nat) (bs : list Block) : Prop := {
  vi_shape : shape bs;
  vi_len : length rpo <= length bs;
  vi_tree : tree (D bs);
  vi_bounded : bounded entry (pos rpo) preds (D bs);
  vi_steps : steps_over_none entry dom (D bs);
  vi_done v : v ∈ l1 -> is_Some (D bs v) /\ (v <> entry -> fwd_at entry (pos rpo) preds (D bs) v);
  vi_rest v : v ∉ l1 -> D bs v = D0 v
}.

(** How far the tree is from the root. *)
Definition depth (d : option nat) : nat := match d with Some d => num d | None => length rpo end.

Definition rank (bs : list Block) : nat := sum_list ((fun v => depth (D bs v)) <$> rpo).

Lemma sum_list_lt (f g : nat -> nat) l c :
  c ∈ l -> f c < g c -> (forall v, v ∈ l -> f v <= g v) -> sum_list (f <$> l) < sum_list (g <$> l).
Proof.
  assert (Le : forall l, (forall v, v ∈ l -> f v <= g v) -> sum_list (f <$> l) <= sum_list (g <$> l)).
  { clear. intros l. induction l as [| v l IH]; intros H; [done |]. csimpl. pose proof (H v ltac:(by left)).
    specialize (IH (fun u Hu => H u ltac:(by right))). lia. }
  induction l as [| v l IH]; intros Hc L H; [by apply elem_of_nil in Hc |]. csimpl.
  assert (H' : forall u, u ∈ l -> f u <= g u) by (intros u Hu; apply H; by right).
  apply elem_of_cons in Hc as [-> | Hc]; [pose proof (Le l H'); lia |].
  specialize (IH Hc L H'). pose proof (H v ltac:(by left)). lia.
Qed.

Lemma D_insert bs c b m : c ∈ rpo -> bs !! c = Some b -> forall v, D (<[c := set_idom b m]> bs) v = upd (D bs) c m v.
Proof.
  intros Hc Eb v. unfold D, upd, idom_at. destruct (decide (v = c)) as [-> | N].
  - rewrite decide_True by done. rewrite list_lookup_insert_eq; [done | by eapply lookup_lt_Some].
  - case_decide; [| done]. by rewrite list_lookup_insert_ne.
Qed.

Lemma fwd_pos v : v <> entry -> is_Some (pos rpo v) -> exists u, u ∈ preds v /\ before u v.
Proof. intros N H%pos_elem; [| done]. by apply Fwd. Qed.

Lemma shape_insert bs c b m : shape bs -> c ∈ rpo -> bs !! c = Some b -> shape (<[c := set_idom b m]> bs).
Proof.
  intros [S1 S2] Hc Eb. pose proof (lookup_lt_Some _ _ _ Eb) as L. split.
  - intros v Hv. destruct (S1 v Hv) as (bv & Ev & R & P). destruct (decide (v = c)) as [-> | N].
    + simplify_eq. exists (set_idom b m). by rewrite list_lookup_insert_eq.
    + exists bv. by rewrite list_lookup_insert_ne.
  - intros v p Hv Hp. destruct (S2 v p Hv Hp) as [Lp Q]. rewrite length_insert. split; [done |].
    destruct (decide (p = c)) as [-> | N]; [done |]. unfold idom_at. by rewrite list_lookup_insert_ne.
Qed.

(** The rank falls when a parent moves up. *)
Lemma rank_insert bs c b m d :
  c ∈ rpo -> bs !! c = Some b -> D bs c = d -> num m < depth d -> rank (<[c := set_idom b m]> bs) < rank bs.
Proof.
  intros Hc Eb Ed L. eapply sum_list_lt; [done | |].
  - rewrite (D_insert _ _ _ _ Hc Eb), upd_self, Ed. done.
  - intros v _. rewrite (D_insert _ _ _ _ Hc Eb). unfold upd. case_decide as Q; [rewrite Q, Ed; simpl; lia | done].
Qed.

Section Visit.
Context (D0 : nat -> option nat) (l1 : list nat) (c : nat) (l2 : list nat) (bs : list Block) (m : nat)
  (El : rpo = l1 ++ c :: l2) (Nc : c <> entry) (T0 : tree D0)
  (F0 : forall v, v <> entry -> fwd_at entry (pos rpo) preds D0 v) (V : visiting D0 l1 bs)
  (M : meets entry (D bs) (fun p => p ∈ preds c) m) (Sm : is_Some (D bs m)).

Lemma visit_in : c ∈ rpo.
Proof using El. rewrite El. apply elem_of_app. right. left. Qed.

Lemma visit_before v : before v c <-> v ∈ l1.
Proof using El ND. by apply before_app with l2. Qed.

Lemma visit_early v : before v c -> is_Some (D bs v).
Proof using El ND V. intros Hv%visit_before. by apply (vi_done _ _ _ V). Qed.

Lemma visit_parent : before m c /\ forall d, D bs c = Some d -> anc (D bs) m d.
Proof using All.
  eapply (visit_meet entry (pos rpo) preds fwd_pos D0 (D bs) c m); try done.
  - apply V.
  - apply V.
  - intros v N Hv%visit_before. by apply (vi_done _ _ _ V).
  - apply visit_early.
  - apply (vi_rest _ _ _ V). rewrite <- visit_before. apply before_irrefl.
  - apply pos_elem; [done | apply visit_in].
Qed.

Lemma visit_update b : bs !! c = Some b -> visiting D0 (l1 ++ [c]) (<[c := set_idom b m]> bs).
Proof using All.
  intros Eb. destruct visit_parent as [Bm Hm]. pose proof visit_early as Early.
  pose proof V as [Sh Ln T W St Dn Re]. pose proof (D_insert bs c b m visit_in Eb : pointwise_relation _ eq _ _) as E.
  split.
  - apply shape_insert; [done | apply visit_in | done].
  - by rewrite length_insert.
  - rewrite E. by apply upd_tree.
  - rewrite E. by apply upd_bounded.
  - rewrite E. eapply (upd_steps entry (pos rpo) preds fwd_pos dom Root); try done.
    + intros x c' p H1 H2 H3 H4%pos_elem; [by eapply Pred | done].
    + apply pos_elem; [done | apply visit_in].
    + intros v Hv%D_some. by apply pos_elem.
  - intros v [Hv | ->%list_elem_of_singleton]%elem_of_app.
    + destruct (Dn v Hv) as [Sv Fv]. rewrite (E v). split; [by apply upd_some |]. intros N. rewrite E.
      eapply upd_fwd; try done. right. split; [by apply visit_before | auto].
    + rewrite (E c), upd_self. split; [done |]. intros N. rewrite E. eapply upd_fwd; try done. by left.
  - intros v N. rewrite elem_of_app, list_elem_of_singleton in N. rewrite (E v), upd_other; [apply Re |]; tauto.
Qed.

Lemma visit_same : D bs c = Some m -> visiting D0 (l1 ++ [c]) bs.
Proof using All.
  intros Ec. pose proof visit_early as Early. pose proof V as [Sh Ln T W St Dn Re]. split; try done.
  - intros v [Hv | ->%list_elem_of_singleton]%elem_of_app; [by apply Dn |]. split; [by rewrite Ec |].
    intros _ d f Ed Hf B. simplify_eq. apply M; [by apply anc_self | done | by apply Early].
  - intros v N. rewrite elem_of_app in N. apply Re. tauto.
Qed.
End Visit.

Lemma update_ok D0 l1 c l2 bs :
  rpo = l1 ++ c :: l2 -> c <> entry -> tree D0 -> (forall v, v <> entry -> fwd_at entry (pos rpo) preds D0 v) ->
  visiting D0 l1 bs ->
  exists bs' ch, update_idom bs c = Some (bs', ch) /\ visiting D0 (l1 ++ [c]) bs' /\ extended bs bs' /\
    (forall v, v ∉ rpo -> idom_at bs' v = idom_at bs v) /\
    if ch : bool then rank bs' < rank bs
    else bs' = bs /\ exists d, D bs c = Some d /\ meets entry (D bs) (fun p => p ∈ preds c) d.
Proof.
  intros El Nc T0 F0 V. pose proof V as [Sh Ln T W St Dn Re]. pose proof (visit_in _ _ _ El) as Hc.
  destruct (sh_rpo _ Sh c Hc) as (b & Eb & Rb & Pb).
  destruct (meet_preds_ok bs (preds c) None Sh T Ln) as (r & Er & R1 & R2 & R3).
  { intros p Hp. by apply (sh_preds _ Sh c). }
  { done. }
  unfold update_idom. rewrite Eb. simpl. rewrite Pb, Er. simpl. destruct r as [m |].
  2: { exfalso. destruct (Fwd c Nc Hc) as (f & Hf & B). destruct (R2 eq_refl) as [_ Q].
       destruct (Dn f) as [[? E] _]; [by eapply visit_before |]. rewrite (Q f Hf) in E. done. }
  pose proof (R1 m eq_refl) as Sm.
  assert (M : meets entry (D bs) (fun p => p ∈ preds c) m).
  { intros x. rewrite (R3 m eq_refl x). split; [by intros [_ A] | by intros A]. }
  assert (Ec : D bs c = b.(b_idom)) by (unfold D, idom_at; by rewrite decide_True, Eb).
  rewrite <- Ec. case_bool_decide as Ne.
  - eexists _, true. split; [done |]. split; [by eapply visit_update |].
    split; [eapply extended_insert; [done | by split] |]. split.
    { intros v Hv. unfold idom_at. rewrite list_lookup_insert_ne; [done |]. by intros ->. }
    apply (rank_insert bs c b m (D bs c)); [done | done | done |].
    destruct (visit_parent D0 l1 c l2 bs m El Nc T0 F0 V M Sm) as [Bm Hm].
    destruct (D bs c) as [d |] eqn:Ed; simpl.
    + specialize (Hm d eq_refl). pose proof Hm as [Sm' Sd]%anc_def. apply (anc_upto _ (pos rpo)) in Hm as [-> | B]; [done | | done].
      apply num_before; [by eapply D_some | by eapply D_some | done].
    + apply D_some, pos_elem in Sm as [i Ei]; [| done]. unfold num. rewrite Ei. by apply pos_lt in Ei.
  - eexists _, false. split; [done |]. split; [by eapply visit_same |].
    split; [done |]. split; [done |]. split; [done |]. by exists m.
Qed.

(** ** All sweeps *)

(** Where a sweep starts. *)
Record settled (bs : list Block) : Prop := {
  se_shape : shape bs;
  se_len : length rpo <= length bs;
  se_tree : tree (D bs);
  se_bounded : bounded entry (pos rpo) preds (D bs);
  se_steps : steps_over_none entry dom (D bs);
  se_fwd v : v <> entry -> fwd_at entry (pos rpo) preds (D bs) v
}.

(** Every parent is where the paths of the predecessors meet. *)
Definition fixed (bs : list Block) : Prop :=
  forall c, c ∈ tail -> exists d, D bs c = Some d /\ meets entry (D bs) (fun p => p ∈ preds c) d.

Lemma sweep_ok bs0 l1 l2 bs ch :
  rpo = l1 ++ l2 -> entry ∈ l1 -> settled bs0 -> visiting (D bs0) l1 bs ->
  exists bs' ch', sweep l2 bs ch = Some (bs', ch') /\ visiting (D bs0) rpo bs' /\ extended bs bs' /\
    (forall v, v ∉ rpo -> idom_at bs' v = idom_at bs v) /\ rank bs' <= rank bs /\
    if ch' : bool then ch = true \/ rank bs' < rank bs
    else bs' = bs /\ ch = false /\ forall c, c ∈ l2 -> exists d, D bs c = Some d /\ meets entry (D bs) (fun p => p ∈ preds c) d.
Proof.
  intros El He S0. revert l1 bs ch El He. induction l2 as [| c l2 IH]; intros l1 bs ch El He V; simpl.
  { rewrite app_nil_r in El. rewrite El. exists bs, ch. split_and!; [done | done | done | done | done |].
    destruct ch; [by left |]. split_and!; [done | done |]. by intros c ?%elem_of_nil. }
  assert (Nc : c <> entry).
  { intros ->. pose proof ND as N. rewrite El in N. apply NoDup_app in N as (_ & N & _). apply (N entry He). by left. }
  destruct (update_ok (D bs0) l1 c l2 bs El Nc (se_tree _ S0) (se_fwd _ S0) V) as (bs1 & c1 & -> & V1 & X1 & I1 & C1). simpl.
  destruct (IH (l1 ++ [c]) bs1 (ch || c1)) as (bs2 & ch2 & -> & V2 & X2 & I2 & R2 & C2).
  { by rewrite <- app_assoc. }
  { apply elem_of_app. by left. }
  { done. }
  exists bs2, ch2. split; [done |]. split; [done |]. split; [by transitivity bs1 |].
  split; [intros v Hv; by rewrite I2, I1 |].
  assert (Le : rank bs1 <= rank bs) by (destruct c1; [lia | by destruct C1 as [-> _]]). split; [lia |].
  destruct ch2.
  - destruct C2 as [C2 | C2]; [| right; lia]. apply orb_true_iff in C2 as [-> | ->]; [by left | right; lia].
  - destruct C2 as (-> & [-> ->]%orb_false_iff & C2). destruct C1 as [-> Cd]. split_and!; [done | done |].
    intros c' [-> | Hc]%elem_of_cons; [done | by apply C2].
Qed.

Lemma sum_list_le (f : nat -> nat) l k : (forall v, f v <= k) -> sum_list (f <$> l) <= length l * k.
Proof. intros H. induction l as [| v l IH]; [done |]. csimpl. pose proof (H v). lia. Qed.

Lemma rank_le bs : rank bs <= length rpo * length rpo.
Proof.
  apply sum_list_le. intros v. unfold depth. destruct (D bs v) as [d |]; [| done]. unfold num.
  destruct (pos rpo d) as [i |] eqn:Ei; simpl; [apply pos_lt in Ei; simpl in Ei; lia | lia].
Qed.

Lemma rounds_ok fuel bs :
  settled bs -> rank bs < fuel ->
  exists bs', idom_rounds fuel tail bs = Some bs' /\ settled bs' /\ fixed bs' /\ extended bs bs' /\
    (forall v, v ∉ rpo -> idom_at bs' v = idom_at bs v).
Proof.
  revert bs. induction fuel as [| fuel IH]; intros bs S L; [lia |]. simpl.
  destruct (sweep_ok bs [entry] tail bs false) as (bs1 & ch & -> & V1 & X1 & I1 & R1 & C1); try done.
  { by left. }
  { pose proof S as [S1 S2 S3 S4 S5 S6]. split; try done. intros v ->%list_elem_of_singleton.
    split; [by rewrite (tree_root _ _ _ S3) | done]. }
  assert (S1 : settled bs1).
  { destruct V1 as [V1 V2 V3 V4 V5 V6 V7]. split; try done. intros v N d f Ed. 
    apply (proj2 (V6 v (D_some _ _ ltac:(by eexists)))); done. }
  simpl. destruct ch.
  - destruct C1 as [? | C1]; [done |]. destruct (IH bs1 S1) as (bs2 & -> & S2 & F2 & X2 & I2); [lia |].
    exists bs2. split_and!; [done | done | done | by transitivity bs1 |]. intros v Hv. by rewrite I2, I1.
  - destruct C1 as (-> & _ & C1). by exists bs.
Qed.

Lemma compute_idoms_ok bs :
  shape bs -> length rpo <= length bs -> (forall v, v ∈ rpo -> idom_at bs v = None) ->
  exists bs', compute_idoms bs rpo entry = Some bs' /\ settled bs' /\ fixed bs' /\ extended bs bs' /\
    (forall v, v ∉ rpo -> idom_at bs' v = idom_at bs v).
Proof.
  intros Sh Ln H0. assert (He : entry ∈ rpo) by left. destruct (sh_rpo _ Sh entry He) as (b & Eb & _).
  unfold compute_idoms, modify. rewrite Eb. simpl. set (bs1 := <[entry := set_idom b entry]> bs).
  assert (E : forall v, D bs1 v = if decide (v = entry) then Some entry else None).
  { intros v. unfold bs1. rewrite (D_insert _ _ _ _ He Eb). unfold upd. case_decide; [done |].
    unfold D. case_decide; [by apply H0 | done]. }
  assert (N : forall v d, D bs1 v = Some d -> v = entry) by (intros v d; rewrite E; by case_decide).
  assert (S1 : settled bs1).
  { split.
    - by apply shape_insert.
    - unfold bs1. by rewrite length_insert.
    - split; [by rewrite E, decide_True |]. intros v d Ed. by rewrite (N v d Ed).
    - intros c d x Nc Ed. by rewrite (N c d Ed) in Nc.
    - intros c d x Nc Ed. by rewrite (N c d Ed) in Nc.
    - intros v Nv d f Ed. by rewrite (N v d Ed) in Nv. }
  destruct (rounds_ok (S (length bs1 * S (length bs1))) bs1 S1) as (bs2 & E2 & S2 & F2 & X2 & I2).
  { pose proof (rank_le bs1). pose proof (se_len _ S1). nia. }
  exists bs2. split_and!; [exact E2 | done | done | |].
  - transitivity bs1; [| done]. eapply extended_insert; [done | by split].
  - intros v Hv. rewrite I2 by done. unfold idom_at, bs1. rewrite list_lookup_insert_ne; [done | by intros ->].
Qed.

Lemma dominates_ok bs fuel a v :
  tree (D bs) -> is_Some (D bs v) -> num v < fuel ->
  exists r, dominates_loop fuel bs a v = Some r /\ (r = true <-> anc (D bs) a v).
Proof.
  intros T. revert v. induction fuel as [| fuel IH]; intros v [d Ed] L; [lia |]. simpl.
  destruct (Nat.eqb_spec v a) as [-> | N].
  { exists true. split; [done |]. split; [intros _ | done]. apply anc_self. by eexists. }
  destruct (D_lookup _ _ _ Ed) as (b & Eb & Eb'). rewrite Eb. simpl. rewrite Eb'.
  destruct (decide (v = entry)) as [-> | Ne].
  - rewrite (tree_root _ _ _ T) in Ed. injection Ed as <-. rewrite Nat.eqb_refl. exists false. split; [done |].
    split; [done |]. intros [-> | (d & _ & Q & _)]%anc_inv; done.
  - destruct (tree_up _ _ _ T v d Ed Ne) as [B Sd].
    apply num_before in B; [| by eapply D_some | apply (D_some bs); by eexists].
    destruct (Nat.eqb_spec d v) as [-> | Nd]; [lia |]. destruct (IH d Sd) as (r & -> & Q); [lia |].
    exists r. split; [done |]. rewrite Q. split; [by eapply anc_up |].
    intros [-> | (d' & Ed' & _ & A)]%anc_inv; [done | by simplify_eq].
Qed.
End Iteration.

(** ** One subprogram *)

Lemma number_rpo_ok k l bs :
  NoDup l -> Forall (fun v => v < length bs) l ->
  exists bs', number_rpo k l bs = Some bs' /\ extended bs bs' /\ (forall v, v ∉ l -> bs' !! v = bs !! v) /\
    forall i v, l !! i = Some v -> exists b, bs !! v = Some b /\ bs' !! v = Some (set_rpo b (k + i)).
Proof.
  revert k bs. induction l as [| v l IH]; intros k bs N F; simpl.
  { exists bs. split_and!; [done | done | done |]. intros i v E. by rewrite lookup_nil in E. }
  apply NoDup_cons in N as [Nv N]. apply Forall_cons in F as [Fv F].
  destruct (extended_modify bs v (fun b => set_rpo b k)) as (b & Eb & -> & X); [by split | done |]. simpl.
  destruct (IH (S k) (<[v := set_rpo b k]> bs) N) as (bs' & -> & X' & O & In); [by rewrite length_insert |].
  exists bs'. split; [done |]. split; [by etransitivity |]. split.
  - intros u [Nu Hu]%not_elem_of_cons. rewrite O by done. by rewrite list_lookup_insert_ne.
  - intros [| i] u Hu; simpl in Hu.
    + simplify_eq. exists b. split; [done |]. rewrite O by done. rewrite Nat.add_0_r. by rewrite list_lookup_insert_eq.
    + destruct (In i u Hu) as (b' & Eb' & E'). exists b'. replace (k + S i) with (S k + i) by lia. split; [| done].
      rewrite list_lookup_insert_ne in Eb'; [done |]. intros ->. apply Nv. by eapply list_elem_of_lookup_2.
Qed.

Section Subprogram.
Context (bs : list Block) (R : in_range bs) (entry : nat) (Hentry : entry < length bs).

Definition preds_of (v : nat) : list nat := from_option b_preds [] (bs !! v).

(** The predecessors mirror the successors. *)
Definition mirror : Prop := forall u v, succ bs u v <-> u ∈ preds_of v.

Abbreviation reach := (reach bs entry).

(** [x] is on every walk from the entry to [v]. *)
Definition dominator (x v : nat) : Prop := forall c, walk bs entry c v -> x ∈ entry :: c.

Lemma walk_last v c w : walk bs v c w -> (c = [] /\ w = v) \/ exists c' p, c = c' ++ [w] /\ walk bs v c' p /\ succ bs p w.
Proof.
  induction 1 as [| v b w c u Eb Hw W IH]; [by left |]. right. destruct IH as [[-> ->] | (c' & p & -> & W' & S)].
  - exists [], v. split_and!; [done | constructor | by exists b].
  - exists (w :: c'), p. split_and!; [done | by econstructor | done].
Qed.

Lemma dominator_root x : dominator x entry -> x = entry.
Proof. intros H. apply list_elem_of_singleton, H. constructor. Qed.

Lemma dominator_pred x c p : dominator x c -> x <> c -> succ bs p c -> dominator x p.
Proof.
  intros H N (b & Eb & Hc) w W. assert (Q := H (w ++ [c]) (walk_snoc _ _ _ _ _ _ W Eb Hc)).
  rewrite app_comm_cons in Q. apply elem_of_app in Q as [Q | ->%list_elem_of_singleton]; done.
Qed.

Context (Mi : mirror) (Fresh : forall v p, reach v -> p = v \/ succ bs p v -> idom_at bs p = None).

Lemma nodup_length (l : list nat) k : NoDup l -> Forall (fun v => v < k) l -> length l <= k.
Proof.
  intros N F. rewrite <- (length_seq k 0). apply submseteq_length, NoDup_submseteq; [done |].
  intros v Hv. rewrite Forall_forall in F. apply elem_of_seq. pose proof (F v Hv). lia.
Qed.

Section Fixed.
Context (l : list nat) (bs2 : list Block) (In : forall v, v ∈ entry :: l <-> reach v)
  (N : NoDup (entry :: l)) (S2 : settled entry l preds_of dominator bs2) (F2 : fixed entry l preds_of bs2).

Lemma all_processed v : reach v -> is_Some (D entry l bs2 v).
Proof.
  intros Hv%In. apply elem_of_cons in Hv as [-> | Hv]; [by rewrite (tree_root _ _ _ (se_tree _ _ _ _ _ S2)) |].
  destruct (F2 v Hv) as (d & -> & _). by eexists.
Qed.

Lemma anc_dominator x v : reach v -> anc entry (D entry l bs2) x v -> dominator x v.
Proof.
  intros Hv A c. revert v Hv A. induction c as [c IH] using (induction_ltof1 _ length). unfold ltof in IH. intros v Hv A W.
  assert (E0 : anc entry (D entry l bs2) x entry -> x = entry).
  { intros [-> | (d & _ & Q & _)]%anc_inv; done. }
  destruct (decide (v = entry)) as [-> | Ne]; [rewrite (E0 A); by left |].
  destruct (walk_last _ _ _ W) as [[-> ->] | (c' & p & -> & W' & Sp)]; [done |].
  apply anc_inv in A as [-> | (d & Ed & _ & A)]; [right; apply elem_of_app; right; by left |].
  assert (Hp : reach p) by (by exists c'). apply In, elem_of_cons in Hv as [-> | Hv]; [done |].
  destruct (F2 v Hv) as (d' & Ed' & M). rewrite Ed in Ed'. injection Ed' as <-.
  rewrite app_comm_cons. apply elem_of_app. left. apply (IH c') with p; [rewrite length_app; simpl; lia | done | | done].
  apply (proj1 (M x) A); [by apply Mi | by apply all_processed].
Qed.

Lemma dominates_exact a v :
  reach v -> length (entry :: l) <= length bs2 -> exists r, dominates bs2 a v = Some r /\ (r = true <-> dominator a v).
Proof.
  intros Hv Ln. pose proof (all_processed v Hv) as Sv. pose proof (se_tree _ _ _ _ _ S2) as T.
  destruct (dominates_ok entry l N bs2 (S (length bs2)) a v T Sv) as (r & E & Q).
  { pose proof (num_le entry l N bs2 v Ln Sv). lia. }
  exists r. split; [done |]. rewrite Q. split; [by apply anc_dominator |].
  intros Hd. eapply (dom_anc entry (pos (entry :: l)) dominator dominator_root); [done | apply S2 | done | done].
Qed.
End Fixed.

Lemma idoms_exact :
  exists rpo bs1 bs2, reverse_postorder bs entry = Some rpo /\ number_rpo 0 rpo bs = Some bs1 /\
    compute_idoms bs1 rpo entry = Some bs2 /\ extended bs bs2 /\ (forall v, v ∈ rpo <-> reach v) /\
    (forall v, ~ reach v -> idom_at bs2 v = idom_at bs v) /\
    (forall v d, reach v -> idom_at bs2 v = Some d -> reach d) /\
    forall a v, reach v -> exists r, dominates bs2 a v = Some r /\ (r = true <-> dominator a v).
Proof.
  destruct (reverse_postorder_spec bs R entry Hentry) as (rpo & E & N & (l & El) & In & Or).
  rewrite E. subst rpo.
  assert (F : Forall (fun v => v < length bs) (entry :: l)).
  { apply Forall_forall. intros v Hv%In. by eapply reach_lt. }
  destruct (number_rpo_ok 0 (entry :: l) bs N F) as (bs1 & E1 & X1 & O1 & N1).
  assert (Num : forall v, v ∈ entry :: l -> exists b, bs !! v = Some b /\ exists i, pos (entry :: l) v = Some i /\ bs1 !! v = Some (set_rpo b i)).
  { intros v [i Ei]%list_elem_of_lookup. destruct (N1 i v Ei) as (b & Eb & Eb1). exists b. split; [done |]. exists i.
    split; [by apply pos_Some | done]. }
  assert (I1 : forall v, idom_at bs1 v = idom_at bs v).
  { intros v. unfold idom_at. destruct (decide (v ∈ entry :: l)) as [Hv | Hv]; [| by rewrite O1].
    destruct (Num v Hv) as (b & -> & i & _ & ->). done. }
  assert (Sh : shape entry l preds_of bs1).
  { split.
    - intros v Hv. destruct (Num v Hv) as (b & Eb & i & Ei & Eb1). exists (set_rpo b i). unfold preds_of. rewrite Eb. done.
    - intros v p Hv%In Hp%Mi. split; [| rewrite I1, (Fresh v p Hv (or_intror Hp)); by intros []].
      rewrite (extended_length _ _ X1). destruct Hp as (b & Eb & _). by eapply lookup_lt_Some. }
  assert (Ln : length (entry :: l) <= length bs1).
  { rewrite (extended_length _ _ X1). by apply nodup_length. }
  destruct (compute_idoms_ok entry l preds_of dominator N) with (bs := bs1) as (bs2 & E2 & S2 & F2 & X2 & I2); try done.
  { intros v Ne [i Hi]%list_elem_of_lookup. pose proof (take_drop_middle _ _ _ Hi) as Sp.
    destruct (Or _ _ _ (eq_sym Sp)) as [? | (u & Su & Hu)]; [done |]. exists u. split; [by apply Mi |].
    by apply (before_app _ _ _ _ u N (eq_sym Sp)). }
  { apply dominator_root. }
  { intros x c p H1 H2 Hp%Mi _. by eapply dominator_pred. }
  { intros v Hv%In. rewrite I1. apply (Fresh v v Hv). by left. }
  exists (entry :: l), bs1, bs2. split_and!; try done.
  - by transitivity bs1.
  - intros v Hv. rewrite I2, I1; [done |]. by rewrite In.
  - intros v d Hv Ed. apply In. destruct (decide (v = entry)) as [-> | Ne].
    + assert (Q : D entry l bs2 entry = Some d) by (unfold D; by rewrite decide_True by by left).
      rewrite (tree_root _ _ _ (se_tree _ _ _ _ _ S2)) in Q. injection Q as <-. by left.
    + apply (D_some entry l bs2). eapply (tree_up _ _ _ (se_tree _ _ _ _ _ S2) v d); [| done].
      unfold D. rewrite decide_True; [done | by apply In].
  - intros a v Hv. eapply dominates_exact; try done. by rewrite (extended_length _ _ X2).
Qed.
End Subprogram.
