(* ===== verification/BpfRegions.v ===== *)
(** The graph [build_cfg] hands to the later passes: predecessors mirror
    successors, and no block is reachable from the entries of two
    subprograms. *)

From stdpp Require Import sorting sets.
From S2P Require Import Prelude BpfOpcode BpfInsn BpfEncode BpfIr BpfBlocks BpfCfg BpfDom BpfGraph BpfDominators.
Import ir.
#[local] Open Scope nat_scope.

(** ** Predecessors *)

Definition succs_of (bs : list Block) (v : nat) : list nat := from_option b_succs [] (bs !! v).

Lemma succ_succs bs u v : succ bs u v <-> v ∈ succs_of bs u.
Proof.
  unfold succ, succs_of. destruct (bs !! u) as [b |]; simpl; split.
  - intros (b' & [= <-] & H). done.
  - intros H. by exists b.
  - intros (b' & ? & _). done.
  - by intros ?%elem_of_nil.
Qed.

(** The same edges, both ways. *)
Definition same_edges (bs bs' : list Block) : Prop :=
  length bs' = length bs /\ forall v, succs_of bs' v = succs_of bs v /\ preds_of bs' v = preds_of bs v.

#[export] Instance same_edges_preorder : PreOrder same_edges.
Proof.
  split; [by split |]. intros a b c [L1 H1] [L2 H2]. split; [congruence |]. intros v.
  destruct (H1 v), (H2 v). split; congruence.
Qed.

Lemma modify_inv {A} (l : list A) i f l' : modify l i f = Some l' -> exists x, l !! i = Some x /\ l' = <[i := f x]> l.
Proof. unfold modify. destruct (l !! i) as [x |]; [| done]. intros [= <-]. by exists x. Qed.

Lemma field_insert {A B} (g : A -> B) d (l : list A) i x y v :
  l !! i = Some x -> from_option g d (<[i := y]> l !! v) = if decide (v = i) then g y else from_option g d (l !! v).
Proof.
  intros E. pose proof (lookup_lt_Some _ _ _ E). case_decide as Q; [| by rewrite list_lookup_insert_ne].
  by rewrite Q, list_lookup_insert_eq.
Qed.

Lemma add_preds_edges bi succs bs bs' :
  add_preds bi succs bs = Some bs' ->
  length bs' = length bs /\ (forall v, succs_of bs' v = succs_of bs v) /\
  forall u v, u ∈ preds_of bs' v <-> u ∈ preds_of bs v \/ u = bi /\ v ∈ succs.
Proof.
  revert bs. induction succs as [| s succs IH]; intros bs; simpl.
  { intros [= ->]. split_and!; [done | done |]. intros u v. rewrite elem_of_nil. tauto. }
  destruct (modify bs s _) as [bs1 |] eqn:E1; [| done]. simpl. intros E2.
  apply modify_inv in E1 as (b & Eb & ->). destruct (IH _ E2) as (L & S & P). rewrite length_insert in L.
  split; [done |]. split.
  - intros v. rewrite S. unfold succs_of. rewrite (field_insert _ _ _ _ _ _ _ Eb). case_decide as Q; [by rewrite Q, Eb | done].
  - intros u v. rewrite P. unfold preds_of. rewrite (field_insert _ _ _ _ _ _ _ Eb), elem_of_cons. case_decide as Q.
    + rewrite Q, Eb. simpl. rewrite elem_of_app, list_elem_of_singleton. tauto.
    + tauto.
Qed.

Lemma link_blocks_edges ios bo ss bis bs bs' :
  NoDup bis -> link_blocks ios bo ss bis bs = Some bs' ->
  length bs' = length bs /\ (forall v, v ∉ bis -> succs_of bs' v = succs_of bs v) /\
  forall u v, u ∈ preds_of bs' v <-> u ∈ preds_of bs v \/ u ∈ bis /\ v ∈ succs_of bs' u.
Proof.
  intros N. revert bs. induction N as [| bi bis Ni N IH]; intros bs; simpl.
  { intros [= ->]. split_and!; [done | done |]. intros u v. rewrite elem_of_nil. tauto. }
  unfold link_block. destruct (bs !! bi) as [b |]; [| done]. simpl. destruct (ss !! _) as [slots |]; [| done]. simpl.
  destruct (mapM _ slots) as [succs |]; [| done]. simpl.
  destruct (add_preds bi succs bs) as [bs1 |] eqn:E1; [| done]. simpl. apply add_preds_edges in E1 as (L1 & S1 & P1).
  destruct (modify bs1 bi _) as [bs2 |] eqn:E2; [| done]. simpl. apply modify_inv in E2 as (b1 & Eb1 & ->).
  intros E3. destruct (IH _ E3) as (L3 & S3 & P3). rewrite length_insert in L3. split; [lia |].
  assert (S2 : forall v, succs_of (<[bi := set_succs b1 succs]> bs1) v = if decide (v = bi) then succs else succs_of bs1 v).
  { intros v. unfold succs_of. by rewrite (field_insert _ _ _ _ _ _ _ Eb1). }
  assert (P2 : forall v, preds_of (<[bi := set_succs b1 succs]> bs1) v = preds_of bs1 v).
  { intros v. unfold preds_of. rewrite (field_insert _ _ _ _ _ _ _ Eb1). case_decide as Q; [by rewrite Q, Eb1 | done]. }
  split.
  - intros v [Nv Hv]%not_elem_of_cons. rewrite S3, S2, decide_False by done. apply S1.
  - intros u v. rewrite P3, P2, P1, elem_of_cons.
    assert (Q : succs_of bs' bi = succs) by (rewrite S3, S2, decide_True by done; done).
    split; [intros [[H | [-> H]] | [H1 H2]] | intros [H | [[-> | H1] H2]]]; rewrite ?Q in *; auto.
Qed.

Lemma make_blocks_edges n i leaders bs bo :
  (forall v, succs_of bs v = [] /\ preds_of bs v = []) ->
  forall v, succs_of (make_blocks n i leaders bs bo).1 v = [] /\ preds_of (make_blocks n i leaders bs bo).1 v = [].
Proof.
  revert i bs bo. induction leaders as [| [] leaders IH]; intros i bs bo H; simpl; [done | | by apply IH].
  apply IH. intros v. unfold succs_of, preds_of in *.
  assert (C : forall v, (from_option b_succs [] (close_last bs i !! v) = [] /\ from_option b_preds [] (close_last bs i !! v) = [])).
  { clear -H. induction bs as [| b [| b' bs] IH]; intros v; simpl.
    - done.
    - specialize (H 0). destruct v; done.
    - destruct v as [| v]; [apply (H 0) |]. apply IH. intros w. apply (H (S w)). }
  destruct ((close_last bs i ++ _) !! v) as [b |] eqn:E; [| done]. apply lookup_app_Some in E as [E | [_ E]].
  - specialize (C v). by rewrite E in C.
  - apply list_lookup_singleton_Some in E as [_ <-]. done.
Qed.

Lemma build_blocks_mirror prog l ios ss es bs bo : build_blocks prog l ios ss es = Some (bs, bo) -> mirror bs.
Proof.
  unfold build_blocks. destruct (lead_slots _ _ _) as [L0 |]; [| done]. simpl.
  destruct (lead_flow _ _ _ _ _) as [L |]; [| done]. simpl.
  pose proof (make_blocks_edges (length l) 0 L [] [] (fun _ => conj eq_refl eq_refl)) as P.
  destruct (make_blocks _ _ _ _ _) as [bs0 bo0]. simpl in P.
  destruct (link_blocks _ _ _ _ _) as [bs1 |] eqn:E; [| done]. simpl. intros ?. simplify_eq.
  apply link_blocks_edges in E as (L1 & S1 & P1); [| apply NoDup_seq].
  assert (Sd : forall v w, w ∈ succs_of (dedup_block <$> bs1) v <-> w ∈ succs_of bs1 v).
  { intros v w. unfold succs_of. rewrite list_lookup_fmap. destruct (bs1 !! v); simpl; [apply elem_of_dedup | done]. }
  assert (Pd : forall v w, w ∈ preds_of (dedup_block <$> bs1) v <-> w ∈ preds_of bs1 v).
  { intros v w. unfold preds_of. rewrite list_lookup_fmap. destruct (bs1 !! v); simpl; [| done].
    rewrite elem_of_dedup. unfold sort_nat. by rewrite merge_sort_Permutation. }
  intros u v. rewrite succ_succs, Sd, Pd, P1, (proj2 (P v)), elem_of_nil. split; [| tauto]. intros H. right. split; [| done].
  apply elem_of_seq. unfold succs_of in H. destruct (bs1 !! u) as [b |] eqn:E; [| by apply elem_of_nil in H].
  apply lookup_lt_Some in E. lia.
Qed.

Lemma label_subprogs_edges ios bo n si es bs bs' : label_subprogs ios bo n si es bs = Some bs' -> same_edges bs bs'.
Proof.
  assert (R : forall si ixs bs bs', label_range bo si ixs bs = Some bs' -> same_edges bs bs').
  { clear. intros si ixs. induction ixs as [| i ixs IH]; intros bs bs'; simpl; [by intros [= ->] |].
    destruct (index_of bo i) as [b |]; [| done]. simpl. destruct (modify bs b _) as [bs1 |] eqn:E1; [| done]. simpl.
    apply modify_inv in E1 as (B & EB & ->). intros E2. etransitivity; [| by apply IH]. split; [by rewrite length_insert |].
    intros v. unfold succs_of, preds_of. rewrite !(field_insert _ _ _ _ _ _ _ EB). case_decide as Q; [by rewrite Q, EB | done]. }
  revert si bs. induction es as [| e es IH]; intros si bs; simpl; [by intros [= ->] |].
  destruct (index_of ios e) as [lo |]; [| done]. simpl. destruct (match es with [] => _ | _ => _ end) as [hi |]; [| done]. simpl.
  destruct (label_range _ _ _ _) as [bs1 |] eqn:E1; [| done]. simpl. intros E2. etransitivity; [by eapply R | by eapply IH].
Qed.

(** ** Blocks without dominators *)

Definition undominated : list Block -> Prop := Forall (fun b => b.(b_idom) = None).

Lemma modify_undominated bs i f bs' :
  modify bs i f = Some bs' -> (forall b, (f b).(b_idom) = b.(b_idom)) -> undominated bs -> undominated bs'.
Proof.
  intros (b & Eb & ->)%modify_inv H F. apply Forall_insert; [done |]. rewrite H. by eapply Forall_lookup_1 in F.
Qed.

Lemma link_blocks_undominated ios bo ss bis bs bs' :
  link_blocks ios bo ss bis bs = Some bs' -> undominated bs -> undominated bs'.
Proof.
  assert (A : forall bi succs bs bs', add_preds bi succs bs = Some bs' -> undominated bs -> undominated bs').
  { clear. intros bi succs. induction succs as [| s succs IH]; intros bs bs'; simpl; [by intros [= ->] |].
    destruct (modify bs s _) as [bs1 |] eqn:E1; [| done]. intros E2 F. eapply IH; [done |]. by eapply modify_undominated. }
  revert bs. induction bis as [| bi bis IH]; intros bs; simpl; [by intros [= ->] |]. unfold link_block.
  destruct (bs !! bi) as [b |]; [| done]. simpl. destruct (ss !! _) as [slots |]; [| done]. simpl.
  destruct (mapM _ slots) as [succs |]; [| done]. simpl. destruct (add_preds bi succs bs) as [bs1 |] eqn:E1; [| done]. simpl.
  destruct (modify bs1 bi _) as [bs2 |] eqn:E2; [| done]. simpl. intros E3 F. eapply IH; [done |].
  eapply modify_undominated; [done | done |]. by eapply A.
Qed.

Lemma make_blocks_undominated n i leaders bs bo : undominated bs -> undominated (make_blocks n i leaders bs bo).1.
Proof.
  revert i bs bo. induction leaders as [| [] leaders IH]; intros i bs bo F; simpl; [done | | by apply IH].
  apply IH. apply Forall_app. split; [| by repeat constructor].
  clear -F. induction F as [| b [| b' bs] Hb F IH]; simpl; [constructor | by repeat constructor | by constructor].
Qed.

Lemma label_undominated ios bo n si es bs bs' :
  label_subprogs ios bo n si es bs = Some bs' -> undominated bs -> undominated bs'.
Proof.
  assert (A : forall si ixs bs bs', label_range bo si ixs bs = Some bs' -> undominated bs -> undominated bs').
  { clear. intros si ixs. induction ixs as [| i ixs IH]; intros bs bs'; simpl; [by intros [= ->] |].
    destruct (index_of bo i) as [b |]; [| done]. simpl. destruct (modify bs b _) as [bs1 |] eqn:E1; [| done]. simpl.
    intros E2 F. eapply IH; [done |]. by eapply modify_undominated. }
  revert si bs. induction es as [| e es IH]; intros si bs; simpl; [by intros [= ->] |].
  destruct (index_of ios e) as [lo |]; [| done]. simpl. destruct (match es with [] => _ | _ => _ end) as [hi |]; [| done]. simpl.
  destruct (label_range _ _ _ _) as [bs1 |] eqn:E1; [| done]. simpl. intros E2 F. eapply IH; [done | by eapply A].
Qed.

Lemma build_blocks_undominated prog l ios ss es bs bo : build_blocks prog l ios ss es = Some (bs, bo) -> undominated bs.
Proof.
  unfold build_blocks. destruct (lead_slots _ _ _) as [L0 |]; [| done]. simpl.
  destruct (lead_flow _ _ _ _ _) as [L |]; [| done]. simpl.
  pose proof (make_blocks_undominated (length l) 0 L [] [] (Forall_nil_2 _)) as F.
  destruct (make_blocks _ _ _ _ _) as [bs0 bo0]. simpl in F.
  destruct (link_blocks _ _ _ _ _) as [bs1 |] eqn:E; [| done]. simpl. intros ?. simplify_eq.
  apply link_blocks_undominated in E; [| done]. by apply Forall_fmap.
Qed.

(** The later passes start from a mirrored graph without dominators. *)
Lemma build_start prog ir : build_cfg prog = Some (Ok ir) -> mirror ir.(blocks) /\ undominated ir.(blocks).
Proof.
  unfold build_cfg. case_bool_decide; [done |].
  destruct (decode_pass _ _ _ _ _) as [[[[l ios] slot] | e] |]; [| done | done]. simpl.
  destruct (negb _); [done |]. destruct (resolve_all _ _ _) as [[[ss es] ths] | e]; [| done].
  destruct (confine _ _ _) as [[u | e] |]; [| done | done]. simpl.
  destruct (build_blocks _ _ _ _ _) as [[bs bo] |] eqn:E1; [| done]. simpl.
  pose proof (build_blocks_undominated _ _ _ _ _ _ _ E1) as U1. apply build_blocks_mirror in E1.
  destruct (mapM _ _) as [sps |]; [| done]. simpl.
  destruct (label_subprogs _ _ _ _ _ _) as [bs1 |] eqn:E2; [| done]. simpl.
  pose proof (label_undominated _ _ _ _ _ _ _ E2 U1) as U2. apply label_subprogs_edges in E2 as [_ E2].
  destruct (call_graph _ _ _ _ _ _) as [sps' |]; [| done]. simpl. intros ?. simplify_eq. simpl.
  split; [| done]. intros v w. rewrite succ_succs, (proj1 (E2 v)), (proj2 (E2 w)), <- succ_succs. apply E1.
Qed.

(** ** Subprograms *)

Section Regions.
Context (prog : list Insn) (ir : Ir) (Bt : built prog ir).

(** Block [k] starts in region [p] of the entries [es]. *)
Definition in_region (es : list nat) (k p : nat) : Prop :=
  exists b x, ir.(blocks) !! k = Some b /\ ir.(insns) !! b.(b_start) = Some x /\ partition_point es x.(ir_slot) = p.

Lemma in_region_fun es k p p' : in_region es k p -> in_region es k p' -> p = p'.
Proof. intros (b & x & Eb & Ex & <-) (b' & x' & Eb' & Ex' & <-). by simplify_eq. Qed.

Section Entries.
Context (ss : list (list nat)) (es : list nat) (Ln : length ss = length ir.(insns))
  (G : graph_ok ir.(insns) ir.(ir_of_slot) ss ir.(blocks) ir.(block_of)) (Rg : regions ir ss es).

(** All instructions of a block lie in its region. *)
Lemma block_region k b i y p :
  in_region es k p -> ir.(blocks) !! k = Some b -> b.(b_start) <= i < b.(b_end) -> ir.(insns) !! i = Some y ->
  partition_point es y.(ir_slot) = p.
Proof.
  intros (b' & x & Eb & Ex & Ep) Eb'. simplify_eq. revert y. induction i as [| i IH]; intros y R Ey.
  { replace (b_start b') with 0 in Ex by lia. by simplify_eq. }
  destruct (decide (b_start b' = S i)) as [E | N]; [rewrite E in Ex; by simplify_eq |].
  destruct (lookup_lt_is_Some_2 ir.(insns) i) as [z Ez]; [apply lookup_lt_Some in Ey; lia |].
  rewrite <- (IH z ltac:(lia) Ez).
  pose proof (go_inner _ _ _ _ _ G k b' i z Eb ltac:(lia) ltac:(lia) Ez) as Es.
  rewrite <- (rg_confined _ _ _ Rg i z _ (next_slot z) Ez Es ltac:(by left)).
  by rewrite (du_next _ _ _ _ (bt_decoded _ _ Bt) i z Ez), Ey.
Qed.

Lemma succ_region k k' p : succ ir.(blocks) k k' -> in_region es k p -> in_region es k' p.
Proof.
  intros (b & Eb & Hk) Rk. destruct (go_target _ _ _ _ _ G k b k' Eb Hk) as (i & slots & t & j & b' & Ei & Es & Ht & Ej & Eb' & <-).
  pose proof (go_range _ _ _ _ _ G k b Eb). destruct (lookup_lt_is_Some_2 ir.(insns) i) as [y Ey]; [lia |].
  destruct (index_insn prog ir Bt t _ Ej) as (x & Ex & Ex' & _). exists b', x. split_and!; [done | done |].
  rewrite Ex', (rg_confined _ _ _ Rg i y slots t Ey Es Ht). eapply block_region; [done | done | | done]. lia.
Qed.

Lemma entry_region i sp : ir.(subprogs) !! i = Some sp -> in_region es sp.(entry_block) (S i).
Proof.
  intros E. destruct (Forall2_lookup_r _ _ _ _ _ (rg_entries _ _ _ Rg) E) as (e & Ee & j & Ej & Eb).
  destruct (index_insn prog ir Bt e j Ej) as (x & Ex & Ex' & _).
  destruct (go_in _ _ _ _ _ G j (lookup_lt_Some _ _ _ Ex)) as (k & b & Ek & Ebk & R & _).
  rewrite Eb in Ek. injection Ek as <-. pose proof (go_range _ _ _ _ _ G _ b Ebk).
  destruct (lookup_lt_is_Some_2 ir.(insns) b.(b_start)) as [y Ey]; [lia |].
  assert (Q : in_region es sp.(entry_block) (partition_point es y.(ir_slot))) by (by exists b, y).
  rewrite <- (partition_point_entry es i e (rg_sorted _ _ _ Rg) Ee), <- Ex'.
  by rewrite (block_region _ b j x _ Q Ebk R Ex).
Qed.
End Entries.

Lemma entry_in_range i sp : ir.(subprogs) !! i = Some sp -> sp.(entry_block) < length ir.(blocks).
Proof.
  intros E. destruct (bt_graph _ _ Bt) as (ss & es & Ln & _ & _ & G & Rg).
  destruct (entry_region ss es Ln G Rg i sp E) as (b & _ & Eb & _). by eapply lookup_lt_Some.
Qed.

(** No block is reachable from two entries. *)
Lemma subprogs_disjoint i j sp sp' v :
  ir.(subprogs) !! i = Some sp -> ir.(subprogs) !! j = Some sp' ->
  reach ir.(blocks) sp.(entry_block) v -> reach ir.(blocks) sp'.(entry_block) v -> i = j.
Proof.
  destruct (bt_graph _ _ Bt) as (ss & es & Ln & _ & _ & G & Rg).
  assert (Q : forall i sp, ir.(subprogs) !! i = Some sp -> reach ir.(blocks) sp.(entry_block) v -> in_region es v (S i)).
  { intros k s E. revert v. apply (reach_ind _ _ (fun v => in_region es v (S k))); [by eapply entry_region |].
    intros u w _ Hu Sw. by eapply succ_region. }
  intros E E' R R'. pose proof (in_region_fun _ _ _ _ (Q i sp E R) (Q j sp' E' R')). lia.
Qed.
End Regions.
