(* ===== verification/BpfWiden.v ===== *)
(** Strongly connected components and widening points: the last passes of
    [Ir::build] ([bpf/verifier/src/ir.rs]).

    The source has the same iterative search twice, in [tarjan_scc] and in
    [cyclic_components_avoiding_marked]; the second skips the blocks that are
    not [live].  Here it is one search with that predicate, which is constantly
    true in the first.  Stacks have their top first; the sentinel of [index] is
    [None]; an [option] around a state is a panic. *)

From stdpp Require Import sorting.
From S2P Require Import Prelude BpfInsn BpfIr BpfDom.

(** The local variables of the search. *)
Record Search : Type := mk_search {
  index : list (option nat);
  lowlink : list nat;
  on_stack : list bool;
  stack : list nat;
  next_index : nat;
  out : list (list nat)
}.

Module scc.
Section Graph.
Context (blocks : list Block) (live : nat -> bool).

Definition start : Search :=
  let n := length blocks in
  mk_search (replicate n None) (replicate n 0%nat) (replicate n false) [] 0 [].

(** A block is numbered and pushed. *)
Definition enter (s : Search) (v : nat) : Search :=
  mk_search (<[v := Some s.(next_index)]> s.(index)) (<[v := s.(next_index)]> s.(lowlink))
    (<[v := true]> s.(on_stack)) (v :: s.(stack)) (S s.(next_index)) s.(out).

Definition set_low (s : Search) (v x : nat) : Search :=
  mk_search s.(index) (<[v := x]> s.(lowlink)) s.(on_stack) s.(stack) s.(next_index) s.(out).

(** The loop that pops one component. *)
Fixpoint pop_members (v : nat) (stack : list nat) (on_stack : list bool) (members : list nat)
    : option (list nat * list nat * list bool) :=
  match stack with
  | [] => None
  | w :: stack =>
      let on_stack := <[w := false]> on_stack in
      let members := members ++ [w] in
      if (w =? v)%nat then Some (members, stack, on_stack) else pop_members v stack on_stack members
  end.

(** The end of a visit: the component of [v], if [v] is its root. *)
Definition close (s : Search) (v : nat) : option Search :=
  let* low := s.(lowlink) !! v in
  let* idx := s.(index) !! v in
  if bool_decide (idx = Some low) then
    let* (members, stack, on_stack) := pop_members v s.(stack) s.(on_stack) [] in
    let* b := blocks !! v in
    let cyclic := (1 <? length members)%nat || (bool_decide (v ∈ b.(b_succs)) && live v) in
    Some (mk_search s.(index) s.(lowlink) on_stack stack s.(next_index)
            (if cyclic then s.(out) ++ [members] else s.(out)))
  else Some s.

(** One iteration of the inner loop, with [work] not empty. *)
Definition step (v si : nat) (rest : list (nat * nat)) (s : Search) : option (list (nat * nat) * Search) :=
  let* b := blocks !! v in
  match b.(b_succs) !! si with
  | Some w =>
      let work := (v, S si) :: rest in
      if negb (live w) then Some (work, s)
      else
        let* iw := s.(index) !! w in
        match iw with
        | None => Some ((w, 0%nat) :: work, enter s w)
        | Some iw =>
            let* on := s.(on_stack) !! w in
            if on : bool then
              let* lv := s.(lowlink) !! v in
              Some (work, set_low s v (lv `min` iw))
            else Some (work, s)
        end
  | None =>
      let* lv := s.(lowlink) !! v in
      let* s := match rest with
                | (parent, _) :: _ =>
                    let* lp := s.(lowlink) !! parent in
                    Some (set_low s parent (lp `min` lv))
                | [] => Some s
                end in
      let* s := close s v in
      Some (rest, s)
  end.

Fixpoint loop (fuel : nat) (work : list (nat * nat)) (s : Search) : option Search :=
  match work with
  | [] => Some s
  | (v, si) :: rest =>
      match fuel with
      | O => None
      | S fuel =>
          let* (work, s) := step v si rest s in
          loop fuel work s
      end
  end.

(** One root; its search takes an iteration for every block and every edge at
    most. *)
Definition root (s : Search) (r : nat) : option Search :=
  let* i := s.(index) !! r in
  if negb (live r) || bool_decide (i <> None) then Some s
  else loop (size blocks) [(r, 0%nat)] (enter s r).

Fixpoint roots (rs : list nat) (s : Search) : option Search :=
  match rs with
  | [] => Some s
  | r :: rs =>
      let* s := root s r in
      roots rs s
  end.

(** The cyclic components, in the order they are found. *)
Definition components : option (list (list nat)) :=
  let* s := roots (seq 0 (length blocks)) start in
  Some s.(out).
End Graph.

(** Not a widening point.  An index out of range counts as live: the search
    then fails on it, as the source does. *)
Definition live (blocks : list Block) (b : nat) : bool :=
  from_option (fun b => negb b.(widen_here)) true (blocks !! b).

Definition cyclic_components_avoiding_marked (blocks : list Block) : option (list (list nat)) :=
  let* comps := components blocks (live blocks) in
  Some (ir.sort_nat <$> comps).

Definition set_scc (b : Block) (c : nat) : Block :=
  mk_block b.(b_start) b.(b_end) b.(b_succs) b.(b_preds) b.(b_subprog) b.(b_idom) b.(b_rpo) (Some c) b.(widen_here).

Fixpoint number_members (c : nat) (members : list nat) (blocks : list Block) : option (list Block) :=
  match members with
  | [] => Some blocks
  | m :: members =>
      let* blocks := ir.modify blocks m (fun b => set_scc b c) in
      number_members c members blocks
  end.

(** The components from number [next_scc] on. *)
Fixpoint number_components (next_scc : nat) (comps : list (list nat)) (blocks : list Block) : option (list Block) :=
  match comps with
  | [] => Some blocks
  | members :: comps =>
      let* blocks := number_members next_scc members blocks in
      number_components (S next_scc) comps blocks
  end.

(** [tarjan_scc].  The source numbers a component when it finds it; the search
    does not look at the numbers, so they are given at its end. *)
Definition tarjan_scc (blocks : list Block) : option (list Block) :=
  let* comps := components blocks (fun _ => true) in
  number_components 0 comps blocks.

(** ** Pass 7: every entry into a component from outside it *)

Fixpoint entered_from_outside (blocks : list Block) (scc : option nat) (preds : list nat) : option bool :=
  match preds with
  | [] => Some false
  | p :: preds =>
      let* blk := blocks !! p in
      if bool_decide (blk.(b_scc) <> scc) then Some true else entered_from_outside blocks scc preds
  end.

Definition mark_entry (blocks : list Block) (bi : nat) : option (list Block) :=
  let* b := blocks !! bi in
  match b.(b_scc) with
  | None => Some blocks
  | scc =>
      let* e := entered_from_outside blocks scc b.(b_preds) in
      if e : bool then ir.modify blocks bi dom.mark else Some blocks
  end.

Fixpoint mark_entries (bis : list nat) (blocks : list Block) : option (list Block) :=
  match bis with
  | [] => Some blocks
  | bi :: bis =>
      let* blocks := mark_entry blocks bi in
      mark_entries bis blocks
  end.

(** ** Pass 7b: nested cycles *)

(** The smallest of a list. *)
Definition minimum (l : list nat) : option nat :=
  match l with
  | [] => None
  | x :: l => Some (foldl Nat.min x l)
  end.

Definition pick_component_head (blocks : list Block) (comp : list nat) : option nat :=
  let* entries := mapM (fun b => let* blk := blocks !! b in
                                 Some (b, existsb (fun p => negb (bool_decide (p ∈ comp))) blk.(b_preds))) comp in
  match minimum (fst <$> filter (fun p => snd p = true) entries) with
  | Some e => Some e
  | None => minimum comp
  end.

Fixpoint mark_heads (comps : list (list nat)) (blocks : list Block) : option (list Block) :=
  match comps with
  | [] => Some blocks
  | comp :: comps =>
      let* head := pick_component_head blocks comp in
      let* blocks := ir.modify blocks head dom.mark in
      mark_heads comps blocks
  end.

(** Pass 7b; every round marks a block that was not marked. *)
Fixpoint mark_rounds (fuel : nat) (blocks : list Block) : option (list Block) :=
  match fuel with
  | O => None
  | S fuel =>
      let* comps := cyclic_components_avoiding_marked blocks in
      if bool_decide (comps = []) then Some blocks
      else
        let* blocks := mark_heads comps blocks in
        mark_rounds fuel blocks
  end.

Definition mark_nested_widening_points (blocks : list Block) : option (list Block) :=
  mark_rounds (S (length blocks)) blocks.

(** Passes 7 and 7b. *)
Definition widening_points (blocks : list Block) : option (list Block) :=
  let* blocks := tarjan_scc blocks in
  let* blocks := mark_entries (seq 0 (length blocks)) blocks in
  mark_nested_widening_points blocks.
End scc.

(** ** All passes *)

Definition build (prog : list Insn) : option (Result Ir VerifyError) :=
  let* r := ir.build_cfg prog in
  match r with
  | Err e => Some (Err e)
  | Ok ir =>
      let entries := entry_block <$> ir.(subprogs) in
      let* (bs, back_edges, sps) := dom.analyse_all 0 entries (ir.(blocks), []) ir.(subprogs) in
      let* bs := scc.widening_points bs in
      Some (Ok (mk_ir ir.(insns) ir.(ir_of_slot) bs ir.(block_of) sps back_edges ir.(thresholds)))
  end.
