(* ===== verification/BpfScc.v ===== *)
(** The search of [BpfWiden] ends without a panic, reports only components of
    live blocks, and reports one if the live blocks have a cycle; every cycle of
    the control-flow graph goes through a widening point. *)

From stdpp Require Import sorting sets relations.
From S2P Require Import Prelude BpfOpcode BpfInsn BpfEncode BpfIr BpfBlocks BpfCfg BpfDom BpfGraph BpfWiden.

Import scc.
#[local] Open Scope nat_scope.

Section Search.
Context (bs : list Block) (lv : nat -> bool).

Abbreviation n := (length bs).

Definition numbered (s : Search) (v i : nat) : Prop := s.(index) !! v = Some (Some i).

Definition below (s : Search) (a b : nat) : Prop := exists i j, numbered s a i /\ numbered s b j /\ j < i.

(** The work list and the stack end in the root, whose number is [base]. *)
Definition bottom (s : Search) (work : list (nat * nat)) (base : nat) : Prop :=
  match work with
  | [] => s.(stack) = []
  | _ => exists r, last work.*1 = Some r /\ last s.(stack) = Some r /\ numbered s r base
  end.

Record ok (s : Search) (work : list (nat * nat)) (base : nat) : Prop := {
  ok_index : length s.(index) = n;
  ok_lowlink : length s.(lowlink) = n;
  ok_flags : length s.(on_stack) = n;
  ok_stack : forall v, s.(on_stack) !! v = Some true <-> v ∈ s.(stack);
  ok_sorted : StronglySorted (below s) s.(stack);
  ok_next : forall v i, numbered s v i -> i < s.(next_index);
  ok_live : forall v, v ∈ s.(stack) -> lv v = true;
  ok_low : forall v, v ∈ s.(stack) -> exists i l, numbered s v i /\ s.(lowlink) !! v = Some l /\ base <= l <= i;
  ok_work : work.*1 `sublist_of` s.(stack);
  ok_edges : forall v si, (v, si) ∈ work -> exists b, bs !! v = Some b /\ si <= degree b;
  ok_bottom : bottom s work base;
  ok_out : Forall (fun c => c <> [] /\ Forall (fun v => lv v = true /\ v < n) c) s.(out)
}.

Lemma below_irrefl s a b : below s a b -> a <> b.
Proof. intros (i & j & Ha & Hb & L) ->. unfold numbered in *. simplify_eq. lia. Qed.

Lemma ok_nodup s work base : ok s work base -> NoDup s.(stack).
Proof.
  intros O. induction (ok_sorted _ _ _ O) as [| v l _ IH Hv]; constructor; [| done].
  intros E. rewrite Forall_forall in Hv. by apply (below_irrefl s v v); [apply Hv |].
Qed.

Lemma ok_in s work base v : ok s work base -> v ∈ work.*1 -> v ∈ s.(stack).
Proof. intros O Hv. exact (elem_of_sublist _ _ _ Hv (ok_work _ _ _ O)). Qed.

Lemma ok_advance s v si rest base b :
  bs !! v = Some b -> si < degree b -> ok s ((v, si) :: rest) base -> ok s ((v, S si) :: rest) base.
Proof.
  intros Hb L []. split; try done.
  intros v' si' [E | E]%elem_of_cons; [simplify_eq; exists b; split; [done | lia] |].
  apply ok_edges0. by right.
Qed.

Lemma enter_numbered s w v i :
  s.(index) !! w = Some None -> numbered (enter s w) v i <-> (v = w /\ i = s.(next_index)) \/ (numbered s v i).
Proof.
  intros Hw. pose proof (lookup_lt_Some _ _ _ Hw). unfold numbered. simpl. split.
  - intros [[-> [=]] | [_ E]]%lookup_insert_cases; auto.
  - intros [[-> ->] | E]; [by apply list_lookup_insert_eq |]. rewrite list_lookup_insert_ne; [done | by intros ->; simplify_eq].
Qed.

Lemma sorted_impl {A} (R R' : relation A) l :
  (forall a b, R a b -> R' a b) -> StronglySorted R l -> StronglySorted R' l.
Proof. intros H. induction 1; constructor; eauto using Forall_impl. Qed.

Lemma enter_below s w l :
  s.(index) !! w = Some None -> StronglySorted (below s) l -> StronglySorted (below (enter s w)) l.
Proof.
  intros Hw. apply sorted_impl. intros a b (i & j & Ha & Hb & L).
  exists i, j. rewrite !enter_numbered by done. auto.
Qed.

(** Entering a block, under a work list that may be empty. *)
Lemma ok_enter s work base w :
  ok s work base -> lv w = true -> s.(index) !! w = Some None -> (work = [] -> base = s.(next_index)) ->
  ok (enter s w) ((w, 0) :: work) base.
Proof.
  intros O Lw Hw Hbase. destruct O as [Oi Ol Of Os Oso On Oli Olo Ow Oe Ob Oo].
  assert (Hn : w < n) by (rewrite <- Oi; by eapply lookup_lt_Some).
  assert (New : w ∉ s.(stack)) by (intros (? & ? & E & _)%Olo; unfold numbered in E; by simplify_eq).
  assert (Hb : base <= s.(next_index)).
  { destruct work as [| p work]; [by rewrite Hbase |]. destruct Ob as (r & _ & _ & E). apply On in E. lia. }
  split; simpl; rewrite ?length_insert; try done.
  - intros v. rewrite elem_of_cons, <- Os, list_lookup_insert_Some, Of.
    split; [intros [(-> & _) | [_ C]]; auto | intros [-> | C]; [by left |]].
    destruct (decide (w = v)) as [-> |]; [by left | by right].
  - constructor; [by apply enter_below |]. apply Forall_forall. intros v Hv.
    destruct (Olo v Hv) as (i & l & Ei & _). exists s.(next_index), i. rewrite !enter_numbered by done.
    split; [auto |]. split; [auto |]. by apply (On v).
  - intros v i [[-> ->] | E]%enter_numbered; [lia | | done]. apply On in E. lia.
  - intros v [-> | Hv]%elem_of_cons; auto.
  - intros v [-> | Hv]%elem_of_cons.
    + exists s.(next_index), s.(next_index). rewrite enter_numbered by done.
      split; [auto |]. split; [apply list_lookup_insert_eq; congruence | lia].
    + destruct (Olo v Hv) as (i & l & Ei & El & L). exists i, l. rewrite enter_numbered by done.
      split; [auto |]. split; [| done]. rewrite list_lookup_insert_ne; [done | by intros ->].
  - by apply sublist_skip.
  - intros v si [E | E]%elem_of_cons; [| by apply Oe]. simplify_eq.
    destruct (lookup_lt_is_Some_2 bs w Hn) as [b Hb']. exists b. split; [done | lia].
  - destruct work as [| p work].
    + simpl in Ob. rewrite Ob. exists w. rewrite Hbase by done. simpl. split; [done |]. split; [done |].
      apply enter_numbered; auto.
    + destruct Ob as (r & E1 & E2 & E3). exists r.
      split; [done |]. split; [by rewrite last_cons, E2 |]. apply enter_numbered; auto.
Qed.

Lemma ok_set_low s work base v l x :
  ok s work base -> v ∈ s.(stack) -> s.(lowlink) !! v = Some l -> base <= x <= l -> ok (set_low s v x) work base.
Proof.
  intros [Oi Ol Of Os Oso On Oli Olo Ow Oe Ob Oo] Hv El L.
  pose proof (lookup_lt_Some _ _ _ El). split; simpl; rewrite ?length_insert; try done.
  intros u Hu. destruct (Olo u Hu) as (i & l' & E1 & E2 & L'). destruct (decide (u = v)) as [-> | N].
  - simplify_eq. exists i, x. split; [done |]. split; [by apply list_lookup_insert_eq | lia].
  - exists i, l'. by rewrite list_lookup_insert_ne.
Qed.

(** ** Popping a component *)

Lemma pop_members_spec v s1 s2 on ms :
  v ∉ s1 ->
  exists on', (pop_members v (s1 ++ v :: s2) on ms) = Some (ms ++ s1 ++ [v], s2, on') /\ length on' = length on /\
    forall u, on' !! u = Some true <-> (u ∉ s1 ++ [v]) /\ on !! u = Some true.
Proof.
  revert on ms. induction s1 as [| w s1 IH]; intros on ms Hv; simpl.
  - rewrite Nat.eqb_refl. eexists. split; [done |]. split; [apply length_insert |]. intros u.
    rewrite list_lookup_insert_Some, list_elem_of_singleton.
    split; [intros [(_ & ? & _) | [? ?]]; [done | split; congruence] | intros [? ?]; right; split; congruence].
  - apply not_elem_of_cons in Hv as [N Hv]. destruct (Nat.eqb_spec w v); [congruence |].
    destruct (IH (<[w := false]> on) (ms ++ [w]) Hv) as (on' & -> & L & Q). exists on'.
    rewrite <- app_assoc. split; [done |]. rewrite L, length_insert. split; [done |]. intros u.
    rewrite Q, list_lookup_insert_Some, elem_of_cons.
    split; [intros [? [(_ & ? & _) | [? ?]]]; [done |] | intros [? ?]]; intuition congruence.
Qed.

(** The stack around the block on top of the work list. *)
Lemma ok_split s v si rest base :
  ok s ((v, si) :: rest) base ->
  exists s1 s2, s.(stack) = s1 ++ v :: s2 /\ (v ∉ s1) /\ (forall u, u ∈ s2 -> u ∉ s1 ++ [v]) /\ rest.*1 `sublist_of` s2.
Proof.
  intros O. pose proof (ok_nodup _ _ _ O) as N.
  destruct (proj1 (sublist_cons_l _ _ _) (ok_work _ _ _ O)) as (s1 & s2 & E & S). exists s1, s2.
  rewrite E, cons_middle, (assoc_L (++)) in N. apply NoDup_app in N as (N1 & N2 & _).
  split; [done |]. split; [| split; [by intros u Hu Hu'; apply (N2 u) | done]].
  apply NoDup_app in N1 as (_ & N1 & _). intros C. apply (N1 v C). by left.
Qed.

Lemma sorted_app_r {A} (R : relation A) l1 l2 : StronglySorted R (l1 ++ l2) -> StronglySorted R l2.
Proof. induction l1; [done |]. intros H. inversion H. auto. Qed.

Lemma ok_close s v si rest base :
  ok s ((v, si) :: rest) base -> exists s', close bs lv s v = Some s' /\ ok s' rest base.
Proof.
  intros O. destruct (ok_split _ _ _ _ _ O) as (s1 & s2 & E & N1 & N2 & Sub).
  destruct O as [Oi Ol Of Os Oso On Oli Olo Ow Oe Ob Oo]. unfold close.
  destruct (Olo v) as (i & l & Ei & El & L); [rewrite E; set_solver |]. rewrite El, Ei. simpl.
  destruct (Oe v si) as (b & Eb & _); [by left |].
  destruct Ob as (r & R1 & R2 & R3). case_bool_decide as T; [injection T as -> |].
  - rewrite E. destruct (pop_members_spec v s1 s2 s.(on_stack) [] N1) as (on' & -> & Lon & Q). simpl. rewrite Eb. simpl.
    eexists. split; [done |]. split; simpl; try done.
    + congruence.
    + intros u. rewrite Q, Os, E. specialize (N2 u). set_solver.
    + rewrite E in Oso. apply (sorted_app_r _ (s1 ++ [v])). by rewrite <- app_assoc.
    + intros u Hu. apply Oli. rewrite E. set_solver.
    + intros u Hu. apply Olo. rewrite E. set_solver.
    + intros u si' Hu. apply (Oe u si'). by right.
    + rewrite E, last_app_cons in R2. destruct rest as [| p rest]; simpl in R1; simplify_eq.
      * destruct s2 as [| x s2]; [done |]. exfalso. apply (N2 r); [| set_solver].
        by apply last_Some_elem_of.
      * exists r. split; [done |]. split; [| done]. destruct s2 as [| x s2]; [by apply sublist_nil_r in Sub | done].
    + destruct (_ || _); [| done]. apply Forall_app. split; [done |]. apply Forall_singleton.
      split; [by destruct s1 |]. apply Forall_forall. intros u Hu.
      assert (Hs : u ∈ s.(stack)) by (rewrite E; set_solver). split; [by apply Oli |].
      destruct (Olo u Hs) as (j & _ & Ej & _). rewrite <- Oi. by eapply lookup_lt_Some.
  - exists s. split; [done |]. split; try done.
    + rewrite E. by apply sublist_inserts_l, sublist_cons.
    + intros u si' Hu. apply (Oe u si'). by right.
    + destruct rest as [| p rest]; [| by exists r].
      simpl in R1. simplify_eq. unfold numbered in *. simplify_eq. exfalso. apply T. f_equal. lia.
Qed.

(** ** One iteration *)

(** The parent takes over the lowlink of a block that ends. *)
Definition lowered (s : Search) (rest : list (nat * nat)) (l : nat) : Search :=
  match rest with
  | (p, _) :: _ => set_low s p (default 0 (s.(lowlink) !! p) `min` l)
  | [] => s
  end.

(** What an iteration does, by the successor it looks at. *)
Inductive moves (v si : nat) (rest : list (nat * nat)) (s : Search) : list (nat * nat) -> Search -> Prop :=
| move_skip b w :
    bs !! v = Some b -> b.(b_succs) !! si = Some w ->
    lv w = false \/ (exists i, numbered s w i) /\ w ∉ s.(stack) ->
    moves v si rest s ((v, S si) :: rest) s
| move_enter b w :
    bs !! v = Some b -> b.(b_succs) !! si = Some w -> lv w = true -> s.(index) !! w = Some None ->
    moves v si rest s ((w, 0) :: (v, S si) :: rest) (enter s w)
| move_low b w i l :
    bs !! v = Some b -> b.(b_succs) !! si = Some w -> lv w = true -> numbered s w i -> w ∈ s.(stack) ->
    s.(lowlink) !! v = Some l ->
    moves v si rest s ((v, S si) :: rest) (set_low s v (l `min` i))
| move_close b l s2 :
    bs !! v = Some b -> si = degree b -> s.(lowlink) !! v = Some l ->
    close bs lv (lowered s rest l) v = Some s2 ->
    moves v si rest s rest s2.

Lemma ok_parent s v si rest base l :
  ok s ((v, si) :: rest) base -> s.(lowlink) !! v = Some l ->
  ok (lowered s rest l) ((v, si) :: rest) base.
Proof.
  intros O El. destruct rest as [| [p sp] rest]; [done |].
  assert (W : forall u, u ∈ v :: p :: rest.*1 -> u ∈ s.(stack)) by (intros u Hu; by eapply ok_in).
  destruct (ok_low _ _ _ O p) as (i & lp & _ & Ep & L); [apply W; set_solver |].
  destruct (ok_low _ _ _ O v) as (i' & l' & _ & E' & L'); [apply W; set_solver |]. simplify_eq.
  simpl. rewrite Ep. eapply ok_set_low; [done | apply W; set_solver | done | simpl; lia].
Qed.

Lemma step_moves s v si rest base :
  in_range bs -> ok s ((v, si) :: rest) base ->
  exists work' s', step bs lv v si rest s = Some (work', s') /\ moves v si rest s work' s'.
Proof.
  intros R O. destruct (ok_edges _ _ _ O v si) as (b & Eb & Lsi); [by left |].
  destruct (ok_low _ _ _ O v) as (i & l & Ei & El & L).
  { eapply ok_in; [done | by left]. }
  unfold step. rewrite Eb. simpl. destruct (b_succs b !! si) as [w |] eqn:Ew.
  - assert (Hw : w < n) by (eapply R; [done | by eapply list_elem_of_lookup_2]).
    destruct (lv w) eqn:Lw; simpl; [| eexists _, _; split; [done |]; eapply move_skip; eauto].
    destruct (lookup_lt_is_Some_2 s.(index) w) as [iw Eiw]; [by rewrite (ok_index _ _ _ O) |].
    destruct (lookup_lt_is_Some_2 s.(on_stack) w) as [on Eon]; [by rewrite (ok_flags _ _ _ O) |].
    rewrite Eiw. destruct iw as [iw |]; [| eexists _, _; split; [done |]; by eapply move_enter].
    rewrite Eon, El. simpl. destruct on; (eexists _, _; split; [done |]).
    + eapply move_low; try done. by apply (ok_stack _ _ _ O).
    + eapply move_skip; [done | done |]. right. split; [by exists iw |]. rewrite <- (ok_stack _ _ _ O). congruence.
  - assert (si = degree b) by (apply lookup_ge_None_1 in Ew; unfold degree in *; lia).
    destruct (ok_close _ v si rest base (ok_parent _ _ _ _ _ _ O El)) as (s2 & Ec & _).
    rewrite El. simpl. exists rest, s2. split; [| by eapply move_close].
    destruct rest as [| [p sp] rest]; simpl in *; [by rewrite Ec |].
    destruct (s.(lowlink) !! p) eqn:Ep; simpl in *; [by rewrite Ec |].
    destruct (ok_low _ _ _ O p) as (? & ? & _ & ? & _); [| congruence].
    eapply ok_in; [done | by right; left].
Qed.

Lemma search_moves_ok s v si rest base work' s' :
  ok s ((v, si) :: rest) base -> moves v si rest s work' s' -> ok s' work' base.
Proof.
  intros O M.
  assert (A : forall b w, bs !! v = Some b -> b_succs b !! si = Some w -> ok s ((v, S si) :: rest) base).
  { intros b w Eb Ew. eapply ok_advance; [done | | done]. by eapply lookup_lt_Some. }
  destruct M as [b w Eb Ew _ | b w Eb Ew Lw Ei | b w i l Eb Ew Lw Ei Hw El | b l s2 Eb Esi El Ec].
  - by eapply A.
  - apply ok_enter; [by eapply A | done | done | done].
  - assert (Hv : v ∈ s.(stack)) by (eapply ok_in; [done | by left]).
    destruct (ok_low _ _ _ O v Hv) as (iv & l' & _ & El' & L). simplify_eq.
    destruct (ok_low _ _ _ O w Hw) as (iw & lw & Ei' & _ & L'). unfold numbered in *. simplify_eq.
    eapply ok_set_low; [by eapply A | done | done | lia].
  - destruct (ok_close _ v si rest base (ok_parent _ _ _ _ _ _ O El)) as (s3 & Ec' & O'). congruence.
Qed.

(** ** Termination *)

Definition seen (s : Search) : list bool := (fun i => bool_decide (is_Some i)) <$> s.(index).

Definition measure (s : Search) (work : list (nat * nat)) : nat := unseen bs (seen s) + pending bs work.

Lemma seen_new s w : s.(index) !! w = Some None -> seen s !! w = Some false /\ seen (enter s w) = <[w := true]> (seen s).
Proof. intros E. unfold seen. simpl. by rewrite list_fmap_insert, list_lookup_fmap, E. Qed.

Lemma close_index s v s' :
  close bs lv s v = Some s' -> s'.(index) = s.(index) /\ s'.(lowlink) = s.(lowlink).
Proof.
  unfold close. intros E. destruct (lowlink s !! v); [| done]. destruct (index s !! v); [| done]. simpl in E.
  case_bool_decide; [| by simplify_eq]. destruct (pop_members _ _ _ _) as [[[ms st] on] |]; [| done]. simpl in E.
  destruct (bs !! v); [| done]. by simplify_eq.
Qed.

Lemma moves_measure s v si rest work' s' :
  length s.(index) = n -> moves v si rest s work' s' -> S (measure s' work') <= measure s ((v, si) :: rest).
Proof.
  unfold measure. intros Hn [b w Eb Ew _ | b w Eb Ew Lw Ei | b w i l Eb Ew Lw Ei Hw El | b l s2 Eb -> El Ec];
    try (apply lookup_lt_Some in Ew; rewrite <- (pending_advance bs v si b) by done; unfold seen; simpl; lia).
  - destruct (seen_new s w Ei) as [E ->]. rewrite <- (cost_enter bs _ v si b rest w Eb Ew E); [done |].
    unfold seen. by rewrite length_fmap.
  - unfold seen. apply close_index in Ec as [-> _].
    assert ((lowered s rest l).(index) = s.(index)) as -> by (by destruct rest as [| [] ]).
    rewrite pending_cons. lia.
Qed.

(** An invariant of the iterations holds when the search of a root ends. *)
Lemma loop_ok (I : Search -> list (nat * nat) -> Prop) fuel s work base :
  in_range bs ->
  (forall s v si rest work' s', ok s ((v, si) :: rest) base -> moves v si rest s work' s' ->
     I s ((v, si) :: rest) -> I s' work') ->
  ok s work base -> I s work -> measure s work <= fuel ->
  exists s', loop bs lv fuel work s = Some s' /\ ok s' [] base /\ I s' [].
Proof.
  intros R HI. revert s work. induction fuel as [| fuel IH]; intros s [| [v si] rest] O Is L; simpl; eauto.
  { unfold measure, pending in L. simpl in L. lia. }
  destruct (step_moves _ _ _ _ _ R O) as (work' & s' & -> & M). simpl.
  pose proof (moves_measure _ _ _ _ _ _ (ok_index _ _ _ O) M).
  apply IH; [by eapply search_moves_ok | by eapply HI | lia].
Qed.

(** ** Cycles *)

Definition edge (v w : nat) : Prop := exists b, bs !! v = Some b /\ w ∈ b.(b_succs) /\ lv w = true.

(** Finished blocks, the last first: every edge goes to one finished before. *)
Inductive topo : list nat -> Prop :=
| topo_nil : topo []
| topo_cons v fin : (v ∉ fin) -> (forall w, edge v w -> w ∈ fin) -> topo fin -> topo (v :: fin).

Lemma tc_inv {A} (R : relation A) a c : tc R a c -> R a c \/ exists b, R a b /\ tc R b c.
Proof. intros []; eauto. Qed.

Lemma topo_closed fin v w : topo fin -> v ∈ fin -> tc edge v w -> w ∈ fin.
Proof.
  intros T Hv P. revert Hv. assert (C : forall v w, v ∈ fin -> edge v w -> w ∈ fin).
  { clear -T. induction T as [| u fin _ E _ IH]; [by intros ? ? ?%not_elem_of_nil |].
    intros v w [-> | Hv]%elem_of_cons H; right; eauto. }
  induction P; eauto.
Qed.

Lemma topo_acyclic fin v : topo fin -> v ∈ fin -> ~ tc edge v v.
Proof.
  induction 1 as [| u fin N E T IH]; [by intros ?%not_elem_of_nil |].
  intros [-> | Hv]%elem_of_cons P; [| by apply IH]. apply N.
  apply tc_inv in P as [H | (w & H & P)]; [by apply E | eapply topo_closed; eauto].
Qed.

(** The successors of the open blocks that were looked at: finished, the child
    above, or on the stack and accounted for in [lowlink]. *)
Fixpoint explored (s : Search) (fin : list nat) (above : option nat) (work : list (nat * nat)) : Prop :=
  match work with
  | [] => True
  | (v, si) :: rest =>
      (forall b k w, bs !! v = Some b -> b.(b_succs) !! k = Some w -> k < si -> lv w = true ->
         w ∈ fin \/ above = Some w \/
         (w ∈ s.(stack) /\ exists l i, s.(lowlink) !! v = Some l /\ numbered s w i /\ l <= i)) /\
      explored s fin (Some v) rest
  end.

Definition tidy (s : Search) (work : list (nat * nat)) : Prop :=
  s.(stack) = work.*1 /\ exists fin,
    (forall u, u ∈ fin <-> (exists i, numbered s u i) /\ u ∉ s.(stack)) /\ topo fin /\ explored s fin None work.

Lemma explored_mono s s' fin fin' a a' work :
  (forall u, u ∈ fin -> u ∈ fin') -> (forall w, a = Some w -> w ∈ fin' \/ a' = Some w) ->
  (forall w, w ∈ s.(stack) -> w ∈ fin' \/ w ∈ s'.(stack)) -> (forall w i, numbered s w i -> numbered s' w i) ->
  (forall v l, s.(lowlink) !! v = Some l -> v ∈ work.*1 -> exists l', s'.(lowlink) !! v = Some l' /\ l' <= l) ->
  explored s fin a work -> explored s' fin' a' work.
Proof.
  intros Hf Ha Hs Hn Hl. revert a a' Ha. induction work as [| [v si] work IH]; intros a a' Ha; [done |].
  intros [E1 E2]. split.
  - intros b k w Eb Ek Lk Lw. destruct (E1 b k w Eb Ek Lk Lw) as [H | [H | (H & l & i & El & Ei & L)]]; [by auto | |].
    + destruct (Ha w H); auto.
    + destruct (Hs w H) as [? | H']; [by auto |]. right. right. split; [done |].
      destruct (Hl v l El) as (l' & El' & L'); [by left |]. exists l', i. split; [done |]. split; [by apply Hn | lia].
  - eapply IH; [| | done]; [intros; apply Hl; [done | by right] | auto].
Qed.

Lemma explored_advance s fin a v si rest b w :
  bs !! v = Some b -> b.(b_succs) !! si = Some w ->
  (lv w = true -> w ∈ fin \/ a = Some w \/
    (w ∈ s.(stack) /\ exists l i, s.(lowlink) !! v = Some l /\ numbered s w i /\ l <= i)) ->
  explored s fin a ((v, si) :: rest) -> explored s fin a ((v, S si) :: rest).
Proof.
  intros Eb Ew H [E1 E2]. split; [| done]. intros b' k w' Eb' Ek Lk Lw. simplify_eq.
  destruct (decide (k = si)) as [-> |]; [simplify_eq; auto | apply (E1 b k w'); auto; lia].
Qed.

(** Either a component was reported, or one is going to be, or the finished
    blocks have no cycle. *)
Definition progress (s : Search) (work : list (nat * nat)) : Prop :=
  s.(out) <> [] \/ (exists u, u ∈ s.(stack) /\ u ∉ work.*1) \/ tidy s work.

Lemma set_low_explored s fin a work v l x :
  s.(lowlink) !! v = Some l -> x <= l -> explored s fin a work -> explored (set_low s v x) fin a work.
Proof.
  intros El L. apply explored_mono; auto. intros u lu Eu _. simpl. pose proof (lookup_lt_Some _ _ _ El).
  destruct (decide (u = v)) as [-> | N]; [| exists lu; by rewrite list_lookup_insert_ne].
  simplify_eq. exists x. by rewrite list_lookup_insert_eq.
Qed.

Lemma tidy_skip s v si rest b w :
  bs !! v = Some b -> b.(b_succs) !! si = Some w ->
  lv w = false \/ (exists i, numbered s w i) /\ w ∉ s.(stack) ->
  tidy s ((v, si) :: rest) -> tidy s ((v, S si) :: rest).
Proof.
  intros Eb Ew C (Es & fin & F & T & X). split; [done |]. exists fin. split; [done |]. split; [done |].
  eapply explored_advance; [done | done | | done]. intros Lw. left. apply F. destruct C; [congruence | done].
Qed.

Lemma tidy_enter s v si rest b w base :
  ok s ((v, si) :: rest) base ->
  bs !! v = Some b -> b.(b_succs) !! si = Some w -> s.(index) !! w = Some None ->
  tidy s ((v, si) :: rest) -> tidy (enter s w) ((w, 0) :: (v, S si) :: rest).
Proof.
  intros O Eb Ew Ei (Es & fin & F & T & X). split; [simpl; by rewrite Es |]. exists fin.
  assert (New : forall i, ~ numbered s w i) by (intros i E; unfold numbered in E; congruence).
  split; [| split; [done |]].
  - intros u. rewrite F. simpl. rewrite not_elem_of_cons. split.
    + intros [[i Hi] Hu]. split; [exists i; apply enter_numbered; auto |]. split; [| done]. intros ->. by apply (New i).
    + intros [[i [[-> _] | Hi]%enter_numbered] [N Hu]]; [done | eauto | done].
  - split; [intros ? ? ? _ _ ?; lia |]. eapply explored_advance; [done | done | auto |].
    eapply explored_mono; [.. | done]; try done.
    + intros u Hu. right. by right.
    + intros u i Hi. apply enter_numbered; auto.
    + intros u l El Hu. exists l. simpl. rewrite list_lookup_insert_ne; [done |]. intros ->.
      destruct (ok_low _ _ _ O u) as (i & _ & Hi & _); [by eapply ok_in | by apply (New i)].
Qed.

Lemma tidy_low s v si rest b w i l :
  bs !! v = Some b -> b.(b_succs) !! si = Some w -> numbered s w i -> w ∈ s.(stack) -> s.(lowlink) !! v = Some l ->
  tidy s ((v, si) :: rest) -> tidy (set_low s v (l `min` i)) ((v, S si) :: rest).
Proof.
  intros Eb Ew Ei Hw El (Es & fin & F & T & X). split; [done |]. exists fin. split; [done |]. split; [done |].
  eapply explored_advance; [done | done | |].
  - intros _. right. right. split; [done |]. exists (l `min` i), i.
    split; [apply list_lookup_insert_eq; by eapply lookup_lt_Some | split; [done | lia]].
  - eapply set_low_explored; [done | lia | done].
Qed.

(** ** The end of a visit *)

(** The two outcomes of [close]. *)
Lemma close_cases s v si rest base s' :
  ok s ((v, si) :: rest) base -> close bs lv s v = Some s' ->
  s' = s \/
  exists l s1 s2 b, s.(lowlink) !! v = Some l /\ numbered s v l /\ s.(stack) = s1 ++ v :: s2 /\ bs !! v = Some b /\
    s'.(stack) = s2 /\ s'.(index) = s.(index) /\ s'.(lowlink) = s.(lowlink) /\
    (s'.(out) <> [] \/ s'.(out) = s.(out) /\ s1 = [] /\ ~ (v ∈ b.(b_succs) /\ lv v = true)).
Proof.
  intros O. destruct (ok_split _ _ _ _ _ O) as (s1 & s2 & E & N1 & N2 & Sub).
  destruct (ok_low _ _ _ O v) as (i & l & Ei & El & L); [eapply ok_in; [done | by left] |].
  destruct (ok_edges _ _ _ O v si) as (b & Eb & _); [by left |].
  unfold close. rewrite El, Ei, E. simpl. case_bool_decide as T; [injection T as -> | intros; simplify_eq; auto].
  destruct (pop_members_spec v s1 s2 s.(on_stack) [] N1) as (on' & -> & _). simpl. rewrite Eb. simpl.
  intros ?. simplify_eq. right. exists l, s1, s2, b. do 7 (split; [done |]). simpl.
  destruct (_ || _) eqn:C; [left; by destruct (out s) |]. right. apply orb_false_iff in C as [C1 C2].
  apply Nat.ltb_ge in C1. rewrite length_app in C1. simpl in C1.
  split; [done |]. split; [destruct s1; simpl in *; [done | lia] |]. intros [Hv Lv].
  by rewrite bool_decide_true, Lv in C2.
Qed.

Lemma lowered_same s rest l :
  (lowered s rest l).(stack) = s.(stack) /\ (lowered s rest l).(index) = s.(index) /\ (lowered s rest l).(out) = s.(out).
Proof. by destruct rest as [| [] ]. Qed.

Lemma lowered_low s rest l u : u ∉ rest.*1 -> (lowered s rest l).(lowlink) !! u = s.(lowlink) !! u.
Proof.
  destruct rest as [| [p sp] rest]; [done |]. simpl. intros [N _]%not_elem_of_cons. by rewrite list_lookup_insert_ne.
Qed.

Lemma lowered_explored s fin a work rest l : explored s fin a work -> explored (lowered s rest l) fin a work.
Proof.
  destruct rest as [| [p sp] rest]; [done |]. simpl. destruct (s.(lowlink) !! p) as [lp |] eqn:Ep.
  - eapply set_low_explored; [done | simpl; lia].
  - apply explored_mono; auto. intros v lv' E _. exists lv'. simpl.
    rewrite list_insert_ge; [done | by apply lookup_ge_None].
Qed.

Lemma tidy_close s v b rest base l s1 s2 s' :
  ok s ((v, degree b) :: rest) base -> tidy s ((v, degree b) :: rest) ->
  bs !! v = Some b -> ~ (v ∈ b.(b_succs) /\ lv v = true) ->
  s.(lowlink) !! v = Some l -> numbered s v l -> s.(stack) = s1 ++ v :: s2 -> s1 = [] ->
  s'.(stack) = s2 -> s'.(index) = s.(index) -> s'.(lowlink) = (lowered s rest l).(lowlink) -> tidy s' rest.
Proof.
  intros O (Es & fin & F & T & [X1 X2]) Eb Self El Ev Est -> E1 E2 E3.
  simpl in Est. rewrite Est in Es. injection Es as ->.
  pose proof (ok_nodup _ _ _ O) as ND. rewrite Est in ND. apply NoDup_cons in ND as [ND _].
  assert (Fv : v ∉ fin) by (rewrite F, Est; intros [_ []]; by left).
  split; [done |]. exists (v :: fin). unfold numbered. rewrite E1, E2. split; [| split].
  - intros u. rewrite elem_of_cons, F, Est, not_elem_of_cons. split.
    + intros [-> | (Hi & _ & Hu)]; [| done]. split; [by exists l | done].
    + intros [Hi Hu]. destruct (decide (u = v)); [by left | by right].
  - constructor; [done | | done]. intros w (b' & Eb' & Hw & Lw). simplify_eq.
    apply list_elem_of_lookup in Hw as [k Ek].
    destruct (X1 b k w Eb Ek (lookup_lt_Some _ _ _ Ek) Lw) as [? | [? | (Hs & l' & i & El' & Ei & L)]]; [done | done |].
    simplify_eq. rewrite Est in Hs. apply elem_of_cons in Hs as [-> | Hs].
    + exfalso. apply Self. split; [by eapply list_elem_of_lookup_2 | done].
    + pose proof (ok_sorted _ _ _ O) as So. rewrite Est in So. inversion So as [| ? ? _ Fa]. subst.
      rewrite Forall_forall in Fa. destruct (Fa w Hs) as (i1 & i2 & H1 & H2 & L2). unfold numbered in *. simplify_eq. lia.
  - apply (lowered_explored _ _ _ _ rest l) in X2. revert X2.
    pose proof (lowered_same s rest l) as (Ls & Li & _).
    apply explored_mono; unfold numbered; rewrite ?E1, ?E2, ?E3, ?Ls, ?Li, ?Est; eauto.
    + intros u Hu. by right.
    + intros u [= ->]. left. by left.
    + intros u [-> | Hu]%elem_of_cons; [left; by left | by right].
Qed.

Lemma moves_progress s v si rest base work' s' :
  ok s ((v, si) :: rest) base -> moves v si rest s work' s' ->
  progress s ((v, si) :: rest) -> progress s' work'.
Proof.
  intros O M P.
  destruct M as [b w Eb Ew C | b w Eb Ew Lw Ei | b w i l Eb Ew Lw Ei Hw El | b l s2 Eb -> El Ec].
  - destruct P as [P | [P | P]]; [by left | by right; left | right; right]. by eapply tidy_skip.
  - destruct P as [P | [(u & Hu & Nu) | P]]; [by left | right; left | right; right; by eapply tidy_enter].
    exists u. split; [by right |]. apply not_elem_of_cons. split; [| done]. intros ->.
    destruct (ok_low _ _ _ O w Hu) as (i & _ & Hi & _). unfold numbered in Hi. congruence.
  - destruct P as [P | [P | P]]; [by left | by right; left | right; right]. by eapply tidy_low.
  - pose proof (lowered_same s rest l) as (Ls & Li & Lo).
    assert (Nv : v ∉ rest.*1).
    { destruct (ok_split _ _ _ _ _ O) as (s1 & s2' & _ & _ & N2 & Sub). intros Hv.
      apply (N2 v); [by eapply elem_of_sublist | set_solver]. }
    destruct (close_cases _ _ _ _ _ _ (ok_parent _ _ _ _ _ _ O El) Ec) as
      [-> | (l' & t1 & t2 & b' & El' & Ev & Est & Eb' & E1 & E2 & E3 & [Out | (Out & -> & Self)])].
    + right. left. exists v. rewrite Ls. split; [| done]. eapply ok_in; [done | by left].
    + by left.
    + rewrite lowered_low in El' by done. simplify_eq. rewrite Ls in Est. simpl in Est.
      destruct P as [P | [(u & Hu & Nu) | P]].
      * left. by rewrite Out, Lo.
      * right. left. exists u. simpl in Nu. apply not_elem_of_cons in Nu as [Nu1 Nu2].
        rewrite Est in Hu. apply elem_of_cons in Hu as [-> | Hu]; done.
      * right. right. unfold numbered in *. eapply (tidy_close s v) with (s1 := []); try done; unfold numbered; congruence.
Qed.

(** ** All roots *)

Definition clean (s : Search) : Prop := ok s [] s.(next_index) /\ progress s [].

Lemma ok_base s base base' : ok s [] base -> ok s [] base'.
Proof. intros []. split; try done. intros v. by rewrite (ok_bottom0 : s.(stack) = []), elem_of_nil. Qed.

Lemma start_clean : clean (start bs).
Proof.
  split; [split; simpl; rewrite ?length_replicate; try done |].
  - intros v. rewrite elem_of_nil. split; [| done]. by intros [? _]%lookup_replicate.
  - constructor.
  - by intros v i [? _]%lookup_replicate.
  - by intros v ?%elem_of_nil.
  - by intros v ?%elem_of_nil.
  - by intros v si ?%elem_of_nil.
  - right. right. split; [done |]. exists []. split; [| by split; [constructor |]].
    intros u. rewrite elem_of_nil. split; [done |]. by intros [[i [? _]%lookup_replicate] _].
Qed.

Lemma moves_numbered s v si rest work' s' u i : moves v si rest s work' s' -> numbered s u i -> numbered s' u i.
Proof.
  intros [b w _ _ _ | b w _ _ _ Ei | b w j l _ _ _ _ _ _ | b l s2 _ _ _ Ec] H; try done.
  - apply enter_numbered; auto.
  - unfold numbered. apply close_index in Ec as [-> _]. by destruct (lowered_same s rest l) as (_ & -> & _).
Qed.

Lemma enter_progress s r base :
  ok s [] base -> progress s [] -> s.(index) !! r = Some None -> progress (enter s r) [(r, 0)].
Proof.
  intros O [P | [(u & Hu & _) | (Es & fin & F & T & X)]] Hr; [by left | |].
  - by rewrite (ok_bottom _ _ _ O : s.(stack) = []), elem_of_nil in Hu.
  - right. right. split; [simpl; by rewrite Es |]. exists fin. split; [| split; [done |]; split; [intros; lia | done]].
    intros u. rewrite F, Es. simpl. rewrite Es, list_elem_of_singleton. split.
    + intros [[i Hi] _]. split; [exists i; apply enter_numbered; auto |]. intros ->. unfold numbered in Hi. congruence.
    + intros [[i [[-> _] | Hi]%enter_numbered] Hu]; [done | | done]. split; [by exists i | apply not_elem_of_nil].
Qed.

Lemma root_clean s r :
  in_range bs -> clean s -> r < n ->
  exists s', root bs lv s r = Some s' /\ clean s' /\ (forall u i, numbered s u i -> numbered s' u i) /\
    (lv r = true -> exists i, numbered s' r i).
Proof.
  intros R [O P] Hr. unfold root.
  destruct (lookup_lt_is_Some_2 s.(index) r) as [i Ei]; [by rewrite (ok_index _ _ _ O) |]. rewrite Ei. simpl.
  destruct (lv r) eqn:Lr; simpl; [| by exists s]. destruct i as [i |]; simpl.
  { exists s. split; [done |]. split; [done |]. split; [done |]. intros _. by exists i. }
  pose proof (ok_enter s [] _ r O Lr Ei ltac:(done)) as O'.
  destruct (loop_ok (fun s' work => progress s' work /\ (forall u i, numbered (enter s r) u i -> numbered s' u i))
              (size bs) (enter s r) [(r, 0)] s.(next_index) R) as (s' & E & O2 & P2 & N2); try done.
  - intros s1 v si rest work' s2 O1 M [P1 N1]. split; [by eapply moves_progress | eauto using moves_numbered].
  - split; [by eapply enter_progress | done].
  - unfold measure. destruct (seen_new s r Ei) as [E ->]. by apply cost_start.
  - exists s'. split; [done |]. split; [split; [by eapply ok_base | done] |]. split.
    + intros u i Hi. apply N2, enter_numbered; auto.
    + intros _. exists s.(next_index). apply N2, enter_numbered; auto.
Qed.

Lemma roots_clean rs s :
  in_range bs -> clean s -> Forall (fun r => r < n) rs ->
  exists s', roots bs lv rs s = Some s' /\ clean s' /\ (forall u i, numbered s u i -> numbered s' u i) /\
    (forall r, r ∈ rs -> lv r = true -> exists i, numbered s' r i).
Proof.
  intros R. revert s. induction rs as [| r rs IH]; intros s C F; simpl.
  - exists s. split; [done |]. split; [done |]. split; [done |]. by intros r ?%elem_of_nil.
  - apply Forall_cons in F as [Fr F]. destruct (root_clean s r R C Fr) as (s1 & -> & C1 & N1 & V1). simpl.
    destruct (IH s1 C1 F) as (s2 & -> & C2 & N2 & V2). exists s2. split; [done |]. split; [done |]. split; [auto |].
    intros u [-> | Hu]%elem_of_cons Lu; [| by apply V2]. destruct (V1 Lu) as [i Hi]. eauto.
Qed.

Lemma cycle_end v w : in_range bs -> tc edge v w -> lv w = true /\ w < n.
Proof. intros R. induction 1 as [v w (b & Eb & Hw & Lw) |]; [| done]. split; [done | by eapply R]. Qed.

(** The components are sets of live blocks; there is one if there is a cycle. *)
Lemma components_spec :
  in_range bs ->
  exists comps, components bs lv = Some comps /\
    Forall (fun c => c <> [] /\ Forall (fun v => lv v = true /\ v < n) c) comps /\
    (comps = [] -> forall v, ~ tc edge v v).
Proof.
  intros R. destruct (roots_clean (seq 0 n) (start bs) R start_clean) as (s & E & [O P] & _ & V).
  { apply Forall_forall. intros r Hr%elem_of_seq. lia. }
  exists s.(out). unfold components. rewrite E. split; [done |]. split; [apply (ok_out _ _ _ O) |].
  intros Out v Cy. destruct P as [P | [(u & Hu & _) | (Es & fin & F & T & _)]]; [done | |].
  { by rewrite (ok_bottom _ _ _ O : s.(stack) = []), elem_of_nil in Hu. }
  destruct (cycle_end _ _ R Cy) as [Lv Hv]. eapply topo_acyclic; [done | | done]. apply F. rewrite Es.
  split; [| apply not_elem_of_nil]. apply V; [| done]. apply elem_of_seq. lia.
Qed.
End Search.

Import ir dom scc.
#[local] Open Scope nat_scope.

Definition unmarked (bs : list Block) : nat := length (filter (fun b => widen_here b = false) bs).

Lemma annotated_unmarked bs bs' : annotated bs bs' -> unmarked bs' <= unmarked bs.
Proof.
  unfold unmarked. induction 1 as [| b b' l l' H _ IH]; [done |]. rewrite !filter_cons.
  pose proof (ext_mark _ _ (proj1 H)). destruct (widen_here b), (widen_here b'); repeat case_decide; simpl; intuition (lia || done).
Qed.

Lemma mark_annotates b : annotates b (mark b).
Proof. by repeat split. Qed.

Lemma modify_mark bs h :
  h < length bs -> exists bs', modify bs h mark = Some bs' /\ annotated bs bs' /\ live bs' h = false /\
    (live bs h = true -> unmarked bs' < unmarked bs).
Proof.
  intros L. destruct (annotated_modify bs h mark mark_annotates L) as (b & Eb & -> & X). eexists. split_and!; [done | done | |].
  - unfold live. by rewrite list_lookup_insert_eq.
  - unfold live. rewrite Eb. simpl. rewrite negb_true_iff. unfold unmarked. clear L X. revert h Eb.
    induction bs as [| c bs IH]; intros h Eb Hb; [done |]. destruct h as [| h]; simpl in *; simplify_eq; rewrite !filter_cons.
    + rewrite (decide_True (P := widen_here b = false)) by done. rewrite decide_False by done. simpl. lia.
    + specialize (IH h Eb Hb). case_decide; simpl; lia.
Qed.

(** ** Heads *)

Lemma minimum_elem l : l <> [] -> exists x, minimum l = Some x /\ x ∈ l.
Proof.
  destruct l as [| x l]; [done |]. intros _. eexists. split; [done |]. revert x.
  induction l as [| y l IH]; intros x; simpl; [by left |].
  destruct (Nat.min_spec x y) as [[_ ->] | [_ ->]].
  - destruct (proj1 (elem_of_cons _ _ _) (IH x)) as [-> | H]; [by left | by right; right].
  - right. apply IH.
Qed.

Lemma head_elem bs comp :
  comp <> [] -> Forall (fun v => v < length bs) comp -> exists h, pick_component_head bs comp = Some h /\ h ∈ comp.
Proof.
  intros Ne F. unfold pick_component_head.
  destruct (mapM_total (fun b => let* blk := bs !! b in
     Some (b, existsb (fun p => negb (bool_decide (p ∈ comp))) (b_preds blk))) (fun p => p.1 ∈ comp) comp) as (es & Ees & Fes).
  { intros v Hv. rewrite Forall_forall in F. destruct (lookup_lt_is_Some_2 bs v (F v Hv)) as [b Eb]. rewrite Eb. simpl. eauto. }
  rewrite Ees. simpl. set (l := (filter _ es).*1). destruct (decide (l = [])) as [-> | N]; [by apply minimum_elem |].
  destruct (minimum_elem l N) as (h & -> & Hh). exists h. split; [done |].
  apply list_elem_of_fmap in Hh as (p & -> & Hp%list_elem_of_filter). rewrite Forall_forall in Fes. apply Fes. by destruct Hp.
Qed.

Lemma mark_heads_total comps bs :
  Forall (fun c => c <> [] /\ Forall (fun v => v < length bs) c) comps ->
  exists bs', mark_heads comps bs = Some bs' /\ annotated bs bs' /\
    (forall c cs, comps = c :: cs -> Forall (fun v => live bs v = true) c -> unmarked bs' < unmarked bs).
Proof.
  revert bs. induction comps as [| c comps IH]; intros bs F; simpl; [by exists bs |].
  apply Forall_cons in F as [[Ne Fc] F]. destruct (head_elem bs c Ne Fc) as (h & -> & Hh). simpl.
  destruct (modify_mark bs h) as (bs1 & -> & W1 & L1 & U1); [rewrite Forall_forall in Fc; by apply Fc |]. simpl.
  destruct (IH bs1) as (bs2 & -> & W2 & _); [by rewrite (annotated_length _ _ W1) |].
  exists bs2. split; [done |]. split; [by transitivity bs1 |]. intros c' cs [= <- <-] Hl.
  rewrite Forall_forall in Hl. pose proof (U1 (Hl h Hh)). pose proof (annotated_unmarked _ _ W2). lia.
Qed.

(** ** Rounds *)

Lemma cyclic_components_spec bs :
  in_range bs ->
  exists comps, cyclic_components_avoiding_marked bs = Some comps /\
    Forall (fun c => c <> [] /\ Forall (fun v => live bs v = true /\ v < length bs) c) comps /\
    (comps = [] -> forall v, ~ tc (edge bs (live bs)) v v).
Proof.
  intros R. destruct (components_spec bs (live bs) R) as (comps & E & F & N).
  exists (sort_nat <$> comps). unfold cyclic_components_avoiding_marked. rewrite E. split; [done |]. split.
  - apply Forall_fmap. eapply Forall_impl; [done |]. intros c [Ne Fc]. unfold sort_nat; simpl.
    pose proof (merge_sort_Permutation Nat.le c) as P. split; [| by rewrite P].
    intros E0. apply Ne. apply Permutation_nil. by rewrite <- E0.
  - intros ->%fmap_nil_inv. by apply N.
Qed.

Lemma mark_rounds_total fuel bs :
  in_range bs -> unmarked bs < fuel ->
  exists bs', mark_rounds fuel bs = Some bs' /\ annotated bs bs' /\ forall v, ~ tc (edge bs' (live bs')) v v.
Proof.
  revert bs. induction fuel as [| fuel IH]; intros bs R L; [lia |]. simpl.
  destruct (cyclic_components_spec bs R) as (comps & -> & F & N). simpl. case_bool_decide as C; [exists bs; split; [done |]; split; [done | auto] |].
  destruct (mark_heads_total comps bs) as (bs1 & -> & W1 & U1).
  { eapply Forall_impl; [done |]. intros c [Ne Fc]. split; [done |]. eapply Forall_impl; [done |]. by intros v []. }
  simpl. assert (unmarked bs1 < unmarked bs).
  { destruct comps as [| c cs]; [done |]. apply (U1 c cs); [done |]. apply Forall_cons in F as [[_ F] _].
    eapply Forall_impl; [done |]. by intros v []. }
  destruct (IH bs1) as (bs2 & -> & W2 & N2); [by eapply in_range_extended; [apply annotated_extended |] | lia |].
  exists bs2. split; [done |]. split; [by transitivity bs1 | done].
Qed.

(** ** Walks *)

Definition widened (bs : list Block) (v : nat) : Prop := exists b, bs !! v = Some b /\ b.(widen_here) = true.

Lemma walk_edges bs v c u :
  walk bs v c u -> c <> [] -> (exists w, w ∈ c /\ widened bs w) \/ tc (edge bs (live bs)) v u.
Proof.
  induction 1 as [| v b w c u Eb Hw W IH]; [done |]. intros _.
  destruct (live bs w) eqn:Lw.
  - assert (E : edge bs (live bs) v w) by (by exists b). destruct c as [| w' c].
    + inversion W. subst. right. by apply tc_once.
    + destruct (IH ltac:(done)) as [(w2 & H2 & Q) | P]; [left; exists w2; split; [by right | done] | right]. by eapply tc_l.
  - left. exists w. split; [by left |]. unfold live in Lw. destruct (bs !! w) as [b' |] eqn:E; [| done].
    exists b'. split; [done |]. simpl in Lw. by apply negb_false_iff.
Qed.

(** ** Passes 7 and 7b *)

Lemma set_scc_annotates c b : annotates b (set_scc b c).
Proof. by repeat split. Qed.

Lemma number_members_total c ms bs :
  Forall (fun v => v < length bs) ms -> exists bs', number_members c ms bs = Some bs' /\ annotated bs bs'.
Proof.
  revert bs. induction ms as [| v ms IH]; intros bs F; simpl; [by exists bs |]. apply Forall_cons in F as [Fv F].
  destruct (annotated_modify bs v _ (set_scc_annotates c) Fv) as (b & _ & -> & X). simpl.
  destruct (IH (<[v := set_scc b c]> bs)) as (bs' & -> & X'); [by rewrite length_insert |].
  exists bs'. split; [done |]. by etransitivity.
Qed.

Lemma number_components_total c comps bs :
  Forall (Forall (fun v => v < length bs)) comps -> exists bs', number_components c comps bs = Some bs' /\ annotated bs bs'.
Proof.
  revert c bs. induction comps as [| ms comps IH]; intros c bs F; simpl; [by exists bs |]. apply Forall_cons in F as [Fv F].
  destruct (number_members_total c ms bs Fv) as (bs1 & -> & X). simpl.
  destruct (IH (S c) bs1) as (bs' & -> & X'); [by rewrite (annotated_length _ _ X) |].
  exists bs'. split; [done |]. by transitivity bs1.
Qed.

Lemma tarjan_total bs : in_range bs -> exists bs', tarjan_scc bs = Some bs' /\ annotated bs bs'.
Proof.
  intros R. destruct (components_spec bs (fun _ => true) R) as (comps & E & F & _). unfold tarjan_scc. rewrite E. simpl.
  apply number_components_total. eapply Forall_impl; [done |]. intros c [_ Fc]. eapply Forall_impl; [done |]. by intros v [].
Qed.

Lemma entered_total bs c preds : Forall (fun p => p < length bs) preds -> exists e, entered_from_outside bs c preds = Some e.
Proof.
  induction 1 as [| p preds Hp _ [e IH]]; [by eexists |]. simpl.
  destruct (lookup_lt_is_Some_2 bs p Hp) as [b ->]. simpl. case_bool_decide; eauto.
Qed.

Lemma mark_entry_total bs bi :
  preds_in (length bs) bs -> bi < length bs -> exists bs', mark_entry bs bi = Some bs' /\ annotated bs bs'.
Proof.
  intros P L. unfold mark_entry. destruct (lookup_lt_is_Some_2 bs bi L) as [b Eb]. rewrite Eb. simpl.
  destruct (b_scc b) as [c |]; [| by exists bs].
  destruct (entered_total bs (Some c) b.(b_preds)) as [[] ->]; [by eapply Forall_lookup_1 in P | | by exists bs]. simpl.
  destruct (annotated_modify bs bi mark mark_annotates L) as (b' & _ & -> & X). by eexists.
Qed.

Lemma mark_entries_total bis bs :
  preds_in (length bs) bs -> Forall (fun bi => bi < length bs) bis -> exists bs', mark_entries bis bs = Some bs' /\ annotated bs bs'.
Proof.
  intros P F. revert bs P F. induction bis as [| bi bis IH]; intros bs P F; simpl; [by exists bs |].
  apply Forall_cons in F as [Fb F]. destruct (mark_entry_total bs bi P Fb) as (bs1 & -> & X). simpl.
  destruct (IH bs1) as (bs2 & -> & X2); [| by rewrite (annotated_length _ _ X) |].
  - rewrite (annotated_length _ _ X). by eapply preds_in_extended; [apply annotated_extended |].
  - exists bs2. split; [done |]. by transitivity bs1.
Qed.

Lemma widening_points_spec bs :
  in_range bs -> preds_in (length bs) bs ->
  exists bs', widening_points bs = Some bs' /\ annotated bs bs' /\
    forall v c, c <> [] -> walk bs' v c v -> exists w, w ∈ c /\ widened bs' w.
Proof.
  intros R P. unfold widening_points. destruct (tarjan_total bs R) as (bs0 & -> & W0). simpl.
  pose proof (annotated_length _ _ W0) as L0.
  destruct (mark_entries_total (seq 0 (length bs0)) bs0) as (bs1 & -> & W1).
  { rewrite L0. by eapply preds_in_extended; [apply annotated_extended |]. }
  { apply Forall_forall. intros k ?%elem_of_seq. lia. }
  simpl. assert (W : annotated bs bs1) by (by transitivity bs0).
  destruct (mark_rounds_total (S (length bs1)) bs1) as (bs2 & E2 & W2 & N2).
  { by eapply in_range_extended; [apply annotated_extended |]. }
  { unfold unmarked. pose proof (length_filter (fun b => widen_here b = false) bs1). lia. }
  exists bs2. split; [done |]. split; [by etransitivity |].
  intros v c Ne Wk. destruct (walk_edges _ _ _ _ Wk Ne) as [H | H]; [done |]. by destruct (N2 v).
Qed.

