(* ===== verification/BpfBuild.v ===== *)
(** The whole [Ir::build]: it ends without a panic, its dominators and back
    edges are exact, and every cycle has a widening point. *)

From stdpp Require Import sets.
From S2P Require Import Prelude BpfOpcode BpfInsn BpfEncode BpfScalar BpfInterp BpfIr BpfLiveness BpfBlocks BpfCfg.
From S2P Require Import BpfDom BpfGraph BpfDominators BpfRegions BpfWiden BpfScc.
Import ir dom scc.
#[local] Open Scope nat_scope.

(** ** What the passes keep *)

Lemma extended_lookup bs bs' v : extended bs bs' ->
  match bs !! v, bs' !! v with
  | Some b, Some b' => extends b b'
  | None, None => True
  | _, _ => False
  end.
Proof.
  intros X. destruct (bs !! v) as [b |] eqn:E.
  - destruct (Forall2_lookup_l _ _ _ _ _ X E) as (b' & -> & H). done.
  - apply lookup_ge_None in E. rewrite <- (extended_length _ _ X) in E. apply lookup_ge_None in E. by rewrite E.
Qed.

Lemma extended_succ bs bs' u v : extended bs bs' -> succ bs' u v <-> succ bs u v.
Proof.
  intros X. rewrite !succ_succs. unfold succs_of. pose proof (extended_lookup _ _ u X) as H.
  destruct (bs !! u), (bs' !! u); simpl; try done. by rewrite (ext_succs _ _ H).
Qed.

Lemma extended_walk bs bs' v c u : extended bs bs' -> walk bs' v c u <-> walk bs v c u.
Proof.
  intros X. split; [| by apply walk_extended]. induction 1 as [| v b w c u Eb Hw _ IH]; [constructor |].
  destruct (proj1 (extended_succ bs bs' v w X)) as (b' & Eb' & Hw'); [by exists b |]. by econstructor.
Qed.

Lemma extended_reach bs bs' e v : extended bs bs' -> reach bs' e v <-> reach bs e v.
Proof. intros X. unfold reach. by setoid_rewrite (extended_walk bs bs' _ _ _ X). Qed.

Lemma extended_dominator bs bs' e x v : extended bs bs' -> dominator bs' e x v <-> dominator bs e x v.
Proof. intros X. unfold dominator. by setoid_rewrite (extended_walk bs bs' _ _ _ X). Qed.

Lemma extended_mirror bs bs' : extended bs bs' -> mirror bs -> mirror bs'.
Proof.
  unfold mirror. intros X M u v. rewrite (extended_succ _ _ _ _ X), M. unfold preds_of. pose proof (extended_lookup _ _ v X) as H.
  destruct (bs !! v), (bs' !! v); simpl; try done. by rewrite (ext_preds _ _ H).
Qed.

(** [dominates] only looks at the dominators on the way up. *)
Lemma dominates_local (P : nat -> Prop) bs bs' a v :
  length bs' = length bs -> (forall u, P u -> idom_at bs' u = idom_at bs u) ->
  (forall u d, P u -> idom_at bs u = Some d -> P d) -> P v -> dominates bs' a v = dominates bs a v.
Proof.
  intros L H C. unfold dominates. rewrite L. generalize (S (length bs)) as fuel. intros fuel. revert v.
  induction fuel as [| fuel IH]; intros v Pv; simpl; [done |]. destruct (v =? a); [done |].
  specialize (H v Pv). specialize (C v). unfold idom_at in H, C.
  destruct (bs !! v) as [b |] eqn:E, (bs' !! v) as [b' |] eqn:E'; simpl in *; try done.
  - rewrite H. destruct (b_idom b) as [d |]; [| done]. destruct (d =? v); [done | apply IH; by apply C].
  - apply lookup_ge_None in E'. apply lookup_lt_Some in E. lia.
  - apply lookup_ge_None in E. apply lookup_lt_Some in E'. lia.
Qed.

Lemma dominates_same bs bs' a v :
  length bs' = length bs -> (forall u, idom_at bs' u = idom_at bs u) -> dominates bs' a v = dominates bs a v.
Proof. intros L H. by apply (dominates_local (fun _ => True)). Qed.

(** ** Back edges *)

Lemma marks_dominates bs bs' a v : annotated bs bs' -> dominates bs' a v = dominates bs a v.
Proof. intros X. apply dominates_same; [by apply annotated_length | intros u; by apply annotated_idom]. Qed.

Lemma modify_marks bs s : s < length bs ->
  exists bs', modify bs s mark = Some bs' /\ annotated bs bs' /\ widened bs' s.
Proof.
  intros L. destruct (annotated_modify bs s mark mark_annotates L) as (b & Eb & -> & X). eexists. split_and!; [done | done |].
  exists (mark b). by rewrite list_lookup_insert_eq.
Qed.

Lemma widened_extended bs bs' v : extended bs bs' -> widened bs v -> widened bs' v.
Proof.
  intros X (b & Eb & Hb). destruct (Forall2_lookup_l _ _ _ _ _ X Eb) as (b' & Eb' & H). exists b'. split; [done |].
  by apply (ext_mark _ _ H).
Qed.

Lemma back_succs_ok b succs bs be :
  (forall s, s ∈ succs -> s < length bs /\ is_Some (dominates bs s b)) ->
  exists bs' be', back_succs b succs (bs, be) = Some (bs', be') /\ annotated bs bs' /\
    (forall p, p ∈ be' <-> p ∈ be \/ p.1 = b /\ p.2 ∈ succs /\ dominates bs p.2 b = Some true) /\
    forall s, s ∈ succs -> dominates bs s b = Some true -> widened bs' s.
Proof.
  revert bs be. induction succs as [| s succs IH]; intros bs be H; simpl.
  { exists bs, be. split_and!; [done | done | | by intros s ?%elem_of_nil]. intros p. rewrite elem_of_nil. tauto. }
  destruct (H s) as [Ls [r Er]]; [by left |]. rewrite Er. simpl.
  assert (H' : forall t, t ∈ succs -> t < length bs /\ is_Some (dominates bs t b)) by (intros t Ht; apply H; by right).
  destruct r.
  - destruct (modify_marks bs s Ls) as (bs1 & -> & M1 & W1). simpl.
    destruct (IH bs1 (be ++ [(b, s)])) as (bs2 & be2 & -> & M2 & B2 & W2).
    { intros t Ht. rewrite (marks_dominates _ _ _ _ M1), (annotated_length _ _ M1). by apply H'. }
    exists bs2, be2. split_and!; [done | by transitivity bs1 | |].
    + intros [u t]. rewrite B2, (marks_dominates _ _ _ _ M1), elem_of_app, list_elem_of_singleton, elem_of_cons. simpl.
      split; [intros [[? | [= -> ->]] | ?] | intros [? | (-> & [-> | ?] & ?)]]; auto; tauto.
    + intros t [-> | Ht]%elem_of_cons Hd; [by eapply widened_extended; [by apply annotated_extended |] |].
      apply W2; [done |]. by rewrite (marks_dominates _ _ _ _ M1).
  - destruct (IH bs be H') as (bs2 & be2 & -> & M2 & B2 & W2). exists bs2, be2. split_and!; [done | done | |].
    + intros [u t]. rewrite B2, elem_of_cons. simpl. split; [intros [? | ?]; [auto | tauto] |].
      intros [? | (-> & [-> | ?] & ?)]; [auto | congruence | auto].
    + intros t [-> | Ht]%elem_of_cons Hd; [congruence | by apply W2].
Qed.

Lemma find_back_edges_ok rpo bs be :
  in_range bs -> (forall b, b ∈ rpo -> b < length bs /\ forall s, is_Some (dominates bs s b)) ->
  exists bs' be', find_back_edges rpo (bs, be) = Some (bs', be') /\ annotated bs bs' /\
    (forall p, p ∈ be' <-> p ∈ be \/ p.1 ∈ rpo /\ succ bs p.1 p.2 /\ dominates bs p.2 p.1 = Some true) /\
    forall u v, u ∈ rpo -> succ bs u v -> dominates bs v u = Some true -> widened bs' v.
Proof.
  revert bs be. induction rpo as [| b rpo IH]; intros bs be R H; simpl.
  { exists bs, be. split_and!; [done | done | | by intros s ? ?%elem_of_nil]. intros p. rewrite elem_of_nil. tauto. }
  destruct (H b) as [Lb Db]; [by left |]. destruct (lookup_lt_is_Some_2 bs b Lb) as [blk Eb]. rewrite Eb. simpl.
  assert (Sb : forall s, s ∈ blk.(b_succs) <-> succ bs b s) by (intros s; rewrite succ_succs; unfold succs_of; by rewrite Eb).
  destruct (back_succs_ok b blk.(b_succs) bs be) as (bs1 & be1 & -> & M1 & B1 & W1).
  { intros s Hs. split; [by eapply R | done]. }
  simpl. destruct (IH bs1 be1) as (bs2 & be2 & -> & M2 & B2 & W2).
  { eapply in_range_extended; [by apply annotated_extended | done]. }
  { intros u Hu. destruct (H u) as [Lu Du]; [by right |]. rewrite (annotated_length _ _ M1). split; [done |].
    intros s. by rewrite (marks_dominates _ _ _ _ M1). }
  exists bs2, be2. split_and!; [done | by transitivity bs1 | |].
  - intros [u t]. rewrite B2, B1, (marks_dominates _ _ _ _ M1), (extended_succ _ _ _ _ (annotated_extended _ _ M1)), Sb, elem_of_cons. simpl.
    split; [intros [[? | (-> & ? & ?)] | ?] | intros [? | ([-> | ?] & ? & ?)]]; tauto.
  - intros u v [-> | Hu]%elem_of_cons Suv Hd.
    + eapply widened_extended; [by apply annotated_extended |]. apply W1; [by apply Sb | done].
    + apply (W2 u); [done | by apply (extended_succ _ _ _ _ (annotated_extended _ _ M1)) | by rewrite (marks_dominates _ _ _ _ M1)].
Qed.

(** ** One subprogram *)

(** [v] is reachable from [e], and [e]'s paths to it are known: [dominates]
    answers for it, and the way up stays among the blocks [e] reaches. *)
Definition analysed (bs : list Block) (e : nat) : Prop :=
  (forall v d, reach bs e v -> idom_at bs v = Some d -> reach bs e d) /\
  forall a v, reach bs e v -> exists r, dominates bs a v = Some r /\ (r = true <-> dominator bs e a v).

(** [u] closes a loop with head [v]. *)
Definition back_edge (bs : list Block) (e u v : nat) : Prop := reach bs e u /\ succ bs u v /\ dominator bs e v u.

Lemma analyse_ok bs be e :
  in_range bs -> mirror bs -> e < length bs ->
  (forall v p, reach bs e v -> p = v \/ succ bs p v -> idom_at bs p = None) ->
  exists bs' be' rpo, analyse (bs, be) e = Some (bs', be', rpo) /\ extended bs bs' /\ (forall v, v ∈ rpo <-> reach bs e v) /\
    (forall v, ~ reach bs e v -> idom_at bs' v = idom_at bs v) /\ analysed bs' e /\
    (forall p, p ∈ be' <-> p ∈ be \/ back_edge bs e p.1 p.2) /\ forall u v, back_edge bs e u v -> widened bs' v.
Proof.
  intros R M He F. destruct (idoms_exact bs R e He M F) as (rpo & bs1 & bs2 & E & E1 & E2 & X2 & In & I2 & C2 & Dm).
  simpl. rewrite E. simpl. rewrite E1. simpl. rewrite E2. simpl.
  destruct (find_back_edges_ok rpo bs2 be) as (bs3 & be3 & -> & M3 & B3 & W3).
  { by eapply in_range_extended. }
  { intros b Hb%In. split; [rewrite (extended_length _ _ X2); by eapply reach_lt |]. intros s.
    destruct (Dm s b Hb) as (r & -> & _). by eexists. }
  pose proof (annotated_extended _ _ M3) as X3. pose proof (fun v => annotated_idom _ _ v M3) as I3.
  assert (X : extended bs bs3) by (by transitivity bs2).
  assert (Dt : forall u v, reach bs e u -> dominates bs2 v u = Some true <-> dominator bs e v u).
  { intros u v Hu. destruct (Dm v u Hu) as (r & -> & Q). rewrite <- Q. split; congruence. }
  exists bs3, be3, rpo. split; [done |]. split; [done |]. split; [done |]. split; [| split; [| split]].
  - intros v Hv. by rewrite I3, I2.
  - split.
    + intros v d. rewrite !(extended_reach _ _ _ _ X), I3. apply C2.
    + intros a v. rewrite (extended_reach _ _ _ _ X). intros Hv. destruct (Dm a v Hv) as (r & Er & Q). exists r.
      rewrite (extended_dominator _ _ _ _ _ X), (marks_dominates bs2 bs3) by done. done.
  - intros [u v]. rewrite B3, (extended_succ _ _ _ _ X2), In. unfold back_edge. simpl.
    split; (intros [? | (H1 & H2 & H3)]; [by left |]; right; split_and!; [done | done |]); by apply Dt.
  - intros u v (H1 & H2 & H3). apply (W3 u); [by apply In | by apply (extended_succ _ _ _ _ X2) | by apply Dt].
Qed.

(** ** All subprograms *)

Section Subprograms.
Context (bs0 : list Block) (ens : list nat) (R : in_range bs0) (M : mirror bs0)
  (Hens : forall i e, ens !! i = Some e -> e < length bs0)
  (Dis : forall i j e e' v, ens !! i = Some e -> ens !! j = Some e' -> reach bs0 e v -> reach bs0 e' v -> i = j).

(** The first [k] subprograms are analysed. *)
Record analysed_upto (k : nat) (bs : list Block) (be : list (nat * nat)) (sps : list Subprog) : Prop := {
  au_ext : extended bs0 bs;
  au_idom v : is_Some (idom_at bs v) -> exists i e, i < k /\ ens !! i = Some e /\ reach bs0 e v;
  au_dom i e : i < k -> ens !! i = Some e -> analysed bs e;
  au_back p : p ∈ be <-> exists i e, i < k /\ ens !! i = Some e /\ back_edge bs0 e p.1 p.2;
  au_mark i e u v : i < k -> ens !! i = Some e -> back_edge bs0 e u v -> widened bs v;
  au_entries : entry_block <$> sps = ens;
  au_rpo i sp : i < k -> sps !! i = Some sp -> forall v, v ∈ sp.(sp_rpo) <-> reach bs0 sp.(entry_block) v
}.

Lemma analysed_frame bs bs' e :
  extended bs0 bs -> extended bs bs' -> (forall v, reach bs0 e v -> idom_at bs' v = idom_at bs v) ->
  analysed bs e -> analysed bs' e.
Proof.
  intros X X' I [C A].
  assert (Rb : forall v, reach bs' e v <-> reach bs e v) by (intros v; apply (extended_reach _ _ _ _ X')).
  assert (R0 : forall v, reach bs e v <-> reach bs0 e v) by (intros v; apply (extended_reach _ _ _ _ X)).
  split.
  - intros v d. rewrite !Rb. intros Hv. rewrite I by (by apply R0). by apply C.
  - intros a v. rewrite Rb. intros Hv. destruct (A a v Hv) as (r & Er & Q). exists r.
    rewrite (extended_dominator _ _ _ _ _ X'). split; [| done]. rewrite <- Er.
    apply (dominates_local (reach bs e)); [by apply extended_length | | done | done]. intros u Hu. by apply I, R0.
Qed.

Lemma analyse_next k e bs be sps :
  ens !! k = Some e -> analysed_upto k bs be sps ->
  exists bs' be' rpo sps', analyse (bs, be) e = Some (bs', be', rpo) /\ modify sps k (fun sp => set_sp_rpo sp rpo) = Some sps' /\
    analysed_upto (S k) bs' be' sps'.
Proof.
  intros Ek [A1 A2 A3 A4 A5 A6 A7]. pose proof (extended_length _ _ A1) as Ln.
  assert (Own : forall i e' v, i < k -> ens !! i = Some e' -> reach bs0 e v -> ~ reach bs0 e' v).
  { intros i e' v Hi Ei Hv Hv'. pose proof (Dis i k e' e v Ei Ek Hv' Hv). lia. }
  destruct (analyse_ok bs be e) as (bs' & be' & rpo & E & X & In & I & A & B & W).
  { by eapply in_range_extended. }
  { by eapply extended_mirror. }
  { rewrite Ln. by eapply Hens. }
  { intros v p. rewrite (extended_reach _ _ _ _ A1), (extended_succ _ _ _ _ A1). intros Hv Hp.
    destruct (idom_at bs p) eqn:Ei; [| done]. destruct (A2 p) as (i & e' & Hi & Ee & Hr); [by rewrite Ei |].
    destruct (Own i e' v Hi Ee Hv). destruct Hp as [-> | Hp]; [done | by eapply reach_succ]. }
  assert (Bk : forall u v, back_edge bs e u v <-> back_edge bs0 e u v).
  { intros u v. unfold back_edge. by rewrite (extended_reach _ _ _ _ A1), (extended_succ _ _ _ _ A1), (extended_dominator _ _ _ _ _ A1). }
  assert (Sk : exists sp, sps !! k = Some sp /\ sp.(entry_block) = e).
  { rewrite <- A6, list_lookup_fmap in Ek. destruct (sps !! k) as [sp |]; [| done]. injection Ek as <-. by exists sp. }
  destruct Sk as (sp & Esp & Ee). exists bs', be', rpo, (<[k := set_sp_rpo sp rpo]> sps).
  split; [done |]. split; [unfold modify; by rewrite Esp |]. pose proof (lookup_lt_Some _ _ _ Esp) as Lk.
  assert (Cut : forall i, i < S k -> i < k \/ i = k) by lia. split.
  - by transitivity bs.
  - intros v Hv. destruct (decide (v ∈ rpo)) as [Hr | Hr].
    + exists k, e. split_and!; [lia | done |]. apply In in Hr. by apply (extended_reach _ _ _ _ A1).
    + rewrite I in Hv by (by rewrite <- In). destruct (A2 v Hv) as (i & e' & Hi & H). exists i, e'. split; [lia | done].
  - intros i e' [Hi | ->]%Cut Ei; [| by simplify_eq].
    eapply (analysed_frame bs); [done | done | | by eapply A3]. intros v Hv. apply I.
    rewrite (extended_reach _ _ _ _ A1). intros Hv'. by apply (Own i e' v).
  - intros [u v]. rewrite B, A4, Bk. simpl. split.
    + intros [(i & e' & Hi & H) | H]; [exists i, e'; split; [lia | done] | exists k, e; split; [lia | done]].
    + intros (i & e' & [Hi | ->]%Cut & Ei & H); [left; by exists i, e' | right; by simplify_eq].
  - intros i e' u v [Hi | ->]%Cut Ei H; [eapply widened_extended; [done | by eapply A5] |].
    simplify_eq. eapply W. by apply Bk.
  - rewrite list_fmap_insert, A6. apply list_insert_id. simpl. by rewrite Ee.
  - intros i sp' [Hi | ->]%Cut Ei.
    + rewrite list_lookup_insert_ne in Ei by lia. by apply (A7 i).
    + rewrite list_lookup_insert_eq in Ei by done. injection Ei as <-. intros v. simpl.
      by rewrite In, Ee, (extended_reach _ _ _ _ A1).
Qed.

Lemma analyse_all_ok k l bs be sps :
  drop k ens = l -> analysed_upto k bs be sps ->
  exists bs' be' sps', analyse_all k l (bs, be) sps = Some (bs', be', sps') /\ analysed_upto (length ens) bs' be' sps'.
Proof.
  revert k bs be sps. induction l as [| e l IH]; intros k bs be sps D A; cbn [analyse_all].
  - exists bs, be, sps. split; [done |]. apply (f_equal length) in D. rewrite length_drop in D. simpl in D.
    destruct A as [A1 A2 A3 A4 A5 A6 A7].
    assert (Q : forall i e, ens !! i = Some e -> i < k) by (intros i e E%lookup_lt_Some; lia). split; try done.
    + intros v Hv. destruct (A2 v Hv) as (i & e & _ & E & H). exists i, e. split; [by eapply lookup_lt_Some | done].
    + intros i e _ E. by eapply A3; [eapply Q |].
    + intros p. rewrite A4. split; intros (i & e & _ & E & H); exists i, e; (split; [| done]); [by eapply lookup_lt_Some | by eapply Q].
    + intros i e u v _ E. eapply A5; [by eapply Q | done].
    + intros i sp _ E. apply (A7 i); [| done]. eapply (Q i (entry_block sp)). by rewrite <- A6, list_lookup_fmap, E.
  - assert (Ek : ens !! k = Some e) by (rewrite <- (Nat.add_0_r k), <- lookup_drop, D; done).
    assert (D' : drop (S k) ens = l) by (rewrite <- Nat.add_1_r, <- drop_drop, D; done).
    destruct (analyse_next k e bs be sps Ek A) as (bs' & be' & rpo & sps' & -> & Em & A'). simpl. rewrite Em. simpl.
    by apply IH.
Qed.
End Subprograms.

(** ** The build *)

(** What is known of a built program: the graph, the blocks of each subprogram
    with their dominators, the back edges, and a mark on every cycle. *)
Record finished (prog : list Insn) (ir : Ir) : Prop := {
  fi_built : built prog ir;
  fi_analysed sp : sp ∈ ir.(subprogs) -> analysed ir.(blocks) sp.(entry_block) /\
    forall v, v ∈ sp.(sp_rpo) <-> reach ir.(blocks) sp.(entry_block) v;
  fi_back p : p ∈ ir.(back_edges) <-> exists sp, sp ∈ ir.(subprogs) /\ back_edge ir.(blocks) sp.(entry_block) p.1 p.2;
  fi_marks p : p ∈ ir.(back_edges) -> widened ir.(blocks) p.2;
  fi_cycles v c : c <> [] -> walk ir.(blocks) v c v -> exists w, w ∈ c /\ widened ir.(blocks) w
}.

Lemma built_in_range prog ir : built prog ir -> in_range ir.(blocks).
Proof. intros B v b w E Hw. destruct (bt_graph _ _ B) as (ss & es & _ & _ & _ & G & _). by eapply go_succs. Qed.

Lemma mirror_preds_in bs : in_range bs -> mirror bs -> preds_in (length bs) bs.
Proof.
  intros R M. apply Forall_lookup. intros v b Eb. apply Forall_forall. intros p Hp.
  destruct (proj2 (M p v)) as (bp & Ep & _); [unfold preds_of; by rewrite Eb |]. by eapply lookup_lt_Some.
Qed.

(** The later passes keep what [build_cfg] established. *)
Lemma built_extended prog ir bs sps be :
  built prog ir -> extended ir.(blocks) bs -> entry_block <$> sps = entry_block <$> ir.(subprogs) ->
  built prog (mk_ir ir.(insns) ir.(ir_of_slot) bs ir.(block_of) sps be ir.(thresholds)).
Proof.
  intros [D Ne (ss & es & Ln & Fs & Hr & G & [R1 R2 R3])] X E. split; [done | done |]. exists ss, es. split_and!; [done .. | |].
  - eapply graph_same; [| done]. eapply Forall2_impl; [done |]. intros b b' []. done.
  - split; [done | done |]. cbn [subprogs block_of ir_of_slot] in *. apply Forall2_same_length_lookup. split.
    { rewrite (Forall2_length _ _ _ R3), <- (length_fmap entry_block), <- E. by rewrite length_fmap. }
    intros i e sp Ee Es. apply (f_equal (lookup i)) in E. rewrite !list_lookup_fmap, Es in E.
    destruct (subprogs ir !! i) as [sp' |] eqn:E'; [| done]. injection E as E. rewrite E.
    by apply (Forall2_lookup_lr _ _ _ _ _ _ R3 Ee E').
Qed.

Lemma build_spec prog :
  Forall insn_ok prog -> exists r, build prog = Some r /\ forall ir, r = Ok ir -> finished prog ir.
Proof.
  intros H. unfold build. destruct (build_total prog H) as (r & Er & Hb). rewrite Er. simpl.
  destruct r as [ir | e]; [| by eexists]. specialize (Hb ir eq_refl). destruct (build_start prog ir Er) as [Mi Un].
  pose proof (built_in_range _ _ Hb) as R. set (ens := entry_block <$> ir.(subprogs)).
  assert (Sp : forall i e, ens !! i = Some e -> exists sp, ir.(subprogs) !! i = Some sp /\ e = sp.(entry_block)).
  { intros i e. unfold ens. rewrite list_lookup_fmap. destruct (subprogs ir !! i) as [sp |]; [| done]. intros [= <-]. by exists sp. }
  destruct (analyse_all_ok ir.(blocks) ens R Mi) with (k := 0) (l := ens) (bs := ir.(blocks)) (be := @nil (nat * nat)) (sps := ir.(subprogs))
    as (bs1 & be & sps & Ea & [A1 A2 A3 A4 A5 A6 A7]).
  { intros i e (sp & Es & ->)%Sp. by eapply entry_in_range. }
  { intros i j e e' v (sp & Es & ->)%Sp (sp' & Es' & ->)%Sp. by eapply subprogs_disjoint. }
  { done. }
  { split; try (intros; lia); [done | | | done].
    - intros v [d Hd]. unfold idom_at in Hd. destruct (blocks ir !! v) as [b |] eqn:Eb; [| done].
      eapply Forall_lookup_1 in Un; [| done]. simpl in *. congruence.
    - intros p. rewrite elem_of_nil. split; [done |]. intros (i & e & ? & _). lia. }
  rewrite Ea. simpl.
  destruct (widening_points_spec bs1) as (bs2 & -> & W2 & C2).
  { by eapply in_range_extended. }
  { apply mirror_preds_in; [by eapply in_range_extended | by eapply extended_mirror]. }
  simpl. eexists. split; [done |]. intros ir' [= <-]. pose proof (annotated_extended _ _ W2) as X2.
  assert (X : extended ir.(blocks) bs2) by (by transitivity bs1).
  assert (Sp' : forall sp, sp ∈ sps -> exists i, i < length ens /\ sps !! i = Some sp /\ ens !! i = Some sp.(entry_block)).
  { intros sp [i Ei]%list_elem_of_lookup. exists i. rewrite <- A6, list_lookup_fmap, Ei, length_fmap.
    split; [by eapply lookup_lt_Some | done]. }
  assert (Bk : forall e u v, back_edge bs2 e u v <-> back_edge ir.(blocks) e u v).
  { intros e u v. unfold back_edge. by rewrite (extended_reach _ _ _ _ X), (extended_succ _ _ _ _ X), (extended_dominator _ _ _ _ _ X). }
  split; simpl; [by apply built_extended | | | | done].
  - intros sp (i & Li & Es & Ee)%Sp'. split.
    + eapply (analysed_frame ir.(blocks) bs1); [done | done | | by eapply A3]. intros v _. by apply annotated_idom.
    + intros v. rewrite (extended_reach _ _ _ _ X). by eapply A7.
  - intros p. rewrite A4. split.
    + intros (i & e & Li & Ee & B). assert (Es := Ee). rewrite <- A6, list_lookup_fmap in Es.
      destruct (sps !! i) as [sp |] eqn:E; [| done]. injection Es as <-. exists sp. split; [by eapply list_elem_of_lookup_2 | by apply Bk].
    + intros (sp & (i & Li & Es & Ee)%Sp' & B). exists i, sp.(entry_block). split_and!; [done | done | by apply Bk].
  - intros p (i & e & Li & Ee & B)%A4. apply (widened_extended bs1); [done | by eapply A5].
Qed.

Lemma build_finished prog ir : Forall insn_ok prog -> build prog = Some (Ok ir) -> finished prog ir.
Proof. intros H E. destruct (build_spec prog H) as (r & E' & F). rewrite E in E'. injection E' as <-. by apply F. Qed.

(** * The properties *)

(** C16: the control-flow graph covers execution.  Building it never panics
    and always ends, whatever the program; and when it succeeds, execution
    starts at an instruction of the graph, every step of the interpreter leads
    to another one, along an edge of the graph, and no run leaves the
    program. *)
Theorem cfg_follows_execution prog :
  Forall insn_ok prog -> (Z.of_nat (length prog) < 2 ^ 64)%Z ->
  build prog <> None /\
  forall ir, build prog = Some (Ok ir) ->
    index_of ir.(ir_of_slot) 0 = Some 0 /\
    (forall pc i m pc' m', index_of ir.(ir_of_slot) pc = Some i ->
       interp.iter prog (Z.of_nat pc) m = Some (interp.Continue pc' m') ->
       exists t j ss, pc' = Z.of_nat t /\ index_of ir.(ir_of_slot) t = Some j /\
         liveness.successors ir i = Some ss /\ j ∈ ss) /\
    forall m r m', interp.run prog m = Some (r, m') -> r <> Err BadPc.
Proof.
  intros Hp Hl. destruct (build_spec prog Hp) as (r & -> & F). split; [done |].
  intros ir [= ->]. pose proof (fi_built _ _ (F ir eq_refl)) as B. pose proof (start_index prog ir B) as Z0.
  split_and!; [done | |].
  - intros pc i m pc' m'. by apply (step_edge prog ir B).
  - intros m r0 m'. apply (run_loop_inside prog ir _ 0 0 m r0 m' B Hl Z0).
Qed.

(** C19: dominators and back edges are exact.  For every subprogram of a built
    program: its traversal order holds exactly the blocks reachable from its
    entry; [dominates] answers for each of them, and answers true exactly when
    the first block lies on every walk from the entry to the second; and the
    back edges are exactly the edges into a dominator. *)
Theorem dominators_exact prog ir :
  Forall insn_ok prog -> build prog = Some (Ok ir) ->
  (forall sp, sp ∈ ir.(subprogs) ->
     (forall v, v ∈ sp.(sp_rpo) <-> reach ir.(blocks) sp.(entry_block) v) /\
     forall a v, reach ir.(blocks) sp.(entry_block) v ->
       exists r, dominates ir.(blocks) a v = Some r /\
         (r = true <-> forall c, walk ir.(blocks) sp.(entry_block) c v -> a ∈ sp.(entry_block) :: c)) /\
  forall p, p ∈ ir.(back_edges) <-> exists sp, sp ∈ ir.(subprogs) /\ back_edge ir.(blocks) sp.(entry_block) p.1 p.2.
Proof.
  intros H E. destruct (build_finished prog ir H E) as [_ A B _ _]. split; [| done].
  intros sp Hs. destruct (A sp Hs) as [[_ D] P]. done.
Qed.

(** C17: the graph of every built program has a widening point on every
    cycle: every closed walk enters a marked block. *)
Theorem every_cycle_is_widened prog ir :
  Forall insn_ok prog -> build prog = Some (Ok ir) ->
  forall v c, c <> [] -> walk ir.(blocks) v c v -> exists w, w ∈ c /\ widened ir.(blocks) w.
Proof. intros H E. apply (fi_cycles _ _ (build_finished prog ir H E)). Qed.

(** * Witnesses *)

(** [r1 = 3; loop: r1 -= 1; if r1 != 0 goto loop; r0 = 0; exit]. *)
Definition countdown : list Insn :=
  assemble [Decoded.Mov true R1 (Source.Imm 3) None; Decoded.Alu true AluOp.Sub R1 (Source.Imm 1);
            Decoded.JumpCond true CondOp.Ne R1 (Source.Imm 0) (-2); Decoded.Mov true R0 (Source.Imm 0) None; Decoded.Exit].

Lemma countdown_ok : Forall insn_ok countdown.
Proof. repeat constructor; vm_compute; congruence. Qed.

Definition countdown_ir : Ir :=
  match build countdown with
  | Some (Ok ir) => ir
  | _ => mk_ir [] [] [] [] [] [] []
  end.

Lemma countdown_built : build countdown = Some (Ok countdown_ir).
Proof. vm_compute. reflexivity. Qed.

Lemma cfg_follows_execution_witness :
  build countdown <> None /\ interp.run countdown interp.new <> None.
Proof.
  split; [| vm_compute; discriminate].
  apply (cfg_follows_execution countdown countdown_ok). vm_compute. reflexivity.
Defined.

(** The loop is one block that follows itself. *)
Lemma every_cycle_is_widened_witness : walk countdown_ir.(blocks) 1 [1] 1 /\ widened countdown_ir.(blocks) 1.
Proof.
  assert (W : walk countdown_ir.(blocks) 1 [1] 1) by (eapply walk_cons; [vm_compute; reflexivity | left | constructor]).
  split; [exact W |].
  destruct (every_cycle_is_widened countdown countdown_ir countdown_ok countdown_built 1 [1]) as (w & Hw & Q);
    [discriminate | exact W |].
  apply list_elem_of_singleton in Hw. subst w. exact Q.
Defined.

Lemma dominators_exact_witness : (1, 1) ∈ countdown_ir.(back_edges) /\ reach countdown_ir.(blocks) 0 1.
Proof.
  destruct (dominators_exact countdown countdown_ir countdown_ok countdown_built) as [D B].
  assert (R : reach countdown_ir.(blocks) 0 1).
  { exists [1]. eapply walk_cons; [vm_compute; reflexivity | left | constructor]. }
  split; [| exact R]. apply B. exists (mk_subprog 0 0 [0; 1; 2] []). split; [left |].
  split; [exact R |]. split; [eexists; split; [vm_compute; reflexivity | left] |].
  destruct (D (mk_subprog 0 0 [0; 1; 2] []) ltac:(left)) as [_ Dm]. destruct (Dm 1 1 R) as (r & Er & Q).
  vm_compute in Er. injection Er as <-. exact (proj1 Q eq_refl).
Defined.
