(* ===== verification/BpfLive.v ===== *)
(** Liveness against the interpreter: registers that are not live do not
    influence a run. *)

From S2P Require Import Prelude Word BpfOpcode BpfInsn BpfEncode BpfScalar BpfInterp BpfIr BpfLiveness BpfBlocks BpfCfg BpfWiden BpfBuild.
Import ir liveness.

(** * Reads and writes of an instruction *)

Definition du_ok (d : DefUse) : Prop := is_u 16 d.(uses) /\ is_u 16 d.(defs).

Lemma mask_range r : is_u 16 (wshl 16 1 r).
Proof. apply wshl_range. lia. Qed.

Lemma use_ok d r : du_ok d -> du_ok (def_use.use_ d r).
Proof. intros [? ?]. split; [apply lor_range; auto using mask_range; lia | done]. Qed.

Lemma def_ok d r : du_ok d -> du_ok (def_use.def d r).
Proof. intros [? ?]. split; [done | apply lor_range; auto using mask_range; lia]. Qed.

Lemma use_src_ok d s : du_ok d -> du_ok (def_use.use_src d s).
Proof. destruct s; [done | apply use_ok]. Qed.

Lemma of_op_ok op : du_ok (def_use.of_op op).
Proof.
  assert (A : forall d, du_ok d -> du_ok (def_use.set_address d)) by done.
  assert (C : forall d, du_ok d -> du_ok (def_use.set_condition d)) by done.
  assert (N : du_ok def_use.new) by (split; split; simpl; lia).
  destruct op; unfold def_use.of_op; cbn [foldl];
    repeat match goal with
    | |- du_ok def_use.new => exact N
    | |- du_ok (def_use.set_address _) => apply A
    | |- du_ok (def_use.set_condition _) => apply C
    | |- du_ok (def_use.use_ _ _) => apply use_ok
    | |- du_ok (def_use.def _ _) => apply def_ok
    | |- du_ok (def_use.use_src _ _) => apply use_src_ok
    | |- _ => case_match
    end.
Qed.

Lemma testbit_mask r k : reg_ok r -> 0 <= k -> Z.testbit (wshl 16 1 r.(reg_index)) k = (k =? r.(reg_index)).
Proof.
  intros Hr Hk. unfold reg_ok, NUM_REGS in Hr. rewrite testbit_wshl by lia.
  destruct (Z.eqb_spec k (reg_index r)) as [-> | N].
  - rewrite Z.sub_diag. rewrite (proj2 (Z.ltb_lt _ _)) by lia. done.
  - destruct (decide (k - reg_index r < 0)); [by rewrite Z.testbit_neg_r, andb_false_r by lia |].
    rewrite Z.bits_above_log2 by (simpl; lia). by rewrite andb_false_r.
Qed.

(** * Agreement *)

(** Machines that differ at most in registers outside [L]. *)
Record agree (L : Z) (m1 m2 : Machine) : Prop := {
  ag_len : length m1.(m_regs) = length m2.(m_regs);
  ag_regs r : 0 <= r -> Z.testbit L r = true -> m1.(m_regs) !! Z.to_nat r = m2.(m_regs) !! Z.to_nat r;
  ag_stack : m1.(m_stack) = m2.(m_stack);
  ag_ctx : m1.(m_ctx) = m2.(m_ctx);
  ag_defined : m1.(m_defined) = m2.(m_defined);
  ag_fuel : m1.(m_fuel) = m2.(m_fuel)
}.

Lemma agree_sub L L' m1 m2 : sub L' L -> agree L m1 m2 -> agree L' m1 m2.
Proof. intros S [A1 A2 A3 A4 A5 A6]. split; auto. Qed.

(** The outcomes of two steps, with [out] live after them. *)
Definition flows_agree (out : Z) (f1 f2 : option interp.Flow) : Prop :=
  match f1, f2 with
  | Some (interp.Continue pc1 m1), Some (interp.Continue pc2 m2) => pc1 = pc2 /\ agree out m1 m2
  | Some (interp.Return r1 m1), Some (interp.Return r2 m2) => r1 = r2 /\ agree 0 m1 m2
  | None, None => True
  | _, _ => False
  end.

Section Exec.
Context (L out : Z) (m1 m2 : Machine) (A : agree L m1 m2).

Lemma agree_get r : reg_ok r -> Z.testbit L r.(reg_index) = true -> interp.get_reg m1 r = interp.get_reg m2 r.
Proof using A. intros Hr Ht. apply (ag_regs _ _ _ A); [apply Hr | done]. Qed.

Lemma agree_val s w :
  source_ok s -> (forall r, s = Source.Reg r -> Z.testbit L r.(reg_index) = true) -> interp.val m1 s w = interp.val m2 s w.
Proof using A. destruct s; intros Hs Ht; [done | apply agree_get; auto]. Qed.

Lemma agree_zero : agree 0 m1 m2.
Proof using A. eapply agree_sub; [| exact A]. intros k _. by rewrite Z.bits_0. Qed.

(** The two machines assign the same value. *)
Lemma agree_assign dst v next :
  reg_ok dst -> (forall k, 0 <= k -> Z.testbit out k = true -> k <> dst.(reg_index) -> Z.testbit L k = true) ->
  flows_agree out (let* m := interp.set_reg m1 dst v in Some (interp.Continue next m))
                  (let* m := interp.set_reg m2 dst v in Some (interp.Continue next m)).
Proof using A.
  intros Hd Ho. unfold interp.set_reg, interp.get_reg, reg_usize.
  destruct A as [A1 A2 A3 A4 A5 A6]. destruct Hd as [Hd _].
  destruct (m_regs m1 !! Z.to_nat (reg_index dst)) as [x |] eqn:E1; destruct (m_regs m2 !! Z.to_nat (reg_index dst)) as [y |] eqn:E2.
  - split; [done |]. split; cbn [m_regs m_stack m_ctx m_defined m_fuel]; auto; [by rewrite !length_insert |].
    intros r Hr Ht. destruct (decide (r = reg_index dst)) as [-> | N].
    + apply lookup_lt_Some in E1, E2. by rewrite !list_lookup_insert_eq by done.
    + rewrite !list_lookup_insert_ne by lia. apply A2; auto.
  - apply lookup_lt_Some in E1. apply lookup_ge_None in E2. lia.
  - apply lookup_lt_Some in E2. apply lookup_ge_None in E1. lia.
  - done.
Qed.

Lemma agree_load addr size : interp.load m1 addr size = interp.load m2 addr size.
Proof using A.
  destruct A as [A1 A2 A3 A4 A5 A6]. unfold interp.load, interp.ctx_load. by rewrite A3, A4, A5.
Qed.

Lemma agree_store addr size v next :
  sub out L ->
  flows_agree out
    (let* r := interp.store m1 addr size v in
     match r with Err t => Some (interp.Return (Err t) m1) | Ok m => Some (interp.Continue next m) end)
    (let* r := interp.store m2 addr size v in
     match r with Err t => Some (interp.Return (Err t) m2) | Ok m => Some (interp.Continue next m) end).
Proof using A.
  intros S. pose proof agree_zero as Z0. destruct A as [A1 A2 A3 A4 A5 A6]. unfold interp.store. rewrite A3, A5.
  repeat case_match; simplify_eq/=; try done. split; [done |]. split; cbn [m_regs m_stack m_ctx m_defined m_fuel]; auto.
Qed.
End Exec.

Section Step.
Context (op : Decoded) (Hop : decoded_ok op) (out : Z) (Hout : is_u 16 out) (m1 m2 : Machine).
#[local] Abbreviation L := (transfer (def_use.of_op op) true out).
Context (A : agree L m1 m2).

Lemma live_use r : reg_ok r -> Z.testbit (def_use.of_op op).(uses) r.(reg_index) = true -> Z.testbit L r.(reg_index) = true.
Proof using Type. intros Hr E. unfold transfer. cbn [orb]. by rewrite Z.lor_spec, E, orb_true_r. Qed.

Lemma live_out k : 0 <= k -> Z.testbit out k = true -> Z.testbit (def_use.of_op op).(defs) k = false -> Z.testbit L k = true.
Proof using Hout.
  intros Hk E N. unfold transfer. cbn [orb]. rewrite Z.lor_spec, Z.land_spec, E, testbit_wnot, N by lia.
  destruct (Z.ltb_spec k 16); [done |]. by rewrite (testbit_high 16 out) in E by (auto; lia).
Qed.

(** The bits of the sets built by [of_op]. *)
Lemma use_bit d r k : reg_ok r -> 0 <= k ->
  Z.testbit (def_use.use_ d r).(uses) k = Z.testbit d.(uses) k || (k =? r.(reg_index)).
Proof using Type. intros Hr Hk. simpl. by rewrite Z.lor_spec, testbit_mask. Qed.

Lemma def_bit d r k : reg_ok r -> 0 <= k ->
  Z.testbit (def_use.def d r).(defs) k = Z.testbit d.(defs) k || (k =? r.(reg_index)).
Proof using Type. intros Hr Hk. simpl. by rewrite Z.lor_spec, testbit_mask. Qed.

Lemma use_src_keeps d s r : source_ok s -> reg_ok r -> Z.testbit d.(uses) r.(reg_index) = true ->
  Z.testbit (def_use.use_src d s).(uses) r.(reg_index) = true.
Proof using Type. destruct s; [done |]. intros Hs Hr E. simpl. by rewrite Z.lor_spec, E. Qed.

Lemma use_src_bit d s r : s = Source.Reg r -> reg_ok r -> Z.testbit (def_use.use_src d s).(uses) r.(reg_index) = true.
Proof using Type. intros -> Hr. simpl. rewrite Z.lor_spec, testbit_mask, Z.eqb_refl, orb_true_r by (auto; apply Hr). done. Qed.

Lemma use_src_defs d s : (def_use.use_src d s).(defs) = d.(defs).
Proof using Type. by destruct s. Qed.
End Step.

(** One register is written. *)
Lemma one_def_out op out dst k :
  is_u 16 out -> reg_ok dst -> (def_use.of_op op).(defs) = Z.lor 0 (wshl 16 1 dst.(reg_index)) ->
  0 <= k -> Z.testbit out k = true -> k <> dst.(reg_index) -> Z.testbit (transfer (def_use.of_op op) true out) k = true.
Proof.
  intros Ho Hd E Hk Eo N. apply live_out; auto. rewrite E, Z.lor_0_l, testbit_mask by done. by apply Z.eqb_neq.
Qed.

Lemma no_def_out op out :
  is_u 16 out -> (def_use.of_op op).(defs) = 0 -> sub out (transfer (def_use.of_op op) true out).
Proof. intros Ho E k Hk Eo. apply live_out; auto. by rewrite E, Z.bits_0. Qed.

Lemma reg_ok_nonneg r : reg_ok r -> 0 <= r.(reg_index).
Proof. by intros [? _]. Qed.

(** A register in a set written out as a disjunction of masks. *)
Ltac mask_bit :=
  simpl; rewrite ?Z.lor_spec, ?testbit_mask by (done || by apply reg_ok_nonneg);
  rewrite ?Z.eqb_refl, ?orb_true_r; done.

Lemma exec_agree op out m1 m2 next :
  decoded_ok op -> is_u 16 out -> agree (transfer (def_use.of_op op) true out) m1 m2 ->
  flows_agree out (interp.exec op next m1) (interp.exec op next m2).
Proof.
  intros Hop Ho A.
  assert (G : forall r, reg_ok r -> Z.testbit (def_use.of_op op).(uses) r.(reg_index) = true -> interp.get_reg m1 r = interp.get_reg m2 r).
  { intros r Hr E. apply (agree_get _ _ _ A); [done | by apply live_use]. }
  assert (V : forall s w, source_ok s -> (forall r, s = Source.Reg r -> reg_ok r -> Z.testbit (def_use.of_op op).(uses) r.(reg_index) = true) ->
            interp.val m1 s w = interp.val m2 s w).
  { intros s w Hs E. apply (agree_val _ _ _ A); [done |]. intros r ->. apply live_use; auto. }
  assert (As : forall dst v, reg_ok dst -> (def_use.of_op op).(defs) = Z.lor 0 (wshl 16 1 dst.(reg_index)) ->
            flows_agree out (let* m := interp.set_reg m1 dst v in Some (interp.Continue next m))
                            (let* m := interp.set_reg m2 dst v in Some (interp.Continue next m))).
  { intros dst v Hd E. apply (agree_assign _ _ _ _ A); [done |]. intros k Hk Eo N. by eapply one_def_out. }
  pose proof (agree_zero _ _ _ A) as Z0. pose proof (agree_load _ _ _ A) as Ld.
  pose proof (fun a s v nx => agree_store _ out _ _ A a s v nx) as St.
  assert (Nd : (def_use.of_op op).(defs) = 0 -> sub out (transfer (def_use.of_op op) true out)) by (by apply no_def_out).
  unfold interp.exec. destruct op as [wide o dst src | wide dst | wide dst src se | wide sg dst src | wide sg dst src
    | dst order width | | size se dst src off | size dst off src | | dst v | off | wide c dst src off | | | ];
    cbn [decoded_ok] in Hop; destruct_and?.
  1, 4, 5: rewrite (V src wide) by (auto; intros r -> Hr; apply use_src_bit; done);
    rewrite (G dst) by (auto; apply use_src_keeps; auto; mask_bit);
    (destruct (interp.val m2 src wide); [| done]); (destruct (interp.get_reg m2 dst); [| done]);
    apply As; auto; unfold def_use.of_op; by rewrite use_src_defs.
  - rewrite (G dst) by (auto; mask_bit). destruct (interp.get_reg m2 dst); [| done]. by apply As.
  - rewrite (V src wide) by (auto; intros r -> Hr; apply use_src_bit; done).
    destruct (interp.val m2 src wide); [| done]. apply As; auto. unfold def_use.of_op. by rewrite use_src_defs.
  - rewrite (G dst) by (auto; mask_bit). destruct (interp.get_reg m2 dst); [| done]. by apply As.
  - by split.
  - rewrite (G src) by (auto; mask_bit). destruct (interp.get_reg m2 src); [| done]. rewrite Ld.
    destruct (interp.load _ _ _) as [[v | t] |]; [by apply As | by split | done].
  - rewrite (G dst) by (auto; apply use_src_keeps; auto; mask_bit).
    rewrite (V src true) by (auto; intros r -> Hr; apply use_src_bit; done).
    destruct (interp.get_reg m2 dst); [| done]. destruct (interp.val m2 src true); [| done].
    apply St, Nd. unfold def_use.of_op. simpl. by rewrite use_src_defs.
  - by split.
  - destruct v; try (by split). by apply As.
  - split; [done |]. eapply agree_sub; [| exact A]. by apply Nd.
  - rewrite (V src wide) by (auto; intros r -> Hr; apply use_src_bit; done).
    rewrite (G dst) by (auto; apply use_src_keeps; auto; mask_bit).
    destruct (interp.val m2 src wide); [| done]. destruct (interp.get_reg m2 dst); [| done].
    split; [done |]. eapply agree_sub; [| exact A]. apply Nd. unfold def_use.of_op. simpl. by rewrite use_src_defs.
  - by split.
  - by split.
  - rewrite (G R0) by (try done; mask_bit). destruct (interp.get_reg m2 R0); [by split | done].
Qed.

(** * Runs *)

Lemma union_covers bs ss out o :
  union bs ss out = Some o -> sub out o /\ forall j b, j ∈ ss -> bs !! j = Some b -> sub b o.
Proof.
  revert out. induction ss as [| s ss IH]; intros out; simpl; [intros [= ->]; split; [done | by intros j b ?%not_elem_of_nil] |].
  destruct (bs !! s) as [x |] eqn:E; [| done]. intros [H1 H2]%IH. split; [etransitivity; [apply sub_lor_l | done] |].
  intros j b [-> | Hj]%elem_of_cons Hb; [| by apply (H2 j)]. simplify_eq. etransitivity; [| exact H1].
  intros k Hk Hx. by rewrite Z.lor_spec, Hx, orb_true_r.
Qed.

Lemma agree_charge L m1 m2 : agree L m1 m2 -> agree L (interp.charge m1) (interp.charge m2).
Proof. intros [A1 A2 A3 A4 A5 A6]. split; simpl; auto. by rewrite A6. Qed.

(** The same result and the same memory. *)
Definition same_result (r1 r2 : option (Result Z Trap * Machine)) : Prop :=
  match r1, r2 with
  | Some (v1, m1), Some (v2, m2) => v1 = v2 /\ agree 0 m1 m2
  | None, None => True
  | _, _ => False
  end.

Section Runs.
Context (prog : list Insn) (Hprog : Forall insn_ok prog) (Hlen : Z.of_nat (length prog) < 2 ^ 64).
Context (ir : Ir) (B : built prog ir) (m : Masks) (W : wf ir m) (S : solved ir (fun _ => true) m (length ir.(insns))).

Lemma run_agree n pc i L m1 m2 :
  index_of ir.(ir_of_slot) pc = Some i -> m.(before) !! i = Some L -> agree L m1 m2 ->
  same_result (interp.run_loop n prog (Z.of_nat pc) m1) (interp.run_loop n prog (Z.of_nat pc) m2).
Proof using Hprog Hlen B W S.
  revert pc i L m1 m2. induction n as [| n IH]; intros pc i L m1 m2 Hi HL A; cbn [interp.run_loop].
  { split; [done |]. by eapply agree_zero. }
  destruct (index_insn prog ir B pc i Hi) as (x & Hx & _ & D).
  destruct (S i ltac:(by apply lookup_lt_Some in Hx)) as (a & b & Ha & Hb & Fl). simplify_eq.
  unfold flow in Fl. destruct (successors ir i) as [ss |] eqn:Ess; [| done].
  destruct (union (before m) ss 0) as [out |] eqn:Eu; [| done]. rewrite Hx in Fl. injection Fl as -> Fl.
  pose proof (agree_charge _ _ _ A) as A'. rewrite <- Fl in A'.
  assert (E : flows_agree a (interp.iter prog (Z.of_nat pc) (interp.charge m1)) (interp.iter prog (Z.of_nat pc) (interp.charge m2))).
  { unfold interp.iter. destruct (_ <=? _); [split; [done |]; by eapply agree_zero |]. rewrite Nat2Z.id, D.
    apply exec_agree; [by apply (decode_shape _ _ _ _ Hprog D) | | done].
    by apply (Forall_lookup_1 _ _ _ _ (wf_after_u _ _ W) Ha). }
  destruct (interp.iter prog (Z.of_nat pc) (interp.charge m1)) as [[pc1 m1' | r1 m1'] |] eqn:E1;
    destruct (interp.iter prog (Z.of_nat pc) (interp.charge m2)) as [[pc2 m2' | r2 m2'] |]; try done.
  destruct E as [<- A1]. destruct (step_edge prog ir B pc i _ pc1 m1' Hlen Hi E1) as (t & j & ss' & -> & Hj & Ess' & Hin).
  rewrite Ess in Ess'. injection Ess' as <-.
  destruct (index_insn prog ir B t j Hj) as (y & Hy & _). apply lookup_lt_Some in Hy. rewrite <- (wf_before _ _ W) in Hy.
  destruct (lookup_lt_is_Some_2 _ _ Hy) as [L' HL']. apply (IH t j L' m1' m2' Hj HL').
  eapply agree_sub; [| exact A1]. by apply (proj2 (union_covers _ _ _ _ Eu) j).
Qed.
End Runs.

Lemma backward_built prog ir seed :
  built prog ir ->
  exists m, backward ir seed = Some m /\ wf ir m /\ solved ir seed m (length ir.(insns)) /\
    forall P, post ir seed P -> mle m P.
Proof.
  intros B. apply backward_spec; [by apply (successors_total prog) |]. intros i x _. apply of_op_ok.
Qed.

(** The dataflow terminates, within the rounds the model allows, for any
    seed ([liveness] and [precision] are two of them), and returns the least
    solution of its equations: each instruction's masks
    are the union over its successors and the transfer of that union, and
    any masks closed under the equations contain them. *)
Lemma dataflow_least prog ir :
  Forall insn_ok prog -> build prog = Some (Ok ir) ->
  forall seed, exists m, backward ir seed = Some m /\
    (forall i, (i < length ir.(insns))%nat ->
       exists a b, m.(after) !! i = Some a /\ m.(before) !! i = Some b /\ flow ir seed m i = Some (a, b)) /\
    forall P, post ir seed P -> mle m P.
Proof.
  intros Hp E seed. pose proof (fi_built _ _ (build_finished prog ir Hp E)) as Hb.
  destruct (backward_built prog ir seed Hb) as (m & Em & _ & S & P). by exists m.
Qed.

(** C18: dead registers do not matter.  [liveness] returns masks such that
    two machines which agree on memory and on the registers live before an
    instruction run from it, for as long as the fuel lasts, to the same result
    and the same memory. *)
Theorem liveness_sound prog ir :
  Forall insn_ok prog -> Z.of_nat (length prog) < 2 ^ 64 -> build prog = Some (Ok ir) ->
  exists m, liveness ir = Some m /\
    forall n pc i L m1 m2, index_of ir.(ir_of_slot) pc = Some i -> m.(before) !! i = Some L -> agree L m1 m2 ->
      same_result (interp.run_loop n prog (Z.of_nat pc) m1) (interp.run_loop n prog (Z.of_nat pc) m2).
Proof.
  intros Hp Hl E. pose proof (fi_built _ _ (build_finished prog ir Hp E)) as Hb.
  destruct (backward_built prog ir (fun _ => true) Hb) as (m & Em & W & S & _).
  exists m. split; [done |]. intros n pc i L m1 m2. by apply (run_agree prog Hp Hl ir Hb m W S).
Qed.

Lemma dataflow_least_witness :
  exists m, precision countdown_ir = Some m /\ length m.(before) = 5%nat.
Proof.
  destruct (dataflow_least countdown countdown_ir countdown_ok countdown_built (seeds countdown_ir)) as (m & E & _).
  exists m. split; [exact E |]. vm_compute in E. injection E as <-. reflexivity.
Defined.

(** Register 5 is dead in [countdown]. *)
Lemma liveness_sound_witness :
  same_result (interp.run_loop 20 countdown 0 interp.new)
    (interp.run_loop 20 countdown 0 (mk_machine (<[5%nat := 9]> interp.new.(m_regs)) interp.new.(m_stack)
       interp.new.(m_ctx) interp.new.(m_defined) interp.new.(m_fuel))).
Proof.
  destruct (liveness_sound countdown countdown_ir countdown_ok eq_refl countdown_built) as (m & E & H).
  vm_compute in E. injection E as <-. apply (H 20%nat 0%nat 0%nat 0); [reflexivity | reflexivity |].
  split; try reflexivity. intros r _ Ht. by rewrite Z.bits_0 in Ht.
Defined.
