(* ===== verification/BpfState.v ===== *)
(** The abstract state of the BPF verifier ([bpf/verifier/src/state.rs]):
    pointers as a region and an abstract offset, registers, the stack frame
    with its initialised bytes, and the references that must be released.

    Instruction indices are natural numbers, so the identity of a reference is
    one and the sentinel [NO_REF] is [None].  The ordered map of stack slots is
    a finite map, none of whose uses depends on the order. *)

From stdpp Require Import gmap.
From S2P Require Import Prelude Word BpfOpcode Tnum BpfScalar BpfInterp BpfKfunc.

Definition SLOT_BYTES : Z := 8.

(** * Pointers *)

Module PtrClass.
Inductive PtrClass : Type :=
  Stack | Ctx | MapValue | Mem | MemEnd | Object | TraceObject | Arena | LockGuard | Null.

#[global] Instance eq_dec : EqDecision PtrClass.
Proof. solve_decision. Defined.

Definition is_faulting (c : PtrClass) : bool :=
  match c with Object | TraceObject | Arena => true | _ => false end.
End PtrClass.
Abbreviation PtrClass := PtrClass.PtrClass.

Record PtrVal : Type := mk_ptr {
  p_class : PtrClass;
  p_key : TypeKey;
  p_domain : ValidityDomain;
  p_off : Scalar;
  p_size : option Z;
  p_nullable : bool;
  p_ref : option nat;
  p_readonly : bool
}.

#[global] Instance PtrVal_eq_dec : EqDecision PtrVal.
Proof. solve_decision. Defined.

Definition rank (d : ValidityDomain) : Z :=
  match d with
  | ValidityDomain.NonPreemptible => 0
  | ValidityDomain.RcuRead => 1
  | ValidityDomain.SleepableRcuRead => 2
  | ValidityDomain.Owned => 3
  | ValidityDomain.Static => 4
  end.

Definition weaker_domain (a b : ValidityDomain) : ValidityDomain :=
  if rank a <=? rank b then a else b.

Module ptr.
Definition region (class : PtrClass) (size : Z) : PtrVal :=
  mk_ptr class type_key.NONE ValidityDomain.Static (scalar.constant 0) (Some size) false None false.

Definition frame_pointer : PtrVal :=
  mk_ptr PtrClass.Stack type_key.NONE ValidityDomain.Static (scalar.constant 0) None false None false.

Definition survives_await (p : PtrVal) : bool := ValidityDomain.survives_await p.(p_domain).

(** [PtrVal { off, ..p }] and the like. *)
Definition set_off (p : PtrVal) (off : Scalar) : PtrVal :=
  mk_ptr p.(p_class) p.(p_key) p.(p_domain) off p.(p_size) p.(p_nullable) p.(p_ref) p.(p_readonly).

Definition set_size (p : PtrVal) (size : option Z) : PtrVal :=
  mk_ptr p.(p_class) p.(p_key) p.(p_domain) p.(p_off) size p.(p_nullable) p.(p_ref) p.(p_readonly).

Definition set_nullable (p : PtrVal) (nullable : bool) : PtrVal :=
  mk_ptr p.(p_class) p.(p_key) p.(p_domain) p.(p_off) p.(p_size) nullable p.(p_ref) p.(p_readonly).

Definition join (a b : PtrVal) : option PtrVal :=
  if bool_decide (a.(p_class) <> b.(p_class)) || negb (a.(p_key) =? b.(p_key)) || bool_decide (a.(p_ref) <> b.(p_ref))
  then None
  else
    Some (mk_ptr a.(p_class) a.(p_key) (weaker_domain a.(p_domain) b.(p_domain)) (scalar.join a.(p_off) b.(p_off))
            (match a.(p_size), b.(p_size) with Some x, Some y => Some (Z.min x y) | _, _ => None end)
            (a.(p_nullable) || b.(p_nullable)) a.(p_ref) (a.(p_readonly) || b.(p_readonly))).

Definition is_subset_of (a b : PtrVal) : bool :=
  bool_decide (a.(p_class) = b.(p_class)) && (a.(p_key) =? b.(p_key)) && bool_decide (a.(p_ref) = b.(p_ref)) &&
  bool_decide (a.(p_domain) = b.(p_domain)) && scalar.is_subset_of a.(p_off) b.(p_off) &&
  (b.(p_nullable) || negb a.(p_nullable)) && (b.(p_readonly) || negb a.(p_readonly)) &&
  match a.(p_size), b.(p_size) with
  | Some x, Some y => y <=? x
  | _, None => true
  | None, Some _ => false
  end.

Definition widen (a next : PtrVal) (thresholds : list Z) : option PtrVal :=
  let* j := join a next in
  Some (set_off j (scalar.widen a.(p_off) next.(p_off) thresholds)).
End ptr.

(** * Values *)

Module AbsValue.
Inductive AbsValue : Type :=
| NotInit
| Scalar (s : Scalar)
| Ptr (p : PtrVal).

#[global] Instance eq_dec : EqDecision AbsValue.
Proof. solve_decision. Defined.

Definition UNKNOWN_SCALAR : AbsValue := Scalar scalar.UNKNOWN.

Definition join (a b : AbsValue) : AbsValue :=
  match a, b with
  | NotInit, _ | _, NotInit => NotInit
  | Scalar a, Scalar b => Scalar (scalar.join a b)
  | Ptr a, Ptr b => match ptr.join a b with Some p => Ptr p | None => UNKNOWN_SCALAR end
  | _, _ => UNKNOWN_SCALAR
  end.

Definition widen (a next : AbsValue) (thresholds : list Z) : AbsValue :=
  match a, next with
  | Scalar a, Scalar b => Scalar (scalar.widen a b thresholds)
  | Ptr a, Ptr b => match ptr.widen a b thresholds with Some p => Ptr p | None => UNKNOWN_SCALAR end
  | _, _ => join a next
  end.

Definition is_subset_of (a b : AbsValue) : bool :=
  match a, b with
  | _, NotInit => true
  | NotInit, _ => false
  | Scalar a, Scalar b => scalar.is_subset_of a b
  | Ptr a, Ptr b => ptr.is_subset_of a b
  | _, _ => false
  end.
End AbsValue.
Abbreviation AbsValue := AbsValue.AbsValue.

(** * The stack frame *)

(** Bit [n] of [s_init] is the byte at [-8 (i + 1) + n] of slot [i]. *)
Record StackSlot : Type := mk_slot { s_init : Z; s_value : AbsValue; s_whole : bool }.

#[global] Instance StackSlot_eq_dec : EqDecision StackSlot.
Proof. solve_decision. Defined.

Module slot.
Definition EMPTY : StackSlot := mk_slot 0 AbsValue.NotInit false.

(** [s.whole = false; s.value = NotInit]. *)
Definition forget (s : StackSlot) : StackSlot := mk_slot s.(s_init) AbsValue.NotInit false.

Definition join (a b : StackSlot) : StackSlot :=
  let whole := a.(s_whole) && b.(s_whole) in
  mk_slot (Z.land a.(s_init) b.(s_init))
    (if whole then AbsValue.join a.(s_value) b.(s_value) else AbsValue.NotInit) whole.

Definition widen (a next : StackSlot) (thresholds : list Z) : StackSlot :=
  let whole := a.(s_whole) && next.(s_whole) in
  mk_slot (Z.land a.(s_init) next.(s_init))
    (if whole then AbsValue.widen a.(s_value) next.(s_value) thresholds else AbsValue.NotInit) whole.

Definition is_subset_of (a b : StackSlot) : bool :=
  (Z.land b.(s_init) (wnot 8 a.(s_init)) =? 0) &&
  (negb b.(s_whole) || (a.(s_whole) && AbsValue.is_subset_of a.(s_value) b.(s_value))).
End slot.

Record Stack : Type := mk_stack { slots : gmap Z StackSlot; depth : Z }.

Module stack.
Definition default : Stack := mk_stack ∅ 0.

Definition slot_index (off : Z) : Z := u32 (Z.quot (as_i64 (as_i64 (- off) - 1)) SLOT_BYTES).

Definition byte_in_slot (off : Z) : Z := u32 (off + SLOT_BYTES * (slot_index off + 1)).

Definition slot (s : Stack) (index : Z) : StackSlot := unwrap_or (s.(slots) !! index) slot.EMPTY.

Definition note_depth (s : Stack) (off : Z) : Stack :=
  if off <? 0 then mk_stack s.(slots) (Z.max s.(depth) (u32 (- off))) else s.

(** The iteration of the byte loops of [write] and [write_unspecified]. *)
Definition write_byte (s : Stack) (b : Z) : Stack :=
  let idx := slot_index b in
  let bit := wshl 8 1 (byte_in_slot b) in
  let sl := slot s idx in
  mk_stack (<[idx := mk_slot (Z.lor sl.(s_init) bit) AbsValue.NotInit false]> s.(slots)) s.(depth).

Definition write (s : Stack) (off : Z) (size : Size) (v : AbsValue) : Stack :=
  let s := note_depth s off in
  if bool_decide (size = Size.Dw) && (Z.rem off SLOT_BYTES =? 0)
  then mk_stack (<[slot_index off := mk_slot 0xff v true]> s.(slots)) s.(depth)
  else foldl write_byte s (seqZ off (size_bytes size)).

Definition write_unspecified (s : Stack) (off len : Z) : Stack :=
  foldl write_byte (note_depth s off) (seqZ off (as_i64 len)).

(** [None] is the panic of [range_mut] on an inverted range. *)
Definition write_maybe (s : Stack) (lo hi : Z) : option Stack :=
  let s := note_depth s lo in
  let first := slot_index (hi - 1) in
  let last := slot_index lo in
  if last <? first then None
  else
    Some (mk_stack (map_imap (fun i sl => Some (if (first <=? i) && (i <=? last) then slot.forget sl else sl)) s.(slots))
            s.(depth)).

(** The bits of slot [idx] that [off, end) covers. *)
Definition wanted (off end_ idx : Z) : Z :=
  let base := - SLOT_BYTES * (idx + 1) in
  let lo := Z.max off base - base in
  let hi := Z.min end_ (base + SLOT_BYTES) - base in
  wrap 8 (Z.land (wshl 16 1 hi - 1) (wnot 16 (wshl 16 1 lo - 1))).

Definition is_initialized (s : Stack) (off len : Z) : bool :=
  if len =? 0 then true
  else if I64_MAX <? len then false
  else if I64_MAX <? off + len then false
  else
    let end_ := off + len in
    if (0 <=? off) || (0 <? end_) || (off <? - MAX_STACK_BYTES) then false
    else
      let first := slot_index (end_ - 1) in
      let last := slot_index off in
      forallb (fun idx => Z.land (slot s idx).(s_init) (wanted off end_ idx) =? wanted off end_ idx)
        (seqZ first (last - first + 1)).

Definition read (s : Stack) (off : Z) (size : Size) : AbsValue :=
  let sl := slot s (slot_index off) in
  if bool_decide (size = Size.Dw) && (Z.rem off SLOT_BYTES =? 0) && sl.(s_whole) && (sl.(s_init) =? 0xff)
  then sl.(s_value)
  else AbsValue.Scalar (scalar.unsigned_bits (size_bits size)).

Definition clobber (s : Stack) : Stack := mk_stack (slot.forget <$> s.(slots)) s.(depth).

(** The traversal of [join] and [widen]. *)
Definition combine (f : StackSlot -> StackSlot -> StackSlot) (a b : Stack) : Stack :=
  mk_stack (map_imap (fun i sl => let j := f sl (slot b i) in if decide (j = slot.EMPTY) then None else Some j)
              a.(slots))
    (Z.max a.(depth) b.(depth)).

Definition join (a b : Stack) : Stack := combine slot.join a b.

Definition widen (a next : Stack) (thresholds : list Z) : Stack :=
  combine (fun x y => slot.widen x y thresholds) a next.

Definition is_subset_of (a b : Stack) : bool :=
  forallb (fun p => slot.is_subset_of (slot a p.1) p.2) (map_to_list b.(slots)).
End stack.

(** * References and states *)

Record Ref : Type := mk_ref { r_id : nat; is_lock : bool; r_domain : ValidityDomain }.

Record AbsState : Type := mk_state { regs : list AbsValue; stack : Stack; refs : list Ref }.

Module state.
Definition entry (ctx_size : Z) : AbsState :=
  let ctx := ptr.region PtrClass.Ctx ctx_size in
  let ctx := mk_ptr ctx.(p_class) ctx.(p_key) ctx.(p_domain) ctx.(p_off) ctx.(p_size) ctx.(p_nullable) ctx.(p_ref) true in
  mk_state (<[10%nat := AbsValue.Ptr ptr.frame_pointer]> (<[1%nat := AbsValue.Ptr ctx]> (replicate 11 AbsValue.NotInit)))
    stack.default [].

(** The list is sorted by identity, where a binary search finds the entry, or
    the place to insert it. *)
Fixpoint insert_ref (r : Ref) (l : list Ref) : list Ref :=
  match l with
  | [] => [r]
  | e :: l' =>
      if (r.(r_id) =? e.(r_id))%nat then l
      else if (r.(r_id) <? e.(r_id))%nat then r :: l
      else e :: insert_ref r l'
  end.

Definition acquire (st : AbsState) (r : Ref) : AbsState :=
  mk_state st.(regs) st.(stack) (insert_ref r st.(refs)).

Definition holds (st : AbsState) (id : nat) : bool := existsb (fun e => (e.(r_id) =? id)%nat) st.(refs).

Definition release (st : AbsState) (id : nat) : bool * AbsState :=
  (holds st id, mk_state st.(regs) st.(stack) (filter (fun e => e.(r_id) <> id) st.(refs))).

Definition live_locks (st : AbsState) : nat := length (filter (fun r => r.(is_lock) = true) st.(refs)).

Definition invalidate_packet_bounds (st : AbsState) : AbsState :=
  mk_state ((fun v => match v with
                      | AbsValue.Ptr p =>
                          if bool_decide (p.(p_class) = PtrClass.Mem) && type_key.is_some p.(p_key)
                          then AbsValue.Ptr (ptr.set_size p None) else v
                      | _ => v
                      end) <$> st.(regs)) st.(stack) st.(refs).

(** Registers and slots whose value satisfies a predicate are forgotten. *)
Definition kill (dead : AbsValue -> bool) (st : AbsState) : AbsState :=
  mk_state ((fun v => if dead v then AbsValue.NotInit else v) <$> st.(regs))
    (mk_stack ((fun s => if dead s.(s_value) then slot.forget s else s) <$> st.(stack).(slots)) st.(stack).(depth))
    st.(refs).

Definition kill_ref (st : AbsState) (id : nat) : AbsState :=
  kill (fun v => match v with AbsValue.Ptr p => bool_decide (p.(p_ref) = Some id) | _ => false end) st.

(** The registers killed, with their domains, and the state. *)
Definition kill_at_await (st : AbsState) : list (nat * ValidityDomain) * AbsState :=
  let dead v := match v with AbsValue.Ptr p => negb (ptr.survives_await p) | _ => false end in
  (omap (fun p => match p.2 with
                  | AbsValue.Ptr q => if dead p.2 then Some (p.1, q.(p_domain)) else None
                  | _ => None
                  end) (zip (seq 0 (length st.(regs))) st.(regs)),
   kill dead st).

Definition union_refs (a b : list Ref) : list Ref := foldl (fun out r => insert_ref r out) a b.

Definition join (a b : AbsState) : AbsState :=
  mk_state (zip_with AbsValue.join a.(regs) b.(regs)) (stack.join a.(stack) b.(stack)) (union_refs a.(refs) b.(refs)).

Definition widen (a next : AbsState) (thresholds : list Z) (precise : Z) : AbsState :=
  let joined := join a next in
  mk_state
    (imap (fun i p => AbsValue.widen p.1 p.2 (if Z.testbit precise (Z.of_nat i) then thresholds else []))
       (zip a.(regs) joined.(regs)))
    (stack.widen a.(stack) joined.(stack) thresholds) joined.(refs).

Definition is_subset_of (a b : AbsState) : bool :=
  forallb (fun p => AbsValue.is_subset_of p.1 p.2) (zip a.(regs) b.(regs)) &&
  stack.is_subset_of a.(stack) b.(stack) &&
  forallb (fun r => holds a r.(r_id)) b.(refs) && forallb (fun r => holds b r.(r_id)) a.(refs).
End state.
