(* ===== verification/BpfAnalysis.v ===== *)
(** The transfer functions of the BPF verifier ([bpf/verifier/src/fixpoint.rs])
    and the program descriptors they read ([bpf/verifier/src/lib.rs]).

    [Analysis] is the part of the source's struct that changes; the program,
    its intermediate form and the liveness masks are parameters.  A transfer
    function is a computation in [M]: it reads and updates the analysis, may
    fail with a [VerifyError], and [None] is a panic. *)

From Stdlib Require Import String.
From stdpp Require Import gmap.
From S2P Require Import Prelude Word BpfOpcode BpfInsn Tnum BpfScalar BpfInterp BpfRefine BpfKfunc BpfIr BpfLiveness BpfState.

(** * Programs *)

Record MapDesc : Type := mk_map {
  fd : Z;
  fd_array_idx : option Z;
  key_size : Z;
  value_size : Z;
  max_entries : Z
}.

Record ObjectField : Type := mk_field { f_offset : Z; f_size : Z }.
Record ObjectDesc : Type := mk_object { o_key : TypeKey; o_size : Z; o_fields : list ObjectField }.

Record Program : Type := mk_program {
  p_insns : list Insn;
  p_context : Context;
  ctx_fields : list ArgDesc;
  kfuncs : list KfuncDesc;
  maps : list MapDesc;
  objects : list ObjectDesc
}.

Definition ARENA_WINDOW_BYTES : Z := Z.shiftl 4 30.
Definition MAX_CALL_DEPTH : Z := 8.
Definition DEFAULT_FUEL : Z := Z.shiftl 1 20.

Record FaultSite : Type := mk_fault { fs_insn : nat; dst_reg : option Z; arena : bool }.
Record TypedLoadSite : Type := mk_typed { tl_insn : nat; field_offset : Z; tl_size : Z }.
Record KfuncCallSite : Type := mk_call_site {
  kc_insn : nat; kc_id : Z; kc_addr : Z; kc_may_suspend : bool; kc_context : Context
}.

(** What the analysis accumulates. *)
Record Analysis : Type := mk_analysis {
  fault_sites : list FaultSite;
  bare_access_sites : list nat;
  typed_load_sites : list TypedLoadSite;
  kfunc_calls : list KfuncCallSite;
  uses_arena : bool;
  an_entry : list (option AbsState);
  an_depth : list Z;
  current : nat
}.

(** * Computations *)

Definition M (A : Type) : Type := Analysis -> option (Result (A * Analysis) VerifyError).

Definition ret {A} (x : A) : M A := fun a => Some (Ok (x, a)).
Definition fail {A} (e : VerifyError) : M A := fun _ => Some (Err e).
Definition bind {A B} (m : M A) (k : A -> M B) : M B := fun a =>
  match m a with
  | Some (Ok (x, a)) => k x a
  | Some (Err e) => Some (Err e)
  | None => None
  end.

(** A panic when the value is missing; an error when it is one. *)
Definition expect {A} (o : option A) : M A := fun a => match o with Some x => Some (Ok (x, a)) | None => None end.
Definition lift {A} (r : Result A VerifyError) : M A := match r with Ok x => ret x | Err e => fail e end.
Definition modify_ (f : Analysis -> Analysis) : M unit := fun a => Some (Ok (tt, f a)).

Notation "'let!' x := m 'in' k" := (bind m (fun x => k))
  (at level 10, x pattern, m at level 100, k at level 200) : narf_scope.

Definition foldM {A B} (f : A -> B -> M A) : list B -> A -> M A :=
  fix go l acc := match l with [] => ret acc | x :: l => let! acc := f acc x in go l acc end.

(** * Updates of the analysis *)

Definition push_fault (s : FaultSite) (a : Analysis) : Analysis :=
  mk_analysis (a.(fault_sites) ++ [s]) a.(bare_access_sites) a.(typed_load_sites) a.(kfunc_calls) a.(uses_arena)
    a.(an_entry) a.(an_depth) a.(current).
Definition push_bare (at_ : nat) (a : Analysis) : Analysis :=
  mk_analysis a.(fault_sites) (a.(bare_access_sites) ++ [at_]) a.(typed_load_sites) a.(kfunc_calls) a.(uses_arena)
    a.(an_entry) a.(an_depth) a.(current).
Definition push_typed (s : TypedLoadSite) (a : Analysis) : Analysis :=
  mk_analysis a.(fault_sites) a.(bare_access_sites) (a.(typed_load_sites) ++ [s]) a.(kfunc_calls) a.(uses_arena)
    a.(an_entry) a.(an_depth) a.(current).
Definition push_call (s : KfuncCallSite) (a : Analysis) : Analysis :=
  mk_analysis a.(fault_sites) a.(bare_access_sites) a.(typed_load_sites) (a.(kfunc_calls) ++ [s]) a.(uses_arena)
    a.(an_entry) a.(an_depth) a.(current).
Definition set_arena (a : Analysis) : Analysis :=
  mk_analysis a.(fault_sites) a.(bare_access_sites) a.(typed_load_sites) a.(kfunc_calls) true
    a.(an_entry) a.(an_depth) a.(current).
Definition set_entry (sp : nat) (st : AbsState) (a : Analysis) : Analysis :=
  mk_analysis a.(fault_sites) a.(bare_access_sites) a.(typed_load_sites) a.(kfunc_calls) a.(uses_arena)
    (<[sp := Some st]> a.(an_entry)) a.(an_depth) a.(current).
Definition set_current (sp : nat) (a : Analysis) : Analysis :=
  mk_analysis a.(fault_sites) a.(bare_access_sites) a.(typed_load_sites) a.(kfunc_calls) a.(uses_arena)
    a.(an_entry) a.(an_depth) sp.

(** What [access] proves about where an access lands. *)
Module Resolved.
Inductive Resolved : Type :=
| Const (a : Z)
| StackRange (lo hi : Z)
| Opaque
| TypedField.
End Resolved.
Abbreviation Resolved := Resolved.Resolved.

Module analysis.
Import AbsValue.

Definition class_of (kind : PtrKind) : PtrClass :=
  match kind with
  | PtrKind.Object => PtrClass.Object
  | PtrKind.TraceObject => PtrClass.TraceObject
  | PtrKind.Mem => PtrClass.Mem
  | PtrKind.MemEnd => PtrClass.MemEnd
  | PtrKind.Arena => PtrClass.Arena
  | PtrKind.Ctx => PtrClass.Ctx
  | PtrKind.MapValue => PtrClass.MapValue
  | PtrKind.LockGuard => PtrClass.LockGuard
  end.

Definition value_of (d : ArgDesc) (ref_id : option nat) : AbsValue :=
  match d.(a_kind) with
  | TypeKind.Void => NotInit
  | TypeKind.Scalar bits signed => Scalar (if signed then scalar.signed_bits bits else scalar.unsigned_bits bits)
  | TypeKind.Ptr kind key =>
      let class := class_of kind in
      Ptr (mk_ptr class key d.(a_domain) (scalar.constant 0)
             (match class with PtrClass.LockGuard => Some 0 | _ => None end)
             (arg_desc.has d arg_flags.NULLABLE) ref_id (arg_desc.has d arg_flags.READONLY))
  end.

Section Analysis.
Context (ir : Ir) (prog : Program) (live : Masks).
Implicit Types (st : AbsState).

(** ** Registers *)

Definition get st at_ r : M AbsValue :=
  let! v := expect (st.(regs) !! reg_usize r) in
  match v with
  | NotInit => fail (VerifyError.UninitRegister at_ r.(reg_index))
  | v => ret v
  end.

Definition get_scalar st at_ r : M BpfScalar.Scalar :=
  let! v := get st at_ r in
  match v with
  | Scalar s => ret s
  | _ => fail (VerifyError.PointerArithmetic at_ r.(reg_index))
  end.

Definition get_ptr st at_ r : M PtrVal :=
  let! v := get st at_ r in
  match v with
  | Ptr p => ret p
  | _ => fail (VerifyError.NotAPointer at_ r.(reg_index))
  end.

(** [st.regs[r] = v], which the source also does without the check of [set]. *)
Definition assign st (i : nat) (v : AbsValue) : AbsState :=
  mk_state (<[i := v]> st.(regs)) st.(stack) st.(refs).

Definition set st at_ r (v : AbsValue) : M AbsState :=
  if is_frame_ptr r then fail (VerifyError.WriteToFramePointer at_)
  else
    let! _ := expect (st.(regs) !! reg_usize r) in
    ret (assign st (reg_usize r) v).

Definition source st at_ (src : Source) (wide : bool) : M AbsValue :=
  match src with
  | Source.Reg r => get st at_ r
  | Source.Imm k => ret (Scalar (scalar.constant (if wide then k else u32 k)))
  end.

Definition scalar_source st at_ (src : Source) (wide : bool) : M BpfScalar.Scalar :=
  let! v := source st at_ src wide in
  match v with
  | Scalar s => ret s
  | _ => fail (VerifyError.PointerArithmetic at_ (match src with Source.Reg r => r.(reg_index) | Source.Imm _ => 0 end))
  end.

(** ** Maps *)

Definition map_by_fd at_ (fd' : Z) : Result MapDesc VerifyError :=
  ok_or (snd <$> list_find (fun m => m.(fd) = fd') prog.(maps)) (VerifyError.UnknownMap at_ fd').

Definition map_by_idx at_ (idx : Z) : Result MapDesc VerifyError :=
  ok_or (snd <$> list_find (fun m => m.(fd_array_idx) = Some idx) prog.(maps)) (VerifyError.UnknownMap at_ idx).

Definition map_handle : AbsValue :=
  Ptr (mk_ptr PtrClass.Object MAP_HANDLE_TYPE_KEY ValidityDomain.Static (scalar.constant 0) None false None true).

Definition map_value_ptr at_ (m : MapDesc) (value_offset : Z) : Result AbsValue VerifyError :=
  if (value_offset <? 0) || (m.(value_size) <=? Z.abs value_offset)
  then Err (VerifyError.MapValueOffset at_ value_offset m.(value_size))
  else Ok (Ptr (mk_ptr PtrClass.MapValue type_key.NONE ValidityDomain.Static (scalar.constant value_offset)
                  (Some m.(value_size)) false None false)).

Definition load_imm64 at_ (value : Imm64) : Result AbsValue VerifyError :=
  match value with
  | Imm64.Value v => Ok (Scalar (scalar.constant (as_i64 v)))
  | Imm64.MapFd fd => let? _ := map_by_fd at_ fd in Ok map_handle
  | Imm64.MapIdx idx => let? _ := map_by_idx at_ idx in Ok map_handle
  | Imm64.MapValue fd off => let? m := map_by_fd at_ fd in map_value_ptr at_ m off
  | Imm64.MapIdxValue idx off => let? m := map_by_idx at_ idx in map_value_ptr at_ m off
  | Imm64.BtfId _ =>
      Err (VerifyError.NotImplemented "kernel-variable addresses need a type registry in Program")
  | Imm64.SubprogAddr _ =>
      Err (VerifyError.NotImplemented "callback subprogram addresses need a callback-typed kfunc argument")
  end.

(** ** Arithmetic *)

Definition alu st at_ (wide : bool) (op : AluOp) (dst : Reg) (src : Source) : M AbsState :=
  let! d := get st at_ dst in
  let! s := source st at_ src wide in
  let bad := fail (VerifyError.PointerArithmetic at_ dst.(reg_index)) in
  let! out :=
    match d, s with
    | Scalar a, Scalar b => ret (Scalar (scalar.alu a op wide b))
    | Ptr p, _ =>
        if bool_decide (p.(p_class) = PtrClass.Arena) then
          let! _ := modify_ set_arena in
          ret (Ptr (ptr.set_off p (match op, s with
                                   | AluOp.Add, Scalar b => scalar.add p.(p_off) b
                                   | AluOp.Sub, Scalar b => scalar.sub p.(p_off) b
                                   | _, _ => scalar.UNKNOWN
                                   end)))
        else
          match s with
          | Scalar b =>
              if wide && bool_decide (p.(p_class) <> PtrClass.MemEnd) then
                match op with
                | AluOp.Add => ret (Ptr (ptr.set_off p (scalar.add p.(p_off) b)))
                | AluOp.Sub => ret (Ptr (ptr.set_off p (scalar.sub p.(p_off) b)))
                | _ => bad
                end
              else bad
          | Ptr q =>
              if wide && match op with AluOp.Sub => true | _ => false end && bool_decide (p.(p_class) = q.(p_class)) &&
                 bool_decide (p.(p_ref) = q.(p_ref)) && bool_decide (p.(p_class) <> PtrClass.Null)
              then ret (Scalar (scalar.sub p.(p_off) q.(p_off)))
              else bad
          | NotInit => bad
          end
    | _, _ => bad
    end in
  set st at_ dst out.

Definition addr_space_cast st at_ (dst src : Reg) (dst_as src_as : Z) : M AbsState :=
  if negb (((dst_as =? 0) && (src_as =? 1)) || ((dst_as =? 1) && (src_as =? 0)))
  then fail (VerifyError.BadAddrSpaceCast at_ dst_as src_as)
  else
    let! p := get_ptr st at_ src in
    if bool_decide (p.(p_class) <> PtrClass.Arena) then fail (VerifyError.NotAPointer at_ src.(reg_index))
    else
      let! _ := modify_ set_arena in
      set st at_ dst (Ptr (ptr.set_off p scalar.UNKNOWN)).

(** ** Memory *)

Definition note_depth (d : Z) : M unit := fun a =>
  match a.(an_depth) !! a.(current) with
  | None => None
  | Some old =>
      Some (Ok (tt, mk_analysis a.(fault_sites) a.(bare_access_sites) a.(typed_load_sites) a.(kfunc_calls) a.(uses_arena)
                      a.(an_entry) (<[a.(current) := Z.max old d]> a.(an_depth)) a.(current)))
  end.

(** [u32::try_from(v).ok()]. *)
Definition try_u32 (v : Z) : option Z := if (0 <=? v) && (v <? 2 ^ 32) then Some v else None.

(** [saturating_add] on [u64]. *)
Definition sat_add (a b : Z) : Z := Z.min U64_MAX (a + b).

(** Whether an object with this key declares the field. *)
Definition names_field (key : TypeKey) (offset width : Z) : bool :=
  match list_find (fun o => o.(o_key) = key) prog.(objects) with
  | Some (_, o) => existsb (fun f => (f.(f_offset) =? offset) && (f.(f_size) =? width)) o.(o_fields)
  | None => false
  end.

Definition typed_field_load at_ r (p : PtrVal) (addr : BpfScalar.Scalar) (size : Size) (write : bool) : M Resolved :=
  let mismatch := fail (VerifyError.TypedFieldMismatch at_ r.(reg_index)) in
  if write then mismatch
  else if bool_decide (scalar.as_const p.(p_off) <> Some 0) then mismatch
  else
    match (let* v := scalar.as_const addr in try_u32 v) with
    | None => mismatch
    | Some field_offset =>
        let width := size_bytes size in
        if negb (names_field p.(p_key) field_offset width) then mismatch
        else
          let! _ := modify_ (push_typed (mk_typed at_ field_offset width)) in
          ret Resolved.TypedField
    end.

Definition access st at_ r (off : Z) (size : Size) (write : bool) (fault_dst : option Z) : M Resolved :=
  let! p := get_ptr st at_ r in
  if p.(p_nullable) || bool_decide (p.(p_class) = PtrClass.Null) then fail (VerifyError.PossiblyNull at_ r.(reg_index))
  else if write && p.(p_readonly) then fail (VerifyError.WriteToReadOnly at_)
  else
    let addr := scalar.add p.(p_off) (scalar.constant off) in
    let bytes := size_bytes size in
    let outside limit := (addr.(min) <? 0) || (limit <? sat_add (u64 addr.(max)) bytes) in
    let oob := fail (VerifyError.OutOfBounds at_) in
    match p.(p_class) with
    | PtrClass.Object => fail (VerifyError.OpaqueDeref at_ r.(reg_index))
    | PtrClass.TraceObject => typed_field_load at_ r p addr size write
    | PtrClass.Arena =>
        if outside ARENA_WINDOW_BYTES then fail (VerifyError.ArenaOutOfWindow at_ r.(reg_index))
        else
          let! _ := modify_ set_arena in
          let! _ := modify_ (push_fault (mk_fault at_ fault_dst true)) in
          ret Resolved.Opaque
    | PtrClass.Stack =>
        let lo := addr.(min) in
        let hi := addr.(max) + bytes in
        if I64_MAX <? hi then oob
        else if (0 <=? lo) || (lo <? - MAX_STACK_BYTES) || (0 <? hi) then oob
        else
          let! _ := modify_ (push_bare at_) in
          ret (match scalar.as_const addr with
               | Some a => Resolved.Const a
               | None => Resolved.StackRange lo hi
               end)
    | class =>
        match p.(p_size) with
        | None => oob
        | Some region =>
            if outside region then oob
            else
              match class with
              | PtrClass.Ctx =>
                  match scalar.as_const addr with
                  | Some a => let! _ := modify_ (push_bare at_) in ret (Resolved.Const a)
                  | None => oob
                  end
              | PtrClass.Mem => let! _ := modify_ (push_bare at_) in ret Resolved.Opaque
              | _ => ret Resolved.Opaque
              end
        end
    end.

Definition ctx_field at_ (a : Z) (size : Size) : Result AbsValue VerifyError :=
  if bool_decide (size <> Size.Dw) || negb (Z.rem a 8 =? 0) then Err (VerifyError.OutOfBounds at_)
  else
    let? f := ok_or (prog.(ctx_fields) !! Z.to_nat (u64 (Z.quot a 8))) (VerifyError.OutOfBounds at_) in
    Ok (value_of f None).

Definition load st at_ (size : Size) (sign_extend : bool) (dst src : Reg) (off : Z) : M AbsState :=
  let! p := get_ptr st at_ src in
  let! resolved := access st at_ src off size false (Some dst.(reg_index)) in
  let! value :=
    match p.(p_class), resolved with
    | PtrClass.Stack, Resolved.Const a =>
        if negb (stack.is_initialized st.(stack) a (size_bytes size)) then fail (VerifyError.UninitStack at_ a)
        else ret (stack.read st.(stack) a size)
    | PtrClass.Stack, Resolved.StackRange lo hi =>
        if negb (stack.is_initialized st.(stack) lo (u64 (hi - lo))) then fail (VerifyError.UninitStack at_ lo)
        else
          let! _ := note_depth (u32 (- lo)) in
          ret (Scalar (scalar.unsigned_bits (size_bits size)))
    | PtrClass.Ctx, Resolved.Const a => lift (ctx_field at_ a size)
    | _, _ => ret (Scalar (scalar.unsigned_bits (size_bits size)))
    end in
  set st at_ dst (match value, sign_extend with
                  | Scalar s, true => Scalar (scalar.sign_extend s (size_bits size))
                  | v, _ => v
                  end).

(** The effect of a store or an atomic on the frame. *)
Definition write_stack st (class : PtrClass) (resolved : Resolved) (size : Size) (v : AbsValue) : M AbsState :=
  match class, resolved with
  | PtrClass.Stack, Resolved.Const a =>
      let s := stack.write st.(stack) a size v in
      let! _ := note_depth s.(depth) in
      ret (mk_state st.(regs) s st.(refs))
  | PtrClass.Stack, Resolved.StackRange lo hi =>
      let! s := expect (stack.write_maybe st.(stack) lo hi) in
      let! _ := note_depth s.(depth) in
      ret (mk_state st.(regs) s st.(refs))
  | _, _ => ret st
  end.

Definition store st at_ (size : Size) (dst : Reg) (off : Z) (src : Source) : M AbsState :=
  let! v := source st at_ src true in
  let v := match v with
           | Ptr _ => if bool_decide (size <> Size.Dw) then UNKNOWN_SCALAR else v
           | v => v
           end in
  let! p := get_ptr st at_ dst in
  let! resolved := access st at_ dst off size true None in
  write_stack st p.(p_class) resolved size v.

Definition atomic st at_ (size : Size) (op : AtomicOp) (dst src : Reg) (off : Z) : M AbsState :=
  let! _ := get_scalar st at_ src in
  let is_cmpxchg := match op with AtomicOp.Cmpxchg => true | _ => false end in
  let! _ := (if is_cmpxchg then let! _ := get_scalar st at_ R0 in ret tt else ret tt) in
  let! p := get_ptr st at_ dst in
  let! resolved := access st at_ dst off size true None in
  let width := Scalar (scalar.unsigned_bits (size_bits size)) in
  let! st := write_stack st p.(p_class) resolved size width in
  let! st := (if writes_src op then set st at_ src width else ret st) in
  if is_cmpxchg then set st at_ R0 width else ret st.

(** ** Calls *)

(** An argument as the callee sees it: a pointer into the caller's frame
    becomes a bounded region. *)
Definition pass_arg at_ (v : AbsValue) : M (AbsValue * bool) :=
  match v with
  | Ptr p =>
      if bool_decide (p.(p_class) = PtrClass.Stack) then
        match scalar.as_const p.(p_off) with
        | None => fail (VerifyError.OutOfBounds at_)
        | Some off =>
            let room := Z.max (as_i64 (- off)) 0 in
            if MAX_STACK_BYTES <? room then fail (VerifyError.OutOfBounds at_)
            else
              let! _ := note_depth room in
              ret (Ptr (ptr.region PtrClass.Mem room), true)
        end
      else ret (v, false)
  | v => ret (v, false)
  end.

(** [R1] to [R5] are lost in a call. *)
Definition clear_args st : AbsState := foldl (fun st k => assign st k NotInit) st [1; 2; 3; 4; 5]%nat.

(** The callee's entry state joins those of its call sites. *)
Definition join_entry (callee : nat) (entry : AbsState) : M unit := fun a =>
  match a.(an_entry) !! callee with
  | None => None
  | Some prev =>
      Some (Ok (tt, set_entry callee (match prev with None => entry | Some prev => state.join prev entry end) a))
  end.

Definition call_subprog st at_ (next off : Z) : M AbsState :=
  let target := u32 (next + off) in
  match list_find (fun s => Z.of_nat s.(entry_slot) = target) ir.(subprogs) with
  | None => fail (VerifyError.BadTarget at_ target)
  | Some (callee, _) =>
      let fresh := mk_state (<[10%nat := Ptr ptr.frame_pointer]> (replicate 11 NotInit)) stack.default [] in
      let! (entry, passed_frame_pointer) :=
        foldM (fun acc k =>
          let! v := expect (st.(regs) !! k) in
          let! (v, passed) := pass_arg at_ v in
          ret (assign acc.1 k v, acc.2 || passed)) [1; 2; 3; 4; 5]%nat (fresh, false) in
      let! _ := join_entry callee entry in
      let st := if passed_frame_pointer : bool then mk_state st.(regs) (stack.clobber st.(stack)) st.(refs) else st in
      ret (clear_args (assign st 0 UNKNOWN_SCALAR))
  end.

(** The size of an acquired byte region, from its constant argument. *)
Definition acquired_mem_size st at_ (desc : KfuncDesc) : M (option Z) :=
  let ret_ := desc.(k_ret) in
  if negb (TypeKind.is_ptr PtrKind.Mem ret_.(a_kind) && arg_desc.consumes_in_arg_position ret_) then ret None
  else
    let sig_err {A} arg : M A := fail (VerifyError.KfuncSignature at_ arg ret_) in
    match list_find (fun a => arg_desc.has a arg_flags.CONST = true) desc.(k_args) with
    | None => sig_err 0%nat
    | Some (idx, _) =>
        match reg_new (Z.of_nat idx + 1) with
        | None => sig_err idx
        | Some r =>
            let! v := get st at_ r in
            match v with
            | Scalar s =>
                match scalar.as_const s with
                | Some c => ret (Some (u64 c))
                | None => sig_err idx
                end
            | _ => sig_err idx
            end
        end
    end.

(** [self.get(..).ok()] on an argument register. *)
Definition arg_value st (i : nat) : option AbsValue :=
  let* r := reg_new (Z.of_nat i + 1) in
  match st.(regs) !! reg_usize r with
  | Some NotInit => None
  | v => v
  end.

(** [find_map]. *)
Fixpoint find_map {A B} (f : A -> option B) (l : list A) : option B :=
  match l with
  | [] => None
  | x :: l => match f x with Some y => Some y | None => find_map f l end
  end.

Definition object_field_matches st (field_arg : nat) (desc : KfuncDesc) (offset : BpfScalar.Scalar) : bool :=
  match (let* v := scalar.as_const offset in try_u32 v) with
  | None => false
  | Some offset =>
      let before := seq 0 field_arg in
      let object := find_map (fun i =>
        let* arg := desc.(k_args) !! i in
        if negb (arg_desc.has arg arg_flags.ANY_TRACE_OBJECT) then None
        else
          let* v := arg_value st i in
          match v with
          | Ptr p => if bool_decide (p.(p_class) = PtrClass.TraceObject) then Some p else None
          | _ => None
          end) (reverse before) in
      let width := find_map (fun i =>
        let* arg := desc.(k_args) !! i in
        if negb (arg_desc.has arg arg_flags.SIZED_BY_NEXT) then None
        else
          let* v := arg_value st (S i) in
          match v with
          | Scalar s => let* c := scalar.as_const s in try_u32 c
          | _ => None
          end) before in
      match object, width with
      | Some object, Some width => names_field object.(p_key) offset width
      | _, _ => false
      end
  end.

Definition check_mem_arg st at_ (k : nat) (arg : ArgDesc) (p : PtrVal) : M AbsState :=
  let bad {A} : M A := fail (VerifyError.KfuncSignature at_ k arg) in
  let oob {A} : M A := fail (VerifyError.OutOfBounds at_) in
  if negb (arg_desc.has arg arg_flags.SIZED_BY_NEXT) then bad
  else
    match reg_new (Z.of_nat k + 2) with
    | None => bad
    | Some len_reg =>
        let! v := get st at_ len_reg in
        match v with
        | Scalar len =>
            let '(_, len_max) := scalar.unsigned_bounds len in
            let writes := arg_desc.has arg arg_flags.UNINIT in
            let outside limit := (p.(p_off).(min) <? 0) || (limit <? sat_add (u64 p.(p_off).(max)) len_max) in
            match p.(p_class) with
            | PtrClass.Stack =>
                match scalar.as_const p.(p_off) with
                | None => oob
                | Some off =>
                    if (0 <=? off) || (off <? - MAX_STACK_BYTES) || (0 <? off + len_max) then oob
                    else if writes then
                      let s := stack.write_unspecified st.(stack) off len_max in
                      let! _ := note_depth s.(depth) in
                      ret (mk_state st.(regs) s st.(refs))
                    else if negb (stack.is_initialized st.(stack) off len_max) then fail (VerifyError.UninitStack at_ off)
                    else ret st
                end
            | PtrClass.Mem | PtrClass.MapValue | PtrClass.Ctx =>
                match p.(p_size) with
                | None => oob
                | Some size =>
                    if outside size then oob
                    else if writes && p.(p_readonly) then fail (VerifyError.WriteToReadOnly at_)
                    else ret st
                end
            | PtrClass.Arena =>
                if outside ARENA_WINDOW_BYTES then oob
                else if writes && p.(p_readonly) then fail (VerifyError.WriteToReadOnly at_)
                else let! _ := modify_ set_arena in ret st
            | _ => bad
            end
        | _ => bad
        end
    end.

(** One iteration of [check_args] for a pointer argument. *)
Definition check_ptr_arg st at_ (desc : KfuncDesc) (k : nat) (arg : ArgDesc) (kind : PtrKind) (key : TypeKey) r (p : PtrVal)
    : M AbsState :=
  let bad {A} : M A := fail (VerifyError.KfuncSignature at_ k arg) in
  if p.(p_nullable) && negb (arg_desc.has arg arg_flags.NULLABLE) then fail (VerifyError.PossiblyNull at_ r.(reg_index))
  else if desc.(may_suspend) && negb (ValidityDomain.survives_await p.(p_domain))
  then fail (VerifyError.PointerCrossesAwait at_ r.(reg_index) p.(p_domain))
  else if bool_decide (weaker_domain p.(p_domain) arg.(a_domain) <> arg.(a_domain)) then bad
  else
    let consumes := arg_desc.consumes_in_arg_position arg in
    let shifted := bool_decide (scalar.as_const p.(p_off) <> Some 0) in
    let! st :=
      if bool_decide (kind = PtrKind.Mem) then
        if consumes
        then if bool_decide (p.(p_class) <> PtrClass.Mem) || shifted then bad else ret st
        else check_mem_arg st at_ k arg p
      else if bool_decide (p.(p_class) <> class_of kind) ||
              match kind with
              | PtrKind.Object | PtrKind.LockGuard => negb (p.(p_key) =? key)
              | PtrKind.TraceObject => negb (arg_desc.has arg arg_flags.ANY_TRACE_OBJECT) && negb (p.(p_key) =? key)
              | _ => false
              end || shifted
      then bad
      else ret st in
    let! _ := (if bool_decide (p.(p_class) = PtrClass.Arena) then modify_ set_arena else ret tt) in
    if consumes then
      let unacquired := fail (VerifyError.ReleaseOfUnacquired at_ r.(reg_index)) in
      match p.(p_ref) with
      | None => unacquired
      | Some id =>
          let '(held, st) := state.release st id in
          if negb held then unacquired else ret (state.kill_ref st id)
      end
    else ret st.

Definition check_arg st at_ (desc : KfuncDesc) (k : nat) (arg : ArgDesc) : M AbsState :=
  let! r := expect (reg_new (Z.of_nat k + 1)) in
  let! v := get st at_ r in
  let bad := fail (VerifyError.KfuncSignature at_ k arg) in
  match arg.(a_kind), v with
  | TypeKind.Scalar _ _, Scalar s =>
      if arg_desc.has arg arg_flags.CONST && bool_decide (scalar.as_const s = None) then bad
      else if arg_desc.has arg arg_flags.OBJECT_FIELD_OFFSET && negb (object_field_matches st k desc s) then bad
      else ret st
  | TypeKind.Ptr kind key, Ptr p => check_ptr_arg st at_ desc k arg kind key r p
  | TypeKind.Ptr _ _, Scalar s =>
      if arg_desc.has arg arg_flags.NULLABLE && bool_decide (scalar.as_const s = Some 0) then ret st else bad
  | _, _ => bad
  end.

Definition check_args st at_ (desc : KfuncDesc) : M AbsState :=
  foldM (fun st p => check_arg st at_ desc p.1 p.2) (zip (seq 0 (length desc.(k_args))) desc.(k_args)) st.

(** The values that do not survive an await die at a call that may sleep. *)
Definition await st at_ (i : nat) : M AbsState :=
  let '(killed, st) := state.kill_at_await st in
  foldM (fun st p =>
    let! alive := expect (liveness.after_has live i (Z.of_nat p.1)) in
    if alive : bool then fail (VerifyError.PointerCrossesAwait at_ (Z.of_nat p.1) p.2) else ret st) killed st.

Definition call_kfunc st at_ (i : nat) (id : Z) : M AbsState :=
  match list_find (fun d => d.(k_id) = id) prog.(kfuncs) with
  | None => fail (VerifyError.UnknownKfunc at_ id)
  | Some (_, desc) =>
      if negb (Context.permits prog.(p_context) desc.(k_context))
      then fail (VerifyError.ContextMismatch at_ desc.(k_context) prog.(p_context))
      else
        let! st := check_args st at_ desc in
        let! size := acquired_mem_size st at_ desc in
        let! _ := modify_ (push_call (mk_call_site at_ desc.(k_id) desc.(k_addr) desc.(may_suspend) desc.(k_context))) in
        let! st := (if bool_decide (desc.(k_context) = Context.Sleepable) then await st at_ i else ret st) in
        let st := clear_args st in
        let is_lock := TypeKind.is_ptr PtrKind.LockGuard desc.(k_ret).(a_kind) in
        let! (st, ret_ref) :=
          (if arg_desc.consumes_in_arg_position desc.(k_ret) then
             if is_lock && (1 <=? state.live_locks st)%nat then fail (VerifyError.TooManyLocks at_)
             else ret (state.acquire st (mk_ref i is_lock desc.(k_ret).(a_domain)), Some i)
           else ret (st, None)) in
        let r0 := match value_of desc.(k_ret) ret_ref, size with
                  | Ptr p, Some sz => Ptr (ptr.set_size p (Some sz))
                  | v, _ => v
                  end in
        let st := assign st 0 r0 in
        ret (if existsb (fun a => TypeKind.is_ptr PtrKind.Ctx a.(a_kind)) desc.(k_args)
             then state.invalidate_packet_bounds st else st)
  end.

Definition check_exit st at_ : M unit :=
  match st.(refs) with
  | r :: _ =>
      let reg := match list_find (fun v => match v with
                                           | Ptr p => bool_decide (p.(p_ref) = Some r.(r_id))
                                           | _ => false
                                           end = true) st.(regs) with
                 | Some (i, _) => Z.of_nat i
                 | None => 0
                 end in
      fail (VerifyError.LeakedReference at_ reg)
  | [] =>
      let! v := expect (st.(regs) !! reg_usize R0) in
      match v with
      | NotInit => fail (VerifyError.UninitRegister at_ 0)
      | Ptr _ => fail (VerifyError.PointerArithmetic at_ 0)
      | Scalar _ => ret tt
      end
  end.

(** ** Branch refinement *)

(** The readable prefix a comparison with the end of a dynamic region proves. *)
Definition proven_extent (relation : Pred) (mem : PtrVal) : option Z :=
  match relation, scalar.as_const mem.(p_off) with
  | (Pred.Eq | Pred.Le), Some off => if 0 <=? off then Some (u64 off) else None
  | Pred.Lt, Some off => if 0 <=? off then (if u64 off =? U64_MAX then None else Some (u64 off + 1)) else None
  | _, _ => None
  end.

(** The prefix holds for every register into the same region. *)
Definition publish_extent st (key : TypeKey) (limit : Z) : AbsState :=
  mk_state ((fun v => match v with
                      | Ptr alias =>
                          if bool_decide (alias.(p_class) = PtrClass.Mem) && (alias.(p_key) =? key)
                          then Ptr (ptr.set_size alias (Some (match alias.(p_size) with
                                                              | None => limit
                                                              | Some n => Z.max n limit
                                                              end)))
                          else v
                      | v => v
                      end) <$> st.(regs)) st.(stack) st.(refs).

(** A comparison of a dynamic region with its end; [None] when it is another
    comparison. *)
Definition refine_dynamic st (wide : bool) (pred : Pred) (d s : AbsValue) (src : Source) : option AbsState :=
  match wide, d, s, src with
  | true, Ptr dp, Ptr sp, Source.Reg _ =>
      let* (mem, end_, relation) :=
        match dp.(p_class), sp.(p_class) with
        | PtrClass.Mem, PtrClass.MemEnd => Some (dp, sp, pred)
        | PtrClass.MemEnd, PtrClass.Mem => Some (sp, dp, Pred.swap_operands pred)
        | _, _ => None
        end in
      if type_key.is_some mem.(p_key) && (mem.(p_key) =? end_.(p_key)) then
        match proven_extent relation mem with
        | Some limit => Some (publish_extent st mem.(p_key) limit)
        | None => Some st
        end
      else Some st
  | _, _, _, _ => None
  end.

(** The state on one edge of a conditional jump, [None] when the edge is
    infeasible. *)
Definition refine st at_ (wide : bool) (pred : Pred) (dst : Reg) (src : Source) : M (option AbsState) :=
  let! d := get st at_ dst in
  let! s := source st at_ src wide in
  match refine_dynamic st wide pred d s src with
  | Some st => ret (Some st)
  | None =>
      match d, s with
      | Ptr p, Scalar z =>
          if wide && bool_decide (scalar.as_const z = Some 0) then
            match pred with
            | Pred.Eq =>
                if negb p.(p_nullable) then ret None
                else
                  let out := assign st (reg_usize dst) (Scalar (scalar.constant 0)) in
                  ret (Some (match p.(p_ref) with Some id => snd (state.release out id) | None => out end))
            | Pred.Ne => ret (Some (assign st (reg_usize dst) (Ptr (ptr.set_nullable p false))))
            | _ => ret (Some st)
            end
          else ret (Some st)
      | Scalar a, Scalar b =>
          match refine_scalars wide pred a b with
          | None => ret None
          | Some (na, nb) =>
              let out := assign st (reg_usize dst) (Scalar na) in
              ret (Some (match src with
                         | Source.Reg sr =>
                             if negb (is_frame_ptr sr) && bool_decide (sr <> dst)
                             then assign out (reg_usize sr) (Scalar nb) else out
                         | Source.Imm _ => out
                         end))
          end
      | _, _ => ret (Some st)
      end
  end.

(** ** One instruction *)

Definition step st (i : nat) : M AbsState :=
  let! insn := expect (ir.(insns) !! i) in
  let at_ := insn.(ir_slot) in
  match insn.(ir_op) with
  | Decoded.Alu wide op dst src => alu st at_ wide op dst src
  | Decoded.Neg wide dst =>
      let! d := get_scalar st at_ dst in
      set st at_ dst (Scalar (scalar.neg_op d wide))
  | Decoded.Mov wide dst src sign_extend =>
      let! v := source st at_ src wide in
      set st at_ dst (match v with
                      | Ptr p => if wide && bool_decide (sign_extend = None) then Ptr p else UNKNOWN_SCALAR
                      | Scalar s => Scalar (scalar.mov_op s wide sign_extend)
                      | NotInit => NotInit
                      end)
  | Decoded.Div wide signed dst src =>
      let! d := get_scalar st at_ dst in
      let! s := scalar_source st at_ src wide in
      let! q := expect (scalar.div_op d wide signed s) in
      set st at_ dst (Scalar q)
  | Decoded.Mod wide signed dst src =>
      let! d := get_scalar st at_ dst in
      let! s := scalar_source st at_ src wide in
      set st at_ dst (Scalar (scalar.mod_op d wide signed s))
  | Decoded.End_ dst order width =>
      let! d := get_scalar st at_ dst in
      set st at_ dst (Scalar (scalar.end_op d order width))
  | Decoded.AddrSpaceCast dst src dst_as src_as => addr_space_cast st at_ dst src dst_as src_as
  | Decoded.Load size sign_extend dst src off => load st at_ size sign_extend dst src off
  | Decoded.Store size dst off src => store st at_ size dst off src
  | Decoded.Atomic size op dst src off => atomic st at_ size op dst src off
  | Decoded.LoadImm64 dst value =>
      let! v := lift (load_imm64 at_ value) in
      set st at_ dst v
  | Decoded.Call (CallTarget.Subprog off) => call_subprog st at_ (Z.of_nat (next_slot insn)) off
  | Decoded.Call (CallTarget.Kfunc id) => call_kfunc st at_ i id
  | Decoded.Jump _ | Decoded.JumpCond _ _ _ _ _ | Decoded.MayGoto _ => ret st
  | Decoded.Exit => let! _ := check_exit st at_ in ret st
  end.
End Analysis.
End analysis.
