(* ===== verification/BpfVerify.v ===== *)
(** The fixpoint of the BPF verifier ([bpf/verifier/src/fixpoint.rs]) and its
    entry point [verify] ([bpf/verifier/src/lib.rs]).

    The worklist has its top first.  Its loop runs within the source's own
    round budget; the loop of the topological order has a step for every
    subprogram. *)

From stdpp Require Import sorting gmap.
From S2P Require Import Prelude Word BpfOpcode BpfInsn Tnum BpfScalar BpfInterp BpfRefine BpfKfunc BpfIr BpfLiveness BpfDom.
From S2P Require Import BpfWiden BpfState BpfAnalysis.

Record SubprogInfo : Type := mk_info { si_start : nat; stack_bytes : Z }.

Record VerifiedProgram : Type := mk_verified {
  v_insns : list Insn;
  v_context : Context;
  max_stack_bytes : Z;
  initial_fuel : Z;
  v_fault_sites : list FaultSite;
  v_bare_access_sites : list nat;
  v_typed_load_sites : list TypedLoadSite;
  v_subprogs : list SubprogInfo;
  v_uses_arena : bool;
  v_kfunc_calls : list KfuncCallSite
}.

Module verify.
Import AbsValue analysis.

Definition fixpoint_round_budget (blocks : Z) : Z :=
  Z.max (Z.min U64_MAX (blocks * 512)) 16384.

Definition align8 (n : Z) : Z := u32 ((n + 7) / 8 * 8).

(** ** One block *)

Section Walk.
Context (ir : Ir) (prog : Program) (live prec : Masks).
Implicit Types (st : AbsState).

Definition block_at_slot (next off : Z) : option nat :=
  let* i := ir.index_of ir.(ir_of_slot) (Z.to_nat (u64 (next + off))) in
  ir.index_of ir.(block_of) i.

Definition walk_block (b : nat) st : M (list (nat * AbsState)) :=
  let! blk := expect (ir.(blocks) !! b) in
  let last := (blk.(b_end) - 1)%nat in
  let! st := foldM (step ir prog live) (seq blk.(b_start) (last - blk.(b_start))) st in
  let! insn := expect (ir.(insns) !! last) in
  let at_ := insn.(ir_slot) in
  let next := Z.of_nat (next_slot insn) in
  match insn.(ir_op) with
  | Decoded.Exit => let! _ := check_exit st at_ in ret []
  | Decoded.JumpCond wide op dst src off =>
      let! taken_block := expect (block_at_slot next off) in
      let! fall_block := expect (block_at_slot next 0) in
      let p := Pred.of_cond op in
      let! taken := refine st at_ wide p dst src in
      let! fall := refine st at_ wide (Pred.negate p) dst src in
      ret (match taken with Some s => [(taken_block, s)] | None => [] end ++
           match fall with Some s => [(fall_block, s)] | None => [] end)
  | Decoded.MayGoto off =>
      let! taken_block := expect (block_at_slot next off) in
      let! fall_block := expect (block_at_slot next 0) in
      ret [(taken_block, st); (fall_block, st)]
  | _ =>
      let! st := step ir prog live st last in
      ret ((fun s => (s, st)) <$> blk.(b_succs))
  end.

(** ** One subprogram *)

Record Work : Type := mk_work { in_state : list (option AbsState); worklist : list nat; queued : list bool }.

(** The state of a successor after an edge into it: what was there joined or
    widened with the new one, and whether that adds anything. *)
Definition merge (succ : nat) st (old : option AbsState) : option (AbsState * bool) :=
  match old with
  | None => Some (st, true)
  | Some old =>
      let* blk := ir.(blocks) !! succ in
      let* m :=
        (if blk.(widen_here) then
           let* precise := prec.(before) !! blk.(b_start) in
           Some (state.widen old st ir.(thresholds) precise)
         else Some (state.join old st)) in
      Some (m, negb (state.is_subset_of m old))
  end.

Definition edge (reachable : list bool) (w : Work) (p : nat * AbsState) : option Work :=
  let '(succ, st) := p in
  let* r := reachable !! succ in
  if negb r then Some w
  else
    let* old := w.(in_state) !! succ in
    let* (merged, changed) := merge succ st old in
    if changed : bool then
      let* q := w.(queued) !! succ in
      let in_state := <[succ := Some merged]> w.(in_state) in
      Some (if q : bool then mk_work in_state w.(worklist) w.(queued)
            else mk_work in_state (succ :: w.(worklist)) (<[succ := true]> w.(queued)))
    else Some w.

(** The states of the blocks when the worklist is empty. *)
Fixpoint rounds (n : nat) (budget : Z) (sp : nat) (reachable : list bool) (w : Work) : M (list (option AbsState)) :=
  match w.(worklist) with
  | [] => ret w.(in_state)
  | b :: wl =>
      match n with
      | O => fail (VerifyError.FixpointDiverged sp (budget + 1))
      | S n =>
          let! _ := expect (w.(queued) !! b) in
          let! start := expect (w.(in_state) !! b) in
          let w := mk_work w.(in_state) wl (<[b := false]> w.(queued)) in
          match start with
          | None => rounds n budget sp reachable w
          | Some start =>
              let! outs := walk_block b start in
              let! w := foldM (fun w p => expect (edge reachable w p)) outs w in
              rounds n budget sp reachable w
          end
      end
  end.

Definition fixpoint (sp : nat) (entry : AbsState) : M (list (option AbsState)) :=
  let! s := expect (ir.(subprogs) !! sp) in
  let e := s.(entry_block) in
  let n := length ir.(blocks) in
  let! reachable := expect (dom.reachable_blocks ir.(blocks) (Some e)) in
  let! in_state := expect (ir.modify (replicate n None) e (fun _ => Some entry)) in
  let! queued := expect (ir.modify (replicate n false) e (fun _ => true)) in
  let budget := fixpoint_round_budget (Z.of_nat n) in
  rounds (Z.to_nat budget) budget sp reachable (mk_work in_state [e] queued).

(** Subprograms that nothing calls have no entry state. *)
Definition analyse_subprog (sp : nat) : M unit := fun a =>
  match a.(an_entry) !! sp with
  | None => None
  | Some None => Some (Ok (tt, a))
  | Some (Some entry) => (let! _ := fixpoint sp entry in ret tt) (set_current sp a)
  end.
End Walk.

(** ** The call graph *)

Fixpoint count_callees (cs : list nat) (indegree : list nat) : option (list nat) :=
  match cs with
  | [] => Some indegree
  | c :: cs =>
      let* indegree := ir.modify indegree c S in
      count_callees cs indegree
  end.

(** The callees of a subprogram that is placed: those without another caller
    are ready. *)
Fixpoint place (cs : list nat) (st : list nat * list nat) : option (list nat * list nat) :=
  match cs with
  | [] => Some st
  | c :: cs =>
      let '(indegree, ready) := st in
      let* indegree := ir.modify indegree c Nat.pred in
      let* d := indegree !! c in
      place cs (indegree, if (d =? 0)%nat then c :: ready else ready)
  end.

Fixpoint topo_loop (fuel : nat) (sps : list Subprog) (indegree ready order : list nat) : option (list nat * list nat) :=
  match ready with
  | [] => Some (indegree, order)
  | sp :: ready =>
      match fuel with
      | O => None
      | S fuel =>
          let* s := sps !! sp in
          let* (indegree, ready) := place s.(callees) (indegree, ready) in
          topo_loop fuel sps indegree ready (order ++ [sp])
      end
  end.

Definition topological_order (sps : list Subprog) : option (Result (list nat) VerifyError) :=
  let n := length sps in
  let* indegree := count_callees (flat_map callees sps) (replicate n 0%nat) in
  let ready := reverse (filter (fun i => indegree !! i = Some 0%nat) (seq 0 n)) in
  let* (indegree, order) := topo_loop n sps indegree ready [] in
  if (length order =? n)%nat then Some (Ok order)
  else
    let stuck := match list_find (fun d => (0 < d)%nat) indegree with Some (i, _) => i | None => 0%nat end in
    let* s := sps !! stuck in
    Some (Err (VerifyError.Recursion s.(entry_slot))).

(** [own] of every subprogram plus the largest sum among its callees; the
    callers come first in [order]. *)
Fixpoint sum_callees (sps : list Subprog) (own : nat -> option Z) (order : list nat) (total : list Z) : option (list Z) :=
  match order with
  | [] => Some total
  | sp :: order =>
      let* total := sum_callees sps own order total in
      let* s := sps !! sp in
      let* cs := mapM (fun c => total !! c) s.(callees) in
      let* o := own sp in
      ir.modify total sp (fun _ => u32 (o + foldr Z.max 0 cs))
  end.

(** ** All subprograms *)

(** Sorted by instruction, one entry for each. *)
Definition by_insn {A} (key : A -> nat) (l : list A) : list A :=
  let sorted := merge_sort (H := fun x y => decide (key x <= key y)%nat) (fun x y => (key x <= key y)%nat) l in
  (fix go prev l := match l with
                    | [] => []
                    | x :: l => if bool_decide (prev = Some (key x)) then go prev l else x :: go (Some (key x)) l
                    end) None sorted.

Definition run (prog : Program) : option (Result VerifiedProgram VerifyError) :=
  let* r := build prog.(p_insns) in
  match r with
  | Err e => Some (Err e)
  | Ok ir =>
      let* r := topological_order ir.(subprogs) in
      match r with
      | Err e => Some (Err e)
      | Ok order =>
          let* live := liveness.liveness ir in
          let* prec := liveness.precision ir in
          let n := length ir.(subprogs) in
          let ctx_size := Z.of_nat (length prog.(ctx_fields)) * 8 in
          let* entries := ir.modify (replicate n None) 0 (fun _ => Some (state.entry ctx_size)) in
          let a := mk_analysis [] [] [] [] false entries (replicate n 0) 0 in
          let* r := foldM (fun _ sp => analyse_subprog ir prog live prec sp) order tt a in
          match r with
          | Err e => Some (Err e)
          | Ok (_, a) =>
              let own sp := align8 <$> a.(an_depth) !! sp in
              let* total := sum_callees ir.(subprogs) own order (replicate n 0) in
              let* nesting := sum_callees ir.(subprogs) (fun _ => Some 1) order (replicate n 1) in
              let* call_depth := nesting !! 0%nat in
              if MAX_CALL_DEPTH <? call_depth then Some (Err (VerifyError.CallDepth call_depth MAX_CALL_DEPTH))
              else
                let* needed := total !! 0%nat in
                if MAX_STACK_BYTES <? needed then Some (Err (VerifyError.StackTooDeep needed MAX_STACK_BYTES))
                else
                  let* infos := mapM (fun p => mk_info p.2.(entry_slot) <$> own p.1) (zip (seq 0 n) ir.(subprogs)) in
                  Some (Ok (mk_verified prog.(p_insns) prog.(p_context) needed DEFAULT_FUEL
                              (by_insn fs_insn a.(fault_sites)) (by_insn id a.(bare_access_sites))
                              (by_insn tl_insn a.(typed_load_sites))
                              infos
                              a.(uses_arena) (by_insn kc_insn a.(kfunc_calls))))
          end
      end
  end.

(** ** The entry point *)

Fixpoint check_kfuncs (ks : list KfuncDesc) : Result unit VerifyError :=
  match ks with
  | [] => Ok tt
  | k :: ks =>
      match kfunc.validate k with
      | Err e => Err (VerifyError.Kfunc e)
      | Ok _ => check_kfuncs ks
      end
  end.

Fixpoint check_ctx_fields (i : nat) (fs : list ArgDesc) : Result unit VerifyError :=
  match fs with
  | [] => Ok tt
  | f :: fs =>
      match kfunc.validate_type f (Z.of_nat i) with
      | Err e => Err (VerifyError.BadCtxField i e)
      | Ok _ => check_ctx_fields (S i) fs
      end
  end.

Fixpoint check_objects (earlier os : list ObjectDesc) : Result unit VerifyError :=
  match os with
  | [] => Ok tt
  | o :: os =>
      if negb (type_key.is_some o.(o_key)) || (o.(o_size) =? 0) ||
         existsb (fun f => (f.(f_size) =? 0) || (o.(o_size) <? f.(f_offset) + f.(f_size))) o.(o_fields) ||
         existsb (fun e => e.(o_key) =? o.(o_key)) earlier
      then Err (VerifyError.BadObjectDescriptor (length earlier))
      else check_objects (earlier ++ [o]) os
  end.

Definition verify (prog : Program) : option (Result VerifiedProgram VerifyError) :=
  if bool_decide (prog.(p_insns) = []) then Some (Err VerifyError.Empty)
  else
    match (let? _ := check_kfuncs prog.(kfuncs) in
           let? _ := check_ctx_fields 0 prog.(ctx_fields) in
           check_objects [] prog.(objects)) with
    | Err e => Some (Err e)
    | Ok _ => run prog
    end.
End verify.
