(* ===== verification/BpfStateSound.v ===== *)
(** What an abstract state denotes, and the soundness of its lattice
    operations: joining and widening lose no machine, and a state found
    included in another denotes no other machines. *)

From stdpp Require Import gmap.
From S2P Require Import Prelude Word BpfOpcode BpfInsn BpfEncode Tnum TnumSound BpfScalar ScalarSound ScalarOps BpfInterp.
From S2P Require Import BpfMachine BpfKfunc BpfState.
Import AbsValue.

Create HintDb state.

(** * Well-formed states *)

Definition vwf (v : AbsValue) : Prop :=
  match v with
  | NotInit => True
  | Scalar s => swf s
  | Ptr p => swf p.(p_off)
  end.

Record slot_wf (s : StackSlot) : Prop := {
  slot_init : is_u 8 s.(s_init);
  slot_value : vwf s.(s_value);
  slot_whole : s.(s_whole) = true -> s.(s_init) = 0xff
}.

Definition stack_wf (s : Stack) : Prop := forall i sl, s.(slots) !! i = Some sl -> slot_wf sl.

Record state_wf (st : AbsState) : Prop := {
  wf_regs_len : length st.(regs) = 11%nat;
  wf_regs : Forall vwf st.(regs);
  wf_stack : stack_wf st.(stack)
}.

Lemma EMPTY_wf : slot_wf slot.EMPTY.
Proof. split; simpl; [unfold is_u; lia | done | done]. Qed.

Lemma slot_lookup_wf s i : stack_wf s -> slot_wf (stack.slot s i).
Proof.
  intros W. unfold stack.slot. destruct (s.(slots) !! i) as [sl |] eqn:E; [by apply (W i) | apply EMPTY_wf].
Qed.

#[export] Hint Resolve swf_UNKNOWN EMPTY_wf slot_lookup_wf : state.

(** * Denotation *)

(** Where the regions of the reference machine start; it has no others. *)
Definition region_base (c : PtrClass) : option Z :=
  match c with
  | PtrClass.Stack => Some STACK_BYTES
  | PtrClass.Ctx => Some CTX_BASE
  | _ => None
  end.

Section Denote.
Context (ctx_len : Z).

(** A context pointer is read-only and its size is within the context. *)
Definition ctx_ok (p : PtrVal) : Prop :=
  p.(p_class) = PtrClass.Ctx ->
  p.(p_readonly) = true /\ match p.(p_size) with Some n => n <= ctx_len | None => True end.

Definition pmember (p : PtrVal) (x : Z) : Prop :=
  ctx_ok p /\ exists base o, region_base p.(p_class) = Some base /\ smember p.(p_off) o /\ x = u64 (base + o).

Definition vmember (v : AbsValue) (x : Z) : Prop :=
  match v with
  | NotInit => True
  | Scalar s => smember s x
  | Ptr p => pmember p x
  end.

(** The place of byte [n] of slot [i], and the word a slot holds. *)
Definition byte_at (i n : Z) : Z := STACK_BYTES - SLOT_BYTES * (i + 1) + n.
Definition word_at (m : Machine) (i : Z) : Z := le_value (take 8 (drop (Z.to_nat (byte_at i 0)) m.(m_stack))).

(** The slots of the frame. *)
Definition NUM_SLOTS : Z := STACK_BYTES / SLOT_BYTES.

(** A slot of a state without machines may lie outside the frame. *)
Record smatch (m : Machine) (i : Z) (s : StackSlot) : Prop := {
  sm_init : forall n, 0 <= n < 8 -> Z.testbit s.(s_init) n = true ->
              0 <= i < NUM_SLOTS /\ m.(m_defined) !! Z.to_nat (byte_at i n) = Some true;
  sm_value : s.(s_whole) = true -> vmember s.(s_value) (word_at m i)
}.

Record smember_state (st : AbsState) (m : Machine) : Prop := {
  ms_regs : Forall2 vmember st.(regs) m.(m_regs);
  ms_stack : forall i sl, st.(stack).(slots) !! i = Some sl -> smatch m i sl
}.

Lemma vmember_unknown x : is_u 64 x -> vmember UNKNOWN_SCALAR x.
Proof. apply smember_UNKNOWN. Qed.

(** * Joins *)

Lemma ptr_join_class a b p : ptr.join a b = Some p ->
  p.(p_class) = a.(p_class) /\ p.(p_class) = b.(p_class) /\ p.(p_off) = scalar.join a.(p_off) b.(p_off).
Proof.
  unfold ptr.join. destruct (bool_decide (p_class a <> p_class b)) eqn:E1; [done |].
  destruct (_ || _); [done |]. intros [= <-]. apply bool_decide_eq_false in E1. simpl.
  destruct (decide (p_class a = p_class b)); done.
Qed.

Lemma ptr_join_ctx a b p : ptr.join a b = Some p -> ctx_ok a \/ ctx_ok b -> ctx_ok p.
Proof.
  intros E H C. destruct (ptr_join_class a b p E) as (Ca & Cb & _). unfold ptr.join in E.
  destruct (_ || _); [done |]. simplify_eq/=.
  destruct H as [H | H]; destruct H as [-> S]; try congruence; rewrite ?orb_true_r; (split; [done |]);
    destruct (p_size a), (p_size b); try done; lia.
Qed.

Lemma pmember_ptr_join a b p x : ptr.join a b = Some p -> swf a.(p_off) -> swf b.(p_off) ->
  forall off, (forall o, smember a.(p_off) o \/ smember b.(p_off) o -> smember off o) ->
  pmember a x \/ pmember b x -> pmember (ptr.set_off p off) x.
Proof.
  intros E Wa Wb off S H. destruct (ptr_join_class a b p E) as (Ca & Cb & _). split.
  - assert (C : ctx_ok p) by (eapply ptr_join_ctx; [done |]; destruct H as [[] | []]; auto). exact C.
  - destruct H as [(_ & base & o & Hb & Ho & ->) | (_ & base & o & Hb & Ho & ->)]; exists base, o; simpl;
      rewrite ?Ca, <- ?Cb, ?Ca in *; auto.
Qed.

Lemma join_value a b : vwf a -> vwf b ->
  vwf (join a b) /\ forall x, is_u 64 x -> vmember a x \/ vmember b x -> vmember (join a b) x.
Proof.
  intros Wa Wb. assert (U : vwf UNKNOWN_SCALAR) by apply swf_UNKNOWN.
  assert (D : vwf UNKNOWN_SCALAR /\ forall x, is_u 64 x -> vmember a x \/ vmember b x -> vmember UNKNOWN_SCALAR x)
    by auto using vmember_unknown.
  destruct a as [| a | a], b as [| b | b]; try exact D; simpl; try (split; [done |]; tauto).
  - destruct (join_spec a b Wa Wb) as [W J]. split; [done |]. intros x _. apply J.
  - destruct (ptr.join a b) as [p |] eqn:E; [| exact D]. destruct (ptr_join_class a b p E) as (_ & _ & Eo).
    destruct (join_spec _ _ Wa Wb) as [W J]. split; [simpl; by rewrite Eo |]. intros x _ H.
    assert (K := pmember_ptr_join a b p x E Wa Wb _ J H). rewrite <- Eo in K. by destruct p.
Qed.

Lemma widen_value a b l : vwf a -> vwf b -> Forall (is_i 64) l ->
  vwf (widen a b l) /\ forall x, is_u 64 x -> vmember a x \/ vmember b x -> vmember (widen a b l) x.
Proof.
  intros Wa Wb Hl. destruct a as [| a | a], b as [| b | b]; try exact (join_value _ _ Wa Wb).
  - destruct (widen_spec a b l Wa Wb Hl) as [W J]. split; [done |]. intros x _. apply J.
  - simpl. unfold ptr.widen.
    destruct (ptr.join a b) as [p |] eqn:E; simpl; [| split; [apply swf_UNKNOWN |]; auto using smember_UNKNOWN].
    destruct (widen_spec _ _ l Wa Wb Hl) as [W K]. split; [done |]. intros x _. by apply (pmember_ptr_join a b).
Qed.

(** What a combination of slots must satisfy. *)
Definition covers (f : StackSlot -> StackSlot -> StackSlot) : Prop :=
  forall a b, slot_wf a -> slot_wf b -> slot_wf (f a b) /\
    (forall n, Z.testbit (f a b).(s_init) n = Z.testbit a.(s_init) n && Z.testbit b.(s_init) n) /\
    ((f a b).(s_whole) = true -> a.(s_whole) = true /\ b.(s_whole) = true /\
       forall x, is_u 64 x -> vmember a.(s_value) x \/ vmember b.(s_value) x -> vmember (f a b).(s_value) x).

Lemma covers_join : covers slot.join.
Proof.
  intros a b [Ia Va Na] [Ib Vb Nb]. destruct (join_value _ _ Va Vb) as [W J]. split; [| split].
  - split; simpl; [auto with word | by case_match |]. intros [Ea Eb]%andb_true_iff. by rewrite Na, Nb.
  - intros n. apply Z.land_spec.
  - simpl. intros [-> ->]%andb_true_iff. auto.
Qed.

Lemma covers_widen l : Forall (is_i 64) l -> covers (fun a b => slot.widen a b l).
Proof.
  intros Hl a b [Ia Va Na] [Ib Vb Nb]. destruct (widen_value _ _ l Va Vb Hl) as [W J]. split; [| split].
  - split; simpl; [auto with word | by case_match |]. intros [Ea Eb]%andb_true_iff. by rewrite Na, Nb.
  - intros n. apply Z.land_spec.
  - simpl. intros [-> ->]%andb_true_iff. auto.
Qed.

Lemma word_at_u64 m i : machine_ok m -> is_u 64 (word_at m i).
Proof. intros Hm. apply (le_value_take 8); [apply Forall_drop, (ok_stack m Hm) | lia]. Qed.

Lemma slot_match m s i : (forall j sl, s.(slots) !! j = Some sl -> smatch m j sl) -> smatch m i (stack.slot s i).
Proof.
  intros H. unfold stack.slot. destruct (s.(slots) !! i) as [sl |] eqn:E; [by apply H |]. split; simpl; [| done].
  intros n _. by rewrite Z.bits_0.
Qed.

Lemma combine_spec f a b : covers f -> stack_wf a -> stack_wf b ->
  stack_wf (stack.combine f a b) /\
  forall m, machine_ok m ->
    (forall i sl, a.(slots) !! i = Some sl -> smatch m i sl) \/ (forall i sl, b.(slots) !! i = Some sl -> smatch m i sl) ->
    forall i sl, (stack.combine f a b).(slots) !! i = Some sl -> smatch m i sl.
Proof.
  intros C Wa Wb. split.
  - intros i sl. simpl. rewrite map_lookup_imap. destruct (a.(slots) !! i) as [sa |] eqn:E; [| done]. simpl.
    case_decide; [done |]. intros [= <-]. apply C; [by apply (Wa i) | by apply slot_lookup_wf].
  - intros m Hm H i sl. simpl. rewrite map_lookup_imap. destruct (a.(slots) !! i) as [sa |] eqn:E; [| done]. simpl.
    pose proof (Wa i sa E) as Wsa. case_decide; [done |]. intros [= <-].
    destruct (C sa (stack.slot b i) Wsa (slot_lookup_wf b i Wb)) as (_ & I & V). split.
    + intros n Hn. rewrite I. intros [Ta Tb]%andb_true_iff.
      destruct H as [H | H]; [by apply (sm_init _ _ _ (H i sa E)) | by apply (sm_init _ _ _ (slot_match m b i H))].
    + intros Hw. destruct (V Hw) as (Na & Nb & J). apply J; [by apply word_at_u64 |].
      destruct H as [H | H]; [left; by apply (sm_value _ _ _ (H i sa E)) | right; by apply (sm_value _ _ _ (slot_match m b i H))].
Qed.

(** ** States *)

(** [s] is well formed and denotes the machines of [a] and of [b]. *)
Definition scover (a b s : AbsState) : Prop :=
  state_wf s /\ forall m, machine_ok m -> smember_state a m \/ smember_state b m -> smember_state s m.

Lemma scover_intro a b f g rs d : state_wf a -> state_wf b -> covers g -> length rs = 11%nat ->
  (forall i va vb, vwf va -> vwf vb ->
     vwf (f i va vb) /\ forall x, is_u 64 x -> vmember va x \/ vmember vb x -> vmember (f i va vb) x) ->
  (forall i v, rs !! i = Some v -> exists va vb, a.(regs) !! i = Some va /\ b.(regs) !! i = Some vb /\ v = f i va vb) ->
  scover a b (mk_state rs (stack.combine g a.(stack) b.(stack)) d).
Proof.
  intros [La Ra Sa] [Lb Rb Sb] Hg Hl Hf Hr. destruct (combine_spec g _ _ Hg Sa Sb) as [Ws Hs]. rewrite Forall_lookup in Ra, Rb.
  split.
  - split; simpl; [done | | done]. apply Forall_lookup. intros i v Hv. destruct (Hr i v Hv) as (va & vb & Ha & Hb & ->).
    apply Hf; eauto.
  - intros m Hm H. split; simpl.
    + apply Forall2_same_length_lookup_2; [by rewrite Hl, (ok_regs_len m Hm) |].
      intros i v x Hv Hx. destruct (Hr i v Hv) as (va & vb & Ha & Hb & ->). apply Hf; [eauto | eauto
        | by apply (Forall_lookup_1 _ _ _ _ (ok_m_regs m Hm) Hx) |].
      destruct H as [[H _] | [H _]]; [left; by apply (Forall2_lookup_lr _ _ _ _ _ _ H Ha)
        | right; by apply (Forall2_lookup_lr _ _ _ _ _ _ H Hb)].
    + apply Hs; [done |]. destruct H as [[_ H] | [_ H]]; auto.
Qed.

Lemma join_state a b : state_wf a -> state_wf b -> scover a b (state.join a b).
Proof.
  intros Wa Wb. apply (scover_intro a b (fun _ => AbsValue.join)); auto using covers_join.
  - rewrite length_zip_with, (wf_regs_len a Wa), (wf_regs_len b Wb). done.
  - intros _ va vb. apply join_value.
  - intros i v (va & vb & -> & Ha & Hb)%lookup_zip_with_Some. eauto.
Qed.

Lemma widen_state a b l p : state_wf a -> state_wf b -> Forall (is_i 64) l -> scover a b (state.widen a b l p).
Proof.
  intros Wa Wb Hl. destruct (join_state a b Wa Wb) as [Wj Hj]. set (j := state.join a b) in *.
  assert (C : scover a j (state.widen a b l p)).
  { apply (scover_intro a j (fun i va vb => AbsValue.widen va vb (if Z.testbit p (Z.of_nat i) then l else [])));
      auto using covers_widen.
    - rewrite length_imap, length_zip_with. change (state.join a b) with j.
      rewrite (wf_regs_len a Wa), (wf_regs_len j Wj). done.
    - intros i va vb Hva Hvb. apply widen_value; auto. by destruct (Z.testbit _ _).
    - intros i v Hv. rewrite list_lookup_imap in Hv. apply fmap_Some in Hv as ([va vb] & Hz & ->).
      apply lookup_zip_Some in Hz as [Ha Hb]. eauto. }
  destruct C as [W H]. split; [done |]. intros m Hm [Ha | Hb]; apply H; auto.
Qed.

Lemma subset_value a b x : vwf a -> vwf b -> AbsValue.is_subset_of a b = true -> vmember a x -> vmember b x.
Proof.
  destruct a as [| a | a], b as [| b | b]; simpl; try done; [intros; by eapply (subset_sound a b) |].
  unfold ptr.is_subset_of. rewrite !andb_true_iff, !bool_decide_eq_true.
  intros Wa Wb (((((((Ec & _) & _) & _) & So) & _) & R) & S) (C & base & o & Hb & Ho & ->). split.
  - intros E. rewrite <- Ec in E. destruct (C E) as [Ra Sz]. rewrite Ra in R. simpl in R. rewrite orb_false_r in R.
    split; [done |]. destruct (p_size a), (p_size b); try done. apply Z.leb_le in S. lia.
  - exists base, o. rewrite <- Ec. split; [done |]. split; [by eapply (subset_sound (p_off a)) |]. done.
Qed.

Lemma subset_slot m i a b : slot_wf a -> slot_wf b -> slot.is_subset_of a b = true -> smatch m i a -> smatch m i b.
Proof.
  intros Wa Wb. unfold slot.is_subset_of. rewrite andb_true_iff, Z.eqb_eq. intros [I V] [Ia Va]. split.
  - intros n Hn T. apply Ia; [done |]. assert (B : Z.testbit (Z.land (s_init b) (wnot 8 (s_init a))) n = false) by (rewrite I; apply Z.bits_0).
    rewrite Z.land_spec, T in B. rewrite testbit_wnot, (proj2 (Z.ltb_lt n 8)) in B by lia.
    by destruct (Z.testbit (s_init a) n).
  - intros W. rewrite W in V. simpl in V. apply andb_true_iff in V as [Wh V].
    eapply subset_value; [apply Wa | apply Wb | done | auto].
Qed.

Lemma subset_state a b m : state_wf a -> state_wf b -> state.is_subset_of a b = true -> smember_state a m -> smember_state b m.
Proof.
  intros Wa Wb. unfold state.is_subset_of. rewrite !andb_true_iff. intros [[[R S] _] _] [Ma Sa]. split.
  - assert (L : length (regs a) = length (regs b)) by (by rewrite (wf_regs_len a Wa), (wf_regs_len b Wb)).
    rewrite forallb_forall in R. apply Forall2_same_length_lookup_2; [rewrite <- L; by eapply Forall2_length |].
    intros i v x Hv Hx. destruct (lookup_lt_is_Some_2 (regs a) i) as [va Ha]; [rewrite L; by eapply lookup_lt_Some |].
    apply (subset_value va); [apply (Forall_lookup_1 _ _ _ _ (wf_regs a Wa) Ha) | apply (Forall_lookup_1 _ _ _ _ (wf_regs b Wb) Hv)
      | | by apply (Forall2_lookup_lr _ _ _ _ _ _ Ma Ha)].
    apply (R (va, v)). apply list_elem_of_In, list_elem_of_lookup. exists i. by rewrite lookup_zip_Some.
  - intros i sl Hi. unfold stack.is_subset_of in S. rewrite forallb_forall in S. pose proof (wf_stack b Wb i sl Hi) as Wsl.
    apply (subset_slot m i (stack.slot (stack a) i)); [apply slot_lookup_wf, Wa | done | | by apply slot_match].
    apply (S (i, sl)). by apply list_elem_of_In, elem_of_map_to_list.
Qed.
End Denote.
