(* ===== verification/BpfStackSound.v ===== *)
(** The abstract stack frame against the interpreter's stack: an abstract
    write covers the concrete one, and bytes the frame calls initialised are
    defined. *)

From stdpp Require Import gmap.
From S2P Require Import Prelude Word Slice BpfOpcode BpfInsn BpfEncode Tnum TnumSound BpfScalar ScalarSound ScalarOps BpfInterp.
From S2P Require Import BpfRefine ScalarInterp BpfMachine BpfKfunc BpfState BpfStateSound.
Import AbsValue.

(** * Slots and bytes *)

Definition in_frame (b : Z) : Prop := - MAX_STACK_BYTES <= b < 0.

Lemma slot_index_spec b : in_frame b ->
  stack.slot_index b = (- b - 1) / 8 /\ 0 <= stack.slot_index b < NUM_SLOTS /\
  stack.byte_in_slot b = b + 8 * (stack.slot_index b + 1) /\ 0 <= stack.byte_in_slot b < 8.
Proof.
  unfold in_frame, stack.byte_in_slot, stack.slot_index, NUM_SLOTS, STACK_BYTES, MAX_STACK_BYTES, SLOT_BYTES. intros Hb.
  rewrite (swrap_small 64 eq_refl (- b)), (swrap_small 64 eq_refl (- b - 1)) by (lia || (unfold is_i; simpl; lia)). rewrite Z.quot_div_nonneg by lia.
  change (16 * 1024 / 8) with 2048. pose proof (Z.div_mod (- b - 1) 8). pose proof (Z.mod_pos_bound (- b - 1) 8).
  rewrite (wrap_small 32 ((- b - 1) / 8)) by (unfold is_u; lia).
  rewrite (wrap_small 32 (b + _)) by (unfold is_u; lia). lia.
Qed.

Lemma slot_index_mono b c : in_frame b -> in_frame c -> b <= c -> stack.slot_index c <= stack.slot_index b.
Proof.
  intros Hb Hc H. destruct (slot_index_spec b Hb) as [-> _], (slot_index_spec c Hc) as [-> _]. apply Z.div_le_mono; lia.
Qed.

(** The byte [b] of the frame is byte [byte_in_slot b] of its slot. *)
Lemma byte_at_index b : in_frame b -> byte_at (stack.slot_index b) (stack.byte_in_slot b) = STACK_BYTES + b.
Proof. intros Hb. destruct (slot_index_spec b Hb) as (_ & _ & -> & _). unfold byte_at, SLOT_BYTES. lia. Qed.

Lemma byte_at_frame i n : 0 <= i < NUM_SLOTS -> 0 <= n < 8 ->
  exists b, in_frame b /\ byte_at i n = STACK_BYTES + b /\ stack.slot_index b = i /\ stack.byte_in_slot b = n.
Proof.
  intros Hi Hn. exists (- 8 * (i + 1) + n). unfold NUM_SLOTS, STACK_BYTES, MAX_STACK_BYTES, SLOT_BYTES in Hi.
  change (16 * 1024 / 8) with 2048 in Hi.
  assert (F : in_frame (- 8 * (i + 1) + n)) by (unfold in_frame, MAX_STACK_BYTES; lia).
  destruct (slot_index_spec _ F) as (E & _ & -> & _). unfold byte_at, SLOT_BYTES. split; [done |].
  assert (stack.slot_index (-8 * (i + 1) + n) = i) as ->; [| lia].
  rewrite E. symmetry. apply Z.div_unique with (7 - n); lia.
Qed.

Lemma byte_at_range i : 0 <= i < NUM_SLOTS -> 0 <= byte_at i 0.
Proof. unfold NUM_SLOTS, byte_at, STACK_BYTES, MAX_STACK_BYTES, SLOT_BYTES. change (16 * 1024 / 8) with 2048. lia. Qed.

(** * Writes *)

(** The machine [m'] is [m] after a write to a part of [lo, hi). *)
Record writes (m m' : Machine) (lo hi : Z) : Prop := {
  wr_defined : forall j, m.(m_defined) !! j = Some true -> m'.(m_defined) !! j = Some true;
  wr_frame : forall b, in_frame b -> ~ lo <= b < hi ->
    m'.(m_stack) !! Z.to_nat (STACK_BYTES + b) = m.(m_stack) !! Z.to_nat (STACK_BYTES + b)
}.

Definition defines (m : Machine) (lo hi : Z) : Prop :=
  forall b, lo <= b < hi -> m.(m_defined) !! Z.to_nat (STACK_BYTES + b) = Some true.


(** The bytes of an access. *)
Definition bytes_at (m : Machine) (off : Z) (size : Size) : list Z :=
  take (Z.to_nat (size_bytes size)) (drop (Z.to_nat (STACK_BYTES + off)) m.(m_stack)).

Lemma in_frame_addr off size : in_frame off -> off + size_bytes size <= 0 ->
  is_u 64 (STACK_BYTES + off) /\ STACK_BYTES + off < CTX_BASE /\ 0 <= STACK_BYTES + off.
Proof. unfold in_frame, is_u, STACK_BYTES, MAX_STACK_BYTES, CTX_BASE. lia. Qed.

Lemma store_in_frame m off size v : machine_ok m -> in_frame off -> off + size_bytes size <= 0 ->
  exists m', interp.store m (STACK_BYTES + off) size v = Some (Ok m') /\ m'.(m_regs) = m.(m_regs) /\
    m'.(m_ctx) = m.(m_ctx) /\ writes m m' off (off + size_bytes size) /\ defines m' off (off + size_bytes size) /\
    bytes_at m' off size = le_bytes (Z.to_nat (size_bytes size)) v.
Proof.
  intros Hm Hf Hn. destruct (in_frame_addr off size Hf Hn) as (U & C & P). pose proof (size_bytes_range size) as S.
  destruct (le_bytes_range (Z.to_nat (size_bytes size)) v) as [_ L].
  pose proof (ok_stack_len m Hm). pose proof (ok_defined_len m Hm). unfold in_frame in Hf.
  destruct (write_slice_some (m_stack m) (STACK_BYTES + off) (le_bytes (Z.to_nat (size_bytes size)) v)) as (s & Es & Ls & Ks); [lia | lia |].
  destruct (write_slice_some (m_defined m) (STACK_BYTES + off) (replicate (Z.to_nat (size_bytes size)) true)) as (d & Ed & Ld & Kd);
    [lia | rewrite length_replicate; lia |].
  unfold interp.store. rewrite (proj2 (Z.leb_gt _ _) C), slot_spec, (proj2 (Z.leb_le _ _)), take_le_bytes_eq, Es by (done || lia).
  simpl. rewrite Ed. simpl. eexists. split; [reflexivity |]. simpl. split; [done |]. split; [done |].
  rewrite length_replicate in Kd. split; [| split].
  - split; simpl.
    + intros j Hj. rewrite Kd. case_decide; [apply lookup_replicate_2; lia | done].
    + intros b Hb N. unfold in_frame, STACK_BYTES in *. rewrite Ks, decide_False; [done | lia].
  - intros b Hb. simpl. rewrite Kd, decide_True by lia. apply lookup_replicate_2. lia.
  - unfold bytes_at. simpl. pose proof (write_slice_read _ _ _ _ P Es) as R. rewrite slice_some, L, Z2Nat.id in R by lia.
    by injection R.
Qed.

Lemma load_in_frame m off size : machine_ok m -> in_frame off -> off + size_bytes size <= 0 ->
  defines m off (off + size_bytes size) ->
  interp.load m (STACK_BYTES + off) size = Some (Ok (le_value (bytes_at m off size))).
Proof.
  intros Hm Hf Hn D. destruct (in_frame_addr off size Hf Hn) as (U & C & P). pose proof (size_bytes_range size) as S.
  pose proof (ok_stack_len m Hm). pose proof (ok_defined_len m Hm). unfold in_frame in Hf.
  unfold interp.load, interp.ctx_load. rewrite (proj2 (Z.ltb_lt _ _) C), slot_spec, (proj2 (Z.leb_le _ _)) by (done || lia).
  rewrite !slice_some by lia. simpl.
  assert (F : forallb (fun d => d) (take (Z.to_nat (size_bytes size)) (drop (Z.to_nat (STACK_BYTES + off)) (m_defined m))) = true).
  { apply forallb_forall. intros d Hd. apply list_elem_of_In, list_elem_of_lookup in Hd as [k Hk]. rewrite lookup_slice in Hk.
    case_decide; [| done]. specialize (D (off + Z.of_nat k)). rewrite (Z.add_assoc STACK_BYTES), Z2Nat.inj_add, Nat2Z.id in D by lia.
    rewrite D in Hk by lia. by injection Hk. }
  rewrite F. done.
Qed.

(** ** Slots a write does not touch *)

Section Written.
Context (len : Z) (m m' : Machine) (lo hi : Z) (W : writes m m' lo hi).

Lemma word_kept i : 0 <= i < NUM_SLOTS -> (forall b, in_frame b -> lo <= b < hi -> stack.slot_index b <> i) ->
  word_at m' i = word_at m i.
Proof.
  intros Hi N. unfold word_at. f_equal. apply list_eq. intros k. rewrite !lookup_slice. case_decide; [| done].
  destruct (byte_at_frame i (Z.of_nat k) Hi ltac:(lia)) as (b & Fb & Eb & Ib & _).
  assert (Ek : (Z.to_nat (byte_at i 0) + k)%nat = Z.to_nat (STACK_BYTES + b)).
  { rewrite <- Eb. pose proof (byte_at_range i Hi). unfold byte_at in *. lia. }
  rewrite Ek. apply (wr_frame _ _ _ _ W b Fb). intros H'. by apply (N b).
Qed.

(** A whole slot lies in the frame. *)
Lemma whole_in_frame i sl : slot_wf sl -> smatch len m i sl -> sl.(s_whole) = true -> 0 <= i < NUM_SLOTS.
Proof. intros Wsl M Hw. apply (sm_init _ _ _ _ M 0); [lia |]. by rewrite (slot_whole sl Wsl Hw). Qed.

(** A slot that is not whole needs only its defined bytes. *)
Lemma smatch_kept i sl : slot_wf sl -> smatch len m i sl ->
  sl.(s_whole) = false \/ (forall b, in_frame b -> lo <= b < hi -> stack.slot_index b <> i) -> smatch len m' i sl.
Proof.
  intros Wsl M N. pose proof (whole_in_frame i sl Wsl M) as R. destruct M as [I V]. split.
  - intros n Hn T. destruct (I n Hn T). split; [done |]. by apply (wr_defined _ _ _ _ W).
  - intros Hw. destruct N as [N | N]; [by rewrite N in Hw |]. rewrite word_kept by auto. auto.
Qed.
End Written.

(** ** Byte-wise writes *)

Lemma note_depth_slots s off : (stack.note_depth s off).(slots) = s.(slots).
Proof. unfold stack.note_depth. by case_match. Qed.

Definition forgotten (s : Stack) (b : Z) : Prop := (stack.slot s (stack.slot_index b)).(s_whole) = false.

Lemma slot_insert s i j sl d : stack.slot (mk_stack (<[i := sl]> s.(slots)) d) j = if decide (i = j) then sl else stack.slot s j.
Proof. unfold stack.slot. simpl. case_decide; [subst; by rewrite lookup_insert_eq | by rewrite lookup_insert_ne]. Qed.

Lemma write_byte_wf s b : stack_wf s -> stack_wf (stack.write_byte s b).
Proof.
  intros Ws i sl. unfold stack.write_byte. simpl. intros [(<- & <-) | (N & H)]%lookup_insert_Some.
  - pose proof (slot_init _ (slot_lookup_wf s (stack.slot_index b) Ws)). split; simpl; auto with word; done.
  - by apply (Ws i).
Qed.

(** A slot only loses its value and gains bits of bytes that are written. *)
Definition degraded (bs : list Z) (s s' : Stack) : Prop :=
  forall i, let sl := stack.slot s i in let sl' := stack.slot s' i in
    (sl'.(s_whole) = true -> sl' = sl) /\
    (forall n, 0 <= n < 8 -> Z.testbit sl'.(s_init) n = true -> Z.testbit sl.(s_init) n = true \/ exists b, b ∈ bs /\ byte_at i n = STACK_BYTES + b).

Lemma write_byte_degraded s b : in_frame b -> degraded [b] s (stack.write_byte s b) /\ forgotten (stack.write_byte s b) b.
Proof.
  intros Hb. unfold degraded, forgotten, stack.write_byte. split.
  - intros i. rewrite slot_insert. case_decide as E; [| by auto]. simpl. split; [done |]. subst i.
    intros n Hn. rewrite Z.lor_spec, testbit_wshl, orb_true_iff by lia. intros [T | T]; [by left | right].
    exists b. split; [by apply list_elem_of_singleton |]. rewrite <- byte_at_index by done. f_equal.
    apply andb_true_iff in T as [_ T]. change 1 with (2 ^ 0) in T. rewrite Z.pow2_bits_eqb in T by lia. reflect. lia.
  - by rewrite slot_insert, decide_True.
Qed.

Lemma degraded_app bs cs s s1 s2 : degraded bs s s1 -> degraded cs s1 s2 -> degraded (bs ++ cs) s s2.
Proof.
  intros D1 D2 i. destruct (D1 i) as [K1 B1], (D2 i) as [K2 B2]. split.
  - intros Hw. pose proof (K2 Hw) as E2. rewrite E2 in Hw. rewrite E2. auto.
  - intros n Hn T. destruct (B2 n Hn T) as [T1 | (b & Hb & E)]; [| right; exists b; set_solver].
    destruct (B1 n Hn T1) as [T0 | (b & Hb & E)]; [by left | right; exists b; set_solver].
Qed.

Lemma forgotten_degraded bs s s' b : degraded bs s s' -> forgotten s b -> forgotten s' b.
Proof.
  intros D. unfold forgotten. destruct (D (stack.slot_index b)) as [K _]. intros F.
  destruct (s_whole (stack.slot s' _)) eqn:E; [| done]. by rewrite (K eq_refl), F in E.
Qed.

Lemma write_bytes_wf bs s : stack_wf s -> stack_wf (foldl stack.write_byte s bs).
Proof. revert s. induction bs as [| b bs IH]; intros s Ws; simpl; [done |]. by apply IH, write_byte_wf. Qed.

Lemma write_bytes_spec bs s : Forall in_frame bs ->
  let s' := foldl stack.write_byte s bs in degraded bs s s' /\ Forall (forgotten s') bs.
Proof.
  revert s. induction bs as [| b bs IH]; intros s F; simpl.
  - split; [| done]. intros i. auto.
  - apply Forall_cons in F as [Fb F]. destruct (write_byte_degraded s b Fb) as [D1 N1].
    destruct (IH (stack.write_byte s b) F) as (D2 & N2). split; [apply (degraded_app [b] bs _ _ _ D1 D2) |].
    apply Forall_cons. split; [by eapply forgotten_degraded | done].
Qed.

Lemma seqZ_in_frame off n : - MAX_STACK_BYTES <= off -> off + n <= 0 -> Forall in_frame (seqZ off n).
Proof. intros H1 H2. apply Forall_forall. intros b Hb%elem_of_seqZ. unfold in_frame. lia. Qed.

(** ** The frame after a write *)

(** The slots of the frame describe the machine's stack. *)
Definition stmatch (len : Z) (m : Machine) (s : Stack) : Prop :=
  forall i sl, s.(slots) !! i = Some sl -> smatch len m i sl.

Section Write.
Context (len : Z) (m m' : Machine) (s : Stack) (Ws : stack_wf s) (Hs : stmatch len m s).

Lemma write_bytes_match off n :
  - MAX_STACK_BYTES <= off -> off + n <= 0 -> writes m m' off (off + n) -> defines m' off (off + n) ->
  stmatch len m' (foldl stack.write_byte s (seqZ off n)).
Proof.
  intros H1 H2 W D i sl' E. destruct (write_bytes_spec _ s (seqZ_in_frame off n H1 H2)) as (Dg & Fg).
  destruct (Dg i) as [K B]. pose proof (slot_match len m s i Hs) as M. pose proof (slot_lookup_wf s i Ws) as Wsl.
  assert (Esl : stack.slot (foldl stack.write_byte s (seqZ off n)) i = sl') by (unfold stack.slot; by rewrite E).
  rewrite Esl in K, B. split.
  - intros k Hk T. destruct (B k Hk T) as [T0 | (b & Hb%elem_of_seqZ & Eb)].
    + destruct (sm_init _ _ _ _ M k Hk T0). split; [done |]. by apply (wr_defined _ _ _ _ W).
    + split; [| rewrite Eb; apply D; lia]. unfold byte_at, NUM_SLOTS, STACK_BYTES, MAX_STACK_BYTES, SLOT_BYTES in *.
      change (16 * 1024 / 8) with 2048. lia.
  - intros Hw. pose proof (K Hw) as E'. rewrite E' in Hw |- *. pose proof (whole_in_frame len m i _ Wsl M Hw) as Hi.
    rewrite (word_kept m m' _ _ W); [by apply (sm_value _ _ _ _ M) | done |]. intros b Fb Hb <-.
    rewrite Forall_forall in Fg. specialize (Fg b ltac:(apply elem_of_seqZ; lia)). unfold forgotten in Fg. congruence.
Qed.

(** An aligned word write tracks the value. *)
Lemma write_word_match off v x :
  in_frame off -> off mod 8 = 0 -> writes m m' off (off + 8) -> defines m' off (off + 8) ->
  bytes_at m' off Size.Dw = le_bytes 8 x -> is_u 64 x -> vmember len v x ->
  stmatch len m' (mk_stack (<[stack.slot_index off := mk_slot 0xff v true]> s.(slots)) s.(depth)).
Proof.
  intros Fo A W D Eb Ux Hx i sl. simpl. destruct (slot_index_spec off Fo) as (Ei & Hi & Hb & Rb).
  assert (Z8 : stack.byte_in_slot off = 0) by (rewrite Hb in *; pose proof (Z.div_mod off 8); lia).
  assert (Eo : byte_at (stack.slot_index off) 0 = STACK_BYTES + off) by (rewrite <- Z8; by apply byte_at_index).
  intros [(<- & <-) | (N & H)]%lookup_insert_Some.
  - split; simpl.
    + intros n Hn _. split; [done |]. replace (byte_at _ n) with (STACK_BYTES + (off + n)) by (unfold byte_at in *; lia). apply D. lia.
    + intros _. unfold word_at. rewrite Eo. change (vmember len v (le_value (bytes_at m' off Size.Dw))). rewrite Eb, le_value_bytes. by rewrite Z.mod_small.
  - apply (smatch_kept len m m' off (off + 8)); [done | by apply (Ws i) | by apply Hs | right].
    intros b Fb Hb' E. apply N. rewrite <- E. destruct (slot_index_spec b Fb) as (_ & _ & Eb' & Rb'). lia.
Qed.

(** A write somewhere in a range forgets the values of the slots there. *)
Lemma write_maybe_match lo hi s' :
  in_frame lo -> lo < hi <= 0 -> writes m m' lo hi -> stack.write_maybe s lo hi = Some s' ->
  stmatch len m' s'.
Proof.
  intros Fl Hh W. unfold stack.write_maybe. case_match; [done |]. intros [= <-] i sl. simpl.
  rewrite map_lookup_imap, note_depth_slots. destruct (s.(slots) !! i) as [sl0 |] eqn:E; [| done]. simpl. intros [= <-].
  pose proof (Hs i sl0 E) as M. pose proof (Ws i sl0 E) as Wsl.
  destruct ((_ <=? i) && _) eqn:R.
  - apply (smatch_kept len m m' lo hi); [done | by destruct Wsl | | by left]. destruct M. by split.
  - apply (smatch_kept len m m' lo hi); [done | done | done | right]. intros b Fb Hb <-. apply andb_false_iff in R.
    assert (F' : in_frame (hi - 1)) by (unfold in_frame in *; lia).
    pose proof (slot_index_mono b (hi - 1) Fb F' ltac:(lia)). pose proof (slot_index_mono lo b Fl Fb ltac:(lia)).
    destruct R as [R | R]; apply Z.leb_gt in R; lia.
Qed.
End Write.

(** * Reads *)

Lemma wanted_bit off end_ b : off <= b < end_ -> in_frame b -> 
  Z.testbit (stack.wanted off end_ (stack.slot_index b)) (stack.byte_in_slot b) = true.
Proof.
  intros Hb Fb. destruct (slot_index_spec b Fb) as (_ & _ & E & R). unfold stack.wanted, SLOT_BYTES.
  set (base := - (8) * (stack.slot_index b + 1)). set (n := stack.byte_in_slot b) in *.
  assert (B : b = base + n) by (unfold base; lia). clearbody base n.
  rewrite testbit_wrap, Z.land_spec, testbit_wnot by lia.
  assert (L : 0 <= Z.max off base - base <= n) by lia. assert (H : n < Z.min end_ (base + 8) - base <= 8) by lia.
  revert L H. generalize (Z.max off base - base), (Z.min end_ (base + 8) - base). intros lo hi L H.
  unfold wshl. rewrite !(wrap_small 16), !Z.shiftl_1_l by (rewrite Z.shiftl_1_l; split; [apply Z.pow_nonneg; lia | apply Z.pow_lt_mono_r; lia]).
  replace (2 ^ hi - 1) with (Z.ones hi) by (rewrite Z.ones_equiv; lia). replace (2 ^ lo - 1) with (Z.ones lo) by (rewrite Z.ones_equiv; lia).
  rewrite Z.ones_spec_low, Z.ones_spec_high by lia.
  rewrite (proj2 (Z.ltb_lt n 8)), (proj2 (Z.ltb_lt n 16)) by lia. done.
Qed.

Lemma initialized_defines len m s off n : stmatch len m s -> 0 < n ->
  stack.is_initialized s off n = true -> defines m off (off + n).
Proof.
  intros Hs Hn. unfold stack.is_initialized. rewrite (proj2 (Z.eqb_neq n 0)) by lia.
  destruct (I64_MAX <? n); [done |]. destruct (I64_MAX <? off + n); [done |].
  destruct (_ || _ || _) eqn:E; [done |]. rewrite !orb_false_iff, Z.leb_gt, !Z.ltb_ge in E. intros F b Hb.
  assert (Fb : in_frame b) by (unfold in_frame; lia). destruct (slot_index_spec b Fb) as (_ & _ & _ & R).
  rewrite forallb_forall in F. specialize (F (stack.slot_index b)). rewrite Z.eqb_eq in F.
  pose proof (slot_index_mono off b ltac:(unfold in_frame; lia) Fb ltac:(lia)).
  pose proof (slot_index_mono b (off + n - 1) Fb ltac:(unfold in_frame; lia) ltac:(lia)).
  rewrite <- byte_at_index by done. apply (sm_init len m _ _ (slot_match len m s (stack.slot_index b) Hs)); [done |].
  assert (T := wanted_bit off (off + n) b Hb Fb). rewrite <- F, Z.land_spec in T.
  - by apply andb_true_iff in T as [T _].
  - apply list_elem_of_In, elem_of_seqZ. lia.
Qed.

(** The value of a load is bounded by its size. *)
Lemma unsigned_bits_size size : swf (scalar.unsigned_bits (size_bits size)).
Proof. destruct size; first [apply swf_UNKNOWN | apply unsigned_bits_spec; unfold size_bits; simpl; lia]. Qed.

Lemma unsigned_bits_bytes size l : Forall (is_u 8) l ->
  smember (scalar.unsigned_bits (size_bits size)) (le_value (take (Z.to_nat (size_bytes size)) l)).
Proof.
  intros F. pose proof (le_value_range (take (Z.to_nat (size_bytes size)) l) (Forall_take _ _ _ F)) as R.
  assert (P : le_value (take (Z.to_nat (size_bytes size)) l) < 2 ^ size_bits size).
  { eapply Z.lt_le_trans; [apply R |]. apply Z.pow_le_mono_r; [lia |]. rewrite length_take.
    assert (size_bits size = 8 * size_bytes size) as -> by (by destruct size).
    pose proof (size_bytes_range size). lia. }
  destruct size; try (apply unsigned_bits_spec; unfold size_bits in *; simpl in *; lia). apply smember_UNKNOWN. split; [lia | done].
Qed.

Lemma read_match len m s off size : machine_ok m -> stack_wf s -> stmatch len m s -> in_frame off ->
  vwf (stack.read s off size) /\ vmember len (stack.read s off size) (le_value (bytes_at m off size)).
Proof.
  intros Hm Ws Hs Fo. unfold stack.read. pose proof (size_bytes_range size) as Sz.
  assert (Sb : size_bits size = 8 * size_bytes size) by (by destruct size).
  destruct (_ && _) eqn:E.
  - rewrite !andb_true_iff, bool_decide_eq_true in E. destruct E as [[[-> A] Hw] _].
    pose proof (slot_lookup_wf s (stack.slot_index off) Ws) as [_ Wv _]. split; [done |].
    apply Z.eqb_eq in A. apply Z.rem_mod_eq_0 in A; [| done]. unfold SLOT_BYTES in A.
    destruct (slot_index_spec off Fo) as (Ei & Hi & Hb & Rb).
    assert (Z8 : stack.byte_in_slot off = 0) by (rewrite Hb in *; pose proof (Z.div_mod off 8); lia).
    pose proof (sm_value len m _ _ (slot_match len m s (stack.slot_index off) Hs) Hw) as V. unfold word_at in V.
    rewrite <- Z8, byte_at_index in V by done. exact V.
  - split; [apply unsigned_bits_size |]. by apply unsigned_bits_bytes, Forall_drop, (ok_stack m Hm).
Qed.
