(* ===== verification/BpfTriple.v ===== *)
(** A program logic for the computations of the verifier, and the lemmas on
    registers and frames its transfer functions share. *)

From stdpp Require Import gmap.
From S2P Require Import Prelude Word BpfOpcode BpfInsn BpfEncode Tnum TnumSound BpfScalar ScalarSound ScalarOps BpfInterp.
From S2P Require Import BpfRefine ScalarInterp BpfMachine BpfKfunc BpfIr BpfLiveness BpfState BpfAnalysis BpfStateSound BpfStackSound.
Import AbsValue analysis.

(** * Updates keep states well formed *)

Lemma assign_wf st i v : state_wf st -> vwf v -> state_wf (assign st i v).
Proof. intros [L R S] V. split; simpl; [by rewrite length_insert | by apply Forall_insert | done]. Qed.

Lemma with_stack_wf st s : state_wf st -> stack_wf s -> state_wf (mk_state st.(regs) s st.(refs)).
Proof. by intros [L R S] Ws. Qed.

Lemma with_refs_wf st l : state_wf st -> state_wf (mk_state st.(regs) st.(stack) l).
Proof. by intros [L R S]. Qed.

Lemma map_regs_wf st (f : AbsValue -> AbsValue) l : state_wf st -> (forall v, vwf v -> vwf (f v)) ->
  state_wf (mk_state (f <$> st.(regs)) st.(stack) l).
Proof. intros [L R S] F. split; simpl; [by rewrite length_fmap | | done]. apply Forall_fmap. by eapply Forall_impl. Qed.

Lemma forget_wf s : slot_wf s -> slot_wf (slot.forget s).
Proof. intros [I V W]. by split. Qed.

Lemma clobber_wf s : stack_wf s -> stack_wf (stack.clobber s).
Proof.
  intros W i sl. simpl. rewrite lookup_fmap. destruct (s.(slots) !! i) as [sl0 |] eqn:E; [| done]. simpl. intros [= <-].
  by apply forget_wf, (W i).
Qed.

Lemma kill_wf dead st : state_wf st -> state_wf (state.kill dead st).
Proof.
  intros [L R S]. split; simpl; [by rewrite length_fmap | |].
  - apply Forall_fmap. eapply Forall_impl; [done |]. intros v Hv. simpl. by destruct (dead v).
  - intros i sl. simpl. rewrite lookup_fmap. destruct (slots (stack st) !! i) as [sl0 |] eqn:E; [| done]. simpl. intros [= <-].
    pose proof (S i sl0 E). destruct (dead _); [by apply forget_wf | done].
Qed.

Lemma clear_args_wf st : state_wf st -> state_wf (clear_args st).
Proof. intros W. unfold clear_args. simpl. repeat apply assign_wf; done. Qed.

Lemma note_depth_wf s off : stack_wf s -> stack_wf (stack.note_depth s off).
Proof. unfold stack_wf. by rewrite note_depth_slots. Qed.

Lemma write_wf s off size v : stack_wf s -> vwf v -> stack_wf (stack.write s off size v).
Proof.
  intros Ws Hv. unfold stack.write. pose proof (note_depth_wf s off Ws) as Wd. case_match.
  - intros i sl. simpl. intros [(<- & <-) | (N & H')]%lookup_insert_Some; [| by apply (Wd i)].
    split; simpl; [split; vm_compute; congruence | done | done].
  - by apply write_bytes_wf.
Qed.

Lemma write_unspecified_wf s off n : stack_wf s -> stack_wf (stack.write_unspecified s off n).
Proof. intros Ws. by apply write_bytes_wf, note_depth_wf. Qed.

Lemma write_maybe_wf s lo hi s' : stack_wf s -> stack.write_maybe s lo hi = Some s' -> stack_wf s'.
Proof.
  intros Ws. unfold stack.write_maybe. case_match; [done |]. intros [= <-] i sl. simpl.
  rewrite map_lookup_imap, note_depth_slots. destruct (s.(slots) !! i) as [sl0 |] eqn:E; [| done]. simpl. intros [= <-].
  pose proof (Ws i sl0 E). case_match; [by apply forget_wf | done].
Qed.

Lemma default_wf : stack_wf stack.default.
Proof. intros i sl. simpl. by rewrite lookup_empty. Qed.

Lemma read_wf s off size : stack_wf s -> vwf (stack.read s off size).
Proof. intros Ws. unfold stack.read. case_match; [by apply slot_lookup_wf | apply unsigned_bits_size]. Qed.

Lemma get_reg_wf st i v : state_wf st -> st.(regs) !! i = Some v -> vwf v.
Proof. intros W E. by apply (Forall_lookup_1 _ _ _ _ (wf_regs st W) E). Qed.

Create HintDb wf.
#[export] Hint Resolve assign_wf with_stack_wf with_refs_wf clobber_wf kill_wf clear_args_wf note_depth_wf default_wf read_wf get_reg_wf write_wf write_unspecified_wf
  wf_stack unsigned_bits_size : wf.
#[export] Hint Resolve swf_UNKNOWN swf_constant : wf.
#[export] Hint Extern 1 (vwf (Scalar _)) => simpl : wf.
#[export] Hint Extern 1 (vwf (Ptr _)) => simpl : wf.
#[export] Hint Extern 1 (vwf NotInit) => exact I : wf.
#[export] Hint Extern 1 (vwf UNKNOWN_SCALAR) => exact swf_UNKNOWN : wf.

(** * The logic *)

Section Spec.
Context (len : Z) (init : AbsState).

(** The entry states are well formed, and that of the main program covers the
    initial state. *)
Record an_ok (a : Analysis) : Prop := {
  an_wf : Forall (from_option state_wf True) a.(an_entry);
  an_main : exists e, a.(an_entry) !! 0%nat = Some (Some e) /\
    forall m, machine_ok m -> smember_state len init m -> smember_state len e m
}.

(** If the computation succeeds, its result satisfies [Q]. *)
Definition spec {A} (c : M A) (Q : A -> Prop) : Prop :=
  forall a x a', an_ok a -> c a = Some (Ok (x, a')) -> an_ok a' /\ Q x.

Lemma spec_ret {A} (x : A) (Q : A -> Prop) : Q x -> spec (ret x) Q.
Proof. by intros H a y a' O [= <- <-]. Qed.

Lemma spec_fail {A} e (Q : A -> Prop) : spec (fail e) Q.
Proof. by intros a y a' O H. Qed.

Lemma spec_bind {A B} (c : M A) (k : A -> M B) (P : A -> Prop) (Q : B -> Prop) :
  spec c P -> (forall x, P x -> spec (k x) Q) -> spec (bind c k) Q.
Proof.
  intros Hc Hk a y a' O. unfold bind. destruct (c a) as [[[x a1] |] |] eqn:E; try done.
  destruct (Hc a x a1 O E) as [O1 Px]. by apply Hk.
Qed.

Lemma spec_weaken {A} (c : M A) (P Q : A -> Prop) : spec c P -> (forall x, P x -> Q x) -> spec c Q.
Proof. intros Hc H a y a' O E. destruct (Hc a y a' O E). auto. Qed.

Lemma spec_expect {A} (o : option A) (Q : A -> Prop) : (forall x, o = Some x -> Q x) -> spec (expect o) Q.
Proof. intros H a y a' O. unfold expect. destruct o; [| done]. intros [= <- <-]. auto. Qed.

Lemma spec_lift {A} (r : Result A VerifyError) (Q : A -> Prop) : (forall x, r = Ok x -> Q x) -> spec (lift r) Q.
Proof. intros H. destruct r; [by apply spec_ret, H | apply spec_fail]. Qed.

Lemma spec_modify f (Q : unit -> Prop) : (forall a, (f a).(an_entry) = a.(an_entry)) -> Q tt -> spec (modify_ f) Q.
Proof. intros F H a [] a' [O1 O2] [= <-]. split; [| done]. split; by rewrite F. Qed.

Lemma spec_note_depth d : spec (note_depth d) (fun _ => True).
Proof. intros a x a' [O1 O2]. unfold note_depth. case_match; [| done]. by intros [= <- <-]. Qed.

Lemma spec_foldM {A B} (f : A -> B -> M A) (P : A -> Prop) l x :
  P x -> (forall x y, P x -> y ∈ l -> spec (f x y) P) -> spec (foldM f l x) P.
Proof.
  revert x. induction l as [| y l IH]; intros x Hx H; simpl; [by apply spec_ret |].
  apply (spec_bind _ _ P); [apply H; [done | by left] |]. intros x' Hx'. apply IH; [done |]. intros. apply H; [done | by right].
Qed.

(** Joining into the entry state of a callee. *)
Lemma spec_join_entry callee e : state_wf e -> spec (join_entry callee e) (fun _ => True).
Proof.
  intros We a x a' [O1 (e0 & E0 & C0)]. unfold join_entry. destruct (a.(an_entry) !! callee) as [prev |] eqn:E; [| done].
  intros [= <- <-]. split; [| done].
  pose proof (Forall_lookup_1 _ _ _ _ O1 E) as Wp. split; simpl.
  - apply Forall_insert; [done |]. simpl. destruct prev as [p |]; [| done]. by apply (join_state len).
  - destruct (decide (callee = 0%nat)) as [-> | N].
    + rewrite list_lookup_insert_eq by (by eapply lookup_lt_Some). eexists. split; [done |]. simplify_eq/=.
      intros m Hm H. apply join_state; auto.
    + rewrite list_lookup_insert_ne by done. eauto.
Qed.

(** ** Registers *)

Lemma spec_get st at_ r : spec (get st at_ r) (fun v => st.(regs) !! reg_usize r = Some v /\ v <> NotInit).
Proof.
  eapply spec_bind; [by apply spec_expect with (Q := fun v => st.(regs) !! reg_usize r = Some v) |].
  intros v E. destruct v; [apply spec_fail | by apply spec_ret | by apply spec_ret].
Qed.

Lemma spec_get_scalar st at_ r : spec (get_scalar st at_ r) (fun s => st.(regs) !! reg_usize r = Some (Scalar s)).
Proof.
  eapply spec_bind; [apply spec_get |]. intros v [E _]. destruct v; [apply spec_fail | by apply spec_ret | apply spec_fail].
Qed.

Lemma spec_get_ptr st at_ r : spec (get_ptr st at_ r) (fun p => st.(regs) !! reg_usize r = Some (Ptr p)).
Proof.
  eapply spec_bind; [apply spec_get |]. intros v [E _]. destruct v; [apply spec_fail | apply spec_fail | by apply spec_ret].
Qed.

Lemma spec_set st at_ r v : spec (set st at_ r v) (fun st' => st' = assign st (reg_usize r) v).
Proof.
  unfold set. case_match; [apply spec_fail |]. eapply spec_bind; [by apply spec_expect with (Q := fun _ => True) |].
  intros _ _. by apply spec_ret.
Qed.

(** What an operand is. *)
Definition source_is (st : AbsState) (src : Source) (wide : bool) (v : AbsValue) : Prop :=
  match src with
  | Source.Reg r => st.(regs) !! reg_usize r = Some v /\ v <> NotInit
  | Source.Imm k => v = Scalar (scalar.constant (if wide then k else u32 k))
  end.

Lemma spec_source st at_ src wide : spec (source st at_ src wide) (source_is st src wide).
Proof. destruct src; [by apply spec_ret | apply spec_get]. Qed.

Lemma spec_scalar_source st at_ src wide :
  spec (scalar_source st at_ src wide) (fun s => source_is st src wide (Scalar s)).
Proof.
  eapply spec_bind; [apply spec_source |]. intros v E. destruct v; [apply spec_fail | by apply spec_ret | apply spec_fail].
Qed.
End Spec.
