(* ===== verification/BpfArithSound.v ===== *)
(** The transfer functions of the verifier against the interpreter: from a
    machine the state denotes, an instruction the verifier accepts does not
    trap, and reaches a machine the new state denotes. *)

From stdpp Require Import gmap.
From S2P Require Import Prelude Word BpfOpcode BpfInsn BpfEncode Tnum TnumSound BpfScalar ScalarSound ScalarOps BpfInterp.
From S2P Require Import BpfRefine ScalarInterp BpfMachine BpfKfunc BpfIr BpfLiveness BpfState BpfAnalysis BpfStateSound BpfStackSound BpfTriple.
Import AbsValue analysis.

Lemma wrap_add_r w x y : wrap w (x + wrap w y) = wrap w (x + y).
Proof. by rewrite Z.add_comm, wrap_add_l, Z.add_comm. Qed.

Lemma wrap_sub_r w x y : wrap w (x - wrap w y) = wrap w (x - y).
Proof. unfold wrap. apply Zminus_mod_idemp_r. Qed.

Section Sound.
Context (len : Z).

(** * Flows *)

(** The step does not trap, and continues in a machine of [st]. *)
Definition flow_in (m : Machine) (st : AbsState) (f : interp.Flow) : Prop :=
  match f with
  | interp.Continue _ m' => m'.(m_ctx) = m.(m_ctx) /\ smember_state len st m'
  | interp.Return (Ok _) _ | interp.Return (Err Unsupported) _ => True
  | interp.Return _ _ => False
  end.

Definition sound_flow (m : Machine) (st : AbsState) (o : option interp.Flow) : Prop := exists f, o = Some f /\ flow_in m st f.

Lemma sound_unsupported m st m' : sound_flow m st (Some (interp.Return (Err Unsupported) m')).
Proof. by eexists. Qed.

(** * Registers *)

Section Machine.
Context (m : Machine) (Hm : machine_ok m) (st : AbsState) (Hst : smember_state len st m).

Lemma reg_member i v : st.(regs) !! i = Some v -> exists x, m.(m_regs) !! i = Some x /\ vmember len v x /\ is_u 64 x.
Proof using Hm Hst.
  intros E. destruct (Forall2_lookup_l _ _ _ _ _ (ms_regs _ _ _ Hst) E) as (x & Ex & V). exists x. split_and!; [done | done |].
  by apply (Forall_lookup_1 _ _ _ _ (ok_m_regs m Hm) Ex).
Qed.

Lemma source_member src wide v : source_ok src -> source_is st src wide v ->
  exists x, interp.val m src wide = Some x /\ vmember len v x /\ is_u 64 x.
Proof using Hm Hst.
  destruct src as [k | r]; simpl; intros Hs; [intros -> | intros [E _]; by apply reg_member].
  eexists. split; [done |]. assert (K : is_i 64 k) by (apply (is_i_mono 32); [lia | done]).
  destruct wide; simpl; [split; [by apply smember_constant | auto with word] |].
  assert (R : is_i 64 (u32 k)) by (pose proof (wrap_range 32 eq_refl k); unfold is_i, is_u in *; simpl in *; lia).
  pose proof (smember_constant (u32 k) R) as S. rewrite (wrap_small 64) in S; [split; [done |] |];
    pose proof (wrap_range 32 eq_refl k); unfold is_u in *; lia.
Qed.

Lemma sound_assign next dst v x : reg_ok dst -> vmember len v x ->
  sound_flow m (assign st (reg_usize dst) v) (let* m' := interp.set_reg m dst x in Some (interp.Continue next m')).
Proof using Hm Hst.
  intros Hr V. unfold interp.set_reg. destruct (get_reg_total m dst Hm Hr) as (w & -> & _). eexists. split; [done |].
  destruct Hst as [R S]. split; [done |]. split; simpl; [by apply Forall2_insert |].
  intros i sl E. destruct (S i sl E). by split.
Qed.
End Machine.


(** ** Arithmetic *)

Section Step.
Context (init : AbsState) (ctx : Machine -> Prop).

(** The new state is well formed and covers the instruction. *)
Definition covered (op : Decoded) (st st' : AbsState) : Prop :=
  state_wf st' /\
  forall next m, machine_ok m -> ctx m -> smember_state len st m -> sound_flow m st' (interp.exec op next m).

Lemma source_wf st src wide v : state_wf st -> source_ok src -> source_is st src wide v -> vwf v.
Proof.
  intros W. destruct src as [k | r]; simpl; [intros Hk -> | intros _ [E _]; eauto with wf]. apply swf_constant.
  destruct wide; [apply (is_i_mono 32); [lia | done] |]. pose proof (wrap_range 32 eq_refl k). unfold is_i, is_u in *. simpl in *. lia.
Qed.

(** Pointer arithmetic in one region. *)
Lemma pointer_add p b x y : swf p.(p_off) -> swf b -> pmember len p x -> smember b y ->
  pmember len (ptr.set_off p (scalar.add p.(p_off) b)) (u64 (x + y)) /\
  pmember len (ptr.set_off p (scalar.sub p.(p_off) b)) (u64 (x - y)).
Proof.
  intros Wp Wb (C & base & o & Hb & Ho & ->) Hy. split.
  - split; [exact C |]. exists base, (u64 (o + y)). split; [done |]. split; [by apply add_sound |].
    rewrite wrap_add_l, wrap_add_r. f_equal. lia.
  - split; [exact C |]. exists base, (u64 (o - y)). split; [done |]. split; [by apply sub_sound |].
    rewrite wrap_sub_l, wrap_add_r. f_equal. lia.
Qed.

Lemma pointer_diff p q x y : swf p.(p_off) -> swf q.(p_off) -> p.(p_class) = q.(p_class) -> pmember len p x -> pmember len q y ->
  smember (scalar.sub p.(p_off) q.(p_off)) (u64 (x - y)).
Proof.
  intros Wp Wq E (_ & base & o & Hb & Ho & ->) (_ & base' & o' & Hb' & Ho' & ->). rewrite E in Hb. simplify_eq.
  replace (u64 (u64 (base + o) - u64 (base + o'))) with (u64 (o - o')); [by apply sub_sound |].
  rewrite wrap_sub_l, wrap_sub_r. f_equal. lia.
Qed.

Lemma no_pointer p x : region_base p.(p_class) = None -> ~ pmember len p x.
Proof. intros E (_ & base & o & Hb & _). congruence. Qed.

(** The three cases of an arithmetic instruction that are accepted. *)
Definition alu_result (st : AbsState) (wide : bool) (op : AluOp) (dst : Reg) (src : Source) (out : AbsValue) : Prop :=
  exists d s, st.(regs) !! reg_usize dst = Some d /\ source_is st src wide s /\
  match d, s with
  | Scalar a, Scalar b => out = Scalar (scalar.alu a op wide b)
  | Ptr p, _ =>
      p.(p_class) = PtrClass.Arena /\ vwf out \/
      wide = true /\
      ((exists b, s = Scalar b /\ op = AluOp.Add /\ out = Ptr (ptr.set_off p (scalar.add p.(p_off) b))) \/
       (exists b, s = Scalar b /\ op = AluOp.Sub /\ out = Ptr (ptr.set_off p (scalar.sub p.(p_off) b))) \/
       (exists q, s = Ptr q /\ op = AluOp.Sub /\ p.(p_class) = q.(p_class) /\ out = Scalar (scalar.sub p.(p_off) q.(p_off))))
  | _, _ => False
  end.

Lemma spec_alu st at_ wide op dst src : state_wf st -> source_ok src ->
  spec len init (alu st at_ wide op dst src)
    (fun st' => exists out, alu_result st wide op dst src out /\ st' = assign st (reg_usize dst) out).
Proof.
  intros W Hs. eapply spec_bind; [apply spec_get |]. intros d [Ed _]. eapply spec_bind; [apply spec_source |]. intros s Es.
  eapply (spec_bind _ _ _ _ (alu_result st wide op dst src)).
  2: { intros out Ho. eapply spec_weaken; [apply spec_set |]. intros st' ->. by exists out. }
  pose proof (get_reg_wf _ _ _ W Ed) as Wd. pose proof (source_wf _ _ _ _ W Hs Es) as Ws.
  destruct d as [| a | p]; [apply spec_fail | |].
  - destruct s as [| b | q]; [apply spec_fail | | apply spec_fail]. apply spec_ret. exists (Scalar a), (Scalar b). done.
  - case_bool_decide as Ec.
    { eapply spec_bind; [by apply (spec_modify _ _ _ (fun _ => True)) |]. intros _ _. apply spec_ret. exists (Ptr p), s.
      split_and!; [done | done |]. left. split; [done |]. simpl in *. destruct op, s; auto with wf swf. }
    destruct s as [| b | q]; [apply spec_fail | |].
    + destruct wide; [| apply spec_fail]. simpl. case_match; [| apply spec_fail].
      destruct op; try apply spec_fail; apply spec_ret; exists (Ptr p), (Scalar b); split_and!; try done; right; split; eauto 10.
    + destruct wide; [| apply spec_fail]. simpl. destruct op; try apply spec_fail. simpl.
      case_bool_decide; [| apply spec_fail]. simpl. case_match; [| apply spec_fail]. apply spec_ret.
      exists (Ptr p), (Ptr q). split_and!; try done. right. split; eauto 10.
Qed.

Lemma step_alu st at_ wide op dst src : state_wf st -> reg_ok dst -> source_ok src ->
  spec len init (alu st at_ wide op dst src) (covered (Decoded.Alu wide op dst src) st).
Proof.
  intros W Hr Hs. eapply spec_weaken; [by apply spec_alu |]. intros st' (out & (d & s & Ed & Es & H) & ->).
  pose proof (get_reg_wf _ _ _ W Ed) as Wd. pose proof (source_wf _ _ _ _ W Hs Es) as Ws.
  assert (Wo : vwf out).
  { destruct d as [| a | p]; [done | destruct s; try done; subst; by apply alu_wf |].
    destruct H as [[_ ?] | (_ & [(b & -> & _ & ->) | [(b & -> & _ & ->) | (q & -> & _ & _ & ->)]])]; simpl in *; auto with swf. }
  split; [auto with wf |]. intros next m Hm _ Hst. destruct (reg_member m Hm st Hst _ _ Ed) as (x & Ex & Vx & Ux).
  destruct (source_member m Hm st Hst src wide s Hs Es) as (y & Ey & Vy & Uy). cbn [interp.exec]. rewrite Ey. unfold interp.get_reg. rewrite Ex.
  apply sound_assign; [done | done | done |].
  destruct d as [| a | p]; [done | |].
  - destruct s as [| b | q]; try done. subst out. destruct wide; [by apply alu_wide_sound | by apply alu_narrow_sound].
  - destruct H as [[Ec _] | (-> & [(b & -> & -> & ->) | [(b & -> & -> & ->) | (q & -> & -> & Ec & ->)]])].
    + destruct (no_pointer p x); [by rewrite Ec | done].
    + by apply (pointer_add p b x y).
    + by apply (pointer_add p b x y).
    + by apply pointer_diff.
Qed.

(** One register from itself. *)
Lemma step_unary op st at_ dst f g : state_wf st -> reg_ok dst -> sound1 f g ->
  (forall next m, interp.exec op next m =
     let* d := interp.get_reg m dst in let* m := interp.set_reg m dst (g d) in Some (interp.Continue next m)) ->
  spec len init (let! d := get_scalar st at_ dst in set st at_ dst (Scalar (f d))) (covered op st).
Proof.
  intros W Hr F Ex. eapply spec_bind; [apply spec_get_scalar |]. intros d Ed. eapply spec_weaken; [apply spec_set |]. intros st' ->.
  destruct (F d (get_reg_wf _ _ _ W Ed)) as [Wf Sf]. split; [auto with wf |]. intros next m Hm _ Hst.
  destruct (reg_member m Hm st Hst _ _ Ed) as (x & Er & Vx & Ux). rewrite Ex. unfold interp.get_reg at 1. rewrite Er. simpl.
  apply sound_assign; auto. by apply Sf.
Qed.

Lemma step_mov st at_ wide dst src se : state_wf st -> reg_ok dst -> source_ok src -> se ∈ [None; Some 8; Some 16; Some 32] ->
  spec len init
    (let! v := source st at_ src wide in
     set st at_ dst (match v with
                     | Ptr p => if wide && bool_decide (se = None) then Ptr p else UNKNOWN_SCALAR
                     | Scalar s => Scalar (scalar.mov_op s wide se)
                     | NotInit => NotInit
                     end)) (covered (Decoded.Mov wide dst src se) st).
Proof.
  intros W Hr Hs Hse. eapply spec_bind; [apply spec_source |]. intros v Ev. eapply spec_weaken; [apply spec_set |]. intros st' ->.
  assert (Pos : forall bits, se = Some bits -> 0 < bits) by (by apply mov_width_pos).
  pose proof (source_wf _ _ _ _ W Hs Ev) as Wv.
  assert (Wo : vwf (match v with
                    | Ptr p => if wide && bool_decide (se = None) then Ptr p else UNKNOWN_SCALAR
                    | Scalar s => Scalar (scalar.mov_op s wide se)
                    | NotInit => NotInit
                    end)).
  { destruct v as [| s | p]; [done | by apply (mov_op_sound wide se Pos) |]. destruct (_ && _); [done | apply swf_UNKNOWN]. }
  split; [auto with wf |]. intros next m Hm _ Hst. destruct (source_member m Hm st Hst src wide v Hs Ev) as (x & Ex & Vx & Ux).
  cbn [interp.exec]. rewrite Ex. simpl. apply sound_assign; auto. destruct v as [| s | p]; [done | by apply (mov_op_sound wide se Pos) |].
  destruct wide; [case_bool_decide; [by subst |] |]; apply vmember_unknown;
    by apply (unary_words x Ux _ ByteOrder.Little 0 se).
Qed.

Lemma step_div st at_ wide signed dst src : state_wf st -> reg_ok dst -> source_ok src ->
  spec len init
    (let! d := get_scalar st at_ dst in
     let! s := scalar_source st at_ src wide in
     let! q := expect (scalar.div_op d wide signed s) in
     set st at_ dst (Scalar q)) (covered (Decoded.Div wide signed dst src) st).
Proof.
  intros W Hr Hs. eapply spec_bind; [apply spec_get_scalar |]. intros d Ed. eapply spec_bind; [apply spec_scalar_source |]. intros s Es.
  eapply spec_bind; [by apply spec_expect with (Q := fun q => scalar.div_op d wide signed s = Some q) |]. intros q Eq.
  eapply spec_weaken; [apply spec_set |]. intros st' ->.
  pose proof (get_reg_wf _ _ _ W Ed) as Wd. pose proof (source_wf _ _ _ _ W Hs Es) as Ws. simpl in Wd, Ws.
  split; [apply assign_wf; [done | exact (div_op_wf d wide signed s q Wd Ws Eq)] |]. intros next m Hm _ Hst.
  destruct (reg_member m Hm st Hst _ _ Ed) as (x & Er & Vx & Ux). destruct (source_member m Hm st Hst src wide _ Hs Es) as (y & Ey & Vy & Uy).
  cbn [interp.exec]. rewrite Ey. unfold interp.get_reg. rewrite Er. apply sound_assign; auto.
  destruct (div_mod_sound wide signed d s x y Wd Ws Vx Vy) as [(q' & Eq' & _ & M) _]. rewrite Eq in Eq'. by injection Eq' as <-.
Qed.

Lemma step_mod st at_ wide signed dst src : state_wf st -> reg_ok dst -> source_ok src ->
  spec len init
    (let! d := get_scalar st at_ dst in
     let! s := scalar_source st at_ src wide in
     set st at_ dst (Scalar (scalar.mod_op d wide signed s))) (covered (Decoded.Mod wide signed dst src) st).
Proof.
  intros W Hr Hs. eapply spec_bind; [apply spec_get_scalar |]. intros d Ed. eapply spec_bind; [apply spec_scalar_source |]. intros s Es.
  eapply spec_weaken; [apply spec_set |]. intros st' ->.
  pose proof (get_reg_wf _ _ _ W Ed) as Wd. pose proof (source_wf _ _ _ _ W Hs Es) as Ws. simpl in Wd, Ws.
  split; [apply assign_wf; [done | exact (mod_op_wf d wide signed s Wd Ws)] |]. intros next m Hm _ Hst.
  destruct (reg_member m Hm st Hst _ _ Ed) as (x & Er & Vx & Ux). destruct (source_member m Hm st Hst src wide _ Hs Es) as (y & Ey & Vy & Uy).
  cbn [interp.exec]. rewrite Ey. unfold interp.get_reg. rewrite Er. apply sound_assign; auto.
  by destruct (div_mod_sound wide signed d s x y Wd Ws Vx Vy) as [_ [_ M]].
Qed.
End Step.
End Sound.
