(* ===== verification/BpfAccessSound.v ===== *)
(** Memory accesses of the verifier against the interpreter: an access the
    verifier accepts lies in its region, a load returns a value the state
    describes, and a store leaves a frame the new state describes. *)

From stdpp Require Import gmap.
From S2P Require Import Prelude Word BpfOpcode BpfInsn BpfEncode Tnum TnumSound BpfScalar ScalarSound ScalarOps BpfInterp.
From S2P Require Import BpfRefine ScalarInterp BpfMachine BpfKfunc BpfIr BpfLiveness BpfState BpfAnalysis BpfStateSound BpfStackSound BpfTriple.
From S2P Require Import BpfArithSound.
Import AbsValue analysis.

(** * Addresses *)

(** The abstract offset of an access. *)
Definition offset_of (p : PtrVal) (off : Z) : BpfScalar.Scalar := scalar.add p.(p_off) (scalar.constant off).

(** What an accepted access says of its offset. *)
Definition access_ok (p : PtrVal) (off : Z) (size : Size) (write : bool) (r : Resolved) : Prop :=
  let addr := offset_of p off in
  write && p.(p_readonly) = false /\
  match p.(p_class) with
  | PtrClass.Stack =>
      in_frame addr.(min) /\ addr.(max) + size_bytes size <= 0 /\
      r = match scalar.as_const addr with
          | Some a => Resolved.Const a
          | None => Resolved.StackRange addr.(min) (addr.(max) + size_bytes size)
          end
  | PtrClass.Ctx => exists region a, p.(p_size) = Some region /\ 0 <= addr.(min) /\
      sat_add (u64 addr.(max)) (size_bytes size) <= region /\ scalar.as_const addr = Some a /\ r = Resolved.Const a
  | _ => True
  end.

Section Access.
Context (len : Z) (init : AbsState) (prog : Program).

(** Computations that only record something. *)
Ltac spec_records :=
  repeat first
    [ apply spec_fail
    | apply spec_ret; exact I
    | eapply spec_bind; [apply (spec_modify _ _ _ (fun _ => True)); done | intros _ _]
    | case_match ].

Lemma spec_access st at_ r off size write fault_dst :
  spec len init (access prog st at_ r off size write fault_dst)
    (fun res => exists p, st.(regs) !! reg_usize r = Some (Ptr p) /\ access_ok p off size write res).
Proof.
  eapply spec_bind; [apply spec_get_ptr |]. intros p Ep. destruct (p_nullable p || _); [apply spec_fail |].
  destruct (write && p_readonly p) eqn:Ew; [apply spec_fail |]. cbv zeta. fold (offset_of p off).
  eapply spec_weaken; [| intros res Hres; exists p; split; [exact Ep |]; split; [exact Ew |]; exact Hres].
  destruct (p_class p) eqn:Ec; try solve [unfold typed_field_load; spec_records].
  - destruct (I64_MAX <? _); [apply spec_fail |]. destruct (_ || _) eqn:E; [apply spec_fail |].
    eapply spec_bind; [apply (spec_modify _ _ _ (fun _ => True)); done | intros _ _]. apply spec_ret.
    rewrite !orb_false_iff, Z.leb_gt, !Z.ltb_ge in E. split_and!; [unfold in_frame; lia | lia | done].
  - destruct (p_size p) as [region |] eqn:Es; [| apply spec_fail]. destruct (_ || _) eqn:E; [apply spec_fail |].
    destruct (scalar.as_const (offset_of p off)) as [a |] eqn:Ea; [| apply spec_fail].
    eapply spec_bind; [apply (spec_modify _ _ _ (fun _ => True)); done | intros _ _]. apply spec_ret.
    rewrite orb_false_iff, !Z.ltb_ge in E. exists region, a. split_and!; [done | lia | lia | done | done].
Qed.

(** The address of an access is its region's base plus a member of the
    abstract offset. *)
Lemma address_of p off x : swf p.(p_off) -> is_i 16 off -> pmember len p x ->
  exists base d, region_base p.(p_class) = Some base /\ ctx_ok len p /\
    (offset_of p off).(min) <= d <= (offset_of p off).(max) /\ u64 (x + u64 off) = u64 (base + d) /\
    forall a, scalar.as_const (offset_of p off) = Some a -> d = a.
Proof.
  intros Wp Ho (C & base & o & Hb & Hm & ->). assert (Ho' : is_i 64 off) by (apply (is_i_mono 16); [lia | done]).
  destruct (add_sound _ _ Wp (swf_constant off Ho')) as [Wa Sa]. specialize (Sa o (u64 off) Hm (smember_constant off Ho')).
  exists base, (as_i64 (u64 (o + u64 off))). split_and!; [done | done | by apply smember_bounds | by apply smember_bounds | |].
  - destruct (swrap_eq_mod 64 eq_refl (u64 (o + u64 off))) as [k ->]. rewrite Z.add_assoc, wrap_add_mul, (wrap_add_l 64 (base + o)), (wrap_add_r 64 base). f_equal. lia.
  - intros a Ea. destruct (as_const_spec _ a Wa Ea) as [Ha E]. rewrite (E _ Sa). by apply as_i64_u64.
Qed.

(** ** Loads *)

(** The words of the context have the types the program declares; pointers
    have no representation in the reference machine. *)
Definition field_holds (f : ArgDesc) (w : Z) : Prop :=
  is_u 64 w /\
  match f.(a_kind) with
  | TypeKind.Void => True
  | TypeKind.Scalar bits signed => smember (if signed then scalar.signed_bits bits else scalar.unsigned_bits bits) w
  | TypeKind.Ptr _ _ => False
  end.

Definition ctx_holds (m : Machine) : Prop :=
  Z.of_nat (length m.(m_ctx)) = len /\
  exists words, m.(m_ctx) = flat_map (le_bytes 8) words /\ Forall2 field_holds prog.(ctx_fields) words.

Lemma flat_words words i w : words !! i = Some w -> take 8 (drop (8 * i) (flat_map (le_bytes 8) words)) = le_bytes 8 w.
Proof.
  revert i. induction words as [| v words IH]; intros i E; [done |]. cbn [flat_map].
  assert (L : length (le_bytes 8 v) = 8%nat) by apply le_bytes_range.
  destruct i as [| i]; [injection E as ->; rewrite Nat.mul_0_r, drop_0, take_app_le, take_ge by lia; done |].
  rewrite drop_app_ge by lia. rewrite L. replace (8 * S i - 8)%nat with (8 * i)%nat by lia. by apply IH.
Qed.

Lemma load_ctx m a f : ctx_holds m -> 0 <= a -> Z.rem a 8 = 0 -> a + 8 <= len -> a <= I64_MAX ->
  prog.(ctx_fields) !! Z.to_nat (Z.quot a 8) = Some f ->
  exists w, interp.load m (CTX_BASE + a) Size.Dw = Some (Ok w) /\ field_holds f w.
Proof.
  intros (Hl & words & Ew & F) Ha R Hb Hi Ef. destruct (Forall2_lookup_l _ _ _ _ _ F Ef) as (w & Eww & Hw). exists w. split; [| done].
  unfold interp.load, interp.ctx_load. rewrite (proj2 (Z.ltb_ge _ _)) by lia. replace (CTX_BASE + a - CTX_BASE) with a by lia.
  rewrite Hl. simpl size_bytes. rewrite (proj2 (Z.ltb_lt (a + 8) (2 ^ 64))), (proj2 (Z.leb_le (a + 8) len)) by lia. simpl andb.
  do 2 f_equal. rewrite Ew. apply Z.rem_mod_eq_0 in R; [| done]. rewrite Z.quot_div_nonneg in Eww by lia.
  replace (Z.to_nat a) with (8 * Z.to_nat (a / 8))%nat by (pose proof (Z.div_mod a 8); lia).
  change (Z.to_nat 8) with 8%nat. rewrite (flat_words words _ w Eww), le_value_bytes. apply Z.mod_small. apply Hw.
Qed.

(** What a load leaves in its destination, before sign extension. *)
Definition loaded (st : AbsState) (p : PtrVal) (size : Size) (r : Resolved) (v : AbsValue) : Prop :=
  match p.(p_class), r with
  | PtrClass.Stack, Resolved.Const a =>
      stack.is_initialized st.(stack) a (size_bytes size) = true /\ v = stack.read st.(stack) a size
  | PtrClass.Stack, Resolved.StackRange lo hi =>
      stack.is_initialized st.(stack) lo (u64 (hi - lo)) = true /\ v = Scalar (scalar.unsigned_bits (size_bits size))
  | PtrClass.Ctx, Resolved.Const a => exists at_, ctx_field prog at_ a size = Ok v
  | _, _ => v = Scalar (scalar.unsigned_bits (size_bits size))
  end.

Definition extended (v : AbsValue) (se : bool) (size : Size) : AbsValue :=
  match v, se with
  | Scalar s, true => Scalar (scalar.sign_extend s (size_bits size))
  | v, _ => v
  end.

Lemma spec_load st at_ size se dst src off :
  spec len init (load prog st at_ size se dst src off)
    (fun st' => exists p r v, st.(regs) !! reg_usize src = Some (Ptr p) /\ access_ok p off size false r /\
       loaded st p size r v /\ st' = assign st (reg_usize dst) (extended v se size)).
Proof.
  eapply spec_bind; [apply spec_get_ptr |]. intros p Ep. eapply spec_bind; [apply spec_access |].
  intros r (p' & Ep' & Ha). rewrite Ep in Ep'. injection Ep' as <-.
  eapply (spec_bind _ _ _ _ (loaded st p size r)).
  2: { intros v Hv. eapply spec_weaken; [apply spec_set |]. intros st' ->. by exists p, r, v. }
  unfold loaded. destruct (p_class p), r; try (by apply spec_ret).
  - destruct (stack.is_initialized _ _ _); [by apply spec_ret | apply spec_fail].
  - destruct (stack.is_initialized _ _ _); [| apply spec_fail]. simpl. eapply spec_bind; [apply spec_note_depth |]. intros _ _. by apply spec_ret.
  - apply spec_lift. intros v Ev. by exists at_.
Qed.

(** The concrete load. *)
Lemma load_member st m p off size r v x :
  state_wf st -> machine_ok m -> ctx_holds m -> smember_state len st m -> swf p.(p_off) -> is_i 16 off ->
  pmember len p x -> access_ok p off size false r -> loaded st p size r v ->
  exists y, interp.load m (u64 (x + u64 off)) size = Some (Ok y) /\ vmember len v y /\ is_u 64 y.
Proof.
  intros W Hm Hc Hst Wp Ho Hx [_ Ha] Hv. destruct (address_of p off x Wp Ho Hx) as (base & d & Hb & Hk & Hd & -> & Hcst).
  pose proof (size_bytes_range size) as Hn. unfold loaded in Hv. destruct (p_class p) eqn:Ec; try done; injection Hb as <-.
  - destruct Ha as (Hf & Hh & ->).
    assert (Fd : in_frame d) by (unfold in_frame in *; lia). assert (Hd' : d + size_bytes size <= 0) by lia.
    rewrite wrap_small by (by eapply in_frame_addr).
    pose proof (ms_stack len st m Hst) as Hs.
    assert (Df : defines m d (d + size_bytes size) /\ vmember len v (le_value (bytes_at m d size))).
    { destruct (scalar.as_const (offset_of p off)) as [a |].
      - rewrite <- (Hcst a eq_refl) in Hv. destruct Hv as [Hi ->]. split; [by eapply initialized_defines; [| lia |] |].
        apply read_match; [done | apply W | done | done].
      - destruct Hv as [Hi ->]. rewrite wrap_small in Hi by (unfold is_u, in_frame, MAX_STACK_BYTES in *; lia). split.
        + intros b Hb'. eapply (initialized_defines len m (stack st)); [done | | exact Hi |]; lia.
        + apply unsigned_bits_bytes, Forall_drop, (ok_stack m Hm). }
    exists (le_value (bytes_at m d size)). split_and!; [apply load_in_frame; [done | done | done | apply Df] | apply Df |].
    apply le_value_take; [apply Forall_drop, (ok_stack m Hm) | lia].
  - destruct Ha as (region & a & Es & H0 & Hr & Ea & ->). rewrite (Hcst a Ea) in *. destruct Hv as [at_ Hv].
    unfold ctx_field in Hv. destruct (bool_decide (size <> Size.Dw) || _) eqn:E; [done |].
    apply orb_false_iff in E as [E1 E2]. apply bool_decide_eq_false, dec_stable in E1 as ->. apply negb_false_iff, Z.eqb_eq in E2.
    destruct (ctx_fields prog !! Z.to_nat (u64 (Z.quot a 8))) as [f |] eqn:Ef; [| done]. injection Hv as <-.
    assert (Wo : swf (offset_of p off)) by (apply add_wf; [done | apply swf_constant, (is_i_mono 16); [lia | done]]).
    pose proof (swf_max _ Wo) as Rm. unfold is_i in Rm. simpl in Rm. simpl size_bytes in *.
    destruct (Hk Ec) as [_ Hs]. rewrite Es in Hs. unfold sat_add in Hr. rewrite wrap_small in Hr by (unfold is_u; lia).
    rewrite wrap_small in Ef by (rewrite Z.quot_div_nonneg by lia; unfold is_u; pose proof (Z.div_le_upper_bound a 8 a); pose proof (Z.div_pos a 8); lia).
    destruct (load_ctx m a f Hc) as (w & El & Uw & Hw); [lia | done | lia | lia | done |].
    exists w. rewrite wrap_small by (unfold is_u, CTX_BASE; lia). split_and!; [done | | done].
    unfold value_of. by destruct (a_kind f).
Qed.

Lemma extended_member v se size y : vwf v -> (forall p, v = Ptr p -> se = false) -> vmember len v y -> is_u 64 y ->
  vwf (extended v se size) /\ vmember len (extended v se size) (if se then interp.sext y (size_bits size) else y).
Proof.
  intros Wv Hp Vy Uy. destruct se; [| by destruct v]. destruct v as [| s | p]; [done | | by specialize (Hp p eq_refl)].
  destruct (sext_sound (size_bits size) ltac:(destruct size; vm_compute; reflexivity) s Wv) as [W S]. split; [done | by apply S].
Qed.

Lemma extended_wf v se size : vwf v -> vwf (extended v se size).
Proof.
  intros Wv. destruct v as [| s | p], se; try done.
  by apply (sext_sound (size_bits size) ltac:(destruct size; vm_compute; reflexivity) s).
Qed.

(** The types of the context fields have the widths [verify] checks. *)
Definition field_ok (f : ArgDesc) : Prop := forall r, vwf (value_of f r).

Lemma loaded_wf st p size r v : state_wf st -> Forall field_ok prog.(ctx_fields) -> loaded st p size r v -> vwf v.
Proof.
  intros W F. unfold loaded. assert (U : vwf (Scalar (scalar.unsigned_bits (size_bits size)))) by apply unsigned_bits_size.
  destruct (p_class p), r; try (by intros ->); try (intros [_ ->]; auto with wf).
  intros [at_ H]. unfold ctx_field in H. destruct (_ || _); [done |].
  destruct (ctx_fields prog !! _) as [f |] eqn:E; [| done]. injection H as <-. by apply (Forall_lookup_1 _ _ _ _ F E).
Qed.

(** A pointer is only loaded by a whole word. *)
Lemma loaded_pointer st p size r v q : loaded st p size r v -> v = Ptr q -> size = Size.Dw.
Proof.
  unfold loaded. destruct (p_class p), r; try (by intros -> [=]); try (by intros [_ ->] [=]).
  - intros [_ ->]. unfold stack.read. destruct (bool_decide (size = Size.Dw)) eqn:E; [by apply bool_decide_eq_true in E | done].
  - intros [at_ H] _. unfold ctx_field in H. destruct (bool_decide (size <> Size.Dw)) eqn:E; [done |].
    by apply bool_decide_eq_false, dec_stable in E.
Qed.

Lemma step_load st at_ size se dst src off :
  state_wf st -> Forall field_ok prog.(ctx_fields) -> decoded_ok (Decoded.Load size se dst src off) ->
  spec len init (load prog st at_ size se dst src off) (covered len ctx_holds (Decoded.Load size se dst src off) st).
Proof.
  intros W F (Hd & Hs & Ho & Hse). eapply spec_weaken; [apply spec_load |]. intros st' (p & r & v & Ep & Ha & Hv & ->).
  pose proof (loaded_wf st p size r v W F Hv) as Wv. split; [auto using extended_wf with wf |]. intros next m Hm Hc Hst.
  destruct (reg_member len m Hm st Hst _ _ Ep) as (x & Ex & Vx & Ux).
  destruct (load_member st m p off size r v x W Hm Hc Hst (get_reg_wf _ _ _ W Ep) Ho Vx Ha Hv) as (y & El & Vy & Uy).
  cbn [interp.exec]. unfold interp.get_reg at 1. rewrite Ex. cbv zeta. rewrite El. apply sound_assign; [done | done | done |].
  apply extended_member; [done | | done | done]. intros q Eq. destruct se; [| done]. destruct Hse. split; [done |]. by eapply loaded_pointer.
Qed.

(** ** Stores *)

(** The frame after an accepted write of [v]. *)
Definition written (st : AbsState) (p : PtrVal) (size : Size) (r : Resolved) (v : AbsValue) (st' : AbsState) : Prop :=
  match p.(p_class), r with
  | PtrClass.Stack, Resolved.Const a => st' = mk_state st.(regs) (stack.write st.(stack) a size v) st.(refs)
  | PtrClass.Stack, Resolved.StackRange lo hi =>
      exists s, stack.write_maybe st.(stack) lo hi = Some s /\ st' = mk_state st.(regs) s st.(refs)
  | _, _ => st' = st
  end.

Lemma spec_write_stack st p size r v : spec len init (write_stack st p.(p_class) r size v) (written st p size r v).
Proof.
  unfold write_stack, written. destruct (p_class p), r; try (by apply spec_ret).
  - eapply spec_bind; [apply spec_note_depth |]. intros _ _. by apply spec_ret.
  - eapply spec_bind; [by apply spec_expect with (Q := fun s => stack.write_maybe (stack st) lo hi = Some s) |]. intros s Es.
    eapply spec_bind; [apply spec_note_depth |]. intros _ _. apply spec_ret. by exists s.
Qed.

Lemma written_wf st p size r v st' : state_wf st -> vwf v -> written st p size r v st' -> state_wf st'.
Proof.
  intros W Wv. unfold written. destruct (p_class p), r; try (by intros ->).
  - intros ->. auto with wf.
  - intros (s & Es & ->). apply with_stack_wf; [done |]. eapply write_maybe_wf; [apply (wf_stack st W) | done].
Qed.

Lemma writes_mono m m' lo hi lo' hi' : writes m m' lo hi -> lo' <= lo -> hi <= hi' -> writes m m' lo' hi'.
Proof. intros [D F] L H. split; [done |]. intros b Fb N. apply F; [done | lia]. Qed.

(** The concrete store. *)
Lemma store_member st m p off size r v st' x y :
  state_wf st -> machine_ok m -> smember_state len st m -> swf p.(p_off) -> is_i 16 off ->
  pmember len p x -> access_ok p off size true r -> written st p size r v st' -> vmember len v y -> is_u 64 y ->
  exists m', interp.store m (u64 (x + u64 off)) size y = Some (Ok m') /\ m'.(m_ctx) = m.(m_ctx) /\ smember_state len st' m'.
Proof.
  intros W Hm [Mr Ms] Wp Ho Hx [Hro Ha] Hw Vy Uy. destruct (address_of p off x Wp Ho Hx) as (base & d & Hb & Hk & Hd & -> & Hcst).
  pose proof (size_bytes_range size) as Hn. unfold written in Hw. destruct (p_class p) eqn:Ec; try done; injection Hb as <-.
  2: { destruct (Hk Ec) as [R _]. by rewrite R in Hro. }
  destruct Ha as (Hf & Hh & ->). assert (Fd : in_frame d) by (unfold in_frame in *; lia).
  assert (Hd' : d + size_bytes size <= 0) by lia. rewrite wrap_small by (by eapply in_frame_addr).
  destruct (store_in_frame m d size y Hm Fd Hd') as (m' & -> & Er & Ex & Wr & Df & Eb). exists m'. split_and!; [done | done |].
  destruct (scalar.as_const (offset_of p off)) as [a |].
  - rewrite <- (Hcst a eq_refl) in Hw. subst st'. split; simpl; [by rewrite Er |]. unfold stack.write.
    destruct (bool_decide (size = Size.Dw) && _) eqn:E.
    + apply andb_true_iff in E as [E1%bool_decide_eq_true E2%Z.eqb_eq]. subst size. apply Z.rem_mod_eq_0 in E2; [| done].
      intros i sl. simpl. rewrite note_depth_slots. by apply (write_word_match len m m' (stack st) (wf_stack st W) Ms d v y).
    + apply (write_bytes_match len m m'); [apply note_depth_wf, (wf_stack st W) | | unfold in_frame in Fd; lia | lia | done | done].
      unfold stmatch. by rewrite note_depth_slots.
  - destruct Hw as (s & Es & ->). split; simpl; [by rewrite Er |].
    apply (write_maybe_match len m m' (stack st) (wf_stack st W) Ms (min (offset_of p off)) (max (offset_of p off) + size_bytes size));
      [done | unfold in_frame in *; lia | | done]. eapply writes_mono; [exact Wr | lia | lia].
Qed.

Lemma spec_store st at_ size dst off src : state_wf st -> source_ok src ->
  spec len init (store prog st at_ size dst off src)
    (fun st' => exists v v' p r, source_is st src true v /\ vwf v' /\ (forall y, is_u 64 y -> vmember len v y -> vmember len v' y) /\
       st.(regs) !! reg_usize dst = Some (Ptr p) /\ access_ok p off size true r /\ written st p size r v' st').
Proof.
  intros W Hs. eapply spec_bind; [apply spec_source |]. intros v Ev. cbv zeta. set (v' := match v with Ptr _ => _ | _ => _ end).
  eapply spec_bind; [apply spec_get_ptr |]. intros p Ep. eapply spec_bind; [apply spec_access |].
  intros r (p' & Ep' & Ha). rewrite Ep in Ep'. injection Ep' as <-. eapply spec_weaken; [apply spec_write_stack |].
  intros st' Hw. exists v, v', p, r. pose proof (source_wf _ _ _ _ W Hs Ev) as Wv. subst v'.
  split_and!; [done | | | done | done | done].
  - destruct v; try done. case_match; [apply swf_UNKNOWN | done].
  - intros y Uy Vy. destruct v; try done. case_match; [by apply vmember_unknown | done].
Qed.

Lemma step_store st at_ size dst off src : state_wf st -> decoded_ok (Decoded.Store size dst off src) ->
  spec len init (store prog st at_ size dst off src) (covered len ctx_holds (Decoded.Store size dst off src) st).
Proof.
  intros W (Hd & Ho & Hs). eapply spec_weaken; [by apply spec_store |].
  intros st' (v & v' & p & r & Ev & Wv' & Hv & Ep & Ha & Hw). split; [by eapply written_wf |]. intros next m Hm _ Hst.
  destruct (reg_member len m Hm st Hst _ _ Ep) as (x & Ex & Vx & Ux). destruct (source_member len m Hm st Hst src true v Hs Ev) as (y & Ey & Vy & Uy).
  destruct (store_member st m p off size r v' st' x y W Hm Hst (get_reg_wf _ _ _ W Ep) Ho Vx Ha Hw (Hv y Uy Vy) Uy) as (m' & Es & Ec & Hm').
  cbn [interp.exec]. unfold interp.get_reg at 1. rewrite Ex. cbv zeta. rewrite Ey, Es. by eexists.
Qed.

(** An atomic leaves a scalar of its size. *)
Lemma wf_atomic st at_ size op dst src off : state_wf st ->
  spec len init (atomic prog st at_ size op dst src off) state_wf.
Proof.
  intros W. pose proof (unsigned_bits_size size) as Wu. unfold atomic. eapply spec_bind; [apply spec_get_scalar |]. intros _ _.
  eapply (spec_bind _ _ _ _ (fun _ => True)).
  { destruct op; try (by apply spec_ret). eapply spec_bind; [apply spec_get_scalar |]. intros _ _. by apply spec_ret. }
  intros _ _. eapply spec_bind; [apply spec_get_ptr |]. intros p Ep. eapply spec_bind; [apply spec_access |]. intros r _.
  eapply spec_bind; [apply spec_write_stack |]. intros st1 Hw. apply written_wf in Hw; [| done | done].
  eapply (spec_bind _ _ _ _ state_wf).
  { destruct (writes_src op); [| by apply spec_ret]. eapply spec_weaken; [apply spec_set |]. intros ? ->. auto with wf. }
  intros st2 W2. destruct op; try (by apply spec_ret). eapply spec_weaken; [apply spec_set |]. intros ? ->. auto with wf.
Qed.
End Access.
