(* ===== verification/BpfStepSound.v ===== *)
(** One instruction of the verifier: calls keep the state well formed, and
    every instruction is covered; and both edges of a conditional jump. *)

From stdpp Require Import gmap.
From S2P Require Import Prelude Word BpfOpcode BpfInsn BpfEncode Tnum TnumSound BpfScalar ScalarSound ScalarOps BpfInterp.
From S2P Require Import BpfRefine ScalarInterp BpfMachine BpfKfunc BpfIr BpfLiveness BpfState BpfAnalysis BpfStateSound BpfStackSound BpfTriple.
From S2P Require Import BpfArithSound BpfAccessSound.
Import AbsValue analysis.

Section Step.
Context (len : Z) (init : AbsState) (ir : Ir) (prog : Program) (live : Masks).

(** What [verify] checks of the descriptors before the analysis. *)
Record program_ok : Prop := {
  po_fields : Forall field_ok prog.(ctx_fields);
  po_kfuncs : Forall (fun k => field_ok k.(k_ret)) prog.(kfuncs)
}.

(** * Calls *)

Lemma frame_pointer_wf : vwf (Ptr ptr.frame_pointer).
Proof. apply swf_constant. auto with word. Qed.

Lemma region_wf c n : vwf (Ptr (ptr.region c n)).
Proof. apply swf_constant. auto with word. Qed.

Lemma fresh_wf : state_wf (mk_state (<[10%nat := Ptr ptr.frame_pointer]> (replicate 11 NotInit)) stack.default []).
Proof.
  split; simpl; [done | | apply default_wf]. by repeat constructor.
Qed.

Lemma wf_pass_arg at_ v : vwf v -> spec len init (pass_arg at_ v) (fun p => vwf p.1).
Proof.
  intros Wv. unfold pass_arg. destruct v as [| s | p]; try (by apply spec_ret). case_bool_decide; [| by apply spec_ret].
  destruct (scalar.as_const _); [| apply spec_fail]. cbv zeta. case_match; [apply spec_fail |].
  eapply spec_bind; [apply spec_note_depth |]. intros _ _. apply spec_ret. apply region_wf.
Qed.

Lemma wf_call_subprog st at_ next off : state_wf st -> spec len init (call_subprog ir st at_ next off) state_wf.
Proof.
  intros W. unfold call_subprog. cbv zeta. destruct (list_find _ _) as [[callee s] |]; [| apply spec_fail].
  eapply (spec_bind _ _ _ _ (fun p => state_wf p.1)).
  { apply spec_foldM; [apply fresh_wf |]. intros acc k Wa _.
    eapply spec_bind; [by apply spec_expect with (Q := fun v => st.(regs) !! k = Some v) |]. intros v Ev.
    eapply spec_bind; [exact (wf_pass_arg at_ v (get_reg_wf _ _ _ W Ev)) |]. intros [v' b] Wv. apply spec_ret. simpl in *. auto with wf. }
  intros [e b] We. eapply spec_bind; [by apply spec_join_entry |]. intros _ _. apply spec_ret.
  apply clear_args_wf, assign_wf; [| apply swf_UNKNOWN]. destruct b; auto with wf.
Qed.

Lemma wf_check_mem_arg st at_ k arg p : state_wf st -> spec len init (check_mem_arg st at_ k arg p) state_wf.
Proof.
  intros W. unfold check_mem_arg. destruct (negb _); [apply spec_fail |]. destruct (reg_new _) as [r |]; [| apply spec_fail].
  eapply spec_bind; [apply spec_get |]. intros v _. destruct v as [| len' | q]; try apply spec_fail.
  destruct (scalar.unsigned_bounds len') as [lo len_max]. cbv zeta.
  destruct (p_class p); try apply spec_fail.
  - destruct (scalar.as_const _) as [off |]; [| apply spec_fail]. destruct (_ || _); [apply spec_fail |].
    destruct (arg_desc.has _ _).
    + eapply spec_bind; [apply spec_note_depth |]. intros _ _. apply spec_ret. auto with wf.
    + case_match; [apply spec_fail | by apply spec_ret].
  - destruct (p_size p); [| apply spec_fail]. repeat (case_match; try apply spec_fail). by apply spec_ret.
  - destruct (p_size p); [| apply spec_fail]. repeat (case_match; try apply spec_fail). by apply spec_ret.
  - destruct (p_size p); [| apply spec_fail]. repeat (case_match; try apply spec_fail). by apply spec_ret.
  - repeat (case_match; try apply spec_fail). eapply spec_bind; [apply (spec_modify _ _ _ (fun _ => True)); done | intros _ _]. by apply spec_ret.
Qed.

Lemma wf_check_ptr_arg st at_ desc k arg kind key r p : state_wf st ->
  spec len init (check_ptr_arg st at_ desc k arg kind key r p) state_wf.
Proof.
  intros W. unfold check_ptr_arg. case_match; [apply spec_fail |]. case_match; [apply spec_fail |]. case_match; [apply spec_fail |].
  cbv zeta. eapply (spec_bind _ _ _ _ state_wf).
  { destruct (bool_decide (kind = PtrKind.Mem)).
    - destruct (arg_desc.consumes_in_arg_position arg); [| by apply wf_check_mem_arg]. case_match; [apply spec_fail | by apply spec_ret].
    - case_match; [apply spec_fail | by apply spec_ret]. }
  intros st1 W1. eapply (spec_bind _ _ _ _ (fun _ => True)).
  { case_match; [apply (spec_modify _ _ _ (fun _ => True)); done | by apply spec_ret]. }
  intros _ _. destruct (arg_desc.consumes_in_arg_position arg); [| by apply spec_ret].
  destruct (p_ref p) as [id |]; [| apply spec_fail]. simpl. case_match; [apply spec_fail |]. apply spec_ret.
  unfold state.kill_ref. auto with wf.
Qed.

Lemma wf_check_arg st at_ desc k arg : state_wf st -> spec len init (check_arg prog st at_ desc k arg) state_wf.
Proof.
  intros W. eapply spec_bind; [by apply spec_expect with (Q := fun _ => True) |]. intros r _. eapply spec_bind; [apply spec_get |]. intros v _.
  destruct (a_kind arg), v; try apply spec_fail; try (by apply wf_check_ptr_arg);
    repeat (case_match; try apply spec_fail); by apply spec_ret.
Qed.

Lemma wf_check_args st at_ desc : state_wf st -> spec len init (check_args prog st at_ desc) state_wf.
Proof. intros W. apply spec_foldM; [done |]. intros st1 [k arg] W1 _. by apply wf_check_arg. Qed.

Lemma wf_await st at_ i : state_wf st -> spec len init (await live st at_ i) state_wf.
Proof.
  intros W. unfold await. destruct (state.kill_at_await st) as [killed st1] eqn:E.
  assert (W1 : state_wf st1) by (unfold state.kill_at_await in E; injection E as _ <-; auto with wf).
  apply spec_foldM; [done |]. intros st2 [r d] W2 _. eapply spec_bind; [by apply spec_expect with (Q := fun _ => True) |].
  intros [] _; [apply spec_fail | by apply spec_ret].
Qed.

Lemma packet_bounds_wf st : state_wf st -> state_wf (state.invalidate_packet_bounds st).
Proof. intros W. apply map_regs_wf; [done |]. intros v Wv. destruct v as [| s | p]; try done. by case_match. Qed.

Lemma wf_call_kfunc st at_ i id : program_ok -> state_wf st -> spec len init (call_kfunc prog live st at_ i id) state_wf.
Proof.
  intros [_ Pk] W. unfold call_kfunc. destruct (list_find _ _) as [[j desc] |] eqn:Ef; [| apply spec_fail].
  apply list_find_Some in Ef as (Ej & _). pose proof (Forall_lookup_1 _ _ _ _ Pk Ej) as Wr. simpl in Wr.
  case_match; [apply spec_fail |]. eapply spec_bind; [by apply wf_check_args |]. intros st1 W1.
  eapply (spec_bind _ _ _ _ (fun _ => True)).
  { unfold acquired_mem_size. case_match; [by apply spec_ret |]. destruct (list_find _ _) as [[idx a] |]; [| apply spec_fail].
    destruct (reg_new _); [| apply spec_fail]. eapply spec_bind; [apply spec_get |]. intros v _.
    destruct v; try apply spec_fail. case_match; [by apply spec_ret | apply spec_fail]. }
  intros size _. eapply spec_bind; [apply (spec_modify _ _ _ (fun _ => True)); done | intros _ _].
  eapply (spec_bind _ _ _ _ state_wf); [case_match; [by apply wf_await | by apply spec_ret] |]. intros st2 W2. cbv zeta.
  eapply (spec_bind _ _ _ _ (fun p => state_wf p.1)).
  { case_match; [| apply spec_ret; simpl; auto with wf]. case_match; [apply spec_fail |]. apply spec_ret. simpl.
    unfold state.acquire. auto with wf. }
  intros [st3 ref] W3. apply spec_ret. simpl in W3. set (r0 := match value_of _ _ with Ptr _ => _ | _ => _ end).
  assert (W0 : vwf r0).
  { subst r0. specialize (Wr ref). destruct (value_of (k_ret desc) ref) as [| s | p]; [done | done |]. by destruct size. }
  case_match; [apply packet_bounds_wf |]; auto with wf.
Qed.

(** * Instructions *)

Lemma covered_unsupported op st st' :
  (forall next m, interp.exec op next m = Some (interp.Return (Err Unsupported) m)) -> state_wf st' ->
  covered len (ctx_holds len prog) op st st'.
Proof. intros E W. split; [done |]. intros next m _ _ _. rewrite E. apply sound_unsupported. Qed.

Lemma wf_load_imm64 at_ value v : imm64_ok value -> load_imm64 prog at_ value = Ok v -> vwf v.
Proof.
  assert (Wm : vwf map_handle) by (apply swf_constant; auto with word).
  assert (Wp : forall m off v, is_i 32 off -> map_value_ptr at_ m off = Ok v -> vwf v).
  { intros m off w Ho. unfold map_value_ptr. case_match; [done |]. intros [= <-]. apply swf_constant, (is_i_mono 32); [lia | done]. }
  destruct value; simpl; intros Hv E; try done.
  - injection E as <-. apply swf_constant. auto with word.
  - destruct (map_by_fd _ _ _); [by injection E as <- | done].
  - destruct (map_by_fd _ _ _) as [m |]; [| done]. by eapply Wp; [apply Hv |].
  - destruct (map_by_idx _ _ _); [by injection E as <- | done].
  - destruct (map_by_idx _ _ _) as [m |]; [| done]. by eapply Wp; [apply Hv |].
Qed.

Lemma step_load_imm64 st at_ dst value : state_wf st -> decoded_ok (Decoded.LoadImm64 dst value) ->
  spec len init (let! v := lift (load_imm64 prog at_ value) in set st at_ dst v)
    (covered len (ctx_holds len prog) (Decoded.LoadImm64 dst value) st).
Proof.
  intros W [Hd Hv]. eapply spec_bind; [by apply spec_lift with (Q := fun v => load_imm64 prog at_ value = Ok v) |]. intros v Ev.
  eapply spec_weaken; [apply spec_set |]. intros st' ->. pose proof (wf_load_imm64 _ _ _ Hv Ev) as Wv.
  destruct value as [w | | | | | |]; try (apply covered_unsupported; [done | auto with wf]).
  split; [auto with wf |]. intros next m Hm _ Hst. apply sound_assign; [done | done | done |]. simpl in Ev, Hv. injection Ev as <-.
  pose proof (smember_constant (as_i64 w) ltac:(auto with word)) as S. by rewrite wrap_swrap_id in S.
Qed.

Lemma wf_addr_space_cast st at_ dst src a b : state_wf st -> spec len init (addr_space_cast st at_ dst src a b) state_wf.
Proof.
  intros W. unfold addr_space_cast. case_match; [apply spec_fail |]. eapply spec_bind; [apply spec_get_ptr |]. intros p Ep.
  case_match; [apply spec_fail |]. eapply spec_bind; [apply (spec_modify _ _ _ (fun _ => True)); done | intros _ _].
  eapply spec_weaken; [apply spec_set |]. intros ? ->. auto with wf.
Qed.

Lemma spec_check_exit st at_ : spec len init (check_exit st at_) (fun _ => True).
Proof.
  unfold check_exit. destruct (refs st); [| apply spec_fail]. eapply spec_bind; [by apply spec_expect with (Q := fun _ => True) |].
  intros v _. destruct v; try apply spec_fail. by apply spec_ret.
Qed.

Lemma covered_exit st : state_wf st -> covered len (ctx_holds len prog) Decoded.Exit st st.
Proof.
  intros W. split; [done |]. intros next m Hm _ _. cbn [interp.exec]. destruct (get_reg_total m R0 Hm) as (v & -> & _); [done |]. by eexists.
Qed.

Lemma covered_jump off st : state_wf st -> covered len (ctx_holds len prog) (Decoded.Jump off) st st.
Proof. intros W. split; [done |]. intros next m Hm _ Hst. by eexists. Qed.

Lemma covered_cond wide op dst src off st : state_wf st -> reg_ok dst -> source_ok src ->
  covered len (ctx_holds len prog) (Decoded.JumpCond wide op dst src off) st st.
Proof.
  intros W Hd Hs. split; [done |]. intros next m Hm _ Hst. cbn [interp.exec].
  destruct (val_total m src wide Hm Hs) as (y & -> & _). destruct (get_reg_total m dst Hm Hd) as (x & -> & _). by eexists.
Qed.

Lemma step_covered st i insn : program_ok -> state_wf st -> ir.(insns) !! i = Some insn -> decoded_ok insn.(ir_op) ->
  spec len init (step ir prog live st i) (covered len (ctx_holds len prog) insn.(ir_op) st).
Proof.
  intros P W Ei Hd. unfold step. eapply spec_bind; [by apply spec_expect with (Q := fun x => x = insn); intros ? E; congruence |].
  intros ? ->. cbv zeta. destruct (ir_op insn) as [| | | | | | | | | | | | | | [|] |] eqn:Eo; cbn [decoded_ok] in Hd.
  - apply step_alu; tauto.
  - apply (step_unary len init _ _ st (ir_slot insn) dst (fun d => scalar.neg_op d wide) (interp.neg wide)); try done. apply neg_op_sound.
  - apply step_mov; tauto.
  - apply step_div; tauto.
  - apply step_mod; tauto.
  - apply (step_unary len init _ _ st (ir_slot insn) dst (fun d => scalar.end_op d order width) (interp.end_ order width)); try done; [apply Hd | apply end_op_sound].
  - eapply spec_weaken; [by apply wf_addr_space_cast |]. intros st' W'. by apply covered_unsupported.
  - apply step_load; [done | apply P | done].
  - by apply step_store.
  - eapply spec_weaken; [by apply wf_atomic |]. intros st' W'. by apply covered_unsupported.
  - by apply step_load_imm64.
  - by apply spec_ret, covered_jump.
  - apply spec_ret, covered_cond; tauto.
  - by apply spec_ret, covered_unsupported.
  - eapply spec_weaken; [by apply wf_call_subprog |]. intros st' W'. by apply covered_unsupported.
  - eapply spec_weaken; [by apply wf_call_kfunc |]. intros st' W'. by apply covered_unsupported.
  - eapply spec_bind; [apply spec_check_exit |]. intros _ _. by apply spec_ret, covered_exit.
Qed.

(** * Conditional jumps *)

(** The constant zero, as the verifier sees an operand. *)
Definition is_zero (st : AbsState) (src : Source) : bool :=
  match src with
  | Source.Imm k => k =? 0
  | Source.Reg r => match st.(regs) !! reg_usize r with
                    | Some (Scalar z) => bool_decide (scalar.as_const z = Some 0)
                    | _ => false
                    end
  end.

(** A comparison of a pointer with null: the verifier takes a pointer that is
    not nullable to be different from zero, which holds unless its offset can
    cancel the base of its region. *)
Definition null_test_safe (st : AbsState) (wide : bool) (dst : Reg) (src : Source) : bool :=
  match st.(regs) !! reg_usize dst with
  | Some (Ptr p) =>
      if wide && is_zero st src && negb p.(p_nullable) then
        match region_base p.(p_class) with
        | Some base => negb (scalar.contains p.(p_off) (u64 (- base)))
        | None => true
        end
      else true
  | _ => true
  end.

Lemma null_pointer p base : region_base p.(p_class) = Some base -> swf p.(p_off) -> pmember len p 0 ->
  scalar.contains p.(p_off) (u64 (- base)) = true.
Proof.
  intros Hb Wp (_ & base' & o & Hb' & [Uo Ho] & E). rewrite Hb in Hb'. injection Hb' as <-.
  replace (u64 (- base)) with o; [done |]. unfold wrap in *. symmetry in E. apply Z.mod_divide in E as [k Ek]; [| done].
  unfold is_u in Uo. replace (- base) with (o + (- k) * 2 ^ 64) by lia. rewrite Z.mod_add by done. symmetry. by apply Z.mod_small.
Qed.

Lemma assign_same st m i v x : smember_state len st m -> m.(m_regs) !! i = Some x -> vmember len v x -> smember_state len (assign st i v) m.
Proof. intros [R S] E V. split; simpl; [| done]. rewrite <- (list_insert_id _ _ _ E). by apply Forall2_insert. Qed.

(** The state of an edge is well formed and keeps the machines that take it. *)
Definition edge_kept (st : AbsState) (wide : bool) (pred : Pred) (dst : Reg) (src : Source) (o : option AbsState) : Prop :=
  match o with Some st' => state_wf st' | None => True end /\
  forall m x y, machine_ok m -> smember_state len st m -> interp.get_reg m dst = Some x -> interp.val m src wide = Some y ->
    holds pred wide x y = true -> null_test_safe st wide dst src = true ->
    exists st', o = Some st' /\ smember_state len st' m.

Lemma refine_dynamic_none st wide pred d s src st' x y :
  refine_dynamic st wide pred d s src = Some st' -> vmember len d x -> vmember len s y -> False.
Proof.
  unfold refine_dynamic. destruct wide; [| done]. destruct d as [| | p]; try done. destruct s as [| | q]; try done. destruct src; [done |].
  simpl. intros E Hp Hq. destruct (p_class p) eqn:Ep; try done; [| by apply (no_pointer len p x); [rewrite Ep |]].
  by apply (no_pointer len p x); [rewrite Ep |].
Qed.

Lemma refine_dynamic_wf st wide pred d s src st' : state_wf st -> refine_dynamic st wide pred d s src = Some st' -> state_wf st'.
Proof.
  intros W. unfold refine_dynamic. destruct wide; [| done]. destruct d as [| | p]; try done. destruct s as [| | q]; try done. destruct src; [done |].
  assert (Wp : forall key limit, state_wf (publish_extent st key limit)).
  { intros key limit. apply map_regs_wf; [done |]. intros v Wv. destruct v; try done. by case_match. }
  intros E. repeat (case_match; simplify_eq/=; try done).
Qed.

Lemma is_zero_source st src s : source_ok src -> source_is st src true (Scalar s) -> scalar.as_const s = Some 0 -> is_zero st src = true.
Proof.
  destruct src as [k | r]; simpl; [intros Hk [= ->] | intros _ [-> _] E; by rewrite bool_decide_true].
  unfold scalar.as_const, scalar.constant, tnum.is_const. simpl. rewrite as_i64_u64; [| apply (is_i_mono 32); [lia | done]].
  intros [= ->]. done.
Qed.

(** The operands of a comparison. *)
Lemma operands st m dst src wide d s x y : machine_ok m -> smember_state len st m -> source_ok src ->
  st.(regs) !! reg_usize dst = Some d -> source_is st src wide s ->
  interp.get_reg m dst = Some x -> interp.val m src wide = Some y -> vmember len d x /\ vmember len s y.
Proof.
  intros Hm Hst Hs Ed Es Ex Ey. destruct (reg_member len m Hm st Hst _ _ Ed) as (x' & Ex' & Vx & _).
  destruct (source_member len m Hm st Hst src wide _ Hs Es) as (y' & Ey' & Vy & _). unfold interp.get_reg in Ex. by simplify_eq.
Qed.

Lemma zero_member s y : swf s -> scalar.as_const s = Some 0 -> smember s y -> y = 0.
Proof. intros Ws E Hy. destruct (as_const_spec s 0 Ws E) as [_ Z]. by rewrite (Z y Hy). Qed.

(** The test of a pointer against zero. *)
Lemma null_test_kept st pred dst src p s : state_wf st -> source_ok src ->
  st.(regs) !! reg_usize dst = Some (Ptr p) -> source_is st src true (Scalar s) -> scalar.as_const s = Some 0 ->
  spec len init
    (match pred with
     | Pred.Eq =>
         if negb p.(p_nullable) then ret None
         else
           let out := assign st (reg_usize dst) (Scalar (scalar.constant 0)) in
           ret (Some (match p.(p_ref) with Some id => snd (state.release out id) | None => out end))
     | Pred.Ne => ret (Some (assign st (reg_usize dst) (Ptr (ptr.set_nullable p false))))
     | _ => ret (Some st)
     end) (edge_kept st true pred dst src).
Proof.
  intros W Hs Ed Es Ez. pose proof (get_reg_wf _ _ _ W Ed) as Wp. simpl in Wp.
  assert (Keep : edge_kept st true pred dst src (Some st)) by (split; [done |]; intros m x y Hm Hst _ _ _ _; by exists st).
  destruct pred; try (by apply spec_ret).
  - destruct (p_nullable p) eqn:En; simpl.
    + apply spec_ret. assert (W' : state_wf (assign st (reg_usize dst) (Scalar (scalar.constant 0)))).
      { apply assign_wf; [done |]. apply swf_constant. auto with word. }
      split; [destruct (p_ref p); [exact (with_refs_wf _ _ W') | done] |]. intros m x y Hm Hst Ex Ey H _.
      destruct (operands st m dst src true _ _ x y Hm Hst Hs Ed Es Ex Ey) as [Vx Vy].
      rewrite (zero_member s y (source_wf _ _ _ _ W Hs Es) Ez Vy) in H. apply Z.eqb_eq in H. subst x.
      assert (K : smember_state len (assign st (reg_usize dst) (Scalar (scalar.constant 0))) m).
      { eapply assign_same; [done | done |]. apply (smember_constant 0). auto with word. }
      eexists. split; [done |]. destruct (p_ref p); [| done]. by destruct K.
    + apply spec_ret. split; [done |]. intros m x y Hm Hst Ex Ey H N. exfalso.
      destruct (operands st m dst src true _ _ x y Hm Hst Hs Ed Es Ex Ey) as [Vx Vy].
      rewrite (zero_member s y (source_wf _ _ _ _ W Hs Es) Ez Vy) in H. apply Z.eqb_eq in H. subst x.
      unfold null_test_safe in N. rewrite Ed, En, (is_zero_source st src s Hs Es Ez) in N. simpl in N.
      destruct (region_base (p_class p)) as [base |] eqn:Eb; [| by destruct (no_pointer len p 0)].
      by rewrite (null_pointer p base Eb Wp Vx) in N.
  - apply spec_ret. split; [by apply assign_wf |]. intros m x y Hm Hst Ex Ey _ _. eexists. split; [done |].
    destruct (operands st m dst src true _ _ x y Hm Hst Hs Ed Es Ex Ey) as [Vx _]. by eapply assign_same.
Qed.

Lemma refine_kept st at_ wide pred dst src : state_wf st -> reg_ok dst -> source_ok src ->
  spec len init (refine st at_ wide pred dst src) (edge_kept st wide pred dst src).
Proof.
  intros W Hd Hs. eapply spec_bind; [apply spec_get |]. intros d [Ed _]. eapply spec_bind; [apply spec_source |]. intros s Es.
  pose proof (get_reg_wf _ _ _ W Ed) as Wd. pose proof (source_wf _ _ _ _ W Hs Es) as Ws.
  assert (Keep : edge_kept st wide pred dst src (Some st)) by (split; [done |]; intros m x y Hm Hst _ _ _ _; by exists st).
  destruct (refine_dynamic st wide pred d s src) as [st' |] eqn:Edyn.
  { apply spec_ret. split; [by eapply refine_dynamic_wf |]. intros m x y Hm Hst _ _ _ _. exfalso.
    destruct (reg_member len m Hm st Hst _ _ Ed) as (x' & _ & Vx & _). destruct (source_member len m Hm st Hst src wide _ Hs Es) as (y' & _ & Vy & _).
    by eapply refine_dynamic_none. }
  clear Edyn. destruct d as [| a | p], s as [| b | q]; try (by apply spec_ret).
  - destruct (refine_scalars wide pred a b) as [[na nb] |] eqn:Er.
    + apply spec_ret. destruct (refine_scalars_wf wide pred a b na nb Wd Ws Er) as [Wa Wb].
      split; [destruct src as [k | r]; [| destruct (_ && _)]; repeat apply assign_wf; done |]. intros m x y Hm Hst Ex Ey H _.
      destruct (operands st m dst src wide _ _ x y Hm Hst Hs Ed Es Ex Ey) as [Vx Vy].
      destruct (refine_scalars_sound wide pred a b x y Wd Ws Vx Vy H) as (na' & nb' & E' & _ & _ & Mx & My & _). rewrite Er in E'. injection E' as <- <-.
      eexists. split; [done |]. assert (K : smember_state len (assign st (reg_usize dst) (Scalar na)) m) by (by eapply assign_same).
      destruct src as [k | r]; [done |]. destruct (_ && _); [| done]. by eapply assign_same.
    + apply spec_ret. split; [done |]. intros m x y Hm Hst Ex Ey H _. exfalso.
      destruct (operands st m dst src wide _ _ x y Hm Hst Hs Ed Es Ex Ey) as [Vx Vy].
      destruct (refine_scalars_sound wide pred a b x y Wd Ws Vx Vy H) as (na' & nb' & E' & _). congruence.
  - destruct wide; [| by apply spec_ret]. simpl. case_bool_decide as Ez; [| by apply spec_ret]. by eapply null_test_kept.
Qed.
End Step.
