(* ===== verification/BpfFixpoint.v ===== *)
(** The worklist of the verifier: when it is empty, the state of every block
    is closed under the edges of the block, and the state of the entry covers
    the state the subprogram is entered with.  The state a transfer function
    returns does not depend on what the analysis has recorded so far. *)

From stdpp Require Import gmap.
From S2P Require Import Prelude Word BpfOpcode BpfInsn BpfEncode Tnum TnumSound BpfScalar BpfInterp BpfRefine ScalarSound ScalarOps ScalarInterp BpfMachine BpfKfunc BpfIr BpfLiveness BpfDom BpfState BpfAnalysis BpfVerify BpfStateSound BpfStackSound BpfTriple BpfArithSound BpfAccessSound BpfStepSound.

Import AbsValue analysis verify.

Section Rounds.
Context (len : Z) (init : AbsState) (ir : Ir) (prog : Program) (live prec : Masks).
Context (Hops : forall i x, ir.(insns) !! i = Some x -> decoded_ok x.(ir_op)) (P : program_ok prog)
  (Hth : Forall (is_i 64) ir.(thresholds)).

(** [b] denotes the machines of [a]. *)
Definition incl (a b : AbsState) : Prop := forall m, machine_ok m -> smember_state len a m -> smember_state len b m.

Lemma incl_refl a : incl a a.
Proof. by intros m. Qed.

Lemma incl_trans a b c : incl a b -> incl b c -> incl a c.
Proof. intros H1 H2 m Hm H. by apply H2, H1. Qed.

(** * One block *)

Abbreviation step_ := (step ir prog live).

(** The rest of a block from instruction [i] on. *)
Definition walk_end (blk : Block) (st : AbsState) : M (list (nat * AbsState)) :=
  let last := (blk.(b_end) - 1)%nat in
  let! insn := expect (ir.(insns) !! last) in
  let at_ := insn.(ir_slot) in
  let next := Z.of_nat (next_slot insn) in
  match insn.(ir_op) with
  | Decoded.Exit => let! _ := check_exit st at_ in ret []
  | Decoded.JumpCond wide op dst src off =>
      let! taken_block := expect (block_at_slot ir next off) in
      let! fall_block := expect (block_at_slot ir next 0) in
      let p := Pred.of_cond op in
      let! taken := refine st at_ wide p dst src in
      let! fall := refine st at_ wide (Pred.negate p) dst src in
      ret (match taken with Some s => [(taken_block, s)] | None => [] end ++
           match fall with Some s => [(fall_block, s)] | None => [] end)
  | Decoded.MayGoto off =>
      let! taken_block := expect (block_at_slot ir next off) in
      let! fall_block := expect (block_at_slot ir next 0) in
      ret [(taken_block, st); (fall_block, st)]
  | _ =>
      let! st := step_ st last in
      ret ((fun s => (s, st)) <$> blk.(b_succs))
  end.

Definition walk_from (blk : Block) (i : nat) (st : AbsState) : M (list (nat * AbsState)) :=
  let! st := foldM step_ (seq i (blk.(b_end) - 1 - i)) st in
  walk_end blk st.

Lemma walk_block_from b st a r : walk_block ir prog live b st a = Some (Ok r) ->
  exists blk, ir.(blocks) !! b = Some blk /\ walk_from blk blk.(b_start) st a = Some (Ok r).
Proof.
  unfold walk_block, bind, expect at 1. destruct (ir.(blocks) !! b) as [blk |] eqn:E; [| done]. intros H. exists blk. split; [done | exact H].
Qed.

(** The successor states are well formed. *)
Definition outs_wf (outs : list (nat * AbsState)) : Prop := Forall (fun p => state_wf p.2) outs.

Lemma walk_end_wf blk st : state_wf st -> spec len init (walk_end blk st) outs_wf.
Proof.
  intros W. unfold walk_end. eapply spec_bind; [by apply spec_expect with (Q := fun x => ir.(insns) !! (blk.(b_end) - 1)%nat = Some x) |].
  intros insn Ei. cbv zeta. pose proof (Hops _ _ Ei) as Ho.
  assert (D : spec len init (let! st := step_ st (blk.(b_end) - 1)%nat in ret ((fun s => (s, st)) <$> blk.(b_succs))) outs_wf).
  { eapply spec_bind; [by apply (step_covered len init ir prog live _ _ insn) |]. intros st' [W' _]. apply spec_ret.
    apply Forall_fmap, Forall_true. done. }
  destruct (ir_op insn); try exact D.
  - cbn [decoded_ok] in Ho. eapply spec_bind; [by apply spec_expect with (Q := fun _ => True) |]. intros tb _.
    eapply spec_bind; [by apply spec_expect with (Q := fun _ => True) |]. intros fb _.
    eapply spec_bind; [apply (refine_kept len init); tauto |]. intros taken [Wt _].
    eapply spec_bind; [apply (refine_kept len init); tauto |]. intros fall [Wf _]. apply spec_ret.
    apply Forall_app. split; [destruct taken | destruct fall]; try apply Forall_nil_2; by apply Forall_singleton.
  - eapply spec_bind; [by apply spec_expect with (Q := fun _ => True) |]. intros tb _.
    eapply spec_bind; [by apply spec_expect with (Q := fun _ => True) |]. intros fb _. apply spec_ret. by do 2 (apply Forall_cons; split; [done |]).
  - eapply spec_bind; [apply spec_check_exit |]. intros _ _. apply spec_ret. constructor.
Qed.

Lemma fold_step_wf l st : state_wf st -> spec len init (foldM step_ l st) state_wf.
Proof.
  intros W. apply spec_foldM; [done |]. intros st' i W' _ a x a' O E.
  assert (exists insn, ir.(insns) !! i = Some insn) as [insn Ei].
  { unfold step, bind, expect in E. destruct (ir.(insns) !! i); [eauto | done]. }
  destruct (step_covered len init ir prog live st' i insn P W' Ei (Hops _ _ Ei) a x a' O E) as [? [? _]]. done.
Qed.

Lemma walk_from_wf blk i st : state_wf st -> spec len init (walk_from blk i st) outs_wf.
Proof. intros W. eapply spec_bind; [by apply fold_step_wf |]. intros st' W'. by apply walk_end_wf. Qed.

(** * Edges *)

Record work_ok (w : Work) : Prop := {
  wk_wf b st : w.(in_state) !! b = Some (Some st) -> state_wf st;
  wk_queued b : w.(queued) !! b = Some true -> b ∈ w.(worklist)
}.

(** States only grow, and a block whose state changes is on the worklist. *)
Record grown (w w' : Work) : Prop := {
  gr_some b st : w.(in_state) !! b = Some (Some st) -> exists st', w'.(in_state) !! b = Some (Some st') /\ incl st st';
  gr_new b st : w'.(in_state) !! b = Some (Some st) -> w.(in_state) !! b = Some (Some st) \/ b ∈ w'.(worklist);
  gr_list b : b ∈ w.(worklist) -> b ∈ w'.(worklist)
}.

Lemma grown_refl w : grown w w.
Proof. split; [| by left | done]. intros b st E. exists st. by auto using incl_refl. Qed.

Lemma grown_trans w1 w2 w3 : grown w1 w2 -> grown w2 w3 -> grown w1 w3.
Proof.
  intros [S1 N1 L1] [S2 N2 L2]. split; [| | auto].
  - intros b st E. destruct (S1 b st E) as (st' & E' & I'). destruct (S2 b st' E') as (st2 & E2 & I2). eauto using incl_trans.
  - intros b st E. destruct (N2 b st E) as [E' | H]; [| by right]. destruct (N1 b st E'); auto.
Qed.

(** The state of an edge is covered by the state of its target. *)
Definition out_in (reachable : list bool) (w : Work) (p : nat * AbsState) : Prop :=
  reachable !! p.1 = Some true -> exists st, w.(in_state) !! p.1 = Some (Some st) /\ incl p.2 st.

Lemma out_in_grown reachable w w' p : grown w w' -> out_in reachable w p -> out_in reachable w' p.
Proof.
  intros G H R. destruct (H R) as (st & E & I). destruct (gr_some _ _ G _ _ E) as (st' & E' & I'). eauto using incl_trans.
Qed.

Lemma merge_spec succ st old st' changed : state_wf st -> match old with Some o => state_wf o | None => True end ->
  merge ir prec succ st old = Some (st', changed) ->
  state_wf st' /\ incl st st' /\ match old with Some o => incl o st' /\ (changed = false -> incl st o) | None => changed = true end.
Proof.
  intros W Wo. destruct old as [o |]; simpl; [| intros [= <- <-]; auto using incl_refl].
  destruct (blocks ir !! succ) as [blk |]; [| done]. simpl.
  assert (K : forall j, scover len o st j -> Some (j, negb (state.is_subset_of j o)) = Some (st', changed) ->
    state_wf st' /\ incl st st' /\ incl o st' /\ (changed = false -> incl st o)).
  { intros j [Wj Hj] [= <- <-]. split_and!; [done | by intros m Hm H; apply Hj; auto | by intros m Hm H; apply Hj; auto |].
    intros E%negb_false_iff m Hm H. apply (subset_state len j); auto. }
  destruct (widen_here blk).
  - destruct (before prec !! b_start blk) as [precise |]; [| done]. simpl. apply K. by apply widen_state.
  - simpl. apply K. by apply join_state.
Qed.

Lemma edge_spec reachable w p w' : work_ok w -> state_wf p.2 -> edge ir prec reachable w p = Some w' ->
  work_ok w' /\ grown w w' /\ out_in reachable w' p.
Proof.
  destruct p as [succ st]. intros [W Q] Ws. unfold edge. simpl in *.
  destruct (reachable !! succ) as [r |] eqn:Er; [| done]. simpl.
  destruct r; simpl; [| intros [= <-]; split; [done |]; split; [apply grown_refl |]; intros H; simpl in H; congruence].
  destruct (in_state w !! succ) as [old |] eqn:Eo; [| done]. simpl.
  destruct (merge ir prec succ st old) as [[st' changed] |] eqn:Em; [| done].
  destruct (merge_spec succ st old st' changed Ws) as (W' & I & H); [destruct old; [by eapply W | done] | done |]. simpl.
  pose proof (lookup_lt_Some _ _ _ Eo) as Lt. destruct changed.
  - destruct (queued w !! succ) as [q |] eqn:Eq; [| done]. simpl. intros [= <-].
    set (w1 := if q : bool then _ else _).
    assert (E1 : in_state w1 = <[succ := Some st']> (in_state w)) by (by destruct q).
    assert (L1 : forall b, b ∈ worklist w -> b ∈ worklist w1) by (intros b Hb; destruct q; simpl; [done | by right]).
    assert (S1 : succ ∈ worklist w1) by (destruct q; simpl; [by apply Q | by left]).
    assert (Q1 : forall b, queued w1 !! b = Some true -> b ∈ worklist w1).
    { intros b Hb. destruct (decide (b = succ)) as [-> | N]; [done |]. apply L1, Q. destruct q; simpl in Hb; [done |].
      by rewrite list_lookup_insert_ne in Hb. }
    clearbody w1. split; [split; [| done] |].
    + intros b s. rewrite E1. destruct (decide (b = succ)) as [-> | N].
      * rewrite list_lookup_insert_eq by done. by intros [= <-].
      * rewrite list_lookup_insert_ne by done. apply W.
    + split; [split; [| | done] |].
      * intros b s Eb. rewrite E1. destruct (decide (b = succ)) as [-> | N].
        -- rewrite list_lookup_insert_eq by done. rewrite Eo in Eb. injection Eb as ->. exists st'. split; [done | apply H].
        -- rewrite list_lookup_insert_ne by done. eauto using incl_refl.
      * intros b s. rewrite E1. destruct (decide (b = succ)) as [-> | N]; [by right |].
        rewrite list_lookup_insert_ne by done. by left.
      * intros _. simpl. rewrite E1, list_lookup_insert_eq by done. eauto.
  - intros [= <-]. split; [done |]. split; [apply grown_refl |]. intros _. simpl. destruct old as [o |]; [| done].
    exists o. split; [done |]. by apply H.
Qed.

Lemma edges_spec reachable outs w a w' a' : work_ok w -> outs_wf outs ->
  foldM (fun w p => expect (edge ir prec reachable w p)) outs w a = Some (Ok (w', a')) ->
  a' = a /\ work_ok w' /\ grown w w' /\ Forall (out_in reachable w') outs.
Proof.
  revert w. induction outs as [| p outs IH]; intros w W F; simpl.
  - intros [= <- <-]. split_and!; [done | done | apply grown_refl | constructor].
  - apply Forall_cons in F as [Fp F]. unfold bind, expect at 1. destruct (edge ir prec reachable w p) as [w1 |] eqn:E; [| done].
    destruct (edge_spec reachable w p w1 W Fp E) as (W1 & G1 & O1). intros H.
    destruct (IH w1 W1 F H) as (-> & W2 & G2 & O2). split_and!; [done | done | by eapply grown_trans |].
    apply Forall_cons. split; [by eapply out_in_grown | done].
Qed.

(** * The loop *)

(** The last walk of the block from its state. *)
Definition done_ (reachable : list bool) (w : Work) (b : nat) (st : AbsState) : Prop :=
  exists a outs a', an_ok len init a /\ walk_block ir prog live b st a = Some (Ok (outs, a')) /\ Forall (out_in reachable w) outs.

Definition settled (reachable : list bool) (w : Work) : Prop :=
  forall b st, w.(in_state) !! b = Some (Some st) -> b ∈ w.(worklist) \/ done_ reachable w b st.

Lemma done_grown reachable w w' b st : grown w w' -> done_ reachable w b st -> done_ reachable w' b st.
Proof.
  intros G (a & outs & a' & O & E & F). exists a, outs, a'. split_and!; [done | done |].
  eapply Forall_impl; [exact F |]. intros p. by apply out_in_grown.
Qed.

(** Taking a block off the list, walking it and merging its edges. *)
Lemma round_spec reachable w b wl st a outs a1 w' a2 :
  settled reachable w -> work_ok w -> an_ok len init a -> w.(worklist) = b :: wl -> w.(in_state) !! b = Some (Some st) ->
  walk_block ir prog live b st a = Some (Ok (outs, a1)) ->
  foldM (fun w p => expect (edge ir prec reachable w p)) outs (mk_work w.(in_state) wl (<[b := false]> w.(queued))) a1 = Some (Ok (w', a2)) ->
  an_ok len init a2 /\ work_ok w' /\ settled reachable w' /\
  forall c s, w.(in_state) !! c = Some (Some s) -> exists s', w'.(in_state) !! c = Some (Some s') /\ incl s s'.
Proof.
  intros S [W Q] O Ewl Eb Ew Ef. set (w0 := mk_work (in_state w) wl (<[b := false]> (queued w))) in *.
  assert (W0 : work_ok w0).
  { split; [exact W |]. intros c Hc. simpl in Hc. apply list_lookup_insert_Some in Hc as [(_ & [=] & _) | (N & Hc)].
    apply Q in Hc. rewrite Ewl in Hc. apply elem_of_cons in Hc as [-> | Hc]; done. }
  destruct (walk_block_from b st a _ Ew) as (blk & Hblk & Ewf).
  destruct (walk_from_wf blk _ st (W b st Eb) a outs a1 O Ewf) as [O1 Wo].
  destruct (edges_spec reachable outs w0 a1 w' a2 W0 Wo Ef) as (-> & W' & G & F). split; [done |]. split; [done |].
  split; [| intros c s Ec; by apply (gr_some _ _ G)]. intros c s Ec.
  destruct (gr_new _ _ G c s Ec) as [Ec0 | Hc]; [| by left]. destruct (decide (c = b)) as [-> | N].
  - simpl in Ec0. rewrite Eb in Ec0. injection Ec0 as <-. right. by exists a, outs, a1.
  - destruct (S c s Ec0) as [Hc | D].
    + left. apply (gr_list _ _ G). simpl. rewrite Ewl in Hc. by apply elem_of_cons in Hc as [-> | Hc].
    + right. eapply done_grown; [exact G |]. destruct D as (x & o & x' & D1 & D2 & D3). by exists x, o, x'.
Qed.

(** What the states are when the list is empty. *)
Definition closed (reachable : list bool) (states : list (option AbsState)) : Prop :=
  forall b st, states !! b = Some (Some st) -> state_wf st /\
    exists a outs a', an_ok len init a /\ walk_block ir prog live b st a = Some (Ok (outs, a')) /\
      Forall (fun p => reachable !! p.1 = Some true -> exists s, states !! p.1 = Some (Some s) /\ incl p.2 s) outs.

Lemma worklist_spec n budget sp reachable w a states a' :
  settled reachable w -> work_ok w -> an_ok len init a ->
  rounds ir prog live prec n budget sp reachable w a = Some (Ok (states, a')) ->
  an_ok len init a' /\ closed reachable states /\
  forall c s, w.(in_state) !! c = Some (Some s) -> exists s', states !! c = Some (Some s') /\ incl s s'.
Proof.
  revert w a. induction n as [| n IH]; intros w a S W O; simpl; destruct (worklist w) as [| b wl] eqn:Ewl; try done.
  1, 2: intros [= <- <-]; split; [done |]; split; [| intros c s Ec; eauto using incl_refl]; intros b st Eb;
    (split; [by apply (wk_wf _ W b) |]); destruct (S b st Eb) as [Hb | D]; [rewrite Ewl in Hb; by apply elem_of_nil in Hb | exact D].
  unfold bind at 1, expect at 1. destruct (queued w !! b) as [q |] eqn:Eq; [| done]. unfold bind at 1, expect at 1.
  destruct (in_state w !! b) as [[st |] |] eqn:Eb; [| | done].
  - unfold bind at 1. destruct (walk_block ir prog live b st a) as [[[outs a1] |] |] eqn:Ew; try done.
    unfold bind at 1. destruct (foldM _ outs _ a1) as [[[w' a2] |] |] eqn:Ef; try done. intros H.
    destruct (round_spec reachable w b wl st a outs a1 w' a2 S W O Ewl Eb Ew Ef) as (O2 & W2 & S2 & G).
    destruct (IH w' a2 S2 W2 O2 H) as (O3 & C3 & G3). split_and!; [done | done |]. intros c s Ec.
    destruct (G c s Ec) as (s1 & E1 & I1). destruct (G3 c s1 E1) as (s2 & E2 & I2). eauto using incl_trans.
  - intros H. destruct W as [W Q]. apply IH in H; [exact H | | | done].
    + intros c s Ec. simpl in Ec. destruct (S c s Ec) as [Hc | D]; [| right; exact D]. left. simpl. rewrite Ewl in Hc.
      apply elem_of_cons in Hc as [-> | Hc]; [congruence | done].
    + split; [exact W |]. intros c Hc. simpl in *. apply list_lookup_insert_Some in Hc as [(_ & [=] & _) | (N & Hc)].
      apply Q in Hc. rewrite Ewl in Hc. by apply elem_of_cons in Hc as [-> | Hc].
Qed.

Lemma fixpoint_spec sp entry a states a' : state_wf entry -> an_ok len init a ->
  fixpoint ir prog live prec sp entry a = Some (Ok (states, a')) ->
  an_ok len init a' /\ exists s reachable st, ir.(subprogs) !! sp = Some s /\
    dom.reachable_blocks ir.(blocks) (Some s.(entry_block)) = Some reachable /\ closed reachable states /\
    states !! s.(entry_block) = Some (Some st) /\ incl entry st.
Proof.
  intros We O. unfold fixpoint, bind at 1, expect at 1. destruct (subprogs ir !! sp) as [s |] eqn:Es; [| done].
  unfold bind at 1, expect at 1. destruct (dom.reachable_blocks _ _) as [reachable |] eqn:Er; [| done].
  unfold bind at 1, expect at 1, ir.modify at 1. destruct (replicate _ None !! entry_block s) as [o |] eqn:Ei; [| done]. simpl.
  unfold bind at 1, expect at 1, ir.modify at 1. destruct (replicate _ false !! entry_block s) as [o' |] eqn:Eq; [| done]. simpl.
  intros H. pose proof (lookup_lt_Some _ _ _ Ei) as Lt.
  assert (K : forall b st, <[entry_block s := Some entry]> (replicate (length (blocks ir)) None) !! b = Some (Some st) -> b = entry_block s /\ st = entry).
  { intros b st [(-> & [= ->] & _) | (_ & [? _]%lookup_replicate)]%list_lookup_insert_Some; done. }
  apply worklist_spec in H; [| | | done].
  - destruct H as (O' & C & G). split; [done |]. destruct (G (entry_block s) entry) as (st & E & I).
    { simpl. by apply list_lookup_insert_eq. }
    by exists s, reachable, st.
  - intros b st [-> ->]%K. left. by apply list_elem_of_singleton.
  - split; [by intros b st [-> ->]%K |]. intros b Hb. simpl in *. apply list_elem_of_singleton.
    apply list_lookup_insert_Some in Hb as [(-> & _) | (_ & [? _]%lookup_replicate)]; done.
Qed.
End Rounds.

Import AbsValue analysis.

Section Stable.
Context (n : nat).

(** An analysis of [n] subprograms. *)
Record ready (a : Analysis) : Prop := {
  rd_entry : length a.(an_entry) = n;
  rd_depth : length a.(an_depth) = n;
  rd_current : (a.(current) < n)%nat
}.

Definition stable {A} (c : M A) : Prop :=
  forall a x a' b, c a = Some (Ok (x, a')) -> ready b -> exists b', c b = Some (Ok (x, b')) /\ ready b'.

Lemma stable_ret {A} (x : A) : stable (ret x).
Proof. intros a y a' b [= <- _] R. by exists b. Qed.

Lemma stable_fail {A} e : stable (fail e : M A).
Proof. by intros a y a' b H. Qed.

Lemma stable_bind {A B} (c : M A) (k : A -> M B) : stable c -> (forall x, stable (k x)) -> stable (bind c k).
Proof.
  intros Hc Hk a y a' b. unfold bind. destruct (c a) as [[[x a1] |] |] eqn:E; try done. intros H R.
  destruct (Hc a x a1 b E R) as (b1 & -> & R1). by eapply Hk.
Qed.

Lemma stable_expect {A} (o : option A) : stable (expect o).
Proof. intros a x a' b. unfold expect. destruct o; [| done]. intros [= <- _] R. by exists b. Qed.

Lemma stable_lift {A} (r : Result A VerifyError) : stable (lift r).
Proof. destruct r; [apply stable_ret | apply stable_fail]. Qed.

Lemma stable_modify f : (forall a, ready a -> ready (f a)) -> stable (modify_ f).
Proof. intros F a [] a' b [= <-] R. eexists. split; [done | auto]. Qed.

Lemma stable_foldM {A B} (f : A -> B -> M A) l x : (forall x y, stable (f x y)) -> stable (foldM f l x).
Proof. intros H. revert x. induction l as [| y l IH]; intros x; simpl; [apply stable_ret |]. by apply stable_bind. Qed.

Lemma stable_note_depth d : stable (note_depth d).
Proof.
  intros a x a' b H [R1 R2 R3]. unfold note_depth in *. case_match; [| done]. injection H as <- _. rewrite <- R2 in R3.
  destruct (lookup_lt_is_Some_2 _ _ R3) as [old ->]. eexists. split; [done |]. split; simpl; rewrite ?length_insert; congruence.
Qed.

Lemma stable_join_entry callee e : (callee < n)%nat -> stable (join_entry callee e).
Proof.
  intros L a x a' b H [R1 R2 R3]. unfold join_entry in *. case_match; [| done]. injection H as <- _.
  destruct (lookup_lt_is_Some_2 (an_entry b) callee) as [prev ->]; [lia |]. eexists. split; [done |]. split; simpl; by rewrite ?length_insert.
Qed.

Create HintDb stable.
Hint Resolve stable_ret stable_fail stable_expect stable_lift stable_note_depth : stable.
Hint Extern 1 (stable (modify_ _)) => apply stable_modify; intros ? []; split; done : stable.

Ltac stable_auto :=
  repeat first
    [ progress auto with stable
    | apply stable_bind; [| intros]
    | apply stable_foldM; intros
    | progress cbv zeta
    | case_match ].

Context (ir : Ir) (prog : Program) (live : Masks) (Hn : length ir.(subprogs) = n).

Lemma stable_get st at_ r : stable (get st at_ r).
Proof. unfold get. stable_auto. Qed.
Hint Resolve stable_get : stable.

Lemma stable_get_scalar st at_ r : stable (get_scalar st at_ r).
Proof. unfold get_scalar. stable_auto. Qed.
Hint Resolve stable_get_scalar : stable.

Lemma stable_get_ptr st at_ r : stable (get_ptr st at_ r).
Proof. unfold get_ptr. stable_auto. Qed.
Hint Resolve stable_get_ptr : stable.

Lemma stable_set st at_ r v : stable (set st at_ r v).
Proof. unfold set. stable_auto. Qed.
Hint Resolve stable_set : stable.

Lemma stable_source st at_ s w : stable (source st at_ s w).
Proof. unfold source. stable_auto. Qed.
Hint Resolve stable_source : stable.

Lemma stable_scalar_source st at_ s w : stable (scalar_source st at_ s w).
Proof. unfold scalar_source. stable_auto. Qed.
Hint Resolve stable_scalar_source : stable.

Lemma stable_access st at_ r off size write d : stable (access prog st at_ r off size write d).
Proof. unfold access, typed_field_load. stable_auto. Qed.
Hint Resolve stable_access : stable.

Lemma stable_write_stack st c r size v : stable (write_stack st c r size v).
Proof. unfold write_stack. stable_auto. Qed.
Hint Resolve stable_write_stack : stable.

Lemma stable_pass_arg at_ v : stable (pass_arg at_ v).
Proof. unfold pass_arg. stable_auto. Qed.
Hint Resolve stable_pass_arg : stable.

Lemma stable_call_subprog st at_ next off : stable (call_subprog ir st at_ next off).
Proof.
  unfold call_subprog. cbv zeta. destruct (list_find _ _) as [[callee s] |] eqn:E; [| auto with stable].
  apply list_find_Some in E as (E & _). apply lookup_lt_Some in E. rewrite Hn in E. stable_auto. by apply stable_join_entry.
Qed.

Lemma stable_check_args st at_ desc : stable (check_args prog st at_ desc).
Proof. unfold check_args, check_arg, check_ptr_arg, check_mem_arg. stable_auto. Qed.

Lemma stable_call_kfunc st at_ i id : stable (call_kfunc prog live st at_ i id).
Proof. unfold call_kfunc, acquired_mem_size, await. pose proof stable_check_args. stable_auto. Qed.
Hint Resolve stable_call_subprog stable_call_kfunc : stable.

Lemma stable_step st i : stable (step ir prog live st i).
Proof. unfold step, alu, addr_space_cast, load, store, atomic, check_exit. stable_auto. Qed.
End Stable.
