(* ===== verification/BpfTopo.v ===== *)
(** The call graph of the verifier: [topological_order] returns every
    subprogram once, callers before callees, or there is a recursion; and the
    facts about a built program the fixpoint relies on. *)

From stdpp Require Import sorting relations.
From S2P Require Import Prelude Word BpfOpcode BpfInsn BpfEncode BpfScalar ScalarOps BpfIr BpfBlocks BpfCfg BpfDom BpfWiden BpfBuild BpfVerify.
Import ir verify.
#[local] Open Scope nat_scope.

Section Topo.
Context (sps : list Subprog).

Definition callees_of (i : nat) : list nat := from_option callees [] (sps !! i).

(** The calls the subprograms of a list make. *)
Definition calls (l : list nat) : list nat := flat_map callees_of l.

Abbreviation occ := (fun c l => count_occ Nat.eq_dec l c).
Abbreviation n := (length sps).
Abbreviation all := (seq 0 n).

(** The callees are subprograms. *)
Context (Hc : forall i c, c ∈ callees_of i -> c < n).

Lemma calls_all : calls all = flat_map callees sps.
Proof.
  unfold calls. assert (E : callees_of <$> all = callees <$> sps).
  { apply list_eq. intros i. rewrite !list_lookup_fmap. unfold callees_of.
    destruct (decide (i < n)) as [L | L].
    - rewrite lookup_seq_lt by done. simpl. destruct (lookup_lt_is_Some_2 sps i L) as [s ->]. done.
    - rewrite (proj2 (lookup_ge_None all i)) by (rewrite length_seq; lia). by rewrite (proj2 (lookup_ge_None sps i)) by lia. }
  rewrite !flat_map_concat_map. f_equal. exact E.
Qed.

Lemma calls_app l k : calls (l ++ k) = calls l ++ calls k.
Proof. apply flat_map_app. Qed.

(** Distinct subprograms make some of all the calls. *)
Lemma occ_calls c l : NoDup l -> (forall i, i ∈ l -> i < n) -> occ c (calls l) <= occ c (calls all).
Proof.
  intros N L. assert (S : l ⊆+ all) by (apply NoDup_submseteq; [done |]; intros i Hi; apply elem_of_seq; specialize (L i Hi); lia).
  apply submseteq_Permutation in S as [k Hk].
  assert (E : calls all ≡ₚ calls (l ++ k)) by (by apply Permutation_flat_map).
  rewrite (Permutation_count_occ Nat.eq_dec) in E. rewrite E, calls_app, count_occ_app. lia.
Qed.

Lemma occ_in c l : c ∈ l <-> 0 < occ c l.
Proof. rewrite list_elem_of_In. apply count_occ_In. Qed.

(** * The loop *)

(** [placed] have been placed and of the calls of the one that is being
    placed [left] are to be counted. *)
Record counted (placed ready left indegree : list nat) : Prop := {
  ct_len : length indegree = n;
  ct_nodup : NoDup (placed ++ ready);
  ct_lt i : i ∈ placed ++ ready -> i < n;
  ct_degree c d : indegree !! c = Some d -> d + occ c (calls placed) = occ c (calls all) + occ c left;
  ct_zero c : indegree !! c = Some 0 <-> c ∈ placed ++ ready
}.

(** A call that is left to be counted: the callee has not been placed. *)
Lemma count_call placed ready c cs indegree d : counted placed ready (c :: cs) indegree -> indegree !! c = Some d ->
  counted placed (if Nat.pred d =? 0 then c :: ready else ready) cs (<[c := Nat.pred d]> indegree).
Proof.
  intros [L N Lt D Z] Ed. pose proof (lookup_lt_Some _ _ _ Ed) as Lc.
  assert (Np : NoDup placed) by (by apply NoDup_app in N as [? _]).
  pose proof (occ_calls c placed Np ltac:(intros i Hi; apply Lt, elem_of_app; by left)) as O.
  pose proof (D c d Ed) as Dc. rewrite count_occ_cons_eq in Dc by done.
  assert (Nin : c ∉ placed ++ ready) by (rewrite <- Z, Ed; intros [= ->]; lia).
  set (ready' := if Nat.pred d =? 0 then c :: ready else ready).
  assert (In : forall i, i ∈ placed ++ ready' <-> i ∈ placed ++ ready \/ i = c /\ Nat.pred d = 0).
  { intros i. subst ready'. destruct (Nat.eqb_spec (Nat.pred d) 0); rewrite !elem_of_app, ?elem_of_cons; naive_solver. }
  split.
  - by rewrite length_insert.
  - subst ready'. destruct (Nat.pred d =? 0); [| done].
    apply (NoDup_Permutation_proper (c :: placed ++ ready)); [apply Permutation_middle | by apply NoDup_cons].
  - intros i [Hi | [-> _]]%In; [by apply Lt | lia].
  - intros c' d'. rewrite list_lookup_insert_Some. intros [(<- & <- & _) | (Ne & E')]; [lia |].
    specialize (D c' d' E'). rewrite count_occ_cons_neq in D by done. done.
  - intros c'. rewrite In, <- Z. destruct (decide (c' = c)) as [-> | Ne].
    + rewrite list_lookup_insert_eq by done. rewrite Ed. split; [intros [= E]; by right |]. intros [[= ->] | [_ ->]]; done.
    + rewrite list_lookup_insert_ne by done. naive_solver.
Qed.

Lemma place_spec placed ready cs indegree : counted placed ready cs indegree -> (forall c, c ∈ cs -> c < n) ->
  exists indegree' ready', place cs (indegree, ready) = Some (indegree', ready') /\ counted placed ready' [] indegree'.
Proof.
  revert indegree ready. induction cs as [| c cs IH]; intros indegree ready C H; simpl; [by exists indegree, ready |].
  destruct (modify_total indegree c Nat.pred) as (d & Ed & ->); [rewrite (ct_len _ _ _ _ C); apply H; by left |]. simpl.
  rewrite list_lookup_insert_eq by (by eapply lookup_lt_Some). simpl.
  apply IH; [by apply count_call | intros c' Hc'; apply H; by right].
Qed.

(** Every subprogram comes after its callers. *)
Definition ordered (order : list nat) : Prop :=
  forall l c k, order = l ++ c :: k -> forall i, c ∈ callees_of i -> i ∈ l.

(** All callers of a subprogram that is ready have been placed. *)
Lemma ready_callers placed ready indegree c i : counted placed ready [] indegree -> c ∈ placed ++ ready -> c ∈ callees_of i -> i ∈ placed.
Proof.
  intros [L N Lt D Z] Hin Hi. apply Z in Hin. specialize (D c 0 Hin). simpl in D. rewrite Nat.add_0_r in D.
  destruct (decide (i ∈ placed)) as [| Ni]; [done |]. exfalso.
  assert (Li : i < n). { unfold callees_of in Hi. destruct (sps !! i) eqn:E; [by eapply lookup_lt_Some | by apply elem_of_nil in Hi]. }
  assert (Np : NoDup placed) by (by apply NoDup_app in N as [? _]).
  assert (O : occ c (calls (placed ++ [i])) <= occ c (calls all)).
  { apply occ_calls; [apply NoDup_app; split_and!; [done | | apply NoDup_singleton]; by intros x Hx ->%list_elem_of_singleton |].
    intros x [Hx | ->%list_elem_of_singleton]%elem_of_app; [apply Lt, elem_of_app; by left | done]. }
  rewrite calls_app, count_occ_app in O. simpl in O. rewrite app_nil_r in O. apply occ_in in Hi. lia.
Qed.

Lemma topo_loop_spec fuel indegree ready order : counted order ready [] indegree -> ordered order -> n <= length order + fuel ->
  exists indegree' order', topo_loop fuel sps indegree ready order = Some (indegree', order') /\
    counted order' [] [] indegree' /\ ordered order'.
Proof.
  revert indegree ready order. induction fuel as [| fuel IH]; intros indegree ready order C O F; destruct ready as [| sp ready]; simpl.
  1, 3: exists indegree, order; done.
  - exfalso. assert (S : order ++ sp :: ready ⊆+ all).
    { apply NoDup_submseteq; [apply C |]. intros i Hi. apply elem_of_seq. pose proof (ct_lt _ _ _ _ C i Hi). lia. }
    apply submseteq_length in S. rewrite length_app, length_seq in S. simpl in S. lia.
  - assert (Lsp : sp < n) by (apply (ct_lt _ _ _ _ C), elem_of_app; right; by left).
    destruct (lookup_lt_is_Some_2 sps sp Lsp) as [s Es]. rewrite Es. simpl.
    assert (Ecs : callees_of sp = s.(callees)) by (unfold callees_of; by rewrite Es).
    assert (C' : counted (order ++ [sp]) ready s.(callees) indegree).
    { destruct C as [L N Lt D Z]. split; rewrite <- ?app_assoc; simpl; try done.
      intros c d E. specialize (D c d E). rewrite calls_app, count_occ_app. simpl. rewrite app_nil_r, Ecs. simpl in D. lia. }
    destruct (place_spec _ _ _ _ C') as (indegree' & ready' & -> & C2); [intros c Hcc; apply (Hc sp); by rewrite Ecs |]. simpl.
    apply IH; [done | | rewrite length_app; simpl; lia]. intros l c k E i Hi.
    destruct k as [| x k].
    + apply app_inj_tail in E as [<- <-]. eapply ready_callers; [exact C | apply elem_of_app; right; by left | done].
    + destruct (exists_last (l := x :: k) ltac:(done)) as (k' & y & Ek). rewrite Ek in E.
      rewrite app_comm_cons, app_assoc in E. apply app_inj_tail in E as [E _]. by eapply O.
Qed.

Lemma count_callees_spec cs indegree : (forall c, c ∈ cs -> c < length indegree) ->
  exists indegree', count_callees cs indegree = Some indegree' /\ length indegree' = length indegree /\
    forall c d, indegree !! c = Some d -> indegree' !! c = Some (d + occ c cs).
Proof.
  revert indegree. induction cs as [| c cs IH]; intros indegree H; simpl.
  { exists indegree. split_and!; [done | done |]. intros c d ->. f_equal. lia. }
  destruct (modify_total indegree c S) as (d & Ed & ->); [apply H; by left |]. simpl.
  destruct (IH (<[c := S d]> indegree)) as (indegree' & -> & L & K); [intros c' Hc'; rewrite length_insert; apply H; by right |].
  exists indegree'. rewrite length_insert in L. split_and!; [done | done |]. intros c' d' E'.
  destruct (Nat.eq_dec c c') as [<- | N].
  - rewrite E' in Ed. injection Ed as ->. rewrite (K c (S d)) by (apply list_lookup_insert_eq; by eapply lookup_lt_Some). f_equal. lia.
  - rewrite (K c' d'); [done |]. by rewrite list_lookup_insert_ne.
Qed.

(** ** Recursion *)

Definition called (i c : nat) : Prop := c ∈ callees_of i.

Fixpoint linked (l : list nat) : Prop :=
  match l with
  | x :: (y :: _) as l' => called x y /\ linked l'
  | _ => True
  end.

Lemma linked_tc x l y : linked (x :: l ++ [y]) -> tc called x y.
Proof.
  revert x. induction l as [| z l IH]; intros x; simpl; [intros [H _]; by apply tc_once |].
  intros [H L]. eapply tc_l; [exact H |]. apply IH. exact L.
Qed.

Lemma called_lt i j : tc called i j -> i < n.
Proof.
  assert (H : forall x y, called x y -> x < n).
  { intros x y H. unfold called, callees_of in H. destruct (sps !! x) eqn:E; [by eapply lookup_lt_Some | by apply elem_of_nil in H]. }
  intros T. destruct T as [x y T | x y z T _]; eauto.
Qed.

Lemma linked_app l k : linked (l ++ k) -> linked l /\ linked k.
Proof.
  induction l as [| x l IH]; simpl; [done |]. destruct l as [| y l]; simpl in *.
  - destruct k; [done |]. tauto.
  - intros [H L]. destruct (IH L). tauto.
Qed.

Lemma duplicate (l : list nat) : ~ NoDup l -> exists x l1 l2 l3, l = l1 ++ x :: l2 ++ x :: l3.
Proof.
  induction l as [| x l IH]; intros N; [destruct N; constructor |]. destruct (decide (x ∈ l)) as [H | H].
  - apply list_elem_of_split in H as (l2 & l3 & ->). by exists x, [], l2, l3.
  - destruct IH as (y & l1 & l2 & l3 & ->); [intros N'; apply N; by constructor |]. by exists y, (x :: l1), l2, l3.
Qed.

(** A set of subprograms each of which another one of the set calls has a
    recursive one. *)
Lemma called_cycle (U : nat -> Prop) c0 : U c0 -> (forall c, U c -> c < n) -> (forall c, U c -> exists i, U i /\ called i c) ->
  exists i, tc called i i.
Proof.
  intros H0 Lt Pr.
  assert (L : forall k, exists l, length l = S k /\ Forall U l /\ linked l).
  { induction k as [| k (l & Ll & Fl & Kl)]; [exists [c0]; repeat constructor; done |]. destruct l as [| c l]; [done |].
    apply Forall_cons in Fl as [Uc Fl]. destruct (Pr c Uc) as (i & Ui & Hi). exists (i :: c :: l). simpl in *.
    split_and!; [lia | by repeat apply Forall_cons_2 | done | done]. }
  destruct (L n) as (l & Ll & Fl & Kl).
  destruct (duplicate l) as (x & l1 & l2 & l3 & ->).
  { intros N. assert (S : l ⊆+ all).
    { apply NoDup_submseteq; [done |]. intros i Hi. apply elem_of_seq. rewrite Forall_forall in Fl. specialize (Lt i (Fl i Hi)). lia. }
    apply submseteq_length in S. rewrite length_seq in S. lia. }
  exists x. apply linked_app in Kl as [_ Kl]. replace (x :: l2 ++ x :: l3) with ((x :: l2 ++ [x]) ++ l3) in Kl by (simpl; by rewrite <- app_assoc).
  apply linked_app in Kl as [Kl _]. by apply (linked_tc x l2 x).
Qed.

(** A subprogram that is left when nothing is ready has a caller that is
    left. *)
Lemma left_caller placed indegree c : counted placed [] [] indegree -> c < n -> c ∉ placed ->
  exists i, (i < n /\ i ∉ placed) /\ called i c.
Proof.
  intros [L N Lt D Z] Hlt Hn. rewrite app_nil_r in N, Lt, Z. destruct (lookup_lt_is_Some_2 indegree c) as [d Ed]; [lia |].
  assert (Dz : d <> 0) by (intros ->; by apply Hn, Z). specialize (D c d Ed). simpl in D.
  set (rest := filter (fun i => i ∉ placed) all).
  assert (E : all ≡ₚ placed ++ rest).
  { apply NoDup_Permutation; [apply NoDup_seq | apply NoDup_app; split_and!; [done | | apply NoDup_filter, NoDup_seq] |].
    - intros x Hx [Hx' _]%list_elem_of_filter. done.
    - intros x. rewrite elem_of_app. subst rest. rewrite list_elem_of_filter. split; [| intros [Hx | [_ Hx]]; [| done]].
      + intros Hx. destruct (decide (x ∈ placed)); auto.
      + apply elem_of_seq. specialize (Lt x Hx). lia. }
  assert (Ec : occ c (calls all) = occ c (calls placed) + occ c (calls rest)).
  { rewrite <- count_occ_app, <- calls_app. apply (Permutation_count_occ Nat.eq_dec). by apply Permutation_flat_map. }
  assert (H : c ∈ calls rest) by (apply occ_in; lia). apply list_elem_of_In, in_flat_map in H as (i & Hi & Hci).
  apply list_elem_of_In in Hi, Hci. subst rest. apply list_elem_of_filter in Hi as [Hi1 Hi2%elem_of_seq]. exists i. split; [lia || (split; [lia | done]) | done].
Qed.

Lemma topological_order_spec : exists r, topological_order sps = Some r /\
  match r with
  | Ok order => order ≡ₚ all /\ ordered order
  | Err _ => exists i, tc called i i
  end.
Proof.
  unfold topological_order. destruct (count_callees_spec (flat_map callees sps) (replicate n 0)) as (indegree & -> & L & K).
  { intros c Hin. rewrite length_replicate, <- calls_all in *. apply list_elem_of_In, in_flat_map in Hin as (i & _ & Hi).
    apply (Hc i). by apply list_elem_of_In. }
  simpl. rewrite length_replicate in L.
  assert (K' : forall c, c < n -> indegree !! c = Some (occ c (calls all))).
  { intros c Hlt. rewrite calls_all. apply (K c 0). by apply lookup_replicate. }
  set (ready := reverse (filter (fun i => indegree !! i = Some 0) all)).
  assert (In : forall i, i ∈ ready <-> indegree !! i = Some 0 /\ i < n).
  { intros i. subst ready. rewrite elem_of_reverse, list_elem_of_filter, elem_of_seq. intuition lia. }
  destruct (topo_loop_spec n indegree ready []) as (indegree' & order & -> & C & O).
  - split; try done; simpl.
    + subst ready. rewrite reverse_Permutation. apply NoDup_filter, NoDup_seq.
    + intros i Hi. by apply In.
    + intros c d E. pose proof (lookup_lt_Some _ _ _ E). rewrite K' in E by lia. injection E as <-. lia.
    + intros c. rewrite In. split; [| tauto]. intros E. split; [done |]. apply lookup_lt_Some in E. lia.
  - intros l c k E. by destruct l.
  - simpl. lia.
  - simpl. destruct (Nat.eqb_spec (length order) n) as [E | N].
    + eexists. split; [done |]. split; [| done]. destruct C as [_ Nd Lt _ _]. rewrite app_nil_r in Nd, Lt.
      apply submseteq_length_Permutation; [| rewrite length_seq; lia]. apply NoDup_submseteq; [done |].
      intros i Hi. apply elem_of_seq. specialize (Lt i Hi). lia.
    + assert (Cy : exists i, tc called i i).
      { destruct (decide (Forall (fun c => c ∈ order) all)) as [F | F].
        - exfalso. apply N. apply Nat.le_antisymm.
          + rewrite <- (length_seq n 0). apply submseteq_length, NoDup_submseteq; [pose proof (ct_nodup _ _ _ _ C) as Nd; by rewrite app_nil_r in Nd |].
            intros x Hx. apply elem_of_seq. pose proof (ct_lt _ _ _ _ C x) as Lt. rewrite app_nil_r in Lt. specialize (Lt Hx). lia.
          + rewrite <- (length_seq n 0) at 1. apply submseteq_length, NoDup_submseteq; [apply NoDup_seq |]. by rewrite Forall_forall in F.
        - apply not_Forall_Exists in F; [| apply _]. apply Exists_exists in F as (c & Hin%elem_of_seq & Hn).
          apply (called_cycle (fun c => c < n /\ c ∉ order) c); [split; [lia | done] | by intros ? [? _] |].
          intros c' [Hc1 Hc2]. by eapply left_caller. }
      assert (Ls : forall i, i < n -> exists s, sps !! i = Some s) by (intros i Hi; by apply lookup_lt_is_Some_2).
      destruct (list_find (fun d => 0 < d) indegree') as [[i d] |] eqn:Ef.
      * apply list_find_Some in Ef as (Ei & _). apply lookup_lt_Some in Ei. rewrite (ct_len _ _ _ _ C) in Ei.
        destruct (Ls i Ei) as [s ->]. simpl. by eexists.
      * destruct (Ls 0) as [s ->]; [| simpl; by eexists]. destruct Cy as [i Hi].
        enough (i < n) by lia. eapply called_lt. exact Hi.
Qed.
End Topo.

(** * Built programs *)

(** The parts of a subprogram the later passes keep. *)
Definition core (sp : Subprog) : nat * list nat := (sp.(entry_block), sp.(callees)).

Lemma analyse_all_core k l st sps st' sps' : dom.analyse_all k l st sps = Some (st', sps') -> core <$> sps' = core <$> sps.
Proof.
  revert k st sps. induction l as [| e l IH]; intros k st sps; simpl; [by intros [= _ ->] |].
  destruct (dom.analyse st e) as [[st1 rpo] |]; [| done]. simpl. unfold modify. destruct (sps !! k) as [sp |] eqn:E; [| done]. simpl.
  intros H. rewrite (IH _ _ _ H), list_fmap_insert. apply list_insert_id. by rewrite list_lookup_fmap, E.
Qed.

Lemma build_inv prog ir : build prog = Some (Ok ir) ->
  exists l ios slot ss es ths bs bo sps sps1,
    decode_pass (length prog) prog 0 [] (replicate (length prog) None) = Some (Ok (l, ios, slot)) /\
    resolve_all (length prog) ios l = Ok (ss, es, ths) /\
    mapM (make_subprog ios bo) (dedup (sort_nat (0 :: es))) = Some sps /\
    call_graph bo bs (dedup (sort_nat (0 :: es))) 0 l sps = Some sps1 /\
    core <$> ir.(subprogs) = core <$> (dedup_subprog <$> sps1) /\ ir.(block_of) = bo /\ ir.(ir_of_slot) = ios /\
    ir.(thresholds) = dedup (sort_Z (ths ++ [0; -1; - 2 ^ 31; 2 ^ 31 - 1; 2 ^ 32 - 1]%Z)).
Proof.
  unfold build, build_cfg. case_bool_decide; [done |]. destruct (decode_pass _ _ _ _ _) as [[[[l ios] slot] |] |] eqn:Ed; try done. simpl.
  destruct (negb _); [done |]. destruct (resolve_all _ _ _) as [[[ss es] ths] |] eqn:Er; [| done].
  destruct (confine _ _ _) as [[[] |] |]; try done. simpl. destruct (build_blocks _ _ _ _ _) as [[bs0 bo] |]; [| done]. simpl.
  destruct (mapM _ _) as [sps |] eqn:Em; [| done]. simpl. destruct (label_subprogs _ _ _ _ _ _) as [bs |]; [| done]. simpl.
  destruct (call_graph _ _ _ _ _ _) as [sps1 |] eqn:Ec; [| done]. simpl. destruct (dom.analyse_all _ _ _ _) as [[[bs2 be] sps2] |] eqn:Ea; [| done]. simpl.
  destruct (scc.widening_points _) as [bs3 |]; [| done]. simpl. intros [= <-]. simpl.
  exists l, ios, slot, ss, es, ths, bs, bo, sps, sps1. split_and!; try done. by eapply analyse_all_core.
Qed.

(** Callees are indices of entries. *)
Definition callees_in (k : nat) (sps : list Subprog) : Prop := Forall (fun sp => Forall (fun c => c < k) sp.(callees)) sps.

Lemma call_graph_callees bo bs es i l sps sps' k : es <> [] -> length es = k -> callees_in k sps ->
  call_graph bo bs es i l sps = Some sps' -> callees_in k sps' /\ length sps' = length sps.
Proof.
  intros Ne Lk. revert i sps. induction l as [| insn l IH]; intros i sps F; simpl; [by intros [= <-] |].
  destruct (ir_op insn) as [| | | | | | | | | | | | | | [off | id] |]; try (by apply IH).
  destruct (index_of bo i) as [b |]; [| done]. simpl. destruct (bs !! b) as [blk |]; [| done]. simpl.
  destruct (b_subprog blk) as [c |]; [| done]. simpl. unfold modify. destruct (sps !! c) as [sp |] eqn:E; [| done]. simpl. intros H.
  apply IH in H; [by rewrite length_insert in H |]. apply Forall_insert; [done |]. simpl. apply Forall_app. split.
  - by apply (Forall_lookup_1 _ _ _ _ F E).
  - apply Forall_singleton. unfold search. destruct (list_find _ es) as [[j e] |] eqn:Ef; simpl.
    + apply list_find_Some in Ef as (Ej & _). apply lookup_lt_Some in Ej. lia.
    + destruct es; [done | simpl in *; lia].
Qed.

Lemma build_callees prog ir : build prog = Some (Ok ir) -> forall i c, c ∈ callees_of ir.(subprogs) i -> c < length ir.(subprogs).
Proof.
  intros E. destruct (build_inv prog ir E) as (l & ios & slot & ss & es & ths & bs & bo & sps & sps1 & _ & _ & Em & Ec & Ek & _).
  destruct (entries_head es) as [es' Eh]. pose proof (length_mapM _ _ _ Em) as Lm.
  assert (Ne : dedup (sort_nat (0 :: es)) <> []) by (by rewrite Eh).
  assert (F0 : callees_in (length sps) sps).
  { apply mapM_Some in Em. apply Forall_lookup. intros i sp Ei. destruct (Forall2_lookup_r _ _ _ _ _ Em Ei) as (e & _ & Ee).
    unfold make_subprog in Ee. destruct (index_of ios e); [| done]. simpl in Ee. destruct (index_of bo _); [| done]. by injection Ee as <-. }
  destruct (call_graph_callees _ _ _ _ _ _ _ (length sps) Ne Lm F0 Ec) as [F L].
  assert (Ln : length ir.(subprogs) = length sps1) by (apply (f_equal length) in Ek; by rewrite !length_fmap in Ek).
  intros i c. unfold callees_of. destruct (ir.(subprogs) !! i) as [sp |] eqn:Ei; simpl; [| by intros ?%elem_of_nil].
  apply (f_equal (lookup i)) in Ek. rewrite !list_lookup_fmap, Ei in Ek. destruct (sps1 !! i) as [sp1 |] eqn:E1; [| done].
  injection Ek as _ Ek. rewrite Ek. simpl. rewrite elem_of_dedup. unfold sort_nat. rewrite merge_sort_Permutation. intros Hin.
  pose proof (Forall_lookup_1 _ _ _ _ F E1) as Fc. simpl in Fc. rewrite Forall_forall in Fc. specialize (Fc c Hin). lia.
Qed.

(** The main program starts with the first instruction. *)
Lemma build_main prog ir : build prog = Some (Ok ir) -> index_of ir.(ir_of_slot) 0 = Some 0 ->
  exists sp, ir.(subprogs) !! 0 = Some sp /\ index_of ir.(block_of) 0 = Some sp.(entry_block).
Proof.
  intros E Z. destruct (build_inv prog ir E) as (l & ios & slot & ss & es & ths & bs & bo & sps & sps1 & _ & _ & Em & Ec & Ek & -> & Ei & _).
  destruct (entries_head es) as [es' Eh]. rewrite Eh in Em. apply mapM_Some in Em. inversion Em as [| ? sp ? sps' Esp _]; subst.
  apply call_graph_entries in Ec. unfold make_subprog in Esp. rewrite Z in Esp. simpl in Esp.
  destruct (index_of bo 0) as [b |] eqn:Eb; [| done]. simpl in Esp. injection Esp as <-.
  destruct sps1 as [| sp1 sps1]; [done |]. simpl in Ec. injection Ec as Ec _.
  destruct (subprogs ir) as [| sp0 sps0]; [done |]. simpl in Ek. injection Ek as Ek _ _. exists sp0. split; [done |]. by rewrite Ek, Ec.
Qed.

Lemma resolve_thresholds len ios insn ss es ths : decoded_ok insn.(ir_op) -> resolve len ios insn = Ok (ss, es, ths) -> Forall (is_i 64) ths.
Proof.
  assert (K : forall i, is_i 32 i -> Forall (is_i 64) [i]) by (intros i Hi; apply Forall_singleton, (is_i_mono 32); [lia | done]).
  unfold resolve. destruct (ir_op insn) as [? ? ? src | | ? ? src ? | | | | | | | | ? value | | ? ? ? src ? | | [|] |]; cbn [decoded_ok]; intros Hd H; simplify_eq/=;
    repeat (case_match; simplify_eq/=; try done); try apply Forall_nil_2; try (apply K; tauto); try (apply Forall_singleton; auto with word).
Qed.

Lemma resolve_all_thresholds len ios l ss es ths : Forall (fun x => decoded_ok x.(ir_op)) l ->
  resolve_all len ios l = Ok (ss, es, ths) -> Forall (is_i 64) ths.
Proof.
  intros F. revert ss es ths. induction F as [| insn l Hi _ IH]; intros ss es ths; simpl; [by intros [= <- <- <-] |].
  destruct (resolve len ios insn) as [[[s1 e1] t1] |] eqn:R; [| done]. simpl.
  destruct (resolve_all len ios l) as [[[s2 e2] t2] |]; [| done]. simpl. intros [= <- <- <-].
  apply Forall_app. split; [by eapply resolve_thresholds | by eapply IH].
Qed.

Lemma build_thresholds prog ir : Forall insn_ok prog -> build prog = Some (Ok ir) -> Forall (is_i 64) ir.(thresholds).
Proof.
  intros Hp E. destruct (build_inv prog ir E) as (l & ios & slot & ss & es & ths & bs & bo & sps & sps1 & Ed & Er & _ & _ & _ & _ & _ & ->).
  destruct (decode_pass_spec prog Hp (length prog) 0 [] (replicate (length prog) None)) as (r & Er' & Hr); [apply decoded_start | lia |].
  rewrite Ed in Er'. injection Er' as <-. destruct (Hr _ _ _ eq_refl) as [I _].
  assert (F : Forall (is_i 64) ths).
  { eapply resolve_all_thresholds; [| exact Er]. apply Forall_lookup. intros k x Ex. destruct (du_insn _ _ _ _ I k x Ex) as (D & _).
    by apply (decode_shape _ _ _ _ Hp D). }
  apply Forall_forall. intros t. rewrite elem_of_dedup. unfold sort_Z. rewrite merge_sort_Permutation, elem_of_app.
  rewrite Forall_forall in F. intros [Ht | Ht]; [by apply F |]. rewrite !elem_of_cons, elem_of_nil in Ht.
  destruct Ht as [-> | [-> | [-> | [-> | [-> | []]]]]]; split; vm_compute; congruence.
Qed.

(** The recursion check is exact.  For every program that builds, the
    topological sort of its call graph returns (within one step for every
    subprogram): either an order that lists each subprogram once with all its
    callers before it, or an error, and then some subprogram calls itself
    through a chain of calls. *)
Lemma recursion_check_exact prog ir : build prog = Some (Ok ir) ->
  exists r, topological_order ir.(subprogs) = Some r /\
    match r with
    | Ok order => order ≡ₚ seq 0 (length ir.(subprogs)) /\
        forall l c k, order = l ++ c :: k -> forall i, c ∈ callees_of ir.(subprogs) i -> i ∈ l
    | Err _ => exists i, tc (fun i c => c ∈ callees_of ir.(subprogs) i) i i
    end.
Proof. intros E. exact (topological_order_spec ir.(subprogs) (build_callees prog ir E)). Qed.

(** Slot 0 calls slot 2; both routines return. *)
Definition one_call : list Insn :=
  assemble [Decoded.Call (CallTarget.Subprog 1); Decoded.Exit; Decoded.Mov true R0 (Source.Imm 0) None; Decoded.Exit].

Definition one_call_ir : Ir :=
  match build one_call with Some (Ok ir) => ir | _ => mk_ir [] [] [] [] [] [] [] end.

Lemma recursion_check_exact_witness : build one_call = Some (Ok one_call_ir) /\
  exists r, topological_order one_call_ir.(subprogs) = Some r /\
    match r with
    | Ok order => order ≡ₚ seq 0 (length one_call_ir.(subprogs)) /\
        forall l c k, order = l ++ c :: k -> forall i, c ∈ callees_of one_call_ir.(subprogs) i -> i ∈ l
    | Err _ => exists i, tc (fun i c => c ∈ callees_of one_call_ir.(subprogs) i) i i
    end.
Proof.
  assert (E : build one_call = Some (Ok one_call_ir)) by (vm_compute; reflexivity).
  split; [exact E |]. exact (recursion_check_exact one_call one_call_ir E).
Defined.

