(* ===== verification/BpfVerified.v ===== *)
(** The contract of [verify]: a program it accepts runs on the reference
    interpreter, for any context of the declared types, without an access
    outside its regions, a read of an uninitialised byte, or a jump out of the
    program. *)

From stdpp Require Import gmap strings.
From S2P Require Import Prelude Word BpfOpcode BpfInsn BpfEncode Tnum TnumSound TnumRange BpfScalar ScalarSound ScalarOps BpfInterp.
From S2P Require Import BpfRefine ScalarInterp BpfMachine BpfKfunc BpfIr BpfLiveness BpfBlocks BpfCfg BpfDom BpfGraph BpfRegions.
From S2P Require Import BpfWiden BpfBuild BpfState BpfAnalysis BpfVerify BpfStateSound BpfStackSound BpfTriple BpfArithSound BpfAccessSound BpfStepSound.
From S2P Require Import BpfFixpoint BpfTopo.
Import AbsValue analysis verify.

(** * The descriptors *)

Lemma signed_bits_wf bits : 0 < bits -> swf (scalar.signed_bits bits).
Proof.
  intros Hb. unfold scalar.signed_bits. destruct (_ || _) eqn:E; [apply swf_UNKNOWN |].
  rewrite orb_false_iff, Z.eqb_neq, Z.leb_gt in E.
  destruct (sign_extend_spec tnum.UNKNOWN 0 wf_UNKNOWN ltac:(split; vm_compute; congruence) bits ltac:(lia)) as [W _].
  apply normalized_sound; auto with word.
Qed.

Lemma validate_type_ok f at_ : kfunc.validate_type f at_ = Ok tt -> field_ok f.
Proof.
  unfold kfunc.validate_type, field_ok, value_of. destruct (a_kind f) as [bits signed | kind key |]; intros H r; [| | done].
  - assert (B : 0 < bits).
    { destruct (_ || _ || _ || _) eqn:E; [| done]. rewrite !orb_true_iff, !Z.eqb_eq in E. lia. }
    destruct signed; [by apply signed_bits_wf | apply unsigned_bits_wf; lia].
  - apply swf_constant. auto with word.
Qed.

Lemma check_kfuncs_ok ks : check_kfuncs ks = Ok tt -> Forall (fun k => field_ok k.(k_ret)) ks.
Proof.
  induction ks as [| k ks IH]; simpl; [done |]. destruct (kfunc.validate k) as [[] |] eqn:E; [| done]. intros H. constructor; [| by apply IH].
  unfold kfunc.validate, kfunc.reject in E. do 3 (case_match; [done |]).
  destruct (kfunc.validate_type (k_ret k) U64_MAX) as [[] |] eqn:Et; [| done]. by eapply validate_type_ok.
Qed.

Lemma check_ctx_fields_ok i fs : check_ctx_fields i fs = Ok tt -> Forall field_ok fs.
Proof.
  revert i. induction fs as [| f fs IH]; intros i; simpl; [done |]. destruct (kfunc.validate_type f (Z.of_nat i)) as [[] |] eqn:E; [| done].
  intros H. constructor; [by eapply validate_type_ok | by eapply IH].
Qed.

(** What [verify] has checked when it calls [run]. *)
Lemma verify_inv prog vp : verify prog = Some (Ok vp) -> program_ok prog /\ verify.run prog = Some (Ok vp).
Proof.
  unfold verify. case_bool_decide; [done |]. destruct (check_kfuncs (kfuncs prog)) as [[] |] eqn:Ek; [| done]. simpl.
  destruct (check_ctx_fields 0 (ctx_fields prog)) as [[] |] eqn:Ec; [| done]. simpl.
  destruct (check_objects [] (objects prog)); [| done]. simpl. intros Hr. split; [| done].
  split; [by eapply check_ctx_fields_ok | by apply check_kfuncs_ok].
Qed.

(** * The analysis of the main program *)

Definition ctx_len (prog : Program) : Z := Z.of_nat (length prog.(ctx_fields)) * 8.

Definition blank (ir : Ir) (entries : list (option AbsState)) : Analysis :=
  mk_analysis [] [] [] [] false entries (replicate (length ir.(subprogs)) 0) 0.

(** The subprograms before the main program. *)
Fixpoint before_main (order : list nat) : list nat :=
  match order with
  | [] => []
  | O :: _ => []
  | i :: order => i :: before_main order
  end.

(** The states of the main program's blocks that [run] ends with. *)
Definition main_states (prog : Program) : option (Ir * Masks * list (option AbsState)) :=
  match build prog.(p_insns) with
  | Some (Ok ir) =>
      let n := length ir.(subprogs) in
      match topological_order ir.(subprogs), liveness.liveness ir, liveness.precision ir,
            ir.modify (replicate n None) 0 (fun _ => Some (state.entry (ctx_len prog))) with
      | Some (Ok order), Some live, Some prec, Some entries =>
          match foldM (fun _ sp => analyse_subprog ir prog live prec sp) (before_main order) tt (blank ir entries) with
          | Some (Ok (_, a)) =>
              match a.(an_entry) !! 0%nat with
              | Some (Some e) =>
                  match fixpoint ir prog live prec 0 e (set_current 0 a) with
                  | Some (Ok (states, _)) => Some (ir, live, states)
                  | _ => None
                  end
              | _ => None
              end
          | _ => None
          end
      | _, _, _, _ => None
      end
  | _ => None
  end.

(** No comparison of a pointer with null, at the end of a block in its final
    state, is one of an address that can be zero. *)
Definition block_null_safe (prog : Program) (ir : Ir) (live : Masks) (states : list (option AbsState)) (b : nat) : bool :=
  match ir.(blocks) !! b, states !! b with
  | Some blk, Some (Some st) =>
      let last := (blk.(b_end) - 1)%nat in
      match foldM (step ir prog live) (seq blk.(b_start) (last - blk.(b_start))) st (blank ir (replicate (length ir.(subprogs)) None)),
            ir.(insns) !! last with
      | Some (Ok (st, _)), Some insn =>
          match insn.(ir_op) with
          | Decoded.JumpCond wide _ dst src _ => null_test_safe st wide dst src
          | _ => true
          end
      | _, _ => true
      end
  | _, _ => true
  end.

Definition null_tests_safe (prog : Program) : bool :=
  match main_states prog with
  | Some (ir, live, states) => forallb (block_null_safe prog ir live states) (seq 0 (length states))
  | None => true
  end.

(** ** What an accepted program's analysis established *)

Lemma foldM_app {A B} (f : A -> B -> M A) l k x a r : foldM f (l ++ k) x a = Some (Ok r) ->
  exists y a1, foldM f l x a = Some (Ok (y, a1)) /\ foldM f k y a1 = Some (Ok r).
Proof.
  revert x a. induction l as [| b l IH]; intros x a; simpl; [by exists x, a |]. unfold bind at 1.
  destruct (f x b a) as [[[x' a'] |] |] eqn:E; try done. intros H. destruct (IH x' a' H) as (y & a1 & H1 & H2).
  exists y, a1. split; [| done]. unfold bind. by rewrite E.
Qed.

Lemma before_main_spec order : 0%nat ∈ order -> exists k, order = before_main order ++ 0%nat :: k.
Proof.
  induction order as [| i order IH]; [by intros ?%elem_of_nil |]. intros [<- | H]%elem_of_cons; [by exists order |].
  destruct i as [| i]; [by exists order |]. destruct (IH H) as [k E]. exists k. simpl. by rewrite <- E.
Qed.

Section Accepted.
Context (prog : Program) (P : program_ok prog) (Hp : Forall insn_ok prog.(p_insns)) (Hl : Z.of_nat (length prog.(p_insns)) < 2 ^ 64).
Context (ir : Ir) (Eb : build prog.(p_insns) = Some (Ok ir)) (live prec : Masks).

Abbreviation len := (ctx_len prog).
Abbreviation init := (state.entry len).

Lemma built_ops i x : ir.(insns) !! i = Some x -> decoded_ok x.(ir_op).
Proof using Hp Eb.
  intros Ei. pose proof (fi_built _ _ (build_finished _ ir Hp Eb)) as B.
  destruct (du_insn _ _ _ _ (bt_decoded _ _ B) i x Ei) as (D & _). by apply (decode_shape _ _ _ _ Hp D).
Qed.

Lemma entry_wf : state_wf init.
Proof using Type.
  assert (W : swf (scalar.constant 0)) by (apply swf_constant; auto with word).
  split; simpl; [done | | apply default_wf]. repeat constructor; done.
Qed.

Lemma analyse_subprog_ok sp : spec len init (analyse_subprog ir prog live prec sp) (fun _ => True).
Proof using Hp Eb P.
  intros a x a' O. unfold analyse_subprog. destruct (an_entry a !! sp) as [[e |] |] eqn:E; try done; [| by intros [= <- <-]].
  unfold bind. destruct (fixpoint ir prog live prec sp e (set_current sp a)) as [[[states a1] |] |] eqn:Ef; try done. intros [= <- <-].
  assert (We : state_wf e) by apply (Forall_lookup_1 _ _ _ _ (an_wf _ _ _ O) E).
  assert (O' : an_ok len init (set_current sp a)) by (by destruct O).
  destruct (fixpoint_spec len init ir prog live prec built_ops P (build_thresholds _ ir Hp Eb) sp e _ _ _ We O' Ef) as [O1 _]. done.
Qed.

(** The main program's states: closed under its edges from an entry state
    that covers the initial state. *)
Lemma analysed_main order entries a : 0%nat ∈ order -> an_ok len init (blank ir entries) ->
  foldM (fun _ sp => analyse_subprog ir prog live prec sp) order tt (blank ir entries) = Some (Ok (tt, a)) ->
  exists states a1 e a2 s reachable st,
    foldM (fun _ sp => analyse_subprog ir prog live prec sp) (before_main order) tt (blank ir entries) = Some (Ok (tt, a1)) /\
    a1.(an_entry) !! 0%nat = Some (Some e) /\ fixpoint ir prog live prec 0 e (set_current 0 a1) = Some (Ok (states, a2)) /\
    ir.(subprogs) !! 0%nat = Some s /\ dom.reachable_blocks ir.(blocks) (Some s.(entry_block)) = Some reachable /\
    closed len init ir prog live reachable states /\ states !! s.(entry_block) = Some (Some st) /\ incl len init st.
Proof using Hp Eb P.
  intros H0 O H. destruct (before_main_spec order H0) as [k Ek]. rewrite Ek in H. apply foldM_app in H as ([] & a1 & H1 & H2).
  assert (O1 : an_ok len init a1).
  { eapply (spec_foldM len init _ (fun _ => True)); [done | | exact O | exact H1]. intros. apply analyse_subprog_ok. }
  simpl in H2. unfold bind at 1 in H2. unfold analyse_subprog in H2 at 1. destruct (an_main _ _ _ O1) as (e & Ee & Ce). rewrite Ee in H2.
  unfold bind at 1 in H2. destruct (fixpoint ir prog live prec 0 e (set_current 0 a1)) as [[[states a2] |] |] eqn:Ef; try done.
  assert (We : state_wf e) by apply (Forall_lookup_1 _ _ _ _ (an_wf _ _ _ O1) Ee).
  assert (O' : an_ok len init (set_current 0 a1)) by (by destruct O1).
  destruct (fixpoint_spec len init ir prog live prec built_ops P (build_thresholds _ ir Hp Eb) 0 e _ _ _ We O' Ef) as (_ & s & reachable & st & Es & Er & C & E & I).
  exists states, a1, e, a2, s, reachable, st. split_and!; try done. by eapply incl_trans.
Qed.
End Accepted.

(** * Runs *)

(** Results a run may have: the program's value, the fuel's end, or an
    instruction the reference interpreter does not have. *)
Definition clean (r : Result Z Trap) : Prop :=
  match r with Ok _ | Err OutOfFuel | Err Unsupported => True | Err _ => False end.

Lemma bind_inv {A B} (c : M A) (k : A -> M B) a r : bind c k a = Some (Ok r) ->
  exists x a1, c a = Some (Ok (x, a1)) /\ k x a1 = Some (Ok r).
Proof. unfold bind. destruct (c a) as [[[x a1] |] |]; try done. eauto. Qed.

Lemma expect_inv {A} (o : option A) a x a1 : expect o a = Some (Ok (x, a1)) -> o = Some x /\ a1 = a.
Proof. unfold expect. destruct o; [| done]. by intros [= <- <-]. Qed.

Section Run.
Context (prog : Program) (P : program_ok prog) (Hp : Forall insn_ok prog.(p_insns)) (Hl : Z.of_nat (length prog.(p_insns)) < 2 ^ 64).
Context (ir : Ir) (Eb : build prog.(p_insns) = Some (Ok ir)) (live : Masks).

Abbreviation len := (ctx_len prog).
Abbreviation init := (state.entry len).
Abbreviation insns_ := prog.(p_insns).

Lemma run_built : built insns_ ir.
Proof using Hp Eb. exact (fi_built _ _ (build_finished _ ir Hp Eb)). Qed.

Lemma iter_exec pc i x m : ir.index_of ir.(ir_of_slot) pc = Some i -> ir.(insns) !! i = Some x ->
  interp.iter insns_ (Z.of_nat pc) m = interp.exec x.(ir_op) (Z.of_nat (next_slot x)) m.
Proof using Hp Eb.
  intros Hi Ex. pose proof run_built as B. destruct (index_insn _ ir B pc i Hi) as (y & Ey & Es & D). rewrite Ex in Ey. injection Ey as <-.
  pose proof (du_insn _ _ _ _ (bt_decoded _ _ B) i x Ex) as (_ & Eo & _). rewrite Es in Eo. apply lookup_lt_Some in Eo.
  rewrite (du_len _ _ _ _ (bt_decoded _ _ B)) in Eo. unfold interp.iter. rewrite (proj2 (Z.leb_gt _ _)) by lia.
  rewrite Nat2Z.id, D. unfold next_slot. rewrite Es. f_equal. lia.
Qed.

(** The end of a block is safe when its null test is. *)
Definition end_safe (blk : Block) (st : AbsState) : Prop :=
  forall x wide op dst src off, ir.(insns) !! (blk.(b_end) - 1)%nat = Some x -> x.(ir_op) = Decoded.JumpCond wide op dst src off ->
    null_test_safe st wide dst src = true.

(** Where a block's last instruction goes, in a state of the edge. *)
Definition lands (m : Machine) (blk : Block) (outs : list (nat * AbsState)) (f : interp.Flow) : Prop :=
  match f with
  | interp.Continue pc' m' =>
      m'.(m_ctx) = m.(m_ctx) /\
      forall t j k, pc' = Z.of_nat t -> Z.of_nat t < 2 ^ 64 -> ir.index_of ir.(ir_of_slot) t = Some j -> ir.index_of ir.(block_of) j = Some k ->
        k ∈ blk.(b_succs) -> exists st, (k, st) ∈ outs /\ smember_state len st m'
  | interp.Return r _ => clean r
  end.

Lemma cond_lands blk st m outs x wide op dst src off a a' next :
  state_wf st -> smember_state len st m -> machine_ok m -> an_ok len init a -> reg_ok dst -> source_ok src ->
  null_test_safe st wide dst src = true ->
  (let! taken_block := expect (block_at_slot ir next off) in
   let! fall_block := expect (block_at_slot ir next 0) in
   let p := Pred.of_cond op in
   let! taken := refine st x wide p dst src in
   let! fall := refine st x wide (Pred.negate p) dst src in
   ret (match taken with Some s => [(taken_block, s)] | None => [] end ++
        match fall with Some s => [(fall_block, s)] | None => [] end)) a = Some (Ok (outs, a')) ->
  exists f, interp.exec (Decoded.JumpCond wide op dst src off) next m = Some f /\ lands m blk outs f.
Proof using Type.
  intros W Hst Hm O Hd Hs N H. apply bind_inv in H as (tb & ? & [Et ->]%expect_inv & H). apply bind_inv in H as (fb & ? & [Ef ->]%expect_inv & H).
  cbv zeta in H. apply bind_inv in H as (taken & a1 & Ht & H). apply bind_inv in H as (fall & a2 & Hf & H). injection H as <- <-.
  destruct (refine_kept len init st x wide (Pred.of_cond op) dst src W Hd Hs a taken a1 O Ht) as [O1 [_ Kt]].
  destruct (refine_kept len init st x wide (Pred.negate (Pred.of_cond op)) dst src W Hd Hs a1 fall a2 O1 Hf) as [_ [_ Kf]].
  cbn [interp.exec]. destruct (val_total m src wide Hm Hs) as (y & Ey & _). destruct (get_reg_total m dst Hm Hd) as (v & Ev & _).
  rewrite Ey, Ev. eexists. split; [done |]. split; [done |]. intros t j k Epc Lt Ej Ek _.
  assert (Bt : forall o, interp.goto next o = Z.of_nat t -> block_at_slot ir next o = Some k).
  { intros o Eg. unfold block_at_slot. unfold interp.goto in Eg. rewrite Eg, Nat2Z.id, Ej. exact Ek. }
  destruct (interp.cond op wide v y) eqn:Ec.
  - destruct (Kt m v y Hm Hst Ev Ey) as (st' & -> & M); [by rewrite holds_of | done |]. exists st'. split; [| done].
    rewrite (Bt off Epc) in Et. injection Et as <-. apply elem_of_app. left. by left.
  - destruct (Kf m v y Hm Hst Ev Ey) as (st' & -> & M); [by rewrite holds_negate, holds_of, Ec | done |]. exists st'. split; [| done].
    assert (Eg : interp.goto next 0 = Z.of_nat t).
    { unfold interp.goto. rewrite Z.add_0_r, Epc. apply wrap_small. unfold is_u. lia. }
    rewrite (Bt 0 Eg) in Ef. injection Ef as <-. apply elem_of_app. right. by left.
Qed.

Lemma end_lands blk st m outs x a a' :
  state_wf st -> smember_state len st m -> machine_ok m -> ctx_holds len prog m -> an_ok len init a ->
  ir.(insns) !! (blk.(b_end) - 1)%nat = Some x -> end_safe blk st -> walk_end ir prog live blk st a = Some (Ok (outs, a')) ->
  exists f, interp.exec x.(ir_op) (Z.of_nat (next_slot x)) m = Some f /\ lands m blk outs f.
Proof using Hp Eb P.
  intros W Hst Hm Hc O Ex Sf H. unfold walk_end in H. apply bind_inv in H as (x' & ? & [Ex' ->]%expect_inv & H).
  rewrite Ex in Ex'. injection Ex' as <-. cbv zeta in H. pose proof (built_ops prog Hp ir Eb _ _ Ex) as Ho.
  assert (D : (let! st := step ir prog live st (blk.(b_end) - 1)%nat in ret ((fun s => (s, st)) <$> blk.(b_succs))) a = Some (Ok (outs, a')) ->
    exists f, interp.exec x.(ir_op) (Z.of_nat (next_slot x)) m = Some f /\ lands m blk outs f).
  { intros H'. apply bind_inv in H' as (st' & a1 & Hs & H'). injection H' as <- <-.
    destruct (step_covered len init ir prog live st _ x P W Ex Ho a st' a1 O Hs) as [_ [_ Cv]].
    destruct (Cv (Z.of_nat (next_slot x)) m Hm Hc Hst) as (f & Ef & Hf). exists f. split; [done |].
    destruct f as [pc' m' | [v | []] m']; simpl in *; try done. destruct Hf as [Ec Hm']. split; [done |].
    intros t j k _ _ _ _ Hk. exists st'. split; [| done]. apply list_elem_of_fmap. by exists k. }
  destruct (ir_op x) eqn:Eo; try exact (D H).
  - cbn [decoded_ok] in Ho. eapply cond_lands; [exact W | exact Hst | exact Hm | exact O | tauto | tauto | by eapply Sf | exact H].
  - eexists. split; [done |]. done.
  - destruct (get_reg_total m R0 Hm) as (v & Ev & _); [done |]. cbn [interp.exec]. rewrite Ev. by eexists.
Qed.

(** ** Positions *)

Section States.
Context (e : nat) (He : (e < length ir.(blocks))%nat) (reachable : list bool) (states : list (option AbsState)).
Context (Hr : dom.reachable_blocks ir.(blocks) (Some e) = Some reachable) (Hclosed : closed len init ir prog live reachable states).
Context (Hsafe : forall b, block_null_safe prog ir live states b = true).

Lemma reachable_spec v : reachable !! v = Some true <-> reach ir.(blocks) e v.
Proof using Hr He Hp Eb.
  destruct (reachable_blocks_spec ir.(blocks) (built_in_range _ _ run_built) e He) as (seen & Es & _ & H). rewrite Hr in Es. injection Es as <-. apply H.
Qed.

(** Every edge's state is covered by the state of a reachable target. *)
Definition outs_covered (outs : list (nat * AbsState)) : Prop :=
  Forall (fun p => reachable !! p.1 = Some true -> exists s, states !! p.1 = Some (Some s) /\ incl len p.2 s) outs.

(** The machine is in the middle of a block that has been walked from its
    state: [st] describes it, and the rest of the walk succeeded. *)
Definition at_pos (pc : nat) (m : Machine) : Prop :=
  exists i k blk st a st_end a1 outs a2,
    ir.index_of ir.(ir_of_slot) pc = Some i /\ ir.(blocks) !! k = Some blk /\ (blk.(b_start) <= i < blk.(b_end))%nat /\ reach ir.(blocks) e k /\
    state_wf st /\ smember_state len st m /\ an_ok len init a /\
    foldM (step ir prog live) (seq i (blk.(b_end) - 1 - i)) st a = Some (Ok (st_end, a1)) /\
    walk_end ir prog live blk st_end a1 = Some (Ok (outs, a2)) /\ end_safe blk st_end /\ outs_covered outs.

Lemma blank_ready : ready (length ir.(subprogs)) (blank ir (replicate (length ir.(subprogs)) None)).
Proof using Hp Eb.
  split; simpl; rewrite ?length_replicate; [done .. |]. destruct (build_main _ ir Eb (start_index _ ir run_built)) as (sp & Es & _).
  by apply lookup_lt_Some in Es.
Qed.

Lemma enter_block k blk st m pc : ir.index_of ir.(ir_of_slot) pc = Some blk.(b_start) -> ir.(blocks) !! k = Some blk -> reach ir.(blocks) e k ->
  states !! k = Some (Some st) -> smember_state len st m -> at_pos pc m.
Proof using Hp Eb Hclosed Hsafe He.
  intros Hi Hb R Es Hst. destruct (Hclosed k st Es) as (W & a & outs & a2 & O & Hw & F).
  apply walk_block_from in Hw as (blk' & Hb' & Hw). rewrite Hb in Hb'. injection Hb' as <-.
  apply bind_inv in Hw as (st_end & a1 & H1 & H2).
  destruct (bt_graph _ _ run_built) as (ss & es & _ & _ & _ & G & _). pose proof (go_range _ _ _ _ _ G k blk Hb) as Rg.
  exists blk.(b_start), k, blk, st, a, st_end, a1, outs, a2. split_and!; try done; [lia |].
  intros x wide op dst src off Ex Eo. pose proof (Hsafe k) as S. unfold block_null_safe in S. rewrite Hb, Es in S. cbv zeta in S.
  destruct (stable_foldM (length ir.(subprogs)) (step ir prog live) (seq (b_start blk) (b_end blk - 1 - b_start blk)) st
    (fun st i => stable_step _ ir prog live eq_refl st i) a st_end a1 _ H1 blank_ready) as (b' & Ef & _).
  rewrite Ef, Ex, Eo in S. exact S.
Qed.

(** What a step does from a position. *)
Lemma pos_step pc m : at_pos pc m -> machine_ok m -> ctx_holds len prog m ->
  exists f, interp.iter insns_ (Z.of_nat pc) m = Some f /\
    match f with
    | interp.Continue pc' m' => exists t, pc' = Z.of_nat t /\ at_pos t m' /\ m'.(m_ctx) = m.(m_ctx)
    | interp.Return r _ => clean r
    end.
Proof using Hp Eb P Hl Hclosed Hsafe He Hr.
  intros (i & k & blk & st & a & st_end & a1 & outs & a2 & Hi & Hb & Rg & R & W & Hst & O & H1 & H2 & Sf & Cv) Hm Hc.
  pose proof run_built as B. destruct (index_insn _ ir B pc i Hi) as (x & Ex & _). pose proof (iter_exec pc i x m Hi Ex) as It.
  pose proof (step_block _ ir B pc i m) as Sb. rewrite It in *.
  destruct (decide (S i = b_end blk)) as [E | N].
  - replace (b_end blk - 1 - i)%nat with 0%nat in H1 by lia. injection H1 as <- <-. replace i with (b_end blk - 1)%nat in Ex by lia.
    destruct (end_lands blk st m outs x a a2 W Hst Hm Hc O Ex Sf H2) as (f & Ef & L). exists f. split; [done |].
    destruct f as [pc' m' | r m']; [| done]. destruct L as [Ec L].
    destruct (Sb pc' m' k blk Hl Hi Hb Rg Ef) as (t & j & -> & Ej & [[? _] | (_ & k' & blk' & Ek' & Hin & Hb' & <-)]); [lia |].
    exists t. split; [done |]. split; [| done].
    assert (Lt : Z.of_nat t < 2 ^ 64).
    { destruct (index_insn _ ir B t _ Ej) as (y & Ey & Es & _). pose proof (du_insn _ _ _ _ (bt_decoded _ _ B) _ y Ey) as (_ & Eo & _).
      rewrite Es in Eo. apply lookup_lt_Some in Eo. rewrite (du_len _ _ _ _ (bt_decoded _ _ B)) in Eo. lia. }
    destruct (L t _ k' eq_refl Lt Ej Ek' Hin) as (st' & Ho & Hm').
    assert (R' : reach (blocks ir) e k') by (eapply reach_succ; [exact R |]; by exists blk).
    unfold outs_covered in Cv. rewrite Forall_forall in Cv. destruct (Cv _ Ho (proj2 (reachable_spec k') R')) as (s & Es & I).
    eapply (enter_block k' blk' s); try done. apply I; [| done].
    destruct (exec_total (ir_op x) (Z.of_nat (next_slot x)) m Hm (built_ops prog Hp ir Eb _ _ Ex) ltac:(lia)) as (f & Ef' & Fo).
    rewrite Ef in Ef'. injection Ef' as <-. apply Fo.
  - assert (Lt : (S i < b_end blk)%nat) by lia. replace (b_end blk - 1 - i)%nat with (S (b_end blk - 1 - S i)) in H1 by lia.
    cbn [seq foldM] in H1. apply bind_inv in H1 as (st1 & a0 & Hs & H1). pose proof (built_ops prog Hp ir Eb _ _ Ex) as Ho.
    destruct (step_covered len init ir prog live st i x P W Ex Ho a st1 a0 O Hs) as [O1 [W1 K]].
    destruct (K (Z.of_nat (next_slot x)) m Hm Hc Hst) as (f & Ef & Hf). exists f. split; [done |].
    destruct f as [pc' m' | [v | []] m']; simpl in Hf; try done. destruct Hf as [Ec Hm'].
    destruct (Sb pc' m' k blk Hl Hi Hb Rg Ef) as (t & j & -> & Ej & [[_ ->] | (? & _)]); [| lia]. exists t. split; [done |]. split; [| done].
    exists (S i), k, blk, st1, a0, st_end, a1, outs, a2. split_and!; try done; lia.
Qed.

Lemma pos_charge pc m : at_pos pc m -> at_pos pc (interp.charge m).
Proof using Type.
  intros (i & k & blk & st & a & st_end & a1 & outs & a2 & Hi & Hb & Rg & R & W & [Mr Ms] & Rest).
  exists i, k, blk, st, a, st_end, a1, outs, a2. do 5 (split; [done |]). split; [| exact Rest]. split; [done |].
  intros j sl E. destruct (Ms j sl E). by split.
Qed.

Lemma run_clean n pc m : at_pos pc m -> machine_ok m -> ctx_holds len prog m ->
  exists r m', interp.run_loop n insns_ (Z.of_nat pc) m = Some (r, m') /\ clean r.
Proof using Hp Eb P Hl Hclosed Hsafe He Hr.
  revert pc m. induction n as [| n IH]; intros pc m Hpos Hm Hc; cbn [interp.run_loop]; [by exists (Err OutOfFuel), m |].
  destruct (pos_step pc (interp.charge m) (pos_charge pc m Hpos) (charge_ok m Hm) Hc) as (f & Ef & Hf).
  destruct (iter_total insns_ (Z.of_nat pc) (interp.charge m) Hp (charge_ok m Hm) ltac:(lia)) as (f' & Ef' & Fo).
  rewrite Ef in Ef'. injection Ef' as <-. rewrite Ef. destruct f as [pc' m' | r m']; [| by exists r, m'].
  destruct Hf as (t & -> & Hpos' & Ec). apply IH; [done | apply Fo |]. unfold ctx_holds in *. by rewrite Ec.
Qed.
End States.
End Run.

(** ** The initial machine *)

Lemma entry_member prog words : Z.of_nat (length words) * 8 = ctx_len prog -> smember_state (ctx_len prog) (state.entry (ctx_len prog)) (interp.with_ctx words).
Proof.
  intros E. split; [| by intros i sl H]. simpl.
  assert (Z0 : smember (scalar.constant 0) 0) by (apply (smember_constant 0); auto with word).
  repeat (apply Forall2_cons; split; [try done |]); [| | by apply Forall2_nil]; simpl.
  - split; [intros _; simpl; split; [done | lia] |]. exists CTX_BASE, 0. split_and!; done.
  - split; [intros [=] |]. exists STACK_BYTES, 0. split_and!; done.
Qed.

Lemma words_length words : Z.of_nat (length (flat_map (le_bytes 8) words)) = Z.of_nat (length words) * 8.
Proof. induction words as [| w words IH]; [done |]. cbn [flat_map length]. rewrite length_app, (proj2 (le_bytes_range 8 w)). lia. Qed.

Lemma ctx_holds_words prog words : Forall2 field_holds prog.(ctx_fields) words -> ctx_holds (ctx_len prog) prog (interp.with_ctx words).
Proof.
  intros F. split; [| by exists words]. unfold ctx_len. rewrite (Forall2_length _ _ _ F). apply words_length.
Qed.

(** * The contract *)

(** What [run] computed on the way to accepting a program. *)
Lemma run_inv prog vp : verify.run prog = Some (Ok vp) ->
  exists ir order live prec entries a, build prog.(p_insns) = Some (Ok ir) /\ topological_order ir.(subprogs) = Some (Ok order) /\
    liveness.liveness ir = Some live /\ liveness.precision ir = Some prec /\
    ir.modify (replicate (length ir.(subprogs)) None) 0 (fun _ => Some (state.entry (ctx_len prog))) = Some entries /\
    foldM (fun _ sp => analyse_subprog ir prog live prec sp) order tt (blank ir entries) = Some (Ok (tt, a)).
Proof.
  unfold verify.run. destruct (build (p_insns prog)) as [[ir |] |] eqn:Eb; try done. simpl.
  destruct (topological_order (subprogs ir)) as [[order |] |] eqn:Et; try done. simpl.
  destruct (liveness.liveness ir) as [live |] eqn:El; [| done]. simpl. destruct (liveness.precision ir) as [prec |] eqn:Ep; [| done]. simpl.
  destruct (ir.modify _ 0 _) as [entries |] eqn:Ee; [| done]. simpl.
  destruct (foldM _ order tt _) as [[[[] a] |] |] eqn:Ef; try done. intros _. by exists ir, order, live, prec, entries, a.
Qed.

Lemma initial_analysis prog ir entries :
  ir.modify (replicate (length ir.(subprogs)) None) 0 (fun _ => Some (state.entry (ctx_len prog))) = Some entries ->
  an_ok (ctx_len prog) (state.entry (ctx_len prog)) (blank ir entries).
Proof.
  unfold ir.modify. destruct (replicate _ None !! 0%nat) as [o |] eqn:E; [| done]. simpl. intros [= <-]. split; simpl.
  - apply Forall_insert; [| apply entry_wf]. apply Forall_forall. by intros x [-> _]%elem_of_replicate.
  - eexists. split; [apply list_lookup_insert_eq; by eapply lookup_lt_Some |]. done.
Qed.

(** An accepted program has closed states in which its null tests are safe,
    and its first instruction starts the entry block. *)
Lemma accepted_states prog vp :
  Forall insn_ok prog.(p_insns) -> verify prog = Some (Ok vp) -> null_tests_safe prog = true ->
  exists ir live e reachable states blk st, build prog.(p_insns) = Some (Ok ir) /\
    dom.reachable_blocks ir.(blocks) (Some e) = Some reachable /\
    closed (ctx_len prog) (state.entry (ctx_len prog)) ir prog live reachable states /\
    (forall b, block_null_safe prog ir live states b = true) /\
    ir.(blocks) !! e = Some blk /\ blk.(b_start) = 0%nat /\ ir.index_of ir.(ir_of_slot) 0 = Some 0%nat /\
    states !! e = Some (Some st) /\ incl (ctx_len prog) (state.entry (ctx_len prog)) st.
Proof.
  intros Hp V N. destruct (verify_inv prog vp V) as [P R].
  destruct (run_inv prog vp R) as (ir & order & live & prec & entries & a & Eb & Et & El & Ep & Ee & Ef).
  destruct (topological_order_spec ir.(subprogs) (build_callees _ ir Eb)) as (r & Et' & Ho). rewrite Et in Et'. injection Et' as <-.
  pose proof (run_built prog Hp ir Eb) as B. pose proof (start_index _ ir B) as Z0.
  destruct (build_main _ ir Eb Z0) as (sp & Esp & Ebo).
  assert (In0 : 0%nat ∈ order) by (rewrite (proj1 Ho); apply elem_of_seq; apply lookup_lt_Some in Esp; lia).
  destruct (analysed_main prog P Hp ir Eb live prec order entries a In0 (initial_analysis prog ir entries Ee) Ef)
    as (states & a1 & e & a2 & s & reachable & st & H1 & H2 & H3 & Es & Er & C & Est & I). rewrite Esp in Es. injection Es as <-.
  destruct (bt_graph _ _ B) as (ss & es & _ & _ & _ & G & _).
  destruct (go_in _ _ _ _ _ G 0%nat) as (k & blk & Ek & Hblk & Rg & _); [destruct (insns ir) eqn:Ei; [by destruct (bt_ne _ _ B) | simpl; lia] |].
  rewrite Ebo in Ek. injection Ek as <-.
  exists ir, live, (entry_block sp), reachable, states, blk, st. split_and!; try done; [| lia].
  intros b. unfold null_tests_safe, main_states in N. rewrite Eb, Et, El, Ep, Ee, H1, H2, H3, forallb_forall in N.
  destruct (decide (b < length states)%nat) as [L | L]; [apply N, list_elem_of_In, elem_of_seq; lia |].
  unfold block_null_safe. rewrite (proj2 (lookup_ge_None states b)) by lia. by destruct (blocks ir !! b).
Qed.

(** * The transfer functions *)

(** Every entry state of the analysis is well formed, and the main program
    has one. *)
Definition analysis_wf (a : Analysis) : Prop :=
  Forall (from_option state_wf True) a.(an_entry) /\ exists e, a.(an_entry) !! 0%nat = Some (Some e).

Definition descriptors_checked (prog : Program) : Prop :=
  check_kfuncs prog.(kfuncs) = Ok tt /\ check_ctx_fields 0 prog.(ctx_fields) = Ok tt.

Lemma checked_ok prog : descriptors_checked prog -> program_ok prog.
Proof. intros [Ek Ec]. split; [by eapply check_ctx_fields_ok | by apply check_kfuncs_ok]. Qed.

Lemma step_wf_covered prog ir live st i a st' a' :
  descriptors_checked prog -> Forall insn_ok prog.(p_insns) -> build prog.(p_insns) = Some (Ok ir) ->
  state_wf st -> analysis_wf a -> step ir prog live st i a = Some (Ok (st', a')) ->
  analysis_wf a' /\ exists insn, ir.(insns) !! i = Some insn /\
    covered (ctx_len prog) (ctx_holds (ctx_len prog) prog) insn.(ir_op) st st'.
Proof.
  intros D Hp Eb W [We [e Ee]] H.
  assert (exists insn, ir.(insns) !! i = Some insn) as [insn Ei].
  { unfold step, bind, expect in H. destruct (ir.(insns) !! i); [by eexists | done]. }
  destruct (step_covered (ctx_len prog) e ir prog live st i insn (checked_ok prog D) W Ei (built_ops prog Hp ir Eb i insn Ei) a st' a') as [[We' (e' & Ee' & _)] C].
  - split; [done |]. by exists e.
  - done.
  - split; [split; [done | by exists e'] |]. by exists insn.
Qed.

(** C20: the transfer function keeps the verifier's data well formed.  For
    every instruction of a built program and every program whose descriptors
    pass the checks, a step from a well-formed state (registers and stack
    slots whose known bits and interval are in range and in order) in a
    well-formed analysis that is not rejected gives a well-formed state, and
    the entry states it has joined into its callees are well formed. *)
Theorem transfer_preserves_wf prog ir live st i a st' a' :
  descriptors_checked prog -> Forall insn_ok prog.(p_insns) -> build prog.(p_insns) = Some (Ok ir) ->
  state_wf st -> analysis_wf a -> step ir prog live st i a = Some (Ok (st', a')) ->
  state_wf st' /\ analysis_wf a'.
Proof.
  intros D Hp Eb W A H. destruct (step_wf_covered prog ir live st i a st' a' D Hp Eb W A H) as (A' & insn & _ & W' & _). done.
Qed.

(** The instructions the reference interpreter executes; on the others it
    stops with [Unsupported]. *)
Definition interpreted (op : Decoded) : bool :=
  match op with
  | Decoded.AddrSpaceCast _ _ _ _ | Decoded.Atomic _ _ _ _ _ | Decoded.MayGoto _ | Decoded.Call _ => false
  | Decoded.LoadImm64 _ (Imm64.Value _) => true
  | Decoded.LoadImm64 _ _ => false
  | _ => true
  end.

Lemma load_supported m a size t : interp.load m a size = Some (Err t) -> t <> Unsupported.
Proof. unfold interp.load, interp.ctx_load, interp.slot. intros E ->. repeat (case_match; simplify_eq/=). Qed.

Lemma store_supported m a size v t : interp.store m a size v = Some (Err t) -> t <> Unsupported.
Proof. unfold interp.store, interp.slot. intros E ->. repeat (case_match; simplify_eq/=). Qed.

(** What [exec] does with an instruction it has, and with one it has not. *)
Lemma exec_interpreted op next m f : interp.exec op next m = Some f ->
  if interpreted op then match f with interp.Continue _ _ => True | interp.Return (Ok _) _ => op = Decoded.Exit | interp.Return (Err t) _ => t <> Unsupported end
  else f = interp.Return (Err Unsupported) m.
Proof.
  intros E. destruct op; cbn [interp.exec interpreted] in *; unfold base.mbind, option_bind in E;
    repeat (case_match; simplify_eq/=); simplify_eq; eauto using load_supported, store_supported.
Qed.

(** C2: the transfer function simulates the interpreter.  If the verifier
    steps from a state over an instruction and the machine is one the state
    describes, with context words of the declared types (none of them a
    pointer), the interpreter executes that instruction.  One of those it has
    does not trap: it leaves the context alone and continues in a machine that
    the new state describes, or it is [Exit] and returns a value.  On one it
    does not have (a call, an atomic, [may_goto], a cast between address
    spaces, a load of an address) it stops with [Unsupported] in the machine it
    was given, and nothing is claimed of the new state. *)
Theorem transfer_simulates prog ir live st i insn a st' a' next m :
  descriptors_checked prog -> Forall insn_ok prog.(p_insns) -> build prog.(p_insns) = Some (Ok ir) ->
  state_wf st -> analysis_wf a -> ir.(insns) !! i = Some insn -> step ir prog live st i a = Some (Ok (st', a')) ->
  machine_ok m -> ctx_holds (ctx_len prog) prog m -> smember_state (ctx_len prog) st m ->
  exists f, interp.exec insn.(ir_op) next m = Some f /\
    if interpreted insn.(ir_op) then
      match f with
      | interp.Continue _ m' => m'.(m_ctx) = m.(m_ctx) /\ smember_state (ctx_len prog) st' m'
      | interp.Return r _ => insn.(ir_op) = Decoded.Exit /\ exists v, r = Ok v
      end
    else f = interp.Return (Err Unsupported) m.
Proof.
  intros D Hp Eb W A Ei H Hm Hc Hs. destruct (step_wf_covered prog ir live st i a st' a' D Hp Eb W A H) as (_ & x & Ex & _ & C).
  rewrite Ei in Ex. injection Ex as <-. destruct (C next m Hm Hc Hs) as (f & E & F). exists f. split; [exact E |].
  pose proof (exec_interpreted _ _ _ _ E) as X. destruct (interpreted (ir_op insn)); [| exact X].
  destruct f as [pc m' | [v | []] m']; simpl in F; try done; eauto.
Qed.

(** C1: [verify] is sound.  A program it accepts, given a context whose words
    have the declared types (none of them a pointer, which this machine does
    not represent), runs on the reference interpreter to a value,
    until the fuel is used up, or up to an instruction the interpreter does
    not have; it never accesses memory outside the stack and the context,
    writes the context, reads an uninitialised byte of the stack or leaves
    the program.  The verifier assumes that a pointer it does not call
    nullable is not zero, which pointer arithmetic can make false, so the
    states it computed must exclude that at every null test. *)
Theorem verify_sound prog vp words :
  Forall insn_ok prog.(p_insns) -> Z.of_nat (length prog.(p_insns)) < 2 ^ 64 ->
  verify prog = Some (Ok vp) -> null_tests_safe prog = true -> Forall2 field_holds prog.(ctx_fields) words ->
  exists r m', interp.run prog.(p_insns) (interp.with_ctx words) = Some (r, m') /\
    r <> Err BadAccess /\ r <> Err UninitRead /\ r <> Err BadPc.
Proof.
  intros Hp Hl V N F. destruct (verify_inv prog vp V) as [P _].
  destruct (accepted_states prog vp Hp V N) as (ir & live & e & reachable & states & blk & st & Eb & Er & C & Sf & Hblk & Hs & Z0 & Est & I).
  pose proof (lookup_lt_Some _ _ _ Hblk) as Le. pose proof (with_ctx_ok words) as Hm.
  destruct (run_clean prog P Hp Hl ir Eb live e Le reachable states Er C Sf (Z.to_nat (m_fuel (interp.with_ctx words))) 0 (interp.with_ctx words))
    as (r & m' & Erun & Cl).
  - eapply enter_block; try done; [by rewrite Hs | by exists []; constructor |]. apply I; [done |]. apply entry_member.
    unfold ctx_len. by rewrite (Forall2_length _ _ _ F).
  - done.
  - by apply ctx_holds_words.
  - exists r, m'. split; [exact Erun |]. destruct r as [v | []]; done || (split_and!; discriminate).
Qed.

(** * Programs *)

(** A program of the atomic context that calls nothing. *)
Definition plain (ds : list Decoded) (fields : list ArgDesc) : Program :=
  mk_program (assemble ds) Context.Atomic fields [] [] [].

Definition no_program : VerifiedProgram := mk_verified [] Context.Atomic 0 0 [] [] [] [] false [].

Definition accepted (prog : Program) : VerifiedProgram :=
  match verify prog with Some (Ok vp) => vp | _ => no_program end.

(** [r2 = ctx[0]; *(r10 - 8) = r2; r3 = r10 - 8; r4 = 3; loop: r0 = *r3;
    r4 -= 1; if r4 != 0 goto loop; if r0 == 0 goto out; r0 = 1; out: exit]. *)
Definition spill_and_loop : Program :=
  plain [Decoded.Load Size.Dw false (mk_reg 2) R1 0; Decoded.Store Size.Dw R10 (-8) (Source.Reg (mk_reg 2));
         Decoded.Mov true (mk_reg 3) (Source.Reg R10) None; Decoded.Alu true AluOp.Add (mk_reg 3) (Source.Imm (-8));
         Decoded.Mov true (mk_reg 4) (Source.Imm 3) None;
         Decoded.Load Size.Dw false R0 (mk_reg 3) 0; Decoded.Alu true AluOp.Sub (mk_reg 4) (Source.Imm 1);
         Decoded.JumpCond true CondOp.Ne (mk_reg 4) (Source.Imm 0) (-3);
         Decoded.JumpCond true CondOp.Eq R0 (Source.Imm 0) 1; Decoded.Mov true R0 (Source.Imm 1) None; Decoded.Exit]
    [arg_desc.SCALAR64].

Definition spill_ir : Ir :=
  match build spill_and_loop.(p_insns) with Some (Ok ir) => ir | _ => mk_ir [] [] [] [] [] [] [] end.

Definition spill_live : Masks := default (mk_masks [] []) (liveness.liveness spill_ir).

Definition spill_entry : AbsState := state.entry (ctx_len spill_and_loop).

Definition spill_analysis : Analysis := blank spill_ir [Some spill_entry].

(** The state and the analysis after the load of the context word. *)
Definition spill_step : AbsState * Analysis :=
  match step spill_ir spill_and_loop spill_live spill_entry 0 spill_analysis with
  | Some (Ok r) => r
  | _ => (spill_entry, spill_analysis)
  end.

Lemma spill_ok : Forall insn_ok spill_and_loop.(p_insns).
Proof. repeat constructor; vm_compute; congruence. Qed.

Lemma spill_built : build spill_and_loop.(p_insns) = Some (Ok spill_ir).
Proof. vm_compute. reflexivity. Qed.

Lemma spill_checked : descriptors_checked spill_and_loop.
Proof. by vm_compute. Qed.

Lemma spill_context : Forall2 field_holds spill_and_loop.(ctx_fields) [5].
Proof. constructor; [| constructor]. vm_compute. intuition congruence. Qed.

Lemma spill_analysis_wf : analysis_wf spill_analysis.
Proof. split; [constructor; [apply entry_wf | constructor] | by exists spill_entry]. Qed.

Lemma transfer_preserves_wf_witness : state_wf spill_step.1 /\ analysis_wf spill_step.2.
Proof.
  apply (transfer_preserves_wf spill_and_loop spill_ir spill_live spill_entry 0 spill_analysis).
  - exact spill_checked.
  - exact spill_ok.
  - exact spill_built.
  - apply entry_wf.
  - exact spill_analysis_wf.
  - vm_compute. reflexivity.
Defined.

Lemma transfer_simulates_witness :
  exists f, interp.exec (Decoded.Load Size.Dw false (mk_reg 2) R1 0) 1 (interp.with_ctx [5]) = Some f /\
    match f with
    | interp.Continue _ m' => m'.(m_ctx) = (interp.with_ctx [5]).(m_ctx) /\ smember_state (ctx_len spill_and_loop) spill_step.1 m'
    | interp.Return r _ => Decoded.Load Size.Dw false (mk_reg 2) R1 0 = Decoded.Exit /\ exists v, r = Ok v
    end.
Proof.
  apply (transfer_simulates spill_and_loop spill_ir spill_live spill_entry 0
           (mk_ir_insn (Decoded.Load Size.Dw false (mk_reg 2) R1 0) 0 1) spill_analysis _ spill_step.2).
  - exact spill_checked.
  - exact spill_ok.
  - exact spill_built.
  - apply entry_wf.
  - exact spill_analysis_wf.
  - vm_compute. reflexivity.
  - vm_compute. reflexivity.
  - apply with_ctx_ok.
  - apply ctx_holds_words, spill_context.
  - by apply entry_member.
Defined.

Lemma verify_sound_witness :
  exists r m', interp.run spill_and_loop.(p_insns) (interp.with_ctx [5]) = Some (r, m') /\
    r <> Err BadAccess /\ r <> Err UninitRead /\ r <> Err BadPc.
Proof.
  apply (verify_sound spill_and_loop (accepted spill_and_loop) [5]).
  - exact spill_ok.
  - vm_compute. reflexivity.
  - vm_compute. reflexivity.
  - vm_compute. reflexivity.
  - exact spill_context.
Defined.

(** [*(r10 - 8) = r10]; the two halves of the address are read back as
    scalars into [r2]; [r1 = r10 - r2; if r1 == 0 goto bad; r0 = 0; exit;
    bad: r0 = *(r10 + 8); exit]. *)
Definition leaked_address : Program :=
  plain [Decoded.Store Size.Dw R10 (-8) (Source.Reg R10); Decoded.Load Size.W false (mk_reg 2) R10 (-8);
         Decoded.Load Size.W false (mk_reg 3) R10 (-4); Decoded.Alu true AluOp.Lsh (mk_reg 3) (Source.Imm 32);
         Decoded.Alu true AluOp.Or (mk_reg 2) (Source.Reg (mk_reg 3)); Decoded.Mov true R1 (Source.Reg R10) None;
         Decoded.Alu true AluOp.Sub R1 (Source.Reg (mk_reg 2)); Decoded.JumpCond true CondOp.Eq R1 (Source.Imm 0) 2;
         Decoded.Mov true R0 (Source.Imm 0) None; Decoded.Exit;
         Decoded.Load Size.Dw false R0 R10 8; Decoded.Exit] [].

(** C21: the null-test condition of soundness is needed.  [verify] accepts a
    program that subtracts the frame pointer's own address from it and tests
    the result against zero: the taken edge is discarded as a non-null
    pointer that compares equal to zero, so the out-of-frame load behind it
    is never checked, and the run takes that edge and faults. *)
Theorem null_test_gap :
  Forall insn_ok leaked_address.(p_insns) /\ (exists vp, verify leaked_address = Some (Ok vp)) /\
  null_tests_safe leaked_address = false /\
  exists m, interp.run leaked_address.(p_insns) (interp.with_ctx []) = Some (Err BadAccess, m).
Proof.
  split_and!.
  - repeat constructor; vm_compute; congruence.
  - exists (accepted leaked_address). vm_compute. reflexivity.
  - vm_compute. reflexivity.
  - eexists. vm_compute. reflexivity.
Qed.

(** [r2 = (ctx[0] & 8) | 4; if r2 <= 4 goto out; if r2 >= 12 goto out;
    r2 -= 4; w2 = w2; r0 /= r2; out: exit], with [r0 = 1]. *)
Definition empty_divisor : Program :=
  plain [Decoded.Load Size.Dw false (mk_reg 2) R1 0; Decoded.Alu true AluOp.And (mk_reg 2) (Source.Imm 8);
         Decoded.Alu true AluOp.Or (mk_reg 2) (Source.Imm 4); Decoded.Mov true R0 (Source.Imm 1) None;
         Decoded.JumpCond true CondOp.Le (mk_reg 2) (Source.Imm 4) 4;
         Decoded.JumpCond true CondOp.Ge (mk_reg 2) (Source.Imm 12) 3;
         Decoded.Alu true AluOp.Sub (mk_reg 2) (Source.Imm 4); Decoded.Mov false (mk_reg 2) (Source.Reg (mk_reg 2)) None;
         Decoded.Div true false R0 (Source.Reg (mk_reg 2)); Decoded.Exit] [arg_desc.SCALAR64].

(** C22: the verifier can be made to panic.  On the infeasible path of this
    program [r2] is 4 or 12 and strictly between them, an empty set
    normalisation does not detect; after the subtraction and the 32-bit move
    the known bits say 0 and the interval says 1 to 7, and the bound of the
    quotient is computed by a division by zero. *)
Theorem verify_can_panic :
  Forall insn_ok empty_divisor.(p_insns) /\ (exists ir, build empty_divisor.(p_insns) = Some (Ok ir)) /\
  verify empty_divisor = None.
Proof.
  split_and!.
  - repeat constructor; vm_compute; congruence.
  - eexists. vm_compute. reflexivity.
  - vm_compute. reflexivity.
Qed.

(** * Programs outside the interpreter *)

(** Whether the verifier accepts a program. *)
Definition accepts (prog : Program) : bool := match verify prog with Some (Ok _) => true | _ => false end.

(** [r1] and [r2] point into the values of two maps; [r3 = r10 + (r1 - r2);
    *(r3 - 8) = 0].  The difference is taken to be 0. *)
Definition two_maps : Program :=
  mk_program (assemble
    [Decoded.LoadImm64 R1 (Imm64.MapValue 1 0); Decoded.LoadImm64 (mk_reg 2) (Imm64.MapValue 2 0);
     Decoded.Alu true AluOp.Sub R1 (Source.Reg (mk_reg 2)); Decoded.Mov true (mk_reg 3) (Source.Reg R10) None;
     Decoded.Alu true AluOp.Add (mk_reg 3) (Source.Reg R1); Decoded.Store Size.Dw (mk_reg 3) (-8) (Source.Imm 0);
     Decoded.Mov true R0 (Source.Imm 0) None; Decoded.Exit])
    Context.Atomic [] [] [mk_map 1 None 0 8 1; mk_map 2 None 0 8 1] [].

Definition owned_mem (flags : ArgFlags) : ArgDesc := mk_arg (TypeKind.Ptr PtrKind.Mem type_key.NONE) ValidityDomain.Owned flags.

(** A region reserved by a kernel function, or null, and its release. *)
Definition reserve_and_submit : list KfuncDesc :=
  [mk_kfunc 1 "reserve" 1 [mk_arg (TypeKind.Scalar 64 false) ValidityDomain.Static arg_flags.CONST] (owned_mem arg_flags.NULLABLE)
     false Context.Atomic;
   mk_kfunc 2 "submit" 1 [owned_mem arg_flags.NONE] arg_desc.VOID false Context.Atomic].

(** [r0 = reserve(64) + 8; if r0 == 0 goto out; *(r0 - 8) = 0; submit(r0 - 8)]:
    the test does not see that the region was null. *)
Definition moved_null : Program :=
  mk_program (assemble
    [Decoded.Mov true R1 (Source.Imm 64) None; Decoded.Call (CallTarget.Kfunc 1); Decoded.Alu true AluOp.Add R0 (Source.Imm 8);
     Decoded.JumpCond true CondOp.Eq R0 (Source.Imm 0) 4; Decoded.Store Size.Dw R0 (-8) (Source.Imm 0);
     Decoded.Mov true R1 (Source.Reg R0) None; Decoded.Alu true AluOp.Add R1 (Source.Imm (-8)); Decoded.Call (CallTarget.Kfunc 2);
     Decoded.Mov true R0 (Source.Imm 0) None; Decoded.Exit])
    Context.Atomic [] reserve_and_submit [] [].

(** A packet: its start and its end. *)
Definition packet : list ArgDesc :=
  [mk_arg (TypeKind.Ptr PtrKind.Mem 7) ValidityDomain.Static arg_flags.NONE;
   mk_arg (TypeKind.Ptr PtrKind.MemEnd 7) ValidityDomain.Static arg_flags.NONE].

(** [if data + 0x7ffffffffffffff0 > data_end goto out; r0 = *(data + 32000)]:
    at run time the addition wraps for an address in the upper half. *)
Definition wrapped_extent : Program :=
  mk_program (assemble
    [Decoded.Load Size.Dw false (mk_reg 2) R1 0; Decoded.Load Size.Dw false (mk_reg 3) R1 8;
     Decoded.Mov true (mk_reg 4) (Source.Reg (mk_reg 2)) None; Decoded.LoadImm64 (mk_reg 5) (Imm64.Value 0x7ffffffffffffff0);
     Decoded.Alu true AluOp.Add (mk_reg 4) (Source.Reg (mk_reg 5)); Decoded.Mov true R0 (Source.Imm 0) None;
     Decoded.JumpCond true CondOp.Gt (mk_reg 4) (Source.Reg (mk_reg 3)) 1; Decoded.Load Size.Dw false R0 (mk_reg 2) 32000; Decoded.Exit])
    Context.Atomic packet [] [] [].

(** [if data + 8 > data_end goto out; *(r10 - 8) = data; adjust(ctx);
    r2 = *(r10 - 8); r0 = *r2]: the slot keeps the extent the resize voids. *)
Definition spilled_extent : Program :=
  mk_program (assemble
    [Decoded.Mov true (mk_reg 6) (Source.Reg R1) None; Decoded.Load Size.Dw false (mk_reg 2) R1 0; Decoded.Load Size.Dw false (mk_reg 3) R1 8;
     Decoded.Mov true (mk_reg 4) (Source.Reg (mk_reg 2)) None; Decoded.Alu true AluOp.Add (mk_reg 4) (Source.Imm 8);
     Decoded.Mov true R0 (Source.Imm 0) None; Decoded.JumpCond true CondOp.Gt (mk_reg 4) (Source.Reg (mk_reg 3)) 5;
     Decoded.Store Size.Dw R10 (-8) (Source.Reg (mk_reg 2)); Decoded.Mov true R1 (Source.Reg (mk_reg 6)) None; Decoded.Call (CallTarget.Kfunc 1);
     Decoded.Load Size.Dw false (mk_reg 2) R10 (-8); Decoded.Load Size.Dw false R0 (mk_reg 2) 0; Decoded.Exit])
    Context.Atomic packet
    [mk_kfunc 1 "adjust" 1 [mk_arg (TypeKind.Ptr PtrKind.Ctx type_key.NONE) ValidityDomain.Static arg_flags.NONE] arg_desc.SCALAR64 false
       Context.Atomic] [] [].

(** Maps, kernel functions and packets are outside the reference interpreter,
    so the soundness theorem does not reach these programs; each is accepted. *)
Lemma accepted_gaps : accepts two_maps = true /\ accepts moved_null = true /\ accepts wrapped_extent = true /\ accepts spilled_extent = true.
Proof. vm_compute. done. Qed.
