(* ===== verification/BpfTotal.v ===== *)
(** When the verifier panics: only at an instruction whose state holds a value
    that denotes no number, which the analysis has of a path no run takes. *)

From stdpp Require Import gmap.
From S2P Require Import Prelude Word BpfOpcode BpfInsn BpfEncode Tnum TnumSound BpfScalar ScalarSound ScalarOps BpfInterp.
From S2P Require Import BpfRefine ScalarInterp BpfMachine BpfKfunc BpfIr BpfLiveness BpfBlocks BpfCfg BpfDom BpfGraph BpfRegions.
From S2P Require Import BpfLiveness BpfWiden BpfBuild BpfLive BpfState BpfAnalysis BpfVerify BpfStateSound BpfStackSound BpfTriple BpfArithSound.
From S2P Require Import BpfAccessSound BpfStepSound BpfFixpoint BpfTopo BpfVerified.
Import AbsValue analysis verify.

(** * The logic *)

Section Safe.
Context (len : Z) (init : AbsState) (n : nat) (B : Prop).

(** A computation panics only if [B]; a result satisfies [Q]. *)
Definition safe {A} (c : M A) (Q : A -> Prop) : Prop :=
  forall a, an_ok len init a -> ready n a ->
    match c a with
    | None => B
    | Some (Ok (x, a')) => an_ok len init a' /\ ready n a' /\ Q x
    | Some (Err _) => True
    end.

Abbreviation any := (fun _ => True).

Lemma safe_intro {A} (c : M A) (Q : A -> Prop) : spec len init c Q -> stable n c ->
  (forall a, an_ok len init a -> ready n a -> c a = None -> B) -> safe c Q.
Proof.
  intros S T N a O R. destruct (c a) as [[[x a'] |] |] eqn:E; [| done | by apply (N a)].
  destruct (S a x a' O E) as [O' Q']. destruct (T a x a' a E R) as (b & Eb & Rb). rewrite E in Eb. by injection Eb as <-.
Qed.

Lemma safe_spec {A} (c : M A) (Q R : A -> Prop) : safe c Q -> spec len init c R -> safe c R.
Proof.
  intros H S a O Rd. specialize (H a O Rd). destruct (c a) as [[[x a'] |] |] eqn:E; try done.
  destruct H as (O' & R' & _). by destruct (S a x a' O E).
Qed.

Lemma safe_ret {A} (x : A) (Q : A -> Prop) : Q x -> safe (ret x) Q.
Proof. by intros H a O R. Qed.

Lemma safe_fail {A} e (Q : A -> Prop) : safe (fail e) Q.
Proof. by intros a O R. Qed.

Lemma safe_bind {A C} (c : M A) (k : A -> M C) (P : A -> Prop) (Q : C -> Prop) :
  safe c P -> (forall x, P x -> safe (k x) Q) -> safe (bind c k) Q.
Proof.
  intros Hc Hk a O R. specialize (Hc a O R). unfold bind. destruct (c a) as [[[x a'] |] |]; try done.
  destruct Hc as (O' & R' & Px). by apply Hk.
Qed.

Lemma safe_any {A} (c : M A) (Q : A -> Prop) : safe c Q -> safe c any.
Proof. intros H a O R. specialize (H a O R). destruct (c a) as [[[x a'] |] |]; tauto. Qed.

Lemma safe_expect {A} (o : option A) (x : A) : o = Some x -> safe (expect o) (fun y => y = x).
Proof. intros -> a O R. done. Qed.

Lemma safe_expect_some {A} (o : option A) : is_Some o -> safe (expect o) any.
Proof. intros [x ->] a O R. done. Qed.

Lemma safe_lift {A} (r : Result A VerifyError) : safe (lift r) any.
Proof. destruct r; [by apply safe_ret | apply safe_fail]. Qed.

Lemma safe_modify f : (forall a, (f a).(an_entry) = a.(an_entry)) -> (forall a, ready n a -> ready n (f a)) -> safe (modify_ f) any.
Proof. intros E F. apply safe_intro; [by apply spec_modify | by apply stable_modify |]. done. Qed.

Lemma safe_note_depth d : safe (note_depth d) any.
Proof.
  apply safe_intro; [apply spec_note_depth | apply stable_note_depth |]. intros a O [_ R1 R2]. unfold note_depth.
  rewrite <- R1 in R2. by destruct (lookup_lt_is_Some_2 _ _ R2) as [old ->].
Qed.

Lemma safe_join_entry callee e : (callee < n)%nat -> state_wf e -> safe (join_entry callee e) any.
Proof.
  intros L W. apply safe_intro; [by apply spec_join_entry | by apply stable_join_entry |]. intros a O [R _ _]. unfold join_entry.
  rewrite <- R in L. by destruct (lookup_lt_is_Some_2 _ _ L) as [prev ->].
Qed.

Lemma safe_foldM {A C} (f : A -> C -> M A) (P : A -> Prop) l x :
  P x -> (forall x y, P x -> y ∈ l -> safe (f x y) P) -> safe (foldM f l x) P.
Proof.
  revert x. induction l as [| y l IH]; intros x Px H; simpl; [by apply safe_ret |].
  eapply safe_bind; [apply (H x y Px); by left |]. intros x' Px'. apply IH; [done |]. intros z w Pz Hw. apply H; [done | by right].
Qed.
End Safe.

(** The same of the run from one analysis: what [B] says may refer to it. *)
Section SafeAt.
Context (len : Z) (init : AbsState) (n : nat) (B : Prop).

Definition safe_at {A} (c : M A) (Q : A -> Prop) (a : Analysis) : Prop :=
  an_ok len init a -> ready n a ->
    match c a with
    | None => B
    | Some (Ok (x, a')) => an_ok len init a' /\ ready n a' /\ Q x
    | Some (Err _) => True
    end.

(** A computation that cannot panic. *)
Lemma safe_here {A} (c : M A) (Q : A -> Prop) a : safe len init n False c Q -> safe_at c Q a.
Proof. intros H O R. specialize (H a O R). by destruct (c a) as [[[x a'] |] |]. Qed.

Lemma safe_at_bind {A C} (c : M A) (k : A -> M C) (P : A -> Prop) (Q : C -> Prop) a :
  safe_at c P a -> (forall x a', c a = Some (Ok (x, a')) -> P x -> safe_at (k x) Q a') -> safe_at (bind c k) Q a.
Proof.
  intros Hc Hk O R. specialize (Hc O R). unfold bind. destruct (c a) as [[[x a'] |] |] eqn:E; try done.
  destruct Hc as (O' & R' & Px). by apply Hk.
Qed.

Lemma safe_at_expect {A C} (o : option A) (x : A) (k : A -> M C) (Q : C -> Prop) a : o = Some x -> safe_at (k x) Q a -> safe_at (bind (expect o) k) Q a.
Proof. intros -> H O R. by apply H. Qed.

(** Every step of the fold is safe in the analysis the steps before it leave. *)
Lemma safe_at_foldM {A C} (f : A -> C -> M A) (P : A -> Prop) l x a : P x ->
  (forall l1 y l2 x' a', l = l1 ++ y :: l2 -> foldM f l1 x a = Some (Ok (x', a')) -> P x' -> safe_at (f x' y) P a') -> safe_at (foldM f l x) P a.
Proof.
  revert x a. induction l as [| y l IH]; intros x a Px H; simpl; [by intros O R |].
  apply (safe_at_bind _ _ P); [by apply (H [] y l x a) |]. intros x' a' E Px'. apply IH; [done |].
  intros l1 z l2 x2 a2 -> E2 P2. apply (H (y :: l1) z l2 x2 a2); [done | | done]. simpl. unfold bind. by rewrite E.
Qed.
End SafeAt.

(** A fold that panics at one of its steps panics. *)
Lemma foldM_panics {A C} (f : A -> C -> M A) l1 y l2 x a x' a' :
  foldM f l1 x a = Some (Ok (x', a')) -> f x' y a' = None -> foldM f (l1 ++ y :: l2) x a = None.
Proof.
  revert x a. induction l1 as [| z l1 IH]; intros x a E F; simpl in *.
  - unfold ret in E. simplify_eq. unfold bind. by rewrite F.
  - unfold bind in *. destruct (f x z a) as [[[x1 a1] |] |]; try done. by apply IH.
Qed.

(** * One instruction *)

(** The value, or the offset of the pointer, denotes some number. *)
Definition inhabited (v : AbsValue) : Prop :=
  match v with
  | NotInit => True
  | Scalar s => exists x, smember s x
  | Ptr p => exists x, smember p.(p_off) x
  end.

Lemma wf_lookup st r : state_wf st -> reg_ok r -> is_Some (st.(regs) !! reg_usize r).
Proof. intros W Hr. apply lookup_lt_is_Some_2. rewrite (wf_regs_len st W). unfold reg_ok, NUM_REGS, reg_usize in *. lia. Qed.

Lemma reg_new_reg_ok k r : 0 <= k -> reg_new k = Some r -> reg_ok r.
Proof. unfold reg_new. destruct (_ <? _) eqn:E; [| done]. intros Hk [= <-]. apply Z.ltb_lt in E. by split. Qed.

Section Runs.
Context (len : Z) (init : AbsState) (n : nat) (ir : Ir) (prog : Program) (live : Masks).
Context (Hn : length ir.(subprogs) = n) (Hlive : length live.(after) = length ir.(insns))
  (Hargs : Forall (fun k => (length k.(k_args) <= MAX_KFUNC_ARGS)%nat) prog.(kfuncs)).

Abbreviation runs := (safe len init n False).
Abbreviation any := (fun _ => True).

Lemma run_get st at_ r : state_wf st -> reg_ok r -> runs (get st at_ r) (fun v => st.(regs) !! reg_usize r = Some v).
Proof using Type.
  intros W Hr. destruct (wf_lookup st r W Hr) as [v E]. eapply safe_bind; [by apply safe_expect |]. intros ? ->.
  destruct v; [apply safe_fail | by apply safe_ret | by apply safe_ret].
Qed.

Lemma run_get_scalar st at_ r : state_wf st -> reg_ok r -> runs (get_scalar st at_ r) (fun s => st.(regs) !! reg_usize r = Some (Scalar s)).
Proof using Type.
  intros W Hr. eapply safe_bind; [by apply run_get |]. intros v E. destruct v; [apply safe_fail | by apply safe_ret | apply safe_fail].
Qed.

Lemma run_get_ptr st at_ r : state_wf st -> reg_ok r -> runs (get_ptr st at_ r) (fun p => st.(regs) !! reg_usize r = Some (Ptr p)).
Proof using Type.
  intros W Hr. eapply safe_bind; [by apply run_get |]. intros v E. destruct v; [apply safe_fail | apply safe_fail | by apply safe_ret].
Qed.

Lemma run_set st at_ r v : state_wf st -> reg_ok r -> runs (set st at_ r v) any.
Proof using Type.
  intros W Hr. unfold set. case_match; [apply safe_fail |]. eapply safe_bind; [by apply safe_expect_some, wf_lookup |]. intros ? _.
  by apply safe_ret.
Qed.

Lemma run_source st at_ src wide : state_wf st -> source_ok src -> runs (source st at_ src wide) (source_is st src wide).
Proof using Type.
  intros W Hs. eapply safe_spec; [| apply spec_source]. destruct src as [k | r]; [by apply safe_ret with (Q := any) |]. by eapply safe_any, run_get.
Qed.

Lemma run_scalar_source st at_ src wide : state_wf st -> source_ok src ->
  runs (scalar_source st at_ src wide) (fun s => source_is st src wide (Scalar s)).
Proof using Type.
  intros W Hs. eapply safe_bind; [by apply run_source |]. intros v E. destruct v; [apply safe_fail | by apply safe_ret | apply safe_fail].
Qed.

Lemma safe_seq {A C} (c : M A) (k : A -> M C) (Q : C -> Prop) : runs c any -> (forall x, runs (k x) Q) -> runs (bind c k) Q.
Proof using Type. intros Hc Hk. by eapply safe_bind. Qed.

Create HintDb runs.
Hint Resolve safe_fail safe_lift safe_note_depth run_set : runs.
Hint Extern 1 (safe _ _ _ _ (ret _) _) => apply safe_ret; exact I : runs.
Hint Extern 1 (safe _ _ _ _ (modify_ _) _) => apply safe_modify; [done | by intros ? []] : runs.
Hint Extern 1 (safe _ _ _ _ (get _ _ _) _) => eapply safe_any, run_get : runs.
Hint Extern 1 (safe _ _ _ _ (get_scalar _ _ _) _) => eapply safe_any, run_get_scalar : runs.
Hint Extern 1 (safe _ _ _ _ (get_ptr _ _ _) _) => eapply safe_any, run_get_ptr : runs.
Hint Extern 1 (safe _ _ _ _ (source _ _ _ _) _) => eapply safe_any, run_source : runs.
Hint Extern 1 (safe _ _ _ _ (scalar_source _ _ _ _) _) => eapply safe_any, run_scalar_source : runs.

Ltac runs_auto :=
  repeat first
    [ progress eauto 4 with runs
    | apply safe_seq; [| intros]
    | progress cbv zeta
    | case_match ].

Lemma run_alu st at_ wide op dst src : state_wf st -> reg_ok dst -> source_ok src -> runs (alu st at_ wide op dst src) any.
Proof using Type. intros W Hd Hs. unfold alu. runs_auto. Qed.

Lemma run_addr_space_cast st at_ dst src x y : state_wf st -> reg_ok dst -> reg_ok src -> runs (addr_space_cast st at_ dst src x y) any.
Proof using Type. intros W Hd Hs. unfold addr_space_cast. runs_auto. Qed.

Lemma run_access st at_ r off size write d : state_wf st -> reg_ok r ->
  runs (access prog st at_ r off size write d)
    (fun res => exists p, st.(regs) !! reg_usize r = Some (Ptr p) /\ access_ok p off size write res).
Proof using Type.
  intros W Hr. apply (safe_spec _ _ _ _ _ any); [| apply spec_access]. unfold access, typed_field_load. runs_auto.
Qed.
Hint Extern 1 (safe _ _ _ _ (access _ _ _ _ _ _ _ _) _) => eapply safe_any, run_access : runs.

Lemma run_load st at_ size se dst src off : state_wf st -> reg_ok dst -> reg_ok src -> runs (load prog st at_ size se dst src off) any.
Proof using Type. intros W Hd Hs. unfold load. runs_auto. Qed.

(** The offset of an access denotes a number, so its bounds are in order. *)
Lemma offset_bounds p off : swf p.(p_off) -> inhabited (Ptr p) -> is_i 16 off -> (offset_of p off).(min) <= (offset_of p off).(max).
Proof using Type.
  intros Wp [x Hx] Ho. assert (Ho' : is_i 64 off) by (apply (is_i_mono 16); [clear; lia | done]).
  destruct (add_sound _ _ Wp (swf_constant off Ho')) as [Wa Sa]. specialize (Sa x (u64 off) Hx (smember_constant off Ho')).
  by destruct (smember_bounds _ _ Sa) as [L H]; etransitivity.
Qed.

Lemma write_maybe_some s lo hi : in_frame lo -> lo < hi -> hi <= 0 -> is_Some (stack.write_maybe s lo hi).
Proof using Type.
  intros F L H. unfold stack.write_maybe. destruct (_ <? _) eqn:E; [| by eexists]. apply Z.ltb_lt in E.
  destruct (slot_index_spec lo F) as [E1 _], (slot_index_spec (hi - 1)) as [E2 _]; [unfold in_frame in *; clear -F L H; lia |].
  rewrite E1, E2 in E. pose proof (Z.div_le_mono (- (hi - 1) - 1) (- lo - 1) 8 ltac:(done) ltac:(clear -L; lia)) as D. clear -E D. lia.
Qed.

Lemma run_write_stack st p off size r v : state_wf st -> vwf v -> swf p.(p_off) -> inhabited (Ptr p) -> is_i 16 off ->
  access_ok p off size true r -> runs (write_stack st p.(p_class) r size v) state_wf.
Proof using Type.
  intros W Wv Wp Hp Ho [_ Ha]. pose proof (offset_bounds p off Wp Hp Ho) as Hb.
  apply (safe_spec _ _ _ _ _ any); [| eapply spec_weaken; [apply spec_write_stack |]; intros st' Hw; by eapply written_wf].
  unfold write_stack. destruct (p_class p); try (by apply safe_ret). destruct r as [a | lo hi | |]; try (by apply safe_ret); [runs_auto |].
  destruct Ha as (F & H & E). destruct (scalar.as_const _); [done |]. injection E as -> ->.
  apply safe_seq; [| intros; runs_auto]. apply safe_expect_some, write_maybe_some; [done | | done].
  pose proof (size_bytes_range size) as S. clear -S Hb. lia.
Qed.

(** Every register of the state denotes some number. *)
Definition full (st : AbsState) : Prop := Forall inhabited st.(regs).

Lemma full_ptr st r p : state_wf st -> full st -> st.(regs) !! r = Some (Ptr p) -> swf p.(p_off) /\ inhabited (Ptr p).
Proof using Type. intros W F E. split; [exact (get_reg_wf _ _ _ W E) | exact (Forall_lookup_1 _ _ _ _ F E)]. Qed.

Lemma run_store st at_ size dst off src : state_wf st -> full st -> decoded_ok (Decoded.Store size dst off src) ->
  runs (store prog st at_ size dst off src) any.
Proof using Type.
  intros W F (Hd & Ho & Hs). eapply safe_bind; [by apply run_source |]. intros v Ev. cbv zeta.
  pose proof (source_wf _ _ _ _ W Hs Ev) as Wv. set (v' := match v with Ptr _ => _ | _ => _ end).
  assert (Wv' : vwf v') by (subst v'; destruct v; [done | done | by case_bool_decide; [apply swf_UNKNOWN |]]).
  eapply safe_bind; [by apply run_get_ptr |]. intros p Ep. eapply safe_bind; [by apply run_access |]. intros r (q & Eq & Ha).
  rewrite Ep in Eq. injection Eq as <-. destruct (full_ptr st _ p W F Ep) as [Wp Ip]. by eapply safe_any, run_write_stack.
Qed.

Lemma run_atomic st at_ size op dst src off : state_wf st -> full st -> decoded_ok (Decoded.Atomic size op dst src off) ->
  runs (atomic prog st at_ size op dst src off) any.
Proof using Type.
  intros W F (Hd & Hs & Ho & _). assert (H0 : reg_ok R0) by done. unfold atomic. apply safe_seq; [runs_auto |]. intros _. cbv zeta.
  apply safe_seq; [runs_auto |]. intros _. eapply safe_bind; [by apply run_get_ptr |]. intros p Ep.
  eapply safe_bind; [by apply run_access |]. intros r (q & Eq & Ha). rewrite Ep in Eq. injection Eq as <-.
  destruct (full_ptr st _ p W F Ep) as [Wp Ip]. pose proof (unsigned_bits_size size) as Wu.
  eapply safe_bind; [by eapply run_write_stack |]. intros st1 W1.
  eapply (safe_bind _ _ _ _ _ _ state_wf); [| intros st2 W2; runs_auto].
  apply (safe_spec _ _ _ _ _ any); [runs_auto |]. case_match; [| by apply spec_ret].
  eapply spec_weaken; [apply spec_set |]. intros ? ->. auto with wf.
Qed.

Lemma run_call_subprog st at_ next off : state_wf st -> runs (call_subprog ir st at_ next off) any.
Proof using Hn.
  intros W. unfold call_subprog. cbv zeta. destruct (list_find _ _) as [[callee s] |] eqn:E; [| apply safe_fail].
  apply list_find_Some in E as (E & _). apply lookup_lt_Some in E. rewrite Hn in E.
  eapply (safe_bind _ _ _ _ _ _ (fun p => state_wf p.1)).
  - apply safe_foldM; [apply fresh_wf |]. intros [acc passed] k Wa Hk.
    assert (Lk : (k < 11)%nat) by (clear -Hk; rewrite !elem_of_cons, elem_of_nil in Hk; lia). rewrite <- (wf_regs_len st W) in Lk.
    destruct (lookup_lt_is_Some_2 _ _ Lk) as [v Ev].
    eapply safe_bind; [by apply safe_expect |]. intros ? ->. pose proof (get_reg_wf _ _ _ W Ev) as Wv.
    eapply (safe_bind _ _ _ _ _ _ (fun p => vwf p.1)); [| intros [v' b] Wv'; apply safe_ret; simpl in *; auto with wf].
    apply (safe_spec _ _ _ _ _ any); [unfold pass_arg; runs_auto | by apply wf_pass_arg].
  - intros [entry b] We. apply safe_seq; [by apply safe_join_entry |]. intros; runs_auto.
Qed.

Lemma run_check_arg st at_ desc k arg : state_wf st -> (k < MAX_KFUNC_ARGS)%nat -> runs (check_arg prog st at_ desc k arg) any.
Proof using Type.
  intros W Hk. unfold check_arg, MAX_KFUNC_ARGS in *. destruct (reg_new (Z.of_nat k + 1)) as [r |] eqn:E.
  2: { unfold reg_new, NUM_REGS in E. destruct (_ <? _) eqn:L; [done |]. apply Z.ltb_ge in L. clear -L Hk. lia. }
  apply reg_new_reg_ok in E; [| clear; lia]. eapply safe_bind; [by apply safe_expect |]. intros ? ->.
  apply safe_seq; [runs_auto |]. intros v. unfold check_ptr_arg, check_mem_arg.
  assert (K : forall r', reg_new (Z.of_nat k + 2) = Some r' -> reg_ok r') by (intros r'; apply reg_new_reg_ok; clear; lia). runs_auto.
Qed.

Lemma run_check_args st at_ desc : state_wf st -> (length desc.(k_args) <= MAX_KFUNC_ARGS)%nat -> runs (check_args prog st at_ desc) state_wf.
Proof using Type.
  intros W Ha. apply safe_foldM; [done |]. intros st1 [k arg] W1 Hk.
  apply (safe_spec _ _ _ _ _ any); [| by apply wf_check_arg]. apply run_check_arg; [done |].
  apply elem_of_zip_l, elem_of_seq in Hk. simpl in *. clear -Hk Ha. lia.
Qed.

Lemma run_await st at_ i : state_wf st -> (i < length ir.(insns))%nat -> runs (await live st at_ i) state_wf.
Proof using Hlive.
  intros W Hi. apply (safe_spec _ _ _ _ _ any); [| by apply wf_await]. unfold await.
  destruct (state.kill_at_await st) as [killed st1] eqn:E.
  apply safe_foldM; [done |]. intros st2 [r d] _ _. apply safe_seq; [| intros; runs_auto]. apply safe_expect_some.
  unfold liveness.after_has. rewrite <- Hlive in Hi. destruct (lookup_lt_is_Some_2 _ _ Hi) as [x ->]. by eexists.
Qed.

Lemma run_call_kfunc st at_ i id : state_wf st -> (i < length ir.(insns))%nat -> runs (call_kfunc prog live st at_ i id) any.
Proof using Hlive Hargs.
  intros W Hi. unfold call_kfunc. destruct (list_find _ _) as [[j desc] |] eqn:Ef; [| apply safe_fail].
  apply list_find_Some in Ef as (Ej & _). pose proof (Forall_lookup_1 _ _ _ _ Hargs Ej) as Ha. simpl in Ha.
  case_match; [apply safe_fail |]. eapply safe_bind; [by apply run_check_args |]. intros st1 W1. apply safe_seq.
  { unfold acquired_mem_size. case_match; [runs_auto |]. cbv zeta. destruct (list_find _ _) as [[idx x] |]; [| runs_auto].
    destruct (reg_new _) as [r |] eqn:Er; [| runs_auto]. apply reg_new_reg_ok in Er; [| clear; lia]. runs_auto. }
  intros size. apply safe_seq; [runs_auto |]. intros _.
  eapply (safe_bind _ _ _ _ _ _ any); [case_match; [by eapply safe_any, run_await | runs_auto] |]. intros st2 _. cbv zeta.
  apply safe_seq; [runs_auto |]. intros [st3 ref]. runs_auto.
Qed.

Lemma run_check_exit st at_ : state_wf st -> runs (check_exit st at_) any.
Proof using Type.
  intros W. unfold check_exit. case_match; [| apply safe_fail]. apply safe_seq; [| intros; runs_auto].
  apply safe_expect_some, wf_lookup; done.
Qed.

Lemma run_div st at_ wide signed dst src : state_wf st -> full st -> reg_ok dst -> source_ok src ->
  runs (let! d := get_scalar st at_ dst in
        let! s := scalar_source st at_ src wide in
        let! q := expect (scalar.div_op d wide signed s) in
        set st at_ dst (Scalar q)) any.
Proof using Type.
  intros W F Hd Hs. eapply safe_bind; [by apply run_get_scalar |]. intros d Ed. eapply safe_bind; [by apply run_scalar_source |].
  intros s Es. pose proof (get_reg_wf _ _ _ W Ed) as Wd. pose proof (source_wf _ _ _ _ W Hs Es) as Ws. simpl in Wd, Ws.
  destruct (Forall_lookup_1 _ _ _ _ F Ed) as [x Hx].
  assert (exists y, smember s y) as [y Hy].
  { destruct src as [k | r]; simpl in Es; [| destruct Es as [Es _]; exact (Forall_lookup_1 _ _ _ _ F Es)].
    injection Es as ->. eexists. apply smember_constant. destruct wide; [apply (is_i_mono 32); [clear; lia | done] |].
    pose proof (u32_small k) as [_ R]. clear -R. unfold is_i. simpl. lia. }
  destruct (div_mod_sound wide signed d s x y Wd Ws Hx Hy) as [(q & Eq & _) _].
  eapply safe_bind; [by apply safe_expect |]. intros ? ->. runs_auto.
Qed.

Lemma run_step st i insn : state_wf st -> full st -> ir.(insns) !! i = Some insn -> decoded_ok insn.(ir_op) -> runs (step ir prog live st i) any.
Proof using Hn Hlive Hargs.
  intros W F Ei Ho. pose proof (lookup_lt_Some _ _ _ Ei) as Li. unfold step. eapply safe_bind; [by apply safe_expect |]. intros ? ->. cbv zeta.
  destruct (ir_op insn) as [| | | | | | | | | | | | | | [|] |] eqn:Eo; cbn [decoded_ok] in Ho.
  9: by apply run_store.
  9: by apply run_atomic.
  all: destruct_and?; first [ by apply run_alu | by apply run_div | by apply run_addr_space_cast | by apply run_load
                            | by apply run_call_subprog | by apply run_call_kfunc | solve [runs_auto] | idtac ].
  apply safe_seq; [by apply run_check_exit | intros; runs_auto].
Qed.

(** * Blocks *)

Lemma run_refine st at_ wide pred dst src : state_wf st -> reg_ok dst -> source_ok src ->
  runs (refine st at_ wide pred dst src) any.
Proof using Type. intros W Hd Hs. unfold refine. runs_auto. Qed.
End Runs.

(** * The instructions a run of the verifier comes to *)

Section Reach.
Context (ir : Ir) (prog : Program) (live prec : Masks).

(** The last instruction of a block is left to its transfer function unless it
    is a branch or an exit. *)
Definition transferred (op : Decoded) : bool :=
  match op with Decoded.Exit | Decoded.JumpCond _ _ _ _ _ | Decoded.MayGoto _ => false | _ => true end.

(** The walk of block [b] from state [st] in analysis [a] applies the transfer
    function of instruction [i] to [st'] in [a']. *)
Definition in_block (b : nat) (st : AbsState) (a : Analysis) (i : nat) (st' : AbsState) (a' : Analysis) : Prop :=
  exists blk insn, ir.(blocks) !! b = Some blk /\ (blk.(b_start) <= i < blk.(b_end))%nat /\
    foldM (step ir prog live) (seq blk.(b_start) (i - blk.(b_start))) st a = Some (Ok (st', a')) /\
    ir.(insns) !! i = Some insn /\ (i = (blk.(b_end) - 1)%nat -> transferred insn.(ir_op) = true).

(** So does the worklist, within [n] rounds from [w]: in the round that is next,
    or after it. *)
Inductive in_rounds (reachable : list bool) (i : nat) (st' : AbsState) (a' : Analysis) : nat -> Work -> Analysis -> Prop :=
  | round_walks n w a b wl start : w.(worklist) = b :: wl -> w.(in_state) !! b = Some (Some start) ->
      in_block b start a i st' a' -> in_rounds reachable i st' a' (S n) w a
  | round_skips n w a b wl : w.(worklist) = b :: wl -> w.(in_state) !! b = Some None ->
      in_rounds reachable i st' a' n (mk_work w.(in_state) wl (<[b := false]> w.(queued))) a -> in_rounds reachable i st' a' (S n) w a
  | round_ends n w a b wl start outs a1 w2 a2 : w.(worklist) = b :: wl -> w.(in_state) !! b = Some (Some start) ->
      walk_block ir prog live b start a = Some (Ok (outs, a1)) ->
      foldM (fun w p => expect (edge ir prec reachable w p)) outs (mk_work w.(in_state) wl (<[b := false]> w.(queued))) a1 = Some (Ok (w2, a2)) ->
      in_rounds reachable i st' a' n w2 a2 -> in_rounds reachable i st' a' (S n) w a.

(** So does the analysis of subprogram [sp]. *)
Definition in_subprog (sp : nat) (a : Analysis) (i : nat) (st' : AbsState) (a' : Analysis) : Prop :=
  exists entry s reachable, let e := s.(entry_block) in let n := length ir.(blocks) in
    a.(an_entry) !! sp = Some (Some entry) /\ ir.(subprogs) !! sp = Some s /\ dom.reachable_blocks ir.(blocks) (Some e) = Some reachable /\
    in_rounds reachable i st' a' (Z.to_nat (fixpoint_round_budget (Z.of_nat n)))
      (mk_work (<[e := Some entry]> (replicate n None)) [e] (<[e := true]> (replicate n false))) (set_current sp a).
End Reach.

(** The run of [verify] on [prog] applies the transfer function of instruction
    [i] to state [st] with [a] recorded so far: the program passes the checks,
    and the subprograms before the one at hand were analysed without an error. *)
Definition applies (prog : Program) (ir : Ir) (live : Masks) (st : AbsState) (i : nat) (a : Analysis) : Prop :=
  prog.(p_insns) <> [] /\ descriptors_checked prog /\ check_objects [] prog.(objects) = Ok tt /\
  build prog.(p_insns) = Some (Ok ir) /\ liveness.liveness ir = Some live /\
  exists prec pre sp post entries b,
    topological_order ir.(subprogs) = Some (Ok (pre ++ sp :: post)) /\ liveness.precision ir = Some prec /\
    ir.modify (replicate (length ir.(subprogs)) None) 0 (fun _ => Some (state.entry (ctx_len prog))) = Some entries /\
    foldM (fun _ sp => analyse_subprog ir prog live prec sp) pre tt (blank ir entries) = Some (Ok (tt, b)) /\
    in_subprog ir prog live prec sp b i st a.

Lemma seq_prefix s k l1 i l2 : seq s k = l1 ++ i :: l2 -> l1 = seq s (i - s) /\ (s <= i < s + k)%nat.
Proof.
  intros E. assert (seq s k !! length l1 = Some i) as L by (rewrite E; by apply list_lookup_middle).
  apply lookup_seq in L as [-> L]. split; [| lia]. replace (s + length l1 - s)%nat with (length l1) by lia.
  replace l1 with (take (length l1) (seq s k)) at 1 by (rewrite E; apply take_app_length). rewrite take_seq. f_equal. lia.
Qed.

Section Total.
Context (prog : Program) (D : descriptors_checked prog) (Hp : Forall insn_ok prog.(p_insns)) (Hl : Z.of_nat (length prog.(p_insns)) < 2 ^ 64).
Context (ir : Ir) (Eb : build prog.(p_insns) = Some (Ok ir)) (live prec : Masks).
Context (El : liveness.liveness ir = Some live) (Ep : liveness.precision ir = Some prec).

Abbreviation len := (ctx_len prog).
Abbreviation init := (state.entry len).
Abbreviation n := (length ir.(subprogs)).
Abbreviation any := (fun _ => True).

(** The transfer function panics, in a state that has a register which denotes
    no number. *)
Definition panics_on_empty (i : nat) (st : AbsState) (a : Analysis) : Prop :=
  state_wf st /\ step ir prog live st i a = None /\ ~ full st.

(** A computation panics only if one of its transfer functions does so. *)
Context (B : Prop).
Abbreviation okay := (safe_at len init n B).
Abbreviation leads R := (forall i st a, R i st a -> panics_on_empty i st a -> B).

Lemma total_built : built prog.(p_insns) ir.
Proof using Hp Eb. apply (fi_built _ _ (build_finished _ ir Hp Eb)). Qed.

Lemma live_length : length live.(after) = length ir.(insns).
Proof using Hp Eb El.
  destruct (backward_built _ ir (fun _ => true) total_built) as (m & E & W & _). unfold liveness.liveness in El. rewrite E in El.
  injection El as <-. apply (wf_after _ _ W).
Qed.

Lemma prec_length : length prec.(before) = length ir.(insns).
Proof using Hp Eb Ep.
  destruct (backward_built _ ir (liveness.seeds ir) total_built) as (m & E & W & _). unfold liveness.precision in Ep. rewrite E in Ep.
  injection Ep as <-. apply (wf_before _ _ W).
Qed.

Lemma args_bounded : Forall (fun k => (length k.(k_args) <= MAX_KFUNC_ARGS)%nat) prog.(kfuncs).
Proof using D.
  destruct D as [E _]. induction (kfuncs prog) as [| k ks IH]; [constructor |]. simpl in E.
  destruct (kfunc.validate k) as [[] |] eqn:Ev; [| done]. constructor; [| by apply IH].
  unfold kfunc.validate, kfunc.reject in Ev. destruct (MAX_KFUNC_ARGS <? length (k_args k))%nat eqn:L; [done |]. by apply Nat.ltb_ge.
Qed.

Lemma okay_step st i a : state_wf st -> (i < length ir.(insns))%nat -> (panics_on_empty i st a -> B) -> okay (step ir prog live st i) state_wf a.
Proof using D Hp Eb El.
  intros W Li Hb. destruct (lookup_lt_is_Some_2 _ _ Li) as [insn Ei]. pose proof (built_ops prog Hp ir Eb i insn Ei) as Ho. intros O R.
  destruct (step ir prog live st i a) as [[[st' a'] |] |] eqn:E; [| done |].
  - destruct (step_covered len init ir prog live st i insn (checked_ok prog D) W Ei Ho a st' a' O E) as [O' [W' _]].
    destruct (stable_step n ir prog live eq_refl st i a st' a' a E R) as (b & Eb' & Rb). rewrite E in Eb'. by injection Eb' as <-.
  - apply Hb. split_and!; [done | done |]. intros F.
    pose proof (run_step len init n ir prog live eq_refl live_length args_bounded st i insn W F Ei Ho a O R) as H. by rewrite E in H.
Qed.

Definition outs_ok (outs : list (nat * AbsState)) : Prop := Forall (fun p => (p.1 < length ir.(blocks))%nat /\ state_wf p.2) outs.

(** The targets of the branch that ends a block are blocks. *)
Lemma end_target b blk insn ss es ts t o : ir.(blocks) !! b = Some blk -> ir.(insns) !! (blk.(b_end) - 1)%nat = Some insn ->
  ir.resolve (length prog.(p_insns)) ir.(ir_of_slot) insn = Ok (ss, es, ts) -> t ∈ ss ->
  interp.goto (Z.of_nat (next_slot insn)) o = Z.of_nat t ->
  exists k, block_at_slot ir (Z.of_nat (next_slot insn)) o = Some k /\ (k < length ir.(blocks))%nat.
Proof using Hp Eb.
  intros Hb Ei R Ht Eg. destruct (bt_graph _ _ total_built) as (sl & ens & _ & _ & Hr & G & _).
  destruct (Hr _ insn Ei) as (ss' & es' & ts' & Es & R'). rewrite R in R'. injection R' as <- <- <-.
  pose proof (go_range _ _ _ _ _ G b blk Hb) as Rg.
  destruct (go_outer _ _ _ _ _ G b blk (b_end blk - 1)%nat ss Hb ltac:(clear -Rg; lia) Es t Ht) as (j & k & B' & Ej & Ek & _ & Hk & _).
  exists k. split; [| by eapply lookup_lt_Some]. unfold block_at_slot. unfold interp.goto in Eg. rewrite Eg, Nat2Z.id, Ej. exact Ek.
Qed.

Lemma end_branch b blk insn off : ir.(blocks) !! b = Some blk -> ir.(insns) !! (blk.(b_end) - 1)%nat = Some insn ->
  (exists wide op dst src, insn.(ir_op) = Decoded.JumpCond wide op dst src off) \/ insn.(ir_op) = Decoded.MayGoto off ->
  exists kt kf, block_at_slot ir (Z.of_nat (next_slot insn)) off = Some kt /\ (kt < length ir.(blocks))%nat /\
    block_at_slot ir (Z.of_nat (next_slot insn)) 0 = Some kf /\ (kf < length ir.(blocks))%nat.
Proof using Hp Eb Hl.
  intros Hb Ei Ho. destruct (bt_graph _ _ total_built) as (sl & ens & _ & _ & Hr & _).
  destruct (Hr _ insn Ei) as (ss & es & ts & _ & R).
  assert (exists t f, ss = [t; f] /\ ir.branch (length prog.(p_insns)) ir.(ir_of_slot) insn off = Ok t /\
    ir.fallthrough (length prog.(p_insns)) insn = Ok f) as (t & f & -> & Et & Ef).
  { unfold ir.resolve in R. destruct Ho as [(w & op & dst & src & Eo) | Eo]; rewrite Eo in R.
    all: destruct (ir.branch _ _ _ _) as [t |]; [| done]; destruct (ir.fallthrough _ _) as [f |]; [| done]; simpl in R;
      injection R as <- _ _; by exists t, f. }
  apply branch_goto in Et; [| done]. unfold ir.fallthrough in Ef. destruct (_ <=? _)%nat eqn:Lf; [done |]. injection Ef as <-.
  apply Nat.leb_gt in Lf.
  assert (Eg : interp.goto (Z.of_nat (next_slot insn)) 0 = Z.of_nat (next_slot insn)).
  { unfold interp.goto. rewrite Z.add_0_r. apply wrap_small. unfold is_u. clear -Hl Lf. lia. }
  destruct (end_target b blk insn _ _ _ t off Hb Ei R ltac:(by left) Et) as (kt & Ekt & Lt).
  destruct (end_target b blk insn _ _ _ (next_slot insn) 0 Hb Ei R ltac:(by right; left) Eg) as (kf & Ekf & Lk). by exists kt, kf.
Qed.

Lemma okay_refine st at_ wide pred dst src a : state_wf st -> reg_ok dst -> source_ok src ->
  okay (refine st at_ wide pred dst src) (fun o => from_option state_wf True o) a.
Proof using Type.
  intros W Hd Hs. apply safe_here, (safe_spec _ _ _ _ _ any); [by apply run_refine |].
  eapply spec_weaken; [by apply (refine_kept len init) |]. intros o [Wo _]. by destruct o.
Qed.

Lemma okay_ret {A} (x : A) (Q : A -> Prop) a : Q x -> okay (ret x) Q a.
Proof using Type. by intros H O R. Qed.

Lemma okay_walk b st a : (b < length ir.(blocks))%nat -> state_wf st -> leads (in_block ir prog live b st a) -> okay (walk_block ir prog live b st) outs_ok a.
Proof using D Hp Hl Eb El.
  intros Lb W Lead. destruct (lookup_lt_is_Some_2 _ _ Lb) as [blk Hb]. destruct (bt_graph _ _ total_built) as (sl & ens & _ & _ & _ & G & _).
  pose proof (go_range _ _ _ _ _ G b blk Hb) as Rg. apply (safe_at_expect _ _ _ _ _ blk); [done |]. cbv zeta.
  apply (safe_at_bind _ _ _ _ _ _ state_wf).
  { apply safe_at_foldM; [done |]. intros l1 i l2 st' a' Es Ef W'. destruct (seq_prefix _ _ _ _ _ Es) as [-> Hi].
    assert (Li : (i < length ir.(insns))%nat) by (clear -Hi Rg; lia). apply okay_step; [done | done |]. apply Lead.
    destruct (lookup_lt_is_Some_2 _ _ Li) as [insn Ei]. exists blk, insn. split_and!; [done | clear -Hi; lia | clear -Hi; lia | done | done |].
    intros ->. clear -Hi. lia. }
  intros st' a' Ef W'. assert (Li : (b_end blk - 1 < length ir.(insns))%nat) by (clear -Rg; lia).
  destruct (lookup_lt_is_Some_2 _ _ Li) as [insn Ei]. apply (safe_at_expect _ _ _ _ _ insn); [done |].
  pose proof (built_ops prog Hp ir Eb _ _ Ei) as Ho.
  assert (N : transferred insn.(ir_op) = true -> okay (let! st := step ir prog live st' (b_end blk - 1) in ret ((fun s => (s, st)) <$> b_succs blk)) outs_ok a').
  { intros Ht. apply (safe_at_bind _ _ _ _ _ _ state_wf).
    - apply okay_step; [done | done |]. apply Lead. exists blk, insn. split_and!; try done; clear -Rg; lia.
    - intros st2 a2 _ W2. apply okay_ret. apply Forall_fmap, Forall_forall. intros s Hs. split; [| done].
      by apply (go_succs _ _ _ _ _ _ _ _ G Hb). }
  destruct (ir_op insn) eqn:Eo; try exact (N eq_refl); cbn [decoded_ok] in Ho.
  - destruct (end_branch b blk insn off Hb Ei) as (kt & kf & Et & Lt & Ef' & Lf); [left; by eauto |]. destruct Ho as (Hd & Hs & _).
    apply (safe_at_expect _ _ _ _ _ kt); [done |]. apply (safe_at_expect _ _ _ _ _ kf); [done |].
    eapply safe_at_bind; [by apply okay_refine |]. intros taken a2 _ Wt. eapply safe_at_bind; [by apply okay_refine |]. intros fall a3 _ Wf. apply okay_ret.
    apply Forall_app. split; [destruct taken | destruct fall]; try apply Forall_nil_2; by apply Forall_singleton.
  - destruct (end_branch b blk insn off Hb Ei) as (kt & kf & Et & Lt & Ef' & Lf); [by right |].
    apply (safe_at_expect _ _ _ _ _ kt); [done |]. apply (safe_at_expect _ _ _ _ _ kf); [done |].
    apply okay_ret. by do 2 (apply Forall_cons; split; [done |]).
  - apply (safe_at_bind _ _ _ _ _ _ any); [by apply safe_here, run_check_exit |]. intros _ a2 _ _. apply okay_ret. constructor.
Qed.

(** * The worklist *)

Record work_sized (reachable : list bool) (w : Work) : Prop := {
  ws_reachable : length reachable = length ir.(blocks);
  ws_states : length w.(in_state) = length ir.(blocks);
  ws_queued : length w.(queued) = length ir.(blocks);
  ws_list b : b ∈ w.(worklist) -> (b < length ir.(blocks))%nat;
  ws_wf b st : w.(in_state) !! b = Some (Some st) -> state_wf st
}.

Lemma merge_total succ st old : (succ < length ir.(blocks))%nat -> is_Some (merge ir prec succ st old).
Proof using Hp Eb Ep.
  intros L. unfold merge. destruct old as [old |]; [| by eexists]. destruct (lookup_lt_is_Some_2 _ _ L) as [blk Hb]. rewrite Hb. simpl.
  destruct (bt_graph _ _ total_built) as (sl & ens & _ & _ & _ & G & _). pose proof (go_range _ _ _ _ _ G succ blk Hb) as Rg.
  destruct (widen_here blk); [| by eexists]. destruct (lookup_lt_is_Some_2 (before prec) (b_start blk)) as [x ->]; [| by eexists].
  rewrite prec_length. clear -Rg. lia.
Qed.

Lemma edge_total reachable w p : work_sized reachable w -> (p.1 < length ir.(blocks))%nat -> state_wf p.2 ->
  exists w', edge ir prec reachable w p = Some w' /\ work_sized reachable w'.
Proof using D Hp Eb Ep.
  destruct p as [succ st]. intros Z L W. simpl in L, W. pose proof Z as [Z1 Z2 Z3 Z4 Z5]. unfold edge.
  destruct (lookup_lt_is_Some_2 reachable succ) as [r ->]; [by rewrite Z1 |]. simpl. destruct r; simpl; [| by exists w].
  destruct (lookup_lt_is_Some_2 (in_state w) succ) as [old Eo]; [by rewrite Z2 |]. rewrite Eo. simpl.
  destruct (merge_total succ st old L) as [[st' changed] Em]. rewrite Em. simpl. destruct changed; [| by exists w].
  destruct (lookup_lt_is_Some_2 (queued w) succ) as [q ->]; [by rewrite Z3 |]. simpl. eexists. split; [done |].
  destruct (merge_spec len ir prec (build_thresholds _ ir Hp Eb) succ st old st' true W) as (W' & _); [destruct old; [by eapply Z5 | done] | done |].
  assert (S : forall b s, <[succ := Some st']> (in_state w) !! b = Some (Some s) -> state_wf s).
  { intros b s [(_ & [= <-] & _) | (_ & E)]%list_lookup_insert_Some; [done | by eapply Z5]. }
  destruct q; split; simpl; rewrite ?length_insert; try done. intros b [-> | Hb]%elem_of_cons; auto.
Qed.

Lemma okay_edges reachable outs w a : work_sized reachable w -> outs_ok outs ->
  okay (foldM (fun w p => expect (edge ir prec reachable w p)) outs w) (work_sized reachable) a.
Proof using D Hp Eb Ep.
  intros Z F. apply safe_here, safe_foldM; [done |]. intros w' p Z' [Lp Wp]%(proj1 (Forall_forall _ _) F).
  destruct (edge_total reachable w' p Z' Lp Wp) as (w2 & E & Z2).
  rewrite E. by apply safe_ret.
Qed.

Lemma okay_rounds k budget sp reachable w a : work_sized reachable w ->
  leads (fun i st' a' => in_rounds ir prog live prec reachable i st' a' k w a) -> okay (rounds ir prog live prec k budget sp reachable w) any a.
Proof using D Hp Hl Eb El Ep.
  revert w a. induction k as [| k IH]; intros w a Z Lead; simpl; destruct (worklist w) as [| b wl] eqn:Ewl; try (by apply okay_ret); [done |].
  pose proof Z as [Z1 Z2 Z3 Z4 Z5]. assert (Lb : (b < length (blocks ir))%nat) by (apply Z4; rewrite Ewl; by left).
  assert (Z0 : work_sized reachable (mk_work (in_state w) wl (<[b := false]> (queued w)))).
  { split; simpl; rewrite ?length_insert; try done. intros c Hc. apply Z4. rewrite Ewl. by right. }
  destruct (lookup_lt_is_Some_2 (queued w) b) as [q Eq]; [by rewrite Z3 |]. apply (safe_at_expect _ _ _ _ _ q); [done |].
  destruct (lookup_lt_is_Some_2 (in_state w) b) as [start Es]; [by rewrite Z2 |]. apply (safe_at_expect _ _ _ _ _ start); [done |].
  destruct start as [st |].
  - eapply safe_at_bind; [apply okay_walk; [done | by eapply Z5 |] |].
    + intros i st' a' H. apply Lead. by eapply round_walks.
    + intros outs a1 Ew Ho. eapply safe_at_bind; [by apply okay_edges |]. intros w' a2 Ee Z'. apply IH; [done |].
      intros i st' a' H. apply Lead. by eapply round_ends.
  - apply IH; [done |]. intros i st' a' H. apply Lead. by eapply round_skips.
Qed.

Lemma subprog_entry_block sp s : ir.(subprogs) !! sp = Some s -> (s.(entry_block) < length ir.(blocks))%nat.
Proof using Hp Eb.
  intros E. destruct (bt_graph _ _ total_built) as (sl & ens & _ & _ & _ & G & [_ _ R]).
  destruct (Forall2_lookup_r _ _ _ _ _ R E) as (e & _ & i & Ei & Ek). destruct (index_insn _ _ total_built e i Ei) as (x & Hx & _).
  destruct (go_in _ _ _ _ _ G i) as (k & b & Ek' & Hb & _); [by eapply lookup_lt_Some |]. rewrite Ek in Ek'. injection Ek' as <-.
  by eapply lookup_lt_Some.
Qed.

Lemma okay_subprog sp a : (sp < n)%nat -> leads (in_subprog ir prog live prec sp a) -> okay (analyse_subprog ir prog live prec sp) any a.
Proof using D Hp Hl Eb El Ep.
  intros Ls Lead O R. unfold analyse_subprog. destruct (lookup_lt_is_Some_2 (an_entry a) sp) as [o Eo]; [by rewrite (rd_entry _ _ R) |].
  rewrite Eo. destruct o as [entry |]; [| done].
  assert (We : state_wf entry) by apply (Forall_lookup_1 _ _ _ _ (an_wf _ _ _ O) Eo).
  assert (O' : an_ok len init (set_current sp a)) by (by destruct O).
  assert (R' : ready n (set_current sp a)) by (destruct R; by split).
  destruct (lookup_lt_is_Some_2 _ _ Ls) as [s Es]. pose proof (subprog_entry_block sp s Es) as Le.
  destruct (reachable_blocks_spec ir.(blocks) (built_in_range _ _ total_built) (entry_block s) Le) as (reachable & Er & Lr & _).
  assert (Ok : okay (let! _ := fixpoint ir prog live prec sp entry in ret tt) any (set_current sp a)); [| by apply Ok].
  apply (safe_at_bind _ _ _ _ _ _ any); [| intros; by apply okay_ret].
  apply (safe_at_expect _ _ _ _ _ s); [done |]. cbv zeta. apply (safe_at_expect _ _ _ _ _ reachable); [done |]. unfold ir.modify.
  rewrite !lookup_replicate_2 by done. simpl. do 2 (eapply safe_at_expect; [done |]). apply okay_rounds.
  - split; simpl; rewrite ?length_insert, ?length_replicate; try done.
    + by intros b ->%list_elem_of_singleton.
    + intros b st [(_ & [= <-] & _) | (_ & [? _]%lookup_replicate)]%list_lookup_insert_Some; done.
  - intros i st' a' H. apply Lead. by exists entry, s, reachable.
Qed.
End Total.

(** * The whole program *)

Lemma sum_callees_total sps own order total : Forall (fun sp => (sp < length sps)%nat) order ->
  (forall i c, c ∈ callees_of sps i -> (c < length sps)%nat) -> (forall sp, (sp < length sps)%nat -> is_Some (own sp)) ->
  length total = length sps ->
  exists t, sum_callees sps own order total = Some t /\ length t = length sps.
Proof.
  intros F C Ow L. induction order as [| sp order IH]; simpl; [by exists total |]. apply Forall_cons in F as [Fs F].
  destruct (IH F) as (t & -> & Lt). simpl. destruct (lookup_lt_is_Some_2 _ _ Fs) as [s Es]. rewrite Es. simpl.
  assert (exists cs, mapM (fun c => t !! c) s.(callees) = Some cs) as [cs ->].
  { apply mapM_is_Some_2, Forall_forall. intros c Hc. apply lookup_lt_is_Some_2. rewrite Lt. apply (C sp).
    unfold callees_of. by rewrite Es. }
  simpl. destruct (Ow sp Fs) as [o ->]. simpl. unfold ir.modify. rewrite <- Lt in Fs. destruct (lookup_lt_is_Some_2 _ _ Fs) as [x ->]. simpl. eexists. split; [done |].
  by rewrite length_insert.
Qed.

Lemma blank_ready_entries ir entries : length entries = length ir.(subprogs) -> (0 < length ir.(subprogs))%nat ->
  ready (length ir.(subprogs)) (blank ir entries).
Proof. intros L N. split; simpl; rewrite ?length_replicate; done. Qed.

(** A panic of a transfer function that the run applies is one of [verify]. *)
Section Panics.
Context (ir : Ir) (prog : Program) (live prec : Masks) (i : nat) (st' : AbsState) (a' : Analysis) (Hn : step ir prog live st' i a' = None).

Lemma block_panics b st a : in_block ir prog live b st a i st' a' -> walk_block ir prog live b st a = None.
Proof using Hn.
  intros (blk & insn & Hb & Hi & Ef & Ei & Ht). unfold walk_block, bind, expect. rewrite Hb.
  destruct (decide (i = (b_end blk - 1)%nat)) as [-> | N].
  - rewrite Ef, Ei. specialize (Ht eq_refl). by destruct (ir_op insn); simpl in Ht; try done; rewrite Hn.
  - replace (b_end blk - 1 - b_start blk)%nat with (i - b_start blk + (S (b_end blk - 2 - i)))%nat by lia.
    rewrite seq_app, <- cons_seq. replace (b_start blk + (i - b_start blk))%nat with i by lia.
    by rewrite (foldM_panics _ _ _ _ _ _ _ _ Ef Hn).
Qed.

Lemma rounds_panic reachable k w a : in_rounds ir prog live prec reachable i st' a' k w a ->
  forall budget sp, rounds ir prog live prec k budget sp reachable w a = None.
Proof using Hn.
  induction 1 as [k w a b wl start Ew Es H | k w a b wl Ew Es H IH | k w a b wl start outs a1 w2 a2 Ew Es E1 E2 H IH]; intros budget sp;
    simpl; rewrite Ew; unfold bind, expect; destruct (queued w !! b); try done; rewrite Es; [by rewrite block_panics | by apply IH |].
  rewrite E1. unfold expect in E2. rewrite E2. by apply IH.
Qed.

Lemma subprog_panics sp a : in_subprog ir prog live prec sp a i st' a' -> analyse_subprog ir prog live prec sp a = None.
Proof using Hn.
  intros (entry & s & reachable & Ee & Es & Er & H). unfold analyse_subprog. rewrite Ee. unfold fixpoint, bind, expect, ir.modify. rewrite Es, Er.
  destruct (replicate _ None !! _); simpl; [| done]. destruct (replicate _ false !! _); simpl; [| done]. by rewrite (rounds_panic _ _ _ _ H).
Qed.
End Panics.

Lemma applies_panics prog ir live st i a : applies prog ir live st i a -> step ir prog live st i a = None -> verify prog = None.
Proof.
  intros (Hne & [Ek Ec] & Eo & Eb & El & prec & pre & sp & post & entries & b & Et & Ep & Ee & Ef & H) Hn. unfold verify.
  rewrite bool_decide_false by done. rewrite Ek, Ec, Eo. simpl. unfold verify.run. rewrite Eb. simpl. rewrite Et. simpl. rewrite El. simpl. rewrite Ep. simpl.
  unfold ctx_len in Ee. rewrite Ee. simpl. pose proof (foldM_panics (fun _ sp => analyse_subprog ir prog live prec sp) pre sp post tt (blank ir entries) tt b Ef) as F.
  unfold blank in F. by rewrite F by (by apply (subprog_panics ir prog live prec i st a Hn)).
Qed.

Lemma run_panics prog : prog.(p_insns) <> [] -> descriptors_checked prog -> check_objects [] prog.(objects) = Ok tt ->
  Forall insn_ok prog.(p_insns) -> Z.of_nat (length prog.(p_insns)) < 2 ^ 64 ->
  verify.run prog = None -> exists ir live st i a, applies prog ir live st i a /\ panics_on_empty prog ir live i st a.
Proof.
  intros Hne D Ec Hp Hl. unfold verify.run. destruct (build_spec _ Hp) as (r & Eb & _). rewrite Eb. simpl. destruct r as [ir | e]; [| done].
  pose proof (build_callees _ ir Eb) as C. destruct (topological_order_spec ir.(subprogs) C) as (r & Et & Ho). rewrite Et. simpl.
  destruct r as [order | e]; [| done]. destruct Ho as [Ho _].
  pose proof (total_built prog Hp ir Eb) as B. destruct (build_main _ ir Eb (start_index _ ir B)) as (main & Em & _).
  pose proof (lookup_lt_Some _ _ _ Em) as Ln.
  assert (Fo : Forall (fun sp => (sp < length ir.(subprogs))%nat) order).
  { apply Forall_forall. intros sp. rewrite Ho, elem_of_seq. intros [_ H]. exact H. }
  destruct (backward_built _ ir (fun _ => true) B) as (live & El & _). destruct (backward_built _ ir (liveness.seeds ir) B) as (prec & Ep & _).
  unfold liveness.liveness, liveness.precision. rewrite El, Ep. simpl.
  destruct (ir.modify _ 0 _) as [entries |] eqn:Ee; [| unfold ir.modify in Ee; by rewrite lookup_replicate_2 in Ee]. simpl.
  pose proof (initial_analysis prog ir entries Ee) as O.
  assert (R : ready (length ir.(subprogs)) (blank ir entries)).
  { apply blank_ready_entries; [| done]. unfold ir.modify in Ee. rewrite lookup_replicate_2 in Ee by done. injection Ee as <-.
    by rewrite length_insert, length_replicate. }
  assert (S : safe_at (ctx_len prog) (state.entry (ctx_len prog)) (length ir.(subprogs)) (exists ir live st i a, applies prog ir live st i a /\ panics_on_empty prog ir live i st a)
    (foldM (fun _ sp => analyse_subprog ir prog live prec sp) order tt) (fun _ => True) (blank ir entries)).
  { apply safe_at_foldM; [done |]. intros pre sp post [] b -> Ef _. apply okay_subprog; try done.
    - apply (proj1 (Forall_forall _ _) Fo). apply elem_of_app. right. by left.
    - intros i st a H Hpan. exists ir, live, st, i, a. split; [| done]. split_and!; try done. by exists prec, pre, sp, post, entries, b. }
  specialize (S O R). unfold blank in S. destruct (foldM _ order tt _) as [[[[] a] | e] |]; [| done | done].
  destruct S as (_ & [_ Rd _] & _). simpl. set (own := fun sp => align8 <$> an_depth a !! sp).
  assert (Ow : forall sp, (sp < length ir.(subprogs))%nat -> is_Some (own sp)).
  { intros sp L. rewrite <- Rd in L. unfold own. destruct (lookup_lt_is_Some_2 _ _ L) as [d ->]. by eexists. }
  destruct (sum_callees_total ir.(subprogs) own order (replicate (length ir.(subprogs)) 0) Fo C Ow) as (t & -> & Lt); [apply length_replicate |].
  destruct (sum_callees_total ir.(subprogs) (fun _ => Some 1) order (replicate (length ir.(subprogs)) 1) Fo C) as (t' & -> & Lt');
    [done | apply length_replicate |].
  simpl. rewrite <- Lt' in Ln. destruct (lookup_lt_is_Some_2 _ _ Ln) as [d ->]. simpl. case_match; [done |].
  rewrite Lt', <- Lt in Ln. destruct (lookup_lt_is_Some_2 _ _ Ln) as [d' ->]. simpl. case_match; [done |].
  destruct (mapM _ _) as [infos |] eqn:Ei; [done |]. exfalso. apply (proj1 (eq_None_not_Some _) Ei). apply mapM_is_Some_2, Forall_forall.
  intros [sp x] Hx. apply elem_of_zip_l, elem_of_seq in Hx. apply fmap_is_Some, Ow. simpl in *. clear -Hx. lia.
Qed.

(** C3: the verifier panics on no program except at an infeasible path.  If
    [verify] panics on a program of well-formed slots, its own run comes to an
    instruction, in a state and with a record that the rounds before it have
    produced ([applies]), whose transfer function panics, and in that state some
    register's abstract value, a scalar or the offset of a pointer, denotes no
    number at all.  So building the graph, the call order, liveness, the
    worklist, joins and widenings, the sums over the call graph and every table
    lookup return a verdict.  Conversely, if a transfer function panics at a
    point the run comes to, [verify] panics. *)
Theorem panics_only_when_empty prog :
  Forall insn_ok prog.(p_insns) -> Z.of_nat (length prog.(p_insns)) < 2 ^ 64 ->
  (verify prog = None -> exists ir live st i a, applies prog ir live st i a /\ step ir prog live st i a = None /\ state_wf st /\ ~ Forall inhabited st.(regs)) /\
  (forall ir live st i a, applies prog ir live st i a -> step ir prog live st i a = None -> verify prog = None).
Proof.
  intros Hp Hl. split; [| intros ir live st i a; apply applies_panics]. unfold verify. case_bool_decide as Hne; [done |].
  destruct (check_kfuncs (kfuncs prog)) as [[] |] eqn:Ek; [| done]. simpl.
  destruct (check_ctx_fields 0 (ctx_fields prog)) as [[] |] eqn:Ec; [| done]. simpl. destruct (check_objects [] (objects prog)) as [[] |] eqn:Eo; [| done].
  intros E. destruct (run_panics prog Hne (conj Ek Ec) Eo Hp Hl E) as (ir & live & st & i & a & H & W & Es & F).
  by exists ir, live, st, i, a.
Qed.

Lemma panics_only_when_empty_witness :
  verify empty_divisor = None /\
  exists ir live st i a, applies empty_divisor ir live st i a /\ step ir empty_divisor live st i a = None /\ state_wf st /\ ~ Forall inhabited st.(regs).
Proof.
  split; [vm_compute; reflexivity |]. apply (panics_only_when_empty empty_divisor).
  - repeat constructor; vm_compute; congruence.
  - vm_compute. reflexivity.
  - vm_compute. reflexivity.
Defined.
