(* ===== verification/TimerWheel.v ===== *)
(** The timer wheel ([time/src/timer_wheel.rs]) and the deferred-wake queue
    its interrupt-side drain feeds ([lib/src/deferred_wake.rs]).

    A section that holds the wheel lock is one operation.  The versioned cache
    of the earliest deadline is the value it publishes: writers hold the lock
    and a reader retries until it sees no writer.  A waker is an abstract value;
    what the task it wakes does to the wheel is the parameter [rearm], and
    [will_wake] is the comparison of the standard library.  The arm callback is
    the list of deadlines it is called with.  The queue is the one of the
    current CPU. *)

From S2P Require Import Prelude Word.

Definition MAX_SLEEPERS : nat := 1024.
Definition BATCH : nat := 16.
Definition MAX_PENDING : nat := 64.

Record Slot (Waker : Type) : Type := mk_sleeper { deadline_cycles : Z; waker : Waker; sleeper_gen : Z }.
Arguments mk_sleeper {Waker}.
Arguments deadline_cycles {Waker}.
Arguments waker {Waker}.
Arguments sleeper_gen {Waker}.

Record Wheel (Waker : Type) : Type := mk_wheel {
  slots : list (option (Slot Waker));
  next_gen : Z;
  cached_min : option Z;
  arm_callback_installed : bool;
  armed : list Z
}.
Arguments mk_wheel {Waker}.
Arguments slots {Waker}.
Arguments next_gen {Waker}.
Arguments cached_min {Waker}.
Arguments arm_callback_installed {Waker}.
Arguments armed {Waker}.

Inductive WheelError : Type := Full.

Record SleepHandle : Type := mk_handle { handle_index : Z; handle_gen : Z }.

Record Queue (Waker : Type) : Type := mk_queue {
  q_slots : list (option Waker);
  OVERFLOWED_WAKERS : Z;
  QUEUED_WAKERS : Z;
  DRAINED_WAKERS : Z
}.
Arguments mk_queue {Waker}.
Arguments q_slots {Waker}.
Arguments OVERFLOWED_WAKERS {Waker}.
Arguments QUEUED_WAKERS {Waker}.
Arguments DRAINED_WAKERS {Waker}.

Module wheel.
Section Wheel.
Context {Waker : Type}.
Implicit Types w : Wheel Waker.

Definition new : Wheel Waker := mk_wheel (replicate MAX_SLEEPERS None) 1 None false [].

Definition set_slots w s : Wheel Waker := mk_wheel s w.(next_gen) w.(cached_min) w.(arm_callback_installed) w.(armed).

(** [cached_min_write_end]. *)
Definition publish_cached_min w (m : option Z) : Wheel Waker :=
  mk_wheel w.(slots) w.(next_gen) m w.(arm_callback_installed) w.(armed).

Definition earlier (a b : option Z) : option Z :=
  match a, b with
  | Some a, Some b => Some (Z.min a b)
  | Some a, None => Some a
  | None, b => b
  end.

Definition min_deadline (l : list (option (Slot Waker))) : option Z :=
  foldr (fun s m => earlier (deadline_cycles <$> s) m) None l.

Definition publish_min_locked w : Wheel Waker := publish_cached_min w (min_deadline w.(slots)).

Definition set_arm_callback w : Wheel Waker := mk_wheel w.(slots) w.(next_gen) w.(cached_min) true w.(armed).
Definition clear_arm_callback w : Wheel Waker := mk_wheel w.(slots) w.(next_gen) w.(cached_min) false w.(armed).

Definition invoke_arm w (deadline : option Z) : Wheel Waker :=
  match deadline with
  | Some d =>
      if w.(arm_callback_installed)
      then mk_wheel w.(slots) w.(next_gen) w.(cached_min) true (w.(armed) ++ [d]) else w
  | None => w
  end.

(** The deadline to arm when the earliest one moves to [new_min]. *)
Definition arm_for (prev_min : option Z) (new_min : Z) : option Z :=
  match prev_min with
  | None => Some new_min
  | Some p => if new_min <? p then Some new_min else None
  end.

Definition first_free (l : list (option (Slot Waker))) : option nat := fst <$> list_find (fun s => s = None) l.

Definition register w (deadline : Z) (wk : Waker) : Result SleepHandle WheelError * Wheel Waker :=
  let prev_min := w.(cached_min) in
  match first_free w.(slots) with
  | None => (Err Full, w)
  | Some slot_idx =>
      let gen := w.(next_gen) in
      let new_min := match prev_min with None => deadline | Some p => Z.min p deadline end in
      let w := mk_wheel (<[slot_idx := Some (mk_sleeper deadline wk gen)]> w.(slots)) (Z.max (wrap 32 (gen + 1)) 1)
                 (Some new_min) w.(arm_callback_installed) w.(armed) in
      (Ok (mk_handle (wrap 16 (Z.of_nat slot_idx)) gen), invoke_arm w (arm_for prev_min new_min))
  end.

(** The sleeper a handle names, if it is still there. *)
Definition matching w (h : SleepHandle) : option (nat * Slot Waker) :=
  let idx := Z.to_nat h.(handle_index) in
  if (MAX_SLEEPERS <=? idx)%nat then None
  else
    match w.(slots) !! idx with
    | Some (Some s) => if s.(sleeper_gen) =? h.(handle_gen) then Some (idx, s) else None
    | _ => None
    end.

Definition cancel w (h : SleepHandle) : Wheel Waker :=
  match matching w h with
  | Some (idx, s) =>
      let w := set_slots w (<[idx := None]> w.(slots)) in
      if bool_decide (w.(cached_min) = Some s.(deadline_cycles)) then publish_min_locked w else w
  | None => w
  end.

Context (will_wake : Waker -> Waker -> bool).

Definition new_waker (s : Slot Waker) (wk : Waker) : Waker := if will_wake s.(waker) wk then s.(waker) else wk.

Definition refresh_waker w (h : SleepHandle) (wk : Waker) : bool * Wheel Waker :=
  match matching w h with
  | Some (idx, s) =>
      (true, set_slots w (<[idx := Some (mk_sleeper s.(deadline_cycles) (new_waker s wk) s.(sleeper_gen))]> w.(slots)))
  | None => (false, w)
  end.

(** [None] is the panic of [expect]. *)
Definition refresh_waker_at w (h : SleepHandle) (deadline : Z) (wk : Waker) : option (bool * Wheel Waker) :=
  let prev_min := w.(cached_min) in
  match matching w h with
  | None => Some (false, w)
  | Some (idx, s) =>
      let old_deadline := s.(deadline_cycles) in
      let w := set_slots w (<[idx := Some (mk_sleeper deadline (new_waker s wk) s.(sleeper_gen))]> w.(slots)) in
      let* new_min :=
        if bool_decide (prev_min = Some old_deadline) && (old_deadline <? deadline) then min_deadline w.(slots)
        else Some (match prev_min with None => deadline | Some p => Z.min p deadline end) in
      Some (true, invoke_arm (publish_cached_min w (Some new_min)) (arm_for prev_min new_min))
  end.

Definition is_due (now : Z) (s : option (Slot Waker)) : bool :=
  match s with Some s => s.(deadline_cycles) <=? now | None => false end.

(** The loop under the lock: the slots from [cursor] on until the batch is
    full. *)
Fixpoint take_batch (fuel : nat) (now : Z) (cursor : nat) (l : list (option (Slot Waker))) (batch : list Waker)
    : nat * list (option (Slot Waker)) * list Waker :=
  match fuel with
  | O => (cursor, l, batch)
  | S fuel =>
      if (cursor <? MAX_SLEEPERS)%nat && (length batch <? BATCH)%nat then
        match l !! cursor with
        | Some (Some s) =>
            if s.(deadline_cycles) <=? now
            then take_batch fuel now (S cursor) (<[cursor := None]> l) (batch ++ [s.(waker)])
            else take_batch fuel now (S cursor) l batch
        | _ => take_batch fuel now (S cursor) l batch
        end
      else (cursor, l, batch)
  end.

Context (rearm : Waker -> option (Z * Waker)).

(** Waking a task outside the lock; it may register again. *)
Definition wake_one w (wk : Waker) : Wheel Waker :=
  match rearm wk with
  | Some (deadline, wk) => snd (register w deadline wk)
  | None => w
  end.

Fixpoint fire_loop (fuel : nat) (now : Z) (cursor : nat) w (woken : list Waker) : list Waker * Wheel Waker :=
  match fuel with
  | O => (woken, w)
  | S fuel =>
      if (cursor <? MAX_SLEEPERS)%nat then
        let '(cursor, l, batch) := take_batch MAX_SLEEPERS now cursor w.(slots) [] in
        let w := foldl wake_one (set_slots w l) batch in
        fire_loop fuel now cursor w (woken ++ batch)
      else (woken, w)
  end.

(** The wakers woken, whose number is the result of the source, in order. *)
Definition fire_due w (now : Z) : list Waker * Wheel Waker :=
  match w.(cached_min) with
  | Some deadline =>
      if now <? deadline then ([], w)
      else
        let '(woken, w) := fire_loop MAX_SLEEPERS now 0 w [] in
        (woken, publish_min_locked w)
  | None => ([], w)
  end.

(** The wakers of the slots that are due, each at the index of its slot; the
    slots are cleared. *)
Definition take_due_into w (now : Z) (out : list (option Waker)) : list (option Waker) * nat * Wheel Waker :=
  let out := imap (fun i o => match w.(slots) !! i with
                              | Some (Some s) => if s.(deadline_cycles) <=? now then Some s.(waker) else o
                              | _ => o
                              end) out in
  let n := length (filter (fun s => is_due now s = true) w.(slots)) in
  let l := (fun s => if is_due now s then None else s) <$> w.(slots) in
  (out, n, publish_min_locked (set_slots w l)).

Definition take_due w (now : Z) : list (option Waker) * nat * Wheel Waker :=
  take_due_into w now (replicate MAX_SLEEPERS None).

Definition next_deadline_cycles w : option Z := w.(cached_min).

Definition occupied w : nat := length (filter (fun s => s <> None) w.(slots)).

(** ** The deferred queue *)

Definition empty_queue : Queue Waker := mk_queue (replicate MAX_PENDING None) 0 0 0.

Definition try_push_one (q : Queue Waker) (wk : Waker) : Result unit Waker * Queue Waker :=
  match list_find (fun s => s = None) q.(q_slots) with
  | Some (i, _) =>
      (Ok tt, mk_queue (<[i := Some wk]> q.(q_slots)) q.(OVERFLOWED_WAKERS) (wrap 64 (q.(QUEUED_WAKERS) + 1)) q.(DRAINED_WAKERS))
  | None =>
      (Err wk, mk_queue q.(q_slots) (wrap 64 (q.(OVERFLOWED_WAKERS) + 1)) q.(QUEUED_WAKERS) q.(DRAINED_WAKERS))
  end.

(** A waker that does not fit is dropped. *)
Definition push_pending_iter (q : Queue Waker) (wakers : list Waker) : Queue Waker :=
  foldl (fun q wk => snd (try_push_one q wk)) q wakers.

Definition push_pending (q : Queue Waker) (wakers : list (option Waker)) : Queue Waker :=
  push_pending_iter q (omap id wakers).

Definition has_pending (q : Queue Waker) : bool := negb (q.(QUEUED_WAKERS) =? q.(DRAINED_WAKERS)).

Definition has_pending_local (q : Queue Waker) : bool := existsb (fun s => bool_decide (s <> None)) q.(q_slots).

(** The wakers woken and the emptied queue. *)
Definition drain_and_wake (q : Queue Waker) : list Waker * Queue Waker :=
  let taken := omap id q.(q_slots) in
  (taken, mk_queue ((fun _ => None) <$> q.(q_slots)) q.(OVERFLOWED_WAKERS) q.(QUEUED_WAKERS)
            (wrap 64 (q.(DRAINED_WAKERS) + Z.of_nat (length taken)))).

(** The loop over the slots from [i] on; a full queue ends it. *)
Fixpoint drain_loop (l : list (option (Slot Waker))) (now : Z) (q : Queue Waker)
    : list (option (Slot Waker)) * Queue Waker :=
  match l with
  | [] => ([], q)
  | s :: l =>
      match s with
      | Some sl =>
          if sl.(deadline_cycles) <=? now then
            match try_push_one q sl.(waker) with
            | (Ok _, q) => let '(l, q) := drain_loop l now q in (None :: l, q)
            | (Err wk, q) => (Some (mk_sleeper sl.(deadline_cycles) wk sl.(sleeper_gen)) :: l, q)
            end
          else let '(l, q) := drain_loop l now q in (s :: l, q)
      | None => let '(l, q) := drain_loop l now q in (s :: l, q)
      end
  end.

Definition drain_due_to_deferred w (q : Queue Waker) (now : Z) : Wheel Waker * Queue Waker :=
  match w.(cached_min) with
  | Some deadline =>
      if now <? deadline then (w, q)
      else
        let '(l, q) := drain_loop w.(slots) now q in
        (publish_min_locked (set_slots w l), q)
  | None => (w, q)
  end.
End Wheel.
End wheel.
