(* ===== verification/TimerWheelSound.v ===== *)
(** The timer wheel wakes every sleeper that is due, once, and never believes
    that the earliest deadline is later than it is. *)

From stdpp Require Import relations.
From S2P Require Import Prelude Word TimerWheel.
Import wheel.
#[local] Opaque MAX_SLEEPERS.

Section Wheel.
Context {Waker : Type} (will_wake : Waker -> Waker -> bool).
Implicit Types (w : Wheel Waker) (l : list (option (Slot Waker))).

(** * Deadlines *)

Lemma min_deadline_le l i s : l !! i = Some (Some s) -> exists m, min_deadline l = Some m /\ m <= s.(deadline_cycles).
Proof using Type.
  revert i. induction l as [| o l IH]; intros i E; [done |]. cbn [min_deadline foldr]. fold (min_deadline l).
  destruct i as [| i]; simpl in E.
  - injection E as ->. destruct (min_deadline l); simpl; eexists; (split; [done | lia]).
  - destruct (IH i E) as (m & -> & L). destruct o as [s' |]; simpl; eexists; (split; [done | lia]).
Qed.

Lemma min_deadline_attained l m : min_deadline l = Some m -> exists i s, l !! i = Some (Some s) /\ s.(deadline_cycles) = m.
Proof using Type.
  revert m. induction l as [| o l IH]; intros m; [done |]. cbn [min_deadline foldr]. fold (min_deadline l).
  intros E. destruct (min_deadline l) as [m' |] eqn:El.
  - destruct (IH m' eq_refl) as (i & s & Hs & Hd). destruct o as [s' |]; simpl in E; injection E as <-.
    + destruct (Z.min_spec s'.(deadline_cycles) m') as [[_ ->] | [_ ->]]; [by exists 0%nat, s' | by exists (S i), s].
    + by exists (S i), s.
  - destruct o as [s' |]; simpl in E; [| done]. injection E as <-. by exists 0%nat, s'.
Qed.

(** The cache is not later than any deadline. *)
Definition not_late (l : list (option (Slot Waker))) (c : option Z) : Prop :=
  forall i s, l !! i = Some (Some s) -> exists m, c = Some m /\ m <= s.(deadline_cycles).

Lemma not_late_min l : not_late l (min_deadline l).
Proof using Type. intros i s. apply min_deadline_le. Qed.

Lemma not_late_fewer l l' c :
  (forall i s, l' !! i = Some (Some s) -> l !! i = Some (Some s)) -> not_late l c -> not_late l' c.
Proof using Type. intros H N i s E. by apply (N i), H. Qed.

Record wf w : Prop := {
  wf_len : length w.(slots) = MAX_SLEEPERS;
  wf_cache : not_late w.(slots) w.(cached_min);
  wf_gen : 1 <= w.(next_gen) < 2 ^ 32
}.

(** * Operations *)

Lemma invoke_arm_same w d :
  (invoke_arm w d).(slots) = w.(slots) /\ (invoke_arm w d).(next_gen) = w.(next_gen) /\
  (invoke_arm w d).(cached_min) = w.(cached_min).
Proof using Type. unfold invoke_arm. destruct d, w as [? ? ? [] ?]; done. Qed.

Lemma first_free_Some l i : first_free l = Some i -> l !! i = Some None.
Proof using Type.
  unfold first_free. intros ([j s] & (E & -> & _)%list_find_Some & ->)%fmap_Some. done.
Qed.

(** The result of a registration that succeeds. *)
Lemma register_spec w d wk i :
  first_free w.(slots) = Some i ->
  exists w', register w d wk = (Ok (mk_handle (wrap 16 (Z.of_nat i)) w.(next_gen)), w') /\
    w'.(slots) = <[i := Some (mk_sleeper d wk w.(next_gen))]> w.(slots) /\
    w'.(next_gen) = Z.max (wrap 32 (w.(next_gen) + 1)) 1 /\
    w'.(cached_min) = Some (match w.(cached_min) with None => d | Some p => Z.min p d end).
Proof using Type.
  intros E. unfold register. rewrite E. eexists. split; [reflexivity |].
  match goal with |- context [invoke_arm ?w ?d] => destruct (invoke_arm_same w d) as (-> & -> & ->) end. done.
Qed.

Lemma register_full w d wk : first_free w.(slots) = None -> register w d wk = (Err Full, w).
Proof using Type. intros E. unfold register. by rewrite E. Qed.

Lemma next_gen_range g : 1 <= g < 2 ^ 32 -> 1 <= Z.max (wrap 32 (g + 1)) 1 < 2 ^ 32.
Proof using Type. intros H. pose proof (wrap_range 32 ltac:(lia) (g + 1)) as R. unfold is_u in R. lia. Qed.

Lemma insert_occupied l i o k s :
  <[i := o]> l !! k = Some (Some s) -> (k = i /\ o = Some s) \/ (k <> i /\ l !! k = Some (Some s)).
Proof using Type. intros [(<- & -> & _) | [? ?]]%list_lookup_insert_Some; auto. Qed.

Lemma register_wf w d wk : wf w -> wf (snd (register w d wk)).
Proof using Type.
  intros [L C G]. destruct (first_free (slots w)) as [i |] eqn:E; [| by rewrite (register_full _ _ _ E)].
  destruct (register_spec w d wk i E) as (w' & -> & Es & Eg & Ec). split; simpl; rewrite ?Es, ?Eg, ?Ec.
  - by rewrite length_insert.
  - intros k s [[-> [= <-]] | [_ Hk]]%insert_occupied; (eexists; split; [done |]).
    + simpl. destruct (cached_min w); lia.
    + destruct (C k s Hk) as (m & -> & ?). lia.
  - by apply next_gen_range.
Qed.

Lemma matching_Some w h i s :
  matching w h = Some (i, s) -> w.(slots) !! i = Some (Some s) /\ s.(sleeper_gen) = h.(handle_gen) /\ i = Z.to_nat h.(handle_index).
Proof using Type.
  unfold matching. destruct (_ <=? _)%nat; [done |]. destruct (slots w !! _) as [[s' |] |] eqn:E; try done.
  destruct (Z.eqb_spec s'.(sleeper_gen) h.(handle_gen)); [| done]. intros [= <- <-]. done.
Qed.

Lemma cancel_wf w h : wf w -> wf (cancel w h).
Proof using Type.
  intros [L C G]. unfold cancel. destruct (matching w h) as [[i s] |] eqn:E; [| done].
  assert (F : not_late (<[i := None]> w.(slots)) w.(cached_min)).
  { eapply not_late_fewer; [| done]. by intros k s' [[_ ?] | [_ ?]]%insert_occupied. }
  case_bool_decide; split; simpl; rewrite ?length_insert; try done. apply not_late_min.
Qed.

Lemma refresh_waker_wf w h wk : wf w -> wf (snd (refresh_waker will_wake w h wk)).
Proof using Type.
  intros [L C G]. unfold refresh_waker. destruct (matching w h) as [[i s] |] eqn:E; [| done].
  apply matching_Some in E as (E & _). split; simpl; rewrite ?length_insert; try done.
  intros k s' [[-> [= <-]] | [_ Hk]]%insert_occupied; [apply (C i s E) | by apply (C k)].
Qed.

Lemma refresh_waker_at_wf w h d wk :
  wf w -> exists b w', refresh_waker_at will_wake w h d wk = Some (b, w') /\ wf w'.
Proof using Type.
  intros [L C G]. unfold refresh_waker_at. destruct (matching w h) as [[i s] |] eqn:E; [| by exists false, w].
  apply matching_Some in E as (E & _). pose proof (lookup_lt_Some _ _ _ E) as Li. cbv zeta.
  set (l := <[i := Some (mk_sleeper d (new_waker will_wake s wk) (sleeper_gen s))]> (slots w)).
  assert (Hi : l !! i = Some (Some (mk_sleeper d (new_waker will_wake s wk) (sleeper_gen s)))) by (by apply list_lookup_insert_eq).
  assert (Len : length l = MAX_SLEEPERS) by (unfold l; by rewrite length_insert).
  assert (Done : forall m c, not_late l (Some m) -> wf (invoke_arm (publish_cached_min (set_slots w l) (Some m)) c)).
  { intros m c N. match goal with |- wf (invoke_arm ?a ?b) => destruct (invoke_arm_same a b) as (E1 & E2 & E3) end.
    split; rewrite ?E1, ?E2, ?E3; done. }
  destruct (_ && _) eqn:T.
  - destruct (min_deadline_le l i _ Hi) as (m & Em & _). simpl. rewrite Em. eexists _, _. split; [done |].
    apply Done. rewrite <- Em. apply not_late_min.
  - eexists _, _. split; [done |]. apply Done. intros k s' [[-> [= <-]] | [_ Hk]]%insert_occupied; (eexists; split; [done |]).
    + simpl. destruct (cached_min w); lia.
    + destruct (C k s' Hk) as (m & -> & ?). lia.
Qed.

(** * Firing *)

(** The wakers of the slots that are due, in order, and the slots without
    them. *)
Definition due (now : Z) l : list Waker :=
  omap (fun s => match s with Some s => if s.(deadline_cycles) <=? now then Some s.(waker) else None | None => None end) l.

Definition clear (now : Z) l : list (option (Slot Waker)) := (fun s => if is_due now s then None else s) <$> l.

Lemma due_app now l1 l2 : due now (l1 ++ l2) = due now l1 ++ due now l2.
Proof using Type. apply omap_app. Qed.

Lemma clear_app now l1 l2 : clear now (l1 ++ l2) = clear now l1 ++ clear now l2.
Proof using Type. apply fmap_app. Qed.

Lemma clear_lookup now l i s : clear now l !! i = Some (Some s) <-> l !! i = Some (Some s) /\ now < s.(deadline_cycles).
Proof using Type.
  unfold clear. rewrite list_lookup_fmap. destruct (l !! i) as [[s' |] |]; simpl; [| by split; [| intros []] ..].
  destruct (Z.leb_spec s'.(deadline_cycles) now); (split; [intros [= ->] || intros H' | intros [[= ->] ?]]); (done || lia || auto).
Qed.

Lemma take_batch_spec fuel now l1 l2 batch :
  length (l1 ++ l2) = MAX_SLEEPERS -> (length l2 <= fuel)%nat ->
  exists m r, l2 = m ++ r /\
    take_batch fuel now (length l1) (l1 ++ l2) batch = (length (l1 ++ m), l1 ++ clear now m ++ r, batch ++ due now m) /\
    (r = [] \/ (BATCH <= length (batch ++ due now m))%nat) /\ (l2 = [] \/ (BATCH <= length batch)%nat \/ m <> []).
Proof using Type.
  revert l1 l2 batch. induction fuel as [| fuel IH]; intros l1 l2 batch L F; simpl.
  { exists [], []. destruct l2; simpl in F; [| lia]. rewrite !app_nil_r. auto. }
  destruct (Nat.ltb_spec (length l1) MAX_SLEEPERS) as [Lt | Ge]; simpl.
  2: { exists [], []. destruct l2; [| rewrite length_app in L; simpl in L; lia]. rewrite !app_nil_r. auto. }
  destruct (Nat.ltb_spec (length batch) BATCH) as [Lb | Gb].
  2: { exists [], l2. unfold due, clear. simpl. rewrite !app_nil_r. auto 10. }
  destruct l2 as [| o l2]; [rewrite app_nil_r in L; lia |].
  rewrite list_lookup_middle by done.
  assert (Step : take_batch fuel now (S (length l1)) (l1 ++ clear now [o] ++ l2) (batch ++ due now [o]) =
          match o with
          | Some s => if s.(deadline_cycles) <=? now then take_batch fuel now (S (length l1)) (<[length l1 := None]> (l1 ++ o :: l2)) (batch ++ [s.(waker)])
                      else take_batch fuel now (S (length l1)) (l1 ++ o :: l2) batch
          | None => take_batch fuel now (S (length l1)) (l1 ++ o :: l2) batch
          end).
  { destruct o as [s |]; simpl; [| by rewrite app_nil_r]. destruct (s.(deadline_cycles) <=? now); [| by rewrite app_nil_r].
    rewrite insert_app_r_alt by done. rewrite Nat.sub_diag. done. }
  destruct (IH (l1 ++ clear now [o]) l2 (batch ++ due now [o])) as (m & r & -> & E & H1 & H2).
  { rewrite !length_app in *. simpl in *. lia. }
  { simpl in F. lia. }
  exists (o :: m), r. split; [done |].
  rewrite (cons_middle o [] m : o :: m = [o] ++ m), due_app, clear_app, <- Step, !(assoc_L (++)).
  replace (S (length l1)) with (length (l1 ++ clear now [o])) by (rewrite length_app; simpl; lia).
  rewrite (assoc_L (++)) in E. rewrite E. rewrite !length_app. split; [by rewrite !(assoc_L (++)) |].
  split; [| by right; right]. destruct H1 as [-> | H1]; [by left | right]. rewrite !length_app in H1. lia.
Qed.

(** ** Waking between batches *)

Context (rearm : Waker -> option (Z * Waker)).

Definition free (l : list (option (Slot Waker))) : nat := length (filter (fun s => s = None) l).

Lemma first_free_app l1 l2 : (0 < free l1)%nat -> exists i, first_free (l1 ++ l2) = Some i /\ (i < length l1)%nat.
Proof using Type.
  unfold free, first_free. induction l1 as [| o l1 IH]; [simpl; lia |]. rewrite filter_cons. simpl.
  destruct o as [s |]; simpl; [| intros _; exists 0%nat; split; [done | lia]].
  intros F. destruct (IH F) as (i & E & L). exists (S i).
  apply fmap_Some in E as ([j x] & E & ->). rewrite E. simpl. split; [done | simpl in L; lia].
Qed.

Lemma free_insert l i s : l !! i = Some None -> free l = S (free (<[i := Some s]> l)).
Proof using Type.
  unfold free. revert i. induction l as [| o l IH]; intros i E; [done |]. destruct i as [| i]; simpl in *; rewrite !filter_cons.
  - injection E as ->. by rewrite decide_True, decide_False.
  - case_decide; simpl; by rewrite (IH i E).
Qed.

Lemma free_app l1 l2 : free (l1 ++ l2) = (free l1 + free l2)%nat.
Proof using Type. unfold free. by rewrite filter_app, length_app. Qed.

Lemma free_clear now l : (length (due now l) <= free (clear now l))%nat.
Proof using Type.
  unfold free, due, clear. induction l as [| o l IH]; [done |]. csimpl. rewrite filter_cons.
  destruct o as [s |]; simpl; [destruct (s.(deadline_cycles) <=? now) |]; simpl; try done; lia.
Qed.

(** What is in [l] after slots [e] fired and the tasks [ws] were woken: the
    sleepers that were not due, and new ones. *)
Definition keeps (now : Z) (e l : list (option (Slot Waker))) (ws : list Waker) : Prop :=
  length l = length e /\
  (forall i s, e !! i = Some (Some s) -> now < s.(deadline_cycles) -> l !! i = Some (Some s)) /\
  forall i s, l !! i = Some (Some s) ->
    (e !! i = Some (Some s) /\ now < s.(deadline_cycles)) \/ exists wk, wk ∈ ws /\ rearm wk = Some (s.(deadline_cycles), s.(waker)).

Lemma keeps_wake now e a r w wk ws :
  w.(slots) = a ++ r -> wf w -> keeps now e a ws -> (0 < free a)%nat ->
  exists a', (wake_one rearm w wk).(slots) = a' ++ r /\ wf (wake_one rearm w wk) /\ keeps now e a' (ws ++ [wk]) /\
    (free a <= S (free a'))%nat.
Proof using Type.
  intros Es W (K1 & K2 & K3) F. unfold wake_one. destruct (rearm wk) as [[d wk'] |] eqn:R.
  2: { exists a. split_and!; [done | done | | lia]. split_and!; [done | done |]. intros i s E.
       destruct (K3 i s E) as [? | (x & Hx & ?)]; [by left |]. right. exists x. split; [| done]. apply elem_of_app. by left. }
  destruct (first_free_app a r F) as (i & E & Li). pose proof E as E'. rewrite <- Es in E'.
  pose proof (register_wf w d wk' W) as W'. destruct (register_spec w d wk' i E') as (w' & Ew & Es' & _). rewrite Ew in *. simpl in *.
  apply first_free_Some in E. rewrite lookup_app_l in E by done.
  exists (<[i := Some (mk_sleeper d wk' (next_gen w))]> a). split_and!.
  - rewrite Es', Es. by apply insert_app_l.
  - done.
  - split_and!; [by rewrite length_insert | |].
    + intros k s Ek L. rewrite list_lookup_insert_ne; [by apply K2 |]. intros <-. rewrite (K2 i s Ek L) in E. done.
    + intros k s [[-> [= <-]] | [_ Ek]]%insert_occupied.
      * right. exists wk. split; [| done]. apply elem_of_app. right. by left.
      * destruct (K3 k s Ek) as [? | (x & Hx & ?)]; [by left |]. right. exists x. split; [| done]. apply elem_of_app. by left.
  - by rewrite (free_insert _ _ (mk_sleeper d wk' (next_gen w)) E).
Qed.

Lemma keeps_wakes now e a r w batch ws :
  w.(slots) = a ++ r -> wf w -> keeps now e a ws -> (length batch <= free a)%nat ->
  exists a', (foldl (wake_one rearm) w batch).(slots) = a' ++ r /\ wf (foldl (wake_one rearm) w batch) /\ keeps now e a' (ws ++ batch).
Proof using Type.
  revert a w ws. induction batch as [| wk batch IH]; intros a w ws Es W K F; simpl; [exists a; by rewrite app_nil_r |].
  simpl in F. destruct (keeps_wake now e a r w wk ws Es W K ltac:(lia)) as (a' & Es' & W' & K' & F').
  destruct (IH a' (wake_one rearm w wk) (ws ++ [wk]) Es' W' K' ltac:(lia)) as (a2 & E2 & W2 & K2).
  exists a2. by rewrite <- (assoc_L (++)) in K2.
Qed.

Lemma keeps_clear now e a ws m : keeps now e a ws -> keeps now (e ++ m) (a ++ clear now m) ws.
Proof using Type.
  intros (K1 & K2 & K3). split_and!.
  - rewrite !length_app, K1. unfold clear. by rewrite length_fmap.
  - intros i s [E | [G E]]%lookup_app_Some L.
    + rewrite lookup_app_l; [by apply K2 | rewrite K1; by eapply lookup_lt_Some].
    + rewrite lookup_app_r by lia. rewrite K1. by apply clear_lookup.
  - intros i s [E | [G E]]%lookup_app_Some.
    + destruct (K3 i s E) as [[E' L] | ?]; [| by right]. left. split; [by apply lookup_app_l_Some | done].
    + apply clear_lookup in E as [E L]. left. split; [| done]. rewrite lookup_app_r by lia. by rewrite <- K1.
Qed.

Lemma fewer_wf w l :
  wf w -> length l = MAX_SLEEPERS -> (forall i s, l !! i = Some (Some s) -> w.(slots) !! i = Some (Some s)) -> wf (set_slots w l).
Proof using Type. intros [L C G] Ll H. split; simpl; [done | | done]. by eapply not_late_fewer. Qed.

Lemma fire_loop_spec fuel now e l1 l2 w ws :
  w.(slots) = l1 ++ l2 -> wf w -> (length l2 <= fuel)%nat -> keeps now e l1 ws -> ws = due now e ->
  exists w', fire_loop rearm fuel now (length l1) w ws = (due now (e ++ l2), w') /\ wf w' /\
    keeps now (e ++ l2) w'.(slots) (due now (e ++ l2)).
Proof using Type.
  revert e l1 l2 w ws. induction fuel as [| fuel IH]; intros e l1 l2 w ws Es W F K Ew; simpl.
  { destruct l2; simpl in F; [| lia]. exists w. rewrite app_nil_r in *. rewrite Es, <- Ew. done. }
  pose proof (wf_len w W) as Ln. rewrite Es in Ln. destruct (Nat.ltb_spec (length l1) MAX_SLEEPERS) as [Lt | Ge].
  2: { destruct l2; [| rewrite length_app in Ln; simpl in Ln; lia]. exists w. rewrite app_nil_r in *. rewrite Es, <- Ew. done. }
  destruct (take_batch_spec MAX_SLEEPERS now l1 l2 [] Ln) as (m & r & -> & E & _ & P); [rewrite length_app in Ln; lia |].
  assert (Hm : m <> []).
  { destruct P as [P | [P | P]]; [rewrite P, app_nil_r in Ln; lia | unfold BATCH in P; simpl in P; lia | done]. }
  rewrite Es, E. simpl.
  assert (Ec : length (clear now m) = length m) by (unfold clear; by rewrite length_fmap).
  assert (W1 : wf (set_slots w (l1 ++ clear now m ++ r))).
  { apply fewer_wf; [done | rewrite !length_app in *; lia |]. rewrite Es. intros i s.
    rewrite !(lookup_app_Some l1). intros [H | [G H]]; [by left | right; split; [done |]].
    apply lookup_app_Some in H as [H | [G' H]]; apply lookup_app_Some; [left; by apply clear_lookup in H as [? _] | right; by rewrite <- Ec]. }
  destruct (keeps_wakes now (e ++ m) (l1 ++ clear now m) r (set_slots w (l1 ++ clear now m ++ r)) (due now m) ws) as (a & Ea & Wa & Ka);
    [simpl; by rewrite (assoc_L (++)) | done | by apply keeps_clear | |].
  { rewrite free_app. pose proof (free_clear now m). lia. }
  assert (La : length a = length (l1 ++ m)) by (destruct Ka as [-> _], K as [K _]; rewrite !length_app; lia).
  rewrite <- La, (assoc_L (++) e). apply IH; [done | done | | done | by rewrite due_app, Ew].
  rewrite length_app in F. destruct m; [done | simpl in F; lia].
Qed.

Lemma due_nil w now :
  wf w -> match w.(cached_min) with Some c => now < c | None => True end -> due now w.(slots) = [].
Proof using Type.
  intros W H. assert (N : forall i s, w.(slots) !! i = Some (Some s) -> now < s.(deadline_cycles)).
  { intros i s E. destruct (wf_cache w W i s E) as (c & Ec & L). rewrite Ec in H. lia. }
  clear H W. revert N. generalize (slots w). intros l. induction l as [| o l IH]; intros N; [done |].
  assert (E : due now l = []) by (apply IH; intros i s E; apply (N (S i) s E)).
  unfold due in *. csimpl. rewrite E. destruct o as [s |]; [| done].
  pose proof (N 0%nat s eq_refl). by destruct (Z.leb_spec s.(deadline_cycles) now); [lia |].
Qed.

Lemma fire_due_spec w now :
  wf w -> exists w', fire_due rearm w now = (due now w.(slots), w') /\ wf w' /\
    keeps now w.(slots) w'.(slots) (due now w.(slots)).
Proof using Type.
  intros W. unfold fire_due.
  assert (Idle : match w.(cached_min) with Some c => now < c | None => True end ->
    ([], w) = (due now w.(slots), w) /\ wf w /\ keeps now w.(slots) w.(slots) (due now w.(slots))).
  { intros H. rewrite (due_nil w now W H). split_and!; [done | done |]. split_and!; [done | done |].
    intros i s E. left. split; [done |]. destruct (wf_cache w W i s E) as (c & Ec & L). rewrite Ec in H. lia. }
  destruct (cached_min w) as [c |]; [| by exists w; apply Idle]. destruct (Z.ltb_spec now c); [by exists w; apply Idle |].
  destruct (fire_loop_spec MAX_SLEEPERS now [] [] w.(slots) w []) as (w' & E & W' & K); try done.
  { by rewrite (wf_len w W). }
  simpl in *. rewrite E. eexists. split; [done |]. split; [| done]. destruct W' as [L C G]. split; simpl; [done | apply not_late_min | done].
Qed.

(** * Deferring *)

Definition room (q : Queue Waker) : nat := length (filter (fun s => s = None) q.(q_slots)).

Definition queued (q : Queue Waker) : list Waker := omap id q.(q_slots).

Lemma try_push_spec q wk :
  match room q with
  | O => exists q', try_push_one q wk = (Err wk, q') /\ q'.(q_slots) = q.(q_slots)
  | S n => exists q', try_push_one q wk = (Ok tt, q') /\ room q' = n /\ queued q' ≡ₚ wk :: queued q /\
      length q'.(q_slots) = length q.(q_slots)
  end.
Proof using Type.
  unfold try_push_one, room, queued. destruct q as [l ? ? ?]. simpl.
  assert (H : match list_find (fun s => s = None) l with
              | Some (i, _) => length (filter (fun s => s = None) l) = S (length (filter (fun s => s = None) (<[i := Some wk]> l))) /\
                  omap id (<[i := Some wk]> l) ≡ₚ wk :: omap id l
              | None => length (filter (fun s => s = None) l) = 0%nat
              end).
  { induction l as [| o l IH]; [done |]. simpl. rewrite filter_cons. destruct o as [x |]; simpl.
    - destruct (list_find (fun s => s = None) l) as [[i y] |]; simpl in *; [| done].
      destruct IH as [IH1 IH2]. split; [done |]. rewrite IH2. apply Permutation_swap.
    - done. }
  destruct (list_find _ l) as [[i y] |].
  - destruct H as [-> H]. eexists. split; [done |]. simpl. by rewrite length_insert.
  - rewrite H. eexists. split; [done |]. done.
Qed.

(** How far a drain gets: a prefix of the due wakers moves to the queue, the
    others stay where they are. *)
Lemma drain_loop_spec now l q :
  exists l' q' d, drain_loop l now q = (l', q') /\ length l' = length l /\ due now l = d ++ due now l' /\
    queued q' ≡ₚ queued q ++ d /\ room q = (room q' + length d)%nat /\ length q'.(q_slots) = length q.(q_slots) /\
    (due now l' = [] \/ room q' = 0%nat) /\
    (forall i s, l' !! i = Some (Some s) -> l !! i = Some (Some s)) /\
    forall i s, l !! i = Some (Some s) -> now < s.(deadline_cycles) -> l' !! i = Some (Some s).
Proof using Type.
  revert q. induction l as [| o l IH]; intros q.
  { exists [], q, []. split_and!; try done; [by rewrite app_nil_r | by left]. }
  assert (Keep : is_due now o = false -> exists l' q' d, drain_loop (o :: l) now q = (l', q') /\ length l' = length (o :: l) /\
    due now (o :: l) = d ++ due now l' /\ queued q' ≡ₚ queued q ++ d /\ room q = (room q' + length d)%nat /\
    length q'.(q_slots) = length q.(q_slots) /\ (due now l' = [] \/ room q' = 0%nat) /\
    (forall i s, l' !! i = Some (Some s) -> (o :: l) !! i = Some (Some s)) /\
    forall i s, (o :: l) !! i = Some (Some s) -> now < s.(deadline_cycles) -> l' !! i = Some (Some s)).
  { intros Ho. destruct (IH q) as (l' & q' & d & E & L & D & Q & R & Lq & F & K1 & K2).
    exists (o :: l'), q', d. assert (Do : forall k, due now (o :: k) = due now k).
    { intros k. unfold due. csimpl. destruct o as [s |]; [| done]. simpl in Ho. by rewrite Ho. }
    rewrite !Do. split_and!; auto.
    - simpl. rewrite E. destruct o as [s |]; [simpl in Ho; by rewrite Ho | done].
    - simpl. by rewrite L.
    - intros [| i] s; simpl; auto.
    - intros [| i] s; simpl; auto. }
  destruct (is_due now o) eqn:Ho; [| by apply Keep]. clear Keep. destruct o as [s |]; [| done]. simpl in Ho.
  assert (Ds : forall k, due now (Some s :: k) = s.(waker) :: due now k) by (intros k; unfold due; csimpl; by rewrite Ho).
  cbn [drain_loop]. rewrite Ho. pose proof (try_push_spec q s.(waker)) as P. destruct (room q) as [| n] eqn:Rq.
  - destruct P as (q' & -> & Eq). exists (Some s :: l), q', []. unfold room, queued in *. rewrite Eq.
    split_and!; try done; first [by destruct s | by rewrite app_nil_r | by right | simpl; lia].
  - destruct P as (q1 & -> & R1 & Q1 & L1). destruct (IH q1) as (l' & q' & d & E & L & D & Q & R & Lq & F & K1 & K2).
    rewrite E. exists (None :: l'), q', (s.(waker) :: d). rewrite Ds, D. split_and!; try done.
    + simpl. by rewrite L.
    + rewrite Q, Q1. simpl. by rewrite Permutation_middle.
    + simpl. lia.
    + congruence.
    + intros [| i] s'; simpl; [done | auto].
    + intros [| i] s'; simpl; [| auto]. intros [= <-] Hl. apply Z.leb_le in Ho. lia.
Qed.

Lemma drain_due_spec now w q :
  wf w -> exists w' q' d, drain_due_to_deferred w q now = (w', q') /\ wf w' /\ due now w.(slots) = d ++ due now w'.(slots) /\
    queued q' ≡ₚ queued q ++ d /\ room q = (room q' + length d)%nat /\ length q'.(q_slots) = length q.(q_slots) /\
    (due now w'.(slots) = [] \/ room q' = 0%nat) /\
    forall i s, w.(slots) !! i = Some (Some s) -> now < s.(deadline_cycles) -> w'.(slots) !! i = Some (Some s).
Proof using Type.
  intros W. unfold drain_due_to_deferred.
  assert (Idle : match w.(cached_min) with Some c => now < c | None => True end -> exists w' q' d, (w, q) = (w', q') /\ wf w' /\
    due now w.(slots) = d ++ due now w'.(slots) /\ queued q' ≡ₚ queued q ++ d /\ room q = (room q' + length d)%nat /\
    length q'.(q_slots) = length q.(q_slots) /\ (due now w'.(slots) = [] \/ room q' = 0%nat) /\
    forall i s, w.(slots) !! i = Some (Some s) -> now < s.(deadline_cycles) -> w'.(slots) !! i = Some (Some s)).
  { intros H. exists w, q, []. rewrite (due_nil w now W H), app_nil_r. split_and!; try done; [by rewrite app_nil_r | by left]. }
  destruct (cached_min w) as [c |]; [| by apply Idle]. destruct (Z.ltb_spec now c); [by apply Idle |]. clear Idle.
  destruct (drain_loop_spec now w.(slots) q) as (l' & q' & d & -> & L & D & Q & R & Lq & F & K1 & K2).
  eexists _, q', d. split; [done |]. destruct W as [W1 W2 W3].
  split; [split; simpl; [by rewrite L | apply not_late_min | done] | done].
Qed.

Lemma drain_wake_spec (q : Queue Waker) :
  exists q', drain_and_wake q = (queued q, q') /\ queued q' = [] /\ room q' = length q.(q_slots) /\
    length q'.(q_slots) = length q.(q_slots).
Proof using Type.
  unfold drain_and_wake, queued, room. eexists. split; [done |]. simpl. rewrite length_fmap. destruct q as [l ? ? ?]. simpl.
  induction l as [| o l (IH1 & IH2 & _)]; [done |]. split_and!; [done | | done]. csimpl. by rewrite IH2.
Qed.

(** Tasks that register between two rounds. *)
Definition register_all w (ps : list (Z * Waker)) : Wheel Waker :=
  foldl (fun w p => snd (register w p.1 p.2)) w ps.

Lemma register_all_spec now ps w :
  wf w -> (forall p, p ∈ ps -> now < p.1) ->
  wf (register_all w ps) /\ due now (register_all w ps).(slots) = due now w.(slots) /\
  forall i s, w.(slots) !! i = Some (Some s) -> (register_all w ps).(slots) !! i = Some (Some s).
Proof using Type.
  revert w. induction ps as [| [d wk] ps IH]; intros w W H; [done |].
  cbn [register_all foldl fst snd]. fold (register_all (snd (register w d wk)) ps).
  destruct (IH (snd (register w d wk))) as (W' & D & K); [by apply register_wf | intros p Hp; apply H; by right |].
  split; [done |]. rewrite D. destruct (first_free (slots w)) as [i |] eqn:E.
  2: { rewrite (register_full w d wk E) in *. done. }
  destruct (register_spec w d wk i E) as (w1 & Ew & Es & _). rewrite Ew in *. simpl in *. apply first_free_Some in E. split.
  - rewrite Es, (insert_take_drop _ _ _ (lookup_lt_Some _ _ _ E)). rewrite <- (take_drop_middle _ _ _ E) at 3.
    pose proof (H (d, wk) ltac:(by left)). unfold due. rewrite !omap_app. csimpl. by destruct (Z.leb_spec d now); [simpl in *; lia |].
  - intros k s Ek. apply K. rewrite Es, list_lookup_insert_ne; [done |]. intros ->. congruence.
Qed.

(** Rounds of a timer interrupt, which drains the wheel to the queue, and the
    idle loop, which empties the queue. *)
Fixpoint rounds (n : nat) (env : nat -> list (Z * Waker)) w (q : Queue Waker) (now : Z)
    : list Waker * Wheel Waker * Queue Waker :=
  match n with
  | O => ([], w, q)
  | S n =>
      let '(w, q) := drain_due_to_deferred w q now in
      let '(woken, q) := drain_and_wake q in
      let '(woken', w, q) := rounds n env (register_all w (env n)) q now in
      (woken ++ woken', w, q)
  end.

Lemma wheel_rounds_spec n env now w q :
  wf w -> (forall k p, p ∈ env k -> now < p.1) -> (length (due now w.(slots)) <= room q + length q.(q_slots) * n)%nat ->
  exists ws w' q', rounds (S n) env w q now = (ws, w', q') /\ ws ≡ₚ queued q ++ due now w.(slots) /\
    due now w'.(slots) = [] /\ wf w' /\
    forall i s, w.(slots) !! i = Some (Some s) -> now < s.(deadline_cycles) -> w'.(slots) !! i = Some (Some s).
Proof using Type.
  revert w q. induction n as [| n IH]; intros w q W He L; cbn [rounds].
  all: destruct (drain_due_spec now w q W) as (w1 & q1 & d & -> & W1 & D & Q & R & Lq & F & K1).
  all: destruct (drain_wake_spec q1) as (q2 & -> & Q2 & R2 & L2).
  - destruct (register_all_spec now (env 0%nat) w1 W1 (He 0%nat)) as (W3 & D3 & K3). eexists _, _, _. split; [done |].
    rewrite app_nil_r, D3, D. rewrite D, length_app in L.
    assert (E : due now w1.(slots) = []) by (destruct F as [F | F]; [done | apply nil_length_inv; lia]).
    rewrite E, app_nil_r. split_and!; [done | done | done |]. intros i s Ei Hs. by apply K3, K1.
  - destruct (register_all_spec now (env (S n)) w1 W1 (He (S n))) as (W3 & D3 & K3).
    destruct (IH (register_all w1 (env (S n))) q2 W3 He) as (ws & w' & q' & E & P & N & W' & K').
    { rewrite D3, R2, L2, Lq. rewrite D, length_app in L. destruct F as [F | F]; [rewrite F; simpl; lia | nia]. }
    cbn [rounds] in E. rewrite E. eexists _, _, _. split; [done |]. split_and!; [| done | done |].
    + rewrite P, Q2, D3, Q, D. simpl. by rewrite (assoc_L (++)).
    + intros i s Ei Hs. apply K'; [by apply K3, K1 | done].
Qed.

(** * Interleavings *)

(** The sections under the lock, other than a registration.  [fire_due] is
    several of them: batches, and the publication at its end. *)
Inductive op : Wheel Waker -> Wheel Waker -> Prop :=
| op_cancel w h : op w (cancel w h)
| op_refresh w h wk : op w (snd (refresh_waker will_wake w h wk))
| op_refresh_at w h d wk b w' : refresh_waker_at will_wake w h d wk = Some (b, w') -> op w w'
| op_batch w now cursor c l batch :
    (cursor <= MAX_SLEEPERS)%nat -> take_batch MAX_SLEEPERS now cursor w.(slots) [] = (c, l, batch) -> op w (set_slots w l)
| op_publish w : op w (publish_min_locked w)
| op_take_due w now taken : op w (snd (take_due_into w now taken))
| op_drain w q now : op w (fst (drain_due_to_deferred w q now))
| op_set_arm w : op w (set_arm_callback w)
| op_clear_arm w : op w (clear_arm_callback w).

(** Any number of operations, [n] of them registrations. *)
Inductive runs (w : Wheel Waker) : nat -> Wheel Waker -> Prop :=
| runs_start : runs w 0 w
| runs_register n w' d wk : runs w n w' -> runs w (S n) (snd (register w' d wk))
| runs_op n w' w'' : runs w n w' -> op w' w'' -> runs w n w''.

Definition reachable w : Prop := exists n, runs new n w.

(** What an operation other than a registration leaves: sleepers that were
    there, in their slots, with their generations. *)
Lemma op_keeps w w' : wf w -> op w w' ->
  wf w' /\ w'.(next_gen) = w.(next_gen) /\
  forall i s', w'.(slots) !! i = Some (Some s') -> exists s, w.(slots) !! i = Some (Some s) /\ s.(sleeper_gen) = s'.(sleeper_gen).
Proof using Type.
  intros W O. pose proof W as [L C G]. destruct O as [w h | w h wk | w h d wk b w' E | w now cursor c l batch Hc E | w | w now taken | w q now | w | w].
  - split; [by apply cancel_wf |]. unfold cancel. destruct (matching w h) as [[i s] |]; [| by eauto].
    assert (H : forall k s', <[i := None]> (slots w) !! k = Some (Some s') -> exists s, slots w !! k = Some (Some s) /\ sleeper_gen s = sleeper_gen s').
    { intros k s' [[_ ?] | [_ ?]]%insert_occupied; [done | eauto]. }
    by case_bool_decide.
  - split; [by apply refresh_waker_wf |]. unfold refresh_waker. destruct (matching w h) as [[i s] |] eqn:E; [| by eauto].
    apply matching_Some in E as (E & _). split; [done |]. simpl.
    intros k s' [[-> [= <-]] | [_ ?]]%insert_occupied; eauto.
  - destruct (refresh_waker_at_wf w h d wk W) as (b' & w1 & E1 & W1). rewrite E in E1. injection E1 as <- <-. split; [done |].
    unfold refresh_waker_at in E. destruct (matching w h) as [[i s] |] eqn:Em; [| injection E as <- <-; eauto].
    apply matching_Some in Em as (Em & _). cbv zeta in E. destruct (if _ && _ then _ else _) as [m |]; [| done].
    injection E as <- <-. match goal with |- context [invoke_arm ?a ?b] => destruct (invoke_arm_same a b) as (-> & -> & _) end.
    split; [done |]. simpl. intros k s' [[-> [= <-]] | [_ ?]]%insert_occupied; eauto.
  - destruct (take_batch_spec MAX_SLEEPERS now (take cursor w.(slots)) (drop cursor w.(slots)) []) as (m & r & Em & Et & _).
    { by rewrite take_drop. }
    { rewrite length_drop. lia. }
    rewrite take_drop, length_take_le in Et by lia. rewrite E in Et. injection Et as -> -> ->.
    assert (H : forall i s, (take cursor (slots w) ++ clear now m ++ r) !! i = Some (Some s) -> slots w !! i = Some (Some s)).
    { intros i s Hi. rewrite <- (take_drop cursor w.(slots)), Em. apply lookup_app_Some in Hi as [Hi | [Hg Hi]];
        [by apply lookup_app_l_Some |]. rewrite lookup_app_r by done.
      apply lookup_app_Some in Hi as [Hi | [Hg' Hi]]; [by apply lookup_app_l_Some; apply clear_lookup in Hi as [? _] |].
      unfold clear in *. rewrite length_fmap in *. by rewrite lookup_app_r. }
    split; [apply fewer_wf; [done | | done] | split; [done | eauto]].
    pose proof (f_equal length Em) as El. rewrite length_drop, length_app in El. unfold clear.
    rewrite !length_app, length_fmap, length_take_le by lia. lia.
  - split; [split; simpl; [done | apply not_late_min | done] | eauto].
  - split; [split; simpl; [by rewrite length_fmap | apply not_late_min | done] |]. split; [done |].
    intros i s' Hi. exists s'. split; [| done]. by apply clear_lookup in Hi as [? _].
  - destruct (drain_due_spec now w q W) as (w' & q' & d & E & W' & _). rewrite E. split; [done |]. revert E.
    unfold drain_due_to_deferred. destruct (cached_min w) as [c |]; [| intros [= <- _]; eauto].
    destruct (now <? c); [intros [= <- _]; eauto |]. destruct (drain_loop_spec now w.(slots) q) as (l' & q2 & d2 & -> & _ & _ & _ & _ & _ & _ & K & _).
    intros [= <- _]. simpl. eauto.
  - split; [by split | eauto].
  - split; [by split | eauto].
Qed.

Lemma runs_wf w n w' : wf w -> runs w n w' -> wf w'.
Proof using Type. intros W. induction 1 as [| n w' d wk _ IH | n w' w'' _ IH O]; [done | by apply register_wf | by apply (op_keeps w')]. Qed.

Lemma empty_wheel_wf : wf new.
Proof using Type.
  split; [apply length_replicate | | done]. intros i s [? _]%lookup_replicate. done.
Qed.

Lemma reachable_wf w : reachable w -> wf w.
Proof using Type. intros [n R]. eapply runs_wf; [apply empty_wheel_wf | done]. Qed.

(** ** Generations *)

(** After [n] registrations: the generations in use are below the next one. *)
Definition gens (n : nat) w : Prop :=
  w.(next_gen) <= Z.of_nat n + 1 /\ forall i s, w.(slots) !! i = Some (Some s) -> s.(sleeper_gen) < w.(next_gen).

(** Only slot [i] can hold generation [g], and [g] is not the next one. *)
Definition owned (g : Z) (i : nat) w : Prop :=
  g < w.(next_gen) /\ forall j s, w.(slots) !! j = Some (Some s) -> s.(sleeper_gen) = g -> j = i.

Definition gone (g : Z) w : Prop := g < w.(next_gen) /\ forall j s, w.(slots) !! j = Some (Some s) -> s.(sleeper_gen) <> g.

Lemma gens_register n w d wk : wf w -> gens n w -> Z.of_nat n < 2 ^ 32 - 2 ->
  let w' := snd (register w d wk) in
  gens (S n) w' /\ (forall g i, owned g i w -> owned g i w') /\ (forall g, gone g w -> gone g w').
Proof using Type.
  intros W [G1 G2] L. pose proof (wf_gen w W). destruct (first_free (slots w)) as [i |] eqn:E.
  2: { rewrite (register_full w d wk E). simpl. split; [split; [lia | done] | done]. }
  destruct (register_spec w d wk i E) as (w' & -> & Es & Eg & _). simpl.
  assert (Ng : w'.(next_gen) = w.(next_gen) + 1) by (rewrite Eg, wrap_small by (unfold is_u; lia); lia).
  split_and!.
  - split; [lia |]. rewrite Es. intros k s [[-> [= <-]] | [_ Hk]]%insert_occupied; [simpl; lia |]. pose proof (G2 k s Hk). lia.
  - intros g j [O1 O2]. split; [lia |]. rewrite Es. intros k s [[-> [= <-]] | [_ Hk]]%insert_occupied; [simpl; lia | by apply O2].
  - intros g [O1 O2]. split; [lia |]. rewrite Es. intros k s [[-> [= <-]] | [_ Hk]]%insert_occupied; [simpl; lia | by eapply O2].
Qed.

Lemma gens_op n w w' : wf w -> op w w' -> gens n w ->
  gens n w' /\ (forall g i, owned g i w -> owned g i w') /\ (forall g, gone g w -> gone g w').
Proof using Type.
  intros W O [G1 G2]. destruct (op_keeps w w' W O) as (_ & E & K). split_and!.
  - split; [lia |]. intros i s' Hi. destruct (K i s' Hi) as (s & Hs & <-). rewrite E. by apply (G2 i).
  - intros g i [O1 O2]. split; [lia |]. intros j s' Hj Hg. destruct (K j s' Hj) as (s & Hs & Es). apply (O2 j s); congruence.
  - intros g [O1 O2]. split; [lia |]. intros j s' Hj. destruct (K j s' Hj) as (s & Hs & <-). by apply (O2 j s).
Qed.

Lemma gens_runs n m w w' : wf w -> runs w m w' -> gens n w -> Z.of_nat (n + m) <= 2 ^ 32 - 2 ->
  gens (n + m) w' /\ (forall g i, owned g i w -> owned g i w') /\ (forall g, gone g w -> gone g w').
Proof using Type.
  intros W R G. induction R as [| k w' d wk R IH | k w' w'' R IH O]; intros L.
  - rewrite Nat.add_0_r. done.
  - destruct (IH ltac:(lia)) as (G' & O' & N'). rewrite Nat.add_succ_r.
    destruct (gens_register (n + k) w' d wk (runs_wf _ _ _ W R) G' ltac:(lia)) as (G2 & O2 & N2). auto.
  - destruct (IH L) as (G' & O' & N'). destruct (gens_op (n + k) w' w'' (runs_wf _ _ _ W R) O G') as (G2 & O2 & N2). auto.
Qed.

Lemma owned_gone w h :
  0 <= h.(handle_index) < Z.of_nat MAX_SLEEPERS -> owned h.(handle_gen) (Z.to_nat h.(handle_index)) w ->
  matching w h = None <-> gone h.(handle_gen) w.
Proof using Type.
  intros Hi [O1 O2]. unfold matching.
  destruct (Nat.leb_spec MAX_SLEEPERS (Z.to_nat (handle_index h))); [lia |]. split.
  - intros M. split; [done |]. intros j s Hj Hg. pose proof (O2 j s Hj Hg) as ->. rewrite Hj in M.
    by destruct (Z.eqb_spec (sleeper_gen s) (handle_gen h)).
  - intros [_ N]. destruct (slots w !! _) as [[s |] |] eqn:E; try done.
    destruct (Z.eqb_spec (sleeper_gen s) (handle_gen h)); [by destruct (N _ _ E) | done].
Qed.

Lemma stale_ops w h d wk :
  matching w h = None ->
  cancel w h = w /\ refresh_waker will_wake w h wk = (false, w) /\ refresh_waker_at will_wake w h d wk = Some (false, w).
Proof using Type. intros M. unfold cancel, refresh_waker, refresh_waker_at. by rewrite M. Qed.

(** * The properties *)

(** The cached earliest deadline is never late.  In every state reached by
    interleaved operations, also between the batches of a [fire_due], a
    sleeper in the wheel has a deadline at or after the cached one, so a check
    of the cache against the clock never skips a sleeper that is due; and
    refreshing a deadline does not panic. *)
Lemma earliest_deadline_never_late w :
  reachable w ->
  (forall i s, w.(slots) !! i = Some (Some s) ->
     exists c, next_deadline_cycles w = Some c /\ c <= s.(deadline_cycles)) /\
  forall h d wk, refresh_waker_at will_wake w h d wk <> None.
Proof using Type.
  intros W%reachable_wf. split; [apply (wf_cache w W) |]. intros h d wk.
  destruct (refresh_waker_at_wf w h d wk W) as (b & w' & -> & _). done.
Qed.

(** [fire_due] wakes exactly the sleepers that are due, each once and in
    slot order, even when the tasks it wakes register again while it runs; the
    others keep their slots, and the wheel then holds only those and the
    sleepers the woken tasks registered. *)
Lemma fire_due_wakes_exactly w now :
  reachable w -> exists w', fire_due rearm w now = (due now w.(slots), w') /\
    (forall i s, w.(slots) !! i = Some (Some s) -> now < s.(deadline_cycles) -> w'.(slots) !! i = Some (Some s)) /\
    forall i s, w'.(slots) !! i = Some (Some s) ->
      (w.(slots) !! i = Some (Some s) /\ now < s.(deadline_cycles)) \/
      exists wk, wk ∈ due now w.(slots) /\ rearm wk = Some (s.(deadline_cycles), s.(waker)).
Proof using Type.
  intros W%reachable_wf. destruct (fire_due_spec w now W) as (w' & E & _ & _ & K2 & K3). by exists w'.
Qed.

(** C39: every sleeper that is due is eventually woken.  The interrupt-side
    drain moves at most the free room of the 64-entry queue, and the idle loop
    empties the queue; after one round for the queue as found and one for every
    64 sleepers due, every sleeper that was due and every waker that was queued
    has been woken exactly once, whatever later deadlines are registered in
    between, and nothing is due any more. *)
Theorem due_sleepers_all_woken n env now w q :
  reachable w -> length q.(q_slots) = MAX_PENDING -> (forall k p, p ∈ env k -> now < p.1) ->
  (length (due now w.(slots)) <= MAX_PENDING * n)%nat ->
  exists ws w' q', rounds (S n) env w q now = (ws, w', q') /\ ws ≡ₚ queued q ++ due now w.(slots) /\
    due now w'.(slots) = [] /\
    forall i s, w.(slots) !! i = Some (Some s) -> now < s.(deadline_cycles) -> w'.(slots) !! i = Some (Some s).
Proof using Type.
  intros W%reachable_wf Lq He L. destruct (wheel_rounds_spec n env now w q W He) as (ws & w' & q' & E & P & N & _ & K); [lia |].
  by exists ws, w', q'.
Qed.

(** A stale handle is harmless.  Once the sleeper of a handle has fired or
    was cancelled, no later state makes the handle match another sleeper, as
    long as there are fewer than 2^32 - 2 registrations since boot: cancelling
    and refreshing through it do nothing. *)
Lemma stale_handle_harmless n d wk w h w1 m w2 k w3 :
  runs new n w -> register w d wk = (Ok h, w1) -> runs w1 m w2 -> matching w2 h = None -> runs w2 k w3 ->
  Z.of_nat (n + 1 + m + k) <= 2 ^ 32 - 2 ->
  matching w3 h = None /\ cancel w3 h = w3 /\
  forall d' wk', refresh_waker will_wake w3 h wk' = (false, w3) /\ refresh_waker_at will_wake w3 h d' wk' = Some (false, w3).
Proof using Type.
  intros R1 Er R2 M R3 L. pose proof (runs_wf _ _ _ empty_wheel_wf R1) as W.
  assert (G0 : gens 0 new) by (split; [done |]; intros i s [? _]%lookup_replicate; done).
  destruct (gens_runs 0 n new w empty_wheel_wf R1 G0 ltac:(lia)) as ([G1 G2] & _). simpl in *.
  destruct (first_free (slots w)) as [i |] eqn:E; [| by rewrite (register_full w d wk E) in Er].
  pose proof (register_wf w d wk W) as W1. rewrite Er in W1. simpl in W1.
  destruct (gens_register n w d wk W (conj G1 G2) ltac:(lia)) as (G' & _). rewrite Er in G'. simpl in G'.
  destruct (register_spec w d wk i E) as (w' & Er' & Es & Eg & _). rewrite Er in Er'. injection Er' as -> ->.
  assert (Li : (i < MAX_SLEEPERS)%nat) by (apply first_free_Some, lookup_lt_Some in E; by rewrite (wf_len w W) in E).
  assert (Hi : wrap 16 (Z.of_nat i) = Z.of_nat i) by (apply wrap_small; unfold is_u; assert (MAX_SLEEPERS = 1024%nat) by done; lia).
  pose proof (wf_gen w W) as Wg. simpl in M |- *.
  assert (Ng : w'.(next_gen) = w.(next_gen) + 1) by (rewrite Eg, wrap_small by (unfold is_u; lia); lia).
  assert (O1 : owned w.(next_gen) i w').
  { split; [lia |]. rewrite Es. intros j s [[-> _] | [_ Hj]]%insert_occupied; [done |]. pose proof (G2 j s Hj). lia. }
  destruct (gens_runs (S n) m w' w2 W1 R2 G' ltac:(lia)) as (Gm & O2 & _). pose proof (runs_wf _ _ _ W1 R2) as W2.
  destruct (gens_runs (S n + m) k w2 w3 W2 R3 Gm ltac:(lia)) as (_ & O3 & N3).
  set (h := mk_handle (wrap 16 (Z.of_nat i)) w.(next_gen)) in *.
  assert (Rg : 0 <= h.(handle_index) < Z.of_nat MAX_SLEEPERS) by (simpl; lia).
  assert (Ei : Z.to_nat h.(handle_index) = i) by (simpl; lia).
  assert (M3 : matching w3 h = None).
  { apply owned_gone; [done | simpl; rewrite Hi, Nat2Z.id; auto |]. apply N3. apply owned_gone; [done | | done].
    simpl. rewrite Hi, Nat2Z.id. auto. }
  split; [done |]. split; [by destruct (stale_ops w3 h 0 wk M3) | intros d' wk'; by destruct (stale_ops w3 h d' wk' M3)].
Qed.
End Wheel.

(** * Witnesses: a wheel with two sleepers *)

Definition two_sleepers : Wheel nat := snd (register (snd (register (set_arm_callback new) 20 1%nat)) 10 2%nat).

Lemma two_sleepers_reachable : reachable Nat.eqb two_sleepers.
Proof.
  exists 2%nat. apply runs_register, runs_register. apply (runs_op _ _ 0 new); [apply runs_start | apply op_set_arm].
Qed.

Lemma earliest_deadline_never_late_witness :
  exists c, next_deadline_cycles two_sleepers = Some c /\ c <= 20.
Proof.
  apply (proj1 (earliest_deadline_never_late Nat.eqb two_sleepers two_sleepers_reachable) 0%nat (mk_sleeper 20 1%nat 1)).
  vm_compute. reflexivity.
Defined.

Lemma fire_due_wakes_exactly_witness :
  exists w', fire_due (fun wk => if Nat.eqb wk 2 then Some (5, 3%nat) else None) two_sleepers 15 = ([2%nat], w').
Proof.
  destruct (fire_due_wakes_exactly Nat.eqb (fun wk => if Nat.eqb wk 2 then Some (5, 3%nat) else None) two_sleepers 15
              two_sleepers_reachable) as (w' & E & _).
  exists w'. rewrite E. reflexivity.
Defined.

Lemma due_sleepers_all_woken_witness :
  exists ws w' q', rounds 2 (fun _ => [(30, 7%nat)]) two_sleepers empty_queue 25 = (ws, w', q') /\ ws ≡ₚ [1%nat; 2%nat].
Proof.
  destruct (due_sleepers_all_woken Nat.eqb 1 (fun _ => [(30, 7%nat)]) 25 two_sleepers empty_queue two_sleepers_reachable)
    as (ws & w' & q' & E & P & _).
  - reflexivity.
  - intros k p ->%list_elem_of_singleton. reflexivity.
  - apply (bool_decide_eq_true_1 _). vm_compute. reflexivity.
  - exists ws, w', q'. split; [exact E |]. etrans; [exact P |]. vm_compute. reflexivity.
Defined.

Lemma stale_handle_harmless_witness :
  let h := mk_handle 0 1 in
  let w1 := snd (register new 10 1%nat) in
  let w3 := snd (register (cancel w1 h) 30 2%nat) in
  slots w3 !! 0%nat = Some (Some (mk_sleeper 30 2%nat 2)) /\ cancel w3 h = w3.
Proof.
  intros h w1 w3. split; [vm_compute; reflexivity |].
  apply (stale_handle_harmless Nat.eqb 0 10 1%nat new h w1 0 (cancel w1 h) 1 w3).
  - apply runs_start.
  - vm_compute. reflexivity.
  - apply (runs_op _ _ 0 w1); [apply runs_start | apply op_cancel].
  - vm_compute. reflexivity.
  - apply (runs_register _ _ 0), runs_start.
  - vm_compute. discriminate.
Defined.
