(* ===== verification/Buddy.v ===== *)
(** The buddy allocator of one memory zone ([memory/src/buddy.rs]).

    Frame numbers, orders and counts are unbounded integers here.  Frame
    numbers are physical addresses shifted right by 12 and stay below 2^52, so
    the sums of the source do not wrap; where the source saturates the model
    does too.  The free lists are indexed by migrate type and order, as the
    source's array of arrays is; the one index the callers do not bound, the
    order given to [free_inner], panics ([None]) above [MAX_ORDER].

    The hooks of the [frame-alloc-audit] feature do not change the zone and are
    left out.  Of the reservation of list capacity the model has the number of
    entries ([reserved_capacity]), not the capacity of a vector itself, so
    [can_donate_without_growth] is left out. *)

From S2P Require Import Prelude Word.

Definition PAGE_SHIFT : Z := 12.
Definition PAGE_SIZE : Z := 4096.

Definition MAX_ORDER : Z := 13.
Definition NUM_ORDERS : Z := MAX_ORDER + 1.

Inductive MigrateType : Type := Unmovable | Movable.

#[export] Instance MigrateType_eq_dec : EqDecision MigrateType.
Proof. solve_decision. Defined.

Definition mt_index (mt : MigrateType) : nat := match mt with Unmovable => 0 | Movable => 1 end.

Definition mt_from_index (i : nat) : MigrateType := match i with 1%nat => Movable | _ => Unmovable end.

(** [FALLBACK_ORDER[mt.index()]]. *)
Definition FALLBACK_ORDER (mt : MigrateType) : list MigrateType :=
  match mt with
  | Unmovable => [Unmovable; Movable]
  | Movable => [Movable; Unmovable]
  end.

Definition order_frames (order : Z) : Z := Z.shiftl 1 order.

Definition order_bytes (order : Z) : Z := Z.shiftl PAGE_SIZE order.

Definition buddy_of (frame_no order : Z) : Z := Z.lxor frame_no (Z.shiftl 1 order).

Record BuddyZone : Type := mk_zone {
  free_lists : MigrateType -> Z -> list Z;
  total_frames : Z;
  free_frames : Z
}.

Module buddy.
Definition new : BuddyZone := mk_zone (fun _ _ => []) 0 0.

(** [self.free_lists[mt][order] = l]. *)
Definition set_list (ls : MigrateType -> Z -> list Z) (mt : MigrateType) (order : Z) (l : list Z) :=
  fun mt' o' => if decide (mt' = mt /\ o' = order) then l else ls mt' o'.

Definition push (ls : MigrateType -> Z -> list Z) (mt : MigrateType) (order frame : Z) :=
  set_list ls mt order (ls mt order ++ [frame]).

(** [Vec::swap_remove(i)], for [i] in range: the last element takes the place
    of the removed one. *)
Definition swap_remove (l : list Z) (i : nat) : list Z :=
  match last l with
  | None => l
  | Some x => take (length l - 1) (<[i := x]> l)
  end.

(** The inner loop of [donate_as]: the largest order, from [order] down, at
    which [start] is aligned and the block fits before [end_]. *)
Fixpoint fit_order (n : nat) (start end_ : Z) : Z :=
  match n with
  | O => 0
  | S n' =>
      let order := Z.of_nat n in
      let block_frames := order_frames order in
      if (Z.land start (block_frames - 1) =? 0) && (start + block_frames <=? end_) then order
      else fit_order n' start end_
  end.

(** The outer loop; every iteration consumes at least one frame. *)
Fixpoint donate_loop (n : nat) (ls : MigrateType -> Z -> list Z) (mt : MigrateType)
    (start end_ : Z) : MigrateType -> Z -> list Z :=
  match n with
  | O => ls
  | S n =>
      if start <? end_ then
        let order := fit_order (Z.to_nat MAX_ORDER) start end_ in
        donate_loop n (push ls mt order start) mt (start + order_frames order) end_
      else ls
  end.

Definition donate_as (z : BuddyZone) (first_frame frame_count : Z) (mt : MigrateType) : BuddyZone :=
  let end_ := first_frame + frame_count in
  mk_zone (donate_loop (Z.to_nat frame_count) z.(free_lists) mt first_frame end_)
    (z.(total_frames) + frame_count) (z.(free_frames) + frame_count).

Definition donate (z : BuddyZone) (first_frame frame_count : Z) : BuddyZone :=
  donate_as z first_frame frame_count Movable.

(** The upward search of [alloc_within]: the first non-empty list from
    [order], within [n] more orders. *)
Fixpoint find_order (n : nat) (l : Z -> list Z) (order : Z) : option Z :=
  match n with
  | O => None
  | S n =>
      if MAX_ORDER <? order then None
      else if negb (bool_decide (l order = [])) then Some order
      else find_order n l (order + 1)
  end.

(** The split loops: push the upper halves from [found] down to [order]. *)
Fixpoint split_down (n : nat) (ls : MigrateType -> Z -> list Z) (mt : MigrateType)
    (frame found order : Z) : MigrateType -> Z -> list Z :=
  match n with
  | O => ls
  | S n =>
      if order <? found then
        let found := found - 1 in
        split_down n (push ls mt found (frame + order_frames found)) mt frame found order
      else ls
  end.

(** [Vec::pop]. *)
Definition pop (l : list Z) : option (Z * list Z) :=
  match last l with
  | None => None
  | Some x => Some (x, take (length l - 1) l)
  end.

Definition alloc_within (z : BuddyZone) (order : Z) (src dst : MigrateType)
    : option (Z * BuddyZone) :=
  let* found := find_order (Z.to_nat (NUM_ORDERS - order)) (z.(free_lists) src) order in
  let* p := pop (z.(free_lists) src found) in
  let '(frame, l) := p in
  let ls := set_list z.(free_lists) src found l in
  let ls := split_down (Z.to_nat (found - order)) ls dst frame found order in
  Some (frame, mk_zone ls z.(total_frames) (z.(free_frames) - order_frames order)).

(** The loop over the migrate types to try. *)
Fixpoint alloc_from (z : BuddyZone) (order : Z) (srcs : list MigrateType) (mt : MigrateType)
    : option (Z * BuddyZone) :=
  match srcs with
  | [] => None
  | src :: srcs =>
      match alloc_within z order src mt with
      | Some r => Some r
      | None => alloc_from z order srcs mt
      end
  end.

Definition alloc_mt (z : BuddyZone) (order : Z) (mt : MigrateType) : option (Z * BuddyZone) :=
  if MAX_ORDER <? order then None else alloc_from z order (FALLBACK_ORDER mt) mt.

Definition alloc (z : BuddyZone) (order : Z) : option (Z * BuddyZone) := alloc_mt z order Unmovable.

(** [iter().position(p)]. *)
Fixpoint position (p : Z -> bool) (l : list Z) : option nat :=
  match l with
  | [] => None
  | x :: l => if p x then Some O else S <$> position p l
  end.

Definition find_below (z : BuddyZone) (order max_frame_no_excl : Z) (mt : MigrateType) : option nat :=
  let blk := order_frames order in
  position (fun f => f + blk <=? max_frame_no_excl) (z.(free_lists) mt order).

(** Take the block at [idx] of the order-[from] list and split it down. *)
Definition take_at (z : BuddyZone) (src dst : MigrateType) (from order : Z) (idx : nat)
    : option (Z * BuddyZone) :=
  let* frame := z.(free_lists) src from !! idx in
  let ls := set_list z.(free_lists) src from (swap_remove (z.(free_lists) src from) idx) in
  let ls := split_down (Z.to_nat (from - order)) ls dst frame from order in
  Some (frame, mk_zone ls z.(total_frames) (z.(free_frames) - order_frames order)).

(** The orders from [from] up, the requested one first. *)
Fixpoint below_scan (n : nat) (z : BuddyZone) (src dst : MigrateType) (from order ceiling : Z)
    : option (Z * BuddyZone) :=
  match n with
  | O => None
  | S n =>
      match find_below z from ceiling src with
      | Some idx => take_at z src dst from order idx
      | None => below_scan n z src dst (from + 1) order ceiling
      end
  end.

Fixpoint below_from (z : BuddyZone) (order ceiling : Z) (srcs : list MigrateType) (mt : MigrateType)
    : option (Z * BuddyZone) :=
  match srcs with
  | [] => None
  | src :: srcs =>
      match below_scan (Z.to_nat (NUM_ORDERS - order)) z src mt order order ceiling with
      | Some r => Some r
      | None => below_from z order ceiling srcs mt
      end
  end.

Definition alloc_below_mt (z : BuddyZone) (order max_frame_no_excl : Z) (mt : MigrateType)
    : option (Z * BuddyZone) :=
  if MAX_ORDER <? order then None
  else below_from z order max_frame_no_excl (FALLBACK_ORDER mt) mt.

Definition alloc_below (z : BuddyZone) (order max_frame_no_excl : Z) : option (Z * BuddyZone) :=
  alloc_below_mt z order max_frame_no_excl Unmovable.

(** The coalescing loop of [free_inner]. *)
Fixpoint coalesce (n : nat) (ls : MigrateType -> Z -> list Z) (mt : MigrateType)
    (cur_frame cur_order : Z) : (MigrateType -> Z -> list Z) * Z * Z :=
  match n with
  | O => (ls, cur_frame, cur_order)
  | S n =>
      if cur_order <? MAX_ORDER then
        let buddy := buddy_of cur_frame cur_order in
        match position (fun f => f =? buddy) (ls mt cur_order) with
        | Some idx =>
            coalesce n (set_list ls mt cur_order (swap_remove (ls mt cur_order) idx)) mt
              (Z.min cur_frame buddy) (cur_order + 1)
        | None => (ls, cur_frame, cur_order)
        end
      else (ls, cur_frame, cur_order)
  end.

Definition free_inner (z : BuddyZone) (frame order : Z) (mt : MigrateType) : option BuddyZone :=
  let '(ls, cur_frame, cur_order) :=
    coalesce (Z.to_nat (MAX_ORDER - order)) z.(free_lists) mt frame order in
  if MAX_ORDER <? cur_order then None
  else Some (mk_zone (push ls mt cur_order cur_frame) z.(total_frames)
               (z.(free_frames) + order_frames order)).

Definition free_mt (z : BuddyZone) (frame order : Z) (mt : MigrateType) : option BuddyZone :=
  free_inner z frame order mt.

Definition free (z : BuddyZone) (frame order : Z) : option BuddyZone := free_mt z frame order Unmovable.

Definition free_cached (z : BuddyZone) (frame order : Z) : option BuddyZone :=
  free_inner z frame order Unmovable.

(** ** Ranges *)

(** The overlap of a block with a frame range, as [remove_free_range] sums it. *)
Definition sat_add (x y : Z) : Z := Z.min U64_MAX (x + y).

Definition overlap (block span lo hi : Z) : Z :=
  let overlap_lo := Z.max block lo in
  let overlap_hi := Z.min (sat_add block span) hi in
  if overlap_lo <? overlap_hi then overlap_hi - overlap_lo else 0.

Fixpoint covered_by (bs : list (Z * Z)) (lo hi acc : Z) : Z :=
  match bs with
  | [] => acc
  | (block, order) :: bs => covered_by bs lo hi (sat_add acc (overlap block (order_frames order) lo hi))
  end.

(** The pieces of a block outside the removed range go back to the lists of
    its partition.  A block of order 0 is inside or outside. *)
Fixpoint retain_outside_range (n : nat) (ls : MigrateType -> Z -> list Z) (mt : MigrateType)
    (block remove_lo remove_hi : Z) : MigrateType -> Z -> list Z :=
  let order := Z.of_nat n in
  let end_ := block + order_frames order in
  if (remove_lo <=? block) && (end_ <=? remove_hi) then ls
  else if (end_ <=? remove_lo) || (remove_hi <=? block) then push ls mt order block
  else
    match n with
    | O => ls
    | S n' =>
        let half := order_frames (Z.of_nat n') in
        let ls := retain_outside_range n' ls mt block remove_lo remove_hi in
        retain_outside_range n' ls mt (block + half) remove_lo remove_hi
    end.

(** The scan of one list; every iteration advances the index or shortens the
    list. *)
Fixpoint remove_scan (fuel : nat) (ls : MigrateType -> Z -> list Z) (mt : MigrateType)
    (order : nat) (index : nat) (first_frame end_ : Z) : MigrateType -> Z -> list Z :=
  match fuel with
  | O => ls
  | S fuel =>
      match ls mt (Z.of_nat order) !! index with
      | None => ls
      | Some block =>
          let block_end := block + order_frames (Z.of_nat order) in
          if (end_ <=? block) || (block_end <=? first_frame)
          then remove_scan fuel ls mt order (S index) first_frame end_
          else
            let ls := set_list ls mt (Z.of_nat order) (swap_remove (ls mt (Z.of_nat order)) index) in
            let ls := retain_outside_range order ls mt block first_frame end_ in
            remove_scan fuel ls mt order index first_frame end_
      end
  end.

(** The orders below [n], from the top. *)
Fixpoint remove_orders (n : nat) (ls : MigrateType -> Z -> list Z) (mt : MigrateType)
    (first_frame end_ : Z) : MigrateType -> Z -> list Z :=
  match n with
  | O => ls
  | S n =>
      let ls := remove_scan (length (ls mt (Z.of_nat n))) ls mt n 0 first_frame end_ in
      remove_orders n ls mt first_frame end_
  end.

(** The slots of the array of lists, in the order its loops visit them, and
    the blocks of all lists in that order. *)
Definition orders : list Z := Z.of_nat <$> seq 0 14.

Definition slots : list (MigrateType * Z) :=
  ((fun o => (Unmovable, o)) <$> orders) ++ ((fun o => (Movable, o)) <$> orders).

Definition slot_blocks (ls : MigrateType -> Z -> list Z) (p : MigrateType * Z) : list (Z * Z) :=
  (fun s => (s, snd p)) <$> ls (fst p) (snd p).

Definition blocks (ls : MigrateType -> Z -> list Z) : list (Z * Z) := flat_map (slot_blocks ls) slots.

(** The boolean the source returns, with the zone. *)
Definition remove_free_range (z : BuddyZone) (first_frame frame_count : Z) : bool * BuddyZone :=
  if frame_count =? 0 then (false, z)
  else
    let end_ := sat_add first_frame frame_count in
    if end_ <=? first_frame then (false, z)
    else if negb (covered_by (blocks z.(free_lists)) first_frame end_ 0 =? frame_count) then (false, z)
    else
      let n := Z.to_nat NUM_ORDERS in
      let ls := remove_orders n z.(free_lists) Unmovable first_frame end_ in
      let ls := remove_orders n ls Movable first_frame end_ in
      (true, mk_zone ls (z.(total_frames) - frame_count) (z.(free_frames) - frame_count)).

(** ** Rebalancing *)

(** One list of [drain_into]. *)
Fixpoint drain_scan (fuel : nat) (z d : BuddyZone) (predicate : Z -> bool) (mt : MigrateType)
    (order : Z) (i : nat) : BuddyZone * BuddyZone :=
  match fuel with
  | O => (z, d)
  | S fuel =>
      match z.(free_lists) mt order !! i with
      | None => (z, d)
      | Some frame =>
          if predicate frame then
            let block_frames := order_frames order in
            let z := mk_zone (set_list z.(free_lists) mt order (swap_remove (z.(free_lists) mt order) i))
                       (z.(total_frames) - block_frames) (z.(free_frames) - block_frames) in
            let d := mk_zone (push d.(free_lists) mt order frame)
                       (d.(total_frames) + block_frames) (d.(free_frames) + block_frames) in
            drain_scan fuel z d predicate mt order i
          else drain_scan fuel z d predicate mt order (S i)
      end
  end.

Definition drain_slot (predicate : Z -> bool) (zd : BuddyZone * BuddyZone) (p : MigrateType * Z)
    : BuddyZone * BuddyZone :=
  let '(z, d) := zd in
  drain_scan (length (z.(free_lists) (fst p) (snd p))) z d predicate (fst p) (snd p) 0.

Definition drain_into (z d : BuddyZone) (predicate : Z -> bool) : BuddyZone * BuddyZone :=
  foldl (drain_slot predicate) (z, d) slots.

(** ** Diagnostics *)

(** The first block of [bs] overlapping the block [sa] of order [oa]. *)
Fixpoint first_overlap (sa oa : Z) (bs : list (Z * Z)) : option (Z * Z * Z) :=
  match bs with
  | [] => None
  | (sb, ob) :: bs =>
      let ea := sa + order_frames oa in
      let eb := sb + order_frames ob in
      if (sa <? eb) && (sb <? ea) then Some (Z.max sa sb, oa, ob) else first_overlap sa oa bs
  end.

(** Every block against the later ones in the flat order. *)
Fixpoint validate_blocks (bs : list (Z * Z)) : Result unit (Z * Z * Z) :=
  match bs with
  | [] => Ok tt
  | (sa, oa) :: bs =>
      match first_overlap sa oa bs with
      | Some e => Err e
      | None => validate_blocks bs
      end
  end.

Definition validate_no_overlap (z : BuddyZone) : Result unit (Z * Z * Z) :=
  validate_blocks (blocks z.(free_lists)).

(** The capacity [reserve_growth_capacity] gives the order-[order] lists. *)
Definition reserved_capacity (total order : Z) : Z := Z.max (Z.shiftr total order) 64 + 64.

Definition free_frame_count (z : BuddyZone) : Z := z.(free_frames).

Definition total_frame_count (z : BuddyZone) : Z := z.(total_frames).

Definition free_block_count_mt (z : BuddyZone) (order : Z) (mt : MigrateType) : Z :=
  if order <? NUM_ORDERS then Z.of_nat (length (z.(free_lists) mt order)) else 0.

Definition free_block_count (z : BuddyZone) (order : Z) : Z :=
  free_block_count_mt z order (mt_from_index 0) + free_block_count_mt z order (mt_from_index 1).
End buddy.
