(* ===== verification/BuddyOps.v ===== *)
(** Blocks of the buddy allocator, and what allocation, freeing and donation do
    to the frames of a zone.

    A zone is a bag of blocks.  Every operation is described by what it does
    to the number of blocks covering each frame and to the number of frames:
    splitting and coalescing change neither, allocation takes one block away
    and freeing gives one back. *)

From S2P Require Import Prelude Word Buddy.

Import buddy.

(** * Blocks *)

(** A block: its first frame and its order. *)
Abbreviation block := (Z * Z)%type.

Definition covers (f : Z) (b : block) : bool :=
  (fst b <=? f) && (f <? fst b + order_frames (snd b)).

(** How many blocks of the list cover frame [f]. *)
Fixpoint cover (f : Z) (bs : list block) : Z :=
  match bs with
  | [] => 0
  | b :: bs => Z.b2z (covers f b) + cover f bs
  end.

(** How many frames the blocks have together. *)
Fixpoint frames (bs : list block) : Z :=
  match bs with
  | [] => 0
  | b :: bs => order_frames (snd b) + frames bs
  end.

(** An order of the zone, and a naturally aligned start. *)
Definition block_ok (b : block) : Prop :=
  0 <= snd b <= MAX_ORDER /\ 0 <= fst b /\ fst b mod order_frames (snd b) = 0.

#[export] Instance cover_perm f : Proper (Permutation ==> eq) (cover f).
Proof. intros l l' P. induction P; simpl; lia. Qed.

#[export] Instance frames_perm : Proper (Permutation ==> eq) frames.
Proof. intros l l' P. induction P; simpl; lia. Qed.

Lemma cover_app f l k : cover f (l ++ k) = cover f l + cover f k.
Proof. induction l; simpl; lia. Qed.

Lemma frames_app l k : frames (l ++ k) = frames l + frames k.
Proof. induction l; simpl; lia. Qed.

Lemma cover_nonneg f l : 0 <= cover f l.
Proof. induction l as [| b l IH]; simpl; [lia |]. destruct (covers f b); simpl; lia. Qed.

Lemma order_frames_pow o : 0 <= o -> order_frames o = 2 ^ o.
Proof. intros. apply Z.shiftl_1_l. Qed.

Lemma order_frames_pos o : 0 <= o -> 0 < order_frames o.
Proof. intros. rewrite order_frames_pow by lia. apply Z.pow_pos_nonneg; lia. Qed.

Lemma order_frames_succ o : 0 <= o -> order_frames (o + 1) = 2 * order_frames o.
Proof. intros. rewrite !order_frames_pow, Z.pow_add_r by lia. lia. Qed.

Lemma frames_nonneg l : Forall block_ok l -> 0 <= frames l.
Proof.
  induction 1 as [| b l [Ho _] _ IH]; simpl; [lia |]. pose proof (order_frames_pos (snd b)). lia.
Qed.

(** A block is its two halves. *)
Lemma covers_halves f s o :
  0 <= o ->
  Z.b2z (covers f (s, o + 1)) = Z.b2z (covers f (s, o)) + Z.b2z (covers f (s + order_frames o, o)).
Proof.
  intros Ho. unfold covers. cbn [fst snd]. pose proof (order_frames_pos o Ho).
  rewrite order_frames_succ by exact Ho.
  destruct (Z.leb_spec s f), (Z.ltb_spec f (s + 2 * order_frames o)), (Z.ltb_spec f (s + order_frames o)),
    (Z.leb_spec (s + order_frames o) f), (Z.ltb_spec f (s + order_frames o + order_frames o)); simpl; lia.
Qed.

Lemma halves_ok s o :
  block_ok (s, o + 1) -> 0 <= o -> block_ok (s, o) /\ block_ok (s + order_frames o, o).
Proof.
  unfold block_ok. cbn [fst snd]. intros (H1 & H2 & H3) Ho.
  pose proof (order_frames_pos o Ho). rewrite order_frames_succ in H3 by exact Ho.
  apply Z.mod_divide in H3 as [k H3]; [| lia].
  assert (E : s mod order_frames o = 0) by (apply Z.mod_divide; [lia |]; exists (2 * k); lia).
  split; split_and!; try lia. apply Z.mod_divide; [lia |]. exists (2 * k + 1). lia.
Qed.

(** * The blocks of a zone *)

Lemma slots_NoDup : NoDup slots.
Proof. apply (bool_decide_eq_true_1 _). vm_compute. reflexivity. Qed.

Lemma elem_of_slots mt o : 0 <= o <= MAX_ORDER -> (mt, o) ∈ slots.
Proof.
  intros Ho. assert (H : o ∈ orders).
  { unfold orders. apply list_elem_of_fmap. exists (Z.to_nat o). split; [lia |].
    apply elem_of_seq. unfold MAX_ORDER in Ho. lia. }
  apply elem_of_app. destruct mt; [left | right]; apply list_elem_of_fmap; eauto.
Qed.

Lemma slot_blocks_ext (ls ls' : MigrateType -> Z -> list Z) ps :
  (forall p, p ∈ ps -> ls (fst p) (snd p) = ls' (fst p) (snd p)) ->
  flat_map (slot_blocks ls) ps = flat_map (slot_blocks ls') ps.
Proof.
  induction ps as [| p ps IH]; intros H; [done |]. simpl. unfold slot_blocks at 1 3.
  rewrite (H p) by left. by rewrite IH by (intros q Hq; apply H; by right).
Qed.

(** One list against the others. *)
Lemma blocks_slot ls mt o :
  0 <= o <= MAX_ORDER ->
  exists rest, forall l, blocks (set_list ls mt o l) ≡ₚ ((fun s => (s, o)) <$> l) ++ rest.
Proof.
  intros Ho. destruct (list_elem_of_split slots (mt, o) (elem_of_slots mt o Ho)) as (pre & post & E).
  pose proof slots_NoDup as N. rewrite E in N. apply NoDup_app in N as (_ & N1 & N2).
  apply NoDup_cons in N2 as [N2 _].
  exists (flat_map (slot_blocks ls) pre ++ flat_map (slot_blocks ls) post). intros l.
  unfold blocks. rewrite E, flat_map_app. cbn [flat_map].
  assert (S : slot_blocks (set_list ls mt o l) (mt, o) = (fun s => (s, o)) <$> l).
  { unfold slot_blocks, set_list. cbn [fst snd]. by rewrite decide_True. }
  assert (O : forall ps, (mt, o) ∉ ps ->
    flat_map (slot_blocks (set_list ls mt o l)) ps = flat_map (slot_blocks ls) ps).
  { intros ps Np. apply slot_blocks_ext. intros [mt' o'] Hp. unfold set_list. cbn [fst snd].
    rewrite decide_False; [done |]. intros [-> ->]. by apply Np. }
  rewrite S, !O; [| exact N2 |].
  - rewrite !app_assoc. f_equiv. apply Permutation_app_comm.
  - intros Hp. apply (N1 _ Hp). left.
Qed.

Lemma blocks_self ls mt o : blocks (set_list ls mt o (ls mt o)) = blocks ls.
Proof.
  apply slot_blocks_ext. intros [mt' o'] _. unfold set_list. cbn [fst snd].
  destruct (decide _) as [[-> ->] |]; done.
Qed.

Lemma set_set ls mt o l l' mt' o' : set_list (set_list ls mt o l) mt o l' mt' o' = set_list ls mt o l' mt' o'.
Proof. unfold set_list. by destruct (decide _). Qed.

Lemma set_same ls mt o l : set_list ls mt o l mt o = l.
Proof. unfold set_list. by rewrite decide_True. Qed.

(** Taking a block out of a list, and pushing one. *)
Lemma blocks_remove ls mt o s l :
  0 <= o <= MAX_ORDER -> ls mt o ≡ₚ s :: l -> blocks ls ≡ₚ (s, o) :: blocks (set_list ls mt o l).
Proof.
  intros Ho P. destruct (blocks_slot ls mt o Ho) as [rest R].
  rewrite <- (blocks_self ls mt o), !R, P. done.
Qed.

Lemma blocks_push ls mt o s :
  0 <= o <= MAX_ORDER -> blocks (push ls mt o s) ≡ₚ (s, o) :: blocks ls.
Proof.
  intros Ho. destruct (blocks_slot ls mt o Ho) as [rest R]. unfold push.
  rewrite <- (blocks_self ls mt o), !R, fmap_app.
  rewrite <- app_assoc. simpl. symmetry. apply Permutation_middle.
Qed.

Lemma pop_perm l x l' : pop l = Some (x, l') -> l ≡ₚ x :: l'.
Proof.
  unfold pop. destruct l as [| y k _] using rev_ind; [done |].
  rewrite last_snoc, length_app. simpl. rewrite Nat.add_sub, take_app_length. intros [= <- <-].
  symmetry. apply Permutation_cons_append.
Qed.

Lemma swap_remove_perm l i x : l !! i = Some x -> l ≡ₚ x :: swap_remove l i.
Proof.
  unfold swap_remove. destruct l as [| y k _] using rev_ind; [done |].
  rewrite last_snoc, length_app. simpl. rewrite Nat.add_sub. intros Hi.
  destruct (Nat.lt_ge_cases i (length k)) as [L | L].
  - rewrite lookup_app_l in Hi by exact L. rewrite insert_app_l by exact L.
    replace (length k) with (length (<[i:=y]> k)) by apply length_insert. rewrite take_app_length.
    rewrite insert_take_drop by exact L. rewrite <- (take_drop_middle k i x Hi) at 1.
    rewrite <- app_assoc. simpl. rewrite <- Permutation_middle. f_equiv. f_equiv.
    symmetry. apply Permutation_cons_append.
  - assert (i = length k) as -> by (apply lookup_lt_Some in Hi; rewrite length_app in Hi; simpl in Hi; lia).
    rewrite list_lookup_middle in Hi by done. injection Hi as <-.
    rewrite list_insert_id by (by apply list_lookup_middle). rewrite take_app_length.
    symmetry. apply Permutation_cons_append.
Qed.

Lemma position_spec p l i : position p l = Some i -> exists x, l !! i = Some x /\ p x = true.
Proof.
  revert i. induction l as [| y l IH]; intros i; simpl; [done |]. destruct (p y) eqn:E.
  - intros [= <-]. by exists y.
  - destruct (position p l) as [j |]; [| done]. intros [= <-]. destruct (IH j eq_refl) as (x & ? & ?). eauto.
Qed.

Lemma position_none p l x : position p l = None -> x ∈ l -> p x = false.
Proof.
  induction l as [| y l IH]; simpl; [intros _ H; by apply elem_of_nil in H |].
  destruct (p y) eqn:E; [done |]. destruct (position p l); [done |]. intros _ [-> | H]%elem_of_cons; auto.
Qed.

Import buddy.

(** * Splitting *)

(** Two bags of blocks with the same frames, counted with multiplicity. *)
Definition same_frames (l k : list block) : Prop :=
  (forall f, cover f l = cover f k) /\ frames l = frames k.

#[export] Instance same_frames_equiv : Equivalence same_frames.
Proof.
  split.
  - by intros l.
  - intros l k [H1 H2]. split; [intros f; symmetry; apply H1 | by symmetry].
  - intros l k j [H1 H2] [H3 H4]. split; [intros f; by rewrite H1 | by rewrite H2].
Qed.

#[export] Instance same_frames_perm : Proper (Permutation ==> Permutation ==> iff) same_frames.
Proof.
  intros l l' P k k' Q. unfold same_frames. rewrite P, Q. split; intros [H1 H2]; (split; [| exact H2]);
    intros f; specialize (H1 f); by rewrite P, Q in *.
Qed.

#[export] Instance same_frames_app : Proper (same_frames ==> same_frames ==> same_frames) app.
Proof.
  intros l l' [H1 H2] k k' [H3 H4]. split; [intros f; by rewrite !cover_app, H1, H3 | by rewrite !frames_app, H2, H4].
Qed.

#[export] Instance same_frames_cons b : Proper (same_frames ==> same_frames) (cons b).
Proof. intros l l' [H1 H2]. split; simpl; [intros f; by rewrite H1 | by rewrite H2]. Qed.

Lemma same_halves s o l :
  0 <= o -> same_frames ((s, o + 1) :: l) ((s, o) :: (s + order_frames o, o) :: l).
Proof.
  intros Ho. split; simpl.
  - intros f. rewrite covers_halves by exact Ho. lia.
  - rewrite order_frames_succ by exact Ho. lia.
Qed.

Lemma split_down_spec n ls mt s found order :
  0 <= order <= found -> found <= MAX_ORDER -> n = Z.to_nat (found - order) -> block_ok (s, found) ->
  Forall block_ok (blocks ls) ->
  let ls' := split_down n ls mt s found order in
  block_ok (s, order) /\ Forall block_ok (blocks ls') /\
  same_frames ((s, found) :: blocks ls) ((s, order) :: blocks ls').
Proof.
  revert ls found. induction n as [| n IH]; intros ls found Ho Hf En Hs Hls; cbn [split_down].
  { replace order with found by lia. by split_and!. }
  rewrite (proj2 (Z.ltb_lt order found)) by lia. cbv zeta.
  replace found with (found - 1 + 1) in Hs by lia.
  destruct (halves_ok s (found - 1) Hs ltac:(lia)) as [H1 H2].
  pose proof (blocks_push ls mt (found - 1) (s + order_frames (found - 1)) ltac:(lia)) as P.
  destruct (IH (push ls mt (found - 1) (s + order_frames (found - 1))) (found - 1)) as (K1 & K2 & K3);
    [lia | lia | lia | exact H1 | by rewrite P; constructor |].
  split; [exact K1 |]. split; [exact K2 |]. rewrite <- K3, P.
  replace found with (found - 1 + 1) at 1 by lia. apply same_halves. lia.
Qed.

(** * Allocation *)

(** The zone invariant: well-formed blocks, and the count of free frames. *)
Record zone_ok (z : BuddyZone) : Prop := {
  zone_blocks : Forall block_ok (blocks z.(free_lists));
  zone_count : z.(free_frames) = frames (blocks z.(free_lists))
}.

(** Handing out [b] takes exactly its frames. *)
Definition takes (z : BuddyZone) (b : block) (z' : BuddyZone) : Prop :=
  block_ok b /\ zone_ok z' /\ z'.(total_frames) = z.(total_frames) /\
  same_frames (blocks z.(free_lists)) (b :: blocks z'.(free_lists)).

Lemma takes_split z mt dst found order s l :
  zone_ok z -> 0 <= order <= found -> found <= MAX_ORDER -> z.(free_lists) mt found ≡ₚ s :: l ->
  takes z (s, order)
    (mk_zone (split_down (Z.to_nat (found - order)) (set_list z.(free_lists) mt found l) dst s found order)
       z.(total_frames) (z.(free_frames) - order_frames order)).
Proof.
  intros [Hb Hc] Ho Hf P.
  pose proof (blocks_remove _ _ _ _ _ (conj (Z.le_trans _ _ _ (proj1 Ho) (proj2 Ho)) Hf) P) as R.
  rewrite R in Hb. inversion Hb as [| ? ? Hs Hrest]; subst.
  destruct (split_down_spec _ (set_list z.(free_lists) mt found l) dst s found order Ho Hf eq_refl Hs Hrest)
    as (K1 & K2 & K3).
  split; [exact K1 |]. split; [| split; [done |]]; cbn [free_lists].
  - split; [exact K2 |]. cbn [free_lists free_frames]. rewrite Hc, R.
    destruct K3 as [_ K3]. simpl in K3 |- *. lia.
  - by rewrite R.
Qed.

Lemma find_order_spec n l o r :
  find_order n l o = Some r -> o <= r <= MAX_ORDER /\ l r <> [].
Proof.
  revert o. induction n as [| n IH]; intros o; simpl; [done |].
  destruct (Z.ltb_spec MAX_ORDER o); [done |]. destruct (bool_decide_reflect (l o = [])); simpl.
  - intros E. apply IH in E. lia || (destruct E; split; [lia | done]).
  - intros [= <-]. split; [lia | done].
Qed.

Lemma find_order_none n l o r :
  find_order n l o = None -> o <= r <= MAX_ORDER -> (Z.to_nat (r - o) < n)%nat -> l r = [].
Proof.
  revert o. induction n as [| n IH]; intros o; simpl; [lia |].
  destruct (Z.ltb_spec MAX_ORDER o); [lia |]. destruct (bool_decide_reflect (l o = [])) as [E | E]; simpl; [| done].
  intros F Hr Hn. destruct (Z.eq_dec r o) as [-> |]; [exact E |]. apply (IH (o + 1)); [exact F | lia | lia].
Qed.

Lemma alloc_within_spec z order src dst :
  zone_ok z -> 0 <= order <= MAX_ORDER ->
  match alloc_within z order src dst with
  | Some (s, z') => takes z (s, order) z'
  | None => forall o, order <= o <= MAX_ORDER -> z.(free_lists) src o = []
  end.
Proof.
  intros Hz Ho. unfold alloc_within.
  destruct (find_order _ _ _) as [found |] eqn:F.
  2:{ intros o Hr. apply (find_order_none _ _ _ _ F Hr). unfold NUM_ORDERS. lia. }
  apply find_order_spec in F as [Hf Ne].
  destruct (pop (free_lists z src found)) as [[s l] |] eqn:P.
  2:{ unfold pop in P. destruct (last (free_lists z src found)) eqn:L; [done |]. by apply last_None in L. }
  apply pop_perm in P. apply takes_split; [exact Hz | lia | lia | exact P].
Qed.

Lemma alloc_from_spec z order srcs mt :
  zone_ok z -> 0 <= order <= MAX_ORDER ->
  match alloc_from z order srcs mt with
  | Some (s, z') => takes z (s, order) z'
  | None => forall src o, src ∈ srcs -> order <= o <= MAX_ORDER -> z.(free_lists) src o = []
  end.
Proof.
  intros Hz Ho. induction srcs as [| src srcs IH]; simpl; [intros src o H; by apply elem_of_nil in H |].
  pose proof (alloc_within_spec z order src mt Hz Ho) as A.
  destruct (alloc_within z order src mt) as [[s z'] |]; [exact A |].
  destruct (alloc_from z order srcs mt) as [[s z'] |]; [exact IH |].
  intros src' o [-> | H]%elem_of_cons Hr; auto.
Qed.

Lemma fallback_all mt src : src ∈ FALLBACK_ORDER mt.
Proof. destruct mt, src; apply (bool_decide_eq_true_1 _); reflexivity. Qed.

Lemma find_below_spec z o ceiling mt i :
  find_below z o ceiling mt = Some i ->
  exists s, z.(free_lists) mt o !! i = Some s /\ s + order_frames o <= ceiling.
Proof.
  unfold find_below. intros (s & E & L)%position_spec. apply Z.leb_le in L. eauto.
Qed.

Lemma find_below_none z o ceiling mt s :
  find_below z o ceiling mt = None -> s ∈ z.(free_lists) mt o -> ceiling < s + order_frames o.
Proof.
  unfold find_below. intros N H. apply (position_none _ _ _ N) in H. by apply Z.leb_gt in H.
Qed.

Lemma order_frames_mono o o' : 0 <= o <= o' -> order_frames o <= order_frames o'.
Proof. intros. rewrite !order_frames_pow by lia. apply Z.pow_le_mono_r; lia. Qed.

Lemma below_scan_spec n z src dst from order ceiling :
  zone_ok z -> 0 <= order <= from -> from + Z.of_nat n = NUM_ORDERS ->
  match below_scan n z src dst from order ceiling with
  | Some (s, z') => takes z (s, order) z' /\ s + order_frames order <= ceiling
  | None => forall o s, from <= o <= MAX_ORDER -> s ∈ z.(free_lists) src o -> ceiling < s + order_frames o
  end.
Proof.
  intros Hz. revert from. induction n as [| n IH]; intros from Ho En; simpl.
  { intros o s Hr. unfold NUM_ORDERS in En. lia. }
  destruct (find_below z from ceiling src) as [i |] eqn:F.
  - apply find_below_spec in F as (s & E & L). unfold take_at. rewrite E.
    pose proof (order_frames_mono order from Ho). split; [| lia].
    apply takes_split; [exact Hz | lia | unfold NUM_ORDERS in En; lia | by apply swap_remove_perm].
  - specialize (IH (from + 1) ltac:(lia) ltac:(lia)).
    destruct (below_scan n z src dst (from + 1) order ceiling) as [[s z'] |]; [exact IH |].
    intros o s Hr Hs. destruct (Z.eq_dec o from) as [-> |]; [by apply (find_below_none z from ceiling src) |].
    apply IH; [lia | exact Hs].
Qed.

Lemma below_from_spec z order ceiling srcs mt :
  zone_ok z -> 0 <= order <= MAX_ORDER ->
  match below_from z order ceiling srcs mt with
  | Some (s, z') => takes z (s, order) z' /\ s + order_frames order <= ceiling
  | None => forall src o s, src ∈ srcs -> order <= o <= MAX_ORDER -> s ∈ z.(free_lists) src o ->
              ceiling < s + order_frames o
  end.
Proof.
  intros Hz Ho. induction srcs as [| src srcs IH]; simpl; [intros src o s H; by apply elem_of_nil in H |].
  pose proof (below_scan_spec (Z.to_nat (NUM_ORDERS - order)) z src mt order order ceiling Hz) as A.
  unfold NUM_ORDERS in A at 2. specialize (A ltac:(lia) ltac:(unfold NUM_ORDERS; lia)).
  destruct (below_scan _ z src mt order order ceiling) as [[s z'] |]; [exact A |].
  destruct (below_from z order ceiling srcs mt) as [[s z'] |]; [exact IH |].
  intros src' o s [-> | H]%elem_of_cons Hr Hs; [by apply A | by apply (IH src')].
Qed.

(** * Freeing *)

Lemma lxor_1 q : 0 <= q -> Z.lxor q 1 = if Z.odd q then q - 1 else q + 1.
Proof. intros Hq. destruct q as [| p | p]; [done | destruct p; reflexivity | lia]. Qed.

(** The buddy of an aligned block is the other half of the block one order
    up. *)
Lemma buddy_cases s o :
  block_ok (s, o) -> o < MAX_ORDER ->
  let b := buddy_of s o in
  block_ok (Z.min s b, o + 1) /\
  ((b = s + order_frames o /\ Z.min s b = s) \/ (s = b + order_frames o /\ Z.min s b = b)).
Proof.
  unfold block_ok. cbn [fst snd]. intros (Ho & Hs & Hm) L. cbv zeta.
  pose proof (order_frames_pos o ltac:(lia)) as P. apply Z.mod_divide in Hm as [q ->]; [| lia].
  assert (Hq : 0 <= q) by nia.
  assert (E : buddy_of (q * order_frames o) o = Z.lxor q 1 * order_frames o).
  { unfold buddy_of. rewrite order_frames_pow, <- !Z.shiftl_mul_pow2, <- Z.shiftl_lxor by lia. done. }
  rewrite E, lxor_1, order_frames_succ by lia. pose proof (Z.div2_odd q) as D.
  destruct (Z.odd q); simpl Z.b2z in D; set (h := Z.div2 q) in *;
    assert (Hh : 0 <= h) by lia; assert (Hp : 0 <= h * (2 * order_frames o)) by nia.
  - replace (Z.min _ _) with (h * (2 * order_frames o)) by nia. split; [| right; nia].
    split_and!; [lia | lia | exact Hp | apply Z.mod_mul; lia].
  - replace (Z.min _ _) with (h * (2 * order_frames o)) by nia. split; [| left; nia].
    split_and!; [lia | lia | exact Hp | apply Z.mod_mul; lia].
Qed.

Lemma coalesce_spec n ls mt s o :
  block_ok (s, o) -> Forall block_ok (blocks ls) -> n = Z.to_nat (MAX_ORDER - o) ->
  let '(ls', s', o') := coalesce n ls mt s o in
  block_ok (s', o') /\ Forall block_ok (blocks ls') /\
  same_frames ((s, o) :: blocks ls) ((s', o') :: blocks ls').
Proof.
  revert ls s o. induction n as [| n IH]; intros ls s o Hs Hls En; simpl; [by split_and! |].
  destruct (Z.ltb_spec o MAX_ORDER) as [L | L]; [| by split_and!].
  destruct (position _ _) as [i |] eqn:P; [| by split_and!].
  apply position_spec in P as (b & Eb & Hb). apply Z.eqb_eq in Hb. subst b.
  assert (Ho : 0 <= o <= MAX_ORDER) by (destruct Hs; simpl in *; lia).
  pose proof (blocks_remove _ _ _ _ _ Ho (swap_remove_perm _ _ _ Eb)) as R.
  rewrite R in Hls. inversion Hls as [| ? ? _ Hrest]; subst.
  destruct (buddy_cases s o Hs L) as [Hm C].
  specialize (IH (set_list ls mt o (swap_remove (ls mt o) i)) (Z.min s (buddy_of s o)) (o + 1) Hm Hrest ltac:(lia)).
  destruct (coalesce n _ mt _ _) as [[ls' s'] o']. destruct IH as (K1 & K2 & K3).
  split; [exact K1 |]. split; [exact K2 |]. rewrite <- K3, R. symmetry.
  destruct C as [[Eq ->] | [Eq ->]].
  - rewrite Eq. apply same_halves. lia.
  - rewrite (perm_swap (buddy_of s o, o) (s, o)).
    pose proof (same_halves (buddy_of s o) o (blocks (set_list ls mt o (swap_remove (ls mt o) i))) ltac:(lia)) as H.
    by rewrite <- Eq in H.
Qed.

(** Giving [b] back adds exactly its frames. *)
Definition gives (z : BuddyZone) (b : block) (z' : BuddyZone) : Prop :=
  zone_ok z' /\ z'.(total_frames) = z.(total_frames) /\
  same_frames (b :: blocks z.(free_lists)) (blocks z'.(free_lists)).

Lemma free_inner_spec z s o mt :
  zone_ok z -> block_ok (s, o) -> exists z', free_inner z s o mt = Some z' /\ gives z (s, o) z'.
Proof.
  intros [Hb Hc] Hs. unfold free_inner.
  pose proof (coalesce_spec _ z.(free_lists) mt s o Hs Hb eq_refl) as C.
  destruct (coalesce _ _ _ _ _) as [[ls s'] o']. destruct C as (K1 & K2 & K3).
  assert (Ho : 0 <= o' <= MAX_ORDER) by (destruct K1; simpl in *; lia).
  rewrite (proj2 (Z.ltb_ge MAX_ORDER o')) by lia. eexists. split; [reflexivity |].
  pose proof (blocks_push ls mt o' s' Ho) as P. split; [| split; [done |]].
  - split; cbn [free_lists free_frames]; [rewrite P; by constructor |].
    rewrite P, Hc. destruct K3 as [_ K3]. simpl in K3 |- *. lia.
  - cbn [free_lists]. by rewrite P.
Qed.

(** * Donation *)

Lemma fit_order_spec n start end_ :
  0 <= start < end_ -> Z.of_nat n <= MAX_ORDER ->
  block_ok (start, fit_order n start end_) /\ start + order_frames (fit_order n start end_) <= end_.
Proof.
  intros Hs. induction n as [| n IH]; intros Hn; cbn [fit_order].
  - unfold block_ok. simpl. change (order_frames 0) with 1. rewrite Z.mod_1_r. unfold MAX_ORDER. lia.
  - destruct (_ && _) eqn:E; [| apply IH; lia]. reflect. split; [| lia].
    unfold block_ok. cbn [fst snd]. split_and!; try lia.
    rewrite order_frames_pow in H |- * by lia.
    replace (2 ^ Z.of_nat (S n) - 1) with (Z.ones (Z.of_nat (S n))) in H by (rewrite Z.ones_equiv; lia).
    by rewrite Z.land_ones in H by lia.
Qed.

Lemma donate_loop_spec n ls mt start end_ :
  0 <= start -> (Z.to_nat (end_ - start) <= n)%nat ->
  exists bs, blocks (donate_loop n ls mt start end_) ≡ₚ bs ++ blocks ls /\ Forall block_ok bs /\
    (forall f, cover f bs = Z.b2z ((start <=? f) && (f <? end_))) /\ frames bs = Z.max 0 (end_ - start).
Proof.
  revert ls start. induction n as [| n IH]; intros ls start Hs Hn; cbn [donate_loop].
  { exists []. split_and!; [done | constructor | | simpl; lia].
    intros f. destruct (Z.leb_spec start f), (Z.ltb_spec f end_); simpl; lia. }
  destruct (Z.ltb_spec start end_) as [L | L].
  2:{ exists []. split_and!; [done | constructor | | simpl; lia].
      intros f. destruct (Z.leb_spec start f), (Z.ltb_spec f end_); simpl; lia. }
  destruct (fit_order_spec (Z.to_nat MAX_ORDER) start end_) as [Hb He]; [lia | unfold MAX_ORDER; lia |].
  set (o := fit_order (Z.to_nat MAX_ORDER) start end_) in *.
  assert (Ho : 0 <= o <= MAX_ORDER) by (destruct Hb; simpl in *; lia).
  pose proof (order_frames_pos o ltac:(lia)) as P.
  destruct (IH (push ls mt o start) (start + order_frames o)) as (bs & E & F & C & S); [lia | lia |].
  exists ((start, o) :: bs). split_and!.
  - rewrite E, blocks_push by exact Ho. symmetry. apply Permutation_middle.
  - by constructor.
  - intros f. cbn [cover]. rewrite C. unfold covers. cbn [fst snd].
    destruct (Z.leb_spec start f), (Z.ltb_spec f (start + order_frames o)), (Z.leb_spec (start + order_frames o) f),
      (Z.ltb_spec f end_); simpl; lia.
  - cbn [frames snd]. rewrite S. lia.
Qed.

Lemma donate_as_spec z first count mt :
  zone_ok z -> 0 <= first -> 0 <= count ->
  let z' := donate_as z first count mt in
  zone_ok z' /\ z'.(total_frames) = z.(total_frames) + count /\
  exists bs, blocks z'.(free_lists) ≡ₚ bs ++ blocks z.(free_lists) /\ Forall block_ok bs /\
    (forall f, cover f bs = Z.b2z ((first <=? f) && (f <? first + count))) /\ frames bs = count.
Proof.
  intros [Hb Hc] Hf Hn. cbv zeta.
  destruct (donate_loop_spec (Z.to_nat count) z.(free_lists) mt first (first + count)) as (bs & E & F & C & S);
    [lia | lia |]. rewrite Z.max_r in S by lia.
  split; [| split; [done |]].
  - split; cbn [donate_as free_lists free_frames]; rewrite E; [by apply Forall_app |]. rewrite frames_app. lia.
  - exists bs. split_and!; auto. lia.
Qed.
