(* ===== verification/BuddyRange.v ===== *)
(** The range operations of the buddy allocator: removal of a free range and
    rebalancing between zones. *)

From S2P Require Import Prelude Word Buddy BuddyOps.
Import buddy.

Lemma slots_orders : Forall (fun q => 0 <= snd q <= MAX_ORDER) slots.
Proof. repeat constructor; simpl; unfold MAX_ORDER; lia. Qed.

(** * Removing a range *)

Section Range.
Context (lo hi : Z) (Hr : lo < hi).

Definition in_range (f : Z) : bool := (lo <=? f) && (f <? hi).

(** The frames of a block inside the range. *)
Definition inside (b : block) : Z :=
  Z.max 0 (Z.min (fst b + order_frames (snd b)) hi - Z.max (fst b) lo).

Fixpoint insides (bs : list block) : Z :=
  match bs with
  | [] => 0
  | b :: bs => inside b + insides bs
  end.

#[local] Instance insides_perm : Proper (Permutation ==> eq) insides.
Proof using Type. intros l l' P. induction P; simpl; lia. Qed.

Lemma insides_app l k : insides (l ++ k) = insides l + insides k.
Proof using Type. induction l; simpl; lia. Qed.

Lemma inside_halves s o :
  0 <= o -> inside (s, o + 1) = inside (s, o) + inside (s + order_frames o, o).
Proof using Hr.
  intros Ho. unfold inside. cbn [fst snd]. pose proof (order_frames_pos o Ho).
  rewrite order_frames_succ by exact Ho. lia.
Qed.

(** [l] trimmed to [k]: the frames outside the range stay, the others go. *)
Definition trims (l k : list block) : Prop :=
  (forall f, in_range f = false -> cover f l = cover f k) /\
  frames l - insides l = frames k - insides k.

#[local] Instance trims_equiv : Equivalence trims.
Proof using Type.
  split.
  - by intros l.
  - intros l k [H1 H2]. split; [intros f Hf; symmetry; auto | by symmetry].
  - intros l k j [H1 H2] [H3 H4]. split; [intros f Hf; rewrite H1; auto | by rewrite H2].
Qed.

Lemma trims_perm l l' k k' : l ≡ₚ l' -> k ≡ₚ k' -> trims l' k' -> trims l k.
Proof using Type.
  intros P Q [H1 H2]. split; [intros f Hf; rewrite P, Q; auto | by rewrite P, Q].
Qed.

Lemma trims_app l l' k k' : trims l l' -> trims k k' -> trims (l ++ k) (l' ++ k').
Proof using Type.
  intros [H1 H2] [H3 H4]. split; [intros f Hf; rewrite !cover_app, H1, H3; auto |].
  rewrite !frames_app, !insides_app. lia.
Qed.

(** The block lies outside the range. *)
Definition outside (o s : Z) : Prop := s + order_frames o <= lo \/ hi <= s.

Lemma trims_inside s o : lo <= s -> s + order_frames o <= hi -> trims [(s, o)] [].
Proof using Hr.
  intros H1 H2. split; cbn [cover frames insides].
  - intros f Hf. unfold covers, in_range in *. cbn [fst snd].
    destruct (Z.leb_spec s f), (Z.ltb_spec f (s + order_frames o)); simpl; try done.
    destruct (Z.leb_spec lo f), (Z.ltb_spec f hi); simpl in *; try done; lia.
  - unfold inside. cbn [fst snd]. assert (0 <= order_frames o) by (apply Z.shiftl_nonneg; lia). lia.
Qed.

Lemma retain_spec n ls mt s :
  block_ok (s, Z.of_nat n) ->
  exists bs, blocks (retain_outside_range n ls mt s lo hi) ≡ₚ bs ++ blocks ls /\ Forall block_ok bs /\
    trims [(s, Z.of_nat n)] bs.
Proof using Hr.
  revert ls s. induction n as [| n IH]; intros ls s Hs; cbn [retain_outside_range].
  all: pose proof (order_frames_pos (Z.of_nat 0) ltac:(lia)) as P0.
  all: destruct ((lo <=? s) && _) eqn:E1; [reflect |].
  1,3: exists []; split; [done |]; split; [by apply Forall_nil | by apply trims_inside].
  all: destruct ((_ <=? lo) || _) eqn:E2.
  1,3: eexists [(s, _)]; split; [apply blocks_push, Hs |]; split; [by apply Forall_singleton | done].
  - exfalso. apply andb_false_iff in E1. apply orb_false_iff in E2. change (order_frames (Z.of_nat 0)) with 1 in *.
    destruct E1, E2; reflect; lia.
  - replace (Z.of_nat (S n)) with (Z.of_nat n + 1) in * by lia.
    destruct (halves_ok s (Z.of_nat n) Hs ltac:(lia)) as [H1 H2].
    destruct (IH ls s H1) as (b1 & P1 & F1 & T1).
    destruct (IH (retain_outside_range n ls mt s lo hi) _ H2) as (b2 & P2 & F2 & T2).
    exists (b2 ++ b1). split; [rewrite P2, P1; by rewrite app_assoc |]. split; [by apply Forall_app |].
    transitivity [(s + order_frames (Z.of_nat n), Z.of_nat n); (s, Z.of_nat n)].
    + split; simpl; [intros f _; rewrite covers_halves by lia; lia |].
      rewrite inside_halves, order_frames_succ by lia. lia.
    + by apply (trims_app [_] b2 [_] b1).
Qed.

(** Which lists [retain_outside_range] may change. *)
Lemma retain_lists n ls mt s mt' o' :
  mt' <> mt \/ Z.of_nat n < o' \/ (Z.of_nat n = o' /\ ~ outside o' s) ->
  retain_outside_range n ls mt s lo hi mt' o' = ls mt' o'.
Proof using Type.
  revert ls s. induction n as [| n IH]; intros ls s H; cbn [retain_outside_range].
  all: destruct (_ && _); [done |].
  all: destruct (_ || _) eqn:E;
    [unfold push, set_list; rewrite decide_False; [done |]; intros [-> Eo];
     destruct H as [H | [H | [H N]]]; [done | lia |]; apply N; subst o';
     apply orb_true_iff in E as [E | E]; reflect; [left | right]; done |].
  - done.
  - rewrite !IH; [done | |]; (destruct H as [H | [H | [H _]]]; [by left | right; left; lia | right; left; lia]).
Qed.

Lemma take_swap_remove l i x : l !! i = Some x -> take i (swap_remove l i) = take i l.
Proof using Type.
  intros Hi. pose proof (lookup_lt_Some _ _ _ Hi) as L. unfold swap_remove.
  destruct (last l) as [y |] eqn:E; [| done]. rewrite take_take, Nat.min_l by lia. by apply take_insert_ge.
Qed.

Lemma length_swap_remove l i x : l !! i = Some x -> length l = S (length (swap_remove l i)).
Proof using Type. intros Hi. by rewrite (swap_remove_perm l i x Hi) at 1. Qed.

(** What a pass over some of the lists preserves. *)
Definition pass (ls ls' : MigrateType -> Z -> list Z) : Prop :=
  Forall block_ok (blocks ls') /\ trims (blocks ls) (blocks ls').

Lemma pass_trans ls ls' ls'' : pass ls ls' -> pass ls' ls'' -> pass ls ls''.
Proof using Type. intros [_ T] [F' T']. split; [exact F' | by transitivity (blocks ls')]. Qed.

(** One iteration of the scan that cuts a block. *)
Lemma cut_pass ls mt n i s :
  Z.of_nat n <= MAX_ORDER -> Forall block_ok (blocks ls) -> ls mt (Z.of_nat n) !! i = Some s ->
  pass ls (retain_outside_range n (set_list ls mt (Z.of_nat n) (swap_remove (ls mt (Z.of_nat n)) i)) mt s lo hi).
Proof using Hr.
  intros Hn F Hi. set (ls1 := set_list _ _ _ _).
  assert (P : blocks ls ≡ₚ (s, Z.of_nat n) :: blocks ls1).
  { apply blocks_remove; [lia |]. by apply swap_remove_perm. }
  rewrite P in F. apply Forall_cons in F as [Hs F1].
  destruct (retain_spec n ls1 mt s Hs) as (bs & Pb & Fb & Tb). split.
  - rewrite Pb. by apply Forall_app.
  - eapply (trims_perm _ ([_] ++ _)); [exact P | exact Pb | by apply trims_app].
Qed.

Lemma remove_scan_spec fuel ls mt n i :
  Z.of_nat n <= MAX_ORDER -> Forall block_ok (blocks ls) ->
  (length (ls mt (Z.of_nat n)) <= fuel + i)%nat ->
  Forall (outside (Z.of_nat n)) (take i (ls mt (Z.of_nat n))) ->
  let ls' := remove_scan fuel ls mt n i lo hi in
  pass ls ls' /\ Forall (outside (Z.of_nat n)) (ls' mt (Z.of_nat n)) /\
  (forall mt' o', mt' <> mt \/ Z.of_nat n < o' -> ls' mt' o' = ls mt' o').
Proof using Hr.
  intros Hn. revert ls i. induction fuel as [| fuel IH]; intros ls i F L O; cbn [remove_scan].
  { rewrite firstn_all2 in O by exact L. done. }
  destruct (ls mt (Z.of_nat n) !! i) as [s |] eqn:E.
  2: { apply lookup_ge_None in E. rewrite firstn_all2 in O by exact E. done. }
  destruct ((hi <=? s) || _) eqn:D.
  - apply IH; [done | lia |]. rewrite (take_S_r _ _ _ E). apply Forall_app. split; [done |].
    apply Forall_singleton. apply orb_true_iff in D as [D | D]; reflect; [by right | by left].
  - assert (N : ~ outside (Z.of_nat n) s) by (apply orb_false_iff in D as [D1 D2]; reflect; intros [? | ?]; lia).
    pose proof (cut_pass ls mt n i s Hn F E) as C.
    set (ls1 := set_list ls mt _ _) in *. set (ls2 := retain_outside_range n ls1 mt s lo hi) in *.
    assert (E2 : ls2 mt (Z.of_nat n) = swap_remove (ls mt (Z.of_nat n)) i).
    { unfold ls2. rewrite retain_lists by auto. apply set_same. }
    destruct (IH ls2 i) as (P & O' & K); [apply C | | |].
    + rewrite E2. pose proof (length_swap_remove _ _ _ E). lia.
    + by rewrite E2, (take_swap_remove _ _ _ E).
    + split; [by apply (pass_trans _ ls2) |]. split; [done |]. intros mt' o' H. rewrite K by done.
      unfold ls2. rewrite retain_lists by (destruct H; auto). unfold ls1, set_list.
      rewrite decide_False; [done |]. intros [-> ?]. destruct H; [done | lia].
Qed.

Lemma remove_orders_spec n ls mt :
  Z.of_nat n <= NUM_ORDERS -> Forall block_ok (blocks ls) ->
  let ls' := remove_orders n ls mt lo hi in
  pass ls ls' /\ (forall o, 0 <= o < Z.of_nat n -> Forall (outside o) (ls' mt o)) /\
  (forall mt' o', mt' <> mt \/ Z.of_nat n <= o' -> ls' mt' o' = ls mt' o').
Proof using Hr.
  revert ls. induction n as [| n IH]; intros ls Hn F; cbn [remove_orders].
  { split; [done |]. split; [lia | done]. }
  destruct (remove_scan_spec (length (ls mt (Z.of_nat n))) ls mt n 0) as (P & O & K);
    [unfold NUM_ORDERS, MAX_ORDER in *; lia | done | lia | by rewrite take_0 |].
  set (ls1 := remove_scan _ ls mt n 0 lo hi) in *.
  destruct (IH ls1) as (P' & O' & K'); [lia | apply P |].
  split; [by apply (pass_trans _ ls1) |]. split.
  - intros o Ho. destruct (decide (o = Z.of_nat n)) as [-> | No]; [| apply O'; lia].
    by rewrite K' by (right; lia).
  - intros mt' o' H. rewrite K', K; [done | |]; (destruct H; [by left | right; lia]).
Qed.

(** Both partitions: nothing in the range is left. *)
Lemma remove_both_spec ls :
  Forall block_ok (blocks ls) ->
  let ls' := remove_orders (Z.to_nat NUM_ORDERS) (remove_orders (Z.to_nat NUM_ORDERS) ls Unmovable lo hi) Movable lo hi in
  Forall block_ok (blocks ls') /\ frames (blocks ls') = frames (blocks ls) - insides (blocks ls) /\
  forall f, cover f (blocks ls') = if in_range f then 0 else cover f (blocks ls).
Proof using Hr.
  intros F. destruct (remove_orders_spec (Z.to_nat NUM_ORDERS) ls Unmovable) as (P1 & O1 & _); [done | done |].
  set (ls1 := remove_orders _ ls Unmovable lo hi) in *.
  destruct (remove_orders_spec (Z.to_nat NUM_ORDERS) ls1 Movable) as (P2 & O2 & K2); [done | apply P1 |].
  set (ls2 := remove_orders _ ls1 Movable lo hi) in *.
  destruct (pass_trans ls ls1 ls2 P1 P2) as [F2 [C2 T2]].
  assert (Out : Forall (fun b => outside (snd b) (fst b)) (blocks ls2)).
  { apply Forall_flat_map. apply Forall_forall. intros [mt o] Hin. pose proof (proj1 (Forall_forall _ _) slots_orders _ Hin) as Ho.
    simpl in Ho. apply Forall_fmap. change (Forall (outside o) (ls2 mt o)). unfold MAX_ORDER in Ho.
    destruct mt; [rewrite K2 by (by left); apply O1 | apply O2]; cbv -[Z.le Z.lt] in Ho |- *; lia. }
  assert (Hin : insides (blocks ls2) = 0 /\ forall f, in_range f = true -> cover f (blocks ls2) = 0).
  { clear -Out Hr. induction Out as [| [s o] bs Ho _ [IH1 IH2]]; [done |]. cbn [insides cover] in *. split.
    - rewrite IH1. unfold inside, outside in *. cbn [fst snd] in *. lia.
    - intros f Hf. rewrite IH2 by done. unfold covers, in_range, outside in *. cbn [fst snd] in *. reflect.
      destruct (Z.leb_spec s f), (Z.ltb_spec f (s + order_frames o)); simpl; lia. }
  split; [done |]. split; [lia |]. intros f. destruct (in_range f) eqn:E; [by apply Hin | by rewrite <- C2].
Qed.

(** The frames of the range, counted block by block and frame by frame. *)
Fixpoint range_cover (n : nat) (bs : list block) : Z :=
  match n with
  | O => 0
  | S n => cover (lo + Z.of_nat n) bs + range_cover n bs
  end.
End Range.

Lemma range_cover_cons lo n b bs : range_cover lo n (b :: bs) = range_cover lo n [b] + range_cover lo n bs.
Proof. induction n as [| n IH]; [done |]. cbn [range_cover cover] in *. lia. Qed.

Lemma range_cover_insides lo n bs :
  Forall block_ok bs -> range_cover lo n bs = insides lo (lo + Z.of_nat n) bs.
Proof.
  induction 1 as [| [s o] bs Hb _ IH]; [induction n as [| n IH]; simpl in *; lia |].
  rewrite range_cover_cons, IH. cbn [insides]. f_equal. clear IH. destruct Hb as [Ho _]. cbn [snd] in Ho.
  pose proof (order_frames_pos o ltac:(lia)). unfold inside. cbn [fst snd].
  induction n as [| n IH]; cbn [range_cover cover]; [lia |]. rewrite IH. unfold covers. cbn [fst snd].
  destruct (Z.leb_spec s (lo + Z.of_nat n)), (Z.ltb_spec (lo + Z.of_nat n) (s + order_frames o)); simpl; lia.
Qed.

(** With every frame covered at most once, the range is covered when the sum
    says so. *)
Lemma range_cover_full lo n bs :
  (forall f, cover f bs <= 1) ->
  range_cover lo n bs <= Z.of_nat n /\
  (range_cover lo n bs = Z.of_nat n <-> forall f, lo <= f < lo + Z.of_nat n -> cover f bs = 1).
Proof.
  intros H. induction n as [| n [IH1 IH2]]; cbn [range_cover]; [split; [done |]; split; [lia | done] |].
  pose proof (H (lo + Z.of_nat n)) as Hn. pose proof (cover_nonneg (lo + Z.of_nat n) bs). split; [lia |]. split.
  - intros E f Hf. destruct (decide (f = lo + Z.of_nat n)) as [-> | N]; [lia |]. apply IH2; lia.
  - intros A. rewrite (A (lo + Z.of_nat n)), (proj2 IH2) by (intros; apply A + idtac; lia). lia.
Qed.

Lemma range_hole lo n bs :
  (forall f, cover f bs <= 1) -> 0 <= n ->
  ~ (forall f, lo <= f < lo + n -> cover f bs = 1) ->
  exists f, lo <= f < lo + n /\ cover f bs = 0.
Proof.
  intros H Hn N. rewrite <- (Z2Nat.id n Hn) in *. clear Hn. induction (Z.to_nat n) as [| k IH].
  { exfalso. apply N. lia. }
  destruct (decide (cover (lo + Z.of_nat k) bs = 0)) as [E | E]; [exists (lo + Z.of_nat k); split; [lia | done] |].
  destruct IH as (f & Hf & Cf); [| exists f; split; [lia | done]].
  intros A. apply N. intros f Hf. pose proof (H f). pose proof (cover_nonneg f bs).
  destruct (decide (f = lo + Z.of_nat k)) as [-> | ?]; [lia | apply A; lia].
Qed.

Lemma covered_by_spec bs lo hi acc :
  0 <= acc -> lo < hi -> hi <= U64_MAX ->
  covered_by bs lo hi acc = if decide (bs = []) then acc else Z.min U64_MAX (acc + insides lo hi bs).
Proof.
  intros Ha Hr Hh.
  assert (G : forall acc, 0 <= acc -> Z.min U64_MAX (covered_by bs lo hi acc) = Z.min U64_MAX (acc + insides lo hi bs)).
  { clear Ha acc. induction bs as [| [s o] bs IH]; intros acc Ha; cbn [covered_by insides]; [f_equal; lia |].
    assert (E : overlap s (order_frames o) lo hi = inside lo hi (s, o)).
    { unfold overlap, inside, sat_add. cbn [fst snd]. destruct (Z.ltb_spec (Z.max s lo) (Z.min (Z.min U64_MAX (s + order_frames o)) hi)); lia. }
    assert (0 <= inside lo hi (s, o)) by (unfold inside; lia).
    assert (0 <= insides lo hi bs) by (clear; induction bs; simpl; [lia | unfold inside at 1; lia]).
    rewrite IH by (unfold sat_add; lia). rewrite E. unfold sat_add. lia. }
  destruct (decide (bs = [])) as [-> | N]; [done |]. rewrite <- G by done. symmetry. apply Z.min_r.
  clear G. revert acc Ha. induction bs as [| [s o] bs IH]; [done |]. intros acc Ha. cbn [covered_by].
  destruct (decide (bs = [])) as [-> | N']; [simpl; unfold sat_add; lia |]. apply IH; [done |].
  unfold sat_add, overlap. destruct (_ <? _) eqn:E; reflect; lia.
Qed.

Lemma remove_free_range_cases z first count :
  zone_ok z -> (forall f, cover f (blocks z.(free_lists)) <= 1) ->
  0 <= first -> 0 <= count -> first + count <= U64_MAX ->
  match remove_free_range z first count with
  | (true, z') =>
      0 < count /\ (forall f, first <= f < first + count -> cover f (blocks z.(free_lists)) = 1) /\
      zone_ok z' /\ z'.(total_frames) = z.(total_frames) - count /\ z'.(free_frames) = z.(free_frames) - count /\
      forall f, cover f (blocks z'.(free_lists)) =
                if in_range first (first + count) f then 0 else cover f (blocks z.(free_lists))
  | (false, z') =>
      z' = z /\ (count = 0 \/
                 exists f, first <= f < first + count /\ cover f (blocks z.(free_lists)) = 0)
  end.
Proof.
  intros [Hb Hc] H1 Hf Hn Hm. unfold remove_free_range.
  destruct (Z.eqb_spec count 0) as [-> | N]; [by auto |].
  replace (sat_add first count) with (first + count) by (unfold sat_add; lia). cbv zeta.
  destruct (Z.leb_spec (first + count) first); [lia |].
  pose proof (range_cover_full first (Z.to_nat count) _ H1) as [L Q].
  rewrite (range_cover_insides _ _ _ Hb), !Z2Nat.id in L, Q by lia.
  rewrite covered_by_spec by lia. destruct (decide (blocks (free_lists z) = [])) as [E | NE].
  { destruct (Z.eqb_spec 0 count); [lia |]. simpl. split; [done |]. right. exists first. rewrite E. simpl. split; [lia | done]. }
  rewrite Z.add_0_l, Z.min_r by lia.
  destruct (Z.eqb_spec (insides first (first + count) (blocks (free_lists z))) count) as [Es | Ne]; cbn [negb].
  - destruct (remove_both_spec first (first + count) ltac:(lia) _ Hb) as (F & Fr & C).
    split; [lia |]. split; [by apply Q |]. split; [| done]. split; cbn [free_lists free_frames]; [done | lia].
  - split; [done |]. right. apply range_hole; [done | done |]. intros A. apply Ne, Q, A.
Qed.

(** * Draining *)

(** [z'] and [d'] after the blocks [moved] of [z] went to [d]. *)
Definition moves (p : Z -> bool) (z d z' d' : BuddyZone) : Prop :=
  exists moved, blocks z.(free_lists) ≡ₚ moved ++ blocks z'.(free_lists) /\
    blocks d'.(free_lists) ≡ₚ moved ++ blocks d.(free_lists) /\
    Forall (fun b => p (fst b) = true) moved /\ zone_ok z' /\ zone_ok d' /\
    z'.(total_frames) = z.(total_frames) - frames moved /\
    d'.(total_frames) = d.(total_frames) + frames moved.

Lemma moves_refl p z d : zone_ok z -> zone_ok d -> moves p z d z d.
Proof. intros Hz Hd. exists []. split_and!; auto; simpl; lia. Qed.

Lemma moves_ok p z d z' d' : moves p z d z' d' -> zone_ok z' /\ zone_ok d'.
Proof. intros (? & ?). tauto. Qed.

Lemma moves_trans p z d z1 d1 z2 d2 : moves p z d z1 d1 -> moves p z1 d1 z2 d2 -> moves p z d z2 d2.
Proof.
  intros (m1 & P1 & Q1 & F1 & _ & _ & T1 & U1) (m2 & P2 & Q2 & F2 & Z2 & D2 & T2 & U2).
  exists (m1 ++ m2). split_and!; auto; [by rewrite P1, P2, app_assoc | | by apply Forall_app | |];
    rewrite ?frames_app; try lia.
  rewrite Q2, Q1, !app_assoc. f_equiv. apply Permutation_app_comm.
Qed.

Lemma moves_one (p : Z -> bool) z d mt o i s :
  zone_ok z -> zone_ok d -> 0 <= o <= MAX_ORDER -> z.(free_lists) mt o !! i = Some s -> p s = true ->
  moves p z d
    (mk_zone (set_list z.(free_lists) mt o (swap_remove (z.(free_lists) mt o) i))
       (z.(total_frames) - order_frames o) (z.(free_frames) - order_frames o))
    (mk_zone (push d.(free_lists) mt o s) (d.(total_frames) + order_frames o) (d.(free_frames) + order_frames o)).
Proof.
  intros [Zb Zc] [Db Dc] Ho E Ps.
  pose proof (blocks_remove _ _ _ _ _ Ho (swap_remove_perm _ _ _ E)) as R.
  pose proof (blocks_push d.(free_lists) mt o s Ho) as P.
  rewrite R in Zb. apply Forall_cons in Zb as [Hs Zr].
  exists [(s, o)]. cbn [free_lists total_frames free_frames frames snd]. split_and!; auto; try lia.
  - split; cbn [free_lists free_frames]; [exact Zr |]. rewrite Zc, R. simpl. lia.
  - split; cbn [free_lists free_frames]; [rewrite P; by constructor |]. rewrite Dc, P. simpl. lia.
Qed.

Lemma drain_scan_spec fuel z d p mt o i z' d' :
  zone_ok z -> zone_ok d -> 0 <= o <= MAX_ORDER ->
  (length (z.(free_lists) mt o) <= fuel + i)%nat ->
  Forall (fun s => p s = false) (take i (z.(free_lists) mt o)) ->
  drain_scan fuel z d p mt o i = (z', d') ->
  moves p z d z' d' /\ Forall (fun s => p s = false) (z'.(free_lists) mt o) /\
  forall mt' o', (mt', o') <> (mt, o) -> z'.(free_lists) mt' o' = z.(free_lists) mt' o'.
Proof.
  intros Hz Hd Ho. revert z d i Hz Hd. induction fuel as [| fuel IH]; intros z d i Hz Hd L O; simpl.
  { intros [= <- <-]. rewrite firstn_all2 in O by exact L. split; [by apply moves_refl | done]. }
  destruct (free_lists z mt o !! i) as [s |] eqn:E.
  2: { intros [= <- <-]. apply lookup_ge_None in E. rewrite firstn_all2 in O by exact E.
       split; [by apply moves_refl | done]. }
  destruct (p s) eqn:Ps.
  - pose proof (moves_one p z d mt o i s Hz Hd Ho E Ps) as M. intros D.
    destruct (moves_ok _ _ _ _ _ M) as [Mz Md].
    destruct (IH _ _ i Mz Md) with (3 := D) as (M' & O' & K).
    + cbn [free_lists]. rewrite set_same. pose proof (length_swap_remove _ _ _ E). lia.
    + cbn [free_lists]. by rewrite set_same, (take_swap_remove _ _ _ E).
    + split; [by eapply moves_trans |]. split; [done |]. intros mt' o' N. rewrite K by done. cbn [free_lists].
      unfold set_list. rewrite decide_False; [done |]. intros [-> ->]. by apply N.
  - apply IH; auto; [lia |]. rewrite (take_S_r _ _ _ E). apply Forall_app. split; [done | by apply Forall_singleton].
Qed.

Lemma drain_fold_spec p ps z d z' d' :
  zone_ok z -> zone_ok d -> NoDup ps -> Forall (fun q => 0 <= snd q <= MAX_ORDER) ps ->
  foldl (drain_slot p) (z, d) ps = (z', d') ->
  moves p z d z' d' /\
  (forall mt o, (mt, o) ∈ ps -> Forall (fun s => p s = false) (z'.(free_lists) mt o)) /\
  forall mt o, (mt, o) ∉ ps -> z'.(free_lists) mt o = z.(free_lists) mt o.
Proof.
  intros Hz Hd ND Hp. revert z d Hz Hd. induction Hp as [| [mt o] ps Ho _ IH]; intros z d Hz Hd; simpl.
  { intros [= <- <-]. split; [by apply moves_refl |]. split; [by intros ? ? ?%not_elem_of_nil | done]. }
  destruct (drain_scan _ z d p mt o 0) as [z1 d1] eqn:E. intros D. apply NoDup_cons in ND as [N ND].
  apply drain_scan_spec in E as (M1 & O1 & K1); [| done | done | done | simpl; lia | by rewrite take_0].
  destruct (moves_ok _ _ _ _ _ M1) as [Hz1 Hd1].
  destruct (IH ND z1 d1 Hz1 Hd1 D) as (M2 & O2 & K2). split; [by eapply moves_trans |]. split.
  - intros mt' o' [Eq | In]%elem_of_cons; [| by apply O2]. injection Eq as -> ->. by rewrite K2.
  - intros mt' o' [Ne Ni]%not_elem_of_cons. by rewrite K2, K1.
Qed.

Lemma drain_into_cases p z d z' d' :
  zone_ok z -> zone_ok d -> drain_into z d p = (z', d') ->
  moves p z d z' d' /\ Forall (fun b => p (fst b) = false) (blocks z'.(free_lists)).
Proof.
  intros Hz Hd D. destruct (drain_fold_spec p slots z d z' d' Hz Hd slots_NoDup slots_orders D) as (M & O & _).
  split; [done |]. apply Forall_flat_map, Forall_forall. intros [mt o] Hin. apply Forall_fmap. by apply (O mt o).
Qed.
