(* ===== verification/BuddyHeap.v ===== *)
(** The buddy allocator over time: donation, allocation, removal and release
    as steps of a heap, the bound on the free lists, and the overlap check. *)

From stdpp Require Import relations.
From S2P Require Import Prelude Word Buddy BuddyOps BuddyRange.
Import buddy.

(** * The allocator over time *)

(** A zone with the blocks its users hold. *)
Record Heap : Type := mk_heap { zone : BuddyZone; held : list block }.

(** Donations of frames the heap does not know, the two allocators, the
    removal of a free range, and the release of a held block into either
    partition. *)
Inductive hstep : Heap -> Heap -> Prop :=
| H_donate z h first count mt :
    0 <= first -> 0 <= count ->
    (forall f, first <= f < first + count -> cover f (blocks z.(free_lists) ++ h) = 0) ->
    hstep (mk_heap z h) (mk_heap (donate_as z first count mt) h)
| H_alloc z h order mt s z' :
    0 <= order -> alloc_mt z order mt = Some (s, z') ->
    hstep (mk_heap z h) (mk_heap z' ((s, order) :: h))
| H_alloc_below z h order ceiling mt s z' :
    0 <= order -> alloc_below_mt z order ceiling mt = Some (s, z') ->
    hstep (mk_heap z h) (mk_heap z' ((s, order) :: h))
| H_remove z h first count z' :
    0 <= first -> 0 <= count -> first + count <= U64_MAX ->
    remove_free_range z first count = (true, z') ->
    hstep (mk_heap z h) (mk_heap z' h)
| H_free z h s o h' mt z' :
    h ≡ₚ (s, o) :: h' -> free_mt z s o mt = Some z' ->
    hstep (mk_heap z h) (mk_heap z' h').

(** Every frame is covered at most once, by a free or by a held block; the
    counters are the numbers of free and of donated frames. *)
Record heap_ok (x : Heap) : Prop := {
  heap_zone : zone_ok x.(zone);
  heap_held : Forall block_ok x.(held);
  heap_once : forall f, cover f (blocks x.(zone).(free_lists) ++ x.(held)) <= 1;
  heap_total : x.(zone).(total_frames) = frames (blocks x.(zone).(free_lists) ++ x.(held))
}.

Lemma blocks_new : blocks (free_lists new) = [].
Proof. reflexivity. Qed.

Lemma heap_new : heap_ok (mk_heap new []).
Proof.
  split; simpl; rewrite ?blocks_new; [split; rewrite ?blocks_new; done | done | |]; simpl; intros; lia.
Qed.

Lemma alloc_mt_spec z order mt :
  zone_ok z -> 0 <= order ->
  match alloc_mt z order mt with
  | Some (s, z') => takes z (s, order) z'
  | None => forall src o, order <= o <= MAX_ORDER -> z.(free_lists) src o = []
  end.
Proof.
  intros Hz Ho. unfold alloc_mt. destruct (Z.ltb_spec MAX_ORDER order); [lia |].
  pose proof (alloc_from_spec z order (FALLBACK_ORDER mt) mt Hz ltac:(lia)) as A.
  destruct (alloc_from _ _ _ _) as [[s z'] |]; [exact A |]. intros src o. apply A, fallback_all.
Qed.

Lemma alloc_below_mt_spec z order ceiling mt :
  zone_ok z -> 0 <= order ->
  match alloc_below_mt z order ceiling mt with
  | Some (s, z') => takes z (s, order) z' /\ s + order_frames order <= ceiling
  | None => forall src o s, order <= o <= MAX_ORDER -> s ∈ z.(free_lists) src o ->
              ceiling < s + order_frames o
  end.
Proof.
  intros Hz Ho. unfold alloc_below_mt. destruct (Z.ltb_spec MAX_ORDER order); [lia |].
  pose proof (below_from_spec z order ceiling (FALLBACK_ORDER mt) mt Hz ltac:(lia)) as A.
  destruct (below_from _ _ _ _ _) as [[s z'] |]; [exact A |]. intros src o s. apply A, fallback_all.
Qed.

Lemma heap_takes z h b z' : heap_ok (mk_heap z h) -> takes z b z' -> heap_ok (mk_heap z' (b :: h)).
Proof.
  intros [Hz Hh Ho Ht] (Hb & Hz' & Et & [Ec Ef]). split; cbn [zone held] in *; auto.
  - intros f. specialize (Ho f). rewrite cover_app in *. rewrite Ec in Ho. simpl in *. lia.
  - rewrite Et, Ht, !frames_app, Ef. simpl. lia.
Qed.

Lemma heap_remove z h first count z' :
  heap_ok (mk_heap z h) -> 0 <= first -> 0 <= count -> first + count <= U64_MAX ->
  remove_free_range z first count = (true, z') -> heap_ok (mk_heap z' h).
Proof.
  intros [Hz Hh Ho Ht] Hf Hn Hm E. cbn [zone held] in *.
  assert (H1 : forall f, cover f (blocks z.(free_lists)) <= 1).
  { intros f. specialize (Ho f). rewrite cover_app in Ho. pose proof (cover_nonneg f h). lia. }
  pose proof (remove_free_range_cases z first count Hz H1 Hf Hn Hm) as C. rewrite E in C.
  destruct C as (_ & _ & Hz' & Et & Ef & Ec). split; cbn [zone held]; auto.
  - intros f. specialize (Ho f). rewrite cover_app in *. rewrite Ec. pose proof (cover_nonneg f (blocks z.(free_lists))).
    destruct (in_range _ _ _); lia.
  - rewrite Et, Ht, !frames_app, <- (zone_count _ Hz), <- (zone_count _ Hz'). lia.
Qed.

Lemma hstep_ok x y : heap_ok x -> hstep x y -> heap_ok y.
Proof.
  intros I St. destruct St as [z h first count mt Hf Hn Hd | z h order mt s z' Ho E
    | z h order ceiling mt s z' Ho E | z h first count z' Hf Hn Hm E | z h s o h' mt z' P E].
  - destruct I as [Hz Hh Ho Ht]. cbn [zone held] in *.
    destruct (donate_as_spec z first count mt Hz Hf Hn) as (Hz' & Et & bs & Eb & _ & Cb & Fb).
    split; cbn [zone held]; auto.
    + intros f. specialize (Ho f). specialize (Hd f). rewrite Eb, cover_app in *. rewrite cover_app, Cb in *.
      destruct (Z.leb_spec first f), (Z.ltb_spec f (first + count)); simpl in *; lia.
    + rewrite Et, Ht, Eb, !frames_app. lia.
  - pose proof (alloc_mt_spec z order mt (heap_zone _ I) Ho) as A. rewrite E in A. by apply (heap_takes z).
  - pose proof (alloc_below_mt_spec z order ceiling mt (heap_zone _ I) Ho) as A. rewrite E in A.
    destruct A as [A _]. by apply (heap_takes z).
  - by apply (heap_remove z h first count).
  - destruct I as [Hz Hh Ho Ht]. cbn [zone held] in *. rewrite P in Hh. inversion Hh as [| ? ? Hb Hh']; subst.
    destruct (free_inner_spec z s o mt Hz Hb) as (z'' & E' & Hz' & Et & [Ec Ef]).
    unfold free_mt in E. rewrite E' in E. injection E as <-. split; cbn [zone held]; auto.
    + intros f. specialize (Ho f). rewrite P, cover_app in Ho. rewrite cover_app, <- Ec. simpl in *. lia.
    + rewrite Et, Ht, P, !frames_app, <- Ef. simpl. lia.
Qed.

Lemma steps_heap_ok x y : rtc hstep x y -> heap_ok x -> heap_ok y.
Proof. induction 1 as [| x y w S _ IH]; [done |]. intros I. apply IH. by apply (hstep_ok x). Qed.

Lemma reachable_heap_ok x : rtc hstep (mk_heap new []) x -> heap_ok x.
Proof. intros R. by apply (steps_heap_ok _ _ R heap_new). Qed.

(** * List lengths *)

Lemma frames_list o (l : list Z) : frames ((fun s => (s, o)) <$> l) = Z.of_nat (length l) * order_frames o.
Proof. induction l as [| s l IH]; [done |]. cbn [fmap list_fmap frames snd length] in *. lia. Qed.

Lemma list_length_bound z mt o :
  zone_ok z -> 0 <= o <= MAX_ORDER ->
  Z.of_nat (length (z.(free_lists) mt o)) * order_frames o <= z.(free_frames).
Proof.
  intros [Hb Hc] Ho. destruct (blocks_slot z.(free_lists) mt o Ho) as [rest R].
  specialize (R (z.(free_lists) mt o)). rewrite blocks_self in R. rewrite Hc, R, frames_app, frames_list.
  rewrite R in Hb. apply Forall_app in Hb as [_ Hr]. pose proof (frames_nonneg rest Hr). lia.
Qed.

Lemma length_shift n t o : 0 <= o -> 0 <= n -> n * order_frames o <= t -> n <= Z.shiftr t o.
Proof.
  intros Ho Hn L. rewrite Z.shiftr_div_pow2 by lia. rewrite order_frames_pow in L by lia.
  apply Z.div_le_lower_bound; [apply Z.pow_pos_nonneg; lia | lia].
Qed.

(** * The overlap check *)

Lemma covers_iff f s o : covers f (s, o) = true <-> s <= f < s + order_frames o.
Proof. unfold covers. cbn [fst snd]. rewrite andb_true_iff, Z.leb_le, Z.ltb_lt. lia. Qed.

Lemma first_overlap_none sa oa bs :
  0 <= oa -> Forall block_ok bs -> first_overlap sa oa bs = None <->
  forall f, covers f (sa, oa) = true -> cover f bs = 0.
Proof.
  intros Ho Hbs. pose proof (order_frames_pos oa Ho) as Pa.
  induction Hbs as [| [sb ob] bs [Hb _] _ IH]; simpl; [done |]. simpl in Hb.
  pose proof (order_frames_pos ob ltac:(lia)) as Pb. split.
  - destruct ((sa <? _) && (sb <? _)) eqn:E; [done |]. intros N f Cf.
    rewrite (proj1 IH N f Cf). apply covers_iff in Cf.
    destruct (covers f (sb, ob)) eqn:Cb; [| done]. apply covers_iff in Cb.
    apply andb_false_iff in E as [E | E]; reflect; lia.
  - intros H. destruct ((sa <? _) && (sb <? _)) eqn:E.
    + reflect. specialize (H (Z.max sa sb)).
      rewrite (proj2 (covers_iff (Z.max sa sb) sb ob)) in H by lia. pose proof (cover_nonneg (Z.max sa sb) bs).
      simpl in H. rewrite (proj2 (covers_iff (Z.max sa sb) sa oa)) in H by lia. lia.
    + apply IH. intros f Cf. specialize (H f Cf). pose proof (cover_nonneg f bs).
      destruct (covers f (sb, ob)); simpl in H; lia.
Qed.

Lemma validate_spec bs :
  Forall block_ok bs -> validate_blocks bs = Ok tt <-> forall f, cover f bs <= 1.
Proof.
  induction 1 as [| [s o] bs Hb Hbs IH]; simpl; [intuition lia |].
  assert (Ho : 0 <= o) by (destruct Hb; simpl in *; lia).
  pose proof (first_overlap_none s o bs Ho Hbs) as F. split.
  - destruct (first_overlap s o bs); [done |]. intros V f.
    pose proof (proj1 IH V f). destruct (covers f (s, o)) eqn:C; simpl; [| lia].
    rewrite (proj1 F eq_refl f C). lia.
  - intros H. rewrite (proj2 F).
    + apply IH. intros f. specialize (H f). destruct (covers f (s, o)); simpl in H; lia.
    + intros f C. specialize (H f). rewrite C in H. simpl in H. pose proof (cover_nonneg f bs). lia.
Qed.


(** * Which lists an allocation reads and writes *)

Lemma alloc_within_some z order src dst r :
  alloc_within z order src dst = Some r -> exists o, order <= o <= MAX_ORDER /\ z.(free_lists) src o <> [].
Proof.
  unfold alloc_within. destruct (find_order _ _ _) as [o |] eqn:F; [| done]. intros _.
  exists o. exact (find_order_spec _ _ _ _ F).
Qed.

Lemma alloc_from_some z order srcs mt r :
  alloc_from z order srcs mt = Some r -> exists src o, order <= o <= MAX_ORDER /\ z.(free_lists) src o <> [].
Proof.
  induction srcs as [| src srcs IH]; simpl; [done |].
  destruct (alloc_within z order src mt) as [q |] eqn:E; [| exact IH]. intros _.
  exists src. exact (alloc_within_some _ _ _ _ _ E).
Qed.

Lemma split_down_lists n ls mt s found order mt' o :
  mt' <> mt -> split_down n ls mt s found order mt' o = ls mt' o.
Proof.
  intros N. revert ls found. induction n as [| n IH]; intros ls found; simpl; [done |].
  destruct (order <? found); [| done]. rewrite IH. unfold push, set_list. rewrite decide_False; [done | tauto].
Qed.

Lemma alloc_within_lists z order mt s z' mt' o :
  mt' <> mt -> alloc_within z order mt mt = Some (s, z') -> z'.(free_lists) mt' o = z.(free_lists) mt' o.
Proof.
  intros N. unfold alloc_within. destruct (find_order _ _ _) as [fo |]; simpl; [| done].
  destruct (pop _) as [[f l] |]; simpl; [| done]. intros [= _ <-]. cbn [free_lists].
  rewrite split_down_lists by done. unfold set_list. rewrite decide_False; [done | tauto].
Qed.

Lemma fallback_head mt : exists srcs, FALLBACK_ORDER mt = mt :: srcs.
Proof. destruct mt; by eexists. Qed.

(** * Filters *)

Lemma filter_keep {A} (P : A -> Prop) `{!forall x, Decision (P x)} (l : list A) : Forall P l -> filter P l = l.
Proof. induction 1 as [| x l Hx _ IH]; [done |]. by rewrite filter_cons_True, IH. Qed.

Lemma filter_drop {A} (P : A -> Prop) `{!forall x, Decision (P x)} (l : list A) :
  Forall (fun x => ~ P x) l -> filter P l = [].
Proof. induction 1 as [| x l Hx _ IH]; [done |]. by rewrite filter_cons_False, IH. Qed.

(** * Properties *)

(** C6: In every heap reachable from the empty zone by donations, allocations,
    removals and releases, no frame is covered twice, by free or held blocks;
    every held block has an order of the zone and is naturally aligned; and
    the two counters are the numbers of free frames and of all frames. *)
Theorem heap_never_double_covers x :
  rtc hstep (mk_heap new []) x ->
  (forall f, cover f (blocks x.(zone).(free_lists) ++ x.(held)) <= 1) /\
  Forall block_ok x.(held) /\ Forall block_ok (blocks x.(zone).(free_lists)) /\
  free_frame_count x.(zone) = frames (blocks x.(zone).(free_lists)) /\
  total_frame_count x.(zone) = frames (blocks x.(zone).(free_lists) ++ x.(held)).
Proof.
  intros R. destruct (reachable_heap_ok x R) as [[Hb Hc] Hh Ho Ht]. done.
Qed.

(** [alloc_mt] fails exactly when every list of the two partitions from the
    requested order up is empty; otherwise it takes a naturally aligned block
    of that order whose frames were free: the frames of the zone after it and
    of the block are those of the zone before. *)
Lemma alloc_exact z order mt :
  zone_ok z -> 0 <= order <= MAX_ORDER ->
  match alloc_mt z order mt with
  | Some (s, z') =>
      s mod order_frames order = 0 /\ zone_ok z' /\ z'.(total_frames) = z.(total_frames) /\
      free_frame_count z' = free_frame_count z - order_frames order /\
      (exists src o, order <= o <= MAX_ORDER /\ z.(free_lists) src o <> []) /\
      forall f, cover f (blocks z.(free_lists)) = Z.b2z (covers f (s, order)) + cover f (blocks z'.(free_lists))
  | None => forall src o, order <= o <= MAX_ORDER -> z.(free_lists) src o = []
  end.
Proof.
  intros Hz Ho. pose proof (alloc_mt_spec z order mt Hz ltac:(lia)) as A.
  destruct (alloc_mt z order mt) as [[s z'] |] eqn:E; [| exact A].
  destruct A as ((_ & _ & Al) & Hz' & Et & [Ec Ef]). split_and!; auto.
  2: { revert E. unfold alloc_mt. destruct (MAX_ORDER <? order); [done |]. apply alloc_from_some. }
  unfold free_frame_count. rewrite (zone_count _ Hz), (zone_count _ Hz'), Ef. simpl. lia.
Qed.

(** The zone of the witnesses: frames 0 to 8191 and 8192 to 8199. *)
Definition zone0 : BuddyZone := donate_as (donate_as new 0 8192 Unmovable) 8192 8 Movable.

Lemma zone0_ok : zone_ok zone0 /\ forall f, cover f (blocks zone0.(free_lists)) <= 1.
Proof.
  assert (D1 := donate_as_spec new 0 8192 Unmovable (heap_zone _ heap_new) ltac:(lia) ltac:(lia)).
  destruct D1 as (Z1 & _ & b1 & P1 & _ & C1 & _).
  assert (D2 := donate_as_spec _ 8192 8 Movable Z1 ltac:(lia) ltac:(lia)).
  destruct D2 as (Z2 & _ & b2 & P2 & _ & C2 & _). split; [exact Z2 |]. intros f.
  unfold zone0. rewrite P2, P1, blocks_new, !cover_app, C1, C2. cbn [cover].
  destruct (Z.leb_spec 0 f), (Z.ltb_spec f (0 + 8192)), (Z.leb_spec 8192 f), (Z.ltb_spec f (8192 + 8));
    cbn [andb Z.b2z]; lia.
Qed.

Lemma heap_never_double_covers_witness :
  cover 8195 (blocks zone0.(free_lists) ++ []) <= 1.
Proof.
  apply (heap_never_double_covers (mk_heap zone0 [])).
  apply (rtc_l _ _ (mk_heap (donate_as new 0 8192 Unmovable) [])); [by apply H_donate |].
  apply rtc_once. apply H_donate; [lia | lia |]. intros f Hf. rewrite app_nil_r.
  destruct (donate_as_spec new 0 8192 Unmovable (heap_zone _ heap_new) ltac:(lia) ltac:(lia))
    as (_ & _ & b1 & P1 & _ & C1 & _). rewrite P1, blocks_new, app_nil_r, C1.
  destruct (Z.leb_spec 0 f), (Z.ltb_spec f (0 + 8192)); simpl; lia.
Defined.

Lemma alloc_exact_witness :
  match alloc_mt zone0 2 Movable with Some (s, z') => s = 8192 /\ s mod order_frames 2 = 0 | None => False end.
Proof.
  pose proof (alloc_exact zone0 2 Movable (proj1 zone0_ok) ltac:(unfold MAX_ORDER; lia)) as A.
  destruct (alloc_mt zone0 2 Movable) as [[s z'] |] eqn:E; vm_compute in E; [| discriminate].
  injection E as <- _. split; [reflexivity | apply A].
Defined.

(** Grouping by mobility: [alloc_mt] changes the lists of the other
    migrate type only when its own partition has no block of the requested
    order or above. *)
Lemma alloc_steals_last z order mt s z' mt' o :
  zone_ok z -> 0 <= order <= MAX_ORDER -> alloc_mt z order mt = Some (s, z') ->
  mt' <> mt -> z'.(free_lists) mt' o <> z.(free_lists) mt' o ->
  forall o', order <= o' <= MAX_ORDER -> z.(free_lists) mt o' = [].
Proof.
  intros Hz Ho E N D. revert E. unfold alloc_mt. rewrite (proj2 (Z.ltb_ge _ _)) by lia.
  destruct (fallback_head mt) as [srcs ->]. cbn [alloc_from].
  pose proof (alloc_within_spec z order mt mt Hz Ho) as A.
  destruct (alloc_within z order mt mt) as [[s1 z1] |] eqn:W; [| done].
  intros [= -> ->]. by destruct D; apply (alloc_within_lists z order mt s).
Qed.

Lemma alloc_steals_last_witness :
  zone0.(free_lists) Movable 7 = [].
Proof.
  destruct (alloc_mt zone0 4 Movable) as [[s z'] |] eqn:E; [| vm_compute in E; discriminate].
  apply (alloc_steals_last zone0 4 Movable s z' Unmovable 13); [apply zone0_ok | unfold MAX_ORDER; lia | exact E | done | | unfold MAX_ORDER; lia].
  vm_compute in E. injection E as _ <-. vm_compute. discriminate.
Defined.

(** [alloc_below_mt] returns a block that ends at or below the ceiling,
    with the effect of an allocation; it fails only when no free block of
    the requested order or above lies whole below the ceiling. *)
Lemma alloc_below_exact z order ceiling mt :
  zone_ok z -> 0 <= order <= MAX_ORDER ->
  match alloc_below_mt z order ceiling mt with
  | Some (s, z') =>
      s + order_frames order <= ceiling /\ s mod order_frames order = 0 /\
      zone_ok z' /\ z'.(total_frames) = z.(total_frames) /\
      free_frame_count z' = free_frame_count z - order_frames order /\
      forall f, cover f (blocks z.(free_lists)) = Z.b2z (covers f (s, order)) + cover f (blocks z'.(free_lists))
  | None => forall src o s, order <= o <= MAX_ORDER -> s ∈ z.(free_lists) src o -> ceiling < s + order_frames o
  end.
Proof.
  intros Hz Ho. pose proof (alloc_below_mt_spec z order ceiling mt Hz ltac:(lia)) as A.
  destruct (alloc_below_mt z order ceiling mt) as [[s z'] |]; [| exact A].
  destruct A as (((_ & _ & Al) & Hz' & Et & [Ec Ef]) & L). split_and!; auto.
  unfold free_frame_count. rewrite (zone_count _ Hz), (zone_count _ Hz'), Ef. simpl. lia.
Qed.

Lemma alloc_below_exact_witness :
  match alloc_below_mt zone0 3 8192 Movable with Some (s, _) => s = 0 /\ s + order_frames 3 <= 8192 | None => False end.
Proof.
  pose proof (alloc_below_exact zone0 3 8192 Movable (proj1 zone0_ok) ltac:(unfold MAX_ORDER; lia)) as A.
  destruct (alloc_below_mt zone0 3 8192 Movable) as [[s z'] |] eqn:E; vm_compute in E; [| discriminate].
  injection E as <- _. split; [reflexivity | apply A].
Defined.

(** A block that straddles the ceiling is never split for its lower part:
    with frames 0 and 1 free as one block, an allocation of one frame below
    frame 1 fails although frame 0 is free and below the ceiling. *)
Lemma alloc_below_skips_straddling :
  let z := donate_as new 0 2 Unmovable in
  cover 0 (blocks z.(free_lists)) = 1 /\ alloc_below_mt z 0 1 Unmovable = None /\
  alloc_below_mt z 0 2 Unmovable <> None.
Proof. split_and!; vm_compute; congruence. Qed.

(** [free_mt] returns (it never indexes past the top list) for a block of
    an order of the zone at an aligned frame; the frames of the zone after it
    are those before it and the frames of the block, whatever it coalesces
    with, and the free count grows by the size of the block. *)
Lemma free_exact z s o mt :
  zone_ok z -> block_ok (s, o) ->
  exists z', free_mt z s o mt = Some z' /\ zone_ok z' /\ z'.(total_frames) = z.(total_frames) /\
    free_frame_count z' = free_frame_count z + order_frames o /\
    forall f, cover f (blocks z'.(free_lists)) = Z.b2z (covers f (s, o)) + cover f (blocks z.(free_lists)).
Proof.
  intros Hz Hb. destruct (free_inner_spec z s o mt Hz Hb) as (z' & E & Hz' & Et & [Ec Ef]).
  exists z'. split_and!; auto.
  - unfold free_frame_count. rewrite (zone_count _ Hz), (zone_count _ Hz'), <- Ef. simpl. lia.
  - intros f. by rewrite <- Ec.
Qed.

Lemma free_exact_witness :
  exists z', free_mt zone0 8200 3 Movable = Some z' /\ free_frame_count z' = 8208.
Proof.
  destruct (free_exact zone0 8200 3 Movable (proj1 zone0_ok)) as (z' & E & _ & _ & C & _).
  - split; [unfold MAX_ORDER; simpl; lia |]. split; [simpl; lia | reflexivity].
  - exists z'. split; [exact E | rewrite C; vm_compute; reflexivity].
Defined.

(** The capacity [reserve_growth_capacity] gives the free lists in a
    reachable heap [x] is enough for every heap reached from it later, as long
    as the frames of the zone are no more than at the reservation: each free
    list still fits it. *)
Lemma lists_fit_reserved_capacity x y mt o :
  rtc hstep (mk_heap new []) x -> rtc hstep x y ->
  total_frame_count y.(zone) <= total_frame_count x.(zone) -> 0 <= o <= MAX_ORDER ->
  Z.of_nat (length (y.(zone).(free_lists) mt o)) <= reserved_capacity (total_frame_count x.(zone)) o.
Proof.
  intros Rx Ry T Ho. destruct (steps_heap_ok x y Ry (reachable_heap_ok x Rx)) as [Hz Hh _ Ht].
  pose proof (list_length_bound y.(zone) mt o Hz Ho) as L. unfold total_frame_count in T.
  assert (free_frames (zone y) <= total_frames (zone y)).
  { rewrite Ht, frames_app, (zone_count _ Hz). pose proof (frames_nonneg _ Hh). lia. }
  pose proof (length_shift (Z.of_nat (length (free_lists (zone y) mt o))) (total_frames (zone x)) o) as B.
  specialize (B ltac:(lia) ltac:(lia) ltac:(lia)). unfold reserved_capacity, total_frame_count. lia.
Qed.

Lemma lists_fit_reserved_capacity_witness :
  exists s z', alloc_mt (donate_as new 1 3 Movable) 0 Movable = Some (s, z') /\
    Z.of_nat (length (z'.(free_lists) Movable 1)) <= 128.
Proof.
  set (z := donate_as new 1 3 Movable).
  assert (R : rtc hstep (mk_heap new []) (mk_heap z [])).
  { apply rtc_once. apply H_donate; [lia | lia | reflexivity]. }
  destruct (alloc_mt z 0 Movable) as [[s z'] |] eqn:E; [| vm_compute in E; discriminate].
  exists s, z'. split; [reflexivity |].
  apply (lists_fit_reserved_capacity (mk_heap z []) (mk_heap z' [(s, 0)]) Movable 1 R);
    [apply rtc_once; by apply (H_alloc z [] 0 Movable) | | unfold MAX_ORDER; lia].
  vm_compute in E. injection E as _ <-. vm_compute. discriminate.
Defined.

(** [validate_no_overlap] accepts a zone exactly when no frame is covered
    by two of its free blocks. *)
Lemma overlap_check_exact z :
  zone_ok z -> validate_no_overlap z = Ok tt <-> forall f, cover f (blocks z.(free_lists)) <= 1.
Proof. intros [Hb _]. by apply validate_spec. Qed.

Lemma overlap_check_exact_witness : validate_no_overlap zone0 = Ok tt.
Proof. apply (overlap_check_exact zone0); apply zone0_ok. Defined.

(** C26: [remove_free_range] takes a range that is not empty out of a zone exactly when every
    frame of it is free: then none is free afterwards, the other frames keep
    their state and both counters fall by the length of the range; otherwise
    the zone is unchanged. *)
Theorem remove_free_range_exact z first count :
  zone_ok z -> (forall f, cover f (blocks z.(free_lists)) <= 1) ->
  0 <= first -> 0 < count -> first + count <= U64_MAX ->
  (fst (remove_free_range z first count) = true <->
   forall f, first <= f < first + count -> cover f (blocks z.(free_lists)) = 1) /\
  match remove_free_range z first count with
  | (true, z') =>
      zone_ok z' /\ z'.(total_frames) = z.(total_frames) - count /\
      free_frame_count z' = free_frame_count z - count /\
      forall f, cover f (blocks z'.(free_lists)) =
                if in_range first (first + count) f then 0 else cover f (blocks z.(free_lists))
  | (false, z') => z' = z
  end.
Proof.
  intros Hz H1 Hf Hn Hm. pose proof (remove_free_range_cases z first count Hz H1 Hf ltac:(lia) Hm) as C.
  destruct (remove_free_range z first count) as [[|] z']; simpl.
  - destruct C as (_ & A & C). split; [split; auto |]. exact C.
  - destruct C as (E & [C | (f & Rf & Cf)]); [lia |]. split; [| exact E]. split; [done |].
    intros A. specialize (A f Rf). lia.
Qed.

Lemma remove_free_range_exact_witness :
  match remove_free_range zone0 8191 3 with (true, z') => free_frame_count z' = 8197 | _ => False end.
Proof.
  destruct (remove_free_range_exact zone0 8191 3 (proj1 zone0_ok) (proj2 zone0_ok)) as [_ A];
    [lia | lia | vm_compute; discriminate |].
  assert (E : fst (remove_free_range zone0 8191 3) = true) by (vm_compute; reflexivity).
  destruct (remove_free_range zone0 8191 3) as [[|] z']; [| discriminate].
  destruct A as (_ & _ & -> & _). vm_compute. reflexivity.
Defined.

(** [drain_into] moves exactly the free blocks whose start satisfies the
    predicate: they are the blocks the destination gains, no block left in
    the source satisfies it, both zones stay well formed and the frame totals
    move with the blocks. *)
Lemma drain_moves_exactly z d p z' d' :
  zone_ok z -> zone_ok d -> drain_into z d p = (z', d') ->
  zone_ok z' /\ zone_ok d' /\
  blocks z'.(free_lists) ≡ₚ filter (fun b => p (fst b) = false) (blocks z.(free_lists)) /\
  blocks d'.(free_lists) ≡ₚ filter (fun b => p (fst b) = true) (blocks z.(free_lists)) ++ blocks d.(free_lists) /\
  total_frame_count z' + total_frame_count d' = total_frame_count z + total_frame_count d /\
  total_frame_count d' - total_frame_count d =
    frames (filter (fun b => p (fst b) = true) (blocks z.(free_lists))).
Proof.
  intros Hz Hd D. destruct (drain_into_cases p z d z' d' Hz Hd D) as ((mv & P & Q & F & Hz' & Hd' & T & U) & N).
  assert (E1 : filter (fun b => p (fst b) = true) (blocks z.(free_lists)) ≡ₚ mv).
  { rewrite P, filter_app, (filter_keep _ mv F), (filter_drop _ (blocks z'.(free_lists))), app_nil_r; [done |].
    eapply Forall_impl; [exact N |]. intros b E. simpl. by rewrite E. }
  assert (E2 : filter (fun b => p (fst b) = false) (blocks z.(free_lists)) ≡ₚ blocks z'.(free_lists)).
  { rewrite P, filter_app, (filter_keep _ _ N), (filter_drop _ mv); [done |].
    eapply Forall_impl; [exact F |]. intros b E. simpl. by rewrite E. }
  unfold total_frame_count. rewrite E1, E2. split_and!; auto; lia.
Qed.

Lemma drain_moves_exactly_witness :
  let '(z', d') := drain_into zone0 new (fun f => 8192 <=? f) in
  total_frame_count d' - total_frame_count new = 8 /\ zone_ok z'.
Proof.
  destruct (drain_into zone0 new (fun f => 8192 <=? f)) as [z' d'] eqn:E.
  destruct (drain_moves_exactly zone0 new _ z' d' (proj1 zone0_ok) (heap_zone _ heap_new) E)
    as (Hz & _ & _ & _ & _ & T). split; [rewrite T; vm_compute; reflexivity | exact Hz].
Defined.
