(* ===== verification/Lz4.v ===== *)
(** The LZ4 block codec ([memory/src/compress.rs]).

    Bytes are [Z] in [0 .. 255] and a position is a [usize].  A slice holds
    fewer than 2^63 bytes, so a sum of positions inside slices does not
    overflow; the sums that do not come from positions (the lengths the decoder
    reads, the encoder's skip counter) wrap.  [None] is a panic, or a loop that
    outlives its fuel; the totality theorems exclude both.  An operation that
    takes [output: &mut [u8]] returns its result with the buffer it leaves. *)

From S2P Require Import Prelude Word Slice.

Inductive CompressError : Type := OutputTooSmall | MalformedInput | ShortInput.

Definition lz4_max_compressed_len (input_len : Z) : Z :=
  wrap 64 (wrap 64 (input_len + input_len / 255) + 16).

Definition HASH_LOG : Z := 12.
Definition HASH_SIZE : Z := Z.shiftl 1 HASH_LOG.
Definition HASH_MASK : Z := HASH_SIZE - 1.
Definition MFLIMIT : Z := 12.
Definition LAST_LITERALS : Z := 5.
Definition MIN_MATCH : Z := 4.
Definition U16_MAX : Z := 65535.

Definition hash4 (seq : Z) : Z :=
  Z.land (Z.shiftr (wrap 32 (seq * 2654435761)) (32 - HASH_LOG)) HASH_MASK.

Definition read_u32_le (src : list Z) (pos : Z) : option Z :=
  let* w := slice src pos 4 in Some (le_value w).

(** * Encoder *)

(** The bytes after a nibble that is saturated: [while remaining >= 255 ...]
    and the byte below 255 that ends it. *)
Fixpoint emit_extension (fuel : nat) (output : list Z) (op remaining : Z) : option (list Z * Z) :=
  if 255 <=? remaining then
    match fuel with
    | O => None
    | S fuel =>
        let* output := set_at output op 0xFF in
        emit_extension fuel output (op + 1) (remaining - 255)
    end
  else
    let* output := set_at output op (wrap 8 remaining) in
    Some (output, op + 1).

(** The token with the literal length in its high nibble, and the bytes that
    continue it. *)
Definition emit_literal_len (output : list Z) (token_idx literal_len : Z) : option (list Z * Z) :=
  if 15 <=? literal_len then
    let* output := set_at output token_idx 0xF0 in
    emit_extension (Z.to_nat literal_len) output (token_idx + 1) (literal_len - 15)
  else
    let* output := set_at output token_idx (wshl 8 (wrap 8 literal_len) 4) in
    Some (output, token_idx + 1).

Definition emit_last_literals (input : list Z) (anchor : Z) (output : list Z) (op : Z)
  : option (Result Z CompressError * list Z) :=
  let lastlen := zlen input - anchor in
  if zlen output <? op + 1 + lastlen + lastlen / 255 then Some (Err OutputTooSmall, output)
  else
    let* r := emit_literal_len output op lastlen in
    let '(output, op) := r in
    let* lits := slice input anchor lastlen in
    let* output := write_slice output op lits in
    Some (Ok (op + lastlen), output).

(** The inner [loop]: the token position, the candidate and the offset of a
    match, with the table it leaves. *)
Fixpoint find_match (fuel : nat) (input table : list Z) (mflimit forward step search_match_nb : Z)
  : option (option (Z * Z * Z) * list Z) :=
  match fuel with
  | O => None
  | S fuel =>
      let* w := read_u32_le input forward in
      let h := hash4 w in
      let* candidate := get_at table h in
      let* table := set_at table h (wrap 16 forward) in
      let token_pos := forward in
      let forward := wrap 64 (forward + step) in
      let step := Z.shiftr search_match_nb 6 in
      let search_match_nb := wrap 32 (search_match_nb + 1) in
      let continue_ := find_match fuel input table mflimit forward step search_match_nb in
      if mflimit <=? forward then Some (None, table)
      else if candidate =? U16_MAX then continue_
      else
        let offset := wrap 64 (token_pos - candidate) in
        if (offset =? 0) || (65535 <? offset) then continue_
        else
          let* a := read_u32_le input candidate in
          let* b := read_u32_le input token_pos in
          if a =? b then Some (Some (token_pos, candidate, offset), table) else continue_
  end.

Definition search_fuel (input : list Z) : nat := 66 * S (length input).

(** [while ip > anchor && match_ref > 0 && input[ip - 1] == input[match_ref - 1]]. *)
Fixpoint extend_back (fuel : nat) (input : list Z) (anchor ip match_ref : Z) : option (Z * Z) :=
  if (anchor <? ip) && (0 <? match_ref) then
    let* a := get_at input (ip - 1) in
    let* b := get_at input (match_ref - 1) in
    if a =? b then
      match fuel with O => None | S fuel => extend_back fuel input anchor (ip - 1) (match_ref - 1) end
    else Some (ip, match_ref)
  else Some (ip, match_ref).

(** [while ip < matchlimit && input[ip] == input[match_ref]]. *)
Fixpoint extend_forward (fuel : nat) (input : list Z) (matchlimit ip match_ref match_len : Z) : option (Z * Z) :=
  if ip <? matchlimit then
    let* a := get_at input ip in
    let* b := get_at input match_ref in
    if a =? b then
      match fuel with
      | O => None
      | S fuel => extend_forward fuel input matchlimit (ip + 1) (match_ref + 1) (match_len + 1)
      end
    else Some (ip, match_len)
  else Some (ip, match_len).

(** The token, the literal run [input[anchor..ip]] and the offset. *)
Definition emit_literals (input output : list Z) (op anchor ip offset : Z) : option (list Z * Z) :=
  let literal_len := ip - anchor in
  let* r := emit_literal_len output op literal_len in
  let '(output, op) := r in
  let* lits := slice input anchor literal_len in
  let* output := write_slice output op lits in
  let op := op + literal_len in
  let* output := set_at output op (wrap 8 offset) in
  let* output := set_at output (op + 1) (wrap 8 (Z.shiftr offset 8)) in
  Some (output, op + 2).

(** The low nibble of the token and the bytes that continue it. *)
Definition emit_match_len (output : list Z) (token_idx op match_len : Z) : option (list Z * Z) :=
  let ml_code := match_len - MIN_MATCH in
  let* token := get_at output token_idx in
  if 15 <=? ml_code then
    let* output := set_at output token_idx (Z.lor token 0x0F) in
    emit_extension (Z.to_nat ml_code) output op (ml_code - 15)
  else
    let* output := set_at output token_idx (Z.lor token (wrap 8 ml_code)) in
    Some (output, op).

Record Encoder : Type := mk_encoder {
  enc_table : list Z;
  enc_ip : Z;
  enc_anchor : Z;
  enc_output : list Z;
  enc_op : Z
}.

(** One iteration of ['main]; [None] inside is [break 'main]. *)
Definition encode_step (input : list Z) (mflimit matchlimit : Z) (s : Encoder) : option (option Encoder) :=
  let* found := find_match (search_fuel input) input s.(enc_table) mflimit s.(enc_ip) 1 (Z.shiftl 1 6) in
  let '(match_pos, table) := found in
  match match_pos with
  | None => Some None
  | Some (ip, match_ref, offset) =>
      let* r := extend_back (length input) input s.(enc_anchor) ip match_ref in
      let '(ip, match_ref) := r in
      let token_idx := s.(enc_op) in
      let* r := emit_literals input s.(enc_output) s.(enc_op) s.(enc_anchor) ip offset in
      let '(output, op) := r in
      let* r := extend_forward (length input) input matchlimit (ip + MIN_MATCH) (match_ref + MIN_MATCH) MIN_MATCH in
      let '(ip, match_len) := r in
      let* r := emit_match_len output token_idx op match_len in
      let '(output, op) := r in
      let anchor := ip in
      if ip <? mflimit then
        let* w := read_u32_le input ip in
        let* table := set_at table (hash4 w) (wrap 16 ip) in
        Some (Some (mk_encoder table (ip + 1) anchor output op))
      else Some (Some (mk_encoder table ip anchor output op))
  end.

Fixpoint encode_loop (fuel : nat) (input : list Z) (mflimit matchlimit : Z) (s : Encoder) : option Encoder :=
  if s.(enc_ip) <? mflimit then
    match fuel with
    | O => None
    | S fuel =>
        let* r := encode_step input mflimit matchlimit s in
        match r with
        | None => Some s
        | Some s => encode_loop fuel input mflimit matchlimit s
        end
    end
  else Some s.

Definition lz4_encode (input output : list Z) : option (Result Z CompressError * list Z) :=
  if zlen output <? lz4_max_compressed_len (zlen input) then Some (Err OutputTooSmall, output)
  else if zlen input <? MFLIMIT + MIN_MATCH then emit_last_literals input 0 output 0
  else
    let table := replicate (Z.to_nat HASH_SIZE) U16_MAX in
    let in_len := zlen input in
    let mflimit := in_len - MFLIMIT in
    let matchlimit := in_len - LAST_LITERALS in
    let* first := read_u32_le input 0 in
    let* table := set_at table (hash4 first) 0 in
    let* s := encode_loop (length input) input mflimit matchlimit (mk_encoder table 1 0 output 0) in
    emit_last_literals input s.(enc_anchor) s.(enc_output) s.(enc_op).

(** * Decoder *)

(** The bytes that continue a saturated nibble; [None] inside is the end of the
    input before the byte below 255. *)
Fixpoint read_extension (fuel : nat) (input : list Z) (ip len : Z) : option (option (Z * Z)) :=
  match fuel with
  | O => None
  | S fuel =>
      if zlen input <=? ip then Some None
      else
        let* b := get_at input ip in
        let ip := ip + 1 in
        let len := wrap 64 (len + b) in
        if negb (b =? 0xFF) then Some (Some (ip, len)) else read_extension fuel input ip len
  end.

(** A length: the nibble of the token, continued when it is saturated. *)
Definition read_length (input : list Z) (ip nibble : Z) : option (option (Z * Z)) :=
  if nibble =? 15 then read_extension (S (length input)) input ip nibble else Some (Some (ip, nibble)).

(** [for i in 0..match_len { output[op + i] = output[match_src + i] }]. *)
Fixpoint copy_match (n : nat) (output : list Z) (op match_src : Z) : option (list Z) :=
  match n with
  | O => Some output
  | S n =>
      let* b := get_at output match_src in
      let* output := set_at output op b in
      copy_match n output (op + 1) (match_src + 1)
  end.

Inductive Decoding : Type :=
  | Done (r : Result Z CompressError) (output : list Z)
  | More (ip op : Z) (output : list Z).

(** The match of a sequence: offset, length and copy. *)
Definition decode_match (input output : list Z) (token ip op : Z) : option Decoding :=
  if zlen input <? ip + 2 then Some (Done (Err MalformedInput) output)
  else
    let* lo := get_at input ip in
    let* hi := get_at input (ip + 1) in
    let offset := Z.lor lo (Z.shiftl hi 8) in
    let ip := ip + 2 in
    if (offset =? 0) || (op <? offset) then Some (Done (Err MalformedInput) output)
    else
      let* r := read_length input ip (Z.land token 0x0F) in
      match r with
      | None => Some (Done (Err MalformedInput) output)
      | Some (ip, match_len) =>
          let match_len := wrap 64 (match_len + MIN_MATCH) in
          if zlen output <? wrap 64 (op + match_len) then Some (Done (Err OutputTooSmall) output)
          else
            let match_src := op - offset in
            let* output := copy_match (Z.to_nat match_len) output op match_src in
            Some (More ip (op + match_len) output)
      end.

(** One iteration of the [loop]. *)
Definition decode_step (input output : list Z) (ip op : Z) : option Decoding :=
  if zlen input <=? ip then Some (Done (Err MalformedInput) output)
  else
    let* token := get_at input ip in
    let ip := ip + 1 in
    let* r := read_length input ip (Z.shiftr token 4) in
    match r with
    | None => Some (Done (Err MalformedInput) output)
    | Some (ip, lit_len) =>
        if zlen input <? wrap 64 (ip + lit_len) then Some (Done (Err MalformedInput) output)
        else if zlen output <? wrap 64 (op + lit_len) then Some (Done (Err OutputTooSmall) output)
        else
          let* lits := slice input ip lit_len in
          let* output := write_slice output op lits in
          let op := op + lit_len in
          let ip := ip + lit_len in
          if ip =? zlen input then Some (Done (Ok op) output)
          else decode_match input output token ip op
    end.

Fixpoint decode_loop (fuel : nat) (input output : list Z) (ip op : Z) : option (Result Z CompressError * list Z) :=
  match fuel with
  | O => None
  | S fuel =>
      let* d := decode_step input output ip op in
      match d with
      | Done r output => Some (r, output)
      | More ip op output => decode_loop fuel input output ip op
      end
  end.

Definition lz4_decode (input output : list Z) : option (Result Z CompressError * list Z) :=
  if zlen input =? 0 then Some (Err ShortInput, output)
  else decode_loop (S (length input)) input output 0 0.

(** [test_helpers::roundtrip]. *)
Definition roundtrip (input : list Z) : option (Result (list Z) CompressError) :=
  let* e := lz4_encode input (replicate (Z.to_nat (lz4_max_compressed_len (zlen input))) 0) in
  let '(r, enc) := e in
  match r with
  | Err e => Some (Err e)
  | Ok n =>
      let* src := slice enc 0 n in
      let* d := lz4_decode src (replicate (length input) 0) in
      let '(r, dec) := d in
      match r with
      | Err e => Some (Err e)
      | Ok m => Some (Ok (take (Z.to_nat m) dec))
      end
  end.
