(* ===== verification/Lz4Format.v ===== *)
(** The LZ4 block format as a specification, and the decoder of [Lz4] against
    it: a block is a list of sequences and the closing literals, with the bytes
    it is written as and the value it denotes.  The decoder accepts exactly the
    bytes of well-formed blocks. *)

From S2P Require Import Prelude Word Slice Lz4.

(** * The format *)

Record Sequence : Type := mk_sequence { literals : list Z; offset : Z; match_len : Z }.

Record Block : Type := mk_block { sequences : list Sequence; last_nibble : Z; trailing : list Z }.

(** The bytes that continue a saturated nibble, for the excess [n]. *)
Definition extension (n : Z) : list Z := replicate (Z.to_nat (n / 255)) 255 ++ [n mod 255].

Definition nibble (n : Z) : Z := Z.min n 15.

Definition extended (n : Z) : list Z := if 15 <=? n then extension (n - 15) else [].

Definition sequence_bytes (s : Sequence) : list Z :=
  (nibble (zlen s.(literals)) * 16 + nibble (s.(match_len) - 4)) ::
  extended (zlen s.(literals)) ++ s.(literals) ++
  [s.(offset) mod 256; s.(offset) / 256] ++ extended (s.(match_len) - 4).

Definition block_bytes (b : Block) : list Z :=
  flat_map sequence_bytes b.(sequences) ++
  (nibble (zlen b.(trailing)) * 16 + b.(last_nibble)) :: extended (zlen b.(trailing)) ++ b.(trailing).

(** A match copies byte by byte, so it may read what it has just written. *)
Fixpoint repeat_match (n off : nat) (acc : list Z) : list Z :=
  match n with
  | O => acc
  | S n => repeat_match n off (acc ++ [nth (length acc - off) acc 0])
  end.

Definition sequence_value (acc : list Z) (s : Sequence) : list Z :=
  repeat_match (Z.to_nat s.(match_len)) (Z.to_nat s.(offset)) (acc ++ s.(literals)).

Definition block_value (b : Block) : list Z := foldl sequence_value [] b.(sequences) ++ b.(trailing).

(** A sequence that may follow [acc]: its match starts inside what is decoded. *)
Record sequence_ok (acc : list Z) (s : Sequence) : Prop := {
  ok_literals : Forall (is_u 8) s.(literals);
  ok_offset : 1 <= s.(offset) <= 65535;
  ok_reach : s.(offset) <= zlen acc + zlen s.(literals);
  ok_match : 4 <= s.(match_len)
}.

Fixpoint sequences_ok (acc : list Z) (ss : list Sequence) : Prop :=
  match ss with
  | [] => True
  | s :: ss => sequence_ok acc s /\ sequences_ok (sequence_value acc s) ss
  end.

Record block_ok (b : Block) : Prop := {
  ok_sequences : sequences_ok [] b.(sequences);
  ok_nibble : is_u 4 b.(last_nibble);
  ok_trailing : Forall (is_u 8) b.(trailing)
}.

(** * Lengths *)

Lemma read_run pre k r post fuel len :
  (k < fuel)%nat -> 0 <= r < 255 -> 0 <= len -> len + 255 * Z.of_nat k + r < 2 ^ 64 ->
  read_extension fuel (pre ++ replicate k 255 ++ r :: post) (zlen pre) len =
    Some (Some (zlen pre + Z.of_nat k + 1, len + 255 * Z.of_nat k + r)).
Proof.
  revert pre fuel len. induction k as [| k IH]; intros pre [| fuel] len Hf Hr Hl Hs; try lia; cbn [replicate app read_extension].
  - rewrite get_app_r, (proj2 (Z.leb_gt _ _)) by (rewrite zlen_app, zlen_cons; pose proof (zlen_nonneg post); lia).
    rewrite (proj2 (Z.eqb_neq r 255)) by lia. cbn [negb]. rewrite wrap_small by (unfold is_u; lia). do 3 f_equal; lia.
  - rewrite get_app_r, (proj2 (Z.leb_gt _ _)) by (rewrite zlen_app, zlen_cons; pose proof (zlen_nonneg (replicate k 255 ++ r :: post)); lia).
    change (255 =? 255) with true. cbn [negb]. rewrite wrap_small by (unfold is_u; lia).
    replace (pre ++ 255 :: replicate k 255 ++ r :: post) with ((pre ++ [255]) ++ replicate k 255 ++ r :: post) by by rewrite <- app_assoc.
    replace (zlen pre + 1) with (zlen (pre ++ [255])) by (rewrite zlen_app; done).
    rewrite IH by lia. rewrite zlen_app. do 3 f_equal; unfold zlen; simpl length; lia.
Qed.

Lemma read_run_short pre k fuel len :
  (k < fuel)%nat -> 0 <= len -> len + 255 * Z.of_nat k < 2 ^ 64 ->
  read_extension fuel (pre ++ replicate k 255) (zlen pre) len = Some None.
Proof.
  revert pre fuel len. induction k as [| k IH]; intros pre [| fuel] len Hf Hl Hs; try lia; cbn [replicate read_extension].
  - rewrite app_nil_r, Z.leb_refl. done.
  - rewrite get_app_r, (proj2 (Z.leb_gt _ _)) by (rewrite zlen_app, zlen_cons; pose proof (zlen_nonneg (replicate k 255)); lia).
    change (255 =? 255) with true. cbn [negb]. rewrite wrap_small by (unfold is_u; lia).
    replace (pre ++ 255 :: replicate k 255) with ((pre ++ [255]) ++ replicate k 255) by by rewrite <- app_assoc.
    replace (zlen pre + 1) with (zlen (pre ++ [255])) by (rewrite zlen_app; done). apply IH; lia.
Qed.

(** The bytes after a saturated nibble either end the input or are an extension. *)
Lemma extension_split rest :
  Forall (is_u 8) rest -> (exists k, rest = replicate k 255) \/ (exists n post, 0 <= n /\ rest = extension n ++ post).
Proof.
  induction 1 as [| b rest Hb _ IH]; [by left; exists 0%nat |]. destruct (decide (b = 255)) as [-> | N].
  - destruct IH as [[k ->] | (n & post & Hn & ->)]; [left; by exists (S k) |]. right. exists (n + 255), post. split; [lia |].
    unfold extension. replace ((n + 255) / 255) with (n / 255 + 1) by (rewrite <- (Z.div_add n 1 255); [f_equal; lia | lia]).
    rewrite Z2Nat.inj_add, Nat.add_1_r by (lia || apply Z.div_pos; lia). simpl. do 3 f_equal.
    rewrite <- (Z.mod_add n 1 255) by lia. f_equal; lia.
  - right. exists b, rest. unfold is_u in Hb. split; [lia |]. unfold extension.
    rewrite Z.div_small, Z.mod_small by lia. done.
Qed.

Lemma zlen_extension n : 0 <= n -> zlen (extension n) = n / 255 + 1.
Proof. intros. unfold extension. rewrite zlen_app, zlen_replicate. unfold zlen. simpl length. rewrite Z2Nat.id by (apply Z.div_pos; lia). lia. Qed.

Lemma extension_bytes n : 0 <= n -> Forall (is_u 8) (extension n).
Proof.
  intros. unfold extension. apply Forall_app. split; [apply Forall_replicate; by unfold is_u |].
  constructor; [| constructor]. pose proof (Z.mod_pos_bound n 255 ltac:(lia)). unfold is_u. lia.
Qed.

(** A value is at most 255 times the length of its extension. *)
Lemma extended_bound n : 0 <= n -> n <= 15 + 255 * zlen (extended n).
Proof.
  intros Hn. unfold extended. destruct (Z.leb_spec 15 n); [| pose proof (zlen_nonneg (@nil Z)); lia].
  rewrite zlen_extension by lia. pose proof (Z.div_mod (n - 15) 255 ltac:(lia)). pose proof (Z.mod_pos_bound (n - 15) 255 ltac:(lia)). lia.
Qed.

Lemma read_length_ok pre n post :
  0 <= n < 2 ^ 63 ->
  read_length (pre ++ extended n ++ post) (zlen pre) (nibble n) = Some (Some (zlen pre + zlen (extended n), n)).
Proof.
  intros Hn. unfold read_length, nibble, extended. destruct (Z.leb_spec 15 n).
  - rewrite Z.min_r by lia. rewrite Z.eqb_refl. unfold extension.
    pose proof (Z.div_mod (n - 15) 255 ltac:(lia)). pose proof (Z.mod_pos_bound (n - 15) 255 ltac:(lia)).
    assert (0 <= (n - 15) / 255) by (apply Z.div_pos; lia).
    rewrite <- app_assoc. change ([(n - 15) mod 255] ++ post) with ((n - 15) mod 255 :: post).
    rewrite read_run; try lia.
    + rewrite zlen_app, zlen_replicate. do 3 f_equal; [| lia]. change (zlen [(n - 15) mod 255]) with 1. lia.
    + rewrite !length_app, length_replicate. simpl length. lia.
  - rewrite Z.min_l by lia. rewrite (proj2 (Z.eqb_neq n 15)) by lia. by rewrite Z.add_0_r.
Qed.

Lemma read_length_inv pre rest nb :
  is_u 4 nb -> Forall (is_u 8) rest -> zlen rest < 2 ^ 55 ->
  read_length (pre ++ rest) (zlen pre) nb = Some None \/
  exists n post, 0 <= n /\ nibble n = nb /\ rest = extended n ++ post.
Proof.
  intros Hnb F L. destruct (decide (nb = 15)) as [-> | N].
  - destruct (extension_split rest F) as [[k ->] | (n & post & Hn & ->)].
    + left. rewrite zlen_replicate in L. apply read_run_short; [rewrite length_app, length_replicate; lia | lia | lia].
    + right. exists (n + 15), post. split; [lia |]. unfold nibble, extended.
      rewrite (proj2 (Z.leb_le 15 (n + 15))), Z.min_r, Z.add_simpl_r by lia. done.
  - right. unfold is_u in Hnb. exists nb, rest. unfold nibble, extended. rewrite (proj2 (Z.leb_gt 15 nb)), Z.min_l by lia. split_and!; [lia | done | done].
Qed.

(** * Matches *)

Lemma list_lookup_nth (l : list Z) i : (i < length l)%nat -> l !! i = Some (nth i l 0).
Proof. intros. rewrite nth_lookup. destruct (lookup_lt_is_Some_2 l i) as [x ->]; [lia | done]. Qed.

Lemma repeat_match_length n off acc : length (repeat_match n off acc) = (length acc + n)%nat.
Proof. revert acc. induction n as [| n IH]; intros acc; simpl; [lia |]. rewrite IH, length_app. simpl. lia. Qed.

Lemma copy_match_ok n output acc off :
  filled output acc -> (1 <= off <= length acc)%nat -> zlen acc + Z.of_nat n <= zlen output ->
  exists output', copy_match n output (zlen acc) (zlen acc - Z.of_nat off) = Some output' /\
    zlen output' = zlen output /\ filled output' (repeat_match n off acc) /\
    drop (length acc + n) output' = drop (length acc + n) output.
Proof.
  revert output acc. induction n as [| n IH]; intros output acc F H L; simpl.
  { exists output. by rewrite Nat.add_0_r. }
  set (b := nth (length acc - off) acc 0).
  assert (G : get_at output (zlen acc - Z.of_nat off) = Some b).
  { destruct F as [rest ->]. unfold zlen. rewrite get_at_lookup by lia.
    replace (Z.to_nat (Z.of_nat (length acc) - Z.of_nat off)) with (length acc - off)%nat by lia.
    rewrite lookup_app_l by lia. apply list_lookup_nth; lia. }
  rewrite G. destruct (filled_set output acc b F ltac:(lia)) as (out1 & -> & L1 & F1 & D1).
  replace (zlen acc + 1) with (zlen (acc ++ [b])) by (rewrite zlen_app; done).
  replace (zlen acc - Z.of_nat off + 1) with (zlen (acc ++ [b]) - Z.of_nat off) by (rewrite zlen_app; unfold zlen; simpl; lia).
  destruct (IH out1 (acc ++ [b]) F1) as (out2 & -> & L2 & F2 & D2).
  { rewrite length_app. simpl. lia. }
  { rewrite zlen_app, L1. change (zlen [b]) with 1. lia. }
  exists out2. split_and!; [done | lia | done |]. rewrite length_app in D2. simpl in D2.
  replace (length acc + S n)%nat with (length acc + 1 + n)%nat by lia. rewrite D2.
  by rewrite Nat.add_1_r, <- (drop_drop out1 n), <- (drop_drop output n), D1.
Qed.

(** * One sequence *)

Lemma token_nibbles hi lo : is_u 4 hi -> is_u 4 lo -> Z.shiftr (hi * 16 + lo) 4 = hi /\ Z.land (hi * 16 + lo) 15 = lo.
Proof.
  unfold is_u. intros H L. split.
  - rewrite Z.shiftr_div_pow2 by lia. change (2 ^ 4) with 16. rewrite Z.div_add_l, Z.div_small by lia. lia.
  - change 15 with (Z.ones 4). rewrite Z.land_ones by lia. change (2 ^ 4) with 16 in *.
    rewrite Z.add_comm, Z.mod_add, Z.mod_small by lia. done.
Qed.

Lemma token_split t : is_u 8 t -> exists hi lo, is_u 4 hi /\ is_u 4 lo /\ t = hi * 16 + lo.
Proof.
  unfold is_u. intros H. exists (t / 16), (t mod 16). pose proof (Z.div_mod t 16 ltac:(lia)).
  pose proof (Z.mod_pos_bound t 16 ltac:(lia)). change (2 ^ 4) with 16. change (2 ^ 8) with 256 in H. lia.
Qed.

Lemma nibble_range n : 0 <= n -> is_u 4 (nibble n).
Proof. unfold is_u, nibble. change (2 ^ 4) with 16. lia. Qed.

Section Decode.
Context (input : list Z) (Hlen : zlen input < 2 ^ 55).

(** The literals of a sequence, its token and length bytes read. *)
Lemma decode_literals output pre lits lo post acc :
  input = pre ++ (nibble (zlen lits) * 16 + lo) :: extended (zlen lits) ++ lits ++ post ->
  is_u 4 lo -> zlen output < 2 ^ 63 -> zlen acc <= zlen output ->
  decode_step input output (zlen pre) (zlen acc) =
    if zlen output <? zlen (acc ++ lits) then Some (Done (Err OutputTooSmall) output)
    else
      let* output := write_slice output (zlen acc) lits in
      if bool_decide (post = []) then Some (Done (Ok (zlen (acc ++ lits))) output)
      else decode_match input output (nibble (zlen lits) * 16 + lo)
             (zlen (pre ++ (nibble (zlen lits) * 16 + lo) :: extended (zlen lits) ++ lits)) (zlen (acc ++ lits)).
Proof using Hlen.
  intros E Hlo Ho Ha. set (t := nibble (zlen lits) * 16 + lo) in *.
  pose proof (zlen_nonneg lits). pose proof (zlen_nonneg pre). pose proof (zlen_nonneg post). pose proof (zlen_nonneg (extended (zlen lits))).
  assert (L : zlen input = zlen pre + 1 + zlen (extended (zlen lits)) + zlen lits + zlen post)
    by (rewrite E, zlen_app, zlen_cons, !zlen_app; lia).
  unfold decode_step. rewrite (proj2 (Z.leb_gt _ _)) by lia. rewrite E at 1. rewrite get_app_r.
  destruct (token_nibbles _ lo (nibble_range (zlen lits) ltac:(lia)) Hlo) as [Hs _]. fold t in Hs. rewrite Hs.
  assert (E1 : input = (pre ++ [t]) ++ extended (zlen lits) ++ lits ++ post) by by rewrite <- app_assoc.
  replace (zlen pre + 1) with (zlen (pre ++ [t])) by (rewrite zlen_app; done).
  rewrite E1 at 1. rewrite read_length_ok by lia. rewrite <- zlen_app.
  set (p := (pre ++ [t]) ++ extended (zlen lits)).
  assert (E2 : input = p ++ lits ++ post) by (subst p; by rewrite <- app_assoc).
  assert (Lp : zlen p + zlen lits + zlen post = zlen input) by (rewrite E2, !zlen_app; lia).
  pose proof (zlen_nonneg p). pose proof (zlen_nonneg acc).
  rewrite !wrap_small by (unfold is_u; lia). rewrite (proj2 (Z.ltb_ge _ _)) by lia. rewrite zlen_app.
  case_match; [done |]. rewrite E2 at 1. rewrite slice_app. destruct (write_slice _ _ _); [| done].
  case_bool_decide as Hp.
  - subst post. rewrite (proj2 (Z.eqb_eq _ _)); [done |]. change (zlen []) with 0 in Lp. lia.
  - rewrite (proj2 (Z.eqb_neq _ _)). 2:{ destruct post; [done |]. rewrite zlen_cons in Lp. pose proof (zlen_nonneg post). lia. }
    f_equal. subst p. rewrite <- app_assoc. simpl. rewrite !zlen_app, !zlen_cons, !zlen_app. lia.
Qed.

Lemma offset_value off : 0 <= off <= 65535 -> Z.lor (off mod 256) (Z.shiftl (off / 256) 8) = off.
Proof using Type.
  intros H. rewrite <- add_disjoint.
  - rewrite Z.shiftl_mul_pow2 by lia. change (2 ^ 8) with 256. pose proof (Z.div_mod off 256 ltac:(lia)). lia.
  - apply Z.bits_inj'. intros i Hi. rewrite Z.land_spec, Z.bits_0, Z.shiftl_spec by lia. change 256 with (2 ^ 8).
    destruct (Z.lt_ge_cases i 8).
    + rewrite (Z.testbit_neg_r _ (i - 8)) by lia. apply andb_false_r.
    + rewrite Z.mod_pow2_bits_high by lia. done.
Qed.

(** The match of a sequence. *)
Lemma decode_match_ok output pre hi off len post (acc : list Z) :
  input = pre ++ off mod 256 :: off / 256 :: extended (len - 4) ++ post ->
  is_u 4 hi -> zlen output < 2 ^ 63 -> 1 <= off <= 65535 -> 4 <= len -> zlen acc <= zlen output ->
  decode_match input output (hi * 16 + nibble (len - 4)) (zlen pre) (zlen acc) =
    if zlen acc <? off then Some (Done (Err MalformedInput) output)
    else if zlen output <? zlen acc + len then Some (Done (Err OutputTooSmall) output)
    else
      let* output := copy_match (Z.to_nat len) output (zlen acc) (zlen acc - off) in
      Some (More (zlen (pre ++ off mod 256 :: off / 256 :: extended (len - 4))) (zlen acc + len) output).
Proof using Hlen.
  intros E Hhi Ho Hoff Hl Ha. pose proof (zlen_nonneg pre). pose proof (zlen_nonneg post). pose proof (zlen_nonneg (extended (len - 4))).
  assert (L : zlen input = zlen pre + 2 + zlen (extended (len - 4)) + zlen post)
    by (rewrite E, zlen_app, !zlen_cons, zlen_app; lia).
  unfold decode_match. rewrite (proj2 (Z.ltb_ge _ _)) by lia. rewrite E at 1. rewrite get_app_r.
  replace (zlen pre + 1) with (zlen (pre ++ [off mod 256])) by (rewrite zlen_app; done).
  assert (E1 : input = (pre ++ [off mod 256]) ++ off / 256 :: extended (len - 4) ++ post) by by rewrite <- app_assoc.
  rewrite E1 at 1. rewrite get_app_r, offset_value by lia. rewrite (proj2 (Z.eqb_neq off 0)) by lia. simpl orb.
  case_match; [done |]. destruct (token_nibbles hi _ Hhi (nibble_range (len - 4) ltac:(lia))) as [_ ->].
  set (p := pre ++ [off mod 256; off / 256]). replace (zlen pre + 2) with (zlen p) by (subst p; rewrite zlen_app; done).
  assert (E2 : input = p ++ extended (len - 4) ++ post) by (subst p; by rewrite <- app_assoc).
  pose proof (extended_bound (len - 4) ltac:(lia)).
  rewrite E2 at 1. rewrite read_length_ok by lia. unfold MIN_MATCH. pose proof (zlen_nonneg acc).
  rewrite (wrap_small 64 (len - 4 + 4)), Z.sub_add, wrap_small by (unfold is_u; lia). case_match; [done |].
  destruct (copy_match _ _ _ _); [| done]. do 2 f_equal. subst p. rewrite !zlen_app, !zlen_cons. change (zlen []) with 0. lia.
Qed.

Lemma sequence_value_length acc q : 0 <= q.(match_len) ->
  zlen (sequence_value acc q) = zlen (acc ++ q.(literals)) + q.(match_len).
Proof using Type. intros. unfold sequence_value, zlen. rewrite repeat_match_length. lia. Qed.

(** What one iteration leaves: the buffer filled with [acc], nothing after it
    touched. *)
Definition leaves (output output' acc : list Z) : Prop :=
  zlen output' = zlen output /\ filled output' acc /\ drop (length acc) output' = drop (length acc) output.

Lemma decode_sequence output pre q post acc :
  input = pre ++ sequence_bytes q ++ post -> sequence_ok acc q ->
  zlen output < 2 ^ 63 -> filled output acc ->
  if zlen output <? zlen (sequence_value acc q)
  then exists output', decode_step input output (zlen pre) (zlen acc) = Some (Done (Err OutputTooSmall) output') /\ zlen output' = zlen output
  else exists output',
    decode_step input output (zlen pre) (zlen acc) =
      Some (More (zlen (pre ++ sequence_bytes q)) (zlen (sequence_value acc q)) output') /\
    leaves output output' (sequence_value acc q).
Proof using Hlen.
  intros E [Ql Qo Qr Qm] Ho F. pose proof (filled_zlen _ _ F) as Ha. unfold sequence_bytes in E.
  pose proof (nibble_range (match_len q - 4) ltac:(lia)) as Hlo.
  pose proof (nibble_range (zlen (literals q)) (zlen_nonneg _)) as Hhi.
  rewrite sequence_value_length by lia. rewrite <- app_comm_cons, <- !app_assoc in E.
  rewrite (decode_literals output pre _ _ _ acc E Hlo Ho Ha).
  destruct (Z.ltb_spec (zlen output) (zlen (acc ++ literals q))) as [G | G].
  { rewrite (proj2 (Z.ltb_lt _ _)) by lia. eauto. }
  destruct (filled_write output acc (literals q) F) as (out1 & -> & L1 & F1 & D1); [rewrite <- zlen_app; lia |].
  rewrite bool_decide_false by done. set (acc1 := acc ++ literals q) in *.
  set (p := pre ++ (nibble (zlen (literals q)) * 16 + nibble (match_len q - 4)) :: extended (zlen (literals q)) ++ literals q).
  assert (E2 : input = p ++ offset q mod 256 :: offset q / 256 :: extended (match_len q - 4) ++ post).
  { rewrite E. subst p. by norm_app. }
  assert (R : offset q <= zlen acc1) by (subst acc1; by rewrite zlen_app).
  rewrite (decode_match_ok out1 p _ _ (match_len q) _ acc1 E2 Hhi) by (done || lia).
  rewrite (proj2 (Z.ltb_ge (zlen acc1) (offset q))) by lia. rewrite L1.
  destruct (Z.ltb_spec (zlen output) (zlen acc1 + match_len q)) as [G2 | G2]; [eauto |].
  destruct (copy_match_ok (Z.to_nat (match_len q)) out1 acc1 (Z.to_nat (offset q)) F1) as (out2 & C & L2 & F2 & D2).
  { unfold zlen in R. lia. }
  { rewrite Z2Nat.id by lia. lia. }
  rewrite Z2Nat.id in C by lia. rewrite C. exists out2. split.
  - do 2 f_equal. f_equal. subst p. unfold sequence_bytes. by norm_app.
  - split_and!; [by rewrite L2 | done |]. unfold sequence_value. fold acc1. rewrite repeat_match_length, D2.
    subst acc1. rewrite <- (drop_drop out1), <- (drop_drop output), D1. done.
Qed.

Definition last_bytes (nb : Z) (lits : list Z) : list Z :=
  (nibble (zlen lits) * 16 + nb) :: extended (zlen lits) ++ lits.

Lemma decode_last output pre nb lits acc :
  input = pre ++ last_bytes nb lits -> is_u 4 nb -> zlen output < 2 ^ 63 -> filled output acc ->
  if zlen output <? zlen (acc ++ lits)
  then decode_step input output (zlen pre) (zlen acc) = Some (Done (Err OutputTooSmall) output)
  else exists output',
    decode_step input output (zlen pre) (zlen acc) = Some (Done (Ok (zlen (acc ++ lits))) output') /\
    leaves output output' (acc ++ lits).
Proof using Hlen.
  intros E Hnb Ho F. pose proof (filled_zlen _ _ F) as Ha. unfold last_bytes in E.
  rewrite <- (app_nil_r lits) in E at 3. rewrite (decode_literals output pre lits nb [] acc E Hnb Ho Ha).
  destruct (Z.ltb_spec (zlen output) (zlen (acc ++ lits))); [done |].
  destruct (filled_write output acc lits F) as (out1 & -> & L1 & F1 & D1); [rewrite <- zlen_app; lia |].
  rewrite bool_decide_true by done. exists out1. by split_and!.
Qed.

Lemma decode_match_cases output pre hi lo rest (acc : list Z) :
  input = pre ++ rest -> Forall (is_u 8) rest -> is_u 4 hi -> is_u 4 lo -> zlen output < 2 ^ 63 -> zlen acc <= zlen output ->
  (exists e output', decode_match input output (hi * 16 + lo) (zlen pre) (zlen acc) = Some (Done (Err e) output') /\ zlen output' = zlen output) \/
  (exists off len post, rest = off mod 256 :: off / 256 :: extended (len - 4) ++ post /\ nibble (len - 4) = lo /\
    1 <= off <= 65535 /\ off <= zlen (acc : list Z) /\ 4 <= len /\ zlen acc + len <= zlen output).
Proof using Hlen.
  intros E B Hhi Hlo Ho Ha. pose proof (zlen_nonneg pre) as Hp.
  assert (L : zlen input = zlen pre + zlen rest) by by rewrite E, zlen_app.
  destruct rest as [| b0 [| b1 rest]].
  1-2: left; exists MalformedInput, output; split; [| done]; unfold decode_match;
    rewrite (proj2 (Z.ltb_lt _ _)); [done | rewrite L, ?zlen_cons; change (zlen (@nil Z)) with 0; lia].
  apply Forall_cons in B as [B0 B]. apply Forall_cons in B as [B1 B]. set (off := b1 * 256 + b0).
  unfold is_u in B0, B1. change (2 ^ 8) with 256 in *.
  assert (Em : b0 = off mod 256) by (subst off; rewrite Z.add_comm, Z.mod_add, Z.mod_small by lia; done).
  assert (Ed : b1 = off / 256) by (subst off; rewrite Z.div_add_l, Z.div_small by lia; lia).
  rewrite Em, Ed in E |- *. clearbody off. assert (0 <= off <= 65535) by (pose proof (Z.div_mod off 256 ltac:(lia)); lia). subst b0 b1.
  assert (G : get_at input (zlen pre) = Some (off mod 256)) by (rewrite E at 1; apply get_app_r).
  assert (E1 : input = (pre ++ [off mod 256]) ++ off / 256 :: rest) by (rewrite E; by norm_app).
  assert (E2 : input = (pre ++ [off mod 256; off / 256]) ++ rest) by (rewrite E; by norm_app).
  assert (G1 : get_at input (zlen pre + 1) = Some (off / 256)).
  { replace (zlen pre + 1) with (zlen (pre ++ [off mod 256])) by (rewrite zlen_app; done). rewrite E1 at 1. apply get_app_r. }
  destruct (read_length_inv (pre ++ [off mod 256; off / 256]) rest lo Hlo B) as [R | (n & post & Hn & <- & ->)].
  { rewrite !zlen_cons in L. lia. }
  - left. exists MalformedInput, output. split; [| done]. unfold decode_match.
    rewrite (proj2 (Z.ltb_ge _ _)) by (rewrite L, !zlen_cons; pose proof (zlen_nonneg rest); lia).
    rewrite G, G1. case_match; [done |]. rewrite (proj2 (token_nibbles hi lo Hhi Hlo)).
    rewrite <- E2, zlen_app in R. change (zlen [off mod 256; off / 256]) with 2 in R. by rewrite R.
  - destruct (decide (off = 0)) as [-> | Nz].
    { left. exists MalformedInput, output. split; [| done]. unfold decode_match.
      rewrite (proj2 (Z.ltb_ge _ _)) by (rewrite L, !zlen_cons; pose proof (zlen_nonneg (extended n ++ post)); lia).
      rewrite G, G1. done. }
    replace n with (n + 4 - 4) in E |- * by lia.
    pose proof (decode_match_ok output pre hi off (n + 4) post acc E Hhi Ho ltac:(lia) ltac:(lia) Ha) as D.
    destruct (Z.ltb_spec (zlen acc) off); [left; eauto |].
    destruct (Z.ltb_spec (zlen output) (zlen acc + (n + 4))); [left; eauto |].
    right. exists off, (n + 4), post. split_and!; auto; lia.
Qed.

(** A token whose literal length is not there, or is longer than the input. *)
Lemma decode_no_literals output pre hi lo rest acc :
  input = pre ++ (hi * 16 + lo) :: rest -> is_u 4 hi -> is_u 4 lo ->
  read_length ((pre ++ [hi * 16 + lo]) ++ rest) (zlen (pre ++ [hi * 16 + lo])) hi = Some None \/
  (exists n post, 0 <= n /\ nibble n = hi /\ rest = extended n ++ post /\ zlen post < n) ->
  decode_step input output (zlen pre) acc = Some (Done (Err MalformedInput) output).
Proof using Hlen.
  intros E Hhi Hlo C. pose proof (zlen_nonneg pre). pose proof (zlen_nonneg rest).
  assert (L : zlen input = zlen pre + 1 + zlen rest) by (rewrite E, zlen_app, zlen_cons; lia).
  unfold decode_step. rewrite (proj2 (Z.leb_gt _ _)) by lia.
  rewrite E at 1. rewrite get_app_r, (proj1 (token_nibbles hi lo Hhi Hlo)).
  replace (zlen pre + 1) with (zlen (pre ++ [hi * 16 + lo])) by (rewrite zlen_app; done).
  replace input with ((pre ++ [hi * 16 + lo]) ++ rest) at 1 by (rewrite E; by norm_app).
  destruct C as [-> | (n & post & Hn & <- & -> & Hp)]; [done |].
  pose proof (extended_bound n Hn). rewrite zlen_app in L. pose proof (zlen_nonneg post).
  rewrite read_length_ok by lia. rewrite zlen_app. change (zlen [nibble n * 16 + lo]) with 1.
  pose proof (zlen_nonneg (extended n)).
  rewrite wrap_small by (unfold is_u; lia). rewrite (proj2 (Z.ltb_lt _ _)) by lia. done.
Qed.

(** An iteration on any input: it rejects, or what is left starts with a
    sequence or is the closing literals, and the result fits. *)
Lemma decode_step_cases output pre rest acc :
  input = pre ++ rest -> Forall (is_u 8) rest -> zlen output < 2 ^ 63 -> filled output acc ->
  (exists e output', decode_step input output (zlen pre) (zlen acc) = Some (Done (Err e) output') /\ zlen output' = zlen output) \/
  (exists nb lits, rest = last_bytes nb lits /\ is_u 4 nb /\ Forall (is_u 8) lits /\ zlen (acc ++ lits) <= zlen output) \/
  (exists q post, rest = sequence_bytes q ++ post /\ sequence_ok acc q /\ zlen (sequence_value acc q) <= zlen output).
Proof using Hlen.
  intros E B Ho F. pose proof (filled_zlen _ _ F) as Ha. pose proof (zlen_nonneg pre).
  assert (L : zlen input = zlen pre + zlen rest) by by rewrite E, zlen_app.
  destruct rest as [| t rest].
  { left. exists MalformedInput, output. split; [| done]. unfold decode_step. rewrite E, app_nil_r, Z.leb_refl. done. }
  apply Forall_cons in B as [Bt B]. destruct (token_split t Bt) as (hi & lo & Hhi & Hlo & ->). rewrite zlen_cons in L.
  destruct (read_length_inv (pre ++ [hi * 16 + lo]) rest hi Hhi B) as [R | (n & post & Hn & Hnb & ->)]; [lia | |].
  { left. exists MalformedInput, output. split; [| done]. by apply (decode_no_literals _ _ hi lo rest); [.. | left]. }
  destruct (Z.lt_ge_cases (zlen post) n) as [G | G].
  { left. exists MalformedInput, output. split; [| done].
    apply (decode_no_literals _ _ hi lo (extended n ++ post)); auto. right. exists n, post. done. }
  subst hi. apply Forall_app in B as [_ B]. destruct (split_zlen post n ltac:(lia)) as (lits & rest & -> & Hl). subst n.
  apply Forall_app in B as [Bl B]. pose proof (decode_literals output pre lits lo rest acc E Hlo Ho Ha) as D.
  destruct (Z.ltb_spec (zlen output) (zlen (acc ++ lits))) as [G1 | G1]; [left; eauto |].
  destruct (filled_write output acc lits F) as (out1 & W & L1 & F1 & D1); [rewrite <- zlen_app; lia |]. rewrite W in D.
  case_bool_decide as Hr.
  { right. left. exists lo, lits. subst rest. unfold last_bytes. rewrite app_nil_r. done. }
  set (p := pre ++ (nibble (zlen lits) * 16 + lo) :: extended (zlen lits) ++ lits) in D.
  assert (E2 : input = p ++ rest) by (rewrite E; subst p; by norm_app).
  destruct (decode_match_cases out1 p (nibble (zlen lits)) lo rest (acc ++ lits) E2 B Hhi Hlo) as [(e & out2 & M & L2) | M]; [lia | lia | |].
  { left. exists e, out2. split; [by rewrite D | lia]. }
  destruct M as (off & len & post' & -> & <- & Ho1 & Ho2 & Hl & Hf). right. right. exists (mk_sequence lits off len), post'. split_and!.
  - unfold sequence_bytes. cbn [literals offset match_len]. by norm_app.
  - split; cbn [literals offset match_len]; auto. by rewrite <- zlen_app.
  - rewrite sequence_value_length by (cbn; lia). cbn [literals match_len]. lia.
Qed.

Lemma leaves_trans output out1 out2 (acc1 acc2 : list Z) :
  leaves output out1 acc1 -> leaves out1 out2 acc2 -> (length acc1 <= length acc2)%nat -> leaves output out2 acc2.
Proof using Type.
  intros (L1 & F1 & D1) (L2 & F2 & D2) L. split_and!; [lia | done |]. rewrite D2.
  replace (length acc2) with (length acc1 + (length acc2 - length acc1))%nat by lia. by rewrite <- !drop_drop, D1.
Qed.

Lemma sequence_value_longer acc q : (length acc <= length (sequence_value acc q))%nat.
Proof using Type. unfold sequence_value. rewrite repeat_match_length, length_app. lia. Qed.

Lemma values_longer ss acc : (length acc <= length (foldl sequence_value acc ss))%nat.
Proof using Type.
  revert acc. induction ss as [| q ss IH]; intros acc; simpl; [lia |]. pose proof (sequence_value_longer acc q). specialize (IH (sequence_value acc q)). lia.
Qed.

(** The loop on a well-formed rest. *)
Lemma decode_loop_accepts ss nb lits fuel output pre acc :
  input = pre ++ flat_map sequence_bytes ss ++ last_bytes nb lits ->
  sequences_ok acc ss -> is_u 4 nb -> zlen output < 2 ^ 63 -> filled output acc -> (length ss < fuel)%nat ->
  let value := foldl sequence_value acc ss ++ lits in
  if zlen output <? zlen value
  then exists output', decode_loop fuel input output (zlen pre) (zlen acc) = Some (Err OutputTooSmall, output') /\ zlen output' = zlen output
  else exists output', decode_loop fuel input output (zlen pre) (zlen acc) = Some (Ok (zlen value), output') /\ leaves output output' value.
Proof using Hlen.
  revert fuel output pre acc. induction ss as [| q ss IH]; intros [| fuel] output pre acc E Hs Hnb Ho F Hf; try (simpl in Hf; lia); cbn zeta; simpl foldl.
  - cbn [flat_map app decode_loop] in *. pose proof (decode_last output pre nb lits acc E Hnb Ho F) as D.
    case_match; [rewrite D; eauto |]. destruct D as (out1 & -> & D). eauto.
  - destruct Hs as [Hq Hs]. cbn [flat_map] in E. rewrite <- app_assoc in E. cbn [decode_loop].
    pose proof (decode_sequence output pre q _ acc E Hq Ho F) as D.
    assert (Lv : zlen (sequence_value acc q) <= zlen (foldl sequence_value (sequence_value acc q) ss ++ lits)).
    { rewrite zlen_app. pose proof (values_longer ss (sequence_value acc q)). pose proof (zlen_nonneg lits). unfold zlen in *. lia. }
    destruct (Z.ltb_spec (zlen output) (zlen (sequence_value acc q))).
    { rewrite (proj2 (Z.ltb_lt _ _)) by lia. destruct D as (out1 & -> & L1). eauto. }
    destruct D as (out1 & -> & V). pose proof V as (L1 & F1 & _). rewrite app_assoc in E.
    specialize (IH fuel out1 (pre ++ sequence_bytes q) (sequence_value acc q) E Hs Hnb ltac:(lia) F1 ltac:(simpl in Hf; lia)).
    cbn zeta in IH. rewrite L1 in IH. case_match; [exact IH |].
    destruct IH as (out2 & -> & V2). exists out2. split; [done |]. eapply leaves_trans; [exact V | exact V2 |]. unfold zlen in Lv. lia.
Qed.

(** The loop on any rest. *)
Lemma decode_loop_cases fuel output pre rest acc :
  input = pre ++ rest -> Forall (is_u 8) rest -> zlen output < 2 ^ 63 -> filled output acc -> (length rest < fuel)%nat ->
  (exists e output', decode_loop fuel input output (zlen pre) (zlen acc) = Some (Err e, output') /\ zlen output' = zlen output) \/
  (exists ss nb lits, rest = flat_map sequence_bytes ss ++ last_bytes nb lits /\ sequences_ok acc ss /\ is_u 4 nb /\
    Forall (is_u 8) lits /\ zlen (foldl sequence_value acc ss ++ lits) <= zlen output).
Proof using Hlen.
  revert output pre rest acc. induction fuel as [| fuel IH]; intros output pre rest acc E B Ho F Hf; [lia |].
  destruct (decode_step_cases output pre rest acc E B Ho F) as [(e & out1 & D & L1) | [(nb & lits & -> & Hnb & Bl & L) | (q & post & -> & Hq & L)]].
  - left. cbn [decode_loop]. rewrite D. eauto.
  - right. exists [], nb, lits. done.
  - pose proof (decode_sequence output pre q post acc E Hq Ho F) as D. rewrite (proj2 (Z.ltb_ge _ _)) in D by lia.
    destruct D as (out1 & D & L1 & F1 & _). rewrite app_assoc in E. apply Forall_app in B as [_ B].
    assert (Hl : (length post < fuel)%nat) by (rewrite length_app in Hf; unfold sequence_bytes in Hf; simpl in Hf; lia).
    destruct (IH out1 (pre ++ sequence_bytes q) post _ E B ltac:(lia) F1 Hl) as [(e & out2 & D2 & L2) | (ss & nb & lits & -> & Hs & Hnb & Bl & L2)].
    + left. cbn [decode_loop]. rewrite D. exists e, out2. split; [exact D2 | lia].
    + right. exists (q :: ss), nb, lits. split_and!; auto; [| by split | simpl; lia]. cbn [flat_map]. by rewrite app_assoc.
Qed.
End Decode.

(** * The decoder *)

Lemma block_bytes_eq b : block_bytes b = flat_map sequence_bytes b.(sequences) ++ last_bytes b.(last_nibble) b.(trailing).
Proof. done. Qed.

Lemma block_bytes_nonempty b : zlen (block_bytes b) <> 0.
Proof. rewrite block_bytes_eq, zlen_app. unfold last_bytes. rewrite zlen_cons. pose proof (zlen_nonneg (flat_map sequence_bytes (sequences b))). pose proof (zlen_nonneg (extended (zlen (trailing b)) ++ trailing b)). lia. Qed.

Lemma sequences_shorter ss : (length ss <= length (flat_map sequence_bytes ss))%nat.
Proof. induction ss as [| q ss IH]; simpl; [lia |]. rewrite length_app. lia. Qed.

(** The decoder on a block: its value, when the buffer has room. *)
Lemma lz4_decode_block b output :
  block_ok b -> zlen (block_bytes b) < 2 ^ 55 -> zlen output < 2 ^ 63 ->
  if zlen output <? zlen (block_value b)
  then exists output', lz4_decode (block_bytes b) output = Some (Err OutputTooSmall, output') /\ zlen output' = zlen output
  else exists output', lz4_decode (block_bytes b) output = Some (Ok (zlen (block_value b)), output') /\ leaves output output' (block_value b).
Proof.
  intros [Hs Hnb Ht] Hl Ho. unfold lz4_decode. rewrite (proj2 (Z.eqb_neq _ _)) by apply block_bytes_nonempty.
  apply (decode_loop_accepts _ Hl _ (last_nibble b) _ _ _ [] []); auto; [apply filled_nil |].
  unfold block_bytes. rewrite length_app. pose proof (sequences_shorter (sequences b)). lia.
Qed.

(** The decoder on any bytes: an error, or a block whose value fits. *)
Lemma lz4_decode_cases input output :
  Forall (is_u 8) input -> zlen input < 2 ^ 55 -> zlen output < 2 ^ 63 ->
  (exists e output', lz4_decode input output = Some (Err e, output') /\ zlen output' = zlen output) \/
  (exists b, input = block_bytes b /\ block_ok b /\ zlen (block_value b) <= zlen output).
Proof.
  intros B Hl Ho. unfold lz4_decode. destruct (Z.eqb_spec (zlen input) 0); [left; eauto |].
  destruct (decode_loop_cases input Hl (S (length input)) output [] input [] eq_refl B Ho (filled_nil _) ltac:(lia))
    as [H | (ss & nb & lits & E & Hs & Hnb & Bl & L)]; [left; exact H |].
  right. exists (mk_block ss nb lits). by split_and!.
Qed.
