(* ===== verification/Lz4Encode.v ===== *)
(** The LZ4 encoder of [Lz4]: it writes a well-formed block whose value is its
    input, within the documented bound. *)

From S2P Require Import Prelude Word Slice Lz4 Lz4Format.

(** * Emission *)

(** A buffer that was filled with [bs] and is now filled with [bs ++ cs]. *)
Definition grows (output : list Z) (bs cs : list Z) (r : option (list Z * Z)) : Prop :=
  exists output', r = Some (output', zlen (bs ++ cs)) /\ zlen output' = zlen output /\ filled output' (bs ++ cs).

Lemma emit_extension_ok fuel output bs n :
  filled output bs -> 0 <= n -> n / 255 <= Z.of_nat fuel -> zlen bs + zlen (extension n) <= zlen output ->
  grows output bs (extension n) (emit_extension fuel output (zlen bs) n).
Proof.
  revert output bs n. induction fuel as [| fuel IH]; intros output bs n F Hn Hf L; pose proof L as L'; rewrite zlen_extension in L' by lia;
    pose proof (Z.div_pos n 255 Hn ltac:(lia)); cbn [emit_extension]; destruct (Z.leb_spec 255 n) as [G | G].
  1: (assert (1 <= n / 255) by (apply Z.div_le_lower_bound; lia)); lia.
  2:{ destruct (filled_set output bs 255 F ltac:(lia)) as (out1 & -> & L1 & F1 & _).
      assert (X : extension n = 255 :: extension (n - 255)).
      { unfold extension. replace (n / 255) with ((n - 255) / 255 + 1).
        - rewrite Z2Nat.inj_add, Nat.add_1_r by (try apply Z.div_pos; lia). cbn [replicate app]. do 3 f_equal.
          rewrite <- (Z.mod_add (n - 255) 1 255) by lia. f_equal. lia.
        - rewrite <- (Z.div_add (n - 255) 1 255) by lia. f_equal. lia. }
      rewrite X in *. replace (zlen bs + 1) with (zlen (bs ++ [255])) by (rewrite zlen_app; done).
      destruct (IH out1 (bs ++ [255]) (n - 255) F1 ltac:(lia)) as (out2 & -> & L2 & F2).
      - rewrite <- (Z.sub_add 255 n) in Hf. replace (n - 255 + 255) with (n - 255 + 1 * 255) in Hf by lia. rewrite Z.div_add in Hf by lia. lia.
      - rewrite zlen_app, L1. rewrite zlen_cons in L. change (zlen [255]) with 1. lia.
      - exists out2. rewrite <- app_assoc in *. cbn [app] in *. split_and!; [done | lia | done]. }
  all: unfold extension in *; rewrite Z.div_small, Z.mod_small in * by lia; cbn [Z.to_nat replicate app] in *;
    rewrite wrap_small by (unfold is_u; change (2 ^ 8) with 256; lia);
    destruct (filled_set output bs n F ltac:(lia)) as (out1 & -> & L1 & F1 & _);
    exists out1; split_and!; [by rewrite zlen_app | done | done].
Qed.

Lemma wshl_nibble n : 0 <= n < 15 -> wshl 8 (wrap 8 n) 4 = n * 16.
Proof.
  intros. unfold wshl. rewrite (wrap_small 8 n), Z.shiftl_mul_pow2 by (unfold is_u; lia).
  apply wrap_small. unfold is_u. change (2 ^ 8) with 256. change (2 ^ 4) with 16. lia.
Qed.

Lemma emit_literal_len_ok output bs n :
  filled output bs -> 0 <= n -> zlen bs + 1 + zlen (extended n) <= zlen output ->
  grows output bs (nibble n * 16 :: extended n) (emit_literal_len output (zlen bs) n).
Proof.
  intros F Hn L. unfold emit_literal_len, nibble, extended in *. pose proof (zlen_nonneg (extension (n - 15))).
  destruct (Z.leb_spec 15 n).
  - rewrite Z.min_r by lia. destruct (filled_set output bs 240 F ltac:(lia)) as (out1 & -> & L1 & F1 & _).
    replace (zlen bs + 1) with (zlen (bs ++ [240])) by (rewrite zlen_app; done).
    destruct (emit_extension_ok (Z.to_nat n) out1 (bs ++ [240]) (n - 15) F1) as (out2 & -> & L2 & F2).
    + lia.
    + rewrite Z2Nat.id by lia. apply Z.div_le_upper_bound; lia.
    + rewrite zlen_app, L1. change (zlen [240]) with 1. lia.
    + exists out2. rewrite <- app_assoc in *. cbn [app] in *. split_and!; [done | lia | done].
  - rewrite Z.min_l, wshl_nibble by lia. change (zlen []) with 0 in L.
    destruct (filled_set output bs (n * 16) F ltac:(lia)) as (out1 & -> & L1 & F1 & _).
    exists out1. split_and!; [by rewrite zlen_app | done | done].
Qed.

Lemma emit_last_literals_ok input anchor output bs :
  filled output bs -> 0 <= anchor <= zlen input ->
  zlen bs + 2 + (zlen input - anchor) + (zlen input - anchor) / 255 <= zlen output ->
  let lits := drop (Z.to_nat anchor) input in
  exists output', emit_last_literals input anchor output (zlen bs) = Some (Ok (zlen (bs ++ last_bytes 0 lits)), output') /\
    zlen output' = zlen output /\ filled output' (bs ++ last_bytes 0 lits).
Proof.
  intros F Ha L lits. unfold emit_last_literals. set (n := zlen input - anchor) in *.
  assert (Hn : zlen lits = n) by (subst lits n; unfold zlen in *; rewrite length_drop; lia).
  rewrite (proj2 (Z.ltb_ge _ _)) by lia.
  assert (Le : zlen (extended n) <= 1 + n / 255).
  { unfold extended. destruct (Z.leb_spec 15 n).
    - rewrite zlen_extension by lia. pose proof (Z.div_le_mono (n - 15) n 255 ltac:(lia) ltac:(lia)). lia.
    - change (zlen []) with 0. pose proof (Z.div_pos n 255 ltac:(lia) ltac:(lia)). lia. }
  destruct (emit_literal_len_ok output bs n F) as (out1 & -> & L1 & F1); [lia | lia |].
  assert (E : slice input anchor n = Some lits).
  { rewrite slice_some by (unfold zlen in *; lia). f_equal. apply take_ge. unfold zlen in *. lia. }
  rewrite E. destruct (filled_write out1 _ lits F1) as (out2 & -> & L2 & F2 & _).
  { rewrite zlen_app, zlen_cons, Hn, L1. lia. }
  exists out2. assert (X : (bs ++ nibble n * 16 :: extended n) ++ lits = bs ++ last_bytes 0 lits).
  { unfold last_bytes. rewrite Hn, Z.add_0_r. by norm_app. }
  rewrite X in *. split_and!; [| lia | done]. do 2 f_equal. rewrite <- X, (zlen_app (bs ++ _) lits), Hn. done.
Qed.

(** The bytes of a sequence before its match length is known. *)
Definition header (lits : list Z) (off : Z) : list Z := extended (zlen lits) ++ lits ++ [off mod 256; off / 256].

Lemma sequence_bytes_header lits off len :
  sequence_bytes (mk_sequence lits off len) =
    (nibble (zlen lits) * 16 + nibble (len - 4)) :: header lits off ++ extended (len - 4).
Proof. unfold sequence_bytes, header. cbn [literals offset match_len]. by norm_app. Qed.

Lemma emit_literals_ok input output bs anchor ip off :
  filled output bs -> 0 <= anchor <= ip -> ip <= zlen input -> 1 <= off <= 65535 ->
  let lits := take (Z.to_nat (ip - anchor)) (drop (Z.to_nat anchor) input) in
  zlen bs + 1 + zlen (header lits off) <= zlen output ->
  grows output bs (nibble (zlen lits) * 16 :: header lits off) (emit_literals input output (zlen bs) anchor ip off).
Proof.
  intros F Ha Hi Ho lits L. unfold emit_literals.
  assert (E : slice input anchor (ip - anchor) = Some lits) by (apply slice_some; unfold zlen in *; lia).
  destruct (slice_inv input anchor (ip - anchor) lits ltac:(lia) ltac:(lia) E) as (_ & _ & Hn). clearbody lits. rewrite <- Hn in *. unfold header in L. rewrite !zlen_app in L.
  change (zlen [off mod 256; off / 256]) with 2 in L. pose proof (zlen_nonneg lits). pose proof (zlen_nonneg (extended (zlen lits))).
  destruct (emit_literal_len_ok output bs (zlen lits) F) as (out1 & -> & L1 & F1); [lia | lia |].
  rewrite E. destruct (filled_write out1 _ lits F1) as (out2 & -> & L2 & F2 & _).
  { rewrite zlen_app, zlen_cons. lia. }
  rewrite <- zlen_app. set (b1 := (bs ++ nibble (zlen lits) * 16 :: extended (zlen lits)) ++ lits) in *.
  assert (Lb : zlen b1 = zlen bs + 1 + zlen (extended (zlen lits)) + zlen lits) by (subst b1; rewrite !zlen_app, zlen_cons; lia).
  assert (O0 : wrap 8 off = off mod 256) by reflexivity.
  assert (O1 : wrap 8 (Z.shiftr off 8) = off / 256).
  { rewrite Z.shiftr_div_pow2 by lia. apply wrap_small. unfold is_u. change (2 ^ 8) with 256. split; [apply Z.div_pos; lia | apply Z.div_lt_upper_bound; lia]. }
  destruct (filled_set out2 b1 (wrap 8 off) F2 ltac:(lia)) as (out3 & -> & L3 & F3 & _).
  replace (zlen b1 + 1) with (zlen (b1 ++ [wrap 8 off])) by (rewrite zlen_app; done).
  destruct (filled_set out3 (b1 ++ [wrap 8 off]) (wrap 8 (Z.shiftr off 8)) F3) as (out4 & -> & L4 & F4 & _).
  { rewrite zlen_app. change (zlen [wrap 8 off]) with 1. lia. }
  rewrite O0, O1 in *. exists out4. assert (X : bs ++ nibble (zlen lits) * 16 :: header lits off = (b1 ++ [off mod 256]) ++ [off / 256]).
  { subst b1. unfold header. by norm_app. }
  rewrite X. split_and!; [| lia | done]. do 2 f_equal. rewrite !zlen_app. change (zlen [off / 256]) with 1. change (zlen [off mod 256]) with 1. lia.
Qed.

Lemma lor_nibbles hi lo : is_u 4 lo -> Z.lor (hi * 16) lo = hi * 16 + lo.
Proof.
  intros H. symmetry. apply add_disjoint. apply Z.bits_inj'. intros i Hi. rewrite Z.land_spec, Z.bits_0.
  change 16 with (2 ^ 4). rewrite Z.mul_pow2_bits by lia. destruct (Z.lt_ge_cases i 4).
  - by rewrite Z.testbit_neg_r by lia.
  - rewrite (testbit_high 4 lo i) by (done || lia). apply andb_false_r.
Qed.

Lemma emit_match_len_ok output bs hi mid len :
  filled output (bs ++ hi * 16 :: mid) -> 4 <= len ->
  zlen (bs ++ hi * 16 :: mid) + zlen (extended (len - 4)) <= zlen output ->
  grows output bs ((hi * 16 + nibble (len - 4)) :: mid ++ extended (len - 4))
    (emit_match_len output (zlen bs) (zlen (bs ++ hi * 16 :: mid)) len).
Proof.
  intros F Hl L. unfold emit_match_len, MIN_MATCH. pose proof (nibble_range (len - 4) ltac:(lia)) as R.
  destruct (filled_update output bs mid (hi * 16) (hi * 16 + nibble (len - 4)) F) as (-> & out1 & S1 & L1 & F1 & _).
  assert (X : zlen (bs ++ hi * 16 :: mid) = zlen (bs ++ (hi * 16 + nibble (len - 4)) :: mid)) by (rewrite !zlen_app, !zlen_cons; done).
  rewrite X in *. unfold extended in *. unfold nibble in *. destruct (Z.leb_spec 15 (len - 4)).
  - rewrite Z.min_r in * by lia. rewrite lor_nibbles, S1 by done.
    destruct (emit_extension_ok (Z.to_nat (len - 4)) out1 _ (len - 4 - 15) F1) as (out2 & -> & L2 & F2).
    + lia.
    + rewrite Z2Nat.id by lia. apply Z.div_le_upper_bound; lia.
    + lia.
    + exists out2. rewrite <- app_assoc in *. cbn [app] in *. split_and!; [done | lia | done].
  - rewrite Z.min_l in * by lia. rewrite (wrap_small 8), lor_nibbles, S1 by (done || unfold is_u; change (2 ^ 8) with 256; lia).
    exists out1. rewrite app_nil_r. by split_and!.
Qed.

(** * Matching *)

Definition table_ok (t : list Z) : Prop := zlen t = HASH_SIZE /\ Forall (is_u 16) t.

Lemma hash4_range s : 0 <= hash4 s < HASH_SIZE.
Proof.
  unfold hash4. change HASH_MASK with (Z.ones 12). rewrite Z.land_ones by lia.
  change HASH_SIZE with (2 ^ 12). apply Z.mod_pos_bound. lia.
Qed.

Lemma table_get t s : table_ok t -> exists c, get_at t (hash4 s) = Some c /\ is_u 16 c.
Proof.
  intros [L F]. destruct (get_at_some t (hash4 s)) as (c & E & K); [rewrite L; apply hash4_range |].
  exists c. split; [done |]. by apply (Forall_lookup_1 _ _ _ _ F K).
Qed.

Lemma table_set t s v : table_ok t -> exists t', set_at t (hash4 s) (wrap 16 v) = Some t' /\ table_ok t'.
Proof.
  intros [L F]. rewrite set_at_some by (rewrite L; apply hash4_range). eexists. split; [done |]. split.
  - unfold zlen in *. by rewrite length_insert.
  - apply Forall_insert; [done | by apply wrap_range].
Qed.

Lemma read_u32_le_some src pos : 0 <= pos -> pos + 4 <= zlen src -> exists w, read_u32_le src pos = Some w.
Proof. intros. unfold read_u32_le. rewrite slice_some by (unfold zlen in *; lia). eauto. Qed.

(** Two equal words are the same four bytes. *)
Lemma read_u32_le_eq src i j w :
  Forall (is_u 8) src -> 0 <= i -> 0 <= j -> read_u32_le src i = Some w -> read_u32_le src j = Some w ->
  forall k, 0 <= k < 4 -> get_at src (i + k) = get_at src (j + k).
Proof.
  unfold read_u32_le. intros B Hi Hj Ei Ej k Hk. destruct (slice src i 4) as [a |] eqn:Ea; [| done]. destruct (slice src j 4) as [b |] eqn:Eb; [| done].
  injection Ei as Ei. injection Ej as Ej. apply slice_inv in Ea as (La & -> & Na); [| lia | lia]. apply slice_inv in Eb as (Lb & -> & Nb); [| lia | lia].
  assert (E : take (Z.to_nat 4) (drop (Z.to_nat i) src) = take (Z.to_nat 4) (drop (Z.to_nat j) src)).
  { apply le_value_inj; auto using Forall_take, Forall_drop; [unfold zlen in *; lia | congruence]. }
  apply (f_equal (fun l => l !! Z.to_nat k)) in E. rewrite !lookup_slice, !decide_True in E by lia.
  rewrite !get_at_lookup, !Z2Nat.inj_add by lia. done.
Qed.

(** The bytes from [i] and from [j] agree over [n]. *)
Definition agree (src : list Z) (i j n : Z) : Prop := forall k, 0 <= k < n -> get_at src (i + k) = get_at src (j + k).

(** The rules of the format for the end of a block: with [left] bytes after the
    last match, at least the last five bytes are literals and the last match
    starts at least twelve bytes before the end. *)
Definition ends_early (ss : list Sequence) (left : Z) : Prop :=
  match last ss with None => True | Some q => 5 <= left /\ 12 <= q.(match_len) + left end.

Section Encode.
Context (input : list Z) (Hin : Forall (is_u 8) input) (Hlen : zlen input < 2 ^ 63).
Abbreviation mflimit := (zlen input - MFLIMIT).
Abbreviation matchlimit := (zlen input - LAST_LITERALS).

Lemma find_match_ok fuel t forward step nb :
  table_ok t -> 0 <= forward < mflimit -> 0 <= step <= 2 ^ 26 -> is_u 32 nb -> (step = 0 -> 1 <= nb <= 64) ->
  66 * (zlen input - forward) + (if step =? 0 then 65 - nb else 0) < Z.of_nat fuel ->
  exists r t', find_match fuel input t mflimit forward step nb = Some (r, t') /\ table_ok t' /\
    forall p c off, r = Some (p, c, off) -> forward <= p < mflimit /\ 0 <= c /\ off = p - c /\ 1 <= off <= 65535 /\ agree input p c 4.
Proof using Hin Hlen.
  revert t forward step nb. induction fuel as [| fuel IH]; intros t forward step nb Ht Hf Hs Hnb H0 M.
  { unfold is_u, MFLIMIT in *. destruct (Z.eqb_spec step 0); lia. }
  cbn [find_match]. destruct (read_u32_le_some input forward) as [w Ew]; [lia | unfold MFLIMIT in *; lia |]. rewrite Ew.
  destruct (table_get t w Ht) as (c & -> & Hc). destruct (table_set t w forward Ht) as (t1 & -> & Ht1).
  rewrite (wrap_small 64 (forward + step)) by (unfold is_u, MFLIMIT in *; lia).
  destruct (Z.leb_spec mflimit (forward + step)) as [G | G]; [by exists None, t1 |].
  assert (C : exists r t', find_match fuel input t1 mflimit (forward + step) (Z.shiftr nb 6) (wrap 32 (nb + 1)) = Some (r, t') /\ table_ok t' /\
    forall p c off, r = Some (p, c, off) -> forward <= p < mflimit /\ 0 <= c /\ off = p - c /\ 1 <= off <= 65535 /\ agree input p c 4).
  { unfold is_u in Hnb. assert (Hq : Z.shiftr nb 6 = nb / 64) by (rewrite Z.shiftr_div_pow2 by lia; done). rewrite Hq.
    assert (W : wrap 32 (nb + 1) = if nb =? 2 ^ 32 - 1 then 0 else nb + 1).
    { destruct (Z.eqb_spec nb (2 ^ 32 - 1)) as [-> |]; [done |]. apply wrap_small. unfold is_u. lia. }
    assert (Dq : 0 <= nb / 64 <= 2 ^ 26) by (split; [apply Z.div_pos; lia | apply Z.div_le_upper_bound; lia]).
    assert (Z0 : nb / 64 = 0 -> nb < 64) by (intros E; pose proof (Z.div_mod nb 64 ltac:(lia)); pose proof (Z.mod_pos_bound nb 64 ltac:(lia)); lia).
    destruct (IH t1 (forward + step) (nb / 64) (wrap 32 (nb + 1)) Ht1) as (r & t' & E & T & K); [lia | lia | by apply wrap_range | | |].
    - intros E. rewrite W. destruct (Z.eqb_spec nb (2 ^ 32 - 1)); [specialize (Z0 E); lia |]. specialize (Z0 E). lia.
    - rewrite W. destruct (Z.eqb_spec (nb / 64) 0) as [E | E]; destruct (Z.eqb_spec step 0) as [S | S];
        destruct (Z.eqb_spec nb (2 ^ 32 - 1)); try (specialize (Z0 E)); try (specialize (H0 S)); lia.
    - exists r, t'. split_and!; [done | done |]. intros p c' off Er. destruct (K p c' off Er) as ((? & ?) & ?). split; [lia | done]. }
  destruct (Z.eqb_spec c U16_MAX); [exact C |]. destruct ((wrap 64 (forward - c) =? 0) || (65535 <? wrap 64 (forward - c))) eqn:O; [exact C |].
  apply orb_false_iff in O as [O1 O2]. apply Z.eqb_neq in O1. apply Z.ltb_ge in O2.
  assert (c < forward /\ wrap 64 (forward - c) = forward - c) as [Hcf Wo].
  { unfold is_u, MFLIMIT in *. destruct (Z.le_gt_cases c forward).
    - rewrite wrap_small in * by (unfold is_u; lia). lia.
    - rewrite wrap_negative in O2 by lia. lia. }
  rewrite Wo in *. destruct (read_u32_le_some input c) as [a Ea]; [unfold is_u in Hc; lia | unfold MFLIMIT in *; lia |].
  rewrite Ea. destruct (Z.eqb_spec a w) as [-> |]; [| exact C].
  exists (Some (forward, c, forward - c)), t1. split_and!; [done | done |]. intros p c' off [= <- <- <-].
  unfold is_u in Hc. split_and!; try lia. intros k Hk. eapply read_u32_le_eq; eauto; lia.
Qed.

Lemma extend_back_ok fuel anchor ip ref n :
  0 <= anchor <= ip -> ip <= Z.of_nat fuel -> ip < zlen input -> 0 <= ref < ip -> 0 <= n -> agree input ip ref n ->
  exists k, extend_back fuel input anchor ip ref = Some (ip - k, ref - k) /\
    0 <= k <= ip - anchor /\ k <= ref /\ agree input (ip - k) (ref - k) (n + k).
Proof using Type.
  revert ip ref n. induction fuel as [| fuel IH]; intros ip ref n Ha Hf Hi Hr Hn A; cbn [extend_back].
  all: assert (D : exists k, Some (ip, ref) = Some (ip - k, ref - k) /\ 0 <= k <= ip - anchor /\ k <= ref /\ agree input (ip - k) (ref - k) (n + k))
    by (exists 0; rewrite !Z.sub_0_r, Z.add_0_r; split_and!; done || lia).
  all: destruct ((anchor <? ip) && (0 <? ref)) eqn:G; [| exact D]; reflect.
  - lia.
  - destruct (get_at_some input (ip - 1)) as (a & Ea & _); [lia |]. destruct (get_at_some input (ref - 1)) as (b & Eb & _); [lia |].
    rewrite Ea, Eb. destruct (Z.eqb_spec a b) as [<- |]; [| exact D].
    destruct (IH (ip - 1) (ref - 1) (n + 1)) as (k & -> & K1 & K2 & K3); try lia.
    { intros j Hj. destruct (decide (j = 0)) as [-> |]; [by rewrite !Z.add_0_r, Ea, Eb |].
      replace (ip - 1 + j) with (ip + (j - 1)) by lia. replace (ref - 1 + j) with (ref + (j - 1)) by lia. apply A. lia. }
    exists (k + 1). replace (ip - (k + 1)) with (ip - 1 - k) by lia. replace (ref - (k + 1)) with (ref - 1 - k) by lia.
    replace (n + (k + 1)) with (n + 1 + k) by lia. split_and!; done || lia.
Qed.

Lemma extend_forward_ok fuel ip0 ref0 limit n :
  0 <= ref0 < ip0 -> 0 <= n -> ip0 + n <= limit <= zlen input -> limit - (ip0 + n) <= Z.of_nat fuel -> agree input ip0 ref0 n ->
  exists len, extend_forward fuel input limit (ip0 + n) (ref0 + n) n = Some (ip0 + len, len) /\
    n <= len /\ ip0 + len <= limit /\ agree input ip0 ref0 len.
Proof using Type.
  revert n. induction fuel as [| fuel IH]; intros n Hr Hn Hl Hf A; cbn [extend_forward].
  all: assert (D : exists len, Some (ip0 + n, n) = Some (ip0 + len, len) /\ n <= len /\ ip0 + len <= limit /\ agree input ip0 ref0 len)
    by (exists n; split_and!; done || lia).
  all: destruct (Z.ltb_spec (ip0 + n) limit); [| exact D].
  - lia.
  - destruct (get_at_some input (ip0 + n)) as (a & Ea & _); [lia |]. destruct (get_at_some input (ref0 + n)) as (b & Eb & _); [lia |].
    rewrite Ea, Eb. destruct (Z.eqb_spec a b) as [<- |]; [| exact D].
    destruct (IH (n + 1)) as (len & E & L1 & L2 & L3); try lia.
    { intros j Hj. destruct (decide (j = n)) as [-> |]; [by rewrite Ea, Eb | apply A; lia]. }
    rewrite !Z.add_assoc in E. exists len. split_and!; done || lia.
Qed.

(** A match over bytes that agree extends the decoded prefix. *)
Lemma repeat_match_prefix n i off :
  (1 <= off <= i)%nat -> (i + n <= length input)%nat ->
  agree input (Z.of_nat i) (Z.of_nat i - Z.of_nat off) (Z.of_nat n) ->
  repeat_match n off (take i input) = take (i + n) input.
Proof using Type.
  revert i. induction n as [| n IH]; intros i Ho Hl A; simpl; [by rewrite Nat.add_0_r |].
  rewrite length_take, Nat.min_l by lia. destruct (lookup_lt_is_Some_2 input i) as [x Ex]; [lia |].
  assert (E : nth (i - off) (take i input) 0 = x).
  { specialize (A 0 ltac:(lia)). rewrite !Z.add_0_r in A. rewrite get_at_nat, Ex in A.
    replace (Z.of_nat i - Z.of_nat off) with (Z.of_nat (i - off)) in A by lia. rewrite get_at_nat in A.
    rewrite nth_lookup, lookup_take_lt by lia. by rewrite <- A. }
  rewrite E, <- take_S_r by done. replace (i + S n)%nat with (S i + n)%nat by lia. apply IH; [lia | lia |].
  intros k Hk. replace (Z.of_nat (S i) + k) with (Z.of_nat i + (k + 1)) by lia.
  replace (Z.of_nat (S i) - Z.of_nat off + k) with (Z.of_nat i - Z.of_nat off + (k + 1)) by lia. apply A. lia.
Qed.

(** The room a sequence takes, paid for by the input it covers. *)
Lemma sequence_room lits off len pos a :
  0 <= a -> 0 <= off <= 65535 -> 4 <= len -> pos <= a + a / 255 ->
  pos + zlen (sequence_bytes (mk_sequence lits off len)) <= (a + zlen lits + len) + (a + zlen lits + len) / 255.
Proof using Type.
  intros Ha Ho Hl Hp. unfold sequence_bytes. cbn [literals offset match_len]. rewrite zlen_cons, !zlen_app.
  change (zlen [off mod 256; off / 256]) with 2. pose proof (zlen_nonneg lits). set (L := zlen lits) in *.
  assert (X : forall n, 0 <= n -> zlen (extended n) = if 15 <=? n then (n - 15) / 255 + 1 else 0).
  { intros n Hn. unfold extended. destruct (Z.leb_spec 15 n); [apply zlen_extension; lia | done]. }
  rewrite !X by lia. Z.to_euclidean_division_equations. destruct (Z.leb_spec 15 L), (Z.leb_spec 15 (len - 4)); lia.
Qed.

(** The encoder has written the sequences [ss], which denote the input up to the
    anchor. *)
Record encoding (cap : Z) (s : Encoder) (ss : list Sequence) : Prop := {
  en_table : table_ok s.(enc_table);
  en_pos : 0 <= s.(enc_anchor) <= s.(enc_ip) /\ s.(enc_ip) <= zlen input;
  en_filled : filled s.(enc_output) (flat_map sequence_bytes ss);
  en_op : s.(enc_op) = zlen (flat_map sequence_bytes ss);
  en_cap : zlen s.(enc_output) = cap;
  en_ok : sequences_ok [] ss;
  en_value : foldl sequence_value [] ss = take (Z.to_nat s.(enc_anchor)) input;
  en_room : s.(enc_op) <= s.(enc_anchor) + s.(enc_anchor) / 255;
  en_end : ends_early ss (zlen input - s.(enc_anchor))
}.

Lemma sequences_ok_snoc acc ss q :
  sequences_ok acc ss -> sequence_ok (foldl sequence_value acc ss) q -> sequences_ok acc (ss ++ [q]).
Proof using Type. revert acc. induction ss as [| r ss IH]; intros acc; simpl; [done |]. intros [? ?] ?. split; [done |]. by apply IH. Qed.

(** The sequence written for a match of [len] bytes at [i], back by [off]. *)
Lemma sequence_extends anchor i off len :
  0 <= anchor <= i -> 1 <= off <= 65535 -> off <= i -> 4 <= len -> i + len <= zlen input -> agree input i (i - off) len ->
  let lits := take (Z.to_nat (i - anchor)) (drop (Z.to_nat anchor) input) in
  zlen lits = i - anchor /\
  sequence_ok (take (Z.to_nat anchor) input) (mk_sequence lits off len) /\
  sequence_value (take (Z.to_nat anchor) input) (mk_sequence lits off len) = take (Z.to_nat (i + len)) input.
Proof using Hin.
  intros Ha Ho Hr Hl Hi A lits. assert (Ll : zlen lits = i - anchor).
  { subst lits. unfold zlen in *. rewrite length_take, length_drop. lia. }
  split_and!; [done | |].
  - split; cbn [literals offset match_len]; [| done | | done].
    + subst lits. auto using Forall_take, Forall_drop.
    + rewrite Ll. unfold zlen in *. rewrite length_take. lia.
  - unfold sequence_value. cbn [literals offset match_len]. subst lits.
    rewrite take_take_drop. replace (Z.to_nat anchor + Z.to_nat (i - anchor))%nat with (Z.to_nat i) by lia.
    rewrite repeat_match_prefix.
    + f_equal. lia.
    + lia.
    + unfold zlen in *. lia.
    + rewrite !Z2Nat.id by lia. done.
Qed.

Lemma emit_sequence_ok output bs anchor i off len :
  filled output bs -> 0 <= anchor <= i -> i <= zlen input -> 1 <= off <= 65535 -> 4 <= len ->
  let q := mk_sequence (take (Z.to_nat (i - anchor)) (drop (Z.to_nat anchor) input)) off len in
  zlen bs + zlen (sequence_bytes q) <= zlen output ->
  exists out1 op1 out2, emit_literals input output (zlen bs) anchor i off = Some (out1, op1) /\
    emit_match_len out1 (zlen bs) op1 len = Some (out2, zlen (bs ++ sequence_bytes q)) /\
    zlen out2 = zlen output /\ filled out2 (bs ++ sequence_bytes q).
Proof using Type.
  intros F Ha Hi Ho Hl q L. unfold q in *. rewrite sequence_bytes_header in *. rewrite zlen_cons, zlen_app in L.
  pose proof (zlen_nonneg (extended (len - 4))).
  destruct (emit_literals_ok input output bs anchor i off F Ha Hi Ho ltac:(lia)) as (out1 & E1 & O1 & F1).
  destruct (emit_match_len_ok out1 bs _ _ len F1 Hl) as (out2 & E2 & O2 & F2); [rewrite zlen_app, zlen_cons; lia |].
  exists out1; eexists; exists out2. split_and!; [exact E1 | exact E2 | lia | exact F2].
Qed.

Lemma encode_step_ok cap s ss :
  zlen input + zlen input / 255 + 16 <= cap -> encoding cap s ss -> s.(enc_ip) < mflimit ->
  encode_step input mflimit matchlimit s = Some None \/
  exists s' q, encode_step input mflimit matchlimit s = Some (Some s') /\ encoding cap s' (ss ++ [q]) /\
    s.(enc_anchor) + 4 <= s'.(enc_anchor).
Proof using Hin Hlen.
  intros Hc [Et [Ea Ei] Ef Eo Ec Ek Ev Er _] Hi. unfold encode_step.
  destruct (find_match_ok (search_fuel input) (enc_table s) (enc_ip s) 1 (Z.shiftl 1 6)) as (r & t & -> & Ht & K); try done; try lia.
  { unfold search_fuel, zlen in *. change (1 =? 0) with false. cbn iota. lia. }
  destruct r as [[[p c] off] |]; [| by left]. right. destruct (K p c off eq_refl) as (Hp & Hc0 & -> & Ho & A). clear K. unfold MFLIMIT, LAST_LITERALS, MIN_MATCH in *.
  destruct (extend_back_ok (length input) (enc_anchor s) p c 4) as (k & -> & K1 & K2 & A'); try (unfold zlen in *; lia); [exact A |].
  set (i := p - k) in *.
  destruct (extend_forward_ok (length input) i (c - k) (zlen input - 5) 4) as (len & Ef' & L1 & L2 & A2); try (unfold zlen in *; lia).
  { intros j Hj. apply A'. lia. }
  replace (c - k) with (i - (p - c)) in A2 by lia.
  destruct (sequence_extends (enc_anchor s) i (p - c) len) as (Ll & Qok & Qv); try lia; [exact A2 |].
  set (off := p - c) in *. rewrite <- Ev in Qok, Qv. set (q := mk_sequence _ off len) in *.
  assert (R : enc_op s + zlen (sequence_bytes q) <= i + len + (i + len) / 255).
  { pose proof (sequence_room (literals q) off len (enc_op s) (enc_anchor s) ltac:(lia) ltac:(lia) ltac:(lia) Er) as R.
    cbn [literals q] in R. rewrite Ll in R. by replace (enc_anchor s + (i - enc_anchor s) + len) with (i + len) in R by lia. }
  assert (Rc : enc_op s + zlen (sequence_bytes q) <= cap).
  { pose proof (Z.div_le_mono (i + len) (zlen input) 255 ltac:(lia) ltac:(lia)). lia. }
  rewrite Eo in Rc. rewrite <- Ec in Rc.
  destruct (emit_sequence_ok (enc_output s) _ (enc_anchor s) i off len Ef ltac:(lia) ltac:(lia) ltac:(lia) ltac:(lia) Rc)
    as (out1 & op1 & out2 & E1 & E2 & L & F2).
  fold q in E2, F2. rewrite Eo, E1, Ef', E2.
  assert (En : forall t' ip', table_ok t' -> i + len <= ip' <= zlen input ->
    encoding cap (mk_encoder t' ip' (i + len) out2 (zlen (flat_map sequence_bytes ss ++ sequence_bytes q))) (ss ++ [q])).
  { intros t' ip' Ht' Hip'. split; cbn [enc_table enc_ip enc_anchor enc_output enc_op]; try done; try lia.
    all: rewrite ?flat_map_app; cbn [flat_map]; rewrite ?app_nil_r; try done.
    - by apply sequences_ok_snoc.
    - by rewrite foldl_app.
    - rewrite zlen_app, <- Eo. exact R.
    - unfold ends_early. rewrite last_snoc. change (match_len q) with len. lia. }
  destruct (Z.ltb_spec (i + len) (zlen input - 12)).
  - destruct (read_u32_le_some input (i + len)) as [w ->]; [lia | lia |]. destruct (table_set t w (i + len) Ht) as (t' & -> & Ht').
    eexists _, q. split_and!; [reflexivity | apply En; [done | lia] | cbn; lia].
  - eexists _, q. split_and!; [reflexivity | apply En; [done | lia] | cbn; lia].
Qed.

Lemma encode_loop_ok fuel cap s ss :
  zlen input + zlen input / 255 + 16 <= cap -> encoding cap s ss -> zlen input - s.(enc_anchor) <= Z.of_nat fuel ->
  exists s' ss', encode_loop fuel input mflimit matchlimit s = Some s' /\ encoding cap s' ss'.
Proof using Hin Hlen.
  intros Hc. revert s ss. induction fuel as [| fuel IH]; intros s ss E Hf; cbn [encode_loop];
    destruct (Z.ltb_spec (enc_ip s) mflimit) as [G | G]; try (by exists s, ss).
  - destruct E as [_ [? ?] _ _ _ _ _ _ _]. unfold MFLIMIT in *. lia.
  - destruct (encode_step_ok cap s ss Hc E G) as [-> | (s' & q & -> & E' & A)]; [by exists s, ss |]. apply (IH s' (ss ++ [q]) E'). lia.
Qed.
End Encode.

Lemma max_len_value n : 0 <= n < 2 ^ 63 -> lz4_max_compressed_len n = n + n / 255 + 16.
Proof.
  intros H. unfold lz4_max_compressed_len. assert (0 <= n / 255 <= n) by (split; [apply Z.div_pos; lia | apply Z.div_le_upper_bound; lia]).
  rewrite (wrap_small 64 (n + n / 255)) by (unfold is_u; lia). apply wrap_small. unfold is_u.
  assert (n / 255 < 2 ^ 60) by (apply Z.div_lt_upper_bound; lia). lia.
Qed.

(** What the encoder leaves: a block of the input, within the bound. *)
Definition encodes (input output : list Z) (r : option (Result Z CompressError * list Z)) (b : Block) : Prop :=
  exists output', r = Some (Ok (zlen (block_bytes b)), output') /\ zlen output' = zlen output /\ filled output' (block_bytes b) /\
    block_ok b /\ block_value b = input /\ ends_early b.(sequences) (zlen b.(trailing)) /\
    zlen (block_bytes b) <= zlen input + zlen input / 255 + 16.

Lemma emit_tail_block input output ss anchor out :
  Forall (is_u 8) input -> zlen input + zlen input / 255 + 16 <= zlen output -> 0 <= anchor <= zlen input ->
  sequences_ok [] ss -> foldl sequence_value [] ss = take (Z.to_nat anchor) input -> ends_early ss (zlen input - anchor) ->
  zlen (flat_map sequence_bytes ss) <= anchor + anchor / 255 -> filled out (flat_map sequence_bytes ss) -> zlen out = zlen output ->
  exists b, encodes input output (emit_last_literals input anchor out (zlen (flat_map sequence_bytes ss))) b.
Proof.
  intros B C Ha Hs Hv He Hr Hf Ho. set (lits := drop (Z.to_nat anchor) input).
  assert (Hn : zlen lits = zlen input - anchor) by (subst lits; unfold zlen in *; rewrite length_drop; lia).
  assert (D : anchor / 255 + (zlen input - anchor) / 255 <= zlen input / 255) by (Z.to_euclidean_division_equations; lia).
  destruct (emit_last_literals_ok input anchor out _ Hf Ha ltac:(lia)) as (out2 & E2 & O2 & F2). fold lits in E2, F2.
  exists (mk_block ss 0 lits), out2. rewrite block_bytes_eq. cbn [sequences last_nibble trailing]. split_and!; [done | lia | done | | | by rewrite Hn |].
  - split; cbn [sequences last_nibble trailing]; [done | by unfold is_u | apply Forall_drop, B].
  - unfold block_value. cbn [sequences trailing]. rewrite Hv. apply take_drop.
  - rewrite zlen_app. unfold last_bytes. rewrite zlen_cons, zlen_app, Hn. unfold extended. destruct (Z.leb_spec 15 (zlen input - anchor)).
    + rewrite zlen_extension by lia. pose proof (Z.div_le_mono (zlen input - anchor - 15) (zlen input - anchor) 255 ltac:(lia) ltac:(lia)). lia.
    + change (zlen []) with 0. pose proof (Z.div_pos (zlen input - anchor) 255 ltac:(lia) ltac:(lia)). lia.
Qed.

(** The encoder writes a block of its input. *)
Lemma lz4_encode_block input output :
  Forall (is_u 8) input -> zlen input < 2 ^ 63 -> lz4_max_compressed_len (zlen input) <= zlen output ->
  exists b, encodes input output (lz4_encode input output) b.
Proof.
  intros B L C. pose proof (zlen_nonneg input). rewrite max_len_value in C by lia.
  unfold lz4_encode. rewrite max_len_value, (proj2 (Z.ltb_ge _ _)) by lia.
  destruct (Z.ltb_spec (zlen input) (MFLIMIT + MIN_MATCH)) as [G | G].
  { apply (emit_tail_block input output [] 0); try done; try lia. apply filled_nil. }
  unfold MFLIMIT, MIN_MATCH in G. destruct (read_u32_le_some input 0) as [w ->]; [lia | lia |].
  destruct (table_set (replicate (Z.to_nat HASH_SIZE) U16_MAX) w 0) as (t & Et & Ht).
  { split; [by rewrite zlen_replicate | by apply Forall_replicate]. }
  change (wrap 16 0) with 0 in Et. rewrite Et.
  destruct (encode_loop_ok input B L (length input) (zlen output) (mk_encoder t 1 0 output 0) []) as (s & ss & -> & E).
  - lia.
  - split; cbn; try done; try lia. apply filled_nil.
  - cbn. unfold zlen. lia.
  - destruct E as [_ ? ? Eo ? ? ? Er ?]. rewrite Eo in *. apply emit_tail_block; try done. lia.
Qed.

(** * Properties of the codec *)

(** C7: For every input, however long, and every buffer: the encoder returns.
    A buffer below [lz4_max_compressed_len] is refused untouched; any other
    receives a well-formed LZ4 block that denotes the input, obeys the format's
    rules for the end of a block and is no longer than that bound. *)
Theorem lz4_encode_correct input output :
  Forall (is_u 8) input -> zlen input < 2 ^ 63 ->
  if zlen output <? lz4_max_compressed_len (zlen input)
  then lz4_encode input output = Some (Err OutputTooSmall, output)
  else exists b n output', lz4_encode input output = Some (Ok n, output') /\ length output' = length output /\
    take (Z.to_nat n) output' = block_bytes b /\ block_ok b /\ block_value b = input /\
    ends_early b.(sequences) (zlen b.(trailing)) /\ n <= lz4_max_compressed_len (zlen input).
Proof.
  intros B L. destruct (Z.ltb_spec (zlen output) (lz4_max_compressed_len (zlen input))) as [G | G].
  - unfold lz4_encode. by rewrite (proj2 (Z.ltb_lt _ _)) by lia.
  - destruct (lz4_encode_block input output B L G) as (b & output' & E & Lo & F & Ok_ & V & Ee & Lb).
    exists b, (zlen (block_bytes b)), output'. rewrite max_len_value by (pose proof (zlen_nonneg input); lia).
    split_and!; try done; [unfold zlen in *; lia |]. unfold zlen. rewrite Nat2Z.id. by apply filled_take.
Qed.

(** C8: For every input of bytes below 2^54 of them, decoding what the encoder
    wrote gives the input back, into any buffer that can hold it, and writes
    nothing after it. *)
Theorem lz4_roundtrip input output buf :
  Forall (is_u 8) input -> zlen input < 2 ^ 54 -> lz4_max_compressed_len (zlen input) <= zlen output ->
  zlen input <= zlen buf < 2 ^ 63 ->
  exists n output' buf', lz4_encode input output = Some (Ok n, output') /\
    lz4_decode (take (Z.to_nat n) output') buf = Some (Ok (zlen input), buf') /\ buf' = input ++ drop (length input) buf.
Proof.
  intros B L C D. destruct (lz4_encode_block input output B ltac:(lia) C) as (b & output' & E & Lo & F & Ok_ & V & _ & Lb).
  exists (zlen (block_bytes b)), output'. unfold zlen at 2. rewrite Nat2Z.id. rewrite (proj1 (filled_take _ _) F).
  pose proof (zlen_nonneg input). assert (zlen (block_bytes b) < 2 ^ 55).
  { assert (zlen input / 255 < 2 ^ 53) by (apply Z.div_lt_upper_bound; lia). lia. }
  pose proof (lz4_decode_block b buf Ok_ ltac:(done) ltac:(lia)) as X. rewrite V in X. rewrite (proj2 (Z.ltb_ge _ _)) in X by lia.
  destruct X as (buf' & X & Lv & [rest Fv] & Dv). exists buf'. split_and!; [done | done |].
  rewrite Fv in Dv |- *. rewrite drop_app_length in Dv. by rewrite Dv.
Qed.

(** The decoder never panics and always returns, whatever the bytes.  It
    accepts exactly the well-formed LZ4 blocks whose value fits the buffer, and
    what it accepts it decodes to that value; the buffer keeps its length. *)
Lemma lz4_decode_exact input output :
  Forall (is_u 8) input -> zlen input < 2 ^ 55 -> zlen output < 2 ^ 63 ->
  (exists r output', lz4_decode input output = Some (r, output') /\ length output' = length output) /\
  (forall v, (exists output', lz4_decode input output = Some (Ok (zlen v), output') /\ take (length v) output' = v) <->
             (exists b, block_ok b /\ block_bytes b = input /\ block_value b = v /\ zlen v <= zlen output)).
Proof.
  intros B L Lo.
  assert (K : forall b, block_ok b -> block_bytes b = input -> zlen (block_value b) <= zlen output -> exists output',
    lz4_decode input output = Some (Ok (zlen (block_value b)), output') /\ length output' = length output /\ take (length (block_value b)) output' = block_value b).
  { intros b Hb <- Hv. pose proof (lz4_decode_block b output Hb L Lo) as X. rewrite (proj2 (Z.ltb_ge _ _)) in X by lia.
    destruct X as (o & X & Lx & Fx & _). exists o. split_and!; [done | unfold zlen in Lx; lia | by apply filled_take]. }
  split.
  - destruct (lz4_decode_cases input output B L Lo) as [(e & o & X & Lx) | (b & -> & Hb & Hv)].
    + exists (Err e), o. unfold zlen in Lx. split; [done | lia].
    + destruct (K b Hb eq_refl Hv) as (o & X & Lx & _). eauto.
  - intros v. split.
    + intros (o & X & T). destruct (lz4_decode_cases input output B L Lo) as [(e & o' & X' & _) | (b & -> & Hb & Hv)]; [congruence |].
      exists b. destruct (K b Hb eq_refl Hv) as (o' & X' & _ & T'). rewrite X in X'. injection X' as X1 <-.
      assert (length v = length (block_value b)) as E by (unfold zlen in X1; lia). rewrite E, T' in T. rewrite <- T. done.
    + intros (b & Hb & E & <- & Hv). destruct (K b Hb E Hv) as (o & X & _ & T). eauto.
Qed.

(** [test_helpers::roundtrip] returns its input. *)
Lemma roundtrip_identity input : Forall (is_u 8) input -> zlen input < 2 ^ 54 -> roundtrip input = Some (Ok input).
Proof.
  intros B L. unfold roundtrip. set (m := lz4_max_compressed_len (zlen input)). pose proof (zlen_nonneg input).
  assert (0 <= m) by (subst m; rewrite max_len_value by lia; pose proof (Z.div_pos (zlen input) 255 ltac:(lia) ltac:(lia)); lia).
  destruct (lz4_encode_block input (replicate (Z.to_nat m) 0) B ltac:(lia)) as (b & o & -> & Lo & F & Ok_ & V & _ & Lb).
  { rewrite zlen_replicate. lia. }
  destruct F as [rest ->]. pose proof (slice_app [] (block_bytes b) rest) as S. cbn [app] in S. change (zlen []) with 0 in S. rewrite S.
  assert (zlen (block_bytes b) < 2 ^ 55).
  { assert (zlen input / 255 < 2 ^ 53) by (apply Z.div_lt_upper_bound; lia). lia. }
  pose proof (lz4_decode_block b (replicate (length input) 0) Ok_ ltac:(done)) as X. rewrite zlen_replicate, V in X. fold (zlen input) in X.
  rewrite Z.ltb_irrefl in X. destruct (X ltac:(lia)) as (o' & -> & _ & F' & _). unfold zlen. rewrite Nat2Z.id. do 2 f_equal. by apply filled_take.
Qed.

(** * Witnesses *)

Definition sample : list Z := Z.of_nat <$> (seq 0 20 ++ seq 0 20 ++ seq 0 20).

Lemma sample_bytes : Forall (is_u 8) sample.
Proof. unfold sample. apply Forall_fmap, Forall_forall. intros x Hx. unfold is_u. simpl. rewrite !elem_of_app, !elem_of_seq in Hx. lia. Qed.

Lemma lz4_encode_correct_witness :
  exists b n output', lz4_encode sample (replicate 76 0) = Some (Ok n, output') /\ take (Z.to_nat n) output' = block_bytes b /\
    block_value b = sample /\ n = 31.
Proof.
  destruct (lz4_encode_correct sample (replicate 76 0) sample_bytes eq_refl) as (b & n & o & E & _ & T & _ & V & _).
  exists b, n, o. split_and!; [exact E | exact T | exact V |]. vm_compute in E. injection E as <- _. reflexivity.
Defined.

Lemma lz4_roundtrip_witness :
  exists n output' buf', lz4_encode sample (replicate 76 0) = Some (Ok n, output') /\
    lz4_decode (take (Z.to_nat n) output') (replicate 64 9) = Some (Ok 60, buf') /\ buf' = sample ++ [9; 9; 9; 9].
Proof.
  apply (lz4_roundtrip sample (replicate 76 0) (replicate 64 9) sample_bytes); [reflexivity | vm_compute; discriminate |].
  split; [vm_compute; discriminate | reflexivity].
Defined.

(** A token for one literal and a match of four at offset one, then no literals. *)
Lemma lz4_decode_exact_witness :
  (exists output', lz4_decode [0x10; 7; 1; 0; 0] (replicate 8 0) = Some (Ok 5, output') /\ take 5 output' = [7; 7; 7; 7; 7]) /\
  exists b, block_ok b /\ block_bytes b = [0x10; 7; 1; 0; 0] /\ block_value b = [7; 7; 7; 7; 7] /\ 5 <= 8.
Proof.
  assert (E : exists output', lz4_decode [0x10; 7; 1; 0; 0] (replicate 8 0) = Some (Ok 5, output') /\ take 5 output' = [7; 7; 7; 7; 7])
    by (eexists; split; [vm_compute; reflexivity | reflexivity]).
  split; [exact E |]. apply (lz4_decode_exact [0x10; 7; 1; 0; 0] (replicate 8 0)); [| reflexivity | reflexivity | exact E].
  repeat constructor; discriminate.
Defined.
