(* ===== verification/Zpool.v ===== *)
(** The compressed page pool ([memory/src/zpool.rs]) and the compressed RAM disk
    on top of it ([memory/src/compressed_ramdisk.rs]).

    The heap allocator is outside: whether each fallible reservation succeeds is
    an argument of the operation that makes it ([Reservations]).  The number of
    slots of a directory chunk is a page divided by the size the compiler gives
    [ZpoolSlot]; it is the section variable [SLOTS_PER_CHUNK], positive as the
    source asserts.  Slot indices are [nat]; the [u32] limit is checked as the
    source checks it.  [None] is a panic.  The disk's lock makes each operation
    one step. *)

From S2P Require Import Prelude Word Slice Lz4.

Definition ZPAGE_SIZE : Z := 4096.
Definition ZPAGE_COMPRESSED_MAX : Z := lz4_max_compressed_len ZPAGE_SIZE.
Definition U32_MAX : Z := 2 ^ 32 - 1.

Inductive ZpoolError : Type := InvalidHandle | OutOfMemory | DecompressFailed.

Record ZpoolStats : Type := mk_stats {
  stored_pages : Z;
  compressed_bytes : Z;
  raw_bytes : Z;
  eviction_count : Z
}.

Inductive ZpoolSlot : Type :=
  | Live (data : list Z) (raw_len : Z)
  | Free (next : option nat).

Record Zpool : Type := mk_zpool {
  slot_chunks : list (list ZpoolSlot);
  slot_count : nat;
  free_head : option nat;
  stats : ZpoolStats
}.

(** The outcome of the reservations of one store, in the order they are made:
    the scratch buffer, the payload, the chunk index and the chunk. *)
Record Reservations : Type := mk_reservations {
  scratch_ok : bool;
  data_ok : bool;
  index_ok : bool;
  chunk_ok : bool
}.

Module zpool.
Section Zpool.
Context (SLOTS_PER_CHUNK : nat).

Definition new : Zpool := mk_zpool [] 0 None (mk_stats 0 0 0 0).

Definition slot (p : Zpool) (index : nat) : option ZpoolSlot :=
  if (p.(slot_count) <=? index)%nat then None
  else
    let* chunk := p.(slot_chunks) !! (index / SLOTS_PER_CHUNK)%nat in
    chunk !! (index mod SLOTS_PER_CHUNK)%nat.

(** [*self.slot_mut(index)? = v]. *)
Definition set_slot (p : Zpool) (index : nat) (v : ZpoolSlot) : option Zpool :=
  if (p.(slot_count) <=? index)%nat then None
  else
    let* chunk := p.(slot_chunks) !! (index / SLOTS_PER_CHUNK)%nat in
    let* _ := chunk !! (index mod SLOTS_PER_CHUNK)%nat in
    Some (mk_zpool (<[(index / SLOTS_PER_CHUNK)%nat := <[(index mod SLOTS_PER_CHUNK)%nat := v]> chunk]> p.(slot_chunks))
            p.(slot_count) p.(free_head) p.(stats)).

(** [self.slot_chunks[chunk_index].push(slot)], with the new chunk pushed first
    when the last one is full. *)
Definition push_slot (a : Reservations) (p : Zpool) (v : ZpoolSlot) : option (Result nat ZpoolError * Zpool) :=
  if U32_MAX <=? Z.of_nat p.(slot_count) then Some (Err OutOfMemory, p)
  else
    let index := p.(slot_count) in
    let chunk_index := (index / SLOTS_PER_CHUNK)%nat in
    let push chunks :=
      let* chunk := chunks !! chunk_index in
      Some (Ok index, mk_zpool (<[chunk_index := chunk ++ [v]]> chunks) (S p.(slot_count)) p.(free_head) p.(stats)) in
    if (chunk_index =? length p.(slot_chunks))%nat then
      if negb a.(index_ok) then Some (Err OutOfMemory, p)
      else if negb a.(chunk_ok) then Some (Err OutOfMemory, p)
      else push (p.(slot_chunks) ++ [[]])
    else push p.(slot_chunks).

Definition set_free_head (p : Zpool) (h : option nat) : Zpool :=
  mk_zpool p.(slot_chunks) p.(slot_count) h p.(stats).

Definition set_stats (p : Zpool) (s : ZpoolStats) : Zpool :=
  mk_zpool p.(slot_chunks) p.(slot_count) p.(free_head) s.

(** The slot the new page goes to: the head of the free list, or a new one. *)
Definition place (a : Reservations) (p : Zpool) (v : ZpoolSlot) : option (Result nat ZpoolError * Zpool) :=
  match p.(free_head) with
  | Some free =>
      let* s := slot p free in
      match s with
      | Live _ _ => None
      | Free next =>
          let* p := set_slot p free v in
          Some (Ok free, set_free_head p next)
      end
  | None => push_slot a p v
  end.

Definition store_with_scratch (a : Reservations) (p : Zpool) (raw scratch : list Z)
  : option (Result nat ZpoolError * Zpool * list Z) :=
  if zlen scratch <? ZPAGE_COMPRESSED_MAX then Some (Err OutOfMemory, p, scratch)
  else
    let* e := lz4_encode raw scratch in
    let '(r, scratch) := e in
    match r with
    | Err _ => Some (Err OutOfMemory, p, scratch)
    | Ok n =>
        if negb a.(data_ok) then Some (Err OutOfMemory, p, scratch)
        else
          let* data := slice scratch 0 n in
          let* r := place a p (Live data (wrap 32 (zlen raw))) in
          let '(idx, p) := r in
          match idx with
          | Err e => Some (Err e, p, scratch)
          | Ok idx =>
              let s := p.(stats) in
              Some (Ok idx,
                set_stats p (mk_stats (wrap 64 (s.(stored_pages) + 1)) (wrap 64 (s.(compressed_bytes) + n))
                  (wrap 64 (s.(raw_bytes) + zlen raw)) s.(eviction_count)),
                scratch)
          end
    end.

Definition store (a : Reservations) (p : Zpool) (raw : list Z) : option (Result nat ZpoolError * Zpool) :=
  if negb a.(scratch_ok) then Some (Err OutOfMemory, p)
  else
    let* r := store_with_scratch a p raw (replicate (Z.to_nat ZPAGE_COMPRESSED_MAX) 0) in
    let '(h, p, _) := r in
    Some (h, p).

Definition load (p : Zpool) (h : nat) (out : list Z) : option (Result unit ZpoolError * list Z) :=
  match slot p h with
  | None => Some (Err InvalidHandle, out)
  | Some (Free _) => Some (Err InvalidHandle, out)
  | Some (Live data raw_len) =>
      if negb (raw_len =? ZPAGE_SIZE) then Some (Err DecompressFailed, out)
      else
        let* d := lz4_decode data out in
        let '(r, out) := d in
        match r with
        | Err _ => Some (Err DecompressFailed, out)
        | Ok n => if negb (n =? ZPAGE_SIZE) then Some (Err DecompressFailed, out) else Some (Ok tt, out)
        end
  end.

Definition free (p : Zpool) (h : nat) : option Zpool :=
  let next_free := p.(free_head) in
  match slot p h with
  | None => Some p
  | Some (Free _) => Some p
  | Some (Live data raw_len) =>
      let* p := set_slot p h (Free next_free) in
      let s := p.(stats) in
      Some (set_stats (set_free_head p (Some h))
        (mk_stats (wrap 64 (s.(stored_pages) - 1)) (wrap 64 (s.(compressed_bytes) - zlen data))
           (wrap 64 (s.(raw_bytes) - raw_len)) (wrap 64 (s.(eviction_count) + 1))))
  end.

Definition slot_capacity (p : Zpool) : nat := p.(slot_count).
End Zpool.
End zpool.

(** * The compressed RAM disk *)

Inductive RamDiskError : Type := OutOfRange | DiskOutOfMemory | DecodeFailed | BufferTooSmall.

Record CompressedRamDisk : Type := mk_disk {
  pool : Zpool;
  index : list (option nat);
  capacity_lba : Z
}.

Module ramdisk.
Section RamDisk.
Context (SLOTS_PER_CHUNK : nat).

Definition new (capacity_lba : Z) : CompressedRamDisk :=
  mk_disk zpool.new (replicate (Z.to_nat capacity_lba) None) capacity_lba.

Definition read_page (d : CompressedRamDisk) (lba : Z) (out : list Z) : option (Result unit RamDiskError * list Z) :=
  if d.(capacity_lba) <=? lba then Some (Err OutOfRange, out)
  else
    let* e := get_at d.(index) lba in
    match e with
    | None => Some (Ok tt, (fun _ => 0) <$> out)
    | Some h =>
        let* r := zpool.load SLOTS_PER_CHUNK d.(pool) h out in
        let '(r, out) := r in
        Some (match r with Ok _ => Ok tt | Err _ => Err DecodeFailed end, out)
    end.

(** [if let Some(h) = inner.index[lba].take() { inner.pool.free(h) }]. *)
Definition release (d : CompressedRamDisk) (lba : Z) : option CompressedRamDisk :=
  let* e := get_at d.(index) lba in
  match e with
  | None => Some d
  | Some h =>
      let* index := set_at d.(index) lba None in
      let* pool := zpool.free SLOTS_PER_CHUNK d.(pool) h in
      Some (mk_disk pool index d.(capacity_lba))
  end.

Definition write_page (a : Reservations) (d : CompressedRamDisk) (lba : Z) (data : list Z)
  : option (Result unit RamDiskError * CompressedRamDisk) :=
  if d.(capacity_lba) <=? lba then Some (Err OutOfRange, d)
  else if forallb (fun b => b =? 0) data then
    let* d := release d lba in
    Some (Ok tt, d)
  else
    let* d := release d lba in
    let* r := zpool.store SLOTS_PER_CHUNK a d.(pool) data in
    let '(h, pool) := r in
    match h with
    | Err _ => Some (Err DiskOutOfMemory, mk_disk pool d.(index) d.(capacity_lba))
    | Ok h =>
        let* index := set_at d.(index) lba (Some h) in
        Some (Ok tt, mk_disk pool index d.(capacity_lba))
    end.

(** [for i in 0..n]: the blocks from the [i]-th, [n] of them left. *)
Fixpoint read_blocks (n : nat) (d : CompressedRamDisk) (lba i : Z) (out : list Z) : option (Result unit RamDiskError * list Z) :=
  match n with
  | O => Some (Ok tt, out)
  | S n =>
      let* arr := slice out (i * ZPAGE_SIZE) ZPAGE_SIZE in
      let* r := read_page d (wrap 64 (lba + i)) arr in
      let '(r, arr) := r in
      let* out := write_slice out (i * ZPAGE_SIZE) arr in
      match r with
      | Err e => Some (Err e, out)
      | Ok _ => read_blocks n d lba (i + 1) out
      end
  end.

Definition read (d : CompressedRamDisk) (lba n_blocks : Z) (out : list Z) : option (Result unit RamDiskError * list Z) :=
  if n_blocks =? 0 then Some (Ok tt, out)
  else if zlen out <? n_blocks * ZPAGE_SIZE then Some (Err BufferTooSmall, out)
  else if 2 ^ 64 <=? lba + n_blocks then Some (Err OutOfRange, out)
  else if d.(capacity_lba) <? lba + n_blocks then Some (Err OutOfRange, out)
  else read_blocks (Z.to_nat n_blocks) d lba 0 out.

Fixpoint write_blocks (n : nat) (a : Z -> Reservations) (d : CompressedRamDisk) (lba i : Z) (data : list Z)
  : option (Result unit RamDiskError * CompressedRamDisk) :=
  match n with
  | O => Some (Ok tt, d)
  | S n =>
      let* arr := slice data (i * ZPAGE_SIZE) ZPAGE_SIZE in
      let* r := write_page (a i) d (wrap 64 (lba + i)) arr in
      let '(r, d) := r in
      match r with
      | Err e => Some (Err e, d)
      | Ok _ => write_blocks n a d lba (i + 1) data
      end
  end.

Definition write (a : Z -> Reservations) (d : CompressedRamDisk) (lba n_blocks : Z) (data : list Z)
  : option (Result unit RamDiskError * CompressedRamDisk) :=
  if n_blocks =? 0 then Some (Ok tt, d)
  else if zlen data <? n_blocks * ZPAGE_SIZE then Some (Err BufferTooSmall, d)
  else if 2 ^ 64 <=? lba + n_blocks then Some (Err OutOfRange, d)
  else if d.(capacity_lba) <? lba + n_blocks then Some (Err OutOfRange, d)
  else write_blocks (Z.to_nat n_blocks) a d lba 0 data.
End RamDisk.
End ramdisk.
