(* ===== verification/ZpoolSound.v ===== *)
(** The compressed page pool: the chunked slot directory as one list, the free
    list, the counters, and what a handle holds. *)

From S2P Require Import Prelude Word Slice FreeList Lz4 Lz4Format Lz4Encode Zpool.

(** * The chunked directory *)

(** Every chunk is full but the last, which holds at least one slot. *)
Fixpoint well_chunked {A} (n : nat) (cs : list (list A)) : Prop :=
  match cs with
  | [] => True
  | c :: cs => (0 < length c <= n)%nat /\ (cs <> [] -> length c = n) /\ well_chunked n cs
  end.

Section Chunks.
Context {A : Type} (n : nat) (Hn : (0 < n)%nat).
Implicit Types cs : list (list A).

Lemma index_split i : (i < n)%nat \/ (exists j, i = n + j)%nat.
Proof using Hn. destruct (Nat.lt_ge_cases i n); [by left |]. right. exists (i - n)%nat. lia. Qed.

Lemma chunk_small i : (i < n -> i / n = 0 /\ i mod n = i)%nat.
Proof using Type. intros. by rewrite Nat.div_small, Nat.mod_small. Qed.

Lemma chunk_next j : ((n + j) / n = S (j / n) /\ (n + j) mod n = j mod n)%nat.
Proof using Hn.
  replace (n + j)%nat with (j + 1 * n)%nat by lia. rewrite Nat.div_add, Nat.Div0.mod_add by lia. split; [lia | done].
Qed.

Lemma chunk_lookup cs i : well_chunked n cs -> (cs !! (i / n)%nat ≫= fun c => c !! (i mod n)%nat) = concat cs !! i.
Proof using Hn.
  revert i. induction cs as [| c cs IH]; intros i; [done |]. intros (Hc & Hf & Hw). simpl.
  destruct (index_split i) as [L | [j ->]].
  - destruct (chunk_small i L) as [-> ->]. simpl. destruct (decide (cs = [])) as [-> | N].
    + simpl. by rewrite app_nil_r.
    + rewrite lookup_app_l; [done |]. specialize (Hf N). lia.
  - destruct (chunk_next j) as [-> ->]. simpl. rewrite IH by done. destruct (decide (cs = [])) as [-> | N].
    + simpl. rewrite app_nil_r. symmetry. apply lookup_ge_None_2. lia.
    + specialize (Hf N). rewrite lookup_app_r by lia. f_equal. lia.
Qed.

Lemma chunk_insert cs i x :
  well_chunked n cs -> (i < length (concat cs))%nat ->
  exists c, cs !! (i / n)%nat = Some c /\ is_Some (c !! (i mod n)%nat) /\
    let cs' := <[(i / n)%nat := <[(i mod n)%nat := x]> c]> cs in
    concat cs' = <[i := x]> (concat cs) /\ well_chunked n cs'.
Proof using Hn.
  revert i. induction cs as [| c cs IH]; intros i; [simpl; lia |]. intros (Hc & Hf & Hw) L. simpl in L. rewrite length_app in L.
  destruct (index_split i) as [Li | [j ->]].
  - destruct (chunk_small i Li) as [-> ->]. exists c. assert (Lc : (i < length c)%nat).
    { destruct (decide (cs = [])) as [-> | N]; [simpl in L; lia | specialize (Hf N); lia]. }
    cbn zeta. split_and!; [done | by apply lookup_lt_is_Some_2 | |].
    + simpl. by rewrite insert_app_l.
    + simpl. rewrite length_insert. done.
  - destruct (chunk_next j) as [-> ->]. assert (N : cs <> []) by (intros ->; simpl in L; lia). specialize (Hf N).
    destruct (IH j Hw) as (d & E & S & F & W); [lia |]. exists d. cbn zeta. split_and!; [done | done | |].
    + simpl. rewrite F. replace (n + j)%nat with (length c + j)%nat by lia. by rewrite insert_app_r.
    + simpl. split_and!; [lia | lia | done | exact W].
Qed.

(** The next index is in the last chunk when there is room, or one past it. *)
Lemma chunk_push cs x :
  well_chunked n cs ->
  let i := length (concat cs) in
  ((i / n = length cs)%nat /\ concat (cs ++ [[x]]) = concat cs ++ [x] /\ well_chunked n (cs ++ [[x]])) \/
  ((i / n < length cs)%nat /\ exists c, cs !! (i / n)%nat = Some c /\
    concat (<[(i / n)%nat := c ++ [x]]> cs) = concat cs ++ [x] /\ well_chunked n (<[(i / n)%nat := c ++ [x]]> cs)).
Proof using Hn.
  induction cs as [| c cs IH]; intros W; cbn zeta.
  - left. simpl. rewrite Nat.div_small by lia. split_and!; (done || lia).
  - destruct W as (Hc & Hf & Hw). simpl. rewrite length_app. destruct (decide (cs = [])) as [-> | N].
    + simpl. rewrite Nat.add_0_r, app_nil_r. destruct (decide (length c = n)) as [E | E].
      * left. rewrite E, Nat.div_same by lia. split_and!; (done || lia).
      * right. rewrite Nat.div_small by lia. split; [lia |]. exists c. simpl. rewrite ?app_nil_r, length_app. simpl. split_and!; (done || lia).
    + specialize (Hf N). rewrite Hf. destruct (chunk_next (length (concat cs))) as [-> _].
      destruct (IH Hw) as [(E & F & W) | (E & d & G & F & W)].
      * left. split; [lia |]. rewrite F. split; [by rewrite app_assoc |]. split_and!; (done || lia || exact W).
      * right. split; [lia |]. exists d. simpl. split; [done |]. rewrite F, app_assoc. split_and!; (done || lia || exact W).
Qed.
End Chunks.

Definition vacancy (s : ZpoolSlot) : option (option nat) := match s with Live _ _ => None | Free next => Some next end.

(** * The pool *)

Definition is_live (s : ZpoolSlot) : bool := match s with Live _ _ => true | Free _ => false end.

Definition payload (s : ZpoolSlot) : Z := match s with Live data _ => zlen data | Free _ => 0 end.

Definition live_count (l : list ZpoolSlot) : Z := Z.of_nat (length (filter (fun s => is_live s) l)).

Definition payload_sum (l : list ZpoolSlot) : Z := foldr (fun s acc => payload s + acc) 0 l.

Definition page_ok (page : list Z) : Prop := zlen page = ZPAGE_SIZE /\ Forall (is_u 8) page.

(** The compressed form of a page. *)
Definition packs (data page : list Z) : Prop :=
  exists b, block_ok b /\ block_bytes b = data /\ block_value b = page /\ zlen data <= ZPAGE_COMPRESSED_MAX.

(** Every reservation a store may need. *)
Definition granted (a : Reservations) : bool := a.(scratch_ok) && a.(data_ok) && a.(index_ok) && a.(chunk_ok).

Definition slot_ok (s : ZpoolSlot) : Prop :=
  match s with Live data raw_len => raw_len = ZPAGE_SIZE /\ exists page, page_ok page /\ packs data page | Free _ => True end.

Definition directory (p : Zpool) : list ZpoolSlot := concat p.(slot_chunks).

Record pool_shape (n : nat) (p : Zpool) : Prop := {
  po_chunks : well_chunked n p.(slot_chunks);
  po_count : p.(slot_count) = length (directory p);
  po_limit : Z.of_nat p.(slot_count) <= U32_MAX;
  po_free : exists fl, free_list vacancy (directory p) p.(free_head) fl;
  po_slots : Forall slot_ok (directory p)
}.

Record pool_ok (n : nat) (p : Zpool) : Prop := {
  po_shape :> pool_shape n p;
  po_stored : p.(stats).(stored_pages) = live_count (directory p);
  po_compressed : p.(stats).(compressed_bytes) = payload_sum (directory p);
  po_raw : p.(stats).(raw_bytes) = ZPAGE_SIZE * live_count (directory p);
  po_evictions : is_u 64 p.(stats).(eviction_count)
}.

(** * Counting *)

Lemma live_count_app l k : live_count (l ++ k) = live_count l + live_count k.
Proof. unfold live_count. rewrite filter_app, length_app. lia. Qed.

Lemma payload_sum_app l k : payload_sum (l ++ k) = payload_sum l + payload_sum k.
Proof. unfold payload_sum. induction l; simpl; [done |]. rewrite IHl. lia. Qed.

Definition one (s : ZpoolSlot) : Z := if is_live s then 1 else 0.

Lemma live_count_single s : live_count [s] = one s.
Proof. unfold live_count, one. destruct s; done. Qed.

Lemma count_insert l i s v : l !! i = Some s ->
  live_count (<[i := v]> l) = live_count l - one s + one v /\ payload_sum (<[i := v]> l) = payload_sum l - payload s + payload v.
Proof.
  intros E. pose proof (lookup_lt_Some _ _ _ E). rewrite insert_take_drop by done. rewrite <- (take_drop_middle l i s E) at 3 6.
  change (v :: drop (S i) l) with ([v] ++ drop (S i) l). change (s :: drop (S i) l) with ([s] ++ drop (S i) l).
  rewrite !live_count_app, !payload_sum_app, !live_count_single. unfold payload_sum at 2 5. simpl. lia.
Qed.

(** No counter is close to its width. *)
Lemma counts_bounded l : Forall slot_ok l -> Z.of_nat (length l) <= U32_MAX ->
  0 <= live_count l <= U32_MAX /\ 0 <= payload_sum l <= 4128 * U32_MAX.
Proof.
  intros F L. assert (K : 0 <= live_count l <= Z.of_nat (length l) /\ 0 <= payload_sum l <= 4128 * Z.of_nat (length l)).
  { clear L. induction F as [| s l Hs F IH]; [by cbn |].
    change (s :: l) with ([s] ++ l). rewrite live_count_app, payload_sum_app, live_count_single, length_app. unfold payload_sum at 1 3. simpl.
    assert (0 <= one s <= 1) by (unfold one; destruct (is_live s); lia). assert (0 <= payload s <= 4128); [| lia].
    destruct s as [d r | ?]; simpl; [| lia]. destruct Hs as (_ & page & _ & b & _ & _ & _ & Hd). change ZPAGE_COMPRESSED_MAX with 4128 in Hd.
    pose proof (zlen_nonneg d). lia. }
  unfold U32_MAX in *. lia.
Qed.

Lemma encode_packs raw scratch : page_ok raw -> ZPAGE_COMPRESSED_MAX <= zlen scratch ->
  exists m scratch' data, lz4_encode raw scratch = Some (Ok m, scratch') /\ slice scratch' 0 m = Some data /\ packs data raw /\ zlen data = m.
Proof.
  intros [L B] C. change ZPAGE_COMPRESSED_MAX with 4128 in *. unfold ZPAGE_SIZE in *.
  destruct (lz4_encode_block raw scratch B ltac:(lia)) as (b & o & E & Lo & [rest ->] & Hb & Hv & _ & Lb).
  { rewrite L. exact C. }
  exists (zlen (block_bytes b)), (block_bytes b ++ rest), (block_bytes b). split_and!; [done | | | done].
  - exact (slice_app [] (block_bytes b) rest).
  - exists b. rewrite L in Lb. change (4096 / 255) with 16 in Lb. change ZPAGE_COMPRESSED_MAX with 4128. split_and!; (done || lia).
Qed.

Section Pool.
Context (n : nat) (Hn : (0 < n)%nat).

Lemma slot_directory p i : pool_shape n p -> zpool.slot n p i = directory p !! i.
Proof using Hn.
  intros [W C _ _ _]. unfold zpool.slot, directory in *. rewrite <- (chunk_lookup n Hn) by done.
  destruct (Nat.leb_spec (slot_count p) i); [| by destruct (_ !! _)].
  symmetry. rewrite chunk_lookup by done. apply lookup_ge_None_2. lia.
Qed.

Lemma set_slot_directory p i v s : pool_shape n p -> directory p !! i = Some s ->
  exists p', zpool.set_slot n p i v = Some p' /\ directory p' = <[i := v]> (directory p) /\ well_chunked n p'.(slot_chunks) /\
    p'.(slot_count) = p.(slot_count) /\ p'.(free_head) = p.(free_head) /\ p'.(stats) = p.(stats).
Proof using Hn.
  intros [W C _ _ _] E. pose proof (lookup_lt_Some _ _ _ E) as L. unfold zpool.set_slot.
  rewrite (proj2 (Nat.leb_gt _ _)) by lia. destruct (chunk_insert n Hn (slot_chunks p) i v W L) as (c & -> & [x ->] & F & W').
  eexists. split; [reflexivity |]. by split_and!.
Qed.


(** [p'] is [p] with the slot [h] now [v]. *)
Record updates (p p' : Zpool) (h : nat) (v : ZpoolSlot) : Prop := {
  up_shape : pool_shape n p';
  up_slot : directory p' !! h = Some v;
  up_frame : forall j, j <> h -> directory p' !! j = directory p !! j;
  up_stats : p'.(stats) = p.(stats)
}.

(** Taking the head of the free list. *)
Lemma place_reuses a p v free :
  pool_shape n p -> slot_ok v -> is_live v = true -> p.(free_head) = Some free ->
  exists p' next, zpool.place n a p v = Some (Ok free, p') /\ updates p p' free v /\
    directory p !! free = Some (Free next) /\ directory p' = <[free := v]> (directory p).
Proof using Hn.
  intros P V Lv F. pose proof P as [W C L (fl & Hf) S]. unfold zpool.place. rewrite F in *.
  assert (Vv : vacancy v = None) by (by destruct v).
  destruct (free_list_pop vacancy _ _ _ free v Hf eq_refl Vv) as (s & next & fl' & _ & E & Vs & Hf').
  destruct s as [? ? | next']; [done |]. injection Vs as ->. rewrite slot_directory, E by done.
  destruct (set_slot_directory p free v _ P E) as (p1 & -> & D & W1 & C1 & _ & S1). exists (zpool.set_free_head p1 next), next.
  pose proof (lookup_lt_Some _ _ _ E) as Lf.
  assert (D' : directory (zpool.set_free_head p1 next) = <[free := v]> (directory p)) by exact D.
  split_and!; [done | | done | done]. split; [| rewrite D'; by apply list_lookup_insert_eq | | exact S1].
  2:{ intros j Hj. rewrite D'. by apply list_lookup_insert_ne. }
  split; [exact W1 | | simpl; lia | exists fl'; by rewrite D' | rewrite D'; by apply Forall_insert].
  rewrite D', length_insert. simpl. congruence.
Qed.

Lemma shape_push p cs v :
  pool_shape n p -> slot_ok v -> is_live v = true -> p.(free_head) = None -> Z.of_nat p.(slot_count) < U32_MAX ->
  concat cs = directory p ++ [v] -> well_chunked n cs ->
  updates p (mk_zpool cs (S p.(slot_count)) p.(free_head) p.(stats)) p.(slot_count) v.
Proof using Hn.
  intros [W C L (fl & Hf) S] V Lv F Lim E W'. set (p' := mk_zpool _ _ _ _).
  assert (D : directory p' = directory p ++ [v]) by exact E. split; [| | | done].
  - split; [exact W' | | | |].
    + rewrite D, length_app. simpl. lia.
    + simpl. lia.
    + exists fl. rewrite D. apply free_list_append; [done | by destruct v].
    + rewrite D. apply Forall_app. by split; [| constructor].
  - rewrite D, C, lookup_app_r, Nat.sub_diag by lia. done.
  - intros j Hj. rewrite D. destruct (Nat.lt_ge_cases j (length (directory p))); [by apply lookup_app_l |].
    rewrite (lookup_ge_None_2 (directory p)) by lia. apply lookup_ge_None_2. rewrite length_app. simpl. lia.
Qed.

(** Appending a slot: refused when the directory is full or a reservation
    fails, and then nothing changes. *)
Lemma place_appends a p v :
  pool_shape n p -> slot_ok v -> is_live v = true -> p.(free_head) = None ->
  (zpool.place n a p v = Some (Err OutOfMemory, p) /\ (Z.of_nat p.(slot_count) = U32_MAX \/ a.(index_ok) = false \/ a.(chunk_ok) = false)) \/
  exists p', zpool.place n a p v = Some (Ok p.(slot_count), p') /\ updates p p' p.(slot_count) v /\ directory p' = directory p ++ [v].
Proof using Hn.
  intros P V Lv F. pose proof P as [W C L _ _]. unfold zpool.place, zpool.push_slot. rewrite F.
  destruct (Z.leb_spec U32_MAX (Z.of_nat (slot_count p))) as [G | G]; [left; split; [done | left; lia] |].
  rewrite C. destruct (chunk_push n Hn (slot_chunks p) v W) as [(E & D & W') | (E & c & Ec & D & W')]; fold (directory p) in *.
  - rewrite E, Nat.eqb_refl. destruct (index_ok a); [| left; eauto]. destruct (chunk_ok a); [| left; eauto]. right. simpl.
    rewrite lookup_app_r, Nat.sub_diag by lia. simpl. rewrite <- (Nat.add_0_r (length (slot_chunks p))), insert_app_r.
    eexists. split; [reflexivity |]. rewrite <- C. split; [rewrite <- F at 1; apply shape_push; done || lia | done].
  - rewrite (proj2 (Nat.eqb_neq _ _)) by lia. rewrite Ec. right. eexists. split; [reflexivity |]. rewrite <- C in *.
    split; [rewrite <- F at 1; apply shape_push; done || lia | done].
Qed.

(** * What a handle holds *)

Definition holds (p : Zpool) (h : nat) (page : list Z) : Prop :=
  forall out, zlen out = ZPAGE_SIZE -> zpool.load n p h out = Some (Ok tt, page).

Definition vacant (p : Zpool) (h : nat) : Prop :=
  forall out, zpool.load n p h out = Some (Err InvalidHandle, out).

Lemma load_ext p p' h : pool_shape n p -> pool_shape n p' -> directory p' !! h = directory p !! h ->
  forall out, zpool.load n p' h out = zpool.load n p h out.
Proof using Hn. intros P P' E out. unfold zpool.load. by rewrite !slot_directory, E by done. Qed.

Lemma load_live p h data page : pool_shape n p -> page_ok page -> packs data page ->
  directory p !! h = Some (Live data ZPAGE_SIZE) -> holds p h page.
Proof using Hn.
  intros P [Lp _] (b & Hb & <- & <- & Ld) E out Lo. unfold zpool.load. rewrite slot_directory, E by done. rewrite Z.eqb_refl. simpl negb. cbn iota.
  change ZPAGE_COMPRESSED_MAX with 4128 in Ld. unfold ZPAGE_SIZE in *.
  pose proof (lz4_decode_block b out Hb ltac:(lia) ltac:(lia)) as X. rewrite (proj2 (Z.ltb_ge _ _)) in X by lia.
  destruct X as (out' & -> & Lo' & [rest ->] & _). rewrite Lp. simpl. do 2 f_equal.
  rewrite zlen_app in Lo'. assert (zlen rest = 0) by lia. destruct rest; [apply app_nil_r | rewrite zlen_cons in *; pose proof (zlen_nonneg rest); lia].
Qed.

Lemma load_vacant p h : pool_shape n p -> (forall d r, directory p !! h <> Some (Live d r)) -> vacant p h.
Proof using Hn.
  intros P E out. unfold zpool.load. rewrite slot_directory by done. destruct (directory p !! h) as [[d r | nx] |] eqn:X; try done. by destruct (E d r).
Qed.

Lemma pool_cases p h : pool_shape n p ->
  (vacant p h /\ forall d r, directory p !! h <> Some (Live d r)) \/
  exists data page, page_ok page /\ packs data page /\ holds p h page /\ directory p !! h = Some (Live data ZPAGE_SIZE).
Proof using Hn.
  intros P. destruct (directory p !! h) as [[d r | nx] |] eqn:X.
  - pose proof (Forall_lookup_1 _ _ _ _ (po_slots n p P) X) as (-> & page & Hp & Hk). right. exists d, page. split_and!; try done. by eapply load_live.
  - left. split; [apply load_vacant; [done |] |]; intros; congruence.
  - left. split; [apply load_vacant; [done |] |]; intros; congruence.
Qed.

Lemma place_cases a p v : pool_shape n p -> slot_ok v -> is_live v = true ->
  (zpool.place n a p v = Some (Err OutOfMemory, p) /\ (Z.of_nat p.(slot_count) = U32_MAX \/ a.(index_ok) = false \/ a.(chunk_ok) = false)) \/
  exists h p', zpool.place n a p v = Some (Ok h, p') /\ updates p p' h v /\ (forall d r, directory p !! h <> Some (Live d r)) /\
    live_count (directory p') = live_count (directory p) + 1 /\ payload_sum (directory p') = payload_sum (directory p) + payload v.
Proof using Hn.
  intros P V Lv. destruct (free_head p) as [free |] eqn:F.
  - destruct (place_reuses a p v free P V Lv F) as (p' & next & E & U & X & D). right. exists free, p'.
    destruct (count_insert (directory p) free _ v X) as [Cl Cp]. rewrite <- D in Cl, Cp. unfold one in Cl. rewrite Lv in Cl. simpl in Cl, Cp.
    split_and!; [done | done | intros d r; congruence | lia | lia].
  - destruct (place_appends a p v P V Lv F) as [H | (p' & E & U & D)]; [by left |]. right. exists (slot_count p), p'.
    split_and!; [done | done | | |]; try rewrite D.
    + intros d r. rewrite lookup_ge_None_2 by (rewrite (po_count n p P); lia). done.
    + rewrite live_count_app, live_count_single. unfold one. by rewrite Lv.
    + rewrite payload_sum_app. unfold payload_sum at 2. simpl. lia.
Qed.

Lemma store_spec a p raw : pool_ok n p -> page_ok raw ->
  (zpool.store n a p raw = Some (Err OutOfMemory, p) /\
    (Z.of_nat p.(slot_count) = U32_MAX \/ granted a = false)) \/
  exists h p' data, zpool.store n a p raw = Some (Ok h, p') /\ pool_ok n p' /\ vacant p h /\ holds p' h raw /\
    directory p' !! h = Some (Live data ZPAGE_SIZE) /\
    (forall d r, directory p !! h <> Some (Live d r)) /\ (forall j, j <> h -> directory p' !! j = directory p !! j) /\
    live_count (directory p') = live_count (directory p) + 1.
Proof using Hn.
  intros P R. unfold zpool.store, granted. destruct (scratch_ok a); [| left; split; [done | by right]]. cbn [negb].
  unfold zpool.store_with_scratch. rewrite zlen_replicate, Z2Nat.id by (vm_compute; discriminate). rewrite Z.ltb_irrefl.
  destruct (encode_packs raw (replicate (Z.to_nat ZPAGE_COMPRESSED_MAX) 0) R) as (m & scratch & data & -> & -> & K & Ld); [rewrite zlen_replicate, Z2Nat.id by (vm_compute; discriminate); lia |].
  destruct (data_ok a); [| left; split; [done | by right]]. cbn [negb].
  assert (E4 : wrap 32 (zlen raw) = ZPAGE_SIZE) by (destruct R as [-> _]; done). rewrite E4.
  assert (V : slot_ok (Live data ZPAGE_SIZE)) by (split; [done |]; eauto).
  pose proof P as [Sh E1 E2 E3 E5]. destruct (place_cases a p (Live data ZPAGE_SIZE) Sh V eq_refl) as [[-> Hr] | (h & p' & -> & U & Nl & Cl & Cp)].
  { left. split; [done |]. destruct Hr as [? | [-> | ->]]; [by left | right ..]; by rewrite ?andb_false_r. }
  right. set (q := zpool.set_stats _ _). pose proof U as [Sh' Hs Hf Est]. assert (Shq : pool_shape n q) by (destruct Sh'; by split).
  assert (B : 0 <= live_count (directory p') <= U32_MAX /\ 0 <= payload_sum (directory p') <= 4128 * U32_MAX).
  { apply counts_bounded; [apply (po_slots n p' Sh') | rewrite <- (po_count n p' Sh'); apply (po_limit n p' Sh')]. }
  unfold U32_MAX, payload in *. destruct R as [Lr Br]. exists h, q, data. split_and!; try done.
  - split; [exact Shq | ..]; cbn [q zpool.set_stats stats stored_pages compressed_bytes raw_bytes eviction_count]; change (directory q) with (directory p'); rewrite Est.
    + rewrite E1, wrap_small by (unfold is_u; lia). lia.
    + rewrite E2, wrap_small by (unfold is_u; lia). lia.
    + rewrite E3, Lr. unfold ZPAGE_SIZE. rewrite wrap_small by (unfold is_u; lia). lia.
    + exact E5.
  - by apply load_vacant.
  - by eapply load_live.
Qed.

(** A freed slot becomes the head of the free list. *)
Lemma shape_free p q h data raw_len :
  pool_shape n p -> directory p !! h = Some (Live data raw_len) -> well_chunked n q.(slot_chunks) -> q.(slot_count) = p.(slot_count) ->
  q.(free_head) = Some h -> directory q = <[h := Free (free_head p)]> (directory p) -> pool_shape n q.
Proof using Type.
  intros [W C L (fl & Hf) So] E W1 C1 F1 Dq. split; [exact W1 | | by rewrite C1 | | rewrite Dq; by apply Forall_insert].
  - rewrite Dq, length_insert. congruence.
  - exists (h :: fl). rewrite Dq, F1. by eapply free_list_push.
Qed.

Lemma free_spec p h : pool_ok n p ->
  exists p', zpool.free n p h = Some p' /\ pool_ok n p' /\ vacant p' h /\ (forall d r, directory p' !! h <> Some (Live d r)) /\
    (forall j, j <> h -> directory p' !! j = directory p !! j) /\ (vacant p h -> p' = p) /\
    (forall data r, directory p !! h = Some (Live data r) -> live_count (directory p') = live_count (directory p) - 1) /\
    p'.(slot_count) = p.(slot_count).
Proof using Hn.
  intros P. pose proof P as [Sh E1 E2 E3 E5]. unfold zpool.free. rewrite slot_directory by done.
  destruct (pool_cases p h Sh) as [[Hv Nl] | (data & page & Hp & K & Hh & E)].
  { exists p. destruct (directory p !! h) as [[d r | nx] |] eqn:X; [by destruct (Nl d r) | |]; split_and!; done || (intros; congruence). }
  rewrite E. destruct (set_slot_directory p h (Free (free_head p)) _ Sh E) as (p1 & -> & D & W1 & C1 & F1 & S1).
  set (q := zpool.set_stats _ _). eexists. split; [reflexivity |]. pose proof (lookup_lt_Some _ _ _ E) as Lh.
  assert (Dq : directory q = <[h := Free (free_head p)]> (directory p)) by exact D.
  assert (Nl : forall d r, directory q !! h <> Some (Live d r)) by (intros; rewrite Dq, list_lookup_insert_eq by done; done).
  assert (Shq : pool_shape n q) by (eapply (shape_free p q); eauto). pose proof Sh as [W C L _ So].
  pose proof (counts_bounded (directory p) So ltac:(rewrite <- C; exact L)) as B.
  pose proof (counts_bounded (directory q) (po_slots n q Shq) ltac:(rewrite <- (po_count n q Shq); apply (po_limit n q Shq))) as B'.
  destruct (count_insert (directory p) h _ (Free (free_head p)) E) as [Cl Cp]. rewrite <- Dq in Cl, Cp. unfold one, U32_MAX in *. simpl in Cl, Cp.
  split_and!; [| by apply load_vacant | done | | | lia | exact C1].
  - split; [exact Shq | ..]; cbn [q zpool.set_stats stats stored_pages compressed_bytes raw_bytes eviction_count]; rewrite S1.
    + rewrite E1, wrap_small by (unfold is_u; lia). lia.
    + rewrite E2, wrap_small by (unfold is_u; lia). lia.
    + rewrite E3. unfold ZPAGE_SIZE. rewrite wrap_small by (unfold is_u; lia). lia.
    + by apply wrap_range.
  - intros j Hj. rewrite Dq. by apply list_lookup_insert_ne.
  - intros Hv. specialize (Hv (replicate (Z.to_nat ZPAGE_SIZE) 0)). rewrite Hh in Hv; [done | by rewrite zlen_replicate].
Qed.
End Pool.

(** * The pool as a map from handles to pages *)

Definition simulates (n : nat) (p : Zpool) (m : nat -> option (list Z)) : Prop :=
  pool_ok n p /\ forall h, match m h with Some page => holds n p h page | None => vacant n p h end.

Definition put (m : nat -> option (list Z)) (h : nat) (v : option (list Z)) : nat -> option (list Z) :=
  fun j => if (j =? h)%nat then v else m j.

Lemma new_pool_ok n : pool_ok n zpool.new.
Proof. split; [| done | done | done | by unfold is_u]. split; [done | done | done | | constructor]. exists []. apply free_list_nil. Qed.

Lemma holds_frame n p p' h : (0 < n)%nat -> pool_ok n p -> pool_ok n p' -> directory p' !! h = directory p !! h ->
  forall m : option (list Z), match m with Some page => holds n p h page | None => vacant n p h end ->
    match m with Some page => holds n p' h page | None => vacant n p' h end.
Proof. intros Hn P P' E [page |] H out; [intros L |]; rewrite (load_ext n Hn p p') by (done || apply po_shape; done); by apply H. Qed.

(** C27: The pool is a map from handles to pages.  From any state it can reach,
    with any outcome of the reservations: a store that succeeds returns a handle
    that held nothing and binds it to the page, bit for bit; one that fails
    changes nothing, and it fails only when a reservation is refused or the
    pool has made all its [u32::MAX] slots; [free] unbinds its handle and no other; [load] returns the
    page bound to its handle or rejects it.  No operation panics, and the pool's
    counters stay exact. *)
Theorem zpool_refines_map n p m :
  (0 < n)%nat -> simulates n p m ->
  (forall a raw, page_ok raw -> exists r p', zpool.store n a p raw = Some (r, p') /\
    match r with
    | Ok h => m h = None /\ simulates n p' (put m h (Some raw))
    | Err e => e = OutOfMemory /\ p' = p /\ (Z.of_nat p.(slot_count) = U32_MAX \/ granted a = false)
    end) /\
  (forall h, exists p', zpool.free n p h = Some p' /\ simulates n p' (put m h None)) /\
  (forall h out, zlen out = ZPAGE_SIZE ->
    zpool.load n p h out = match m h with Some page => Some (Ok tt, page) | None => Some (Err InvalidHandle, out) end).
Proof.
  intros Hn [P M]. split_and!.
  - intros a raw R. destruct (store_spec n Hn a p raw P R) as [[-> Hr] | (h & p' & data & -> & P' & V & H & _ & _ & F & _)]; [by exists (Err OutOfMemory), p |].
    exists (Ok h), p'. split; [done |]. split.
    + specialize (M h). destruct (m h) as [page |]; [| done]. specialize (M (replicate (Z.to_nat ZPAGE_SIZE) 0)). rewrite V in M.
      specialize (M ltac:(by rewrite zlen_replicate)). done.
    + split; [done |]. intros j. unfold put. destruct (Nat.eqb_spec j h) as [-> | N]; [done |]. exact (holds_frame n p p' j Hn P P' (F j N) (m j) (M j)).
  - intros h. destruct (free_spec n Hn p h P) as (p' & -> & P' & V & _ & F & _). exists p'. split; [done |]. split; [done |].
    intros j. unfold put. destruct (Nat.eqb_spec j h) as [-> | N]; [done |]. exact (holds_frame n p p' j Hn P P' (F j N) (m j) (M j)).
  - intros h out L. specialize (M h). destruct (m h); by apply M.
Qed.

Lemma zpool_refines_map_witness :
  exists r p', zpool.store 2 (mk_reservations true true true true) zpool.new (replicate (Z.to_nat ZPAGE_SIZE) 7) = Some (r, p') /\
    match r with
    | Ok h => simulates 2 p' (put (fun _ => None) h (Some (replicate (Z.to_nat ZPAGE_SIZE) 7)))
    | Err e => e = OutOfMemory /\ p' = zpool.new /\ (0 = U32_MAX \/ true = false)
    end.
Proof.
  assert (S : simulates 2 zpool.new (fun _ => None)) by (split; [apply new_pool_ok | by intros h out]).
  assert (R : page_ok (replicate (Z.to_nat ZPAGE_SIZE) 7)) by (split; [by rewrite zlen_replicate | apply Forall_replicate; by unfold is_u]).
  destruct (zpool_refines_map 2 zpool.new (fun _ => None) (le_S _ _ (le_n 1)) S) as (St & _).
  destruct (St (mk_reservations true true true true) _ R) as (r & p' & E & H). exists r, p'. split; [exact E |].
  destruct r as [h | e]; [apply H | exact H].
Defined.
