(* ===== verification/RamDisk.v ===== *)
(** The compressed RAM disk: an array of pages, one per block address. *)

From S2P Require Import Prelude Word Slice Lz4 Lz4Format Lz4Encode Zpool ZpoolSound.

Definition zero_page : list Z := replicate (Z.to_nat ZPAGE_SIZE) 0.

Definition has (e : option nat) : bool := match e with Some _ => true | None => false end.

Definition mapped (l : list (option nat)) : Z := Z.of_nat (length (filter (fun e => has e) l)).

Definition entry_page (n : nat) (p : Zpool) (e : option nat) (page : list Z) : Prop :=
  match e with None => page = zero_page | Some h => holds n p h page /\ exists data, directory p !! h = Some (Live data ZPAGE_SIZE) end.

(** The disk [d] shows the array [pages]. *)
Record shows (n : nat) (d : CompressedRamDisk) (pages : list (list Z)) : Prop := {
  sh_pool : pool_ok n d.(pool);
  sh_capacity : zlen d.(index) = d.(capacity_lba);
  sh_width : d.(capacity_lba) < 2 ^ 64;
  sh_pages : Forall page_ok pages;
  sh_entries : Forall2 (entry_page n d.(pool)) d.(index) pages;
  sh_distinct : forall i j h, d.(index) !! i = Some (Some h) -> d.(index) !! j = Some (Some h) -> i = j;
  sh_mapped : live_count (directory d.(pool)) = mapped d.(index)
}.

Lemma zero_page_ok : page_ok zero_page.
Proof. split; [by unfold zero_page; rewrite zlen_replicate | apply Forall_replicate; by unfold is_u]. Qed.

Lemma zeroes_page page : page_ok page -> forallb (fun b => b =? 0) page = true -> page = zero_page.
Proof.
  intros [L _] Z. assert (E : page = replicate (length page) 0).
  { clear L. induction page as [| b page IH]; [done |]. simpl in *. apply andb_true_iff in Z as [Zb Z]. apply Z.eqb_eq in Zb as ->. f_equal. by apply IH. }
  rewrite E. unfold zero_page. f_equal. unfold zlen in L. lia.
Qed.

Lemma mapped_insert l i e v : l !! i = Some e -> mapped (<[i := v]> l) = mapped l - Z.b2z (has e) + Z.b2z (has v).
Proof.
  intros E. pose proof (lookup_lt_Some _ _ _ E). rewrite insert_take_drop by done. unfold mapped. rewrite <- (take_drop_middle l i e E) at 3.
  rewrite !filter_app, !length_app, !filter_cons. destruct e, v; simpl; lia.
Qed.

Lemma set_index d i v : zlen d.(index) = d.(capacity_lba) -> 0 <= i < d.(capacity_lba) ->
  set_at d.(index) i v = Some (<[Z.to_nat i := v]> d.(index)).
Proof. intros. apply set_at_some. lia. Qed.

Lemma write_slice_app {A} (pre mid post src : list A) : zlen src = zlen mid ->
  write_slice (pre ++ mid ++ post) (zlen pre) src = Some (pre ++ src ++ post).
Proof.
  intros L. unfold write_slice. fold (zlen src) (zlen (pre ++ mid ++ post)). rewrite (proj2 (Z.leb_le _ _)) by (rewrite !zlen_app, L; pose proof (zlen_nonneg post); lia).
  replace (Z.to_nat (zlen pre)) with (length pre) by (unfold zlen; lia). rewrite take_app_length. do 3 f_equal.
  replace (length src) with (length mid) by (unfold zlen in L; lia). by rewrite <- length_app, app_assoc, drop_app_length.
Qed.

(** The pages of a buffer that holds [k] of them. *)
Lemma split_pages k (l : list Z) : Forall (is_u 8) l -> Z.of_nat k * ZPAGE_SIZE <= zlen l ->
  exists pgs post, l = concat pgs ++ post /\ length pgs = k /\ Forall page_ok pgs.
Proof.
  revert l. induction k as [| k IH]; intros l B L; [by exists [], l |]. unfold ZPAGE_SIZE in L.
  destruct (split_zlen l 4096 ltac:(lia)) as (page & rest & -> & Lp). apply Forall_app in B as [Bp B]. rewrite zlen_app in L.
  destruct (IH rest B ltac:(unfold ZPAGE_SIZE; lia)) as (pgs & post & -> & Lk & Pk). exists (page :: pgs), post. simpl. rewrite <- app_assoc.
  split_and!; [done | lia |]. by constructor; [split |].
Qed.

Lemma zlen_concat (pgs : list (list Z)) : Forall page_ok pgs -> zlen (concat pgs) = Z.of_nat (length pgs) * ZPAGE_SIZE.
Proof. induction 1 as [| page pgs [L _] _ IH]; [done |]. simpl. rewrite zlen_app, IH, L. unfold ZPAGE_SIZE. lia. Qed.

Lemma payload_bound l : Forall slot_ok l -> 0 <= payload_sum l <= ZPAGE_COMPRESSED_MAX * live_count l.
Proof.
  change ZPAGE_COMPRESSED_MAX with 4128. induction 1 as [| s l Hs _ IH]; [by cbn |]. change (s :: l) with ([s] ++ l).
  rewrite live_count_app, payload_sum_app, live_count_single. unfold payload_sum at 1 3, one. simpl.
  destruct s as [dt r | ?]; simpl; [| lia]. destruct Hs as (_ & page & _ & b & _ & _ & _ & Hd). change ZPAGE_COMPRESSED_MAX with 4128 in Hd.
  pose proof (zlen_nonneg dt). lia.
Qed.

(** Why a store may be refused: a reservation, or every handle in use. *)
Definition refused (a : Reservations) (d : CompressedRamDisk) : Prop :=
  Z.of_nat d.(pool).(slot_count) = U32_MAX \/ granted a = false.

Section Disk.
Context (n : nat) (Hn : (0 < n)%nat).

Lemma entry_frame p p' e page h : pool_ok n p -> pool_ok n p' -> (forall j, j <> h -> directory p' !! j = directory p !! j) ->
  e <> Some h -> entry_page n p e page -> entry_page n p' e page.
Proof using Hn.
  intros P P' F N. destruct e as [g |]; [| done]. intros [H [data E]]. assert (g <> h) by congruence. split; [| exists data; by rewrite F].
  intros out L. rewrite (load_ext n Hn p p'); [by apply H | apply P | apply P' | by apply F].
Qed.

Lemma show_lookup d pages i : shows n d pages -> 0 <= i < d.(capacity_lba) ->
  exists e page, get_at d.(index) i = Some e /\ d.(index) !! Z.to_nat i = Some e /\ pages !! Z.to_nat i = Some page /\
    page_ok page /\ entry_page n d.(pool) e page.
Proof using Hn.
  intros [_ C _ Pk En _ _] Hi. destruct (get_at_some d.(index) i) as (e & G & E); [lia |].
  destruct (Forall2_lookup_l _ _ _ _ _ En E) as (page & Ep & He). exists e, page. split_and!; try done. by apply (Forall_lookup_1 _ _ _ _ Pk Ep).
Qed.

(** Changing one entry: the pool keeps the slots the other entries name. *)
Lemma show_update d pages i p' v page h :
  shows n d pages -> 0 <= i < d.(capacity_lba) -> pool_ok n p' -> page_ok page -> entry_page n p' v page ->
  (forall j, j <> h -> directory p' !! j = directory d.(pool) !! j) ->
  (forall k, Z.of_nat k <> i -> d.(index) !! k <> Some (Some h)) -> (v = None \/ v = Some h) ->
  live_count (directory p') = mapped (<[Z.to_nat i := v]> d.(index)) ->
  shows n (mk_disk p' (<[Z.to_nat i := v]> d.(index)) d.(capacity_lba)) (<[Z.to_nat i := page]> pages).
Proof using Hn.
  intros [P C W Pk En Di Mp] Hi P' Hp He F N Hv Hm. split; cbn [pool index capacity_lba]; try done.
  - unfold zlen in *. by rewrite length_insert.
  - by apply Forall_insert.
  - apply Forall2_same_length_lookup. rewrite !length_insert. split; [by eapply Forall2_length |]. intros k e pg E1 E2.
    destruct (decide (k = Z.to_nat i)) as [-> | Nk].
    + apply list_lookup_insert_Some in E1 as [(_ & <- & _) | (? & _)]; [| done]. apply list_lookup_insert_Some in E2 as [(_ & <- & _) | (? & _)]; done.
    + rewrite list_lookup_insert_ne in E1 by done. rewrite list_lookup_insert_ne in E2 by done.
      eapply entry_frame; [exact P | exact P' | exact F | | by eapply Forall2_lookup_lr]. intros ->. apply (N k); [lia | done].
  - intros a b g Ea Eb. destruct (decide (a = Z.to_nat i)) as [-> | Na], (decide (b = Z.to_nat i)) as [-> | Nb]; [done | ..].
    + apply list_lookup_insert_Some in Ea as [(_ & -> & _) | (? & _)]; [| done]. rewrite list_lookup_insert_ne in Eb by done.
      destruct Hv as [? | [= ->]]; [done |]. destruct (N b); [lia | done].
    + apply list_lookup_insert_Some in Eb as [(_ & -> & _) | (? & _)]; [| done]. rewrite list_lookup_insert_ne in Ea by done.
      destruct Hv as [? | [= ->]]; [done |]. destruct (N a); [lia | done].
    + rewrite list_lookup_insert_ne in Ea, Eb by done. by eapply Di.
Qed.


(** Dropping the prior version of a block leaves it reading as zeros. *)
Lemma release_ok d pages i : shows n d pages -> 0 <= i < d.(capacity_lba) ->
  exists d', ramdisk.release n d i = Some d' /\ shows n d' (<[Z.to_nat i := zero_page]> pages) /\
    d'.(index) !! Z.to_nat i = Some None /\ d'.(capacity_lba) = d.(capacity_lba) /\ d'.(pool).(slot_count) = d.(pool).(slot_count).
Proof using Hn.
  intros S Hi. pose proof S as [P C W Pk En Di Mp]. destruct (show_lookup d pages i S Hi) as (e & page & G & E & Ep & Hp & He).
  unfold ramdisk.release. rewrite G. destruct e as [h |].
  - rewrite set_index by done. destruct He as [Hh [data Hd]].
    destruct (free_spec n Hn d.(pool) h P) as (p' & -> & P' & _ & _ & F & _ & Lc & Sc).
    eexists. split; [reflexivity |]. split_and!; [| by apply list_lookup_insert_eq, (lookup_lt_Some _ _ _ E) | done | done].
    apply (show_update d pages i p' None zero_page h); auto using zero_page_ok; [done | |].
    + intros k Hk Ek. apply Hk. rewrite (Di _ _ _ Ek E). lia.
    + rewrite (Lc _ _ Hd), Mp, (mapped_insert _ _ _ None E). simpl. lia.
  - exists d. simpl in He. subst page. split_and!; [done | | done | done | done]. by rewrite list_insert_id.
Qed.

Lemma read_page_ok d pages i out : shows n d pages -> 0 <= i -> zlen out = ZPAGE_SIZE ->
  ramdisk.read_page n d i out =
    match pages !! Z.to_nat i with Some page => Some (Ok tt, page) | None => Some (Err OutOfRange, out) end.
Proof using Hn.
  intros S Hi L. unfold ramdisk.read_page. destruct (Z.leb_spec d.(capacity_lba) i) as [G | G].
  - rewrite lookup_ge_None_2; [done |]. rewrite <- (Forall2_length _ _ _ (sh_entries _ _ _ S)). pose proof (sh_capacity _ _ _ S). unfold zlen in *. lia.
  - destruct (show_lookup d pages i S ltac:(lia)) as (e & page & -> & _ & -> & Hp & He). destruct e as [h |].
    + destruct He as [Hh _]. by rewrite Hh.
    + simpl in He. subst page. do 2 f_equal. unfold zero_page, zlen in *. rewrite <- L, Nat2Z.id. clear. induction out as [| b out IH]; [done |]. simpl. by f_equal.
Qed.

(** A write of one block: done, refused out of range, or failed for memory, and
    then the block reads as zeros. *)
Lemma write_page_ok a d pages i data : shows n d pages -> 0 <= i -> page_ok data ->
  exists r d', ramdisk.write_page n a d i data = Some (r, d') /\ d'.(capacity_lba) = d.(capacity_lba) /\
    match r with
    | Ok _ => i < d.(capacity_lba) /\ shows n d' (<[Z.to_nat i := data]> pages)
    | Err OutOfRange => d.(capacity_lba) <= i /\ d' = d
    | Err DiskOutOfMemory => i < d.(capacity_lba) /\ shows n d' (<[Z.to_nat i := zero_page]> pages) /\
        d'.(pool).(slot_count) = d.(pool).(slot_count) /\ refused a d'
    | Err _ => False
    end.
Proof using Hn.
  intros S Hi Hd. unfold ramdisk.write_page. destruct (Z.leb_spec d.(capacity_lba) i) as [G | G]; [by exists (Err OutOfRange), d |].
  destruct (release_ok d pages i S ltac:(lia)) as (d1 & R & S1 & E1 & C1 & Sc). rewrite R. destruct (forallb _ data) eqn:Z.
  { rewrite (zeroes_page data Hd Z). by exists (Ok tt), d1. }
  pose proof S1 as [P1 K1 W1 _ En Di Mp]. destruct (store_spec n Hn a d1.(pool) data P1 Hd) as [[-> Hr] | (h & p' & dt & -> & P' & V & Hh & Hs & Nl & F & Lc)].
  { exists (Err DiskOutOfMemory), d1. destruct d1. by split_and!. }
  rewrite set_index by (done || lia). eexists (Ok tt), _. split; [reflexivity |]. split_and!; [done | done |].
  rewrite <- (list_insert_insert_eq pages (Z.to_nat i) data zero_page).
  apply (show_update d1 _ i p' (Some h) data h); auto; [lia | by split; eauto | |].
  - intros k _ Ek. destruct (Forall2_lookup_l _ _ _ _ _ En Ek) as (pg & _ & _ & dd & X). by destruct (Nl _ _ X).
  - rewrite Lc, Mp, (mapped_insert _ _ _ (Some h) E1). simpl. lia.
Qed.

Lemma new_shows capacity : 0 <= capacity < 2 ^ 64 -> shows n (ramdisk.new capacity) (replicate (Z.to_nat capacity) zero_page).
Proof using Hn.
  intros H. split; cbn [ramdisk.new pool index capacity_lba].
  - apply new_pool_ok.
  - rewrite zlen_replicate. lia.
  - lia.
  - apply Forall_replicate, zero_page_ok.
  - apply Forall2_replicate. done.
  - intros i j h E. apply lookup_replicate in E as [? _]. done.
  - unfold mapped. assert (X : filter (fun e => has e) (replicate (Z.to_nat capacity) (@None nat)) = []); [| by rewrite X].
    induction (Z.to_nat capacity) as [| k IH]; [done |]. change (replicate (S k) (@None nat)) with (@None nat :: replicate k None).
    rewrite filter_cons_False; [exact IH | by intros []].
Qed.

Lemma write_blocks_ok pgs a d pages lba i pre post : shows n d pages -> 0 <= lba -> 0 <= i -> lba + i + zlen pgs <= d.(capacity_lba) ->
  Forall page_ok pgs -> zlen pre = i * ZPAGE_SIZE ->
  exists r d', ramdisk.write_blocks n (length pgs) a d lba i (pre ++ concat pgs ++ post) = Some (r, d') /\ d'.(capacity_lba) = d.(capacity_lba) /\
    match r with
    | Ok _ => shows n d' (list_inserts (Z.to_nat (lba + i)) pgs pages)
    | Err e => e = DiskOutOfMemory /\ exists j, (j < length pgs)%nat /\
        shows n d' (list_inserts (Z.to_nat (lba + i)) (take j pgs ++ [zero_page]) pages) /\ refused (a (i + Z.of_nat j)) d'
    end.
Proof using Hn.
  revert d pages i pre. induction pgs as [| page pgs IH]; intros d pages i pre S Hl Hi Hc Hp Hpre; [by exists (Ok tt), d |].
  apply Forall_cons in Hp as [Hpg Hp]. rewrite zlen_cons in Hc. pose proof (zlen_nonneg pgs). pose proof (sh_width _ _ _ S).
  cbn [concat length ramdisk.write_blocks]. rewrite <- app_assoc, <- Hpre.
  pose proof Hpg as [Lpg _]. assert (Sl : slice (pre ++ page ++ concat pgs ++ post) (zlen pre) ZPAGE_SIZE = Some page) by (rewrite <- Lpg; apply slice_app).
  rewrite Sl, wrap_small by (unfold is_u; lia). destruct (write_page_ok (a i) d pages (lba + i) page S ltac:(lia) Hpg) as (r & d1 & -> & C1 & R).
  destruct r as [u | e].
  - destruct R as [_ S1]. destruct (IH d1 _ (i + 1) (pre ++ page) S1) as (r & d2 & E & C2 & R); try lia; try done.
    { rewrite zlen_app, Hpre, Lpg. lia. }
    rewrite <- app_assoc in E. exists r, d2. split; [exact E |]. split; [congruence |].
    replace (Z.to_nat (lba + (i + 1))) with (Datatypes.S (Z.to_nat (lba + i))) in R by lia. destruct r as [u' | e].
    + simpl. by rewrite list_insert_inserts_lt by lia.
    + destruct R as [-> (j & Lj & R & Rf)]. split; [done |]. exists (Datatypes.S j). split; [simpl; lia |].
      replace (i + Z.of_nat (Datatypes.S j)) with (i + 1 + Z.of_nat j) by lia. simpl. by rewrite list_insert_inserts_lt by lia.
  - destruct e; [lia | | done | done]. exists (Err DiskOutOfMemory), d1. split_and!; try done. exists 0%nat. rewrite Z.add_0_r. destruct R as (_ & R & _ & Rf). split_and!; [simpl; lia | exact R | exact Rf].
Qed.

Lemma read_blocks_ok k d pages lba i pre old post : shows n d pages -> 0 <= lba -> 0 <= i -> lba + i + Z.of_nat k <= d.(capacity_lba) ->
  zlen pre = i * ZPAGE_SIZE -> zlen old = Z.of_nat k * ZPAGE_SIZE ->
  ramdisk.read_blocks n k d lba i (pre ++ old ++ post) =
    Some (Ok tt, pre ++ concat (take k (drop (Z.to_nat (lba + i)) pages)) ++ post).
Proof using Hn.
  revert i pre old. induction k as [| k IH]; intros i pre old S Hl Hi Hc Hpre Hold.
  { assert (old = []) as -> by (destruct old; [done | rewrite zlen_cons in Hold; pose proof (zlen_nonneg old); lia]). done. }
  unfold ZPAGE_SIZE in Hold. destruct (split_zlen old 4096 ltac:(lia)) as (o & old' & -> & Lo). rewrite zlen_app in Hold.
  pose proof (sh_width _ _ _ S). destruct (show_lookup d pages (lba + i) S ltac:(lia)) as (e & page & _ & _ & Ep & Hp & _).
  cbn [ramdisk.read_blocks]. rewrite <- Hpre, <- app_assoc.
  assert (Sl : slice (pre ++ o ++ old' ++ post) (zlen pre) ZPAGE_SIZE = Some o) by (change ZPAGE_SIZE with 4096; rewrite <- Lo; apply slice_app).
  rewrite Sl, wrap_small by (unfold is_u; lia). rewrite (read_page_ok d pages (lba + i) o S) by (done || lia). rewrite Ep.
  pose proof Hp as [Lp _]. rewrite write_slice_app by (rewrite Lp, Lo; done).
  specialize (IH (i + 1) (pre ++ page) old' S Hl ltac:(lia) ltac:(lia)). rewrite <- !app_assoc in IH. rewrite IH.
  - rewrite (drop_S _ _ _ Ep). simpl. rewrite <- app_assoc. replace (Z.to_nat (lba + (i + 1))) with (Datatypes.S (Z.to_nat (lba + i))) by lia. done.
  - rewrite zlen_app, Hpre, Lp. lia.
  - unfold ZPAGE_SIZE. lia.
Qed.
End Disk.

(** * The disk as an array of pages *)

Lemma disk_write n a d pages lba nb data :
  (0 < n)%nat -> shows n d pages -> 0 <= lba -> 0 <= nb -> Forall (is_u 8) data ->
  exists r d', ramdisk.write n a d lba nb data = Some (r, d') /\ d'.(capacity_lba) = d.(capacity_lba) /\
    match r with
    | Ok _ => exists pgs rest, data = concat pgs ++ rest /\ zlen pgs = nb /\ Forall page_ok pgs /\
        (nb = 0 \/ lba + nb <= d.(capacity_lba)) /\ shows n d' (list_inserts (Z.to_nat lba) pgs pages)
    | Err DiskOutOfMemory => exists pgs rest, data = concat pgs ++ rest /\ zlen pgs < nb /\ refused (a (zlen pgs)) d' /\
        shows n d' (list_inserts (Z.to_nat lba) (pgs ++ [zero_page]) pages)
    | Err _ => d' = d
    end.
Proof.
  intros Hn S Hl Hb B. unfold ramdisk.write. destruct (Z.eqb_spec nb 0) as [-> | N0].
  { exists (Ok tt), d. split_and!; try done. exists [], data. split_and!; try done. by left. }
  destruct (Z.ltb_spec (zlen data) (nb * ZPAGE_SIZE)) as [G | G]; [by exists (Err BufferTooSmall), d |].
  destruct (Z.leb_spec (2 ^ 64) (lba + nb)) as [G1 | G1]; [by exists (Err OutOfRange), d |].
  destruct (Z.ltb_spec (capacity_lba d) (lba + nb)) as [G2 | G2]; [by exists (Err OutOfRange), d |].
  destruct (split_pages (Z.to_nat nb) data B ltac:(lia)) as (pgs & rest & -> & Lk & Pk).
  assert (Lz : zlen pgs = nb) by (unfold zlen; lia).
  destruct (write_blocks_ok n Hn pgs a d pages lba 0 [] rest S) as (r & d' & E & C & R); try lia; try done.
  cbn [app] in E. rewrite Lk in E. rewrite Z.add_0_r in R. exists r, d'. split_and!; [done | done |]. destruct r as [u | e].
  - exists pgs, rest. split_and!; try done. by right.
  - destruct R as [-> (j & Lj & R & Rf)]. exists (take j pgs), (concat (drop j pgs) ++ rest).
    assert (Lt : zlen (take j pgs) = Z.of_nat j) by (unfold zlen; rewrite length_take; lia).
    rewrite app_assoc, <- concat_app, take_drop, Lt. split_and!; [done | lia | exact Rf | exact R].
Qed.

Lemma disk_read n d pages lba nb out :
  (0 < n)%nat -> shows n d pages -> 0 <= lba -> 0 < nb -> nb * ZPAGE_SIZE <= zlen out -> lba + nb <= d.(capacity_lba) ->
  ramdisk.read n d lba nb out =
    Some (Ok tt, concat (take (Z.to_nat nb) (drop (Z.to_nat lba) pages)) ++ drop (Z.to_nat (nb * ZPAGE_SIZE)) out).
Proof.
  intros Hn S Hl Hb Lo Hc. pose proof (sh_width _ _ _ S). unfold ramdisk.read. rewrite (proj2 (Z.eqb_neq nb 0)) by lia.
  rewrite (proj2 (Z.ltb_ge _ _)) by lia. rewrite (proj2 (Z.leb_gt _ _)) by lia. rewrite (proj2 (Z.ltb_ge _ _)) by lia.
  rewrite <- (take_drop (Z.to_nat (nb * ZPAGE_SIZE)) out) at 1. unfold ZPAGE_SIZE in *.
  pose proof (read_blocks_ok n Hn (Z.to_nat nb) d pages lba 0 [] (take (Z.to_nat (nb * 4096)) out) (drop (Z.to_nat (nb * 4096)) out) S) as R.
  cbn [app] in R. rewrite Z.add_0_r in R. apply R; try lia; [done |]. unfold zlen in *. rewrite length_take. unfold ZPAGE_SIZE. lia.
Qed.

(** C15: The compressed RAM disk is an array of pages.  From any state it can
    reach, with any outcome of the reservations, no operation panics.  A write
    that returns has replaced exactly its blocks; one that runs out of memory
    has replaced the blocks before the one it failed on, which now reads as
    zeros, and it fails so only when a reservation for that block is refused or
    every handle is in use; any other error leaves the disk as it was.  A read in range returns
    the blocks' pages and leaves the rest of the buffer. *)
Theorem ramdisk_refines_array n d pages :
  (0 < n)%nat -> shows n d pages ->
  (forall a lba nb data, is_u 64 lba -> is_u 16 nb -> Forall (is_u 8) data ->
    exists r d', ramdisk.write n a d lba nb data = Some (r, d') /\
      match r with
      | Ok _ => exists pgs rest, data = concat pgs ++ rest /\ zlen pgs = nb /\ shows n d' (list_inserts (Z.to_nat lba) pgs pages)
      | Err DiskOutOfMemory => exists pgs rest, data = concat pgs ++ rest /\ zlen pgs < nb /\ refused (a (zlen pgs)) d' /\
          shows n d' (list_inserts (Z.to_nat lba) (pgs ++ [zero_page]) pages)
      | Err _ => d' = d
      end) /\
  (forall lba nb out, is_u 64 lba -> 0 < nb < 2 ^ 16 -> nb * ZPAGE_SIZE <= zlen out -> lba + nb <= zlen pages ->
    ramdisk.read n d lba nb out =
      Some (Ok tt, concat (take (Z.to_nat nb) (drop (Z.to_nat lba) pages)) ++ drop (Z.to_nat (nb * ZPAGE_SIZE)) out)).
Proof.
  intros Hn S. split.
  - intros a lba nb data [Hl _] [Hb _] B. destruct (disk_write n a d pages lba nb data Hn S Hl Hb B) as (r & d' & E & _ & R).
    exists r, d'. split; [done |]. destruct r as [u | []]; try done. destruct R as (pgs & rest & ? & ? & _ & _ & ?). eauto.
  - intros lba nb out [Hl _] Hb Lo Hc. apply disk_read; try done; try lia.
    rewrite <- (sh_capacity _ _ _ S). unfold zlen in *. rewrite (Forall2_length _ _ _ (sh_entries _ _ _ S)). done.
Qed.

(** What a successful write of [nb] blocks stored, a read of the same blocks
    returns, byte for byte, through compression and decompression. *)
Lemma ramdisk_read_back n a d pages lba nb data d' out :
  (0 < n)%nat -> shows n d pages -> is_u 64 lba -> 0 < nb < 2 ^ 16 -> Forall (is_u 8) data ->
  ramdisk.write n a d lba nb data = Some (Ok tt, d') -> nb * ZPAGE_SIZE <= zlen out ->
  ramdisk.read n d' lba nb out =
    Some (Ok tt, take (Z.to_nat (nb * ZPAGE_SIZE)) data ++ drop (Z.to_nat (nb * ZPAGE_SIZE)) out).
Proof.
  intros Hn S [Hl _] Hb B W Lo. destruct (disk_write n a d pages lba nb data Hn S Hl ltac:(lia) B) as (r & d1 & E & C & R).
  rewrite W in E. injection E as <- <-. destruct R as (pgs & rest & -> & Lz & Pk & [? | Hc] & S'); [lia |].
  rewrite (disk_read n d' _ lba nb out Hn S') by lia. do 3 f_equal.
  pose proof (zlen_concat pgs Pk) as Lc. fold (zlen pgs) in Lc. rewrite Lz in Lc.
  replace (Z.to_nat (nb * ZPAGE_SIZE)) with (length (concat pgs)) by (unfold zlen in Lc; lia). rewrite take_app_length. f_equal.
  apply list_eq. intros j. rewrite lookup_slice. unfold zlen in Lz. assert (Lp : length pages = Z.to_nat (capacity_lba d)).
  { rewrite <- (Forall2_length _ _ _ (sh_entries _ _ _ S)). pose proof (sh_capacity _ _ _ S). unfold zlen in *. lia. }
  destruct (decide (j < Z.to_nat nb)%nat).
  - rewrite list_lookup_inserts by lia. f_equal. lia.
  - symmetry. apply lookup_ge_None_2. lia.
Qed.

(** The disks a sequence of writes can leave, with any outcome of the
    reservations and whether or not the writes succeed. *)
Inductive reached (n : nat) (capacity : Z) : CompressedRamDisk -> Prop :=
  | reached_new : reached n capacity (ramdisk.new capacity)
  | reached_write a d lba nb data r d' :
      reached n capacity d -> is_u 64 lba -> is_u 16 nb -> Forall (is_u 8) data ->
      ramdisk.write n a d lba nb data = Some (r, d') -> reached n capacity d'.

Lemma reached_shows n capacity d : (0 < n)%nat -> is_u 64 capacity -> reached n capacity d -> exists pages, shows n d pages.
Proof.
  intros Hn Hc. induction 1 as [| a d lba nb data r d' _ [pages S] [Hl _] [Hb _] B E]; [eexists; by apply new_shows |].
  destruct (disk_write n a d pages lba nb data Hn S Hl Hb B) as (r' & d1 & E' & _ & R). rewrite E in E'. injection E' as <- <-.
  destruct r as [u | []]; [destruct R as (pgs & rest & _ & _ & _ & _ & S') | by subst; exists pages | destruct R as (pgs & rest & _ & _ & _ & S') | by subst; exists pages | by subst; exists pages];
    by eexists.
Qed.

(** The counters of a disk are exact after any sequence of writes, failed
    ones included: one stored page per block that has a page of its own, 4096
    raw bytes for each, never more compressed bytes than the codec's bound for
    each; and no two blocks share a page of the pool. *)
Lemma ramdisk_accounting n capacity d :
  (0 < n)%nat -> is_u 64 capacity -> reached n capacity d ->
  d.(pool).(stats).(stored_pages) = mapped d.(index) /\
  d.(pool).(stats).(raw_bytes) = ZPAGE_SIZE * mapped d.(index) /\
  0 <= d.(pool).(stats).(compressed_bytes) <= ZPAGE_COMPRESSED_MAX * mapped d.(index) /\
  (forall i j h, d.(index) !! i = Some (Some h) -> d.(index) !! j = Some (Some h) -> i = j).
Proof.
  intros Hn Hc R. destruct (reached_shows n capacity d Hn Hc R) as (pages & [[Sh E1 E2 E3 _] _ _ _ _ Di Mp]).
  pose proof (payload_bound _ (po_slots n _ Sh)) as B. rewrite Mp in *. rewrite E1, E2, E3. done.
Qed.

(** * Witnesses *)

Definition all_ok : Reservations := mk_reservations true true true true.

Definition sevens : list Z := replicate (Z.to_nat ZPAGE_SIZE) 7.

Lemma sevens_bytes : Forall (is_u 8) sevens.
Proof. apply Forall_replicate. by unfold is_u. Qed.

Lemma sevens_zlen : zlen sevens = 4096.
Proof. unfold sevens. by rewrite zlen_replicate. Qed.

Lemma two_blocks : shows 3 (ramdisk.new 2) [zero_page; zero_page].
Proof. apply (new_shows 3); lia. Qed.

Lemma sevens_room : 1 * ZPAGE_SIZE <= zlen sevens /\ 1 * ZPAGE_SIZE <= zlen zero_page.
Proof. rewrite sevens_zlen. unfold zero_page. by rewrite zlen_replicate. Qed.

Lemma one_is_lba : is_u 64 1 /\ is_u 16 1 /\ 0 < 1 < 2 ^ 16 /\ 1 + 1 <= zlen [zero_page; zero_page].
Proof. unfold is_u. change (zlen [zero_page; zero_page]) with 2. lia. Qed.

Lemma ramdisk_refines_array_witness :
  exists r d', ramdisk.write 3 (fun _ => all_ok) (ramdisk.new 2) 1 1 sevens = Some (r, d') /\
    ramdisk.read 3 (ramdisk.new 2) 1 1 sevens =
      Some (Ok tt, concat (take (Z.to_nat 1) (drop (Z.to_nat 1) [zero_page; zero_page])) ++ drop (Z.to_nat (1 * ZPAGE_SIZE)) sevens).
Proof.
  destruct one_is_lba as (H64 & H16 & Hb & Hp). destruct sevens_room as [Hr _].
  destruct (ramdisk_refines_array 3 (ramdisk.new 2) [zero_page; zero_page] (Nat.lt_0_succ 2) two_blocks) as [W R].
  destruct (W (fun _ => all_ok) 1 1 sevens H64 H16 sevens_bytes) as (r & d' & E & _).
  exists r, d'. exact (conj E (R 1 1 sevens H64 Hb Hr Hp)).
Defined.

Lemma sevens_written :
  exists d', ramdisk.write 3 (fun _ => all_ok) (ramdisk.new 2) 1 1 sevens = Some (Ok tt, d').
Proof.
  unfold ramdisk.write. change (1 =? 0) with false. rewrite (proj2 (Z.ltb_ge (zlen sevens) (1 * ZPAGE_SIZE)) (proj1 sevens_room)). change (2 ^ 64 <=? 1 + 1) with false.
  change (capacity_lba (ramdisk.new 2) <? 1 + 1) with false. change (Z.to_nat 1) with 1%nat. cbn [ramdisk.write_blocks].
  pose proof (slice_app [] sevens []) as Sl. rewrite sevens_zlen, app_nil_r in Sl. cbn [app] in Sl. change (zlen []) with (0 * ZPAGE_SIZE) in Sl. change 4096 with ZPAGE_SIZE in Sl.
  rewrite Sl. change (wrap 64 (1 + 0)) with 1.
  destruct (write_page_ok 3 (Nat.lt_0_succ 2) all_ok (ramdisk.new 2) [zero_page; zero_page] 1 sevens two_blocks) as (r & d' & -> & _ & R).
  - lia.
  - split; [apply sevens_zlen | apply sevens_bytes].
  - destruct r as [[] | []]; [exists d'; reflexivity | destruct R as [R _]; cbn in R; lia | | destruct R | destruct R].
    destruct R as (_ & _ & Sc & [Rf | Rf]); [rewrite Sc in Rf |]; discriminate Rf.
Qed.

Lemma ramdisk_read_back_witness :
  exists d', ramdisk.write 3 (fun _ => all_ok) (ramdisk.new 2) 1 1 sevens = Some (Ok tt, d') /\
    ramdisk.read 3 d' 1 1 zero_page =
      Some (Ok tt, take (Z.to_nat (1 * ZPAGE_SIZE)) sevens ++ drop (Z.to_nat (1 * ZPAGE_SIZE)) zero_page).
Proof.
  destruct sevens_written as [d' E]. destruct one_is_lba as (H64 & _ & Hb & _). destruct sevens_room as [_ Hr]. exists d'.
  exact (conj E (ramdisk_read_back 3 (fun _ => all_ok) (ramdisk.new 2) [zero_page; zero_page] 1 1 sevens d' zero_page
    (Nat.lt_0_succ 2) two_blocks H64 Hb sevens_bytes E Hr)).
Defined.

Lemma ramdisk_accounting_witness :
  (ramdisk.new 2).(pool).(stats).(stored_pages) = mapped (ramdisk.new 2).(index) /\ mapped (ramdisk.new 2).(index) = 0.
Proof. destruct (ramdisk_accounting 3 2 (ramdisk.new 2) ltac:(lia) ltac:(by unfold is_u) (reached_new 3 2)) as (H & _). split; [exact H | reflexivity]. Defined.
