(* ===== verification/RegionIndex.v ===== *)
(** The ordered index of the virtual-memory-area table
    ([memory/src/region_index.rs]): an AVL tree in an arena of slots.

    Links are arena indices ([nat]); keys are [u64] and heights [u8] as [Z].
    [Vec] is the list of its elements and its capacity.  What the heap gives when
    a reservation has to grow the arena is an argument: [None] for failure, or
    the capacity offered, raised to what [try_reserve] guarantees and refused
    past [isize::MAX].  [None] is a
    panic, or a recursion that outlives its fuel (one more than the arena has
    slots); the theorems of [RegionMap] exclude both.  A visitor is a
    function that threads a state of its own.  The test-only failure injection is
    left out. *)

From S2P Require Import Prelude Word.

Abbreviation Link := (option nat).

Definition MAX_AVL_HEIGHT : nat := 96.

Record Node (V : Type) : Type := mk_node { key : Z; value : V; left : Link; right : Link; height : Z }.
Arguments mk_node {V}.
Arguments key {V}.
Arguments value {V}.
Arguments left {V}.
Arguments right {V}.
Arguments height {V}.

Inductive Slot (V : Type) : Type :=
  | Occupied (n : Node V)
  | Vacant (next : Link).
Arguments Occupied {V}.
Arguments Vacant {V}.

Inductive ReserveError : Type := mk_reserve_error.

Record RegionIndex (V : Type) : Type := mk_index {
  slots : list (Slot V);
  capacity : nat;
  root : Link;
  free_head : Link;
  free_len : nat;
  len : nat
}.
Arguments mk_index {V}.
Arguments slots {V}.
Arguments capacity {V}.
Arguments root {V}.
Arguments free_head {V}.
Arguments free_len {V}.
Arguments len {V}.

Module region_index.
Section RegionIndex.
Context {V : Type}.

Definition new : RegionIndex V := mk_index [] 0 None None 0 0.

Definition node_new (k : Z) (v : V) : Node V := mk_node k v None None 1.

Definition set_slots (m : RegionIndex V) s : RegionIndex V := mk_index s m.(capacity) m.(root) m.(free_head) m.(free_len) m.(len).
Definition set_root (m : RegionIndex V) r : RegionIndex V := mk_index m.(slots) m.(capacity) r m.(free_head) m.(free_len) m.(len).
Definition set_len (m : RegionIndex V) k : RegionIndex V := mk_index m.(slots) m.(capacity) m.(root) m.(free_head) m.(free_len) k.

Definition set_value (n : Node V) v : Node V := mk_node n.(key) v n.(left) n.(right) n.(height).
Definition set_left (n : Node V) l : Node V := mk_node n.(key) n.(value) l n.(right) n.(height).
Definition set_right (n : Node V) r : Node V := mk_node n.(key) n.(value) n.(left) r n.(height).
Definition set_height (n : Node V) h : Node V := mk_node n.(key) n.(value) n.(left) n.(right) h.

(** One more than the arena has slots: a path of the tree is shorter. *)
Definition fuel (m : RegionIndex V) : nat := S (length m.(slots)).

(** * Slots *)

Definition node (m : RegionIndex V) (index : nat) : option (Node V) :=
  let* s := m.(slots) !! index in
  match s with Occupied n => Some n | Vacant _ => None end.

(** [*self.node_mut(index) = f(node)]. *)
Definition node_mut (m : RegionIndex V) (index : nat) (f : Node V -> Node V) : option (RegionIndex V) :=
  let* n := node m index in
  Some (set_slots m (<[index := Occupied (f n)]> m.(slots))).

Definition try_reserve_nodes (m : RegionIndex V) (additional : nat) (offer : option nat) : Result unit ReserveError * RegionIndex V :=
  let new_slots := (additional - m.(free_len))%nat in
  if (new_slots <=? m.(capacity) - length m.(slots))%nat then (Ok tt, m)
  else
    match offer with
    | None => (Err mk_reserve_error, m)
    | Some c =>
        let c := Nat.max c (length m.(slots) + new_slots) in
        if 2 ^ 63 <=? Z.of_nat c then (Err mk_reserve_error, m)
        else (Ok tt, mk_index m.(slots) c m.(root) m.(free_head) m.(free_len) m.(len))
    end.

Definition allocate_slot (m : RegionIndex V) (n : Node V) : option (nat * RegionIndex V) :=
  match m.(free_head) with
  | Some index =>
      let* s := m.(slots) !! index in
      match s with
      | Occupied _ => None
      | Vacant next =>
          Some (index, mk_index (<[index := Occupied n]> m.(slots)) m.(capacity) m.(root) next (pred m.(free_len)) m.(len))
      end
  | None =>
      let index := length m.(slots) in
      Some (index, mk_index (m.(slots) ++ [Occupied n]) m.(capacity) m.(root) m.(free_head) m.(free_len) m.(len))
  end.

Definition retire_slot (m : RegionIndex V) (index : nat) : option (V * RegionIndex V) :=
  let* old := m.(slots) !! index in
  match old with
  | Occupied n =>
      Some (n.(value), mk_index (<[index := Vacant m.(free_head)]> m.(slots)) m.(capacity) m.(root) (Some index) (S m.(free_len)) m.(len))
  | Vacant _ => None
  end.

(** * Search *)

Fixpoint find_from (f : nat) (m : RegionIndex V) (cursor : Link) (k : Z) : option Link :=
  match f, cursor with
  | O, _ => None
  | S f, None => Some None
  | S f, Some index =>
      let* n := node m index in
      match k ?= n.(key) with
      | Lt => find_from f m n.(left) k
      | Gt => find_from f m n.(right) k
      | Eq => Some (Some index)
      end
  end.

Definition find_index (m : RegionIndex V) (k : Z) : option Link := find_from (fuel m) m m.(root) k.

Definition get (m : RegionIndex V) (k : Z) : option (option V) :=
  let* i := find_index m k in
  match i with
  | None => Some None
  | Some index => let* n := node m index in Some (Some n.(value))
  end.

(** [get_mut], with what the caller writes through the reference: the old value
    and the map after it. *)
Definition get_mut (m : RegionIndex V) (k : Z) (f : V -> V) : option (option V * RegionIndex V) :=
  let* i := find_index m k in
  match i with
  | None => Some (None, m)
  | Some index =>
      let* n := node m index in
      let* m := node_mut m index (fun n => set_value n (f n.(value))) in
      Some (Some n.(value), m)
  end.

(** The three neighbour searches differ in the test that keeps a node as the
    best so far, and in the side they go to then. *)
Fixpoint below_from (f : nat) (m : RegionIndex V) (test : Z -> bool) (cursor : Link) (result : option (Z * V)) : option (option (Z * V)) :=
  match f, cursor with
  | O, _ => None
  | S f, None => Some result
  | S f, Some index =>
      let* n := node m index in
      if test n.(key) then below_from f m test n.(right) (Some (n.(key), n.(value)))
      else below_from f m test n.(left) result
  end.

Definition predecessor (m : RegionIndex V) (k : Z) : option (option (Z * V)) :=
  below_from (fuel m) m (fun x => x <? k) m.(root) None.

Definition predecessor_or_equal (m : RegionIndex V) (k : Z) : option (option (Z * V)) :=
  below_from (fuel m) m (fun x => x <=? k) m.(root) None.

Fixpoint above_from (f : nat) (m : RegionIndex V) (test : Z -> bool) (cursor : Link) (result : option (Z * V)) : option (option (Z * V)) :=
  match f, cursor with
  | O, _ => None
  | S f, None => Some result
  | S f, Some index =>
      let* n := node m index in
      if test n.(key) then above_from f m test n.(left) (Some (n.(key), n.(value)))
      else above_from f m test n.(right) result
  end.

Definition successor_or_equal (m : RegionIndex V) (k : Z) : option (option (Z * V)) :=
  above_from (fuel m) m (fun x => k <=? x) m.(root) None.

(** * Rebalancing *)

Definition link_height (m : RegionIndex V) (l : Link) : option Z :=
  match l with None => Some 0 | Some index => let* n := node m index in Some n.(height) end.

(** [u8::try_from(height).expect(..)]. *)
Definition update_height (m : RegionIndex V) (index : nat) : option (RegionIndex V) :=
  let* n := node m index in
  let* hl := link_height m n.(left) in
  let* hr := link_height m n.(right) in
  let h := 1 + Z.max hl hr in
  if 255 <? h then None else node_mut m index (fun n => set_height n h).

Definition balance_factor (m : RegionIndex V) (index : nat) : option Z :=
  let* n := node m index in
  let* hl := link_height m n.(left) in
  let* hr := link_height m n.(right) in
  Some (hl - hr).

Definition rotate_left (m : RegionIndex V) (r : nat) : option (nat * RegionIndex V) :=
  let* n := node m r in
  let* pivot := n.(right) in
  let* p := node m pivot in
  let middle := p.(left) in
  let* m := node_mut m r (fun n => set_right n middle) in
  let* m := update_height m r in
  let* m := node_mut m pivot (fun n => set_left n (Some r)) in
  let* m := update_height m pivot in
  Some (pivot, m).

Definition rotate_right (m : RegionIndex V) (r : nat) : option (nat * RegionIndex V) :=
  let* n := node m r in
  let* pivot := n.(left) in
  let* p := node m pivot in
  let middle := p.(right) in
  let* m := node_mut m r (fun n => set_left n middle) in
  let* m := update_height m r in
  let* m := node_mut m pivot (fun n => set_right n (Some r)) in
  let* m := update_height m pivot in
  Some (pivot, m).

Definition rebalance (m : RegionIndex V) (r : nat) : option (nat * RegionIndex V) :=
  let* m := update_height m r in
  let* balance := balance_factor m r in
  if 1 <? balance then
    let* n := node m r in
    let* l := n.(left) in
    let* bl := balance_factor m l in
    let* m := if bl <? 0 then
                let* (rotated, m) := rotate_left m l in
                node_mut m r (fun n => set_left n (Some rotated))
              else Some m in
    rotate_right m r
  else if balance <? -1 then
    let* n := node m r in
    let* rt := n.(right) in
    let* br := balance_factor m rt in
    let* m := if 0 <? br then
                let* (rotated, m) := rotate_right m rt in
                node_mut m r (fun n => set_right n (Some rotated))
              else Some m in
    rotate_left m r
  else Some (r, m).

(** * Insertion *)

Fixpoint insert_index (f : nat) (m : RegionIndex V) (r : Link) (inserted : nat) : option (nat * RegionIndex V) :=
  match f, r with
  | O, _ => None
  | S f, None => Some (inserted, m)
  | S f, Some r =>
      let* ni := node m inserted in
      let* nr := node m r in
      let* m :=
        if ni.(key) <? nr.(key) then
          let* (child, m) := insert_index f m nr.(left) inserted in
          node_mut m r (fun n => set_left n (Some child))
        else
          let* (child, m) := insert_index f m nr.(right) inserted in
          node_mut m r (fun n => set_right n (Some child)) in
      rebalance m r
  end.

Definition is_some {A} (o : option A) : bool := match o with Some _ => true | None => false end.

Definition insert_reserved (m : RegionIndex V) (k : Z) (v : V) : option (option V * RegionIndex V) :=
  let* (existing, m) := get_mut m k (fun _ => v) in
  match existing with
  | Some old => Some (Some old, m)
  | None =>
      if is_some m.(free_head) || (length m.(slots) <? m.(capacity))%nat then
        let* (inserted, m) := allocate_slot m (node_new k v) in
        let* (r, m) := insert_index (fuel m) m m.(root) inserted in
        Some (None, set_len (set_root m (Some r)) (S m.(len)))
      else None
  end.

Definition push_sorted_reserved (m : RegionIndex V) (k : Z) (v : V) : option (RegionIndex V) :=
  if negb (m.(free_len) =? 0)%nat then None
  else if negb (m.(len) =? length m.(slots))%nat then None
  else if negb (length m.(slots) <? m.(capacity))%nat then None
  else
    let* _ :=
      match length m.(slots) with
      | O => Some tt
      | S last => let* n := node m last in if n.(key) <? k then Some tt else None
      end in
    let inserted := length m.(slots) in
    let m := set_slots m (m.(slots) ++ [Occupied (node_new k v)]) in
    let* m :=
      match inserted with
      | O => Some (set_root m (Some inserted))
      | S last => node_mut m last (fun n => set_right n (Some inserted))
      end in
    Some (set_len m (S m.(len))).

Fixpoint build_balanced_sorted_range (f : nat) (m : RegionIndex V) (lo hi : nat) : option (Link * Z * RegionIndex V) :=
  match f with
  | O => None
  | S f =>
      if (lo =? hi)%nat then Some (None, 0, m)
      else
        let middle := (lo + (hi - lo) / 2)%nat in
        let* (l, hl, m) := build_balanced_sorted_range f m lo middle in
        let* (r, hr, m) := build_balanced_sorted_range f m (middle + 1) hi in
        let h := 1 + Z.max hl hr in
        let* m := node_mut m middle (fun n => set_height (set_right (set_left n l) r) (wrap 8 h)) in
        Some (Some middle, wrap 8 h, m)
  end.

Definition finish_sorted_build (m : RegionIndex V) : option (RegionIndex V) :=
  if negb (m.(free_len) =? 0)%nat then None
  else if negb (m.(len) =? length m.(slots))%nat then None
  else
    let* (r, _, m) := build_balanced_sorted_range (fuel m) m 0 (length m.(slots)) in
    Some (set_root m r).

(** * Removal *)

Fixpoint leftmost (f : nat) (m : RegionIndex V) (index : nat) : option nat :=
  match f with
  | O => None
  | S f => let* n := node m index in match n.(left) with Some l => leftmost f m l | None => Some index end
  end.

(** [split_at_mut] keeps the two slots apart: equal indices panic. *)
Definition swap_key_value (m : RegionIndex V) (first second : nat) : option (RegionIndex V) :=
  if (first =? second)%nat then None
  else
    let* a := node m first in
    let* b := node m second in
    let* m := node_mut m first (fun n => mk_node b.(key) b.(value) n.(left) n.(right) n.(height)) in
    node_mut m second (fun n => mk_node a.(key) a.(value) n.(left) n.(right) n.(height)).

Fixpoint remove_index (f : nat) (m : RegionIndex V) (r : Link) (k : Z) : option (Link * option V * RegionIndex V) :=
  match f, r with
  | O, _ => None
  | S f, None => Some (None, None, m)
  | S f, Some r =>
      let* n := node m r in
      match k ?= n.(key) with
      | Lt =>
          let* (l, removed, m) := remove_index f m n.(left) k in
          match removed with
          | None => Some (Some r, None, m)
          | Some _ =>
              let* m := node_mut m r (fun n => set_left n l) in
              let* (r, m) := rebalance m r in
              Some (Some r, removed, m)
          end
      | Gt =>
          let* (rt, removed, m) := remove_index f m n.(right) k in
          match removed with
          | None => Some (Some r, None, m)
          | Some _ =>
              let* m := node_mut m r (fun n => set_right n rt) in
              let* (r, m) := rebalance m r in
              Some (Some r, removed, m)
          end
      | Eq =>
          match n.(left), n.(right) with
          | None, child | child, None =>
              let* (v, m) := retire_slot m r in
              Some (child, Some v, m)
          | Some _, Some rt =>
              let* successor := leftmost (fuel m) m rt in
              let* m := swap_key_value m r successor in
              let* (new_right, removed, m) := remove_index f m (Some rt) k in
              let* m := node_mut m r (fun n => set_right n new_right) in
              let* (r, m) := rebalance m r in
              Some (Some r, removed, m)
          end
      end
  end.

Definition remove (m : RegionIndex V) (k : Z) : option (option V * RegionIndex V) :=
  let* (r, removed, m) := remove_index (fuel m) m m.(root) k in
  let m := set_root m r in
  Some (removed, if is_some removed then set_len m (pred m.(len)) else m).

(** * Visitors *)

Section Visit.
Context {S : Type} (visit : V -> S -> V * S).

Definition visit_node (m : RegionIndex V) (index : nat) (s : S) : option (S * RegionIndex V) :=
  let* n := node m index in
  let '(v, s) := visit n.(value) s in
  let* m := node_mut m index (fun n => set_value n v) in
  Some (s, m).

Fixpoint visit_mut (f : nat) (m : RegionIndex V) (l : Link) (s : S) : option (S * RegionIndex V) :=
  match f, l with
  | O, _ => None
  | Datatypes.S f, None => Some (s, m)
  | Datatypes.S f, Some index =>
      let* n := node m index in
      let* (s, m) := visit_mut f m n.(left) s in
      let* (s, m) := visit_node m index s in
      let* n := node m index in
      visit_mut f m n.(right) s
  end.

Fixpoint visit_range_mut (f : nat) (m : RegionIndex V) (l : Link) (lo hi : Z) (s : S) : option (S * RegionIndex V) :=
  match f, l with
  | O, _ => None
  | Datatypes.S f, None => Some (s, m)
  | Datatypes.S f, Some index =>
      let* n := node m index in
      let* (s, m) := if lo <? n.(key) then visit_range_mut f m n.(left) lo hi s else Some (s, m) in
      let* (s, m) := if (lo <=? n.(key)) && (n.(key) <? hi) then visit_node m index s else Some (s, m) in
      if n.(key) <? hi then visit_range_mut f m n.(right) lo hi s else Some (s, m)
  end.

Definition for_each_mut (m : RegionIndex V) (s : S) : option (S * RegionIndex V) := visit_mut (fuel m) m m.(root) s.

Definition for_each_range_mut (m : RegionIndex V) (lo hi : Z) (s : S) : option (S * RegionIndex V) :=
  visit_range_mut (fuel m) m m.(root) lo hi s.
End Visit.

(** * Iterators *)

(** The stack of an iterator, last pushed first; the array holds
    [MAX_AVL_HEIGHT] of them and the assertion guards it. *)
Fixpoint push_left (f : nat) (m : RegionIndex V) (stack : list nat) (l : Link) : option (list nat) :=
  match f, l with
  | O, _ => None
  | S f, None => Some stack
  | S f, Some index =>
      if (length stack <? MAX_AVL_HEIGHT)%nat then
        let* n := node m index in
        push_left f m (index :: stack) n.(left)
      else None
  end.

Definition iter_new (m : RegionIndex V) : option (list nat) := push_left (fuel m) m [] m.(root).

Definition iter_next (m : RegionIndex V) (stack : list nat) : option (option (Z * V) * list nat) :=
  match stack with
  | [] => Some (None, [])
  | index :: stack =>
      let* n := node m index in
      let* stack := push_left (fuel m) m stack n.(right) in
      Some (Some (n.(key), n.(value)), stack)
  end.

Fixpoint range_start (f : nat) (m : RegionIndex V) (lo : Z) (stack : list nat) (l : Link) : option (list nat) :=
  match f, l with
  | O, _ => None
  | S f, None => Some stack
  | S f, Some index =>
      let* n := node m index in
      if lo <=? n.(key) then
        if (length stack <? MAX_AVL_HEIGHT)%nat then range_start f m lo (index :: stack) n.(left) else None
      else range_start f m lo stack n.(right)
  end.

Definition range_new (m : RegionIndex V) (lo : Z) : option (list nat) := range_start (fuel m) m lo [] m.(root).

Definition range_next (m : RegionIndex V) (hi : Z) (stack : list nat) : option (option (Z * V) * list nat) :=
  match stack with
  | [] => Some (None, [])
  | index :: stack =>
      let* n := node m index in
      if hi <=? n.(key) then Some (None, [])
      else
        let* stack := push_left (fuel m) m stack n.(right) in
        Some (Some (n.(key), n.(value)), stack)
  end.

(** Everything an iterator yields, for a client that drains it. *)
Fixpoint collect (f : nat) (next : list nat -> option (option (Z * V) * list nat)) (stack : list nat) : option (list (Z * V)) :=
  match f with
  | O => None
  | S f =>
      let* (item, stack) := next stack in
      match item with
      | None => Some []
      | Some kv => let* rest := collect f next stack in Some (kv :: rest)
      end
  end.

Definition iter (m : RegionIndex V) : option (list (Z * V)) :=
  let* stack := iter_new m in
  collect (fuel m) (iter_next m) stack.

Definition range (m : RegionIndex V) (lo hi : Z) : option (list (Z * V)) :=
  let* stack := range_new m lo in
  collect (fuel m) (range_next m hi) stack.
End RegionIndex.
End region_index.
