(* ===== verification/RegionTree.v ===== *)
(** The tree an arena of [RegionIndex] holds, and the rebalancing of the arena
    against it.

    A [tree] records the arena index of every node; [rep] says that the slots
    hold it.  [elems] is the map the tree stands for, in key order. *)

From stdpp Require Import sets.
From S2P Require Import Prelude Word RegionIndex.
Import region_index.

Section Tree.
Context {V : Type}.
Implicit Types m : RegionIndex V.

Inductive tree : Type :=
  | Leaf
  | Bin (i : nat) (l : tree) (k : Z) (v : V) (h : Z) (r : tree).

Definition tree_link (t : tree) : Link := match t with Leaf => None | Bin i _ _ _ _ _ => Some i end.

(** The cached height. *)
Definition ht (t : tree) : Z := match t with Leaf => 0 | Bin _ _ _ _ h _ => h end.

Fixpoint indices (t : tree) : list nat :=
  match t with Leaf => [] | Bin i l _ _ _ r => indices l ++ i :: indices r end.

Fixpoint elems (t : tree) : list (Z * V) :=
  match t with Leaf => [] | Bin _ l k v _ r => elems l ++ (k, v) :: elems r end.

Fixpoint rep (s : list (Slot V)) (t : tree) : Prop :=
  match t with
  | Leaf => True
  | Bin i l k v h r => s !! i = Some (Occupied (mk_node k v (tree_link l) (tree_link r) h)) /\ rep s l /\ rep s r
  end.

(** The cached heights are right and differ by at most one between siblings. *)
Fixpoint balanced (t : tree) : Prop :=
  match t with
  | Leaf => True
  | Bin _ l _ _ h r => h = 1 + Z.max (ht l) (ht r) /\ -1 <= ht l - ht r <= 1 /\ balanced l /\ balanced r
  end.

Lemma balanced_ht t : balanced t -> 0 <= ht t.
Proof. induction t as [| i l IHl k v h r IHr]; simpl; [lia |]. intros (-> & _ & Bl & Br). specialize (IHl Bl). specialize (IHr Br). lia. Qed.

Lemma ht_pos t : balanced t -> 0 < ht t -> exists i l k v r, t = Bin i l k v (ht t) r /\ balanced l /\ balanced r /\
  ht t = 1 + Z.max (ht l) (ht r) /\ -1 <= ht l - ht r <= 1.
Proof. destruct t as [| i l k v h r]; simpl; [lia |]. intros (-> & B & Bl & Br) _. exists i, l, k, v, r. split_and!; (done || lia). Qed.

Lemma rep_frame s s' t : (forall i, i ∈ indices t -> s' !! i = s !! i) -> rep s t -> rep s' t.
Proof.
  induction t as [| i l IHl k v h r IHr]; simpl; [done |]. intros F (E & Rl & Rr). split_and!.
  - rewrite F; [done |]. rewrite elem_of_app, elem_of_cons. auto.
  - apply IHl; [| done]. intros j Hj. apply F. rewrite elem_of_app. auto.
  - apply IHr; [| done]. intros j Hj. apply F. rewrite elem_of_app, elem_of_cons. auto.
Qed.

Lemma rep_occupied s t x : rep s t -> x ∈ indices t -> exists n, s !! x = Some (Occupied n).
Proof.
  induction t as [| i l IHl k v h r IHr]; [intros _ H; by apply elem_of_nil in H |]. intros (E & Rl & Rr). simpl. rewrite elem_of_app, elem_of_cons.
  intros [? | [-> | ?]]; eauto.
Qed.

Lemma length_elems t : length (elems t) = length (indices t).
Proof. induction t as [| i l IHl k v h r IHr]; simpl; [done |]. rewrite !length_app. simpl. lia. Qed.

Lemma nodup_bin i l k v h r : NoDup (indices (Bin i l k v h r)) ->
  NoDup (indices l) /\ NoDup (indices r) /\ (i ∉ indices l) /\ (i ∉ indices r) /\ forall x, x ∈ indices l -> x ∉ indices r.
Proof.
  simpl. intros Nd. apply NoDup_app in Nd as (Nl & Dl & Nd). apply NoDup_cons in Nd as (Ni & Nr). split_and!; try done.
  - intros H. apply (Dl i H). by constructor.
  - intros x Hx H. apply (Dl x Hx). by constructor.
Qed.

(** * The arena *)

(** Everything but the slots [xs] is as it was. *)
Definition keeps (xs : list nat) (m m' : RegionIndex V) : Prop :=
  (forall j, j ∉ xs -> m'.(slots) !! j = m.(slots) !! j) /\ length m'.(slots) = length m.(slots) /\
  m'.(capacity) = m.(capacity) /\ m'.(root) = m.(root) /\ m'.(free_head) = m.(free_head) /\ m'.(free_len) = m.(free_len) /\ m'.(len) = m.(len).

Lemma keeps_refl xs m : keeps xs m m.
Proof. done. Qed.

Lemma keeps_trans xs ys m1 m2 m3 : keeps xs m1 m2 -> keeps ys m2 m3 -> keeps (xs ++ ys) m1 m3.
Proof.
  intros (F & ?) (F' & ?). split; [| intuition congruence]. intros j Hj. rewrite elem_of_app in Hj. rewrite F', F by tauto. done.
Qed.

Lemma keeps_mono xs ys m m' : keeps xs m m' -> (forall i, i ∈ xs -> i ∈ ys) -> keeps ys m m'.
Proof. intros (F & ?) S. split; [| done]. intros j Hj. apply F. auto. Qed.

Lemma keeps_rep xs m m' t : keeps xs m m' -> (forall i, i ∈ indices t -> i ∉ xs) -> rep m.(slots) t -> rep m'.(slots) t.
Proof. intros (F & _) D. apply rep_frame. intros i Hi. auto. Qed.

Lemma node_at m i n : m.(slots) !! i = Some (Occupied n) -> node m i = Some n.
Proof. intros E. unfold node. by rewrite E. Qed.

Lemma rep_node m i l k v h r : rep m.(slots) (Bin i l k v h r) -> node m i = Some (mk_node k v (tree_link l) (tree_link r) h).
Proof. intros (E & _). by apply node_at. Qed.

(** A write to one node that leaves it the root of [l'] and [r']. *)
Lemma node_mut_rep m i n f l' k' v' h' r' :
  m.(slots) !! i = Some (Occupied n) -> f n = mk_node k' v' (tree_link l') (tree_link r') h' ->
  rep m.(slots) l' -> rep m.(slots) r' -> i ∉ indices l' -> i ∉ indices r' ->
  exists m', node_mut m i f = Some m' /\ rep m'.(slots) (Bin i l' k' v' h' r') /\ keeps [i] m m'.
Proof.
  intros E Ef Rl Rr Nl Nr. unfold node_mut. rewrite (node_at m i n E). eexists. split; [reflexivity |]. simpl slots.
  assert (K : keeps [i] m (set_slots m (<[i := Occupied (f n)]> (slots m)))).
  { split; [| simpl; by rewrite length_insert]. intros j Hj. simpl. apply list_lookup_insert_ne. intros ->. apply Hj. by apply list_elem_of_singleton. }
  split; [| exact K]. simpl. split_and!.
  - rewrite list_lookup_insert_eq by (by eapply lookup_lt_Some). by rewrite Ef.
  - eapply (keeps_rep _ _ _ l' K); [| done]. intros j Hj ->%list_elem_of_singleton. done.
  - eapply (keeps_rep _ _ _ r' K); [| done]. intros j Hj ->%list_elem_of_singleton. done.
Qed.

Lemma link_height_rep m t : rep m.(slots) t -> link_height m (tree_link t) = Some (ht t).
Proof. destruct t as [| i l k v h r]; [done |]. intros R. simpl. by rewrite (rep_node _ _ _ _ _ _ _ R). Qed.

Lemma update_height_rep m i l k v h r :
  rep m.(slots) (Bin i l k v h r) -> i ∉ indices l -> i ∉ indices r -> ht l < 255 -> ht r < 255 ->
  exists m', update_height m i = Some m' /\ rep m'.(slots) (Bin i l k v (1 + Z.max (ht l) (ht r)) r) /\ keeps [i] m m'.
Proof.
  intros R Nl Nr Hl Hr. pose proof R as (E & Rl & Rr). unfold update_height. rewrite (rep_node _ _ _ _ _ _ _ R). simpl.
  rewrite !link_height_rep by done. rewrite (proj2 (Z.ltb_ge _ _)) by lia. by eapply node_mut_rep.
Qed.

Lemma balance_factor_rep m i l k v h r : rep m.(slots) (Bin i l k v h r) -> balance_factor m i = Some (ht l - ht r).
Proof. intros R. pose proof R as (_ & Rl & Rr). unfold balance_factor. rewrite (rep_node _ _ _ _ _ _ _ R). simpl. by rewrite !link_height_rep. Qed.

(** * Rotations *)

Lemma rotate_right_rep m i j a kj vj hj b k v h c :
  rep m.(slots) (Bin i (Bin j a kj vj hj b) k v h c) -> NoDup (indices (Bin i (Bin j a kj vj hj b) k v h c)) ->
  ht a < 250 -> ht b < 250 -> ht c < 250 ->
  let t := Bin i b k v (1 + Z.max (ht b) (ht c)) c in
  exists m', rotate_right m i = Some (j, m') /\ rep m'.(slots) (Bin j a kj vj (1 + Z.max (ht a) (ht t)) t) /\ keeps [i; j] m m'.
Proof.
  intros R Nd Ha Hb Hc t. pose proof R as (Ei & (Ej & Ra & Rb) & Rc).
  apply nodup_bin in Nd as (Nj & _ & Ni & Nic & Dc). apply nodup_bin in Nj as (_ & _ & Nja & Njb & Dab).
  assert (i <> j /\ (i ∉ indices a) /\ (i ∉ indices b)) as (Nij & Nia & Nib) by (clear -Ni; simpl in Ni; set_solver).
  assert (j ∉ indices c) as Njc by (apply Dc; clear; simpl; set_solver).
  unfold rotate_right. rewrite (node_at _ _ _ Ei). simpl. rewrite (node_at _ _ _ Ej). simpl.
  destruct (node_mut_rep m i _ (fun n => set_left n (tree_link b)) b k v h c Ei eq_refl Rb Rc) as (m1 & -> & R1 & K1); [done | done |].
  destruct (update_height_rep m1 i b k v h c R1) as (m2 & -> & R2 & K2); [done | done | lia | lia |]. fold t in R2.
  pose proof (keeps_trans _ _ _ _ _ K1 K2) as K. assert (Ra2 : rep m2.(slots) a) by (eapply (keeps_rep _ _ _ a K); [clear -Nia; set_solver | done]).
  assert (Ej2 : m2.(slots) !! j = Some (Occupied (mk_node kj vj (tree_link a) (tree_link b) hj))) by (rewrite (proj1 K); [done | clear -Nij; set_solver]).
  destruct (node_mut_rep m2 j _ (fun n => set_right n (Some i)) a kj vj hj t Ej2 eq_refl Ra2 R2) as (m3 & -> & R3 & K3); [done | clear -Nij Njb Njc; simpl; set_solver |].
  destruct (update_height_rep m3 j a kj vj hj t R3) as (m4 & -> & R4 & K4); [done | clear -Nij Njb Njc; simpl; set_solver | lia | simpl; lia |].
  exists m4. split; [done |]. split; [exact R4 |]. eapply keeps_mono; [exact (keeps_trans _ _ _ _ _ K (keeps_trans _ _ _ _ _ K3 K4)) |]. clear. set_solver.
Qed.

Lemma rotate_left_rep m i j a k v h b kj vj hj c :
  rep m.(slots) (Bin i a k v h (Bin j b kj vj hj c)) -> NoDup (indices (Bin i a k v h (Bin j b kj vj hj c))) ->
  ht a < 250 -> ht b < 250 -> ht c < 250 ->
  let t := Bin i a k v (1 + Z.max (ht a) (ht b)) b in
  exists m', rotate_left m i = Some (j, m') /\ rep m'.(slots) (Bin j t kj vj (1 + Z.max (ht t) (ht c)) c) /\ keeps [i; j] m m'.
Proof.
  intros R Nd Ha Hb Hc t. pose proof R as (Ei & Ra & (Ej & Rb & Rc)).
  apply nodup_bin in Nd as (_ & Nj & Nia & Ni & Da). apply nodup_bin in Nj as (_ & _ & Njb & Njc & Dbc).
  assert (i <> j /\ (i ∉ indices b) /\ (i ∉ indices c)) as (Nij & Nib & Nic) by (clear -Ni; simpl in Ni; set_solver).
  assert (j ∉ indices a) as Nja by (intros H; apply (Da j H); clear; simpl; set_solver).
  unfold rotate_left. rewrite (node_at _ _ _ Ei). simpl. rewrite (node_at _ _ _ Ej). simpl.
  destruct (node_mut_rep m i _ (fun n => set_right n (tree_link b)) a k v h b Ei eq_refl Ra Rb) as (m1 & -> & R1 & K1); [done | done |].
  destruct (update_height_rep m1 i a k v h b R1) as (m2 & -> & R2 & K2); [done | done | lia | lia |]. fold t in R2.
  pose proof (keeps_trans _ _ _ _ _ K1 K2) as K. assert (Rc2 : rep m2.(slots) c) by (eapply (keeps_rep _ _ _ c K); [clear -Nic; set_solver | done]).
  assert (Ej2 : m2.(slots) !! j = Some (Occupied (mk_node kj vj (tree_link b) (tree_link c) hj))) by (rewrite (proj1 K); [done | clear -Nij; set_solver]).
  destruct (node_mut_rep m2 j _ (fun n => set_left n (Some i)) t kj vj hj c Ej2 eq_refl R2 Rc2) as (m3 & -> & R3 & K3); [clear -Nij Nja Njb; simpl; set_solver | done |].
  destruct (update_height_rep m3 j t kj vj hj c R3) as (m4 & -> & R4 & K4); [clear -Nij Nja Njb; simpl; set_solver | done | simpl; lia | lia |].
  exists m4. split; [done |]. split; [exact R4 |]. eapply keeps_mono; [exact (keeps_trans _ _ _ _ _ K (keeps_trans _ _ _ _ _ K3 K4)) |]. clear. set_solver.
Qed.

(** What rebalancing a node whose subtrees are balanced gives. *)
Record rebalanced (m : RegionIndex V) (i : nat) (l : tree) (k : Z) (v : V) (r : tree) (t : tree) (m' : RegionIndex V) : Prop := {
  rb_rep : rep m'.(slots) t;
  rb_balanced : balanced t;
  rb_elems : elems t = elems l ++ (k, v) :: elems r;
  rb_indices : indices t = indices l ++ i :: indices r;
  rb_low : Z.max (ht l) (ht r) <= ht t <= 1 + Z.max (ht l) (ht r);
  rb_even : -1 <= ht l - ht r <= 1 -> ht t = 1 + Z.max (ht l) (ht r);
  rb_keeps : keeps (indices t) m m'
}.

(** The left-heavy branch of [rebalance]. *)
Lemma left_heavy m i l k v h r :
  rep m.(slots) (Bin i l k v h r) -> NoDup (indices (Bin i l k v h r)) -> balanced l -> balanced r -> ht l = ht r + 2 -> ht l < 200 ->
  exists j t m',
    (let* n := node m i in
     let* l := n.(left) in
     let* bl := balance_factor m l in
     let* w := if bl <? 0 then
                 let* (rotated, w) := rotate_left m l in
                 node_mut w i (fun n => set_left n (Some rotated))
               else Some m in
     rotate_right w i) = Some (j, m') /\ tree_link t = Some j /\ rebalanced m i l k v r t m'.
Proof.
  intros R Nd Bl Br D Hl. pose proof (balanced_ht r Br). destruct (ht_pos l Bl ltac:(lia)) as (j & a & kj & vj & b & El & Ba & Bb & Ht & Db).
  rewrite El in R, Nd. pose proof (balanced_ht a Ba). pose proof (balanced_ht b Bb). pose proof R as (Ei & Rl & Rr). rewrite (node_at _ _ _ Ei). simpl.
  rewrite (balance_factor_rep _ _ _ _ _ _ _ Rl). destruct (Z.ltb_spec (ht a - ht b) 0) as [G | G].
  - destruct (ht_pos b Bb ltac:(lia)) as (q & b1 & kq & vq & b2 & Eb & Bb1 & Bb2 & Hb & Db2). rewrite Eb in R, Nd, Rl.
    pose proof (balanced_ht b1 Bb1). pose proof (balanced_ht b2 Bb2).
    assert (Nl : NoDup (indices (Bin j a kj vj (ht l) (Bin q b1 kq vq (ht b) b2)))) by apply (nodup_bin _ _ _ _ _ _ Nd).
    destruct (rotate_left_rep m j q a kj vj (ht l) b1 kq vq (ht b) b2 Rl Nl) as (m1 & -> & R1 & K1); [lia | lia | lia |].
    set (lt := Bin q _ kq vq _ b2) in R1.
    assert (Il : indices lt = indices (Bin j a kj vj (ht l) (Bin q b1 kq vq (ht b) b2))) by (subst lt; simpl; by rewrite <- app_assoc).
    apply nodup_bin in Nd as Nd'. destruct Nd' as (_ & _ & Nil & Nir & Dlr). rewrite <- Il in Nil, Dlr.
    assert (Jq : forall x, x ∈ [j; q] -> x ∈ indices lt) by (rewrite Il; clear; simpl; set_solver).
    assert (Nij : i ∉ [j; q]) by auto. assert (Nrx : forall x, x ∈ indices r -> x ∉ [j; q]) by (intros x Hx Hq; exact (Dlr x (Jq x Hq) Hx)).
    assert (Ei1 : m1.(slots) !! i = Some (Occupied (mk_node k v (Some j) (tree_link r) h))) by (by rewrite (proj1 K1)).
    assert (Rr1 : rep m1.(slots) r) by (by apply (keeps_rep _ _ _ r K1)).
    destruct (node_mut_rep m1 i _ (fun n => set_left n (Some q)) lt k v h r Ei1 eq_refl R1 Rr1 Nil Nir) as (m2 & -> & R2 & K2).
    assert (Nd2 : NoDup (indices (Bin i lt k v h r))) by (cbn [indices]; rewrite Il; exact Nd).
    destruct (rotate_right_rep m2 i q _ kq vq _ b2 k v h r R2 Nd2) as (m3 & E3 & R3 & K3); [simpl; lia | lia | lia |].
    eexists q, (Bin q _ _ _ _ _), m3. split; [exact E3 |]. split; [done |]. rewrite El, Eb. split; [exact R3 | simpl; split_and!; done || lia | | | simpl; lia | simpl; lia |].
    + simpl. by repeat (rewrite <- !app_assoc; simpl).
    + simpl. by repeat (rewrite <- !app_assoc; simpl).
    + eapply keeps_mono; [exact (keeps_trans _ _ _ _ _ (keeps_trans _ _ _ _ _ K1 K2) K3) |]. clear. simpl. set_solver.
  - destruct (rotate_right_rep m i j a kj vj (ht l) b k v h r R Nd) as (m1 & E1 & R1 & K1); [lia | lia | lia |].
    eexists j, (Bin j _ _ _ _ _), m1. split; [exact E1 |]. split; [done |]. rewrite El. split; [exact R1 | simpl; split_and!; done || lia | | | simpl; lia | simpl; lia |].
    + simpl. by rewrite <- app_assoc.
    + simpl. by rewrite <- app_assoc.
    + eapply keeps_mono; [exact K1 |]. clear. simpl. set_solver.
Qed.

(** The right-heavy branch. *)
Lemma right_heavy m i l k v h r :
  rep m.(slots) (Bin i l k v h r) -> NoDup (indices (Bin i l k v h r)) -> balanced l -> balanced r -> ht r = ht l + 2 -> ht r < 200 ->
  exists j t m',
    (let* n := node m i in
     let* rt := n.(right) in
     let* br := balance_factor m rt in
     let* w := if 0 <? br then
                 let* (rotated, w) := rotate_right m rt in
                 node_mut w i (fun n => set_right n (Some rotated))
               else Some m in
     rotate_left w i) = Some (j, m') /\ tree_link t = Some j /\ rebalanced m i l k v r t m'.
Proof.
  intros R Nd Bl Br D Hr. pose proof (balanced_ht l Bl). destruct (ht_pos r Br ltac:(lia)) as (j & b & kj & vj & c & Er & Bb & Bc & Ht & Db).
  rewrite Er in R, Nd. pose proof (balanced_ht b Bb). pose proof (balanced_ht c Bc). pose proof R as (Ei & Rl & Rr). rewrite (node_at _ _ _ Ei). simpl.
  rewrite (balance_factor_rep _ _ _ _ _ _ _ Rr). destruct (Z.ltb_spec 0 (ht b - ht c)) as [G | G].
  - destruct (ht_pos b Bb ltac:(lia)) as (q & b1 & kq & vq & b2 & Eb & Bb1 & Bb2 & Hb & Db2). rewrite Eb in R, Nd, Rr.
    pose proof (balanced_ht b1 Bb1). pose proof (balanced_ht b2 Bb2).
    assert (Nr : NoDup (indices (Bin j (Bin q b1 kq vq (ht b) b2) kj vj (ht r) c))) by apply (nodup_bin _ _ _ _ _ _ Nd).
    destruct (rotate_right_rep m j q b1 kq vq (ht b) b2 kj vj (ht r) c Rr Nr) as (m1 & -> & R1 & K1); [lia | lia | lia |].
    set (rt := Bin q b1 kq vq _ _) in R1.
    assert (Ir : indices rt = indices (Bin j (Bin q b1 kq vq (ht b) b2) kj vj (ht r) c)) by (subst rt; simpl; by rewrite <- app_assoc).
    apply nodup_bin in Nd as Nd'. destruct Nd' as (_ & _ & Nil & Nir & Dlr). rewrite <- Ir in Nir, Dlr.
    assert (Jq : forall x, x ∈ [j; q] -> x ∈ indices rt) by (rewrite Ir; clear; simpl; set_solver).
    assert (Nij : i ∉ [j; q]) by auto. assert (Nlx : forall x, x ∈ indices l -> x ∉ [j; q]) by (intros x Hx Hq; exact (Dlr x Hx (Jq x Hq))).
    assert (Ei1 : m1.(slots) !! i = Some (Occupied (mk_node k v (tree_link l) (Some j) h))) by (by rewrite (proj1 K1)).
    assert (Rl1 : rep m1.(slots) l) by (by apply (keeps_rep _ _ _ l K1)).
    destruct (node_mut_rep m1 i _ (fun n => set_right n (Some q)) l k v h rt Ei1 eq_refl Rl1 R1 Nil Nir) as (m2 & -> & R2 & K2).
    assert (Nd2 : NoDup (indices (Bin i l k v h rt))) by (cbn [indices]; rewrite Ir; exact Nd).
    destruct (rotate_left_rep m2 i q l k v h b1 kq vq _ _ R2 Nd2) as (m3 & E3 & R3 & K3); [lia | lia | simpl; lia |].
    eexists q, (Bin q _ _ _ _ _), m3. split; [exact E3 |]. split; [done |]. rewrite Er, Eb. split; [exact R3 | simpl; split_and!; done || lia | | | simpl; lia | simpl; lia |].
    + simpl. by repeat (rewrite <- !app_assoc; simpl).
    + simpl. by repeat (rewrite <- !app_assoc; simpl).
    + eapply keeps_mono; [exact (keeps_trans _ _ _ _ _ (keeps_trans _ _ _ _ _ K1 K2) K3) |]. clear. simpl. set_solver.
  - destruct (rotate_left_rep m i j l k v h b kj vj (ht r) c R Nd) as (m1 & E1 & R1 & K1); [lia | lia | lia |].
    eexists j, (Bin j _ _ _ _ _), m1. split; [exact E1 |]. split; [done |]. rewrite Er. split; [exact R1 | simpl; split_and!; done || lia | | | simpl; lia | simpl; lia |].
    + simpl. by rewrite <- app_assoc.
    + simpl. by rewrite <- app_assoc.
    + eapply keeps_mono; [exact K1 |]. clear. simpl. set_solver.
Qed.

Lemma rebalance_rep m i l k v h r :
  rep m.(slots) (Bin i l k v h r) -> NoDup (indices (Bin i l k v h r)) -> balanced l -> balanced r ->
  -2 <= ht l - ht r <= 2 -> ht l < 200 -> ht r < 200 ->
  exists j t m', rebalance m i = Some (j, m') /\ tree_link t = Some j /\ rebalanced m i l k v r t m'.
Proof.
  intros R Nd Bl Br D Hl Hr. pose proof (balanced_ht l Bl). pose proof (balanced_ht r Br).
  destruct (nodup_bin _ _ _ _ _ _ Nd) as (_ & _ & Nl & Nr & _).
  unfold rebalance. destruct (update_height_rep m i l k v h r R Nl Nr) as (m1 & -> & R1 & K1); [lia | lia |].
  rewrite (balance_factor_rep _ _ _ _ _ _ _ R1).
  destruct (Z.ltb_spec 1 (ht l - ht r)) as [G | G]; [| destruct (Z.ltb_spec (ht l - ht r) (-1)) as [G' | G']].
  3:{ exists i, (Bin i l k v (1 + Z.max (ht l) (ht r)) r), m1. split; [done |]. split; [done |].
      split; [exact R1 | simpl; split_and!; done || lia | done | done | simpl; lia | simpl; lia |].
      eapply keeps_mono; [exact K1 |]. clear. simpl. set_solver. }
  - destruct (left_heavy m1 i l k v _ r R1 Nd Bl Br ltac:(lia) Hl) as (j & t & m' & E & Ht & [Rt Bt Et It Lt Vt Kt]).
    exists j, t, m'. split; [exact E |]. split; [done |]. split; try done. eapply keeps_mono; [exact (keeps_trans _ _ _ _ _ K1 Kt) |].
    rewrite It. clear. set_solver.
  - destruct (right_heavy m1 i l k v _ r R1 Nd Bl Br ltac:(lia) Hr) as (j & t & m' & E & Ht & [Rt Bt Et It Lt Vt Kt]).
    exists j, t, m'. split; [exact E |]. split; [done |]. split; try done. eapply keeps_mono; [exact (keeps_trans _ _ _ _ _ K1 Kt) |].
    rewrite It. clear. set_solver.
Qed.
End Tree.
