(* ===== verification/RegionUpdate.v ===== *)
(** Insertion and removal in the arena of [RegionIndex], on the tree it holds:
    the tree stays balanced and ordered, its map gains or loses the key, and the
    slots outside it are untouched.  Also the height bound of a balanced tree. *)

From stdpp Require Import sets sorting.
From S2P Require Import Prelude Word FreeList SortedMap RegionIndex RegionTree.
Import region_index.

(** * The height of a balanced tree *)

(** The least number of nodes of a balanced tree of height [h] and [h + 1]. *)
Fixpoint least_nodes (h : nat) : Z * Z :=
  match h with O => (0, 1) | S h => let '(a, b) := least_nodes h in (b, 1 + a + b) end.

Lemma least_nodes_S h : fst (least_nodes (S h)) = snd (least_nodes h) /\ snd (least_nodes (S h)) = 1 + fst (least_nodes h) + snd (least_nodes h).
Proof. simpl. by destruct (least_nodes h). Qed.

Lemma least_nodes_mono h k : (h <= k)%nat -> 0 <= fst (least_nodes h) <= snd (least_nodes h) /\ fst (least_nodes h) <= fst (least_nodes k).
Proof.
  intros L. assert (P : forall j, 0 <= fst (least_nodes j) <= snd (least_nodes j)).
  { induction j as [| j IH]; [simpl; lia |]. destruct (least_nodes_S j) as [-> ->]. lia. }
  split; [apply P |]. induction L as [| k L IH]; [lia |]. destruct (least_nodes_S k) as [-> _]. specialize (P k). lia.
Qed.

Section Sound.
Context {V : Type}.
Implicit Types m : RegionIndex V.
Abbreviation tree := (@tree V).

Lemma balanced_nodes (t : tree) : balanced t -> fst (least_nodes (Z.to_nat (ht t))) <= Z.of_nat (length (indices t)).
Proof.
  induction t as [| i l IHl k v h r IHr]; simpl; [lia |]. intros (-> & D & Bl & Br). specialize (IHl Bl). specialize (IHr Br).
  pose proof (balanced_ht l Bl). pose proof (balanced_ht r Br). rewrite length_app. simpl.
  assert (X : forall (a b : Z), 0 <= a -> 0 <= b -> a <= b + 1 -> b <= a -> fst (least_nodes (Z.to_nat (1 + a))) <= 1 + fst (least_nodes (Z.to_nat a)) + fst (least_nodes (Z.to_nat b))).
  { intros a b Ha Hb L1 L2. destruct (decide (a = 0)) as [-> | N]; [simpl; pose proof (least_nodes_mono (Z.to_nat b) (Z.to_nat b)); lia |].
    replace (Z.to_nat (1 + a)) with (S (Z.to_nat a)) by lia. destruct (least_nodes_S (Z.to_nat a)) as [-> _].
    replace (Z.to_nat a) with (S (Z.to_nat (a - 1))) by lia. destruct (least_nodes_S (Z.to_nat (a - 1))) as [-> ->].
    pose proof (least_nodes_mono (Z.to_nat (a - 1)) (Z.to_nat b)). lia. }
  destruct (Z.le_gt_cases (ht r) (ht l)).
  - rewrite Z.max_l by lia. specialize (X (ht l) (ht r)). lia.
  - rewrite Z.max_r by lia. specialize (X (ht r) (ht l)). lia.
Qed.

(** A tree that fits in memory is at most 90 high. *)
Lemma balanced_height (t : tree) : balanced t -> Z.of_nat (length (indices t)) < 2 ^ 63 -> ht t <= 90.
Proof.
  intros B L. pose proof (balanced_nodes t B) as N. pose proof (balanced_ht t B). destruct (Z.le_gt_cases (ht t) 90); [done |]. exfalso.
  destruct (least_nodes_mono 91 (Z.to_nat (ht t))) as [_ M]; [lia |].
  assert (E : fst (least_nodes 91) = 12200160415121876737) by (vm_compute; reflexivity). lia.
Qed.

(** * Hanging a new subtree *)

(** A node [q] gets the left subtree [l'], and is rebalanced. *)
Lemma rehang_left m q n (l' r : tree) :
  m.(slots) !! q = Some (Occupied n) -> n.(right) = tree_link r -> rep m.(slots) l' -> rep m.(slots) r ->
  NoDup (indices l' ++ q :: indices r) -> balanced l' -> balanced r -> -2 <= ht l' - ht r <= 2 -> ht l' < 200 -> ht r < 200 ->
  exists m2 j t' m', node_mut m q (fun n => set_left n (tree_link l')) = Some m2 /\ rebalance m2 q = Some (j, m') /\
    tree_link t' = Some j /\ rebalanced m q l' n.(key) n.(value) r t' m'.
Proof.
  intros E Er Rl Rr Nd Bl Br D Hl Hr. destruct (nodup_bin q l' n.(key) n.(value) n.(height) r Nd) as (_ & _ & Nl & Nr & _).
  destruct (node_mut_rep m q n (fun n => set_left n (tree_link l')) l' n.(key) n.(value) n.(height) r E) as (m2 & E2 & R2 & K2); [simpl; by rewrite <- Er | done | done | done | done |].
  destruct (rebalance_rep m2 q l' _ _ _ r R2 Nd Bl Br D Hl Hr) as (j & t' & m' & E3 & T & [R3 B3 El I3 Lo Ev K3]).
  exists m2, j, t', m'. split; [exact E2 |]. split; [exact E3 |]. split; [exact T |]. split; try done.
  eapply keeps_mono; [exact (keeps_trans _ _ _ _ _ K2 K3) |]. rewrite I3. clear. set_solver.
Qed.

Lemma rehang_right m q n (l r' : tree) :
  m.(slots) !! q = Some (Occupied n) -> n.(left) = tree_link l -> rep m.(slots) l -> rep m.(slots) r' ->
  NoDup (indices l ++ q :: indices r') -> balanced l -> balanced r' -> -2 <= ht l - ht r' <= 2 -> ht l < 200 -> ht r' < 200 ->
  exists m2 j t' m', node_mut m q (fun n => set_right n (tree_link r')) = Some m2 /\ rebalance m2 q = Some (j, m') /\
    tree_link t' = Some j /\ rebalanced m q l n.(key) n.(value) r' t' m'.
Proof.
  intros E El Rl Rr Nd Bl Br D Hl Hr. destruct (nodup_bin q l n.(key) n.(value) n.(height) r' Nd) as (_ & _ & Nl & Nr & _).
  destruct (node_mut_rep m q n (fun n => set_right n (tree_link r')) l n.(key) n.(value) n.(height) r' E) as (m2 & E2 & R2 & K2); [simpl; by rewrite <- El | done | done | done | done |].
  destruct (rebalance_rep m2 q l _ _ _ r' R2 Nd Bl Br D Hl Hr) as (j & t' & m' & E3 & T & [R3 B3 Els I3 Lo Ev K3]).
  exists m2, j, t', m'. split; [exact E2 |]. split; [exact E3 |]. split; [exact T |]. split; try done.
  eapply keeps_mono; [exact (keeps_trans _ _ _ _ _ K2 K3) |]. rewrite I3. clear. set_solver.
Qed.

(** * Insertion *)

Lemma insert_index_rep f m (t : tree) i k v :
  rep m.(slots) t -> NoDup (i :: indices t) -> m.(slots) !! i = Some (Occupied (node_new k v)) -> balanced t -> ht t <= 100 ->
  key_sorted (elems t) -> assoc k (elems t) = None -> (length (indices t) < f)%nat ->
  exists j t' m', insert_index f m (tree_link t) i = Some (j, m') /\ tree_link t' = Some j /\ rep m'.(slots) t' /\ balanced t' /\
    ht t <= ht t' <= ht t + 1 /\ elems t' = assoc_put k v (elems t) /\ indices t' ≡ₚ i :: indices t /\ keeps (indices t') m m'.
Proof.
  revert f m. induction t as [| q l IHl kq vq h r IHr]; intros [| f] m R Nd Ei B Hh S A Hf; try (simpl in Hf; lia).
  { exists i, (Bin i Leaf k v 1 Leaf), m. simpl. split_and!; try done. all: lia. }
  pose proof R as (Eq & Rl & Rr). apply NoDup_cons in Nd as [Ni Nd]. destruct (nodup_bin _ _ _ _ _ _ Nd) as (Nl & Nr & Nql & Nqr & Dlr).
  simpl in B, Hh. destruct B as (-> & D & Bl & Br). pose proof (balanced_ht l Bl). pose proof (balanced_ht r Br).
  assert (Niq : i <> q /\ (i ∉ indices l) /\ (i ∉ indices r)) by (clear -Ni; simpl in Ni; set_solver). destruct Niq as (Niq & Nil & Nir).
  simpl in S, A, Hf. rewrite length_app in Hf. simpl in Hf. rewrite assoc_mid in A by done. pose proof S as (Sl & Sr & Bel & Abo)%sorted_mid.
  cbn [insert_index tree_link]. rewrite (node_at _ _ _ Ei), (node_at _ _ _ Eq). cbn [key node_new left right].
  destruct (Z.compare_spec k kq) as [-> | G | G]; [done | |].
  - rewrite (proj2 (Z.ltb_lt _ _)) by lia.
    destruct (IHl f m Rl ltac:(by constructor) Ei Bl ltac:(lia) Sl A ltac:(lia)) as (j & l' & m1 & -> & Tl & Rl1 & Bl1 & Hl1 & El1 & Il1 & K1).
    assert (M1 : forall x, x ∈ indices l' -> x = i \/ x ∈ indices l) by (intros x Hx; rewrite Il1 in Hx; by apply elem_of_cons in Hx).
    destruct (rehang_left m1 q (mk_node kq vq (tree_link l) (tree_link r) (1 + Z.max (ht l) (ht r))) l' r) as (m2 & j2 & t' & m3 & E2 & E3 & T3 & [R3 B3 El3 I3 Lo3 Ev3 K3]); try done; try lia.
    { rewrite (proj1 K1); [done |]. intros Hq. destruct (M1 q Hq) as [-> | ?]; done. }
    { apply (keeps_rep _ _ _ r K1); [| done]. intros x Hx Hx'. destruct (M1 x Hx') as [-> | ?]; [done | by apply (Dlr x)]. }
    { rewrite Il1. simpl. by constructor. }
    rewrite Tl in E2. rewrite E2. exists j2, t', m3. split; [exact E3 |]. split; [exact T3 |]. split; [exact R3 |]. split_and!; try done; try (simpl; lia).
    + rewrite El3, El1. simpl. by rewrite put_left.
    + rewrite I3, Il1. done.
    + eapply keeps_mono; [exact (keeps_trans _ _ _ _ _ K1 K3) |]. rewrite I3. clear. set_solver.
  - rewrite (proj2 (Z.ltb_ge _ _)) by lia.
    destruct (IHr f m Rr ltac:(by constructor) Ei Br ltac:(lia) Sr A ltac:(lia)) as (j & r' & m1 & -> & Tr & Rr1 & Br1 & Hr1 & Er1 & Ir1 & K1).
    assert (M1 : forall x, x ∈ indices r' -> x = i \/ x ∈ indices r) by (intros x Hx; rewrite Ir1 in Hx; by apply elem_of_cons in Hx).
    assert (Pm : indices l ++ q :: indices r' ≡ₚ i :: indices l ++ q :: indices r) by (rewrite Ir1; solve_Permutation).
    destruct (rehang_right m1 q (mk_node kq vq (tree_link l) (tree_link r) (1 + Z.max (ht l) (ht r))) l r') as (m2 & j2 & t' & m3 & E2 & E3 & T3 & [R3 B3 El3 I3 Lo3 Ev3 K3]); try done; try lia.
    { rewrite (proj1 K1); [done |]. intros Hq. destruct (M1 q Hq) as [-> | ?]; done. }
    { apply (keeps_rep _ _ _ l K1); [| done]. intros x Hx Hx'. destruct (M1 x Hx') as [-> | ?]; [done | by apply (Dlr x)]. }
    { rewrite Pm. by constructor. }
    rewrite Tr in E2. rewrite E2. exists j2, t', m3. split; [exact E3 |]. split; [exact T3 |]. split; [exact R3 |]. split_and!; try done; try (simpl; lia).
    + rewrite El3, Er1. simpl. by rewrite put_right.
    + rewrite I3. exact Pm.
    + eapply keeps_mono; [exact (keeps_trans _ _ _ _ _ K1 K3) |]. rewrite I3. clear. set_solver.
Qed.

(** * Removal *)

(** The slot [x] of [xs] was retired; nothing outside [xs] changed. *)
Record retires (xs : list nat) (x : nat) m (m' : RegionIndex V) : Prop := {
  rt_slot : m'.(slots) !! x = Some (Vacant m.(free_head));
  rt_frame : forall j, j ∉ xs -> m'.(slots) !! j = m.(slots) !! j;
  rt_head : m'.(free_head) = Some x;
  rt_len : m'.(free_len) = S m.(free_len);
  rt_rest : length m'.(slots) = length m.(slots) /\ m'.(capacity) = m.(capacity) /\ m'.(root) = m.(root) /\ m'.(len) = m.(len)
}.

Lemma retires_keeps xs ys x m m1 m2 : retires xs x m m1 -> keeps ys m1 m2 -> x ∉ ys -> retires (xs ++ ys) x m m2.
Proof.
  intros [S F H L R] (K & K1 & K2 & K3 & K4 & K5 & K6) Nx. split.
  - by rewrite K.
  - intros j Hj. rewrite elem_of_app in Hj. rewrite K, F by tauto. done.
  - congruence.
  - congruence.
  - intuition congruence.
Qed.

Lemma keeps_retires xs ys x m m1 m2 : keeps ys m m1 -> retires xs x m1 m2 -> retires (ys ++ xs) x m m2.
Proof.
  intros (K & K1 & K2 & K3 & K4 & K5 & K6) [S F H L R]. split.
  - congruence.
  - intros j Hj. rewrite elem_of_app in Hj. rewrite F, K by tauto. done.
  - done.
  - congruence.
  - intuition congruence.
Qed.

Lemma retires_mono xs ys x m m' : retires xs x m m' -> (forall i, i ∈ xs -> i ∈ ys) -> retires ys x m m'.
Proof. intros [S F H L R] M. split; try done. intros j Hj. apply F. auto. Qed.

Lemma retires_rep xs x m m' (t : tree) : retires xs x m m' -> (forall i, i ∈ indices t -> i ∉ xs) -> rep m.(slots) t -> rep m'.(slots) t.
Proof. intros [_ F _ _ _] D. apply rep_frame. intros i Hi. auto. Qed.

Lemma retire_slot_ok m q n : m.(slots) !! q = Some (Occupied n) -> exists m', retire_slot m q = Some (n.(value), m') /\ retires [q] q m m'.
Proof.
  intros E. unfold retire_slot. rewrite E. eexists. split; [reflexivity |]. pose proof (lookup_lt_Some _ _ _ E). split; simpl; try done.
  - by apply list_lookup_insert_eq.
  - intros j Hj. apply list_lookup_insert_ne. intros ->. apply Hj. by constructor.
  - by rewrite length_insert.
Qed.

Lemma leaf_dec (t : tree) : t = Leaf \/ t <> Leaf.
Proof. destruct t; [by left | by right]. Qed.

(** The leftmost node, and the tree with another key and value there. *)
Fixpoint min_index (t : tree) (d : nat) : nat := match t with Leaf => d | Bin i l _ _ _ _ => min_index l i end.

Fixpoint set_min (t : tree) (k : Z) (v : V) : tree :=
  match t with
  | Leaf => Leaf
  | Bin i Leaf _ _ h r => Bin i Leaf k v h r
  | Bin i l k' v' h r => Bin i (set_min l k v) k' v' h r
  end.

Lemma set_min_shape t k v : tree_link (set_min t k v) = tree_link t /\ ht (set_min t k v) = ht t /\ indices (set_min t k v) = indices t /\
  (balanced t -> balanced (set_min t k v)).
Proof.
  induction t as [| i l IHl k' v' h r _]; [done |]. destruct IHl as (L & H & I & B). destruct l as [| i2 l2 k2 v2 h2 r2]; [done |].
  cbn [set_min] in *. cbn [tree_link ht indices balanced] in *. rewrite H, I. split_and!; try done. intros (? & ? & ? & ?). auto.
Qed.

Lemma min_index_in t d : t <> Leaf -> min_index t d ∈ indices t.
Proof.
  revert d. induction t as [| i l IHl k v h r _]; intros d N; [done |]. simpl. destruct (leaf_dec l) as [-> | Nl]; simpl; [set_solver |].
  apply elem_of_app. left. by apply IHl.
Qed.

(** Rewriting the leftmost node's payload in the arena. *)
Lemma set_min_rep s t d k v : t <> Leaf -> rep s t -> NoDup (indices t) ->
  exists n k1 v1 rest, s !! min_index t d = Some (Occupied n) /\ n.(key) = k1 /\ n.(value) = v1 /\
    elems t = (k1, v1) :: rest /\ elems (set_min t k v) = (k, v) :: rest /\
    rep (<[min_index t d := Occupied (mk_node k v n.(left) n.(right) n.(height))]> s) (set_min t k v).
Proof.
  revert d. induction t as [| i l IHl k' v' h r _]; intros d N R Nd; [done |]. destruct R as (E & Rl & Rr).
  destruct (nodup_bin _ _ _ _ _ _ Nd) as (Nl & _ & Nil & Nir & Dlr). pose proof (lookup_lt_Some _ _ _ E) as Li. destruct (leaf_dec l) as [-> | Nlf].
  - exists (mk_node k' v' None (tree_link r) h), k', v', (elems r). simpl. split_and!; try done.
    + rewrite list_lookup_insert_eq by done. done.
    + eapply rep_frame; [| exact Rr]. intros x Hx. apply list_lookup_insert_ne. by intros <-.
  - destruct (IHl i Nlf Rl Nl) as (n & k1 & v1 & rest & En & Hk & Hv & El & El' & R'). pose proof (min_index_in l i Nlf) as Im.
    assert (X : set_min (Bin i l k' v' h r) k v = Bin i (set_min l k v) k' v' h r) by (by destruct l). rewrite X.
    exists n, k1, v1, (rest ++ (k', v') :: elems r). simpl. rewrite El, El'. split_and!; try done.
    + rewrite list_lookup_insert_ne by (intros Ei; rewrite Ei in Im; done). rewrite E. by rewrite (proj1 (set_min_shape l k v)).
    + eapply rep_frame; [| exact Rr]. intros x Hx. apply list_lookup_insert_ne. intros <-. by apply (Dlr _ Im).
Qed.

Lemma leftmost_rep f m t i : rep m.(slots) t -> tree_link t = Some i -> (length (indices t) < f)%nat -> leftmost f m i = Some (min_index t i).
Proof.
  revert f i. induction t as [| q l IHl k v h r _]; intros [| f] i R T Hf; try done; try lia. injection T as ->. destruct R as (E & Rl & Rr).
  simpl in *. rewrite length_app in Hf. simpl in Hf. rewrite (node_at _ _ _ E). simpl. destruct l as [| q2 l2 k2 v2 h2 r2]; [done |]. simpl tree_link.
  cbn iota. rewrite (IHl f q2 Rl eq_refl ltac:(lia)). done.
Qed.

(** What removing [k] from [t] leaves. *)
Definition removes (k : Z) m (t t' : tree) (m' : RegionIndex V) : Prop :=
  rep m'.(slots) t' /\ balanced t' /\ ht t - 1 <= ht t' <= ht t /\ elems t' = assoc_del k (elems t) /\
  match assoc k (elems t) with
  | None => m' = m /\ t' = t
  | Some _ => exists x, indices t ≡ₚ x :: indices t' /\ retires (indices t) x m m'
  end.

(** The node itself goes: it has at most one child. *)
Lemma remove_here m q l kq vq h r (c : tree) :
  rep m.(slots) (Bin q l kq vq h r) -> NoDup (indices (Bin q l kq vq h r)) -> balanced (Bin q l kq vq h r) -> key_sorted (elems (Bin q l kq vq h r)) ->
  (l = Leaf /\ c = r) \/ (r = Leaf /\ c = l) ->
  exists m', retire_slot m q = Some (vq, m') /\ removes kq m (Bin q l kq vq h r) c m'.
Proof.
  intros R Nd B S C. pose proof R as (E & Rl & Rr). destruct (nodup_bin _ _ _ _ _ _ Nd) as (_ & _ & Nl & Nr & _). simpl in B. destruct B as (-> & D & Bl & Br).
  pose proof (balanced_ht l Bl). pose proof (balanced_ht r Br).
  destruct (retire_slot_ok m q _ E) as (m' & Em & Rt). exists m'. split; [exact Em |]. unfold removes.
  assert (Rt' : retires (indices (Bin q l kq vq (1 + Z.max (ht l) (ht r)) r)) q m m') by (eapply retires_mono; [exact Rt |]; clear; simpl; set_solver).
  simpl elems in S |- *. rewrite del_mid, assoc_mid, Z.compare_refl by done.
  destruct C as [[-> ->] | [-> ->]]; (split; [eapply (retires_rep _ _ _ _ _ Rt); [| done]; intros x Hx ->%list_elem_of_singleton; done |]).
  - split_and!; try done; try (simpl in *; lia). exists q. by split.
  - split_and!; try done; try (simpl in *; lia).
    + simpl. by rewrite app_nil_r.
    + exists q. split; [| done]. simpl. solve_Permutation.
Qed.

(** What is left of a node when its left subtree lost [k]. *)
Lemma remove_left m m1 q l l' kq vq h r k v :
  rep m.(slots) (Bin q l kq vq h r) -> NoDup (indices (Bin q l kq vq h r)) -> balanced (Bin q l kq vq h r) -> h <= 100 -> key_sorted (elems (Bin q l kq vq h r)) ->
  k < kq -> removes k m l l' m1 -> assoc k (elems l) = Some v ->
  exists m2 j t' m', node_mut m1 q (fun n => set_left n (tree_link l')) = Some m2 /\ rebalance m2 q = Some (j, m') /\
    tree_link t' = Some j /\ removes k m (Bin q l kq vq h r) t' m'.
Proof.
  intros R Nd B Hh S G (Rl1 & Bl1 & Hl1 & El1 & X) A. rewrite A in X. destruct X as (x & Px & Rt). pose proof R as (E & Rl & Rr).
  destruct (nodup_bin _ _ _ _ _ _ Nd) as (Nl & Nr & Nql & Nqr & Dlr). simpl in B. destruct B as (-> & D & Bl & Br).
  pose proof (balanced_ht l Bl). pose proof (balanced_ht r Br).
  assert (Il : forall y, y ∈ indices l' -> y ∈ indices l) by (intros y Hy; rewrite Px; by constructor).
  assert (Pm : indices l ++ q :: indices r ≡ₚ x :: indices l' ++ q :: indices r) by (rewrite Px; done).
  assert (Nd' : NoDup (x :: indices l' ++ q :: indices r)) by (rewrite <- Pm; exact Nd). apply NoDup_cons in Nd' as [Nx Nd'].
  destruct (rehang_left m1 q (mk_node kq vq (tree_link l) (tree_link r) (1 + Z.max (ht l) (ht r))) l' r) as (m2 & j & t' & m' & E2 & E3 & T & [R3 B3 El3 I3 Lo3 Ev3 K3]); try done; try lia.
  { by rewrite (rt_frame _ _ _ _ Rt). }
  { apply (retires_rep _ _ _ _ r Rt); [| done]. intros y Hy Hy'. by apply (Dlr y). }
  exists m2, j, t', m'. split; [exact E2 |]. split; [exact E3 |]. split; [exact T |]. simpl elems in S. split; [exact R3 |]. split_and!; try done; try (simpl; lia).
  - rewrite El3, El1. cbn [elems]. rewrite del_mid by done. by rewrite (proj2 (Z.compare_lt_iff _ _) G).
  - cbn [elems]. rewrite assoc_mid by done. rewrite (proj2 (Z.compare_lt_iff _ _) G), A. exists x. split; [by rewrite I3 |].
    eapply retires_mono; [apply (retires_keeps _ _ _ _ _ _ Rt K3); by rewrite I3 |]. rewrite I3. intros y. cbn [indices]. rewrite !elem_of_app. intuition.
Qed.

Lemma remove_right m m1 q l kq vq h r r' k v :
  rep m.(slots) (Bin q l kq vq h r) -> NoDup (indices (Bin q l kq vq h r)) -> balanced (Bin q l kq vq h r) -> h <= 100 -> key_sorted (elems (Bin q l kq vq h r)) ->
  kq < k -> removes k m r r' m1 -> assoc k (elems r) = Some v ->
  exists m2 j t' m', node_mut m1 q (fun n => set_right n (tree_link r')) = Some m2 /\ rebalance m2 q = Some (j, m') /\
    tree_link t' = Some j /\ removes k m (Bin q l kq vq h r) t' m'.
Proof.
  intros R Nd B Hh S G (Rr1 & Br1 & Hr1 & Er1 & X) A. rewrite A in X. destruct X as (x & Px & Rt). pose proof R as (E & Rl & Rr).
  destruct (nodup_bin _ _ _ _ _ _ Nd) as (Nl & Nr & Nql & Nqr & Dlr). simpl in B. destruct B as (-> & D & Bl & Br).
  pose proof (balanced_ht l Bl). pose proof (balanced_ht r Br).
  assert (Ir : forall y, y ∈ indices r' -> y ∈ indices r) by (intros y Hy; rewrite Px; by constructor).
  assert (Pm : indices l ++ q :: indices r ≡ₚ x :: indices l ++ q :: indices r') by (rewrite Px; solve_Permutation).
  assert (Nd' : NoDup (x :: indices l ++ q :: indices r')) by (rewrite <- Pm; exact Nd). apply NoDup_cons in Nd' as [Nx Nd'].
  destruct (rehang_right m1 q (mk_node kq vq (tree_link l) (tree_link r) (1 + Z.max (ht l) (ht r))) l r') as (m2 & j & t' & m' & E2 & E3 & T & [R3 B3 El3 I3 Lo3 Ev3 K3]); try done; try lia.
  { by rewrite (rt_frame _ _ _ _ Rt). }
  { apply (retires_rep _ _ _ _ l Rt); [| done]. intros y Hy Hy'. by apply (Dlr y). }
  exists m2, j, t', m'. split; [exact E2 |]. split; [exact E3 |]. split; [exact T |]. simpl elems in S. split; [exact R3 |]. split_and!; try done; try (simpl; lia).
  - rewrite El3, Er1. cbn [elems]. rewrite del_mid by done. by rewrite (proj2 (Z.compare_gt_iff _ _) G).
  - cbn [elems]. rewrite assoc_mid by done. rewrite (proj2 (Z.compare_gt_iff _ _) G), A. exists x. split; [by rewrite I3 |].
    eapply retires_mono; [apply (retires_keeps _ _ _ _ _ _ Rt K3); by rewrite I3 |]. rewrite I3. intros y. cbn [indices]. rewrite !elem_of_app, !elem_of_cons. intuition.
Qed.

Lemma rep_size sl (t : tree) : rep sl t -> NoDup (indices t) -> (length (indices t) <= length sl)%nat.
Proof.
  intros R Nd. rewrite <- (length_seq (length sl) 0). apply submseteq_length, NoDup_submseteq; [done |]. intros x Hx. apply elem_of_seq.
  clear Nd. assert (x < length sl)%nat; [| lia]. induction t as [| i l IHl k v h r IHr]; [by apply elem_of_nil in Hx |].
  destruct R as (E & Rl & Rr). simpl in Hx. rewrite elem_of_app, elem_of_cons in Hx. destruct Hx as [? | [-> | ?]]; [auto | by eapply lookup_lt_Some | auto].
Qed.

(** Exchanging a node's payload with that of its successor. *)
Lemma swap_min_ok m q l kq vq h r rt :
  rep m.(slots) (Bin q l kq vq h r) -> NoDup (indices (Bin q l kq vq h r)) -> tree_link r = Some rt ->
  exists s m1 k1 v1 rest, leftmost (fuel m) m rt = Some s /\ swap_key_value m q s = Some m1 /\
    elems r = (k1, v1) :: rest /\ elems (set_min r kq vq) = (kq, vq) :: rest /\
    rep m1.(slots) (Bin q l k1 v1 h (set_min r kq vq)) /\ keeps (q :: indices r) m m1.
Proof.
  intros R Nd T. destruct (nodup_bin _ _ _ _ _ _ Nd) as (Nl & Nr & Nql & Nqr & Dlr). pose proof R as (E & Rl & Rr). assert (Nlf : r <> Leaf) by (by destruct r).
  exists (min_index r rt). assert (Ls : leftmost (fuel m) m rt = Some (min_index r rt)).
  { apply leftmost_rep; [done | done |]. pose proof (rep_size _ r Rr Nr). unfold fuel. lia. }
  pose proof (min_index_in r rt Nlf) as Im. assert (Nqs : q <> min_index r rt) by (intros ->; done). set (s := min_index r rt) in *.
  pose proof (lookup_lt_Some _ _ _ E) as Lq.
  assert (Es0 : exists n, m.(slots) !! s = Some (Occupied n)).
  { destruct (set_min_rep m.(slots) r rt kq vq Nlf Rr Nr) as (n & _ & _ & _ & En & _). by exists n. }
  destruct Es0 as [n Es]. set (w := set_slots m (<[q := Occupied (mk_node n.(key) n.(value) (tree_link l) (tree_link r) h)]> m.(slots))).
  assert (Rr0 : rep w.(slots) r) by (eapply rep_frame; [| exact Rr]; intros x Hx; simpl; apply list_lookup_insert_ne; by intros <-).
  destruct (set_min_rep w.(slots) r rt kq vq Nlf Rr0 Nr) as (n' & k1 & v1 & rest & En & <- & <- & Er & Er' & R1). fold s in En, R1.
  assert (n' = n) as ->. { simpl in En. rewrite list_lookup_insert_ne in En by done. rewrite Es in En. by injection En as ->. }
  exists (set_slots w (<[s := Occupied (mk_node kq vq n.(left) n.(right) n.(height))]> w.(slots))), n.(key), n.(value), rest.
  split; [exact Ls |]. split.
  { unfold swap_key_value. rewrite (proj2 (Nat.eqb_neq _ _) Nqs), (node_at _ _ _ E), (node_at _ _ _ Es). unfold node_mut at 1. rewrite (node_at _ _ _ E). simpl. fold w.
    unfold node_mut. by rewrite (node_at w s n En). }
  split; [done |]. split; [done |]. split.
  - cbn [rep]. rewrite (proj1 (set_min_shape r kq vq)). split; [| split; [| exact R1]]; simpl.
    + rewrite list_lookup_insert_ne by done. by apply list_lookup_insert_eq.
    + eapply rep_frame; [| exact Rl]. intros x Hx. rewrite !list_lookup_insert_ne; [done | by intros <- |]. intros <-. by apply (Dlr s).
  - split; [| simpl; by rewrite !length_insert]. intros x Hx. rewrite elem_of_cons in Hx. simpl. rewrite !list_lookup_insert_ne; [done | |]; intros <-; tauto.
Qed.

(** Both subtrees there: the successor's payload moves up, and the successor's
    slot is retired. *)
Lemma remove_both m m1 m2 q l kq vq h r r' k1 v1 rest :
  rep m.(slots) (Bin q l kq vq h r) -> NoDup (indices (Bin q l kq vq h r)) -> balanced (Bin q l kq vq h r) -> h <= 100 -> key_sorted (elems (Bin q l kq vq h r)) ->
  elems r = (k1, v1) :: rest -> elems (set_min r kq vq) = (kq, vq) :: rest ->
  rep m1.(slots) (Bin q l k1 v1 h (set_min r kq vq)) -> keeps (q :: indices r) m m1 -> removes kq m1 (set_min r kq vq) r' m2 ->
  exists m3 j t' m', node_mut m2 q (fun n => set_right n (tree_link r')) = Some m3 /\ rebalance m3 q = Some (j, m') /\
    tree_link t' = Some j /\ removes kq m (Bin q l kq vq h r) t' m'.
Proof.
  intros R Nd B Hh S Er Er' R1 K1 (Rr2 & Br2 & Hr2 & El2 & X). destruct (set_min_shape r kq vq) as (Tm & Hm & Im & Bm). rewrite Er' in X, El2.
  simpl in X, El2. rewrite Z.eqb_refl in X, El2. destruct X as (x & Px & Rt). rewrite Im in Px, Rt. rewrite Hm in Hr2. pose proof R1 as (E1 & Rl1 & _).
  destruct (nodup_bin _ _ _ _ _ _ Nd) as (Nl & Nr & Nql & Nqr & Dlr). pose proof B as (-> & D & Bl & Br). pose proof (balanced_ht l Bl). pose proof (balanced_ht r Br).
  assert (Pm : indices l ++ q :: indices r ≡ₚ x :: indices l ++ q :: indices r') by (rewrite Px; solve_Permutation).
  assert (Nd' : NoDup (x :: indices l ++ q :: indices r')) by (rewrite <- Pm; exact Nd). apply NoDup_cons in Nd' as [Nx Nd'].
  destruct (rehang_right m2 q (mk_node k1 v1 (tree_link l) (tree_link (set_min r kq vq)) (1 + Z.max (ht l) (ht r))) l r')
    as (m3 & j & t' & m' & E2 & E3 & T & [R3 B3 El3 I3 Lo3 Ev3 K3]); try done; try lia.
  { by rewrite (rt_frame _ _ _ _ Rt). }
  { apply (retires_rep _ _ _ _ l Rt); [| done]. intros y Hy Hy'. by apply (Dlr y). }
  exists m3, j, t', m'. split; [exact E2 |]. split; [exact E3 |]. split; [exact T |]. simpl elems in S. split; [exact R3 |]. split_and!; try done; try (simpl; lia).
  - rewrite El3, El2. cbn [elems]. rewrite del_mid, Z.compare_refl by done. by rewrite Er.
  - cbn [elems]. rewrite assoc_mid, Z.compare_refl by done. exists x. split; [by rewrite I3 |].
    eapply retires_mono; [apply (retires_keeps _ _ _ _ _ _ (keeps_retires _ _ _ _ _ _ K1 Rt) K3); by rewrite I3 |].
    assert (Ir : forall y, y ∈ indices r' -> y ∈ indices r) by (intros y Hy; rewrite Px; by constructor).
    rewrite I3. intros y. cbn [indices]. clear -Ir. set_solver.
Qed.

Lemma remove_index_rep f m (t : tree) k :
  rep m.(slots) t -> NoDup (indices t) -> balanced t -> ht t <= 100 -> key_sorted (elems t) -> (length (indices t) < f)%nat ->
  exists t' m', remove_index f m (tree_link t) k = Some (tree_link t', assoc k (elems t), m') /\ removes k m t t' m'.
Proof.
  revert m t. induction f as [| f IH]; intros m t R Nd B Hh S Hf; [lia |]. destruct t as [| q l kq vq h r].
  { exists Leaf, m. split; [done |]. unfold removes. simpl. split_and!; done || lia. }
  pose proof R as (E & Rl & Rr). destruct (nodup_bin _ _ _ _ _ _ Nd) as (Nl & Nr & Nql & Nqr & Dlr). pose proof B as (Eh & D & Bl & Br). simpl in Hh.
  pose proof (balanced_ht l Bl). pose proof (balanced_ht r Br).
  destruct (proj1 (sorted_mid (elems l) kq vq (elems r)) S) as (Sl & Sr & Bel & Abo).
  simpl in Hf. rewrite length_app in Hf. simpl in Hf. cbn [remove_index tree_link]. rewrite (node_at _ _ _ E). cbn [key left right].
  assert (As : assoc k (elems (Bin q l kq vq h r)) = match k ?= kq with Lt => assoc k (elems l) | Gt => assoc k (elems r) | Eq => Some vq end) by by apply assoc_mid.
  assert (An : assoc k (elems (Bin q l kq vq h r)) = None -> removes k m (Bin q l kq vq h r) (Bin q l kq vq h r) m).
  { intros A. unfold removes. rewrite A, del_absent by done. split_and!; done || lia. }
  rewrite As in *. destruct (Z.compare_spec k kq) as [-> | G | G].
  - destruct (tree_link l) as [il |] eqn:Tl; [destruct (tree_link r) as [ir |] eqn:Tr |].
    + destruct (swap_min_ok m q l kq vq h r ir R Nd Tr) as (s & m1 & k1 & v1 & rest & -> & -> & Er & Er' & R1 & K1).
      destruct (set_min_shape r kq vq) as (Tm & Hm & Im & Bm). pose proof R1 as (_ & _ & Rm).
      destruct (IH m1 (set_min r kq vq) Rm) as (r' & m2 & E2 & X); [by rewrite Im | auto | lia | | rewrite Im; lia |].
      { rewrite Er'. rewrite Er in Sr, Abo. inversion Sr; subst. constructor; [done |]. apply Forall_cons in Abo as [_ Abo]. exact Abo. }
      rewrite Tm, Tr in E2. rewrite E2. destruct (remove_both m m1 m2 q l kq vq h r r' k1 v1 rest R Nd B Hh S Er Er' R1 K1 X) as (m3 & j & t' & m' & -> & -> & <- & Y).
      rewrite Er'. simpl. rewrite Z.eqb_refl. eauto.
    + assert (r = Leaf) as -> by (by destruct r). destruct (remove_here m q l kq vq h Leaf l R Nd B S) as (m' & -> & Y); [by right |].
      exists l, m'. by rewrite Tl.
    + assert (l = Leaf) as -> by (by destruct l). destruct (remove_here m q Leaf kq vq h r r R Nd B S) as (m' & -> & Y); [by left |]. eauto.
  - destruct (IH m l Rl Nl Bl ltac:(lia) Sl ltac:(lia)) as (l' & m1 & -> & X). destruct (assoc k (elems l)) as [v |] eqn:A.
    + destruct (remove_left m m1 q l l' kq vq h r k v R Nd B Hh S G X A) as (m2 & j & t' & m' & -> & -> & <- & Y). eauto.
    + unfold removes in X. rewrite A in X. destruct X as (_ & _ & _ & _ & -> & ->). exists (Bin q l kq vq h r), m. auto.
  - destruct (IH m r Rr Nr Br ltac:(lia) Sr ltac:(lia)) as (r' & m1 & -> & X). destruct (assoc k (elems r)) as [v |] eqn:A.
    + destruct (remove_right m m1 q l kq vq h r r' k v R Nd B Hh S G X A) as (m2 & j & t' & m' & -> & -> & <- & Y). eauto.
    + unfold removes in X. rewrite A in X. destruct X as (_ & _ & _ & _ & -> & ->). exists (Bin q l kq vq h r), m. auto.
Qed.
End Sound.
