(* ===== verification/RegionSearch.v ===== *)
(** Search, neighbours, visitors and iterators of [RegionIndex], on the tree the
    arena holds. *)

From stdpp Require Import sets sorting.
From S2P Require Import Prelude Word SortedMap RegionIndex RegionTree RegionUpdate.
Import region_index.

Section Search.
Context {V : Type}.
Implicit Types m : RegionIndex V.
Abbreviation tree := (@tree V).

(** Two trees that differ in their values only. *)
Definition same_shape (t t' : tree) : Prop :=
  tree_link t' = tree_link t /\ ht t' = ht t /\ indices t' = indices t /\ (balanced t -> balanced t').

Lemma same_shape_refl t : same_shape t t.
Proof. by split_and!. Qed.

Lemma same_shape_bin i l l' k v v' h r r' : same_shape l l' -> same_shape r r' -> same_shape (Bin i l k v h r) (Bin i l' k v' h r').
Proof. intros (Ll & Hl & Il & Bl) (Lr & Hr & Ir & Br). unfold same_shape. simpl. rewrite Hl, Hr, Il, Ir. intuition. Qed.

Lemma elems_indices f (t : tree) : (length (indices t) < f)%nat -> (length (elems t) < f)%nat.
Proof. by rewrite length_elems. Qed.

(** A search finds the node of the key, whose value can then be replaced. *)
Lemma find_from_rep f m (t : tree) k :
  rep m.(slots) t -> NoDup (indices t) -> key_sorted (elems t) -> (length (indices t) < f)%nat ->
  match assoc k (elems t) with
  | None => find_from f m (tree_link t) k = Some None
  | Some v => exists i n, find_from f m (tree_link t) k = Some (Some i) /\ i ∈ indices t /\ m.(slots) !! i = Some (Occupied n) /\ n.(value) = v /\
      forall v', exists t', rep (<[i := Occupied (set_value n v')]> m.(slots)) t' /\ same_shape t t' /\ elems t' = assoc_put k v' (elems t)
  end.
Proof.
  revert f. induction t as [| q l IHl kq vq h r IHr]; intros [| f] R Nd S Hf; try (simpl in Hf; lia); [done |].
  pose proof R as (E & Rl & Rr). destruct (nodup_bin _ _ _ _ _ _ Nd) as (Nl & Nr & Nql & Nqr & Dlr). simpl in Hf. rewrite length_app in Hf. simpl in Hf.
  cbn [elems] in *. destruct (proj1 (sorted_mid _ _ _ _) S) as (Sl & Sr & Bel & Abo). rewrite assoc_mid by done. cbn [find_from tree_link]. rewrite (node_at _ _ _ E). cbn [key left right].
  assert (Fr : forall x i n', i ∉ indices x -> rep m.(slots) x -> rep (<[i := Occupied n']> m.(slots)) x).
  { intros x i n' Ni. apply rep_frame. intros y Hy. apply list_lookup_insert_ne. by intros <-. }
  destruct (Z.compare_spec k kq) as [-> | G | G].
  - exists q, (mk_node kq vq (tree_link l) (tree_link r) h). split_and!; try done; [simpl; set_solver |]. intros v'. exists (Bin q l kq v' h r).
    split; [| split; [apply same_shape_bin; apply same_shape_refl | cbn [elems]; by rewrite put_mid]].
    simpl. split; [by apply list_lookup_insert_eq, (lookup_lt_Some _ _ _ E) | auto].
  - specialize (IHl f Rl Nl Sl ltac:(lia)). destruct (assoc k (elems l)) as [v |]; [| exact IHl]. destruct IHl as (i & n & -> & Hi & En & Hv & U).
    exists i, n. split_and!; try done; [simpl; set_solver |]. intros v'. destruct (U v') as (l' & Rl' & Sh & El). exists (Bin q l' kq vq h r).
    assert (Nir : i ∉ indices r) by auto. assert (Nqi : q <> i) by (by intros ->). pose proof Sh as (Ll & _).
    split; [| split; [apply same_shape_bin; [done | apply same_shape_refl] | cbn [elems]; by rewrite El, put_left]].
    cbn [rep]. rewrite Ll, list_lookup_insert_ne by done. auto.
  - specialize (IHr f Rr Nr Sr ltac:(lia)). destruct (assoc k (elems r)) as [v |]; [| exact IHr]. destruct IHr as (i & n & -> & Hi & En & Hv & U).
    exists i, n. split_and!; try done; [simpl; set_solver |]. intros v'. destruct (U v') as (r' & Rr' & Sh & Er). exists (Bin q l kq vq h r').
    assert (Nil : i ∉ indices l) by (intros Hl; by apply (Dlr i)). assert (Nqi : q <> i) by (by intros ->). pose proof Sh as (Lr & _).
    split; [| split; [apply same_shape_bin; [apply same_shape_refl | done] | cbn [elems]; by rewrite Er, put_right]].
    cbn [rep]. rewrite Lr, list_lookup_insert_ne by done. auto.
Qed.

(** * Neighbours *)

Lemma below_from_rep f m (t : tree) test res :
  (forall x y, test y = true -> x < y -> test x = true) -> rep m.(slots) t -> key_sorted (elems t) -> (length (indices t) < f)%nat ->
  below_from f m test (tree_link t) res =
    Some (match last (List.filter (fun p => test (fst p)) (elems t)) with Some p => Some p | None => res end).
Proof.
  intros M. revert f res. induction t as [| q l IHl kq vq h r IHr]; intros [| f] res R S Hf; try (simpl in Hf; lia); [done |].
  pose proof R as (E & Rl & Rr). simpl in Hf. rewrite length_app in Hf. simpl in Hf. cbn [elems] in *. destruct (proj1 (sorted_mid _ _ _ _) S) as (Sl & Sr & Bel & Abo).
  cbn [below_from tree_link]. rewrite (node_at _ _ _ E). cbn [key value left right]. rewrite List.filter_app. cbn [List.filter fst].
  destruct (test kq) eqn:T.
  - rewrite IHr by (done || lia). rewrite last_app_cons. destruct (List.filter _ (elems r)) as [| p x] eqn:F; [done |]. rewrite last_cons_cons. destruct (last (p :: x)) eqn:Ls; [done |]. by apply last_None in Ls.
  - rewrite IHl by (done || lia). assert (List.filter (fun p => test (fst p)) (elems r) = []) as ->; [| by rewrite app_nil_r].
    clear -M T Abo. induction Abo as [| [k v] x Hk _ IH]; [done |]. simpl in *. destruct (test k) eqn:Tk; [| done]. by rewrite (M kq k Tk Hk) in T.
Qed.

Lemma above_from_rep f m (t : tree) test res :
  (forall x y, test x = true -> x < y -> test y = true) -> rep m.(slots) t -> key_sorted (elems t) -> (length (indices t) < f)%nat ->
  above_from f m test (tree_link t) res =
    Some (match List.filter (fun p => test (fst p)) (elems t) with p :: _ => Some p | [] => res end).
Proof.
  intros M. revert f res. induction t as [| q l IHl kq vq h r IHr]; intros [| f] res R S Hf; try (simpl in Hf; lia); [done |].
  pose proof R as (E & Rl & Rr). simpl in Hf. rewrite length_app in Hf. simpl in Hf. cbn [elems] in *. destruct (proj1 (sorted_mid _ _ _ _) S) as (Sl & Sr & Bel & Abo).
  cbn [above_from tree_link]. rewrite (node_at _ _ _ E). cbn [key value left right]. rewrite List.filter_app. cbn [List.filter fst].
  destruct (test kq) eqn:T.
  - rewrite IHl by (done || lia). by destruct (List.filter _ (elems l)).
  - rewrite IHr by (done || lia). assert (List.filter (fun p => test (fst p)) (elems l) = []) as ->; [| done].
    clear -M T Bel. induction Bel as [| [k v] x Hk _ IH]; [done |]. simpl in *. destruct (test k) eqn:Tk; [| done]. by rewrite (M k kq Tk Hk) in T.
Qed.

(** * Iterators *)

(** The stack an in-order walk of [t] needs. *)
Fixpoint need (t : tree) : nat := match t with Leaf => 0 | Bin _ l _ _ _ r => Nat.max (S (need l)) (need r) end.

Lemma balanced_need t : balanced t -> Z.of_nat (need t) <= ht t.
Proof. induction t as [| i l IHl k v h r IHr]; cbn [need balanced ht]; [lia |]. intros (-> & _ & Bl & Br). specialize (IHl Bl). specialize (IHr Br). lia. Qed.

(** What an iterator with this stack has still to yield. *)
Inductive pending m : list nat -> list (Z * V) -> Prop :=
  | pending_nil : pending m [] []
  | pending_cons i k v l h r stack out :
      m.(slots) !! i = Some (Occupied (mk_node k v l (tree_link r) h)) -> rep m.(slots) r -> (length (indices r) < fuel m)%nat ->
      (length stack + need r <= MAX_AVL_HEIGHT)%nat -> pending m stack out ->
      pending m (i :: stack) ((k, v) :: elems r ++ out).

Lemma push_left_rep f m t stack out :
  rep m.(slots) t -> (length (indices t) < f)%nat -> (f <= fuel m)%nat -> (length stack + need t <= MAX_AVL_HEIGHT)%nat -> pending m stack out ->
  exists stack', push_left f m stack (tree_link t) = Some stack' /\ pending m stack' (elems t ++ out).
Proof.
  revert f stack out. induction t as [| q l IHl k v h r _]; intros [| f] stack out R Hf Hm Hn P; try (simpl in Hf; lia); [by exists stack |].
  pose proof R as (E & Rl & Rr). simpl in Hf. rewrite length_app in Hf. simpl in Hf. cbn [need] in Hn.
  cbn [push_left tree_link]. rewrite (proj2 (Nat.ltb_lt _ _)) by lia. rewrite (node_at _ _ _ E). cbn [left elems]. rewrite <- app_assoc.
  apply IHl; [done | lia | lia | simpl; lia |]. simpl. econstructor; [exact E | done | lia | lia | done].
Qed.

Lemma iter_next_rep m i stack out : pending m (i :: stack) out ->
  exists p out' stack', out = p :: out' /\ iter_next m (i :: stack) = Some (Some p, stack') /\ pending m stack' out'.
Proof.
  intros P. inversion P as [| ? k v l h r ? out1 E R F N P1]; subst. unfold iter_next. rewrite (node_at _ _ _ E). cbn [key value right].
  destruct (push_left_rep (fuel m) m r stack out1 R F (le_n _) N P1) as (stack' & -> & P'). exists (k, v), (elems r ++ out1), stack'. done.
Qed.

Lemma collect_rep f m stack out : pending m stack out -> (length out < f)%nat -> collect f (iter_next m) stack = Some out.
Proof.
  revert stack out. induction f as [| f IH]; intros stack out P L; [lia |]. destruct stack as [| i stack]; [by inversion P |].
  destruct (iter_next_rep m i stack out P) as (p & out' & stack' & -> & E & P'). cbn [collect]. rewrite E. by rewrite (IH _ _ P') by (simpl in L; lia).
Qed.

(** A walk of the whole tree. *)
Lemma iter_rep m t : rep m.(slots) t -> m.(root) = tree_link t -> (length (indices t) < fuel m)%nat -> (need t <= MAX_AVL_HEIGHT)%nat -> iter m = Some (elems t).
Proof.
  intros R E F N. unfold iter, iter_new. rewrite E. destruct (push_left_rep (fuel m) m t [] [] R F (le_n _) N (pending_nil m)) as (stack & -> & P).
  rewrite app_nil_r in P. apply collect_rep; [done |]. by apply elems_indices.
Qed.

Definition from_key (lo : Z) (p : Z * V) : bool := lo <=? fst p.
Definition in_range (lo hi : Z) (p : Z * V) : bool := (lo <=? fst p) && (fst p <? hi).

Lemma filter_all {A} (g : A -> bool) l : Forall (fun x => g x = true) l -> List.filter g l = l.
Proof. induction 1 as [| x l H _ IH]; [done |]. simpl. by rewrite H, IH. Qed.

Lemma filter_none {A} (g : A -> bool) l : Forall (fun x => g x = false) l -> List.filter g l = [].
Proof. induction 1 as [| x l H _ IH]; [done |]. simpl. by rewrite H. Qed.

Lemma range_start_rep f m t lo stack out :
  rep m.(slots) t -> key_sorted (elems t) -> (length (indices t) < f)%nat -> (f <= fuel m)%nat -> (length stack + need t <= MAX_AVL_HEIGHT)%nat -> pending m stack out ->
  exists stack', range_start f m lo stack (tree_link t) = Some stack' /\ pending m stack' (List.filter (from_key lo) (elems t) ++ out).
Proof.
  revert f stack out. induction t as [| q l IHl k v h r IHr]; intros [| f] stack out R S Hf Hm Hn P; try (simpl in Hf; lia); [by exists stack |].
  pose proof R as (E & Rl & Rr). simpl in Hf. rewrite length_app in Hf. simpl in Hf. cbn [need elems] in *. destruct (proj1 (sorted_mid _ _ _ _) S) as (Sl & Sr & Bel & Abo).
  cbn [range_start tree_link]. rewrite (node_at _ _ _ E). cbn [left right key]. rewrite List.filter_app. cbn [List.filter]. unfold from_key at 2. cbn [fst].
  destruct (Z.leb_spec lo k) as [G | G].
  - rewrite (proj2 (Nat.ltb_lt _ _)) by lia. rewrite <- app_assoc. apply IHl; [done | done | lia | lia | simpl; lia |].
    rewrite (filter_all _ (elems r)) by (eapply Forall_impl; [exact Abo |]; unfold from_key; simpl; intros; apply Z.leb_le; lia).
    simpl. econstructor; [exact E | done | lia | lia | done].
  - rewrite (filter_none _ (elems l)) by (eapply Forall_impl; [exact Bel |]; unfold from_key; simpl; intros; apply Z.leb_gt; lia).
    simpl. apply IHr; done || lia.
Qed.

Lemma range_collect f m lo hi stack out : pending m stack out -> key_sorted out -> Forall (fun p => from_key lo p = true) out -> (length out < f)%nat ->
  collect f (range_next m hi) stack = Some (List.filter (in_range lo hi) out).
Proof.
  revert stack out. induction f as [| f IH]; intros stack out P S Fl L; [lia |]. destruct stack as [| i stack]; [by inversion P |].
  inversion P as [| ? k v l h r ? out1 E R F N P1]; subst. cbn [collect range_next]. rewrite (node_at _ _ _ E). cbn [key value right].
  inversion S as [| ? ? S' Lt]; subst. apply Forall_cons in Fl as [Fk Fl]. unfold from_key in Fk. cbn [fst] in Fk. cbn [List.filter]. unfold in_range at 1. cbn [fst]. rewrite Fk. simpl andb.
  destruct (Z.leb_spec hi k) as [G | G].
  - rewrite (proj2 (Z.ltb_ge k hi)) by lia. rewrite filter_none; [done |]. eapply Forall_impl; [exact Lt |]. unfold key_lt, in_range. simpl. intros p Hp.
    apply andb_false_iff. right. apply Z.ltb_ge. lia.
  - rewrite (proj2 (Z.ltb_lt k hi)) by lia. destruct (push_left_rep (fuel m) m r stack out1 R F (le_n _) N P1) as (stack' & -> & P').
    rewrite (IH _ _ P' S' Fl) by (simpl in L; lia). done.
Qed.

Lemma filter_range lo hi l : List.filter (in_range lo hi) (List.filter (from_key lo) l) = List.filter (in_range lo hi) l.
Proof.
  induction l as [| [k v] l IH]; [done |]. simpl. unfold from_key at 1, in_range at 2. cbn [fst]. destruct (lo <=? k) eqn:T; simpl; [| done].
  unfold in_range at 1. cbn [fst]. by rewrite T, IH.
Qed.

Lemma range_rep m t lo hi : rep m.(slots) t -> key_sorted (elems t) -> m.(root) = tree_link t -> (length (indices t) < fuel m)%nat -> (need t <= MAX_AVL_HEIGHT)%nat ->
  range m lo hi = Some (List.filter (in_range lo hi) (elems t)).
Proof.
  intros R S E F N. unfold range, range_new. rewrite E. destruct (range_start_rep (fuel m) m t lo [] [] R S F (le_n _) N (pending_nil m)) as (stack & -> & P).
  rewrite app_nil_r in P. rewrite (range_collect _ m lo hi _ _ P).
  - by rewrite filter_range.
  - by apply filter_sorted.
  - apply Forall_forall. intros p Hp. apply list_elem_of_In in Hp. exact (proj2 (proj1 (filter_In _ _ _) Hp)).
  - eapply Nat.le_lt_trans; [apply List.filter_length_le |]. by apply elems_indices.
Qed.

(** * Visitors *)

Section Visit.
Context {S : Type} (visit : V -> S -> V * S).

(** The visitor applied, in key order, to the entries [g] selects. *)
Fixpoint visit_entries (g : Z * V -> bool) (l : list (Z * V)) (s : S) : list (Z * V) * S :=
  match l with
  | [] => ([], s)
  | (k, v) :: l =>
      if g (k, v) then
        let '(v, s) := visit v s in
        let '(l, s) := visit_entries g l s in
        ((k, v) :: l, s)
      else let '(l, s) := visit_entries g l s in ((k, v) :: l, s)
  end.

Lemma visit_app g l r s : visit_entries g (l ++ r) s =
  let '(l', s1) := visit_entries g l s in let '(r', s2) := visit_entries g r s1 in (l' ++ r', s2).
Proof using Type.
  revert s. induction l as [| [k v] l IH]; intros s; simpl; [by destruct (visit_entries g r s) |].
  destruct (g (k, v)); [destruct (visit v s) as [v' s'] |]; rewrite IH; destruct (visit_entries g l _) as [l' s1]; by destruct (visit_entries g r s1).
Qed.

Lemma visit_skip g l s : Forall (fun p => g p = false) l -> visit_entries g l s = (l, s).
Proof using Type. intros F. revert s. induction F as [| [k v] l H _ IH]; intros s; simpl; [done |]. by rewrite H, IH. Qed.

Lemma visit_keys g l s : fst <$> fst (visit_entries g l s) = fst <$> l.
Proof using Type.
  revert s. induction l as [| [k v] l IH]; intros s; simpl; [done |]. destruct (g (k, v)); [destruct (visit v s) as [v' s'] |].
  - specialize (IH s'). destruct (visit_entries g l s'). simpl in *. by f_equal.
  - specialize (IH s). destruct (visit_entries g l s). simpl in *. by f_equal.
Qed.

(** What a visit of the subtree [t] leaves. *)
Definition visited g m t s (r : option (S * RegionIndex V)) : Prop :=
  exists t' s' m', r = Some (s', m') /\ rep m'.(slots) t' /\ same_shape t t' /\ visit_entries g (elems t) s = (elems t', s') /\ keeps (indices t) m m'.

Lemma visit_node_rep m q l k v h r s :
  rep m.(slots) (Bin q l k v h r) -> NoDup (indices (Bin q l k v h r)) ->
  exists m', visit_node visit m q s = Some (snd (visit v s), m') /\ rep m'.(slots) (Bin q l k (fst (visit v s)) h r) /\ keeps [q] m m'.
Proof using Type.
  intros R Nd. pose proof R as (E & Rl & Rr). destruct (nodup_bin _ _ _ _ _ _ Nd) as (_ & _ & Nl & Nr & _). unfold visit_node. rewrite (node_at _ _ _ E).
  simpl. destruct (visit v s) as [v' s']. destruct (node_mut_rep m q _ (fun n => set_value n v') l k v' h r E eq_refl Rl Rr Nl Nr) as (m' & -> & R' & K). eauto.
Qed.

(** The visits of a node's left subtree, of the node if [b], and of the right
    subtree, put together. *)
Lemma visited_bin g m m1 m2 q l l' k v v1 h r s s1 s2 res :
  rep m.(slots) (Bin q l k v h r) -> NoDup (indices (Bin q l k v h r)) ->
  rep m1.(slots) l' -> same_shape l l' -> visit_entries g (elems l) s = (elems l', s1) -> keeps (indices l) m m1 ->
  rep m2.(slots) (Bin q l' k v1 h r) -> keeps [q] m1 m2 -> (v1, s2) = (if g (k, v) then visit v s1 else (v, s1)) ->
  visited g m2 r s2 res -> visited g m (Bin q l k v h r) s res.
Proof using Type.
  intros R Nd Rl1 Shl Vl K1 R2 K2 Vq (r' & s3 & m3 & -> & Rr3 & Shr & Vr & K3). destruct (nodup_bin _ _ _ _ _ _ Nd) as (_ & _ & Nl & Nr & Dlr).
  pose proof Shl as (Ll & _ & Il & _). pose proof Shr as (Lr & _). exists (Bin q l' k v1 h r'), s3, m3. split; [done |]. split; [| split; [by apply same_shape_bin | split]].
  - cbn [rep]. rewrite Lr. destruct R2 as (E2 & Rl2 & _). split; [by rewrite (proj1 K3) |]. split; [| done].
    apply (keeps_rep _ _ _ l' K3); [| done]. intros x Hx Hx'. rewrite Il in Hx. by apply (Dlr x).
  - cbn [elems]. rewrite visit_app, Vl. simpl. destruct (g (k, v)); [destruct (visit v s1) as [a b] |]; injection Vq as -> ->; by rewrite Vr.
  - eapply keeps_mono; [exact (keeps_trans _ _ _ _ _ (keeps_trans _ _ _ _ _ K1 K2) K3) |]. clear. simpl. set_solver.
Qed.

(** The node and the right subtree after the left one was visited. *)
Lemma rep_after_left m m1 q l l' k v h r :
  rep m.(slots) (Bin q l k v h r) -> NoDup (indices (Bin q l k v h r)) -> rep m1.(slots) l' -> same_shape l l' -> keeps (indices l) m m1 ->
  rep m1.(slots) (Bin q l' k v h r) /\ NoDup (indices (Bin q l' k v h r)).
Proof using Type.
  intros (E & Rl & Rr) Nd Rl1 (Ll & _ & Il & _) K1. destruct (nodup_bin _ _ _ _ _ _ Nd) as (_ & _ & Nl & Nr & Dlr). cbn [rep indices]. rewrite Ll, Il. split; [| exact Nd].
  split; [by rewrite (proj1 K1) |]. split; [done |]. apply (keeps_rep _ _ _ r K1); [| done]. intros x Hx Hx'. by apply (Dlr x).
Qed.

Lemma visit_range_rep f m t lo hi s :
  rep m.(slots) t -> NoDup (indices t) -> key_sorted (elems t) -> (length (indices t) < f)%nat ->
  visited (in_range lo hi) m t s (visit_range_mut visit f m (tree_link t) lo hi s).
Proof using Type.
  revert f m s. induction t as [| q l IHl k v h r IHr]; intros [| f] m s R Nd Sr Hf; try (simpl in Hf; lia).
  { exists Leaf, s, m. split_and!; done. }
  pose proof R as (E & Rl & Rr). destruct (nodup_bin _ _ _ _ _ _ Nd) as (Nl & Nr & Nql & Nqr & Dlr). simpl in Hf. rewrite length_app in Hf. simpl in Hf.
  cbn [elems] in Sr. destruct (proj1 (sorted_mid _ _ _ _) Sr) as (Sl & Srr & Bel & Abo). cbn [visit_range_mut tree_link]. rewrite (node_at _ _ _ E). cbn [key left right].
  assert (VL : visited (in_range lo hi) m l s (if lo <? k then visit_range_mut visit f m (tree_link l) lo hi s else Some (s, m))).
  { destruct (Z.ltb_spec lo k); [by apply IHl; try lia |]. exists l, s, m. split_and!; try done. rewrite visit_skip; [done |].
    eapply Forall_impl; [exact Bel |]. unfold in_range. simpl. intros p Hp. apply andb_false_iff. left. apply Z.leb_gt. lia. }
  destruct VL as (l' & s1 & m1 & -> & Rl1 & Shl & Vl & K1). destruct (rep_after_left m m1 q l l' k v h r R Nd Rl1 Shl K1) as [R1 Nd1].
  change ((lo <=? k) && (k <? hi)) with (in_range lo hi (k, v)).
  assert (VN : exists v1 s2 m2, (if in_range lo hi (k, v) then visit_node visit m1 q s1 else Some (s1, m1)) = Some (s2, m2) /\
    rep m2.(slots) (Bin q l' k v1 h r) /\ keeps [q] m1 m2 /\ (v1, s2) = (if in_range lo hi (k, v) then visit v s1 else (v, s1))).
  { destruct (in_range lo hi (k, v)); [| by exists v, s1, m1]. destruct (visit_node_rep m1 q l' k v h r s1 R1 Nd1) as (m2 & -> & R2 & K2).
    eexists _, _, m2. split; [reflexivity |]. split; [exact R2 |]. split; [done |]. by destruct (visit v s1). }
  destruct VN as (v1 & s2 & m2 & -> & R2 & K2 & Vq). apply (visited_bin _ m m1 m2 q l l' k v v1 h r s s1 s2); try done.
  pose proof R2 as (_ & _ & Rr2). destruct (Z.ltb_spec k hi); [by apply IHr; try lia |]. exists r, s2, m2. split_and!; try done. rewrite visit_skip; [done |].
  eapply Forall_impl; [exact Abo |]. unfold in_range. simpl. intros p Hp. apply andb_false_iff. right. apply Z.ltb_ge. lia.
Qed.

Lemma visit_mut_rep f m t s :
  rep m.(slots) t -> NoDup (indices t) -> (length (indices t) < f)%nat -> visited (fun _ => true) m t s (visit_mut visit f m (tree_link t) s).
Proof using Type.
  revert f m s. induction t as [| q l IHl k v h r IHr]; intros [| f] m s R Nd Hf; try (simpl in Hf; lia).
  { exists Leaf, s, m. split_and!; done. }
  pose proof R as (E & Rl & Rr). destruct (nodup_bin _ _ _ _ _ _ Nd) as (Nl & Nr & Nql & Nqr & Dlr). simpl in Hf. rewrite length_app in Hf. simpl in Hf.
  cbn [visit_mut tree_link]. rewrite (node_at _ _ _ E). cbn [left right].
  destruct (IHl f m s Rl Nl ltac:(lia)) as (l' & s1 & m1 & -> & Rl1 & Shl & Vl & K1). destruct (rep_after_left m m1 q l l' k v h r R Nd Rl1 Shl K1) as [R1 Nd1].
  destruct (visit_node_rep m1 q l' k v h r s1 R1 Nd1) as (m2 & -> & R2 & K2). rewrite (rep_node _ _ _ _ _ _ _ R2). cbn [right].
  eapply (visited_bin _ m m1 m2 q l l' k v _ h r s s1 (snd (visit v s1))); try done; [by destruct (visit v s1) |]. pose proof R2 as (_ & _ & Rr2). apply IHr; done || lia.
Qed.
End Visit.
End Search.
