(* ===== verification/RegionMap.v ===== *)
(** The region index as an ordered map: the invariant of the arena, and every
    operation of [RegionIndex] against the association list it represents.

    Building an index from entries that arrive in key order: the pushes leave a
    list in the arena, and the last step makes a balanced tree of it. *)

From stdpp Require Import sets sorting.
From S2P Require Import Prelude Word FreeList SortedMap RegionIndex RegionTree RegionUpdate RegionSearch.

Import region_index.

Section Map.
Context {V : Type}.
Implicit Types m : RegionIndex V.
Abbreviation tree := (@tree V).

Definition vacancy (s : Slot V) : option Link := match s with Occupied _ => None | Vacant next => Some next end.

(** The arena holds the tree [t] and a free list, and nothing else. *)
Record index_ok m (t : tree) : Prop := {
  ix_rep : rep m.(slots) t;
  ix_root : m.(root) = tree_link t;
  ix_nodup : NoDup (indices t);
  ix_sorted : key_sorted (elems t);
  ix_len : m.(len) = length (indices t);
  ix_free : exists fl, free_list vacancy m.(slots) m.(free_head) fl /\ m.(free_len) = length fl;
  ix_used : forall i n, m.(slots) !! i = Some (Occupied n) -> i ∈ indices t;
  ix_room : (length m.(slots) <= m.(capacity))%nat;
  ix_width : Z.of_nat m.(capacity) < 2 ^ 63
}.

Lemma index_fuel m t : index_ok m t -> (length (indices t) < fuel m)%nat.
Proof. intros I. pose proof (rep_size _ t (ix_rep _ _ I) (ix_nodup _ _ I)). unfold fuel. lia. Qed.

Lemma index_height m t : index_ok m t -> balanced t -> ht t <= 90.
Proof.
  intros I B. apply balanced_height; [done |]. pose proof (rep_size _ t (ix_rep _ _ I) (ix_nodup _ _ I)). pose proof (ix_room _ _ I). pose proof (ix_width _ _ I). lia.
Qed.

(** Every slot is a node of the tree or on the free list. *)
Lemma index_partition m t fl : index_ok m t -> free_list vacancy m.(slots) m.(free_head) fl -> indices t ++ fl ≡ₚ seq 0 (length m.(slots)).
Proof.
  intros I (_ & Nd & F). apply NoDup_Permutation; [| apply NoDup_seq |].
  - apply NoDup_app. split_and!; [apply (ix_nodup _ _ I) | | done]. intros x Hx Hf. apply F in Hf as (a & nx & E & Va).
    pose proof (rep_occupied _ _ _ (ix_rep _ _ I) Hx) as [n En]. rewrite En in E. injection E as <-. done.
  - intros x. rewrite elem_of_app, elem_of_seq. split.
    + intros [Hx | Hx]; [pose proof (rep_occupied _ _ _ (ix_rep _ _ I) Hx) as [n En] | apply F in Hx as (a & nx & En & _)]; apply lookup_lt_Some in En; lia.
    + intros [_ L]. destruct (lookup_lt_is_Some_2 m.(slots) x L) as [[n | nx] E]; [left; by eapply ix_used | right; apply F; by exists (Vacant nx), nx].
Qed.

Definition occupied m (i : nat) : Prop := exists n, m.(slots) !! i = Some (Occupied n).

(** Rewriting nodes in place leaves the free list. *)
Lemma free_list_keeps xs m m' fl : free_list vacancy m.(slots) m.(free_head) fl -> keeps xs m m' ->
  (forall i, i ∈ xs -> occupied m i /\ occupied m' i) -> free_list vacancy m'.(slots) m'.(free_head) fl.
Proof.
  intros F K O. pose proof K as (Fr & _ & _ & _ & -> & _). eapply free_list_ext; [| exact F]. intros i. destruct (decide (i ∈ xs)) as [H | H]; [| by rewrite Fr].
  destruct (O i H) as [[n ->] [n' ->]]. done.
Qed.

(** The index after its tree was rewritten in place. *)
Lemma index_rewrite m m' (t t' : tree) :
  index_ok m t -> keeps (indices t') m m' -> rep m'.(slots) t' -> indices t' = indices t -> tree_link t' = tree_link t -> key_sorted (elems t') -> index_ok m' t'.
Proof.
  intros [R Ro Nd S Le (fl & F & Fl) U Rm W] K R' I L S'. pose proof K as (Fr & E1 & E2 & E3 & E4 & E5 & E6). split; try done.
  - congruence.
  - by rewrite I.
  - by rewrite I, <- Le.
  - exists fl. split; [| congruence]. apply (free_list_keeps _ _ _ _ F K). intros i Hi. split; [apply (rep_occupied _ _ _ R); by rewrite <- I | by apply (rep_occupied _ _ _ R')].
  - intros i n E. destruct (decide (i ∈ indices t')) as [H | H]; [done |]. rewrite I. eapply U. by rewrite <- (Fr i H).
  - by rewrite E1, E2.
  - by rewrite E2.
Qed.

(** How many new keys the index takes without allocating. *)
Definition spare m : nat := m.(free_len) + (m.(capacity) - length m.(slots)).

Lemma spare_test m t : index_ok m t -> is_some m.(free_head) || (length m.(slots) <? m.(capacity))%nat = (0 <? spare m)%nat.
Proof.
  intros [_ _ _ _ _ (fl & F & Fl) _ _ _]. unfold spare. rewrite Fl. destruct (free_head m) as [i |] eqn:H; simpl.
  - destruct F as (C & _). destruct fl as [| j fl]; [done |]. simpl. done.
  - rewrite (free_list_none _ _ _ F). simpl. destruct (Nat.ltb_spec (length (slots m)) (capacity m)), (Nat.ltb_spec 0 (capacity m - length (slots m))); done || lia.
Qed.

(** A slot for a new node. *)
Lemma allocate_slot_ok m t n : index_ok m t -> (0 < spare m)%nat ->
  exists i m1 fl, allocate_slot m n = Some (i, m1) /\ (i ∉ indices t) /\ m1.(slots) !! i = Some (Occupied n) /\ rep m1.(slots) t /\
    free_list vacancy m1.(slots) m1.(free_head) fl /\ m1.(free_len) = length fl /\
    (forall j n', m1.(slots) !! j = Some (Occupied n') -> j = i \/ j ∈ indices t) /\
    m1.(capacity) = m.(capacity) /\ m1.(root) = m.(root) /\ m1.(len) = m.(len) /\ (length m1.(slots) <= m1.(capacity))%nat /\ spare m = S (spare m1).
Proof.
  intros I Sp. pose proof I as [R Ro Nd S Le (fl & F & Fl) U Rm W]. unfold allocate_slot. destruct (free_head m) as [i |] eqn:H.
  - destruct (free_list_pop vacancy _ _ _ i (Occupied n) F eq_refl eq_refl) as (b & next & fl' & -> & E & Vb & F'). rewrite E. destruct b as [? | next']; [done |].
    injection Vb as ->. pose proof (lookup_lt_Some _ _ _ E) as Li. assert (Ni : i ∉ indices t) by (intros Hi; destruct (rep_occupied _ _ _ R Hi); congruence).
    eexists i, _, fl'. split; [reflexivity |]. cbn [slots free_head free_len capacity root len]. rewrite length_insert. split_and!; try done.
    + by apply list_lookup_insert_eq.
    + eapply rep_frame; [| exact R]. intros j Hj. apply list_lookup_insert_ne. by intros <-.
    + by rewrite Fl.
    + intros j n' Ej. destruct (decide (j = i)) as [-> | N]; [by left |]. right. rewrite list_lookup_insert_ne in Ej by done. by eapply U.
    + unfold spare. cbn [slots free_len capacity]. rewrite length_insert, Fl. simpl. lia.
  - unfold spare in Sp. rewrite Fl, (free_list_none _ _ _ F) in Sp. simpl in Sp.
    assert (Ni : length m.(slots) ∉ indices t) by (intros Hi; destruct (rep_occupied _ _ _ R Hi) as [? E%lookup_lt_Some]; lia).
    eexists (length m.(slots)), _, fl. split; [reflexivity |]. cbn [slots free_head free_len capacity root len]. rewrite length_app. simpl. split_and!; try done; try lia.
    + rewrite lookup_app_r, Nat.sub_diag by lia. done.
    + eapply rep_frame; [| exact R]. intros j Hj. apply lookup_app_l. destruct (rep_occupied _ _ _ R Hj) as [? E%lookup_lt_Some]. lia.
    + by apply free_list_append.
    + intros j n' Ej. apply lookup_app_Some in Ej as [Ej | [Hj Ej]]; [right; by eapply U |]. left. apply list_lookup_singleton_Some in Ej as [? _]. lia.
    + unfold spare. cbn [slots free_len capacity]. rewrite length_app. simpl. lia.
Qed.

(** * The map *)

(** The index is a balanced search tree of the entries [l]. *)
Definition represents m (l : list (Z * V)) : Prop := exists t, index_ok m t /\ balanced t /\ elems t = l.

Lemma represents_new : represents new [].
Proof.
  exists Leaf. split; [| done]. split; try done.
  - constructor.
  - constructor.
  - exists []. split; [apply free_list_nil | done].
Qed.

Lemma represents_sorted m l : represents m l -> key_sorted l /\ m.(len) = length l.
Proof. intros (t & I & _ & <-). split; [apply (ix_sorted _ _ I) | rewrite length_elems; apply (ix_len _ _ I)]. Qed.

(** The slots are the entries and the free list. *)
Lemma represents_slots m l : represents m l -> (length l + m.(free_len) = length m.(slots))%nat /\ (length m.(slots) <= m.(capacity))%nat.
Proof.
  intros (t & I & _ & <-). destruct (ix_free _ _ I) as (fl & F & ->). split; [| apply (ix_room _ _ I)].
  pose proof (Permutation_length (index_partition _ _ _ I F)) as P. rewrite length_app, length_seq in P. by rewrite length_elems.
Qed.

Lemma reserve_ok m l additional offer : represents m l ->
  match try_reserve_nodes m additional offer with
  | (Ok _, m') => represents m' l /\ (additional <= spare m')%nat /\ (spare m <= spare m')%nat
  | (Err _, m') => m' = m /\ (spare m < additional)%nat
  end.
Proof.
  intros (t & I & B & E). unfold try_reserve_nodes, spare. destruct (Nat.leb_spec (additional - m.(free_len)) (m.(capacity) - length m.(slots))) as [G | G].
  - split; [by exists t | lia].
  - destruct offer as [c |]; [| split; [done | lia]]. destruct (Z.leb_spec (2 ^ 63) (Z.of_nat (Nat.max c (length (slots m) + (additional - free_len m))))) as [W | W]; [split; [done | lia] |].
    cbn [slots free_len capacity]. split; [| lia]. exists t. split; [| done]. destruct I as [R Ro Nd S Le F U Rm Wd]. split; cbn [slots free_len capacity root len free_head]; try done. lia.
Qed.

Lemma find_ok m t k : index_ok m t ->
  match assoc k (elems t) with
  | None => find_index m k = Some None
  | Some v => exists i n, find_index m k = Some (Some i) /\ i ∈ indices t /\ m.(slots) !! i = Some (Occupied n) /\ n.(value) = v /\
      forall v', exists t', rep (<[i := Occupied (set_value n v')]> m.(slots)) t' /\ same_shape t t' /\ elems t' = assoc_put k v' (elems t)
  end.
Proof. intros I. unfold find_index. rewrite (ix_root _ _ I). apply find_from_rep; [apply I | apply I | apply I | by apply index_fuel]. Qed.

Lemma index_get m t k : index_ok m t -> get m k = Some (assoc k (elems t)).
Proof.
  intros I. pose proof (find_ok m t k I) as F. unfold get. destruct (assoc k (elems t)); [| by rewrite F].
  destruct F as (i & n & -> & _ & E & <- & _). by rewrite (node_at _ _ _ E).
Qed.

Lemma get_ok m l k : represents m l -> get m k = Some (assoc k l).
Proof. intros (t & I & _ & <-). by apply index_get. Qed.

Lemma get_mut_ok m t k f : index_ok m t -> balanced t ->
  match assoc k (elems t) with
  | None => get_mut m k f = Some (None, m)
  | Some v => exists t' m', get_mut m k f = Some (Some v, m') /\ index_ok m' t' /\ balanced t' /\ elems t' = assoc_put k (f v) (elems t) /\
      m'.(capacity) = m.(capacity) /\ spare m' = spare m
  end.
Proof.
  intros I B. pose proof (find_ok m t k I) as F. unfold get_mut. destruct (assoc k (elems t)) as [v |]; [| by rewrite F].
  destruct F as (i & n & -> & Hi & E & Hv & U). destruct (U (f v)) as (t' & R & (L & H & X & Bt) & El). unfold node_mut. cbn iota beta. rewrite !(node_at _ _ _ E), Hv.
  eexists t', _. split; [reflexivity |]. split; [| split; [by apply Bt | split; [done | split; [done |]]]].
  - apply (index_rewrite m _ t); try done; [| by rewrite El; apply put_sorted, I]. unfold keeps. cbn [set_slots slots capacity root free_head free_len len]. rewrite length_insert. split_and!; try done.
    intros j Hj. apply list_lookup_insert_ne. intros ->. by rewrite X in Hj.
  - unfold spare. cbn [set_slots slots capacity free_len]. by rewrite length_insert.
Qed.

(** A new key is linked in. *)
Lemma insert_new m t k v : index_ok m t -> balanced t -> assoc k (elems t) = None -> (0 < spare m)%nat ->
  exists i m1 r m2, allocate_slot m (node_new k v) = Some (i, m1) /\ insert_index (fuel m1) m1 m1.(root) i = Some (r, m2) /\
    represents (set_len (set_root m2 (Some r)) (S m2.(len))) (assoc_put k v (elems t)) /\ m2.(capacity) = m.(capacity) /\ spare m = S (spare m2).
Proof.
  intros I B A Sp. destruct (allocate_slot_ok m t (node_new k v) I Sp) as (i & m1 & fl & E & Ni & Ei & R1 & F1 & Fl1 & U1 & C1 & Ro1 & L1 & Rm1 & Sp1).
  pose proof (index_height _ _ I B). assert (Nd : NoDup (i :: indices t)) by (constructor; [done | apply I]).
  assert (Sz : (length (indices t) < fuel m1)%nat) by (unfold fuel; pose proof (rep_size _ _ R1 (ix_nodup _ _ I)); lia).
  destruct (insert_index_rep (fuel m1) m1 t i k v R1 Nd Ei B ltac:(lia) (ix_sorted _ _ I) A Sz) as (r & t' & m2 & E2 & T2 & R2 & B2 & _ & El2 & P2 & K2).
  exists i, m1, r, m2. split; [exact E |]. rewrite Ro1, (ix_root _ _ I). split; [exact E2 |]. pose proof K2 as (Fr & K1' & K2' & K3' & K4' & K5' & K6').
  assert (Occ : forall j, j ∈ indices t' -> occupied m1 j).
  { intros j Hj. rewrite P2 in Hj. apply elem_of_cons in Hj as [-> | Hj]; [by eexists | by apply (rep_occupied _ _ _ R1)]. }
  split; [| split; [congruence | unfold spare in *; congruence]]. exists t'. split; [| done]. split; cbn [set_len set_root slots capacity root free_head free_len len]; try done.
  - by rewrite P2.
  - rewrite El2. apply put_sorted, I.
  - rewrite P2, K6', L1, (ix_len _ _ I). done.
  - exists fl. split; [| congruence]. apply (free_list_keeps _ _ _ _ F1 K2). intros j Hj. split; [by apply Occ | by apply (rep_occupied _ _ _ R2)].
  - intros j n Ej. destruct (decide (j ∈ indices t')) as [H' | H']; [done |]. rewrite (Fr j H') in Ej. rewrite P2, elem_of_cons. by eapply U1.
  - by rewrite K1', K2'.
  - rewrite K2', C1. apply I.
Qed.

Lemma insert_ok m l k v : represents m l ->
  match insert_reserved m k v with
  | Some (old, m') => old = assoc k l /\ represents m' (assoc_put k v l) /\ m'.(capacity) = m.(capacity) /\
      spare m = match old with Some _ => spare m' | None => S (spare m') end
  | None => assoc k l = None /\ spare m = 0%nat
  end.
Proof.
  intros (t & I & B & <-). unfold insert_reserved. pose proof (get_mut_ok m t k (fun _ => v) I B) as G. destruct (assoc k (elems t)) as [old |] eqn:A.
  - destruct G as (t' & m' & -> & I' & B' & E' & C' & Sp'). split; [done |]. split; [by exists t' | done].
  - rewrite G. cbn iota beta. rewrite (spare_test _ _ I). destruct (Nat.ltb_spec 0 (spare m)) as [Sp | Sp]; [| split; [done | lia]].
    destruct (insert_new m t k v I B A Sp) as (i & m1 & r & m2 & -> & -> & Rp & C2 & Sp2). cbn iota beta. split; [done |]. split; [exact Rp | split; [exact C2 |]]. exact Sp2.
Qed.

Lemma remove_ok m l k : represents m l ->
  exists m', remove m k = Some (assoc k l, m') /\ represents m' (assoc_del k l) /\ m'.(capacity) = m.(capacity) /\
    spare m' = match assoc k l with Some _ => S (spare m) | None => spare m end.
Proof.
  intros (t & I & B & <-). pose proof (index_height _ _ I B). unfold remove. rewrite (ix_root _ _ I).
  destruct (remove_index_rep (fuel m) m t k (ix_rep _ _ I) (ix_nodup _ _ I) B ltac:(lia) (ix_sorted _ _ I) (index_fuel _ _ I)) as (t' & m' & -> & R & B' & _ & El & X).
  cbn iota beta. eexists. split; [reflexivity |]. destruct (assoc k (elems t)) as [v |] eqn:A; cbn [is_some].
  - destruct X as (x & P & [Sx Fx Hx Lx (L1 & L2 & L3 & L4)]). split; [| split; [done |]; unfold spare; cbn [set_len set_root slots capacity free_len]; rewrite L1, L2, Lx; lia].
    exists t'. split; [| done]. pose proof (ix_nodup _ _ I) as Nd. rewrite P in Nd. apply NoDup_cons in Nd as [Nx Nd'].
    assert (Hxt : x ∈ indices t) by (rewrite P; constructor). assert (Hin : forall j, j ∈ indices t -> j = x \/ j ∈ indices t') by (intros j; by rewrite P, elem_of_cons).
    split; cbn [set_len set_root slots capacity root free_head free_len len]; try done.
    + rewrite El. apply del_sorted, I.
    + rewrite L4, (ix_len _ _ I), P. done.
    + destruct (ix_free _ _ I) as (fl & F & Fl). exists (x :: fl). split; [| simpl; congruence]. rewrite Hx.
      destruct (rep_occupied _ _ _ (ix_rep _ _ I) Hxt) as [n En]. eapply free_list_ext; [| exact (free_list_push vacancy _ _ _ x (Occupied n) (Vacant (free_head m)) F En eq_refl eq_refl)].
      intros j. destruct (decide (j = x)) as [-> | Nj]; [by rewrite Sx, list_lookup_insert_eq by (by eapply lookup_lt_Some) |]. rewrite list_lookup_insert_ne by done.
      destruct (decide (j ∈ indices t)) as [Hj | Hj]; [| by rewrite Fx].
      destruct (rep_occupied _ _ _ (ix_rep _ _ I) Hj) as [n1 ->]. destruct (Hin j Hj) as [-> | Hj']; [done |]. destruct (rep_occupied _ _ _ R Hj') as [n2 ->]. done.
    + intros j n Ej. destruct (decide (j ∈ indices t)) as [Hj | Hj].
      * destruct (Hin j Hj) as [-> | ?]; [congruence | done].
      * rewrite Fx in Ej by done. destruct Hj. by eapply ix_used.
    + rewrite L1, L2. apply I.
    + rewrite L2. apply I.
  - destruct X as [-> ->]. split; [| done]. exists t. split; [| done]. destruct I as [R0 Ro Nd S Le F U Rm W]. by split.
Qed.
End Map.

Import region_index.

(** The height of the tree built from [n] entries. *)
Definition built_height (n : nat) : Z := Z.log2 (2 * Z.of_nat n + 1).

Lemma built_height_split n q r : (q = (n / 2)%nat) -> (n = q + S r)%nat ->
  built_height n = 1 + Z.max (built_height q) (built_height r) /\ 0 <= built_height q - built_height r <= 1.
Proof.
  intros Hq Hn. unfold built_height. pose proof (Nat.div_mod_eq n 2) as D. pose proof (Nat.mod_upper_bound n 2 ltac:(lia)) as U. rewrite <- Hq in D.
  assert (M : Z.log2 (2 * Z.of_nat r + 1) <= Z.log2 (2 * Z.of_nat q + 1)) by (apply Z.log2_le_mono; lia).
  assert (X : Z.log2 (2 * Z.of_nat n + 1) = 1 + Z.log2 (2 * Z.of_nat q + 1)).
  { rewrite Z.log2_succ_double by lia. assert (Z.of_nat n = 2 * Z.of_nat q \/ Z.of_nat n = 2 * Z.of_nat q + 1) as [E | E] by lia; rewrite E; [| lia].
    rewrite Z.log2_double, Z.log2_succ_double by lia. lia. }
  split; [lia |]. split; [lia |]. assert (Y : Z.log2 (2 * Z.of_nat q + 1) <= Z.log2 (2 * (2 * Z.of_nat r + 1) + 1)) by (apply Z.log2_le_mono; lia).
  rewrite (Z.log2_succ_double (2 * Z.of_nat r + 1)) in Y by lia. lia.
Qed.

Lemma built_height_bound n : Z.of_nat n < 2 ^ 63 -> 0 <= built_height n < 65.
Proof. intros H. unfold built_height. split; [apply Z.log2_nonneg |]. apply Z.log2_lt_pow2; lia. Qed.

Section Build.
Context {V : Type}.
Implicit Types m : RegionIndex V.
Abbreviation tree := (@tree V).

Definition entry (s : Slot V) : option (Z * V) := match s with Occupied n => Some (n.(key), n.(value)) | Vacant _ => None end.

(** The slots from [lo] on hold the entries [l], in order. *)
Definition laid_out m (lo : nat) (l : list (Z * V)) : Prop := forall j p, l !! j = Some p -> m.(slots) !! (lo + j)%nat ≫= entry = Some p.

Lemma laid_out_frame m m' lo l : laid_out m lo l -> (forall j, (lo <= j < lo + length l)%nat -> m'.(slots) !! j = m.(slots) !! j) -> laid_out m' lo l.
Proof. intros L F j p E. rewrite F; [by apply L |]. apply lookup_lt_Some in E. lia. Qed.

Lemma laid_out_app m lo l1 l2 : laid_out m lo (l1 ++ l2) -> laid_out m lo l1 /\ laid_out m (lo + length l1) l2.
Proof.
  intros L. split; intros j p E.
  - apply L. by apply lookup_app_l_Some.
  - rewrite <- Nat.add_assoc. apply L. rewrite lookup_app_r by lia. by replace (length l1 + j - length l1)%nat with j by lia.
Qed.

Lemma split_middle {A} (l : list A) : l <> [] -> exists l1 p l2, l = l1 ++ p :: l2 /\ length l1 = (length l / 2)%nat.
Proof.
  intros N. assert (0 < length l)%nat by (destruct l; [done | simpl; lia]). assert (length l / 2 < length l)%nat as L by (apply Nat.div_lt; lia).
  destruct (lookup_lt_is_Some_2 _ _ L) as [p E]. exists (take (length l / 2) l), p, (drop (S (length l / 2)) l). split; [by rewrite take_drop_middle |]. rewrite length_take. lia.
Qed.

Lemma build_rep f m lo (l : list (Z * V)) : laid_out m lo l -> (length l < f)%nat -> Z.of_nat (length l) < 2 ^ 63 ->
  exists t m', build_balanced_sorted_range f m lo (lo + length l) = Some (tree_link t, ht t, m') /\ rep m'.(slots) t /\ indices t = seq lo (length l) /\
    elems t = l /\ balanced t /\ ht t = built_height (length l) /\ keeps (seq lo (length l)) m m'.
Proof.
  revert m lo l. induction f as [| f IH]; intros m lo l L F W; [lia |]. cbn [build_balanced_sorted_range]. destruct (decide (l = [])) as [-> | N].
  { exists Leaf, m. simpl. rewrite Nat.add_0_r, Nat.eqb_refl. split_and!; try done. }
  destruct (split_middle l N) as (l1 & [k v] & l2 & -> & L1). rewrite length_app in *. cbn [length] in *.
  destruct (built_height_split _ _ (length l2) L1 eq_refl) as [Hh Hd]. pose proof (built_height_bound _ W) as Hb.
  rewrite (proj2 (Nat.eqb_neq _ _)) by lia. replace (lo + length l1 + S (length l2) - lo)%nat with (length l1 + S (length l2))%nat by lia.
  replace (lo + (length l1 + S (length l2)) - lo)%nat with (length l1 + S (length l2))%nat by lia. rewrite <- L1.
  destruct (laid_out_app _ _ _ _ L) as [La Lb]. destruct (laid_out_app m _ [(k, v)] l2 Lb) as [Lm Lc]. cbn [length] in Lc.
  destruct (IH m lo l1 La ltac:(lia) ltac:(lia)) as (t1 & m1 & -> & R1 & I1 & E1 & B1 & H1 & K1). cbn iota beta.
  assert (Lc1 : laid_out m1 (lo + length l1 + 1) l2).
  { eapply laid_out_frame; [exact Lc |]. intros j Hj. apply (proj1 K1). rewrite elem_of_seq. lia. }
  destruct (IH m1 (lo + length l1 + 1)%nat l2 Lc1 ltac:(lia) ltac:(lia)) as (t2 & m2 & E2' & R2 & I2 & E2 & B2 & H2 & K2).
  replace (lo + (length l1 + S (length l2)))%nat with (lo + length l1 + 1 + length l2)%nat by lia. rewrite E2'. cbn iota beta.
  specialize (Lm 0%nat (k, v) eq_refl). rewrite Nat.add_0_r in Lm.
  assert (Em : m2.(slots) !! (lo + length l1)%nat = m.(slots) !! (lo + length l1)%nat).
  { rewrite (proj1 K2), (proj1 K1) by (rewrite elem_of_seq; lia). done. }
  destruct (m.(slots) !! (lo + length l1)%nat) as [[n | nx] |] eqn:En; [| done | done]. injection Lm as Hk Hv.
  rewrite H1, H2, wrap_small by (unfold is_u; lia).
  destruct (node_mut_rep m2 (lo + length l1) n (fun n => set_height (set_right (set_left n (tree_link t1)) (tree_link t2)) (1 + Z.max (built_height (length l1)) (built_height (length l2))))
    t1 k v (1 + Z.max (built_height (length l1)) (built_height (length l2))) t2) as (m3 & -> & R3 & K3).
  { exact Em. }
  { by rewrite <- Hk, <- Hv. }
  { apply (keeps_rep _ _ _ t1 K2); [| done]. intros x. rewrite I1, !elem_of_seq. lia. }
  { done. }
  { rewrite I1, elem_of_seq. lia. }
  { rewrite I2, elem_of_seq. lia. }
  cbn iota beta. eexists (Bin (lo + length l1) t1 k v _ t2), m3. split; [reflexivity |]. split; [exact R3 |]. split; [| split; [| split; [| split]]].
  - cbn [indices]. rewrite I1, I2, seq_app, <- cons_seq. by rewrite Nat.add_1_r.
  - cbn [elems]. by rewrite E1, E2.
  - cbn [balanced]. rewrite H1, H2. split; [done |]. split; [lia | done].
  - cbn [ht]. by rewrite Hh.
  - eapply keeps_mono; [exact (keeps_trans _ _ _ _ _ (keeps_trans _ _ _ _ _ K1 K2) K3) |]. intros x. rewrite !elem_of_app, !elem_of_seq, list_elem_of_singleton. lia.
Qed.

(** * The list being built *)

Fixpoint chain_tree (i : nat) (l : list (Z * V)) : tree :=
  match l with [] => Leaf | (k, v) :: l => Bin i Leaf k v 1 (chain_tree (S i) l) end.

Lemma chain_shape i l : indices (chain_tree i l) = seq i (length l) /\ elems (chain_tree i l) = l /\ (need (chain_tree i l) <= 1)%nat /\
  tree_link (chain_tree i l) = match l with [] => None | _ => Some i end.
Proof.
  revert i. induction l as [| [k v] l IH]; intros i; simpl; [split_and!; done || lia |]. destruct (IH (S i)) as (-> & -> & N & _). split_and!; done || lia.
Qed.

(** Slot [i + j] holds entry [j], linked to the next. *)
Lemma chain_rep (s : list (Slot V)) i l : rep s (chain_tree i l) <->
  forall j k v, l !! j = Some (k, v) -> s !! (i + j)%nat = Some (Occupied (mk_node k v None (if (S j <? length l)%nat then Some (S (i + j)) else None) 1)).
Proof.
  revert i. induction l as [| [k v] l IH]; intros i; [by split |]. cbn [chain_tree rep tree_link]. rewrite IH, (proj2 (proj2 (proj2 (chain_shape (S i) l)))).
  assert (X : (match l with [] => None | _ => Some (S i) end) = if (1 <? length ((k, v) :: l))%nat then Some (S i) else None) by by destruct l. rewrite X. split.
  - intros (E & _ & H) [| j] k' v' Ej; [injection Ej as <- <-; by rewrite Nat.add_0_r |]. simpl in Ej. rewrite <- Nat.add_succ_comm. by apply H.
  - intros H. split; [specialize (H 0%nat k v eq_refl); by rewrite Nat.add_0_r in H |]. split; [done |]. intros j k' v' Ej. rewrite Nat.add_succ_comm. by apply (H (S j)).
Qed.

(** The entries pushed so far. *)
Definition building m (l : list (Z * V)) : Prop := index_ok m (chain_tree 0 l) /\ m.(free_len) = 0%nat.

Lemma building_len m l : building m l -> m.(len) = length l /\ length m.(slots) = length l /\ key_sorted l /\ m.(free_head) = None.
Proof.
  intros [I Fl]. destruct (chain_shape 0 l) as (Ix & El & _). destruct (ix_free _ _ I) as (fl & F & Efl). rewrite Fl in Efl. symmetry in Efl. apply length_zero_iff_nil in Efl as ->.
  pose proof (Permutation_length (index_partition _ _ _ I F)) as P. rewrite app_nil_r, Ix, !length_seq in P. pose proof (ix_sorted _ _ I) as S. rewrite El in S.
  rewrite (ix_len _ _ I), Ix, length_seq. split_and!; try done. by destruct F as (? & _).
Qed.

Lemma building_new : building new [].
Proof. destruct (represents_new (V := V)) as (t & I & _ & E). split; [| done]. destruct t; [exact I | simpl in E; by destruct (elems t1)]. Qed.

(** An index with no entry and no vacant slot is ready for a build. *)
Lemma building_empty m : represents m [] -> m.(free_len) = 0%nat -> building m [].
Proof. intros (t & I & _ & E) F. split; [| done]. destruct t; [exact I | simpl in E; by destruct (elems t1)]. Qed.

(** The unfinished index can be searched and iterated. *)
Lemma building_iter m l : building m l -> iter m = Some l.
Proof.
  intros [I _]. destruct (chain_shape 0 l) as (_ & El & N & _). rewrite (iter_rep m (chain_tree 0 l)); [by rewrite El | apply I | apply I | by apply index_fuel |].
  unfold MAX_AVL_HEIGHT. lia.
Qed.

Lemma building_get m l k : building m l -> get m k = Some (assoc k l).
Proof. intros [I _]. rewrite (index_get _ _ k I). by rewrite (proj1 (proj2 (chain_shape 0 l))). Qed.

Lemma sorted_snoc l (k : Z) (v : V) : key_sorted l -> (forall p, last l = Some p -> fst p < k) -> key_sorted (l ++ [(k, v)]).
Proof.
  intros S H. apply sorted_mid. split_and!; [done | constructor | | constructor]. destruct (last l) as [[k' v'] |] eqn:E; [| apply last_None in E as ->; constructor].
  apply last_Some in E as [x ->]. apply sorted_mid in S as (_ & _ & B & _). specialize (H _ eq_refl). apply Forall_app. split; [| by repeat constructor]. eapply below_trans; [exact B | simpl in H; lia].
Qed.

Lemma push_rep m l k v :
  rep m.(slots) (chain_tree 0 l) -> length m.(slots) = length l ->
  exists m', match length l with O => Some (set_root (set_slots m (m.(slots) ++ [Occupied (node_new k v)])) (Some (length l)))
             | S last => node_mut (set_slots m (m.(slots) ++ [Occupied (node_new k v)])) last (fun n => set_right n (Some (length l))) end = Some m' /\
    rep m'.(slots) (chain_tree 0 (l ++ [(k, v)])) /\ length m'.(slots) = S (length l) /\ m'.(root) = (match l with [] => Some 0%nat | _ => m.(root) end) /\
    m'.(free_head) = m.(free_head) /\ m'.(capacity) = m.(capacity) /\ m'.(free_len) = m.(free_len) /\ m'.(len) = m.(len).
Proof.
  intros R L. pose proof (proj1 (chain_rep _ _ _) R) as C. destruct (decide (l = [])) as [-> | N].
  - eexists. split; [reflexivity |]. simpl in L. apply length_zero_iff_nil in L as E0. cbn [set_root set_slots slots root free_head capacity free_len len length]. rewrite E0. simpl. split_and!; done.
  - destruct (exists_last N) as (x & [k1 v1] & ->). rewrite length_app in *. cbn [length] in *. rewrite Nat.add_1_r in *.
    pose proof (C (length x) k1 v1 ltac:(by rewrite lookup_app_r, Nat.sub_diag by lia)) as E. simpl in E. pose proof (lookup_lt_Some _ _ _ E) as Lx.
    rewrite (proj2 (Nat.ltb_ge _ _)) in E by lia. unfold node_mut, node. cbn [set_slots slots]. rewrite lookup_app_l, E by done. cbn iota beta.
    eexists. split; [reflexivity |]. cbn [set_slots slots root free_head capacity free_len len]. rewrite length_insert, length_app. cbn [length]. split; [| split_and!; try done; [lia | by destruct x]].
    apply chain_rep. intros j k' v' Ej. simpl. rewrite !length_app. cbn [length]. apply lookup_app_Some in Ej as [Ej | [Hj Ej]].
    + destruct (decide (j = length x)) as [-> | Nj].
      * rewrite lookup_app_r, Nat.sub_diag in Ej by lia. injection Ej as <- <-. rewrite list_lookup_insert_eq by (rewrite length_app; simpl; lia).
        rewrite (proj2 (Nat.ltb_lt _ _)) by lia. done.
      * pose proof (lookup_lt_Some _ _ _ Ej) as Lj. rewrite length_app in Lj. simpl in Lj. rewrite list_lookup_insert_ne by done. rewrite lookup_app_l by lia.
        pose proof (C j k' v' Ej) as Cj. simpl in Cj. rewrite Cj, !(proj2 (Nat.ltb_lt _ _)) by lia. done.
    + rewrite length_app in *. apply list_lookup_singleton_Some in Ej as [Hj0 [= <- <-]]. simpl in *. assert (j = S (length x)) as -> by lia.
      rewrite list_lookup_insert_ne by lia. rewrite lookup_app_r by lia. rewrite L, Nat.sub_diag. rewrite (proj2 (Nat.ltb_ge _ _)) by lia. done.
Qed.

(** A push appends an entry above all the others. *)
Lemma push_ok m l k v : building m l ->
  match push_sorted_reserved m k v with
  | Some m' => building m' (l ++ [(k, v)]) /\ m'.(capacity) = m.(capacity) /\ spare m = S (spare m')
  | None => spare m = 0%nat \/ exists p, last l = Some p /\ k <= fst p
  end.
Proof.
  intros B. destruct (building_len _ _ B) as (L & Ls & Srt & Fh). destruct B as [I Fl]. unfold push_sorted_reserved. rewrite Fl, L, Ls, !Nat.eqb_refl. cbn [negb Nat.eqb].
  destruct (Nat.ltb_spec (length l) m.(capacity)) as [G | G]; cbn iota beta delta [negb]. 2:{ left. unfold spare. lia. }
  assert (X : (match length l with O => Some tt | S last => let* n := node m last in if n.(key) <? k then Some tt else None end) = Some tt /\ (forall p, last l = Some p -> fst p < k) \/
    (match length l with O => Some tt | S last => let* n := node m last in if n.(key) <? k then Some tt else None end) = None /\ exists p, last l = Some p /\ k <= fst p).
  { destruct (decide (l = [])) as [-> | N]; [by left |]. destruct (exists_last N) as (x & [k1 v1] & ->). rewrite last_snoc, length_app. cbn [length]. rewrite Nat.add_1_r.
    pose proof (proj1 (chain_rep _ _ _) (ix_rep _ _ I) (length x) k1 v1 ltac:(by rewrite lookup_app_r, Nat.sub_diag by lia)) as E. simpl in E. rewrite (node_at _ _ _ E). cbn [key].
    destruct (Z.ltb_spec k1 k); [left | right]; (split; [done |]); [by intros p [= <-] | by exists (k1, v1)]. }
  destruct X as [[-> H] | [-> H]]; cbn iota beta; [| by right].
  destruct (push_rep m l k v (ix_rep _ _ I) Ls) as (m' & E' & R' & L' & Ro' & Fh' & C' & Fl' & Le').
  rewrite E'. cbn iota beta. cbn [set_len capacity]. split; [| split; [done |]]; [| unfold spare; cbn [set_len slots free_len capacity]; rewrite L', C', Fl', Ls; lia].
  destruct (chain_shape 0 (l ++ [(k, v)])) as (Ix & El & _ & Tl). rewrite length_app in Ix. cbn [length] in Ix. rewrite Nat.add_1_r in Ix.
  split; [| by cbn [set_len free_len]; rewrite Fl']. split; cbn [set_len slots capacity root free_head free_len len]; try done.
  - rewrite Ro', Tl, (ix_root _ _ I), (proj2 (proj2 (proj2 (chain_shape 0 l)))). by destruct l.
  - rewrite Ix. apply NoDup_seq.
  - rewrite El. by apply sorted_snoc.
  - by rewrite Ix, length_seq, Le', L.
  - exists []. split; [| by rewrite Fl']. rewrite Fh', Fh. split_and!; [done | constructor |]. intros i. split; [intros Hi; by apply elem_of_nil in Hi |].
    intros (a & nx & Ea & Va). pose proof (lookup_lt_Some _ _ _ Ea) as Li. assert (Hi : i ∈ indices (chain_tree 0 (l ++ [(k, v)]))) by (rewrite Ix, elem_of_seq; lia).
    destruct (rep_occupied _ _ _ R' Hi) as [n En]. rewrite En in Ea. by injection Ea as <-.
  - intros i n En. apply lookup_lt_Some in En. rewrite Ix, elem_of_seq. lia.
  - rewrite L', C'. lia.
  - rewrite C'. apply I.
Qed.

(** The build ends in a balanced index of the entries pushed. *)
Lemma finish_ok m l : building m l ->
  exists m', finish_sorted_build m = Some m' /\ represents m' l /\ m'.(capacity) = m.(capacity) /\ spare m' = spare m.
Proof.
  intros B. destruct (building_len _ _ B) as (L & Ls & Srt & Fh). destruct B as [I Fl]. unfold finish_sorted_build. rewrite Fl, L, Ls, !Nat.eqb_refl. cbn [negb]. change (length l) with (0 + length l)%nat.
  destruct (build_rep (fuel m) m 0 l) as (t & m' & -> & R & Ix & El & Bt & _ & K).
  - intros j [k v] E. rewrite (proj1 (chain_rep _ _ _) (ix_rep _ _ I) j k v E). done.
  - unfold fuel. lia.
  - pose proof (ix_width _ _ I). pose proof (ix_room _ _ I). lia.
  - cbn iota beta. eexists. split; [reflexivity |]. pose proof K as (Fr & K1 & K2 & K3 & K4 & K5 & K6). split; [| split; [done |]; unfold spare; cbn [set_root slots free_len capacity]; by rewrite K1, K2, K5].
    exists t. split; [| done]. assert (Occ : forall i, i ∈ indices t -> occupied m i).
    { intros i Hi. apply (rep_occupied _ _ _ (ix_rep _ _ I)). rewrite (proj1 (chain_shape 0 l)). by rewrite <- Ix. }
    split; cbn [set_root slots capacity root free_head free_len len]; try done.
    + rewrite Ix. apply NoDup_seq.
    + by rewrite El.
    + by rewrite Ix, length_seq, K6, L.
    + destruct (ix_free _ _ I) as (fl & F & Efl). exists fl. split; [| congruence]. apply (free_list_keeps (indices t) m m' fl F); [by rewrite Ix |].
      intros i Hi. split; [by apply Occ | by apply (rep_occupied _ _ _ R)].
    + intros i n En. apply lookup_lt_Some in En. rewrite Ix, elem_of_seq. lia.
    + rewrite K1, K2. apply I.
    + rewrite K2. apply I.
Qed.
End Build.
