(* ===== verification/RegionSpec.v ===== *)
(** What [RegionIndex] promises its clients: the behaviour of every operation
    against a sorted association list, insertions that a reservation covers, and
    the sorted build. *)

From stdpp Require Import sets sorting.
From S2P Require Import Prelude Word SortedMap RegionIndex RegionTree RegionUpdate RegionSearch RegionMap.
Import region_index.

Section Queries.
Context {V : Type}.
Implicit Types m : RegionIndex V.

Lemma index_need m t : index_ok m t -> balanced t -> (need t <= MAX_AVL_HEIGHT)%nat.
Proof. intros I B. pose proof (index_height _ _ I B). pose proof (balanced_need t B). unfold MAX_AVL_HEIGHT. lia. Qed.

Lemma iter_ok m l : represents m l -> iter m = Some l.
Proof. intros (t & I & B & <-). apply iter_rep; [apply I | apply I | by apply index_fuel | by eapply index_need]. Qed.

Lemma range_ok m l lo hi : represents m l -> range m lo hi = Some (List.filter (in_range lo hi) l).
Proof. intros (t & I & B & <-). apply range_rep; [apply I | apply I | apply I | by apply index_fuel | by eapply index_need]. Qed.

Lemma below_ok m l test : (forall x y, test y = true -> x < y -> test x = true) -> represents m l ->
  below_from (fuel m) m test m.(root) None = Some (last (List.filter (fun p => test (fst p)) l)).
Proof.
  intros M (t & I & B & <-). rewrite (ix_root _ _ I), below_from_rep; [| done | apply I | apply I | by apply index_fuel]. by destruct (last _).
Qed.

Lemma above_ok m l test : (forall x y, test x = true -> x < y -> test y = true) -> represents m l ->
  above_from (fuel m) m test m.(root) None = Some (head (List.filter (fun p => test (fst p)) l)).
Proof.
  intros M (t & I & B & <-). rewrite (ix_root _ _ I), above_from_rep; [| done | apply I | apply I | by apply index_fuel]. by destruct (List.filter _ _).
Qed.

Lemma neighbours_ok m l k : represents m l ->
  predecessor m k = Some (last (List.filter (fun p => fst p <? k) l)) /\
  predecessor_or_equal m k = Some (last (List.filter (fun p => fst p <=? k) l)) /\
  successor_or_equal m k = Some (head (List.filter (fun p => k <=? fst p) l)).
Proof.
  intros R. unfold predecessor, predecessor_or_equal, successor_or_equal. split_and!; [apply below_ok | apply below_ok | apply above_ok]; try done;
    intros x y H L; revert H; rewrite ?Z.ltb_lt, ?Z.leb_le; lia.
Qed.

(** * Visitors *)

Context {S : Type} (visit : V -> S -> V * S).

Lemma sorted_keys (l l' : list (Z * V)) : fst <$> l' = fst <$> l -> key_sorted l -> key_sorted l'.
Proof using Type.
  revert l'. induction l as [| p l IH]; intros [| p' l']; try done. simpl. intros [= E El] H. inversion H as [| ? ? H' F]; subst. constructor; [by apply IH |].
  assert (G : Forall (fun k => fst p < k) (fst <$> l)) by (by rewrite Forall_fmap). change (fst <$> l' = fst <$> l) in El. rewrite <- El, Forall_fmap in G. eapply Forall_impl; [exact G |]. unfold key_lt. simpl. rewrite E. done.
Qed.

Lemma visited_ok g m t s res : index_ok m t -> balanced t -> visited visit g m t s res ->
  exists s' m', res = Some (s', m') /\ represents m' (fst (visit_entries visit g (elems t) s)) /\ s' = snd (visit_entries visit g (elems t) s) /\ m'.(capacity) = m.(capacity) /\ spare m' = spare m.
Proof using Type.
  intros I B (t' & s' & m' & -> & R & (L & H & Ix & Bt) & Ve & K). exists s', m'. split; [done |]. pose proof (visit_keys visit g (elems t) s) as Ks. rewrite Ve in *. cbn [fst snd] in *.
  pose proof K as (_ & K1 & K2 & _ & _ & K5 & _). split_and!; [| done | done | unfold spare; by rewrite K1, K2, K5]. exists t'. split; [| by split; [apply Bt |]].
  apply (index_rewrite m m' t t'); try done; [by rewrite Ix |]. eapply sorted_keys; [exact Ks | apply I].
Qed.

Lemma for_each_ok m l lo hi s : represents m l ->
  (exists s' m', for_each_mut visit m s = Some (s', m') /\ represents m' (fst (visit_entries visit (fun _ => true) l s)) /\ s' = snd (visit_entries visit (fun _ => true) l s) /\
    m'.(capacity) = m.(capacity) /\ spare m' = spare m) /\
  (exists s' m', for_each_range_mut visit m lo hi s = Some (s', m') /\ represents m' (fst (visit_entries visit (in_range lo hi) l s)) /\ s' = snd (visit_entries visit (in_range lo hi) l s) /\
    m'.(capacity) = m.(capacity) /\ spare m' = spare m).
Proof using Type.
  intros (t & I & B & <-). unfold for_each_mut, for_each_range_mut. rewrite (ix_root _ _ I). split; apply visited_ok; try done;
    [apply visit_mut_rep | apply visit_range_rep]; try apply I; by apply index_fuel.
Qed.
End Queries.

(** * The promises *)

Section Promises.
Context {V : Type}.
Implicit Types m : RegionIndex V.

(** A client's sequence of insertions and removals. *)
Inductive Update : Type :=
  | Put (k : Z) (v : V)
  | Del (k : Z).

Fixpoint updates m (us : list Update) : option (RegionIndex V) :=
  match us with
  | [] => Some m
  | Put k v :: us => let* (_, w) := insert_reserved m k v in updates w us
  | Del k :: us => let* (_, w) := remove m k in updates w us
  end.

Fixpoint updated (l : list (Z * V)) (us : list Update) : list (Z * V) :=
  match us with [] => l | Put k v :: us => updated (assoc_put k v l) us | Del k :: us => updated (assoc_del k l) us end.

Fixpoint puts (us : list Update) : nat := match us with [] => 0 | Put _ _ :: us => S (puts us) | Del _ :: us => puts us end.

Lemma updates_ok m l us : represents m l -> (puts us <= spare m)%nat ->
  exists m', updates m us = Some m' /\ represents m' (updated l us) /\ m'.(capacity) = m.(capacity).
Proof.
  revert m l. induction us as [| [k v | k] us IH]; intros m l R P; simpl in *; [by exists m | |].
  - pose proof (insert_ok m l k v R) as H. destruct (insert_reserved m k v) as [[old m1] |]; [| lia]. destruct H as (_ & R1 & C1 & S1).
    destruct (IH m1 _ R1) as (m2 & E2 & R2 & C2); [destruct old; lia |]. exists m2. split; [done | split; [done | congruence]].
  - destruct (remove_ok m l k R) as (m1 & -> & R1 & C1 & S1). destruct (IH m1 _ R1) as (m2 & E2 & R2 & C2); [destruct (assoc k l); lia |].
    exists m2. split; [done | split; [done | congruence]].
Qed.

Fixpoint pushes m (l : list (Z * V)) : option (RegionIndex V) :=
  match l with [] => Some m | (k, v) :: l => let* w := push_sorted_reserved m k v in pushes w l end.

Lemma pushes_ok m l0 l : building m l0 -> key_sorted (l0 ++ l) -> (length l <= spare m)%nat ->
  exists m', pushes m l = Some m' /\ building m' (l0 ++ l) /\ m'.(capacity) = m.(capacity).
Proof.
  revert m l0. induction l as [| [k v] l IH]; intros m l0 B S P; simpl in *; [exists m; by rewrite app_nil_r |].
  pose proof (push_ok m l0 k v B) as H. destruct (push_sorted_reserved m k v) as [m1 |].
  - destruct H as (B1 & C1 & S1). replace (l0 ++ (k, v) :: l) with ((l0 ++ [(k, v)]) ++ l) in * by by rewrite <- app_assoc.
    destruct (IH m1 _ B1 S ltac:(lia)) as (m2 & E2 & B2 & C2). exists m2. split; [done | split; [done | congruence]].
  - exfalso. destruct H as [H | (p & Lp & Hp)]; [lia |]. apply last_Some in Lp as [x ->]. apply sorted_mid in S as (_ & _ & F & _).
    apply Forall_app in F as [_ F]. rewrite Forall_singleton in F. lia.
Qed.

Lemma put_last k (v : V) l : all_below k l -> assoc_put k v l = l ++ [(k, v)].
Proof.
  induction 1 as [| [k' v'] l H _ IH]; [done |]. simpl in *. rewrite (proj2 (Z.ltb_ge _ _)), (proj2 (Z.eqb_neq _ _)), IH by lia. done.
Qed.

Lemma updated_puts l0 (l : list (Z * V)) : key_sorted (l0 ++ l) -> updated l0 ((fun p => Put (fst p) (snd p)) <$> l) = l0 ++ l.
Proof.
  revert l0. induction l as [| [k v] l IH]; intros l0 S; simpl; [by rewrite app_nil_r |]. pose proof (proj1 (sorted_mid _ _ _ _) S) as (_ & _ & B & _).
  rewrite put_last by done. change (updated (l0 ++ [(k, v)]) ((fun p => Put (fst p) (snd p)) <$> l) = l0 ++ (k, v) :: l). rewrite IH; by rewrite <- app_assoc.
Qed.

Lemma puts_all (l : list (Z * V)) : puts ((fun p => Put (fst p) (snd p)) <$> l) = length l.
Proof. induction l as [| p l IH]; [done |]. simpl. by f_equal. Qed.

(** C9: A region index is an ordered map.  When the arena holds a balanced tree
    of the entries [l], every query answers what [l] says: [get] looks the key
    up, [predecessor] and its relatives pick the nearest entry, [iter] yields
    [l] and [range] the part of it between the bounds, [len] counts it.
    [insert_reserved] replaces the value of a key that is there, adds one that
    is not while a slot is left, and panics only when none is; [remove] deletes
    the key, if it is there, and returns its value; a write through [get_mut]
    replaces one value.  The index they leave represents the new map, in the
    same arena, and a removal gives one slot back. *)
Theorem region_index_refines_map m l k v (f : V -> V) :
  represents m l ->
  (get m k = Some (assoc k l) /\ m.(len) = length l /\ iter m = Some l /\
   forall lo hi, range m lo hi = Some (List.filter (in_range lo hi) l)) /\
  (predecessor m k = Some (last (List.filter (fun p => fst p <? k) l)) /\
   predecessor_or_equal m k = Some (last (List.filter (fun p => fst p <=? k) l)) /\
   successor_or_equal m k = Some (head (List.filter (fun p => k <=? fst p) l))) /\
  match insert_reserved m k v with
  | Some (old, m') => old = assoc k l /\ represents m' (assoc_put k v l) /\ m'.(capacity) = m.(capacity) /\
      spare m = match old with Some _ => spare m' | None => S (spare m') end
  | None => assoc k l = None /\ spare m = 0%nat
  end /\
  (exists m', remove m k = Some (assoc k l, m') /\ represents m' (assoc_del k l) /\ m'.(capacity) = m.(capacity) /\
    spare m' = match assoc k l with Some _ => S (spare m) | None => spare m end) /\
  (exists m', get_mut m k f = Some (assoc k l, m') /\ m'.(capacity) = m.(capacity) /\ spare m' = spare m /\
    represents m' (match assoc k l with Some x => assoc_put k (f x) l | None => l end)).
Proof.
  intros R. pose proof R as (t & I & B & <-). split; [| split; [by apply neighbours_ok | split; [by apply insert_ok | split; [by apply remove_ok |]]]].
  - split; [by apply get_ok | split; [by apply represents_sorted | split; [by apply iter_ok | intros; by apply range_ok]]].
  - pose proof (get_mut_ok m t k f I B) as G. destruct (assoc k (elems t)) as [x |]; [| by exists m].
    destruct G as (t' & m' & -> & I' & B' & E' & C' & S'). exists m'. split; [done | split; [done | split; [done |]]]. by exists t'.
Qed.

(** A reservation covers the insertions it was made for.  If
    [try_reserve_nodes] succeeds for [n] nodes, then any sequence of insertions
    and removals with at most [n] insertions runs to its end: no insertion
    panics, the arena is not grown again, and the index represents the map the
    sequence computes.  If it fails, nothing changed and the index had room for
    fewer than [n]; if there is room already, the heap is not asked. *)
Lemma region_index_reservation m l n offer us :
  represents m l -> (puts us <= n)%nat ->
  match try_reserve_nodes m n offer with
  | (Ok _, m1) => represents m1 l /\ exists m2, updates m1 us = Some m2 /\ represents m2 (updated l us) /\ m2.(capacity) = m1.(capacity)
  | (Err _, m1) => m1 = m /\ (spare m < n)%nat
  end /\
  ((n <= spare m)%nat -> try_reserve_nodes m n offer = (Ok tt, m)).
Proof.
  intros R P. split.
  - pose proof (reserve_ok m l n offer R) as H. destruct (try_reserve_nodes m n offer) as [[u | e] m1]; [| done]. destruct H as (R1 & S1 & _).
    split; [done |]. apply updates_ok; [done | lia].
  - intros S. unfold try_reserve_nodes. rewrite (proj2 (Nat.leb_le _ _)); [done |]. unfold spare in S. lia.
Qed.

(** The sorted build makes the same map as inserting the entries one by
    one.  Pushing strictly ascending entries into an empty index that has room
    for them succeeds, the unfinished index can already be searched and
    iterated, a key that does not ascend is refused, and
    [finish_sorted_build] leaves a balanced index of exactly those entries, in
    the same arena. *)
Lemma region_index_sorted_build m (l : list (Z * V)) :
  represents m [] -> m.(free_len) = 0%nat -> key_sorted l -> (length l <= spare m)%nat ->
  exists m1 m2 m3, pushes m l = Some m1 /\ iter m1 = Some l /\ (forall k, get m1 k = Some (assoc k l)) /\
    (forall k v p, last l = Some p -> k <= fst p -> push_sorted_reserved m1 k v = None) /\
    finish_sorted_build m1 = Some m2 /\ represents m2 l /\ m2.(capacity) = m.(capacity) /\
    updates m ((fun p => Put (fst p) (snd p)) <$> l) = Some m3 /\ represents m3 l.
Proof.
  intros R F S P. destruct (pushes_ok m [] l (building_empty m R F) S P) as (m1 & E1 & B1 & C1). destruct (finish_ok m1 l B1) as (m2 & E2 & R2 & C2 & _).
  destruct (updates_ok m [] ((fun p => Put (fst p) (snd p)) <$> l) R ltac:(by rewrite puts_all)) as (m3 & E3 & R3 & _). rewrite updated_puts in R3 by done.
  exists m1, m2, m3. split; [done |]. split; [by apply building_iter | split; [intros k; by apply building_get | split]].
  - intros k v p Lp Hp. pose proof (push_ok m1 l k v B1) as H. destruct (push_sorted_reserved m1 k v); [| done]. destruct H as (B' & _).
    apply building_len in B' as (_ & _ & S' & _). apply last_Some in Lp as [x ->]. apply sorted_mid in S' as (_ & _ & Bl & _). apply Forall_app in Bl as [_ Bl]. rewrite Forall_singleton in Bl. lia.
  - split; [done | split; [done | split; [congruence | done]]].
Qed.
End Promises.

(** * Instances *)

(** An empty index with room for four nodes. *)
Definition roomy : RegionIndex Z := snd (try_reserve_nodes new 4 (Some 4%nat)).

Lemma roomy_ok : represents roomy [] /\ roomy.(free_len) = 0%nat /\ spare roomy = 4%nat.
Proof. split; [exact (proj1 (reserve_ok new [] 4 (Some 4%nat) represents_new)) | done]. Qed.

Lemma region_index_refines_map_witness :
  exists m, updates roomy [Put 30 3; Put 10 1; Put 20 2] = Some m /\ get m 20 = Some (Some 2) /\ predecessor m 20 = Some (Some (10, 1)) /\ iter m = Some [(10, 1); (20, 2); (30, 3)].
Proof.
  destruct (updates_ok roomy [] [Put 30 3; Put 10 1; Put 20 2] (proj1 roomy_ok) ltac:(rewrite (proj2 (proj2 roomy_ok)); simpl; lia)) as (m & E & R & _).
  exists m. split; [exact E |]. destruct (region_index_refines_map m _ 20 0 id R) as ((G & _ & It & _) & (Pr & _) & _). split; [exact G | split; [exact Pr | exact It]].
Defined.

Lemma region_index_reservation_witness :
  exists m, updates roomy [Put 5 1; Del 5; Put 7 2; Put 5 3] = Some m /\ represents m [(5, 3); (7, 2)] /\ m.(capacity) = 4%nat.
Proof.
  destruct (proj1 (region_index_reservation new [] 4 (Some 4%nat) [Put 5 1; Del 5; Put 7 2; Put 5 3] represents_new ltac:(simpl; lia))) as (_ & m & E & R & C).
  exists m. split; [exact E | split; [exact R | exact C]].
Defined.

Lemma region_index_sorted_build_witness : exists m, pushes roomy [(1, 10); (2, 20); (3, 30)] = Some m /\ iter m = Some [(1, 10); (2, 20); (3, 30)].
Proof.
  destruct (region_index_sorted_build roomy [(1, 10); (2, 20); (3, 30)] (proj1 roomy_ok) (proj1 (proj2 roomy_ok))) as (m & _ & _ & E & It & _).
  - repeat constructor.
  - rewrite (proj2 (proj2 roomy_ok)). simpl. lia.
  - exists m. split; [exact E | exact It].
Defined.
