(* ===== verification/IpcRing.v ===== *)
(** The single-producer single-consumer ring of the IPC layer
    ([ipc/src/lib.rs]), as a machine of two threads that interleave.

    Each atomic access, each access to a slot and each critical section of a
    waker lock is one step; a method is a sequence of such steps, written as the
    program counters of the thread that runs it.  The orderings of the source
    pair every index with its payload, so the steps interleave in program order.
    A slot is [None] while it is uninitialised, and taking from one that is has
    no step.  A waker is the number of the task it wakes.  [retag] is the
    payload's [Retag::retag]; [N] is the capacity. *)

From S2P Require Import Prelude Word.

Abbreviation Waker := nat (only parsing).

Module TrySendError.
Inductive TrySendError (T : Type) : Type :=
  | Full (m : T)
  | Closed (m : T).
Arguments Full {T}.
Arguments Closed {T}.
End TrySendError.
Abbreviation TrySendError := TrySendError.TrySendError.

Module RecvError.
Inductive RecvError : Type := Closed.
End RecvError.
Abbreviation RecvError := RecvError.RecvError.

Record Ring (T : Type) : Type := mk_ring {
  head : Z;
  tail : Z;
  closed : bool;
  producer_waker : option Waker;
  consumer_waker : option Waker;
  slots : list (option T)
}.
Arguments mk_ring {T}.
Arguments head {T}.
Arguments tail {T}.
Arguments closed {T}.
Arguments producer_waker {T}.
Arguments consumer_waker {T}.
Arguments slots {T}.

(** Who called [try_send]: the caller of the method or of [try_push], or the
    first or second attempt of a poll of [SendFuture], with its task. *)
Inductive SendSite : Type :=
  | SendCall
  | PushCall
  | SendFirst (cx : Waker)
  | SendSecond (cx : Waker).

Inductive SendReply (T : Type) : Type :=
  | SendReturned (r : Result unit (TrySendError T))
  | PushReturned (r : Result unit T)
  | SendReady (r : Result unit T).
Arguments SendReturned {T}.
Arguments PushReturned {T}.
Arguments SendReady {T}.

(** The producer: between calls, inside [try_send] or [poll], with a pending
    future, inside [drop], or gone. *)
Inductive Producer (T : Type) : Type :=
  | PIdle (last : option (SendReply T))
  | PLoadClosed (site : SendSite) (m : T)
  | PLoadHead (site : SendSite) (m : T)
  | PLoadTail (site : SendSite) (m : T) (hd : Z)
  | PWrite (site : SendSite) (m : T) (hd : Z)
  | PStoreHead (site : SendSite) (m : T) (hd : Z)
  | PWake (site : SendSite)
  | PRegister (cx : Waker) (m : T)
  | PUnregister
  | PPending (cx : Waker) (m : T)
  | PDropClose
  | PDropWake
  | PGone.
Arguments PIdle {T}.
Arguments PLoadClosed {T}.
Arguments PLoadHead {T}.
Arguments PLoadTail {T}.
Arguments PWrite {T}.
Arguments PStoreHead {T}.
Arguments PWake {T}.
Arguments PRegister {T}.
Arguments PUnregister {T}.
Arguments PPending {T}.
Arguments PDropClose {T}.
Arguments PDropWake {T}.
Arguments PGone {T}.

Inductive RecvSite : Type :=
  | RecvCall
  | PopCall
  | RecvFirst (cx : Waker)
  | RecvSecond (cx : Waker).

Inductive RecvReply (T : Type) : Type :=
  | RecvReturned (r : Result (option T) RecvError)
  | PopReturned (r : option T)
  | RecvReady (r : Result T RecvError).
Arguments RecvReturned {T}.
Arguments PopReturned {T}.
Arguments RecvReady {T}.

Inductive Consumer (T : Type) : Type :=
  | CIdle (last : option (RecvReply T))
  | CLoadTail (site : RecvSite)
  | CLoadHead (site : RecvSite) (tl : Z)
  | CLoadClosed (site : RecvSite)
  | CTake (site : RecvSite) (tl : Z)
  | CStoreTail (site : RecvSite) (tl : Z) (m : T)
  | CWake (site : RecvSite) (m : T)
  | CRegister (cx : Waker)
  | CUnregister (m : T)
  | CPending (cx : Waker)
  | CDropClose
  | CDropWake
  | CGone.
Arguments CIdle {T}.
Arguments CLoadTail {T}.
Arguments CLoadHead {T}.
Arguments CLoadClosed {T}.
Arguments CTake {T}.
Arguments CStoreTail {T}.
Arguments CWake {T}.
Arguments CRegister {T}.
Arguments CUnregister {T}.
Arguments CPending {T}.
Arguments CDropClose {T}.
Arguments CDropWake {T}.
Arguments CGone {T}.

Module ring.
Section Ring.
Context {T : Type} (N : nat) (retag : T -> T).
Implicit Types r : Ring T.

Definition MASK : Z := Z.of_nat N - 1.

Definition new : Ring T := mk_ring 0 0 false None None (replicate N None).

Definition set_head r h := mk_ring h r.(tail) r.(closed) r.(producer_waker) r.(consumer_waker) r.(slots).
Definition set_tail r t := mk_ring r.(head) t r.(closed) r.(producer_waker) r.(consumer_waker) r.(slots).
Definition set_closed r := mk_ring r.(head) r.(tail) true r.(producer_waker) r.(consumer_waker) r.(slots).
Definition set_producer_waker r w := mk_ring r.(head) r.(tail) r.(closed) w r.(consumer_waker) r.(slots).
Definition set_consumer_waker r w := mk_ring r.(head) r.(tail) r.(closed) r.(producer_waker) w r.(slots).
Definition set_slots r s : Ring T := mk_ring r.(head) r.(tail) r.(closed) r.(producer_waker) r.(consumer_waker) s.

(** [(index & Self::MASK) as usize]. *)
Definition slot_of (index : Z) : nat := Z.to_nat (Z.land index MASK).

(** * The producer *)

(** What the caller of [try_send] does with its result. *)
Definition send_return (site : SendSite) (res : Result unit (TrySendError T)) : Producer T :=
  match site with
  | SendCall => PIdle (Some (SendReturned res))
  | PushCall =>
      PIdle (Some (PushReturned
        match res with Ok u => Ok u | Err (TrySendError.Full m) | Err (TrySendError.Closed m) => Err m end))
  | SendFirst cx =>
      match res with
      | Ok u => PIdle (Some (SendReady (Ok u)))
      | Err (TrySendError.Closed m) => PIdle (Some (SendReady (Err m)))
      | Err (TrySendError.Full m) => PRegister cx m
      end
  | SendSecond cx =>
      match res with
      | Ok u => PUnregister
      | Err (TrySendError.Closed m) => PIdle (Some (SendReady (Err m)))
      | Err (TrySendError.Full m) => PPending cx m
      end
  end.

(** One step of [try_send], [try_push], [SendFuture::poll] or [Producer::drop]:
    the ring, the producer, and the task it woke. *)
Definition producer_step r (p : Producer T) : option (Ring T * Producer T * option Waker) :=
  match p with
  | PLoadClosed site m =>
      Some (r, if r.(closed) then send_return site (Err (TrySendError.Closed m)) else PLoadHead site m, None)
  | PLoadHead site m => Some (r, PLoadTail site m r.(head), None)
  | PLoadTail site m hd =>
      Some (r, if Z.of_nat N <=? wrap 64 (hd - r.(tail)) then send_return site (Err (TrySendError.Full m))
               else PWrite site m hd, None)
  | PWrite site m hd =>
      let* _ := r.(slots) !! slot_of hd in
      Some (set_slots r (<[slot_of hd := Some (retag m)]> r.(slots)), PStoreHead site m hd, None)
  | PStoreHead site m hd => Some (set_head r (wrap 64 (hd + 1)), PWake site, None)
  | PWake site => Some (set_consumer_waker r None, send_return site (Ok tt), r.(consumer_waker))
  | PRegister cx m => Some (set_producer_waker r (Some cx), PLoadClosed (SendSecond cx) m, None)
  | PUnregister => Some (set_producer_waker r None, PIdle (Some (SendReady (Ok tt))), None)
  | PDropClose => Some (set_closed r, PDropWake, None)
  | PDropWake => Some (set_consumer_waker r None, PGone, r.(consumer_waker))
  | PIdle _ | PPending _ _ | PGone => None
  end.

(** * The consumer *)

Definition recv_return (site : RecvSite) (res : Result (option T) RecvError) : Consumer T :=
  match site with
  | RecvCall => CIdle (Some (RecvReturned res))
  | PopCall => CIdle (Some (PopReturned match res with Ok m => m | Err _ => None end))
  | RecvFirst cx =>
      match res with
      | Ok (Some m) => CIdle (Some (RecvReady (Ok m)))
      | Err e => CIdle (Some (RecvReady (Err e)))
      | Ok None => CRegister cx
      end
  | RecvSecond cx =>
      match res with
      | Ok (Some m) => CUnregister m
      | Err e => CIdle (Some (RecvReady (Err e)))
      | Ok None => CPending cx
      end
  end.

(** One step of [try_recv], [try_pop], [RecvFuture::poll] or [Consumer::drop];
    [try_pop] does not look at [closed]. *)
Definition consumer_step r (c : Consumer T) : option (Ring T * Consumer T * option Waker) :=
  match c with
  | CLoadTail site => Some (r, CLoadHead site r.(tail), None)
  | CLoadHead site tl =>
      Some (r, if r.(head) =? tl then match site with PopCall => recv_return site (Ok None) | _ => CLoadClosed site end
               else CTake site tl, None)
  | CLoadClosed site => Some (r, recv_return site (if r.(closed) then Err RecvError.Closed else Ok None), None)
  | CTake site tl =>
      let* v := r.(slots) !! slot_of tl in
      let* m := v in
      Some (set_slots r (<[slot_of tl := None]> r.(slots)), CStoreTail site tl m, None)
  | CStoreTail site tl m => Some (set_tail r (wrap 64 (tl + 1)), CWake site m, None)
  | CWake site m => Some (set_producer_waker r None, recv_return site (Ok (Some m)), r.(producer_waker))
  | CRegister cx => Some (set_consumer_waker r (Some cx), CLoadTail (RecvSecond cx), None)
  | CUnregister m => Some (set_consumer_waker r None, CIdle (Some (RecvReady (Ok m))), None)
  | CDropClose => Some (set_closed r, CDropWake, None)
  | CDropWake => Some (set_producer_waker r None, CGone, r.(producer_waker))
  | CIdle _ | CPending _ | CGone => None
  end.

(** [Ring::drop], once both halves are gone: the payloads it destroys.  The
    fuel is one more than the capacity. *)
Fixpoint drop_loop (fuel : nat) (s : list (option T)) (i hd : Z) : option (list T) :=
  match fuel with
  | O => None
  | S fuel =>
      if i =? hd then Some []
      else
        let* v := s !! slot_of i in
        let* m := v in
        let* rest := drop_loop fuel (<[slot_of i := None]> s) (wrap 64 (i + 1)) hd in
        Some (m :: rest)
  end.

Definition drop_ring r : option (list T) := drop_loop (S N) r.(slots) r.(tail) r.(head).
End Ring.
End ring.
