(* ===== verification/IpcRingSound.v ===== *)
(** The single-producer single-consumer ring over time: every interleaving of a
    producer and a consumer that send, receive, poll, cancel and drop. *)

From stdpp Require Import sets.
From S2P Require Import Prelude Word IpcRing.
Import ring.

Section Channel.
Context {T : Type} (N : nat) (retag : T -> T).

(** * The state machine *)

(** The ring, its two ends, the tasks woken through each waker since they were
    last polled, and the history: what was published and what was taken out. *)
Record Channel : Type := mk_channel {
  rg : Ring T;
  producer : Producer T;
  consumer : Consumer T;
  p_woken : list Waker;
  c_woken : list Waker;
  sent : list T;
  received : list T
}.
Implicit Types s : Channel.

Definition start : Channel := mk_channel (new N) (PIdle None) (CIdle None) [] [] [] [].

Definition producer_turn s : option Channel :=
  let* (r, p, w) := producer_step N retag s.(rg) s.(producer) in
  Some (mk_channel r p s.(consumer) s.(p_woken) (s.(c_woken) ++ option_list w)
    (match s.(producer) with PStoreHead _ m _ => s.(sent) ++ [retag m] | _ => s.(sent) end) s.(received)).

Definition consumer_turn s : option Channel :=
  let* (r, c, w) := consumer_step N s.(rg) s.(consumer) in
  Some (mk_channel r s.(producer) c (s.(p_woken) ++ option_list w) s.(c_woken) s.(sent)
    (match s.(consumer), c with CTake _ _, CStoreTail _ _ m => s.(received) ++ [m] | _, _ => s.(received) end)).

Definition with_producer s p (polled : list Waker) : Channel :=
  mk_channel s.(rg) p s.(consumer) (filter (fun w => w ∉ polled) s.(p_woken)) s.(c_woken) s.(sent) s.(received).

Definition with_consumer s c (polled : list Waker) : Channel :=
  mk_channel s.(rg) s.(producer) c s.(p_woken) (filter (fun w => w ∉ polled) s.(c_woken)) s.(sent) s.(received).

(** A turn of either end, or a client that calls a method, polls a pending
    future again, drops it, or drops its end. *)
Inductive step s : Channel -> Prop :=
  | step_producer s' : producer_turn s = Some s' -> step s s'
  | step_consumer s' : consumer_turn s = Some s' -> step s s'
  | step_try_send last m : s.(producer) = PIdle last -> step s (with_producer s (PLoadClosed SendCall m) [])
  | step_try_push last m : s.(producer) = PIdle last -> step s (with_producer s (PLoadClosed PushCall m) [])
  | step_send last m cx : s.(producer) = PIdle last -> step s (with_producer s (PLoadClosed (SendFirst cx) m) [cx])
  | step_send_again m cx cx' : s.(producer) = PPending cx m -> step s (with_producer s (PLoadClosed (SendFirst cx') m) [cx'])
  | step_send_cancel m cx : s.(producer) = PPending cx m -> step s (with_producer s (PIdle None) [])
  | step_producer_drop last : s.(producer) = PIdle last -> step s (with_producer s PDropClose [])
  | step_try_recv last : s.(consumer) = CIdle last -> step s (with_consumer s (CLoadTail RecvCall) [])
  | step_try_pop last : s.(consumer) = CIdle last -> step s (with_consumer s (CLoadTail PopCall) [])
  | step_recv last cx : s.(consumer) = CIdle last -> step s (with_consumer s (CLoadTail (RecvFirst cx)) [cx])
  | step_recv_again cx cx' : s.(consumer) = CPending cx -> step s (with_consumer s (CLoadTail (RecvFirst cx')) [cx'])
  | step_recv_cancel cx : s.(consumer) = CPending cx -> step s (with_consumer s (CIdle None) [])
  | step_consumer_drop last : s.(consumer) = CIdle last -> step s (with_consumer s CDropClose []).

Inductive reachable : Channel -> Prop :=
  | reachable_start : reachable start
  | reachable_step s s' : reachable s -> step s s' -> reachable s'.

(** * The invariant of the data *)

(** Messages whose slot the consumer has given back. *)
Definition freed s : nat := length s.(received) - match s.(consumer) with CStoreTail _ _ _ => 1 | _ => 0 end.

(** Position [p] holds [x]: published and not taken, or written and not yet
    published. *)
Definition live s (p : nat) (x : T) : Prop :=
  ((length s.(received) <= p)%nat /\ s.(sent) !! p = Some x) \/
  (p = length s.(sent) /\ exists site m hd, s.(producer) = PStoreHead site m hd /\ x = retag m).

(** What an end has read from the ring is still true of it. *)
Definition producer_view s : Prop :=
  match s.(producer) with
  | PLoadTail _ _ hd => hd = s.(rg).(head)
  | PWrite _ _ hd | PStoreHead _ _ hd => hd = s.(rg).(head) /\ (length s.(sent) < freed s + N)%nat
  | _ => True
  end.

Definition consumer_view s : Prop :=
  match s.(consumer) with
  | CLoadHead _ tl => tl = s.(rg).(tail)
  | CTake _ tl => tl = s.(rg).(tail) /\ (length s.(received) < length s.(sent))%nat
  | CStoreTail _ tl m => tl = s.(rg).(tail) /\ (0 < length s.(received))%nat
  | _ => True
  end.

Record channel_ok s : Prop := {
  ok_head : s.(rg).(head) = wrap 64 (Z.of_nat (length s.(sent)));
  ok_tail : s.(rg).(tail) = wrap 64 (Z.of_nat (freed s));
  ok_prefix : s.(received) = take (length s.(received)) s.(sent);
  ok_room : (length s.(sent) <= freed s + N)%nat;
  ok_length : length s.(rg).(slots) = N;
  ok_slots : forall i x, s.(rg).(slots) !! i = Some (Some x) <-> exists p, i = (p mod N)%nat /\ live s p x;
  ok_producer : producer_view s;
  ok_consumer : consumer_view s
}.

(** * Positions and slots *)

Definition power_of_two : Prop := exists k, (k < 64)%nat /\ Z.of_nat N = 2 ^ Z.of_nat k.

Lemma slot_of_position p : power_of_two -> slot_of N (wrap 64 (Z.of_nat p)) = (p mod N)%nat.
Proof using Type.
  intros (k & Hk & E). unfold slot_of, MASK. rewrite E, Z.sub_1_r, <- Z.ones_equiv, Z.land_ones by lia. unfold wrap.
  rewrite Z.mod_mod_divide.
  - rewrite <- E, <- Nat2Z.inj_mod. apply Nat2Z.id.
  - exists (2 ^ (64 - Z.of_nat k)). rewrite <- Z.pow_add_r by lia. f_equal. lia.
Qed.

Lemma window_distinct a p q : (a <= p < a + N)%nat -> (a <= q < a + N)%nat -> (p mod N = q mod N)%nat -> p = q.
Proof using Type.
  intros Hp Hq E. pose proof (Nat.div_mod_eq p N). pose proof (Nat.div_mod_eq q N). rewrite E in *. assert (p / N = q / N \/ p / N < q / N \/ q / N < p / N)%nat as [Q | [L | L]] by lia; [rewrite Q in *; lia | nia | nia].
Qed.

Lemma power_pos : power_of_two -> (0 < N)%nat /\ Z.of_nat N < 2 ^ 64.
Proof using Type. intros (k & Hk & E). pose proof (Z.pow_pos_nonneg 2 (Z.of_nat k)). pose proof (Z.pow_lt_mono_r 2 (Z.of_nat k) 64). lia. Qed.

(** The distance of two positions, computed from their indices. *)
Lemma distance h t : power_of_two -> (t <= h <= t + N)%nat -> wrap 64 (wrap 64 (Z.of_nat h) - wrap 64 (Z.of_nat t)) = Z.of_nat (h - t).
Proof using Type.
  intros HN B. pose proof (power_pos HN). unfold wrap. rewrite <- Zminus_mod. rewrite Z.mod_small; lia.
Qed.

(** * Preservation *)

Lemma ok_same s s' : channel_ok s ->
  s'.(rg).(head) = s.(rg).(head) -> s'.(rg).(tail) = s.(rg).(tail) -> s'.(rg).(slots) = s.(rg).(slots) ->
  s'.(sent) = s.(sent) -> s'.(received) = s.(received) -> freed s' = freed s ->
  (forall p x, live s' p x <-> live s p x) -> producer_view s' -> consumer_view s' -> channel_ok s'.
Proof using Type.
  intros [H T' P R L S _ _] E1 E2 E3 E4 E5 E6 E7 Vp Vc. split; rewrite ?E1, ?E2, ?E3, ?E4, ?E5, ?E6; try done.
  intros i x. rewrite S. split; intros (p & Hi & Hl); exists p; (split; [done |]); by apply E7.
Qed.

(** A program counter at which the producer has read nothing of the ring. *)
Definition p_quiet (p : Producer T) : bool := match p with PLoadTail _ _ _ | PWrite _ _ _ | PStoreHead _ _ _ => false | _ => true end.
Definition c_quiet (c : Consumer T) : bool := match c with CLoadHead _ _ | CTake _ _ | CStoreTail _ _ _ => false | _ => true end.

Lemma send_return_quiet site res : p_quiet (send_return (T := T) site res) = true.
Proof using Type. by destruct site, res as [|[]]. Qed.

Lemma recv_return_quiet site res : c_quiet (recv_return (T := T) site res) = true.
Proof using Type. by destruct site, res as [[]|]. Qed.

Definition storing (p : Producer T) : bool := match p with PStoreHead _ _ _ => true | _ => false end.
Definition taking (c : Consumer T) : bool := match c with CStoreTail _ _ _ => true | _ => false end.

Lemma live_same s s' p x : s'.(sent) = s.(sent) -> s'.(received) = s.(received) -> storing s.(producer) = false -> storing s'.(producer) = false ->
  live s' p x <-> live s p x.
Proof using Type.
  intros E1 E2 Q Q'. unfold live. rewrite E1, E2. split; (intros [H | (_ & site & m & hd & H & _)]; [by left |]); rewrite H in *; done.
Qed.

(** A step of the producer that touches neither index nor slots. *)
Lemma producer_moves s r p pw w : channel_ok s ->
  r.(head) = s.(rg).(head) -> r.(tail) = s.(rg).(tail) -> r.(slots) = s.(rg).(slots) -> storing s.(producer) = false -> storing p = false ->
  (p_quiet p = true \/ (exists site m, p = PLoadTail site m r.(head)) \/ (exists site m, p = PWrite site m r.(head) /\ (length s.(sent) < freed s + N)%nat)) ->
  channel_ok (mk_channel r p s.(consumer) pw w s.(sent) s.(received)).
Proof using Type.
  intros I E1 E2 E3 Q Q' V. apply (ok_same s); try done.
  - intros. by apply live_same.
  - unfold producer_view. cbn [producer rg sent]. destruct V as [V | [(site & m & ->) | (site & m & -> & V)]]; [by destruct p | done | done].
  - pose proof (ok_consumer _ I) as Vc. unfold consumer_view in *. cbn [consumer rg sent received]. by rewrite E2.
Qed.

Lemma received_le s : channel_ok s -> (length s.(received) <= length s.(sent))%nat.
Proof using Type. intros I. pose proof (f_equal length (ok_prefix _ I)) as E. rewrite length_take in E. lia. Qed.

Lemma freed_le s : channel_ok s -> (freed s <= length s.(sent))%nat.
Proof using Type. intros I. pose proof (received_le s I). unfold freed. destruct s.(consumer); lia. Qed.

(** Live positions lie in one window. *)
Lemma live_window s p x : channel_ok s -> live s p x -> (freed s <= p < freed s + N)%nat.
Proof using Type.
  intros I [[L E] | (-> & site & m & hd & Ep & _)].
  - apply lookup_lt_Some in E. pose proof (ok_room _ I). unfold freed in *. destruct s.(consumer); lia.
  - pose proof (ok_producer _ I) as V. unfold producer_view in V. rewrite Ep in V. pose proof (freed_le s I). lia.
Qed.

Lemma producer_writes s site m hd r p w : power_of_two -> channel_ok s -> s.(producer) = PWrite site m hd ->
  producer_step N retag s.(rg) (PWrite site m hd) = Some (r, p, w) ->
  channel_ok (mk_channel r p s.(consumer) s.(p_woken) (s.(c_woken) ++ option_list w) s.(sent) s.(received)).
Proof using Type.
  intros HN I Ep Es. pose proof (ok_producer _ I) as V. unfold producer_view in V. rewrite Ep in V. destruct V as [-> V]. pose proof (power_pos HN) as [Np _]. pose proof (freed_le s I).
  cbn [producer_step] in Es. rewrite (ok_head _ I), slot_of_position in Es by done. set (i := (length s.(sent) mod N)%nat) in *.
  assert (Li : (i < N)%nat) by (apply Nat.mod_upper_bound; lia). destruct (s.(rg).(slots) !! i) as [old |] eqn:Eo; [| done]. injection Es as <- <- <-.
  assert (Nl : forall q x, live s q x -> (q mod N)%nat <> i).
  { intros q x Hq Eq. pose proof (live_window s q x I Hq) as Wq. assert (q = length s.(sent)) as -> by (apply (window_distinct (freed s)); [done | lia | done]).
    destruct Hq as [[_ Hq] | (_ & ? & ? & ? & Hq & _)]; [apply lookup_lt_Some in Hq; lia | congruence]. }
  assert (Lv : forall q x, live (mk_channel (set_slots s.(rg) (<[i := Some (retag m)]> s.(rg).(slots))) (PStoreHead site m (wrap 64 (Z.of_nat (length s.(sent))))) s.(consumer) s.(p_woken) (s.(c_woken) ++ option_list None) s.(sent) s.(received)) q x <->
    live s q x \/ (q = length s.(sent) /\ x = retag m)).
  { intros q x. unfold live. cbn [sent received producer]. rewrite Ep. split.
    - intros [H0 | (-> & ? & ? & ? & [= <- <- <-] & ->)]; [by left; left | by right].
    - intros [[H0 | (_ & ? & ? & ? & ? & _)] | [-> ->]]; [by left | done | right; split; [done | by eexists _, _, _]]. }
  split; try apply I; cbn [rg set_slots head tail slots sent received].
  - rewrite length_insert. apply I.
  - intros j x. destruct (decide (j = i)) as [-> | Nj].
    + rewrite list_lookup_insert_eq by (rewrite (ok_length _ I); done). split.
      * intros [= <-]. exists (length s.(sent)). split; [done |]. apply Lv. by right.
      * intros (q & Eq & [Hq | [_ ->]]%Lv); [by destruct (Nl q x Hq) | done].
    + rewrite list_lookup_insert_ne by done. rewrite (ok_slots _ I). split; intros (q & Eq & Hq); exists q; (split; [done |]); [apply Lv; by left |].
      apply Lv in Hq as [Hq | [-> _]]; [done |]. by destruct Nj.
  - unfold producer_view. cbn [producer rg head set_slots sent]. split; [by rewrite (ok_head _ I) | done].
Qed.

Lemma producer_publishes s site m hd r p w : power_of_two -> channel_ok s -> s.(producer) = PStoreHead site m hd ->
  producer_step N retag s.(rg) (PStoreHead site m hd) = Some (r, p, w) ->
  channel_ok (mk_channel r p s.(consumer) s.(p_woken) (s.(c_woken) ++ option_list w) (s.(sent) ++ [retag m]) s.(received)).
Proof using Type.
  intros HN I Ep [= <- <- <-]. pose proof (ok_producer _ I) as V. unfold producer_view in V. rewrite Ep in V. destruct V as [-> V]. pose proof (received_le s I).
  split; cbn [rg set_head head tail slots sent received]; try apply I; rewrite ?length_app; cbn [length].
  - rewrite (ok_head _ I), wrap_add_l. f_equal. lia.
  - rewrite take_app_le by done. apply I.
  - unfold freed in *. cbn [received consumer]. lia.
  - intros i x. rewrite (ok_slots _ I). assert (Lv : forall q, live s q x <-> live (mk_channel (set_head s.(rg) (wrap 64 (s.(rg).(head) + 1))) (PWake site) s.(consumer) s.(p_woken) (s.(c_woken) ++ option_list None) (s.(sent) ++ [retag m]) s.(received)) q x).
    { intros q. unfold live. cbn [sent received producer]. rewrite Ep, length_app. cbn [length]. split.
      - intros [[Lq Eq] | (-> & ? & ? & ? & [= <- <- <-] & ->)]; left; [split; [done |]; by apply lookup_app_l_Some |]. split; [lia |]. by rewrite lookup_app_r, Nat.sub_diag by lia.
      - intros [[Lq Eq] | (_ & ? & ? & ? & ? & _)]; [| done]. apply lookup_app_Some in Eq as [Eq | [Lq' Eq]]; [by left |]. apply list_lookup_singleton_Some in Eq as [Eq <-].
        right. split; [lia |]. by eexists _, _, _. }
    split; intros (q & Eq & Hq); exists q; (split; [done |]); by apply Lv.
  - unfold producer_view. done.
  - pose proof (ok_consumer _ I) as Vc. unfold consumer_view in *. cbn [consumer rg set_head tail received sent]. destruct s.(consumer); try done. rewrite length_app. simpl. split; [apply Vc | lia].
Qed.

Lemma producer_ok s s' : power_of_two -> channel_ok s -> producer_turn s = Some s' -> channel_ok s'.
Proof using Type.
  intros HN I E. unfold producer_turn in E. destruct (producer_step N retag s.(rg) s.(producer)) as [[[r p] w] |] eqn:Es; [| done]. injection E as <-.
  pose proof (ok_producer _ I) as Vp. unfold producer_view in Vp.
  destruct s.(producer) as [last | site m | site m | site m hd | site m hd | site m hd | site | cx m | | cx m | | |] eqn:Ep; cbn [producer_step] in Es; try done.
  - injection Es as <- <- <-. apply producer_moves; rewrite ?Ep; try done; [destruct (closed _); [by destruct site | done] | left; destruct (closed _); [apply send_return_quiet | done]].
  - injection Es as <- <- <-. apply producer_moves; rewrite ?Ep; try done. right. left. eauto.
  - injection Es as <- <- <-. subst hd. pose proof (ok_room _ I). assert (freed s <= length s.(sent))%nat by (by apply freed_le).
    rewrite (ok_head _ I), (ok_tail _ I), distance by (done || lia). apply producer_moves; rewrite ?Ep; try done.
    + destruct (_ <=? _); [by destruct site | done].
    + destruct (Z.leb_spec (Z.of_nat N) (Z.of_nat (length s.(sent) - freed s))); [left; apply send_return_quiet |].
      right. right. exists site, m. rewrite (ok_head _ I). split; [done | lia].
  - by apply (producer_writes s site m hd).
  - by apply (producer_publishes s site m hd).
  - injection Es as <- <- <-. apply producer_moves; rewrite ?Ep; try done; [by destruct site | left; apply send_return_quiet].
  - injection Es as <- <- <-. apply producer_moves; rewrite ?Ep; try done. by left.
  - injection Es as <- <- <-. apply producer_moves; rewrite ?Ep; try done. by left.
  - injection Es as <- <- <-. apply producer_moves; rewrite ?Ep; try done. by left.
  - injection Es as <- <- <-. apply producer_moves; rewrite ?Ep; try done. by left.
Qed.

(** A step of the consumer that touches neither index nor slots. *)
Lemma consumer_moves s r c w cw : channel_ok s ->
  r.(head) = s.(rg).(head) -> r.(tail) = s.(rg).(tail) -> r.(slots) = s.(rg).(slots) -> taking s.(consumer) = false -> taking c = false ->
  (c_quiet c = true \/ (exists site, c = CLoadHead site r.(tail)) \/ (exists site, c = CTake site r.(tail) /\ (length s.(received) < length s.(sent))%nat)) ->
  channel_ok (mk_channel r s.(producer) c w cw s.(sent) s.(received)).
Proof using Type.
  intros I E1 E2 E3 Q Q' V. assert (Fr : length s.(received) = freed s) by (unfold freed; destruct s.(consumer); done || lia).
  assert (Fr' : freed (mk_channel r s.(producer) c w cw s.(sent) s.(received)) = freed s) by (rewrite <- Fr; unfold freed; cbn [received consumer]; destruct c; done || lia).
  apply (ok_same s); try done.
  - pose proof (ok_producer _ I) as Vp. unfold producer_view in *. cbn [producer rg sent] in *. rewrite Fr'. by rewrite E1.
  - unfold consumer_view. cbn [consumer rg sent received]. destruct V as [V | [(site & ->) | (site & -> & V)]]; [by destruct c | done | done].
Qed.

Lemma consumer_takes s site tl r c w : power_of_two -> channel_ok s -> s.(consumer) = CTake site tl ->
  consumer_step N s.(rg) (CTake site tl) = Some (r, c, w) ->
  exists m, c = CStoreTail site tl m /\ w = None /\ channel_ok (mk_channel r s.(producer) c (s.(p_woken) ++ option_list w) s.(c_woken) s.(sent) (s.(received) ++ [m])).
Proof using Type.
  intros HN I Ec Es. pose proof (ok_consumer _ I) as V. unfold consumer_view in V. rewrite Ec in V. destruct V as [-> V]. pose proof (power_pos HN) as [Np _].
  assert (Fr : freed s = length s.(received)) by (unfold freed; rewrite Ec; lia). cbn [consumer_step] in Es. rewrite (ok_tail _ I), Fr, slot_of_position in Es by done.
  set (i := (length s.(received) mod N)%nat) in *. destruct (s.(rg).(slots) !! i) as [[x |] |] eqn:Eo; [| done | done]. injection Es as <- <- <-. exists x. split; [by rewrite (ok_tail _ I), Fr |]. split; [done |].
  assert (Hx : s.(sent) !! length s.(received) = Some x).
  { apply (ok_slots _ I) in Eo as (q & Eq & Hq). pose proof (live_window s q x I Hq) as Wq. assert (q = length s.(received)) as -> by (apply (window_distinct (freed s)); [done | lia | done]).
    destruct Hq as [[_ Hq] | (Hq & _)]; [done | lia]. }
  set (s' := mk_channel _ _ _ _ _ _ _). assert (Fr' : freed s' = freed s) by (unfold freed, s'; cbn [received consumer]; rewrite length_app, Ec; simpl; lia).
  assert (Lv : forall q y, live s' q y <-> live s q y /\ q <> length s.(received)).
  { intros q y. unfold live, s'. cbn [sent received producer]. rewrite length_app. cbn [length]. split.
    - intros [[Lq Eq] | (-> & Hq)]; (split; [| lia]); [left | right]; auto with lia.
    - intros [[[Lq Eq] | Hq] Nq]; [left; split; [lia | done] | by right]. }
  assert (Dx : forall q y, live s q y -> (q mod N)%nat = i -> q = length s.(received)).
  { intros q y Hq Eq. apply (window_distinct (freed s)); [by eapply live_window | lia | done]. }
  split; rewrite ?Fr'; unfold s'; cbn [rg set_slots head tail slots sent received]; try apply I.
  - rewrite length_app. cbn [length]. rewrite Nat.add_1_r, (take_S_r _ _ x) by done. f_equal. apply I.
  - rewrite length_insert. apply I.
  - intros j y. destruct (decide (j = i)) as [-> | Nj].
    + rewrite list_lookup_insert_eq by (by eapply lookup_lt_Some). split; [done |]. intros (q & Eq & [Hq Nq]%Lv). by destruct Nq; apply (Dx q y).
    + rewrite list_lookup_insert_ne by done. rewrite (ok_slots _ I). split; intros (q & Eq & Hq); exists q; (split; [done |]); [apply Lv; split; [done |]; by intros -> | by apply Lv in Hq as [Hq _]].
  - pose proof (ok_producer _ I) as Vp. unfold producer_view in *. cbn [producer rg sent set_slots head]. fold s'. by rewrite Fr'.
  - unfold consumer_view. cbn [consumer rg set_slots tail received]. rewrite length_app. simpl. split; [by rewrite (ok_tail _ I), Fr | lia].
Qed.

Lemma consumer_frees s site tl m r c w : channel_ok s -> s.(consumer) = CStoreTail site tl m ->
  consumer_step N s.(rg) (CStoreTail site tl m) = Some (r, c, w) ->
  channel_ok (mk_channel r s.(producer) c (s.(p_woken) ++ option_list w) s.(c_woken) s.(sent) s.(received)).
Proof using Type.
  intros I Ec [= <- <- <-]. pose proof (ok_consumer _ I) as V. unfold consumer_view in V. rewrite Ec in V. destruct V as [-> V].
  set (s' := mk_channel _ _ _ _ _ _ _). assert (Fr' : freed s' = S (freed s)) by (unfold freed, s'; cbn [received consumer]; rewrite Ec; lia). pose proof (ok_room _ I).
  split; rewrite ?Fr'; unfold s'; cbn [rg set_tail head tail slots sent received]; try apply I.
  - rewrite (ok_tail _ I), wrap_add_l. f_equal. lia.
  - lia.
  - pose proof (ok_producer _ I) as Vp. unfold producer_view in *. cbn [producer rg sent set_tail head]. fold s'. rewrite Fr'. destruct s.(producer); try done; split; (apply Vp || lia).
  - done.
Qed.

(** The consumer's test for an empty ring. *)
Lemma head_is_tail s : power_of_two -> channel_ok s -> taking s.(consumer) = false ->
  (s.(rg).(head) =? s.(rg).(tail)) = (length s.(sent) =? length s.(received))%nat.
Proof using Type.
  intros HN I Q. assert (Fr : freed s = length s.(received)) by (unfold freed; destruct s.(consumer); done || lia). pose proof (ok_room _ I). pose proof (received_le s I). pose proof (power_pos HN).
  rewrite (ok_head _ I), (ok_tail _ I), Fr. pose proof (distance (length s.(sent)) (length s.(received)) HN ltac:(lia)) as D.
  destruct (Nat.eqb_spec (length s.(sent)) (length s.(received))) as [-> | Ne]; [apply Z.eqb_refl |]. apply Z.eqb_neq. intros Eq. rewrite Eq, Z.sub_diag in D. unfold wrap in D. rewrite Z.mod_0_l in D; lia.
Qed.

Lemma consumer_ok s s' : power_of_two -> channel_ok s -> consumer_turn s = Some s' -> channel_ok s'.
Proof using Type.
  intros HN I E. unfold consumer_turn in E. destruct (consumer_step N s.(rg) s.(consumer)) as [[[r c] w] |] eqn:Es; [| done]. injection E as <-.
  pose proof (ok_consumer _ I) as Vc. unfold consumer_view in Vc.
  destruct s.(consumer) as [last | site | site tl | site | site tl | site tl m | site m | cx | m | cx | | |] eqn:Ec; cbn [consumer_step] in Es; try done.
  - injection Es as <- <- <-. apply consumer_moves; rewrite ?Ec; try done. right. left. eauto.
  - injection Es as <- <- <-. subst tl. assert (Fr : freed s = length s.(received)) by (unfold freed; rewrite Ec; lia). pose proof (ok_room _ I). pose proof (received_le s I). pose proof (power_pos HN).
    rewrite (head_is_tail s HN I) by (by rewrite Ec). destruct (Nat.eqb_spec (length s.(sent)) (length s.(received))).
    + apply consumer_moves; rewrite ?Ec; try done; [by destruct site | left; by destruct site].
    + apply consumer_moves; rewrite ?Ec; try done. right. right. exists site. split; [done | lia].
  - injection Es as <- <- <-. apply consumer_moves; rewrite ?Ec; try done; [by destruct site, (closed _) | left; apply recv_return_quiet].
  - destruct (consumer_takes s site tl r c w HN I Ec Es) as (m & -> & -> & I'). exact I'.
  - by apply (consumer_frees s site tl m).
  - injection Es as <- <- <-. apply consumer_moves; rewrite ?Ec; try done; [by destruct site | left; apply recv_return_quiet].
  - injection Es as <- <- <-. apply consumer_moves; rewrite ?Ec; try done. by left.
  - injection Es as <- <- <-. apply consumer_moves; rewrite ?Ec; try done. by left.
  - injection Es as <- <- <-. apply consumer_moves; rewrite ?Ec; try done. by left.
  - injection Es as <- <- <-. apply consumer_moves; rewrite ?Ec; try done. by left.
Qed.

Lemma start_ok : power_of_two -> channel_ok start.
Proof using Type.
  intros HN. split; try done.
  - unfold start. cbn. lia.
  - apply length_replicate.
  - intros i x. cbn. rewrite lookup_replicate. split; [by intros [? ?] |]. intros (p & _ & [[_ E] | (_ & ? & ? & ? & E & _)]); [change ([] !! p = Some x) in E; by rewrite lookup_nil in E | done].
Qed.

Lemma step_ok s s' : power_of_two -> channel_ok s -> step s s' -> channel_ok s'.
Proof using Type.
  intros HN I []; [by eapply producer_ok | by eapply consumer_ok | | | | | | | | | | | | ].
  all: match goal with E : producer _ = _ |- _ => apply producer_moves; rewrite ?E; try done; by left | E : consumer _ = _ |- _ => apply consumer_moves; rewrite ?E; try done; by left end.
Qed.

(** * Wakeups *)

(** The producer's task [cx] is woken, or its waker is in place. *)
Definition p_registered s cx : Prop := cx ∈ s.(p_woken) \/ s.(rg).(producer_waker) = Some cx.
Definition c_registered s cx : Prop := cx ∈ s.(c_woken) \/ s.(rg).(consumer_waker) = Some cx.

(** If the ring was closed, the end that closed it has woken [cx] or is about
    to. *)
Definition p_told_closed s cx : Prop := s.(rg).(closed) = true -> s.(consumer) = CDropWake \/ cx ∈ s.(p_woken).
Definition c_told_closed s cx : Prop := s.(rg).(closed) = true -> s.(producer) = PDropWake \/ cx ∈ s.(c_woken).

(** The ring is full, or empty, unless [cx] was woken or is about to be. *)
Definition p_told_room s cx : Prop := length s.(sent) = (freed s + N)%nat \/ (exists site m, s.(consumer) = CWake site m) \/ cx ∈ s.(p_woken).
Definition c_told_message s cx : Prop := length s.(sent) = length s.(received) \/ (exists site, s.(producer) = PWake site) \/ cx ∈ s.(c_woken).

Definition p_hears s : Prop :=
  match s.(producer) with
  | PLoadClosed (SendSecond cx) _ => p_registered s cx
  | PLoadHead (SendSecond cx) _ | PLoadTail (SendSecond cx) _ _ => p_registered s cx /\ p_told_closed s cx
  | PPending cx _ => p_registered s cx /\ p_told_closed s cx /\ p_told_room s cx
  | _ => True
  end.

Definition c_hears s : Prop :=
  match s.(consumer) with
  | CLoadTail (RecvSecond cx) | CLoadHead (RecvSecond cx) _ => c_registered s cx
  | CLoadClosed (RecvSecond cx) => c_registered s cx /\ c_told_message s cx
  | CPending cx => c_registered s cx /\ c_told_message s cx /\ c_told_closed s cx
  | _ => True
  end.

(** What the producer's task relies on, kept by a change that wakes nobody it
    should not, or that wakes it. *)
Definition p_keeps s s' cx : Prop :=
  p_registered s' cx /\ (p_told_closed s cx -> p_told_closed s' cx) /\ (p_told_room s cx -> p_told_room s' cx).

Definition c_keeps s s' cx : Prop :=
  c_registered s' cx /\ (c_told_closed s cx -> c_told_closed s' cx) /\ (c_told_message s cx -> c_told_message s' cx).

Lemma p_keeps_frame s s' cx : p_registered s cx ->
  s'.(p_woken) = s.(p_woken) -> s'.(rg).(producer_waker) = s.(rg).(producer_waker) -> s'.(rg).(closed) = s.(rg).(closed) ->
  s'.(sent) = s.(sent) -> freed s' = freed s -> match s.(consumer) with CWake _ _ | CDropWake => False | _ => True end -> p_keeps s s' cx.
Proof using Type.
  intros R E1 E2 E3 E4 E5 Q. unfold p_keeps, p_registered, p_told_closed, p_told_room. rewrite E1, E2, E3, E4, E5.
  split; [done |]. split; [intros H C | intros H]; [destruct (H C) as [Hc | ?] | destruct H as [? | [(site & m & Hc) | ?]]]; auto; by rewrite Hc in Q.
Qed.

Lemma p_keeps_woken s s' cx : cx ∈ s'.(p_woken) -> p_keeps s s' cx.
Proof using Type. intros W. split; [by left |]. split; [intros _ _; by right | intros _; right; by right]. Qed.

Lemma c_keeps_frame s s' cx : c_registered s cx ->
  s'.(c_woken) = s.(c_woken) -> s'.(rg).(consumer_waker) = s.(rg).(consumer_waker) -> s'.(rg).(closed) = s.(rg).(closed) ->
  s'.(sent) = s.(sent) -> s'.(received) = s.(received) -> match s.(producer) with PWake _ | PDropWake => False | _ => True end -> c_keeps s s' cx.
Proof using Type.
  intros R E1 E2 E3 E4 E5 Q. unfold c_keeps, c_registered, c_told_closed, c_told_message. rewrite E1, E2, E3, E4, E5.
  split; [done |]. split; [intros H C | intros H]; [destruct (H C) as [Hc | ?] | destruct H as [? | [(site & Hc) | ?]]]; auto; by rewrite Hc in Q.
Qed.

Lemma c_keeps_woken s s' cx : cx ∈ s'.(c_woken) -> c_keeps s s' cx.
Proof using Type. intros W. split; [by left |]. split; [intros _ _; by right | intros _; right; by right]. Qed.

Lemma consumer_tells s s' cx : channel_ok s -> consumer_turn s = Some s' -> p_registered s cx -> p_keeps s s' cx.
Proof using Type.
  intros I E R. pose proof (ok_consumer _ I) as V. unfold consumer_view in V. unfold consumer_turn in E.
  destruct (consumer_step N s.(rg) s.(consumer)) as [[[r c] w] |] eqn:Es; [| done]. injection E as <-.
  assert (Wk : w = s.(rg).(producer_waker) -> cx ∈ s.(p_woken) ++ option_list w).
  { intros ->. apply elem_of_app. destruct R as [R | R]; [by left |]. right. rewrite R. by constructor. }
  destruct s.(consumer) as [last | site | site tl | site | site tl | site tl m | site m | cx' | m | cx' | | |] eqn:Ec; cbn [consumer_step] in Es; try done.
  all: try (destruct (s.(rg).(slots) !! slot_of N tl) as [[x |] |]; [| done | done]).
  all: injection Es as <- <- <-.
  all: try (apply p_keeps_frame; rewrite ?Ec; cbn [rg set_slots set_consumer_waker p_woken sent option_list]; rewrite ?app_nil_r; try done; unfold freed; cbn [received consumer]; rewrite Ec, ?length_app; simpl; lia || (by destruct site) || (destruct (_ =? _); [by destruct site | done]) || (destruct (closed _); by destruct site)).
  all: try (apply p_keeps_woken; by apply Wk).
  - unfold p_keeps, p_registered, p_told_closed, p_told_room. cbn [rg set_tail producer_waker closed p_woken consumer option_list]. rewrite app_nil_r, Ec.
    split; [done |]. split; [intros H C; destruct (H C) as [|]; [done | by right] | intros _; right; left; eauto].
  - unfold p_keeps, p_registered, p_told_closed, p_told_room. cbn [rg set_closed producer_waker closed p_woken consumer sent option_list]. rewrite app_nil_r, Ec.
    split; [done |]. split; [by left |]. intros [H | [(? & ? & H) | H]]; [left; unfold freed in *; cbn [received consumer]; by rewrite Ec in H | done | by right; right].
Qed.

Lemma producer_tells s s' cx : producer_turn s = Some s' -> c_registered s cx -> c_keeps s s' cx.
Proof using Type.
  intros E R. unfold producer_turn in E. destruct (producer_step N retag s.(rg) s.(producer)) as [[[r p] w] |] eqn:Es; [| done]. injection E as <-.
  assert (Wk : w = s.(rg).(consumer_waker) -> cx ∈ s.(c_woken) ++ option_list w).
  { intros ->. apply elem_of_app. destruct R as [R | R]; [by left |]. right. rewrite R. by constructor. }
  destruct s.(producer) as [last | site m | site m | site m hd | site m hd | site m hd | site | cx' m | | cx' m | | |] eqn:Ep; cbn [producer_step] in Es; try done.
  all: try (destruct (s.(rg).(slots) !! slot_of N hd); [| done]).
  all: injection Es as <- <- <-.
  all: try (apply c_keeps_frame; rewrite ?Ep; cbn [rg set_slots set_producer_waker c_woken sent received option_list]; rewrite ?app_nil_r; done).
  all: try (apply c_keeps_woken; by apply Wk).
  - unfold c_keeps, c_registered, c_told_closed, c_told_message. cbn [rg set_head consumer_waker closed c_woken producer option_list]. rewrite app_nil_r, Ep.
    split; [done |]. split; [intros H C; destruct (H C) as [|]; [done | by right] | intros _; right; left; eauto].
  - unfold c_keeps, c_registered, c_told_closed, c_told_message. cbn [rg set_closed consumer_waker closed c_woken producer sent received option_list]. rewrite app_nil_r, Ep.
    split; [done |]. split; [by left |]. intros [H | [(? & H) | H]]; [by left | done | by right; right].
Qed.

Lemma p_hears_keeps s s' : s'.(producer) = s.(producer) -> (forall cx, p_registered s cx -> p_keeps s s' cx) -> p_hears s -> p_hears s'.
Proof using Type.
  intros E K H. unfold p_hears in *. rewrite E. destruct s.(producer) as [| [| | |cx] ? | [| | |cx] ? | [| | |cx] ? ? | | | | | | cx ? | | |]; try done.
  - by apply K.
  - destruct H as [R C]. destruct (K cx R) as (? & ? & _). auto.
  - destruct H as [R C]. destruct (K cx R) as (? & ? & _). auto.
  - destruct H as (R & C & M). destruct (K cx R) as (? & ? & ?). auto.
Qed.

Lemma c_hears_keeps s s' : s'.(consumer) = s.(consumer) -> (forall cx, c_registered s cx -> c_keeps s s' cx) -> c_hears s -> c_hears s'.
Proof using Type.
  intros E K H. unfold c_hears in *. rewrite E. destruct s.(consumer) as [| [| | |cx] | [| | |cx] ? | [| | |cx] | | | | | | cx | | |]; try done.
  - by apply K.
  - by apply K.
  - destruct H as [R C]. destruct (K cx R) as (? & ? & ?). auto.
  - destruct H as (R & C & M). destruct (K cx R) as (? & ? & ?). auto.
Qed.

Lemma producer_hears s s' : power_of_two -> channel_ok s -> p_hears s -> producer_turn s = Some s' -> p_hears s'.
Proof using Type.
  intros HN I H E. pose proof (ok_producer _ I) as V. unfold producer_view in V. unfold p_hears in H. unfold producer_turn in E.
  destruct (producer_step N retag s.(rg) s.(producer)) as [[[r p] w] |] eqn:Es; [| done]. injection E as <-. unfold p_hears. cbn [producer].
  destruct s.(producer) as [last | site m | site m | site m hd | site m hd | site m hd | site | cx' m | | cx' m | | |] eqn:Ep; cbn [producer_step] in Es; try done.
  all: try (destruct (s.(rg).(slots) !! slot_of N hd); [| done]).
  all: injection Es as <- <- <-; try done.
  - destruct (closed (rg s)) eqn:C; destruct site as [| | |cx]; try done. split; [exact H |]. unfold p_told_closed. cbn [rg]. by rewrite C.
  - subst hd. pose proof (ok_room _ I). pose proof (freed_le s I). rewrite (ok_head _ I), (ok_tail _ I), distance by (done || lia).
    destruct (Z.leb_spec (Z.of_nat N) (Z.of_nat (length s.(sent) - freed s))); destruct site as [| | |cx]; try done.
    destruct H as [R C]. split; [exact R | split; [exact C |]]. left. change (length s.(sent) = freed s + N)%nat. lia.
  - by destruct site.
  - right. done.
Qed.

Lemma consumer_hears s s' : power_of_two -> channel_ok s -> c_hears s -> consumer_turn s = Some s' -> c_hears s'.
Proof using Type.
  intros HN I H E. pose proof (ok_consumer _ I) as V. unfold consumer_view in V. unfold c_hears in H. unfold consumer_turn in E.
  destruct (consumer_step N s.(rg) s.(consumer)) as [[[r c] w] |] eqn:Es; [| done]. injection E as <-. unfold c_hears. cbn [consumer].
  destruct s.(consumer) as [last | site | site tl | site | site tl | site tl m | site m | cx' | m | cx' | | |] eqn:Ec; cbn [consumer_step] in Es; try done.
  all: try (destruct (s.(rg).(slots) !! slot_of N tl) as [[x |] |]; [| done | done]).
  all: injection Es as <- <- <-; try done.
  - subst tl. rewrite (head_is_tail s HN I ltac:(by rewrite Ec)). destruct (Nat.eqb_spec (length s.(sent)) (length s.(received))); destruct site as [| | |cx]; try done. split; [exact H |]. by left.
  - destruct (closed (rg s)) eqn:C; destruct site as [| | |cx]; try done. destruct H as [R M]. split; [exact R | split; [exact M |]]. unfold c_told_closed. cbn [rg]. by rewrite C.
  - by destruct site.
  - right. done.
Qed.

Lemma step_hears s s' : power_of_two -> channel_ok s -> p_hears s -> c_hears s -> step s s' -> p_hears s' /\ c_hears s'.
Proof using Type.
  intros HN I P C []; match goal with
    | E : producer_turn _ = Some _ |- _ => split; [by eapply producer_hears |]; apply (c_hears_keeps s); [| | done]; [| intros; by eapply producer_tells]; unfold producer_turn in E; destruct (producer_step _ _ _ _) as [[[? ?] ?] |]; [| done]; by injection E as <-
    | E : consumer_turn _ = Some _ |- _ => split; [| by eapply consumer_hears]; apply (p_hears_keeps s); [| | done]; [| intros; by eapply consumer_tells]; unfold consumer_turn in E; destruct (consumer_step _ _ _) as [[[? ?] ?] |]; [| done]; by injection E as <-
    | E : producer _ = _ |- _ => split; [done |]; apply (c_hears_keeps s); [done | | done]; intros; apply c_keeps_frame; try done; by rewrite E
    | E : consumer _ = _ |- _ => split; [| done]; apply (p_hears_keeps s); [done | | done]; intros; apply p_keeps_frame; try done; [unfold freed; cbn [received consumer with_consumer]; by rewrite E | by rewrite E]
    end.
Qed.

Lemma reachable_ok s : power_of_two -> reachable s -> channel_ok s /\ p_hears s /\ c_hears s.
Proof using Type.
  intros HN. induction 1 as [| s s' _ (I & P & C) St]; [split; [by apply start_ok | done] |].
  split; [by eapply step_ok | by eapply step_hears].
Qed.

(** [Ring::drop] destroys what was not received. *)
Lemma drop_loop_ok fuel sl (q : list T) i : power_of_two -> (length q < fuel)%nat -> (length q <= N)%nat ->
  (forall j x, q !! j = Some x -> sl !! ((i + j) mod N)%nat = Some (Some x)) ->
  drop_loop N fuel sl (wrap 64 (Z.of_nat i)) (wrap 64 (Z.of_nat (i + length q))) = Some q.
Proof using Type.
  intros HN. pose proof (power_pos HN) as [Np Nw]. revert sl i q. induction fuel as [| fuel IH]; intros sl i q F L S; [lia |]. cbn [drop_loop].
  pose proof (distance (i + length q) i HN ltac:(lia)) as D. destruct q as [| x q]; [cbn [length]; by rewrite Nat.add_0_r, Z.eqb_refl |]. simpl in F, L, D.
  rewrite (proj2 (Z.eqb_neq _ _)).
  2:{ intros E. simpl in E. rewrite E, Z.sub_diag in D. unfold wrap in D. rewrite Z.mod_0_l in D; lia. }
  rewrite slot_of_position by done. pose proof (S 0%nat x eq_refl) as E0. rewrite Nat.add_0_r in E0. rewrite E0. cbn iota beta.
  rewrite wrap_add_l. replace (Z.of_nat i + 1) with (Z.of_nat (Datatypes.S i)) by lia. cbn [length]. rewrite <- Nat.add_succ_comm.
  rewrite (IH _ (Datatypes.S i) q); [done | lia | lia |]. intros j y Ej. pose proof (lookup_lt_Some _ _ _ Ej).
  rewrite list_lookup_insert_ne; [rewrite Nat.add_succ_comm; by apply (S (Datatypes.S j)) |].
  intros Eq. apply (window_distinct i) in Eq; lia.
Qed.

Lemma drop_ring_ok s : power_of_two -> channel_ok s -> storing s.(producer) = false -> taking s.(consumer) = false ->
  drop_ring N s.(rg) = Some (drop (length s.(received)) s.(sent)).
Proof using Type.
  intros HN I Q Q'. assert (Fr : freed s = length s.(received)) by (unfold freed; destruct s.(consumer); done || lia). pose proof (received_le s I). pose proof (ok_room _ I).
  unfold drop_ring. rewrite (ok_head _ I), (ok_tail _ I), Fr. replace (length s.(sent)) with (length s.(received) + length (drop (length s.(received)) s.(sent)))%nat at 1 by (rewrite length_drop; lia).
  apply drop_loop_ok; try done; try (rewrite length_drop; lia). intros j x E. rewrite lookup_drop in E. apply (ok_slots _ I). exists (length s.(received) + j)%nat. split; [done |]. left. split; [lia | done].
Qed.

Lemma write_slot s site m hd : power_of_two -> channel_ok s -> s.(producer) = PWrite site m hd -> s.(rg).(slots) !! slot_of N hd = Some None.
Proof using Type.
  intros HN I Ep. pose proof (ok_producer _ I) as V. unfold producer_view in V. rewrite Ep in V. destruct V as [-> V]. pose proof (power_pos HN) as [Np _]. pose proof (freed_le s I).
  rewrite (ok_head _ I), slot_of_position by done. assert (Li : (length s.(sent) mod N < length s.(rg).(slots))%nat) by (rewrite (ok_length _ I); apply Nat.mod_upper_bound; lia).
  destruct (lookup_lt_is_Some_2 _ _ Li) as [[x |] Ex]; [| done]. exfalso. apply (ok_slots _ I) in Ex as (q & Eq & Hq). pose proof (live_window s q x I Hq).
  assert (q = length s.(sent)) as -> by (apply (window_distinct (freed s)); [done | lia | done]). destruct Hq as [[_ Hq] | (_ & ? & ? & ? & Hq & _)]; [apply lookup_lt_Some in Hq; lia | congruence].
Qed.

Lemma take_slot s site tl : power_of_two -> channel_ok s -> s.(consumer) = CTake site tl ->
  exists x, s.(rg).(slots) !! slot_of N tl = Some (Some x) /\ s.(sent) !! length s.(received) = Some x.
Proof using Type.
  intros HN I Ec. pose proof (ok_consumer _ I) as V. unfold consumer_view in V. rewrite Ec in V. destruct V as [-> V].
  destruct (lookup_lt_is_Some_2 _ _ V) as [x Ex]. exists x. split; [| done]. assert (Fr : freed s = length s.(received)) by (unfold freed; rewrite Ec; lia).
  rewrite (ok_tail _ I), Fr, slot_of_position by done. apply (ok_slots _ I). exists (length s.(received)). split; [done |]. by left.
Qed.

Lemma producer_turns s : power_of_two -> channel_ok s -> match s.(producer) with PIdle _ | PPending _ _ | PGone => False | _ => True end -> producer_turn s <> None.
Proof using Type.
  intros HN I Rn. unfold producer_turn. destruct s.(producer) eqn:Ep; try done. cbn [producer_step]. by rewrite (write_slot s site m hd HN I Ep).
Qed.

Lemma consumer_turns s : power_of_two -> channel_ok s -> match s.(consumer) with CIdle _ | CPending _ | CGone => False | _ => True end -> consumer_turn s <> None.
Proof using Type.
  intros HN I Rn. unfold consumer_turn. destruct s.(consumer) eqn:Ec; try done. cbn [consumer_step]. destruct (take_slot s site tl HN I Ec) as (x & -> & _). done.
Qed.

Lemma p_unwoken s cx m : p_hears s -> s.(producer) = PPending cx m -> cx ∉ s.(p_woken) ->
  s.(rg).(producer_waker) = Some cx /\
  ((exists site m', s.(consumer) = CWake site m') \/ s.(consumer) = CDropWake \/ (length s.(sent) = freed s + N)%nat /\ s.(rg).(closed) = false).
Proof using Type.
  intros H Ep Nw. unfold p_hears in H. rewrite Ep in H. destruct H as (R & C & M). split; [by destruct R |]. destruct M as [M | [M | M]]; [| by left | done].
  right. unfold p_told_closed in C. destruct (closed s.(rg)); [left; by destruct (C eq_refl) | by right].
Qed.

Lemma c_unwoken s cx : channel_ok s -> c_hears s -> s.(consumer) = CPending cx -> cx ∉ s.(c_woken) ->
  s.(rg).(consumer_waker) = Some cx /\
  ((exists site, s.(producer) = PWake site) \/ s.(producer) = PDropWake \/ s.(sent) = s.(received) /\ s.(rg).(closed) = false).
Proof using Type.
  intros I H Ec Nw. unfold c_hears in H. rewrite Ec in H. destruct H as (R & M & C). split; [by destruct R |]. destruct M as [M | [M | M]]; [| by left | done].
  right. unfold c_told_closed in C. destruct (closed s.(rg)); [left; by destruct (C eq_refl) |]. right. split; [| done]. rewrite (ok_prefix _ I), <- M. by rewrite firstn_all.
Qed.

(** * Properties of the ring *)

Definition p_running (p : Producer T) : bool := match p with PIdle _ | PPending _ _ | PGone => false | _ => true end.
Definition c_running (c : Consumer T) : bool := match c with CIdle _ | CPending _ | CGone => false | _ => true end.

(** C10: The ring is a bounded queue.  In every interleaving of the two ends,
    through any number of wrap-arounds of the 64-bit indices, what was received
    is an initial part of what was sent, in order, and the rest, never more than
    the capacity, is in the ring; a method under way always has a next step, so
    no uninitialised slot is read; and once both ends are gone, dropping the ring
    destroys exactly the messages that were not received. *)
Theorem spsc_ring_is_queue s : power_of_two -> reachable s ->
  exists queue, s.(sent) = s.(received) ++ queue /\ (length queue <= N)%nat /\
    (p_running s.(producer) = true -> producer_turn s <> None) /\
    (c_running s.(consumer) = true -> consumer_turn s <> None) /\
    (s.(producer) = PGone -> s.(consumer) = CGone -> drop_ring N s.(rg) = Some queue).
Proof using Type.
  intros HN R. destruct (reachable_ok s HN R) as (I & _ & _). exists (drop (length s.(received)) s.(sent)). split; [rewrite (ok_prefix _ I) at 1; by rewrite take_drop |].
  split; [rewrite length_drop; pose proof (ok_room _ I); unfold freed in *; destruct s.(consumer); lia |]. split; [intros Rn; apply producer_turns; [done | done |]; by destruct s.(producer) | split; [intros Rn; apply consumer_turns; [done | done |]; by destruct s.(consumer) |]].
  intros Ep Ec. apply drop_ring_ok; rewrite ?Ep, ?Ec; done.
Qed.

(** The two ends never touch the same slot.  Whenever the producer is about
    to write a payload, its slot is empty, so no message is overwritten; whenever
    the consumer is about to take one, its slot holds the message next in order;
    and when both are about to, the slots differ. *)
Lemma spsc_slots_exclusive s : power_of_two -> reachable s ->
  (forall site m hd, s.(producer) = PWrite site m hd -> s.(rg).(slots) !! slot_of N hd = Some None) /\
  (forall site tl, s.(consumer) = CTake site tl -> exists x, s.(rg).(slots) !! slot_of N tl = Some (Some x) /\ s.(sent) !! length s.(received) = Some x) /\
  (forall site m hd site' tl, s.(producer) = PWrite site m hd -> s.(consumer) = CTake site' tl -> slot_of N hd <> slot_of N tl).
Proof using Type.
  intros HN R. destruct (reachable_ok s HN R) as (I & _ & _).
  assert (A : forall site m hd, s.(producer) = PWrite site m hd -> s.(rg).(slots) !! slot_of N hd = Some None) by (intros; by eapply write_slot).
  assert (B : forall site tl, s.(consumer) = CTake site tl -> exists x, s.(rg).(slots) !! slot_of N tl = Some (Some x) /\ s.(sent) !! length s.(received) = Some x) by (intros; by eapply take_slot).
  split; [exact A | split; [exact B |]]. intros site m hd site' tl Ep Ec E. destruct (B _ _ Ec) as (x & Ex & _). rewrite <- E, (A _ _ _ Ep) in Ex. done.
Qed.

(** C28: No wakeup is lost.  A send future that is pending and not woken has its
    waker in place, and either the ring is full and open or the consumer is about
    to take the waker and call it; a receive future likewise, with an empty ring;
    and the two are never pending and unwoken together. *)
Theorem spsc_no_lost_wakeup s : power_of_two -> reachable s ->
  (forall cx m, s.(producer) = PPending cx m -> (cx ∉ s.(p_woken)) ->
     s.(rg).(producer_waker) = Some cx /\
     ((exists site m', s.(consumer) = CWake site m') \/ s.(consumer) = CDropWake \/
      (length s.(sent) = freed s + N)%nat /\ s.(rg).(closed) = false)) /\
  (forall cx, s.(consumer) = CPending cx -> (cx ∉ s.(c_woken)) ->
     s.(rg).(consumer_waker) = Some cx /\
     ((exists site, s.(producer) = PWake site) \/ s.(producer) = PDropWake \/
      s.(sent) = s.(received) /\ s.(rg).(closed) = false)) /\
  ~ (exists cx m cx', s.(producer) = PPending cx m /\ (cx ∉ s.(p_woken)) /\ s.(consumer) = CPending cx' /\ (cx' ∉ s.(c_woken))).
Proof using Type.
  intros HN R. destruct (reachable_ok s HN R) as (I & P & C). pose proof (fun cx m => p_unwoken s cx m P) as Hp. pose proof (fun cx => c_unwoken s cx I C) as Hc. split; [exact Hp | split; [exact Hc |]].
  intros (cx & m & cx' & Ep & Np & Ec & Nc). destruct (Hp _ _ Ep Np) as (_ & [(? & ? & H) | [H | [F _]]]); [congruence | congruence |].
  destruct (Hc _ Ec Nc) as (_ & [(? & H) | [H | [E _]]]); [congruence | congruence |]. unfold freed in F. rewrite Ec, E in F. pose proof (power_pos HN). lia.
Qed.
(** A schedule: whose turn it is. *)
Fixpoint turns (l : list bool) s : option Channel :=
  match l with [] => Some s | b :: l => let* next := if b then producer_turn s else consumer_turn s in turns l next end.

Lemma turns_reachable l s s' : reachable s -> turns l s = Some s' -> reachable s'.
Proof using Type.
  revert s. induction l as [| b l IH]; intros s R E; simpl in E; [by injection E as <- |].
  destruct b; [destruct (producer_turn s) as [s1 |] eqn:E1 | destruct (consumer_turn s) as [s1 |] eqn:E1]; try done; apply (IH s1); try done; apply (reachable_step s); try done; [by apply step_producer | by apply step_consumer].
Qed.
End Channel.
Arguments Channel : clear implicits.

(** * Runs *)

(** The consumer has found the ring empty and is about to look at [closed]; then
    the producer has sent a message; then it is gone and the consumer looks. *)
Definition found_empty : Channel Z := mk_channel (mk_ring 0 0 false None None [None; None]) (PIdle None) (CLoadClosed RecvCall) [] [] [] [].
Definition sent_one : Channel Z :=
  mk_channel (mk_ring 1 0 false None None [Some 7; None]) (PIdle (Some (SendReturned (Ok tt)))) (CLoadClosed RecvCall) [] [] [7] [].
Definition told_closed : Channel Z :=
  mk_channel (mk_ring 1 0 true None None [Some 7; None]) PGone (CIdle (Some (RecvReturned (Err RecvError.Closed)))) [] [] [7] [].

(** The producer is about to write; a receiver waits. *)
Definition about_to_write : Channel Z := mk_channel (mk_ring 0 0 false None None [None; None]) (PWrite SendCall 7 0) (CLoadClosed RecvCall) [] [] [] [].
Definition waiting : Channel Z := mk_channel (mk_ring 0 0 false None (Some 1%nat) [None; None]) (PIdle None) (CPending 1%nat) [] [] [] [].

Lemma found_empty_reachable : reachable 2 id found_empty.
Proof.
  apply (turns_reachable 2 id [false; false] (with_consumer (start 2) (CLoadTail RecvCall) [])); [| reflexivity].
  apply (reachable_step _ _ (start 2)); [apply reachable_start |]. exact (step_try_recv 2 id (start 2) None eq_refl).
Qed.

Lemma sent_one_reachable : reachable 2 id sent_one.
Proof.
  apply (turns_reachable 2 id [true; true; true; true; true; true] (with_producer found_empty (PLoadClosed SendCall 7) [])); [| reflexivity].
  apply (reachable_step _ _ found_empty); [apply found_empty_reachable |]. exact (step_try_send 2 id found_empty None 7 eq_refl).
Qed.

Lemma about_to_write_reachable : reachable 2 id about_to_write.
Proof.
  apply (turns_reachable 2 id [true; true; true] (with_producer found_empty (PLoadClosed SendCall 7) [])); [| reflexivity].
  apply (reachable_step _ _ found_empty); [apply found_empty_reachable |]. exact (step_try_send 2 id found_empty None 7 eq_refl).
Qed.

Lemma waiting_reachable : reachable 2 id waiting.
Proof.
  apply (turns_reachable 2 id [false; false; false; false; false; false; false] (with_consumer (start 2) (CLoadTail (RecvFirst 1%nat)) [1%nat])); [| reflexivity].
  apply (reachable_step _ _ (start 2)); [apply reachable_start |]. exact (step_recv 2 id (start 2) None 1%nat eq_refl).
Qed.

(** C37: A receive can report [Closed] while a message is in the ring: the
    consumer reads an empty ring, then the producer sends and is dropped, then
    the consumer reads the flag.  The message was sent and never received. *)
Theorem spsc_closed_before_drained :
  exists s : Channel Z, reachable 2 id s /\ s.(consumer) = CIdle (Some (RecvReturned (Err RecvError.Closed))) /\
    s.(sent) = [7] /\ s.(received) = [] /\ s.(producer) = PGone.
Proof.
  exists told_closed. split; [| split_and!; reflexivity].
  apply (turns_reachable 2 id [true; true; false] (with_producer sent_one PDropClose [])); [| reflexivity].
  apply (reachable_step _ _ sent_one); [apply sent_one_reachable |]. exact (step_producer_drop 2 id sent_one _ eq_refl).
Qed.

Lemma two_is_power : power_of_two 2.
Proof. exists 1%nat. split; [lia | done]. Qed.

Lemma spsc_ring_is_queue_witness : exists queue, [7] = [] ++ queue /\ (length queue <= 2)%nat.
Proof. destruct (spsc_ring_is_queue 2 id sent_one two_is_power sent_one_reachable) as (q & E & L & _). exists q. split; [exact E | exact L]. Defined.

Lemma spsc_slots_exclusive_witness : about_to_write.(rg).(slots) !! slot_of 2 0 = Some None.
Proof. exact (proj1 (spsc_slots_exclusive 2 id about_to_write two_is_power about_to_write_reachable) SendCall 7 0 eq_refl). Defined.

Lemma spsc_no_lost_wakeup_witness : waiting.(rg).(consumer_waker) = Some 1%nat.
Proof.
  exact (proj1 (proj1 (proj2 (spsc_no_lost_wakeup 2 id waiting two_is_power waiting_reachable)) 1%nat eq_refl (not_elem_of_nil 1%nat))).
Defined.
