(* ===== verification/IpcMpscRing.v ===== *)
(** The multi-producer single-consumer ring of the IPC layer
    ([ipc/src/mpsc_ring.rs]), as a machine of any number of producers and one
    consumer that interleave.

    As in [IpcRing], each atomic access, each access to a payload and each
    critical section of a waker lock is one step.  A compare-and-exchange of the
    weak kind may fail although the values agree: whether it does is an argument
    of the step. *)

From S2P Require Import Prelude Word IpcRing.

Module MpscRingSendError.
Inductive MpscRingSendError (T : Type) : Type :=
  | Full (m : T)
  | Closed (m : T).
Arguments Full {T}.
Arguments Closed {T}.
End MpscRingSendError.
Abbreviation MpscRingSendError := MpscRingSendError.MpscRingSendError.

Module MpscRingRecvError.
Inductive MpscRingRecvError : Type := Closed.
End MpscRingRecvError.
Abbreviation MpscRingRecvError := MpscRingRecvError.MpscRingRecvError.

Record MpscSlot (T : Type) : Type := mk_mslot { seq : Z; val : option T }.
Arguments mk_mslot {T}.
Arguments seq {T}.
Arguments val {T}.

Record MpscRing (T : Type) : Type := mk_mring {
  m_tail : Z;
  m_head : Z;
  producers : Z;
  consumer_gone : bool;
  m_consumer_waker : option Waker;
  m_producer_waker : option Waker;
  m_slots : list (MpscSlot T)
}.
Arguments mk_mring {T}.
Arguments m_tail {T}.
Arguments m_head {T}.
Arguments producers {T}.
Arguments consumer_gone {T}.
Arguments m_consumer_waker {T}.
Arguments m_producer_waker {T}.
Arguments m_slots {T}.

Inductive MSendReply (T : Type) : Type :=
  | MSendReturned (r : Result unit (MpscRingSendError T))
  | MPushReturned (r : Result unit T)
  | MSendReady (r : Result unit T).
Arguments MSendReturned {T}.
Arguments MPushReturned {T}.
Arguments MSendReady {T}.

Inductive MProducer (T : Type) : Type :=
  | MIdle (last : option (MSendReply T))
  | MLoadGone (site : SendSite) (m : T)
  | MLoadTail (site : SendSite) (m : T)
  | MLoadSeq (site : SendSite) (m : T) (pos : Z)
  | MCas (site : SendSite) (m : T) (pos : Z)
  | MWrite (site : SendSite) (m : T) (pos : Z)
  | MStoreSeq (site : SendSite) (m : T) (pos : Z)
  | MWake (site : SendSite)
  | MRegister (cx : Waker) (m : T)
  | MUnregister
  | MPending (cx : Waker) (m : T)
  | MDropSub
  | MDropWake
  | MGone.
Arguments MIdle {T}.
Arguments MLoadGone {T}.
Arguments MLoadTail {T}.
Arguments MLoadSeq {T}.
Arguments MCas {T}.
Arguments MWrite {T}.
Arguments MStoreSeq {T}.
Arguments MWake {T}.
Arguments MRegister {T}.
Arguments MUnregister {T}.
Arguments MPending {T}.
Arguments MDropSub {T}.
Arguments MDropWake {T}.
Arguments MGone {T}.

Inductive MRecvReply (T : Type) : Type :=
  | MRecvReturned (r : Result (option T) MpscRingRecvError)
  | MPopReturned (r : option T)
  | MRecvReady (r : Result T MpscRingRecvError).
Arguments MRecvReturned {T}.
Arguments MPopReturned {T}.
Arguments MRecvReady {T}.

Inductive MConsumer (T : Type) : Type :=
  | KIdle (last : option (MRecvReply T))
  | KLoadHead (site : RecvSite)
  | KLoadSeq (site : RecvSite) (pos : Z)
  | KTake (site : RecvSite) (pos : Z)
  | KStoreHead (site : RecvSite) (pos : Z) (m : T)
  | KStoreSeq (site : RecvSite) (pos : Z) (m : T)
  | KWake (site : RecvSite) (m : T)
  | KLoadProducers (site : RecvSite) (pos : Z)
  | KLoadSeqAgain (site : RecvSite) (pos : Z)
  | KRegister (cx : Waker)
  | KUnregister (m : T)
  | KPending (cx : Waker)
  | KDropStore
  | KDropWake
  | KGone.
Arguments KIdle {T}.
Arguments KLoadHead {T}.
Arguments KLoadSeq {T}.
Arguments KTake {T}.
Arguments KStoreHead {T}.
Arguments KStoreSeq {T}.
Arguments KWake {T}.
Arguments KLoadProducers {T}.
Arguments KLoadSeqAgain {T}.
Arguments KRegister {T}.
Arguments KUnregister {T}.
Arguments KPending {T}.
Arguments KDropStore {T}.
Arguments KDropWake {T}.
Arguments KGone {T}.

Module mpsc.
Section Mpsc.
Context {T : Type} (N : nat).
Implicit Types r : MpscRing T.

Definition new : MpscRing T :=
  mk_mring 0 0 1 false None None ((fun i => mk_mslot (Z.of_nat i) None) <$> List.seq 0 N).

Definition set_tail r t : MpscRing T := mk_mring t r.(m_head) r.(producers) r.(consumer_gone) r.(m_consumer_waker) r.(m_producer_waker) r.(m_slots).
Definition set_head r h : MpscRing T := mk_mring r.(m_tail) h r.(producers) r.(consumer_gone) r.(m_consumer_waker) r.(m_producer_waker) r.(m_slots).
Definition set_producers r n : MpscRing T := mk_mring r.(m_tail) r.(m_head) n r.(consumer_gone) r.(m_consumer_waker) r.(m_producer_waker) r.(m_slots).
Definition set_gone r : MpscRing T := mk_mring r.(m_tail) r.(m_head) r.(producers) true r.(m_consumer_waker) r.(m_producer_waker) r.(m_slots).
Definition set_consumer_waker r w : MpscRing T := mk_mring r.(m_tail) r.(m_head) r.(producers) r.(consumer_gone) w r.(m_producer_waker) r.(m_slots).
Definition set_producer_waker r w : MpscRing T := mk_mring r.(m_tail) r.(m_head) r.(producers) r.(consumer_gone) r.(m_consumer_waker) w r.(m_slots).
Definition set_slot r i (s : MpscSlot T) : MpscRing T :=
  mk_mring r.(m_tail) r.(m_head) r.(producers) r.(consumer_gone) r.(m_consumer_waker) r.(m_producer_waker) (<[i := s]> r.(m_slots)).

Definition slot_at r (pos : Z) : option (MpscSlot T) := r.(m_slots) !! ring.slot_of N pos.

(** * Producers *)

Definition send_return (site : SendSite) (res : Result unit (MpscRingSendError T)) : MProducer T :=
  match site with
  | SendCall => MIdle (Some (MSendReturned res))
  | PushCall =>
      MIdle (Some (MPushReturned
        match res with Ok u => Ok u | Err (MpscRingSendError.Full m) | Err (MpscRingSendError.Closed m) => Err m end))
  | SendFirst cx =>
      match res with
      | Ok u => MIdle (Some (MSendReady (Ok u)))
      | Err (MpscRingSendError.Closed m) => MIdle (Some (MSendReady (Err m)))
      | Err (MpscRingSendError.Full m) => MRegister cx m
      end
  | SendSecond cx =>
      match res with
      | Ok u => MUnregister
      | Err (MpscRingSendError.Closed m) => MIdle (Some (MSendReady (Err m)))
      | Err (MpscRingSendError.Full m) => MPending cx m
      end
  end.

(** One step of [try_send], [try_push], [MpscRingSendFuture::poll] or
    [MpscRingProducer::drop]. *)
Definition producer_step r (p : MProducer T) (spurious : bool) : option (MpscRing T * MProducer T * option Waker) :=
  match p with
  | MLoadGone site m =>
      Some (r, if r.(consumer_gone) then send_return site (Err (MpscRingSendError.Closed m)) else MLoadTail site m, None)
  | MLoadTail site m => Some (r, MLoadSeq site m r.(m_tail), None)
  | MLoadSeq site m pos =>
      let* s := slot_at r pos in
      let diff := swrap 64 (wrap 64 (s.(seq) - pos)) in
      Some (r, if diff =? 0 then MCas site m pos
               else if diff <? 0 then send_return site (Err (MpscRingSendError.Full m))
               else MLoadTail site m, None)
  | MCas site m pos =>
      if (r.(m_tail) =? pos) && negb spurious then Some (set_tail r (wrap 64 (pos + 1)), MWrite site m pos, None)
      else Some (r, MLoadSeq site m r.(m_tail), None)
  | MWrite site m pos =>
      let* s := slot_at r pos in
      Some (set_slot r (ring.slot_of N pos) (mk_mslot s.(seq) (Some m)), MStoreSeq site m pos, None)
  | MStoreSeq site m pos =>
      let* s := slot_at r pos in
      Some (set_slot r (ring.slot_of N pos) (mk_mslot (wrap 64 (pos + 1)) s.(val)), MWake site, None)
  | MWake site => Some (set_consumer_waker r None, send_return site (Ok tt), r.(m_consumer_waker))
  | MRegister cx m => Some (set_producer_waker r (Some cx), MLoadGone (SendSecond cx) m, None)
  | MUnregister => Some (set_producer_waker r None, MIdle (Some (MSendReady (Ok tt))), None)
  | MDropSub => Some (set_producers r (wrap 64 (r.(producers) - 1)), if r.(producers) =? 1 then MDropWake else MGone, None)
  | MDropWake => Some (set_consumer_waker r None, MGone, r.(m_consumer_waker))
  | MIdle _ | MPending _ _ | MGone => None
  end.

(** * The consumer *)

Definition recv_return (site : RecvSite) (res : Result (option T) MpscRingRecvError) : MConsumer T :=
  match site with
  | RecvCall => KIdle (Some (MRecvReturned res))
  | PopCall => KIdle (Some (MPopReturned match res with Ok m => m | Err _ => None end))
  | RecvFirst cx =>
      match res with
      | Ok (Some m) => KIdle (Some (MRecvReady (Ok m)))
      | Err e => KIdle (Some (MRecvReady (Err e)))
      | Ok None => KRegister cx
      end
  | RecvSecond cx =>
      match res with
      | Ok (Some m) => KUnregister m
      | Err e => KIdle (Some (MRecvReady (Err e)))
      | Ok None => KPending cx
      end
  end.

(** [seq.wrapping_sub(pos.wrapping_add(1)) as i64 == 0]. *)
Definition published (s : MpscSlot T) (pos : Z) : bool := swrap 64 (wrap 64 (s.(seq) - wrap 64 (pos + 1))) =? 0.

(** One step of [try_recv], [try_pop], [MpscRingRecvFuture::poll] or
    [MpscRingConsumer::drop]; [try_pop] does not look at the producers. *)
Definition consumer_step r (c : MConsumer T) : option (MpscRing T * MConsumer T * option Waker) :=
  match c with
  | KLoadHead site => Some (r, KLoadSeq site r.(m_head), None)
  | KLoadSeq site pos =>
      let* s := slot_at r pos in
      Some (r, if published s pos then KTake site pos
               else match site with PopCall => recv_return site (Ok None) | _ => KLoadProducers site pos end, None)
  | KTake site pos =>
      let* s := slot_at r pos in
      let* m := s.(val) in
      Some (set_slot r (ring.slot_of N pos) (mk_mslot s.(seq) None), KStoreHead site pos m, None)
  | KStoreHead site pos m => Some (set_head r (wrap 64 (pos + 1)), KStoreSeq site pos m, None)
  | KStoreSeq site pos m =>
      let* s := slot_at r pos in
      Some (set_slot r (ring.slot_of N pos) (mk_mslot (wrap 64 (pos + Z.of_nat N)) s.(val)), KWake site m, None)
  | KWake site m => Some (set_producer_waker r None, recv_return site (Ok (Some m)), r.(m_producer_waker))
  | KLoadProducers site pos =>
      Some (r, if r.(producers) =? 0 then KLoadSeqAgain site pos else recv_return site (Ok None), None)
  | KLoadSeqAgain site pos =>
      let* s := slot_at r pos in
      Some (r, recv_return site (if published s pos then Ok None else Err MpscRingRecvError.Closed), None)
  | KRegister cx => Some (set_consumer_waker r (Some cx), KLoadHead (RecvSecond cx), None)
  | KUnregister m => Some (set_consumer_waker r None, KIdle (Some (MRecvReady (Ok m))), None)
  | KDropStore => Some (set_gone r, KDropWake, None)
  | KDropWake => Some (set_producer_waker r None, KGone, r.(m_producer_waker))
  | KIdle _ | KPending _ | KGone => None
  end.

(** [MpscRing::drop]: the payloads it destroys, for every position from the head
    to the tail whose slot is published.  The fuel is one more than the number of
    positions a ring can hold. *)
Fixpoint drop_loop (fuel : nat) (s : list (MpscSlot T)) (i tl : Z) : option (list T) :=
  match fuel with
  | O => None
  | S fuel =>
      if i =? tl then Some []
      else
        let* sl := s !! ring.slot_of N i in
        if sl.(seq) =? wrap 64 (i + 1) then
          let* m := sl.(val) in
          let* rest := drop_loop fuel (<[ring.slot_of N i := mk_mslot sl.(seq) None]> s) (wrap 64 (i + 1)) tl in
          Some (m :: rest)
        else drop_loop fuel s (wrap 64 (i + 1)) tl
  end.

Definition drop_ring r : option (list T) := drop_loop (S N) r.(m_slots) r.(m_head) r.(m_tail).
End Mpsc.
End mpsc.
