(* ===== verification/IpcMpscSound.v ===== *)
(** The multi-producer single-consumer ring over time: every interleaving of the
    producers and the consumer, with the order in which positions were claimed
    as its history. *)

From stdpp Require Import sets.
From S2P Require Import Prelude Word IpcRing IpcRingSound IpcMpscRing.
Import mpsc.

(** How far the producer of a position has got. *)
Inductive Stage : Type := Claimed | Written | Published.

Section Mpsc.
Context {T : Type} (N : nat).

(** * The state machine *)

Record Mpsc : Type := mk_mpsc {
  mr : MpscRing T;
  threads : list (MProducer T);
  receiver : MConsumer T;
  s_woken : list Waker;
  r_woken : list Waker;
  claims : list (T * Stage);
  delivered : list T
}.
Implicit Types s : Mpsc.

Definition mpsc_start : Mpsc := mk_mpsc (new N) [MIdle None] (KIdle None) [] [] [] [].

(** What a step of a producer adds to the history. *)
Definition record_step (p p' : MProducer T) (cl : list (T * Stage)) : list (T * Stage) :=
  match p, p' with
  | MCas _ _ _, MWrite _ m _ => cl ++ [(m, Claimed)]
  | MWrite _ m pos, _ => <[Z.to_nat pos := (m, Written)]> cl
  | MStoreSeq _ m pos, _ => <[Z.to_nat pos := (m, Published)]> cl
  | _, _ => cl
  end.

Definition thread_turn s (i : nat) (spurious : bool) : option Mpsc :=
  let* p := s.(threads) !! i in
  let* (r, p', w) := producer_step N s.(mr) p spurious in
  Some (mk_mpsc r (<[i := p']> s.(threads)) s.(receiver) s.(s_woken) (s.(r_woken) ++ option_list w) (record_step p p' s.(claims)) s.(delivered)).

Definition receiver_turn s : option Mpsc :=
  let* (r, c, w) := consumer_step N s.(mr) s.(receiver) in
  Some (mk_mpsc r s.(threads) c (s.(s_woken) ++ option_list w) s.(r_woken) s.(claims)
    (match s.(receiver), c with KTake _ _, KStoreHead _ _ m => s.(delivered) ++ [m] | _, _ => s.(delivered) end)).

Definition with_thread s i p (polled : list Waker) : Mpsc :=
  mk_mpsc s.(mr) (<[i := p]> s.(threads)) s.(receiver) (filter (fun w => w ∉ polled) s.(s_woken)) s.(r_woken) s.(claims) s.(delivered).

Definition with_receiver s c (polled : list Waker) : Mpsc :=
  mk_mpsc s.(mr) s.(threads) c s.(s_woken) (filter (fun w => w ∉ polled) s.(r_woken)) s.(claims) s.(delivered).

Definition with_clone s : Mpsc :=
  mk_mpsc (set_producers s.(mr) (wrap 64 (s.(mr).(producers) + 1))) (s.(threads) ++ [MIdle None]) s.(receiver) s.(s_woken) s.(r_woken) s.(claims) s.(delivered).

(** The handle is not yet dropped. *)
Definition alive (p : MProducer T) : bool := match p with MDropWake | MGone => false | _ => true end.

Inductive mpsc_step s : Mpsc -> Prop :=
  | mpsc_thread i spurious s' : thread_turn s i spurious = Some s' -> mpsc_step s s'
  | mpsc_receiver s' : receiver_turn s = Some s' -> mpsc_step s s'
  | mpsc_try_send i last m : s.(threads) !! i = Some (MIdle last) -> mpsc_step s (with_thread s i (MLoadGone SendCall m) [])
  | mpsc_try_push i last m : s.(threads) !! i = Some (MIdle last) -> mpsc_step s (with_thread s i (MLoadGone PushCall m) [])
  | mpsc_send i last m cx : s.(threads) !! i = Some (MIdle last) -> mpsc_step s (with_thread s i (MLoadGone (SendFirst cx) m) [cx])
  | mpsc_send_again i m cx cx' : s.(threads) !! i = Some (MPending cx m) -> mpsc_step s (with_thread s i (MLoadGone (SendFirst cx') m) [cx'])
  | mpsc_send_cancel i m cx : s.(threads) !! i = Some (MPending cx m) -> mpsc_step s (with_thread s i (MIdle None) [])
  | mpsc_producer_drop i last : s.(threads) !! i = Some (MIdle last) -> mpsc_step s (with_thread s i MDropSub [])
  | mpsc_clone i last : s.(threads) !! i = Some (MIdle last) -> mpsc_step s (with_clone s)
  | mpsc_try_recv last : s.(receiver) = KIdle last -> mpsc_step s (with_receiver s (KLoadHead RecvCall) [])
  | mpsc_try_pop last : s.(receiver) = KIdle last -> mpsc_step s (with_receiver s (KLoadHead PopCall) [])
  | mpsc_recv last cx : s.(receiver) = KIdle last -> mpsc_step s (with_receiver s (KLoadHead (RecvFirst cx)) [cx])
  | mpsc_recv_again cx cx' : s.(receiver) = KPending cx -> mpsc_step s (with_receiver s (KLoadHead (RecvFirst cx')) [cx'])
  | mpsc_recv_cancel cx : s.(receiver) = KPending cx -> mpsc_step s (with_receiver s (KIdle None) [])
  | mpsc_consumer_drop last : s.(receiver) = KIdle last -> mpsc_step s (with_receiver s KDropStore []).

Inductive mpsc_reachable : Mpsc -> Prop :=
  | mpsc_reachable_start : mpsc_reachable mpsc_start
  | mpsc_reachable_step s s' : mpsc_reachable s -> mpsc_step s s' -> mpsc_reachable s'.

(** * The invariant of the data *)

(** Messages whose slot the consumer has given back. *)
Definition released s : nat := length s.(delivered) - match s.(receiver) with KStoreHead _ _ _ | KStoreSeq _ _ _ => 1 | _ => 0 end.

(** The value of [head]. *)
Definition advanced s : nat := length s.(delivered) - match s.(receiver) with KStoreHead _ _ _ => 1 | _ => 0 end.

(** What the slot of position [p] holds. *)
Definition slot_state s (p : nat) : MpscSlot T :=
  match s.(claims) !! p with
  | None | Some (_, Claimed) => mk_mslot (Z.of_nat p) None
  | Some (m, Written) => mk_mslot (Z.of_nat p) (Some m)
  | Some (m, Published) => mk_mslot (Z.of_nat p + 1) (if (p <? length s.(delivered))%nat then None else Some m)
  end.

(** The position a producer owns, with its entry of the history. *)
Definition holding (p : MProducer T) : option (nat * (T * Stage)) :=
  match p with
  | MWrite _ m pos => Some (Z.to_nat pos, (m, Claimed))
  | MStoreSeq _ m pos => Some (Z.to_nat pos, (m, Written))
  | _ => None
  end.

(** What a producer knows of the position it is trying, or has claimed. *)
Definition thread_view s (p : MProducer T) : Prop :=
  match p with
  | MLoadSeq _ _ pos => 0 <= pos <= Z.of_nat (length s.(claims))
  | MCas _ _ pos => 0 <= pos <= Z.of_nat (length s.(claims)) /\ pos < Z.of_nat (released s + N)
  | MWrite _ _ pos | MStoreSeq _ _ pos => 0 <= pos
  | _ => True
  end.

Definition receiver_view s : Prop :=
  match s.(receiver) with
  | KLoadSeq _ pos | KLoadProducers _ pos => pos = Z.of_nat (length s.(delivered))
  | KLoadSeqAgain _ pos => pos = Z.of_nat (length s.(delivered)) /\ Forall (fun p => alive p = false) s.(threads)
  | KTake _ pos => pos = Z.of_nat (length s.(delivered)) /\ exists m, s.(claims) !! length s.(delivered) = Some (m, Published)
  | KStoreHead _ pos _ | KStoreSeq _ pos _ => 0 <= pos /\ pos + 1 = Z.of_nat (length s.(delivered))
  | _ => True
  end.

Record mpsc_ok s : Prop := {
  mo_tail : s.(mr).(m_tail) = Z.of_nat (length s.(claims));
  mo_head : s.(mr).(m_head) = Z.of_nat (advanced s);
  mo_delivered : (fun m => (m, Published)) <$> s.(delivered) = take (length s.(delivered)) s.(claims);
  mo_room : (length s.(claims) <= released s + N)%nat;
  mo_length : length s.(mr).(m_slots) = N;
  mo_slots : forall p, (released s <= p < released s + N)%nat -> s.(mr).(m_slots) !! (p mod N)%nat = Some (slot_state s p);
  mo_views : forall i p, s.(threads) !! i = Some p -> thread_view s p;
  mo_holds : forall i p q e, s.(threads) !! i = Some p -> holding p = Some (q, e) -> s.(claims) !! q = Some e;
  mo_unique : forall i j p p' q e e', s.(threads) !! i = Some p -> s.(threads) !! j = Some p' -> holding p = Some (q, e) -> holding p' = Some (q, e') -> i = j;
  mo_owned : forall q m st, s.(claims) !! q = Some (m, st) -> st = Published \/ exists i p, s.(threads) !! i = Some p /\ holding p = Some (q, (m, st));
  mo_producers : s.(mr).(producers) = Z.of_nat (length (filter (fun p => alive p = true) s.(threads)));
  mo_receiver : receiver_view s
}.

(** Fewer positions claimed, and fewer handles, than the counters can tell
    apart. *)
Definition in_width s : Prop := Z.of_nat (length s.(claims) + N) < 2 ^ 63 /\ Z.of_nat (length s.(threads)) < 2 ^ 63.

(** * Positions and slots *)

Lemma slot_index p : power_of_two N -> Z.of_nat p < 2 ^ 64 -> ring.slot_of N (Z.of_nat p) = (p mod N)%nat.
Proof using Type. intros HN B. rewrite <- (slot_of_position N p HN), wrap_small; [done |]. unfold is_u. lia. Qed.

Lemma delivered_le s : mpsc_ok s -> (length s.(delivered) <= length s.(claims))%nat.
Proof using Type. intros I. pose proof (f_equal length (mo_delivered _ I)) as E. rewrite length_fmap, length_take in E. lia. Qed.

Lemma delivered_entry s p : mpsc_ok s -> (p < length s.(delivered))%nat -> exists m, s.(delivered) !! p = Some m /\ s.(claims) !! p = Some (m, Published).
Proof using Type.
  intros I L. destruct (lookup_lt_is_Some_2 _ _ L) as [m Em]. exists m. split; [done |]. pose proof (f_equal (fun l => l !! p) (mo_delivered _ I)) as E.
  cbn beta in E. rewrite list_lookup_fmap, Em, lookup_take_lt in E by done. by symmetry.
Qed.

(** An entry that is not published is not delivered. *)
Lemma pending_entry s q m st : mpsc_ok s -> s.(claims) !! q = Some (m, st) -> st <> Published -> (length s.(delivered) <= q)%nat.
Proof using Type.
  intros I E Ns. destruct (decide (length s.(delivered) <= q)%nat) as [| L]; [done |]. destruct (delivered_entry s q I ltac:(lia)) as (m' & _ & E'). congruence.
Qed.

Lemma released_le s : (released s <= length s.(delivered))%nat.
Proof using Type. unfold released. destruct s.(receiver); lia. Qed.

Lemma slot_lookup s p : power_of_two N -> mpsc_ok s -> in_width s -> (released s <= p < released s + N)%nat -> slot_at N s.(mr) (Z.of_nat p) = Some (slot_state s p).
Proof using Type.
  intros HN I [W _] B. unfold slot_at. pose proof (released_le s). pose proof (delivered_le s I). rewrite slot_index by (done || lia). by apply (mo_slots _ I).
Qed.

(** One slot of the window changed, with the state of its position. *)
Lemma slots_update s s' p v : power_of_two N -> mpsc_ok s -> released s' = released s -> (released s <= p < released s + N)%nat ->
  s'.(mr).(m_slots) = <[(p mod N)%nat := v]> s.(mr).(m_slots) -> slot_state s' p = v -> (forall q, q <> p -> slot_state s' q = slot_state s q) ->
  forall q, (released s' <= q < released s' + N)%nat -> s'.(mr).(m_slots) !! (q mod N)%nat = Some (slot_state s' q).
Proof using Type.
  intros HN I Rl B E Ev Eo q Bq. rewrite Rl in Bq. rewrite E. pose proof (power_pos N HN) as [Np _]. destruct (decide (q = p)) as [-> | Nq].
  - rewrite list_lookup_insert_eq by (rewrite (mo_length _ I); apply Nat.mod_upper_bound; lia). by rewrite Ev.
  - rewrite list_lookup_insert_ne; [rewrite Eo by done; by apply (mo_slots _ I) |]. intros Em. apply (window_distinct N (released s)) in Em; [done | done | done].
Qed.

(** * Counting handles *)

Lemma alive_insert (l : list (MProducer T)) i p p' : l !! i = Some p -> alive p' = alive p ->
  length (filter (fun p => alive p = true) (<[i := p']> l)) = length (filter (fun p => alive p = true) l).
Proof using Type.
  revert i. induction l as [| x l IH]; intros [| i] E A; try done; simpl in *.
  - injection E as ->. rewrite !filter_cons. rewrite A. by destruct (decide (alive p = true)).
  - rewrite !filter_cons. destruct (decide (alive x = true)); simpl; by rewrite IH.
Qed.

Lemma alive_drop (l : list (MProducer T)) i p p' : l !! i = Some p -> alive p = true -> alive p' = false ->
  length (filter (fun p => alive p = true) l) = S (length (filter (fun p => alive p = true) (<[i := p']> l))).
Proof using Type.
  revert i. induction l as [| x l IH]; intros [| i] E A A'; try done; simpl in *.
  - injection E as ->. rewrite !filter_cons, A, A'. by rewrite decide_True, decide_False by done.
  - rewrite !filter_cons. destruct (decide (alive x = true)); simpl; by rewrite <- IH.
Qed.

(** * Producers' steps *)

(** A step of a producer that owns no position and touches neither index nor
    slots. *)
Lemma thread_moves s i p p' r sw rw : mpsc_ok s -> s.(threads) !! i = Some p ->
  r.(m_tail) = s.(mr).(m_tail) -> r.(m_head) = s.(mr).(m_head) -> r.(m_slots) = s.(mr).(m_slots) -> r.(producers) = s.(mr).(producers) ->
  holding p = None -> holding p' = None -> alive p' = alive p -> thread_view s p' ->
  mpsc_ok (mk_mpsc r (<[i := p']> s.(threads)) s.(receiver) sw rw s.(claims) s.(delivered)).
Proof using Type.
  intros [It Ih Id Ir Il Is Iv Io Iu Iw Ip Ic] Ei Et Eh Es Epr H H' A V. split; cbn [mr threads claims delivered]; rewrite ?Et, ?Eh, ?Es, ?Epr; try done.
  - intros j q Ej. apply list_lookup_insert_Some in Ej as [(-> & <- & _) | [_ Ej]]; [done | by apply (Iv j)].
  - intros j q x e Ej Hq. apply list_lookup_insert_Some in Ej as [(-> & <- & _) | [_ Ej]]; [congruence | by eapply Io].
  - intros j k q q' x e e' Ej Ek Hq Hq'. apply list_lookup_insert_Some in Ej as [(-> & <- & _) | [_ Ej]]; [congruence |].
    apply list_lookup_insert_Some in Ek as [(-> & <- & _) | [_ Ek]]; [congruence | by eapply Iu].
  - intros q m st Eq. destruct (Iw q m st Eq) as [-> | (j & x & Ej & Hx)]; [by left |]. right. exists j, x. split; [| done].
    rewrite list_lookup_insert_ne; [done |]. intros <-. congruence.
  - by rewrite (alive_insert _ _ p).
  - unfold receiver_view in *. cbn [receiver delivered claims threads]. destruct s.(receiver); try done. destruct Ic as [-> F]. split; [done |].
    apply Forall_insert; [done |]. rewrite A. exact (Forall_lookup_1 _ _ _ _ F Ei).
Qed.

(** The owner of a position writes its payload, or publishes it. *)
Lemma thread_advances s i p p' q m st st' v r rw : power_of_two N -> mpsc_ok s -> s.(threads) !! i = Some p ->
  holding p = Some (q, (m, st)) -> st <> Published -> alive p = true -> alive p' = true ->
  (holding p' = Some (q, (m, st')) \/ holding p' = None /\ st' = Published) -> thread_view s p' ->
  r.(m_tail) = s.(mr).(m_tail) -> r.(m_head) = s.(mr).(m_head) -> r.(producers) = s.(mr).(producers) ->
  r.(m_slots) = <[(q mod N)%nat := v]> s.(mr).(m_slots) ->
  v = match st' with Claimed => mk_mslot (Z.of_nat q) None | Written => mk_mslot (Z.of_nat q) (Some m) | Published => mk_mslot (Z.of_nat q + 1) (Some m) end ->
  mpsc_ok (mk_mpsc r (<[i := p']> s.(threads)) s.(receiver) s.(s_woken) rw (<[q := (m, st')]> s.(claims)) s.(delivered)).
Proof using Type.
  intros HN I Ei H Ns A A' H' V Et Eh Epr Es Ev. set (s' := mk_mpsc _ _ _ _ _ _ _). pose proof (mo_holds _ I _ _ _ _ Ei H) as Eq. pose proof (pending_entry s q m st I Eq Ns) as Lq.
  pose proof (lookup_lt_Some _ _ _ Eq) as Lc. pose proof (released_le s). pose proof (mo_room _ I). assert (Bq : (released s <= q < released s + N)%nat) by lia.
  assert (Oth : forall j x y e, j <> i -> s.(threads) !! j = Some x -> holding x = Some (y, e) -> y <> q) by (intros j x y e Nj Ej Hx ->; apply Nj; by eapply (mo_unique _ I)).
  pose proof I as [It Ih Id Ir Il Is Iv Io Iu Iw Ip Ic]. split; unfold s'; cbn [mr threads claims delivered]; rewrite ?Et, ?Eh, ?Epr, ?length_insert; try done.
  - rewrite take_insert_ge by lia. done.
  - rewrite Es, length_insert. done.
  - apply (slots_update s s' q v); try done.
    + unfold slot_state, s'. cbn [claims delivered]. rewrite list_lookup_insert_eq by done. rewrite Ev. destruct st'; [done | done |]. by rewrite (proj2 (Nat.ltb_ge _ _)) by lia.
    + intros y Ny. unfold slot_state, s'. cbn [claims delivered]. by rewrite list_lookup_insert_ne by done.
  - intros j x Ej. assert (Vx : thread_view s x) by (apply list_lookup_insert_Some in Ej as [(-> & <- & _) | [_ Ej]]; [done | by apply (Iv j)]).
    unfold thread_view in *. cbn [claims]. by rewrite length_insert.
  - intros j x y e Ej Hx. apply list_lookup_insert_Some in Ej as [(-> & <- & _) | [Nj Ej]].
    + destruct H' as [H' | [H' _]]; [| congruence]. rewrite H' in Hx. injection Hx as <- <-. by apply list_lookup_insert_eq.
    + rewrite list_lookup_insert_ne; [by eapply Io | by intros <-; eapply (Oth j)].
  - intros j k x x' y e e' Ej Ek Hx Hx'. apply list_lookup_insert_Some in Ej as [(-> & <- & _) | [Nj Ej]]; apply list_lookup_insert_Some in Ek as [(-> & <- & _) | [Nk Ek]]; [done | | | by eapply Iu].
    + destruct H' as [H' | [H' _]]; [| congruence]. rewrite H' in Hx. injection Hx as <- <-. by destruct (Oth k x' q e').
    + destruct H' as [H' | [H' _]]; [| congruence]. rewrite H' in Hx'. injection Hx' as <- <-. by destruct (Oth j x q e).
  - intros y m' st'' Ey. apply list_lookup_insert_Some in Ey as [(-> & [= <- <-] & _) | [Ny Ey]].
    + destruct H' as [H' | [_ ->]]; [right; exists i, p'; split; [| done]; apply list_lookup_insert_eq; by eapply lookup_lt_Some | by left].
    + destruct (Iw y m' st'' Ey) as [-> | (j & x & Ej & Hx)]; [by left |]. right. exists j, x. split; [| done]. rewrite list_lookup_insert_ne; [done |]. intros <-. congruence.
  - rewrite (alive_insert _ _ p) by congruence. done.
  - unfold receiver_view in *. cbn [receiver delivered claims threads]. destruct s.(receiver); try done.
    + destruct Ic as [-> [m' Em]]. split; [done |]. exists m'. rewrite list_lookup_insert_ne; [done |]. intros Ed. rewrite Ed, Em in Eq. congruence.
    + destruct Ic as [_ F]. pose proof (Forall_lookup_1 _ _ _ _ F Ei) as Dp. cbn beta in Dp. congruence.
Qed.

(** A producer claims the position at the tail. *)
Lemma thread_claims s i site m pos : power_of_two N -> mpsc_ok s -> in_width s -> s.(threads) !! i = Some (MCas site m pos) -> s.(mr).(m_tail) = pos ->
  mpsc_ok (mk_mpsc (set_tail s.(mr) (wrap 64 (pos + 1))) (<[i := MWrite site m pos]> s.(threads)) s.(receiver) s.(s_woken) (s.(r_woken) ++ option_list None) (s.(claims) ++ [(m, Claimed)]) s.(delivered)).
Proof using Type.
  intros HN I [W _] Ei. rewrite (mo_tail _ I). intros <-. set (s' := mk_mpsc _ _ _ _ _ _ _). pose proof (mo_views _ I _ _ Ei) as Vi. cbn in Vi. destruct Vi as [_ Vi].
  pose proof (delivered_le s I) as Ld. pose proof I as [It Ih Id Ir Il Is Iv Io Iu Iw Ip Ic].
  assert (New : forall e x, s.(claims) !! e = Some x -> e <> length s.(claims)) by (intros e x E%lookup_lt_Some; lia).
  split; unfold s'; cbn [mr set_tail m_tail m_head m_slots producers threads claims delivered]; rewrite ?length_app; cbn [length]; try done.
  - rewrite wrap_small by (unfold is_u; lia). lia.
  - rewrite take_app_le by done. done.
  - unfold released in *. cbn [receiver delivered]. lia.
  - intros p Bp. rewrite (Is p Bp). f_equal. unfold slot_state. cbn [claims delivered]. destruct (decide (p < length s.(claims))%nat) as [Lp | Lp]; [by rewrite lookup_app_l |].
    rewrite (lookup_ge_None_2 s.(claims)) by lia. destruct (decide (p = length s.(claims))) as [-> | Np]; [by rewrite lookup_app_r, Nat.sub_diag by lia |]. rewrite lookup_ge_None_2; [done |]. rewrite length_app. simpl. lia.
  - intros j x Ej. apply list_lookup_insert_Some in Ej as [(-> & <- & _) | [_ Ej]]; [unfold thread_view; lia |]. pose proof (Iv j x Ej) as Vx. unfold thread_view in *. cbn [claims]. rewrite length_app. simpl.
    destruct x; try done; lia || (split; [lia | apply Vx]).
  - intros j x y e Ej Hx. apply list_lookup_insert_Some in Ej as [(-> & <- & _) | [_ Ej]].
    + unfold holding in Hx. rewrite Nat2Z.id in Hx. injection Hx as <- <-. rewrite lookup_app_r, Nat.sub_diag by lia. done.
    + apply lookup_app_l_Some. by eapply Io.
  - intros j k x x' y e e' Ej Ek Hx Hx'. apply list_lookup_insert_Some in Ej as [(-> & <- & _) | [Nj Ej]]; apply list_lookup_insert_Some in Ek as [(-> & <- & _) | [Nk Ek]]; [done | | | by eapply Iu].
    + unfold holding in Hx. rewrite Nat2Z.id in Hx. injection Hx as <- <-. by destruct (New _ _ (Io _ _ _ _ Ek Hx')).
    + unfold holding in Hx'. rewrite Nat2Z.id in Hx'. injection Hx' as <- <-. by destruct (New _ _ (Io _ _ _ _ Ej Hx)).
  - intros y m' st Ey. apply lookup_app_Some in Ey as [Ey | [Ly Ey]].
    + destruct (Iw y m' st Ey) as [-> | (j & x & Ej & Hx)]; [by left |]. right. exists j, x. split; [| done]. rewrite list_lookup_insert_ne; [done |]. intros <-. rewrite Ei in Ej. by injection Ej as <-.
    + apply list_lookup_singleton_Some in Ey as [Ey [= <- <-]]. right. exists i, (MWrite site m (Z.of_nat (length s.(claims)))). split; [apply list_lookup_insert_eq; by eapply lookup_lt_Some |].
      unfold holding. rewrite Nat2Z.id. do 2 f_equal. lia.
  - rewrite (alive_insert _ _ (MCas site m (Z.of_nat (length s.(claims))))); done.
  - unfold receiver_view in *. cbn [receiver delivered claims threads]. destruct s.(receiver); try done.
    + destruct Ic as [-> [m' Em]]. split; [done |]. exists m'. by apply lookup_app_l_Some.
    + destruct Ic as [_ F]. by pose proof (Forall_lookup_1 _ _ _ _ F Ei) as Dp.
Qed.

(** A handle is dropped. *)
Lemma thread_drops s i : mpsc_ok s -> in_width s -> s.(threads) !! i = Some MDropSub ->
  mpsc_ok (mk_mpsc (set_producers s.(mr) (wrap 64 (s.(mr).(producers) - 1))) (<[i := if s.(mr).(producers) =? 1 then MDropWake else MGone]> s.(threads)) s.(receiver) s.(s_woken) (s.(r_woken) ++ option_list None) s.(claims) s.(delivered)).
Proof using Type.
  intros I [_ W] Ei. set (p' := if _ =? _ then _ else _). assert (Dp : alive p' = false /\ holding p' = None) by (unfold p'; by destruct (_ =? _)). destruct Dp as [Dp Hp].
  pose proof (alive_drop _ i MDropSub p' Ei eq_refl Dp) as Al. pose proof (length_filter (fun p => alive p = true) s.(threads)) as Lf. pose proof I as [It Ih Id Ir Il Is Iv Io Iu Iw Ip Ic].
  split; cbn [mr set_producers m_tail m_head m_slots producers threads claims delivered]; try done.
  - intros j x Ej. apply list_lookup_insert_Some in Ej as [(-> & <- & _) | [_ Ej]]; [unfold thread_view, p'; by destruct (_ =? _) | by apply (Iv j)].
  - intros j x y e Ej Hx. apply list_lookup_insert_Some in Ej as [(-> & <- & _) | [_ Ej]]; [congruence | by eapply Io].
  - intros j k x x' y e e' Ej Ek Hx Hx'. apply list_lookup_insert_Some in Ej as [(-> & <- & _) | [_ Ej]]; [congruence |]. apply list_lookup_insert_Some in Ek as [(-> & <- & _) | [_ Ek]]; [congruence | by eapply Iu].
  - intros q m st Eq. destruct (Iw q m st Eq) as [-> | (j & x & Ej & Hx)]; [by left |]. right. exists j, x. split; [| done]. rewrite list_lookup_insert_ne; [done |]. intros <-. rewrite Ei in Ej. by injection Ej as <-.
  - rewrite Ip, Al, wrap_small; [lia |]. unfold is_u. lia.
  - unfold receiver_view in *. cbn [receiver delivered claims threads]. destruct s.(receiver); try done. destruct Ic as [_ F]. by pose proof (Forall_lookup_1 _ _ _ _ F Ei) as D.
Qed.

(** The difference of a sequence number and a position, as the code computes
    it. *)
Lemma signed_diff a b : 0 <= a < 2 ^ 63 -> 0 <= b < 2 ^ 63 -> swrap 64 (wrap 64 (a - b)) = a - b.
Proof using Type. intros Ha Hb. apply swrap_wrap_id; [lia |]. unfold is_i. lia. Qed.

(** The sequence number of a position's slot is the position or the next. *)
Lemma slot_seq s p : seq (slot_state s p) = Z.of_nat p \/ seq (slot_state s p) = Z.of_nat p + 1.
Proof using Type. unfold slot_state. destruct (s.(claims) !! p) as [[m []] |]; simpl; auto. Qed.

(** Every slot is the slot of one position of the window. *)
Lemma window_rep a p : (0 < N)%nat -> exists q, (a <= q < a + N)%nat /\ (q mod N = p mod N)%nat.
Proof using Type.
  intros Np. pose proof (Nat.mod_upper_bound a N ltac:(lia)). pose proof (Nat.mod_upper_bound p N ltac:(lia)). pose proof (Nat.div_mod_eq a N).
  destruct (decide (a mod N <= p mod N)%nat).
  - exists (N * (a / N) + p mod N)%nat. split; [lia |]. rewrite Nat.add_comm, Nat.mul_comm, Nat.Div0.mod_add. apply Nat.mod_small. lia.
  - exists (N * (a / N + 1) + p mod N)%nat. split; [lia |]. rewrite Nat.add_comm, Nat.mul_comm, Nat.Div0.mod_add. apply Nat.mod_small. lia.
Qed.

(** What a producer at position [p] finds: its slot is free, or the ring is full,
    or the position was claimed since. *)
Lemma probe s p : power_of_two N -> (2 <= N)%nat -> mpsc_ok s -> in_width s -> (p <= length s.(claims))%nat ->
  exists sl, slot_at N s.(mr) (Z.of_nat p) = Some sl /\
    (swrap 64 (wrap 64 (sl.(seq) - Z.of_nat p)) = 0 -> (p < released s + N)%nat) /\
    (swrap 64 (wrap 64 (sl.(seq) - Z.of_nat p)) < 0 -> length s.(claims) = (released s + N)%nat).
Proof using Type.
  intros HN N2 I W Lp. pose proof W as [Wc _]. pose proof (mo_room _ I). pose proof (released_le s). pose proof (delivered_le s I). destruct (window_rep (released s) p ltac:(lia)) as (q & Bq & Eq).
  exists (slot_state s q). pose proof (slot_lookup s q HN I W Bq) as El. unfold slot_at in *. rewrite slot_index in * by (done || lia). split; [by rewrite <- Eq |].
  destruct (slot_seq s q) as [-> | ->]; rewrite signed_diff by lia; split; intros D.
  - lia.
  - assert (q < p)%nat as L by lia. destruct (decide (p < released s + N)%nat) as [Lw | Lw]; [| lia]. apply (window_distinct N (released s)) in Eq; lia.
  - destruct (decide (p < released s + N)%nat) as [Lw | Lw]; [done |]. apply (window_distinct N q) in Eq; lia.
  - assert (q < p)%nat as L by lia. destruct (decide (p < released s + N)%nat) as [Lw | Lw]; [| lia]. apply (window_distinct N (released s)) in Eq; lia.
Qed.

Lemma mpsc_send_quiet site res : holding (send_return (T := T) site res) = None /\ alive (send_return (T := T) site res) = true /\ forall s, thread_view s (send_return site res).
Proof using Type. by destruct site, res as [|[]]. Qed.

(** The slot of a position that is owned. *)
Lemma owned_slot s i p q m st : power_of_two N -> mpsc_ok s -> in_width s -> s.(threads) !! i = Some p -> holding p = Some (q, (m, st)) -> st <> Published ->
  slot_at N s.(mr) (Z.of_nat q) = Some (slot_state s q) /\ s.(claims) !! q = Some (m, st) /\ Z.of_nat q + 1 < 2 ^ 63.
Proof using Type.
  intros HN I W Ei H Ns. pose proof (mo_holds _ I _ _ _ _ Ei H) as Eq. pose proof (pending_entry s q m st I Eq Ns). pose proof (lookup_lt_Some _ _ _ Eq). pose proof (released_le s). pose proof (mo_room _ I).
  split; [apply slot_lookup; try done; lia |]. split; [done |]. destruct W. pose proof (power_pos N HN). lia.
Qed.

Lemma thread_ok s i sp s' : power_of_two N -> (2 <= N)%nat -> mpsc_ok s -> in_width s -> thread_turn s i sp = Some s' -> mpsc_ok s'.
Proof using Type.
  intros HN N2 I W E. unfold thread_turn in E. destruct (s.(threads) !! i) as [p |] eqn:Ei; [| done]. cbn iota beta in E.
  destruct (producer_step N s.(mr) p sp) as [[[r p'] w] |] eqn:Es; [| done]. cbn iota beta in E. injection E as <-. pose proof (mo_views _ I _ _ Ei) as V.
  destruct p as [last | site m | site m | site m pos | site m pos | site m pos | site m pos | site | cx m | | cx m | | |]; cbn [producer_step] in Es; try done; cbn [thread_view] in V.
  - injection Es as <- <- <-. cbn [record_step]. destruct (consumer_gone _); [destruct (mpsc_send_quiet site (Err (MpscRingSendError.Closed m))) as (? & ? & ?) |]; by apply (thread_moves s i (MLoadGone site m)).
  - injection Es as <- <- <-. cbn [record_step]. apply (thread_moves s i (MLoadTail site m)); try done. cbn. rewrite (mo_tail _ I). lia.
  - destruct (probe s (Z.to_nat pos) HN N2 I W ltac:(lia)) as (sl & El & Hz & _). rewrite Z2Nat.id in * by lia. rewrite El in Es. cbn iota beta in Es. injection Es as <- <- <-. cbn [record_step].
    destruct (Z.eqb_spec (swrap 64 (wrap 64 (seq sl - pos))) 0) as [D | D]; [apply (thread_moves s i (MLoadSeq site m pos)); try done; cbn; specialize (Hz D); lia |].
    destruct (_ <? 0); [destruct (mpsc_send_quiet site (Err (MpscRingSendError.Full m))) as (? & ? & ?) |]; by apply (thread_moves s i (MLoadSeq site m pos)).
  - destruct ((s.(mr).(m_tail) =? pos) && negb sp) eqn:C.
    + injection Es as <- <- <-. apply andb_prop in C as [C%Z.eqb_eq _]. by apply thread_claims.
    + injection Es as <- <- <-. cbn [record_step]. apply (thread_moves s i (MCas site m pos)); try done. cbn. rewrite (mo_tail _ I). lia.
  - destruct (owned_slot s i _ (Z.to_nat pos) m Claimed HN I W Ei eq_refl ltac:(done)) as (El & Ec & Bq). rewrite Z2Nat.id in El by lia. rewrite El in Es. cbn iota beta in Es. injection Es as <- <- <-. cbn [record_step].
    apply (thread_advances s i (MWrite site m pos) _ _ m Claimed Written (mk_mslot (Z.of_nat (Z.to_nat pos)) (Some m))); try done; [by left |].
    cbn [set_slot m_slots]. rewrite <- (slot_index (Z.to_nat pos)), Z2Nat.id by (done || lia). unfold slot_state. rewrite Ec. cbn [seq]. by rewrite Z2Nat.id by lia.
  - destruct (owned_slot s i _ (Z.to_nat pos) m Written HN I W Ei eq_refl ltac:(done)) as (El & Ec & Bq). rewrite Z2Nat.id in El by lia. rewrite El in Es. cbn iota beta in Es. injection Es as <- <- <-. cbn [record_step].
    apply (thread_advances s i (MStoreSeq site m pos) _ _ m Written Published (mk_mslot (Z.of_nat (Z.to_nat pos) + 1) (Some m))); try done; [by right |].
    cbn [set_slot m_slots]. rewrite <- (slot_index (Z.to_nat pos)), Z2Nat.id by (done || lia). unfold slot_state. rewrite Ec. cbn [val]. rewrite wrap_small by (unfold is_u; lia). done.
  - injection Es as <- <- <-. cbn [record_step]. destruct (mpsc_send_quiet site (Ok tt)) as (? & ? & ?). by apply (thread_moves s i (MWake site)).
  - injection Es as <- <- <-. by apply (thread_moves s i (MRegister cx m)).
  - injection Es as <- <- <-. by apply (thread_moves s i MUnregister).
  - injection Es as <- <- <-. cbn [record_step]. by apply thread_drops.
  - injection Es as <- <- <-. by apply (thread_moves s i MDropWake).
Qed.

(** * The consumer's steps *)

Lemma receiver_moves s r c sw rw : mpsc_ok s ->
  r.(m_tail) = s.(mr).(m_tail) -> r.(m_head) = s.(mr).(m_head) -> r.(m_slots) = s.(mr).(m_slots) -> r.(producers) = s.(mr).(producers) ->
  released (mk_mpsc r s.(threads) c sw rw s.(claims) s.(delivered)) = released s -> advanced (mk_mpsc r s.(threads) c sw rw s.(claims) s.(delivered)) = advanced s ->
  receiver_view (mk_mpsc r s.(threads) c sw rw s.(claims) s.(delivered)) -> mpsc_ok (mk_mpsc r s.(threads) c sw rw s.(claims) s.(delivered)).
Proof using Type.
  intros I Et Eh Es Ep Er Ea V. pose proof I as [It Ih Id Ir Il Is Iv Io Iu Iw Ip Ic]. split; cbn [mr threads claims delivered]; rewrite ?Et, ?Eh, ?Es, ?Ep, ?Er, ?Ea; try done.
  intros i p Ei. pose proof (Iv i p Ei) as Vi. unfold thread_view in *. cbn [claims]. by rewrite Er.
Qed.

(** The consumer's test on the slot at its position. *)
Lemma published_test s : power_of_two N -> mpsc_ok s -> in_width s -> released s = length s.(delivered) ->
  exists sl, slot_at N s.(mr) (Z.of_nat (length s.(delivered))) = Some sl /\
    (published sl (Z.of_nat (length s.(delivered))) = true <-> exists m, s.(claims) !! length s.(delivered) = Some (m, Published)).
Proof using Type.
  intros HN I W Rl. pose proof (power_pos N HN) as [Np _]. pose proof (delivered_le s I). exists (slot_state s (length s.(delivered))). split; [apply slot_lookup; try done; lia |].
  destruct W as [W _]. unfold published. rewrite (wrap_small 64 (_ + 1)) by (unfold is_u; lia). destruct (slot_seq s (length s.(delivered))) as [E | E]; rewrite E, signed_diff by lia.
  - split; [intros D%Z.eqb_eq; lia |]. intros [m Em]. unfold slot_state in E. rewrite Em in E. simpl in E. lia.
  - split; [| intros _; apply Z.eqb_eq; lia]. intros _. unfold slot_state in E. destruct (s.(claims) !! length s.(delivered)) as [[m []] |]; simpl in E; try lia. by exists m.
Qed.

Lemma receiver_takes s site m : power_of_two N -> mpsc_ok s -> in_width s -> s.(receiver) = KTake site (Z.of_nat (length s.(delivered))) ->
  s.(claims) !! length s.(delivered) = Some (m, Published) ->
  slot_at N s.(mr) (Z.of_nat (length s.(delivered))) = Some (mk_mslot (Z.of_nat (length s.(delivered)) + 1) (Some m)) /\
  forall sw, mpsc_ok (mk_mpsc (set_slot s.(mr) (ring.slot_of N (Z.of_nat (length s.(delivered)))) (mk_mslot (Z.of_nat (length s.(delivered)) + 1) None)) s.(threads)
    (KStoreHead site (Z.of_nat (length s.(delivered))) m) sw s.(r_woken) s.(claims) (s.(delivered) ++ [m])).
Proof using Type.
  intros HN I W Ec Em. pose proof (power_pos N HN) as [Np _]. assert (Rl : released s = length s.(delivered)) by (unfold released; rewrite Ec; lia).
  pose proof (lookup_lt_Some _ _ _ Em) as Lm. destruct W as [W W']. split.
  { rewrite slot_lookup by (done || lia || by split). unfold slot_state. by rewrite Em, Nat.ltb_irrefl. }
  intros sw. set (s' := mk_mpsc _ _ _ _ _ _ _). assert (Rl' : released s' = released s) by (rewrite Rl; unfold released, s'; cbn [receiver delivered]; rewrite length_app; simpl; lia).
  pose proof I as [It Ih Id Ir Il Is Iv Io Iu Iw Ip Ic]. split; rewrite ?Rl'; unfold s'; cbn [mr set_slot m_tail m_head m_slots producers threads claims delivered]; try done.
  - rewrite Ih. unfold advanced. cbn [receiver delivered]. rewrite Ec, length_app. simpl. f_equal. lia.
  - rewrite fmap_app, Id, length_app. cbn [length fmap list_fmap]. rewrite Nat.add_1_r. by rewrite (take_S_r _ _ (m, Published)).
  - by rewrite length_insert.
  - intros q Bq. apply (slots_update s s' (length s.(delivered)) (mk_mslot (Z.of_nat (length s.(delivered)) + 1) None)); try done; try lia.
    + cbn [mr s' set_slot m_slots]. rewrite slot_index by (done || lia). done.
    + unfold slot_state, s'. cbn [claims delivered]. rewrite Em, length_app. simpl. by rewrite (proj2 (Nat.ltb_lt _ _)) by lia.
    + intros x Nx. unfold slot_state, s'. cbn [claims delivered]. rewrite length_app. simpl. destruct (s.(claims) !! x) as [[m' []] |]; try done. f_equal.
      destruct (Nat.ltb_spec x (length s.(delivered) + 1)), (Nat.ltb_spec x (length s.(delivered))); done || lia.
  - intros i p Ei. pose proof (Iv i p Ei) as Vi. unfold thread_view in *. cbn [claims]. fold s'. by rewrite Rl'.
  - unfold receiver_view. cbn [receiver delivered]. rewrite length_app. simpl. lia.
Qed.

Lemma receiver_releases s site m pos : power_of_two N -> mpsc_ok s -> in_width s -> s.(receiver) = KStoreSeq site pos m ->
  exists sl, slot_at N s.(mr) pos = Some sl /\
  forall sw, mpsc_ok (mk_mpsc (set_slot s.(mr) (ring.slot_of N pos) (mk_mslot (wrap 64 (pos + Z.of_nat N)) sl.(val))) s.(threads) (KWake site m) sw s.(r_woken) s.(claims) s.(delivered)).
Proof using Type.
  intros HN I W Ec. pose proof (power_pos N HN) as [Np _]. pose proof (mo_receiver _ I) as V. unfold receiver_view in V. rewrite Ec in V. pose proof (delivered_le s I) as Ld.
  assert (exists k, length s.(delivered) = S k /\ pos = Z.of_nat k) as (k & Lk & ->) by (exists (Z.to_nat pos); lia).
  assert (Rl : released s = k) by (unfold released; rewrite Ec, Lk; lia). pose proof (mo_room _ I) as Rm. destruct (delivered_entry s k I ltac:(lia)) as (m' & _ & Em).
  exists (slot_state s k). split; [apply slot_lookup; try done; lia |]. intros sw. set (s' := mk_mpsc _ _ _ _ _ _ _). assert (Rl' : released s' = S k) by (unfold released, s'; cbn [receiver delivered]; rewrite Lk; lia).
  destruct W as [W W']. pose proof I as [It Ih Id Ir Il Is Iv Io Iu Iw Ip Ic]. split; rewrite ?Rl'; unfold s'; cbn [mr set_slot m_tail m_head m_slots producers threads claims delivered]; try done.
  - rewrite Ih. unfold advanced. cbn [receiver delivered]. by rewrite Ec.
  - lia.
  - by rewrite length_insert.
  - intros q Bq. rewrite slot_index by (done || lia). destruct (decide (q = (k + N)%nat)) as [-> | Nq].
    + replace ((k + N) mod N)%nat with (k mod N)%nat by (rewrite <- (Nat.mul_1_l N) at 2; by rewrite Nat.Div0.mod_add).
      rewrite list_lookup_insert_eq by (rewrite Il; apply Nat.mod_upper_bound; lia). unfold slot_state at 1. rewrite Em. cbn [val]. rewrite (proj2 (Nat.ltb_lt _ _)) by lia.
      unfold slot_state. cbn [claims]. rewrite lookup_ge_None_2 by lia. rewrite wrap_small by (unfold is_u; lia). do 2 f_equal. lia.
    + rewrite list_lookup_insert_ne; [apply (Is q); lia |]. intros Eq. apply (window_distinct N k) in Eq; lia.
  - intros i p Ei. pose proof (Iv i p Ei) as Vi. unfold thread_view in *. cbn [claims]. fold s'. rewrite Rl'. destruct p; try done. lia.
Qed.

Lemma receiver_heads s site pos m sw : mpsc_ok s -> in_width s -> s.(receiver) = KStoreHead site pos m ->
  mpsc_ok (mk_mpsc (set_head s.(mr) (wrap 64 (pos + 1))) s.(threads) (KStoreSeq site pos m) sw s.(r_woken) s.(claims) s.(delivered)).
Proof using Type.
  intros I [W _] Ec. pose proof (mo_receiver _ I) as V. unfold receiver_view in V. rewrite Ec in V. pose proof (delivered_le s I). set (s' := mk_mpsc _ _ _ _ _ _ _).
  assert (Rl : released s' = released s) by (unfold released, s'; cbn [receiver delivered]; by rewrite Ec).
  pose proof I as [It Ih Id Ir Il Is Iv Io Iu Iw Ip Ic]. split; rewrite ?Rl; unfold s'; cbn [mr set_head m_tail m_head m_slots producers threads claims delivered]; try done.
  - rewrite wrap_small by (unfold is_u; lia). unfold advanced. cbn [receiver delivered]. lia.
  - intros i p Ei. pose proof (Iv i p Ei) as Vi. unfold thread_view in *. cbn [claims]. fold s'. by rewrite Rl.
Qed.

Lemma no_handle s : mpsc_ok s -> s.(mr).(producers) = 0 -> Forall (fun p => alive p = false) s.(threads).
Proof using Type.
  intros I Z0. rewrite (mo_producers _ I) in Z0. assert (E : filter (fun p => alive p = true) s.(threads) = []) by (apply nil_length_inv; lia).
  apply Forall_forall. intros p Hp. destruct (alive p) eqn:A; [| done]. assert (H : p ∈ filter (fun p => alive p = true) s.(threads)) by (by apply list_elem_of_filter). rewrite E in H. by apply elem_of_nil in H.
Qed.

Lemma mpsc_recv_quiet site res s : s.(receiver) = recv_return (T := T) site res -> receiver_view s /\ released s = length s.(delivered) /\ advanced s = length s.(delivered).
Proof using Type. intros E. unfold receiver_view, released, advanced. rewrite E. destruct site, res as [[] |]; (split; [done |]); simpl; lia. Qed.

Lemma receiver_ok s s' : power_of_two N -> mpsc_ok s -> in_width s -> receiver_turn s = Some s' -> mpsc_ok s'.
Proof using Type.
  intros HN I W E. unfold receiver_turn in E. destruct (consumer_step N s.(mr) s.(receiver)) as [[[r c] w] |] eqn:Es; [| done]. cbn iota beta in E. injection E as <-.
  pose proof (mo_receiver _ I) as V. unfold receiver_view in V.
  assert (Qt : forall site res r' sw, released s = length s.(delivered) -> advanced s = length s.(delivered) -> r'.(m_tail) = s.(mr).(m_tail) -> r'.(m_head) = s.(mr).(m_head) ->
    r'.(m_slots) = s.(mr).(m_slots) -> r'.(producers) = s.(mr).(producers) -> mpsc_ok (mk_mpsc r' s.(threads) (recv_return site res) sw s.(r_woken) s.(claims) s.(delivered))).
  { intros site res r' sw Rl Ad E1 E2 E3 E4. destruct (mpsc_recv_quiet site res (mk_mpsc r' s.(threads) (recv_return site res) sw s.(r_woken) s.(claims) s.(delivered)) eq_refl) as (Vr & Rr & Ar).
    cbn [delivered] in Rr, Ar. apply receiver_moves; try done; congruence. }
  destruct s.(receiver) as [last | site | site pos | site pos | site pos m | site pos m | site m | site pos | site pos | cx | m | cx | | |] eqn:Ec; cbn [consumer_step] in Es; try done.
  all: try (assert (Rl : released s = length s.(delivered)) by (unfold released; rewrite Ec; lia)); try (assert (Ad : advanced s = length s.(delivered)) by (unfold advanced; rewrite Ec; lia)).
  - injection Es as <- <- <-. apply receiver_moves; try done; [unfold released; by rewrite Ec | unfold advanced; by rewrite Ec |]. unfold receiver_view. cbn [receiver delivered]. by rewrite (mo_head _ I), Ad.
  - subst pos. destruct (published_test s HN I W Rl) as (sl & El & Ep). rewrite El in Es. cbn iota beta in Es. injection Es as <- <- <-. destruct (published sl _).
    + apply receiver_moves; try done; [unfold released; by rewrite Ec | unfold advanced; by rewrite Ec |]. unfold receiver_view. cbn [receiver delivered claims]. split; [done | by apply Ep].
    + assert (X : mpsc_ok (mk_mpsc s.(mr) s.(threads) (KLoadProducers site (Z.of_nat (length s.(delivered)))) (s.(s_woken) ++ option_list None) s.(r_woken) s.(claims) s.(delivered))).
      { apply receiver_moves; try done; [unfold released; by rewrite Ec | unfold advanced; by rewrite Ec]. }
      destruct site; try exact X. by apply Qt.
  - destruct V as [-> [m Em]]. destruct (receiver_takes s site m HN I W Ec Em) as [El X]. rewrite El in Es. cbn iota beta in Es. cbn [val seq] in Es. injection Es as <- <- <-. apply X.
  - injection Es as <- <- <-. by apply (receiver_heads s site pos m).
  - destruct (receiver_releases s site m pos HN I W Ec) as (sl & El & X). rewrite El in Es. cbn iota beta in Es. injection Es as <- <- <-. apply X.
  - injection Es as <- <- <-. by apply Qt.
  - injection Es as <- <- <-. destruct (Z.eqb_spec s.(mr).(producers) 0) as [Ez | Nz]; [| by apply Qt].
    apply receiver_moves; try done; [unfold released; by rewrite Ec | unfold advanced; by rewrite Ec |]. unfold receiver_view. cbn [receiver delivered threads]. split; [done |]. by apply no_handle.
  - destruct V as [-> _]. destruct (published_test s HN I W Rl) as (sl & El & _). rewrite El in Es. cbn iota beta in Es. injection Es as <- <- <-. by apply Qt.
  - injection Es as <- <- <-. apply receiver_moves; try done; [unfold released; by rewrite Ec | unfold advanced; by rewrite Ec].
  - injection Es as <- <- <-. apply receiver_moves; try done; [unfold released; by rewrite Ec | unfold advanced; by rewrite Ec].
  - injection Es as <- <- <-. apply receiver_moves; try done; [unfold released; by rewrite Ec | unfold advanced; by rewrite Ec].
  - injection Es as <- <- <-. apply receiver_moves; try done; [unfold released; by rewrite Ec | unfold advanced; by rewrite Ec].
Qed.

(** * Reachable states *)

Lemma mpsc_start_ok : power_of_two N -> mpsc_ok mpsc_start.
Proof using Type.
  intros HN. pose proof (power_pos N HN) as [Np _]. split; cbn [mpsc_start mr new m_tail m_head m_slots producers threads claims delivered]; try done.
  - cbn. lia.
  - by rewrite length_fmap, length_seq.
  - intros p [_ Bp]. change (released mpsc_start) with 0%nat in Bp. rewrite Nat.mod_small by lia. rewrite list_lookup_fmap, lookup_seq_lt by lia. done.
  - intros i p Ei. apply list_lookup_singleton_Some in Ei as [_ <-]. done.
  - intros i p q e Ei. apply list_lookup_singleton_Some in Ei as [_ <-]. done.
  - intros i j p p' q e e' Ei. apply list_lookup_singleton_Some in Ei as [_ <-]. done.
Qed.

Lemma clone_ok s i last : mpsc_ok s -> in_width s -> s.(threads) !! i = Some (MIdle last) -> mpsc_ok (with_clone s).
Proof using Type.
  intros I [_ W] Ei. pose proof (length_filter (fun p => alive p = true) s.(threads)) as Lf. pose proof I as [It Ih Id Ir Il Is Iv Io Iu Iw Ip Ic].
  assert (L : forall j p, (s.(threads) ++ [MIdle None]) !! j = Some p -> s.(threads) !! j = Some p \/ p = MIdle None).
  { intros j p Ej. apply lookup_app_Some in Ej as [Ej | [_ Ej]]; [by left |]. apply list_lookup_singleton_Some in Ej as [_ <-]. by right. }
  split; cbn [with_clone mr set_producers m_tail m_head m_slots producers threads claims delivered]; try done.
  - intros j p Ej. destruct (L j p Ej) as [Ej' | ->]; [by apply (Iv j) | done].
  - intros j p q e Ej. destruct (L j p Ej) as [Ej' | ->]; [by apply Io with j | done].
  - intros j k p p' q e e' Ej Ek. destruct (L j p Ej) as [Ej' | ->]; [| done]. destruct (L k p' Ek) as [Ek' | ->]; [by apply (Iu j k p p') | done].
  - intros q m st Eq. destruct (Iw q m st Eq) as [-> | (j & x & Ej & Hx)]; [by left |]. right. exists j, x. split; [by apply lookup_app_l_Some | done].
  - rewrite filter_app, length_app, Ip, wrap_small; [simpl; lia |]. unfold is_u. lia.
  - unfold receiver_view in *. cbn [with_clone receiver delivered claims threads]. destruct s.(receiver); try done. destruct Ic as [_ F]. by pose proof (Forall_lookup_1 _ _ _ _ F Ei).
Qed.

Lemma mpsc_step_ok s s' : power_of_two N -> (2 <= N)%nat -> mpsc_ok s -> in_width s -> mpsc_step s s' -> mpsc_ok s'.
Proof using Type.
  intros HN N2 I W []; [by eapply thread_ok | by eapply receiver_ok | .. ].
  all: try match goal with E : receiver _ = _ |- _ => apply receiver_moves; try done; [unfold released; by rewrite E | unfold advanced; by rewrite E] end.
  all: try match goal with E : threads _ !! _ = _ |- _ => (by eapply clone_ok) || (eapply thread_moves; try done) end.
Qed.

(** The history only grows. *)
Lemma record_grows (p p' : MProducer T) cl : (length cl <= length (record_step p p' cl))%nat.
Proof using Type. unfold record_step. destruct p, p'; rewrite ?length_app, ?length_insert; simpl; lia. Qed.

Lemma mpsc_step_grows s s' : mpsc_step s s' -> in_width s' -> in_width s.
Proof using Type.
  intros St [W1 W2]. assert (H : (length s.(claims) <= length s'.(claims))%nat /\ (length s.(threads) <= length s'.(threads))%nat); [| split; lia].
  clear W1 W2. destruct St; try match goal with E : thread_turn _ _ _ = _ |- _ => unfold thread_turn in E; destruct (s.(threads) !! i) as [p |]; [| done]; cbn iota beta in E; destruct (producer_step _ _ _ _) as [[[r p'] w] |]; [| done]; cbn iota beta in E; injection E as <-
    | E : receiver_turn _ = _ |- _ => unfold receiver_turn in E; destruct (consumer_step _ _ _) as [[[r c] w] |]; [| done]; cbn iota beta in E; injection E as <- end.
  all: cbn [claims threads with_thread with_receiver with_clone]; rewrite ?length_insert, ?length_app; split; try apply record_grows; lia.
Qed.

Lemma mpsc_reachable_ok s : power_of_two N -> (2 <= N)%nat -> mpsc_reachable s -> in_width s -> mpsc_ok s.
Proof using Type.
  intros HN N2. induction 1 as [| s s' R IH St]; intros W; [by apply mpsc_start_ok |]. pose proof (mpsc_step_grows _ _ St W) as W0. eapply mpsc_step_ok; try done. by apply IH.
Qed.
End Mpsc.
Arguments Mpsc : clear implicits.
