(* ===== verification/IpcMpscSpec.v ===== *)
(** What the multi-producer ring promises, and where it does not: order and
    ownership, the end of the stream, wakeups, and two runs that lose a wakeup
    and a message. *)

From stdpp Require Import sets.
From S2P Require Import Prelude Word IpcRing IpcRingSound IpcMpscRing IpcMpscSound.
Import mpsc.

Section Spec.
Context {T : Type} (N : nat).
Implicit Types s : Mpsc T.

(** * The end of the stream *)

(** No handle is left. *)
Definition all_dropped s : Prop := Forall (fun p => alive p = false) s.(threads).

(** Without handles every claimed position is published. *)
Lemma dropped_published s q m st : mpsc_ok N s -> all_dropped s -> s.(claims) !! q = Some (m, st) -> st = Published.
Proof using Type.
  intros I D E. destruct (mo_owned _ _ I q m st E) as [-> | (i & p & Ei & H)]; [done |]. pose proof (Forall_lookup_1 _ _ _ _ D Ei) as A. by destruct p.
Qed.

Definition reported_closed (c : MConsumer T) : bool :=
  match c with KIdle (Some (MRecvReturned (Err _))) | KIdle (Some (MRecvReady (Err _))) => true | _ => false end.

(** [Closed] was reported, and everything was delivered. *)
Definition closed_drained s : Prop := reported_closed s.(receiver) = true -> all_dropped s /\ length s.(claims) = length s.(delivered).

Lemma dropped_turn s i sp s' : all_dropped s -> thread_turn N s i sp = Some s' -> all_dropped s' /\ s'.(claims) = s.(claims) /\ s'.(delivered) = s.(delivered) /\ s'.(receiver) = s.(receiver).
Proof using Type.
  intros D E. unfold thread_turn in E. destruct (s.(threads) !! i) as [p |] eqn:Ei; [| done]. pose proof (Forall_lookup_1 _ _ _ _ D Ei) as A. cbn beta in A. cbn iota beta in E.
  destruct p; try done. cbn [producer_step] in E. injection E as <-. split; [| done]. unfold all_dropped. cbn [threads]. by apply Forall_insert.
Qed.

Lemma dropped_idle s i p : all_dropped s -> s.(threads) !! i = Some p -> alive p = true -> False.
Proof using Type. intros D Ei A. pose proof (Forall_lookup_1 _ _ _ _ D Ei) as A'. cbn beta in A'. congruence. Qed.

Lemma thread_turn_receiver s i sp s' : thread_turn N s i sp = Some s' -> s'.(receiver) = s.(receiver) /\ s'.(delivered) = s.(delivered).
Proof using Type.
  intros E. unfold thread_turn in E. destruct (s.(threads) !! i) as [p |]; [| done]. cbn iota beta in E. destruct (producer_step _ _ _ _) as [[[r p'] w] |]; [| done]. by injection E as <-.
Qed.

Lemma closed_step s s' : power_of_two N -> mpsc_ok N s -> in_width N s -> closed_drained s -> mpsc_step N s s' -> closed_drained s'.
Proof using Type.
  intros HN I W C St. unfold closed_drained in *. destruct St as [i sp s' E | s' E | i last m E | i last m E | i last m cx E | i m cx cx' E | i m cx E | i last E | i last E | last E | last E | last cx E | cx cx' E | cx E | last E]; try done.
  3-9: cbn [receiver with_thread with_clone]; intros H; exfalso; eapply dropped_idle; [exact (proj1 (C H)) | exact E | done].
  - destruct (thread_turn_receiver _ _ _ _ E) as [Er Ed]. rewrite Er. intros H. destruct (C H) as [D L]. destruct (dropped_turn _ _ _ _ D E) as (D' & Ec & Ed' & _). by rewrite Ec, Ed'.
  - unfold receiver_turn in E. destruct (consumer_step N s.(mr) s.(receiver)) as [[[r c] w] |] eqn:Es; [| done]. cbn iota beta in E. injection E as <-. cbn [receiver]. intros H.
    pose proof (mo_receiver _ _ I) as V. unfold receiver_view in V.
    destruct s.(receiver) as [last | site | site pos | site pos | site pos m | site pos m | site m | site pos | site pos | cx | m | cx | | |] eqn:Ec; cbn [consumer_step] in Es; try done.
    all: try (injection Es as <- <- <-; try done; by destruct site).
    all: try (destruct (slot_at N s.(mr) pos) as [sl |]; [| done]; cbn iota beta in Es; injection Es as <- <- <-; try done; by destruct (published sl pos), site).
    + destruct (slot_at N s.(mr) pos) as [sl |]; [| done]. cbn iota beta in Es. destruct (val sl); [| done]. cbn iota beta in Es. by injection Es as <- <- <-.
    + injection Es as <- <- <-. destruct (_ =? _); [done | by destruct site].
    + destruct V as [-> D]. split; [exact D |]. cbn [claims delivered]. assert (Rl : released s = length s.(delivered)) by (unfold released; rewrite Ec; lia).
      destruct (published_test N s HN I W Rl) as (sl & El & Ep). rewrite El in Es. cbn iota beta in Es. injection Es as <- <- <-. pose proof (delivered_le N s I).
      destruct (s.(claims) !! length s.(delivered)) as [[m st] |] eqn:Em; [| apply lookup_ge_None_1 in Em; lia].
      pose proof (dropped_published s _ _ _ I D Em) as ->. rewrite (proj2 Ep (ex_intro _ m eq_refl)) in H. by destruct site.
Qed.

(** * Wakeups of the consumer *)

Definition r_registered s cx : Prop := cx ∈ s.(r_woken) \/ s.(mr).(m_consumer_waker) = Some cx.

(** The message next in order is published. *)
Definition available s : Prop := exists m, s.(claims) !! length s.(delivered) = Some (m, Published).

Definition r_told_message s cx : Prop := ~ available s \/ (exists i site, s.(threads) !! i = Some (MWake site)) \/ cx ∈ s.(r_woken).
Definition r_told_closed s cx : Prop := ~ all_dropped s \/ (exists i, s.(threads) !! i = Some MDropWake) \/ cx ∈ s.(r_woken).

Definition r_hears s : Prop :=
  match s.(receiver) with
  | KLoadHead (RecvSecond cx) | KLoadSeq (RecvSecond cx) _ => r_registered s cx
  | KLoadProducers (RecvSecond cx) _ | KLoadSeqAgain (RecvSecond cx) _ => r_registered s cx /\ r_told_message s cx
  | KPending cx => r_registered s cx /\ r_told_message s cx /\ r_told_closed s cx
  | _ => True
  end.

(** What the consumer's task relies on, kept by a change of the producers. *)
Definition r_keeps s s' cx : Prop :=
  r_registered s' cx /\ (r_told_message s cx -> r_told_message s' cx) /\ (r_told_closed s cx -> r_told_closed s' cx).

Lemma r_keeps_woken s s' cx : cx ∈ s'.(r_woken) -> r_keeps s s' cx.
Proof using Type. intros W. split; [by left |]. split; intros _; right; by right. Qed.

(** A producer moves on, waking nobody and publishing nothing. *)
Lemma r_keeps_frame s s' cx i p p' : r_registered s cx -> s.(threads) !! i = Some p ->
  s'.(r_woken) = s.(r_woken) -> s'.(mr).(m_consumer_waker) = s.(mr).(m_consumer_waker) -> s'.(threads) = <[i := p']> s.(threads) ->
  (available s' -> available s) -> match p with MWake _ | MDropWake => False | _ => True end -> alive p = true -> (alive p' = true \/ p' = MDropWake \/ ~ all_dropped s') -> r_keeps s s' cx.
Proof using Type.
  intros R Ei E1 E2 E3 Av Q A A'. unfold r_keeps, r_registered, r_told_message, r_told_closed. rewrite E1, E2.
  assert (Li : (i < length s.(threads))%nat) by (by eapply lookup_lt_Some).
  assert (Oth : forall j x, s.(threads) !! j = Some x -> j <> i -> s'.(threads) !! j = Some x) by (intros j x Ej Nj; rewrite E3, list_lookup_insert_ne; done).
  split; [done |]. split; intros H.
  - destruct H as [H | [(j & site & Ej) | H]]; [left; auto | | by right; right]. right. left. exists j, site. apply Oth; [done |]. intros ->. rewrite Ei in Ej. by injection Ej as ->.
  - destruct A' as [A' | [-> | A']]; [left; intros D; eapply dropped_idle; [exact D | rewrite E3; by apply list_lookup_insert_eq | done] | right; left; exists i; rewrite E3; by apply list_lookup_insert_eq | by left].
Qed.

Lemma none_alive (l : list (MProducer T)) : Forall (fun p => alive p = false) l -> filter (fun p => alive p = true) l = [].
Proof using Type. induction 1 as [| p l A _ IH]; [done |]. rewrite filter_cons, decide_False; [done | congruence]. Qed.

Lemma send_return_alive site res : alive (send_return (T := T) site res) = true.
Proof using Type. by destruct site, res as [|[]]. Qed.

Lemma thread_tells s i sp s' cx : mpsc_ok N s -> thread_turn N s i sp = Some s' -> r_registered s cx -> r_keeps s s' cx.
Proof using Type.
  intros I E R. unfold thread_turn in E. destruct (s.(threads) !! i) as [p |] eqn:Ei; [| done]. cbn iota beta in E.
  destruct (producer_step N s.(mr) p sp) as [[[r p'] w] |] eqn:Es; [| done]. cbn iota beta in E. injection E as <-.
  assert (Wk : w = s.(mr).(m_consumer_waker) -> cx ∈ s.(r_woken) ++ option_list w).
  { intros ->. apply elem_of_app. destruct R as [R | R]; [by left |]. right. rewrite R. by constructor. }
  assert (Li : (i < length s.(threads))%nat) by (by eapply lookup_lt_Some).
  destruct p as [last | site m | site m | site m pos | site m pos | site m pos | site m pos | site | cx' m | | cx' m | | |]; cbn [producer_step] in Es; try done.
  all: try (destruct (slot_at N s.(mr) pos) as [sl |]; [| done]; cbn iota beta in Es).
  all: try (injection Es as <- <- <-; apply r_keeps_woken; by apply Wk).
  all: try (injection Es as <- <- <-; eapply r_keeps_frame; [exact R | exact Ei | cbn [r_woken option_list]; by rewrite app_nil_r | done | done | done | done | done |]; left; done || (destruct (consumer_gone _); [apply send_return_alive | done]) || (destruct (_ =? 0); [done |]; destruct (_ <? 0); [apply send_return_alive | done])).
  - destruct (_ && _); injection Es as <- <- <-; (eapply r_keeps_frame; [exact R | exact Ei | cbn [r_woken option_list]; by rewrite app_nil_r | done | done | | done | done | by left]); [| done].
    unfold available. cbn [claims delivered record_step]. intros [m' Em]. apply lookup_app_Some in Em as [Em | [_ Em]]; [by exists m' |]. by apply list_lookup_singleton_Some in Em as [_ ?].
  - injection Es as <- <- <-. eapply r_keeps_frame; [exact R | exact Ei | cbn [r_woken option_list]; by rewrite app_nil_r | done | done | | done | done | by left].
    unfold available. cbn [claims delivered record_step]. intros [m' Em]. apply list_lookup_insert_Some in Em as [(_ & ? & _) | [_ Em]]; [done | by exists m'].
  - injection Es as <- <- <-. unfold r_keeps, r_registered, r_told_message, r_told_closed. cbn [r_woken mr set_slot m_consumer_waker threads option_list]. rewrite app_nil_r. split; [done |]. split; intros _.
    + right. left. exists i, site. by apply list_lookup_insert_eq.
    + left. intros D. eapply dropped_idle; [exact D | cbn [threads]; by apply list_lookup_insert_eq | done].
  - injection Es as <- <- <-. eapply r_keeps_frame; [exact R | exact Ei | cbn [r_woken option_list]; by rewrite app_nil_r | done | done | done | done | done |]. right.
    destruct (Z.eqb_spec s.(mr).(producers) 1) as [E1 | E1]; [by left | right]. unfold all_dropped. cbn [threads]. intros D. apply E1. rewrite (mo_producers _ _ I), (alive_drop _ i MDropSub MGone) by done.
    rewrite none_alive by done. done.
Qed.

Lemma r_hears_keeps s s' : s'.(receiver) = s.(receiver) -> (forall cx, r_registered s cx -> r_keeps s s' cx) -> r_hears s -> r_hears s'.
Proof using Type.
  intros E K H. unfold r_hears in *. rewrite E. destruct s.(receiver) as [| [| | |cx] | [| | |cx] ? | | | | | [| | |cx] ? | [| | |cx] ? | | | cx | | |]; try done.
  - by apply K.
  - by apply K.
  - destruct H as [R M]. destruct (K cx R) as (? & ? & _). auto.
  - destruct H as [R M]. destruct (K cx R) as (? & ? & _). auto.
  - destruct H as (R & M & C). destruct (K cx R) as (? & ? & ?). auto.
Qed.

Lemma receiver_hears s s' : power_of_two N -> mpsc_ok N s -> in_width N s -> r_hears s -> receiver_turn N s = Some s' -> r_hears s'.
Proof using Type.
  intros HN I W H E. unfold receiver_turn in E. destruct (consumer_step N s.(mr) s.(receiver)) as [[[r c] w] |] eqn:Es; [| done]. cbn iota beta in E. injection E as <-.
  pose proof (mo_receiver _ _ I) as V. unfold receiver_view in V. unfold r_hears in H. unfold r_hears. cbn [receiver].
  destruct s.(receiver) as [last | site | site pos | site pos | site pos m | site pos m | site m | site pos | site pos | cx | m | cx | | |] eqn:Ec; cbn [consumer_step] in Es; try done.
  - injection Es as <- <- <-. by destruct site.
  - subst pos. assert (Rl : released s = length s.(delivered)) by (unfold released; rewrite Ec; lia). destruct (published_test N s HN I W Rl) as (sl & El & Ep). rewrite El in Es. cbn iota beta in Es. injection Es as <- <- <-.
    destruct (published sl _) eqn:P; [done |]. destruct site as [| | |cx]; try done. split; [exact H |]. left. unfold available. cbn [claims delivered]. intros A. apply Ep in A. done.
  - destruct (slot_at N s.(mr) pos) as [sl |]; [| done]. cbn iota beta in Es. destruct (val sl); [| done]. cbn iota beta in Es. by injection Es as <- <- <-.
  - by injection Es as <- <- <-.
  - destruct (slot_at N s.(mr) pos) as [sl |]; [| done]. cbn iota beta in Es. by injection Es as <- <- <-.
  - injection Es as <- <- <-. by destruct site.
  - injection Es as <- <- <-. destruct (Z.eqb_spec s.(mr).(producers) 0) as [Z0 | Z0]; destruct site as [| | |cx]; try done. destruct H as [R M]. split; [exact R | split; [exact M |]]. left.
    intros D. apply Z0. rewrite (mo_producers _ _ I), none_alive by exact D. done.
  - destruct (slot_at N s.(mr) pos) as [sl |] eqn:El; [| done]. cbn iota beta in Es. injection Es as <- <- <-. destruct (published sl pos) eqn:P; destruct site as [| | |cx]; try done.
    destruct H as [R M]. split; [exact R | split; [exact M |]]. right. right. cbn [r_woken]. destruct V as [-> D]. destruct M as [M | [(i & site & Ei) | M]]; [| | done].
    + exfalso. apply M. assert (Rl : released s = length s.(delivered)) by (unfold released; rewrite Ec; lia). destruct (published_test N s HN I W Rl) as (sl' & El' & Ep). rewrite El in El'. injection El' as <-. by apply Ep.
    + exfalso. eapply dropped_idle; [exact D | exact Ei | done].
  - injection Es as <- <- <-. by right.
  - by injection Es as <- <- <-.
  - by injection Es as <- <- <-.
  - by injection Es as <- <- <-.
Qed.

Lemma hears_step s s' : power_of_two N -> mpsc_ok N s -> in_width N s -> r_hears s -> mpsc_step N s s' -> r_hears s'.
Proof using Type.
  intros HN I W H St. destruct St as [i sp s' E | s' E | i last m E | i last m E | i last m cx E | i m cx cx' E | i m cx E | i last E | i last E | last E | last E | last cx E | cx cx' E | cx E | last E]; try done.
  3-8: apply (r_hears_keeps s); [done | | done]; intros; eapply r_keeps_frame; try done; by left.
  - apply (r_hears_keeps s); [by eapply thread_turn_receiver | intros; by eapply thread_tells | done].
  - by eapply receiver_hears.
  - apply (r_hears_keeps s); [done | | done]. intros cx R. unfold r_keeps, r_registered, r_told_message, r_told_closed. cbn [with_clone r_woken mr set_producers m_consumer_waker threads claims delivered]. split; [done |]. split; intros X.
    + destruct X as [X | [(j & site & Ej) | X]]; [by left | right; left; exists j, site; by apply lookup_app_l_Some | by right; right].
    + left. intros D. eapply (dropped_idle (with_clone s) i); [exact D | cbn [with_clone threads]; by apply lookup_app_l_Some | done].
Qed.

Lemma mpsc_invariant s : power_of_two N -> (2 <= N)%nat -> mpsc_reachable N s -> in_width N s -> mpsc_ok N s /\ closed_drained s /\ r_hears s.
Proof using Type.
  intros HN N2. induction 1 as [| s s' R IH St]; intros W; [split; [by apply mpsc_start_ok | done] |]. pose proof (mpsc_step_grows N _ _ St W) as W0. destruct (IH W0) as (I & C & H).
  split; [by eapply mpsc_step_ok |]. split; [by eapply closed_step | by eapply hears_step].
Qed.

(** * Ownership *)

Lemma held_window s i p q e : mpsc_ok N s -> s.(threads) !! i = Some p -> holding p = Some (q, e) -> (released s <= q < released s + N)%nat /\ (length s.(delivered) <= q)%nat /\ Z.of_nat q < Z.of_nat (length s.(claims)).
Proof using Type.
  intros I Ei H. pose proof (mo_holds _ _ I _ _ _ _ Ei H) as Eq. destruct e as [m st]. assert (Ns : st <> Published) by (destruct p; try done; by injection H as _ _ <-).
  pose proof (pending_entry N s q m st I Eq Ns). pose proof (released_le s). pose proof (mo_room _ _ I). pose proof (lookup_lt_Some _ _ _ Eq). lia.
Qed.

(** A producer under way has a next step. *)
Lemma thread_turns s i p sp : power_of_two N -> (2 <= N)%nat -> mpsc_ok N s -> in_width N s -> s.(threads) !! i = Some p -> match p with MIdle _ | MPending _ _ | MGone => False | _ => True end ->
  thread_turn N s i sp <> None.
Proof using Type.
  intros HN N2 I W Ei Rn. unfold thread_turn. rewrite Ei. cbn iota beta. pose proof (mo_views _ _ I _ _ Ei) as V. destruct p; try done; cbn [producer_step]; cbn [thread_view] in V.
  - destruct (probe N s (Z.to_nat pos) HN N2 I W ltac:(lia)) as (sl & El & _). rewrite Z2Nat.id in El by lia. by rewrite El.
  - by destruct (_ && _).
  - destruct (owned_slot N s i _ (Z.to_nat pos) m Claimed HN I W Ei eq_refl ltac:(done)) as (El & _). rewrite Z2Nat.id in El by lia. by rewrite El.
  - destruct (owned_slot N s i _ (Z.to_nat pos) m Written HN I W Ei eq_refl ltac:(done)) as (El & _). rewrite Z2Nat.id in El by lia. by rewrite El.
Qed.

Lemma receiver_turns s : power_of_two N -> mpsc_ok N s -> in_width N s -> match s.(receiver) with KIdle _ | KPending _ | KGone => False | _ => True end -> receiver_turn N s <> None.
Proof using Type.
  intros HN I W Rn. unfold receiver_turn. pose proof (mo_receiver _ _ I) as V. unfold receiver_view in V. destruct s.(receiver) as [last | site | site pos | site pos | site pos m | site pos m | site m | site pos | site pos | cx | m | cx | | |] eqn:Ec; try done; cbn [consumer_step].
  - subst pos. destruct (published_test N s HN I W) as (sl & El & _); [unfold released; rewrite Ec; lia |]. by rewrite El.
  - destruct V as [-> [m Em]]. destruct (receiver_takes N s site m HN I W Ec Em) as [El _]. by rewrite El.
  - destruct (receiver_releases N s site m pos HN I W Ec) as (sl & El & _). by rewrite El.
  - destruct V as [-> _]. destruct (published_test N s HN I W) as (sl & El & _); [unfold released; rewrite Ec; lia |]. by rewrite El.
Qed.

(** * Dropping the ring *)

Lemma mpsc_drop_loop fuel sl (q : list T) i : power_of_two N -> (length q < fuel)%nat -> (length q <= N)%nat -> Z.of_nat (i + length q) < 2 ^ 63 ->
  (forall j x, q !! j = Some x -> sl !! ((i + j) mod N)%nat = Some (mk_mslot (Z.of_nat (i + j) + 1) (Some x))) ->
  drop_loop N fuel sl (Z.of_nat i) (Z.of_nat (i + length q)) = Some q.
Proof using Type.
  intros HN. revert sl i q. induction fuel as [| fuel IH]; intros sl i q F L B S; [lia |]. cbn [drop_loop].
  destruct q as [| x q]; [cbn [length]; by rewrite Nat.add_0_r, Z.eqb_refl |]. simpl in F, L, B. rewrite (proj2 (Z.eqb_neq _ _)) by (simpl; lia).
  rewrite slot_index by (done || lia). pose proof (S 0%nat x eq_refl) as E0. rewrite Nat.add_0_r in E0. rewrite E0. cbn iota beta. cbn [seq val]. rewrite wrap_small by (unfold is_u; lia). rewrite Z.eqb_refl.
  replace (Z.of_nat i + 1) with (Z.of_nat (Datatypes.S i)) by lia. cbn [length]. rewrite <- Nat.add_succ_comm.
  rewrite (IH _ (Datatypes.S i) q); [done | lia | lia | lia |]. intros j y Ej. pose proof (lookup_lt_Some _ _ _ Ej).
  rewrite list_lookup_insert_ne; [rewrite Nat.add_succ_comm; by apply (S (Datatypes.S j)) |]. intros Eq. apply (window_distinct N i) in Eq; lia.
Qed.

Lemma mpsc_drop_ok s : power_of_two N -> mpsc_ok N s -> in_width N s -> all_dropped s -> s.(receiver) = KGone ->
  drop_ring N s.(mr) = Some (fst <$> drop (length s.(delivered)) s.(claims)).
Proof using Type.
  intros HN I [W _] D Ec. assert (Rl : released s = length s.(delivered)) by (unfold released; rewrite Ec; lia). pose proof (delivered_le N s I). pose proof (mo_room _ _ I).
  unfold drop_ring. rewrite (mo_tail _ _ I), (mo_head _ _ I). unfold advanced. rewrite Ec, Nat.sub_0_r.
  replace (length s.(claims)) with (length s.(delivered) + length (fst <$> drop (length s.(delivered)) s.(claims)))%nat at 1 by (rewrite length_fmap, length_drop; lia).
  apply mpsc_drop_loop; try done; try (rewrite length_fmap, length_drop; lia). intros j x E. rewrite list_lookup_fmap, lookup_drop in E. destruct (s.(claims) !! (length s.(delivered) + j)%nat) as [[m st] |] eqn:Em; [| done].
  injection E as <-. pose proof (lookup_lt_Some _ _ _ Em). rewrite (mo_slots _ _ I) by lia. unfold slot_state. rewrite Em, (dropped_published s _ _ _ I D Em). by rewrite (proj2 (Nat.ltb_ge _ _)) by lia.
Qed.

(** * Properties of the ring *)

Definition m_running (p : MProducer T) : bool := match p with MIdle _ | MPending _ _ | MGone => false | _ => true end.
Definition k_running (c : MConsumer T) : bool := match c with KIdle _ | KPending _ | KGone => false | _ => true end.

(** C11: With a capacity of at least two, the ring is a bounded queue in the order
    in which positions were claimed.  In every interleaving of any number of
    producers and the consumer, with fewer than 2^63 messages, what was delivered
    is an initial part of what was claimed and at most the capacity is under way;
    a method under way always has a next step, whether or not its
    compare-and-exchange fails, so no empty slot is taken; and once all handles
    are gone, dropping the ring destroys exactly what was not delivered. *)
Theorem mpsc_ring_is_queue s : power_of_two N -> (2 <= N)%nat -> mpsc_reachable N s -> in_width N s ->
  exists queue, fst <$> s.(claims) = s.(delivered) ++ queue /\ (length queue <= N)%nat /\
    (forall i p spurious, s.(threads) !! i = Some p -> m_running p = true -> thread_turn N s i spurious <> None) /\
    (k_running s.(receiver) = true -> receiver_turn N s <> None) /\
    (all_dropped s -> s.(receiver) = KGone -> drop_ring N s.(mr) = Some queue).
Proof using Type.
  intros HN N2 R W. destruct (mpsc_invariant s HN N2 R W) as (I & _ & _). exists (fst <$> drop (length s.(delivered)) s.(claims)). split.
  { rewrite <- (take_drop (length s.(delivered)) s.(claims)) at 1. rewrite fmap_app, <- (mo_delivered _ _ I), <- list_fmap_compose. f_equal. by rewrite list_fmap_id. }
  split; [rewrite length_fmap, length_drop; pose proof (mo_room _ _ I); pose proof (released_le s); lia |].
  split; [intros i p sp Ei Rn; apply (thread_turns s i p); try done; by destruct p |]. split; [intros Rn; apply receiver_turns; try done; by destruct s.(receiver) |].
  intros D Ec. by apply mpsc_drop_ok.
Qed.

(** Payloads have one owner.  Two producers that have claimed positions, or a
    producer and the consumer about to take a message, are at different slots; a
    producer about to write finds its slot empty; the consumer about to take finds
    the message next in order. *)
Lemma mpsc_slots_exclusive s : power_of_two N -> (2 <= N)%nat -> mpsc_reachable N s -> in_width N s ->
  (forall i j p p' q q' e e', i <> j -> s.(threads) !! i = Some p -> s.(threads) !! j = Some p' -> holding p = Some (q, e) -> holding p' = Some (q', e') ->
     ring.slot_of N (Z.of_nat q) <> ring.slot_of N (Z.of_nat q')) /\
  (forall i site m pos, s.(threads) !! i = Some (MWrite site m pos) -> exists sl, slot_at N s.(mr) pos = Some sl /\ sl.(val) = None) /\
  (forall site pos, s.(receiver) = KTake site pos -> exists m sl, slot_at N s.(mr) pos = Some sl /\ sl.(val) = Some m /\ (fst <$> s.(claims)) !! length s.(delivered) = Some m) /\
  (forall i p q e site pos, s.(threads) !! i = Some p -> holding p = Some (q, e) -> s.(receiver) = KTake site pos -> ring.slot_of N (Z.of_nat q) <> ring.slot_of N pos).
Proof using Type.
  intros HN N2 R W. destruct (mpsc_invariant s HN N2 R W) as (I & _ & _). pose proof W as [Wc _]. split; [| split; [| split]].
  - intros i j p p' q q' e e' Nij Ei Ej H H' E. destruct (held_window s i p q e I Ei H) as (B & _ & L). destruct (held_window s j p' q' e' I Ej H') as (B' & _ & L').
    rewrite !slot_index in E by (done || lia). apply (window_distinct N (released s)) in E; [| done | done]. subst q'. apply Nij. by eapply (mo_unique _ _ I).
  - intros i site m pos Ei. pose proof (mo_views _ _ I _ _ Ei) as V. cbn in V. destruct (owned_slot N s i _ (Z.to_nat pos) m Claimed HN I W Ei eq_refl ltac:(done)) as (El & Ec & _). rewrite Z2Nat.id in El by lia.
    eexists. split; [exact El |]. unfold slot_state. by rewrite Ec.
  - intros site pos Ec. pose proof (mo_receiver _ _ I) as V. unfold receiver_view in V. rewrite Ec in V. destruct V as [-> [m Em]]. destruct (receiver_takes N s site m HN I W Ec Em) as [El _].
    exists m. eexists. split; [exact El |]. split; [done |]. by rewrite list_lookup_fmap, Em.
  - intros i p q e site pos Ei H Ec E. pose proof (mo_receiver _ _ I) as V. unfold receiver_view in V. rewrite Ec in V. destruct V as [-> [m Em]]. destruct (held_window s i p q e I Ei H) as (B & _ & L).
    assert (Rl : released s = length s.(delivered)) by (unfold released; rewrite Ec; lia). pose proof (delivered_le N s I). rewrite !slot_index in E by (done || lia).
    apply (window_distinct N (released s)) in E; [| done | lia]. subst q. rewrite (mo_holds _ _ I _ _ _ _ Ei H) in Em. by destruct p; simplify_eq/=.
Qed.

(** C30: [Closed] means drained.  In a ring whose capacity is a power of two and
    at least two, with fewer positions claimed, and fewer handles, than the
    counters tell apart (below 2^63), when a receive has reported [Closed], every
    handle was dropped and every message that was ever claimed was delivered.
    With capacity one messages are lost: see [mpsc_capacity_one]. *)
Theorem mpsc_closed_means_drained s : power_of_two N -> (2 <= N)%nat -> mpsc_reachable N s -> in_width N s -> reported_closed s.(receiver) = true ->
  all_dropped s /\ fst <$> s.(claims) = s.(delivered).
Proof using Type.
  intros HN N2 R W E. destruct (mpsc_invariant s HN N2 R W) as (I & C & _). destruct (C E) as [D L]. split; [done |].
  pose proof (mo_delivered _ _ I) as X. rewrite <- L, firstn_all in X. rewrite <- X, <- list_fmap_compose. by rewrite list_fmap_id.
Qed.

(** C29: The consumer misses no wakeup.  In a ring whose capacity is a power of
    two and at least two, with fewer positions claimed, and fewer handles, than
    the counters tell apart (below 2^63), a receive future that is pending and not
    woken has its waker in place; if the message next in order is published, a
    producer is about to wake it, and if no handle is left, the last one is. *)
Theorem mpsc_receiver_woken s cx : power_of_two N -> (2 <= N)%nat -> mpsc_reachable N s -> in_width N s -> s.(receiver) = KPending cx -> cx ∉ s.(r_woken) ->
  s.(mr).(m_consumer_waker) = Some cx /\
  (available s -> exists i site, s.(threads) !! i = Some (MWake site)) /\
  (all_dropped s -> exists i, s.(threads) !! i = Some MDropWake).
Proof using Type.
  intros HN N2 R W Ec Nw. destruct (mpsc_invariant s HN N2 R W) as (_ & _ & H). unfold r_hears in H. rewrite Ec in H. destruct H as (Rg & M & C).
  split; [by destruct Rg |]. split; intros A; [by destruct M as [M | [M | M]] | by destruct C as [C | [C | C]]].
Qed.

(** A schedule of turns: a producer's or, for [None], the consumer's. *)
Fixpoint mpsc_turns (l : list (option nat)) s : option (Mpsc T) :=
  match l with
  | [] => Some s
  | Some i :: l => let* next := thread_turn N s i false in mpsc_turns l next
  | None :: l => let* next := receiver_turn N s in mpsc_turns l next
  end.

Lemma mpsc_turns_reachable l s s' : mpsc_reachable N s -> mpsc_turns l s = Some s' -> mpsc_reachable N s'.
Proof using Type.
  revert s. induction l as [| [i |] l IH]; intros s R E; simpl in E; [by injection E as <- | |].
  - destruct (thread_turn N s i false) as [s1 |] eqn:E1; [| done]. apply (IH s1); [| done]. apply (mpsc_reachable_step N s); [done |]. by apply (mpsc_thread N s i false).
  - destruct (receiver_turn N s) as [s1 |] eqn:E1; [| done]. apply (IH s1); [| done]. apply (mpsc_reachable_step N s); [done |]. by apply mpsc_receiver.
Qed.
End Spec.

(** * Runs *)

Section Runs.
Local Open Scope Z_scope.
Definition seven (i : nat) : list (option nat) := replicate 7 (Some i).
Definition six : list (option nat) := replicate 6 None.
Definition run (N : nat) (l : list (option nat)) (s : Mpsc Z) : Mpsc Z := default s (mpsc_turns N l s).

(** The first of two handles fills a ring of capacity two; both then wait. *)
Definition two_handles : Mpsc Z := Eval vm_compute in with_clone (mpsc_start 2).
Definition one_sent : Mpsc Z := Eval vm_compute in run 2 (seven 0) (with_thread two_handles 0 (MLoadGone SendCall 1) []).
Definition two_sent : Mpsc Z := Eval vm_compute in run 2 (seven 0) (with_thread one_sent 0 (MLoadGone SendCall 2) []).
Definition one_waits : Mpsc Z := Eval vm_compute in run 2 (seven 0) (with_thread two_sent 0 (MLoadGone (SendFirst 10%nat) 3) [10%nat]).
Definition both_wait : Mpsc Z := Eval vm_compute in run 2 (seven 1) (with_thread one_waits 1 (MLoadGone (SendFirst 11%nat) 4) [11%nat]).
Definition one_taken : Mpsc Z := Eval vm_compute in run 2 six (with_receiver both_wait (KLoadHead RecvCall) []).
Definition two_taken : Mpsc Z := Eval vm_compute in run 2 six (with_receiver one_taken (KLoadHead RecvCall) []).

Lemma two_sent_reachable : mpsc_reachable 2 two_sent.
Proof.
  apply (mpsc_turns_reachable 2 (seven 0) (with_thread one_sent 0 (MLoadGone SendCall 2) [])); [| reflexivity].
  eapply mpsc_reachable_step; [| eapply (mpsc_try_send 2 one_sent 0); reflexivity].
  apply (mpsc_turns_reachable 2 (seven 0) (with_thread two_handles 0 (MLoadGone SendCall 1) [])); [| reflexivity].
  eapply mpsc_reachable_step; [| eapply (mpsc_try_send 2 two_handles 0); reflexivity].
  apply (mpsc_reachable_step 2 (mpsc_start 2)); [apply mpsc_reachable_start |]. exact (mpsc_clone 2 (mpsc_start 2) 0 None eq_refl).
Qed.

Lemma both_wait_reachable : mpsc_reachable 2 both_wait.
Proof.
  apply (mpsc_turns_reachable 2 (seven 1) (with_thread one_waits 1 (MLoadGone (SendFirst 11%nat) 4) [11%nat])); [| reflexivity].
  eapply mpsc_reachable_step; [| eapply (mpsc_send 2 one_waits 1); reflexivity].
  apply (mpsc_turns_reachable 2 (seven 0) (with_thread two_sent 0 (MLoadGone (SendFirst 10%nat) 3) [10%nat])); [| reflexivity].
  eapply mpsc_reachable_step; [apply two_sent_reachable | eapply (mpsc_send 2 two_sent 0); reflexivity].
Qed.

(** C38: A pending sender can be left without a wakeup.  Two producers wait on a
    full ring of capacity two; the second one's registration replaces the first
    one's waker; the consumer then takes both messages.  The ring is empty and
    idle, yet the first sender is pending, was never woken, and no producer waker
    is registered any more. *)
Theorem mpsc_sender_wakeup_lost :
  exists s : Mpsc Z, mpsc_reachable 2 s /\ s.(threads) !! 0%nat = Some (MPending 10%nat 3) /\ (10%nat ∉ s.(s_woken)) /\
    s.(mr).(m_producer_waker) = None /\ (fst <$> s.(claims)) = s.(delivered) /\ k_running s.(receiver) = false /\ Forall (fun p => m_running p = false) s.(threads).
Proof.
  exists two_taken. split; [| split_and!; try reflexivity; [by apply (bool_decide_unpack _) | by repeat constructor]].
  apply (mpsc_turns_reachable 2 six (with_receiver one_taken (KLoadHead RecvCall) [])); [| reflexivity].
  eapply mpsc_reachable_step; [| eapply (mpsc_try_recv 2 one_taken); reflexivity].
  apply (mpsc_turns_reachable 2 six (with_receiver both_wait (KLoadHead RecvCall) [])); [| reflexivity].
  eapply mpsc_reachable_step; [apply both_wait_reachable | eapply (mpsc_try_recv 2 both_wait); reflexivity].
Qed.

(** Two sends into a ring of capacity one, then a receive. *)
Definition tiny_one : Mpsc Z := Eval vm_compute in run 1 (seven 0) (with_thread (mpsc_start 1) 0 (MLoadGone SendCall 1) []).
Definition tiny_two : Mpsc Z := Eval vm_compute in run 1 (seven 0) (with_thread tiny_one 0 (MLoadGone SendCall 2) []).
Definition tiny_read : Mpsc Z := Eval vm_compute in run 1 (replicate 3 None) (with_receiver tiny_two (KLoadHead RecvCall) []).

(** A ring of capacity one, which the guard on the capacity accepts, is not a
    queue: a slot published at position [p] has the sequence number of a slot
    that is free for position [p + 1].  The second of two sends with no receive
    between them succeeds, its write replaces the first message, and the receive
    that follows finds the ring empty. *)
Lemma mpsc_capacity_one :
  exists s : Mpsc Z, mpsc_reachable 1 s /\ s.(claims) = [(1, Published); (2, Published)] /\ s.(delivered) = [] /\
    s.(threads) = [MIdle (Some (MSendReturned (Ok tt)))] /\ s.(mr).(m_slots) !! 0%nat = Some {| seq := 2; val := Some 2 |} /\
    s.(receiver) = KIdle (Some (MRecvReturned (Ok None))).
Proof.
  exists tiny_read. split; [| split_and!; reflexivity].
  apply (mpsc_turns_reachable 1 (replicate 3 None) (with_receiver tiny_two (KLoadHead RecvCall) [])); [| reflexivity].
  eapply mpsc_reachable_step; [| eapply (mpsc_try_recv 1 tiny_two); reflexivity].
  apply (mpsc_turns_reachable 1 (seven 0) (with_thread tiny_one 0 (MLoadGone SendCall 2) [])); [| reflexivity].
  eapply mpsc_reachable_step; [| eapply (mpsc_try_send 1 tiny_one 0); reflexivity].
  apply (mpsc_turns_reachable 1 (seven 0) (with_thread (mpsc_start 1) 0 (MLoadGone SendCall 1) [])); [| reflexivity].
  apply (mpsc_reachable_step 1 (mpsc_start 1)); [apply mpsc_reachable_start |]. exact (mpsc_try_send 1 (mpsc_start 1) 0 None 1 eq_refl).
Qed.

(** States at which the theorems above speak of something. *)
Definition writing : Mpsc Z := Eval vm_compute in run 2 (replicate 4 (Some 0%nat)) (with_thread (mpsc_start 2) 0 (MLoadGone SendCall 1) []).
Definition once_sent : Mpsc Z := Eval vm_compute in run 2 (replicate 3 (Some 0%nat)) writing.
Definition once_taken : Mpsc Z := Eval vm_compute in run 2 six (with_receiver once_sent (KLoadHead RecvCall) []).
Definition then_dropped : Mpsc Z := Eval vm_compute in run 2 (replicate 2 (Some 0%nat)) (with_thread once_taken 0 MDropSub []).
Definition then_closed : Mpsc Z := Eval vm_compute in run 2 (replicate 4 None) (with_receiver then_dropped (KLoadHead RecvCall) []).
Definition waits : Mpsc Z := Eval vm_compute in run 2 (replicate 7 None) (with_receiver (mpsc_start 2) (KLoadHead (RecvFirst 5%nat)) [5%nat]).

Lemma writing_reachable : mpsc_reachable 2 writing.
Proof.
  apply (mpsc_turns_reachable 2 (replicate 4 (Some 0%nat)) (with_thread (mpsc_start 2) 0 (MLoadGone SendCall 1) [])); [| reflexivity].
  apply (mpsc_reachable_step 2 (mpsc_start 2)); [apply mpsc_reachable_start |]. exact (mpsc_try_send 2 (mpsc_start 2) 0 None 1 eq_refl).
Qed.

Lemma then_closed_reachable : mpsc_reachable 2 then_closed.
Proof.
  apply (mpsc_turns_reachable 2 (replicate 4 None) (with_receiver then_dropped (KLoadHead RecvCall) [])); [| reflexivity].
  eapply mpsc_reachable_step; [| eapply (mpsc_try_recv 2 then_dropped); reflexivity].
  apply (mpsc_turns_reachable 2 (replicate 2 (Some 0%nat)) (with_thread once_taken 0 MDropSub [])); [| reflexivity].
  eapply mpsc_reachable_step; [| eapply (mpsc_producer_drop 2 once_taken 0); reflexivity].
  apply (mpsc_turns_reachable 2 six (with_receiver once_sent (KLoadHead RecvCall) [])); [| reflexivity].
  eapply mpsc_reachable_step; [| eapply (mpsc_try_recv 2 once_sent); reflexivity].
  apply (mpsc_turns_reachable 2 (replicate 3 (Some 0%nat)) writing); [apply writing_reachable | reflexivity].
Qed.

Lemma waits_reachable : mpsc_reachable 2 waits.
Proof.
  apply (mpsc_turns_reachable 2 (replicate 7 None) (with_receiver (mpsc_start 2) (KLoadHead (RecvFirst 5%nat)) [5%nat])); [| reflexivity].
  apply (mpsc_reachable_step 2 (mpsc_start 2)); [apply mpsc_reachable_start |]. exact (mpsc_recv 2 (mpsc_start 2) None 5%nat eq_refl).
Qed.

Lemma mpsc_ring_is_queue_witness : exists queue, [1; 2] = [] ++ queue /\ (length queue <= 2)%nat.
Proof.
  destruct (mpsc_ring_is_queue 2 two_sent two_is_power (le_n 2) two_sent_reachable (conj eq_refl eq_refl)) as (q & E & L & _).
  exists q. split; [exact E | exact L].
Defined.

Lemma mpsc_slots_exclusive_witness : exists sl, slot_at 2 writing.(mr) 0 = Some sl /\ sl.(val) = None.
Proof.
  exact (proj1 (proj2 (mpsc_slots_exclusive 2 writing two_is_power (le_n 2) writing_reachable (conj eq_refl eq_refl))) 0%nat SendCall 1 0 eq_refl).
Defined.

Lemma mpsc_closed_means_drained_witness : all_dropped then_closed /\ [1] = then_closed.(delivered).
Proof. exact (mpsc_closed_means_drained 2 then_closed two_is_power (le_n 2) then_closed_reachable (conj eq_refl eq_refl) eq_refl). Defined.

Lemma mpsc_receiver_woken_witness : waits.(mr).(m_consumer_waker) = Some 5%nat.
Proof.
  exact (proj1 (mpsc_receiver_woken 2 waits 5%nat two_is_power (le_n 2) waits_reachable (conj eq_refl eq_refl) eq_refl (not_elem_of_nil 5%nat))).
Defined.
End Runs.
