(* ===== verification/RcuQsbr.v ===== *)
(** Quiescent-state-based reclamation ([rcu/src/qsbr.rs]) and the pointer cells
    over it ([rcu/src/lib.rs]).

    Each atomic access and each section with interrupts masked is one step; a
    function is a sequence of steps, written as the frames of the processor that
    runs it.  The pointers [next] of a retirement list are the order of a list of
    headers.  An allocation is a number that is never used again.  Every pointer
    comparison of the source is between allocations one of which a reader or a
    queue still holds, so the reuse of an address cannot be observed.  A clock
    reading is an argument of the step that takes it, and so is whether a
    compare-and-exchange of the weak kind fails although the values agree. *)

From S2P Require Import Prelude Word.

(** [u64::MAX], the mark of a processor that takes no part. *)
Definition INACTIVE : Z := 2 ^ 64 - 1.

(** * The static data *)

Record DeferHdr : Type := mk_hdr { node : nat; epoch : Z }.

#[export] Instance DeferHdr_eq : EqDecision DeferHdr.
Proof. solve_decision. Defined.

Record DeferBucket : Type := mk_bucket { head : list DeferHdr; len : Z }.

Record CpuCell : Type := mk_cell {
  active_readers : Z;
  last_quiescent : Z;
  last_quiescent_ns : Z;
  bucket : DeferBucket
}.

Record OffloadQueue : Type := mk_queue { q_head : list DeferHdr; kicked : bool }.

Record Qsbr : Type := mk_qsbr {
  GLOBAL_EPOCH : Z;
  CPUS : list CpuCell;
  OFFLOAD_WAKE : bool;
  OFFLOAD_WORKERS : Z;
  OFFLOADED : list OffloadQueue;
  STUCK_QUIESCENT_CPU : list Z;
  SYNC_READER_HELD : Z
}.

(** What [sync_until] keeps between its rounds. *)
Record SyncWait : Type := mk_wait { deadline : Z; target : Z; started_ns : Z; warned : bool }.

(** [defer_node], before and after the load of the epoch. *)
Inductive Defer : Type :=
  | DeferLoad (n : nat)
  | DeferPush (n : nat) (e : Z).

(** The program points of the functions that the executor and the waits call. *)
Inductive Call : Type :=
  | RqLoadReaders
  | RqLoadEpoch
  | RqLoadLast (now : Z)
  | RqStoreLast (now : Z)
  | RqStoreNs
  | DrainMin (inline : bool) (i : nat) (min : Z)
  | DrainDetach (inline : bool) (min_q : Z)
  | DrainKeep (inline : bool) (ready keep : list DeferHdr) (keep_len : Z)
  | OffHook (ready : list DeferHdr)
  | OffLoad (worker : nat) (ready : list DeferHdr)
  | OffCas (worker : nat) (ready head : list DeferHdr)
  | OffKick (worker : nat)
  | RunDroppers (l : list DeferHdr)
  | TakeKicked (worker : nat)
  | TakeHead (worker : nat)
  | RunAll (worker : nat)
  | AdvLen
  | AdvEpoch
  | AdvLast (now : Z)
  | AdvCas (now : Z)
  | IdleReaders
  | IdleStoreLast
  | IdleStoreNs
  | SyncReaders (deadline : Z)
  | SyncAdd (deadline : Z)
  | SyncStart (deadline target : Z)
  | SyncPast (w : SyncWait) (i : nat)
  | SyncNow (w : SyncWait)
  | SyncDone (target : Z)
  | PollAdd
  | PollPast (target : Z) (i : nat)
  | PollDone (target : Z).

(** What a step does outside the static data: a destructor runs, a worker is
    woken or starts to serve its queue, a wait returns. *)
Inductive Effect : Type :=
  | Quiet
  | Dropped (n : nat)
  | Woke (worker : nat)
  | Took (worker : nat)
  | SyncReturned (elapsed : bool)
  | PollReady
  | PollPending (target : Z).

Module qsbr.
Implicit Types q : Qsbr.

Definition NEW : CpuCell := mk_cell 0 INACTIVE 0 (mk_bucket [] 0).

Definition start (ncpus : nat) : Qsbr :=
  mk_qsbr 1 (replicate ncpus NEW) false 1 (replicate ncpus (mk_queue [] false)) (replicate ncpus 0) 0.

Definition set_epoch q e := mk_qsbr e q.(CPUS) q.(OFFLOAD_WAKE) q.(OFFLOAD_WORKERS) q.(OFFLOADED) q.(STUCK_QUIESCENT_CPU) q.(SYNC_READER_HELD).
Definition set_cell q i c := mk_qsbr q.(GLOBAL_EPOCH) (<[i := c]> q.(CPUS)) q.(OFFLOAD_WAKE) q.(OFFLOAD_WORKERS) q.(OFFLOADED) q.(STUCK_QUIESCENT_CPU) q.(SYNC_READER_HELD).
Definition set_queue q w o := mk_qsbr q.(GLOBAL_EPOCH) q.(CPUS) q.(OFFLOAD_WAKE) q.(OFFLOAD_WORKERS) (<[w := o]> q.(OFFLOADED)) q.(STUCK_QUIESCENT_CPU) q.(SYNC_READER_HELD).
Definition set_stuck q s := mk_qsbr q.(GLOBAL_EPOCH) q.(CPUS) q.(OFFLOAD_WAKE) q.(OFFLOAD_WORKERS) q.(OFFLOADED) s q.(SYNC_READER_HELD).
Definition set_held q n := mk_qsbr q.(GLOBAL_EPOCH) q.(CPUS) q.(OFFLOAD_WAKE) q.(OFFLOAD_WORKERS) q.(OFFLOADED) q.(STUCK_QUIESCENT_CPU) n.

Definition set_readers c n := mk_cell n c.(last_quiescent) c.(last_quiescent_ns) c.(bucket).
Definition set_last c e := mk_cell c.(active_readers) e c.(last_quiescent_ns) c.(bucket).
Definition set_ns c t := mk_cell c.(active_readers) c.(last_quiescent) t c.(bucket).
Definition set_bucket c b := mk_cell c.(active_readers) c.(last_quiescent) c.(last_quiescent_ns) b.

(** * Readers and retirement *)

Definition reader_pin q (i : nat) : option Qsbr :=
  let* c := q.(CPUS) !! i in
  Some (set_cell q i (set_readers c (wrap 64 (c.(active_readers) + 1)))).

Definition reader_unpin q (i : nat) : option Qsbr :=
  let* c := q.(CPUS) !! i in
  Some (set_cell q i (set_readers c (wrap 64 (c.(active_readers) - 1)))).

Definition defer_step q (i : nat) (d : Defer) : option (Qsbr * option Defer) :=
  match d with
  | DeferLoad n => Some (q, Some (DeferPush n q.(GLOBAL_EPOCH)))
  | DeferPush n e =>
      let* c := q.(CPUS) !! i in
      Some (set_cell q i (set_bucket c (mk_bucket (mk_hdr n e :: c.(bucket).(head)) (wrap 64 (c.(bucket).(len) + 1)))), None)
  end.

(** * Reclaim offload *)

Definition set_reclaim_offload q (workers : Z) : option Qsbr :=
  if (1 <=? workers) && (workers <=? Z.of_nat (length q.(CPUS))) then
    Some (mk_qsbr q.(GLOBAL_EPOCH) q.(CPUS) true workers q.(OFFLOADED) q.(STUCK_QUIESCENT_CPU) q.(SYNC_READER_HELD))
  else None.

Definition clear_reclaim_offload q : Qsbr :=
  mk_qsbr q.(GLOBAL_EPOCH) q.(CPUS) false q.(OFFLOAD_WORKERS) q.(OFFLOADED) q.(STUCK_QUIESCENT_CPU) q.(SYNC_READER_HELD).

(** * Stall detection *)

Definition stalled_cpu_mask q (now_ns threshold_ns : Z) : Z :=
  foldr (fun '(cpu, c) mask =>
           let last := c.(last_quiescent_ns) in
           if negb (last =? 0) && (threshold_ns <=? Z.max 0 (now_ns - last)) then Z.lor mask (Z.shiftl 1 (Z.of_nat cpu)) else mask)
    0 (imap pair (take 64 q.(CPUS))).

Definition STALL_WARN_NS : Z := 100000000.

Fixpoint pos_trailing_zeros (p : positive) : nat :=
  match p with xO p => S (pos_trailing_zeros p) | _ => O end.

Definition trailing_zeros (x : Z) : nat := match x with Zpos p => pos_trailing_zeros p | _ => 64%nat end.

(** One count for each bit of the mask, lowest first; a mask has 64 bits. *)
Fixpoint count_stalled (fuel : nat) (stalled : Z) (stuck : list Z) : option (list Z) :=
  if stalled =? 0 then Some stuck
  else
    match fuel with
    | O => None
    | S fuel =>
        let cpu := trailing_zeros stalled in
        let* n := stuck !! cpu in
        count_stalled fuel (Z.land stalled (stalled - 1)) (<[cpu := wrap 64 (n + 1)]> stuck)
    end.

Arguments count_stalled : simpl never.

(** * Draining a bucket *)

(** The walk of a detached list: the headers whose grace period has elapsed,
    the others, and how many of these there are. *)
Fixpoint partition (min_q : Z) (l ready keep : list DeferHdr) (keep_len : Z) : list DeferHdr * list DeferHdr * Z :=
  match l with
  | [] => (ready, keep, keep_len)
  | x :: next =>
      if x.(epoch) <? min_q then partition min_q next (x :: ready) keep keep_len
      else partition min_q next ready (x :: keep) (wrap 64 (keep_len + 1))
  end.

(** What [drain_local_bucket] does with the expired headers. *)
Definition after_drain (inline : bool) (ready : list DeferHdr) : list Call :=
  if inline then [RunDroppers ready] else match ready with [] => [] | _ => [OffHook ready] end.

(** [core::ptr::eq] of the heads of two lists. *)
Definition same_head (a b : list DeferHdr) : bool :=
  match a, b with
  | [], [] => true
  | x :: _, y :: _ => (x.(node) =? y.(node))%nat
  | _, _ => false
  end.

(** * One step of a function on processor [i], whose cell is [c] *)

(** [report_quiescent]. *)
Definition report_quiescent_step q (i : nat) (c : CpuCell) (f : Call) (clock : Z) : option (Qsbr * list Call * Effect) :=
  match f with
  | RqLoadReaders => Some (q, if c.(active_readers) =? 0 then [RqLoadEpoch] else [], Quiet)
  | RqLoadEpoch => Some (q, [RqLoadLast q.(GLOBAL_EPOCH)], Quiet)
  | RqLoadLast now =>
      let prev := c.(last_quiescent) in
      Some (q, [if (prev =? INACTIVE) || (prev <? now) then RqStoreLast now else RqStoreNs], Quiet)
  | RqStoreLast now => Some (set_cell q i (set_last c now), [RqStoreNs], Quiet)
  | RqStoreNs => Some (set_cell q i (set_ns c clock), [DrainMin false 0 INACTIVE], Quiet)
  | _ => None
  end.

(** [drain_local_bucket] and [min_last_quiescent]. *)
Definition drain_step q (i : nat) (c : CpuCell) (f : Call) : option (Qsbr * list Call * Effect) :=
  match f with
  | DrainMin inline k min =>
      match q.(CPUS) !! k with
      | Some ck => Some (q, [DrainMin inline (S k) (if ck.(last_quiescent) <? min then ck.(last_quiescent) else min)], Quiet)
      | None => Some (q, [DrainDetach inline min], Quiet)
      end
  | DrainDetach inline min_q =>
      let '(ready, keep, keep_len) := partition min_q c.(bucket).(head) [] [] 0 in
      Some (set_cell q i (set_bucket c (mk_bucket [] 0)), [DrainKeep inline ready keep keep_len], Quiet)
  | DrainKeep inline ready keep keep_len =>
      let q' := match keep with
                | [] => q
                | _ => set_cell q i (set_bucket c (mk_bucket (keep ++ c.(bucket).(head)) (wrap 64 (c.(bucket).(len) + keep_len))))
                end in
      Some (q', after_drain inline ready, Quiet)
  | _ => None
  end.

(** [offload_or_run] and [OffloadQueue::push]. *)
Definition offload_step q (i : nat) (f : Call) (spurious : bool) : option (Qsbr * list Call * Effect) :=
  match f with
  | OffHook ready =>
      if q.(OFFLOAD_WAKE) then Some (q, [OffLoad (Z.to_nat (Z.of_nat i mod q.(OFFLOAD_WORKERS))) ready], Quiet)
      else Some (q, [RunDroppers ready], Quiet)
  | OffLoad w ready => let* o := q.(OFFLOADED) !! w in Some (q, [OffCas w ready o.(q_head)], Quiet)
  | OffCas w ready hd =>
      let* o := q.(OFFLOADED) !! w in
      if same_head o.(q_head) hd && negb spurious then
        Some (set_queue q w (mk_queue (ready ++ o.(q_head)) o.(kicked)), [OffKick w], Quiet)
      else Some (q, [OffCas w ready o.(q_head)], Quiet)
  | OffKick w =>
      let* o := q.(OFFLOADED) !! w in
      Some (set_queue q w (mk_queue o.(q_head) true), [], if o.(kicked) then Quiet else Woke w)
  | _ => None
  end.

(** [run_offloaded_reclaim], [run_offloaded_reclaim_for], [OffloadQueue::take] and [run_droppers]. *)
Definition reclaim_step q (f : Call) : option (Qsbr * list Call * Effect) :=
  match f with
  | RunDroppers [] => Some (q, [], Quiet)
  | RunDroppers (x :: next) => Some (q, [RunDroppers next], Dropped x.(node))
  | TakeKicked w => let* o := q.(OFFLOADED) !! w in Some (set_queue q w (mk_queue o.(q_head) false), [TakeHead w], Took w)
  | TakeHead w => let* o := q.(OFFLOADED) !! w in Some (set_queue q w (mk_queue [] o.(kicked)), [RunDroppers o.(q_head)], Quiet)
  | RunAll w => Some (q, if (w <? length q.(CPUS))%nat then [TakeKicked w; RunAll (S w)] else [], Quiet)
  | _ => None
  end.

(** [advance_epoch_if_pending]. *)
Definition advance_step q (c : CpuCell) (f : Call) : option (Qsbr * list Call * Effect) :=
  match f with
  | AdvLen => Some (q, if c.(bucket).(len) =? 0 then [] else [AdvEpoch], Quiet)
  | AdvEpoch => Some (q, [AdvLast q.(GLOBAL_EPOCH)], Quiet)
  | AdvLast now => Some (q, if now <=? c.(last_quiescent) then [AdvCas now] else [], Quiet)
  | AdvCas now => Some (if q.(GLOBAL_EPOCH) =? now then set_epoch q (wrap 64 (now + 1)) else q, [], Quiet)
  | _ => None
  end.

(** [report_idle]. *)
Definition idle_step q (i : nat) (c : CpuCell) (f : Call) : option (Qsbr * list Call * Effect) :=
  match f with
  | IdleReaders => Some (q, if c.(active_readers) =? 0 then [DrainMin false 0 INACTIVE; IdleStoreLast] else [], Quiet)
  | IdleStoreLast => Some (set_cell q i (set_last c INACTIVE), [IdleStoreNs], Quiet)
  | IdleStoreNs => Some (set_cell q i (set_ns c 0), [], Quiet)
  | _ => None
  end.

(** [sync_until], with [all_cpus_past]. *)
Definition sync_step q (c : CpuCell) (f : Call) (clock : Z) : option (Qsbr * list Call * Effect) :=
  match f with
  | SyncReaders d =>
      if c.(active_readers) =? 0 then Some (q, [SyncAdd d], Quiet)
      else Some (set_held q (wrap 64 (q.(SYNC_READER_HELD) + 1)), [], SyncReturned false)
  | SyncAdd d =>
      let t := wrap 64 (q.(GLOBAL_EPOCH) + 1) in
      Some (set_epoch q t, [SyncStart d t], Quiet)
  | SyncStart d t => Some (q, [RqLoadReaders; SyncPast (mk_wait d t clock false) 0], Quiet)
  | SyncPast w k =>
      match q.(CPUS) !! k with
      | Some ck => Some (q, [if ck.(last_quiescent) <? w.(target) then SyncNow w else SyncPast w (S k)], Quiet)
      | None => Some (q, [DrainMin true 0 INACTIVE; RunAll 0; SyncDone w.(target)], Quiet)
      end
  | SyncNow w =>
      let warn := negb w.(warned) && (STALL_WARN_NS <=? Z.max 0 (clock - w.(started_ns))) in
      let* stuck := if warn then count_stalled 64 (stalled_cpu_mask q clock STALL_WARN_NS) q.(STUCK_QUIESCENT_CPU)
                    else Some q.(STUCK_QUIESCENT_CPU) in
      if w.(deadline) <=? clock then Some (set_stuck q stuck, [], SyncReturned false)
      else Some (set_stuck q stuck, [RqLoadReaders; SyncPast (mk_wait w.(deadline) w.(target) w.(started_ns) (w.(warned) || warn)) 0], Quiet)
  | SyncDone t => Some (q, [], SyncReturned true)
  | _ => None
  end.

(** [SyncFuture::poll], with [all_cpus_past]. *)
Definition poll_step q (f : Call) : option (Qsbr * list Call * Effect) :=
  match f with
  | PollAdd =>
      let t := wrap 64 (q.(GLOBAL_EPOCH) + 1) in
      Some (set_epoch q t, [RqLoadReaders; PollPast t 0], Quiet)
  | PollPast t k =>
      match q.(CPUS) !! k with
      | Some ck => if ck.(last_quiescent) <? t then Some (q, [], PollPending t) else Some (q, [PollPast t (S k)], Quiet)
      | None => Some (q, [DrainMin true 0 INACTIVE; RunAll 0; PollDone t], Quiet)
      end
  | PollDone t => Some (q, [], PollReady)
  | _ => None
  end.

Definition call_step q (i : nat) (f : Call) (clock : Z) (spurious : bool) : option (Qsbr * list Call * Effect) :=
  let* c := q.(CPUS) !! i in
  match f with
  | RqLoadReaders | RqLoadEpoch | RqLoadLast _ | RqStoreLast _ | RqStoreNs => report_quiescent_step q i c f clock
  | DrainMin _ _ _ | DrainDetach _ _ | DrainKeep _ _ _ _ => drain_step q i c f
  | OffHook _ | OffLoad _ _ | OffCas _ _ _ | OffKick _ => offload_step q i f spurious
  | RunDroppers _ | TakeKicked _ | TakeHead _ | RunAll _ => reclaim_step q f
  | AdvLen | AdvEpoch | AdvLast _ | AdvCas _ => advance_step q c f
  | IdleReaders | IdleStoreLast | IdleStoreNs => idle_step q i c f
  | SyncReaders _ | SyncAdd _ | SyncStart _ _ | SyncPast _ _ | SyncNow _ | SyncDone _ => sync_step q c f clock
  | PollAdd | PollPast _ _ | PollDone _ => poll_step q f
  end.

Ltac open_call_in H := unfold call_step, report_quiescent_step, drain_step, offload_step, reclaim_step, advance_step, idle_step, sync_step, poll_step in H.
Ltac open_call := unfold call_step, report_quiescent_step, drain_step, offload_step, reclaim_step, advance_step, idle_step, sync_step, poll_step.

(** The first frames of the public functions. *)
Definition report_quiescent : list Call := [RqLoadReaders].
Definition advance_epoch_if_pending : list Call := [AdvLen].
Definition report_idle : list Call := [IdleReaders].
Definition sync_until (d : Z) : list Call := [SyncReaders d].
Definition sync_blocking : list Call := sync_until INACTIVE.
Definition run_offloaded_reclaim : list Call := [RunAll 0].
Definition run_offloaded_reclaim_for (w : nat) : list Call := [TakeKicked w].

(** [SyncFuture::poll] of a future that has published its target, or has not. *)
Definition poll (published : option Z) : list Call :=
  match published with None => [PollAdd] | Some t => [RqLoadReaders; PollPast t 0] end.
End qsbr.

(** * Pointer cells *)

(** The cells and the number of the next allocation. *)
Record Heap : Type := mk_heap { cells : list (option nat); next_node : nat }.

Module atomic.
Implicit Types h : Heap.

Definition alloc_node h : nat * Heap := (h.(next_node), mk_heap h.(cells) (S h.(next_node))).

(** [retire_node]: a null pointer is left alone. *)
Definition retire_node (p : option nat) : option Defer := DeferLoad <$> p.

Definition load h (k : nat) : option (option nat) := h.(cells) !! k.

(** The old pointer of a cell, and the heap with a new one in it. *)
Definition swap h (k : nat) (new : option nat) : option (option nat * Heap) :=
  let* old := h.(cells) !! k in
  Some (old, mk_heap (<[k := new]> h.(cells)) h.(next_node)).

Definition store h (k : nat) : option (Heap * option Defer) :=
  let '(new, h) := alloc_node h in
  let* (old, h) := swap h k (Some new) in
  Some (h, retire_node old).

Definition clear h (k : nat) : option (Heap * option Defer) :=
  let* (old, h) := swap h k None in
  Some (h, retire_node old).

(** [compare_and_set]: the pointer the caller sees afterwards (its own, or the
    current one), what is retired, and the allocation it gets back. *)
Definition compare_and_set h (k : nat) (expected : option nat) : option (Heap * option nat * option Defer * option nat) :=
  let '(new, h) := alloc_node h in
  let* current := h.(cells) !! k in
  if decide (current = expected) then
    let* (old, h) := swap h k (Some new) in
    Some (h, Some new, retire_node old, None)
  else Some (h, current, None, Some new).

(** [defer_drop] of a new allocation, and [retire_box]. *)
Definition defer_drop h : Heap * option Defer :=
  let '(new, h) := alloc_node h in
  (h, retire_node (Some new)).

(** [Drop] of a cell: what it points to is freed at once. *)
Definition drop h (k : nat) : option (Heap * option nat) :=
  let* (p, h) := swap h k None in
  Some (h, p).
End atomic.
