(* ===== verification/RcuSystem.v ===== *)
(** Quiescent-state-based reclamation over time: processors that interleave, each
    running kernel code with read guards, interrupted at any point by handlers
    and destructors with guards of their own, and calling the functions of
    [RcuQsbr] between tasks.

    Whatever the processors do, every allocation is in exactly one place: linked
    in a cell, on its way to a bucket, waiting there, expired, or freed. *)

From Stdlib Require Import Permutation.
From S2P Require Import Prelude Word RcuQsbr.

Import qsbr.

(** A read guard: the epoch at which it was taken, and the allocations that were
    reached through it. *)
Record Guard : Type := mk_guard { g_epoch : Z; seen : list nat }.

(** An interrupt handler or a destructor, with its guards, or a retirement. *)
Inductive Nested : Type :=
  | NClient (gs : list Guard)
  | NDefer (d : Defer).

(** What a processor is running: the guards of its task, the functions the task
    called, and what interrupted them, innermost first. *)
Record Control : Type := mk_control {
  base : list Guard;
  exec : list Call;
  nested : list Nested;
  reply : Effect
}.

(** [freed] are the allocations whose destructor ran, [futures] the targets of
    the pending futures, [wakes] the workers woken and not yet running. *)
Record World : Type := mk_world {
  q : Qsbr;
  ctl : list Control;
  heap : Heap;
  freed : list nat;
  futures : list Z;
  wakes : list nat
}.

Definition idle_control : Control := mk_control [] [] [] Quiet.

Definition world_start (ncpus : nat) (cs : nat) : World :=
  mk_world (start ncpus) (replicate ncpus idle_control) (mk_heap (replicate cs None) 0) [] [] [].

Section System.
Implicit Types w : World.

(** * The code that runs on top of a processor *)

Definition client (k : Control) : option (list Guard) :=
  match k.(nested), k.(exec) with
  | NClient gs :: _, _ => Some gs
  | [], [] => Some k.(base)
  | _, _ => None
  end.

Definition set_client (k : Control) (gs : list Guard) : Control :=
  match k.(nested) with
  | NClient _ :: r => mk_control k.(base) k.(exec) (NClient gs :: r) k.(reply)
  | _ => mk_control gs k.(exec) k.(nested) k.(reply)
  end.

Definition push_defer (k : Control) (d : option Defer) : Control :=
  mk_control k.(base) k.(exec) (match d with Some d => NDefer d :: k.(nested) | None => k.(nested) end) k.(reply).

Definition with_ctl w i k : World := mk_world w.(q) (<[i := k]> w.(ctl)) w.(heap) w.(freed) w.(futures) w.(wakes).
Definition with_q w q' : World := mk_world q' w.(ctl) w.(heap) w.(freed) w.(futures) w.(wakes).
Definition with_heap w h : World := mk_world w.(q) w.(ctl) h w.(freed) w.(futures) w.(wakes).
Definition with_freed w l : World := mk_world w.(q) w.(ctl) w.(heap) (l ++ w.(freed)) w.(futures) w.(wakes).

Definition add_effect w (e : Effect) : World :=
  match e with
  | Dropped n => with_freed w [n]
  | Woke v => mk_world w.(q) w.(ctl) w.(heap) w.(freed) w.(futures) (v :: w.(wakes))
  | Took v => mk_world w.(q) w.(ctl) w.(heap) w.(freed) w.(futures) (filter (fun u => u <> v) w.(wakes))
  | PollPending t => mk_world w.(q) w.(ctl) w.(heap) w.(freed) (t :: w.(futures)) w.(wakes)
  | _ => w
  end.

(** A step of the function a processor has called. *)
Definition call_turn w i (clock : Z) (spurious : bool) : option World :=
  let* k := w.(ctl) !! i in
  match k.(nested), k.(exec) with
  | [], f :: r =>
      let* (q', fs, e) := call_step w.(q) i f clock spurious in
      Some (add_effect (with_q (with_ctl w i (mk_control k.(base) (fs ++ r) [] (match e with Quiet => k.(reply) | _ => e end))) q') e)
  | _, _ => None
  end.

(** A step of a retirement. *)
Definition defer_turn w i : option World :=
  let* k := w.(ctl) !! i in
  match k.(nested) with
  | NDefer d :: r =>
      let* (q', d') := defer_step w.(q) i d in
      Some (with_q (with_ctl w i (push_defer (mk_control k.(base) k.(exec) r k.(reply)) d')) q')
  | _ => None
  end.

(** The allocation a guard reaches is recorded with the guard. *)
Definition see (gs : list Guard) (j : nat) (p : option nat) : option (list Guard) :=
  let* g := gs !! j in
  Some (<[j := mk_guard g.(g_epoch) (option_list p ++ g.(seen))]> gs).

(** The client of a processor: takes a guard, drops one, loads a cell through
    one, stores, clears and exchanges under one, retires an allocation of its
    own. *)
Definition pin_turn w i : option World :=
  let* k := w.(ctl) !! i in
  let* gs := client k in
  let* q' := reader_pin w.(q) i in
  Some (with_q (with_ctl w i (set_client k (mk_guard w.(q).(GLOBAL_EPOCH) [] :: gs))) q').

Definition unpin_turn w i (j : nat) : option World :=
  let* k := w.(ctl) !! i in
  let* gs := client k in
  let* _ := gs !! j in
  let* q' := reader_unpin w.(q) i in
  Some (with_q (with_ctl w i (set_client k (delete j gs))) q').

Definition load_turn w i (j c : nat) : option World :=
  let* k := w.(ctl) !! i in
  let* gs := client k in
  let* p := atomic.load w.(heap) c in
  let* gs' := see gs j p in
  Some (with_ctl w i (set_client k gs')).

Definition store_turn w i (j c : nat) : option World :=
  let* k := w.(ctl) !! i in
  let* gs := client k in
  let* _ := gs !! j in
  let* (h, d) := atomic.store w.(heap) c in
  Some (with_heap (with_ctl w i (push_defer k d)) h).

Definition clear_turn w i (j c : nat) : option World :=
  let* k := w.(ctl) !! i in
  let* gs := client k in
  let* _ := gs !! j in
  let* (h, d) := atomic.clear w.(heap) c in
  Some (with_heap (with_ctl w i (push_defer k d)) h).

(** What [compare_and_set] gives back on failure is dropped by its caller: an
    [Owned] is in nobody else's reach, so one kept for another try behaves as the
    new allocation that try makes here. *)
Definition cas_turn w i (j c : nat) (expected : option nat) : option World :=
  let* k := w.(ctl) !! i in
  let* gs := client k in
  let* (h, p, d, back) := atomic.compare_and_set w.(heap) c expected in
  let* gs' := see gs j p in
  Some (with_freed (with_heap (with_ctl w i (push_defer (set_client k gs') d)) h) (option_list back)).

Definition retire_turn w i : option World :=
  let* k := w.(ctl) !! i in
  let* _ := client k in
  let '(h, d) := atomic.defer_drop w.(heap) in
  Some (with_heap (with_ctl w i (push_defer k d)) h).

(** A cell goes out of scope; the place it leaves can hold a new, null cell. *)
Definition drop_turn w i (c : nat) : option World :=
  let* k := w.(ctl) !! i in
  let* _ := client k in
  let* (h, p) := atomic.drop w.(heap) c in
  Some (with_freed (with_heap w h) (option_list p)).

(** The task of a processor calls a function. *)
Definition enter w i (fs : list Call) : option World :=
  let* k := w.(ctl) !! i in
  match k.(nested), k.(exec) with
  | [], [] => Some (with_ctl w i (mk_control k.(base) fs [] k.(reply)))
  | _, _ => None
  end.

(** The processor reports quiescent states and so takes part in grace periods. *)
Definition taking_part w i : Prop := exists c, w.(q).(CPUS) !! i = Some c /\ c.(last_quiescent) <> INACTIVE.

Definition guards_of (k : Control) : list Guard :=
  k.(base) ++ concat ((fun x => match x with NClient gs => gs | NDefer _ => [] end) <$> k.(nested)).

(** No live guard holds what the cell points to. *)
Definition unread w (c : nat) : Prop := forall n i k g, w.(heap).(cells) !! c = Some (Some n) -> w.(ctl) !! i = Some k -> g ∈ guards_of k -> ~ n ∈ g.(seen).

(** * The transitions *)

(** With [strict], processors take guards and retire allocations of their own
    only while they take part.  A cell is dropped when it is unread. *)
Inductive step (strict : bool) w : World -> Prop :=
  | step_call i clock spurious w' : call_turn w i clock spurious = Some w' -> step strict w w'
  | step_defer i w' : defer_turn w i = Some w' -> step strict w w'
  | step_interrupt i k : w.(ctl) !! i = Some k -> step strict w (with_ctl w i (mk_control k.(base) k.(exec) (NClient [] :: k.(nested)) k.(reply)))
  | step_return i k r : w.(ctl) !! i = Some k -> k.(nested) = NClient [] :: r -> step strict w (with_ctl w i (mk_control k.(base) k.(exec) r k.(reply)))
  | step_pin i w' : (strict = true -> taking_part w i) -> pin_turn w i = Some w' -> step strict w w'
  | step_unpin i j w' : unpin_turn w i j = Some w' -> step strict w w'
  | step_load i j c w' : load_turn w i j c = Some w' -> step strict w w'
  | step_store i j c w' : store_turn w i j c = Some w' -> step strict w w'
  | step_clear i j c w' : clear_turn w i j c = Some w' -> step strict w w'
  | step_cas i j c expected w' : cas_turn w i j c expected = Some w' -> step strict w w'
  | step_retire i w' : (strict = true -> taking_part w i) -> retire_turn w i = Some w' -> step strict w w'
  | step_drop i c w' : unread w c -> drop_turn w i c = Some w' -> step strict w w'
  | step_report_quiescent i w' : enter w i report_quiescent = Some w' -> step strict w w'
  | step_advance i w' : enter w i advance_epoch_if_pending = Some w' -> step strict w w'
  | step_report_idle i w' : enter w i report_idle = Some w' -> step strict w w'
  | step_sync i d w' : enter w i (sync_until d) = Some w' -> step strict w w'
  | step_poll i t w' : (forall x, t = Some x -> x ∈ w.(futures)) -> enter w i (poll t) = Some w' -> step strict w w'
  | step_run_offloaded i w' : enter w i run_offloaded_reclaim = Some w' -> step strict w w'
  | step_run_offloaded_for i v w' : (v < length w.(q).(OFFLOADED))%nat -> enter w i (run_offloaded_reclaim_for v) = Some w' -> step strict w w'
  | step_set_offload n q' : set_reclaim_offload w.(q) n = Some q' -> step strict w (with_q w q')
  | step_clear_offload : step strict w (with_q w (clear_reclaim_offload w.(q))).

(** Fewer guards on each processor and fewer epochs than the counters hold. *)
Definition in_width w : Prop :=
  w.(q).(GLOBAL_EPOCH) < INACTIVE /\ forall i k, w.(ctl) !! i = Some k -> Z.of_nat (length (guards_of k)) < 2 ^ 64.

(** Reachable through states whose counters have not come round. *)
Inductive reachable (strict : bool) (ncpus cs : nat) : World -> Prop :=
  | reachable_start : reachable strict ncpus cs (world_start ncpus cs)
  | reachable_step w w' : reachable strict ncpus cs w -> step strict w w' -> in_width w' -> reachable strict ncpus cs w'.

(** * What a turn is made of *)

Lemma call_inv w i clock sp w' : call_turn w i clock sp = Some w' ->
  exists k f r q' fs e, w.(ctl) !! i = Some k /\ k.(nested) = [] /\ k.(exec) = f :: r /\ call_step w.(q) i f clock sp = Some (q', fs, e) /\
    w' = add_effect (with_q (with_ctl w i (mk_control k.(base) (fs ++ r) [] (match e with Quiet => k.(reply) | _ => e end))) q') e.
Proof.
  unfold call_turn. destruct (ctl w !! i) as [k |]; [| done]. destruct (nested k) eqn:En; [| done]. destruct (exec k) as [| f r] eqn:Ex; [done |].
  destruct (call_step _ _ _ _ _) as [[[q' fs] e] |] eqn:Ef; [| done]. intros [= <-]. by exists k, f, r, q', fs, e.
Qed.

Lemma defer_inv w i w' : defer_turn w i = Some w' ->
  exists k d r q' d', w.(ctl) !! i = Some k /\ k.(nested) = NDefer d :: r /\ defer_step w.(q) i d = Some (q', d') /\
    w' = with_q (with_ctl w i (push_defer (mk_control k.(base) k.(exec) r k.(reply)) d')) q'.
Proof. unfold defer_turn. intros E. repeat case_match; simplify_eq. by do 5 eexists. Qed.

Lemma pin_inv w i w' : pin_turn w i = Some w' ->
  exists k gs q', w.(ctl) !! i = Some k /\ client k = Some gs /\ reader_pin w.(q) i = Some q' /\
    w' = with_q (with_ctl w i (set_client k (mk_guard w.(q).(GLOBAL_EPOCH) [] :: gs))) q'.
Proof. unfold pin_turn. intros E. repeat case_match; simplify_eq. by do 3 eexists. Qed.

Lemma unpin_inv w i j w' : unpin_turn w i j = Some w' ->
  exists k gs g q', w.(ctl) !! i = Some k /\ client k = Some gs /\ gs !! j = Some g /\ reader_unpin w.(q) i = Some q' /\
    w' = with_q (with_ctl w i (set_client k (delete j gs))) q'.
Proof. unfold unpin_turn. intros E. repeat case_match; simplify_eq. by do 4 eexists. Qed.

Lemma load_inv w i j c w' : load_turn w i j c = Some w' ->
  exists k gs p gs', w.(ctl) !! i = Some k /\ client k = Some gs /\ w.(heap).(cells) !! c = Some p /\ see gs j p = Some gs' /\ w' = with_ctl w i (set_client k gs').
Proof. unfold load_turn, atomic.load. intros E. repeat case_match; simplify_eq. by do 4 eexists. Qed.

(** A client with guards [gs] goes on with guards [gs'] on heap [h], retires [d]
    and gets [back]. *)
Definition client_change w i (gs gs' : list Guard) (h : Heap) (d : option Defer) (back : list nat) w' : Prop :=
  exists k, w.(ctl) !! i = Some k /\ client k = Some gs /\
    w' = with_freed (with_heap (with_ctl w i (push_defer (set_client k gs') d)) h) back.

Lemma set_client_same (k : Control) gs : client k = Some gs -> set_client k gs = k.
Proof.
  unfold client, set_client. destruct k as [b x n r]; simpl. destruct n as [| [g |] n]; [destruct x; by intros [= ->] | by intros [= ->] | done].
Qed.

Lemma client_change_same w i k gs h d : w.(ctl) !! i = Some k -> client k = Some gs ->
  client_change w i gs gs h d [] (with_heap (with_ctl w i (push_defer k d)) h).
Proof. intros Ek Hc. exists k. by rewrite set_client_same. Qed.

Lemma store_turn_inv w i j c w' : store_turn w i j c = Some w' ->
  exists gs g h d, gs !! j = Some g /\ atomic.store w.(heap) c = Some (h, d) /\ client_change w i gs gs h d [] w'.
Proof. unfold store_turn. intros E. repeat case_match; simplify_eq. do 4 eexists. split_and!; [done.. |]. by apply client_change_same. Qed.

Lemma clear_inv w i j c w' : clear_turn w i j c = Some w' ->
  exists gs g h d, gs !! j = Some g /\ atomic.clear w.(heap) c = Some (h, d) /\ client_change w i gs gs h d [] w'.
Proof. unfold clear_turn. intros E. repeat case_match; simplify_eq. do 4 eexists. split_and!; [done.. |]. by apply client_change_same. Qed.

Lemma cas_inv w i j c x w' : cas_turn w i j c x = Some w' ->
  exists gs gs' h p d back, atomic.compare_and_set w.(heap) c x = Some (h, p, d, back) /\ see gs j p = Some gs' /\ client_change w i gs gs' h d (option_list back) w'.
Proof. unfold cas_turn. intros E. repeat case_match; simplify_eq. do 6 eexists. split_and!; [done.. |]. by eexists. Qed.

Lemma retire_inv w i w' : retire_turn w i = Some w' ->
  exists gs, client_change w i gs gs (mk_heap w.(heap).(cells) (S w.(heap).(next_node))) (Some (DeferLoad w.(heap).(next_node))) [] w'.
Proof. unfold retire_turn. cbn. intros E. repeat case_match; simplify_eq. eexists. by apply client_change_same. Qed.

Lemma enter_inv w i fs w' : enter w i fs = Some w' ->
  exists k, w.(ctl) !! i = Some k /\ k.(nested) = [] /\ k.(exec) = [] /\ w' = with_ctl w i (mk_control k.(base) fs [] k.(reply)).
Proof. unfold enter. intros E. repeat case_match; simplify_eq. by eexists. Qed.
End System.

Import qsbr.

(** * Counting *)

Definition cnt (n : nat) (l : list nat) : nat := count_occ Nat.eq_dec l n.

Arguments cnt : simpl never.

Lemma cnt_app n l l' : cnt n (l ++ l') = (cnt n l + cnt n l')%nat.
Proof. apply count_occ_app. Qed.

Lemma cnt_cons n x l : cnt n (x :: l) = ((if Nat.eq_dec x n then 1 else 0) + cnt n l)%nat.
Proof. unfold cnt. simpl. destruct (Nat.eq_dec x n); lia. Qed.

Lemma cnt_nil n : cnt n [] = 0%nat.
Proof. done. Qed.

Lemma cnt_pos n l : (0 < cnt n l)%nat <-> n ∈ l.
Proof. rewrite list_elem_of_In. symmetry. apply count_occ_In. Qed.

Lemma cnt_concat_insert {A} n (f : A -> list nat) l i x y :
  l !! i = Some x -> (cnt n (concat (f <$> <[i := y]> l)) + cnt n (f x) = cnt n (concat (f <$> l)) + cnt n (f y))%nat.
Proof.
  revert i. induction l as [| a l IH]; intros [| i] E; simplify_eq/=; rewrite !cnt_app; [lia |].
  specialize (IH i E). lia.
Qed.

(** * Places *)

Definition linked (h : Heap) : list nat := omap id h.(cells).

Definition defer_nodes (x : Nested) : list nat :=
  match x with NDefer (DeferLoad n) | NDefer (DeferPush n _) => [n] | NClient _ => [] end.

Definition call_nodes (f : Call) : list nat :=
  match f with
  | DrainKeep _ ready keep _ => node <$> (ready ++ keep)
  | OffHook l | OffLoad _ l | OffCas _ l _ | RunDroppers l => node <$> l
  | _ => []
  end.

Definition cell_nodes (c : CpuCell) : list nat := node <$> c.(bucket).(head).
Definition queue_nodes (o : OffloadQueue) : list nat := node <$> o.(q_head).
Definition control_nodes (k : Control) : list nat := concat (call_nodes <$> k.(exec)) ++ concat (defer_nodes <$> k.(nested)).
Definition effect_nodes (e : Effect) : list nat := match e with Dropped n => [n] | _ => [] end.

(** The allocations that were retired and whose destructor has not run. *)
Definition pending (w : World) : list nat :=
  concat (cell_nodes <$> w.(q).(CPUS)) ++ concat (queue_nodes <$> w.(q).(OFFLOADED)) ++ concat (control_nodes <$> w.(ctl)).

Definition places (w : World) : list nat := linked w.(heap) ++ pending w ++ w.(freed).

Definition accounted (w : World) : Prop := forall n, cnt n (places w) = (if (n <? w.(heap).(next_node))%nat then 1 else 0)%nat.

Lemma fmap_hdr x l : node <$> x :: l = node x :: (node <$> l).
Proof. done. Qed.

Create Rewrite HintDb count.
#[export] Hint Rewrite (@fmap_app DeferHdr nat) @concat_app fmap_hdr @app_nil_r cnt_app cnt_cons cnt_nil : count.
Lemma fmap_one {A} (f : A -> list nat) x l : concat (f <$> x :: l) = f x ++ concat (f <$> l).
Proof. done. Qed.

Lemma fmap_none {A} (f : A -> list nat) : concat (f <$> []) = [].
Proof. done. Qed.

#[export] Hint Rewrite @fmap_one @fmap_none (@fmap_app Call (list nat)) : count.
Ltac count := unfold cell_nodes, queue_nodes, control_nodes in *;
  cbn [bucket head q_head set_readers set_last set_ns set_bucket exec nested] in *;
  autorewrite with count in *; cbn [call_nodes defer_nodes effect_nodes app node] in *; autorewrite with count in *; cbn [node] in *; try lia.

Lemma partition_count n min l r k m r' k' m' : partition min l r k m = (r', k', m') ->
  (cnt n (node <$> (r' ++ k')) = cnt n (node <$> l) + cnt n (node <$> (r ++ k)))%nat.
Proof.
  revert r k m. induction l as [| x l IH]; intros r k m E; simpl in E; [simplify_eq; simpl; lia |].
  case_match; apply IH in E; count.
Qed.

Definition static_count (n : nat) (q : Qsbr) : nat :=
  (cnt n (concat (cell_nodes <$> q.(CPUS))) + cnt n (concat (queue_nodes <$> q.(OFFLOADED))))%nat.

Lemma static_cell n q i c c' : CPUS q !! i = Some c ->
  (static_count n (set_cell q i c') + cnt n (cell_nodes c) = static_count n q + cnt n (cell_nodes c'))%nat.
Proof. intros E. unfold static_count. simpl. pose proof (cnt_concat_insert n cell_nodes _ i c c' E). lia. Qed.

Lemma static_queue n q v o o' : OFFLOADED q !! v = Some o ->
  (static_count n (set_queue q v o') + cnt n (queue_nodes o) = static_count n q + cnt n (queue_nodes o'))%nat.
Proof. intros E. unfold static_count. simpl. pose proof (cnt_concat_insert n queue_nodes _ v o o' E). lia. Qed.

Lemma static_epoch n q e : static_count n (set_epoch q e) = static_count n q.
Proof. done. Qed.

Lemma static_stuck n q e : static_count n (set_stuck q e) = static_count n q.
Proof. done. Qed.

Lemma static_held n q e : static_count n (set_held q e) = static_count n q.
Proof. done. Qed.

(** A function only moves allocations. *)
Lemma call_step_count n q i f clock sp q' fs e : call_step q i f clock sp = Some (q', fs, e) ->
  (static_count n q' + cnt n (concat (call_nodes <$> fs)) + cnt n (effect_nodes e) = static_count n q + cnt n (call_nodes f))%nat.
Proof.
  open_call. destruct (CPUS q !! i) as [c |] eqn:Ec; [| done].
  destruct f; intros E; repeat case_match; simplify_eq.
  all: try match goal with H : @eq (option CpuCell) _ _ |- context [static_count ?m (set_cell ?p _ ?y)] => pose proof (static_cell m p _ _ y H) end.
  all: try match goal with H : @eq (option OffloadQueue) _ _ |- context [static_count ?m (set_queue ?p _ ?y)] => pose proof (static_queue m p _ _ y H) end.
  all: try match goal with H : partition _ _ _ _ _ = _ |- context [static_count ?m _] => apply (partition_count m) in H end.
  all: rewrite ?static_epoch, ?static_stuck, ?static_held.
  all: unfold after_drain; repeat case_match; count.
Qed.

Definition retired_nodes (d : option Defer) : list nat := match d with Some d => defer_nodes (NDefer d) | None => [] end.

Lemma defer_step_count n q i d q' d' : defer_step q i d = Some (q', d') ->
  (static_count n q' + cnt n (retired_nodes d') = static_count n q + cnt n (defer_nodes (NDefer d)))%nat.
Proof.
  destruct d as [m | m e]; simpl; [intros [= <- <-]; done |]. destruct (CPUS q !! i) as [c |] eqn:Ec; [| done].
  intros [= <- <-]. pose proof (static_cell n q i c (set_bucket c (mk_bucket (mk_hdr m e :: head (bucket c)) (wrap 64 (len (bucket c) + 1)))) Ec).
  cbn [retired_nodes]. count.
Qed.

(** * Pointer cells *)

Lemma linked_insert n l k (old new : option nat) : l !! k = Some old ->
  (cnt n (omap id (<[k := new]> l)) + cnt n (option_list old) = cnt n (omap id l) + cnt n (option_list new))%nat.
Proof.
  revert k. induction l as [| x l IH]; intros [| k] E; simplify_eq/=.
  - destruct old, new; simpl; rewrite ?cnt_cons, ?cnt_nil; lia.
  - specialize (IH k E). destruct x; simpl; rewrite ?cnt_cons; lia.
Qed.

Definition fresh_count (n : nat) (h : Heap) : nat := if Nat.eq_dec h.(next_node) n then 1 else 0.

Lemma retired_retire p : retired_nodes (atomic.retire_node p) = option_list p.
Proof. by destruct p. Qed.

Lemma store_count n h c h' d : atomic.store h c = Some (h', d) ->
  (cnt n (linked h') + cnt n (retired_nodes d) = cnt n (linked h) + fresh_count n h)%nat /\ h'.(next_node) = S h.(next_node).
Proof.
  unfold atomic.store, atomic.swap, linked, fresh_count. cbn. destruct (cells h !! c) as [old |] eqn:E; [| done]. intros [= <- <-]. cbn.
  pose proof (linked_insert n _ c old (Some (next_node h)) E). rewrite retired_retire. cbn in *. rewrite cnt_cons, cnt_nil in *. lia.
Qed.

Lemma clear_count n h c h' d : atomic.clear h c = Some (h', d) ->
  (cnt n (linked h') + cnt n (retired_nodes d) = cnt n (linked h))%nat /\ h'.(next_node) = h.(next_node).
Proof.
  unfold atomic.clear, atomic.swap, linked. cbn. destruct (cells h !! c) as [old |] eqn:E; [| done]. intros [= <- <-]. cbn.
  pose proof (linked_insert n _ c old None E). rewrite retired_retire. cbn in *. rewrite cnt_nil in *. lia.
Qed.

Lemma cas_count n h c x h' p d back : atomic.compare_and_set h c x = Some (h', p, d, back) ->
  (cnt n (linked h') + cnt n (retired_nodes d) + cnt n (option_list back) = cnt n (linked h) + fresh_count n h)%nat /\ h'.(next_node) = S h.(next_node).
Proof.
  unfold atomic.compare_and_set, atomic.swap, linked, fresh_count. cbn. destruct (cells h !! c) as [old |] eqn:E; [| done].
  destruct (decide (old = x)); intros [= <- <- <- <-]; cbn.
  - pose proof (linked_insert n _ c old (Some (next_node h)) E). rewrite retired_retire. cbn in *. rewrite ?cnt_cons, ?cnt_nil in *. lia.
  - rewrite ?cnt_cons, ?cnt_nil. lia.
Qed.

Lemma drop_count n h c h' p : atomic.drop h c = Some (h', p) ->
  (cnt n (linked h') + cnt n (option_list p) = cnt n (linked h))%nat /\ h'.(next_node) = h.(next_node).
Proof.
  unfold atomic.drop, atomic.swap, linked. cbn. destruct (cells h !! c) as [old |] eqn:E; [| done]. intros [= <- <-]. cbn.
  pose proof (linked_insert n _ c old None E). cbn in *. rewrite cnt_nil in *. lia.
Qed.

(** * The account of a step *)

Lemma control_insert n l i k k' : l !! i = Some k ->
  (cnt n (concat (control_nodes <$> <[i := k']> l)) + cnt n (control_nodes k) = cnt n (concat (control_nodes <$> l)) + cnt n (control_nodes k'))%nat.
Proof. apply cnt_concat_insert. Qed.

Lemma control_push k d n : (cnt n (control_nodes (push_defer k d)) = cnt n (control_nodes k) + cnt n (retired_nodes d))%nat.
Proof. unfold push_defer, control_nodes. destruct d as [d |]; cbn [exec nested retired_nodes]; autorewrite with count; lia. Qed.

Lemma control_client k gs n : client k <> None -> cnt n (control_nodes (set_client k gs)) = cnt n (control_nodes k).
Proof. unfold client, set_client. destruct (nested k) as [| [g | d] r] eqn:E; [| | done]; intros _; unfold control_nodes; cbn; by rewrite E. Qed.

Lemma places_count n w : cnt n (places w) =
  (cnt n (linked w.(heap)) + static_count n w.(q) + cnt n (concat (control_nodes <$> w.(ctl))) + cnt n w.(freed))%nat.
Proof. unfold places, pending, static_count. rewrite !cnt_app. lia. Qed.

Lemma effect_count n w e : cnt n (places (add_effect w e)) = (cnt n (places w) + cnt n (effect_nodes e))%nat.
Proof. rewrite !places_count. destruct e; cbn -[cnt]; rewrite ?cnt_cons, ?cnt_nil; lia. Qed.

Lemma effect_heap w e : (add_effect w e).(heap) = w.(heap).
Proof. by destruct e. Qed.

(** Steps that move allocations but make none. *)
Lemma accounted_same w w' : (forall n, cnt n (places w') = cnt n (places w)) -> w'.(heap).(next_node) = w.(heap).(next_node) -> accounted w -> accounted w'.
Proof. intros H E A n. by rewrite H, E, A. Qed.

Lemma accounted_fresh w w' : (forall n, cnt n (places w') = (cnt n (places w) + fresh_count n w.(heap))%nat) ->
  w'.(heap).(next_node) = S w.(heap).(next_node) -> accounted w -> accounted w'.
Proof.
  intros H E A n. rewrite H, E, A. unfold fresh_count. destruct (Nat.eq_dec (next_node (heap w)) n) as [<- | N].
  - rewrite Nat.ltb_irrefl. by destruct (Nat.ltb_spec (next_node (heap w)) (S (next_node (heap w)))); [| lia].
  - destruct (Nat.ltb_spec n (next_node (heap w))), (Nat.ltb_spec n (S (next_node (heap w)))); lia.
Qed.

Lemma accounted_control w i k k' : ctl w !! i = Some k -> (forall n, cnt n (control_nodes k') = cnt n (control_nodes k)) -> accounted w -> accounted (with_ctl w i k').
Proof.
  intros Ek H. apply accounted_same; [| done]. intros n. rewrite !places_count. cbn. pose proof (control_insert n (ctl w) i k k' Ek). rewrite H in *. lia.
Qed.

(** The account does not depend on readers, hooks and counters. *)
Lemma accounted_q w q' : (forall n, static_count n q' = static_count n w.(q)) -> accounted w -> accounted (with_q w q').
Proof. intros H. apply accounted_same; [| done]. intros n. rewrite !places_count. cbn. by rewrite H. Qed.

Lemma static_readers n q i c r : CPUS q !! i = Some c -> static_count n (set_cell q i (set_readers c r)) = static_count n q.
Proof. intros E. pose proof (static_cell n q i c (set_readers c r) E). unfold cell_nodes in *. cbn [bucket set_readers] in *. lia. Qed.

Lemma call_turn_accounted w i clock sp w' : call_turn w i clock sp = Some w' -> accounted w -> accounted w'.
Proof.
  intros (k & f & r & q' & fs & e & Ek & En & Ex & Ef & ->)%call_inv.
  apply accounted_same; [| by rewrite effect_heap]. intros n. rewrite effect_count, !places_count. cbn [heap q ctl freed with_q with_ctl].
  pose proof (control_insert n (ctl w) i k (mk_control (base k) (fs ++ r) [] (match e with Quiet => reply k | _ => e end)) Ek) as C.
  apply (call_step_count n) in Ef. unfold control_nodes in C at 2 4. rewrite Ex, En in C. cbn [exec nested] in C. autorewrite with count in C. lia.
Qed.

Lemma defer_turn_accounted w i w' : defer_turn w i = Some w' -> accounted w -> accounted w'.
Proof.
  intros (k & d & r & q' & d' & Ek & En & Ef & ->)%defer_inv.
  apply accounted_same; [| done]. intros n. rewrite !places_count. cbn [heap q ctl freed with_q with_ctl].
  pose proof (control_insert n (ctl w) i k (push_defer (mk_control (base k) (exec k) r (reply k)) d') Ek) as C.
  apply (defer_step_count n) in Ef. rewrite control_push in C. unfold control_nodes in C at 2 4. rewrite En in C. cbn [exec nested] in C. autorewrite with count in C. lia.
Qed.

Lemma client_places n w i gs gs' h d l w' : client_change w i gs gs' h d l w' ->
  cnt n (places w') = (cnt n (linked h) + static_count n w.(q) + cnt n (concat (control_nodes <$> w.(ctl))) + cnt n (retired_nodes d) + cnt n l + cnt n w.(freed))%nat.
Proof.
  intros (k & Ek & Hc & ->). rewrite places_count. cbn [heap q ctl freed with_heap with_freed with_ctl]. rewrite cnt_app.
  pose proof (control_insert n (ctl w) i k (push_defer (set_client k gs') d) Ek) as C. rewrite control_push, control_client in C by (by rewrite Hc). lia.
Qed.

Lemma client_heap w i gs gs' h d l w' : client_change w i gs gs' h d l w' -> w'.(heap) = h.
Proof. by intros (k & Ek & Hc & ->). Qed.

Lemma client_accounted w i gs gs' h d l w' : client_change w i gs gs' h d l w' ->
  (forall n, cnt n (linked h) + cnt n (retired_nodes d) + cnt n l = cnt n (linked w.(heap)) /\ h.(next_node) = w.(heap).(next_node))%nat ->
  accounted w -> accounted w'.
Proof.
  intros C H. apply accounted_same; [| by rewrite (client_heap _ _ _ _ _ _ _ _ C), (proj2 (H 0%nat))].
  intros n. rewrite (client_places n _ _ _ _ _ _ _ _ C), places_count. destruct (H n). lia.
Qed.

Lemma client_accounted_fresh w i gs gs' h d l w' : client_change w i gs gs' h d l w' ->
  (forall n, cnt n (linked h) + cnt n (retired_nodes d) + cnt n l = cnt n (linked w.(heap)) + fresh_count n w.(heap) /\ h.(next_node) = S w.(heap).(next_node))%nat ->
  accounted w -> accounted w'.
Proof.
  intros C H. apply accounted_fresh; [| by rewrite (client_heap _ _ _ _ _ _ _ _ C), (proj2 (H 0%nat))].
  intros n. rewrite (client_places n _ _ _ _ _ _ _ _ C), places_count. destruct (H n). lia.
Qed.

Lemma drop_inv w i c w' : drop_turn w i c = Some w' -> exists h p, atomic.drop w.(heap) c = Some (h, p) /\ w' = with_freed (with_heap w h) (option_list p).
Proof.
  unfold drop_turn. destruct (ctl w !! i) as [k |]; [| done]. destruct (client k); [| done]. destruct (atomic.drop _ _) as [[h p] |]; [| done]. intros [= <-]. by exists h, p.
Qed.

Lemma drop_accounted w i c w' : drop_turn w i c = Some w' -> accounted w -> accounted w'.
Proof.
  intros (h & p & E & ->)%drop_inv. apply accounted_same; [| exact (proj2 (drop_count 0 _ _ _ _ E))].
  intros n. rewrite !places_count. cbn [heap q ctl freed with_heap with_freed]. rewrite cnt_app. destruct (drop_count n _ _ _ _ E). lia.
Qed.

Lemma enter_accounted w i fs w' : concat (call_nodes <$> fs) = [] -> enter w i fs = Some w' -> accounted w -> accounted w'.
Proof.
  intros Hf (k & Ek & En & Ex & ->)%enter_inv. apply (accounted_control w i k); [done |].
  intros n. unfold control_nodes. rewrite Ex, En. cbn [exec nested]. by rewrite Hf.
Qed.

Lemma step_accounted strict w w' : step strict w w' -> accounted w -> accounted w'.
Proof.
  intros S. destruct S as [i cl sp w' E | i w' E | i k Ek | i k r Ek En | i w' P E | i j w' E | i j c w' E | i j c w' E | i j c w' E | i j c x w' E | i w' P E | i c w' U E | i w' E | i w' E | i w' E | i d w' E | i t w' P E | i w' E | i v w' P E | n q' E |].
  - by eapply call_turn_accounted.
  - by eapply defer_turn_accounted.
  - by apply (accounted_control w i k).
  - apply (accounted_control w i k); [done |]. intros n. unfold control_nodes. by rewrite En.
  - apply pin_inv in E as (k & gs & q' & Ek & Hc & Eq & ->). intros A. unfold reader_pin in Eq. destruct (CPUS (q w) !! i) as [c |] eqn:Ec; [| done]. injection Eq as <-.
    apply accounted_q; [intros n; by apply static_readers |]. apply (accounted_control w i k); [done | | done]. intros n. apply control_client. by rewrite Hc.
  - apply unpin_inv in E as (k & gs & g & q' & Ek & Hc & Eg & Eq & ->). intros A. unfold reader_unpin in Eq. destruct (CPUS (q w) !! i) as [c |] eqn:Ec; [| done]. injection Eq as <-.
    apply accounted_q; [intros n; by apply static_readers |]. apply (accounted_control w i k); [done | | done]. intros n. apply control_client. by rewrite Hc.
  - apply load_inv in E as (k & gs & p & gs' & Ek & Hc & _ & _ & ->). apply (accounted_control w i k); [done |]. intros n. apply control_client. by rewrite Hc.
  - apply store_turn_inv in E as (gs & g & h & d & _ & Es & C). apply (client_accounted_fresh _ _ _ _ _ _ _ _ C). intros n. destruct (store_count n _ _ _ _ Es). rewrite cnt_nil. lia.
  - apply clear_inv in E as (gs & g & h & d & _ & Es & C). apply (client_accounted _ _ _ _ _ _ _ _ C). intros n. destruct (clear_count n _ _ _ _ Es). rewrite cnt_nil. lia.
  - apply cas_inv in E as (gs & gs' & h & p & d & back & Es & _ & C). apply (client_accounted_fresh _ _ _ _ _ _ _ _ C). intros n. destruct (cas_count n _ _ _ _ _ _ _ Es). lia.
  - apply retire_inv in E as (gs & C). apply (client_accounted_fresh _ _ _ _ _ _ _ _ C). intros n. unfold fresh_count, linked. cbn. rewrite cnt_cons, cnt_nil. lia.
  - by eapply drop_accounted.
  - by apply (enter_accounted w i report_quiescent).
  - by apply (enter_accounted w i advance_epoch_if_pending).
  - by apply (enter_accounted w i report_idle).
  - by apply (enter_accounted w i (sync_until d)).
  - apply (enter_accounted w i (poll t)); [by destruct t | done].
  - by apply (enter_accounted w i run_offloaded_reclaim).
  - by apply (enter_accounted w i (run_offloaded_reclaim_for v)).
  - unfold set_reclaim_offload in E. destruct (_ && _); [| done]. injection E as <-. by apply accounted_q.
  - by apply accounted_q.
Qed.

Lemma start_accounted ncpus cs : accounted (world_start ncpus cs).
Proof.
  intros n. rewrite places_count. cbn. unfold static_count, linked. cbn.
  assert (H : forall A (f : A -> list nat) x m, f x = [] -> concat (f <$> replicate m x) = []) by (intros A f x m E; induction m as [| m IH]; [done |]; simpl; by rewrite E).
  rewrite !H by done. by induction cs.
Qed.

Lemma reachable_accounted strict ncpus cs w : reachable strict ncpus cs w -> accounted w.
Proof. induction 1 as [| w w' _ IH S _]; [apply start_accounted | by eapply step_accounted]. Qed.

(** An allocation is in one place only. *)
Lemma accounted_once w n l l' : accounted w -> (forall m, cnt m l + cnt m l' <= cnt m (places w))%nat -> n ∈ l -> n ∈ l' -> False.
Proof. intros A H I I'. apply cnt_pos in I, I'. specialize (H n). rewrite (A n) in H. destruct (n <? _)%nat; lia. Qed.
