(* ===== verification/RcuSound.v ===== *)
(** Grace periods are long enough: no destructor runs under a reader, provided
    that processors take guards only while they take part. *)

From stdpp Require Import sets.
From S2P Require Import Prelude Word RcuQsbr RcuSystem.
Import qsbr.

(** * Headers that wait *)

Definition call_waiting (f : Call) : list DeferHdr := match f with DrainKeep _ _ keep _ => keep | _ => [] end.
Definition nested_waiting (x : Nested) : list DeferHdr := match x with NDefer (DeferPush n e) => [mk_hdr n e] | _ => [] end.
Definition nested_unstamped (x : Nested) : list nat := match x with NDefer (DeferLoad n) => [n] | _ => [] end.

Definition cell_waiting (c : CpuCell) : list DeferHdr := c.(bucket).(head).
Definition control_waiting (k : Control) : list DeferHdr := concat (call_waiting <$> k.(exec)) ++ concat (nested_waiting <$> k.(nested)).
Definition control_unstamped (k : Control) : list nat := concat (nested_unstamped <$> k.(nested)).

(** Allocations that were unlinked and have no epoch yet, and headers with one. *)
Definition unstamped (w : World) : list nat := concat (control_unstamped <$> w.(ctl)).
Definition waiting (w : World) : list DeferHdr := concat (cell_waiting <$> w.(q).(CPUS)) ++ concat (control_waiting <$> w.(ctl)).

(** An allocation no destructor may run for yet, as far as a processor whose last
    quiescent state was at [e] is concerned. *)
Definition safe (w : World) (e : Z) (n : nat) : Prop :=
  n ∈ linked w.(heap) \/ n ∈ unstamped w \/ exists x, x ∈ waiting w /\ node x = n /\ e <= epoch x.

Lemma elem_concat {A B} (f : A -> list B) l (x : B) : x ∈ concat (f <$> l) <-> exists i a, l !! i = Some a /\ x ∈ f a.
Proof.
  split.
  - induction l as [| a l IH]; simpl; [by rewrite elem_of_nil |]. rewrite elem_of_app. intros [H | H]; [by exists 0%nat, a |].
    destruct (IH H) as (i & b & E & Hb). by exists (S i), b.
  - intros (i & a & E & H). revert i E. induction l as [| b l IH]; intros [| i] E; simplify_eq/=; rewrite elem_of_app; [by left |]. right. by apply (IH i).
Qed.

Lemma elem_concat_insert {A B} (f : A -> list B) l i a a' (x : B) :
  l !! i = Some a -> (x ∈ f a -> x ∈ f a') -> x ∈ concat (f <$> l) -> x ∈ concat (f <$> <[i := a']> l).
Proof.
  intros E H. rewrite !elem_concat. intros (j & b & Ej & Hb). destruct (decide (j = i)) as [-> | N].
  - exists i, a'. simplify_eq. split; [apply list_lookup_insert_eq; by eapply lookup_lt_Some | by apply H].
  - exists j, b. by rewrite list_lookup_insert_ne.
Qed.

Lemma elem_concat_here {A B} (f : A -> list B) l i a a' (x : B) : l !! i = Some a -> x ∈ f a' -> x ∈ concat (f <$> <[i := a']> l).
Proof. intros E H. apply elem_concat. exists i, a'. split; [apply list_lookup_insert_eq; by eapply lookup_lt_Some | done]. Qed.

(** * Each of them is in one place *)

Lemma cnt_concat_le {A} n (f : A -> list DeferHdr) (g : A -> list nat) l :
  (forall a, cnt n (node <$> f a) <= cnt n (g a))%nat -> (cnt n (node <$> concat (f <$> l)) <= cnt n (concat (g <$> l)))%nat.
Proof. intros H. induction l as [| a l IH]; [done |]. rewrite !fmap_cons. cbn [concat]. rewrite !fmap_app, !cnt_app. specialize (H a). lia. Qed.

Lemma waiting_places n w : (cnt n (linked w.(heap)) + cnt n (unstamped w) + cnt n (node <$> waiting w) + cnt n w.(freed) <= cnt n (places w))%nat.
Proof.
  rewrite places_count. unfold static_count, waiting, unstamped. rewrite fmap_app, cnt_app.
  assert (H1 : (cnt n (node <$> concat (cell_waiting <$> CPUS (q w))) <= cnt n (concat (cell_nodes <$> CPUS (q w))))%nat).
  { by apply cnt_concat_le. }
  assert (H2 : (cnt n (concat (control_unstamped <$> ctl w)) + cnt n (node <$> concat (control_waiting <$> ctl w)) <= cnt n (concat (control_nodes <$> ctl w)))%nat); [| lia].
  clear H1. induction (ctl w) as [| k l IH]; [done |]. rewrite !fmap_cons. cbn [concat]. rewrite fmap_app, !cnt_app.
  enough (cnt n (control_unstamped k) + cnt n (node <$> control_waiting k) <= cnt n (control_nodes k))%nat by lia.
  unfold control_unstamped, control_waiting, control_nodes. rewrite fmap_app, !cnt_app.
  assert (E : (cnt n (node <$> concat (call_waiting <$> exec k)) <= cnt n (concat (call_nodes <$> exec k)))%nat).
  { apply cnt_concat_le. intros f. destruct f; try apply Nat.le_0_l. cbn [call_waiting call_nodes]. rewrite fmap_app, cnt_app. lia. }
  assert (N : (cnt n (concat (nested_unstamped <$> nested k)) + cnt n (node <$> concat (nested_waiting <$> nested k)) <= cnt n (concat (defer_nodes <$> nested k)))%nat); [| lia].
  induction (nested k) as [| [gs | [m | m e]] r IHr]; [done | done | ..]; cbn; rewrite ?cnt_cons; lia.
Qed.

Lemma hdr_unique (l : list DeferHdr) x y : (cnt (node x) (node <$> l) <= 1)%nat -> x ∈ l -> y ∈ l -> node x = node y -> x = y.
Proof.
  induction l as [| a l IH]; [by rewrite elem_of_nil |]. cbn. rewrite cnt_cons, !elem_of_cons.
  intros H [-> | Hx] [-> | Hy] E; [done | | | by apply IH; [lia | ..]].
  - destruct (Nat.eq_dec (node a) (node a)); [| done]. assert (0 < cnt (node a) (node <$> l))%nat; [| lia]. apply cnt_pos. rewrite E. by apply list_elem_of_fmap_2.
  - destruct (Nat.eq_dec (node a) (node x)); [| congruence]. assert (0 < cnt (node x) (node <$> l))%nat; [| lia]. apply cnt_pos. by apply list_elem_of_fmap_2.
Qed.

(** A header that waits is the only trace of its allocation. *)
Lemma waiting_once w x : accounted w -> x ∈ waiting w ->
  ~ node x ∈ linked w.(heap) /\ ~ node x ∈ unstamped w /\ ~ node x ∈ w.(freed) /\ (node x < w.(heap).(next_node))%nat /\
  (forall y, y ∈ waiting w -> node y = node x -> y = x).
Proof.
  intros A H. pose proof (waiting_places (node x) w) as P. rewrite (A (node x)) in P.
  assert (0 < cnt (node x) (node <$> waiting w))%nat by (apply cnt_pos; by apply list_elem_of_fmap_2).
  destruct (Nat.ltb_spec (node x) (next_node (heap w))) as [L | L]; [| lia].
  split_and!; try (rewrite <- cnt_pos; lia); [done |]. intros y Hy E. symmetry. apply (hdr_unique (waiting w)); [lia | done..].
Qed.

Lemma safe_header w e x : accounted w -> x ∈ waiting w -> safe w e (node x) -> e <= epoch x.
Proof. intros A H S. destruct (waiting_once w x A H) as (NL & NU & _ & _ & U). destruct S as [S | [S | (y & Hy & E & L)]]; [done | done |]. by rewrite <- (U y Hy E). Qed.

Lemma safe_not_freed w e n : accounted w -> safe w e n -> ~ n ∈ w.(freed).
Proof.
  intros A S F. pose proof (waiting_places n w) as P. rewrite (A n) in P. apply cnt_pos in F.
  destruct S as [S | [S | (x & Hx & <- & _)]].
  - apply cnt_pos in S. destruct (_ <? _)%nat; lia.
  - apply cnt_pos in S. destruct (_ <? _)%nat; lia.
  - assert (0 < cnt (node x) (node <$> waiting w))%nat by (apply cnt_pos; by apply list_elem_of_fmap_2). destruct (_ <? _)%nat; lia.
Qed.

(** * Readers *)

Definition guard_on (w : World) (i : nat) (g : Guard) : Prop := exists k, w.(ctl) !! i = Some k /\ g ∈ guards_of k.

(** Processor [i] reaches [n] through a guard of [R]. *)
Definition sees (R : nat -> Guard -> Prop) (i n : nat) : Prop := exists g, R i g /\ n ∈ g.(seen).

(** Functions that wait for another one to return. *)
Definition outer (f : Call) : Prop :=
  match f with IdleStoreLast | SyncPast _ _ | PollPast _ _ | RunAll _ | SyncDone _ | PollDone _ => True | _ => False end.

(** Guards taken since the epoch [t] was published, on the first [i] processors. *)
Definition pinned_since (R : nat -> Guard -> Prop) (i : nat) (t : Z) : Prop := forall j g, (j < i)%nat -> R j g -> t <= g.(g_epoch).

(** What a function under way on processor [i] relies on: [G] is the epoch, [R]
    are the guards, [c] is its cell and [bs] are the guards of its task. *)
Definition call_ok (G : Z) (R : nat -> Guard -> Prop) (i : nat) (c : CpuCell) (bs : list Guard) (f : Call) : Prop :=
  match f with
  | RqLoadEpoch | IdleStoreLast => bs = []
  | RqLoadLast now | RqStoreLast now => bs = [] /\ 0 < now <= G
  | DrainMin _ k min =>
      ((i < k)%nat -> min <= c.(last_quiescent)) /\
      forall j x, (j < k)%nat -> x ∈ cell_waiting c -> sees R j (node x) -> min <= epoch x \/ (k <= i)%nat /\ c.(last_quiescent) <= epoch x
  | DrainDetach _ min_q => min_q <= c.(last_quiescent) /\ forall j x, x ∈ cell_waiting c -> sees R j (node x) -> min_q <= epoch x
  | SyncStart _ t => t <= G
  | SyncPast w k => w.(target) <= G /\ pinned_since R k w.(target)
  | SyncNow w => w.(target) <= G
  | PollPast t k => t <= G /\ pinned_since R k t
  | SyncDone t | PollDone t => t <= G /\ forall k, pinned_since R k t
  | _ => True
  end.

Definition nested_ok (G : Z) (c : CpuCell) (x : Nested) : Prop :=
  match x with
  | NDefer (DeferLoad _) => c.(last_quiescent) <> INACTIVE
  | NDefer (DeferPush _ e) => c.(last_quiescent) <> INACTIVE /\ c.(last_quiescent) <= e <= G
  | NClient _ => True
  end.

Definition guard_ok (G : Z) (c : CpuCell) (g : Guard) : Prop := c.(last_quiescent) <> INACTIVE /\ c.(last_quiescent) <= g.(g_epoch) <= G.

Record cpu_ok (G : Z) (R : nat -> Guard -> Prop) (i : nat) (c : CpuCell) (k : Control) : Prop := {
  co_readers : c.(active_readers) = Z.of_nat (length (guards_of k));
  co_last : c.(last_quiescent) = INACTIVE \/ 0 < c.(last_quiescent) <= G;
  co_guards : Forall (guard_ok G c) (guards_of k);
  co_calls : Forall (call_ok G R i c k.(base)) k.(exec);
  co_outer : Forall outer (tail k.(exec));
  co_nested : Forall (nested_ok G c) k.(nested)
}.

Record rcu_ok (w : World) : Prop := {
  ro_accounted : accounted w;
  ro_length : length w.(ctl) = length w.(q).(CPUS);
  ro_epoch : 0 < w.(q).(GLOBAL_EPOCH) < INACTIVE;
  ro_cpus : forall i c k, w.(q).(CPUS) !! i = Some c -> w.(ctl) !! i = Some k -> cpu_ok w.(q).(GLOBAL_EPOCH) (guard_on w) i c k;
  ro_seen : forall i c n, w.(q).(CPUS) !! i = Some c -> sees (guard_on w) i n -> safe w c.(last_quiescent) n;
  ro_futures : Forall (fun t => t <= w.(q).(GLOBAL_EPOCH)) w.(futures)
}.

(** ** What the other processors may do *)

(** The readers [R'] at epoch [G'] come from [R] at [G]: guards that are new were
    taken at [G] or later, and [new] is all that was reached since. *)
Record grows (G : Z) (R : nat -> Guard -> Prop) (new : nat -> Prop) (G' : Z) (R' : nat -> Guard -> Prop) : Prop := {
  gr_epoch : G <= G';
  gr_guards : forall i g, R' i g -> (exists g0, R i g0 /\ g0.(g_epoch) = g.(g_epoch)) \/ G <= g.(g_epoch);
  gr_sees : forall i n, sees R' i n -> sees R i n \/ new n
}.

Lemma pinned_grows G R new G' R' i t : grows G R new G' R' -> t <= G -> pinned_since R i t -> pinned_since R' i t.
Proof. intros [_ Hg _] L H j g Lj Rg. destruct (Hg j g Rg) as [(g0 & R0 & <-) | Ge]; [by eapply H | lia]. Qed.

(** A function keeps what it relies on when its own cell does not change. *)
Lemma call_ok_grows G R new G' R' i c bs f : grows G R new G' R' -> (forall x, x ∈ cell_waiting c -> ~ new (node x)) ->
  call_ok G R i c bs f -> call_ok G' R' i c bs f.
Proof.
  intros Gr F. pose proof Gr as [Ge _ Hs].
  destruct f as [| | | | | | | | | | | | | | | | | | | | | | | | | | w k | | t | | t k | t]; simpl; try done; try lia.
  - intros []. split; [done | lia].
  - intros []. split; [done | lia].
  - intros [O D]. split; [done |]. intros j x Lj Hx S. destruct (Hs _ _ S) as [S' | N]; [by eapply D | by destruct (F x)].
  - intros [O D]. split; [done |]. intros j x Hx S. destruct (Hs _ _ S) as [S' | N]; [by eapply D | by destruct (F x)].
  - intros [L P]. split; [lia |]. by eapply pinned_grows.
  - intros [L P]. split; [lia |]. intros k. by eapply pinned_grows.
  - intros [L P]. split; [lia |]. by eapply pinned_grows.
  - intros [L P]. split; [lia |]. intros k. by eapply pinned_grows.
Qed.

(** A function that waits for another one does not look at the cell. *)
Lemma call_ok_outer G R i c c' bs f : outer f -> call_ok G R i c bs f -> call_ok G R i c' bs f.
Proof. by destruct f. Qed.

Lemma cpu_ok_grows G R new G' R' i c k : grows G R new G' R' -> (forall x, x ∈ cell_waiting c -> ~ new (node x)) ->
  cpu_ok G R i c k -> cpu_ok G' R' i c k.
Proof.
  intros Gr F [H1 H2 H3 H4 H5 H6]. pose proof (gr_epoch _ _ _ _ _ Gr) as L. split; [done | lia | | | done |].
  - eapply Forall_impl; [done |]. unfold guard_ok. intros; lia.
  - eapply Forall_impl; [done |]. intros f. by eapply call_ok_grows.
  - eapply Forall_impl; [done |]. intros [gs | [n | n e]]; simpl; intros; [done.. | lia].
Qed.

(** * Steps of the functions *)

Section Call.
Context (w : World) (i : nat) (c : CpuCell) (k : Control) (f : Call) (r : list Call) (clock : Z) (sp : bool) (q' : Qsbr) (fs : list Call) (e : Effect).
Hypothesis (Ok : rcu_ok w) (Ec : w.(q).(CPUS) !! i = Some c) (Ek : w.(ctl) !! i = Some k).
Hypothesis (En : k.(nested) = []) (Ex : k.(exec) = f :: r) (Ef : call_step w.(q) i f clock sp = Some (q', fs, e)).

Lemma own_call : call_ok w.(q).(GLOBAL_EPOCH) (guard_on w) i c k.(base) f.
Proof using Ok Ec Ek Ex. pose proof (co_calls _ _ _ _ _ (ro_cpus _ Ok i c k Ec Ek)) as H. rewrite Ex in H. by apply Forall_cons in H as [H _]. Qed.

Lemma own_readers : active_readers c = 0 -> k.(base) = [].
Proof using Ok Ec Ek En.
  intros E. pose proof (co_readers _ _ _ _ _ (ro_cpus _ Ok i c k Ec Ek)) as H. unfold guards_of in H. rewrite En, E in H. simpl in H. rewrite app_nil_r in H. by destruct (base k).
Qed.

Lemma next_epoch : wrap 64 (w.(q).(GLOBAL_EPOCH) + 1) = w.(q).(GLOBAL_EPOCH) + 1.
Proof using Ok. pose proof (ro_epoch _ Ok). apply wrap_small. unfold is_u, INACTIVE in *. lia. Qed.

(** Only its own cell changes, and of this the last quiescent state only in two places. *)
Lemma call_step_cell : exists c', q'.(CPUS) = <[i := c']> w.(q).(CPUS) /\ c'.(active_readers) = c.(active_readers) /\
  (c'.(last_quiescent) = c.(last_quiescent) \/ f = RqStoreLast c'.(last_quiescent) \/ f = IdleStoreLast /\ c'.(last_quiescent) = INACTIVE).
Proof using All.
  pose proof (list_insert_id _ _ _ Ec) as I. open_call_in Ef. rewrite Ec in Ef. clear Ec.
  destruct f; repeat case_match; simplify_eq; cbn [CPUS set_cell set_queue set_epoch set_stuck set_held].
  all: try (exists c; split; [by rewrite I | by auto]; fail).
  all: (eexists; split; [reflexivity |]; cbn; by auto).
Qed.

Lemma call_step_epoch : w.(q).(GLOBAL_EPOCH) <= q'.(GLOBAL_EPOCH).
Proof using All.
  pose proof next_epoch as N. open_call_in Ef. rewrite Ec in Ef. clear Ec.
  destruct f; repeat case_match; simplify_eq; cbn [GLOBAL_EPOCH set_cell set_queue set_epoch set_stuck set_held]; reflect; subst; lia.
Qed.

Lemma partition_elem min l ready keep n ready' keep' n' x : partition min l ready keep n = (ready', keep', n') -> x ∈ l ++ keep -> epoch x < min /\ x ∈ l \/ x ∈ keep'.
Proof using Type.
  clear. revert ready keep n. induction l as [| y l IH]; intros ready keep n E H; simpl in *; [simplify_eq; by right |].
  rewrite elem_of_cons in *. destruct (Z.ltb_spec (epoch y) min) as [L | L].
  - destruct H as [-> | H]; [by auto |]. destruct (IH _ _ _ E H) as [[]|]; by auto.
  - assert (H' : x ∈ l ++ y :: keep) by (rewrite elem_of_app, elem_of_cons in *; tauto). destruct (IH _ _ _ E H') as [[]|]; by auto.
Qed.

(** Headers leave the list of those that wait at one point only. *)
Lemma call_step_waiting c' x : q'.(CPUS) !! i = Some c' -> x ∈ cell_waiting c ++ call_waiting f ->
  (exists inline min_q, f = DrainDetach inline min_q /\ epoch x < min_q /\ x ∈ cell_waiting c) \/ x ∈ cell_waiting c' ++ concat (call_waiting <$> fs).
Proof using All.
  assert (I : forall y, <[i := y]> (CPUS (q w)) !! i = Some y) by (intros y; apply list_lookup_insert_eq; by eapply lookup_lt_Some).
  open_call_in Ef. rewrite Ec in Ef. clear Ok Ek Ex.
  destruct f as [| | | | | | inline min_q | inline ready keep keep_len | | | | | | | | | | | | | | | | | | | | | | | |].
  8: { injection Ef as <- <- <-. intros E H. right. rewrite elem_of_app in *. left. destruct keep as [| y keep]; simplify_eq/=.
    - destruct H as [H | H]; [done | by apply elem_of_nil in H].
    - rewrite I in E. simplify_eq/=. unfold cell_waiting. cbn. set_solver. }
  7: { destruct (partition _ _ _ _ _) as [[ready keep] keep_len] eqn:Ep. injection Ef as <- <- <-. cbn. rewrite I. intros [= <-] H.
    destruct (partition_elem _ _ _ _ _ _ _ _ x Ep) as [[L Hx] | Hx]; [exact H | left; by exists inline, min_q |]. right. cbn. by rewrite app_nil_r. }
  all: cbn [call_waiting]; rewrite app_nil_r; intros E H; right; rewrite elem_of_app; left.
  all: repeat case_match; simplify_eq; try (cbn [CPUS set_cell set_queue set_epoch set_stuck set_held] in E; rewrite ?I in E; simplify_eq); done.
Qed.

(** One more processor read by the minimum. *)
Lemma drain_reads inline n min cn : w.(q).(CPUS) !! n = Some cn -> call_ok w.(q).(GLOBAL_EPOCH) (guard_on w) i c k.(base) (DrainMin inline n min) ->
  call_ok w.(q).(GLOBAL_EPOCH) (guard_on w) i c k.(base) (DrainMin inline (S n) (if cn.(last_quiescent) <? min then cn.(last_quiescent) else min)).
Proof using Ok Ec.
  intros Ecn [O D]. set (min' := if _ <? _ then _ else _). assert (M : min' <= min /\ min' <= last_quiescent cn) by (unfold min'; destruct (Z.ltb_spec (last_quiescent cn) min); lia).
  assert (Own : i = n -> min' <= last_quiescent c) by (intros E; rewrite <- E, Ec in Ecn; injection Ecn as <-; lia). clearbody min'. split.
  - intros L. destruct (decide (i = n)) as [E | N]; [auto |]. specialize (O ltac:(lia)). lia.
  - intros j x L Hx S. destruct (decide (j = n)) as [-> | N].
    + left. assert (last_quiescent cn <= epoch x); [| lia]. apply (safe_header w); [apply Ok | | by apply (ro_seen _ Ok n)].
      unfold waiting. rewrite elem_of_app. left. apply elem_concat. by exists i, c.
    + destruct (D j x ltac:(lia) Hx S) as [|[L1 L2]]; [left; lia |]. destruct (decide (i = n)) as [E | Ne]; [left; specialize (Own E); lia |]. right. lia.
Qed.

Lemma guard_bound j g n : w.(q).(CPUS) !! n = None -> guard_on w j g -> (j < n)%nat.
Proof using Ok. intros E%lookup_ge_None (k' & E'%lookup_lt_Some & _). rewrite (ro_length _ Ok) in E'. lia. Qed.

Lemma drain_read inline n min : w.(q).(CPUS) !! n = None -> call_ok w.(q).(GLOBAL_EPOCH) (guard_on w) i c k.(base) (DrainMin inline n min) ->
  call_ok w.(q).(GLOBAL_EPOCH) (guard_on w) i c k.(base) (DrainDetach inline min).
Proof using Ok Ec.
  intros E [O D]. pose proof (lookup_lt_Some _ _ _ Ec) as Li. apply lookup_ge_None in E as Ln. split; [apply O; lia |].
  intros j x Hx S. destruct (D j x) as [|[]]; [| done | done | done | lia]. destruct S as (g & Rg & _). by apply (guard_bound j g).
Qed.

(** One more processor read by a wait. *)
Lemma wait_reads n t cn : w.(q).(CPUS) !! n = Some cn -> t <= cn.(last_quiescent) -> pinned_since (guard_on w) n t -> pinned_since (guard_on w) (S n) t.
Proof using Ok.
  intros En' L P j g Lj Rg. destruct (decide (j = n)) as [-> | N]; [| apply (P j g); [lia | done]].
  destruct Rg as (k' & E' & Hg). pose proof (co_guards _ _ _ _ _ (ro_cpus _ Ok n cn k' En' E')) as F. rewrite Forall_forall in F. destruct (F g Hg). lia.
Qed.

Lemma wait_read n t : w.(q).(CPUS) !! n = None -> pinned_since (guard_on w) n t -> forall m, pinned_since (guard_on w) m t.
Proof using Ok. intros E P m j g _ Rg. apply (P j g); [by apply (guard_bound j g) | done]. Qed.

Lemma call_step_frames c' : q'.(CPUS) !! i = Some c' ->
  Forall (call_ok q'.(GLOBAL_EPOCH) (guard_on w) i c' k.(base)) fs /\ Forall outer (tail fs).
Proof using All.
  intros E'. pose proof own_call as O. pose proof own_readers as Rd. pose proof next_epoch as N. pose proof (ro_epoch _ Ok) as Ge.
  open_call_in Ef. rewrite Ec in Ef. clear Ex.
  assert (V : forall R t, pinned_since R 0 t) by (intros R t j g L; lia).
  destruct f as [| | now | now | | inline n min | inline min_q | inline ready keep keep_len | ready | | | | [| x l] | | | v | | | | | | | | | | | wt n | wt | | | t n | ].
  all: try (repeat case_match; simplify_eq; cbn [GLOBAL_EPOCH CPUS set_cell set_queue set_epoch set_stuck set_held] in *; reflect;
            split; repeat constructor; cbn in *; auto; try lia; fail).
  - injection Ef as <- <- <-. simplify_eq. split; [| done]. apply Forall_singleton. by destruct (_ || _).
  - destruct (CPUS (q w) !! n) as [cn |] eqn:Ecn; injection Ef as <- <- <-; simplify_eq; (split; [| done]); apply Forall_singleton; [by apply drain_reads | by apply drain_read with n].
  - injection Ef as <- <- <-. unfold after_drain. destruct inline; [| destruct ready]; (split; [| done]); by repeat constructor.
  - destruct O as [L P]. destruct (CPUS (q w) !! n) as [cn |] eqn:Ecn; injection Ef as <- <- <-; simplify_eq.
    + destruct (Z.ltb_spec (last_quiescent cn) (target wt)); (split; [| done]); apply Forall_singleton; [done |]. split; [done |]. by apply (wait_reads n _ cn).
    + split; repeat constructor; simpl; [lia | lia | done |]. by apply (wait_read n).
  - destruct O as [L P]. destruct (CPUS (q w) !! n) as [cn |] eqn:Ecn.
    + destruct (Z.ltb_spec (last_quiescent cn) t); injection Ef as <- <- <-; simplify_eq; split; repeat constructor; [done |]. by apply (wait_reads n _ cn).
    + injection Ef as <- <- <-. simplify_eq. split; repeat constructor; simpl; [lia | lia | done |]. by apply (wait_read n).
Qed.
End Call.

(** * One processor moves *)

(** What a processor may newly reach: an allocation linked now that was linked
    before or did not exist. *)
Definition reachable_now (w w' : World) (n : nat) : Prop :=
  n ∈ linked w'.(heap) /\ (n ∈ linked w.(heap) \/ (w.(heap).(next_node) <= n)%nat).

Record moves (w w' : World) (i : nat) (c c' : CpuCell) (k k' : Control) : Prop := {
  mv_cell : w.(q).(CPUS) !! i = Some c;
  mv_control : w.(ctl) !! i = Some k;
  mv_cells : w'.(q).(CPUS) = <[i := c']> w.(q).(CPUS);
  mv_controls : w'.(ctl) = <[i := k']> w.(ctl);
  mv_epoch : w.(q).(GLOBAL_EPOCH) <= w'.(q).(GLOBAL_EPOCH);
  mv_guards : forall g, g ∈ guards_of k' -> (exists g0, g0 ∈ guards_of k /\ g0.(g_epoch) = g.(g_epoch)) \/ w.(q).(GLOBAL_EPOCH) <= g.(g_epoch);
  mv_sees : forall g n, g ∈ guards_of k' -> n ∈ g.(seen) -> (exists g0, g0 ∈ guards_of k /\ n ∈ g0.(seen)) \/ reachable_now w w' n;
  mv_last : c'.(last_quiescent) = c.(last_quiescent) \/ guards_of k' = []
}.

Lemma moves_grows w w' i c c' k k' : moves w w' i c c' k k' ->
  grows w.(q).(GLOBAL_EPOCH) (guard_on w) (reachable_now w w') w'.(q).(GLOBAL_EPOCH) (guard_on w').
Proof.
  intros [Ec Ek Ec' Ek' Ge Hg Hs _]. split; [done | |].
  - intros j g (k1 & E1 & H1). rewrite Ek' in E1. destruct (decide (j = i)) as [-> | N].
    + rewrite list_lookup_insert_eq in E1 by (by eapply lookup_lt_Some). simplify_eq. destruct (Hg g H1) as [(g0 & H0 & E0) | ?]; [| by right]. left. exists g0. split; [by exists k | done].
    + rewrite list_lookup_insert_ne in E1 by done. left. exists g. split; [by exists k1 | done].
  - intros j n (g & (k1 & E1 & H1) & Hn). rewrite Ek' in E1. destruct (decide (j = i)) as [-> | N].
    + rewrite list_lookup_insert_eq in E1 by (by eapply lookup_lt_Some). simplify_eq. destruct (Hs g n H1 Hn) as [(g0 & H0 & E0) | ?]; [| by right]. left. exists g0. split; [by exists k | done].
    + rewrite list_lookup_insert_ne in E1 by done. left. exists g. split; [by exists k1 | done].
Qed.

Lemma bucket_not_new w w' j c x : rcu_ok w -> w.(q).(CPUS) !! j = Some c -> x ∈ cell_waiting c -> ~ reachable_now w w' (node x).
Proof.
  intros Ok Ej Hx (_ & R). destruct (waiting_once w x (ro_accounted _ Ok)) as (NL & _ & _ & Lx & _); [| destruct R; [done | lia]].
  unfold waiting. rewrite elem_of_app. left. apply elem_concat. by exists j, c.
Qed.

Lemma rcu_ok_moves w w' i c c' k k' : rcu_ok w -> moves w w' i c c' k k' -> accounted w' -> w'.(q).(GLOBAL_EPOCH) < INACTIVE ->
  cpu_ok w'.(q).(GLOBAL_EPOCH) (guard_on w') i c' k' ->
  (forall j cj n, w.(q).(CPUS) !! j = Some cj -> sees (guard_on w) j n -> safe w cj.(last_quiescent) n -> safe w' cj.(last_quiescent) n) ->
  Forall (fun t => t <= w'.(q).(GLOBAL_EPOCH)) w'.(futures) -> rcu_ok w'.
Proof.
  intros Ok Mv A' L Ci Sf F. pose proof (moves_grows _ _ _ _ _ _ _ Mv) as Gr. pose proof Mv as [Ec Ek Ec' Ek' Ge Hg Hs Hl]. split; [done | | | | | done].
  - rewrite Ek', Ec', !length_insert. apply Ok.
  - pose proof (ro_epoch _ Ok). lia.
  - intros j cj kj Ej Kj. rewrite Ec' in Ej. rewrite Ek' in Kj. destruct (decide (j = i)) as [-> | N].
    + rewrite list_lookup_insert_eq in Ej by (by eapply lookup_lt_Some). rewrite list_lookup_insert_eq in Kj by (by eapply lookup_lt_Some). by simplify_eq.
    + rewrite list_lookup_insert_ne in Ej by done. rewrite list_lookup_insert_ne in Kj by done. eapply cpu_ok_grows; [exact Gr | | by apply Ok].
      intros x Hx. by apply (bucket_not_new w w' j cj).
  - intros j cj n Ej S. assert (E : exists c0, w.(q).(CPUS) !! j = Some c0 /\ last_quiescent cj = last_quiescent c0).
    { rewrite Ec' in Ej. destruct (decide (j = i)) as [-> | N]; [| rewrite list_lookup_insert_ne in Ej by done; by exists cj].
      rewrite list_lookup_insert_eq in Ej by (by eapply lookup_lt_Some). simplify_eq. exists c. split; [done |]. destruct Hl as [-> | Hl]; [done |].
      destruct S as (g & (k1 & E1 & H1) & _). rewrite Ek', list_lookup_insert_eq in E1 by (by eapply lookup_lt_Some). simplify_eq. rewrite Hl in H1. by apply elem_of_nil in H1. }
    destruct E as (c0 & E0 & ->). destruct (gr_sees _ _ _ _ _ Gr j n S) as [S' | [R _]]; [| by left]. apply (Sf j c0 n E0 S'). by apply (ro_seen _ Ok j).
Qed.

(** ** A function *)

(** The same readers at a later epoch. *)
Lemma same_readers w w' G G' : G <= G' -> (forall j g, guard_on w' j g -> guard_on w j g) -> grows G (guard_on w) (fun _ => False) G' (guard_on w').
Proof. intros L H. split; [done | |]; [intros j g Rg; left; exists g; auto |]. intros j n (g & Rg & Hn). left. exists g. auto. Qed.

Lemma no_new c (x : DeferHdr) : x ∈ cell_waiting c -> ~ (fun _ : nat => False) (node x).
Proof. tauto. Qed.

Lemma outer_tail f r fs : Forall outer (tail (f :: r)) -> Forall outer (tail fs) -> Forall outer (tail (fs ++ r)).
Proof. destruct fs as [| x fs]; simpl; intros H H'; [by destruct r; [| apply Forall_cons in H as []] | by apply Forall_app]. Qed.

Section CallTurn.
Context (w w' : World) (i : nat) (c c' : CpuCell) (k : Control) (f : Call) (r : list Call) (clock : Z) (sp : bool) (q' : Qsbr) (fs : list Call) (e : Effect).
Hypothesis (Ok : rcu_ok w) (Ec : w.(q).(CPUS) !! i = Some c) (Ek : w.(ctl) !! i = Some k).
Hypothesis (En : k.(nested) = []) (Ex : k.(exec) = f :: r) (Ef : call_step w.(q) i f clock sp = Some (q', fs, e)).
Hypothesis (Ec' : q'.(CPUS) = <[i := c']> w.(q).(CPUS)) (Er : c'.(active_readers) = c.(active_readers)).
Hypothesis (El : c'.(last_quiescent) = c.(last_quiescent) \/ f = RqStoreLast c'.(last_quiescent) \/ f = IdleStoreLast /\ c'.(last_quiescent) = INACTIVE).
Let k' := mk_control k.(base) (fs ++ r) [] (match e with Quiet => k.(reply) | _ => e end).
Hypothesis (Eq : q w' = q') (Ek' : ctl w' = <[i := k']> (ctl w)) (Eh : heap w' = heap w).

Lemma call_guards : guards_of k' = guards_of k.
Proof using En. unfold guards_of, k'. cbn. by rewrite En. Qed.

Lemma call_moves : moves w w' i c c' k k'.
Proof using All.
  pose proof (call_step_epoch w i c k f r clock sp q' fs e Ok Ec Ek En Ex Ef) as Ge. pose proof (own_call w i c k f r Ok Ec Ek Ex) as O.
  split; rewrite ?Eq; try done; rewrite ?call_guards; [eauto | eauto |].
  destruct El as [-> | [-> | [-> _]]]; [by left | |]; right; unfold guards_of; rewrite En; cbn in O |- *; rewrite app_nil_r; tauto.
Qed.

Lemma call_readers j g : guard_on w' j g -> guard_on w j g.
Proof using Ek Ek' En.
  intros (k1 & E1 & H1). rewrite Ek' in E1. destruct (decide (j = i)) as [-> | N].
  - rewrite list_lookup_insert_eq in E1 by (by eapply lookup_lt_Some). injection E1 as E1. rewrite <- E1, call_guards in H1. by exists k.
  - rewrite list_lookup_insert_ne in E1 by done. by exists k1.
Qed.

Lemma call_cpu : cpu_ok w'.(q).(GLOBAL_EPOCH) (guard_on w') i c' k'.
Proof using All.
  assert (Lk : CPUS q' !! i = Some c') by (rewrite Ec'; apply list_lookup_insert_eq; by eapply lookup_lt_Some).
  pose proof (call_step_epoch w i c k f r clock sp q' fs e Ok Ec Ek En Ex Ef) as Ge.
  pose proof (call_step_frames w i c k f r clock sp q' fs e Ok Ec Ek En Ex Ef c' Lk) as [Fr Ou].
  pose proof (own_call w i c k f r Ok Ec Ek Ex) as O. pose proof (ro_cpus _ Ok i c k Ec Ek) as [H1 H2 H3 H4 H5 H6]. pose proof (mv_last _ _ _ _ _ _ _ call_moves) as Ml.
  rewrite Ex in H4, H5. apply Forall_cons in H4 as [_ H4]. rewrite Eq. split.
  - by rewrite Er, H1, call_guards.
  - destruct El as [-> | [E | [E ->]]]; [lia | rewrite E in O; cbn in O; lia | by left].
  - rewrite call_guards in *. destruct Ml as [E | ->]; [| constructor]. eapply Forall_impl; [done |]. unfold guard_ok. rewrite E. intros; lia.
  - apply Forall_app. split; [eapply Forall_impl; [exact Fr |]; intros x; apply (call_ok_grows _ _ (fun _ => False)); [by apply same_readers; [| apply call_readers] | by apply no_new] |].
    rewrite Forall_forall in H4, H5 |- *. intros x Hx. apply (call_ok_outer _ _ i c); [by apply H5 |].
    apply (call_ok_grows (GLOBAL_EPOCH (q w)) (guard_on w) (fun _ => False)); [by apply same_readers; [| apply call_readers] | by apply no_new | by apply H4].
  - by apply (outer_tail f).
  - constructor.
Qed.

Lemma call_safe j cj n : w.(q).(CPUS) !! j = Some cj -> sees (guard_on w) j n -> safe w cj.(last_quiescent) n -> safe w' cj.(last_quiescent) n.
Proof using All.
  assert (Lk : CPUS q' !! i = Some c') by (rewrite Ec'; apply list_lookup_insert_eq; by eapply lookup_lt_Some).
  pose proof (own_call w i c k f r Ok Ec Ek Ex) as O.
  intros Ej S [H | [H | (x & Hx & En' & Le)]]; [left; by rewrite Eh | right; left | right; right; exists x; split_and!; [| done | done]].
  - unfold unstamped. rewrite Ek'. apply (elem_concat_insert _ _ i k); [done | | done]. unfold control_unstamped. by rewrite En.
  - assert (M : x ∈ cell_waiting c ++ call_waiting f -> x ∈ cell_waiting c' ++ concat (call_waiting <$> fs)).
    { intros M. destruct (call_step_waiting w i c k f r clock sp q' fs e Ok Ec Ek En Ex Ef c' x Lk M) as [(inline & min_q & E & L & Hc) |]; [| done].
      rewrite E in O. destruct O as [_ O]. rewrite <- En' in S. specialize (O j x Hc S). lia. }
    rewrite elem_of_app in M. rewrite elem_of_app in M. unfold waiting in *. rewrite Eq, Ek', Ec'.
    assert (P : x ∈ cell_waiting c' \/ x ∈ control_waiting k' -> x ∈ concat (cell_waiting <$> <[i := c']> (CPUS (q w))) ++ concat (control_waiting <$> <[i := k']> (ctl w))).
    { rewrite elem_of_app. intros [P | P]; [left; by apply (elem_concat_here _ _ i c) | right; by apply (elem_concat_here _ _ i k)]. }
    apply elem_of_app in Hx as [Hx | Hx]; apply elem_concat in Hx as (m & a & Em & Ha); destruct (decide (m = i)) as [-> | N].
    + simplify_eq. apply P. unfold control_waiting, k'. cbn. rewrite fmap_app, concat_app, !elem_of_app. tauto.
    + rewrite elem_of_app. left. apply elem_concat. exists m, a. by rewrite list_lookup_insert_ne.
    + simplify_eq. apply P. unfold control_waiting, k' in *. rewrite Ex, En in Ha. cbn in Ha |- *. rewrite fmap_app, concat_app, !elem_of_app in *. tauto.
    + rewrite elem_of_app. right. apply elem_concat. exists m, a. by rewrite list_lookup_insert_ne.
Qed.
End CallTurn.

Lemma own_cell w i k : rcu_ok w -> w.(ctl) !! i = Some k -> exists c, w.(q).(CPUS) !! i = Some c.
Proof. intros Ok Ek. apply lookup_lt_is_Some. rewrite <- (ro_length _ Ok). by eapply lookup_lt_Some. Qed.

Lemma call_turn_ok w i clock sp w' : rcu_ok w -> in_width w' -> accounted w' -> call_turn w i clock sp = Some w' -> rcu_ok w'.
Proof.
  intros Ok [W _] A' (k & f & r & q' & fs & e & Ek & En & Ex & Ef & E)%call_inv. destruct (own_cell w i k Ok Ek) as [c Ec].
  destruct (call_step_cell w i c k f r clock sp q' fs e Ok Ec Ek En Ex Ef) as (c' & Ec' & Er & El).
  assert (H : q w' = q' /\ ctl w' = <[i := mk_control (base k) (fs ++ r) [] (match e with Quiet => reply k | _ => e end)]> (ctl w) /\ heap w' = heap w) by (subst w'; by destruct e).
  destruct H as (Eq & Ek' & Eh). eapply rcu_ok_moves; [done | by eapply call_moves | done | done | by eapply call_cpu | by eapply call_safe |].
  pose proof (call_step_epoch w i c k f r clock sp q' fs e Ok Ec Ek En Ex Ef) as Ge.
  assert (F : Forall (fun t => t <= GLOBAL_EPOCH (q w')) (futures w)) by (eapply Forall_impl; [apply Ok |]; simpl; intros; rewrite Eq; lia).
  subst w'. destruct e; try exact F. constructor; [| exact F].
  pose proof (own_call w i c k f r Ok Ec Ek Ex) as O. open_call_in Ef. rewrite Ec in Ef. destruct f; repeat case_match; simplify_eq. cbn in O |- *. lia.
Qed.

(** ** Clients *)

Lemma client_shape k gs : client k = Some gs -> exists pre post, guards_of k = pre ++ gs ++ post /\
  forall gs', guards_of (set_client k gs') = pre ++ gs' ++ post.
Proof.
  unfold client, set_client, guards_of. destruct k as [b x n rp]; cbn. destruct n as [| [g | d] n]; [| | done].
  - destruct x; [| done]. intros [= ->]. exists [], []. split; [done |]. intros gs'. done.
  - intros [= ->]. exists b, (concat ((fun x => match x with NClient gs => gs | NDefer _ => [] end) <$> n)). split; done.
Qed.

Lemma client_exec k gs : exec (set_client k gs) = exec k.
Proof. unfold set_client. by destruct (nested k) as [| [] ?]. Qed.

Lemma client_base k gs gs' f : client k = Some gs -> f ∈ exec k -> base (set_client k gs') = base k.
Proof. unfold client, set_client. destruct (nested k) as [| [] ?]; [| done | done]. destruct (exec k); [| done]. intros _ H. by apply elem_of_nil in H. Qed.

Lemma client_nested (P : Nested -> Prop) k gs gs' : client k = Some gs -> (forall g, P (NClient g)) -> Forall P (nested k) -> Forall P (nested (set_client k gs')).
Proof. unfold client, set_client. destruct (nested k) as [| [] n] eqn:E; cbn; rewrite ?E; try done. intros _ H F. apply Forall_cons in F as [_ F]. by constructor. Qed.

Lemma client_waiting k gs gs' : client k = Some gs -> control_waiting (set_client k gs') = control_waiting k /\ control_unstamped (set_client k gs') = control_unstamped k.
Proof.
  intros Hc. unfold control_waiting, control_unstamped. rewrite client_exec. unfold client, set_client in *. destruct (nested k) as [| [] n] eqn:E; cbn; rewrite ?E; try done.
Qed.

Lemma push_guards k d : guards_of (push_defer k d) = guards_of k.
Proof. by destruct d. Qed.

(** What a client retires has no epoch yet, and its processor takes part. *)
Definition retires (c : CpuCell) (d : option Defer) : Prop := match d with Some (DeferLoad _) => c.(last_quiescent) <> INACTIVE | Some (DeferPush _ _) => False | None => True end.

(** A cell that differs in its number of readers only. *)
Definition same_cell (c c' : CpuCell) : Prop := c'.(last_quiescent) = c.(last_quiescent) /\ cell_waiting c' = cell_waiting c.

Lemma call_ok_same G R i c c' bs f : same_cell c c' -> call_ok G R i c bs f -> call_ok G R i c' bs f.
Proof. intros [E1 E2]. destruct f; cbn; rewrite ?E1, ?E2; auto. Qed.

Lemma client_cpu G R new R' i c c' k gs gs' d : cpu_ok G R i c k -> client k = Some gs -> grows G R new G R' ->
  (forall x, x ∈ cell_waiting c -> ~ new (node x)) -> same_cell c c' -> retires c d ->
  c'.(active_readers) = Z.of_nat (length (guards_of (set_client k gs'))) -> Forall (guard_ok G c) gs' ->
  cpu_ok G R' i c' (push_defer (set_client k gs') d).
Proof.
  intros [H1 H2 H3 H4 H5 H6] Hc Gr F Sc D Er Hg. destruct (client_shape k gs Hc) as (pre & post & E0 & E1). pose proof Sc as [El Ew].
  split; rewrite ?push_guards; cbn [exec base nested push_defer].
  - done.
  - by rewrite El.
  - rewrite E1. rewrite E0 in H3. apply Forall_app in H3 as [P1 P2]. apply Forall_app in P2 as [_ P2]. unfold guard_ok in *. rewrite El. by repeat (apply Forall_app; split).
  - rewrite client_exec. rewrite Forall_forall in H4 |- *. intros f Hf. rewrite (client_base k gs gs' f Hc Hf). apply (call_ok_same _ _ _ c); [done |]. eapply call_ok_grows; [done | done |]. by apply H4.
  - by rewrite client_exec.
  - assert (N : Forall (nested_ok G c') (nested (set_client k gs'))).
    { apply (client_nested _ k gs); [done | done |]. eapply Forall_impl; [done |]. intros [g | [n | n e]]; cbn; rewrite ?El; auto. }
    destruct d as [[n | n e] |]; [| done | done]. constructor; [| done]. cbn in D |- *. by rewrite El.
Qed.

(** A client's step keeps what is safe safe. *)
Lemma client_safe w w' i c c' k gs gs' d e n : w.(q).(CPUS) !! i = Some c -> w.(ctl) !! i = Some k -> client k = Some gs -> same_cell c c' -> retires c d ->
  w'.(q).(CPUS) = <[i := c']> w.(q).(CPUS) -> w'.(ctl) = <[i := push_defer (set_client k gs') d]> w.(ctl) ->
  (forall m, m ∈ linked w.(heap) -> m ∈ linked w'.(heap) \/ m ∈ retired_nodes d) -> safe w e n -> safe w' e n.
Proof.
  intros Ec Ek Hc [_ Ew] D Ec' Ek' Hl. destruct (client_waiting k gs gs' Hc) as [W U].
  assert (U' : forall m, m ∈ retired_nodes d \/ m ∈ control_unstamped k -> m ∈ control_unstamped (push_defer (set_client k gs') d)).
  { intros m. unfold control_unstamped at 2. destruct d as [[a | a b] |]; cbn in D |- *; rewrite ?elem_of_cons, ?elem_of_nil; fold (control_unstamped (set_client k gs')); rewrite ?U; tauto. }
  assert (W' : forall x, x ∈ control_waiting k -> x ∈ control_waiting (push_defer (set_client k gs') d)).
  { intros x. rewrite <- W. unfold control_waiting. destruct d as [[a | a b] |]; cbn in D |- *; [done | done | done]. }
  unfold safe, unstamped, waiting. rewrite Ec', Ek'. intros [H | [H | (x & Hx & E & L)]].
  - destruct (Hl n H) as [H' | H']; [by left |]. right. left. apply (elem_concat_here _ _ i k); auto.
  - right. left. apply (elem_concat_insert _ _ i k); auto.
  - right. right. exists x. split; [| done]. rewrite elem_of_app in *. destruct Hx as [Hx | Hx]; [left; apply (elem_concat_insert _ _ i c); [done | by rewrite Ew | done] | right; apply (elem_concat_insert _ _ i k); auto].
Qed.

Lemma client_turn_ok w w' i c c' k gs gs' d : rcu_ok w -> accounted w' -> w.(q).(CPUS) !! i = Some c -> w.(ctl) !! i = Some k -> client k = Some gs ->
  w'.(q).(GLOBAL_EPOCH) = w.(q).(GLOBAL_EPOCH) -> w'.(q).(CPUS) = <[i := c']> w.(q).(CPUS) -> w'.(ctl) = <[i := push_defer (set_client k gs') d]> w.(ctl) -> w'.(futures) = w.(futures) ->
  same_cell c c' -> retires c d -> c'.(active_readers) = Z.of_nat (length (guards_of (set_client k gs'))) -> Forall (guard_ok w.(q).(GLOBAL_EPOCH) c) gs' ->
  (forall m, m ∈ linked w.(heap) -> m ∈ linked w'.(heap) \/ m ∈ retired_nodes d) ->
  (forall g, g ∈ gs' -> (exists g0, g0 ∈ gs /\ g0.(g_epoch) = g.(g_epoch)) \/ w.(q).(GLOBAL_EPOCH) <= g.(g_epoch)) ->
  (forall g n, g ∈ gs' -> n ∈ g.(seen) -> (exists g0, g0 ∈ gs /\ n ∈ g0.(seen)) \/ reachable_now w w' n) -> rcu_ok w'.
Proof.
  intros Ok A' Ec Ek Hc Eg Ec' Ek' Ef Sc D Er Hg Hl Gu Se. destruct (client_shape k gs Hc) as (pre & post & E0 & E1).
  assert (Mv : moves w w' i c c' k (push_defer (set_client k gs') d)).
  { split; try done; rewrite ?push_guards, ?Eg, ?E0, ?E1; [done | | | left; by destruct Sc].
    - intros g. rewrite !elem_of_app. intros [H | [H | H]]; [left; exists g; split; [rewrite !elem_of_app |]; tauto | | left; exists g; split; [rewrite !elem_of_app |]; tauto].
      destruct (Gu g H) as [(g0 & H0 & E) | ?]; [| by right]. left. exists g0. rewrite !elem_of_app. tauto.
    - intros g n. rewrite !elem_of_app. intros [H | [H | H]] Hn; [left; exists g; split; [rewrite !elem_of_app |]; tauto | | left; exists g; split; [rewrite !elem_of_app |]; tauto].
      destruct (Se g n H Hn) as [(g0 & H0 & E) | ?]; [| by right]. left. exists g0. rewrite !elem_of_app. tauto. }
  pose proof (moves_grows _ _ _ _ _ _ _ Mv) as Gr. rewrite Eg in Gr.
  eapply rcu_ok_moves; [done | exact Mv | done | rewrite Eg; apply Ok | | | rewrite Ef, Eg; apply Ok].
  - rewrite Eg. eapply client_cpu; [by apply Ok | done | exact Gr | intros x Hx; by apply (bucket_not_new w w' i c) | done..].
  - intros j cj n _ _. by eapply client_safe.
Qed.

(** Guards of a client are guards of its processor. *)
Lemma client_guards w i c k gs : rcu_ok w -> w.(q).(CPUS) !! i = Some c -> w.(ctl) !! i = Some k -> client k = Some gs -> Forall (guard_ok w.(q).(GLOBAL_EPOCH) c) gs.
Proof.
  intros Ok Ec Ek Hc. pose proof (co_guards _ _ _ _ _ (ro_cpus _ Ok i c k Ec Ek)) as H. destruct (client_shape k gs Hc) as (pre & post & E & _).
  rewrite E in H. apply Forall_app in H as [_ H]. by apply Forall_app in H as [H _].
Qed.

Lemma client_count k gs gs' : client k = Some gs -> (length (guards_of (set_client k gs')) + length gs = length (guards_of k) + length gs')%nat.
Proof. intros Hc. destruct (client_shape k gs Hc) as (pre & post & E0 & E1). rewrite E0, E1, !length_app. lia. Qed.

Lemma push_none k : push_defer k None = k.
Proof. by destruct k. Qed.

Lemma same_readers_cell c n : same_cell c (set_readers c n).
Proof. done. Qed.

Lemma same_self c : same_cell c c.
Proof. done. Qed.

Lemma pin_turn_ok w i w' : rcu_ok w -> in_width w' -> accounted w' -> taking_part w i -> pin_turn w i = Some w' -> rcu_ok w'.
Proof.
  intros Ok [_ W] A' (c & Ec & P) (k & gs & q' & Ek & Hc & Eq & ->)%pin_inv. unfold reader_pin in Eq. rewrite Ec in Eq. injection Eq as <-.
  pose proof (ro_cpus _ Ok i c k Ec Ek) as [H1 H2 _ _ _ _]. pose proof (client_count k gs (mk_guard (GLOBAL_EPOCH (q w)) [] :: gs) Hc) as N. cbn [length] in N.
  specialize (W i (set_client k (mk_guard (GLOBAL_EPOCH (q w)) [] :: gs))). cbn in W. rewrite list_lookup_insert_eq in W by (by eapply lookup_lt_Some). specialize (W eq_refl).
  eapply (client_turn_ok w _ i c (set_readers c (wrap 64 (active_readers c + 1))) k gs (mk_guard (GLOBAL_EPOCH (q w)) [] :: gs) None); try done.
  - by rewrite push_none.
  - cbn [active_readers set_readers]. rewrite H1, wrap_small by (unfold is_u; lia). lia.
  - constructor; [| by apply (client_guards w i c k)]. split; [done |]. cbn [g_epoch]. destruct H2; [done | lia].
  - auto.
  - intros g Hg. rewrite elem_of_cons in Hg. destruct Hg as [-> | Hg]; [right; cbn; lia | left; by exists g].
  - intros g n Hg Hn. rewrite elem_of_cons in Hg. destruct Hg as [-> | Hg]; [by apply elem_of_nil in Hn | left; by exists g].
Qed.

Lemma unpin_turn_ok w i j w' : rcu_ok w -> in_width w -> accounted w' -> unpin_turn w i j = Some w' -> rcu_ok w'.
Proof.
  intros Ok [_ W] A' (k & gs & g & q' & Ek & Hc & Ej & Eq & ->)%unpin_inv. destruct (own_cell w i k Ok Ek) as [c Ec]. unfold reader_unpin in Eq. rewrite Ec in Eq. injection Eq as <-.
  pose proof (ro_cpus _ Ok i c k Ec Ek) as [H1 H2 _ _ _ _]. pose proof (client_count k gs (delete j gs) Hc) as N. rewrite length_delete in N by (by eexists). pose proof (lookup_lt_Some _ _ _ Ej) as Lj.
  specialize (W i k Ek). assert (Sub : forall x, x ∈ delete j gs -> x ∈ gs) by (intros x; apply list_subseteq_delete).
  eapply (client_turn_ok w _ i c (set_readers c (wrap 64 (active_readers c - 1))) k gs (delete j gs) None); try done.
  - by rewrite push_none.
  - cbn [active_readers set_readers]. destruct (client_shape k gs Hc) as (pre & post & E0 & _). rewrite E0, !length_app in *. rewrite H1, wrap_small by (unfold is_u; lia). lia.
  - pose proof (client_guards w i c k gs Ok Ec Ek Hc) as F. rewrite Forall_forall in F |- *. auto.
  - auto.
  - intros x Hx. left. exists x. auto.
  - intros x n Hx Hn. left. exists x. auto.
Qed.

(** A guard that has reached one more allocation. *)
Lemma see_guards gs j p gs' : see gs j p = Some gs' -> length gs' = length gs /\
  forall g, g ∈ gs' -> exists g0, g0 ∈ gs /\ g_epoch g0 = g_epoch g /\ forall n, n ∈ g.(seen) -> n ∈ g0.(seen) \/ p = Some n.
Proof.
  unfold see. destruct (gs !! j) as [g0 |] eqn:E; [| done]. intros [= <-]. split; [apply length_insert |].
  intros g Hg. apply list_elem_of_lookup in Hg as [m Em]. destruct (decide (m = j)) as [-> | N].
  - rewrite list_lookup_insert_eq in Em by (by eapply lookup_lt_Some). simplify_eq. exists g0. split_and!; [by eapply list_elem_of_lookup_2 | done |].
    intros n. cbn. rewrite elem_of_app. intros [H | H]; [| by left]. right. destruct p; cbn in H; [| by apply elem_of_nil in H]. by apply list_elem_of_singleton in H as ->.
  - rewrite list_lookup_insert_ne in Em by done. exists g. split_and!; [by eapply list_elem_of_lookup_2 | done | by left].
Qed.

Lemma client_change_ok w w' i gs gs' h d back p : rcu_ok w -> accounted w' -> client_change w i gs gs' h d back w' ->
  (gs' = gs \/ exists j, see gs j p = Some gs') -> (forall n, p = Some n -> reachable_now w w' n) ->
  (forall m, m ∈ linked w.(heap) -> m ∈ linked h \/ m ∈ retired_nodes d) ->
  (forall c, w.(q).(CPUS) !! i = Some c -> retires c d) -> rcu_ok w'.
Proof.
  intros Ok A' (k & Ek & Hc & Ew) Sg Hp Hl Rt. destruct (own_cell w i k Ok Ek) as [c Ec]. pose proof (client_guards w i c k gs Ok Ec Ek Hc) as Fg. rewrite Forall_forall in Fg.
  assert (Sg' : length gs' = length gs /\ forall g, g ∈ gs' -> exists g0, g0 ∈ gs /\ g_epoch g0 = g_epoch g /\ forall n, n ∈ g.(seen) -> n ∈ g0.(seen) \/ p = Some n).
  { destruct Sg as [-> | [j E]]; [| by eapply see_guards]. split; [done |]. intros g Hg. exists g. auto. }
  destruct Sg' as [L Sg']. pose proof (client_count k gs gs' Hc) as N. pose proof (co_readers _ _ _ _ _ (ro_cpus _ Ok i c k Ec Ek)) as H1.
  assert (Hq : q w' = q w /\ ctl w' = <[i := push_defer (set_client k gs') d]> (ctl w) /\ futures w' = futures w /\ heap w' = h) by (by subst w'). destruct Hq as (Eq & Ek' & Ef & Eh).
  eapply (client_turn_ok w w' i c c k gs gs' d); try done; rewrite ?Eq, ?Eh; try done.
  - by rewrite list_insert_id.
  - by apply Rt.
  - lia.
  - apply Forall_forall. intros g Hg. destruct (Sg' g Hg) as (g0 & H0 & E0 & _). specialize (Fg g0 H0). unfold guard_ok in *. by rewrite <- E0.
  - intros g Hg. destruct (Sg' g Hg) as (g0 & H0 & E0 & _). left. by exists g0.
  - intros g n Hg Hn. destruct (Sg' g Hg) as (g0 & H0 & _ & Hs). destruct (Hs n Hn) as [H | ->]; [left; by exists g0 | right; by apply Hp].
Qed.

Lemma load_turn_ok w i j a w' : rcu_ok w -> accounted w' -> load_turn w i j a = Some w' -> rcu_ok w'.
Proof.
  intros Ok A' (k & gs & p & gs' & Ek & Hc & Ea & Es & ->)%load_inv.
  eapply (client_change_ok w _ i gs gs' w.(heap) None [] p); [done | done | exists k; split_and!; [done | done |] | right; by exists j | | by left | done].
  - rewrite push_none. by destruct w.
  - intros n ->. assert (n ∈ linked (heap w)); [| by split; [| left]]. unfold linked. apply list_elem_of_omap. exists (Some n). split; [by eapply list_elem_of_lookup_2 | done].
Qed.

(** A processor with a guard takes part. *)
Lemma guard_active w i k gs j g : rcu_ok w -> w.(ctl) !! i = Some k -> client k = Some gs -> gs !! j = Some g ->
  forall c p, w.(q).(CPUS) !! i = Some c -> retires c (atomic.retire_node p).
Proof.
  intros Ok Ek Hc Hj c p Ec. pose proof (client_guards w i c k gs Ok Ec Ek Hc) as F. rewrite Forall_forall in F.
  destruct (F g (list_elem_of_lookup_2 _ _ _ Hj)) as [A _]. by destruct p.
Qed.

Lemma cnt_linked (a b c n : nat) (l l' r : list nat) : (cnt n l' + cnt n r + a = cnt n l + b)%nat -> a = 0%nat -> n ∈ l -> n ∈ l' \/ n ∈ r.
Proof. intros E -> H. apply cnt_pos in H. rewrite <- !cnt_pos. lia. Qed.

Lemma store_turn_ok w i j a w' : rcu_ok w -> accounted w' -> store_turn w i j a = Some w' -> rcu_ok w'.
Proof.
  intros Ok A' (gs & g & h & d & Hj & Es & C)%store_turn_inv. eapply (client_change_ok w w' i gs gs h d [] None); [done | done | done | by left | done | |].
  - intros m Hm. destruct (store_count m _ _ _ _ Es) as [E _]. apply (cnt_linked 0 (fresh_count m (heap w)) 0 m (linked (heap w))); [lia | done | done].
  - destruct C as (k & Ek & Hc & _). unfold atomic.store, atomic.swap in Es. cbn in Es. destruct (cells (heap w) !! a) as [old |]; [| done]. injection Es as _ <-. intros c Ec. by eapply guard_active.
Qed.

Lemma clear_turn_ok w i j a w' : rcu_ok w -> accounted w' -> clear_turn w i j a = Some w' -> rcu_ok w'.
Proof.
  intros Ok A' (gs & g & h & d & Hj & Es & C)%clear_inv. eapply (client_change_ok w w' i gs gs h d [] None); [done | done | done | by left | done | |].
  - intros m Hm. destruct (clear_count m _ _ _ _ Es) as [E _]. apply (cnt_linked 0 0 0 m (linked (heap w))); [lia | done | done].
  - destruct C as (k & Ek & Hc & _). unfold atomic.clear, atomic.swap in Es. destruct (cells (heap w) !! a) as [old |]; [| done]. injection Es as _ <-. intros c Ec. by eapply guard_active.
Qed.

Lemma elem_linked (l : list (option nat)) (a n : nat) : l !! a = Some (Some n) -> n ∈ omap id l.
Proof. intros E. apply list_elem_of_omap. exists (Some n). split; [by eapply list_elem_of_lookup_2 | done]. Qed.

(** What [compare_and_set] shows its caller is linked. *)
Lemma cas_sees h a x h' p d back n : atomic.compare_and_set h a x = Some (h', p, d, back) -> p = Some n ->
  n ∈ linked h' /\ (n ∈ linked h \/ (h.(next_node) <= n)%nat).
Proof.
  unfold atomic.compare_and_set, atomic.swap, linked. cbn. destruct (cells h !! a) as [cur |] eqn:E; [| done]. destruct (decide (cur = x)); intros [= <- <- <- <-]; cbn.
  - intros [= <-]. split; [| by right]. apply (elem_linked _ a). apply list_lookup_insert_eq. by eapply lookup_lt_Some.
  - intros ->. split; [| left]; by eapply elem_linked.
Qed.

Lemma cas_turn_ok w i j a x w' : rcu_ok w -> accounted w' -> cas_turn w i j a x = Some w' -> rcu_ok w'.
Proof.
  intros Ok A' (gs & gs' & h & p & d & back & Es & Hs & C)%cas_inv. pose proof (client_heap _ _ _ _ _ _ _ _ C) as Eh.
  eapply (client_change_ok w w' i gs gs' h d (option_list back) p); [done | done | done | right; by exists j | | |].
  - intros n Ep. unfold reachable_now. rewrite Eh. by eapply cas_sees.
  - intros m Hm. unfold atomic.compare_and_set, atomic.swap, linked in *. cbn in Es. destruct (cells (heap w) !! a) as [cur |] eqn:Ea; [| done].
    destruct (decide (cur = x)); injection Es as <- <- <- <-; [| by left]. cbn. rewrite retired_retire.
    pose proof (linked_insert m _ a cur (Some (next_node (heap w))) Ea) as L. apply cnt_pos in Hm. rewrite <- !cnt_pos. lia.
  - destruct C as (k & Ek & Hc & _). unfold see in Hs. destruct (gs !! j) as [g |] eqn:Hj; [| done].
    unfold atomic.compare_and_set, atomic.swap in Es. cbn in Es. destruct (cells (heap w) !! a) as [cur |]; [| done]. destruct (decide (cur = x)); injection Es as _ _ <- _; [intros c Ec; by eapply guard_active | done].
Qed.

Lemma retire_turn_ok w i w' : rcu_ok w -> accounted w' -> taking_part w i -> retire_turn w i = Some w' -> rcu_ok w'.
Proof.
  intros Ok A' (c & Ec & P) (gs & C)%retire_inv. eapply (client_change_ok w w' i gs gs _ _ [] None); [done | done | done | by left | done | by left |].
  intros c0 E0. simplify_eq. exact P.
Qed.

(** ** Interrupts, returns and calls *)

(** A control that differs in what runs on it, with the same guards and nodes. *)
Lemma control_turn_ok w i k k' c : rcu_ok w -> w.(q).(CPUS) !! i = Some c -> w.(ctl) !! i = Some k -> guards_of k' = guards_of k ->
  accounted (with_ctl w i k') -> (forall x, x ∈ control_waiting k -> x ∈ control_waiting k') -> (forall n, n ∈ control_unstamped k -> n ∈ control_unstamped k') ->
  Forall (call_ok w.(q).(GLOBAL_EPOCH) (guard_on w) i c k'.(base)) k'.(exec) -> Forall outer (tail k'.(exec)) -> Forall (nested_ok w.(q).(GLOBAL_EPOCH) c) k'.(nested) ->
  rcu_ok (with_ctl w i k').
Proof.
  intros Ok Ec Ek Eg A' Hw Hu Hc Ho Hn. assert (Mv : moves w (with_ctl w i k') i c c k k').
  { split; cbn; rewrite ?Eg; try done; [by rewrite list_insert_id | eauto | eauto | by left]. }
  eapply rcu_ok_moves; [done | exact Mv | done | apply Ok | | | apply Ok].
  - pose proof (ro_cpus _ Ok i c k Ec Ek) as [H1 H2 H3 _ _ _]. split; rewrite ?Eg; try done. cbn.
    eapply Forall_impl; [exact Hc |]. intros f. apply (call_ok_grows _ _ (reachable_now w (with_ctl w i k'))); [apply (moves_grows _ _ _ _ _ _ _ Mv) |]. intros x Hx. by apply (bucket_not_new w _ i c).
  - intros j cj n _ _. unfold safe, unstamped, waiting. cbn. intros [H | [H | (x & Hx & E & L)]]; [by left | right; left; by apply (elem_concat_insert _ _ i k); auto |].
    right. right. exists x. split; [| done]. rewrite elem_of_app in *. destruct Hx; [by left | right; by apply (elem_concat_insert _ _ i k); auto].
Qed.

Lemma interrupt_ok w i k : rcu_ok w -> w.(ctl) !! i = Some k -> accounted (with_ctl w i (mk_control k.(base) k.(exec) (NClient [] :: k.(nested)) k.(reply))) ->
  rcu_ok (with_ctl w i (mk_control k.(base) k.(exec) (NClient [] :: k.(nested)) k.(reply))).
Proof.
  intros Ok Ek A'. destruct (own_cell w i k Ok Ek) as [c Ec]. pose proof (ro_cpus _ Ok i c k Ec Ek) as [_ _ _ H4 H5 H6].
  apply (control_turn_ok w i k _ c); try done. by constructor.
Qed.

Lemma return_ok w i k r : rcu_ok w -> w.(ctl) !! i = Some k -> k.(nested) = NClient [] :: r -> accounted (with_ctl w i (mk_control k.(base) k.(exec) r k.(reply))) ->
  rcu_ok (with_ctl w i (mk_control k.(base) k.(exec) r k.(reply))).
Proof.
  intros Ok Ek En A'. destruct (own_cell w i k Ok Ek) as [c Ec]. pose proof (ro_cpus _ Ok i c k Ec Ek) as [_ _ _ H4 H5 H6]. rewrite En in H6. apply Forall_cons in H6 as [_ H6].
  apply (control_turn_ok w i k _ c); try done; unfold guards_of, control_waiting, control_unstamped; by rewrite En.
Qed.

Lemma enter_ok w i fs w' : rcu_ok w -> accounted w' -> Forall outer (tail fs) -> (forall c k, Forall (call_ok w.(q).(GLOBAL_EPOCH) (guard_on w) i c k.(base)) fs) -> enter w i fs = Some w' -> rcu_ok w'.
Proof.
  intros Ok A' Ho Hf (k & Ek & En & Ex & ->)%enter_inv. destruct (own_cell w i k Ok Ek) as [c Ec].
  apply (control_turn_ok w i k _ c); try done; unfold guards_of, control_waiting, control_unstamped; rewrite ?En, ?Ex; cbn; try done.
  intros x H. by apply elem_of_nil in H.
Qed.

(** ** Retirement *)

Lemma call_ok_push G R i c bs f n e l : c.(last_quiescent) <= e -> call_ok G R i c bs f -> call_ok G R i (set_bucket c (mk_bucket (mk_hdr n e :: head (bucket c)) l)) bs f.
Proof.
  intros L. destruct f; try done; unfold call_ok, cell_waiting; cbn.
  - intros [O D]. split; [done |]. intros j x Lj Hx S. rewrite elem_of_cons in Hx. destruct Hx as [-> | Hx]; [cbn | by eapply D].
    destruct (decide (i < i0)%nat) as [Li | Li]; [left; specialize (O Li); lia | right; lia].
  - intros [O D]. split; [done |]. intros j x Hx S. rewrite elem_of_cons in Hx. destruct Hx as [-> | Hx]; [cbn; lia | by eapply D].
Qed.

Lemma sees_last w j c n : rcu_ok w -> w.(q).(CPUS) !! j = Some c -> sees (guard_on w) j n -> c.(last_quiescent) <= w.(q).(GLOBAL_EPOCH).
Proof.
  intros Ok Ec (g & (k & Ek & Hg) & _). pose proof (co_guards _ _ _ _ _ (ro_cpus _ Ok j c k Ec Ek)) as F. rewrite Forall_forall in F. destruct (F g Hg). lia.
Qed.

(** The epoch is read after the allocation was unlinked. *)
Lemma defer_load_ok w i k n r : rcu_ok w -> w.(ctl) !! i = Some k -> k.(nested) = NDefer (DeferLoad n) :: r ->
  let k' := mk_control k.(base) k.(exec) (NDefer (DeferPush n w.(q).(GLOBAL_EPOCH)) :: r) k.(reply) in accounted (with_ctl w i k') -> rcu_ok (with_ctl w i k').
Proof.
  intros Ok Ek En k' A'. destruct (own_cell w i k Ok Ek) as [c Ec]. pose proof (ro_cpus _ Ok i c k Ec Ek) as [H1 H2 H3 H4 H5 H6]. rewrite En in H6. apply Forall_cons in H6 as [Hd H6].
  assert (Eg : guards_of k' = guards_of k) by (unfold guards_of, k'; cbn; by rewrite En).
  assert (Mv : moves w (with_ctl w i k') i c c k k') by (split; rewrite ?Eg; try done; [by rewrite list_insert_id | eauto | eauto | by left]).
  eapply rcu_ok_moves; [done | exact Mv | done | apply Ok | | | apply Ok].
  - split; rewrite ?Eg; try done; cbn.
    + eapply Forall_impl; [exact H4 |]. intros f. apply (call_ok_grows _ _ (reachable_now w (with_ctl w i k'))); [apply (moves_grows _ _ _ _ _ _ _ Mv) |]. intros x Hx. by apply (bucket_not_new w _ i c).
    + constructor; [| done]. cbn in Hd |- *. destruct H2; [done |]. split; [done | lia].
  - intros j cj m Ej S. pose proof (sees_last w j cj m Ok Ej S) as L. unfold safe, unstamped, waiting. cbn. intros [H | [H | (x & Hx & E & Lx)]]; [by left | |].
    + destruct (decide (m = n)) as [-> | N]; [| right; left; apply (elem_concat_insert _ _ i k); [done | | done]].
      * right. right. exists (mk_hdr n (GLOBAL_EPOCH (q w))). split_and!; [| done | done]. rewrite elem_of_app. right. apply (elem_concat_here _ _ i k); [done |].
        unfold control_waiting, k'. cbn. rewrite elem_of_app. right. by left.
      * unfold control_unstamped, k'. rewrite En. cbn. rewrite elem_of_cons. tauto.
    + right. right. exists x. split; [| done]. rewrite elem_of_app in *. destruct Hx as [Hx | Hx]; [by left |]. right. apply (elem_concat_insert _ _ i k); [done | | done].
      unfold control_waiting, k'. rewrite En. cbn. rewrite !elem_of_app, elem_of_cons. tauto.
Qed.

Lemma defer_push_ok w i k n e r c l : rcu_ok w -> w.(ctl) !! i = Some k -> k.(nested) = NDefer (DeferPush n e) :: r -> w.(q).(CPUS) !! i = Some c ->
  let k' := mk_control k.(base) k.(exec) r k.(reply) in let c' := set_bucket c (mk_bucket (mk_hdr n e :: head (bucket c)) l) in
  let w' := with_q (with_ctl w i k') (set_cell w.(q) i c') in accounted w' -> rcu_ok w'.
Proof.
  intros Ok Ek En Ec k' c' w' A'. pose proof (ro_cpus _ Ok i c k Ec Ek) as [H1 H2 H3 H4 H5 H6]. rewrite En in H6. apply Forall_cons in H6 as [Hd H6]. cbn in Hd.
  assert (Eg : guards_of k' = guards_of k) by (unfold guards_of, k'; cbn; by rewrite En).
  assert (Mv : moves w w' i c c' k k') by (split; rewrite ?Eg; try done; [eauto | eauto | by left]).
  eapply rcu_ok_moves; [done | exact Mv | done | apply Ok | | | apply Ok].
  - split; rewrite ?Eg; try done; cbn. eapply Forall_impl; [exact H4 |]. intros f Hf. apply call_ok_push; [lia |]. revert Hf.
    apply (call_ok_grows _ _ (reachable_now w w')); [apply (moves_grows _ _ _ _ _ _ _ Mv) |]. intros x Hx. by apply (bucket_not_new w _ i c).
  - intros j cj m _ _. unfold safe, unstamped, waiting. cbn. intros [H | [H | (x & Hx & E & Lx)]]; [by left | |].
    + right. left. apply (elem_concat_insert _ _ i k); [done | | done]. unfold control_unstamped, k'. by rewrite En.
    + right. right. exists x. split; [| done]. rewrite elem_of_app in *. destruct Hx as [Hx | Hx].
      * left. apply (elem_concat_insert _ _ i c); [done | | done]. unfold cell_waiting, c'. cbn. rewrite elem_of_cons. tauto.
      * destruct (decide (x = mk_hdr n e)) as [-> | N]; [left; apply (elem_concat_here _ _ i c); [done |]; by left |].
        right. apply (elem_concat_insert _ _ i k); [done | | done]. unfold control_waiting, k'. rewrite En. cbn. rewrite !elem_of_app, elem_of_cons. tauto.
Qed.

Lemma defer_turn_ok w i w' : rcu_ok w -> accounted w' -> defer_turn w i = Some w' -> rcu_ok w'.
Proof.
  intros Ok A' (k & d & r & q' & d' & Ek & En & Ef & ->)%defer_inv. destruct (own_cell w i k Ok Ek) as [c Ec]. destruct d as [n | n e]; cbn in Ef.
  - injection Ef as <- <-. cbn [push_defer base exec nested reply] in *. change (with_q (with_ctl w i ?a) (q w)) with (with_ctl w i a) in *. by apply (defer_load_ok w i k n r).
  - rewrite Ec in Ef. injection Ef as <- <-. by apply (defer_push_ok w i k n e r c).
Qed.

(** * All transitions *)

Lemma offload_ok w q' : rcu_ok w -> q'.(CPUS) = w.(q).(CPUS) -> q'.(GLOBAL_EPOCH) = w.(q).(GLOBAL_EPOCH) -> accounted (with_q w q') -> rcu_ok (with_q w q').
Proof.
  intros [A L E C S F] Ec Eg A'. split; cbn; rewrite ?Ec, ?Eg; try done. intros i c n Hc Hs. specialize (S i c n Hc Hs). unfold safe, waiting in *. cbn. by rewrite Ec.
Qed.

Lemma linked_delete h c h' p n : atomic.drop h c = Some (h', p) -> n ∈ linked h -> n ∈ linked h' \/ cells h !! c = Some (Some n).
Proof.
  unfold atomic.drop, atomic.swap, linked. destruct (cells h !! c) as [old |] eqn:E; [| done]. intros [= <- <-]. rewrite !list_elem_of_omap. intros (x & [j Ej]%list_elem_of_lookup & Hx). destruct (decide (j = c)) as [-> | N].
  - right. simplify_eq. by destruct old; cbn in Hx; simplify_eq.
  - left. exists x. split; [| done]. apply list_elem_of_lookup. exists j. cbn. by rewrite list_lookup_insert_ne.
Qed.

Lemma drop_ok w i c w' : rcu_ok w -> unread w c -> accounted w' -> drop_turn w i c = Some w' -> rcu_ok w'.
Proof.
  intros [A L E C S F] U A' (h & p & Ed & ->)%drop_inv. split; try done. cbn. intros j cj n Hc Hs. specialize (S j cj n Hc Hs). unfold safe in *. cbn.
  destruct S as [Hl | Hw]; [| by right]. destruct (linked_delete _ _ _ _ _ Ed Hl) as [Hl' | Hn]; [by left |]. destruct Hs as (g & (k & Ek & Hg) & Hg'). by destruct (U n j k g Hn Ek Hg).
Qed.

Lemma rcu_step_ok w w' : rcu_ok w -> in_width w -> in_width w' -> step true w w' -> rcu_ok w'.
Proof.
  intros Ok W W' S. pose proof (step_accounted _ _ _ S (ro_accounted _ Ok)) as A'. pose proof (ro_futures _ Ok) as Fu. rewrite Forall_forall in Fu.
  destruct S as [i cl sp w' E | i w' E | i k Ek | i k r Ek En | i w' P E | i j w' E | i j c w' E | i j c w' E | i j c w' E | i j c x w' E | i w' P E | i c w' U E | i w' E | i w' E | i w' E | i d w' E | i t w' P E | i w' E | i v w' P E | n q' E |].
  - by eapply call_turn_ok.
  - by eapply defer_turn_ok.
  - by apply interrupt_ok.
  - by apply return_ok.
  - eapply pin_turn_ok; eauto.
  - by eapply unpin_turn_ok.
  - by eapply load_turn_ok.
  - by eapply store_turn_ok.
  - by eapply clear_turn_ok.
  - by eapply cas_turn_ok.
  - eapply retire_turn_ok; eauto.
  - by eapply drop_ok.
  - eapply (enter_ok w i report_quiescent); [done | done | constructor | intros; by repeat constructor | done].
  - eapply (enter_ok w i advance_epoch_if_pending); [done | done | constructor | intros; by repeat constructor | done].
  - eapply (enter_ok w i report_idle); [done | done | constructor | intros; by repeat constructor | done].
  - eapply (enter_ok w i (sync_until d)); [done | done | constructor | intros; by repeat constructor | done].
  - eapply (enter_ok w i (poll t)); [done | done | by destruct t; repeat constructor | | done]. intros c k. destruct t as [t |]; repeat constructor; cbn; [by apply Fu, P | intros j g L; lia].
  - eapply (enter_ok w i run_offloaded_reclaim); [done | done | constructor | intros; by repeat constructor | done].
  - eapply (enter_ok w i (run_offloaded_reclaim_for v)); [done | done | constructor | intros; by repeat constructor | done].
  - unfold set_reclaim_offload in E. destruct (_ && _); [| done]. injection E as <-. by apply offload_ok.
  - by apply offload_ok.
Qed.

Lemma rcu_start_ok ncpus cs : rcu_ok (world_start ncpus cs).
Proof.
  assert (NG : forall i g, ~ guard_on (world_start ncpus cs) i g) by (intros i g (k & Ek & Hg); apply lookup_replicate in Ek as [-> _]; by apply elem_of_nil in Hg).
  split; cbn; [apply start_accounted | by rewrite !length_replicate | unfold INACTIVE; lia | | | constructor].
  - intros i c k Ec Ek. apply lookup_replicate in Ec as [-> _]. apply lookup_replicate in Ek as [-> _]. split; cbn; try constructor; done.
  - intros i c n _ (g & Hg & _). by destruct (NG i g).
Qed.

Lemma start_width ncpus cs : in_width (world_start ncpus cs).
Proof. split; cbn; [unfold INACTIVE; lia |]. intros i k Ek. apply lookup_replicate in Ek as [-> _]. cbn. lia. Qed.

Lemma rcu_reachable_ok ncpus cs w : reachable true ncpus cs w -> rcu_ok w /\ in_width w.
Proof.
  induction 1 as [| w w' _ [Ok W] S W']; [split; [apply rcu_start_ok | apply start_width] |]. split; [| done]. by eapply rcu_step_ok.
Qed.
