(* ===== verification/RcuSpec.v ===== *)
(** What quiescent-state-based reclamation promises: no use after free, nothing
    lost or freed twice, grace periods, workers that are woken, no panics; and
    runs in which a reader on an inactive processor, or one whose cell is dropped,
    loses its allocation. *)

From Stdlib Require Import Permutation.
From stdpp Require Import sets.
From S2P Require Import Prelude Word RcuQsbr RcuSystem RcuSound.
Import qsbr.

(** * Stall counts *)

Lemma trailing_split p : exists m, Zpos p = 2 ^ Z.of_nat (pos_trailing_zeros p) * (2 * m + 1) /\ 0 <= m.
Proof.
  induction p as [p _ | p (m & IH & Hm) |]; cbn [pos_trailing_zeros].
  - exists (Zpos p). simpl Z.of_nat. lia.
  - exists m. rewrite Nat2Z.inj_succ, Z.pow_succ_r by lia. lia.
  - exists 0. simpl Z.of_nat. lia.
Qed.

(** The lowest bit is set, and clearing it leaves no bit at or below it. *)
Lemma trailing_bits x : 0 < x -> let t := Z.of_nat (trailing_zeros x) in
  Z.testbit x t = true /\ forall j, 0 <= j -> Z.testbit (Z.land x (x - 1)) j = true -> t < j /\ Z.testbit x j = true.
Proof.
  destruct x as [| p |]; [done | | done]. intros _ t. destruct (trailing_split p) as (m & E & Hm). cbn [trailing_zeros] in t. fold t in E. assert (Ht : 0 <= t) by lia.
  assert (P : 0 < 2 ^ t) by (apply Z.pow_pos_nonneg; lia). assert (B : forall j, Z.testbit (Zpos p) j = Z.testbit (2 * m + 1) (j - t)) by (intros j; rewrite E, Z.mul_comm; by apply Z.mul_pow2_bits).
  split; [rewrite B, Z.sub_diag; apply Z.testbit_odd_0 |]. intros j Hj. rewrite Z.land_spec, andb_true_iff. intros [Hx H1]. split; [| done].
  destruct (Z.lt_trichotomy j t) as [L | [-> | L]]; [| | done].
  - rewrite B, Z.testbit_neg_r in Hx by lia. done.
  - rewrite testbit_odd in H1 by lia. replace ((Zpos p - 1) / 2 ^ t) with (2 * m) in H1; [by rewrite Z.odd_mul in H1 |].
    apply (Z.div_unique_pos _ _ _ (2 ^ t - 1)); lia.
Qed.

Lemma count_stalled_total fuel x stuck low : 0 <= x -> (forall j, 0 <= j -> Z.testbit x j = true -> Z.of_nat low <= j < 64 /\ j < Z.of_nat (length stuck)) -> (64 - low <= fuel)%nat ->
  exists r, count_stalled fuel x stuck = Some r /\ length r = length stuck.
Proof.
  revert x stuck low. induction fuel as [| fuel IH]; intros x stuck low Hx Hb Hf; unfold count_stalled; fold count_stalled; destruct (Z.eqb_spec x 0) as [-> | N]; try by exists stuck.
  - destruct (trailing_bits x) as [T _]; [lia |]. specialize (Hb _ (Nat2Z.is_nonneg _) T). lia.
  - destruct (trailing_bits x) as [T C]; [lia |]. destruct (Hb _ (Nat2Z.is_nonneg _) T) as [L1 L2].
    destruct (lookup_lt_is_Some_2 stuck (trailing_zeros x)) as [n En]; [lia |]. rewrite En.
    destruct (IH (Z.land x (x - 1)) (<[trailing_zeros x := wrap 64 (n + 1)]> stuck) (S (trailing_zeros x))) as (r & Er & Lr).
    + apply Z.land_nonneg. lia.
    + intros j Hj Tj. rewrite length_insert. destruct (C j Hj Tj) as [Lj Tj']. destruct (Hb j Hj Tj'). lia.
    + lia.
    + exists r. rewrite length_insert in Lr. done.
Qed.

Lemma stalled_bits q now thr j : 0 <= j -> Z.testbit (stalled_cpu_mask q now thr) j = true -> j < 64 /\ j < Z.of_nat (length q.(CPUS)).
Proof.
  intros Hj. unfold stalled_cpu_mask.
  assert (B : Forall (fun x => Z.of_nat x.1 < 64 /\ Z.of_nat x.1 < Z.of_nat (length (CPUS q))) (imap pair (take 64 (CPUS q)))).
  { apply Forall_forall. intros x Hx. apply elem_of_lookup_imap in Hx as (a & y & -> & E). cbn. apply lookup_lt_Some in E. rewrite length_take in E. lia. }
  induction B as [| [cpu c] l Hc B IH]; cbn; [by rewrite Z.bits_0 |]. destruct (_ && _); [| done]. rewrite Z.lor_spec, orb_true_iff. intros [H | H]; [by apply IH |].
  rewrite Z.shiftl_spec in H by done. destruct (Z.eq_dec (j - Z.of_nat cpu) 0) as [E | N]; [cbn in Hc; lia |].
  destruct (Z.lt_ge_cases (j - Z.of_nat cpu) 0); [by rewrite Z.testbit_neg_r in H |]. rewrite (Z.bits_above_log2 1) in H by (cbn; lia). done.
Qed.

Lemma stalled_nonneg q now thr : 0 <= stalled_cpu_mask q now thr.
Proof.
  unfold stalled_cpu_mask. induction (imap pair (take 64 (CPUS q))) as [| [cpu c] l IH]; cbn; [done |]. destruct (_ && _); [| done]. apply Z.lor_nonneg. split; [done |]. by apply Z.shiftl_nonneg.
Qed.

(** * Queues and indices *)

Definition worker_of (f : Call) : option nat :=
  match f with OffLoad v _ | OffCas v _ _ | OffKick v | TakeKicked v | TakeHead v => Some v | _ => None end.

(** A push or a run of the worker's queue is in progress on a processor. *)
Definition serving (v : nat) (fs : list Call) : Prop := OffKick v ∈ fs \/ TakeHead v ∈ fs.

Record static_ok (w : World) : Prop := {
  so_control : length w.(ctl) = length w.(q).(CPUS);
  so_queues : length w.(q).(OFFLOADED) = length w.(q).(CPUS);
  so_stuck : length w.(q).(STUCK_QUIESCENT_CPU) = length w.(q).(CPUS);
  so_workers : w.(q).(OFFLOAD_WAKE) = true -> 1 <= w.(q).(OFFLOAD_WORKERS) <= Z.of_nat (length w.(q).(CPUS));
  so_index : forall i k f v, w.(ctl) !! i = Some k -> f ∈ k.(exec) -> worker_of f = Some v -> (v < length w.(q).(CPUS))%nat;
  so_kicked : forall v o, w.(q).(OFFLOADED) !! v = Some o -> o.(kicked) = true -> v ∈ w.(wakes);
  so_served : forall v o, w.(q).(OFFLOADED) !! v = Some o -> o.(q_head) <> [] ->
    o.(kicked) = true \/ exists i k, w.(ctl) !! i = Some k /\ serving v k.(exec)
}.

(** Steps that touch neither queues nor the functions under way. *)
Lemma static_same w w' : length w'.(ctl) = length w.(ctl) -> length w'.(q).(CPUS) = length w.(q).(CPUS) -> w'.(q).(OFFLOADED) = w.(q).(OFFLOADED) ->
  w'.(q).(STUCK_QUIESCENT_CPU) = w.(q).(STUCK_QUIESCENT_CPU) -> w'.(q).(OFFLOAD_WAKE) = w.(q).(OFFLOAD_WAKE) -> w'.(q).(OFFLOAD_WORKERS) = w.(q).(OFFLOAD_WORKERS) -> w'.(wakes) = w.(wakes) ->
  (forall i k', w'.(ctl) !! i = Some k' -> exists k, w.(ctl) !! i = Some k /\ forall f, f ∈ k'.(exec) -> f ∈ k.(exec) \/ forall v, worker_of f = Some v -> (v < length w.(q).(CPUS))%nat) ->
  (forall i k, w.(ctl) !! i = Some k -> exists k', w'.(ctl) !! i = Some k' /\ k.(exec) ⊆ k'.(exec)) -> static_ok w -> static_ok w'.
Proof.
  intros L1 L2 E1 E2 E3 E4 E5 Hc Hc' [S1 S2 S3 S4 S5 S6 S7]. split; rewrite ?L1, ?L2, ?E1, ?E2, ?E3, ?E4, ?E5; try done.
  - intros i k' f v Ek Hf Ev. destruct (Hc i k' Ek) as (k & Ek0 & H). destruct (H f Hf) as [Hf' | Hv]; [by apply (S5 i k f) | by apply Hv].
  - intros v o Ev Hn. destruct (S7 v o Ev Hn) as [| (i & k & Ek & Sv)]; [by left |]. right. destruct (Hc' i k Ek) as (k' & Ek' & Sub). exists i, k'. split; [done |]. destruct Sv; [left | right]; by apply Sub.
Qed.

Lemma static_insert w w' i k k' : w.(ctl) !! i = Some k -> w'.(ctl) = <[i := k']> w.(ctl) -> length w'.(q).(CPUS) = length w.(q).(CPUS) -> w'.(q).(OFFLOADED) = w.(q).(OFFLOADED) ->
  w'.(q).(STUCK_QUIESCENT_CPU) = w.(q).(STUCK_QUIESCENT_CPU) -> w'.(q).(OFFLOAD_WAKE) = w.(q).(OFFLOAD_WAKE) -> w'.(q).(OFFLOAD_WORKERS) = w.(q).(OFFLOAD_WORKERS) -> w'.(wakes) = w.(wakes) ->
  (forall f, f ∈ k'.(exec) -> f ∈ k.(exec) \/ forall v, worker_of f = Some v -> (v < length w.(q).(CPUS))%nat) -> k.(exec) ⊆ k'.(exec) -> static_ok w -> static_ok w'.
Proof.
  intros Ek Ek' L2 E1 E2 E3 E4 E5 Hf Hs. apply static_same; try done; rewrite Ek'; [apply length_insert | |].
  - intros j kj Ej. destruct (decide (j = i)) as [-> | N].
    + rewrite list_lookup_insert_eq in Ej by (by eapply lookup_lt_Some). simplify_eq. by exists k.
    + rewrite list_lookup_insert_ne in Ej by done. exists kj. auto.
  - intros j kj Ej. destruct (decide (j = i)) as [-> | N].
    + rewrite list_lookup_insert_eq by (by eapply lookup_lt_Some). simplify_eq. by exists k'.
    + rewrite list_lookup_insert_ne by done. by exists kj.
Qed.

(** The parts of the static data a function leaves alone, and its new frames. *)
Lemma call_step_static q i f clock sp q' fs e :
  length q.(OFFLOADED) = length q.(CPUS) -> length q.(STUCK_QUIESCENT_CPU) = length q.(CPUS) -> (q.(OFFLOAD_WAKE) = true -> 1 <= q.(OFFLOAD_WORKERS) <= Z.of_nat (length q.(CPUS))) ->
  (forall v, worker_of f = Some v -> (v < length q.(CPUS))%nat) -> call_step q i f clock sp = Some (q', fs, e) ->
  length q'.(CPUS) = length q.(CPUS) /\ length q'.(OFFLOADED) = length q.(OFFLOADED) /\ length q'.(STUCK_QUIESCENT_CPU) = length q.(CPUS) /\
  q'.(OFFLOAD_WAKE) = q.(OFFLOAD_WAKE) /\ q'.(OFFLOAD_WORKERS) = q.(OFFLOAD_WORKERS) /\ forall g v, g ∈ fs -> worker_of g = Some v -> (v < length q.(CPUS))%nat.
Proof.
  intros Lq Ls Hw Hi. open_call. destruct (CPUS q !! i) as [c |] eqn:Ec; [| done].
  assert (St : forall m r, count_stalled 64 (stalled_cpu_mask q clock m) (STUCK_QUIESCENT_CPU q) = Some r -> length r = length (CPUS q)).
  { intros m r E. destruct (count_stalled_total 64 (stalled_cpu_mask q clock m) (STUCK_QUIESCENT_CPU q) 0) as (r' & E' & L); [apply stalled_nonneg | | lia | rewrite E in E'; simplify_eq; lia].
    intros j Hj B. destruct (stalled_bits _ _ _ _ Hj B). lia. }
  destruct f; intros E; repeat case_match; simplify_eq; cbn [CPUS OFFLOADED STUCK_QUIESCENT_CPU OFFLOAD_WAKE OFFLOAD_WORKERS set_cell set_queue set_epoch set_stuck set_held] in *; rewrite ?length_insert.
  all: split_and!; try done; try (by eapply St).
  all: intros g v Hg Hv; unfold after_drain in *; repeat case_match; try (repeat (apply elem_of_cons in Hg as [-> | Hg]; [cbn in Hv; simplify_eq; try (apply Hi; done); reflect; try lia; try done |]); by apply elem_of_nil in Hg).
  - apply list_elem_of_singleton in Hg as ->. cbn in Hv. simplify_eq. specialize (Hw eq_refl). pose proof (Z.mod_pos_bound (Z.of_nat i) (OFFLOAD_WORKERS q')). lia.
  - apply Nat.ltb_lt in H. repeat (apply elem_of_cons in Hg as [-> | Hg]; [cbn in Hv; simplify_eq; lia |]). by apply elem_of_nil in Hg.
Qed.

Lemma queue_insert (l : list OffloadQueue) u o o' v x : l !! u = Some o -> <[u := o']> l !! v = Some x -> (v = u /\ x = o') \/ (v <> u /\ l !! v = Some x).
Proof.
  intros E. destruct (decide (v = u)) as [-> | N]; [rewrite list_lookup_insert_eq by (by eapply lookup_lt_Some) | rewrite list_lookup_insert_ne by done]; intros Ev; simplify_eq; auto.
Qed.

(** What a step of a function does to a queue. *)
Lemma call_step_queue q i f clock sp q' fs e v o' : call_step q i f clock sp = Some (q', fs, e) -> q'.(OFFLOADED) !! v = Some o' ->
  exists o, q.(OFFLOADED) !! v = Some o /\ (o'.(kicked) = true -> o.(kicked) = true /\ f <> TakeKicked v \/ e = Woke v) /\
    (o'.(q_head) <> [] -> o'.(kicked) = true \/ serving v fs \/ (o.(q_head) <> [] /\ o.(kicked) = false /\ f <> TakeHead v /\ f <> OffKick v)).
Proof.
  intros Ef Ev. assert (Old : q.(OFFLOADED) !! v = Some o' -> (forall u, worker_of f = Some u -> u <> v \/ (exists r, f = OffLoad u r) \/ exists r h, f = OffCas u r h) -> exists o, q.(OFFLOADED) !! v = Some o /\
     (o'.(kicked) = true -> o.(kicked) = true /\ f <> TakeKicked v \/ e = Woke v) /\ (o'.(q_head) <> [] -> o'.(kicked) = true \/ serving v fs \/ (o.(q_head) <> [] /\ o.(kicked) = false /\ f <> TakeHead v /\ f <> OffKick v))).
  { intros E W. exists o'. split; [done |]. split; [intros K; left; split; [done |]; intros ->; destruct (W v eq_refl) as [|[[]|(?&?&?)]]; done |].
    intros H. destruct (kicked o') eqn:K; [by left |]. right. right. split_and!; try done; intros ->; destruct (W v eq_refl) as [|[[]|(?&?&?)]]; done. }
  open_call_in Ef. destruct (CPUS q !! i) as [c |] eqn:Ec; [| done].
  destruct f; try (apply Old; [repeat case_match; by simplify_eq | intros u Hu; cbn in Hu; simplify_eq; eauto]; fail).
  - destruct (OFFLOADED q !! worker) as [o |] eqn:Eo; [| done]. destruct (_ && _); injection Ef as <- <- <-; [| apply Old; [done | intros u Hu; cbn in Hu; simplify_eq; eauto]].
    cbn in Ev. destruct (queue_insert _ _ _ _ _ _ Eo Ev) as [[-> ->] | [N E]]; [| apply Old; [done | intros u Hu; cbn in Hu; simplify_eq; eauto]].
    exists o. cbn. split_and!; [done | by left | right; left; left; by left].
  - destruct (OFFLOADED q !! worker) as [o |] eqn:Eo; [| done]. injection Ef as <- <- <-. cbn in Ev. destruct (queue_insert _ _ _ _ _ _ Eo Ev) as [[-> ->] | [N E]].
    + exists o. cbn. split_and!; [done | | by left]. destruct (kicked o); [by left | by right].
    + apply Old; [done |]. intros u Hu. cbn in Hu. simplify_eq. by left.
  - destruct (OFFLOADED q !! worker) as [o |] eqn:Eo; [| done]. injection Ef as <- <- <-. cbn in Ev. destruct (queue_insert _ _ _ _ _ _ Eo Ev) as [[-> ->] | [N E]].
    + exists o. cbn. split_and!; [done | done | right; left; right; by left].
    + apply Old; [done |]. intros u Hu. cbn in Hu. simplify_eq. by left.
  - destruct (OFFLOADED q !! worker) as [o |] eqn:Eo; [| done]. injection Ef as <- <- <-. cbn in Ev. destruct (queue_insert _ _ _ _ _ _ Eo Ev) as [[-> ->] | [N E]].
    + exists o. cbn. split_and!; [done | by left | done].
    + apply Old; [done |]. intros u Hu. cbn in Hu. simplify_eq. by left.
Qed.

Lemma took_only q i f clock sp q' fs v : call_step q i f clock sp = Some (q', fs, Took v) -> f = TakeKicked v.
Proof. open_call. intros E. destruct f; repeat case_match; by simplify_eq. Qed.

Lemma call_turn_static w i clock sp w' : call_turn w i clock sp = Some w' -> static_ok w -> static_ok w'.
Proof.
  intros (k & f & r & q' & fs & e & Ek & En & Ex & Ef & E)%call_inv [S1 S2 S3 S4 S5 S6 S7].
  assert (Fx : f ∈ exec k) by (rewrite Ex; by left). destruct (call_step_static _ _ _ _ _ _ _ _ S2 S3 S4 (fun v => S5 i k f v Ek Fx) Ef) as (L1 & L2 & L3 & W1 & W2 & Fr).
  set (k' := mk_control (base k) (fs ++ r) [] (match e with Quiet => reply k | _ => e end)) in *.
  assert (Eq : q w' = q' /\ ctl w' = <[i := k']> (ctl w)) by (subst w'; by destruct e). destruct Eq as [Eq Ek'].
  assert (Wk : forall v, v ∈ wakes w -> f <> TakeKicked v -> v ∈ wakes w').
  { subst w'. intros v Hv N. destruct e; try done; cbn; [by right |]. apply list_elem_of_filter. split; [| done]. intros ->. apply took_only in Ef. done. }
  assert (I : <[i := k']> (ctl w) !! i = Some k') by (apply list_lookup_insert_eq; by eapply lookup_lt_Some).
  split; rewrite ?Eq, ?L1, ?L2, ?L3, ?W1, ?W2; try done.
  - by rewrite Ek', length_insert.
  - intros j kj g v Ej Hg Hv. rewrite Ek' in Ej. destruct (decide (j = i)) as [-> | N]; [| rewrite list_lookup_insert_ne in Ej by done; by apply (S5 j kj g)].
    rewrite I in Ej. injection Ej as <-. cbn in Hg. apply elem_of_app in Hg as [Hg | Hg]; [by apply (Fr g) |]. apply (S5 i k g); [done | rewrite Ex; by right | done].
  - intros v o' Ev K. destruct (call_step_queue _ _ _ _ _ _ _ _ v o' Ef Ev) as (o & Eo & Hk & _). destruct (Hk K) as [[Ko N] | ->]; [by apply Wk; [apply (S6 v o) |] |]. subst w'. by left.
  - intros v o' Ev Hn. destruct (call_step_queue _ _ _ _ _ _ _ _ v o' Ef Ev) as (o & Eo & _ & Hq). destruct (Hq Hn) as [K | [Sv | (Ho & Ko & N1 & N2)]]; [by left | |].
    + right. exists i, k'. rewrite Ek'. split; [done |]. unfold serving in *. cbn. rewrite !elem_of_app. tauto.
    + right. destruct (S7 v o Eo Ho) as [Kt | (j & kj & Ej & Sv)]; [congruence |]. rewrite Ek'. destruct (decide (j = i)) as [-> | N]; [| exists j, kj; by rewrite list_lookup_insert_ne].
      exists i, k'. split; [done |]. simplify_eq. unfold serving in *. rewrite Ex in Sv. cbn. rewrite !elem_of_app. rewrite !elem_of_cons in Sv. destruct Sv as [[|]|[|]]; [congruence | tauto | congruence | tauto].
Qed.

Lemma client_change_static w w' i gs gs' h d back : client_change w i gs gs' h d back w' -> static_ok w -> static_ok w'.
Proof.
  intros (k & Ek & Hc & ->). apply (static_insert w _ i k (push_defer (set_client k gs') d)); try done; cbn; rewrite client_exec; [by left | done].
Qed.

Lemma enter_static w i fs w' : (forall f v, f ∈ fs -> worker_of f = Some v -> (v < length w.(q).(CPUS))%nat) -> enter w i fs = Some w' -> static_ok w -> static_ok w'.
Proof.
  intros Hf (k & Ek & En & Ex & ->)%enter_inv. apply (static_insert w _ i k (mk_control (base k) fs [] (reply k))); try done.
  - intros f Hx. right. intros v. by apply Hf.
  - rewrite Ex. set_solver.
Qed.

(** A guard is taken or dropped. *)
Lemma reader_static w i k gs gs' c n : w.(q).(CPUS) !! i = Some c -> w.(ctl) !! i = Some k -> client k = Some gs -> static_ok w ->
  static_ok (with_q (with_ctl w i (set_client k gs')) (set_cell w.(q) i (set_readers c n))).
Proof.
  intros Ec Ek Hc. apply (static_insert w _ i k (set_client k gs')); try done; [cbn; by rewrite length_insert | rewrite client_exec; by left | by rewrite client_exec].
Qed.

Lemma step_static strict w w' : step strict w w' -> static_ok w -> static_ok w'.
Proof.
  intros S. destruct S as [i cl sp w' E | i w' E | i k Ek | i k r Ek En | i w' P E | i j w' E | i j c w' E | i j c w' E | i j c w' E | i j c x w' E | i w' P E | i c w' U E | i w' E | i w' E | i w' E | i d w' E | i t w' P E | i w' E | i v w' P E | n q' E |].
  - by eapply call_turn_static.
  - apply defer_inv in E as (k & d & r & q' & d' & Ek & En & Ef & ->). assert (H : length (CPUS q') = length (CPUS (q w)) /\ OFFLOADED q' = OFFLOADED (q w) /\ STUCK_QUIESCENT_CPU q' = STUCK_QUIESCENT_CPU (q w) /\ OFFLOAD_WAKE q' = OFFLOAD_WAKE (q w) /\ OFFLOAD_WORKERS q' = OFFLOAD_WORKERS (q w)).
    { destruct d; cbn in Ef; repeat case_match; simplify_eq; cbn; rewrite ?length_insert; done. }
    destruct H as (H1 & H2 & H3 & H4 & H5). apply (static_insert w _ i k (push_defer (mk_control (base k) (exec k) r (reply k)) d')); try done. by left.
  - apply (static_insert w _ i k (mk_control (base k) (exec k) (NClient [] :: nested k) (reply k))); try done. by left.
  - apply (static_insert w _ i k (mk_control (base k) (exec k) r (reply k))); try done. by left.
  - apply pin_inv in E as (k & gs & q' & Ek & Hc & Eq & ->). unfold reader_pin in Eq. destruct (CPUS (q w) !! i) eqn:Ec; [| done]. injection Eq as <-. by eapply reader_static.
  - apply unpin_inv in E as (k & gs & g & q' & Ek & Hc & Eg & Eq & ->). unfold reader_unpin in Eq. destruct (CPUS (q w) !! i) eqn:Ec; [| done]. injection Eq as <-. by eapply reader_static.
  - apply load_inv in E as (k & gs & p & gs' & Ek & Hc & _ & _ & ->). apply (static_insert w _ i k (set_client k gs')); try done; rewrite client_exec; [by left | done].
  - apply store_turn_inv in E as (gs & g & h & d & _ & _ & C). by eapply client_change_static.
  - apply clear_inv in E as (gs & g & h & d & _ & _ & C). by eapply client_change_static.
  - apply cas_inv in E as (gs & gs' & h & p & d & back & _ & _ & C). by eapply client_change_static.
  - apply retire_inv in E as (gs & C). by eapply client_change_static.
  - apply drop_inv in E as (h & p & _ & ->). intros [S1 S2 S3 S4 S5 S6 S7]. by split.
  - intros S. apply (enter_static w i report_quiescent); [set_solver | done | done].
  - intros S. apply (enter_static w i advance_epoch_if_pending); [set_solver | done | done].
  - intros S. apply (enter_static w i report_idle); [set_solver | done | done].
  - intros S. apply (enter_static w i (sync_until d)); [set_solver | done | done].
  - intros S. apply (enter_static w i (poll t)); [destruct t; set_solver | done | done].
  - intros S. apply (enter_static w i run_offloaded_reclaim); [set_solver | done | done].
  - intros S. apply (enter_static w i (run_offloaded_reclaim_for v)); [| done | done]. rewrite <- (so_queues _ S). unfold run_offloaded_reclaim_for. intros f u Hf Hu. apply list_elem_of_singleton in Hf as ->. cbn in Hu. by simplify_eq.
  - unfold set_reclaim_offload in E. destruct (_ && _) eqn:B; [| done]. injection E as <-. reflect. intros [S1 S2 S3 S4 S5 S6 S7]. by split.
  - intros [S1 S2 S3 S4 S5 S6 S7]. by split.
Qed.

Lemma start_static ncpus cs : static_ok (world_start ncpus cs).
Proof.
  split; cbn; rewrite ?length_replicate; try done.
  - intros i k f v Ek Hf. apply lookup_replicate in Ek as [-> _]. by apply elem_of_nil in Hf.
  - intros v o Ev. by apply lookup_replicate in Ev as [-> _].
  - intros v o Ev. by apply lookup_replicate in Ev as [-> _].
Qed.

Lemma reachable_static strict ncpus cs w : reachable strict ncpus cs w -> static_ok w.
Proof. induction 1 as [| w w' _ IH S _]; [apply start_static | by eapply step_static]. Qed.

(** * Properties *)

(** C12: No use after free.  When processors take guards, and retire allocations
    of their own, only while they take part in grace periods, and a cell goes out
    of scope only while no live guard holds what it points to, then in every
    interleaving, with interrupts and destructors nested at any point, the
    destructor of an allocation that a live guard has reached has not run. *)
Theorem rcu_no_use_after_free ncpus cs w i g n : reachable true ncpus cs w -> guard_on w i g -> n ∈ g.(seen) -> ~ n ∈ w.(freed).
Proof.
  intros R Hg Hn. destruct (rcu_reachable_ok ncpus cs w R) as [Ok _]. destruct Hg as (k & Ek & Hk). destruct (own_cell w i k Ok Ek) as [c Ec].
  apply (safe_not_freed w (last_quiescent c)); [apply Ok |]. apply (ro_seen _ Ok i c n Ec). exists g. split; [by exists k | done].
Qed.

(** C13: Nothing is lost and nothing is freed twice, whether or not processors
    pin and retire only while they take part (cells are dropped unread).  The
    allocations made so far are, each exactly once, those linked in a cell, those
    retired and still in a bucket, a queue or the hands of a function, and those
    whose destructor ran. *)
Theorem rcu_every_allocation_once strict ncpus cs w : reachable strict ncpus cs w ->
  Permutation (List.seq 0 w.(heap).(next_node)) (linked w.(heap) ++ pending w ++ w.(freed)).
Proof.
  intros R. pose proof (reachable_accounted _ _ _ _ R) as A. apply (Permutation_count_occ Nat.eq_dec). intros n. specialize (A n). unfold cnt, places in A. rewrite A.
  destruct (Nat.ltb_spec n (next_node (heap w))) as [L | L].
  - apply NoDup_count_occ'; [apply seq_NoDup | apply in_seq; lia].
  - apply count_occ_not_In. rewrite in_seq. lia.
Qed.

(** C31: A wait that succeeds has waited long enough.  When processors take
    guards, and retire allocations of their own, only while they take part in
    grace periods, then from the moment [sync_until] or the future finds every
    processor past its target until it returns, every live guard anywhere was
    taken after the target was published: the readers it had to wait for are gone.
    A guard on a processor that does not take part is not waited for. *)
Theorem rcu_grace_period ncpus cs w i k t : reachable true ncpus cs w -> w.(ctl) !! i = Some k -> SyncDone t ∈ k.(exec) \/ PollDone t ∈ k.(exec) ->
  t <= w.(q).(GLOBAL_EPOCH) /\ forall j g, guard_on w j g -> t <= g.(g_epoch).
Proof.
  intros R Ek Hf. destruct (rcu_reachable_ok ncpus cs w R) as [Ok _]. destruct (own_cell w i k Ok Ek) as [c Ec].
  pose proof (co_calls _ _ _ _ _ (ro_cpus _ Ok i c k Ec Ek)) as F. rewrite Forall_forall in F.
  assert (H : t <= GLOBAL_EPOCH (q w) /\ forall m, pinned_since (guard_on w) m t) by (by destruct Hf as [Hf | Hf]; apply (F _ Hf)).
  destruct H as [L P]. split; [done |]. intros j g Hg. apply (P (S j) j g); [lia | done].
Qed.

(** C32: Expired allocations handed to a worker are not forgotten.  Whenever a
    worker's queue is not empty, the worker has a wake-up it has not started to
    serve, or a processor is about to wake it, or one is about to detach the
    queue. *)
Theorem rcu_worker_woken strict ncpus cs w v o : reachable strict ncpus cs w -> w.(q).(OFFLOADED) !! v = Some o -> o.(q_head) <> [] ->
  v ∈ w.(wakes) \/ exists i k, w.(ctl) !! i = Some k /\ (OffKick v ∈ k.(exec) \/ TakeHead v ∈ k.(exec)).
Proof.
  intros R Ev Hn. pose proof (reachable_static _ _ _ _ R) as S. destruct (so_served _ S v o Ev Hn) as [K | H]; [left; by apply (so_kicked _ S v o) | by right].
Qed.

(** Nothing panics and nothing is stuck: whatever function or retirement is
    under way on a processor has a next step, at any clock reading and whether or
    not its compare-and-exchange fails; no index is out of range. *)
Lemma rcu_never_stuck strict ncpus cs w i k clock sp : reachable strict ncpus cs w -> w.(ctl) !! i = Some k ->
  (k.(nested) = [] -> k.(exec) <> [] -> call_turn w i clock sp <> None) /\ (forall d r, k.(nested) = NDefer d :: r -> defer_turn w i <> None).
Proof.
  intros R Ek. pose proof (reachable_static _ _ _ _ R) as [S1 S2 S3 S4 S5 S6 S7]. destruct (lookup_lt_is_Some_2 (CPUS (q w)) i) as [c Ec]; [rewrite <- S1; by eapply lookup_lt_Some |]. split.
  - intros En Hx. unfold call_turn. rewrite Ek, En. destruct (exec k) as [| f r] eqn:Ex; [done |].
    assert (N : call_step (q w) i f clock sp <> None); [| by destruct (call_step _ _ _ _ _) as [[[]]|]].
    assert (Q : forall v, worker_of f = Some v -> is_Some (OFFLOADED (q w) !! v)) by (intros v Hv; apply lookup_lt_is_Some; rewrite S2; apply (S5 i k f); [done | rewrite Ex; by left | done]).
    assert (C : is_Some (count_stalled 64 (stalled_cpu_mask (q w) clock STALL_WARN_NS) (STUCK_QUIESCENT_CPU (q w)))).
    { destruct (count_stalled_total 64 (stalled_cpu_mask (q w) clock STALL_WARN_NS) (STUCK_QUIESCENT_CPU (q w)) 0) as (r' & E' & _); [apply stalled_nonneg | | lia | by exists r'].
      intros j Hj B. destruct (stalled_bits _ _ _ _ Hj B). lia. }
    open_call. rewrite Ec. destruct f; try (destruct (Q _ eq_refl) as [o ->]); try destruct C as [st ->]; repeat case_match; simplify_eq; done.
  - intros d r En. unfold defer_turn. rewrite Ek, En. destruct d; cbn; [done | by rewrite Ec].
Qed.

(** * Runs *)

Inductive Event : Type :=
  | EEnter (i : nat) (fs : list Call)
  | ECalls (i n : nat)
  | EPin (i : nat)
  | EUnpin (i j : nat)
  | ELoad (i j c : nat)
  | EStore (i j c : nat)
  | EOffload (n : Z).

(** The functions a task may enter in a run. *)
Definition public (fs : list Call) : bool := match fs with [RqLoadReaders] | [AdvLen] | [IdleReaders] | [SyncReaders _] => true | _ => false end.

Definition widthb (w : World) : bool :=
  (w.(q).(GLOBAL_EPOCH) <? INACTIVE) && forallb (fun k => Z.of_nat (length (guards_of k)) <? 2 ^ 64) w.(ctl).

Definition takes_partb (w : World) (i : nat) : bool := match w.(q).(CPUS) !! i with Some c => negb (c.(last_quiescent) =? INACTIVE) | None => false end.

(** Calls of a function or of a retirement, one after the other, at time 0. *)
Fixpoint turns (i n : nat) (w : World) : option World :=
  match n with
  | O => Some w
  | S n => let* next := match defer_turn w i with Some next => Some next | None => call_turn w i 0 false end in if widthb next then turns i n next else None
  end.

Definition event (strict : bool) (v : Event) (w : World) : option World :=
  match v with
  | EEnter i fs => if public fs then enter w i fs else None
  | ECalls i n => turns i n w
  | EPin i => if negb strict || takes_partb w i then pin_turn w i else None
  | EUnpin i j => unpin_turn w i j
  | ELoad i j c => load_turn w i j c
  | EStore i j c => store_turn w i j c
  | EOffload n => let* next := set_reclaim_offload w.(q) n in Some (with_q w next)
  end.

Fixpoint run (strict : bool) (l : list Event) (w : World) : option World :=
  match l with
  | [] => Some w
  | v :: l => let* next := event strict v w in if widthb next then run strict l next else None
  end.

Lemma widthb_ok w : widthb w = true -> in_width w.
Proof.
  unfold widthb. rewrite andb_true_iff, Z.ltb_lt, forallb_forall. intros [L F]. split; [done |]. intros i k Ek. apply Z.ltb_lt, F, list_elem_of_In. by eapply list_elem_of_lookup_2.
Qed.

Lemma rcu_turns_reachable strict ncpus cs i n w w' : reachable strict ncpus cs w -> turns i n w = Some w' -> reachable strict ncpus cs w'.
Proof.
  revert w. induction n as [| n IH]; intros w R E; cbn in E; [by simplify_eq |].
  assert (S : forall next, match defer_turn w i with Some next => Some next | None => call_turn w i 0 false end = Some next -> step strict w next).
  { intros next H. destruct (defer_turn w i) eqn:Ed; [simplify_eq; by apply step_defer with i | by eapply step_call]. }
  destruct (match defer_turn w i with Some _ => _ | None => _ end) as [next |]; [| done]. destruct (widthb next) eqn:W; [| done].
  apply (IH next); [| done]. apply (reachable_step _ _ _ w); [done | by apply S | by apply widthb_ok].
Qed.

Lemma event_step strict v w w' : (forall i n, v <> ECalls i n) -> event strict v w = Some w' -> step strict w w'.
Proof.
  intros N E. destruct v as [i fs | i n | i | i j | i j c | i j c | n]; cbn in E; [| by destruct (N i n) | | by eapply step_unpin | by eapply step_load | by eapply step_store |].
  - destruct fs as [| [] [|]]; cbn in E; try done; [by eapply step_report_quiescent | by eapply step_advance | by eapply step_report_idle | by eapply step_sync].
  - destruct (negb strict || takes_partb w i) eqn:B; [| done]. apply (step_pin _ _ i); [| done]. intros ->. unfold takes_partb, taking_part in *. cbn in B. destruct (CPUS (q w) !! i) as [c |]; [| done]. exists c. split; [done |]. by apply negb_true_iff, Z.eqb_neq in B.
  - destruct (set_reclaim_offload (q w) n) eqn:Es; [| done]. simplify_eq. by eapply step_set_offload.
Qed.

Lemma run_reachable strict ncpus cs l w w' : reachable strict ncpus cs w -> run strict l w = Some w' -> reachable strict ncpus cs w'.
Proof.
  revert w. induction l as [| v l IH]; intros w R E; cbn in E; [by simplify_eq |]. destruct (event strict v w) as [next |] eqn:Ev; [| done]. destruct (widthb next) eqn:W; [| done]. apply (IH next); [| done].
  destruct v as [i fs | i n | i | i j | i j c | i j c | n]; [| by eapply rcu_turns_reachable | ..]; (apply (reachable_step _ _ _ w); [done | eapply event_step; [| exact Ev]; done | by apply widthb_ok]).
Qed.

Definition report (i n : nat) : list Event := [EEnter i [RqLoadReaders]; ECalls i n].

(** Processor 0 publishes allocation 0; processor 1 takes a guard and loads it;
    processor 0 replaces it, opens the next epoch and reports. *)
Definition replace : list Event := [EPin 0; EStore 0 0 0; EUnpin 0 0; EPin 1; ELoad 1 0 0; EPin 0; EStore 0 0 0; ECalls 0 2; EUnpin 0 0; EEnter 0 [AdvLen]; ECalls 0 4].



Definition held_end : World := Eval vm_compute in default (world_start 2 1) (run true (report 0 10 ++ report 1 10 ++ replace) (world_start 2 1)).

Lemma held_reachable : reachable true 2 1 held_end.
Proof. apply (run_reachable true 2 1 (report 0 10 ++ report 1 10 ++ replace) (world_start 2 1)); [apply reachable_start | by vm_compute]. Qed.

(** Dropping a cell frees what it points to at once, whether or not a guard holds
    it; that no guard does is up to the client. *)
Lemma rcu_cell_drop_unsafe : exists w w' i c g n, reachable true 2 1 w /\ drop_turn w i c = Some w' /\ guard_on w' 1 g /\ n ∈ g.(seen) /\ n ∈ w'.(freed).
Proof.
  set (l := report 0 10 ++ report 1 10 ++ [EPin 0; EStore 0 0 0; EUnpin 0 0; EPin 1; ELoad 1 0 0]). destruct (run true l (world_start 2 1)) as [w |] eqn:E; [| by vm_compute in E].
  exists w. destruct (drop_turn w 0 0) as [w' |] eqn:Ed; vm_compute in E; injection E as <-; vm_compute in Ed; [injection Ed as <- | done].
  eexists _, 0%nat, 0%nat, (mk_guard 1 [0%nat]), 0%nat. split_and!; [apply (run_reachable true 2 1 l (world_start 2 1)); [apply reachable_start | by vm_compute] | by vm_compute | eexists; split; [reflexivity | by left] | by left | by left].
Qed.

Lemma rcu_no_use_after_free_witness : ~ 0%nat ∈ held_end.(freed).
Proof.
  apply (rcu_no_use_after_free 2 1 held_end 1 (mk_guard 1 [0%nat]) 0%nat held_reachable); [| by left]. eexists. split; [reflexivity |]. by left.
Defined.

Lemma rcu_every_allocation_once_witness : Permutation [0; 1]%nat (linked held_end.(heap) ++ pending held_end ++ held_end.(freed)).
Proof. exact (rcu_every_allocation_once true 2 1 held_end held_reachable). Defined.

(** Processor 1 holds a guard of epoch 1 when processor 0 asks for a grace period:
    processor 0 goes round.  The guard is dropped, processor 1 reports and takes
    another one; then processor 0 finds both past its target. *)
Definition wait_for_reader : list Event :=
  report 0 10 ++ report 1 10 ++ [EPin 1; EEnter 0 [SyncReaders 5]; ECalls 0 20; EUnpin 1 0] ++ report 1 10 ++ [EPin 1; ECalls 0 8].

Definition synced : World := Eval vm_compute in default (world_start 2 1) (run true wait_for_reader (world_start 2 1)).

Lemma synced_reachable : reachable true 2 1 synced.
Proof. apply (run_reachable true 2 1 wait_for_reader (world_start 2 1)); [apply reachable_start | by vm_compute]. Qed.

Lemma rcu_grace_period_witness : exists g, guard_on synced 1 g /\ 2 <= g.(g_epoch).
Proof.
  exists (mk_guard 2 []). assert (G : guard_on synced 1 (mk_guard 2 [])) by (eexists; split; [reflexivity |]; by left). split; [exact G |].
  refine (proj2 (rcu_grace_period 2 1 synced 0 _ 2 synced_reachable eq_refl (or_introl _)) 1%nat _ G). right. right. by left.
Defined.

Lemma rcu_never_stuck_witness : call_turn synced 0 7 true <> None.
Proof. refine (proj1 (rcu_never_stuck true 2 1 synced 0 _ 7 true synced_reachable eq_refl) eq_refl _). done. Defined.

(** A worker's queue with an expired allocation, just pushed. *)
Definition pushed : World := Eval vm_compute in default (world_start 1 1)
  (run true (EOffload 1 :: report 0 9 ++ [EPin 0; EStore 0 0 0; EStore 0 0 0; ECalls 0 2; EUnpin 0 0; EEnter 0 [AdvLen]; ECalls 0 4] ++ report 0 12) (world_start 1 1)).

Lemma pushed_reachable : reachable true 1 1 pushed.
Proof.
  apply (run_reachable true 1 1 (EOffload 1 :: report 0 9 ++ [EPin 0; EStore 0 0 0; EStore 0 0 0; ECalls 0 2; EUnpin 0 0; EEnter 0 [AdvLen]; ECalls 0 4] ++ report 0 12) (world_start 1 1)); [apply reachable_start | by vm_compute].
Qed.

Lemma rcu_worker_woken_witness : 0%nat ∈ pushed.(wakes) \/ exists i k, pushed.(ctl) !! i = Some k /\ (OffKick 0 ∈ k.(exec) \/ TakeHead 0 ∈ k.(exec)).
Proof. refine (rcu_worker_woken true 1 1 pushed 0 _ pushed_reachable eq_refl _). done. Defined.
