(* ===== verification/RcuHazard.v ===== *)
(** Hazard pointers ([rcu/src/hazard.rs]): a domain with one slot for each
    processor and one list of retired allocations, and processors that interleave.

    Each atomic access is one step.  Under the flag of the retire list the entries
    belong to the holder, so the walk of a scan takes them as its own list and
    writes the survivors back.  An allocation is a number that is never used
    again; a null pointer is [None].  Whether a compare-and-exchange of the weak
    kind fails although the values agree is an argument of the step. *)

From S2P Require Import Prelude Word.

Definition RETIRE_CAP : nat := 256.
Definition RETIRE_THRESHOLD : nat := 16.

Record HazardDomain : Type := mk_domain {
  hslots : list (option nat);
  busy : bool;
  entries : list nat;
  overflow : Z
}.

(** The program points: [reader_acquire], [reader_release], [retire], [scan]. *)
Inductive HazardCall : Type :=
  | AcqLoad (p : nat)
  | AcqPublish (p candidate : nat)
  | AcqRecheck (p candidate : nat)
  | AcqClear
  | RelStore
  | RetLock (n : nat)
  | RetPush (n : nat)
  | RetUnlock (should_scan : bool)
  | ScanSlot (i : nat) (hazards : list nat)
  | ScanLock (hazards : list nat)
  | ScanWalk (hazards todo kept : list nat)
  | ScanUnlock.

(** What a step does outside the domain: [reader_acquire] returns, a destructor
    runs, a retirement finds the list full. *)
Inductive HazardEffect : Type :=
  | HQuiet
  | HAcquired (n : option nat)
  | HDropped (n : nat)
  | HOverflow (n : nat).

Module hazard.
Implicit Types d : HazardDomain.

Definition new (ncpus : nat) : HazardDomain := mk_domain (replicate ncpus None) false [] 0.

Definition set_hslot d i p := mk_domain (<[i := p]> d.(hslots)) d.(busy) d.(entries) d.(overflow).
Definition set_busy d b := mk_domain d.(hslots) b d.(entries) d.(overflow).
Definition set_entries d l := mk_domain d.(hslots) d.(busy) l d.(overflow).
Definition set_overflow d n := mk_domain d.(hslots) d.(busy) d.(entries) n.

(** [hazards.iter().take(h_count).any(|h| h == entry.ptr)]. *)
Definition held (hazards : list nat) (n : nat) : bool := existsb (Nat.eqb n) hazards.

(** [reader_acquire] and [reader_release] on processor [i]; [ps] are the shared
    pointers of the readers. *)
Definition reader_step d (ps : list (option nat)) (i : nat) (f : HazardCall) : option (HazardDomain * option HazardCall * HazardEffect) :=
  match f with
  | AcqLoad p =>
      let* candidate := ps !! p in
      Some (d, Some match candidate with Some n => AcqPublish p n | None => AcqClear end, HQuiet)
  | AcqClear => Some (set_hslot d i None, None, HAcquired None)
  | AcqPublish p n => Some (set_hslot d i (Some n), Some (AcqRecheck p n), HQuiet)
  | AcqRecheck p n =>
      let* recheck := ps !! p in
      if decide (recheck = Some n) then Some (d, None, HAcquired (Some n)) else Some (d, Some (AcqLoad p), HQuiet)
  | RelStore => Some (set_hslot d i None, None, HQuiet)
  | _ => None
  end.

(** [retire]: the lock, the entry or the overflow, the unlock. *)
Definition retire_step d (f : HazardCall) (spurious : bool) : option (HazardDomain * option HazardCall * HazardEffect) :=
  match f with
  | RetLock n => if d.(busy) || spurious then Some (d, Some (RetLock n), HQuiet) else Some (set_busy d true, Some (RetPush n), HQuiet)
  | RetPush n =>
      let len := length d.(entries) in
      if (len <? RETIRE_CAP)%nat then Some (set_entries d (d.(entries) ++ [n]), Some (RetUnlock (RETIRE_THRESHOLD <=? S len)%nat), HQuiet)
      else Some (set_overflow d (wrap 64 (d.(overflow) + 1)), Some (RetUnlock false), HOverflow n)
  | RetUnlock should_scan => Some (set_busy d false, if should_scan then Some (ScanSlot 0 []) else None, HQuiet)
  | _ => None
  end.

(** [scan]: the snapshot of the slots, the lock, the walk, the unlock. *)
Definition scan_step d (f : HazardCall) (spurious : bool) : option (HazardDomain * option HazardCall * HazardEffect) :=
  match f with
  | ScanSlot k hazards =>
      match d.(hslots) !! k with
      | Some p => Some (d, Some (ScanSlot (S k) (match p with Some n => hazards ++ [n] | None => hazards end)), HQuiet)
      | None => Some (d, Some (ScanLock hazards), HQuiet)
      end
  | ScanLock hazards =>
      if d.(busy) || spurious then Some (d, Some (ScanLock hazards), HQuiet)
      else Some (set_busy (set_entries d []) true, Some (ScanWalk hazards d.(entries) []), HQuiet)
  | ScanWalk hazards (n :: todo) kept =>
      if held hazards n then Some (d, Some (ScanWalk hazards todo (kept ++ [n])), HQuiet)
      else Some (d, Some (ScanWalk hazards todo kept), HDropped n)
  | ScanWalk hazards [] kept => Some (set_entries d kept, Some ScanUnlock, HQuiet)
  | ScanUnlock => Some (set_busy d false, None, HQuiet)
  | _ => None
  end.

Definition step d (ps : list (option nat)) (i : nat) (f : HazardCall) (spurious : bool) : option (HazardDomain * option HazardCall * HazardEffect) :=
  match f with
  | AcqLoad _ | AcqClear | AcqPublish _ _ | AcqRecheck _ _ | RelStore => reader_step d ps i f
  | RetLock _ | RetPush _ | RetUnlock _ => retire_step d f spurious
  | ScanSlot _ _ | ScanLock _ | ScanWalk _ _ _ | ScanUnlock => scan_step d f spurious
  end.
End hazard.

(** * The system *)

(** A processor holds at most one guard and runs at most one method. *)
Record HazardCpu : Type := mk_hcpu { hguard : option nat; hcall : option HazardCall }.

Record HazardWorld : Type := mk_hworld {
  dom : HazardDomain;
  sources : list (option nat);
  hcpus : list HazardCpu;
  hnext : nat;
  hfreed : list nat;
  leaked : list nat
}.

Definition hazard_start (ncpus ps : nat) : HazardWorld :=
  mk_hworld (hazard.new ncpus) (replicate ps None) (replicate ncpus (mk_hcpu None None)) 0 [] [].

Definition hadd_effect (w : HazardWorld) (e : HazardEffect) : HazardWorld :=
  match e with
  | HDropped n => mk_hworld w.(dom) w.(sources) w.(hcpus) w.(hnext) (n :: w.(hfreed)) w.(leaked)
  | HOverflow n => mk_hworld w.(dom) w.(sources) w.(hcpus) w.(hnext) w.(hfreed) (n :: w.(leaked))
  | _ => w
  end.

Definition hwith (w : HazardWorld) (d : HazardDomain) (i : nat) (k : HazardCpu) : HazardWorld :=
  mk_hworld d w.(sources) (<[i := k]> w.(hcpus)) w.(hnext) w.(hfreed) w.(leaked).

(** A step of the method under way. *)
Definition hazard_turn (w : HazardWorld) (i : nat) (spurious : bool) : option HazardWorld :=
  let* k := w.(hcpus) !! i in
  let* f := k.(hcall) in
  let* (d, f', e) := hazard.step w.(dom) w.(sources) i f spurious in
  Some (hadd_effect (hwith w d i (mk_hcpu (match e with HAcquired n => n | _ => k.(hguard) end) f')) e).

(** The client of a processor calls a method; a guard is gone once its
    destructor starts. *)
Definition hazard_call (w : HazardWorld) (i : nat) (g : option nat) (f : HazardCall) : HazardWorld := hwith w w.(dom) i (mk_hcpu g (Some f)).

(** A writer replaces a shared pointer by a new allocation and retires the old. *)
Definition replace_source (w : HazardWorld) (i p : nat) : option HazardWorld :=
  let* k := w.(hcpus) !! i in
  let* old := w.(sources) !! p in
  match k.(hcall) with
  | Some _ => None
  | None => Some (mk_hworld w.(dom) (<[p := Some w.(hnext)]> w.(sources)) (<[i := mk_hcpu k.(hguard) (RetLock <$> old)]> w.(hcpus)) (S w.(hnext)) w.(hfreed) w.(leaked))
  end.

(** A scan that has not locked the list yet. *)
Definition scanning (f : HazardCall) : bool := match f with ScanSlot _ _ | ScanLock _ => true | _ => false end.
Definition no_scan (w : HazardWorld) : Prop := Forall (fun k => forall f, k.(hcall) = Some f -> scanning f = false) w.(hcpus).

(** With [strict], no retirement reaches the list while a scan reads the slots. *)
Inductive hazard_step (strict : bool) (w : HazardWorld) : HazardWorld -> Prop :=
  | hazard_run i spurious w' : (forall k n, strict = true -> w.(hcpus) !! i = Some k -> k.(hcall) = Some (RetPush n) -> no_scan w) ->
      hazard_turn w i spurious = Some w' -> hazard_step strict w w'
  | hazard_acquire i p : w.(hcpus) !! i = Some (mk_hcpu None None) -> (p < length w.(sources))%nat -> hazard_step strict w (hazard_call w i None (AcqLoad p))
  | hazard_release i n : w.(hcpus) !! i = Some (mk_hcpu (Some n) None) -> hazard_step strict w (hazard_call w i None RelStore)
  | hazard_scan i g : w.(hcpus) !! i = Some (mk_hcpu g None) -> hazard_step strict w (hazard_call w i g (ScanSlot 0 []))
  | hazard_replace i p w' : replace_source w i p = Some w' -> hazard_step strict w w'.

Inductive hazard_reachable (strict : bool) (ncpus ps : nat) : HazardWorld -> Prop :=
  | hazard_reachable_start : hazard_reachable strict ncpus ps (hazard_start ncpus ps)
  | hazard_reachable_step w w' : hazard_reachable strict ncpus ps w -> hazard_step strict w w' -> hazard_reachable strict ncpus ps w'.
