(* ===== verification/RcuHazardSound.v ===== *)
(** Hazard pointers: the flag of the retire list excludes, every allocation is in
    one place, and what a guard names is not freed while nothing is retired between
    the snapshot of a scan and its walk; what one scan does; and the run in which a
    scan frees a guarded allocation. *)

From Stdlib Require Import Permutation.
From S2P Require Import Prelude Word RcuQsbr RcuSystem RcuHazard.

(** * Places *)

Definition walk_nodes (f : HazardCall) : list nat := match f with ScanWalk _ todo kept => todo ++ kept | _ => [] end.
Definition retire_nodes (f : HazardCall) : list nat := match f with RetLock n | RetPush n => [n] | _ => [] end.
Definition on_call (g : HazardCall -> list nat) (k : HazardCpu) : list nat := match k.(hcall) with Some f => g f | None => [] end.

Definition walked (w : HazardWorld) : list nat := concat (on_call walk_nodes <$> w.(hcpus)).
Definition retiring (w : HazardWorld) : list nat := concat (on_call retire_nodes <$> w.(hcpus)).
Definition hretired (w : HazardWorld) : list nat := w.(dom).(entries) ++ walked w.
Definition hlinked (w : HazardWorld) : list nat := omap id w.(sources).
Definition hplaces (w : HazardWorld) : list nat := hlinked w ++ retiring w ++ hretired w ++ w.(hfreed) ++ w.(leaked).

Definition haccounted (w : HazardWorld) : Prop := forall n, cnt n (hplaces w) = (if (n <? w.(hnext))%nat then 1 else 0)%nat.

(** * The flag *)

Definition holder (f : HazardCall) : bool := match f with RetPush _ | RetUnlock _ | ScanWalk _ _ _ | ScanUnlock => true | _ => false end.
Definition walking (f : HazardCall) : bool := match f with ScanWalk _ _ _ => true | _ => false end.

Definition runs (w : HazardWorld) (i : nat) (f : HazardCall) : Prop := exists k, w.(hcpus) !! i = Some k /\ k.(hcall) = Some f.

Record flag_ok (w : HazardWorld) : Prop := {
  flag_held i f : runs w i f -> holder f = true -> w.(dom).(busy) = true;
  flag_one i j f g : runs w i f -> runs w j g -> holder f = true -> holder g = true -> i = j;
  flag_walk i f : runs w i f -> walking f = true -> w.(dom).(entries) = []
}.

Lemma hazard_turn_inv w i sp w' : hazard_turn w i sp = Some w' -> exists k f d f' e,
  w.(hcpus) !! i = Some k /\ k.(hcall) = Some f /\ hazard.step w.(dom) w.(sources) i f sp = Some (d, f', e) /\
  w' = hadd_effect (hwith w d i (mk_hcpu (match e with HAcquired n => n | _ => k.(hguard) end) f')) e.
Proof.
  unfold hazard_turn. destruct (hcpus w !! i) as [k |] eqn:Ek; [| done]. simpl. destruct (hcall k) as [f |] eqn:Ef; [| done]. simpl.
  destruct (hazard.step _ _ _ _ _) as [[[d f'] e] |] eqn:Es; [| done]. simpl. intros [= <-]. by exists k, f, d, f', e.
Qed.

Lemma replace_inv w i p w' : replace_source w i p = Some w' -> exists k old, w.(hcpus) !! i = Some k /\ k.(hcall) = None /\ w.(sources) !! p = Some old /\
  w' = mk_hworld w.(dom) (<[p := Some w.(hnext)]> w.(sources)) (<[i := mk_hcpu k.(hguard) (RetLock <$> old)]> w.(hcpus)) (S w.(hnext)) w.(hfreed) w.(leaked).
Proof.
  unfold replace_source. destruct (hcpus w !! i) as [k |] eqn:Ek; [| done]. simpl. destruct (sources w !! p) as [old |] eqn:Ep; [| done]. simpl.
  destruct (hcall k) eqn:Ec; [done |]. intros [= <-]. by exists k, old.
Qed.

Lemma effect_fields w e : (hadd_effect w e).(dom) = w.(dom) /\ (hadd_effect w e).(hcpus) = w.(hcpus) /\ (hadd_effect w e).(sources) = w.(sources) /\ (hadd_effect w e).(hnext) = w.(hnext).
Proof. by destruct e. Qed.

Lemma runs_insert w w' i k k' j f : w.(hcpus) !! i = Some k -> w'.(hcpus) = <[i := k']> w.(hcpus) ->
  runs w' j f -> (j = i /\ k'.(hcall) = Some f) \/ (j <> i /\ runs w j f).
Proof.
  intros Ek E (x & Ex & Ef). rewrite E in Ex. destruct (decide (j = i)) as [-> | N].
  - rewrite list_lookup_insert_eq in Ex by (by apply lookup_lt_Some in Ek). simplify_eq. by left.
  - rewrite list_lookup_insert_ne in Ex by done. right. split; [done |]. by exists x.
Qed.

(** A step that takes or keeps the flag, and one that does not hold it after. *)
Lemma flag_change w w' i k k' : w.(hcpus) !! i = Some k -> w'.(hcpus) = <[i := k']> w.(hcpus) ->
  (forall f, k'.(hcall) = Some f -> holder f = true -> w'.(dom).(busy) = true /\ (w.(dom).(busy) = false \/ exists g, k.(hcall) = Some g /\ holder g = true)) ->
  (w.(dom).(busy) = true -> w'.(dom).(busy) = true \/ exists g, k.(hcall) = Some g /\ holder g = true) ->
  (forall f, k'.(hcall) = Some f -> walking f = true -> w'.(dom).(entries) = []) ->
  (w'.(dom).(entries) = w.(dom).(entries) \/ w'.(dom).(entries) = [] \/ exists g, k.(hcall) = Some g /\ holder g = true) -> flag_ok w -> flag_ok w'.
Proof.
  intros Ek E H1 H2 H3 H4 [A B C].
  assert (own : forall g, k.(hcall) = Some g -> runs w i g) by (intros g Eg; by exists k).
  assert (no : forall j f, j <> i -> runs w j f -> holder f = true -> w'.(dom).(busy) = true /\ ~ exists g, k.(hcall) = Some g /\ holder g = true).
  { intros j f N R Hf. assert (~ exists g, k.(hcall) = Some g /\ holder g = true) as X by (intros (g & Eg & Hg); apply N; eauto).
    split; [| done]. destruct (H2 (A _ _ R Hf)); [done | by exfalso]. }
  split.
  - intros j f R Hf. destruct (runs_insert _ _ _ _ _ _ _ Ek E R) as [[-> Ef] | [N R']]; [by apply H1 with f | by apply (no j f)].
  - intros j l f g R S Hf Hg.
    destruct (runs_insert _ _ _ _ _ _ _ Ek E R) as [[-> Ef] | [N R']], (runs_insert _ _ _ _ _ _ _ Ek E S) as [[-> Eg] | [N' S']]; [done | | | by eapply B].
    + destruct (H1 f Ef Hf) as [_ [X | X]]; [rewrite (A _ _ S' Hg) in X; done | by apply (no l g N' S') in X].
    + destruct (H1 g Eg Hg) as [_ [X | X]]; [rewrite (A _ _ R' Hf) in X; done | by apply (no j f N R') in X].
  - intros j f R Hf. destruct (runs_insert _ _ _ _ _ _ _ Ek E R) as [[-> Ef] | [N R']]; [by apply (H3 f) |].
    assert (holder f = true) as Hh by (by destruct f).
    destruct H4 as [-> | [-> | X]]; [by eapply C | done | by apply (no j f N R') in X].
Qed.

Ltac hstep E := unfold hazard.step, hazard.reader_step, hazard.retire_step, hazard.scan_step, base.mbind, option_bind in E; repeat (case_match; simplify_eq); simplify_eq.

Lemma hazard_step_flag strict w w' : hazard_step strict w w' -> flag_ok w -> flag_ok w'.
Proof.
  intros S F. destruct S as [i sp w' _ T | i p E _ | i n E | i g E | i p w' T].
  - destruct (hazard_turn_inv _ _ _ _ T) as (k & f & d & f' & e & Ek & Ef & Es & ->). destruct (effect_fields (hwith w d i (mk_hcpu (match e with HAcquired n => n | _ => k.(hguard) end) f')) e) as (E1 & E2 & _).
    eapply (flag_change w _ i k); [done | exact E2 | rewrite E1.. | done]; simpl; clear E1 E2 T;
      pose proof (flag_walk _ F i f ltac:(by exists k)) as W; pose proof (flag_held _ F i f ltac:(by exists k)) as A; hstep Es; simpl in *; try (intros ? [= <-]); simpl;
      repeat match goal with H : (_ || _)%bool = false |- _ => apply orb_false_iff in H as [? ?] end;
      naive_solver.
  - eapply (flag_change w _ i _ _); [exact E | done | simpl; naive_solver..].
  - eapply (flag_change w _ i _ _); [exact E | done | simpl; naive_solver..].
  - eapply (flag_change w _ i _ _); [exact E | done | simpl; naive_solver..].
  - destruct (replace_inv _ _ _ _ T) as (k & old & Ek & Ec & Ep & ->). eapply (flag_change w _ i k); [done | done | simpl..|done]; destruct old; simpl; naive_solver.
Qed.

(** * Accounting *)

Lemma hplaces_count n w : cnt n (hplaces w) =
  (cnt n (hlinked w) + cnt n (retiring w) + cnt n w.(dom).(entries) + cnt n (walked w) + cnt n w.(hfreed) + cnt n w.(leaked))%nat.
Proof. unfold hplaces, hretired. rewrite !cnt_app. lia. Qed.

Lemma turn_count n w i sp w' : hazard_turn w i sp = Some w' -> flag_ok w -> cnt n (hplaces w') = cnt n (hplaces w).
Proof.
  intros T F. destruct (hazard_turn_inv _ _ _ _ T) as (k & f & d & f' & e & Ek & Ef & Es & ->).
  pose proof (flag_walk _ F i f ltac:(by exists k)) as W. clear T.
  set (k' := mk_hcpu _ f').
  pose proof (cnt_concat_insert n (on_call walk_nodes) _ _ _ k' Ek) as X. pose proof (cnt_concat_insert n (on_call retire_nodes) _ _ _ k' Ek) as Y.
  rewrite !hplaces_count. unfold walked, retiring, hlinked. unfold on_call in X at 2 4, Y at 2 4. rewrite Ef in X, Y. subst k'. cbn [hcall] in X, Y.
  hstep Es; cbn [walk_nodes retire_nodes walking] in *;
    cbn [hadd_effect hwith dom hcpus sources hfreed leaked entries hazard.set_hslot hazard.set_busy hazard.set_entries hazard.set_overflow] in *;
    try rewrite !(W eq_refl); try case_match; rewrite ?cnt_app, ?cnt_cons, ?cnt_nil in *; lia.
Qed.

Lemma hazard_step_accounted strict w w' : hazard_step strict w w' -> flag_ok w -> haccounted w -> haccounted w'.
Proof.
  intros S F A n. specialize (A n).
  assert (call : forall i k g f, w.(hcpus) !! i = Some k -> k.(hcall) = None -> walk_nodes f = [] -> retire_nodes f = [] ->
    cnt n (hplaces (hazard_call w i g f)) = cnt n (hplaces w)).
  { intros i k g f E Ec Ew Er. rewrite !hplaces_count. unfold walked, retiring, hlinked, hazard_call, hwith. simpl.
    pose proof (cnt_concat_insert n (on_call walk_nodes) _ _ _ (mk_hcpu g (Some f)) E) as X. pose proof (cnt_concat_insert n (on_call retire_nodes) _ _ _ (mk_hcpu g (Some f)) E) as Y.
    unfold on_call in X at 2 4, Y at 2 4. rewrite Ec in X, Y. simpl in X, Y. rewrite Ew in X. rewrite Er in Y. lia. }
  destruct S as [i sp w' _ T | i p E _ | i m E | i g E | i p w' T].
  - rewrite (turn_count n _ _ _ _ T F), A. destruct (hazard_turn_inv _ _ _ _ T) as (k & f & d & f' & e & _ & _ & _ & ->). by destruct e.
  - by rewrite (call _ _ _ _ E), A.
  - by rewrite (call _ _ _ _ E), A.
  - by rewrite (call _ _ _ _ E), A.
  - destruct (replace_inv _ _ _ _ T) as (k & old & Ek & Ec & Ep & ->). rewrite hplaces_count in *. simpl. unfold walked, retiring, hlinked in *. simpl.
    pose proof (linked_insert n _ _ _ (Some w.(hnext)) Ep) as L. set (k' := mk_hcpu k.(hguard) (RetLock <$> old)).
    pose proof (cnt_concat_insert n (on_call walk_nodes) _ _ _ k' Ek) as X. pose proof (cnt_concat_insert n (on_call retire_nodes) _ _ _ k' Ek) as Y.
    unfold on_call in X at 2 4, Y at 2 4. rewrite Ec in X, Y. subst k'. destruct old; simpl in *; rewrite ?cnt_cons, ?cnt_nil in *;
      destruct (Nat.eq_dec (hnext w) n), (Nat.ltb_spec n (hnext w)), (Nat.ltb_spec n (S (hnext w))); lia.
Qed.

Lemma hazard_start_count n ncpus ps : cnt n (hplaces (hazard_start ncpus ps)) = 0%nat.
Proof.
  rewrite hplaces_count. unfold walked, retiring, hlinked. simpl. rewrite !cnt_nil.
  assert (forall g, cnt n (concat (on_call g <$> replicate ncpus (mk_hcpu None None))) = 0%nat) as R by (intros g; by induction ncpus).
  rewrite !R. assert (cnt n (omap id (replicate ps None)) = 0%nat) as -> by (by induction ps). done.
Qed.

Lemma hazard_start_flag ncpus ps : flag_ok (hazard_start ncpus ps).
Proof. split; intros i; intros; repeat match goal with H : runs _ _ _ |- _ => destruct H as (? & [-> _]%lookup_replicate & ?) end; done. Qed.

Lemma hazard_accounted strict ncpus ps w : hazard_reachable strict ncpus ps w -> flag_ok w /\ haccounted w.
Proof.
  induction 1 as [| w w' R [F A] S].
  - split; [apply hazard_start_flag |]. intros n. rewrite hazard_start_count. by destruct n.
  - split; [by eapply hazard_step_flag | by eapply hazard_step_accounted].
Qed.

Lemma haccounted_once w n l l' : haccounted w -> (forall m, cnt m l + cnt m l' <= cnt m (hplaces w))%nat -> n ∈ l -> n ∈ l' -> False.
Proof. intros A H H1%cnt_pos H2%cnt_pos. specialize (H n). rewrite A in H. case_match; lia. Qed.

(** * Guards *)

(** What a scan knows of allocation [n], which processor [j] guards. *)
Definition hsees (w : HazardWorld) (j n : nat) (f : HazardCall) : Prop :=
  match f with
  | ScanSlot i hazards => (j < i)%nat -> n ∈ hretired w -> n ∈ hazards
  | ScanLock hazards => n ∈ hretired w -> n ∈ hazards
  | ScanWalk hazards todo _ => n ∈ todo -> n ∈ hazards
  | _ => True
  end.

Definition protected (w : HazardWorld) (j n : nat) : Prop := ~ n ∈ w.(hfreed) /\ forall i f, runs w i f -> hsees w j n f.

(** A guard is published in the slot; a processor that acquires has none yet. *)
Definition slot_ok (slot : option nat) (k : HazardCpu) : Prop :=
  (forall n, k.(hguard) = Some n -> slot = Some n) /\
  match k.(hcall) with
  | Some (AcqRecheck _ n) => k.(hguard) = None /\ slot = Some n
  | Some (AcqLoad _ | AcqPublish _ _ | AcqClear | RelStore) => k.(hguard) = None
  | _ => True
  end.

Record hazard_ok (w : HazardWorld) : Prop := {
  slots_ok i k : w.(hcpus) !! i = Some k -> exists s, w.(dom).(hslots) !! i = Some s /\ slot_ok s k;
  slots_all i : is_Some (w.(dom).(hslots) !! i) -> is_Some (w.(hcpus) !! i);
  guards_ok j k n : w.(hcpus) !! j = Some k -> k.(hguard) = Some n -> protected w j n
}.

Lemma held_spec hazards n : hazard.held hazards n = true <-> n ∈ hazards.
Proof.
  unfold hazard.held. rewrite existsb_exists. setoid_rewrite Nat.eqb_eq. split; [intros (x & H & ->); by apply list_elem_of_In | intros H%list_elem_of_In; by exists n].
Qed.

Lemma runs_nodes g w i f n : runs w i f -> n ∈ g f -> n ∈ concat (on_call g <$> w.(hcpus)).
Proof.
  intros (k & Ek & Ef) H. rewrite list_elem_of_In. apply in_concat. exists (on_call g k). split; [| unfold on_call; rewrite Ef; by apply list_elem_of_In].
  apply list_elem_of_In, list_elem_of_fmap_2. by eapply list_elem_of_lookup_2.
Qed.

(** What is linked is neither retired nor freed, so a new guard on it is safe. *)
Lemma linked_protected w j n : haccounted w -> n ∈ hlinked w -> protected w j n.
Proof.
  intros A L. assert (R : ~ n ∈ hretired w ++ w.(hfreed)).
  { intros H. eapply (haccounted_once w n (hlinked w) (hretired w ++ w.(hfreed))); [done | | done..]. intros m. unfold hplaces. rewrite !cnt_app. lia. }
  rewrite elem_of_app in R. split; [tauto |]. intros i f Rf. destruct f; simpl; try tauto. intros H. exfalso. apply R. left. unfold hretired.
  apply elem_of_app. right. apply (runs_nodes walk_nodes _ _ _ _ Rf). simpl. apply elem_of_app. by left.
Qed.

(** A step of processor [i] keeps the protection if its own call still sees [n]. *)
Lemma protected_keep w w' i k k' j n : w.(hcpus) !! i = Some k -> w'.(hcpus) = <[i := k']> w.(hcpus) ->
  (n ∈ w'.(hfreed) -> n ∈ w.(hfreed)) -> ((n ∈ hretired w' -> n ∈ hretired w) \/ no_scan w) -> (forall f, k'.(hcall) = Some f -> hsees w' j n f) ->
  protected w j n -> protected w' j n.
Proof.
  intros Ek E Hf Hr Ho [P Q]. split; [tauto |]. intros l f R.
  destruct (runs_insert _ _ _ _ _ _ _ Ek E R) as [[-> Ef] | [N R']]; [by apply Ho |].
  specialize (Q _ _ R'). destruct Hr as [Hr | Hn]; [destruct f; simpl in *; tauto |].
  destruct R' as (x & Ex & Ef). pose proof (proj1 (Forall_lookup _ _) Hn _ _ Ex f Ef). by destruct f.
Qed.

Lemma turn_retired w i sp w' n : hazard_turn w i sp = Some w' -> flag_ok w -> (forall m, ~ runs w i (RetPush m)) -> n ∈ hretired w' -> n ∈ hretired w.
Proof.
  intros T F N. destruct (hazard_turn_inv _ _ _ _ T) as (k & f & d & f' & e & Ek & Ef & Es & ->).
  assert (R : runs w i f) by (by exists k). pose proof (flag_walk _ F i f R) as W. clear T.
  set (k' := mk_hcpu _ f'). pose proof (cnt_concat_insert n (on_call walk_nodes) _ _ _ k' Ek) as X.
  rewrite <- !cnt_pos. unfold hretired, walked. rewrite !cnt_app. unfold on_call in X at 2 4. rewrite Ef in X. subst k'. cbn [hcall] in X.
  hstep Es; try (by destruct (N n0)); cbn [walk_nodes walking] in *;
    cbn [hadd_effect hwith dom hcpus entries hazard.set_hslot hazard.set_busy hazard.set_entries hazard.set_overflow] in *;
    try rewrite !(W eq_refl); try case_match; rewrite ?cnt_app, ?cnt_cons, ?cnt_nil in *; lia.
Qed.

(** The next program point of a scan still sees a guarded allocation. *)
Lemma step_sees w w' i f sp d f' e j n : hazard.step w.(dom) w.(sources) i f sp = Some (d, Some f', e) -> runs w i f ->
  ((forall m, f <> RetPush m) -> n ∈ hretired w' -> n ∈ hretired w) -> w.(dom).(hslots) !! j = Some (Some n) -> protected w j n -> hsees w' j n f'.
Proof.
  intros Es R Hr Sl [_ P]. specialize (P _ _ R). hstep Es; simpl in *; try done.
  all: try (assert (Hr' := Hr ltac:(done)); clear Hr).
  all: try (intros; lia). all: try (intros; apply P; auto; fail).
  all: try (intros; apply P; unfold hretired; rewrite ?elem_of_cons, ?elem_of_app; tauto).
  - intros Hj Hn. apply elem_of_app. destruct (decide (j = i0)) as [-> | Nj]; [right; simplify_eq; by apply list_elem_of_singleton | left; apply P; [lia | auto]].
  - intros Hj Hn. apply P; [| auto]. destruct (decide (j = i0)) as [-> | Nj]; [simplify_eq | lia].
  - intros Hn. apply P; [| auto]. apply lookup_lt_Some in Sl. apply lookup_ge_None in H. lia.
Qed.

Lemma turn_protected w i sp w' j n : hazard_turn w i sp = Some w' -> flag_ok w -> (forall m, runs w i (RetPush m) -> no_scan w) ->
  w.(dom).(hslots) !! j = Some (Some n) -> protected w j n -> protected w' j n.
Proof.
  intros T F N Sl P. pose proof (turn_retired _ _ _ _ n T F) as Hr.
  destruct (hazard_turn_inv _ _ _ _ T) as (k & f & d & f' & e & Ek & Ef & Es & ->). set (k' := mk_hcpu _ f') in *. set (w' := hadd_effect _ e) in *.
  assert (R : runs w i f) by (by exists k).
  assert (only : (forall m, f <> RetPush m) -> n ∈ hretired w' -> n ∈ hretired w).
  { intros Nf. apply Hr. intros m (x & Ex & Ex'). simplify_eq. by eapply Nf. }
  eapply (protected_keep w w' i k k'); [done | by destruct e | | | | done].
  - intros Hn. destruct e as [| | m |]; simpl in Hn; [done | done | | done]. apply elem_of_cons in Hn as [-> | Hn]; [| done].
    destruct P as [_ P]. specialize (P _ _ R). hstep Es. simpl in P. exfalso.
    assert (hazard.held hazards m = true) by (apply held_spec, P; by left). congruence.
  - destruct f; try (left; apply only; done). right. by eapply N.
  - intros g Eg. subst k'. simpl in Eg. subst f'. by eapply step_sees.
Qed.

Lemma slot_change w w' (i : nat) (k k' : HazardCpu) (s' : option (option nat)) : w.(hcpus) !! i = Some k -> w'.(hcpus) = <[i := k']> w.(hcpus) ->
  (forall s, w.(dom).(hslots) !! i = Some s -> slot_ok s k -> slot_ok (from_option id s s') k') ->
  w'.(dom).(hslots) = match s' with Some p => <[i := p]> w.(dom).(hslots) | None => w.(dom).(hslots) end -> hazard_ok w ->
  (forall (j : nat) x, w'.(hcpus) !! j = Some x -> exists s, w'.(dom).(hslots) !! j = Some s /\ slot_ok s x) /\ (forall j, is_Some (w'.(dom).(hslots) !! j) -> is_Some (w'.(hcpus) !! j)).
Proof.
  intros Ek E Hs Ed [A B _]. destruct (A _ _ Ek) as (s & Es & Hk). pose proof (lookup_lt_Some _ _ _ Es) as L. pose proof (lookup_lt_Some _ _ _ Ek) as L'.
  split.
  - intros j x. rewrite E, Ed. destruct (decide (j = i)) as [-> | N].
    + rewrite list_lookup_insert_eq by done. intros [= <-]. destruct s' as [p |]; [rewrite list_lookup_insert_eq by done |]; eexists; split; eauto; by apply (Hs s).
    + rewrite list_lookup_insert_ne by done. intros Ex. destruct s' as [p |]; [rewrite list_lookup_insert_ne by done |]; by apply A.
  - intros j. rewrite E, Ed. rewrite !lookup_lt_is_Some, length_insert. intros H. apply lookup_lt_is_Some, B, lookup_lt_is_Some.
    destruct s'; [by rewrite length_insert in H | done].
Qed.

(** The value a step writes to the slot of its processor. *)
Definition written (f : HazardCall) : option (option nat) :=
  match f with AcqPublish _ n => Some (Some n) | AcqClear | RelStore => Some None | _ => None end.

Lemma step_slots d ps i f sp d' f' e g : hazard.step d ps i f sp = Some (d', f', e) ->
  d'.(hslots) = match written f with Some p => <[i := p]> d.(hslots) | None => d.(hslots) end /\
  (forall s, slot_ok s (mk_hcpu g (Some f)) -> slot_ok (from_option id s (written f)) (mk_hcpu (match e with HAcquired n => n | _ => g end) f')).
Proof.
  intros E. destruct f; simpl; hstep E; unfold slot_ok; simpl; (split; [done |]); try case_match; naive_solver.
Qed.

Lemma elem_of_hlinked w p n : w.(sources) !! p = Some (Some n) -> n ∈ hlinked w.
Proof. intros E. apply list_elem_of_omap. exists (Some n). split; [by eapply list_elem_of_lookup_2 | done]. Qed.

Lemma hazard_turn_ok w i sp w' : hazard_turn w i sp = Some w' -> flag_ok w -> haccounted w' -> (forall m, runs w i (RetPush m) -> no_scan w) -> hazard_ok w -> hazard_ok w'.
Proof.
  intros T F A N O. pose proof (fun j n => turn_protected _ _ _ _ j n T F N) as P.
  destruct (hazard_turn_inv _ _ _ _ T) as (k & f & d & f' & e & Ek & Ef & Es & ->). set (k' := mk_hcpu _ f') in *. set (w' := hadd_effect _ e) in *.
  destruct (effect_fields (hwith w d i k') e) as (E1 & E2 & E3 & _).
  destruct (step_slots _ _ _ _ _ _ _ _ k.(hguard) Es) as [S1 S2]. assert (mk_hcpu k.(hguard) (Some f) = k) as Hk by (rewrite <- Ef; by destruct k). rewrite Hk in S2.
  destruct (slot_change w w' i k k' (written f) Ek E2 ltac:(auto)) as [G1 G2]; [subst w'; by rewrite E1 | done |].
  split; [done | done |]. intros j kj n Ej Eg. subst w'. rewrite E2 in Ej. simpl in Ej. destruct (decide (j = i)) as [-> | Nj].
  - rewrite list_lookup_insert_eq in Ej by (by apply lookup_lt_Some in Ek). injection Ej as <-. subst k'. simpl in Eg.
    assert (e = HAcquired (Some n) \/ k.(hguard) = Some n) as [-> | Eg'] by (destruct e; naive_solver).
    + apply linked_protected; [done |]. hstep Es. by eapply (elem_of_hlinked _ p).
    + destruct (slots_ok _ O _ _ Ek) as (s & Hs & Hg & _). apply P; [rewrite Hs; f_equal; auto | by eapply guards_ok].
  - rewrite list_lookup_insert_ne in Ej by done. destruct (slots_ok _ O _ _ Ej) as (s & Hs & Hg & _). apply P; [rewrite Hs; f_equal; auto | by eapply guards_ok].
Qed.

(** A processor starts a method, with the guard it has or with none. *)
Lemma client_ok w w' i k k' : w.(hcpus) !! i = Some k -> k.(hcall) = None -> w'.(hcpus) = <[i := k']> w.(hcpus) -> w'.(dom) = w.(dom) -> w'.(hfreed) = w.(hfreed) ->
  (forall f, k'.(hcall) = Some f -> walk_nodes f = [] /\ forall j n, hsees w' j n f) -> (k'.(hguard) = None \/ k'.(hguard) = k.(hguard)) ->
  (forall s, slot_ok s k -> slot_ok s k') -> hazard_ok w -> hazard_ok w'.
Proof.
  intros Ek Ec E Ed Ef Hf Hg Hs O. destruct (slot_change w w' i k k' None Ek E ltac:(auto)) as [G1 G2]; [by rewrite Ed | done |].
  split; [done | done |]. intros j kj n Ej Eg.
  assert (P : protected w j n).
  { rewrite E in Ej. destruct (decide (j = i)) as [-> | N].
    - rewrite list_lookup_insert_eq in Ej by (by apply lookup_lt_Some in Ek). injection Ej as <-. eapply guards_ok; [done.. |]. destruct Hg; congruence.
    - rewrite list_lookup_insert_ne in Ej by done. by eapply guards_ok. }
  eapply (protected_keep w w' i k k'); [done | done | by rewrite Ef | left | by intros f Hk; apply Hf | done].
  unfold hretired, walked. rewrite Ed, E, !elem_of_app. intros [H | H]; [by left | right].
  rewrite <- cnt_pos in *. pose proof (cnt_concat_insert n (on_call walk_nodes) _ _ _ k' Ek) as X. unfold on_call in X at 2 4. rewrite Ec in X.
  destruct (hcall k') as [f |]; [destruct (Hf f eq_refl) as [W _]; rewrite W in X |]; rewrite ?cnt_nil in X; lia.
Qed.

Lemma hazard_step_ok w w' : hazard_step true w w' -> flag_ok w -> haccounted w' -> hazard_ok w -> hazard_ok w'.
Proof.
  intros S F A O. destruct S as [i sp w' N T | i p E _ | i m E | i g E | i p w' T].
  - eapply hazard_turn_ok; [done.. | | done]. intros m (k & Ek & Ec). by eapply N.
  - eapply (client_ok w _ i); [exact E | done..| | | | done]; [intros f [= <-]; done | by left | unfold slot_ok; naive_solver].
  - eapply (client_ok w _ i); [exact E | done..| | | | done]; [intros f [= <-]; done | by left | unfold slot_ok; naive_solver].
  - eapply (client_ok w _ i); [exact E | done..| | | | done]; [intros f [= <-]; split; [done | intros j n; simpl; lia] | by right | unfold slot_ok; naive_solver].
  - destruct (replace_inv _ _ _ _ T) as (k & old & Ek & Ec & Ep & ->).
    eapply (client_ok w _ i); [exact Ek | done..| | | | done]; [destruct old; intros f [= <-]; done | by right | unfold slot_ok; destruct old; naive_solver].
Qed.

Lemma hazard_start_ok ncpus ps : hazard_ok (hazard_start ncpus ps).
Proof.
  split; simpl.
  - intros i k [-> L]%lookup_replicate. exists None. rewrite lookup_replicate_2 by done. done.
  - intros i. by rewrite !lookup_lt_is_Some, !length_replicate.
  - by intros j k n [-> _]%lookup_replicate.
Qed.

Lemma hazard_reachable_ok ncpus ps w : hazard_reachable true ncpus ps w -> hazard_ok w.
Proof.
  induction 1 as [| w w' R IH S]; [apply hazard_start_ok |]. eapply hazard_step_ok; [done | | | done].
  - by eapply hazard_accounted.
  - eapply hazard_accounted. by eapply hazard_reachable_step.
Qed.

(** * One scan *)

(** [n] steps of processor [i] that no other processor interrupts. *)
Fixpoint hturns (i n : nat) (w : HazardWorld) : option HazardWorld :=
  match n with O => Some w | S n => let* w := hazard_turn w i false in hturns i n w end.

Lemma hturns_app i n m w w' : hturns i n w = Some w' -> hturns i (n + m) w = hturns i m w'.
Proof. revert w. induction n as [| n IH]; simpl; intros w E; [by simplify_eq |]. destruct (hazard_turn w i false); [by apply IH | done]. Qed.

(** The world in which processor [i] is at [f], the rest as in [w]. *)
Definition at_point (w : HazardWorld) (i : nat) (g : option nat) (d : HazardDomain) (f : option HazardCall) (fr : list nat) : HazardWorld :=
  mk_hworld d w.(sources) (<[i := mk_hcpu g f]> w.(hcpus)) w.(hnext) fr w.(leaked).

Lemma at_point_turn w i g d f fr d' f' e : (i < length w.(hcpus))%nat -> hazard.step d w.(sources) i f false = Some (d', f', e) ->
  (match e with HQuiet | HDropped _ => True | _ => False end) ->
  hazard_turn (at_point w i g d (Some f) fr) i false = Some (at_point w i g d' f' (match e with HDropped n => n :: fr | _ => fr end)).
Proof.
  intros L E Q. unfold hazard_turn, at_point. simpl. rewrite list_lookup_insert_eq by done. simpl. rewrite E. simpl. unfold hwith. simpl.
  destruct e; try done; simpl; by rewrite list_insert_insert_eq.
Qed.

Section scan.
Context (w : HazardWorld) (i : nat) (g : option nat) (L : (i < length w.(hcpus))%nat).

Lemma snapshot_run d fr k hz : (k <= length d.(hslots))%nat ->
  hturns i (length d.(hslots) - k + 1) (at_point w i g d (Some (ScanSlot k hz)) fr) = Some (at_point w i g d (Some (ScanLock (hz ++ omap id (drop k d.(hslots))))) fr).
Proof using L.
  intros Hk. remember (length d.(hslots) - k)%nat as m eqn:Em. revert k hz Hk Em. induction m as [| m IH]; intros k hz Hk Em.
  - simpl. assert (d.(hslots) !! k = None) as E by (apply lookup_ge_None; lia).
    rewrite (at_point_turn _ _ _ _ _ _ d (Some (ScanLock hz)) HQuiet L) by (simpl; by rewrite ?E). simpl. rewrite drop_ge by lia. simpl. by rewrite app_nil_r.
  - assert (is_Some (d.(hslots) !! k)) as [p E] by (apply lookup_lt_is_Some; lia).
    simpl. rewrite (at_point_turn _ _ _ _ _ _ d (Some (ScanSlot (S k) (match p with Some n => hz ++ [n] | None => hz end))) HQuiet L) by (simpl; by rewrite ?E).
    simpl. rewrite IH by lia. rewrite (drop_S _ _ _ E). destruct p; simpl; [by rewrite <- app_assoc | done].
Qed.

Lemma walk_run d fr hz todo kept :
  hturns i (length todo) (at_point w i g d (Some (ScanWalk hz todo kept)) fr) =
  Some (at_point w i g d (Some (ScanWalk hz [] (kept ++ List.filter (hazard.held hz) todo))) (rev (List.filter (fun n => negb (hazard.held hz n)) todo) ++ fr)).
Proof using L.
  revert fr kept. induction todo as [| n todo IH]; intros fr kept; simpl; [by rewrite app_nil_r |].
  destruct (hazard.held hz n) eqn:E.
  - rewrite (at_point_turn _ _ _ _ _ _ d (Some (ScanWalk hz todo (kept ++ [n]))) HQuiet L) by (simpl; by rewrite ?E). simpl. rewrite IH. by rewrite <- app_assoc.
  - rewrite (at_point_turn _ _ _ _ _ _ d (Some (ScanWalk hz todo kept)) (HDropped n) L) by (simpl; by rewrite ?E). simpl. rewrite IH. simpl. by rewrite <- app_assoc.
Qed.
End scan.

(** An allocation some slot names. *)
Definition named (slots : list (option nat)) (n : nat) : bool := hazard.held (omap id slots) n.

(** C33: A scan that finds the list free, and that no other processor interrupts,
    ends, and frees exactly the retired allocations that no slot names; the others
    stay on the list in their order. *)
Theorem hazard_scan_exact w i g : w.(hcpus) !! i = Some (mk_hcpu g (Some (ScanSlot 0 []))) -> w.(dom).(busy) = false ->
  exists m, hturns i m w = Some (at_point w i g (hazard.set_entries w.(dom) (List.filter (named w.(dom).(hslots)) w.(dom).(entries))) None
    (rev (List.filter (fun n => negb (named w.(dom).(hslots) n)) w.(dom).(entries)) ++ w.(hfreed))).
Proof.
  intros Ek Eb. assert (L : (i < length w.(hcpus))%nat) by (by apply lookup_lt_Some in Ek).
  assert (W : w = at_point w i g w.(dom) (Some (ScanSlot 0 [])) w.(hfreed)).
  { unfold at_point. rewrite list_insert_id by done. by destruct w. }
  set (hz := omap id w.(dom).(hslots)). set (d1 := hazard.set_busy (hazard.set_entries w.(dom) []) true).
  exists ((length w.(dom).(hslots) - 0 + 1) + (1 + (length w.(dom).(entries) + 2)))%nat. etransitivity; [exact (f_equal (hturns i _) W) |].
  rewrite (hturns_app _ _ _ _ _ (snapshot_run w i g L _ _ 0 [] ltac:(lia))). simpl.
  rewrite (at_point_turn _ _ _ _ _ _ d1 (Some (ScanWalk hz w.(dom).(entries) [])) HQuiet L) by (simpl; by rewrite ?Eb). simpl.
  rewrite (hturns_app _ _ _ _ _ (walk_run w i g L _ _ _ _ _)). simpl.
  rewrite (at_point_turn _ _ _ _ _ _ (hazard.set_entries d1 (List.filter (hazard.held hz) w.(dom).(entries))) (Some ScanUnlock) HQuiet L) by done. simpl.
  rewrite (at_point_turn _ _ _ _ _ _ (hazard.set_busy (hazard.set_entries d1 (List.filter (hazard.held hz) w.(dom).(entries))) false) None HQuiet L) by done.
  simpl. do 2 f_equal. unfold hazard.set_entries, hazard.set_busy, d1. simpl. by rewrite Eb.
Qed.

(** * All interleavings *)

(** C14: The destructor of an allocation does not run while a processor holds a
    guard on it, however the processors interleave, as long as no retirement
    reaches the list while a scan reads the slots or waits for the list. *)
Theorem hazard_no_use_after_free ncpus ps w i k n : hazard_reachable true ncpus ps w -> w.(hcpus) !! i = Some k -> k.(hguard) = Some n -> ~ n ∈ w.(hfreed).
Proof. intros R%hazard_reachable_ok Ek Eg. by apply (guards_ok _ R _ _ _ Ek Eg). Qed.

(** Whatever the processors do, every allocation is in exactly one place:
    linked, on its way to the list, retired, freed, or leaked because the list was
    full; so no destructor runs twice, and only an overflow loses an allocation. *)
Lemma hazard_every_allocation_once strict ncpus ps w : hazard_reachable strict ncpus ps w ->
  Permutation (seq 0 w.(hnext)) (hlinked w ++ retiring w ++ hretired w ++ w.(hfreed) ++ w.(leaked)).
Proof.
  intros R%hazard_accounted. destruct R as [_ A]. apply (proj2 (Permutation_count_occ Nat.eq_dec _ _)). intros n. change (cnt n (seq 0 w.(hnext)) = cnt n (hplaces w)).
  rewrite A. unfold cnt. destruct (Nat.ltb_spec n w.(hnext)).
  - apply NoDup_count_occ'; [apply seq_NoDup | apply in_seq; lia].
  - apply count_occ_not_In. rewrite in_seq. lia.
Qed.

(** * Runs *)

Inductive HazardEvent : Type := HTurns (i n : nat) | HAcquire (i p : nat) | HRelease (i : nat) | HScan (i : nat) | HReplace (i p : nat).

Definition no_scanb (w : HazardWorld) : bool := forallb (fun k => match k.(hcall) with Some f => negb (scanning f) | None => true end) w.(hcpus).

Fixpoint strict_turns (strict : bool) (i n : nat) (w : HazardWorld) : option HazardWorld :=
  match n with
  | O => Some w
  | S n => if negb strict || no_scanb w || match w.(hcpus) !! i with Some (mk_hcpu _ (Some (RetPush _))) => false | _ => true end
           then let* w := hazard_turn w i false in strict_turns strict i n w else None
  end.

Definition hazard_event (strict : bool) (v : HazardEvent) (w : HazardWorld) : option HazardWorld :=
  match v with
  | HTurns i n => strict_turns strict i n w
  | HAcquire i p => match w.(hcpus) !! i with Some (mk_hcpu None None) => if (p <? length w.(sources))%nat then Some (hazard_call w i None (AcqLoad p)) else None | _ => None end
  | HRelease i => match w.(hcpus) !! i with Some (mk_hcpu (Some _) None) => Some (hazard_call w i None RelStore) | _ => None end
  | HScan i => match w.(hcpus) !! i with Some (mk_hcpu g None) => Some (hazard_call w i g (ScanSlot 0 [])) | _ => None end
  | HReplace i p => replace_source w i p
  end.

Fixpoint hazard_events (strict : bool) (l : list HazardEvent) (w : HazardWorld) : option HazardWorld :=
  match l with [] => Some w | v :: l => let* w := hazard_event strict v w in hazard_events strict l w end.

Lemma no_scanb_ok w : no_scanb w = true -> no_scan w.
Proof.
  intros H. apply Forall_lookup. intros j k Ej f Ef. pose proof (proj1 (forallb_forall _ _) H k) as X. cbv beta in X. rewrite Ef in X.
  apply negb_true_iff, X, list_elem_of_In. by eapply list_elem_of_lookup_2.
Qed.

Lemma strict_turns_reachable strict ncpus ps i n w w' : hazard_reachable strict ncpus ps w -> strict_turns strict i n w = Some w' -> hazard_reachable strict ncpus ps w'.
Proof.
  revert w. induction n as [| n IH]; simpl; intros w R E; [by simplify_eq |]. destruct (_ || _ || _)%bool eqn:G; [| done].
  destruct (hazard_turn w i false) as [w1 |] eqn:T; [| done]. apply (IH w1); [| done]. eapply hazard_reachable_step; [done |].
  apply (hazard_run _ _ i false); [| done]. intros [hg hc] m -> Ek Ec. simpl in Ec. subst hc. rewrite Ek in G. rewrite orb_false_r in G. by apply no_scanb_ok.
Qed.

Lemma events_reachable strict ncpus ps l w w' : hazard_reachable strict ncpus ps w -> hazard_events strict l w = Some w' -> hazard_reachable strict ncpus ps w'.
Proof.
  revert w. induction l as [| v l IH]; simpl; intros w R E; [by simplify_eq |]. destruct (hazard_event strict v w) as [w1 |] eqn:V; [| done]. apply (IH w1); [| done].
  destruct v; simpl in V; [by eapply strict_turns_reachable | ..]; eapply hazard_reachable_step; [done | | done | | done | | done | ]; repeat (case_match; simplify_eq).
  - apply hazard_acquire; [done | by apply Nat.ltb_lt].
  - by eapply hazard_release.
  - by apply hazard_scan.
  - by eapply hazard_replace.
Qed.

(** Processor 0 reads the slots; then 1 takes a guard, 2 retires what it guards,
    and 0 walks the list. *)
Definition late_retire : list HazardEvent := [HReplace 0 0; HScan 0; HTurns 0 4; HAcquire 1 0; HTurns 1 3; HReplace 2 0; HTurns 2 3; HTurns 0 4].

(** C36: Without the restriction on retirements, a scan that read the slots before
    a reader published its pointer frees the allocation under the guard: the code
    reads the slots before it locks the list. *)
Theorem hazard_late_retire_unsafe : exists w i k n, hazard_reachable false 3 1 w /\ w.(hcpus) !! i = Some k /\ k.(hguard) = Some n /\ n ∈ w.(hfreed).
Proof.
  destruct (hazard_events false late_retire (hazard_start 3 1)) as [w |] eqn:E; [| by vm_compute in E].
  exists w, 1%nat, (mk_hcpu (Some 0%nat) None), 0%nat. split; [by eapply events_reachable; [apply hazard_reachable_start | exact E] |].
  vm_compute in E. injection E as <-. split; [done |]. split; [done |]. by left.
Qed.

(** * Witnesses *)

Definition guarded_run : list HazardEvent := [HReplace 0 0; HAcquire 1 0; HTurns 1 3; HReplace 0 0; HTurns 0 3; HScan 0; HTurns 0 7].
Definition guarded : HazardWorld := default (hazard_start 2 1) (hazard_events true guarded_run (hazard_start 2 1)).

Lemma guarded_reachable : hazard_reachable true 2 1 guarded.
Proof. apply (events_reachable true 2 1 guarded_run (hazard_start 2 1)); [apply hazard_reachable_start | by vm_compute]. Qed.

Lemma hazard_no_use_after_free_witness : guarded.(dom).(entries) = [0]%nat /\ ~ 0%nat ∈ guarded.(hfreed).
Proof. split; [by vm_compute |]. by apply (hazard_no_use_after_free 2 1 guarded 1 (mk_hcpu (Some 0%nat) None) 0 guarded_reachable). Defined.

Lemma hazard_every_allocation_once_witness : Permutation [0; 1]%nat (hlinked guarded ++ retiring guarded ++ hretired guarded ++ guarded.(hfreed) ++ guarded.(leaked)).
Proof. exact (hazard_every_allocation_once true 2 1 guarded guarded_reachable). Defined.

(** Slot 0 names allocation 7; 5 and 7 are retired. *)
Definition scan_at : HazardWorld := mk_hworld (mk_domain [Some 7%nat; None] false [5; 7]%nat 0) [] [mk_hcpu None (Some (ScanSlot 0 [])); mk_hcpu None None] 8 [] [].

Lemma hazard_scan_exact_witness : exists m w', hturns 0 m scan_at = Some w' /\ w'.(dom).(entries) = [7]%nat /\ w'.(hfreed) = [5]%nat.
Proof. destruct (hazard_scan_exact scan_at 0 None eq_refl eq_refl) as [m E]. exists m. eexists. split; [exact E | done]. Defined.
