(* ===== verification/RcuVariants.v ===== *)
(** The other variants of the crate: sleepable scopes ([rcu/src/sleepable.rs]),
    whose readers may be suspended and whose waits have a deadline; the batched
    reclaimer ([rcu/src/batched.rs]); the epoch pins ([rcu/src/epoch.rs]).

    Each atomic access is one step of a task; a reading of the clock is an argument
    of the step that takes it. *)

From S2P Require Import Prelude Word CapKind Capability.
Import object_table.

(** * Sleepable scopes *)

Inductive SyncOutcome : Type := Drained | Timeout | Cancelled.

Record SleepableScope : Type := mk_scope {
  active : Z;
  longest_pin_cycles : Z;
  budget_cycles : Z;
  over_budget : bool
}.

(** The program points of a reader: outside, inside [enter] after the count, with
    its guard, and in [SleepableGuard::drop]. *)
Inductive Reader : Type :=
  | Outside
  | Counted
  | Inside (entered : Z)
  | DropBudget (held : Z)
  | DropLongest (held budget : Z)
  | DropMax (held budget prev : Z)
  | DropLatch (held budget : Z)
  | DropCount.

(** The program points of [SleepableSync::poll]. *)
Inductive Sync : Type := PollActive | PollBudget | PollNow.

Module sleepable.
Implicit Types s : SleepableScope.

Definition new : SleepableScope := mk_scope 0 0 (2 ^ 64 - 1) false.

Definition set_active s n := mk_scope n s.(longest_pin_cycles) s.(budget_cycles) s.(over_budget).
Definition set_longest s n := mk_scope s.(active) n s.(budget_cycles) s.(over_budget).
Definition set_budget s n := mk_scope s.(active) s.(longest_pin_cycles) n s.(over_budget).
Definition set_over s b := mk_scope s.(active) s.(longest_pin_cycles) s.(budget_cycles) b.
Definition clear_over_budget s := set_over s false.

(** [enter]: the capability is checked before the reader is counted. *)
Definition enter s (t : table) (c : Cap SleepableReader Read) : Result (SleepableScope * Reader) CapError :=
  let? _ := check_live t c in
  Ok (set_active s (wrap 64 (s.(active) + 1)), Counted).

(** [Instant::cycles_since]. *)
Definition cycles_since (now earlier : Z) : Z := Z.max 0 (now - earlier).

(** A step of a reader that is in [enter] or drops its guard. *)
Definition reader_step s (r : Reader) (clock : Z) (spurious : bool) : option (SleepableScope * Reader) :=
  match r with
  | Outside => None
  | Counted => Some (s, Inside clock)
  | Inside entered => Some (s, DropBudget (cycles_since clock entered))
  | DropBudget held => Some (s, DropLongest held s.(budget_cycles))
  | DropLongest held budget =>
      let prev := s.(longest_pin_cycles) in
      Some (s, if prev <? held then DropMax held budget prev else DropLatch held budget)
  | DropMax held budget prev =>
      if (s.(longest_pin_cycles) =? prev) && negb spurious then Some (set_longest s held, DropLatch held budget)
      else let p := s.(longest_pin_cycles) in Some (s, if p <? held then DropMax held budget p else DropLatch held budget)
  | DropLatch held budget => Some (if budget <? held then set_over s true else s, DropCount)
  | DropCount => Some (set_active s (wrap 64 (s.(active) - 1)), Outside)
  end.

(** A step of a poll: the next point, or the result ([None] is [Pending]). *)
Definition poll_step s (deadline : Z) (p : Sync) (clock : Z) : Sync + option SyncOutcome :=
  match p with
  | PollActive => if s.(active) =? 0 then inr (Some Drained) else inl PollBudget
  | PollBudget => if s.(over_budget) then inr (Some Timeout) else inl PollNow
  | PollNow => if deadline <=? clock then inr (Some Timeout) else inr None
  end.
End sleepable.

(** The scope, its readers, and the durations whose update is complete. *)
Record ScopeWorld : Type := mk_scopes { scope : SleepableScope; readers : list Reader; durations : list Z }.

(** The duration a step of a reader has entered in the watermark. *)
Definition recorded (r r' : Reader) : list Z :=
  match r, r' with (DropLongest _ _ | DropMax _ _ _), DropLatch held _ => [held] | _, _ => [] end.

Inductive scope_step (w : ScopeWorld) : ScopeWorld -> Prop :=
  | scope_enter i t c s' r' : w.(readers) !! i = Some Outside -> sleepable.enter w.(scope) t c = Ok (s', r') ->
      scope_step w (mk_scopes s' (<[i := r']> w.(readers)) w.(durations))
  | scope_turn i r clock spurious s' r' : is_u 64 clock -> w.(readers) !! i = Some r -> sleepable.reader_step w.(scope) r clock spurious = Some (s', r') ->
      scope_step w (mk_scopes s' (<[i := r']> w.(readers)) (recorded r r' ++ w.(durations)))
  | scope_budget n : scope_step w (mk_scopes (sleepable.set_budget w.(scope) n) w.(readers) w.(durations))
  | scope_clear : scope_step w (mk_scopes (sleepable.clear_over_budget w.(scope)) w.(readers) w.(durations)).

Inductive scope_reachable (n : nat) : ScopeWorld -> Prop :=
  | scope_reachable_start : scope_reachable n (mk_scopes sleepable.new (replicate n Outside) [])
  | scope_reachable_step w w' : scope_reachable n w -> scope_step w w' -> scope_reachable n w'.

(** * The invariant *)

Definition counted (r : Reader) : nat := match r with Outside => 0 | _ => 1 end.
Definition census (l : list Reader) : nat := sum_list_with counted l.
Definition longest (l : list Z) : Z := foldr Z.max 0 l.

Lemma census_insert l i r r' : l !! i = Some r -> (census (<[i := r']> l) + counted r = census l + counted r')%nat.
Proof. revert i. induction l as [| x l IH]; intros [| i] E; simplify_eq/=; unfold census in *; simpl; [lia |]. specialize (IH i E). lia. Qed.

Lemma census_length l : (census l <= length l)%nat.
Proof. induction l as [| x l IH]; unfold census in *; simpl; [lia |]. destruct x; simpl; lia. Qed.

Lemma census_zero l i r : census l = 0%nat -> l !! i = Some r -> r = Outside.
Proof. intros Z E. pose proof (census_insert l i r Outside E) as H. destruct r; simpl in *; [done | lia..]. Qed.

Lemma census_outside n : census (replicate n Outside) = 0%nat.
Proof. unfold census. by induction n. Qed.

(** The value a reader expects in the watermark is below its own duration. *)
Definition reader_ok (r : Reader) : Prop := match r with DropMax held _ prev => prev < held | _ => True end.

Record scope_ok (n : nat) (w : ScopeWorld) : Prop := {
  scope_length : length w.(readers) = n;
  scope_active : w.(scope).(active) = wrap 64 (Z.of_nat (census w.(readers)));
  scope_longest : w.(scope).(longest_pin_cycles) = longest w.(durations);
  scope_points : Forall reader_ok w.(readers)
}.

Lemma reader_turn s r clock sp s' r' : sleepable.reader_step s r clock sp = Some (s', r') -> reader_ok r ->
  s'.(active) = wrap 64 (s.(active) + Z.of_nat (counted r') - Z.of_nat (counted r)) \/ s'.(active) = s.(active) /\ counted r' = counted r.
Proof.
  intros E O. destruct r; simpl in E; repeat case_match; simplify_eq; simpl; auto. left. f_equal. lia.
Qed.

Lemma reader_longest s r clock sp s' r' l : sleepable.reader_step s r clock sp = Some (s', r') -> reader_ok r -> s.(longest_pin_cycles) = longest l ->
  s'.(longest_pin_cycles) = longest (recorded r r' ++ l) /\ reader_ok r'.
Proof.
  intros E O L. unfold longest in *. destruct r; simpl in *; repeat case_match; simplify_eq; simpl in *; rewrite <- ?L;
    repeat match goal with
           | H : (_ && _)%bool = true |- _ => apply andb_true_iff in H as [? ?]
           | H : (_ =? _) = true |- _ => apply Z.eqb_eq in H
           | H : (_ <? _) = true |- _ => apply Z.ltb_lt in H
           | H : (_ <? _) = false |- _ => apply Z.ltb_ge in H
           end; split; lia || done.
Qed.

Lemma scope_step_ok n w w' : scope_step w w' -> scope_ok n w -> scope_ok n w'.
Proof.
  intros S [L A M P]. destruct S as [i t c s' r' E T | i r clock sp s' r' _ E T | m |]; [| | by split..].
  - unfold sleepable.enter in T. destruct (check_live t c); simplify_eq/=. pose proof (census_insert _ _ _ Counted E) as C. simpl in C.
    split; simpl; [by rewrite length_insert | rewrite A, wrap_add_l; f_equal; lia | done | by apply Forall_insert].
  - pose proof (Forall_lookup_1 _ _ _ _ P E) as O. destruct (reader_longest _ _ _ _ _ _ _ T O M) as [M' O']. pose proof (census_insert _ _ _ r' E) as C.
    split; simpl; [by rewrite length_insert | | done | by apply Forall_insert].
    destruct (reader_turn _ _ _ _ _ _ T O) as [-> | [-> X]]; [| rewrite A; f_equal; lia].
    rewrite A, <- Z.add_sub_assoc, wrap_add_l. f_equal. lia.
Qed.

Lemma scope_reachable_ok n w : scope_reachable n w -> scope_ok n w.
Proof.
  induction 1 as [| w w' R IH S]; [| by eapply scope_step_ok]. split; simpl; [apply length_replicate | by rewrite census_outside | done |].
  by apply Forall_replicate.
Qed.

(** C34: However readers enter, leave and interleave, a wait that reports
    [Drained] read the count at a moment when no task was inside the scope, and the
    watermark is the longest of the durations of the readers that have updated it:
    no update is lost. *)
Theorem sleepable_drained_means_empty n w d clock : Z.of_nat n < 2 ^ 64 -> scope_reachable n w ->
  (sleepable.poll_step w.(scope) d PollActive clock = inr (Some Drained) <-> Forall (fun r => r = Outside) w.(readers)) /\
  w.(scope).(longest_pin_cycles) = longest w.(durations).
Proof.
  intros Hn R%scope_reachable_ok. destruct R as [L A M _]. split; [| done]. pose proof (census_length w.(readers)) as B.
  rewrite wrap_small in A by (unfold is_u; lia). simpl. rewrite A. split.
  - destruct (Z.eqb_spec (Z.of_nat (census (readers w))) 0) as [H0 |]; [| done]. intros _. apply Forall_lookup. intros i r E. apply (census_zero (readers w) i r); [lia | done].
  - intros F. assert (readers w = replicate (length (readers w)) Outside) as ->; [| by rewrite census_outside].
    clear - F. induction F as [| r l -> F IH]; [done |]. simpl. by f_equal.
Qed.

(** One reader inside, and out again. *)
Definition visitor : Cap SleepableReader Read * table := bootstrap SleepableReader Read [].

Lemma sleepable_drained_means_empty_witness :
  sleepable.poll_step sleepable.new 0 PollActive 0 = inr (Some Drained) /\
  exists s r, sleepable.enter sleepable.new (snd visitor) (fst visitor) = Ok (s, r) /\ sleepable.poll_step s 9 PollActive 0 <> inr (Some Drained).
Proof.
  destruct (sleepable_drained_means_empty 1 (mk_scopes sleepable.new (replicate 1 Outside) []) 0 0 ltac:(lia) (scope_reachable_start 1)) as [[_ D] _].
  split; [apply D; by repeat constructor |].
  assert (S : scope_step (mk_scopes sleepable.new (replicate 1 Outside) []) (mk_scopes (mk_scope 1 0 (2 ^ 64 - 1) false) [Counted] [])).
  { exact (scope_enter (mk_scopes sleepable.new (replicate 1 Outside) []) 0 (snd visitor) (fst visitor) (mk_scope 1 0 (2 ^ 64 - 1) false) Counted eq_refl eq_refl). }
  eexists _, _. split; [by vm_compute |]. intros X.
  destruct (sleepable_drained_means_empty 1 _ 9 0 ltac:(lia) (scope_reachable_step 1 _ _ (scope_reachable_start 1) S)) as [[C _] _].
  specialize (C X). by inversion C.
Defined.

(** * The batched reclaimer *)

Definition BATCH_CAP : nat := 128.

Record ReclaimBatch : Type := mk_batch { callbacks : list nat; node_id : Z }.

Record BatchedReclaimer : Type := mk_reclaimer {
  active_batch : ReclaimBatch;
  total_submitted : Z;
  total_drained : Z;
  pace_hint_node : Z
}.

Module batched.
Implicit Types (b : ReclaimBatch) (r : BatchedReclaimer).

Definition push b (cb : nat) : ReclaimBatch := mk_batch (b.(callbacks) ++ [cb]) b.(node_id).
Definition is_full b : bool := (BATCH_CAP <=? length b.(callbacks))%nat.

(** The batch after [drain], and the callbacks it ran. *)
Definition drain b : ReclaimBatch * list nat := (mk_batch [] b.(node_id), b.(callbacks)).

Definition new (node : Z) : BatchedReclaimer := mk_reclaimer (mk_batch [] node) 0 0 0.

(** [submit]: the count, then the append under the lock. *)
Definition submit_count r : BatchedReclaimer := mk_reclaimer r.(active_batch) (wrap 64 (r.(total_submitted) + 1)) r.(total_drained) r.(pace_hint_node).
Definition submit_push r (cb : nat) : BatchedReclaimer * bool :=
  let b := push r.(active_batch) cb in
  (mk_reclaimer b r.(total_submitted) r.(total_drained) r.(pace_hint_node), is_full b).

(** [flush], which holds the lock from its first line to its last. *)
Definition flush r : BatchedReclaimer * list nat :=
  let n := Z.of_nat (length r.(active_batch).(callbacks)) in
  let '(b, ran) := drain r.(active_batch) in
  (mk_reclaimer b r.(total_submitted) (wrap 64 (r.(total_drained) + n)) r.(pace_hint_node), ran).

Definition pace r (node quantum : Z) : BatchedReclaimer :=
  mk_reclaimer r.(active_batch) r.(total_submitted) r.(total_drained) (Z.lor (Z.shiftl node 32) quantum).

Definition pending r : Z := Z.max 0 (r.(total_submitted) - r.(total_drained)).
End batched.

(** Tasks between the two halves of [submit], and the callbacks run so far. *)
Record BatchWorld : Type := mk_bworld { reclaimer : BatchedReclaimer; submitting : list nat; ran : list nat; submitted : nat }.

Inductive batch_step (w : BatchWorld) : BatchWorld -> Prop :=
  | batch_count cb : batch_step w (mk_bworld (batched.submit_count w.(reclaimer)) (cb :: w.(submitting)) w.(ran) (S w.(submitted)))
  | batch_push i cb : w.(submitting) !! i = Some cb ->
      batch_step w (mk_bworld (batched.submit_push w.(reclaimer) cb).1 (delete i w.(submitting)) w.(ran) w.(submitted))
  | batch_flush : batch_step w (mk_bworld (batched.flush w.(reclaimer)).1 w.(submitting) (w.(ran) ++ (batched.flush w.(reclaimer)).2) w.(submitted))
  | batch_pace node quantum : batch_step w (mk_bworld (batched.pace w.(reclaimer) node quantum) w.(submitting) w.(ran) w.(submitted)).

Inductive batch_reachable (node : Z) : BatchWorld -> Prop :=
  | batch_reachable_start : batch_reachable node (mk_bworld (batched.new node) [] [] 0)
  | batch_reachable_step w w' : batch_reachable node w -> batch_step w w' -> batch_reachable node w'.

Record batch_ok (w : BatchWorld) : Prop := {
  batch_submitted : w.(reclaimer).(total_submitted) = wrap 64 (Z.of_nat w.(submitted));
  batch_drained : w.(reclaimer).(total_drained) = wrap 64 (Z.of_nat (length w.(ran)));
  batch_places : w.(submitted) = (length w.(submitting) + length w.(reclaimer).(active_batch).(callbacks) + length w.(ran))%nat
}.

Lemma batch_reachable_ok node w : batch_reachable node w -> batch_ok w.
Proof.
  induction 1 as [| w w' R [A B C] S]; [by split |]. destruct S as [cb | i cb E | | n u]; split; simpl in *; rewrite ?length_app; simpl; try done; try lia.
  - rewrite A, wrap_add_l. f_equal. lia.
  - rewrite length_delete by done. apply lookup_lt_Some in E. lia.
  - rewrite B, wrap_add_l. f_equal. lia.
Qed.

(** With fewer than 2^64 submissions, [pending] counts the callbacks that have not
    run: those in the batch and those whose [submit] is half done. *)
Lemma batched_pending_exact node w : batch_reachable node w -> Z.of_nat w.(submitted) < 2 ^ 64 ->
  batched.pending w.(reclaimer) = Z.of_nat (length w.(submitting) + length w.(reclaimer).(active_batch).(callbacks)).
Proof. intros [A B C]%batch_reachable_ok H. unfold batched.pending. rewrite A, B, !wrap_small by (unfold is_u; lia). lia. Qed.

(** * Epoch pins *)

Record EpochState : Type := mk_epochs { EPOCH : Z; PINNED : list Z }.

Module epoch.
Implicit Types e : EpochState.

Definition UNPINNED : Z := 2 ^ 64 - 1.
Definition start (ncpus : nat) : EpochState := mk_epochs 1 (replicate ncpus UNPINNED).

Definition pin e (i : nat) : EpochState := mk_epochs e.(EPOCH) (<[i := e.(EPOCH)]> e.(PINNED)).
Definition drop_guard e (i : nat) : EpochState := mk_epochs e.(EPOCH) (<[i := UNPINNED]> e.(PINNED)).
Definition advance e : EpochState * Z := let t := wrap 64 (e.(EPOCH) + 1) in (mk_epochs t e.(PINNED), t).
Definition min_pinned e : Z := foldl (fun min v => if v <? min then v else min) UNPINNED e.(PINNED).

(** [sync_blocking] and [defer_drop]: the state after, and what is freed. *)
Definition sync_blocking e : EpochState := (advance e).1.
Definition defer_drop e (n : nat) : EpochState * list nat := (sync_blocking e, [n]).
End epoch.

Lemma foldl_min l m : foldl (fun min v => if v <? min then v else min) m l <= m /\ forall v, v ∈ l -> foldl (fun min v => if v <? min then v else min) m l <= v.
Proof.
  revert m. induction l as [| x l IH]; intros m; simpl; [split; [lia | by intros v ?%elem_of_nil] |].
  destruct (IH (if x <? m then x else m)) as [H1 H2]. assert ((if x <? m then x else m) <= m /\ (if x <? m then x else m) <= x) by (destruct (Z.ltb_spec x m); lia).
  split; [lia |]. intros v [-> | Hv]%elem_of_cons; [lia | by apply H2].
Qed.

(** One pin on a processor bounds [min_pinned] until its guard is dropped. *)
Lemma epoch_pin_bounds e i : (i < length e.(PINNED))%nat -> epoch.min_pinned (epoch.pin e i) <= e.(EPOCH).
Proof. intros L. apply foldl_min. eapply list_elem_of_lookup_2. by apply list_lookup_insert_eq. Qed.

(** A second guard on the same processor ends the pin of the first. *)
Lemma epoch_nested_pin_lost : exists e, e = epoch.drop_guard (epoch.pin (epoch.pin (epoch.start 2) 0) 0) 0 /\ epoch.min_pinned e = epoch.UNPINNED.
Proof. eexists. split; [done |]. by vm_compute. Qed.

(** [defer_drop] frees its value at once, whatever is pinned. *)
Lemma epoch_drop_ignores_pins : exists e, epoch.min_pinned e < (epoch.defer_drop e 7).1.(EPOCH) /\ (epoch.defer_drop e 7).2 = [7]%nat.
Proof. exists (epoch.pin (epoch.start 2) 1). by vm_compute. Qed.
